(* ===== verification/_CoqProject ===== *)
-Q . S2P
Prelude.v
Number.v
Bencoding.v
Bytes.v
NodeId.v
Contact.v
RoutingTable.v
DhtStorage.v
Crypto.v
MutableData.v
DataStore.v
ProximityMap.v
SplitString.v
Url.v
Http.v
Request.v
CacheControl.v
HashList.v
DhtNode.v
DhtLookup.v
HttpSign.v
Base64.v
SignedHead.v
BlockSign.v
SignedBody.v
HttpStore.v
StoredBody.v
EndToEnd.v
Announcer.v
I2pAnnouncer.v
DhtGroups.v
CacheClient.v
MultiPeer.v
Regex.v
Routing.v
Access.v
ClientServe.v
LruCache.v
Injector.v
Bep5Announcer.v
Bep5Client.v
CryptoStream.v
LocalDiscovery.v
PeerServe.v
FrontEnd.v
I2pAddress.v
ClientOptions.v
InjectorOptions.v
