(* ===== verification/Prelude.v ===== *)
(** * Ouinet: a verification development

    Ouinet is a censorship circumvention system: a client proxies the HTTP
    requests of a browser, asks injectors to fetch and sign the responses,
    keeps signed responses in a cache that it shares with other clients, and
    finds the peers that hold them through the BitTorrent DHT.  This library
    models the parts that decide what is stored, found, trusted and served;
    sockets, coroutines, files and OpenSSL stay outside.

    ** The parts and how they interact

    - The DHT node ([src/bittorrent/]).  Messages and items are bencoded
      values; contacts and endpoints travel in compact form; the routing table
      keeps contacts in buckets by the XOR distance of their identifiers; the
      storage of a node holds the peers of swarms (tracker), immutable and
      mutable items (data store) and the write tokens that guard announcements;
      lookups collect candidates in a proximity map; the node answers the
      queries of others from all of these.
    - The HTTP side ([src/http_util.h], [src/request.cpp],
      [src/cache_control.cpp]).  A request is classified, canonicalised and
      turned into a resource identifier; the cache policy decides between the
      stored response and a fresh one, which are fetched concurrently.
    - The client ([src/client.cpp], [src/route.cpp], [src/dispatcher.cpp]).  Each
      request of a user agent is authenticated, given a route, and sent along the
      channels of the route; the injector checks the target before it connects.
    - The signed cache ([src/cache/]).  The injector signs the head of a
      response and, block by block, a hash chain over its body; the client checks
      both before it passes anything on; hash lists carry the chain to other
      peers.

    ** The files

    - [Prelude]: the [let?] notation for early returns, tactics, bytes, the
      lexicographic order of byte strings, [is_digit] and the like.
    - [Number]: [src/parse/number.h], both overloads of [parse::number] for
      every width; the byte behind the view is an argument because the code
      reads it.  [std::to_string].
    - [Bencoding]: [src/bittorrent/bencoding.{h,cpp}].  [BencodedValue] has the
      constructors of the variant; the destructive parser threads the rest of
      the input and has a fuel argument.
    - [Bytes]: [src/util/bytes.h], hexadecimal and printable forms.
    - [NodeId]: [src/bittorrent/node_id.{h,cpp}], an identifier is a list of
      twenty bytes; CRC-32C and the random source are parameters.
    - [Contact]: [code.h], [node_contact.h], [is_martian.h], [peer_filter.cpp].
    - [RoutingTable]: [routing_table.{h,cpp}].  An operation takes the time of
      the clock and returns the new table and the pings to send; [fail_node]
      and [try_add_node] are the whole handlers.
    - [DhtStorage]: [dht_storage.{h,cpp}], Modules [Tokens], [Swarms] (the
      vector of peers with the map of its indices) and [Tracker].
    - [DataStore]: the other half of [dht_storage.{h,cpp}].
    - [Crypto]: the class [SignatureScheme], what the code uses of
      [util/sign.h], with laws that [MutableData] and [HashList] are proved
      against and a concrete instance for the witnesses.
    - [MutableData]: [mutable_data.{h,cpp}]; the exception of an oversized
      value is a result.
    - [ProximityMap]: [proximity_map.h].
    - [DhtNode]: [DhtNode::handle_query] of [mainline_dht.cpp], a function of
      the node, the clock and the sender that returns the datagram to send; the
      changes a query can make are the relation [effect], the life of a node is
      a run of events ([node_run]).
    - [DhtLookup]: the client side of [mainline_dht.cpp] and [collect.h]:
      Module [Transactions] (transaction strings, [receive_loop]), Module
      [Collect] (the concurrent search as the step relation [collect_step]),
      Module [Lookups] (what is done with the responses).
    - [SplitString]: [src/split_string.h].  A view is a list with the
      buffer behind it, where the code reads past its end.
    - [Url]: [src/util/url.{h,cpp}]; the regular expression is a deterministic
      parser.
    - [Http]: [http_util.{h,cpp}], header fields as an ordered list of names
      and values with case-insensitive lookup; the table of field names of
      Boost.Beast is the class [FieldTable].
    - [Request]: [request.cpp], [cache_type.cpp], [cache/resource_id.cpp] and
      [resource_key.cpp].
    - [CacheControl]: [cache_control.cpp].  The two concurrent fetches are a
      function of a schedule, the order in which their jobs complete; dates
      are the class [PosixTime].
    - [HashList]: [cache/chain_hasher.h], [cache/hash_list.{h,cpp}]; SHA-512
      is a parameter, the body arrives as a list of parts.

    - [HttpSign]: [cache/signed_head.{h,cpp}] and the head half of
      [cache/http_sign.cpp]: signature headers, signing and verifying heads,
      trailers and their merging.  Base64 and Beast's transfer codings are the
      classes [Base64] and [TransferCoding] with laws.
    - [SignedHead]: theorems about [HttpSign].
    - [BlockSign]: the readers of [cache/http_sign.cpp] and
      [util/quantized_buffer.h].  A reader is a function from the state and the
      parts that are still to come to a part, an error or a fault; [drain] and
      [delivers] read to the end.  Beast's chunk extensions, keep-alive and table
      of status codes are the class [BeastOps].
    - [SignedBody]: theorems about chains of blocks and the readers.
    - [Base64]: [base64_encode] and [base64_decode] of [util.cpp]; the table of
      characters is a class.  It has an instance of the class [Base64] and
      proves its laws.
    - [HttpStore]: [cache/http_store.cpp] and [cache/resource.h]: the files of a
      response, the writer that splits it, the reader of whole responses and
      ranges, and the directories as a finite map.  How Beast prints and parses
      a head is the class [HeadCodec].
    - [StoredBody]: theorems about [HttpStore].
    - [EndToEnd]: the composition of injector, client, store and second client.
    - [Announcer]: [cache/announcer.cpp], the queue of keys and the loop that
      announces them as steps on a shared state.
    - [I2pAnnouncer]: [ouiservice/i2p/announcer.cpp], in the same way; pointers
      into the vector of entries can become invalid.
    - [DhtGroups]: [cache/dht_groups.{h,cpp}], groups in memory and in their
      directory, which is a finite map; file operations can fail.
    - [CacheClient]: [cache/client.cpp], the composition of [HttpStore],
      [DhtGroups], [Announcer] and [I2pAnnouncer], as runs of events.
    - [MultiPeer]: [cache/multi_peer_reader.cpp] and [HashList::load] of
      [cache/hash_list.cpp]: a read is a function of the state and a list of
      inputs (events of the peers, answers, random choices), and is still waiting
      when the inputs are over; the loop that retries has as much fuel as there
      are inputs, and every turn takes one.
    - [Regex]: what the client uses of [boost::regex], expressions as a data type
      with a matcher by derivatives that is proved equal to the language of an
      expression; the expressions of [http_util.h] for local and private addresses.
    - [Routing]: [route.cpp] and [dispatcher.cpp], the channels that a request may
      take and the order in which they are tried.
    - [Access]: [authenticate.h], the proxy credentials, and the targets that
      an injector accepts ([resolve_target] of [injector.cpp]).
    - [ClientServe]: [Client::State::serve_request] of [client.cpp], one step for
      each request of a connection, on top of [Routing], [Access] and [Request].
    - [LruCache]: [util/lru_cache.h] and [util/persistent_lru_cache.{h,cpp}], the
      list and the map with nodes as numbers; elements, files and the steps of
      insertions that overlap.
    - [Injector]: [serve] of [injector.cpp] with [origin_pools.h] and
      [connection_pool.h]: the requests of all clients as steps of a state with the
      shared pools of connections to origins.
    - [Bep5Announcer]: [bittorrent/bep5_announcer.cpp], the loop as a state with the
      events that it waits for.
    - [Bep5Client]: [ouiservice/bep5/client.cpp] with [util/semaphore.h]: swarms on top
      of [LruCache], the choice of candidates, [connect] with its coroutines as
      steps of a state, the pinger of injectors.
    - [CryptoStream]: [util/crypto_stream.h], with the key stream as a parameter.
    - [LocalDiscovery]: [cache/local_peer_discovery.cpp] and [parse/endpoint.h], the
      handlers of datagrams with the map of peers.
    - [PeerServe]: [peer_message.cpp], [serve_local] of [cache/client.cpp] and
      [serve_peer_request] of [client.cpp], on top of [HttpStore] and [CryptoStream].
    - [FrontEnd]: [client_front_end.cpp] without the text of its pages, the settings of
      [client_config.h] with the file of saved options, and [bittorrent/bootstrap.cpp].
    - [I2pAddress]: [ouiservice/i2p/address.cpp].
    - [ClientOptions] and [InjectorOptions]: [client_config.cpp] and
      [injector_config.cpp], the options with their sources and the checks of the
      constructors, on top of an interface to Boost.Program_options with its laws.

    ** What the theorems show

    - Routing table: every run keeps the invariant (bucket sizes, every
      contact in the bucket of its distance, no duplicates), and the code leaves
      the bits of an identifier exactly when contacts with the node's own
      identifier have filled 161 buckets; stored contacts are found; lookups
      start with the bucket of the target; the queues of candidates stay empty,
      against the description.
    - DHT node: any run of events keeps all parts of a node consistent; every
      query gets one well-formed answer except for four faults of the code (views
      of the transaction and of a short token that have become stale, a missing
      routing table, bits behind an identifier); nobody
      can announce another address, tokens are accepted for ten minutes, stored
      items are only superseded by newer ones; searches evaluate one contact of
      every identifier they hear of and return the data of the closest nodes.  Three theorems
      state where the code does not do what it should: puts of immutable items
      are refused, [get] with a sequence number is inverted, a put reports
      success exactly if a write failed.
    - Codecs: bencoding, compact contacts, endpoints, mutable items, hash
      lists, URLs and content ranges are inverted by their decoders; what the
      decoders accept is characterised; parsers of numbers equal their
      specification, with their error at the maximum of the type.
    - Storage: the tracker refines a map from swarm and endpoint to the last
      announcement; items are addressed by content and served until they
      expire; tokens stay valid.
    - Security: the signed buffer of a mutable item and the string signed for
      a hash list bind everything that they should, as far as the digest tells
      the texts that were hashed apart ([no_clash], for two finite lists of
      texts); requests to the cache carry canonical fields only.
    - Signed responses: a head that verifies has only headers that a good
      signature covers, and equal signed strings mean equal headers; whatever a
      peer sends, the data passed on is a beginning of the injected body, as far
      as SHA-512 tells the texts hashed for the one from those hashed for the
      other; and what the injector makes of a response whose head is like
      [origin_head], the client accepts and passes on whole.  Where the code falls
      short, and what [origin_head] excludes: repeated headers
      with an empty first value, origins that send a digest, equal signatures in
      head and trailer, partial responses that start behind the first block.
    - Stored responses: what is stored is read back with its blocks, signatures
      and chain hashes, ranges in whole blocks; a store that fails when the new
      entry is renamed loses the old one; and a response that was signed, verified,
      stored and read again is accepted by another client with the body of the
      origin, under the conditions that the theorem names.
    - Announcer: the queue stays in the order of the last attempts, a new key is
      announced in its turn and without the help of a client; a removal during an
      announcement is lost, and a key that is added during the sleep of the loop
      waits for its end.  The same for I2P, where a call during an announcement
      can invalidate the pointer to the entry.
    - Cache client: the groups refine a map with pinned names, also over restarts
      and failing file operations, truncation and removal apart; in every run each
      group is announced and its items can be read, if names are short and those
      operations and the renaming of entries do not fail; and pinned groups survive
      collection, purge and restart.
    - Multi-peer reader: whatever peers answer, what is delivered is a beginning
      of the body that was injected with the head, as far as SHA-512 tells the
      texts apart; with peers that answer right it
      is the whole; a block is given up only when the peers that have it have failed.
      Where the code falls short: an answer without a body ends the response, and a
      hash list that does not come in time lets the reader wait for ever.
    - Routing and serving: a route has exactly the channels that the configuration
      allows; a request that is marked private, or with a method whose response must
      not be shared, reaches no public injector and no distributed cache; requests to
      the local machine stay there; what is tried lies within the route, and the
      next channel is tried when one fails.  An injector connects to no local or
      private address; credentials are accepted exactly if they are those of the
      configuration; a client acts only for requests that it should accept, and
      stores only responses that may be cached, that answer a request which was sent
      to an injector or the distributed cache and say that they come from there.  Where the code falls short: private
      addresses with other methods go to an injector, an error reply ends the
      connections that should be kept, a CONNECT to another port goes to the wrong one,
      and web sockets escape the restrictions of the route.
    - Injector: whatever its clients ask for and however their requests interleave,
      it sends requests whose responses are to be signed only for acceptable requests
      of clients, to the host of the URL, and all requests only over connections that
      were opened for the same host, with TLS exactly if the URL asks for it, to
      addresses that the resolver gave and that are allowed.  Where the code falls short: a
      connection with an unread response is used again, a bad port ends the program, pools
      forget the connections in use, certificates are checked for another name than the
      connection is kept for.
    - Finding injectors: swarms keep usable peers only; [connect] tries each endpoint
      that was found once, and returns nothing only when all have failed; it ends when it looks
      in one swarm or finds few candidates.  Where the code falls short: the semaphore
      loses a lock each time one is handed over, so that [connect] can wait for ever, and a
      connection that comes while it waits for a lock is lost.  A manual announcer
      loses no request.
    - Peers: what a peer asks for is understood, and a response or a hash list in the
      store reaches who knows its URL through the encrypted stream, however it is cut;
      in plain text only errors are sent.  On the local network a node is heard only if it
      advertises one IPv4 endpoint.
    - Front end: settings are changed only by users who have access, with the token of the
      portal where changes must be posted; the toggles of the portal work (that of the
      metrics where they are configured), the level that
      it shows is the one in force, and the saved options are those that are set.  Where
      the code falls short: two forms of the portal are always refused.
    - Configuration: what a constructor accepts is consistent; the settings that a client
      saves come back at its next start, and an injector keeps its key and its swarm once
      its key file could be written.
      Names of I2P keys lose nothing of the digest.
    - LRU caches: the cache in memory holds the last keys that were used, with their last
      values; the persistent one refines it and gives the same after a restart, unless
      insertions overlap: then a file can be lost.
    - Cache policy: for every schedule the policy answers, never serves an
      expired response silently and prefers a fresh response where it must;
      cacheability and lifetimes equal their specification.

    ** Bounds and fuel

    Integers are [Z] with wrap-around written where the code can reach it
    ([size_t], [uint64_t], [int64_t], [time_t] in seconds and nanoseconds of
    the steady clock).  Fuel is never observable: the decoder of bencoded
    values takes the length of the input plus one and each of its loops
    consumes a byte; [SplitString] and the byte ranges take the length of the
    string plus one; the expiry of a swarm takes its number of peers; the loop
    of the hash list parser takes the length of its buffer plus one, because
    every step but the last consumes from it.  The theorems state that the
    result is not that of exhausted fuel.  [drain] takes as many steps as parts
    are wanted; [delivers] is the same without a bound, and the two agree
    ([delivers_drain]).

    ** What is not modelled

    Sockets, timers, coroutines and cancellation (the order of completions is
    an argument where it matters, in [CacheControl]); OpenSSL, zlib and the
    Boost parsers (parameters or classes with their documented laws); failures
    of reading files (those of writing are arguments of the operations), content
    directories and persistence of DHT state; the start of the
    programs and the text of HTML pages; Java and Swift
    bindings. *)
From Stdlib Require Export ZArith Lia.
From Stdlib Require Export Strings.Byte Sorting.Sorted.
From Stdlib Require String.
From stdpp Require Export prelude gmap strings.
#[global] Set Default Goal Selector "!".
#[export] Set Warnings "-clear-no-such-hyp".
#[global] Open Scope Z_scope.

(** ** Notation and automation *)

Declare Scope ou_scope.
Delimit Scope ou_scope with ou.
#[global] Open Scope ou_scope.

(** Early return of [boost::none] / [std::nullopt]. *)
Notation "'let?' p := c 'in' k" :=
  (match c with Some p => k | None => None end)
  (at level 10, p pattern, k at level 200) : ou_scope.

Create HintDb ou.

(** Splits every boolean comparison in sight into the proposition it decides. *)
Ltac zbool :=
  repeat match goal with
  | H : context [Z.leb ?a ?b] |- _ => destruct (Z.leb_spec a b)
  | H : context [Z.ltb ?a ?b] |- _ => destruct (Z.ltb_spec a b)
  | H : context [Z.eqb ?a ?b] |- _ => destruct (Z.eqb_spec a b)
  | |- context [Z.leb ?a ?b] => destruct (Z.leb_spec a b)
  | |- context [Z.ltb ?a ?b] => destruct (Z.ltb_spec a b)
  | |- context [Z.eqb ?a ?b] => destruct (Z.eqb_spec a b)
  end.

(** The same for comparisons of natural numbers. *)
Ltac nbool :=
  repeat match goal with
  | H : context [Nat.leb ?a ?b] |- _ => destruct (Nat.leb_spec a b)
  | H : context [Nat.ltb ?a ?b] |- _ => destruct (Nat.ltb_spec a b)
  | H : context [Nat.eqb ?a ?b] |- _ => destruct (Nat.eqb_spec a b)
  | |- context [Nat.leb ?a ?b] => destruct (Nat.leb_spec a b)
  | |- context [Nat.ltb ?a ?b] => destruct (Nat.ltb_spec a b)
  | |- context [Nat.eqb ?a ?b] => destruct (Nat.eqb_spec a b)
  end.

(** Case analysis on the head of a [match] or [if], keeping the equation. *)
Ltac case_head :=
  match goal with
  | |- context [match ?x with _ => _ end] => destruct x eqn:?
  | |- context [if ?x then _ else _] => destruct x eqn:?
  end.

(** ** Bytes *)

#[export] Instance byte_eq_dec : EqDecision byte := Byte.byte_eq_dec.

(** The numeric value of a byte, as [unsigned char] / [uint8_t]. *)
Definition code (b : byte) : Z := Z.of_N (Byte.to_N b).

(** Conversion to [uint8_t]: reduction modulo 256. *)
Definition byte_of (z : Z) : byte :=
  default Byte.x00 (Byte.of_N (Z.to_N (z mod 256))).

Lemma code_range b : 0 <= code b < 256.
Proof. unfold code. pose proof (Byte.to_N_bounded b). lia. Qed.

Lemma byte_of_code b : byte_of (code b) = b.
Proof. by destruct b. Qed.

Lemma code_byte_of z : code (byte_of z) = z mod 256.
Proof.
  unfold byte_of, code. pose proof (Z.mod_pos_bound z 256 ltac:(lia)).
  destruct (Byte.of_N (Z.to_N (z mod 256))) as [b|] eqn:E; simpl.
  - apply Byte.to_of_N in E. lia.
  - apply Byte.of_N_None_iff in E. lia.
Qed.

Lemma code_byte_of_small z : 0 <= z < 256 -> code (byte_of z) = z.
Proof. intros. rewrite code_byte_of. by apply Z.mod_small. Qed.

Lemma code_inj b c : code b = code c -> b = c.
Proof. intros H. by rewrite <-(byte_of_code b), <-(byte_of_code c), H. Qed.

#[export] Instance code_Inj : Inj (=) (=) code.
Proof. exact code_inj. Qed.

#[export] Instance byte_countable : Countable byte.
Proof.
  refine (inj_countable' Byte.to_N (fun n => default Byte.x00 (Byte.of_N n)) _).
  intros b. by rewrite Byte.of_to_N.
Defined.

#[export] Hint Resolve code_range : ou.

(** A literal of the source as a byte string. *)
Definition str (s : String.string) : list byte := String.list_byte_of_string s.
Arguments str s%_string.

(** ** Lexicographic order of byte strings

    [std::string]'s and [std::array<uint8_t, N>]'s [operator<]. *)

Fixpoint lex_ltb (a b : list byte) : bool :=
  match a, b with
  | _, [] => false
  | [], _ :: _ => true
  | x :: a', y :: b' =>
      if code x <? code y then true
      else if code y <? code x then false
      else lex_ltb a' b'
  end.

Lemma lex_ltb_irrefl a : lex_ltb a a = false.
Proof. induction a as [|x a IH]; [done|]. simpl. by rewrite Z.ltb_irrefl. Qed.

Lemma lex_ltb_trans a b c :
  lex_ltb a b = true -> lex_ltb b c = true -> lex_ltb a c = true.
Proof.
  revert b c. induction a as [|x a IH]; intros [|y b] [|z c]; simpl; try done.
  intros H1 H2. zbool; try done; try lia. by apply (IH b c).
Qed.

Lemma lex_ltb_total a b :
  lex_ltb a b = false -> lex_ltb b a = false -> a = b.
Proof.
  revert b. induction a as [|x a IH]; intros [|y b]; simpl; try done.
  intros H1 H2. zbool; try done; try lia.
  f_equal; [apply code_inj; lia | by apply IH].
Qed.

Lemma lex_ltb_asym a b : lex_ltb a b = true -> lex_ltb b a = false.
Proof.
  intros H. destruct (lex_ltb b a) eqn:E; [|done].
  pose proof (lex_ltb_trans _ _ _ H E) as K. by rewrite lex_ltb_irrefl in K.
Qed.

(** ** Big-endian value of a byte string *)

Fixpoint be_value (l : list byte) : Z :=
  match l with
  | [] => 0
  | b :: l' => code b * 2 ^ (8 * Z.of_nat (length l')) + be_value l'
  end.

Lemma be_value_range l : 0 <= be_value l < 2 ^ (8 * Z.of_nat (length l)).
Proof.
  induction l as [|b l IH]; simpl be_value; [done|].
  pose proof (code_range b). rewrite length_cons.
  replace (8 * Z.of_nat (S (length l))) with (8 + 8 * Z.of_nat (length l)) by lia.
  rewrite Z.pow_add_r by lia. change (2 ^ 8) with 256. nia.
Qed.

Lemma be_value_lex a b :
  length a = length b -> lex_ltb a b = (be_value a <? be_value b).
Proof.
  revert b. induction a as [|x a IH]; intros [|y b]; simpl; try done.
  intros [= Hl]. rewrite Hl.
  pose proof (be_value_range a) as Ha. pose proof (be_value_range b) as Hb.
  rewrite Hl in Ha. specialize (IH b Hl). rewrite IH.
  set (P := 2 ^ (8 * Z.of_nat (length b))) in *.
  zbool; try done; try nia;
    assert (code x = code y) as Hxy by lia; rewrite Hxy in *; lia.
Qed.

Lemma be_value_inj a b : length a = length b -> be_value a = be_value b -> a = b.
Proof.
  intros Hl Hv. apply lex_ltb_total; rewrite be_value_lex by done;
    rewrite Hv; apply Z.ltb_irrefl.
Qed.

(** Bits of a number put together from a high and a low part. *)
Lemma testbit_high_low h l k i :
  0 <= l < 2 ^ k -> 0 <= k -> 0 <= i ->
  Z.testbit (h * 2 ^ k + l) i = if i <? k then Z.testbit l i else Z.testbit h (i - k).
Proof.
  intros Hl Hk Hi. destruct (Z.ltb_spec i k).
  - rewrite <-(Z.mod_pow2_bits_low (h * 2 ^ k + l) k i) by lia.
    by rewrite Z.add_comm, Z.mod_add, Z.mod_small by lia.
  - replace i with (i - k + k) at 1 by lia.
    rewrite <-Z.div_pow2_bits by lia.
    by rewrite Z.add_comm, Z.div_add, Z.div_small by lia.
Qed.

Lemma lor_shiftl_add h l k :
  0 <= l < 2 ^ k -> 0 <= k -> Z.lor (Z.shiftl h k) l = h * 2 ^ k + l.
Proof.
  intros Hl Hk. apply Z.bits_inj'. intros i Hi.
  rewrite Z.lor_spec, Z.shiftl_spec, testbit_high_low by done.
  destruct (Z.ltb_spec i k).
  - by rewrite Z.testbit_neg_r by lia.
  - rewrite <-(Z.mod_small l (2 ^ k)) by done.
    by rewrite Z.mod_pow2_bits_high, orb_false_r by lia.
Qed.

(** Bits of a big-endian value: the head byte holds the most significant ones. *)
Lemma be_value_testbit_cons b l i :
  0 <= i ->
  Z.testbit (be_value (b :: l)) i =
  if i <? 8 * Z.of_nat (length l) then Z.testbit (be_value l) i
  else Z.testbit (code b) (i - 8 * Z.of_nat (length l)).
Proof. intros Hi. apply testbit_high_low; [apply be_value_range|lia|done]. Qed.

Lemma be_value_lxor a b :
  length a = length b ->
  be_value (zip_with (fun x y => byte_of (Z.lxor (code x) (code y))) a b) =
  Z.lxor (be_value a) (be_value b).
Proof.
  intros Hl. apply Z.bits_inj'. intros i Hi. rewrite Z.lxor_spec. revert i Hi.
  revert b Hl. induction a as [|x a IH]; intros [|y b] Hl i Hi; try done.
  { simpl. by rewrite !Z.bits_0. }
  injection Hl as Hl. cbn [zip_with]. rewrite !be_value_testbit_cons by done.
  rewrite length_zip_with, <-Hl, Nat.min_id.
  destruct (Z.ltb_spec i (8 * Z.of_nat (length a))); [by apply IH|].
  rewrite code_byte_of. change 256 with (2 ^ 8).
  set (j := i - 8 * Z.of_nat (length a)).
  destruct (Z.ltb_spec j 8).
  - rewrite Z.mod_pow2_bits_low, Z.lxor_spec by lia. done.
  - rewrite Z.mod_pow2_bits_high by lia. symmetry.
    pose proof (code_range x). pose proof (code_range y).
    rewrite !(Z.bits_above_log2 _ j); [done|lia| |lia|];
      (eapply Z.le_lt_trans; [apply Z.log2_le_mono; instantiate (1 := 255); lia|];
       change (Z.log2 255) with 7; lia).
Qed.

(** A non-negative number below [2 ^ n] from its bits. *)
Lemma testbit_ones n i : 0 <= n -> 0 <= i -> Z.testbit (2 ^ n - 1) i = (i <? n).
Proof.
  intros Hn Hi. rewrite Z.sub_1_r, <-Z.ones_equiv. destruct (Z.ltb_spec i n).
  - by apply Z.ones_spec_low.
  - by apply Z.ones_spec_high.
Qed.

(** ** Lists *)

Lemma submseteq_NoDup_l {A} (l k : list A) : l ⊆+ k -> NoDup k -> NoDup l.
Proof.
  intros [l' H]%submseteq_Permutation Hk. rewrite H in Hk. by apply NoDup_app in Hk as [? _].
Qed.

Lemma filter_nil_all {A} (p : A -> bool) l :
  Forall (fun x => p x = false) l -> List.filter p l = [].
Proof. induction 1 as [|x l Hx Hl IH]; simpl; [done|]. by rewrite Hx. Qed.

#[export] Instance filter_bool_perm {A} (f : A -> bool) :
  Proper (Permutation ==> Permutation) (List.filter f).
Proof.
  intros l k H. induction H as [|x l k _ IH|x y l|l k m _ IH1 _ IH2]; simpl; [done| | |by rewrite IH1].
  - by destruct (f x); rewrite ?IH.
  - destruct (f x), (f y); try done. apply perm_swap.
Qed.

Lemma filter_all {A} (p : A -> bool) l :
  Forall (fun x => p x = true) l -> List.filter p l = l.
Proof. induction 1 as [|x l Hx Hl IH]; simpl; [done|]. by rewrite Hx, IH. Qed.
