(* ===== verification/Number.v ===== *)
(** * Decimal numbers: src/parse/number.h and [std::to_string]

    [parse::number<T>] takes a [string_view] by reference and returns an
    optional value; on success the view is advanced past the number, on failure
    it is left as it was.  The model returns the pair (result, remaining view).

    The overflow check reads one character past the digits ([i <= endpos]); when
    the digits end the view, that character lies outside the view.  The
    parameter [after] stands for that byte of the underlying buffer. *)
From S2P Require Import Prelude.

(** ** The code *)

(** [T]'s size in bytes; [sizeof(T)] selects [MaxStr] and [Unsigned]. *)
Variant width := W1 | W2 | W4 | W8.

Definition bits (w : width) : Z :=
  match w with W1 => 8 | W2 => 16 | W4 => 32 | W8 => 64 end.

Definition MaxStr (w : width) : list byte :=
  match w with
  | W1 => str "255"
  | W2 => str "65535"
  | W4 => str "4294967295"
  | W8 => str "18446744073709551615"
  end.

Definition is_digit (c : byte) : bool := (48 <=? code c) && (code c <=? 57).

(** [uint8_t digit(char c) { return c - '0'; }] *)
Definition digit (c : byte) : Z := (code c - 48) mod 256.

(** The loop that strips leading zeros, with its flag. *)
Fixpoint strip_zeros (zeros_stripped : bool) (s : list byte) : bool * list byte :=
  match s with
  | c :: s' => if bool_decide (c = "0"%byte) then strip_zeros true s'
               else (zeros_stripped, s)
  | [] => (zeros_stripped, [])
  end.

(** The loop that computes [endpos]. *)
Fixpoint count_digits (s : list byte) : nat :=
  match s with
  | c :: s' => if is_digit c then S (count_digits s') else O
  | [] => O
  end.

(** The comparison with the digits of the maximum, [n] iterations of it. *)
Fixpoint exceeds_max (n : nat) (s max_str : list byte) : bool :=
  match n, s, max_str with
  | S n', c :: s', d :: m' =>
      if digit d <? digit c then true
      else if digit c <? digit d then false
      else exceeds_max n' s' m'
  | _, _, _ => false
  end.

(** The accumulation loop, from the last digit to the first, in [T]. *)
Fixpoint accumulate (modulus : Z) (ds_rev : list byte) (r m : Z) : Z :=
  match ds_rev with
  | [] => r
  | c :: ds => accumulate modulus ds ((r + m * digit c) mod modulus) ((m * 10) mod modulus)
  end.

(** [number<T>] for unsigned [T]. *)
Definition number_unsigned (w : width) (after : byte) (s_ : list byte)
    : option Z * list byte :=
  let '(zeros_stripped, s) := strip_zeros false s_ in
  let endpos := count_digits s in
  match endpos with
  | O => if zeros_stripped then (Some 0, s) else (None, s_)
  | S _ =>
      let max_str := MaxStr w in
      if (length max_str <? endpos)%nat then (None, s_)
      else if ((endpos =? length max_str)%nat
               && exceeds_max (S endpos) (s ++ [after]) (max_str ++ [Byte.x00]))%bool
      then (None, s_)
      else (Some (accumulate (2 ^ bits w) (rev (take endpos s)) 0 1), drop endpos s)
  end.

(** Conversion of an integer to the signed type of the width. *)
Definition to_signed (w : width) (z : Z) : Z :=
  let m := z mod 2 ^ bits w in
  if m <? 2 ^ (bits w - 1) then m else m - 2 ^ bits w.

(** [std::numeric_limits<T>::max()] of the signed type. *)
Definition signed_max (w : width) : Z := 2 ^ (bits w - 1) - 1.

(** [number<T>] for signed [T]. *)
Definition number_signed (w : width) (after : byte) (s_ : list byte)
    : option Z * list byte :=
  match s_ with
  | [] => (None, s_)
  | c :: s' =>
      let '(negative, s) :=
        if bool_decide (c = "+"%byte) then (false, s')
        else if bool_decide (c = "-"%byte) then (true, s')
        else (false, s_) in
      match number_unsigned w after s with
      | (None, _) => (None, s_)
      | (Some abs, s) =>
          if abs =? 0 then (Some abs, s)
          else if negb negative then
            if signed_max w <? abs then (None, s_) else (Some abs, s)
          else if abs - 1 <=? signed_max w then (Some (to_signed w (- abs)), s)
          else (None, s_)
      end
  end.

(** [std::to_string] of a non-negative number; [fuel] bounds the digits. *)
Fixpoint digits_of (fuel : nat) (n : Z) : list byte :=
  match fuel with
  | O => []
  | S f => (if n <? 10 then [] else digits_of f (n / 10)) ++ [byte_of (48 + n mod 10)]
  end.

(** [std::to_string] *)
Definition to_string (z : Z) : list byte :=
  let n := Z.abs z in
  (if z <? 0 then ["-"%byte] else []) ++ digits_of (S (Z.to_nat (Z.log2 n))) n.

(** ** Specification *)

(** The value of a string of digits. *)
Definition dec_value (ds : list byte) : Z :=
  foldl (fun v c => 10 * v + digit c) 0 ds.

(** The maximal prefix of digits and what follows it. *)
Definition digits (s : list byte) : list byte := take (count_digits s) s.
Definition after_digits (s : list byte) : list byte := drop (count_digits s) s.

(** The largest value of the unsigned type. *)
Definition unsigned_max (w : width) : Z := 2 ^ bits w - 1.

(** The extra iteration of the overflow check rejects the maximum itself when
    the byte that follows is one of the characters 1 to 47. *)
Definition rejects_max (after : byte) (rest : list byte) : bool :=
  208 <? digit (default after (head rest)).

(** What [number_unsigned] computes. *)
Definition number_unsigned_spec (w : width) (after : byte) (s : list byte)
    : option Z * list byte :=
  let v := dec_value (digits s) in
  if bool_decide (digits s = []) then (None, s)
  else if unsigned_max w <? v then (None, s)
  else if ((v =? unsigned_max w) && rejects_max after (after_digits s))%bool then (None, s)
  else (Some v, after_digits s).

(** The sign of a number and the view after it. *)
Definition sign_of (s : list byte) : Z * list byte :=
  match s with
  | c :: s' => if bool_decide (c = "+"%byte) then (1, s')
               else if bool_decide (c = "-"%byte) then (-1, s')
               else (1, s)
  | [] => (1, s)
  end.

(** What [number_signed] computes. *)
Definition number_signed_spec (w : width) (s : list byte) : option Z * list byte :=
  let '(sg, s') := sign_of s in
  let v := sg * dec_value (digits s') in
  if bool_decide (digits s' = []) then (None, s)
  else if ((- signed_max w - 1 <=? v) && (v <=? signed_max w))%bool
  then (Some v, after_digits s')
  else (None, s).

(** ** Digits and their value *)

Definition all_digits (ds : list byte) : Prop := Forall (fun c => is_digit c = true) ds.

Lemma digit_range c : is_digit c = true -> digit c = code c - 48 /\ 0 <= digit c <= 9.
Proof.
  unfold is_digit, digit. intros H. apply andb_true_iff in H as [H1 H2].
  rewrite Z.mod_small; lia.
Qed.

Lemma foldl_dec_value v ds :
  foldl (fun v c => 10 * v + digit c) v ds = v * 10 ^ Z.of_nat (length ds) + dec_value ds.
Proof.
  unfold dec_value. revert v. induction ds as [|c ds IH]; intros v; cbn [foldl]; [simpl; lia|].
  rewrite IH, (IH (10 * 0 + digit c)), length_cons, Nat2Z.inj_succ, Z.pow_succ_r by lia. lia.
Qed.

Lemma dec_value_cons c ds :
  dec_value (c :: ds) = digit c * 10 ^ Z.of_nat (length ds) + dec_value ds.
Proof. unfold dec_value at 1. cbn [foldl]. rewrite foldl_dec_value. lia. Qed.

Lemma dec_value_app a b :
  dec_value (a ++ b) = dec_value a * 10 ^ Z.of_nat (length b) + dec_value b.
Proof. unfold dec_value at 1. rewrite foldl_app. apply foldl_dec_value. Qed.

Lemma dec_value_snoc ds c : dec_value (ds ++ [c]) = 10 * dec_value ds + digit c.
Proof. rewrite dec_value_app. unfold dec_value at 2. simpl. lia. Qed.

Lemma dec_value_zeros k ds : dec_value (replicate k "0"%byte ++ ds) = dec_value ds.
Proof. induction k as [|k IH]; [done|]. simpl. by rewrite dec_value_cons, IH. Qed.

Lemma dec_value_range ds : all_digits ds -> 0 <= dec_value ds < 10 ^ Z.of_nat (length ds).
Proof.
  induction 1 as [|c ds Hc Hds IH]; [done|].
  rewrite dec_value_cons, length_cons, Nat2Z.inj_succ, Z.pow_succ_r by lia.
  apply digit_range in Hc. nia.
Qed.

Lemma dec_value_leading c ds :
  all_digits (c :: ds) -> c <> "0"%byte ->
  10 ^ Z.of_nat (length ds) <= dec_value (c :: ds).
Proof.
  intros Ha Hc. apply Forall_cons in Ha as [H1 H2].
  pose proof (dec_value_range _ H2). apply digit_range in H1 as [H1 H1'].
  rewrite dec_value_cons. assert (digit c <> 0) by (intros E; apply Hc, code_inj; change (code "0"%byte) with 48; lia).
  nia.
Qed.

Lemma digits_all s : all_digits (digits s).
Proof.
  unfold digits, all_digits. induction s as [|c s IH]; simpl; [constructor|].
  destruct (is_digit c) eqn:E; simpl; [by constructor|constructor].
Qed.

Lemma digits_split s : digits s ++ after_digits s = s.
Proof. apply take_drop. Qed.

Lemma length_digits s : length (digits s) = count_digits s.
Proof.
  unfold digits. rewrite length_take. apply Nat.min_l.
  induction s as [|c s IH]; simpl; [lia|]. destruct (is_digit c); lia.
Qed.

(** The maximal digits prefix of [ds ++ rest] when [rest] starts with no digit. *)
Lemma count_digits_app ds rest :
  all_digits ds -> count_digits (ds ++ rest) = (length ds + count_digits rest)%nat.
Proof. induction 1 as [|c ds Hc Hds IH]; simpl; [done|]. by rewrite Hc, IH. Qed.

Lemma digits_app ds rest :
  all_digits ds -> digits (ds ++ rest) = ds ++ digits rest.
Proof.
  intros H. unfold digits. rewrite count_digits_app, take_app by done.
  rewrite take_ge by lia. do 2 f_equal. lia.
Qed.

Lemma after_digits_app ds rest :
  all_digits ds -> after_digits (ds ++ rest) = after_digits rest.
Proof.
  intros H. unfold after_digits. rewrite count_digits_app, drop_app by done.
  rewrite drop_ge by lia. simpl. f_equal. lia.
Qed.

Lemma zeros_digits k : all_digits (replicate k "0"%byte).
Proof. by apply Forall_replicate. Qed.

(** [rest] does not start with a digit. *)
Definition no_digit (rest : list byte) : Prop := count_digits rest = O.

Lemma no_digit_cons c rest : is_digit c = false -> no_digit (c :: rest).
Proof. unfold no_digit. simpl. by intros ->. Qed.

Lemma no_digit_nil : no_digit [].
Proof. done. Qed.

#[export] Hint Resolve digits_all zeros_digits no_digit_nil : ou.

Lemma digits_exact ds rest : all_digits ds -> no_digit rest -> digits (ds ++ rest) = ds.
Proof. intros H Hn. rewrite digits_app by done. unfold digits. rewrite Hn. apply app_nil_r. Qed.

Lemma after_digits_exact ds rest :
  all_digits ds -> no_digit rest -> after_digits (ds ++ rest) = rest.
Proof. intros H Hn. rewrite after_digits_app by done. unfold after_digits. by rewrite Hn. Qed.

(** ** The loops of the code *)

Lemma strip_zeros_spec b s :
  exists k, let '(z, s') := strip_zeros b s in
  s = replicate k "0"%byte ++ s' /\ head s' <> Some "0"%byte /\
  z = (b || negb (k =? 0)%nat)%bool.
Proof.
  revert b. induction s as [|c s IH]; intros b; simpl.
  { exists O. by rewrite orb_false_r. }
  case_bool_decide as Hc.
  - destruct (IH true) as [k Hk]. destruct (strip_zeros true s) as [z s'].
    destruct Hk as (E1 & E2 & E3). exists (S k). subst. simpl. by rewrite orb_true_r.
  - exists O. rewrite orb_false_r. split_and!; try done. simpl. congruence.
Qed.

Lemma accumulate_spec M ds r m :
  0 < M -> 0 <= r < M -> accumulate M (rev ds) r m = (r + m * dec_value ds) mod M.
Proof.
  intros HM. revert r m. induction ds as [|c ds IH] using rev_ind; intros r m Hr.
  { unfold dec_value. simpl. rewrite Z.mul_0_r, Z.add_0_r. by rewrite Z.mod_small. }
  rewrite rev_app_distr. simpl. rewrite IH by (apply Z.mod_pos_bound; lia).
  rewrite dec_value_snoc.
  rewrite Z.add_mod_idemp_l, Z.add_mod, Z.mul_mod_idemp_l, <-Z.add_mod by lia.
  f_equal. lia.
Qed.

Lemma exceeds_max_spec ds ms c x :
  length ds = length ms -> all_digits ds -> all_digits ms ->
  exceeds_max (S (length ds)) (ds ++ c :: x) (ms ++ [Byte.x00]) =
  ((dec_value ms <? dec_value ds)
   || ((dec_value ds =? dec_value ms) && (208 <? digit c)))%bool.
Proof.
  revert ms. induction ds as [|d ds IH]; intros [|e ms] Hl Hd Hm; try done.
  { change (digit Byte.x00) with 208. simpl. change (digit Byte.x00) with 208.
    by destruct (208 <? digit c), (digit c <? 208). }
  apply Forall_cons in Hd as [Hd1 Hd2], Hm as [Hm1 Hm2]. injection Hl as Hl.
  apply digit_range in Hd1 as [_ Hd1], Hm1 as [_ Hm1].
  pose proof (dec_value_range _ Hd2) as Rd. pose proof (dec_value_range _ Hm2) as Rm.
  change (exceeds_max (S (length (d :: ds))) ((d :: ds) ++ c :: x) ((e :: ms) ++ [Byte.x00]))
    with (if digit e <? digit d then true else if digit d <? digit e then false
          else exceeds_max (S (length ds)) (ds ++ c :: x) (ms ++ [Byte.x00])).
  rewrite IH by done. rewrite !dec_value_cons. rewrite <-Hl in Rm |- *.
  set (P := 10 ^ Z.of_nat (length ds)) in *.
  destruct (Z.ltb_spec (digit e) (digit d)).
  { destruct (Z.ltb_spec (digit e * P + dec_value ms) (digit d * P + dec_value ds)); [done|nia]. }
  destruct (Z.ltb_spec (digit d) (digit e)).
  { destruct (Z.ltb_spec (digit e * P + dec_value ms) (digit d * P + dec_value ds)); [nia|].
    destruct (Z.eqb_spec (digit d * P + dec_value ds) (digit e * P + dec_value ms)); [nia|done]. }
  assert (digit d = digit e) as -> by lia.
  f_equal; [|f_equal]; zbool; try done; lia.
Qed.

Lemma MaxStr_facts w :
  all_digits (MaxStr w) /\ dec_value (MaxStr w) = unsigned_max w /\
  10 ^ (Z.of_nat (length (MaxStr w)) - 1) <= unsigned_max w < 10 ^ Z.of_nat (length (MaxStr w)).
Proof. destruct w; (split; [by repeat constructor|]); by vm_compute. Qed.

(** Which digit strings without leading zeros pass the check. *)
Lemma overflow_check w ds c x :
  all_digits ds -> head ds <> Some "0"%byte -> ds <> [] ->
  ((length (MaxStr w) <? length ds)%nat
   || ((length ds =? length (MaxStr w))%nat
       && exceeds_max (S (length ds)) (ds ++ c :: x) (MaxStr w ++ [Byte.x00])))%bool =
  ((unsigned_max w <? dec_value ds)
   || ((dec_value ds =? unsigned_max w) && (208 <? digit c)))%bool.
Proof.
  intros Hd Hz Hne. destruct (MaxStr_facts w) as (Hm & Hv & Hr).
  pose proof (dec_value_range _ Hd) as Rd.
  destruct (Nat.eqb_spec (length ds) (length (MaxStr w))) as [Hl|Hl].
  { rewrite exceeds_max_spec by done. rewrite Hv, Hl, Nat.ltb_irrefl. done. }
  rewrite andb_false_l, orb_false_r.
  destruct ds as [|d ds]; [done|]. simpl in Hz.
  pose proof (dec_value_leading d ds Hd ltac:(congruence)) as Hlead.
  destruct (Nat.ltb_spec (length (MaxStr w)) (length (d :: ds))) as [Hlt|Hlt].
  - assert (10 ^ Z.of_nat (length (MaxStr w)) <= 10 ^ Z.of_nat (length ds)).
    { apply Z.pow_le_mono_r; simpl in Hlt; lia. }
    destruct (Z.ltb_spec (unsigned_max w) (dec_value (d :: ds))); [done|lia].
  - assert (10 ^ Z.of_nat (length (d :: ds)) <= 10 ^ (Z.of_nat (length (MaxStr w)) - 1)).
    { apply Z.pow_le_mono_r; lia. }
    destruct (Z.ltb_spec (unsigned_max w) (dec_value (d :: ds))); [lia|].
    destruct (Z.eqb_spec (dec_value (d :: ds)) (unsigned_max w)); [lia|done].
Qed.

(** ** Correctness of the parsers *)

(** [parse::number] of an unsigned type accepts exactly the digit strings whose
    value fits, and the maximum itself unless one of the characters 1 to 47
    follows; on failure the view is unchanged. *)
Lemma number_unsigned_spec_eq w after s :
  number_unsigned w after s = number_unsigned_spec w after s.
Proof.
  unfold number_unsigned, number_unsigned_spec.
  destruct (strip_zeros_spec false s) as [k Hk].
  destruct (strip_zeros false s) as [z s'] eqn:Es. destruct Hk as (E1 & Hh & E3).
  assert (digits s = replicate k "0"%byte ++ digits s') as Hd.
  { rewrite E1. apply digits_app. auto with ou. }
  assert (after_digits s = after_digits s') as Ha.
  { rewrite E1. apply after_digits_app. auto with ou. }
  rewrite Ha, Hd, dec_value_zeros. rewrite <-(length_digits s').
  destruct (length (digits s')) as [|n] eqn:En.
  { apply nil_length_inv in En. rewrite En, app_nil_r. simpl in E3.
    unfold after_digits. rewrite <-length_digits, En. simpl.
    destruct k as [|k]; simpl in *; subst z; [done|].
    change (dec_value []) with 0. rewrite drop_0. by destruct w. }
  rewrite <-En. assert (digits s' <> []) as Hne by (intros E; by rewrite E in En).
  rewrite bool_decide_eq_false_2 by (by destruct k).
  assert (head (digits s') <> Some "0"%byte) as Hhd.
  { unfold digits. destruct s' as [|c s'']; [done|]. unfold digits in En. simpl in *.
    by destruct (is_digit c). }
  assert (exists c x, s' ++ [after] = digits s' ++ c :: x /\
            c = default after (head (after_digits s'))) as (c & x & Hs & Hc).
  { pose proof (digits_split s') as E. apply (f_equal (fun l => l ++ [after])) in E.
    rewrite <-app_assoc in E. rewrite <-E.
    destruct (after_digits s') as [|c x]; simpl; eauto. }
  pose proof (overflow_check w (digits s') c x (digits_all s') Hhd Hne) as Hck.
  rewrite <-Hs, Hc in Hck. fold (rejects_max after (after_digits s')) in Hck.
  replace (drop (length (digits s')) s') with (after_digits s')
    by (unfold after_digits; by rewrite length_digits).
  replace (take (length (digits s')) s') with (digits s')
    by (unfold digits at 1; by rewrite length_digits).
  rewrite accumulate_spec by (destruct w; vm_compute; split; congruence).
  destruct (length (MaxStr w) <? length (digits s'))%nat, (_ && exceeds_max _ _ _)%bool;
    simpl in Hck; symmetry in Hck; (apply orb_true_iff in Hck || apply orb_false_iff in Hck).
  1-3: destruct Hck as [-> | Hck]; [done|]; rewrite Hck; by destruct (unsigned_max w <? _).
  destruct Hck as [H1 H2]. rewrite H1, H2. do 2 f_equal. rewrite Z.mod_small; [lia|].
  pose proof (dec_value_range _ (digits_all s')). apply Z.ltb_ge in H1.
  unfold unsigned_max in H1. lia.
Qed.

Lemma to_signed_neg w a : 0 < a <= 2 ^ (bits w - 1) -> to_signed w (- a) = - a.
Proof.
  intros Ha. unfold to_signed.
  assert (2 ^ bits w = 2 * 2 ^ (bits w - 1)) as E.
  { replace (bits w) with (1 + (bits w - 1)) at 1 by lia. rewrite Z.pow_add_r; [done|lia|by destruct w]. }
  rewrite E. replace (- a) with (2 * 2 ^ (bits w - 1) - a + (-1) * (2 * 2 ^ (bits w - 1))) by lia.
  rewrite Z.mod_add by lia. rewrite Z.mod_small by lia. zbool; lia.
Qed.

Lemma signed_max_lt_unsigned w : 0 < signed_max w /\ unsigned_max w = 2 * signed_max w + 1.
Proof. by destruct w. Qed.

(** [parse::number] of a signed type: an optional sign, then digits, accepted
    exactly when the value is in the type's range.  The byte past the view has
    no influence. *)
Lemma number_signed_spec_eq w after s : number_signed w after s = number_signed_spec w s.
Proof.
  unfold number_signed, number_signed_spec. destruct s as [|c s]; [done|].
  assert (exists neg s', (if bool_decide (c = "+"%byte) then (false, s)
            else if bool_decide (c = "-"%byte) then (true, s) else (false, c :: s)) = (neg, s')
          /\ sign_of (c :: s) = (if neg then -1 else 1, s')) as (neg & s' & E1 & E2).
  { unfold sign_of. repeat case_bool_decide; eauto. }
  rewrite E1, E2, number_unsigned_spec_eq. unfold number_unsigned_spec.
  destruct (bool_decide (digits s' = [])); [done|].
  pose proof (dec_value_range _ (digits_all s')) as Hr.
  pose proof (signed_max_lt_unsigned w) as Hm.
  set (v := dec_value (digits s')) in *.
  destruct (Z.ltb_spec (unsigned_max w) v).
  { destruct neg; zbool; try lia; done. }
  destruct (Z.eqb_spec v (unsigned_max w)) as [Ev|Ev]; [destruct (rejects_max _ _)|]; simpl.
  all: destruct neg; rewrite ?Z.mul_1_l; try replace (-1 * v) with (- v) by lia; simpl negb;
    zbool; try lia; simpl; rewrite ?to_signed_neg by (unfold signed_max in *; lia);
    first [done | do 2 f_equal; lia].
Qed.

(** ** [std::to_string] *)

Lemma digit_of_byte d : 0 <= d <= 9 -> is_digit (byte_of (48 + d)) = true /\ digit (byte_of (48 + d)) = d.
Proof.
  intros Hd. unfold is_digit, digit. rewrite code_byte_of_small by lia.
  split; [zbool; lia|]. rewrite Z.mod_small; lia.
Qed.

Lemma digits_of_spec f n :
  0 <= n < 2 ^ Z.of_nat f -> (0 < f)%nat ->
  all_digits (digits_of f n) /\ dec_value (digits_of f n) = n /\ digits_of f n <> [].
Proof.
  revert n. induction f as [|f IH]; intros n Hn Hf; [lia|].
  assert (0 <= n mod 10 <= 9) as Hmod by (pose proof (Z.mod_pos_bound n 10); lia).
  destruct (digit_of_byte _ Hmod) as [D1 D2]. cbn [digits_of].
  destruct (Z.ltb_spec n 10).
  - simpl. split_and!; [by repeat constructor| |done].
    rewrite dec_value_cons, D2. change (dec_value []) with 0. simpl. rewrite Z.mod_small; lia.
  - assert (0 <= n / 10 < 2 ^ Z.of_nat f).
    { split; [apply Z.div_pos; lia|]. apply Z.div_lt_upper_bound; [lia|].
      rewrite Nat2Z.inj_succ, Z.pow_succ_r in Hn by lia. lia. }
    assert (0 < f)%nat as Hf' by (destruct f; [simpl in *; lia|lia]).
    destruct (IH (n / 10)) as (I1 & I2 & I3); [done..|].
    split_and!.
    + apply Forall_app. split; [done|]. by repeat constructor.
    + rewrite dec_value_snoc, I2, D2. pose proof (Z.div_mod n 10). lia.
    + by destruct (digits_of f (n / 10)).
Qed.

(** The digits of a number, as printed. *)
Definition abs_digits (z : Z) : list byte :=
  digits_of (S (Z.to_nat (Z.log2 (Z.abs z)))) (Z.abs z).

Lemma abs_digits_spec z :
  all_digits (abs_digits z) /\ dec_value (abs_digits z) = Z.abs z /\ abs_digits z <> [].
Proof.
  apply digits_of_spec; [|lia]. split; [lia|].
  destruct (Z.eq_dec (Z.abs z) 0) as [->|Hz]; [done|].
  pose proof (Z.log2_spec (Z.abs z) ltac:(lia)). pose proof (Z.log2_nonneg (Z.abs z)).
  rewrite Nat2Z.inj_succ, Z2Nat.id; lia.
Qed.

Lemma to_string_abs z :
  to_string z = (if z <? 0 then ["-"%byte] else []) ++ abs_digits z.
Proof. done. Qed.

Lemma sign_of_digits ds rest : all_digits ds -> ds <> [] -> sign_of (ds ++ rest) = (1, ds ++ rest).
Proof.
  destruct ds as [|c ds]; [done|]. intros Hd _. apply Forall_cons in Hd as [Hd _].
  simpl. repeat case_bool_decide; subst; done.
Qed.

Lemma sign_of_to_string z rest :
  sign_of (to_string z ++ rest) = (if z <? 0 then -1 else 1, abs_digits z ++ rest).
Proof.
  rewrite to_string_abs. destruct (abs_digits_spec z) as (H1 & _ & H3).
  destruct (z <? 0); [done|]. by apply sign_of_digits.
Qed.

Lemma number_signed_to_string w after z rest :
  - signed_max w - 1 <= z <= signed_max w -> no_digit rest ->
  number_signed w after (to_string z ++ rest) = (Some z, rest).
Proof.
  intros Hz Hr. rewrite number_signed_spec_eq. unfold number_signed_spec.
  rewrite sign_of_to_string. destruct (abs_digits_spec z) as (H1 & H2 & H3).
  rewrite digits_exact, after_digits_exact, H2 by done.
  rewrite bool_decide_eq_false_2 by done.
  assert ((if z <? 0 then -1 else 1) * Z.abs z = z) as -> by (zbool; lia).
  zbool; try lia; done.
Qed.

Lemma number_unsigned_to_string w after z rest :
  0 <= z < unsigned_max w -> no_digit rest ->
  number_unsigned w after (to_string z ++ rest) = (Some z, rest).
Proof.
  intros Hz Hr. rewrite number_unsigned_spec_eq. unfold number_unsigned_spec.
  rewrite to_string_abs. destruct (Z.ltb_spec z 0); [lia|]. simpl.
  destruct (abs_digits_spec z) as (H1 & H2 & H3).
  rewrite digits_exact, after_digits_exact, H2 by done.
  rewrite bool_decide_eq_false_2 by done. zbool; try lia. simpl. do 2 f_equal. lia.
Qed.

(** ** Properties *)

(** C38: [parse::number] on an unsigned type is total and agrees with the
    specification: without leading digits, or when the digits' value exceeds the
    type's maximum, it fails and leaves the view alone; otherwise it returns the
    value (no wrap-around ever happens in the accumulation) and advances past
    exactly the digits.  The only deviation is at the maximum, which is accepted
    unless a character 1 to 47 follows. *)
Theorem number_unsigned_correct w after s :
  number_unsigned w after s = number_unsigned_spec w after s.
Proof. apply number_unsigned_spec_eq. Qed.

(** [parse::number] on a signed type returns a value exactly when an optional
    sign is followed by digits whose signed value lies in the type's range, and
    then that value and the rest of the input; the byte past the view never
    matters. *)
Theorem number_signed_correct w after s :
  number_signed w after s = number_signed_spec w s.
Proof. apply number_signed_spec_eq. Qed.

(** the overflow check of the unsigned parser reads one character too many:
    the largest value of the type, followed by a space, a comma, a slash or any
    other character between 1 and 47, is rejected although it fits. *)
Theorem number_unsigned_max_rejected w after c rest :
  1 <= code c <= 47 ->
  number_unsigned w after (MaxStr w ++ c :: rest) = (None, MaxStr w ++ c :: rest).
Proof.
  intros Hc. rewrite number_unsigned_spec_eq. unfold number_unsigned_spec.
  destruct (MaxStr_facts w) as (H1 & H2 & _).
  assert (no_digit (c :: rest)) as Hn.
  { apply no_digit_cons. unfold is_digit. zbool; try done; lia. }
  rewrite digits_exact, after_digits_exact, H2 by done.
  rewrite bool_decide_eq_false_2 by (by destruct w).
  rewrite Z.ltb_irrefl, Z.eqb_refl. unfold rejects_max, digit. simpl default.
  replace ((code c - 48) mod 256) with (code c - 48 + 256).
  - destruct (Z.ltb_spec 208 (code c - 48 + 256)); [done|lia].
  - rewrite <-(Z.mod_add _ 1) by lia. rewrite Z.mod_small; lia.
Qed.

Lemma number_unsigned_max_rejected_witness :
  number_unsigned W2 Byte.x00 (str "65535, 80") = (None, str "65535, 80").
Proof. apply (number_unsigned_max_rejected W2 Byte.x00 ","%byte (str " 80")). vm_compute. split; congruence. Defined.
