(* ===== verification/Bencoding.v ===== *)
(** * Bencoding: src/bittorrent/bencoding.h and bencoding.cpp

    The value type, the encoder (a visitor over the variant) and the destructive
    recursive-descent decoder.  The decoder erases what it reads from the front
    of a [std::string]; the model returns the remaining string. *)
From S2P Require Import Prelude Number.
#[local] Set Warnings "-register-all".

(** ** The code *)

(** [BencodedMap] is a [flat_map]: a vector of pairs sorted by key. *)
Inductive BencodedValue :=
| BInt (z : Z)
| BStr (s : list byte)
| BList (l : list BencodedValue)
| BMap (m : list (list byte * BencodedValue)).

Abbreviation BencodedList := (list BencodedValue).
Abbreviation BencodedMap := (list (list byte * BencodedValue)).

Definition as_int (v : BencodedValue) : option Z :=
  match v with BInt z => Some z | _ => None end.
Definition as_string (v : BencodedValue) : option (list byte) :=
  match v with BStr s => Some s | _ => None end.
Definition as_list (v : BencodedValue) : option BencodedList :=
  match v with BList l => Some l | _ => None end.
Definition as_map (v : BencodedValue) : option BencodedMap :=
  match v with BMap m => Some m | _ => None end.

Definition depth_limit : Z := 100.
Definition length_limit : Z := 2000000.

(** The visitor's overload for strings, also used for the keys of a map. *)
Definition encode_string (s : list byte) : list byte :=
  to_string (Z.of_nat (length s)) ++ ":"%byte :: s.

(** [BencodedValueVisitor] *)
Fixpoint bencoding_encode (v : BencodedValue) : list byte :=
  match v with
  | BInt z => "i"%byte :: to_string z ++ ["e"%byte]
  | BStr s => encode_string s
  | BList l => "l"%byte :: concat (map bencoding_encode l) ++ ["e"%byte]
  | BMap m =>
      "d"%byte :: concat (map (fun kv => encode_string (fst kv) ++ bencoding_encode (snd kv)) m)
        ++ ["e"%byte]
  end.

(** [flat_map::operator[]] followed by an assignment: overwrite or insert in
    key order. *)
Fixpoint map_assign {A} (m : list (list byte * A)) (k : list byte) (v : A)
    : list (list byte * A) :=
  match m with
  | [] => [(k, v)]
  | (k', v') :: m' =>
      if lex_ltb k k' then (k, v) :: m
      else if lex_ltb k' k then (k', v') :: map_assign m' k v
      else (k, v) :: m'
  end.

(** [flat_map::find] / [at]. *)
Definition map_find {A} (m : list (list byte * A)) (k : list byte) : option A :=
  snd <$> List.find (fun kv => bool_decide (fst kv = k)) m.

(** [destructive_parse_int]; the view spans the whole [std::string], so the byte
    past it is the terminating zero. *)
Definition destructive_parse_int (encoded : list byte) : option (Z * list byte) :=
  match number_signed W8 Byte.x00 encoded with
  | (Some n, rest) => Some (n, rest)
  | (None, _) => None
  end.

(** [destructive_parse_string] *)
Definition destructive_parse_string (encoded : list byte)
    : option (list byte * list byte) :=
  let? (size, encoded) := destructive_parse_int encoded in
  (* [encoded[0]] of an empty std::string is the terminating zero *)
  if negb (bool_decide (default Byte.x00 (head encoded) = ":"%byte)) then None
  else
    let encoded := drop 1 encoded in
    (* the conversion to size_t wraps *)
    if Z.of_nat (length encoded) <? size mod 2 ^ 64 then None
    else if length_limit <? size then None
    else Some (take (Z.to_nat size) encoded, drop (Z.to_nat size) encoded).

(** Result of the recursive parser: [OutOfFuel] is the model's own. *)
Variant parse_result (A : Type) :=
| OutOfFuel
| Failed
| Parsed (a : A) (rest : list byte).
Arguments OutOfFuel {A}.
Arguments Failed {A}.
Arguments Parsed {A} a rest.

Section Loops.
Variable parse_value : list byte -> parse_result BencodedValue.

(** The [while] loop of the 'l' case. *)
Fixpoint parse_list_loop (fuel : nat) (output : BencodedList) (encoded : list byte)
    : parse_result BencodedValue :=
  match fuel with
  | O => OutOfFuel
  | S fuel' =>
      match encoded with
      | [] => Failed
      | c :: rest =>
          if bool_decide (c = "e"%byte) then Parsed (BList output) rest
          else match parse_value encoded with
               | OutOfFuel => OutOfFuel
               | Failed => Failed
               | Parsed v rest => parse_list_loop fuel' (output ++ [v]) rest
               end
      end
  end.

(** The [while] loop of the 'd' case. *)
Fixpoint parse_map_loop (fuel : nat) (output : BencodedMap) (encoded : list byte)
    : parse_result BencodedValue :=
  match fuel with
  | O => OutOfFuel
  | S fuel' =>
      match encoded with
      | [] => Failed
      | c :: rest =>
          if bool_decide (c = "e"%byte) then Parsed (BMap output) rest
          else match destructive_parse_string encoded with
               | None => Failed
               | Some (key, rest) =>
                   match parse_value rest with
                   | OutOfFuel => OutOfFuel
                   | Failed => Failed
                   | Parsed v rest => parse_map_loop fuel' (map_assign output key v) rest
                   end
               end
      end
  end.
End Loops.

(** [destructive_parse_value]; [depth] is a [uint8_t]. *)
Fixpoint destructive_parse_value (fuel : nat) (encoded : list byte) (depth : Z)
    : parse_result BencodedValue :=
  match fuel with
  | O => OutOfFuel
  | S fuel' =>
      match encoded with
      | [] => Failed
      | c :: rest =>
          if depth_limit <? depth then Failed
          else if bool_decide (c = "i"%byte) then
            match destructive_parse_int rest with
            | Some (z, e :: rest) =>
                if bool_decide (e = "e"%byte) then Parsed (BInt z) rest else Failed
            | _ => Failed
            end
          else if is_digit c then
            match destructive_parse_string encoded with
            | Some (s, rest) => Parsed (BStr s) rest
            | None => Failed
            end
          else
            let depth' := (depth + 1) mod 256 in
            if bool_decide (c = "l"%byte) then
              parse_list_loop (fun e => destructive_parse_value fuel' e depth') fuel' [] rest
            else if bool_decide (c = "d"%byte) then
              parse_map_loop (fun e => destructive_parse_value fuel' e depth') fuel' [] rest
            else Failed
      end
  end.

(** [bencoding_decode]; the fuel exceeds the length of the input. *)
Definition bencoding_decode (encoded : list byte) : option BencodedValue :=
  match destructive_parse_value (S (length encoded)) encoded 1 with
  | Parsed v _ => Some v
  | _ => None
  end.

(** ** Well-formed values *)

Section Induction.
Variable P : BencodedValue -> Prop.
Hypothesis HInt : forall z, P (BInt z).
Hypothesis HStr : forall s, P (BStr s).
Hypothesis HList : forall l, Forall P l -> P (BList l).
Hypothesis HMap : forall m, Forall (fun kv => P (snd kv)) m -> P (BMap m).

Fixpoint BencodedValue_nested_ind (v : BencodedValue) : P v :=
  match v with
  | BInt z => HInt z
  | BStr s => HStr s
  | BList l =>
      HList l ((fix go (l : list BencodedValue) : Forall P l :=
                  match l with
                  | [] => Forall_nil_2 _
                  | x :: l' => Forall_cons_2 _ _ _ (BencodedValue_nested_ind x) (go l')
                  end) l)
  | BMap m =>
      HMap m ((fix go (m : BencodedMap) : Forall (fun kv => P (snd kv)) m :=
                 match m with
                 | [] => Forall_nil_2 _
                 | x :: m' => Forall_cons_2 _ _ _ (BencodedValue_nested_ind (snd x)) (go m')
                 end) m)
  end.
End Induction.

(** Strictly increasing keys, the invariant of a [flat_map]. *)
Definition sorted_keys {A} (m : list (list byte * A)) : Prop :=
  StronglySorted (fun a b => lex_ltb (fst a) (fst b) = true) m.

(** An [int64_t]; a string the decoder accepts. *)
Definition is_int64 (z : Z) : Prop := - 2 ^ 63 <= z <= 2 ^ 63 - 1.
Definition is_short (s : list byte) : Prop := Z.of_nat (length s) <= length_limit.

Fixpoint wf_value (v : BencodedValue) : Prop :=
  match v with
  | BInt z => is_int64 z
  | BStr s => is_short s
  | BList l => foldr (fun x P => wf_value x /\ P) True l
  | BMap m =>
      sorted_keys m /\
      foldr (fun kv P => is_short (fst kv) /\ wf_value (snd kv) /\ P) True m
  end.

(** How deep containers are nested; a scalar counts one. *)
Fixpoint nesting (v : BencodedValue) : Z :=
  match v with
  | BInt _ | BStr _ => 1
  | BList l => 1 + foldr (fun x n => Z.max (nesting x) n) 0 l
  | BMap m => 1 + foldr (fun kv n => Z.max (nesting (snd kv)) n) 0 m
  end.

Lemma wf_list l : wf_value (BList l) <-> Forall wf_value l.
Proof.
  simpl. induction l as [|x l IH]; simpl; [by split|].
  rewrite IH. split; [intros []; by constructor | by inversion 1].
Qed.

Lemma wf_map m :
  wf_value (BMap m) <->
  sorted_keys m /\ Forall (fun kv => is_short (fst kv) /\ wf_value (snd kv)) m.
Proof.
  simpl. apply and_iff_compat_l. induction m as [|x m IH]; simpl; [by split|].
  rewrite IH, Forall_cons. tauto.
Qed.

Lemma nesting_pos v : 1 <= nesting v.
Proof.
  destruct v as [z|s|l|m]; simpl; try lia.
  - assert (0 <= foldr (fun x n => Z.max (nesting x) n) 0 l); [|lia].
    induction l; simpl; lia.
  - assert (0 <= foldr (fun kv n => Z.max (nesting (snd kv)) n) 0 m); [|lia].
    induction m; simpl; lia.
Qed.

Lemma nesting_list l d :
  1 <= d -> nesting (BList l) <= d <-> Forall (fun x => nesting x <= d - 1) l.
Proof.
  intros Hd. simpl. induction l as [|x l IH]; simpl.
  - split; [constructor|lia].
  - rewrite Forall_cons, <-IH. lia.
Qed.

Lemma nesting_map m d :
  1 <= d -> nesting (BMap m) <= d <-> Forall (fun kv => nesting (snd kv) <= d - 1) m.
Proof.
  intros Hd. simpl. induction m as [|x m IH]; simpl.
  - split; [constructor|lia].
  - rewrite Forall_cons, <-IH. lia.
Qed.

(** ** [flat_map] *)

Lemma map_assign_last {A} (m : list (list byte * A)) k v :
  Forall (fun kv => lex_ltb (fst kv) k = true) m -> map_assign m k v = m ++ [(k, v)].
Proof.
  induction 1 as [|[k' v'] m Hk Hm IH]; simpl in *; [done|].
  by rewrite (lex_ltb_asym _ _ Hk), Hk, IH.
Qed.

Lemma map_assign_Forall {A} (P : list byte * A -> Prop) m k v :
  P (k, v) -> Forall P m -> Forall P (map_assign m k v).
Proof.
  intros Hk. induction 1 as [|[k' v'] m Hx Hm IH]; simpl; [by constructor|].
  destruct (lex_ltb k k'); [by repeat constructor|].
  destruct (lex_ltb k' k); by constructor.
Qed.

Lemma map_assign_sorted {A} (m : list (list byte * A)) k v :
  sorted_keys m -> sorted_keys (map_assign m k v).
Proof.
  unfold sorted_keys. induction 1 as [|[k' v'] m Hm IH Hall]; simpl; [by repeat constructor|].
  destruct (lex_ltb k k') eqn:E1; [|destruct (lex_ltb k' k) eqn:E2].
  - constructor; [by constructor|]. constructor; [done|].
    eapply Forall_impl; [exact Hall|]. simpl. intros x Hx. by eapply lex_ltb_trans.
  - constructor; [done|]. by apply map_assign_Forall.
  - constructor; [done|]. by rewrite (lex_ltb_total k k').
Qed.

Lemma map_find_cons {A} (k : list byte) (v : A) m k' :
  map_find ((k, v) :: m) k' = if bool_decide (k = k') then Some v else map_find m k'.
Proof. unfold map_find. simpl. by case_bool_decide. Qed.

Lemma map_find_assign {A} (m : list (list byte * A)) k v k' :
  map_find (map_assign m k v) k' = if bool_decide (k = k') then Some v else map_find m k'.
Proof.
  induction m as [|[k0 v0] m IH]; simpl; [by rewrite map_find_cons|].
  destruct (lex_ltb k k0) eqn:E1; [by rewrite map_find_cons|].
  destruct (lex_ltb k0 k) eqn:E2; rewrite !map_find_cons.
  - rewrite IH. repeat case_bool_decide; subst; try done. by rewrite lex_ltb_irrefl in E2.
  - rewrite (lex_ltb_total k k0 E1 E2). by repeat case_bool_decide.
Qed.

Lemma sorted_keys_app_last {A} (m : list (list byte * A)) x m' :
  sorted_keys (m ++ x :: m') -> Forall (fun kv => lex_ltb (fst kv) (fst x) = true) m.
Proof.
  induction m as [|y m IH]; simpl; [constructor|]. intros Hs.
  apply StronglySorted_inv in Hs as [Hs Hall]. constructor; [|by apply IH].
  rewrite Forall_app, Forall_cons in Hall. tauto.
Qed.

(** ** Strings and integers of the wire format *)

Lemma parse_int_to_string z rest :
  is_int64 z -> no_digit rest -> destructive_parse_int (to_string z ++ rest) = Some (z, rest).
Proof.
  intros Hz Hr. unfold destructive_parse_int.
  rewrite number_signed_to_string; [done| |done]. exact Hz.
Qed.

Lemma parse_string_encode s rest :
  is_short s -> destructive_parse_string (encode_string s ++ rest) = Some (s, rest).
Proof.
  intros Hs. unfold is_short, length_limit in Hs. unfold destructive_parse_string, encode_string.
  rewrite <-app_assoc, parse_int_to_string;
    [|unfold is_int64; lia | by apply no_digit_cons].
  simpl. rewrite skipn_O, length_app, Z.mod_small by lia.
  unfold length_limit. zbool; try lia.
  by rewrite Nat2Z.id, take_app_length, drop_app_length.
Qed.

(** What the parser of strings accepts. *)
Lemma parse_int_range e z rest :
  destructive_parse_int e = Some (z, rest) ->
  is_int64 z /\ (length rest < length e)%nat.
Proof.
  unfold destructive_parse_int. rewrite number_signed_spec_eq. unfold number_signed_spec.
  destruct (sign_of e) as [sg s'] eqn:Es.
  assert (length s' <= length e)%nat as Hl.
  { destruct e as [|c e]; simpl in Es; [by inversion Es|].
    repeat case_bool_decide; inversion Es; subst; simpl; lia. }
  case_bool_decide as Hd; [done|].
  destruct ((_ <=? _) && (_ <=? _))%bool eqn:Hr; [|done]. intros [= <- <-].
  apply andb_true_iff in Hr as [H1 H2]. split; [unfold is_int64, signed_max in *; simpl bits in *; lia|].
  pose proof (digits_split s') as E. apply (f_equal length) in E. rewrite length_app in E.
  destruct (digits s'); simpl in *; [done|lia].
Qed.

Lemma parse_string_range e s rest :
  destructive_parse_string e = Some (s, rest) ->
  is_short s /\ (length rest < length e)%nat.
Proof.
  unfold destructive_parse_string.
  destruct (destructive_parse_int e) as [[size e1]|] eqn:Ei; [|done].
  apply parse_int_range in Ei as [Hz Hl].
  case_bool_decide as Hc; simpl; [|done].
  destruct (Z.ltb_spec (Z.of_nat (length (drop 1 e1))) (size mod 2 ^ 64)); [done|].
  destruct (Z.ltb_spec length_limit size); [done|].
  intros [= <- <-]. unfold is_short, length_limit in *.
  rewrite length_take, !length_drop in *. lia.
Qed.

Lemma encode_head v :
  exists c x, bencoding_encode v = c :: x /\ c <> "e"%byte.
Proof.
  destruct v as [z|s|l|m]; simpl; eauto. unfold encode_string.
  rewrite to_string_abs. destruct (Z.ltb_spec (Z.of_nat (length s)) 0); [lia|]. simpl.
  destruct (abs_digits_spec (Z.of_nat (length s))) as (H1 & _ & H3).
  destruct (abs_digits (Z.of_nat (length s))) as [|c x]; [done|]. simpl.
  do 2 eexists. split; [done|]. intros ->. by inversion H1.
Qed.

Lemma encode_string_head s : exists c x, encode_string s = c :: x /\ is_digit c = true.
Proof.
  unfold encode_string. rewrite to_string_abs. destruct (Z.ltb_spec (Z.of_nat (length s)) 0); [lia|].
  simpl. destruct (abs_digits_spec (Z.of_nat (length s))) as (H1 & _ & H3).
  destruct (abs_digits (Z.of_nat (length s))) as [|c x]; [done|]. simpl.
  do 2 eexists. split; [done|]. by inversion H1.
Qed.

(** ** Decoding what was encoded *)

Section RoundTrip.
Variable pv : list byte -> parse_result BencodedValue.

Lemma parse_list_loop_encode l out fuel rest :
  Forall (fun v => forall rest, pv (bencoding_encode v ++ rest) = Parsed v rest) l ->
  (length l < fuel)%nat ->
  parse_list_loop pv fuel out (concat (map bencoding_encode l) ++ "e"%byte :: rest) =
  Parsed (BList (out ++ l)) rest.
Proof.
  intros Hl. revert out fuel. induction Hl as [|v l Hv Hl IH]; intros out [|fuel] Hf;
    simpl in *; try lia.
  { by rewrite app_nil_r. }
  rewrite <-!app_assoc, Hv. destruct (encode_head v) as (c & x & E & Hc). rewrite E. simpl.
  rewrite bool_decide_eq_false_2 by done. rewrite IH by lia. by rewrite <-app_assoc.
Qed.

Lemma parse_map_loop_encode m out fuel rest :
  Forall (fun kv => is_short (fst kv) /\
                    forall rest, pv (bencoding_encode (snd kv) ++ rest) = Parsed (snd kv) rest) m ->
  sorted_keys (out ++ m) -> (length m < fuel)%nat ->
  parse_map_loop pv fuel out
    (concat (map (fun kv => encode_string (fst kv) ++ bencoding_encode (snd kv)) m)
     ++ "e"%byte :: rest) =
  Parsed (BMap (out ++ m)) rest.
Proof.
  intros Hm. revert out fuel.
  induction Hm as [|[k v] m [Hk Hv] Hm IH]; intros out [|fuel] Hs Hf; simpl in *; try lia.
  { by rewrite app_nil_r. }
  rewrite <-!app_assoc, parse_string_encode by done.
  destruct (encode_string_head k) as (c & x & E & Hc). rewrite E. simpl.
  rewrite bool_decide_eq_false_2 by (intros ->; done).
  rewrite Hv, map_assign_last by (by eapply sorted_keys_app_last in Hs).
  rewrite IH; [by rewrite <-app_assoc | by rewrite <-app_assoc | lia].
Qed.
End RoundTrip.

Lemma length_concat_ge {A} (f : A -> list byte) l :
  (forall x, (1 <= length (f x))%nat) ->
  (length l <= length (concat (map f l)))%nat /\
  Forall (fun x => (length (f x) <= length (concat (map f l)))%nat) l.
Proof.
  intros Hf. induction l as [|x l [IH1 IH2]]; simpl; [split; [lia|constructor]|].
  rewrite length_app. specialize (Hf x). split; [lia|]. constructor; [lia|].
  eapply Forall_impl; [exact IH2|]. simpl. intros; lia.
Qed.

Lemma encode_nonempty v : (1 <= length (bencoding_encode v))%nat.
Proof. destruct (encode_head v) as (c & x & -> & _). simpl. lia. Qed.

Lemma parse_encode v : forall fuel d rest,
  wf_value v -> 1 <= d -> d + nesting v - 1 <= depth_limit ->
  (length (bencoding_encode v) < fuel)%nat ->
  destructive_parse_value fuel (bencoding_encode v ++ rest) d = Parsed v rest.
Proof.
  induction v as [z|s|l IH|m IH] using BencodedValue_nested_ind;
    intros [|fuel] d rest Hwf Hd Hn Hf; try lia;
    pose proof (Z.ltb_ge depth_limit d) as Hlt; cbn [destructive_parse_value].
  - simpl. rewrite (proj2 Hlt) by (simpl in Hn; lia). rewrite <-app_assoc.
    rewrite parse_int_to_string; [done|done|by apply no_digit_cons].
  - cbn [bencoding_encode]. destruct (encode_string_head s) as (c & x & E & Hc).
    pose proof (parse_string_encode s rest Hwf) as Hp. rewrite E in Hp |- *. simpl in Hp |- *.
    rewrite (proj2 Hlt) by (simpl in Hn; lia).
    rewrite bool_decide_eq_false_2 by (intros ->; done). by rewrite Hc, Hp.
  - cbn [bencoding_encode app]. rewrite (proj2 Hlt) by (pose proof (nesting_pos (BList l)); lia).
    simpl. unfold depth_limit in *. rewrite Z.mod_small by (pose proof (nesting_pos (BList l)); lia).
    rewrite <-app_assoc; cbn [app]. simpl in Hf. rewrite length_app in Hf. simpl in Hf.
    destruct (length_concat_ge bencoding_encode l encode_nonempty) as [L1 L2].
    rewrite parse_list_loop_encode; [done| |lia].
    apply wf_list in Hwf.
    assert (nesting (BList l) <= 101 - d) as Hn' by lia.
    apply nesting_list in Hn'; [|pose proof (nesting_pos (BList l)); lia].
    rewrite Forall_forall in *. intros v Hv rest'.
    apply IH; auto; [lia|specialize (Hn' _ Hv); lia|specialize (L2 _ Hv); lia].
  - cbn [bencoding_encode app]. rewrite (proj2 Hlt) by (pose proof (nesting_pos (BMap m)); lia).
    simpl. unfold depth_limit in *. rewrite Z.mod_small by (pose proof (nesting_pos (BMap m)); lia).
    rewrite <-app_assoc; cbn [app]. simpl in Hf. rewrite length_app in Hf. simpl in Hf.
    destruct (length_concat_ge
      (fun kv => encode_string (fst kv) ++ bencoding_encode (snd kv)) m) as [L1 L2].
    { intros kv. rewrite length_app. pose proof (encode_nonempty (snd kv)). lia. }
    apply wf_map in Hwf as [Hsorted Hwf].
    rewrite parse_map_loop_encode; [done| |done|lia].
    assert (nesting (BMap m) <= 101 - d) as Hn' by lia.
    apply nesting_map in Hn'; [|pose proof (nesting_pos (BMap m)); lia].
    rewrite Forall_forall in *. intros kv Hv. split; [by apply Hwf|]. intros rest'.
    specialize (L2 _ Hv). simpl in L2. rewrite length_app in L2.
    apply IH; auto; [by apply Hwf|lia|specialize (Hn' _ Hv); lia|lia].
Qed.

Lemma decode_encode v rest :
  wf_value v -> nesting v <= depth_limit ->
  bencoding_decode (bencoding_encode v ++ rest) = Some v.
Proof.
  intros Hw Hn. unfold bencoding_decode.
  rewrite parse_encode; [done|done|lia|lia|rewrite length_app; lia].
Qed.

(** ** What the decoder accepts *)

(** The contract of a parser run on [s] with [fuel]: it runs out of fuel only
    when the fuel does not exceed the input; a success consumes input and yields
    a well-formed value nested at most [D] deep. *)
Definition sound_result (fuel : nat) (s : list byte) (D : Z)
    (r : parse_result BencodedValue) : Prop :=
  match r with
  | OutOfFuel => (fuel <= length s)%nat
  | Failed => True
  | Parsed v rest => (length rest < length s)%nat /\ wf_value v /\ nesting v <= D
  end.

Section Sound.
Variable pv : list byte -> parse_result BencodedValue.
Variables (pfuel : nat) (D : Z).
Hypothesis pv_sound : forall s, sound_result pfuel s D (pv s).
Hypothesis D_nonneg : 0 <= D.

Lemma parse_list_loop_sound fuel : forall out s,
  (fuel <= pfuel)%nat -> Forall wf_value out -> Forall (fun v => nesting v <= D) out ->
  sound_result fuel s (D + 1) (parse_list_loop pv fuel out s).
Proof.
  induction fuel as [|fuel IH]; intros out s Hf Hw Hn; simpl; [lia|].
  destruct s as [|c s]; [done|]. case_bool_decide.
  { split; [simpl; lia|]. rewrite wf_list, nesting_list by lia.
    replace (D + 1 - 1) with D by lia. done. }
  pose proof (pv_sound (c :: s)) as Hp. destruct (pv (c :: s)) as [| |v rest]; simpl in *;
    [lia|done|]. destruct Hp as (Hl & Hv & Hd).
  specialize (IH (out ++ [v]) rest ltac:(lia)).
  assert (sound_result fuel rest (D + 1) (parse_list_loop pv fuel (out ++ [v]) rest)) as Hr.
  { apply IH; apply Forall_app; split; auto; by constructor. }
  destruct (parse_list_loop pv fuel (out ++ [v]) rest); simpl in *; [lia|done|].
  destruct Hr as (? & ? & ?). split_and!; [lia|done|done].
Qed.

Lemma parse_map_loop_sound fuel : forall out s,
  (fuel <= pfuel)%nat -> sorted_keys out ->
  Forall (fun kv => is_short (fst kv) /\ wf_value (snd kv)) out ->
  Forall (fun kv => nesting (snd kv) <= D) out ->
  sound_result fuel s (D + 1) (parse_map_loop pv fuel out s).
Proof.
  induction fuel as [|fuel IH]; intros out s Hf Hs Hw Hn; simpl; [lia|].
  destruct s as [|c s]; [done|]. case_bool_decide.
  { split; [simpl; lia|]. rewrite wf_map, nesting_map by lia.
    replace (D + 1 - 1) with D by lia. done. }
  destruct (destructive_parse_string (c :: s)) as [[key rest0]|] eqn:Ek; [|done].
  apply parse_string_range in Ek as [Hk Hl0].
  pose proof (pv_sound rest0) as Hp. destruct (pv rest0) as [| |v rest]; simpl in *;
    [lia|done|]. destruct Hp as (Hl & Hv & Hd).
  assert (sound_result fuel rest (D + 1) (parse_map_loop pv fuel (map_assign out key v) rest)) as Hr.
  { apply IH; [lia|by apply map_assign_sorted|by apply map_assign_Forall..]. }
  destruct (parse_map_loop pv fuel _ rest); simpl in *; [lia|done|].
  destruct Hr as (? & ? & ?). split_and!; [lia|done|done].
Qed.
End Sound.

Lemma parse_value_sound fuel : forall s d,
  1 <= d -> sound_result fuel s (depth_limit + 1 - d) (destructive_parse_value fuel s d).
Proof.
  induction fuel as [|fuel IH]; intros s d Hd; cbn [destructive_parse_value]; [simpl; lia|].
  destruct s as [|c s]; [done|].
  destruct (Z.ltb_spec depth_limit d) as [|Hlim]; [done|].
  case_bool_decide.
  { destruct (destructive_parse_int s) as [[z [|e rest]]|] eqn:Ei; try done.
    apply parse_int_range in Ei as [Hz Hl]. case_bool_decide; [|done].
    simpl in *. split_and!; [lia|done|lia]. }
  destruct (is_digit c).
  { destruct (destructive_parse_string (c :: s)) as [[v rest]|] eqn:Es; [|done].
    apply parse_string_range in Es as [Hz Hl]. simpl in *. split_and!; [lia|done|lia]. }
  unfold depth_limit in *. rewrite Z.mod_small by lia.
  assert (forall e, sound_result fuel e (100 - d) (destructive_parse_value fuel e (d + 1))) as Hpv.
  { intros e. replace (100 - d) with (100 + 1 - (d + 1)) by lia. apply IH. lia. }
  replace (100 + 1 - d) with (100 - d + 1) by lia.
  repeat case_bool_decide; try done.
  - pose proof (parse_list_loop_sound _ fuel (100 - d) Hpv ltac:(lia) fuel [] s ltac:(lia)
      ltac:(constructor) ltac:(constructor)) as Hr.
    destruct (parse_list_loop _ fuel [] s); simpl in *; [lia|done|].
    destruct Hr as (? & ? & ?). split_and!; [lia|done|done].
  - pose proof (parse_map_loop_sound _ fuel (100 - d) Hpv ltac:(lia) fuel [] s ltac:(lia)
      ltac:(constructor) ltac:(constructor) ltac:(constructor)) as Hr.
    destruct (parse_map_loop _ fuel [] s); simpl in *; [lia|done|].
    destruct Hr as (? & ? & ?). split_and!; [lia|done|done].
Qed.

Lemma decode_sound s v :
  bencoding_decode s = Some v -> wf_value v /\ nesting v <= depth_limit.
Proof.
  unfold bencoding_decode. intros H.
  pose proof (parse_value_sound (S (length s)) s 1 ltac:(lia)) as Hp.
  destruct (destructive_parse_value _ s 1); inversion H; subst.
  destruct Hp as (_ & Hw & Hn). split; [done|]. unfold depth_limit in *. lia.
Qed.

(** ** Properties *)

(** C25: every well-formed value nested at most 100 deep is decoded from its own
    encoding, whatever bytes follow it. *)
Theorem bencoding_roundtrip v rest :
  wf_value v -> nesting v <= depth_limit ->
  bencoding_decode (bencoding_encode v ++ rest) = Some v.
Proof. apply decode_encode. Qed.

Definition sample_value : BencodedValue :=
  BMap [(str "a", BInt (-5)); (str "b", BList [BStr (str "xyz"); BMap []])].

Lemma bencoding_roundtrip_witness :
  bencoding_decode (bencoding_encode sample_value ++ str "trailing") = Some sample_value.
Proof.
  apply (bencoding_roundtrip sample_value (str "trailing")).
  - split.
    + repeat constructor.
    + simpl. unfold is_short, is_int64. simpl. repeat split; try (by vm_compute); constructor.
  - by vm_compute.
Defined.

(** C39: the decoder accepts untrusted bytes and yields only values that respect
    the types of the source (64-bit integers, length-limited strings, strictly
    sorted maps) and the depth limit; re-encoding an accepted value and decoding
    it again gives the same value, even where the input was not canonical. *)
Theorem bencoding_decode_normalises s v :
  bencoding_decode s = Some v ->
  wf_value v /\ nesting v <= depth_limit /\
  bencoding_decode (bencoding_encode v) = Some v.
Proof.
  intros H. apply decode_sound in H as [Hw Hn]. split_and!; [done|done|].
  rewrite <-(app_nil_r (bencoding_encode v)). by apply decode_encode.
Qed.

Lemma bencoding_decode_normalises_witness :
  bencoding_decode (bencoding_encode (BMap [(str "a", BInt 1); (str "b", BInt 2)])) =
  Some (BMap [(str "a", BInt 1); (str "b", BInt 2)]).
Proof.
  apply (bencoding_decode_normalises (str "d1:bi+2e1:ai001ee")). vm_compute. reflexivity.
Defined.

(** C40: the recursive-descent parser terminates on every input and at every
    depth: with fuel exceeding the input's length it never runs out, and each
    accepted value consumes at least one byte. *)
Theorem destructive_parse_value_terminates s d :
  1 <= d ->
  match destructive_parse_value (S (length s)) s d with
  | OutOfFuel => False
  | Failed => True
  | Parsed _ rest => (length rest < length s)%nat
  end.
Proof.
  intros Hd. pose proof (parse_value_sound (S (length s)) s d Hd) as H.
  destruct (destructive_parse_value _ s d); simpl in *; [lia|done|tauto].
Qed.

Lemma destructive_parse_value_terminates_witness :
  match destructive_parse_value (S (length (str "ll"))) (str "ll") 1 with
  | OutOfFuel => False
  | Failed => True
  | Parsed _ rest => (length rest < length (str "ll"))%nat
  end.
Proof. apply (destructive_parse_value_terminates (str "ll") 1). lia. Defined.
