(* ===== verification/Bytes.v ===== *)
(** * Byte strings as text: src/util/bytes.h

    Hexadecimal and "printable" conversions, with the printer of bencoded values
    ([operator<<] of bencoding.cpp) that uses them. *)
From S2P Require Import Prelude Number Bencoding.

(** ** The code *)

(** [to_array<B, N>]: asserts the size, then copies.  [None] is the failed
    assertion. *)
Definition to_array (n : nat) (bytestring : list byte) : option (list byte) :=
  if (length bytestring =? n)%nat then Some bytestring else None.

Definition hex_chars : list byte := str "0123456789abcdefABCDEF".

Definition is_hex (s : list byte) : bool :=
  forallb (fun c => bool_decide (c ∈ hex_chars)) s.

(** [digits[...]] of the string literal in [to_hex] and [to_printable]. *)
Definition hex_digit (n : Z) : byte :=
  default Byte.x00 (str "0123456789abcdef" !! Z.to_nat n).

Definition hex_pair (c : byte) : list byte :=
  [hex_digit (Z.land (Z.shiftr (code c) 4) 15);
   hex_digit (Z.land (Z.shiftr (code c) 0) 15)].

Definition to_hex (bytestring : list byte) : list byte := concat (map hex_pair bytestring).

(** [from_hex(char)] *)
Definition from_hex1 (c : byte) : option byte :=
  let v := code c in
  if (48 <=? v) && (v <=? 57) then Some (byte_of (v - 48))
  else if (97 <=? v) && (v <=? 102) then Some (byte_of (10 + v - 97))
  else if (65 <=? v) && (v <=? 70) then Some (byte_of (10 + v - 65))
  else None.

(** [from_hex(char, char)] *)
Definition from_hex2 (c1 c2 : byte) : option byte :=
  let? n1 := from_hex1 c1 in
  let? n2 := from_hex1 c2 in
  Some (byte_of (code n1 * 16 + code n2)).

(** [from_hex(string_view)] *)
Fixpoint from_hex (hex : list byte) : option (list byte) :=
  match hex with
  | [] => Some []
  | [c] => let? oc := from_hex1 c in Some [oc]
  | c1 :: c2 :: hex' =>
      let? oc := from_hex2 c1 c2 in
      let? output := from_hex hex' in
      Some (oc :: output)
  end.

(** One iteration of [to_printable]. *)
Definition print_char (c : byte) : list byte :=
  if bool_decide (c = "\"%byte) || bool_decide (c = Byte.x22) then ["\"%byte; c]
  else if (32 <=? code c) && (code c <=? 126) then [c]
  else "\"%byte :: "x"%byte :: hex_pair c.

Definition to_printable (bytestring : list byte) : list byte :=
  concat (map print_char bytestring).

(** The loop of [from_printable], after the quotes are removed. *)
Fixpoint unescape (s : list byte) : option (list byte) :=
  match s with
  | [] => Some []
  | c :: s1 =>
      if bool_decide (c = "\"%byte) && bool_decide (head s1 = Some "x"%byte) then
        match s1 with
        | _ :: h1 :: h2 :: s' =>
            let? oc := from_hex2 h1 h2 in
            let? output := unescape s' in
            Some (oc :: output)
        | _ => None
        end
      else
        let? output := unescape s1 in
        Some (c :: output)
  end.

Definition from_printable (s : list byte) : option (list byte) :=
  if (length s <? 2)%nat then None
  else if negb (bool_decide (head s = Some Byte.x22)) then None
  else if negb (bool_decide (last s = Some Byte.x22)) then None
  else unescape (take (length s - 2) (drop 1 s)).

(** The comma-separated elements of a printed list or map. *)
Fixpoint print_separated (l : list (list byte)) : list byte :=
  match l with
  | [] => []
  | [x] => x
  | x :: l' => x ++ str ", " ++ print_separated l'
  end.

(** [operator<<] of [BencodedValue] *)
Fixpoint print_value (v : BencodedValue) : list byte :=
  match v with
  | BInt z => to_string z
  | BStr s => Byte.x22 :: to_printable s ++ [Byte.x22]
  | BList l => "["%byte :: print_separated (map print_value l) ++ ["]"%byte]
  | BMap m =>
      "{"%byte :: print_separated (map (fun kv => fst kv ++ ":"%byte :: print_value (snd kv)) m)
        ++ ["}"%byte]
  end.

(** ** Hexadecimal *)

Lemma from_hex2_hex_pair c :
  match hex_pair c with [a; b] => from_hex2 a b | _ => None end = Some c.
Proof. by destruct c; vm_compute. Qed.

Lemma hex_pair_length c : length (hex_pair c) = 2%nat.
Proof. done. Qed.

Lemma from_hex_to_hex s rest :
  from_hex (to_hex s ++ rest) = (fun t => s ++ t) <$> from_hex rest.
Proof.
  unfold to_hex. induction s as [|c s IH]; simpl; [by destruct (from_hex rest)|].
  pose proof (from_hex2_hex_pair c) as Hc. simpl in Hc. rewrite Hc, IH.
  by destruct (from_hex rest).
Qed.

Lemma to_hex_is_hex s : is_hex (to_hex s) = true.
Proof.
  unfold is_hex, to_hex. induction s as [|c s IH]; [done|].
  cbn [map concat]. rewrite forallb_app, IH, andb_true_r. by destruct c; vm_compute.
Qed.

Lemma from_hex1_is_hex c : is_Some (from_hex1 c) <-> c ∈ hex_chars.
Proof.
  split.
  - destruct c; vm_compute; intros [x Hx]; try discriminate; by repeat constructor.
  - intros H. unfold hex_chars in H. vm_compute in H.
    repeat (apply elem_of_cons in H as [->|H]; [vm_compute; eauto|]). by apply elem_of_nil in H.
Qed.

Lemma from_hex2_is_Some c1 c2 :
  is_Some (from_hex2 c1 c2) <-> c1 ∈ hex_chars /\ c2 ∈ hex_chars.
Proof.
  rewrite <-!from_hex1_is_hex. unfold from_hex2.
  destruct (from_hex1 c1), (from_hex1 c2); naive_solver.
Qed.

Lemma from_hex_is_Some t : is_Some (from_hex t) <-> is_hex t = true.
Proof.
  unfold is_hex. remember (length t) as n eqn:Hn.
  revert t Hn. induction (lt_wf n) as [n _ IH]. intros [|c1 [|c2 t]] ->; simpl.
  - naive_solver.
  - rewrite andb_true_r, bool_decide_eq_true, <-from_hex1_is_hex.
    destruct (from_hex1 c1); naive_solver.
  - rewrite !andb_true_iff, !bool_decide_eq_true, <-(IH (length t) ltac:(simpl; lia) t eq_refl).
    pose proof (from_hex2_is_Some c1 c2).
    destruct (from_hex2 c1 c2), (from_hex t); naive_solver.
Qed.

(** ** Printable text *)

(** A byte [to_printable] does not escape with a backslash of its own. *)
Definition plain (c : byte) : Prop := c <> "\"%byte /\ c <> Byte.x22.

Lemma unescape_print_char c rest :
  plain c -> unescape (print_char c ++ rest) = (fun t => c :: t) <$> unescape rest.
Proof.
  intros [H1 H2]. unfold print_char.
  rewrite !bool_decide_eq_false_2 by done. simpl.
  destruct ((32 <=? code c) && (code c <=? 126)) eqn:E.
  - simpl. rewrite bool_decide_eq_false_2 by done. simpl. by destruct (unescape rest).
  - pose proof (from_hex2_hex_pair c) as Hc. simpl in Hc. simpl. rewrite Hc.
    by destruct (unescape rest).
Qed.

Lemma unescape_to_printable s : Forall plain s -> unescape (to_printable s) = Some s.
Proof.
  unfold to_printable. induction 1 as [|c s Hc Hs IH]; [done|]. cbn [map concat].
  by rewrite unescape_print_char, IH.
Qed.

(** ** Properties *)

(** hexadecimal conversion round-trips for every byte string, its output is
    accepted by [is_hex], and [from_hex] fails exactly on strings with a
    character that is not a hexadecimal digit. *)
Theorem hex_roundtrip s :
  from_hex (to_hex s) = Some s /\ is_hex (to_hex s) = true /\
  (forall t, is_Some (from_hex t) <-> is_hex t = true).
Proof.
  split_and!; [|apply to_hex_is_hex|apply from_hex_is_Some].
  rewrite <-(app_nil_r (to_hex s)), from_hex_to_hex. simpl. by rewrite app_nil_r.
Qed.

(** a byte string without backslashes and double quotes is recovered by
    [from_printable] from its quoted printable form; a backslash is not, because
    [from_printable] keeps the escaping backslash [to_printable] puts before it. *)
Theorem printable_roundtrip s :
  (Forall plain s -> from_printable (Byte.x22 :: to_printable s ++ [Byte.x22]) = Some s) /\
  from_printable (Byte.x22 :: to_printable ["\"%byte] ++ [Byte.x22]) = Some ["\"%byte; "\"%byte].
Proof.
  split; [|by vm_compute]. intros Hs. unfold from_printable.
  replace (length _) with (S (S (length (to_printable s)))) by (simpl; rewrite length_app; simpl; lia).
  rewrite app_comm_cons, last_snoc, <-app_comm_cons.
  change (S (S (length (to_printable s))) - 2)%nat with (length (to_printable s) - 0)%nat.
  simpl. rewrite skipn_O, Nat.sub_0_r, take_app_length. by apply unescape_to_printable.
Qed.

Lemma printable_roundtrip_witness :
  from_printable (Byte.x22 :: to_printable (str "a b" ++ [Byte.x00; Byte.xff]) ++ [Byte.x22])
  = Some (str "a b" ++ [Byte.x00; Byte.xff]).
Proof.
  apply (printable_roundtrip (str "a b" ++ [Byte.x00; Byte.xff])).
  repeat (constructor; [split; intros E; discriminate E|]). constructor.
Defined.
