(* ===== verification/NodeId.v ===== *)
(** * Node identifiers: src/bittorrent/node_id.h and node_id.cpp

    A [NodeID] is a buffer of 20 bytes, the first one most significant.  The
    buffer is modelled as a list of bytes; [valid_id] is the array's length.
    Reads and writes past the array are undefined behaviour in C++: the model's
    read gives [false] there and its write changes nothing, and no theorem below
    relies on that. *)
From S2P Require Import Prelude Number Bytes.

(** ** The code *)

Definition id_size : nat := 20.
Definition bit_size : nat := 160.

Definition valid_id (id : list byte) : Prop := length id = id_size.

Definition get_rbit (buffer : list byte) (n : nat) : bool :=
  match buffer !! (n / 8)%nat with
  | Some b => negb (Z.land (code b) (Z.shiftl 1 (7 - Z.of_nat n mod 8)) =? 0)
  | None => false
  end.

(** [char bit] holds the mask, sign-extended when it is promoted. *)
Definition set_rbit (buffer : list byte) (n : nat) (value : bool) : list byte :=
  let bit := to_signed W1 (Z.shiftl 1 (8 - Z.of_nat n mod 8 - 1)) in
  alter (fun b => byte_of (if value then Z.lor (code b) bit else Z.land (code b) (Z.lnot bit)))
        (n / 8)%nat buffer.

Definition zero_buffer : list byte := replicate id_size Byte.x00.
Definition NodeID_zero : list byte := zero_buffer.
Definition NodeID_max : list byte := replicate id_size Byte.xff.

Definition from_bytestring (bytestring : list byte) : option (list byte) :=
  to_array id_size bytestring.

(** [from_hex]: the outer option is [to_array]'s assertion, the inner one the
    function's result. *)
Definition NodeID_from_hex (hex : list byte) : option (option (list byte)) :=
  match from_hex hex with
  | None => Some None
  | Some os => Some <$> to_array id_size os
  end.

(** [operator^] *)
Definition id_xor (a b : list byte) : list byte :=
  zip_with (fun x y => byte_of (Z.lxor (code x) (code y))) a b.

(** The comparison operators of [std::array]. *)
Definition id_lt (a b : list byte) : bool := lex_ltb a b.
Definition id_le (a b : list byte) : bool := negb (lex_ltb b a).
Definition id_gt (a b : list byte) : bool := lex_ltb b a.

(** [closer_to], called on [pivot]. *)
Fixpoint closer_to (pivot left right : list byte) : bool :=
  match pivot, left, right with
  | p :: pivot', a :: left', b :: right' =>
      let l := byte_of (Z.lxor (code a) (code p)) in
      let r := byte_of (Z.lxor (code b) (code p)) in
      if code l <? code r then true
      else if code r <? code l then false
      else closer_to pivot' left' right'
  | _, _, _ => false
  end.

Definition distance_to (id other : list byte) : list byte :=
  zip_with (fun x y => byte_of (Z.lxor (code x) (code y))) id other.

Definition to_bitstr (id : list byte) : list byte :=
  map (fun i => if get_rbit id i then "1"%byte else "0"%byte) (seq 0 bit_size).

(** [NodeID::Range] *)
Record Range := { stencil : list byte; mask : nat }.

Definition Range_max : Range := {| stencil := zero_buffer; mask := 0 |}.

(** [Range::random_id]; [rand i] is what [rand()] returns for byte [i]. *)
Definition random_id (r : Range) (rand : nat -> Z) : list byte :=
  let s_bytes := (mask r / 8)%nat in
  let s_bits := Z.of_nat (mask r) mod 8 in
  imap (fun i s =>
          if (i <? s_bytes)%nat then s
          else if (s_bytes <? i)%nat then byte_of (Z.land (rand i) 255)
          else byte_of (Z.lor (Z.land (code s) (Z.land (Z.shiftl 255 (8 - s_bits)) 255))
                              (Z.land (rand i) (Z.shiftl 1 (8 - s_bits) - 1))))
       (stencil r).

(** [Range::reduce] *)
Definition reduce (r : Range) (bit : bool) : Range :=
  let mask' := S (mask r) in
  {| stencil := set_rbit (stencil r) mask' bit; mask := mask' |}.

(** [NodeID::generate]; [crc32c] is boost's checksum, [rand i] what [rand()]
    returns for byte [i], [rnd] the value of [test_rnd] or of [rand()]. *)
Variant ip_address := IPv4 (bytes : list byte) | IPv6 (bytes : list byte).

Definition masked_ip (n : nat) (shift : nat -> Z) (bytes : list byte) (last_byte : Z) : list byte :=
  let masked := imap (fun i b => byte_of (Z.land (code b) (Z.shiftr 255 (shift i)))) (take n bytes) in
  alter (fun b => byte_of (Z.lor (code b) (Z.shiftl (Z.land last_byte 7) 5))) 0%nat masked.

Definition generate (crc32c : list byte -> Z) (rand : nat -> Z) (rnd : Z)
    (address : ip_address) : list byte :=
  let b19 := byte_of (Z.land rnd 255) in
  let checksum :=
    match address with
    | IPv4 ip => crc32c (masked_ip 4 (fun i => 6 - Z.of_nat i * 2) ip (code b19))
    | IPv6 ip => crc32c (masked_ip 8 (fun i => 7 - Z.of_nat i) ip (code b19))
    end in
  [byte_of (Z.land (Z.shiftr checksum 24) 255);
   byte_of (Z.land (Z.shiftr checksum 16) 255);
   byte_of (Z.lor (Z.land (Z.shiftr checksum 8) 248) (Z.land (rand 2%nat) 7))]
  ++ map (fun i => byte_of (Z.land (rand i) 255)) (seq 3 16) ++ [b19].

(** ** Bits *)

Lemma land_pow2_testbit a k : 0 <= k -> negb (Z.land a (Z.shiftl 1 k) =? 0) = Z.testbit a k.
Proof.
  intros Hk. rewrite Z.shiftl_1_l. destruct (Z.testbit a k) eqn:E.
  - destruct (Z.eqb_spec (Z.land a (2 ^ k)) 0) as [H0|]; [|done].
    apply (f_equal (fun z => Z.testbit z k)) in H0.
    rewrite Z.land_spec, E, Z.pow2_bits_true, Z.bits_0 in H0 by done. done.
  - destruct (Z.eqb_spec (Z.land a (2 ^ k)) 0) as [|H0]; [done|]. exfalso. apply H0.
    apply Z.bits_inj'. intros i Hi. rewrite Z.land_spec, Z.bits_0, Z.pow2_bits_eqb by done.
    destruct (Z.eqb_spec k i) as [<-|]; [by rewrite E|by rewrite andb_false_r].
Qed.

(** [n]'s byte index and the bit inside it. *)
Lemma nat_mod_8 n : Z.of_nat n mod 8 = Z.of_nat (n mod 8).
Proof. by rewrite Nat2Z.inj_mod. Qed.

Lemma mod_8_range n : 0 <= Z.of_nat n mod 8 < 8.
Proof. apply Z.mod_pos_bound. lia. Qed.

Lemma get_rbit_byte id n b :
  id !! (n / 8)%nat = Some b -> get_rbit id n = Z.testbit (code b) (7 - Z.of_nat n mod 8).
Proof.
  intros H. unfold get_rbit. rewrite H. apply land_pow2_testbit.
  pose proof (mod_8_range n). lia.
Qed.

Lemma get_rbit_testbit id n :
  (n < 8 * length id)%nat ->
  get_rbit id n = Z.testbit (be_value id) (8 * Z.of_nat (length id) - 1 - Z.of_nat n).
Proof.
  revert n. induction id as [|b id IH]; intros n Hn; simpl in Hn; [lia|].
  rewrite be_value_testbit_cons by (simpl; lia).
  destruct (decide (n < 8)%nat) as [H8|H8].
  - rewrite (get_rbit_byte _ _ b) by (by rewrite Nat.div_small by lia).
    rewrite Z.mod_small by lia.
    destruct (Z.ltb_spec (8 * Z.of_nat (length (b :: id)) - 1 - Z.of_nat n) (8 * Z.of_nat (length id)));
      [simpl in *; lia|]. f_equal. simpl. lia.
  - specialize (IH (n - 8)%nat ltac:(lia)).
    destruct (Z.ltb_spec (8 * Z.of_nat (length (b :: id)) - 1 - Z.of_nat n) (8 * Z.of_nat (length id)));
      [|simpl in *; lia].
    assert (get_rbit (b :: id) n = get_rbit id (n - 8)) as ->.
    { unfold get_rbit. replace n with (n - 8 + 1 * 8)%nat at 1 by lia.
      rewrite Nat.div_add, Nat.add_1_r by done. simpl.
      replace (Z.of_nat n) with (Z.of_nat (n - 8) + 1 * 8) by lia. by rewrite Z.mod_add. }
    rewrite IH. f_equal. simpl. lia.
Qed.

Lemma length_set_rbit id n v : length (set_rbit id n v) = length id.
Proof. apply length_alter. Qed.

(** The bits of the mask byte, sign extension included. *)
Lemma mask_bits j k :
  0 <= j < 8 -> 0 <= k < 8 -> Z.testbit (to_signed W1 (Z.shiftl 1 j)) k = (k =? j).
Proof.
  intros Hj Hk.
  assert (j = 0 \/ j = 1 \/ j = 2 \/ j = 3 \/ j = 4 \/ j = 5 \/ j = 6 \/ j = 7) as Cj by lia.
  assert (k = 0 \/ k = 1 \/ k = 2 \/ k = 3 \/ k = 4 \/ k = 5 \/ k = 6 \/ k = 7) as Ck by lia.
  repeat destruct Cj as [->|Cj]; try subst j;
    repeat destruct Ck as [->|Ck]; try subst k; reflexivity.
Qed.

Lemma testbit_byte_of z k : 0 <= k < 8 -> Z.testbit (code (byte_of z)) k = Z.testbit z k.
Proof. intros Hk. rewrite code_byte_of. change 256 with (2 ^ 8). apply Z.mod_pow2_bits_low. lia. Qed.

Lemma get_set_rbit id n m v :
  (n < 8 * length id)%nat ->
  get_rbit (set_rbit id n v) m = if (m =? n)%nat then v else get_rbit id m.
Proof.
  intros Hn. assert (n / 8 < length id)%nat as Hi by (apply Nat.Div0.div_lt_upper_bound; lia).
  destruct (lookup_lt_is_Some_2 id _ Hi) as [b Hb].
  destruct (decide (m / 8 = n / 8)%nat) as [E|E].
  - set (bit := to_signed W1 (Z.shiftl 1 (8 - Z.of_nat n mod 8 - 1))).
    pose proof (mod_8_range n). pose proof (mod_8_range m).
    assert (set_rbit id n v !! (m / 8)%nat =
      Some (byte_of (if v then Z.lor (code b) bit else Z.land (code b) (Z.lnot bit)))) as Hs.
    { unfold set_rbit. by rewrite E, list_lookup_alter_eq, Hb. }
    rewrite (get_rbit_byte _ _ _ Hs), testbit_byte_of by lia.
    rewrite (get_rbit_byte id m b) by congruence.
    replace ((m =? n)%nat) with (7 - Z.of_nat m mod 8 =? 8 - Z.of_nat n mod 8 - 1).
    2: { pose proof (Nat.div_mod_eq m 8). pose proof (Nat.div_mod_eq n 8).
         rewrite !nat_mod_8 in *. destruct (Nat.eqb_spec m n); zbool; try done; lia. }
    destruct v; [rewrite Z.lor_spec|rewrite Z.land_spec, Z.lnot_spec by lia];
      unfold bit; rewrite mask_bits by lia; by destruct (_ =? _), (Z.testbit _ _).
  - destruct (Nat.eqb_spec m n) as [->|]; [done|].
    unfold get_rbit, set_rbit. by rewrite list_lookup_alter_ne by done.
Qed.

(** An identifier below [2 ^ 160] from its bits. *)
Lemma be_value_ext id z :
  valid_id id -> 0 <= z < 2 ^ 160 ->
  (forall n, (n < bit_size)%nat -> get_rbit id n = Z.testbit z (159 - Z.of_nat n)) ->
  be_value id = z.
Proof.
  intros Hv Hz Hb. pose proof (be_value_range id) as Hr. rewrite Hv in Hr.
  unfold bit_size in *. apply Z.bits_inj'. intros i Hi. destruct (Z.ltb_spec i 160).
  - specialize (Hb (Z.to_nat (159 - i)) ltac:(lia)).
    rewrite get_rbit_testbit in Hb by (rewrite Hv; unfold id_size; lia).
    rewrite Hv in Hb. unfold id_size in Hb. rewrite Z2Nat.id in Hb by lia.
    replace (8 * Z.of_nat 20 - 1 - (159 - i)) with i in Hb by lia.
    replace (159 - (159 - i)) with i in Hb by lia. done.
  - rewrite <-(Z.mod_small (be_value id) (2 ^ 160)), <-(Z.mod_small z (2 ^ 160)) by done.
    by rewrite !Z.mod_pow2_bits_high by lia.
Qed.

(** ** The XOR metric *)

Lemma id_xor_valid a b : valid_id a -> valid_id b -> valid_id (id_xor a b).
Proof. unfold valid_id, id_xor. intros. rewrite length_zip_with. lia. Qed.

Lemma be_value_id_xor a b :
  valid_id a -> valid_id b -> be_value (id_xor a b) = Z.lxor (be_value a) (be_value b).
Proof. intros Ha Hb. apply be_value_lxor. unfold valid_id in *. congruence. Qed.

Lemma closer_to_lex p l r :
  length l = length p -> length r = length p ->
  closer_to p l r = lex_ltb (id_xor l p) (id_xor r p).
Proof.
  revert l r. induction p as [|x p IH]; intros [|a l] [|b r] Hl Hr; try done.
  injection Hl as Hl. injection Hr as Hr. simpl. by rewrite IH.
Qed.

(** The distance between two identifiers, as a number. *)
Definition distance (a b : list byte) : Z := Z.lxor (be_value a) (be_value b).

Lemma closer_to_distance p l r :
  valid_id p -> valid_id l -> valid_id r ->
  closer_to p l r = (distance l p <? distance r p).
Proof.
  intros Hp Hl Hr. unfold valid_id in *. rewrite closer_to_lex by congruence.
  rewrite be_value_lex by (unfold id_xor; rewrite !length_zip_with; lia).
  unfold distance. by rewrite !be_value_id_xor.
Qed.

Lemma distance_inj a b p :
  valid_id a -> valid_id b -> distance a p = distance b p -> a = b.
Proof.
  intros Ha Hb H. apply be_value_inj; [unfold valid_id in *; congruence|].
  unfold distance in H. apply (f_equal (fun z => Z.lxor z (be_value p))) in H.
  by rewrite !Z.lxor_assoc, !Z.lxor_nilpotent, !Z.lxor_0_r in H.
Qed.

Lemma distance_range a b : valid_id a -> valid_id b -> 0 <= distance a b < 2 ^ 160.
Proof.
  intros Ha Hb. unfold distance. rewrite <-be_value_id_xor by done.
  pose proof (be_value_range (id_xor a b)) as H.
  by rewrite (id_xor_valid a b Ha Hb) in H.
Qed.

(** ** Ranges and generated identifiers *)

Lemma random_id_prefix r rand n :
  (n < mask r)%nat -> (n < 8 * length (stencil r))%nat ->
  get_rbit (random_id r rand) n = get_rbit (stencil r) n.
Proof.
  intros Hn Hlen.
  assert (n / 8 < length (stencil r))%nat as Hi by (apply Nat.Div0.div_lt_upper_bound; lia).
  destruct (lookup_lt_is_Some_2 _ _ Hi) as [s Hs].
  rewrite (get_rbit_byte (stencil r) n s Hs).
  pose proof (mod_8_range n). pose proof (mod_8_range (mask r)).
  pose proof (Nat.Div0.div_le_mono n (mask r) 8 ltac:(lia)).
  pose proof (Nat.div_mod_eq n 8). pose proof (Nat.div_mod_eq (mask r) 8).
  assert (random_id r rand !! (n / 8)%nat = Some (
    if (n / 8 <? mask r / 8)%nat then s
    else if (mask r / 8 <? n / 8)%nat then byte_of (Z.land (rand (n / 8)%nat) 255)
    else byte_of (Z.lor (Z.land (code s) (Z.land (Z.shiftl 255 (8 - Z.of_nat (mask r) mod 8)) 255))
           (Z.land (rand (n / 8)%nat) (Z.shiftl 1 (8 - Z.of_nat (mask r) mod 8) - 1))))) as Hr.
  { unfold random_id. by rewrite list_lookup_imap, Hs. }
  rewrite (get_rbit_byte _ _ _ Hr).
  destruct (Nat.ltb_spec (n / 8) (mask r / 8)); [done|].
  destruct (Nat.ltb_spec (mask r / 8) (n / 8)); [lia|].
  rewrite testbit_byte_of by lia. rewrite !nat_mod_8 in *.
  rewrite Z.lor_spec, !Z.land_spec, Z.shiftl_spec by lia. change 255 with (2 ^ 8 - 1).
  rewrite Z.shiftl_1_l, !testbit_ones by lia.
  zbool; try lia. by rewrite !andb_true_r, andb_false_r, orb_false_r.
Qed.

Lemma byte_bits_21 checksum r n :
  (16 <= n < 21)%nat ->
  Z.testbit (Z.lor (Z.land (Z.shiftr checksum 8) 248) (Z.land r 7)) (7 - (Z.of_nat n - 16)) =
  Z.testbit checksum (31 - Z.of_nat n).
Proof.
  intros Hn. rewrite Z.lor_spec, !Z.land_spec, Z.shiftr_spec by lia.
  replace (7 - (Z.of_nat n - 16) + 8) with (31 - Z.of_nat n) by lia.
  assert (n = 16 \/ n = 17 \/ n = 18 \/ n = 19 \/ n = 20)%nat as C by lia.
  repeat destruct C as [->|C]; try subst n;
    (match goal with |- context [Z.testbit 248 ?k] => change (Z.testbit 248 k) with true end);
    (match goal with |- context [Z.testbit 7 ?k] => change (Z.testbit 7 k) with false end);
    by rewrite andb_true_r, andb_false_r, orb_false_r.
Qed.

Lemma masked_byte_bits z sh k :
  0 <= k < 8 -> 0 <= sh ->
  Z.testbit (code (byte_of (Z.land (Z.shiftr z sh) 255))) k = Z.testbit z (k + sh).
Proof.
  intros Hk Hs. rewrite testbit_byte_of by done. rewrite Z.land_spec, Z.shiftr_spec by lia.
  change 255 with (2 ^ 8 - 1). rewrite testbit_ones by lia.
  destruct (Z.ltb_spec k 8); [by rewrite andb_true_r|lia].
Qed.

(** The checksum [generate] derives from the address and the last byte. *)
Definition generate_checksum (crc32c : list byte -> Z) (rnd : Z) (address : ip_address) : Z :=
  let b19 := byte_of (Z.land rnd 255) in
  match address with
  | IPv4 ip => crc32c (masked_ip 4 (fun i => 6 - Z.of_nat i * 2) ip (code b19))
  | IPv6 ip => crc32c (masked_ip 8 (fun i => 7 - Z.of_nat i) ip (code b19))
  end.

(** ** Properties *)

(** [closer_to] is the comparison of XOR distances as 160-bit numbers, hence a
    strict total order on identifiers around every pivot. *)
Theorem closer_to_xor_order p l r :
  valid_id p -> valid_id l -> valid_id r ->
  (closer_to p l r = true <->
     be_value (distance_to l p) < be_value (distance_to r p)) /\
  closer_to p l l = false /\
  (closer_to p l r = false -> closer_to p r l = false -> l = r) /\
  (forall q, valid_id q -> closer_to p l r = true -> closer_to p r q = true ->
             closer_to p l q = true).
Proof.
  intros Hp Hl Hr. change distance_to with id_xor.
  rewrite !be_value_id_xor by done. fold (distance l p) (distance r p).
  rewrite !closer_to_distance by done. split_and!.
  - by rewrite Z.ltb_lt.
  - apply Z.ltb_irrefl.
  - intros H1 H2. apply (distance_inj _ _ p); [done..|]. zbool; try done; lia.
  - intros q Hq. rewrite !closer_to_distance by done. rewrite !Z.ltb_lt. lia.
Qed.

Lemma closer_to_xor_order_witness :
  closer_to NodeID_zero (set_rbit NodeID_zero 3 true) NodeID_max = true.
Proof.
  destruct (closer_to_xor_order NodeID_zero (set_rbit NodeID_zero 3 true) NodeID_max)
    as [H _]; [reflexivity..|]. apply H. vm_compute. reflexivity.
Defined.

(** an identifier generated for an address follows BEP 42: it has 20 bytes,
    its first 21 bits are the first 21 bits of the checksum of the masked address
    (for every checksum function), and its last byte is the random seed mixed
    into the checksum. *)
Theorem generate_bep42 crc32c rand rnd address :
  let id := generate crc32c rand rnd address in
  valid_id id /\
  (forall n, (n < 21)%nat ->
     get_rbit id n = Z.testbit (generate_checksum crc32c rnd address) (31 - Z.of_nat n)) /\
  last id = Some (byte_of (Z.land rnd 255)).
Proof.
  cbv zeta. set (c := generate_checksum crc32c rnd address).
  assert (generate crc32c rand rnd address =
    [byte_of (Z.land (Z.shiftr c 24) 255); byte_of (Z.land (Z.shiftr c 16) 255);
     byte_of (Z.lor (Z.land (Z.shiftr c 8) 248) (Z.land (rand 2%nat) 7))]
    ++ map (fun i => byte_of (Z.land (rand i) 255)) (seq 3 16) ++ [byte_of (Z.land rnd 255)]) as ->
    by (by destruct address).
  split_and!.
  - done.
  - intros n Hn. destruct (decide (n < 8)%nat); [|destruct (decide (n < 16)%nat)].
    + erewrite get_rbit_byte by (rewrite Nat.div_small by lia; reflexivity).
      rewrite Z.mod_small, masked_byte_bits by lia. f_equal. lia.
    + assert (n / 8 = 1)%nat as E by (symmetry; apply Nat.div_unique with (n - 8)%nat; lia).
      erewrite get_rbit_byte by (rewrite E; reflexivity).
      assert (Z.of_nat n mod 8 = Z.of_nat n - 8) as ->.
      { symmetry. apply Z.mod_unique with 1; lia. }
      rewrite masked_byte_bits by lia. f_equal. lia.
    + assert (n / 8 = 2)%nat as E by (symmetry; apply Nat.div_unique with (n - 16)%nat; lia).
      erewrite get_rbit_byte by (rewrite E; reflexivity).
      assert (Z.of_nat n mod 8 = Z.of_nat n - 16) as ->.
      { symmetry. apply Z.mod_unique with 2; lia. }
      rewrite testbit_byte_of by lia. apply byte_bits_21. lia.
  - done.
Qed.

(** [Range::random_id] keeps the masked prefix of the stencil, but
    [Range::reduce] writes its bit one position too far: whatever bit is asked
    for, the identifiers drawn from the reduced range keep the old stencil's bit
    at the position that was to be fixed. *)
Theorem reduce_misses_bit r bit rand :
  length (stencil r) = id_size -> (S (mask r) < bit_size)%nat ->
  get_rbit (random_id (reduce r bit) rand) (mask r) = get_rbit (stencil r) (mask r).
Proof.
  intros Hl Hm. unfold bit_size, id_size in *. rewrite random_id_prefix.
  - simpl. rewrite get_set_rbit by lia. destruct (Nat.eqb_spec (mask r) (S (mask r))); [lia|done].
  - simpl. lia.
  - simpl. rewrite length_set_rbit. lia.
Qed.

Lemma reduce_misses_bit_witness :
  get_rbit (random_id (reduce Range_max true) (fun _ => 0)) 0 = false.
Proof.
  apply (eq_trans (reduce_misses_bit Range_max true (fun _ => 0) eq_refl
           ltac:(simpl; unfold bit_size; lia))).
  reflexivity.
Defined.
