(* ===== verification/Contact.v ===== *)
(** * Endpoints and node contacts: src/bittorrent/code.h, node_contact.h,
    is_martian.h and peer_filter.cpp

    The compact encodings of BEP 5: 4 or 16 address bytes and a big-endian port,
    preceded by the 20 bytes of the node identifier in a contact. *)
From S2P Require Import Prelude Number Bytes NodeId.

(** ** The code *)

#[export] Instance ip_address_eq_dec : EqDecision ip_address.
Proof. solve_decision. Defined.

#[export] Instance ip_address_countable : Countable ip_address.
Proof.
  refine (inj_countable'
    (fun a => match a with IPv4 b => inl b | IPv6 b => inr b end)
    (fun s => match s with inl b => IPv4 b | inr b => IPv6 b end) _).
  by intros [].
Defined.

(** [asio::ip::udp::endpoint] (and [tcp::endpoint]): an address and a port. *)
Record endpoint := { address : ip_address; port : Z }.

#[export] Instance endpoint_eq_dec : EqDecision endpoint.
Proof. solve_decision. Defined.

#[export] Instance endpoint_countable : Countable endpoint.
Proof.
  refine (inj_countable' (fun e => (address e, port e))
            (fun '(a, p) => {| address := a; port := p |}) _).
  by intros [].
Defined.

Record NodeContact := { id : list byte; contact_endpoint : endpoint }.

#[export] Instance NodeContact_eq_dec : EqDecision NodeContact.
Proof. solve_decision. Defined.

#[export] Instance NodeContact_countable : Countable NodeContact.
Proof.
  refine (inj_countable' (fun c => (id c, contact_endpoint c))
            (fun '(i, e) => {| id := i; contact_endpoint := e |}) _).
  by intros [].
Defined.

Definition address_bytes (a : ip_address) : list byte :=
  match a with IPv4 b => b | IPv6 b => b end.

Definition encode_endpoint (e : endpoint) : list byte :=
  address_bytes (address e) ++
  [byte_of (Z.land (Z.shiftr (port e) 8) 255); byte_of (Z.land (Z.shiftr (port e) 0) 255)].

(** The [uint16_t] built from two bytes of the view. *)
Definition decode_port (hi lo : byte) : Z :=
  Z.lor (Z.shiftl (code hi) 8) (Z.shiftl (code lo) 0) mod 2 ^ 16.

Definition decode_endpoint (s : list byte) : option endpoint :=
  let at_ i := default Byte.x00 (s !! i) in
  if (length s =? 6)%nat then
    Some {| address := IPv4 (take 4 s); port := decode_port (at_ 4%nat) (at_ 5%nat) |}
  else if (length s =? 18)%nat then
    Some {| address := IPv6 (take 16 s); port := decode_port (at_ 16%nat) (at_ 17%nat) |}
  else None.

(** [decode_compact_v4(string_view&)]: the view is not advanced, because the
    assignment follows the [return]. *)
Definition decode_compact1 (ep_size : nat) (s : list byte) : option NodeContact :=
  if (length s <? 20 + ep_size)%nat then None
  else
    let? i := from_bytestring (take 20 s) in
    let? ep := decode_endpoint (take ep_size (drop 20 s)) in
    Some {| id := i; contact_endpoint := ep |}.

(** The loop of [decode_compact_v4(string_view, vector&)]; [None] is the
    dereference of an empty optional, which never happens. *)
Fixpoint decode_compact_loop (ep_size n : nat) (s : list byte) : option (list NodeContact) :=
  match n with
  | O => Some []
  | S n' =>
      let? c := decode_compact1 ep_size (take (20 + ep_size) s) in
      let? cs := decode_compact_loop ep_size n' (drop (20 + ep_size) s) in
      Some (c :: cs)
  end.

(** The function returns a flag and appends to [contacts]. *)
Definition decode_compact (ep_size : nat) (s : list byte) (contacts : list NodeContact)
    : option (bool * list NodeContact) :=
  if negb ((length s mod (20 + ep_size) =? 0)%nat) then Some (false, contacts)
  else
    let? cs := decode_compact_loop ep_size (length s / (20 + ep_size)) s in
    Some (true, contacts ++ cs).

Definition decode_compact_v4 := decode_compact 6.
Definition decode_compact_v6 := decode_compact 18.

(** [is_martian]; the classification of an address is asio's. *)
Record address_class := {
  is_multicast : ip_address -> bool;
  is_loopback : ip_address -> bool;
  is_link_local : ip_address -> bool;
  is_v4_mapped : ip_address -> bool;
  is_unspecified : ip_address -> bool;
}.

Definition is_martian (k : address_class) (ep : endpoint) : bool :=
  if port ep =? 0 then true
  else if port ep =? 1 then true
  else
    let a := address ep in
    match a with
    | IPv4 b => is_multicast k a || is_loopback k a || bool_decide (head b = Some Byte.x00)
    | IPv6 _ => is_multicast k a || is_link_local k a || is_v4_mapped k a
                || is_loopback k a || is_unspecified k a
    end.

Variant PeerFilter := filter_none | filter_martian.

Definition is_allowed (k : address_class) (f : PeerFilter) (ep : endpoint) : bool :=
  match f with
  | filter_martian => negb (is_martian k ep)
  | filter_none => true
  end.

(** ** Round trips *)

(** The endpoints of the network: address sizes and a 16-bit port. *)
Definition valid_endpoint (e : endpoint) : Prop :=
  match address e with IPv4 b => length b = 4%nat | IPv6 b => length b = 16%nat end /\
  0 <= port e < 2 ^ 16.

Definition endpoint_size (e : endpoint) : nat :=
  match address e with IPv4 _ => 6 | IPv6 _ => 18 end.

Definition valid_contact (c : NodeContact) : Prop :=
  valid_id (id c) /\ valid_endpoint (contact_endpoint c).

(** The compact form of a contact, as BEP 5 describes it. *)
Definition encode_contact (c : NodeContact) : list byte :=
  id c ++ encode_endpoint (contact_endpoint c).

Lemma decode_port_encode p :
  0 <= p < 2 ^ 16 ->
  decode_port (byte_of (Z.land (Z.shiftr p 8) 255)) (byte_of (Z.land (Z.shiftr p 0) 255)) = p.
Proof.
  intros Hp. unfold decode_port. rewrite !code_byte_of.
  change 255 with (Z.ones 8). rewrite !Z.land_ones, Z.shiftr_0_r, Z.shiftl_0_r by lia.
  change (2 ^ 8) with 256. rewrite !Z.mod_mod by lia.
  rewrite Z.shiftr_div_pow2 by lia. change (2 ^ 8) with 256.
  rewrite (Z.mod_small (p / 256)) by (split; [apply Z.div_pos|apply Z.div_lt_upper_bound]; lia).
  pose proof (Z.mod_pos_bound p 256). pose proof (Z.div_mod p 256).
  rewrite lor_shiftl_add, Z.mod_small by (change (2 ^ 8) with 256; lia).
  change (2 ^ 8) with 256. lia.
Qed.

Lemma encode_decode_port hi lo :
  let p := decode_port hi lo in
  byte_of (Z.land (Z.shiftr p 8) 255) = hi /\ byte_of (Z.land (Z.shiftr p 0) 255) = lo.
Proof.
  unfold decode_port. pose proof (code_range hi) as Hh. pose proof (code_range lo) as Hl.
  cbv zeta. rewrite Z.shiftl_0_r, lor_shiftl_add by lia. change (2 ^ 8) with 256.
  rewrite (Z.mod_small (code hi * 256 + code lo)) by lia.
  change 255 with (Z.ones 8). rewrite !Z.land_ones, Z.shiftr_0_r, Z.shiftr_div_pow2 by lia.
  change (2 ^ 8) with 256. rewrite (Z.add_comm (code hi * 256)), Z.div_add, Z.mod_add by lia.
  rewrite Z.div_small, Z.add_0_l, !Z.mod_small by lia. by rewrite !byte_of_code.
Qed.

Lemma length_encode_endpoint e : valid_endpoint e -> length (encode_endpoint e) = endpoint_size e.
Proof.
  intros [Ha _]. unfold encode_endpoint, endpoint_size. rewrite length_app.
  destruct (address e); simpl; lia.
Qed.

Lemma decode_encode_endpoint e : valid_endpoint e -> decode_endpoint (encode_endpoint e) = Some e.
Proof.
  intros He. pose proof (length_encode_endpoint e He) as Hl. unfold decode_endpoint.
  rewrite Hl. unfold endpoint_size. destruct e as [a p], He as [Ha Hp]. simpl in *.
  unfold encode_endpoint. simpl. destruct a as [b|b]; simpl.
  all: replace (take _ (b ++ _)) with b by (rewrite take_app_length'; done).
  all: rewrite !lookup_app_r, Ha by lia; simpl.
  all: by rewrite decode_port_encode.
Qed.

Lemma encode_decode_endpoint s e :
  decode_endpoint s = Some e -> valid_endpoint e /\ encode_endpoint e = s.
Proof.
  unfold decode_endpoint. intros H.
  destruct (Nat.eqb_spec (length s) 6); [|destruct (Nat.eqb_spec (length s) 18); [|done]];
    injection H as <-; unfold valid_endpoint, encode_endpoint; simpl address; simpl port;
    (split; [split; [rewrite length_take; lia|apply Z.mod_pos_bound; lia]|]);
    edestruct encode_decode_port as [-> ->]; simpl address_bytes.
  - do 6 (destruct s as [|? s]; [done|]). by destruct s.
  - do 18 (destruct s as [|? s]; [done|]). by destruct s.
Qed.

Section Contacts.
(** Contacts of one address family, [ep_size] bytes per endpoint. *)
Variable ep_size : nat.

Definition of_family (c : NodeContact) : Prop :=
  valid_contact c /\ endpoint_size (contact_endpoint c) = ep_size.

Lemma length_encode_contact c : of_family c -> length (encode_contact c) = (20 + ep_size)%nat.
Proof.
  intros [[Hi He] Hs]. unfold encode_contact.
  rewrite length_app, length_encode_endpoint, Hs, Hi by done. done.
Qed.

Lemma decode_encode_contact c :
  of_family c -> decode_compact1 ep_size (encode_contact c) = Some c.
Proof.
  intros Hc. unfold decode_compact1. rewrite length_encode_contact by done.
  rewrite Nat.ltb_irrefl. destruct Hc as [[Hi He] Hs]. unfold encode_contact.
  rewrite take_app_length', drop_app_length' by done.
  unfold from_bytestring, to_array. rewrite Hi. simpl.
  rewrite take_ge by (rewrite length_encode_endpoint by done; lia).
  rewrite decode_encode_endpoint by done. by destruct c.
Qed.

Lemma decode_compact_loop_encode cs :
  Forall of_family cs ->
  decode_compact_loop ep_size (length cs) (concat (map encode_contact cs)) = Some cs.
Proof.
  induction 1 as [|c cs Hc Hcs IH]; [done|]. cbn [length map concat decode_compact_loop].
  rewrite take_app_length', drop_app_length' by (by rewrite length_encode_contact).
  by rewrite decode_encode_contact, IH.
Qed.

Lemma length_encode_contacts cs :
  Forall of_family cs ->
  length (concat (map encode_contact cs)) = (length cs * (20 + ep_size))%nat.
Proof.
  induction 1 as [|c cs Hc Hcs IH]; [done|]. cbn [map concat].
  by rewrite length_app, length_encode_contact, IH.
Qed.

Lemma decode_compact_encode cs out :
  Forall of_family cs ->
  decode_compact ep_size (concat (map encode_contact cs)) out = Some (true, out ++ cs).
Proof.
  intros H. unfold decode_compact. rewrite length_encode_contacts by done.
  rewrite Nat.Div0.mod_mul, Nat.div_mul by lia. simpl.
  by rewrite decode_compact_loop_encode.
Qed.
End Contacts.

Lemma decode_compact1_total ep_size s :
  ep_size = 6%nat \/ ep_size = 18%nat -> length s = (20 + ep_size)%nat ->
  is_Some (decode_compact1 ep_size s).
Proof.
  intros Hep Hl. unfold decode_compact1. rewrite Hl, Nat.ltb_irrefl.
  unfold from_bytestring, to_array. rewrite length_take, Hl.
  replace (20 `min` (20 + ep_size))%nat with 20%nat by lia. simpl.
  unfold decode_endpoint. rewrite !length_take, !length_drop, Hl.
  destruct Hep as [-> | ->]; simpl; eauto.
Qed.

Lemma decode_compact_loop_total ep_size n s :
  ep_size = 6%nat \/ ep_size = 18%nat -> length s = (n * (20 + ep_size))%nat ->
  is_Some (decode_compact_loop ep_size n s).
Proof.
  intros Hep. revert s. induction n as [|n IH]; intros s Hl; [by eexists|].
  cbn [decode_compact_loop].
  destruct (decode_compact1_total ep_size (take (20 + ep_size) s) Hep) as [c ->].
  { rewrite length_take. lia. }
  destruct (IH (drop (20 + ep_size) s)) as [cs ->]; [rewrite length_drop; lia|]. by eexists.
Qed.

(** Whatever is decoded has identifiers of 20 bytes and valid endpoints. *)
Lemma decode_compact_loop_valid ep_size n : forall s cs,
  decode_compact_loop ep_size n s = Some cs -> Forall valid_contact cs.
Proof.
  induction n as [|n IH]; intros s cs E; cbn [decode_compact_loop] in E; [by simplify_eq|].
  destruct (decode_compact1 ep_size (take (20 + ep_size) s)) as [c|] eqn:Ec; [|done].
  destruct (decode_compact_loop ep_size n (drop (20 + ep_size) s)) as [cs'|] eqn:El; [|done].
  simplify_eq. constructor; [|by eapply IH]. unfold decode_compact1 in Ec.
  destruct (_ <? _)%nat; [done|]. unfold from_bytestring, to_array in Ec.
  destruct (Nat.eqb_spec (length (take 20 (take (20 + ep_size) s))) id_size) as [Hl|]; [|done].
  destruct (decode_endpoint _) as [e|] eqn:Ee; [|done]. simplify_eq/=.
  split; [done|]. by apply encode_decode_endpoint in Ee as [? _].
Qed.

Lemma decode_compact_valid ep_size s b cs :
  decode_compact ep_size s [] = Some (b, cs) -> Forall valid_contact cs.
Proof.
  unfold decode_compact. destruct (negb _); [intros; simplify_eq; constructor|].
  destruct (decode_compact_loop _ _ _) eqn:E; [|done]. intros [= _ <-].
  by eapply decode_compact_loop_valid.
Qed.

(** ** Properties *)

(** the compact form of an endpoint is exact: decoding inverts encoding on
    every endpoint, whatever is decoded re-encodes to the same bytes, and the
    decoder refuses exactly the strings that are neither 6 nor 18 bytes long. *)
Theorem endpoint_codec :
  (forall e, valid_endpoint e -> decode_endpoint (encode_endpoint e) = Some e) /\
  (forall s e, decode_endpoint s = Some e -> valid_endpoint e /\ encode_endpoint e = s) /\
  (forall s, decode_endpoint s = None <-> length s <> 6%nat /\ length s <> 18%nat).
Proof.
  split_and!; [apply decode_encode_endpoint|apply encode_decode_endpoint|].
  intros s. unfold decode_endpoint.
  destruct (Nat.eqb_spec (length s) 6), (Nat.eqb_spec (length s) 18); naive_solver.
Qed.

(** the decoder of compact contact lists is total on arbitrary bytes (no
    empty optional is ever dereferenced), recovers every list of contacts of its
    family, and leaves the output untouched when the length is not a multiple of
    the contact size. *)
Theorem decode_compact_contacts ep_size s out cs :
  ep_size = 6%nat \/ ep_size = 18%nat ->
  is_Some (decode_compact ep_size s out) /\
  (Forall (of_family ep_size) cs ->
   decode_compact ep_size (concat (map encode_contact cs)) out = Some (true, out ++ cs)) /\
  (length s mod (20 + ep_size) <> 0 -> decode_compact ep_size s out = Some (false, out))%nat.
Proof.
  intros Hep. split_and!; [|apply decode_compact_encode|].
  - unfold decode_compact.
    destruct (Nat.eqb_spec (length s mod (20 + ep_size)) 0) as [Hm|]; [|by eexists].
    cbn [negb]. destruct (decode_compact_loop_total ep_size (length s / (20 + ep_size)) s) as [cs' ->];
      [done| |by eexists].
    pose proof (Nat.div_mod_eq (length s) (20 + ep_size)). lia.
  - intros Hm. unfold decode_compact. by destruct (Nat.eqb_spec (length s mod (20 + ep_size)) 0).
Qed.

Definition sample_contact : NodeContact :=
  {| id := NodeID_max;
     contact_endpoint := {| address := IPv4 [Byte.x7f; Byte.x00; Byte.x00; Byte.x01]; port := 6881 |} |}.

Lemma decode_compact_contacts_witness :
  decode_compact_v4 (concat (map encode_contact [sample_contact; sample_contact])) [] =
  Some (true, [sample_contact; sample_contact]).
Proof.
  apply (decode_compact_contacts 6 [] [] [sample_contact; sample_contact]); [by left|].
  repeat constructor; done.
Defined.
