(* ===== verification/RoutingTable.v ===== *)
(** * The Kademlia routing table: src/bittorrent/routing_table.h and .cpp

    The table is a vector of k-buckets over the XOR distance to the own
    identifier.  Time is the steady clock in nanoseconds; each operation runs
    without suspension, so one reading [now] stands for the clock during the
    whole operation.  [NodeID::set_bit] writes into an array of 20 bytes: whether the
    bits that an operation clears are inside of it is computed beside the operation
    ([find_bucket_ok]), and runs end where one is not.  Calls of the [_send_ping] callback, which only spawns a
    coroutine, are returned as the list of pinged contacts. *)
From S2P Require Import Prelude Number Bytes NodeId Contact.

(** ** The code *)

Definition BUCKET_SIZE : nat := 8.

Definition minutes (n : Z) : Z := n * 60 * 1000000000.

Record RoutingNode := {
  contact : NodeContact;
  recv_time : Z;
  reply_time : Z;
  queries_failed : Z;
  ping_ongoing : bool;
}.

Definition is_good (now : Z) (n : RoutingNode) : bool :=
  (queries_failed n <=? 2) && (now - minutes 15 <=? recv_time n)
  && (now - minutes 120 <=? reply_time n).

Definition is_questionable (now : Z) (n : RoutingNode) : bool :=
  recv_time n <? now - minutes 15.

Record Bucket := {
  nodes : list RoutingNode;
  verified_candidates : list RoutingNode;
  unverified_candidates : list RoutingNode;
}.

Definition empty_bucket : Bucket := Build_Bucket [] [] [].

Record RoutingTable := {
  _node_id : list byte;
  _buckets : list Bucket;
}.

(** The constructor: one empty bucket. *)
Definition new_table (node_id : list byte) : RoutingTable :=
  {| _node_id := node_id; _buckets := [empty_bucket] |}.

(** [move_elements]: (what stays in [from], what is appended to [to]). *)
Fixpoint move_elements {A} (p : A -> bool) (from : list A) : list A * list A :=
  match from with
  | [] => ([], [])
  | x :: from' =>
      let '(kept, moved) := move_elements p from' in
      if p x then (kept, x :: moved) else (x :: kept, moved)
  end.

(** [erase_if] *)
Definition erase_if {A} (p : A -> bool) (r : list A) : list A :=
  List.filter (fun x => negb (p x)) r.

Fixpoint erase_front_questionables (now : Z) (q : list RoutingNode) : list RoutingNode :=
  match q with
  | n :: q' => if is_questionable now n then erase_front_questionables now q' else q
  | [] => []
  end.

(** [max_distance]: clears the first [bucket_id] bits of the maximal identifier. *)
Definition max_distance (bucket_id : nat) : list byte :=
  foldl (fun ret i => set_rbit ret i false) NodeID_max (seq 0 bucket_id).

Definition get_bucket (t : RoutingTable) (i : nat) : Bucket :=
  default empty_bucket (_buckets t !! i).

Definition set_bucket (t : RoutingTable) (i : nat) (b : Bucket) : RoutingTable :=
  {| _node_id := _node_id t; _buckets := <[i := b]> (_buckets t) |}.

Definition set_nodes (b : Bucket) (ns : list RoutingNode) : Bucket :=
  {| nodes := ns; verified_candidates := verified_candidates b;
     unverified_candidates := unverified_candidates b |}.

Definition would_split_bucket (t : RoutingTable) (bucket_id : nat) (new_id : list byte) : bool :=
  let dst := id_xor new_id (_node_id t) in
  if id_gt dst (max_distance bucket_id) then false
  else
    let b := get_bucket t bucket_id in
    if (length (nodes b) <? BUCKET_SIZE)%nat then false
    else
      let half_dst := max_distance (S bucket_id) in
      let near i := id_le (id_xor i (_node_id t)) half_dst in
      let cnt := ((if id_le dst half_dst then 1 else 0)
                  + length (List.filter (fun n => near (id (contact n))) (nodes b)))%nat in
      ((0 <? cnt) && (cnt <=? BUCKET_SIZE))%nat.

(** The loop of [find_bucket_id]: [n] iterations left, starting at [i]. *)
Fixpoint find_bucket_loop (distance max : list byte) (n i ret : nat) : nat :=
  match n with
  | O => ret
  | S n' => if id_gt distance max then ret
            else find_bucket_loop distance (set_rbit max i false) n' (S i) i
  end.

Definition find_bucket_id (t : RoutingTable) (i : list byte) : nat :=
  find_bucket_loop (id_xor (_node_id t) i) NodeID_max (length (_buckets t)) 0 0.

(** Whether every bit that this loop clears is a bit of an identifier; if not, the
    behaviour of the code is undefined. *)
Fixpoint find_bucket_ok_loop (distance max : list byte) (n i : nat) : bool :=
  match n with
  | O => true
  | S n' => if id_gt distance max then true
            else (i <? bit_size)%nat && find_bucket_ok_loop distance (set_rbit max i false) n' (S i)
  end.

Definition find_bucket_ok (t : RoutingTable) (i : list byte) : bool :=
  find_bucket_ok_loop (id_xor (_node_id t) i) NodeID_max (length (_buckets t)) 0.

Definition split_bucket (t : RoutingTable) (i : nat) : RoutingTable :=
  let new_bucket_max_size := max_distance (S i) in
  let belongs n := id_le (id_xor (id (contact n)) (_node_id t)) new_bucket_max_size in
  let b := get_bucket t i in
  let '(n1, n2) := move_elements belongs (nodes b) in
  let '(v1, v2) := move_elements belongs (verified_candidates b) in
  let '(u1, u2) := move_elements belongs (unverified_candidates b) in
  {| _node_id := _node_id t;
     _buckets := <[i := Build_Bucket n1 v1 u1]> (_buckets t) ++ [Build_Bucket n2 v2 u2] |}.

(** The inner loop of [find_closest_routing_nodes]: (output, done). *)
Fixpoint push_nodes (count : nat) (ns : list RoutingNode) (output : list NodeContact)
    : list NodeContact * bool :=
  match ns with
  | [] => (output, false)
  | n :: ns' =>
      let output := output ++ [contact n] in
      if (count <=? length output)%nat then (output, true) else push_nodes count ns' output
  end.

(** Its outer loops, over the buckets in the order they are visited. *)
Fixpoint push_buckets (count : nat) (bs : list Bucket) (output : list NodeContact) (done : bool)
    : list NodeContact * bool :=
  match bs with
  | [] => (output, done)
  | b :: bs' =>
      if done then (output, done)
      else let '(output, done) := push_nodes count (nodes b) output in
           push_buckets count bs' output done
  end.

(** [find_closest_routing_nodes]: the target's bucket and the nearer ones, then
    the farther ones backwards. *)
Definition find_closest_routing_nodes (t : RoutingTable) (target : list byte) (count : nat)
    : list NodeContact :=
  if (count =? 0)%nat then []
  else
    let bucket_i := find_bucket_id t target in
    let '(output, done) := push_buckets count (drop bucket_i (_buckets t)) [] false in
    fst (push_buckets count (rev (take bucket_i (_buckets t))) output done).

(** Index of the first element satisfying [p]. *)
Fixpoint find_index {A} (p : A -> bool) (l : list A) : option nat :=
  match l with
  | [] => None
  | x :: l' => if p x then Some O else S <$> find_index p l'
  end.

Definition is_contact (c : NodeContact) (n : RoutingNode) : bool := bool_decide (contact n = c).

(** The node recorded for a contact that has just been heard of. *)
Definition fresh_node (c : NodeContact) (now reply : Z) : RoutingNode :=
  {| contact := c; recv_time := now; reply_time := reply; queries_failed := 0; ping_ongoing := false |}.

Definition questionable_count (now : Z) (ns : list RoutingNode) : nat :=
  length (List.filter (is_questionable now) ns).

(** [while (others + q.size() > limit) q.pop_front();] *)
Fixpoint pop_excess (others limit : nat) (q : list RoutingNode) : list RoutingNode :=
  match q with
  | [] => []
  | _ :: q' => if (limit <? others + length q)%nat then pop_excess others limit q' else q
  end.

(** The two loops that drop superfluous candidates from the front. *)
Definition trim_candidates (questionable_nodes : nat) (b : Bucket) : Bucket :=
  let v := pop_excess 0 questionable_nodes (verified_candidates b) in
  {| nodes := nodes b;
     verified_candidates := v;
     unverified_candidates :=
       pop_excess (length v) questionable_nodes (unverified_candidates b) |}.

(** The loop that marks questionable nodes and pings them: (nodes, pings). *)
Fixpoint ping_questionables (now : Z) (ns : list RoutingNode)
    : list RoutingNode * list NodeContact :=
  match ns with
  | [] => ([], [])
  | n :: ns' =>
      let '(ns'', pings) := ping_questionables now ns' in
      if is_questionable now n && negb (ping_ongoing n) then
        ({| contact := contact n; recv_time := recv_time n; reply_time := reply_time n;
            queries_failed := queries_failed n; ping_ongoing := true |} :: ns'',
         contact n :: pings)
      else (n :: ns'', pings)
  end.

(** The bump of a node that is already in the bucket. *)
Definition bump_node (now : Z) (is_verified : bool) (n : RoutingNode) : RoutingNode :=
  if is_verified then fresh_node (contact n) now now
  else {| contact := contact n; recv_time := now; reply_time := reply_time n;
          queries_failed := queries_failed n; ping_ongoing := ping_ongoing n |}.

(** The tail of [try_add_node]: no room, no split and no bad node. *)
Definition add_candidate (now : Z) (c : NodeContact) (is_verified : bool) (b : Bucket)
    : Bucket * list NodeContact :=
  let questionable_nodes := questionable_count now (nodes b) in
  let '(ns, pings) := ping_questionables now (nodes b) in
  let candidate := fresh_node c now (if is_verified then now else 0) in
  let b :=
    if is_verified then
      {| nodes := ns;
         verified_candidates :=
           if (0 <? questionable_nodes)%nat then verified_candidates b ++ [candidate]
           else verified_candidates b;
         unverified_candidates := unverified_candidates b |}
    else
      let v := erase_front_questionables now (verified_candidates b) in
      {| nodes := ns;
         verified_candidates := v;
         unverified_candidates :=
           if (length v <? questionable_nodes)%nat then unverified_candidates b ++ [candidate]
           else unverified_candidates b |} in
  (trim_candidates questionable_nodes b, pings).

(** [try_add_node] *)
Definition try_add_node (now : Z) (c : NodeContact) (is_verified : bool) (t : RoutingTable)
    : RoutingTable * list NodeContact :=
  let bucket_id := find_bucket_id t (id c) in
  let bucket := get_bucket t bucket_id in
  match find_index (is_contact c) (nodes bucket) with
  | Some i =>
      let bumped := bump_node now is_verified <$> (nodes bucket !! i) in
      (set_bucket t bucket_id
         (set_nodes bucket (delete i (nodes bucket) ++ option_list bumped)), [])
  | None =>
      let bucket := {| nodes := nodes bucket;
                       verified_candidates := erase_if (is_contact c) (verified_candidates bucket);
                       unverified_candidates := erase_if (is_contact c) (unverified_candidates bucket) |} in
      let push ns := set_bucket t bucket_id (set_nodes bucket (ns ++ [fresh_node c now now])) in
      let unchanged := set_bucket t bucket_id bucket in
      if (length (nodes bucket) <? BUCKET_SIZE)%nat then
        if is_verified then (push (nodes bucket), []) else (unchanged, [c])
      else if would_split_bucket t bucket_id (id c) then
        if is_verified then (split_bucket (push (nodes bucket)) bucket_id, [])
        else (unchanged, [c])
      else
        match find_index (fun n => negb (is_good now n)) (nodes bucket) with
        | Some i => if is_verified then (push (delete i (nodes bucket)), []) else (unchanged, [c])
        | None =>
            let '(bucket, pings) := add_candidate now c is_verified bucket in
            (set_bucket t bucket_id bucket, pings)
        end
  end.

(** The insertion of a replacement before the first node heard of later: if
    there is none, nothing is inserted. *)
Definition insert_by_time (node : RoutingNode) (ns : list RoutingNode) : list RoutingNode :=
  match find_index (fun n => recv_time node <? recv_time n) ns with
  | Some i => take i ns ++ node :: drop i ns
  | None => ns
  end.

Definition fail_increment (n : RoutingNode) : RoutingNode :=
  {| contact := contact n; recv_time := recv_time n; reply_time := reply_time n;
     queries_failed := queries_failed n + 1; ping_ongoing := ping_ongoing n |}.

Definition set_ping_ongoing (n : RoutingNode) : RoutingNode :=
  {| contact := contact n; recv_time := recv_time n; reply_time := reply_time n;
     queries_failed := queries_failed n; ping_ongoing := true |}.

(** The replacement of a bad node at index [node_i]. *)
Definition replace_bad (now : Z) (node_i : nat) (b : Bucket) : Bucket * list NodeContact :=
  let v := erase_front_questionables now (verified_candidates b) in
  let u := erase_front_questionables now (unverified_candidates b) in
  match v, u with
  | c :: v', _ =>
      let node := {| contact := contact c; recv_time := recv_time c; reply_time := reply_time c;
                     queries_failed := 0; ping_ongoing := false |} in
      (Build_Bucket (insert_by_time node (delete node_i (nodes b))) v' u, [])
  | [], c :: u' => (Build_Bucket (nodes b) v u', [contact c])
  | [], [] => (Build_Bucket (nodes b) v u, [])
  end.

(** [fail_node] *)
Definition fail_node (now : Z) (c : NodeContact) (t : RoutingTable)
    : RoutingTable * list NodeContact :=
  let bucket_id := find_bucket_id t (id c) in
  let bucket := get_bucket t bucket_id in
  match find_index (is_contact c) (nodes bucket) with
  | None => (t, [])
  | Some node_i =>
      let bucket := set_nodes bucket (alter fail_increment node_i (nodes bucket)) in
      match nodes bucket !! node_i with
      | None => (t, [])
      | Some n =>
          if is_good now n then
            if is_questionable now n then
              (set_bucket t bucket_id
                 (set_nodes bucket (alter set_ping_ongoing node_i (nodes bucket))), [c])
            else (set_bucket t bucket_id bucket, [])
          else
            let '(bucket, pings) := replace_bad now node_i bucket in
            let questionable_nodes := questionable_count now (nodes bucket) in
            (set_bucket t bucket_id (trim_candidates questionable_nodes bucket), pings)
      end
  end.

(** [dump_contacts] *)
Definition dump_contacts (t : RoutingTable) : gset NodeContact :=
  list_to_set (concat (map (fun b => map contact (nodes b ++ verified_candidates b)) (_buckets t))).

(** ** Distances and bucket indices *)

Lemma valid_max : valid_id NodeID_max.
Proof. done. Qed.

Lemma max_distance_S i : max_distance (S i) = set_rbit (max_distance i) i false.
Proof. unfold max_distance. by rewrite seq_S, foldl_app. Qed.

Lemma max_distance_valid i : valid_id (max_distance i).
Proof.
  induction i as [|i IH]; [done|]. rewrite max_distance_S. unfold valid_id.
  by rewrite length_set_rbit.
Qed.

Lemma max_distance_bits i n :
  (i <= bit_size)%nat -> (n < bit_size)%nat -> get_rbit (max_distance i) n = (i <=? n)%nat.
Proof.
  unfold bit_size. intros Hi Hn. induction i as [|i IH].
  - rewrite get_rbit_testbit by (simpl; lia).
    change (be_value (max_distance 0)) with (2 ^ 160 - 1).
    rewrite testbit_ones by (simpl; lia). simpl. apply Z.ltb_lt. lia.
  - rewrite max_distance_S, get_set_rbit by (rewrite max_distance_valid; unfold id_size; lia).
    rewrite IH by lia. destruct (Nat.eqb_spec n i), (Nat.leb_spec i n), (Nat.leb_spec (S i) n);
      try done; lia.
Qed.

Lemma max_distance_value i :
  (i <= bit_size)%nat -> be_value (max_distance i) = 2 ^ (160 - Z.of_nat i) - 1.
Proof.
  intros Hi. pose proof Hi as Hi'. unfold bit_size in Hi'.
  assert (0 < 2 ^ (160 - Z.of_nat i) <= 2 ^ 160).
  { split; [apply Z.pow_pos_nonneg; lia|apply Z.pow_le_mono_r; lia]. }
  apply be_value_ext; [apply max_distance_valid|lia|].
  intros n Hn. rewrite max_distance_bits by done. unfold bit_size in Hn.
  rewrite testbit_ones by lia.
  destruct (Nat.leb_spec i n), (Z.ltb_spec (159 - Z.of_nat n) (160 - Z.of_nat i)); try done; lia.
Qed.

(** The comparisons of the code, on distances as numbers. *)
Lemma id_gt_max_distance d i :
  valid_id d -> (i <= bit_size)%nat ->
  id_gt d (max_distance i) = (2 ^ (160 - Z.of_nat i) <=? be_value d).
Proof.
  intros Hd Hi. unfold id_gt.
  rewrite be_value_lex by (rewrite Hd, (max_distance_valid i); done).
  rewrite max_distance_value by done. zbool; try done; lia.
Qed.

Lemma id_le_max_distance d i :
  valid_id d -> (i <= bit_size)%nat ->
  id_le d (max_distance i) = (be_value d <? 2 ^ (160 - Z.of_nat i)).
Proof.
  intros Hd Hi. unfold id_le. fold (id_gt d (max_distance i)).
  rewrite id_gt_max_distance by done. zbool; try done; lia.
Qed.

(** The distances bucket [i] of [nb] holds. *)
Definition in_bucket (nb i : nat) (d : Z) : Prop :=
  (i < nb)%nat /\ d < 2 ^ (160 - Z.of_nat i) /\
  ((S i < nb)%nat -> 2 ^ (160 - Z.of_nat (S i)) <= d).

Lemma find_bucket_loop_spec d n i :
  valid_id d -> (S i + n <= S bit_size)%nat -> be_value d < 2 ^ (160 - Z.of_nat i) ->
  find_bucket_ok_loop d (max_distance (S i)) n (S i) = true ->
  in_bucket (S i + n) (find_bucket_loop d (max_distance (S i)) n (S i) i) (be_value d).
Proof.
  intros Hd. revert i. induction n as [|n IH]; intros i Hn Hi; cbn [find_bucket_loop find_bucket_ok_loop].
  { intros _. split_and!; [lia|done|lia]. }
  rewrite id_gt_max_distance by (done || lia).
  destruct (Z.leb_spec (2 ^ (160 - Z.of_nat (S i))) (be_value d)).
  - intros _. split_and!; [lia|done|]. intros _. done.
  - rewrite <-max_distance_S. intros [_ Hok]%andb_true_iff. specialize (IH (S i)).
    replace (S i + S n)%nat with (S (S i) + n)%nat by lia. apply IH; [lia|done|done].
Qed.

(** The loop leaves the identifier only for the distance zero, in the last turn of 161. *)
Lemma find_bucket_ok_loop_spec d n : forall i,
  valid_id d -> (i <= bit_size)%nat -> (i + n <= S bit_size)%nat ->
  find_bucket_ok_loop d (max_distance i) n i = true <-> (i + n <= bit_size)%nat \/ be_value d <> 0.
Proof.
  induction n as [|n IH]; intros i Hd Hi Hn; cbn [find_bucket_ok_loop].
  { split; [intros _; left; lia|done]. }
  rewrite id_gt_max_distance by done. assert (0 < 2 ^ (160 - Z.of_nat i)) by (apply Z.pow_pos_nonneg; unfold bit_size in Hi; lia).
  destruct (Z.leb_spec (2 ^ (160 - Z.of_nat i)) (be_value d)) as [Hge|Hlt]; [split; [right; lia|done]|].
  rewrite andb_true_iff, Nat.ltb_lt. destruct (decide (i = bit_size)) as [->|Hne].
  - change (2 ^ (160 - Z.of_nat bit_size)) with 1 in Hlt. pose proof (be_value_range d) as [? _].
    split; [intros [? _]; lia|intros [?|?]; lia].
  - rewrite <-max_distance_S, IH by (done || lia). replace (i + S n)%nat with (S i + n)%nat by lia.
    split; [by intros [_ ?]|]. split; [lia|done].
Qed.

(** The distance of an identifier to the table's own. *)
Definition dist (t : RoutingTable) (i : list byte) : Z := be_value (id_xor i (_node_id t)).

Lemma id_xor_comm a b : id_xor a b = id_xor b a.
Proof.
  unfold id_xor. revert b. induction a as [|x a IH]; intros [|y b]; simpl; try done.
  by rewrite IH, Z.lxor_comm.
Qed.

Lemma find_bucket_id_spec t i :
  valid_id (_node_id t) -> valid_id i ->
  (1 <= length (_buckets t) <= S bit_size)%nat -> find_bucket_ok t i = true ->
  in_bucket (length (_buckets t)) (find_bucket_id t i) (dist t i).
Proof.
  intros Hn Hi Hb. unfold find_bucket_ok, find_bucket_id, dist. rewrite (id_xor_comm (_node_id t) i).
  pose proof (id_xor_valid _ _ Hi Hn) as Hd.
  destruct (length (_buckets t)) as [|n]; [lia|]. cbn [find_bucket_loop find_bucket_ok_loop].
  change NodeID_max with (max_distance 0). rewrite id_gt_max_distance by (done || lia).
  pose proof (be_value_range (id_xor i (_node_id t))) as Hr. rewrite Hd in Hr.
  change (8 * Z.of_nat id_size) with 160 in Hr. change (160 - Z.of_nat 0) with 160.
  destruct (Z.leb_spec (2 ^ 160) (be_value (id_xor i (_node_id t)))); [lia|].
  rewrite <-max_distance_S. intros [_ Hok]%andb_true_iff. apply (find_bucket_loop_spec _ n 0); [done|lia| |done].
  simpl. lia.
Qed.

Lemma dist_zero t i : valid_id (_node_id t) -> valid_id i -> dist t i = 0 <-> i = _node_id t.
Proof.
  intros Hn Hv. unfold dist. rewrite be_value_id_xor by done. split.
  - intros Hz%Z.lxor_eq. apply be_value_inj; [|done]. unfold valid_id in *. congruence.
  - intros ->. apply Z.lxor_nilpotent.
Qed.

(** The code leaves the identifier exactly when the own one is looked up among 161 buckets. *)
Lemma find_bucket_ok_spec t i :
  valid_id (_node_id t) -> valid_id i -> (length (_buckets t) <= S bit_size)%nat ->
  find_bucket_ok t i = true <-> (length (_buckets t) <= bit_size)%nat \/ i <> _node_id t.
Proof.
  intros Hn Hi Hb. unfold find_bucket_ok. change NodeID_max with (max_distance 0).
  rewrite find_bucket_ok_loop_spec by (by apply id_xor_valid || (simpl; lia)). rewrite id_xor_comm. fold (dist t i).
  by rewrite dist_zero.
Qed.

(** Distinct indices hold disjoint distances. *)
Lemma in_bucket_unique nb i j d : in_bucket nb i d -> in_bucket nb j d -> i = j.
Proof.
  assert (forall i j, (i < j)%nat -> in_bucket nb i d -> in_bucket nb j d -> False) as Hlt.
  { intros i' j' Hij (Hi1 & Hi2 & Hi3) (Hj1 & Hj2 & Hj3). specialize (Hi3 ltac:(lia)).
    assert (2 ^ (160 - Z.of_nat j') <= 2 ^ (160 - Z.of_nat (S i'))) by (apply Z.pow_le_mono_r; lia).
    lia. }
  intros Hi Hj. destruct (Nat.lt_trichotomy i j) as [H|[H|H]]; [|done|]; exfalso; eauto.
Qed.

(** ** The invariant *)

Definition all_contacts (b : Bucket) : list NodeContact :=
  map contact (nodes b) ++ map contact (verified_candidates b)
  ++ map contact (unverified_candidates b).

(** A contact that belongs in bucket [i]; whether it may carry the identifier of the
    node itself is [own]. *)
Definition placed (own : bool) (t : RoutingTable) (i : nat) (c : NodeContact) : Prop :=
  valid_id (id c) /\ (own = false -> dist t (id c) <> 0) /\
  in_bucket (length (_buckets t)) i (dist t (id c)).

Record bucket_ok (own : bool) (t : RoutingTable) (i : nat) (b : Bucket) : Prop := {
  bo_size : (length (nodes b) <= BUCKET_SIZE)%nat;
  bo_placed : Forall (placed own t i) (all_contacts b);
  bo_nodup : NoDup (all_contacts b);
}.

(** There are at most 160 buckets, and at most one more with contacts that carry the own
    identifier. *)
Record Inv (own : bool) (t : RoutingTable) : Prop := {
  inv_id : valid_id (_node_id t);
  inv_length : (1 <= length (_buckets t) <= if own then S bit_size else bit_size)%nat;
  inv_buckets : forall i b, _buckets t !! i = Some b -> bucket_ok own t i b;
}.

(** [b']'s contacts are among those of [b] and [extra]. *)
Definition contacts_from (extra : list NodeContact) (b b' : Bucket) : Prop :=
  exists e1 e2 e3, extra = e1 ++ e2 ++ e3 /\
    map contact (nodes b') ⊆+ e1 ++ map contact (nodes b) /\
    map contact (verified_candidates b') ⊆+ e2 ++ map contact (verified_candidates b) /\
    map contact (unverified_candidates b') ⊆+ e3 ++ map contact (unverified_candidates b).

Lemma contacts_from_submseteq extra b b' :
  contacts_from extra b b' -> all_contacts b' ⊆+ extra ++ all_contacts b.
Proof.
  intros (e1 & e2 & e3 & -> & H1 & H2 & H3). unfold all_contacts.
  etrans; [exact (submseteq_app _ _ _ _ H1 (submseteq_app _ _ _ _ H2 H3))|].
  solve_submseteq.
Qed.

Lemma bucket_ok_add own t i b b' c :
  bucket_ok own t i b -> placed own t i c -> c ∉ all_contacts b ->
  contacts_from [c] b b' -> (length (nodes b') <= BUCKET_SIZE)%nat -> bucket_ok own t i b'.
Proof.
  intros [_ Hp Hn] Hc Hni Hs Hl. apply contacts_from_submseteq in Hs. split; [done| |].
  - apply Forall_forall. intros x Hx. apply (elem_of_submseteq _ _ x Hx) in Hs.
    apply elem_of_cons in Hs as [->|Hs]; [done|]. by rewrite Forall_forall in Hp; apply Hp.
  - eapply submseteq_NoDup_l; [exact Hs|]. by constructor.
Qed.

Lemma bucket_ok_sub own t i b b' :
  bucket_ok own t i b -> contacts_from [] b b' -> (length (nodes b') <= BUCKET_SIZE)%nat ->
  bucket_ok own t i b'.
Proof.
  intros [_ Hp Hn] Hs Hl. apply contacts_from_submseteq in Hs. split; [done| |].
  - apply Forall_forall. intros x Hx. apply (elem_of_submseteq _ _ x Hx) in Hs.
    by rewrite Forall_forall in Hp; apply Hp.
  - by eapply submseteq_NoDup_l.
Qed.

Lemma Inv_set_bucket own t i b : Inv own t -> bucket_ok own t i b -> Inv own (set_bucket t i b).
Proof.
  intros [H1 H2 H3] Hb.
  assert (forall j x, bucket_ok own t j x -> bucket_ok own (set_bucket t i b) j x) as Hm.
  { intros j x [? Hp ?]. split; [done| |done]. eapply Forall_impl; [exact Hp|].
    intros c. unfold placed, dist. simpl. by rewrite length_insert. }
  split; simpl; [done|by rewrite length_insert|].
  intros j x Hj. apply Hm. apply list_lookup_insert_Some in Hj as [(<- & <- & _)|[_ Hj]]; auto.
Qed.

Lemma get_bucket_ok own t i : Inv own t -> (i < length (_buckets t))%nat -> bucket_ok own t i (get_bucket t i).
Proof.
  intros HI Hi. apply (inv_buckets own t HI). unfold get_bucket.
  destruct (lookup_lt_is_Some_2 _ _ Hi) as [b ->]. done.
Qed.

(** ** Lists of the operations *)

Lemma find_index_Some {A} (p : A -> bool) l i :
  find_index p l = Some i -> exists x, l !! i = Some x /\ p x = true.
Proof.
  revert i. induction l as [|x l IH]; intros i; simpl; [done|].
  destruct (p x) eqn:E; [intros [= <-]; eauto|].
  destruct (find_index p l) as [j|]; simpl; [|done]. intros [= <-]. by apply IH.
Qed.

Lemma find_index_None {A} (p : A -> bool) l :
  find_index p l = None -> Forall (fun x => p x = false) l.
Proof.
  induction l as [|x l IH]; simpl; [constructor|]. destruct (p x) eqn:E; [done|].
  destruct (find_index p l); [done|]. intros _. by constructor; auto.
Qed.

Lemma filter_sublist {A} (p : A -> bool) l : List.filter p l `sublist_of` l.
Proof. induction l as [|x l IH]; simpl; [constructor|]. destruct (p x); by constructor. Qed.

Lemma erase_if_sublist {A} (p : A -> bool) l : erase_if p l `sublist_of` l.
Proof. apply filter_sublist. Qed.

Lemma erase_front_sublist now q : erase_front_questionables now q `sublist_of` q.
Proof.
  induction q as [|n q IH]; simpl; [constructor|].
  destruct (is_questionable now n); [by constructor|done].
Qed.

Lemma pop_excess_sublist k m q : pop_excess k m q `sublist_of` q.
Proof.
  induction q as [|n q IH]; [constructor|]. cbn [pop_excess].
  destruct (m <? _)%nat; [by constructor|done].
Qed.

Lemma delete_sublist {A} i (l : list A) : delete i l `sublist_of` l.
Proof. apply sublist_delete. Qed.

Lemma sublist_contacts (l k : list RoutingNode) :
  l `sublist_of` k -> map contact l ⊆+ map contact k.
Proof.
  intros H. apply sublist_submseteq. induction H; simpl; by constructor.
Qed.

#[export] Hint Resolve filter_sublist erase_if_sublist erase_front_sublist pop_excess_sublist delete_sublist
  sublist_contacts submseteq_nil_l : ou.
#[export] Hint Extern 0 (_ ⊆+ _) => reflexivity : ou.

Lemma contacts_from_refl b : contacts_from [] b b.
Proof. by exists [], [], []. Qed.

Lemma contacts_from_trans e b b' b'' :
  contacts_from e b b' -> contacts_from [] b' b'' -> contacts_from e b b''.
Proof.
  intros (e1 & e2 & e3 & -> & H1 & H2 & H3) (f1 & f2 & f3 & Hf & K1 & K2 & K3).
  symmetry in Hf. apply app_nil in Hf as [-> Hf]. apply app_nil in Hf as [-> ->]. simpl in *.
  exists e1, e2, e3. split_and!; [done|by etrans..].
Qed.

Lemma ping_questionables_contacts now ns :
  map contact (fst (ping_questionables now ns)) = map contact ns.
Proof.
  induction ns as [|n ns IH]; simpl; [done|].
  destruct (ping_questionables now ns) as [ns' pings]. simpl in *.
  destruct (is_questionable now n && negb (ping_ongoing n)); simpl; by rewrite IH.
Qed.

Lemma bump_contact now v n : contact (bump_node now v n) = contact n.
Proof. by destruct v. Qed.

Lemma alter_contacts f i (ns : list RoutingNode) :
  (forall n, contact (f n) = contact n) -> map contact (alter f i ns) = map contact ns.
Proof.
  intros Hf. revert i. induction ns as [|n ns IH]; intros [|i]; simpl; try done.
  - by rewrite Hf.
  - by rewrite <-(IH i).
Qed.

Lemma bump_contacts now v i ns :
  map contact (delete i ns ++ option_list (bump_node now v <$> (ns !! i))) ⊆+ map contact ns.
Proof.
  destruct (ns !! i) as [n|] eqn:E; simpl.
  - rewrite map_app. simpl. rewrite bump_contact.
    rewrite (delete_Permutation ns i n E) at 2. simpl. solve_submseteq.
  - rewrite app_nil_r. auto with ou.
Qed.

Lemma length_bump now v i ns :
  (length (delete i ns ++ option_list (bump_node now v <$> (ns !! i))) <= length ns)%nat.
Proof.
  pose proof (submseteq_length _ _ (bump_contacts now v i ns)) as H. by rewrite !length_map in H.
Qed.

Lemma insert_by_time_contacts n ns :
  map contact (insert_by_time n ns) ⊆+ contact n :: map contact ns.
Proof.
  unfold insert_by_time. destruct (find_index _ ns) as [i|]; [|by apply submseteq_cons].
  rewrite map_app. simpl. rewrite <-(take_drop i ns) at 3. rewrite map_app. solve_submseteq.
Qed.

Lemma trim_candidates_from q b : contacts_from [] b (trim_candidates q b).
Proof. exists [], [], []. simpl. split_and!; try done; auto with ou. Qed.

Lemma is_contact_not_in c ns :
  Forall (fun n => is_contact c n = false) ns -> c ∉ map contact ns.
Proof.
  intros H Hin. apply list_elem_of_In, in_map_iff in Hin as (n & Hc & Hn).
  rewrite List.Forall_forall in H. specialize (H n Hn). unfold is_contact in H.
  apply bool_decide_eq_false in H. done.
Qed.

Lemma erase_if_not_in c ns : c ∉ map contact (erase_if (is_contact c) ns).
Proof.
  apply is_contact_not_in. unfold erase_if. induction ns as [|n ns IH]; simpl; [constructor|].
  destruct (is_contact c n) eqn:E; simpl; [done|by constructor].
Qed.

(** ** Splitting *)

(** Whether a contact goes to the new bucket when bucket [i] is split. *)
Definition near (t : RoutingTable) (i : nat) (c : NodeContact) : bool :=
  id_le (id_xor (id c) (_node_id t)) (max_distance (S i)).

Lemma near_spec t i c :
  valid_id (_node_id t) -> valid_id (id c) -> (S i <= bit_size)%nat ->
  near t i c = (dist t (id c) <? 2 ^ (160 - Z.of_nat (S i))).
Proof. intros Hn Hc Hi. unfold near, dist. apply id_le_max_distance; [by apply id_xor_valid|done]. Qed.

Lemma move_elements_spec {A} (p : A -> bool) l :
  move_elements p l = (List.filter (fun x => negb (p x)) l, List.filter p l).
Proof. induction l as [|x l IH]; simpl; [done|]. rewrite IH. by destruct (p x). Qed.

Lemma filter_map_contact (p : NodeContact -> bool) ns :
  map contact (List.filter (fun n => p (contact n)) ns) = List.filter p (map contact ns).
Proof. induction ns as [|n ns IH]; simpl; [done|]. destruct (p (contact n)); simpl; by rewrite IH. Qed.

Lemma filter_length_split {A} (p : A -> bool) l :
  (length (List.filter p l) + length (List.filter (fun x => negb (p x)) l) = length l)%nat.
Proof. induction l as [|x l IH]; simpl; [done|]. destruct (p x); simpl; lia. Qed.

(** The half of a bucket whose contacts satisfy [p]. *)
Definition half (p : NodeContact -> bool) (b : Bucket) : Bucket :=
  Build_Bucket (List.filter (fun n => p (contact n)) (nodes b))
    (List.filter (fun n => p (contact n)) (verified_candidates b))
    (List.filter (fun n => p (contact n)) (unverified_candidates b)).

Lemma all_contacts_half p b : all_contacts (half p b) = List.filter p (all_contacts b).
Proof. unfold all_contacts, half. simpl. by rewrite !List.filter_app, !filter_map_contact. Qed.

Lemma split_bucket_halves t i b :
  (i < length (_buckets t))%nat ->
  split_bucket (set_bucket t i b) i =
  {| _node_id := _node_id t;
     _buckets := <[i := half (fun c => negb (near t i c)) b]> (_buckets t) ++ [half (near t i) b] |}.
Proof.
  intros Hi. unfold split_bucket, get_bucket, set_bucket, half. simpl.
  rewrite list_lookup_insert_eq by done. simpl. rewrite !move_elements_spec. simpl.
  by rewrite list_insert_insert_eq.
Qed.

Lemma in_bucket_grow nb j d : (S j < nb)%nat -> in_bucket nb j d -> in_bucket (S nb) j d.
Proof. intros Hj (H1 & H2 & H3). split_and!; [lia|done|]. intros _. by apply H3. Qed.

Lemma Inv_split own t i b :
  Inv own t -> S i = length (_buckets t) -> (S i <= bit_size)%nat ->
  Forall (placed own t i) (all_contacts b) -> NoDup (all_contacts b) ->
  (1 <= length (nodes (half (near t i) b)) <= BUCKET_SIZE)%nat ->
  (length (nodes (half (fun c => negb (near t i c)) b)) <= BUCKET_SIZE)%nat ->
  Inv own (split_bucket (set_bucket t i b) i).
Proof.
  intros [Hid Hlen Hbs] Hi Hi' Hp Hnd Hnear Hfar. rewrite split_bucket_halves by lia.
  assert (own = false -> (S (S i) <= bit_size)%nat) as Hroom.
  { intros ->. destruct (nodes (half (near t i) b)) as [|n ns] eqn:E; [simpl in Hnear; lia|].
    assert (contact n ∈ List.filter (near t i) (all_contacts b)) as Hin.
    { rewrite <-all_contacts_half. unfold all_contacts. rewrite E. by left. }
    apply list_elem_of_In, filter_In in Hin as [Hin Hn]. apply list_elem_of_In in Hin.
    rewrite Forall_forall in Hp. destruct (Hp _ Hin) as (Hv & Hz & _).
    specialize (Hz eq_refl). rewrite near_spec, Z.ltb_lt in Hn by (done || lia).
    pose proof (be_value_range (id_xor (id (contact n)) (_node_id t))) as [Hr _].
    fold (dist t (id (contact n))) in Hr. unfold bit_size in *.
    destruct (decide (S i = 160)%nat) as [E'|]; [|lia]. rewrite E' in Hn.
    change (2 ^ (160 - Z.of_nat 160)) with 1 in Hn. lia. }
  assert (forall p j, (forall c, c ∈ all_contacts b -> p c = true ->
            in_bucket (S (length (_buckets t))) j (dist t (id c))) ->
          (length (nodes (half p b)) <= BUCKET_SIZE)%nat ->
          bucket_ok own {| _node_id := _node_id t;
            _buckets := <[i := half (fun c => negb (near t i c)) b]> (_buckets t)
                        ++ [half (near t i) b] |} j (half p b)) as Hhalf.
  { intros p j Hj Hl. split; [done| |].
    - rewrite all_contacts_half. apply Forall_forall. intros c Hc.
      apply list_elem_of_In, filter_In in Hc as [Hc Hpc]. apply list_elem_of_In in Hc.
      rewrite Forall_forall in Hp. destruct (Hp _ Hc) as (Hv & Hz & _).
      split_and!; [done|done|]. simpl. rewrite length_app, length_insert. simpl.
      rewrite Nat.add_1_r. by apply Hj.
    - rewrite all_contacts_half. eapply submseteq_NoDup_l; [|exact Hnd].
      apply sublist_submseteq, filter_sublist. }
  rewrite Forall_forall in Hp.
  split; simpl; [done|rewrite length_app, length_insert; simpl; destruct own; [lia|specialize (Hroom eq_refl); lia]|].
  intros j x Hj. apply lookup_app_Some in Hj as [Hj|[Hj1 Hj2]].
  - apply list_lookup_insert_Some in Hj as [(<- & <- & _)|[Hne Hj]].
    + apply Hhalf; [|done]. intros c Hc Hn. destruct (Hp _ Hc) as (Hv & Hz & _ & Hub & _).
      rewrite near_spec in Hn by done. apply negb_true_iff, Z.ltb_ge in Hn.
      split_and!; [lia|done|done].
    + pose proof (lookup_lt_Some _ _ _ Hj) as Hjl. destruct (Hbs j x Hj) as [B1 B2 B3].
      split; [done| |done]. eapply Forall_impl; [exact B2|].
      intros c (Hv & Hz & Hin). split_and!; [done|done|]. simpl.
      rewrite length_app, length_insert. simpl. rewrite Nat.add_1_r.
      apply in_bucket_grow; [lia|done].
  - rewrite length_insert in Hj1, Hj2. rewrite <-Hi in Hj1, Hj2.
    apply list_lookup_singleton_Some in Hj2 as [Hj2 <-].
    replace j with (S i) by lia. apply Hhalf; [|tauto]. intros c Hc Hn.
    destruct (Hp _ Hc) as (Hv & _ & _). rewrite near_spec, Z.ltb_lt in Hn by done.
    split_and!; [lia|done|lia].
Qed.

(** When [would_split_bucket] allows a split, the bucket is the last one and both
    halves fit: the assertions of [split_bucket] and [try_add_node]. *)
Lemma would_split_spec own t k c :
  Inv own t -> placed own t k c -> (S k <= bit_size)%nat -> would_split_bucket t k (id c) = true ->
  S k = length (_buckets t) /\ length (nodes (get_bucket t k)) = BUCKET_SIZE /\
  let cnt := length (List.filter (near t k) (c :: map contact (nodes (get_bucket t k)))) in
  (1 <= cnt <= BUCKET_SIZE)%nat.
Proof.
  intros HI (Hv & Hz & Hk & Hub & Hlb) Hkb. destruct HI as [Hid Hlen Hbs] eqn:EI.
  pose proof (get_bucket_ok own t k HI Hk) as [Bs Bp _].
  unfold would_split_bucket. fold (near t k c).
  change (fun n => id_le (id_xor (id (contact n)) (_node_id t)) (max_distance (S k)))
    with (fun n => near t k (contact n)).
  rewrite id_gt_max_distance by (by apply id_xor_valid || lia). fold (dist t (id c)).
  destruct (Z.leb_spec (2 ^ (160 - Z.of_nat k)) (dist t (id c))); [lia|].
  destruct (Nat.ltb_spec (length (nodes (get_bucket t k))) BUCKET_SIZE); [done|].
  rewrite andb_true_iff, Nat.ltb_lt, Nat.leb_le.
  rewrite <-(length_map contact (List.filter _ _)), filter_map_contact.
  intros Hcnt.
  assert (length (List.filter (near t k) (c :: map contact (nodes (get_bucket t k)))) =
          (if near t k c then 1 else 0) +
          length (List.filter (near t k) (map contact (nodes (get_bucket t k)))))%nat as Ecnt.
  { cbn [List.filter]. by destruct (near t k c). }
  cbv zeta. rewrite Ecnt. split_and!; [|lia|lia|lia].
  destruct (decide (S k = length (_buckets t))) as [|Hne]; [done|exfalso].
  assert (List.filter (near t k) (c :: map contact (nodes (get_bucket t k))) = []) as E0.
  { apply filter_nil_all. constructor.
    - rewrite near_spec, Z.ltb_ge by (done || lia). apply Hlb. lia.
    - unfold all_contacts in Bp. apply Forall_app in Bp as [Bp _].
      eapply Forall_impl; [exact Bp|]. intros x (Hxv & _ & _ & _ & Hxlb).
      rewrite near_spec, Z.ltb_ge by (done || lia). apply Hxlb. lia. }
  rewrite E0 in Ecnt. simpl in Ecnt. lia.
Qed.

(** ** Preservation *)

(** A contact the network layer hands to the table: its identifier has 20 bytes, and is not
    the own one unless that is allowed; and the code stays inside the identifier. *)
Definition offered (own : bool) (t : RoutingTable) (c : NodeContact) : Prop :=
  valid_id (id c) /\ (own = false -> id c <> _node_id t) /\ find_bucket_ok t (id c) = true.

(** A contact that does not carry the own identifier. *)
Definition foreign (t : RoutingTable) (c : NodeContact) : Prop :=
  valid_id (id c) /\ id c <> _node_id t.

Lemma inv_length_S own t : Inv own t -> (1 <= length (_buckets t) <= S bit_size)%nat.
Proof. intros [_ Hl _]. destruct own; lia. Qed.

Lemma foreign_offered own t c : Inv own t -> foreign t c -> offered own t c.
Proof.
  intros HI [Hv Hne]. split_and!; [done|done|]. apply find_bucket_ok_spec; [apply HI|done| |by right].
  apply (inv_length_S own t HI).
Qed.

Lemma offered_placed own t c :
  Inv own t -> offered own t c -> placed own t (find_bucket_id t (id c)) c /\ (S (find_bucket_id t (id c)) <= bit_size)%nat.
Proof.
  intros HI (Hv & Hne & Hok). pose proof (inv_length_S own t HI) as Hlen. destruct HI as [Hid _ _].
  pose proof (find_bucket_id_spec t (id c) Hid Hv Hlen Hok) as Hin. split.
  - split_and!; [done| |done]. intros E. rewrite dist_zero by done. by apply Hne.
  - destruct Hin as (Hk & Hub & _). apply find_bucket_ok_spec in Hok as [?|Hn]; [lia| |done|done|lia].
    destruct (decide (find_bucket_id t (id c) = bit_size)) as [E|?]; [|lia]. rewrite E in Hub.
    change (2 ^ (160 - Z.of_nat bit_size)) with 1 in Hub. rewrite <-dist_zero in Hn by done.
    pose proof (be_value_range (id_xor (id c) (_node_id t))) as [? _]. fold (dist t (id c)) in *. lia.
Qed.

(** The bucket after the candidates equal to [c] are erased. *)
Definition without_candidate (c : NodeContact) (b : Bucket) : Bucket :=
  {| nodes := nodes b;
     verified_candidates := erase_if (is_contact c) (verified_candidates b);
     unverified_candidates := erase_if (is_contact c) (unverified_candidates b) |}.

Lemma without_candidate_from c b : contacts_from [] b (without_candidate c b).
Proof.
  exists [], [], []. simpl. split_and!; try done; auto with ou.
Qed.

Lemma without_candidate_not_in c b :
  find_index (is_contact c) (nodes b) = None -> c ∉ all_contacts (without_candidate c b).
Proof.
  intros H. apply find_index_None in H. unfold all_contacts. simpl.
  rewrite !elem_of_app. intros [Hc|[Hc|Hc]].
  - by apply is_contact_not_in in Hc.
  - by apply erase_if_not_in in Hc.
  - by apply erase_if_not_in in Hc.
Qed.

Lemma push_from c now r b ns :
  ns `sublist_of` nodes b -> contacts_from [c] b (set_nodes b (ns ++ [fresh_node c now r])).
Proof.
  intros Hs. exists [c], [], []. split_and!; [done| |done|done]. simpl.
  rewrite map_app. simpl. apply sublist_contacts in Hs.
  etrans; [apply submseteq_skips_r, Hs|]. solve_submseteq.
Qed.

Lemma add_candidate_from now c v b b' pings :
  add_candidate now c v b = (b', pings) ->
  contacts_from [c] b b' /\ map contact (nodes b') = map contact (nodes b).
Proof.
  unfold add_candidate. pose proof (ping_questionables_contacts now (nodes b)) as Hn.
  destruct (ping_questionables now (nodes b)) as [ns ps]. simpl in Hn. intros [= <- <-].
  split; [|by destruct v].
  eapply contacts_from_trans; [|apply trim_candidates_from].
  destruct v.
  - exists [], [c], []. simpl. rewrite Hn. split_and!; [done|done| |done].
    destruct (0 <? _)%nat; [rewrite map_app; simpl|]; solve_submseteq.
  - exists [], [], [c]. simpl. rewrite Hn. split_and!; [done|done|auto with ou|].
    destruct (_ <? _)%nat; [rewrite map_app; simpl|]; solve_submseteq.
Qed.

Lemma length_of_contacts (l k : list RoutingNode) : map contact l = map contact k -> length l = length k.
Proof. intros H. by rewrite <-(length_map contact l), H, length_map. Qed.

Lemma try_add_node_Inv own now c v t :
  Inv own t -> offered own t c -> Inv own (fst (try_add_node now c v t)).
Proof.
  intros HI Hc. pose proof (offered_placed own t c HI Hc) as [Hp Hkb]. unfold try_add_node.
  set (k := find_bucket_id t (id c)) in *.
  assert (k < length (_buckets t))%nat as Hk by (apply Hp).
  pose proof (get_bucket_ok own t k HI Hk) as Hb.
  destruct (find_index (is_contact c) (nodes (get_bucket t k))) as [i|] eqn:Ef.
  { simpl. apply Inv_set_bucket; [done|]. eapply bucket_ok_sub; [done| |].
    - exists [], [], []. split_and!; [done|apply bump_contacts|done|done].
    - etrans; [apply length_bump|apply Hb]. }
  fold (without_candidate c (get_bucket t k)). set (b := without_candidate c (get_bucket t k)).
  assert (bucket_ok own t k b) as Hbk.
  { eapply bucket_ok_sub; [done|apply without_candidate_from|apply Hb]. }
  pose proof (without_candidate_not_in c _ Ef) as Hni. fold b in Hni.
  assert (Inv own (set_bucket t k b)) as Hsame by (by apply Inv_set_bucket).
  change (nodes b) with (nodes (get_bucket t k)) in *.
  destruct (Nat.ltb_spec (length (nodes (get_bucket t k))) BUCKET_SIZE) as [Hroom|Hfull].
  { destruct v; [|done]. simpl. apply Inv_set_bucket; [done|].
    apply (bucket_ok_add _ _ _ b _ c); [done|done|done|by apply push_from|].
    simpl. rewrite length_app. simpl. lia. }
  destruct (would_split_bucket t k (id c)) eqn:Ew.
  { destruct v; [|done]. simpl.
    apply (would_split_spec own) in Ew as (Hlast & Hlen & Hcnt); [|done..].
    set (b' := set_nodes b _). cbv zeta in Hcnt.
    assert (all_contacts b' ⊆+ [c] ++ all_contacts b) as Hsub.
    { apply contacts_from_submseteq. apply push_from. done. }
    assert (length (nodes (half (near t k) b')) =
            length (List.filter (near t k) (c :: map contact (nodes (get_bucket t k))))) as E1.
    { rewrite <-(length_map contact). simpl. rewrite filter_map_contact, map_app.
      apply Permutation_length. simpl. rewrite List.filter_app. simpl.
      destruct (near t k c); [|by rewrite app_nil_r]. by rewrite Permutation_app_comm. }
    assert (length (nodes b') = 9)%nat as E9.
    { unfold b', set_nodes. simpl. rewrite length_app, Hlen. done. }
    apply Inv_split; [done|done|done| | | |].
    - apply Forall_forall. intros x Hx. apply (elem_of_submseteq _ _ x Hx) in Hsub.
      apply elem_of_cons in Hsub as [->|Hx']; [done|].
      destruct Hbk as [_ Hbp _]. rewrite Forall_forall in Hbp. by apply Hbp.
    - eapply submseteq_NoDup_l; [exact Hsub|]. constructor; [done|apply Hbk].
    - rewrite E1. done.
    - assert (length (nodes (half (near t k) b')) +
              length (nodes (half (fun c => negb (near t k c)) b')) = length (nodes b'))%nat as Es
        by apply (filter_length_split (fun n => near t k (contact n))).
      unfold BUCKET_SIZE in *. lia. }
  destruct (find_index (fun n => negb (is_good now n)) (nodes (get_bucket t k))) as [i|] eqn:Eg.
  { destruct v; [|done]. simpl. apply Inv_set_bucket; [done|].
    apply (bucket_ok_add _ _ _ b _ c); [done|done|done|apply push_from, sublist_delete|].
    apply find_index_Some in Eg as (x & Hx & _). simpl.
    rewrite length_app, length_delete by eauto. simpl.
    pose proof (bo_size _ _ _ _ Hb). unfold BUCKET_SIZE in *. lia. }
  destruct (add_candidate now c v b) as [b'' pings] eqn:Ea. simpl.
  apply add_candidate_from in Ea as [Ea El]. apply Inv_set_bucket; [done|].
  apply (bucket_ok_add _ _ _ b _ c); [done..|].
  rewrite (length_of_contacts _ _ El). apply Hbk.
Qed.

Lemma replace_bad_from now i b b' pings :
  replace_bad now i b = (b', pings) -> is_Some (nodes b !! i) ->
  all_contacts b' ⊆+ all_contacts b /\ (length (nodes b') <= length (nodes b))%nat.
Proof.
  unfold replace_bad. intros H Hi.
  pose proof (erase_front_sublist now (verified_candidates b)) as Hv.
  pose proof (erase_front_sublist now (unverified_candidates b)) as Hu.
  destruct (erase_front_questionables now (verified_candidates b)) as [|c v'].
  - assert (contacts_from [] b b' /\ nodes b' = nodes b) as [Hf ->].
    { destruct (erase_front_questionables now (unverified_candidates b)) as [|c u'].
      - injection H as <- <-. split; [|done]. exists [], [], []. simpl. split_and!; auto with ou.
      - injection H as <- <-. split; [|done]. exists [], [], []. simpl.
        split_and!; auto with ou. apply sublist_contacts. etrans; [|exact Hu]. by constructor. }
    split; [|lia]. by apply contacts_from_submseteq in Hf.
  - injection H as <- <-.
    set (n := {| contact := contact c |}).
    pose proof (insert_by_time_contacts n (delete i (nodes b))) as Hins. simpl contact in Hins.
    apply sublist_contacts in Hv, Hu. simpl in Hv. split.
    + unfold all_contacts. simpl.
      etrans; [apply submseteq_app; [exact Hins|apply submseteq_app; [done|exact Hu]]|].
      etrans; [|apply submseteq_app; [done|apply submseteq_app; [exact Hv|reflexivity]]].
      pose proof (sublist_contacts _ _ (sublist_delete (nodes b) i)) as Hd.
      etrans; [apply submseteq_app; [apply submseteq_skip, Hd|reflexivity]|]. solve_submseteq.
    + apply submseteq_length in Hins. simpl in Hins |- *. rewrite !length_map in Hins.
      rewrite length_delete in Hins by done.
      pose proof (lookup_lt_is_Some_1 _ _ Hi). lia.
Qed.

Lemma fail_node_Inv own now c t : Inv own t -> offered own t c -> Inv own (fst (fail_node now c t)).
Proof.
  intros HI Hc. pose proof (offered_placed own t c HI Hc) as [Hp _]. unfold fail_node.
  set (k := find_bucket_id t (id c)) in *.
  assert (k < length (_buckets t))%nat as Hk by (apply Hp).
  pose proof (get_bucket_ok own t k HI Hk) as Hb.
  destruct (find_index (is_contact c) (nodes (get_bucket t k))) as [i|] eqn:Ef; [|done].
  set (b1 := set_nodes (get_bucket t k) (alter fail_increment i (nodes (get_bucket t k)))).
  assert (map contact (nodes b1) = map contact (nodes (get_bucket t k))) as Ec1
    by (by apply alter_contacts).
  assert (all_contacts b1 = all_contacts (get_bucket t k)) as Ea1
    by (unfold all_contacts; by rewrite Ec1).
  destruct (nodes b1 !! i) as [n|] eqn:En; [|done].
  destruct (is_good now n); [destruct (is_questionable now n)|]; simpl.
  - apply Inv_set_bucket; [done|]. eapply bucket_ok_sub; [done| |].
    + exists [], [], []. simpl. rewrite !alter_contacts by done. done.
    + simpl. rewrite !length_alter. apply Hb.
  - apply Inv_set_bucket; [done|]. eapply bucket_ok_sub; [done| |].
    + exists [], [], []. simpl. rewrite !alter_contacts by done. done.
    + simpl. rewrite !length_alter. apply Hb.
  - destruct (replace_bad now i b1) as [b2 pings] eqn:Er. simpl.
    apply replace_bad_from in Er as [Es El]; [|by rewrite En].
    apply Inv_set_bucket; [done|].
    assert (all_contacts (trim_candidates (questionable_count now (nodes b2)) b2)
            ⊆+ all_contacts (get_bucket t k)) as Hsub.
    { etrans; [apply (contacts_from_submseteq []), trim_candidates_from|]. simpl.
      rewrite <-Ea1. done. }
    destruct Hb as [Bs Bp Bn]. split.
    + simpl. etrans; [exact El|]. rewrite (length_of_contacts _ _ Ec1). done.
    + apply Forall_forall. intros x Hx. apply (elem_of_submseteq _ _ x Hx) in Hsub.
      rewrite Forall_forall in Bp. by apply Bp.
    + by eapply submseteq_NoDup_l.
Qed.

(** ** Runs of the table *)

(** One operation of the network layer on the table. *)
Inductive rt_step (ok : RoutingTable -> NodeContact -> Prop) : RoutingTable -> RoutingTable -> Prop :=
| step_try_add now c v t : ok t c -> rt_step ok t (fst (try_add_node now c v t))
| step_fail now c t : ok t c -> rt_step ok t (fst (fail_node now c t)).

Lemma Inv_new own me : valid_id me -> Inv own (new_table me).
Proof.
  intros H. split; simpl; [done|destruct own; unfold bit_size; lia|].
  intros [|i] b; [|done]. intros [= <-]. by repeat constructor.
Qed.

Lemma rt_run_Inv own me t : valid_id me -> rtc (rt_step (offered own)) (new_table me) t -> Inv own t.
Proof.
  intros Hme. apply (rtc_ind_r (Inv own)); [by apply Inv_new|].
  intros x y _ Hs Hx. destruct Hs; [by apply try_add_node_Inv|by apply fail_node_Inv].
Qed.

Lemma rt_foreign_Inv me t : valid_id me -> rtc (rt_step foreign) (new_table me) t -> Inv false t.
Proof.
  intros Hme. apply (rtc_ind_r (Inv false)); [by apply Inv_new|].
  intros x y _ Hs Hx. destruct Hs; [apply try_add_node_Inv|apply fail_node_Inv]; by try apply foreign_offered.
Qed.

(** *** The candidate queues *)

Definition no_candidates (b : Bucket) : Prop :=
  verified_candidates b = [] /\ unverified_candidates b = [].

Lemma good_not_questionable now n : is_good now n = true -> is_questionable now n = false.
Proof.
  unfold is_good, is_questionable. rewrite !andb_true_iff, !Z.leb_le, Z.ltb_ge. lia.
Qed.

Lemma good_questionable_count now ns :
  Forall (fun n => is_good now n = true) ns -> questionable_count now ns = O.
Proof.
  intros H. unfold questionable_count. rewrite filter_nil_all; [done|].
  eapply Forall_impl; [exact H|]. apply good_not_questionable.
Qed.

Lemma no_candidates_set t i b :
  Forall no_candidates (_buckets t) -> no_candidates b ->
  Forall no_candidates (_buckets (set_bucket t i b)).
Proof. intros Ht Hb. simpl. by apply Forall_insert. Qed.

Lemma no_candidates_get t i : Forall no_candidates (_buckets t) -> no_candidates (get_bucket t i).
Proof.
  intros H. unfold get_bucket. destruct (_buckets t !! i) as [b|] eqn:E; [|done].
  simpl. by eapply Forall_lookup_1.
Qed.

Lemma add_candidate_none now c v b :
  no_candidates b -> Forall (fun n => is_good now n = true) (nodes b) ->
  no_candidates (fst (add_candidate now c v b)).
Proof.
  intros [Hv Hu] Hg. unfold add_candidate. rewrite good_questionable_count by done.
  destruct (ping_questionables now (nodes b)) as [ns pings]. rewrite Hv, Hu. by destruct v.
Qed.

Lemma try_add_node_no_candidates now c v t :
  Forall no_candidates (_buckets t) ->
  Forall no_candidates (_buckets (fst (try_add_node now c v t))).
Proof.
  intros Ht. unfold try_add_node. set (k := find_bucket_id t (id c)).
  pose proof (no_candidates_get t k Ht) as [Hv Hu].
  destruct (find_index (is_contact c) (nodes (get_bucket t k))) as [i|].
  { simpl. by apply Forall_insert. }
  rewrite Hv, Hu. simpl nodes.
  destruct (_ <? _)%nat; [destruct v; simpl; by apply Forall_insert|].
  destruct (would_split_bucket t k (id c)).
  { destruct v; [|by apply Forall_insert]. simpl. unfold split_bucket. simpl.
    unfold get_bucket. simpl. rewrite !move_elements_spec. simpl.
    rewrite list_insert_insert_eq.
    destruct (decide (k < length (_buckets t))%nat).
    - rewrite list_lookup_insert_eq by done. simpl. apply Forall_app. split; [|by repeat constructor].
      by apply Forall_insert.
    - rewrite (lookup_ge_None_2 (<[k:=_]> _)) by (rewrite length_insert; lia). simpl.
      apply Forall_app. split; [|by repeat constructor]. by apply Forall_insert. }
  destruct (find_index _ (nodes (get_bucket t k))) as [i|] eqn:Eg.
  { destruct v; simpl; by apply Forall_insert. }
  match goal with |- context [add_candidate ?a ?b ?d ?e] =>
    pose proof (add_candidate_none a b d e) as Hac; destruct (add_candidate a b d e) as [b' pings] end.
  simpl in *. apply Forall_insert; [done|]. apply Hac; [done|].
  apply find_index_None in Eg. eapply Forall_impl; [exact Eg|]. simpl. by intros n ?%negb_false_iff.
Qed.

Lemma fail_node_no_candidates now c t :
  Forall no_candidates (_buckets t) -> Forall no_candidates (_buckets (fst (fail_node now c t))).
Proof.
  intros Ht. unfold fail_node. set (k := find_bucket_id t (id c)).
  pose proof (no_candidates_get t k Ht) as [Hv Hu].
  destruct (find_index (is_contact c) (nodes (get_bucket t k))) as [i|]; [|done].
  destruct (nodes (set_nodes _ _) !! i) as [n|]; [|done].
  destruct (is_good now n); [destruct (is_questionable now n); simpl; by apply Forall_insert|].
  unfold replace_bad. simpl verified_candidates. simpl unverified_candidates. rewrite Hv, Hu.
  simpl. by apply Forall_insert.
Qed.

(** *** Closest nodes *)

Lemma push_nodes_spec count ns output :
  (length output < count)%nat ->
  let r := take count (output ++ map contact ns) in
  push_nodes count ns output = (r, (count <=? length r)%nat).
Proof.
  cbv zeta. revert output. induction ns as [|n ns IH]; intros output Hl; simpl.
  { rewrite app_nil_r, take_ge by lia. destruct (Nat.leb_spec count (length output)); [lia|done]. }
  rewrite length_app. simpl.
  replace (output ++ contact n :: map contact ns) with ((output ++ [contact n]) ++ map contact ns)
    by (by rewrite <-app_assoc).
  destruct (Nat.leb_spec count (length output + 1)) as [H|H].
  - rewrite take_app_length' by (rewrite length_app; simpl; lia).
    rewrite length_app. simpl. by destruct (Nat.leb_spec count (length output + 1)); [|lia].
  - apply IH. rewrite length_app. simpl. lia.
Qed.

Lemma push_buckets_spec count bs : forall output,
  (length output < count)%nat ->
  let r := take count (output ++ concat (map (fun b => map contact (nodes b)) bs)) in
  push_buckets count bs output false = (r, (count <=? length r)%nat).
Proof.
  induction bs as [|b bs IH]; intros output Hl; simpl.
  { rewrite app_nil_r, take_ge by lia. destruct (Nat.leb_spec count (length output)); [lia|done]. }
  rewrite push_nodes_spec by done. rewrite app_assoc.
  set (r := output ++ map contact (nodes b)).
  destruct (Nat.leb_spec count (length (take count r))) as [H|H].
  - rewrite length_take in H. rewrite take_app_le by lia.
    assert (count <= length (take count r))%nat as Hr by (rewrite length_take; lia).
    destruct (Nat.leb_spec count (length (take count r))); [|lia]. by destruct bs.
  - rewrite length_take in H. rewrite (take_ge r) by lia. apply IH. lia.
Qed.

Lemma push_buckets_done count bs output : push_buckets count bs output true = (output, true).
Proof. by destruct bs. Qed.

(** The buckets in the order in which the search visits them. *)
Definition visited (t : RoutingTable) (target : list byte) : list Bucket :=
  let i := find_bucket_id t target in drop i (_buckets t) ++ rev (take i (_buckets t)).

Definition node_contacts (bs : list Bucket) : list NodeContact :=
  concat (map (fun b => map contact (nodes b)) bs).

Lemma find_closest_spec t target count :
  find_closest_routing_nodes t target count = take count (node_contacts (visited t target)).
Proof.
  unfold find_closest_routing_nodes, visited, node_contacts.
  destruct (Nat.eqb_spec count 0) as [->|Hc]; [done|].
  set (i := find_bucket_id t target). rewrite push_buckets_spec by (simpl; lia). simpl app.
  rewrite map_app, concat_app. set (l := concat _). set (m := concat (map _ (rev _))).
  destruct (Nat.leb_spec count (length (take count l))) as [H|H].
  - rewrite push_buckets_done. simpl. rewrite length_take in H. by rewrite take_app_le by lia.
  - rewrite length_take in H. rewrite (take_ge l) by lia.
    rewrite push_buckets_spec by lia. done.
Qed.

Lemma node_contacts_in t bs c :
  (forall b, b ∈ bs -> b ∈ _buckets t) -> c ∈ node_contacts bs ->
  exists i b, _buckets t !! i = Some b /\ c ∈ map contact (nodes b).
Proof.
  intros Hbs Hc. unfold node_contacts in Hc. apply list_elem_of_In, in_concat in Hc as (l & Hl & Hc).
  apply in_map_iff in Hl as (b & <- & Hb). apply list_elem_of_In in Hb, Hc.
  apply Hbs in Hb. apply list_elem_of_lookup in Hb as [i Hi]. eauto.
Qed.

Lemma node_contacts_NoDup own t : Inv own t -> NoDup (node_contacts (_buckets t)).
Proof.
  intros HI. unfold node_contacts.
  assert (forall bs k, (forall j b, bs !! j = Some b -> bucket_ok own t (k + j) b) ->
            NoDup (concat (map (fun b => map contact (nodes b)) bs)) /\
            Forall (fun c => exists j, (k <= j)%nat /\ placed own t j c)
              (concat (map (fun b => map contact (nodes b)) bs))) as Hgen.
  { induction bs as [|b bs IH]; intros k Hb; simpl; [by repeat constructor|].
    destruct (Hb O b eq_refl) as [_ Bp Bn]. rewrite Nat.add_0_r in Bp.
    destruct (IH (S k)) as [I1 I2].
    { intros j b' Hj. rewrite Nat.add_succ_comm. by apply (Hb (S j)). }
    unfold all_contacts in Bp, Bn. apply Forall_app in Bp as [Bp _]. apply NoDup_app in Bn as [Bn _].
    split.
    - apply NoDup_app. split_and!; [done| |done]. intros c Hc Hc'.
      rewrite Forall_forall in Bp, I2. destruct (Bp c Hc) as (_ & _ & H1).
      destruct (I2 c Hc') as (j & Hj & _ & _ & H2).
      pose proof (in_bucket_unique _ _ _ _ H1 H2). lia.
    - apply Forall_app. split; (eapply Forall_impl; [eassumption|]); simpl.
      + intros c Hc. by exists k.
      + intros c (j & Hj & Hp). exists j. split; [lia|done]. }
  apply (Hgen (_buckets t) O). apply (inv_buckets own t HI).
Qed.

Lemma visited_perm t target : visited t target ≡ₚ _buckets t.
Proof.
  unfold visited. set (i := find_bucket_id t target).
  rewrite <-(take_drop i (_buckets t)) at 3. rewrite Permutation_app_comm.
  by rewrite <-Permutation_rev.
Qed.

(** *** Contacts that claim the own identifier *)

(** Adds verified contacts one after another. *)
Definition add_all (cs : list NodeContact) (t : RoutingTable) : RoutingTable :=
  foldl (fun t c => fst (try_add_node 0 c true t)) t cs.

Fixpoint all_offered (cs : list NodeContact) (t : RoutingTable) : bool :=
  match cs with
  | [] => true
  | c :: cs => (length (id c) =? id_size)%nat && find_bucket_ok t (id c) && all_offered cs (fst (try_add_node 0 c true t))
  end.

Lemma add_all_run cs : forall t, all_offered cs t = true -> rtc (rt_step (offered true)) t (add_all cs t).
Proof.
  induction cs as [|c cs IH]; intros t; [done|]. cbn [all_offered add_all foldl].
  intros [[Hv%Nat.eqb_eq Hok]%andb_true_iff Hcs]%andb_true_iff.
  eapply rtc_l; [apply (step_try_add (offered true) 0 c true); by split_and!|]. by apply IH.
Qed.

Definition local_contact (i : list byte) (p : Z) : NodeContact :=
  {| id := i; contact_endpoint := {| address := IPv4 [Byte.x0a; Byte.x00; Byte.x00; Byte.x01]; port := p |} |}.

(** Eight contacts with the own identifier, then one in the far half of each bucket. *)
Definition flood (me : list byte) : list NodeContact :=
  map (fun p => local_contact me (Z.of_nat p)) (seq 2 8) ++
  map (fun i => local_contact (set_rbit me i (negb (get_rbit me i))) 1) (seq 0 160).

(** *** What a verified contact leaves behind *)

(** [c] is recorded in the table as just heard of and just replied. *)
Definition recorded (now : Z) (c : NodeContact) (t : RoutingTable) : Prop :=
  exists i b, _buckets t !! i = Some b /\ fresh_node c now now ∈ nodes b.

Lemma recorded_set now c t i b :
  (i < length (_buckets t))%nat -> fresh_node c now now ∈ nodes b -> recorded now c (set_bucket t i b).
Proof. intros Hi Hb. exists i, b. simpl. by rewrite list_lookup_insert_eq. Qed.

Lemma recorded_split now c t i b :
  (i < length (_buckets t))%nat -> fresh_node c now now ∈ nodes b ->
  recorded now c (split_bucket (set_bucket t i b) i).
Proof.
  intros Hi Hb. rewrite split_bucket_halves by done. destruct (near t i c) eqn:En.
  - exists (length (_buckets t)), (half (near t i) b). simpl. split.
    + rewrite lookup_app_r by (rewrite length_insert; lia). by rewrite length_insert, Nat.sub_diag.
    + apply list_elem_of_In, filter_In. by rewrite <-list_elem_of_In.
  - exists i, (half (fun c => negb (near t i c)) b). simpl. split.
    + rewrite lookup_app_l by (rewrite length_insert; lia). by rewrite list_lookup_insert_eq.
    + apply list_elem_of_In, filter_In. rewrite <-list_elem_of_In. simpl. by rewrite En.
Qed.

(** ** Properties *)

(** C1: whatever contacts with 20-byte identifiers are handed to the table, also such that
    carry the identifier of the node itself, and as long as the code has not left the
    bits of an identifier: every bucket holds at most eight nodes, all contacts of a
    bucket (candidates included) are pairwise distinct and lie in the bucket's distance
    range, and there are at most 161 buckets.  The next operation leaves the bits of an
    identifier exactly if there are 161 buckets and it is for the identifier of the node
    itself.  If no contact ever carried that identifier there are at most 160 buckets,
    and this never happens. *)
Theorem routing_table_invariant me t :
  valid_id me ->
  (rtc (rt_step (offered true)) (new_table me) t ->
   Inv true t /\
   forall i, valid_id i -> find_bucket_ok t i = false <-> length (_buckets t) = S bit_size /\ i = _node_id t) /\
  (rtc (rt_step foreign) (new_table me) t -> Inv false t /\ forall i, valid_id i -> find_bucket_ok t i = true).
Proof.
  intros Hme. split; intros Hrun.
  - pose proof (rt_run_Inv true me t Hme Hrun) as HI. split; [done|]. intros i Hi.
    pose proof (inv_length_S true t HI) as Hl. destruct HI as [Hn _ _].
    pose proof (find_bucket_ok_spec t i Hn Hi ltac:(lia)) as Hs.
    rewrite <-not_true_iff_false, Hs. destruct (decide (i = _node_id t)); [|tauto]. intuition lia.
  - pose proof (rt_foreign_Inv me t Hme Hrun) as HI. split; [done|]. intros i Hi.
    destruct HI as [Hn Hl _]. apply find_bucket_ok_spec; [done|done|lia|left; lia].
Qed.

Lemma routing_table_invariant_witness :
  Inv true (fst (try_add_node 5 (local_contact NodeID_zero 7) true (new_table NodeID_zero))) /\
  Inv false (fst (try_add_node 5 sample_contact true (new_table NodeID_zero))).
Proof.
  split.
  - apply (routing_table_invariant NodeID_zero); [reflexivity|].
    apply rtc_once. apply (step_try_add (offered true)). split; [reflexivity|]. split; [discriminate|reflexivity].
  - apply (routing_table_invariant NodeID_zero); [reflexivity|].
    apply rtc_once. apply (step_try_add foreign). split; [reflexivity|discriminate].
Defined.

(** a contact that has just replied is recorded in the table, unless its
    bucket is full of good nodes and cannot be split, and then the bucket keeps
    its nodes. *)
Theorem verified_contact_recorded own now c t :
  Inv own t -> offered own t c ->
  let k := find_bucket_id t (id c) in
  let t' := fst (try_add_node now c true t) in
  recorded now c t' \/
  (length (nodes (get_bucket t k)) = BUCKET_SIZE /\
   Forall (fun n => is_good now n = true) (nodes (get_bucket t k)) /\
   would_split_bucket t k (id c) = false /\
   map contact (nodes (get_bucket t' k)) = map contact (nodes (get_bucket t k))).
Proof.
  intros HI Hc. cbv zeta. destruct (offered_placed own t c HI Hc) as [(_ & _ & Hk & _) _].
  unfold try_add_node. set (k := find_bucket_id t (id c)) in *.
  pose proof (bo_size _ _ _ _ (get_bucket_ok own t k HI Hk)) as Hsz.
  destruct (find_index (is_contact c) (nodes (get_bucket t k))) as [i|] eqn:Ef.
  { left. apply find_index_Some in Ef as (n & Hn & Hcn). apply bool_decide_eq_true in Hcn.
    apply recorded_set; [done|]. simpl. rewrite Hn. simpl. rewrite Hcn. apply elem_of_app. right.
    by left. }
  simpl nodes. destruct (Nat.ltb_spec (length (nodes (get_bucket t k))) BUCKET_SIZE).
  { left. apply recorded_set; [done|]. simpl. apply elem_of_app. right. by left. }
  destruct (would_split_bucket t k (id c)) eqn:Ew.
  { left. apply recorded_split; [done|]. simpl. apply elem_of_app. right. by left. }
  destruct (find_index (fun n => negb (is_good now n)) (nodes (get_bucket t k))) as [i|] eqn:Eg.
  { left. apply recorded_set; [done|]. simpl. apply elem_of_app. right. by left. }
  right. split_and!; [lia| |done|].
  - apply find_index_None in Eg. eapply Forall_impl; [exact Eg|]. simpl. by intros n ?%negb_false_iff.
  - match goal with |- context [add_candidate ?a ?b ?d ?e] =>
      destruct (add_candidate a b d e) as [b' pings] eqn:Ea end.
    apply add_candidate_from in Ea as [_ Ea]. simpl fst. unfold get_bucket at 1. simpl _buckets.
    by rewrite list_lookup_insert_eq.
Qed.

Lemma verified_contact_recorded_witness :
  recorded 7 sample_contact (fst (try_add_node 7 sample_contact true (new_table NodeID_zero))).
Proof.
  destruct (verified_contact_recorded false 7 sample_contact (new_table NodeID_zero)) as [H|[H _]];
    [by apply Inv_new|split; [reflexivity|split; [discriminate|reflexivity]]|exact H|discriminate H].
Defined.

(** the index computed for an identifier is the index of the only bucket
    that can hold it: whatever is stored in bucket [i] is found there again. *)
Theorem stored_contacts_are_found own t i b c :
  Inv own t -> find_bucket_ok t (id c) = true -> _buckets t !! i = Some b -> c ∈ all_contacts b ->
  find_bucket_id t (id c) = i.
Proof.
  intros HI Hok Hb Hc. pose proof (inv_buckets own t HI i b Hb) as [_ Hp _].
  rewrite Forall_forall in Hp. destruct (Hp c Hc) as (Hv & _ & Hin).
  eapply in_bucket_unique; [|exact Hin].
  apply find_bucket_id_spec; [apply HI|done|by eapply inv_length_S|done].
Qed.

Lemma stored_contacts_are_found_witness :
  find_bucket_id (fst (try_add_node 5 sample_contact true (new_table NodeID_zero)))
    (id sample_contact) = 0%nat.
Proof.
  apply (stored_contacts_are_found false _ 0
           (set_nodes empty_bucket [fresh_node sample_contact 5 5])).
  - apply try_add_node_Inv; [by apply Inv_new|]. split; [reflexivity|split; [discriminate|reflexivity]].
  - reflexivity.
  - reflexivity.
  - by left.
Defined.

(** [find_closest_routing_nodes] returns as many contacts as it can (the
    smaller of [count] and the number of nodes), without duplicates, all of them
    nodes of the table, those of the target's bucket first. *)
Theorem find_closest_routing_nodes_correct own t target count :
  Inv own t -> valid_id target -> find_bucket_ok t target = true ->
  let out := find_closest_routing_nodes t target count in
  length out = Nat.min count (length (node_contacts (_buckets t))) /\ NoDup out /\
  (forall c, c ∈ out -> exists i b, _buckets t !! i = Some b /\ c ∈ map contact (nodes b)) /\
  take (length (nodes (get_bucket t (find_bucket_id t target)))) out =
  take count (map contact (nodes (get_bucket t (find_bucket_id t target)))).
Proof.
  intros HI Ht Hok. cbv zeta. rewrite find_closest_spec.
  assert (node_contacts (visited t target) ≡ₚ node_contacts (_buckets t)) as Hperm.
  { unfold node_contacts. by rewrite (visited_perm t target). }
  split_and!.
  - by rewrite length_take, Hperm.
  - eapply submseteq_NoDup_l; [apply sublist_submseteq, sublist_take|].
    rewrite Hperm. by eapply node_contacts_NoDup.
  - intros c Hc. apply elem_of_take in Hc as (j & Hc & _). apply list_elem_of_lookup_2 in Hc.
    eapply node_contacts_in; [|exact Hc]. intros b Hb. by rewrite visited_perm in Hb.
  - destruct (find_bucket_id_spec t target) as (Hk & _); [apply HI|done|by eapply inv_length_S|done|].
    unfold visited, get_bucket. set (k := find_bucket_id t target) in *.
    destruct (lookup_lt_is_Some_2 _ _ Hk) as [b Hb]. rewrite Hb. simpl.
    rewrite (drop_S _ _ _ Hb). unfold node_contacts. simpl.
    rewrite take_take, Nat.min_comm, <-take_take. f_equal.
    rewrite take_app_length' by (by rewrite length_map). done.
Qed.

Lemma find_closest_routing_nodes_correct_witness :
  length (find_closest_routing_nodes (new_table NodeID_zero) NodeID_max 8) = 0%nat.
Proof.
  apply (find_closest_routing_nodes_correct false (new_table NodeID_zero) NodeID_max 8);
    [by apply Inv_new|reflexivity|reflexivity].
Defined.

(** because a node not heard of for 15 minutes is never "good", a full bucket
    whose nodes are all good has no questionable node; the candidate queues stay
    empty in every run, whatever contacts are offered: a questionable node is
    replaced at once and the pinging of questionable nodes never happens. *)
Theorem candidates_always_empty me t :
  rtc (rt_step (fun _ _ => True)) (new_table me) t ->
  Forall no_candidates (_buckets t).
Proof.
  apply (rtc_ind_r (fun t => Forall no_candidates (_buckets t))); [by repeat constructor|].
  intros x y _ Hs Hx. destruct Hs; [by apply try_add_node_no_candidates|by apply fail_node_no_candidates].
Qed.

Lemma candidates_always_empty_witness :
  Forall no_candidates (_buckets (fst (try_add_node 5 sample_contact false (new_table NodeID_zero)))).
Proof.
  apply (candidates_always_empty NodeID_zero). apply rtc_once.
  apply (step_try_add (fun _ _ => True)). exact I.
Defined.

(** without the restriction on identifiers the number of buckets is not
    bounded by the size of an identifier: contacts that claim the node's own
    identifier, which no caller filters out, drive the table to 161 buckets, and
    then the next lookup of that identifier clears bit 160 of a 160-bit buffer. *)
Theorem bucket_count_overflow :
  exists t, rtc (rt_step (offered true)) (new_table NodeID_zero) t /\
            length (_buckets t) = S bit_size /\ find_bucket_ok t NodeID_zero = false.
Proof.
  exists (add_all (flood NodeID_zero) (new_table NodeID_zero)). split_and!.
  - apply add_all_run. vm_compute. reflexivity.
  - vm_compute. reflexivity.
  - vm_compute. reflexivity.
Qed.

(** [max_distance(i)] is the largest distance with [i] leading zero bits for
    every index up to 160; in particular [max_distance(159)] is one, not zero. *)
Theorem max_distance_exact i :
  (i <= bit_size)%nat ->
  be_value (max_distance i) = 2 ^ (160 - Z.of_nat i) - 1 /\
  (forall n, (n < bit_size)%nat -> get_rbit (max_distance i) n = (i <=? n)%nat).
Proof. intros Hi. split; [by apply max_distance_value|]. intros n. by apply max_distance_bits. Qed.

Lemma max_distance_exact_witness : be_value (max_distance 159) = 1.
Proof. apply (max_distance_exact 159). unfold bit_size. lia. Defined.
