(* ===== verification/DhtStorage.v ===== *)
(** * DHT storage: src/bittorrent/dht_storage.h and .cpp

    Write tokens, the peers of a swarm, the tracker and the data store.  Times
    are steady-clock readings in nanoseconds; an operation runs without
    suspension and reads one time.  SHA-1 (OpenSSL) and the textual form of an
    address (asio) are parameters. *)
From S2P Require Import Prelude Number Bencoding Bytes NodeId Contact.

Definition seconds (n : Z) : Z := n * 1000000000.

(** ** Write tokens *)

Module Tokens.

Definition TOKEN_VALIDITY_SECONDS : Z := 60 * 15.
Definition SECRET_REFRESH_TIME_SECONDS : Z := 60 * 5.

Record Secret := { secret : list byte; expires : Z }.

Record DhtWriteTokenStorage := {
  _salt : list byte;
  _secrets : list Secret;
  _last_generated : Z;
}.

(** The constructor draws a salt; [_last_generated] is the clock's epoch. *)
Definition new_storage (salt : list byte) : DhtWriteTokenStorage :=
  {| _salt := salt; _secrets := []; _last_generated := 0 |}.

Section Code.
Variable sha1 : list byte -> list byte.
Variable addr_to_string : ip_address -> list byte.

Fixpoint pop_expired (now : Z) (q : list Secret) : list Secret :=
  match q with
  | s :: q' => if expires s <? now then pop_expired now q' else q
  | [] => []
  end.

Definition set_secrets (st : DhtWriteTokenStorage) (q : list Secret) : DhtWriteTokenStorage :=
  {| _salt := _salt st; _secrets := q; _last_generated := _last_generated st |}.

Definition expire (now : Z) (st : DhtWriteTokenStorage) : DhtWriteTokenStorage :=
  set_secrets st (pop_expired now (_secrets st)).

(** The token a secret gives to an address and a target. *)
Definition token_of (s : Secret) (a : ip_address) (i : list byte) : list byte :=
  sha1 (secret s ++ addr_to_string a ++ i).

Definition generate_token (now : Z) (a : ip_address) (i : list byte) (st : DhtWriteTokenStorage)
    : option (list byte) * DhtWriteTokenStorage :=
  let st := expire now st in
  let st :=
    if bool_decide (_secrets st = []) ||
       (_last_generated st + seconds SECRET_REFRESH_TIME_SECONDS <? now) then
      set_secrets st (_secrets st ++
        [{| secret := to_string now ++ _salt st;
            expires := now + seconds TOKEN_VALIDITY_SECONDS |}])
    else st in
  ((fun s => token_of s a i) <$> last (_secrets st), st).

Definition verify_token (now : Z) (a : ip_address) (i token : list byte)
    (st : DhtWriteTokenStorage) : bool * DhtWriteTokenStorage :=
  let st := expire now st in
  (existsb (fun s => bool_decide (token_of s a i = token)) (_secrets st), st).

(** ** Runs *)

Inductive token_op :=
| Generate (now : Z) (a : ip_address) (i : list byte)
| Verify (now : Z) (a : ip_address) (i token : list byte).

Definition op_time (op : token_op) : Z :=
  match op with Generate now _ _ => now | Verify now _ _ _ => now end.

Definition apply_op (st : DhtWriteTokenStorage) (op : token_op) : DhtWriteTokenStorage :=
  match op with
  | Generate now a i => snd (generate_token now a i st)
  | Verify now a i tok => snd (verify_token now a i tok st)
  end.

Definition run (ops : list token_op) (st : DhtWriteTokenStorage) : DhtWriteTokenStorage :=
  foldl apply_op st ops.

(** What holds at time [T] when the clock has never gone back. *)
Record token_inv (T : Z) (st : DhtWriteTokenStorage) : Prop := {
  ti_last : _last_generated st = 0;
  ti_sorted : StronglySorted (fun a b => expires a <= expires b) (_secrets st);
  ti_bounds : Forall (fun s => seconds TOKEN_VALIDITY_SECONDS <= expires s
                               <= T + seconds TOKEN_VALIDITY_SECONDS) (_secrets st);
}.

Lemma pop_expired_suffix now q : exists p, q = p ++ pop_expired now q /\ Forall (fun s => expires s < now) p.
Proof.
  induction q as [|s q (p & E & Hp)]; simpl; [by exists []|].
  destruct (Z.ltb_spec (expires s) now); [|by exists []].
  exists (s :: p). simpl. rewrite <-E. split; [done|by constructor].
Qed.

Lemma pop_expired_keeps now q s : s ∈ q -> now <= expires s -> s ∈ pop_expired now q.
Proof.
  intros Hs He. destruct (pop_expired_suffix now q) as (p & E & Hp). rewrite E in Hs.
  apply elem_of_app in Hs as [Hs|Hs]; [|done].
  rewrite Forall_forall in Hp. specialize (Hp _ Hs). lia.
Qed.

Lemma StronglySorted_app_r {A} (R : A -> A -> Prop) l k : StronglySorted R (l ++ k) -> StronglySorted R k.
Proof. induction l as [|x l IH]; simpl; [done|]. intros H%StronglySorted_inv. tauto. Qed.

Lemma StronglySorted_snoc {A} (R : A -> A -> Prop) l x :
  StronglySorted R l -> Forall (fun y => R y x) l -> StronglySorted R (l ++ [x]).
Proof.
  induction 1 as [|y l Hl IH Hy]; intros Hx; simpl; [by repeat constructor|].
  apply Forall_cons in Hx as [Hx1 Hx2]. constructor; [by apply IH|].
  apply Forall_app. split; [done|by constructor].
Qed.

Lemma expire_inv T now st : token_inv T st -> T <= now -> token_inv now (expire now st).
Proof.
  intros [H1 H2 H3] HT. destruct (pop_expired_suffix now (_secrets st)) as (p & E & _).
  split; simpl; [done| |].
  - rewrite E in H2. by apply StronglySorted_app_r in H2.
  - rewrite E in H3. apply Forall_app in H3 as [_ H3]. eapply Forall_impl; [exact H3|].
    simpl. intros s [? ?]. split; [done|]. lia.
Qed.

Lemma expire_alive T now st :
  token_inv T st -> Forall (fun s => now <= expires s) (_secrets (expire now st)).
Proof.
  intros [_ H2 _]. simpl. induction H2 as [|s q Hq IH Hs]; simpl; [constructor|].
  destruct (Z.ltb_spec (expires s) now); [done|]. constructor; [done|].
  eapply Forall_impl; [exact Hs|]. simpl. intros; lia.
Qed.

(** [generate_token] returns a token made from a stored secret that stays valid
    for at least ten more minutes. *)
Lemma generate_token_secret T now a i st :
  token_inv T st -> T <= now -> 0 <= now ->
  let '(tok, st') := generate_token now a i st in
  token_inv now st' /\
  exists s, s ∈ _secrets st' /\ tok = Some (token_of s a i) /\
    now + seconds 600 <= expires s <= now + seconds TOKEN_VALIDITY_SECONDS.
Proof.
  intros HI HT Hnow. unfold generate_token.
  pose proof (expire_inv T now st HI HT) as HE. set (e := expire now st) in *.
  destruct HE as [E1 E2 E3].
  destruct (bool_decide (_secrets e = []) || _)%bool eqn:Ec.
  - split.
    + split; simpl; [done| |].
      * apply StronglySorted_snoc; [done|]. eapply Forall_impl; [exact E3|]. simpl. intros; lia.
      * apply Forall_app. split; [done|]. constructor; [|constructor]. simpl. lia.
    + eexists. split_and!; simpl; [apply elem_of_app; right; by left|by rewrite last_snoc| |].
      * simpl. unfold seconds, TOKEN_VALIDITY_SECONDS. lia.
      * simpl. lia.
  - apply orb_false_iff in Ec as [Ec1 Ec2]. apply bool_decide_eq_false in Ec1.
    rewrite E1 in Ec2. apply Z.ltb_ge in Ec2.
    destruct (last (_secrets e)) as [s|] eqn:El; [|by apply last_None in El].
    split; [done|]. exists s. simpl.
    assert (s ∈ _secrets e) as Hs.
    { apply last_Some in El as [l' ->]. apply elem_of_app. right. by left. }
    split_and!; [done|done| |]; rewrite Forall_forall in E3; specialize (E3 _ Hs); [|lia].
    unfold seconds, TOKEN_VALIDITY_SECONDS, SECRET_REFRESH_TIME_SECONDS in *. lia.
Qed.

Lemma apply_op_keeps s op st :
  s ∈ _secrets st -> op_time op <= expires s -> s ∈ _secrets (apply_op st op).
Proof.
  intros Hs Ht. destruct op as [now a i|now a i tok]; simpl in Ht |- *.
  - unfold generate_token. pose proof (pop_expired_keeps now _ s Hs Ht) as Hk.
    destruct (_ || _)%bool; simpl; [apply elem_of_app; by left|done].
  - by apply pop_expired_keeps.
Qed.

Lemma run_keeps s ops st :
  s ∈ _secrets st -> Forall (fun op => op_time op <= expires s) ops -> s ∈ _secrets (run ops st).
Proof.
  intros Hs Hops. revert st Hs. induction Hops as [|op ops Hop Hops IH]; intros st Hs; [done|].
  simpl. apply IH. by apply apply_op_keeps.
Qed.

(** Repeated requests at a time after the first five minutes of the clock. *)
Lemma generate_pushes now a i st :
  _last_generated st = 0 -> seconds SECRET_REFRESH_TIME_SECONDS < now ->
  _secrets (snd (generate_token now a i st)) =
  pop_expired now (_secrets st) ++
    [{| secret := to_string now ++ _salt st; expires := now + seconds TOKEN_VALIDITY_SECONDS |}].
Proof.
  intros Hl Hn. unfold generate_token. simpl. rewrite Hl.
  destruct (Z.ltb_spec (0 + seconds SECRET_REFRESH_TIME_SECONDS) now); [|lia].
  by rewrite orb_true_r.
Qed.

Lemma pop_expired_all now q : Forall (fun s => now <= expires s) q -> pop_expired now q = q.
Proof. intros H. destruct H as [|s q Hs _]; [done|]. simpl. by destruct (Z.ltb_spec (expires s) now); [lia|]. Qed.

(** *** Properties *)

(** a token handed out at time [now] is accepted for its address and target
    at every later time up to ten minutes, whatever tokens are generated and
    verified in between; and it was made from a secret that does not live longer
    than fifteen minutes. *)
Theorem token_stays_valid T now a i st ops later :
  token_inv T st -> T <= now -> 0 <= now ->
  Forall (fun op => op_time op <= now + seconds 600) ops -> later <= now + seconds 600 ->
  exists tok st', generate_token now a i st = (Some tok, st') /\
    fst (verify_token later a i tok (run ops st')) = true.
Proof.
  intros HI HT Hn Hops Hl.
  pose proof (generate_token_secret T now a i st HI HT Hn) as Hg.
  destruct (generate_token now a i st) as [tok st'] eqn:Eg.
  destruct Hg as (_ & s & Hs & -> & He). do 2 eexists. split; [done|]. simpl.
  apply existsb_exists. exists s. split; [|by apply bool_decide_eq_true].
  apply list_elem_of_In, pop_expired_keeps; [|lia]. apply run_keeps; [done|].
  eapply Forall_impl; [exact Hops|]. simpl. intros; lia.
Qed.

(** a verified token is the digest of a live secret, its address and its
    target: no secret is accepted once it has expired. *)
Theorem verified_token_is_live T now a i tok st :
  token_inv T st -> fst (verify_token now a i tok st) = true ->
  exists s, s ∈ _secrets st /\ now <= expires s /\
    tok = sha1 (secret s ++ addr_to_string a ++ i).
Proof.
  intros HI H. simpl in H. apply existsb_exists in H as (s & Hs & Ht).
  apply list_elem_of_In in Hs. apply bool_decide_eq_true in Ht.
  pose proof (expire_alive T now st HI) as Ha. rewrite Forall_forall in Ha.
  exists s. split_and!; [|by apply Ha|done].
  destruct (pop_expired_suffix now (_secrets st)) as (p & -> & _). apply elem_of_app. by right.
Qed.

(** [_last_generated] is never assigned, so after the first five minutes of
    the clock every request pushes a secret of its own instead of one every five
    minutes: [n] requests at one instant leave [n] secrets behind. *)
Theorem secrets_not_rate_limited now a i salt n :
  seconds SECRET_REFRESH_TIME_SECONDS < now ->
  length (_secrets (run (replicate n (Generate now a i)) (new_storage salt))) = n.
Proof.
  intros Hn.
  assert (forall st, _last_generated st = 0 -> Forall (fun s => now <= expires s) (_secrets st) ->
    length (_secrets (run (replicate n (Generate now a i)) st)) = (length (_secrets st) + n)%nat)
    as Hgen.
  { induction n as [|n IH]; intros st Hl Hst; cbn [replicate run foldl]; [lia|].
    pose proof (generate_pushes now a i st Hl Hn) as Hp. rewrite pop_expired_all in Hp by done.
    assert (_last_generated (apply_op st (Generate now a i)) = 0) as Hl'.
    { simpl. unfold generate_token. by destruct (_ || _)%bool. }
    fold (run (replicate n (Generate now a i)) (apply_op st (Generate now a i))).
    rewrite IH; [|done|].
    - cbn [apply_op]. rewrite Hp, length_app. simpl. lia.
    - cbn [apply_op]. rewrite Hp. apply Forall_app. split; [done|]. constructor; [|constructor].
      simpl. unfold seconds, TOKEN_VALIDITY_SECONDS. lia. }
  by rewrite Hgen.
Qed.
End Code.

(** A concrete digest for the witnesses: SHA-1's length, not its strength. *)
Definition toy_digest (s : list byte) : list byte := take 20 (rev s ++ replicate 20 Byte.x00).

Lemma token_stays_valid_witness :
  exists tok st',
    generate_token toy_digest address_bytes (seconds 1000) (IPv4 (str "abcd")) NodeID_max
      (new_storage (str "salt")) = (Some tok, st') /\
    fst (verify_token toy_digest address_bytes (seconds 1599) (IPv4 (str "abcd")) NodeID_max tok
           (run toy_digest address_bytes [Generate (seconds 1100) (IPv4 (str "abcd")) NodeID_zero] st')) = true.
Proof.
  apply (token_stays_valid toy_digest address_bytes 0 (seconds 1000) (IPv4 (str "abcd")) NodeID_max
    (new_storage (str "salt")) [Generate (seconds 1100) (IPv4 (str "abcd")) NodeID_zero] (seconds 1599)).
  - split; [reflexivity|constructor|constructor].
  - unfold seconds. lia.
  - unfold seconds. lia.
  - repeat constructor. unfold seconds. simpl. lia.
  - unfold seconds. lia.
Defined.

Lemma verified_token_is_live_witness :
  let st := {| _salt := []; _secrets := [{| secret := str "s"; expires := seconds 900 |}];
               _last_generated := 0 |} in
  exists s, s ∈ _secrets st /\ 5 <= expires s /\
    toy_digest (str "s" ++ str "abcd" ++ NodeID_zero)
    = toy_digest (secret s ++ address_bytes (IPv4 (str "abcd")) ++ NodeID_zero).
Proof.
  apply (verified_token_is_live toy_digest address_bytes 0 5 (IPv4 (str "abcd")) NodeID_zero).
  - split; [reflexivity| |]; repeat constructor; vm_compute; congruence.
  - vm_compute. reflexivity.
Defined.

Lemma secrets_not_rate_limited_witness :
  length (_secrets (run toy_digest address_bytes
    (replicate 50 (Generate (seconds 301) (IPv4 (str "abcd")) NodeID_zero)) (new_storage []))) = 50%nat.
Proof. apply secrets_not_rate_limited. vm_compute. reflexivity. Defined.

End Tokens.

(** ** Swarms *)

Module Swarms.

Definition ANNOUNCE_VALIDITY_SECONDS : Z := 3600 * 2.

Record Peer := { peer_endpoint : endpoint; last_seen : Z }.

Record Swarm := { _peers : list Peer; _peer_indices : gmap endpoint nat }.

Definition new_swarm : Swarm := {| _peers := []; _peer_indices := ∅ |}.

Definition add (now : Z) (ep : endpoint) (s : Swarm) : Swarm :=
  match _peer_indices s !! ep with
  | None =>
      {| _peers := _peers s ++ [{| peer_endpoint := ep; last_seen := now |}];
         _peer_indices := <[ep := length (_peers s)]> (_peer_indices s) |}
  | Some index =>
      {| _peers := alter (fun p => {| peer_endpoint := peer_endpoint p; last_seen := now |})
                     index (_peers s);
         _peer_indices := _peer_indices s |}
  end.

(** The two [std::swap]s: of the entries of the index map ([operator[]] of a
    missing key yields a zero) and of the peers. *)
Definition swap_peers (i j : nat) (s : Swarm) : Swarm :=
  match _peers s !! i, _peers s !! j with
  | Some pi, Some pj =>
      let m := _peer_indices s in
      let vi := default O (m !! peer_endpoint pi) in
      let vj := default O (m !! peer_endpoint pj) in
      {| _peers := <[i := pj]> (<[j := pi]> (_peers s));
         _peer_indices := <[peer_endpoint pi := vj]> (<[peer_endpoint pj := vi]> m) |}
  | _, _ => s
  end.

(** [Swarm::list]: [n] iterations left, at index [i]; [rand i] is the value
    [std::rand()] returns at iteration [i]. *)
Fixpoint list_loop (rand : nat -> nat) (n i : nat) (output : list endpoint) (s : Swarm)
    : list endpoint * Swarm :=
  match n with
  | O => (output, s)
  | S n' =>
      if (i <? length (_peers s))%nat then
        let target := (i + rand i mod (length (_peers s) - i))%nat in
        match _peers s !! target with
        | Some p =>
            list_loop rand n' (S i) (output ++ [peer_endpoint p])
              (if (target =? i)%nat then s else swap_peers target i s)
        | None => (output, s)
        end
      else (output, s)
  end.

Definition list_peers_of (rand : nat -> nat) (count : nat) (s : Swarm) : list endpoint * Swarm :=
  list_loop rand count 0 [] s.

Definition is_expired (now : Z) (p : Peer) : bool :=
  last_seen p + seconds ANNOUNCE_VALIDITY_SECONDS <? now.

(** The body of the loop of [Swarm::expire] that removes the peer at [i]. *)
Definition remove_peer (i : nat) (s : Swarm) : Swarm :=
  let replacement := (length (_peers s) - 1)%nat in
  let s := if (replacement =? i)%nat then s else swap_peers replacement i s in
  match _peers s !! replacement with
  | Some p => {| _peers := take replacement (_peers s);
                 _peer_indices := delete (peer_endpoint p) (_peer_indices s) |}
  | None => s
  end.

(** [Swarm::expire]: each iteration shortens the rest of the vector by one. *)
Fixpoint expire_loop (now : Z) (fuel i : nat) (s : Swarm) : option Swarm :=
  match _peers s !! i with
  | None => Some s
  | Some p =>
      match fuel with
      | O => None
      | S fuel' =>
          if is_expired now p then expire_loop now fuel' i (remove_peer i s)
          else expire_loop now fuel' (S i) s
      end
  end.

Definition expire (now : Z) (s : Swarm) : option Swarm :=
  expire_loop now (length (_peers s)) 0 s.

Definition empty (s : Swarm) : bool := bool_decide (_peers s = []).

(** *** The invariant: the index map inverts the vector *)

Definition swarm_ok (s : Swarm) : Prop :=
  forall ep i, _peer_indices s !! ep = Some i <->
               exists p, _peers s !! i = Some p /\ peer_endpoint p = ep.

Lemma swarm_ok_lookup s i p :
  swarm_ok s -> _peers s !! i = Some p -> _peer_indices s !! peer_endpoint p = Some i.
Proof. intros H Hp. apply H. eauto. Qed.

Lemma swarm_ok_inj s i j p q :
  swarm_ok s -> _peers s !! i = Some p -> _peers s !! j = Some q ->
  peer_endpoint p = peer_endpoint q -> i = j.
Proof.
  intros H Hp Hq E. apply (swarm_ok_lookup s) in Hp, Hq; [|done..]. rewrite E in Hp. congruence.
Qed.

Lemma new_swarm_ok : swarm_ok new_swarm.
Proof. intros ep i. simpl. rewrite lookup_empty. split; [done|]. by intros (p & Hp & _). Qed.

Lemma add_ok now ep s : swarm_ok s -> swarm_ok (add now ep s).
Proof.
  intros H. unfold add. destruct (_peer_indices s !! ep) as [index|] eqn:E; intros ep' i; simpl.
  - rewrite (H ep' i). split.
    + intros (p & Hp & <-). destruct (decide (i = index)) as [->|Hne].
      * rewrite list_lookup_alter_eq, Hp. simpl. eauto.
      * rewrite list_lookup_alter_ne by done. eauto.
    + intros (p & Hp & <-). destruct (decide (i = index)) as [->|Hne].
      * rewrite list_lookup_alter_eq in Hp. destruct (_peers s !! index); simplify_eq/=. eauto.
      * rewrite list_lookup_alter_ne in Hp by done. eauto.
  - assert (forall j p, _peers s !! j = Some p -> peer_endpoint p <> ep) as Hne.
    { intros j p Hp <-. apply (swarm_ok_lookup s) in Hp; [|done]. congruence. }
    rewrite lookup_insert. case_decide as Hd; [subst ep'|].
    + split.
      * intros [= <-]. rewrite lookup_app_r, Nat.sub_diag by lia. simpl. eauto.
      * intros (p & Hp & <-). apply lookup_app_Some in Hp as [Hp|[Hl Hp]].
        -- by apply Hne in Hp.
        -- f_equal. apply list_lookup_singleton_Some in Hp. lia.
    + rewrite (H ep' i). split; intros (p & Hp & <-); exists p; (split; [|done]).
      * by apply lookup_app_l_Some.
      * apply lookup_app_Some in Hp as [Hp|[Hl Hp]]; [done|].
        apply list_lookup_singleton_Some in Hp as [_ <-]. done.
Qed.

Lemma swap_lookup {A} (l : list A) i j x y k :
  l !! i = Some x -> l !! j = Some y ->
  <[i := y]> (<[j := x]> l) !! k =
  if decide (k = i) then Some y else if decide (k = j) then Some x else l !! k.
Proof.
  intros Hi Hj. pose proof (lookup_lt_Some _ _ _ Hi). pose proof (lookup_lt_Some _ _ _ Hj).
  destruct (decide (k = i)) as [->|].
  { rewrite list_lookup_insert_eq by (by rewrite length_insert). done. }
  rewrite list_lookup_insert_ne by done. destruct (decide (k = j)) as [->|].
  { by rewrite list_lookup_insert_eq. }
  by rewrite list_lookup_insert_ne.
Qed.

(** The transposition of two indices. *)
Definition transpose (i j k : nat) : nat :=
  if decide (k = i) then j else if decide (k = j) then i else k.

Lemma transpose_involutive i j k : transpose i j (transpose i j k) = k.
Proof. unfold transpose. repeat case_decide; congruence. Qed.

Lemma swap_peers_spec i j s pi pj :
  swarm_ok s -> _peers s !! i = Some pi -> _peers s !! j = Some pj ->
  (forall k, _peers (swap_peers i j s) !! k = _peers s !! transpose i j k) /\
  (forall ep, _peer_indices (swap_peers i j s) !! ep = transpose i j <$> _peer_indices s !! ep).
Proof.
  intros H Ei Ej. unfold swap_peers. rewrite Ei, Ej. simpl.
  pose proof (swarm_ok_lookup s i pi H Ei) as Mi. pose proof (swarm_ok_lookup s j pj H Ej) as Mj.
  rewrite Mi, Mj. simpl. split.
  - intros k. rewrite (swap_lookup _ i j pi pj k Ei Ej). unfold transpose. by repeat case_decide.
  - intros ep. rewrite !lookup_insert. unfold transpose.
    destruct (decide (peer_endpoint pi = ep)) as [<-|Hi].
    { rewrite Mi. simpl. by rewrite decide_True. }
    destruct (decide (peer_endpoint pj = ep)) as [<-|Hj].
    { rewrite Mj. simpl. repeat case_decide; congruence. }
    destruct (_peer_indices s !! ep) as [k|] eqn:Ek; [|done]. simpl.
    apply H in Ek as (p & Hp & <-). repeat case_decide; congruence.
Qed.

Lemma swap_peers_ok i j s : swarm_ok s -> swarm_ok (swap_peers i j s).
Proof.
  intros H. destruct (_peers s !! i) as [pi|] eqn:Ei; [|unfold swap_peers; by rewrite Ei].
  destruct (_peers s !! j) as [pj|] eqn:Ej; [|unfold swap_peers; by rewrite Ei, Ej].
  destruct (swap_peers_spec i j s pi pj H Ei Ej) as [Hp Hm]. intros ep k.
  rewrite Hp, Hm, <-(H ep (transpose i j k)).
  destruct (_peer_indices s !! ep) as [k'|]; simpl; [|done]. split; intros [= E]; f_equal.
  - by rewrite <-E, transpose_involutive.
  - by rewrite E, transpose_involutive.
Qed.

Lemma swap_peers_perm i j s : _peers (swap_peers i j s) ≡ₚ _peers s.
Proof.
  unfold swap_peers. destruct (_peers s !! i) as [pi|] eqn:Ei; [|done].
  destruct (_peers s !! j) as [pj|] eqn:Ej; [|done]. simpl.
  destruct (decide (i = j)) as [->|Hne].
  { assert (pi = pj) as -> by congruence. by rewrite list_insert_insert_eq, list_insert_id. }
  apply (Permutation_inj _ _). split; [by rewrite !length_insert|].
  exists (fun k => if decide (k = i) then j else if decide (k = j) then i else k). split.
  - intros a b. repeat case_decide; congruence.
  - intros k. rewrite (swap_lookup _ i j pi pj k Ei Ej). repeat case_decide; congruence.
Qed.

Lemma list_eq_take_S {A} (l k : list A) i x :
  take (S i) l = take (S i) k -> k !! i = Some x -> l !! i = Some x /\ take i l = take i k.
Proof.
  intros H Hk. split.
  - rewrite <-(lookup_take_lt l (S i)), H, lookup_take_lt by lia. done.
  - apply (f_equal (take i)) in H. by rewrite !take_take, Nat.min_l in H by lia.
Qed.

Lemma swap_take i t s p :
  (i <= t)%nat -> swarm_ok s -> _peers s !! t = Some p ->
  let s1 := if (t =? i)%nat then s else swap_peers t i s in
  swarm_ok s1 /\ _peers s1 ≡ₚ _peers s /\ _peers s1 !! i = Some p /\
  take i (_peers s1) = take i (_peers s).
Proof.
  intros Hit H Hp. cbv zeta. destruct (Nat.eqb_spec t i) as [->|Hne]; [done|].
  pose proof (lookup_lt_Some _ _ _ Hp) as Hlt.
  destruct (lookup_lt_is_Some_2 (_peers s) i) as [q Hq]; [lia|].
  destruct (swap_peers_spec t i s p q H Hp Hq) as [Hl _].
  split_and!; [by apply swap_peers_ok|apply swap_peers_perm| |].
  - rewrite Hl. unfold transpose. by rewrite decide_False, decide_True by lia.
  - apply list_eq. intros k. destruct (decide (k < i)%nat).
    + rewrite !lookup_take_lt, Hl by done. unfold transpose. by rewrite !decide_False by lia.
    + by rewrite !lookup_take_ge by lia.
Qed.

Lemma list_loop_spec rand n : forall i out s,
  swarm_ok s -> (i <= length (_peers s))%nat ->
  let '(out', s') := list_loop rand n i out s in
  swarm_ok s' /\ _peers s' ≡ₚ _peers s /\ take i (_peers s') = take i (_peers s) /\
  out' = out ++ map peer_endpoint (take (Nat.min n (length (_peers s) - i)) (drop i (_peers s'))).
Proof.
  induction n as [|n IH]; intros i out s H Hi; simpl; [by rewrite app_nil_r|].
  destruct (Nat.ltb_spec i (length (_peers s))) as [Hlt|Hge].
  2: { replace (length (_peers s) - i)%nat with O by lia. simpl. by rewrite app_nil_r. }
  set (t := (i + rand i mod (length (_peers s) - i))%nat).
  assert (i <= t < length (_peers s))%nat as Ht.
  { pose proof (Nat.mod_upper_bound (rand i) (length (_peers s) - i)). lia. }
  destruct (lookup_lt_is_Some_2 (_peers s) t) as [p Hp]; [lia|]. rewrite Hp.
  destruct (swap_take i t s p) as (H1 & Hperm & Hpi & Htk); [lia|done|done|].
  set (s1 := if (t =? i)%nat then s else swap_peers t i s) in *.
  assert (length (_peers s1) = length (_peers s)) as Hlen by (by rewrite Hperm).
  specialize (IH (S i) (out ++ [peer_endpoint p]) s1 H1 ltac:(lia)).
  destruct (list_loop rand n (S i) (out ++ [peer_endpoint p]) s1) as [out' s'].
  destruct IH as (I1 & I2 & I3 & I4). destruct (list_eq_take_S _ _ _ _ I3 Hpi) as [Hpi' Htk'].
  split_and!; [done|by rewrite I2|congruence|].
  rewrite I4, Hlen, (drop_S _ _ _ Hpi'), <-app_assoc.
  replace (length (_peers s) - i)%nat with (S (length (_peers s) - S i)) by lia. done.
Qed.

Lemma swarm_ok_drop_last s l p :
  swarm_ok s -> _peers s = l ++ [p] ->
  swarm_ok {| _peers := l; _peer_indices := delete (peer_endpoint p) (_peer_indices s) |}.
Proof.
  intros H E ep i. simpl.
  assert (_peers s !! length l = Some p) as Hp by (rewrite E; by apply list_lookup_middle).
  rewrite lookup_delete. case_decide as Hd.
  - subst ep. split; [done|]. intros (q & Hq & Eq).
    pose proof (lookup_lt_Some _ _ _ Hq) as Hlt.
    assert (_peers s !! i = Some q) as Hq' by (rewrite E; by rewrite lookup_app_l).
    pose proof (swarm_ok_inj s i (length l) q p H Hq' Hp Eq). lia.
  - rewrite (H ep i), E. split; intros (q & Hq & <-); exists q; (split; [|done]).
    + apply lookup_app_Some in Hq as [Hq|[_ Hq]]; [done|].
      apply list_lookup_singleton_Some in Hq as [_ <-]. done.
    + by apply lookup_app_l_Some.
Qed.

Lemma take_drop_last {A} (l : list A) x :
  l !! (length l - 1)%nat = Some x -> l = take (length l - 1) l ++ [x].
Proof.
  intros H. pose proof (lookup_lt_Some _ _ _ H) as Hl.
  rewrite <-(take_drop (length l - 1) l) at 1. f_equal.
  rewrite (drop_S _ _ _ H). f_equal. apply drop_ge. lia.
Qed.

Lemma remove_peer_spec i s p :
  swarm_ok s -> _peers s !! i = Some p ->
  swarm_ok (remove_peer i s) /\ _peers s ≡ₚ p :: _peers (remove_peer i s) /\
  take i (_peers (remove_peer i s)) = take i (_peers s).
Proof.
  intros H Hp. pose proof (lookup_lt_Some _ _ _ Hp) as Hlt. unfold remove_peer.
  set (r := (length (_peers s) - 1)%nat).
  set (s1 := if (r =? i)%nat then s else swap_peers r i s).
  assert (swarm_ok s1 /\ _peers s1 ≡ₚ _peers s /\ _peers s1 !! r = Some p /\
          take i (_peers s1) = take i (_peers s)) as (H1 & Hperm & Hr & Htk).
  { unfold s1. destruct (Nat.eqb_spec r i) as [Eq|Hne]; [by rewrite Eq|].
    destruct (lookup_lt_is_Some_2 (_peers s) r) as [q Hq]; [lia|].
    destruct (swap_peers_spec r i s q p H Hq Hp) as [Hl _].
    split_and!; [by apply swap_peers_ok|apply swap_peers_perm| |].
    - rewrite Hl. unfold transpose. by rewrite decide_True.
    - apply list_eq. intros k. destruct (decide (k < i)%nat).
      + rewrite !lookup_take_lt, Hl by done. unfold transpose. by rewrite !decide_False by lia.
      + by rewrite !lookup_take_ge by lia. }
  rewrite Hr. simpl.
  assert (length (_peers s1) = length (_peers s)) as Hlen by (by rewrite Hperm).
  assert (_peers s1 = take r (_peers s1) ++ [p]) as E1.
  { unfold r in *. rewrite <-Hlen in Hr |- *. by apply take_drop_last. }
  split_and!.
  - by apply swarm_ok_drop_last.
  - rewrite <-Hperm, E1 at 1. by rewrite <-Permutation_cons_append.
  - rewrite take_take, Nat.min_l by lia. done.
Qed.

Definition alive (now : Z) (p : Peer) : bool := negb (is_expired now p).

Lemma expire_loop_spec now fuel : forall i s,
  swarm_ok s -> (length (_peers s) - i <= fuel)%nat ->
  Forall (fun p => alive now p = true) (take i (_peers s)) ->
  exists s', expire_loop now fuel i s = Some s' /\ swarm_ok s' /\
    _peers s' ≡ₚ List.filter (alive now) (_peers s).
Proof.
  induction fuel as [|fuel IH]; intros i s H Hf Ha; simpl;
    destruct (_peers s !! i) as [p|] eqn:Ep.
  1: pose proof (lookup_lt_Some _ _ _ Ep); lia.
  1,3: exists s; split_and!; [done|done|]; apply lookup_ge_None in Ep; rewrite take_ge in Ha by lia;
    rewrite filter_all; done.
  destruct (is_expired now p) eqn:Ex.
  - destruct (remove_peer_spec i s p H Ep) as (R1 & R2 & R3).
    pose proof (lookup_lt_Some _ _ _ Ep).
    assert (length (_peers s) = S (length (_peers (remove_peer i s)))) as Hl by (by rewrite R2 at 1).
    destruct (IH i (remove_peer i s)) as (s' & E & O & P); [done|lia|by rewrite R3|].
    exists s'. split_and!; [done|done|]. rewrite P, R2. simpl. unfold alive at 2. by rewrite Ex.
  - apply IH; [done|lia|]. rewrite (take_S_r _ _ _ Ep). apply Forall_app. split; [done|].
    constructor; [|constructor]. unfold alive. by rewrite Ex.
Qed.

(** *** The abstract swarm: when each endpoint was last announced *)

Definition abs (s : Swarm) : gmap endpoint Z :=
  omap (fun i => last_seen <$> (_peers s !! i)) (_peer_indices s).

Lemma abs_lookup s ep t :
  swarm_ok s ->
  abs s !! ep = Some t <-> exists p, p ∈ _peers s /\ peer_endpoint p = ep /\ last_seen p = t.
Proof.
  intros H. unfold abs. rewrite lookup_omap. split.
  - intros (i & Hi & Hl)%bind_Some. apply H in Hi as (p & Hp & <-). rewrite Hp in Hl.
    simplify_eq/=. exists p. split_and!; [by eapply list_elem_of_lookup_2|done|done].
  - intros (p & Hp & <- & <-). apply list_elem_of_lookup in Hp as [i Hi].
    rewrite (swarm_ok_lookup s i p H Hi). simpl. by rewrite Hi.
Qed.

Lemma abs_perm s s' : swarm_ok s -> swarm_ok s' -> _peers s' ≡ₚ _peers s -> abs s' = abs s.
Proof.
  intros H H' Hp. apply map_eq. intros ep. apply option_eq. intros t.
  rewrite !abs_lookup by done. by setoid_rewrite Hp.
Qed.

Lemma swarm_ok_NoDup s : swarm_ok s -> NoDup (map peer_endpoint (_peers s)).
Proof.
  intros H. apply NoDup_alt. intros i j ep Hi Hj.
  apply list_lookup_fmap_Some in Hi as (p & -> & Hi), Hj as (q & E & Hj).
  by eapply swarm_ok_inj.
Qed.

Lemma abs_add now ep s : swarm_ok s -> abs (add now ep s) = <[ep := now]> (abs s).
Proof.
  intros H. apply map_eq. intros ep'. apply option_eq. intros t.
  rewrite (abs_lookup _ _ _ (add_ok now ep s H)). rewrite lookup_insert.
  destruct (_peer_indices s !! ep) as [index|] eqn:E; unfold add; rewrite E; simpl.
  - pose proof E as E'. apply H in E' as (q & Hq & Eq). case_decide as Hd.
    + subst ep'. split.
      * intros (p & Hp & Ep & <-). apply list_elem_of_lookup in Hp as [i Hi].
        destruct (decide (i = index)) as [->|Hne].
        -- rewrite list_lookup_alter_eq, Hq in Hi. by simplify_eq/=.
        -- rewrite list_lookup_alter_ne in Hi by done.
           destruct Hne. eapply (swarm_ok_inj s i index p q); [done..|congruence].
      * intros [= <-]. exists {| peer_endpoint := peer_endpoint q; last_seen := now |}.
        split_and!; [|done|done]. eapply list_elem_of_lookup_2.
        by rewrite list_lookup_alter_eq, Hq.
    + rewrite abs_lookup by done. split; intros (p & Hp & <- & <-); exists p;
        (split_and!; [|done|done]); apply list_elem_of_lookup in Hp as [i Hi];
        apply (list_elem_of_lookup_2 _ i).
      * destruct (decide (i = index)) as [->|Hne]; [|by rewrite list_lookup_alter_ne in Hi].
        rewrite list_lookup_alter_eq, Hq in Hi. by simplify_eq/=.
      * destruct (decide (i = index)) as [->|Hne]; [|by rewrite list_lookup_alter_ne].
        congruence.
  - assert (forall p, p ∈ _peers s -> peer_endpoint p <> ep) as Hne.
    { intros p [i Hi]%list_elem_of_lookup <-. by rewrite (swarm_ok_lookup s i p H Hi) in E. }
    setoid_rewrite elem_of_app. setoid_rewrite list_elem_of_singleton. case_decide as Hd.
    + subst ep'. split.
      * intros (p & [Hp| ->] & Ep & <-); [by destruct (Hne p)|done].
      * intros [= <-]. eauto.
    + rewrite abs_lookup by done. split.
      * intros (p & [Hp| ->] & <- & <-); [eauto|done].
      * intros (p & Hp & <- & <-). eauto 6.
Qed.

Lemma abs_expire now s s' :
  swarm_ok s -> swarm_ok s' -> _peers s' ≡ₚ List.filter (alive now) (_peers s) ->
  forall ep t, abs s' !! ep = Some t <->
               abs s !! ep = Some t /\ now <= t + seconds ANNOUNCE_VALIDITY_SECONDS.
Proof.
  intros H H' Hp ep t. rewrite !abs_lookup by done. setoid_rewrite Hp.
  setoid_rewrite list_elem_of_In. setoid_rewrite filter_In.
  unfold alive, is_expired. setoid_rewrite negb_true_iff. setoid_rewrite Z.ltb_ge.
  split.
  - intros (p & [Hin Ha] & <- & <-). eauto 6.
  - intros [(p & Hin & <- & <-) Ha]. eauto 6.
Qed.

Lemma expire_spec now s :
  swarm_ok s -> exists s', expire now s = Some s' /\ swarm_ok s' /\
    _peers s' ≡ₚ List.filter (alive now) (_peers s).
Proof. intros H. apply expire_loop_spec; [done|lia|rewrite take_0; constructor]. Qed.

Lemma list_peers_of_spec rand count s :
  swarm_ok s ->
  let '(out, s') := list_peers_of rand count s in
  swarm_ok s' /\ abs s' = abs s /\
  out ⊆+ map peer_endpoint (_peers s) /\ length out = Nat.min count (length (_peers s)).
Proof.
  intros H. unfold list_peers_of. pose proof (list_loop_spec rand count 0 [] s H ltac:(lia)) as L.
  destruct (list_loop rand count 0 [] s) as [out s']. destruct L as (H' & Hp & _ & E).
  cbn [app drop] in E. rewrite Nat.sub_0_r in E.
  assert (length (_peers s') = length (_peers s)) as Hl by (by rewrite Hp).
  split_and!; [done|by apply abs_perm| |].
  - assert (map peer_endpoint (_peers s') ≡ₚ map peer_endpoint (_peers s)) as <-
      by (by apply Permutation_map).
    rewrite E, drop_0, <-firstn_map. apply submseteq_take.
  - rewrite E, length_map, length_take, drop_0. lia.
Qed.

End Swarms.

(** ** The tracker *)

Module Tracker.
Import Swarms.

Abbreviation Swarms := (gmap (list byte) Swarm).

Definition add_peer (now : Z) (swarm : list byte) (ep : endpoint) (t : Swarms) : Swarms :=
  let t := match t !! swarm with None => <[swarm := new_swarm]> t | Some _ => t end in
  match t !! swarm with
  | Some s => <[swarm := add now ep s]> t
  | None => t
  end.

Definition list_peers (rand : nat -> nat) (swarm : list byte) (count : nat) (t : Swarms)
    : list endpoint * Swarms :=
  match t !! swarm with
  | Some s => let '(out, s') := list_peers_of rand count s in (out, <[swarm := s']> t)
  | None => ([], t)
  end.

(** The loop of the periodic task over the swarms still to visit. *)
Fixpoint expire_swarms (now : Z) (keys : list (list byte)) (t : Swarms) : option Swarms :=
  match keys with
  | [] => Some t
  | k :: keys' =>
      match t !! k with
      | None => expire_swarms now keys' t
      | Some s =>
          let? s' := expire now s in
          expire_swarms now keys' (if empty s' then delete k t else <[k := s']> t)
      end
  end.

Definition tick (now : Z) (t : Swarms) : option Swarms :=
  expire_swarms now (map fst (map_to_list t)) t.

(** One request at the tracker, or one round of its periodic task. *)
Inductive request :=
  | AddPeer (swarm : list byte) (ep : endpoint)
  | ListPeers (swarm : list byte) (count : nat) (rand : nat -> nat)
  | Tick.

Definition step (now : Z) (r : request) (t : Swarms) : option (list endpoint * Swarms) :=
  match r with
  | AddPeer swarm ep => Some ([], add_peer now swarm ep t)
  | ListPeers swarm count rand => Some (list_peers rand swarm count t)
  | Tick => let? t' := tick now t in Some ([], t')
  end.

Fixpoint run (rs : list (Z * request)) (t : Swarms) : option (list (list endpoint) * Swarms) :=
  match rs with
  | [] => Some ([], t)
  | (now, r) :: rs' =>
      let? (out, t1) := step now r t in
      let? (outs, t2) := run rs' t1 in
      Some (out :: outs, t2)
  end.

(** *** The contract: a map from swarm and endpoint to the last announcement *)

Abbreviation announcements := (gmap (list byte * endpoint) Z).

Definition peers_of (m : announcements) (swarm : list byte) (eps : list endpoint) : Prop :=
  NoDup eps /\ forall ep, ep ∈ eps <-> is_Some (m !! (swarm, ep)).

Inductive spec_step (now : Z) (m : announcements) : request -> list endpoint -> announcements -> Prop :=
  | spec_add swarm ep :
      spec_step now m (AddPeer swarm ep) [] (<[(swarm, ep) := now]> m)
  | spec_list swarm count rand all out :
      peers_of m swarm all -> out ⊆+ all -> length out = Nat.min count (length all) ->
      spec_step now m (ListPeers swarm count rand) out m
  | spec_tick m' :
      (forall k t, m' !! k = Some t <->
         m !! k = Some t /\ now <= t + seconds ANNOUNCE_VALIDITY_SECONDS) ->
      spec_step now m Tick [] m'.

Inductive spec_run (m : announcements) : list (Z * request) -> list (list endpoint) -> announcements -> Prop :=
  | spec_done : spec_run m [] [] m
  | spec_next now r rs out outs m1 m2 :
      spec_step now m r out m1 -> spec_run m1 rs outs m2 ->
      spec_run m ((now, r) :: rs) (out :: outs) m2.

Definition tracker_ok (t : Swarms) : Prop := map_Forall (fun _ s => swarm_ok s) t.

Definition abs_tracker (t : Swarms) : announcements := map_uncurry (abs <$> t).

Lemma abs_tracker_lookup t swarm ep :
  abs_tracker t !! (swarm, ep) = t !! swarm ≫= fun s => abs s !! ep.
Proof.
  unfold abs_tracker. rewrite lookup_map_uncurry, lookup_fmap. by destruct (t !! swarm).
Qed.

Lemma abs_tracker_insert t swarm s s' :
  t !! swarm = Some s -> abs s' = abs s -> abs_tracker (<[swarm := s']> t) = abs_tracker t.
Proof.
  intros H E. unfold abs_tracker. f_equal. rewrite fmap_insert, E. apply insert_id.
  by rewrite lookup_fmap, H.
Qed.

Lemma tracker_ok_lookup t k s : tracker_ok t -> t !! k = Some s -> swarm_ok s.
Proof. intros H. apply (map_Forall_lookup_1 _ _ _ _ H). Qed.

Lemma add_peer_spec now swarm ep t :
  tracker_ok t ->
  tracker_ok (add_peer now swarm ep t) /\
  abs_tracker (add_peer now swarm ep t) = <[(swarm, ep) := now]> (abs_tracker t).
Proof.
  intros H. set (s := default new_swarm (t !! swarm)).
  assert (swarm_ok s) as Hs.
  { unfold s. destruct (t !! swarm) eqn:E; [by eapply tracker_ok_lookup|apply new_swarm_ok]. }
  assert (add_peer now swarm ep t = <[swarm := add now ep s]> t) as ->.
  { unfold add_peer, s. destruct (t !! swarm) as [s0|] eqn:E; [by rewrite E|].
    rewrite lookup_insert_eq. by rewrite insert_insert_eq. }
  split; [apply map_Forall_insert_2; [by apply add_ok|done]|].
  apply map_eq. intros [k ep']. rewrite abs_tracker_lookup, !lookup_insert.
  destruct (decide (swarm = k)) as [<-|Hne].
  - simpl. rewrite (abs_add now ep s Hs), lookup_insert.
    destruct (decide (ep = ep')) as [<-|Hne]; [by rewrite decide_True|].
    rewrite decide_False by congruence. rewrite abs_tracker_lookup. unfold s.
    by destruct (t !! swarm).
  - rewrite decide_False by congruence. by rewrite abs_tracker_lookup.
Qed.

Lemma list_peers_spec rand swarm count t :
  tracker_ok t ->
  let '(out, t') := list_peers rand swarm count t in
  tracker_ok t' /\ abs_tracker t' = abs_tracker t /\
  exists all, peers_of (abs_tracker t) swarm all /\ out ⊆+ all /\
    length out = Nat.min count (length all).
Proof.
  intros H. unfold list_peers. destruct (t !! swarm) as [s|] eqn:E.
  - pose proof (tracker_ok_lookup _ _ _ H E) as Hs.
    pose proof (list_peers_of_spec rand count s Hs) as L.
    destruct (list_peers_of rand count s) as [out s']. destruct L as (H' & Ha & Hsub & Hlen).
    split_and!; [by apply map_Forall_insert_2|by eapply abs_tracker_insert|].
    exists (map peer_endpoint (_peers s)). split_and!; [|done|by rewrite length_map].
    split; [by apply swarm_ok_NoDup|]. intros ep. rewrite abs_tracker_lookup, E. simpl.
    unfold is_Some. setoid_rewrite (abs_lookup s ep _ Hs). rewrite list_elem_of_fmap. naive_solver.
  - split_and!; [done|done|]. exists []. split_and!; [|done|by rewrite Nat.min_0_r].
    split; [constructor|]. intros ep. rewrite abs_tracker_lookup, E. simpl. split; [by intros ?%elem_of_nil|].
    by intros [? ?].
Qed.

Lemma expire_swarms_spec now keys : forall t,
  NoDup keys -> tracker_ok t ->
  exists t', expire_swarms now keys t = Some t' /\ tracker_ok t' /\
    forall k, if decide (k ∈ keys)
      then t' !! k = t !! k ≫= (fun s => expire now s ≫= fun s' => if empty s' then None else Some s')
      else t' !! k = t !! k.
Proof.
  induction keys as [|k keys IH]; intros t Hnd H; [exists t; by split_and!|].
  apply NoDup_cons in Hnd as [Hk Hnd]. cbn [expire_swarms].
  destruct (t !! k) as [s|] eqn:E.
  - destruct (expire_spec now s) as (s' & Es & Hs' & _); [by eapply tracker_ok_lookup|].
    rewrite Es. set (t1 := if empty s' then _ else _).
    assert (tracker_ok t1) as H1.
    { unfold t1. destruct (empty s'); [by apply map_Forall_delete|by apply map_Forall_insert_2]. }
    destruct (IH t1 Hnd H1) as (t' & Et & Ht' & Hl). exists t'. split_and!; [done|done|].
    intros k'. specialize (Hl k'). destruct (decide (k' = k)) as [->|Hne].
    + rewrite decide_False in Hl by done. rewrite decide_True by (by left).
      rewrite Hl, E. simpl. rewrite Es. simpl. unfold t1.
      destruct (empty s'); [apply lookup_delete_eq|apply lookup_insert_eq].
    + assert (t1 !! k' = t !! k') as E1.
      { unfold t1. destruct (empty s'); [by rewrite lookup_delete_ne|by rewrite lookup_insert_ne]. }
      rewrite E1 in Hl. destruct (decide (k' ∈ keys)).
      * by rewrite decide_True by (by right).
      * rewrite decide_False; [done|]. by intros [->|?]%elem_of_cons.
  - destruct (IH t Hnd H) as (t' & Et & Ht' & Hl). exists t'. split_and!; [done|done|].
    intros k'. specialize (Hl k'). destruct (decide (k' = k)) as [->|Hne].
    + rewrite decide_False in Hl by done. rewrite decide_True by (by left). by rewrite Hl, E.
    + destruct (decide (k' ∈ keys)).
      * by rewrite decide_True by (by right).
      * rewrite decide_False; [done|]. by intros [->|?]%elem_of_cons.
Qed.

(** A round of the task expires every swarm and keeps the non-empty ones. *)
Lemma tick_lookup now t :
  tracker_ok t ->
  exists t', tick now t = Some t' /\ tracker_ok t' /\
    forall k, t' !! k = t !! k ≫= (fun s => expire now s ≫= fun s' => if empty s' then None else Some s').
Proof.
  intros H. destruct (expire_swarms_spec now (map fst (map_to_list t)) t) as (t' & E & H' & Hl);
    [apply NoDup_fst_map_to_list|done|].
  exists t'. split_and!; [done|done|]. intros k. specialize (Hl k).
  destruct (decide (k ∈ map fst (map_to_list t))) as [|Hn]; [done|].
  rewrite Hl. destruct (t !! k) as [s|] eqn:Ek; [|done]. destruct Hn.
  apply list_elem_of_fmap. exists (k, s). split; [done|]. by apply elem_of_map_to_list.
Qed.

Lemma tick_spec now t :
  tracker_ok t ->
  exists t', tick now t = Some t' /\ tracker_ok t' /\
    (forall k u, abs_tracker t' !! k = Some u <->
       abs_tracker t !! k = Some u /\ now <= u + seconds ANNOUNCE_VALIDITY_SECONDS) /\
    (forall swarm s, t' !! swarm = Some s -> _peers s <> []).
Proof.
  intros H. destruct (tick_lookup now t H) as (t' & E & H' & Hl).
  exists t'. split_and!; [done|done| |].
  - intros [k ep] u. rewrite !abs_tracker_lookup, Hl. destruct (t !! k) as [s|] eqn:Ek; [|naive_solver].
    pose proof (tracker_ok_lookup _ _ _ H Ek) as Hs. simpl.
    destruct (expire_spec now s Hs) as (s' & Es & Hs' & Hp). rewrite Es. simpl.
    rewrite <-(abs_expire now s s' Hs Hs' Hp). unfold empty. case_bool_decide as Hempty; [|done].
    simpl. rewrite (abs_lookup s' ep u Hs'), Hempty. split; [done|]. by intros (p & ?%elem_of_nil & _).
  - intros swarm s. rewrite Hl. intros (s0 & _ & (s1 & _ & Hs)%bind_Some)%bind_Some.
    unfold empty in Hs. case_bool_decide; by simplify_eq.
Qed.

Lemma step_refines now r t :
  tracker_ok t ->
  exists out t', step now r t = Some (out, t') /\ tracker_ok t' /\
    spec_step now (abs_tracker t) r out (abs_tracker t').
Proof.
  intros H. destruct r as [swarm ep|swarm count rand|]; simpl.
  - destruct (add_peer_spec now swarm ep t H) as [H' E]. do 2 eexists. split_and!; [done..|].
    rewrite E. constructor.
  - pose proof (list_peers_spec rand swarm count t H) as L.
    destruct (list_peers rand swarm count t) as [out t']. destruct L as (H' & E & all & Ha & Hs & Hl).
    do 2 eexists. split_and!; [done..|]. rewrite E. by econstructor.
  - destruct (tick_spec now t H) as (t' & E & H' & Hk & _). rewrite E. do 2 eexists.
    split_and!; [done..|]. by constructor.
Qed.

Lemma tracker_ok_empty : tracker_ok ∅.
Proof. apply map_Forall_empty. Qed.

Lemma run_refines rs : forall t,
  tracker_ok t ->
  exists outs t', run rs t = Some (outs, t') /\ tracker_ok t' /\
    spec_run (abs_tracker t) rs outs (abs_tracker t').
Proof.
  induction rs as [|[now r] rs IH]; intros t H; simpl.
  - do 2 eexists. split_and!; [done..|constructor].
  - destruct (step_refines now r t H) as (out & t1 & E & H1 & S1). rewrite E.
    destruct (IH t1 H1) as (outs & t2 & E2 & H2 & S2). rewrite E2. do 2 eexists.
    split_and!; [done..|]. by econstructor.
Qed.

(** C26: the tracker, started empty and driven by any sequence of announcements,
    listings and rounds of its periodic task, always answers, and its answers
    and state are those of a map from swarm and endpoint to the time of the last
    announcement: an announcement sets the time, a listing returns the requested
    number of distinct announced endpoints of the swarm (all of them if there are
    fewer), a round removes exactly the announcements older than two hours. *)
Theorem tracker_refines (rs : list (Z * request)) :
  exists outs t, run rs ∅ = Some (outs, t) /\ tracker_ok t /\ spec_run ∅ rs outs (abs_tracker t).
Proof.
  assert (abs_tracker ∅ = ∅) as <-.
  { apply map_eq. intros [k ep]. by rewrite abs_tracker_lookup, !lookup_empty. }
  apply run_refines, tracker_ok_empty.
Qed.

End Tracker.
