(* ===== verification/Crypto.v ===== *)
(** * Signatures: the interface of src/util/sign.h

    The keys wrap OpenSSL's Ed25519; the code relies on the sizes of the byte
    arrays it declares and on a signature being accepted by the key that made it.
    Clients are proved against this interface. *)
From S2P Require Import Prelude.

Class SignatureScheme := {
  SecretKey : Type;
  public_key_of : SecretKey -> list byte;
  sign_message : SecretKey -> list byte -> list byte;
  verify_message : list byte -> list byte -> list byte -> bool;
}.

Definition PublicKey_size : nat := 32.
Definition Signature_size : nat := 64.

Class SignatureLaws (S : SignatureScheme) : Prop := {
  public_key_size sk : length (public_key_of sk) = PublicKey_size;
  signature_size sk m : length (sign_message sk m) = Signature_size;
  verify_sign sk m : verify_message (public_key_of sk) m (sign_message sk m) = true;
}.

#[export] Hint Resolve public_key_size signature_size verify_sign : ou.

(** A scheme for evaluating examples: the "signature" is a prefix of the key and
    the message. *)
Definition pad (n : nat) (s : list byte) : list byte := take n (s ++ replicate n Byte.x00).

Lemma pad_length n s : length (pad n s) = n.
Proof. unfold pad. rewrite length_take, length_app, length_replicate. lia. Qed.

#[local] Instance toy_scheme : SignatureScheme := {|
  SecretKey := list byte;
  public_key_of := pad PublicKey_size;
  sign_message sk m := pad Signature_size (pad PublicKey_size sk ++ m);
  verify_message pk m sig := bool_decide (sig = pad Signature_size (pk ++ m));
|}.

#[local] Instance toy_scheme_laws : SignatureLaws toy_scheme.
Proof.
  split; intros; simpl; [apply pad_length|apply pad_length|]. by apply bool_decide_true.
Qed.
