(* ===== verification/MutableData.v ===== *)
(** * Signed mutable items: src/bittorrent/mutable_data.h and .cpp

    BEP 44 items: the buffer that is signed, signing, verification and the
    bencoded form of an item.  A thrown [std::length_error] is [None] in the
    outer option of the result. *)
From S2P Require Import Prelude Number Bencoding Crypto.

Record MutableDataItem := {
  public_key : list byte;
  salt : list byte;
  value : BencodedValue;
  sequence_number : Z;
  signature : list byte;
}.

Definition mutable_data_signature_buffer (data : BencodedValue) (salt : list byte) (seq : Z)
    : option (list byte) :=
  let encoded_data := bencoding_encode data in
  if (1000 <? length encoded_data)%nat then None else
  Some ((match salt with
         | [] => []
         | _ => str "4:salt" ++ to_string (Z.of_nat (length salt)) ++ str ":" ++ salt
         end) ++ str "3:seqi" ++ to_string seq ++ str "e1:v" ++ encoded_data).

Section Code.
Context `{SignatureScheme}.

Definition sign (v : BencodedValue) (seq : Z) (salt : list byte) (sk : SecretKey)
    : option MutableDataItem :=
  let? buffer := mutable_data_signature_buffer v salt seq in
  Some {| public_key := public_key_of sk; salt := salt; value := v;
          sequence_number := seq; signature := sign_message sk buffer |}.

Definition verify (item : MutableDataItem) : option bool :=
  let? buffer := mutable_data_signature_buffer (value item) (salt item) (sequence_number item) in
  Some (verify_message (public_key item) buffer (signature item)).

Definition bencode (item : MutableDataItem) : list byte :=
  bencoding_encode (BMap
    [ (str "k", BStr (public_key item));
      (str "salt", BStr (salt item));
      (str "seq", BInt (sequence_number item));
      (str "sig", BStr (signature item));
      (str "v", value item) ]).

(** The fields read inside the [try] block: [at] and [value] throw on a missing
    key or a value of another type, which the handler turns into [none]. *)
Definition item_of_map (m : BencodedMap) : option MutableDataItem :=
  let? k := map_find m (str "k") ≫= as_string in
  if negb (length k =? PublicKey_size)%nat then None else
  let? salt := map_find m (str "salt") ≫= as_string in
  let? v := map_find m (str "v") in
  let? seq := map_find m (str "seq") ≫= as_int in
  let? sig := map_find m (str "sig") ≫= as_string in
  if negb (length sig =? Signature_size)%nat then None else
  Some {| public_key := k; salt := salt; value := v; sequence_number := seq; signature := sig |}.

(** The call of [verify] is outside the [try] block. *)
Definition bdecode (s : list byte) : option (option MutableDataItem) :=
  match bencoding_decode s ≫= as_map with
  | None => Some None
  | Some m =>
      match item_of_map m with
      | None => Some None
      | Some item =>
          let? ok := verify item in
          Some (if ok then Some item else None)
      end
  end.

End Code.

(** ** What the signature covers *)

Lemma salt_field (salt : list byte) :
  str "4:salt" ++ to_string (Z.of_nat (length salt)) ++ str ":" ++ salt
  = encode_string (str "salt") ++ encode_string salt.
Proof. done. Qed.

Lemma seq_field seq rest :
  str "3:seqi" ++ to_string seq ++ str "e1:v" ++ rest
  = encode_string (str "seq") ++ str "i" ++ to_string seq ++ str "e" ++ encode_string (str "v") ++ rest.
Proof. done. Qed.

Lemma encode_string_app_inj s1 s2 r1 r2 :
  is_short s1 -> is_short s2 ->
  encode_string s1 ++ r1 = encode_string s2 ++ r2 -> s1 = s2 /\ r1 = r2.
Proof.
  intros H1 H2 E. apply (f_equal destructive_parse_string) in E.
  rewrite !parse_string_encode in E by done. by simplify_eq.
Qed.

Lemma to_string_app_inj z1 z2 r1 r2 :
  is_int64 z1 -> is_int64 z2 -> no_digit r1 -> no_digit r2 ->
  to_string z1 ++ r1 = to_string z2 ++ r2 -> z1 = z2 /\ r1 = r2.
Proof.
  intros H1 H2 D1 D2 E. apply (f_equal destructive_parse_int) in E.
  rewrite !parse_int_to_string in E by done. by simplify_eq.
Qed.

Lemma encode_inj v w :
  wf_value v -> wf_value w -> nesting v <= depth_limit -> nesting w <= depth_limit ->
  bencoding_encode v = bencoding_encode w -> v = w.
Proof.
  intros Hv Hw Nv Nw E.
  pose proof (decode_encode v [] Hv Nv) as Dv. pose proof (decode_encode w [] Hw Nw) as Dw.
  rewrite app_nil_r in Dv, Dw. congruence.
Qed.

(** The fields of an item that a node can hold. *)
Record item_ok (salt : list byte) (seq : Z) (v : BencodedValue) : Prop := {
  ok_salt : is_short salt;
  ok_seq : is_int64 seq;
  ok_value : wf_value v;
  ok_nesting : nesting v <= depth_limit;
}.

Lemma seq_value_inj n1 n2 v1 v2 :
  item_ok [] n1 v1 -> item_ok [] n2 v2 ->
  to_string n1 ++ str "e1:v" ++ bencoding_encode v1 = to_string n2 ++ str "e1:v" ++ bencoding_encode v2 ->
  n1 = n2 /\ v1 = v2.
Proof.
  intros [] [] E. apply to_string_app_inj in E as [-> E]; [|done..].
  split; [done|]. apply encode_inj; [done..|]. by apply (app_inv_head (str "e1:v")) in E.
Qed.

Lemma salt_prefix_inj s1 s2 r1 r2 :
  is_short s1 -> is_short s2 ->
  (match s1 with
   | [] => []
   | _ => str "4:salt" ++ to_string (Z.of_nat (length s1)) ++ str ":" ++ s1
   end) ++ str "3:seqi" ++ r1 =
  (match s2 with
   | [] => []
   | _ => str "4:salt" ++ to_string (Z.of_nat (length s2)) ++ str ":" ++ s2
   end) ++ str "3:seqi" ++ r2 -> s1 = s2 /\ r1 = r2.
Proof.
  intros H1 H2. destruct s1 as [|a1 s1], s2 as [|a2 s2]; try done; intros E.
  - split; [done|]. by apply (app_inv_head (str "3:seqi")) in E.
  - rewrite !salt_field, <-!app_assoc in E. apply app_inv_head in E.
    apply encode_string_app_inj in E as [-> E]; [|done..]. split; [done|]. by apply (app_inv_head (str "3:seqi")) in E.
Qed.

(** the buffer that is signed determines what it is the signature of: two
    items with the same signature buffer have the same salt, the same sequence
    number and the same value, so a signature made for one item cannot be used
    for another of the same key. *)
Theorem signature_buffer_injective (v1 v2 : BencodedValue) (s1 s2 : list byte) (n1 n2 : Z) b :
  item_ok s1 n1 v1 -> item_ok s2 n2 v2 ->
  mutable_data_signature_buffer v1 s1 n1 = Some b ->
  mutable_data_signature_buffer v2 s2 n2 = Some b ->
  s1 = s2 /\ n1 = n2 /\ v1 = v2.
Proof.
  intros H1 H2. unfold mutable_data_signature_buffer.
  destruct (1000 <? length (bencoding_encode v1))%nat; [done|].
  destruct (1000 <? length (bencoding_encode v2))%nat; [done|].
  intros [= <-] [= E]. symmetry in E. apply salt_prefix_inj in E as [-> E]; [|apply H1|apply H2].
  split; [done|]. apply seq_value_inj; [split; [done|apply H1..]|split; [done|apply H2..]|done].
Qed.

(** ** The bencoded form *)

Section Items.
Context {S : SignatureScheme} {L : SignatureLaws S}.

Lemma bencode_decodes item :
  item_ok (salt item) (sequence_number item) (value item) ->
  nesting (value item) < depth_limit ->
  length (public_key item) = PublicKey_size -> length (signature item) = Signature_size ->
  bencoding_decode (bencode item) =
  Some (BMap [ (str "k", BStr (public_key item)); (str "salt", BStr (salt item));
               (str "seq", BInt (sequence_number item)); (str "sig", BStr (signature item));
               (str "v", value item) ]).
Proof.
  intros [Hs Hq Hv _] Hn Hk Hg. unfold bencode.
  rewrite <-(app_nil_r (bencoding_encode _)). apply decode_encode.
  - apply wf_map. split; [by repeat (constructor; simpl)|]. unfold PublicKey_size, Signature_size in *.
    rewrite !Forall_cons. unfold is_short, length_limit in *. simpl.
    unfold is_short, length_limit. split_and!; try done; lia.
  - apply nesting_map; [done|]. unfold depth_limit in *. rewrite !Forall_cons. simpl. split_and!; try done; lia.
Qed.

Lemma item_of_map_fields k salt seq sig v :
  length k = PublicKey_size -> length sig = Signature_size ->
  item_of_map [ (str "k", BStr k); (str "salt", BStr salt); (str "seq", BInt seq);
                (str "sig", BStr sig); (str "v", v) ] =
  Some {| public_key := k; salt := salt; value := v; sequence_number := seq; signature := sig |}.
Proof.
  intros Hk Hs. unfold item_of_map.
  replace (map_find _ (str "k")) with (Some (BStr k)) by done.
  replace (map_find _ (str "salt")) with (Some (BStr salt)) by done.
  replace (map_find _ (str "v")) with (Some v) by done.
  replace (map_find _ (str "seq")) with (Some (BInt seq)) by done.
  replace (map_find _ (str "sig")) with (Some (BStr sig)) by done.
  cbn [mbind option_bind as_string as_int]. by rewrite Hk, Hs.
Qed.

Lemma buffer_length v salt seq :
  if (length (bencoding_encode v) <=? 1000)%nat
  then exists b, mutable_data_signature_buffer v salt seq = Some b
  else mutable_data_signature_buffer v salt seq = None.
Proof. unfold mutable_data_signature_buffer. nbool; try lia; eauto. Qed.

(** an item that was signed for a value of at most 1000 encoded bytes
    verifies, and its bencoded form decodes to the same item; a larger value
    makes signing throw. *)
Theorem signed_item_roundtrip (v : BencodedValue) (seq : Z) (salt : list byte) (sk : SecretKey) :
  item_ok salt seq v -> nesting v < depth_limit ->
  if (length (bencoding_encode v) <=? 1000)%nat
  then exists item, sign v seq salt sk = Some item /\ verify item = Some true /\
                    bdecode (bencode item) = Some (Some item)
  else sign v seq salt sk = None.
Proof.
  intros Hok Hn. pose proof (buffer_length v salt seq) as Hb. unfold sign.
  destruct (length (bencoding_encode v) <=? 1000)%nat; [|by rewrite Hb].
  destruct Hb as [b Eb]. rewrite Eb. eexists. split; [done|].
  set (item := Build_MutableDataItem _ _ _ _ _).
  assert (verify item = Some true) as Hv.
  { unfold verify. simpl. rewrite Eb. by rewrite verify_sign. }
  split; [done|]. unfold bdecode. rewrite bencode_decodes; simpl; auto with ou.
  rewrite item_of_map_fields by auto with ou. fold item. by rewrite Hv.
Qed.

Lemma item_of_map_Some m item :
  item_of_map m = Some item ->
  length (public_key item) = PublicKey_size /\ length (signature item) = Signature_size.
Proof.
  unfold item_of_map. intros Hi. repeat case_match; simplify_eq/=.
  split; by apply Nat.eqb_eq, negb_false_iff.
Qed.

(** what [bdecode] lets through: it returns an item only if the item's
    signature verifies under the item's own key and its key and signature have
    the right sizes; it throws exactly when the fields are well formed and the
    value is longer than 1000 encoded bytes, because the verification is outside
    of the [try] block. *)
Theorem bdecode_outcome (s : list byte) :
  match bdecode s with
  | Some (Some item) =>
      verify item = Some true /\ (length (bencoding_encode (value item)) <= 1000)%nat /\
      length (public_key item) = PublicKey_size /\ length (signature item) = Signature_size
  | Some None => True
  | None => exists m item, bencoding_decode s = Some (BMap m) /\ item_of_map m = Some item /\
                           (1000 < length (bencoding_encode (value item)))%nat
  end.
Proof.
  unfold bdecode. destruct (bencoding_decode s) as [v|]; simpl; [|done].
  destruct (as_map v) as [m|] eqn:Em; [|done]. destruct v; simplify_eq/=.
  destruct (item_of_map m) as [item|] eqn:Ei; [|done]. unfold verify.
  pose proof (buffer_length (value item) (salt item) (sequence_number item)) as Hb.
  destruct (Nat.leb_spec (length (bencoding_encode (value item))) 1000) as [Hle|Hlt].
  - destruct Hb as [b Hb]. rewrite Hb. destruct (verify_message _ _ _) eqn:Ev; [|done].
    apply item_of_map_Some in Ei as []. rewrite Hb, Ev. by split_and!.
  - rewrite Hb. eauto.
Qed.

End Items.

(** ** Witnesses *)

Lemma signature_buffer_injective_witness :
  str "foobar" = str "foobar" /\ 4 = 4 /\ BStr (str "Hello world!") = BStr (str "Hello world!").
Proof.
  apply (signature_buffer_injective _ _ _ _ _ _
    (str "4:salt6:foobar3:seqi4e1:v12:Hello world!")).
  - repeat split; vm_compute; congruence.
  - repeat split; vm_compute; congruence.
  - reflexivity.
  - reflexivity.
Defined.

Lemma signed_item_roundtrip_witness :
  exists item, @sign toy_scheme (BStr (str "Hello")) 1 [] (str "key") = Some item /\
    @verify toy_scheme item = Some true /\ @bdecode toy_scheme (bencode item) = Some (Some item).
Proof.
  apply (signed_item_roundtrip (S := toy_scheme) (L := toy_scheme_laws) (BStr (str "Hello")) 1 [] (str "key")).
  - repeat split; vm_compute; congruence.
  - reflexivity.
Defined.
