(* ===== verification/DataStore.v ===== *)
(** * The data store of a DHT node: [DataStore] of src/bittorrent/dht_storage.h and .cpp

    Immutable items are stored under the SHA-1 digest of their encoding, mutable
    items under the digest of their public key and salt.  The digest is a
    parameter; each operation reads the steady clock once. *)
From S2P Require Import Prelude Number Bencoding Crypto MutableData DhtStorage.

Definition PUT_VALIDITY_SECONDS : Z := 3600 * 2.

Record ImmutableStoredItem := { stored_value : BencodedValue; immutable_last_seen : Z }.
Record MutableStoredItem := { stored_item : MutableDataItem; mutable_last_seen : Z }.

Record DataStore := {
  _immutable_data : gmap (list byte) ImmutableStoredItem;
  _mutable_data : gmap (list byte) MutableStoredItem;
}.

Definition new_store : DataStore := {| _immutable_data := ∅; _mutable_data := ∅ |}.

Definition fresh (now last_seen : Z) : Prop := now <= last_seen + seconds PUT_VALIDITY_SECONDS.

#[export] Instance fresh_dec now t : Decision (fresh now t).
Proof. unfold fresh. apply _. Defined.

Section Code.
Variable sha1 : list byte -> list byte.

(** The body of the periodic task: erase what was last put too long ago. *)
Definition tick (now : Z) (st : DataStore) : DataStore :=
  {| _immutable_data := filter (fun kv => fresh now (immutable_last_seen (snd kv))) (_immutable_data st);
     _mutable_data := filter (fun kv => fresh now (mutable_last_seen (snd kv))) (_mutable_data st) |}.

Definition immutable_get_id (v : BencodedValue) : list byte := sha1 (bencoding_encode v).

Definition put_immutable (now : Z) (v : BencodedValue) (st : DataStore) : DataStore :=
  {| _immutable_data :=
       <[immutable_get_id v := {| stored_value := v; immutable_last_seen := now |}]> (_immutable_data st);
     _mutable_data := _mutable_data st |}.

Definition get_immutable (id : list byte) (st : DataStore) : option BencodedValue :=
  stored_value <$> _immutable_data st !! id.

Definition mutable_get_id (pk salt : list byte) : list byte := sha1 (pk ++ salt).

Definition put_mutable (now : Z) (item : MutableDataItem) (st : DataStore) : DataStore :=
  {| _immutable_data := _immutable_data st;
     _mutable_data :=
       <[mutable_get_id (public_key item) (salt item) :=
           {| stored_item := item; mutable_last_seen := now |}]> (_mutable_data st) |}.

Definition get_mutable (id : list byte) (st : DataStore) : option MutableDataItem :=
  stored_item <$> _mutable_data st !! id.

(** ** Runs of the store *)

Inductive store_request :=
  | PutImmutable (v : BencodedValue)
  | PutMutable (item : MutableDataItem)
  | TickStore.

Definition store_step (st : DataStore) (e : Z * store_request) : DataStore :=
  match snd e with
  | PutImmutable v => put_immutable (fst e) v st
  | PutMutable item => put_mutable (fst e) item st
  | TickStore => tick (fst e) st
  end.

Definition store_run : list (Z * store_request) -> DataStore -> DataStore :=
  fun rs st => fold_left store_step rs st.

(** An item put at [t] is not erased by any round of the task in [rs]. *)
Definition survives (t : Z) (rs : list (Z * store_request)) : bool :=
  forallb (fun e => match snd e with
                    | TickStore => bool_decide (fresh (fst e) t)
                    | _ => true
                    end) rs.

(** *** The invariant: items are stored under their own id *)

Record store_ok (st : DataStore) : Prop := {
  immutable_ids : map_Forall (fun id i => id = immutable_get_id (stored_value i)) (_immutable_data st);
  mutable_ids : map_Forall (fun id i =>
    id = mutable_get_id (public_key (stored_item i)) (salt (stored_item i))) (_mutable_data st);
}.

Lemma new_store_ok : store_ok new_store.
Proof. split; apply map_Forall_empty. Qed.

Lemma store_step_ok st e : store_ok st -> store_ok (store_step st e).
Proof.
  intros [Hi Hm]. destruct e as [now [v|item|]]; unfold store_step; simpl.
  - split; simpl; [|done]. by apply map_Forall_insert_2.
  - split; simpl; [done|]. by apply map_Forall_insert_2.
  - split; simpl; intros id i [E _]%map_lookup_filter_Some; [by apply Hi|by apply Hm].
Qed.

Lemma store_run_ok rs st : store_ok st -> store_ok (store_run rs st).
Proof. revert st. induction rs; intros st H; simpl; [done|]. eauto using store_step_ok. Qed.

(** *** One entry across a run *)

Definition puts_immutable (id : list byte) (e : Z * store_request) : Prop :=
  match snd e with PutImmutable v => immutable_get_id v = id | _ => False end.

Definition puts_mutable (id : list byte) (e : Z * store_request) : Prop :=
  match snd e with
  | PutMutable item => mutable_get_id (public_key item) (salt item) = id
  | _ => False
  end.

Lemma immutable_step st e id i :
  ~ puts_immutable id e -> _immutable_data st !! id = Some i ->
  _immutable_data (store_step st e) !! id =
  if survives (immutable_last_seen i) [e] then Some i else None.
Proof.
  intros Hp Hi. destruct e as [now [v|item|]]; unfold store_step, survives, puts_immutable in *; simpl in *.
  - by rewrite lookup_insert_ne.
  - done.
  - rewrite map_lookup_filter, Hi, andb_true_r. simpl. case_bool_decide; by case_guard.
Qed.

Lemma immutable_absent st e id :
  ~ puts_immutable id e -> _immutable_data st !! id = None ->
  _immutable_data (store_step st e) !! id = None.
Proof.
  intros Hp Hi. destruct e as [now [v|item|]]; unfold store_step, puts_immutable in *; simpl in *.
  - by rewrite lookup_insert_ne.
  - done.
  - by rewrite map_lookup_filter, Hi.
Qed.

Lemma mutable_step st e id i :
  ~ puts_mutable id e -> _mutable_data st !! id = Some i ->
  _mutable_data (store_step st e) !! id =
  if survives (mutable_last_seen i) [e] then Some i else None.
Proof.
  intros Hp Hi. destruct e as [now [v|item|]]; unfold store_step, survives, puts_mutable in *; simpl in *.
  - done.
  - by rewrite lookup_insert_ne.
  - rewrite map_lookup_filter, Hi, andb_true_r. simpl. case_bool_decide; by case_guard.
Qed.

Lemma mutable_absent st e id :
  ~ puts_mutable id e -> _mutable_data st !! id = None ->
  _mutable_data (store_step st e) !! id = None.
Proof.
  intros Hp Hi. destruct e as [now [v|item|]]; unfold store_step, puts_mutable in *; simpl in *.
  - done.
  - by rewrite lookup_insert_ne.
  - by rewrite map_lookup_filter, Hi.
Qed.

(** An entry that each step keeps or erases by [survives] is kept or erased by it
    across a run. *)
Lemma entry_run {A} (entry : DataStore -> option A) (t : Z) (a : A) (puts : Z * store_request -> Prop) rs st :
  (forall st e, ~ puts e -> entry st = Some a ->
     entry (store_step st e) = if survives t [e] then Some a else None) ->
  (forall st e, ~ puts e -> entry st = None -> entry (store_step st e) = None) ->
  Forall (fun e => ~ puts e) rs -> entry st = Some a ->
  entry (store_run rs st) = if survives t rs then Some a else None.
Proof.
  intros Hkeep Habs Hrs. revert st. induction Hrs as [|e rs He Hrs IH]; intros st Hst; [done|].
  cbn [store_run fold_left]. change (fold_left store_step rs) with (store_run rs).
  assert (survives t (e :: rs) = survives t [e] && survives t rs) as ->.
  { unfold survives. simpl. by rewrite andb_true_r. }
  pose proof (Hkeep st e He Hst) as E. destruct (survives t [e]) eqn:Es; simpl.
  - exact (IH _ E).
  - clear IH Hkeep Hst. revert E. generalize (store_step st e). induction Hrs; intros st' E; [done|].
    simpl. eauto.
Qed.

(** what the store serves is what was put: an immutable item is served
    under the digest of its encoding, a mutable item under the digest of its key
    and salt, after any sequence of puts and expiry rounds. *)
Theorem store_content_addressed (rs : list (Z * store_request)) (id : list byte) :
  let st := store_run rs new_store in
  match get_immutable id st with Some v => id = immutable_get_id v | None => True end /\
  match get_mutable id st with
  | Some item => id = mutable_get_id (public_key item) (salt item)
  | None => True
  end.
Proof.
  intros st. destruct (store_run_ok rs new_store new_store_ok) as [Hi Hm].
  unfold get_immutable, get_mutable. split.
  - destruct (_immutable_data st !! id) eqn:E; simpl; [exact (Hi _ _ E)|done].
  - destruct (_mutable_data st !! id) eqn:E; simpl; [exact (Hm _ _ E)|done].
Qed.

(** an item put at time [t] and not overwritten is served after any further
    requests exactly if no round of the periodic task ran more than two hours
    after [t]. *)
Theorem store_serves_until_expiry (st : DataStore) (rs : list (Z * store_request)) (t : Z)
    (v : BencodedValue) (item : MutableDataItem) :
  Forall (fun e => ~ puts_immutable (immutable_get_id v) e) rs ->
  Forall (fun e => ~ puts_mutable (mutable_get_id (public_key item) (salt item)) e) rs ->
  get_immutable (immutable_get_id v) (store_run rs (put_immutable t v st))
    = (if survives t rs then Some v else None) /\
  get_mutable (mutable_get_id (public_key item) (salt item)) (store_run rs (put_mutable t item st))
    = (if survives t rs then Some item else None).
Proof.
  intros Hi Hm. unfold get_immutable, get_mutable. split.
  - rewrite (entry_run (fun st => _immutable_data st !! immutable_get_id v) t
      {| stored_value := v; immutable_last_seen := t |} (puts_immutable (immutable_get_id v))).
    + by destruct (survives t rs).
    + intros st' e He E. by rewrite (immutable_step _ _ _ _ He E).
    + intros st' e. apply immutable_absent.
    + done.
    + apply lookup_insert_eq.
  - rewrite (entry_run (fun st => _mutable_data st !! mutable_get_id (public_key item) (salt item)) t
      {| stored_item := item; mutable_last_seen := t |}
      (puts_mutable (mutable_get_id (public_key item) (salt item)))).
    + by destruct (survives t rs).
    + intros st' e He E. by rewrite (mutable_step _ _ _ _ He E).
    + intros st' e. apply mutable_absent.
    + done.
    + apply lookup_insert_eq.
Qed.

End Code.

Definition sample_item : MutableDataItem :=
  {| public_key := str "pk"; salt := str "s"; value := BInt 7; sequence_number := 1; signature := [] |}.

Lemma store_serves_until_expiry_witness :
  get_immutable (immutable_get_id id (BInt 5))
    (store_run id [(seconds 7200, TickStore); (0, PutImmutable (BInt 6)); (seconds 7201, TickStore)]
       (put_immutable id 0 (BInt 5) new_store)) = None /\
  get_mutable (mutable_get_id id (str "pk") (str "s"))
    (store_run id [(seconds 7200, TickStore); (0, PutImmutable (BInt 6)); (seconds 7201, TickStore)]
       (put_mutable id 0 sample_item new_store)) = None.
Proof.
  apply (store_serves_until_expiry id new_store
    [(seconds 7200, TickStore); (0, PutImmutable (BInt 6)); (seconds 7201, TickStore)] 0 (BInt 5) sample_item);
    repeat constructor; vm_compute; congruence.
Defined.
