(* ===== verification/ProximityMap.v ===== *)
(** * Bounded map of the identifiers closest to a pivot: src/bittorrent/proximity_map.h

    A [std::map] ordered by [closer_to] around the pivot is the list of its
    entries in that order. *)
From S2P Require Import Prelude NodeId.

Section Code.
Context {Value : Type}.

Record ProximityMap := { pivot : list byte; entries : list (list byte * Value); _max_size : nat }.

Definition new_map (pivot : list byte) (max_size : nat) : ProximityMap :=
  {| pivot := pivot; entries := []; _max_size := max_size |}.

Definition set_entries (m : ProximityMap) (l : list (list byte * Value)) : ProximityMap :=
  {| pivot := pivot m; entries := l; _max_size := _max_size m |}.

(** [std::map::insert]: an entry with an equivalent key is kept. *)
Fixpoint parent_insert (p : list byte) (v : list byte * Value) (l : list (list byte * Value))
    : list (list byte * Value) :=
  match l with
  | [] => [v]
  | x :: l' =>
      if closer_to p (fst v) (fst x) then v :: l
      else if closer_to p (fst x) (fst v) then x :: parent_insert p v l'
      else l
  end.

Definition full (m : ProximityMap) : bool := (_max_size m <=? length (entries m))%nat.

(** [std::prev(end())] of a non-empty map. *)
Definition last_entry (m : ProximityMap) : option (list byte * Value) := last (entries m).

Definition insert (v : list byte * Value) (m : ProximityMap) : ProximityMap :=
  if (_max_size m =? 0)%nat then m
  else if negb (full m) then set_entries m (parent_insert (pivot m) v (entries m))
  else match last_entry m with
       | None => m
       | Some x =>
           if closer_to (pivot m) (fst x) (fst v) then m
           else set_entries m (parent_insert (pivot m) v (removelast (entries m)))
       end.

Definition would_insert (id : list byte) (m : ProximityMap) : bool :=
  if (_max_size m =? 0)%nat then false
  else if (length (entries m) <? _max_size m)%nat then true
  else match last_entry m with
       | None => false
       | Some x => closer_to (pivot m) id (fst x)
       end.

Definition insert_all (vs : list (list byte * Value)) (m : ProximityMap) : ProximityMap :=
  fold_left (fun m v => insert v m) vs m.

(** The unbounded map of the same entries. *)
Definition parent_insert_all (p : list byte) (vs l : list (list byte * Value)) :=
  fold_left (fun l v => parent_insert p v l) vs l.

(** ** Facts about the order *)

Section Order.
Variable p : list byte.
Hypothesis Hp : valid_id p.

Definition nearer (x y : list byte * Value) : Prop := distance (fst x) p < distance (fst y) p.
Definition valid_entry (x : list byte * Value) : Prop := valid_id (fst x).

Lemma nearer_dec x y :
  valid_entry x -> valid_entry y -> closer_to p (fst x) (fst y) = (distance (fst x) p <? distance (fst y) p).
Proof. intros. by apply closer_to_distance. Qed.

Lemma fresh_nearer v l :
  valid_entry v -> Forall valid_entry l -> fst v ∉ map fst l ->
  Forall (fun x => nearer x v \/ nearer v x) l.
Proof.
  intros Hv Hl Hn. apply Forall_forall. intros x Hx. rewrite Forall_forall in Hl.
  destruct (Z.lt_trichotomy (distance (fst x) p) (distance (fst v) p)) as [H|[H|H]]; [by left| |by right].
  destruct Hn. apply distance_inj in H; [|by apply Hl|done]. rewrite <-H.
  by apply list_elem_of_In, in_map, list_elem_of_In.
Qed.

Lemma parent_insert_perm v l :
  valid_entry v -> Forall valid_entry l -> fst v ∉ map fst l -> parent_insert p v l ≡ₚ v :: l.
Proof.
  intros Hv Hl Hn. pose proof (fresh_nearer v l Hv Hl Hn) as Hf. clear Hn.
  induction Hl as [|x l Hx Hl IH]; simpl; [done|]. apply Forall_cons in Hf as [Hxv Hf].
  rewrite !nearer_dec by done. unfold nearer in Hxv. zbool; try done; try lia.
  rewrite IH by done. apply perm_swap.
Qed.

Lemma parent_insert_sorted v l :
  valid_entry v -> Forall valid_entry l -> StronglySorted nearer l ->
  StronglySorted nearer (parent_insert p v l).
Proof.
  intros Hv Hl Hs. induction Hs as [|x l Hs IH Hx]; simpl; [by repeat constructor|].
  apply Forall_cons in Hl as [Hvx Hl]. rewrite !nearer_dec by done. zbool.
  - constructor; [by constructor|]. constructor; [done|].
    eapply Forall_impl; [exact Hx|]. unfold nearer. intros y. simpl. lia.
  - constructor; [by apply IH|]. clear IH Hs. induction Hl as [|y l Hy Hl IHl]; simpl; [by repeat constructor|].
    apply Forall_cons in Hx as [Hxy Hx]. rewrite !nearer_dec by done. zbool; repeat constructor; auto.
  - by constructor.
Qed.

(** Inserting before position [j] commutes with cutting at [j]. *)
Lemma take_insert_before v l j y :
  valid_entry v -> Forall valid_entry l -> fst v ∉ map fst l ->
  l !! j = Some y -> nearer v y ->
  take (S j) (parent_insert p v l) = parent_insert p v (take j l).
Proof.
  intros Hv Hl Hn. pose proof (fresh_nearer v l Hv Hl Hn) as Hf. clear Hn. revert j.
  induction Hl as [|x l Hx Hl IH]; intros j Hj Hvy; [done|]. apply Forall_cons in Hf as [Hxv Hf].
  unfold nearer in *. destruct j as [|j]; simpl in *; rewrite !nearer_dec by done.
  - simplify_eq. zbool; [done|lia|lia].
  - zbool; [done| |lia]. cbn [take]. f_equal. by apply IH.
Qed.

(** Inserting after position [j] does not touch the entries up to [j]. *)
Lemma take_insert_after v l j y :
  valid_entry v -> Forall valid_entry l -> StronglySorted nearer l ->
  l !! j = Some y -> nearer y v ->
  take (S j) (parent_insert p v l) = take (S j) l.
Proof.
  intros Hv Hl Hs. revert j. induction Hs as [|x l Hs IH Hx]; intros j Hj Hyv; [done|].
  apply Forall_cons in Hl as [Hvx Hl]. unfold nearer in *.
  assert (distance (fst x) p < distance (fst v) p).
  { destruct j as [|j]; simpl in Hj; [by simplify_eq|]. rewrite Forall_forall in Hx.
    specialize (Hx y (list_elem_of_lookup_2 _ _ _ Hj)). lia. }
  simpl. rewrite !nearer_dec by done. zbool; try lia.
  destruct j as [|j]; [done|]. change (x :: take (S j) (parent_insert p v l) = x :: take (S j) l).
  f_equal. by apply IH.
Qed.

Lemma last_take (l : list (list byte * Value)) n :
  (0 < n <= length l)%nat -> last (take n l) = l !! (n - 1)%nat.
Proof.
  intros Hn. rewrite last_lookup, length_take, Nat.min_l by lia.
  replace (Nat.pred n) with (n - 1)%nat by lia. apply lookup_take_lt. lia.
Qed.

Lemma removelast_take (l : list (list byte * Value)) n :
  (n <= length l)%nat -> removelast (take n l) = take (n - 1) l.
Proof.
  intros Hn. rewrite removelast_firstn_len, length_take, take_take. f_equal. lia.
Qed.

(** One insertion into the bounded map is one insertion into the unbounded map,
    cut to the bound. *)
Lemma insert_take v l n :
  valid_entry v -> Forall valid_entry l -> StronglySorted nearer l -> fst v ∉ map fst l ->
  entries (insert v {| pivot := p; entries := take n l; _max_size := n |})
  = take n (parent_insert p v l).
Proof.
  intros Hv Hl Hs Hn. unfold insert, full, last_entry. simpl.
  destruct (Nat.eqb_spec n 0) as [->|Hn0]; [done|]. rewrite length_take.
  destruct (Nat.leb_spec n (Nat.min n (length l))) as [Hle|Hlt]; simpl.
  - rewrite last_take by lia. destruct (lookup_lt_is_Some_2 l (n - 1)) as [y Hy]; [lia|]. rewrite Hy.
    assert (valid_entry y) as Hvy.
    { rewrite Forall_forall in Hl. apply Hl. by eapply list_elem_of_lookup_2. }
    rewrite nearer_dec by done. destruct n as [|j]; [done|]. replace (S j - 1)%nat with j in * by lia.
    zbool; simpl.
    + by rewrite (take_insert_after v l j y).
    + rewrite removelast_take by lia. replace (S j - 1)%nat with j by lia.
      rewrite (take_insert_before v l j y); try done.
      assert (nearer y v \/ nearer v y) as [|]; [|unfold nearer in *; lia|done].
      pose proof (fresh_nearer v l Hv Hl Hn) as Hf. rewrite Forall_forall in Hf. apply Hf.
      by eapply list_elem_of_lookup_2.
  - rewrite take_ge by lia. rewrite take_ge; [done|].
    rewrite (parent_insert_perm v l) by done. simpl. lia.
Qed.

Lemma insert_fields v m : pivot (insert v m) = pivot m /\ _max_size (insert v m) = _max_size m.
Proof. unfold insert. by repeat case_match. Qed.

Lemma insert_all_take n vs : forall l,
  Forall valid_entry vs -> Forall valid_entry l -> StronglySorted nearer l ->
  NoDup (map fst (vs ++ l)) ->
  insert_all vs {| pivot := p; entries := take n l; _max_size := n |}
  = {| pivot := p; entries := take n (parent_insert_all p vs l); _max_size := n |} /\
  StronglySorted nearer (parent_insert_all p vs l) /\ parent_insert_all p vs l ≡ₚ vs ++ l.
Proof.
  induction vs as [|v vs IH]; intros l Hvs Hl Hs Hnd; [done|].
  apply Forall_cons in Hvs as [Hv Hvs]. simpl in Hnd. apply NoDup_cons in Hnd as [Hv1 Hnd].
  rewrite map_app in Hv1. apply not_elem_of_app in Hv1 as [Hv1 Hv2].
  cbn [insert_all parent_insert_all fold_left].
  pose proof (insert_take v l n Hv Hl Hs Hv2) as Ei.
  destruct (insert_fields v {| pivot := p; entries := take n l; _max_size := n |}) as [Ep En].
  destruct (insert v {| pivot := p; entries := take n l; _max_size := n |}) as [p' l' n'].
  simpl in Ei, Ep, En. subst.
  pose proof (parent_insert_perm v l Hv Hl Hv2) as Hperm.
  assert (Forall valid_entry (parent_insert p v l)) as Hl' by (rewrite Hperm; by constructor).
  assert (NoDup (map fst (vs ++ parent_insert p v l))) as Hnd'.
  { assert (map fst (vs ++ parent_insert p v l) ≡ₚ fst v :: map fst (vs ++ l)) as ->.
    { rewrite !map_app. rewrite (Permutation_map fst Hperm). simpl. symmetry. apply Permutation_middle. }
    constructor; [|done]. rewrite map_app. by apply not_elem_of_app. }
  destruct (IH (parent_insert p v l) Hvs Hl' (parent_insert_sorted v l Hv Hl Hs) Hnd') as (I1 & I2 & I3).
  split_and!; [exact I1|exact I2|]. etransitivity; [exact I3|]. rewrite Hperm. simpl.
  symmetry. apply Permutation_middle.
Qed.

Lemma sorted_app_l (l k : list (list byte * Value)) :
  StronglySorted nearer (l ++ k) -> StronglySorted nearer l.
Proof.
  induction l as [|x l IH]; simpl; intros Hs; [constructor|].
  apply StronglySorted_inv in Hs as [Hs Hx]. apply Forall_app in Hx as [Hx _]. constructor; auto.
Qed.

Lemma sorted_take_drop n l x y :
  StronglySorted nearer l -> x ∈ take n l -> y ∈ drop n l -> nearer x y.
Proof.
  revert n. induction l as [|z l IH]; intros [|n] Hs Hx Hy; simpl in *;
    try (by apply elem_of_nil in Hx); try (by apply elem_of_nil in Hy).
  apply StronglySorted_inv in Hs as [Hs Hz]. rewrite Forall_forall in Hz.
  apply elem_of_cons in Hx as [->|Hx]; [|eauto].
  apply Hz. rewrite <-(take_drop n l). apply elem_of_app. by right.
Qed.

End Order.

(** a proximity map of size [n] that was given entries with distinct
    identifiers holds the [n] of them closest to the pivot, sorted by distance:
    its entries are those of the unbounded [std::map], cut to the first [n]; an
    entry it dropped is farther from the pivot than every entry it holds. *)
Theorem proximity_map_keeps_closest (p : list byte) (n : nat) (vs : list (list byte * Value)) :
  valid_id p -> Forall (fun x => valid_id (fst x)) vs -> NoDup (map fst vs) ->
  let m := entries (insert_all vs (new_map p n)) in
  m = take n (parent_insert_all p vs []) /\
  length m = Nat.min n (length vs) /\ m ⊆+ vs /\
  StronglySorted (fun x y => closer_to p (fst x) (fst y) = true) m /\
  (forall x y, x ∈ m -> y ∈ vs -> y ∉ m -> closer_to p (fst x) (fst y) = true).
Proof.
  intros Hp Hvs Hnd m.
  destruct (insert_all_take p Hp n vs [] Hvs) as (Em & Hs & Hperm);
    [constructor|constructor|by rewrite app_nil_r|].
  rewrite take_nil, app_nil_r in *. set (all := parent_insert_all p vs []) in *.
  assert (m = take n all) as E by (unfold m, new_map; by rewrite Em). clearbody m. subst m.
  assert (forall x, x ∈ all -> valid_entry x) as Hall.
  { intros x Hx. rewrite Hperm in Hx. rewrite Forall_forall in Hvs. by apply Hvs. }
  assert (forall x, x ∈ take n all -> x ∈ all) as Htake.
  { intros x Hx. rewrite <-(take_drop n all). apply elem_of_app. by left. }
  split_and!.
  - done.
  - by rewrite length_take, Hperm.
  - rewrite <-Hperm. apply submseteq_take.
  - assert (StronglySorted (nearer p) (take n all)) as Hst.
    { rewrite <-(take_drop n all) in Hs. by apply sorted_app_l in Hs. }
    clear -Hst Hall Htake Hp. induction Hst as [|x l Hst IH Hx]; constructor.
    + apply IH. intros y Hy. apply Htake. by right.
    + rewrite Forall_forall in Hx |- *. intros y Hy. rewrite nearer_dec; [|done|apply Hall, Htake..].
      * apply Z.ltb_lt. by apply Hx.
      * by left.
      * by right.
  - intros x y Hx Hy Hny. rewrite nearer_dec; [|done|by apply Hall, Htake|apply Hall; by rewrite Hperm].
    apply Z.ltb_lt, (sorted_take_drop p n all); [done|done|].
    rewrite <-Hperm, <-(take_drop n all) in Hy. by apply elem_of_app in Hy as [?|?].
Qed.

(** [would_insert] predicts [insert] for an identifier that the map does not
    hold yet: it answers yes exactly if the entry is in the map afterwards. *)
Theorem would_insert_correct (p : list byte) (n : nat) (vs : list (list byte * Value)) (v : list byte * Value) :
  valid_id p -> Forall (fun x => valid_id (fst x)) (v :: vs) -> NoDup (map fst (v :: vs)) ->
  let m := insert_all vs (new_map p n) in
  would_insert (fst v) m = true <-> v ∈ entries (insert v m).
Proof.
  intros Hp [Hv Hvs]%Forall_cons Hnd m. apply NoDup_cons in Hnd as [Hv1 Hnd].
  destruct (insert_all_take p Hp n vs [] Hvs) as (Em & Hs & Hperm);
    [constructor|constructor|by rewrite app_nil_r|].
  rewrite take_nil, app_nil_r in *. set (all := parent_insert_all p vs []) in *.
  unfold new_map in m. subst m. rewrite Em.
  assert (Forall valid_entry all) as Hall by (by rewrite Hperm).
  assert (fst v ∉ map fst all) as Hfr by (by rewrite (Permutation_map fst Hperm)).
  rewrite (insert_take p Hp v all n Hv Hall Hs Hfr).
  unfold would_insert, last_entry. simpl. rewrite length_take.
  destruct (Nat.eqb_spec n 0) as [->|Hn0]; [split; [done|by intros ?%elem_of_nil]|].
  pose proof (parent_insert_perm p Hp v all Hv Hall Hfr) as Hpi.
  destruct (Nat.ltb_spec (Nat.min n (length all)) n) as [Hlt|Hge].
  { split; [intros _|done]. rewrite take_ge; [rewrite Hpi; by left|]. rewrite Hpi. simpl. lia. }
  rewrite last_take by lia. destruct (lookup_lt_is_Some_2 all (n - 1)) as [y Hy]; [lia|]. rewrite Hy.
  pose proof (list_elem_of_lookup_2 _ _ _ Hy) as Hin.
  pose proof (fresh_nearer p v all Hv Hall Hfr) as Hf. rewrite Forall_forall in Hf.
  rewrite nearer_dec; [|done|done|by rewrite Forall_forall in Hall; apply Hall]. rewrite Z.ltb_lt.
  destruct n as [|j]; [done|]. replace (S j - 1)%nat with j in * by lia. destruct (Hf y Hin) as [Hyv|Hvy].
  - rewrite (take_insert_after p Hp v all j y) by done. unfold nearer in Hyv. split; [lia|].
    intros Hv'. destruct Hfr. apply list_elem_of_In, in_map, list_elem_of_In.
    rewrite <-(take_drop (S j) all). apply elem_of_app. by left.
  - rewrite (take_insert_before p Hp v all j y) by done. split; [intros _|done].
    rewrite (parent_insert_perm p Hp v (take j all)); [by left|done| |].
    + by apply Forall_take.
    + rewrite <-firstn_map. intros Hv'. apply Hfr. rewrite <-(take_drop j (map fst all)).
      apply elem_of_app. by left.
Qed.

Lemma parent_insert_present p v l :
  valid_id p -> Forall valid_entry (v :: l) -> StronglySorted (nearer p) l -> fst v ∈ map fst l ->
  parent_insert p v l = l.
Proof.
  intros Hp [Hv Hl]%Forall_cons Hs Hin. induction Hs as [|x l Hs IH Hx]; [by apply elem_of_nil in Hin|].
  apply Forall_cons in Hl as [Hvx Hl]. simpl. rewrite !(nearer_dec p Hp) by done.
  simpl in Hin. apply elem_of_cons in Hin as [E|Hin].
  - rewrite E. by rewrite Z.ltb_irrefl.
  - rewrite IH by done. apply list_elem_of_fmap in Hin as (y & E & Hy). rewrite Forall_forall in Hx.
    specialize (Hx y Hy). unfold nearer in Hx. rewrite <-E in Hx. zbool; try done; lia.
Qed.

(** inserting an identifier that a full map holds already, other than the
    farthest one, drops the farthest entry: the map erases it before the
    insertion that does nothing. *)
Theorem insert_duplicate_drops_last (p : list byte) (v x : list byte * Value) (l : list (list byte * Value)) :
  valid_id p -> Forall (fun x => valid_id (fst x)) (v :: l ++ [x]) ->
  StronglySorted (nearer p) (l ++ [x]) -> fst v ∈ map fst l ->
  entries (insert v {| pivot := p; entries := l ++ [x]; _max_size := length (l ++ [x]) |}) = l.
Proof.
  intros Hp [Hv Hl]%Forall_cons Hs Hin. apply Forall_app in Hl as [Hl Hx].
  apply Forall_cons in Hx as [Hx _].
  unfold insert, full, last_entry. simpl. rewrite Nat.leb_refl, last_snoc, length_app. simpl.
  destruct (Nat.eqb_spec (length l + 1) 0); [lia|]. simpl.
  assert (nearer p v x) as Hn.
  { apply list_elem_of_fmap in Hin as (y & E & Hy). unfold nearer. rewrite E.
    apply (sorted_take_drop p (length l) (l ++ [x])); [done| |].
    - by rewrite take_app_length.
    - rewrite drop_app_length. by left. }
  rewrite (nearer_dec p Hp x v) by done. unfold nearer in Hn. zbool; [lia|]. simpl.
  rewrite removelast_last. apply parent_insert_present; [done|by constructor| |done].
  by apply sorted_app_l in Hs.
Qed.

End Code.

(** ** Witnesses *)

Definition sample_id (n : Z) : list byte := replicate 19 Byte.x00 ++ [byte_of n].

Lemma proximity_map_keeps_closest_witness :
  entries (insert_all [(sample_id 4, 1); (sample_id 1, 2); (sample_id 2, 3)] (new_map NodeID_zero 2))
  = [(sample_id 1, 2); (sample_id 2, 3)].
Proof.
  destruct (proximity_map_keeps_closest NodeID_zero 2
    [(sample_id 4, 1); (sample_id 1, 2); (sample_id 2, 3)]) as [E _]; [done|by repeat constructor| |].
  - refine (bool_decide_unpack _ _). vm_compute. exact I.
  - rewrite E. vm_compute. reflexivity.
Defined.

Lemma would_insert_correct_witness :
  (sample_id 1, 5) ∈ entries (insert (sample_id 1, 5)
    (insert_all [(sample_id 4, 1); (sample_id 2, 3)] (new_map NodeID_zero 2))).
Proof.
  apply (would_insert_correct NodeID_zero 2 [(sample_id 4, 1); (sample_id 2, 3)] (sample_id 1, 5));
    [done|by repeat constructor| |vm_compute; reflexivity].
  refine (bool_decide_unpack _ _). vm_compute. exact I.
Defined.

Lemma insert_duplicate_drops_last_witness :
  entries (insert (sample_id 1, 9) {| pivot := NodeID_zero;
    entries := [(sample_id 1, 5)] ++ [(sample_id 2, 6)]; _max_size := 2 |}) = [(sample_id 1, 5)].
Proof.
  apply (insert_duplicate_drops_last NodeID_zero (sample_id 1, 9) (sample_id 2, 6) [(sample_id 1, 5)]).
  - reflexivity.
  - by repeat constructor.
  - repeat constructor.
  - left.
Defined.
