(* ===== verification/SplitString.v ===== *)
(** * String views and splitting: src/split_string.h

    A [string_view] is a range of a larger buffer.  The model keeps the bytes of
    the range and the bytes of the buffer behind it, because [parse::number]
    looks at the byte behind its argument.  The null view that marks the end of
    an iteration is [None]. *)
From S2P Require Import Prelude Number.

Record string_view := { chars : list byte; behind : list byte }.

(** A whole string: the byte behind it is the terminating zero. *)
Definition view_of (s : list byte) : string_view := {| chars := s; behind := [Byte.x00] |}.

(** The byte behind a view. *)
Definition next_byte (v : string_view) : byte := default Byte.x00 (head (behind v)).

(** The number of leading bytes equal to [c]. *)
Fixpoint count_while (c : byte) (s : list byte) : nat :=
  match s with
  | b :: s' => if bool_decide (b = c) then S (count_while c s') else O
  | [] => O
  end.

(** [while (v.starts_with(c)) v.remove_prefix(1);] *)
Definition trim_front (c : byte) (v : string_view) : string_view :=
  {| chars := drop (count_while c (chars v)) (chars v); behind := behind v |}.

(** [while (v.ends_with(c)) v.remove_suffix(1);] *)
Definition trim_back (c : byte) (v : string_view) : string_view :=
  let n := (length (chars v) - count_while c (rev (chars v)))%nat in
  {| chars := take n (chars v); behind := drop n (chars v) ++ behind v |}.

Definition trim_char (c : byte) (v : string_view) : string_view := trim_back c (trim_front c v).

Definition trim_whitespace (v : string_view) : string_view := trim_char " "%byte v.

(** [v.find(c)]; [None] is [npos]. *)
Fixpoint find_char (c : byte) (s : list byte) : option nat :=
  match s with
  | [] => None
  | b :: s' => if bool_decide (b = c) then Some O else S <$> find_char c s'
  end.

(** [v.substr(0, pos)] and [v.substr(pos)]. *)
Definition substr_to (pos : nat) (v : string_view) : string_view :=
  {| chars := take pos (chars v); behind := drop pos (chars v) ++ behind v |}.
Definition substr_from (pos : nat) (v : string_view) : string_view :=
  {| chars := drop pos (chars v); behind := behind v |}.

(** [SplitString::split_first]: the body and the rest of an iterator. *)
Definition split_first (v : option string_view) (separator : byte)
    : option string_view * option string_view :=
  match v with
  | None => (None, None)
  | Some v =>
      match find_char separator (chars v) with
      | None => (Some (trim_whitespace v), None)
      | Some pos => (Some (trim_whitespace (substr_to pos v)), Some (substr_from (S pos) v))
      end
  end.

(** Iteration from [begin()] to [end()], the iterator of two null views; [None]
    when the fuel runs out. *)
Fixpoint split_loop (fuel : nat) (v : option string_view) (separator : byte)
    : option (list string_view) :=
  match split_first v separator with
  | (None, None) => Some []
  | (None, Some _) => None
  | (Some body, rest) =>
      match fuel with
      | O => None
      | S fuel' => let? l := split_loop fuel' rest separator in Some (body :: l)
      end
  end.

Definition SplitString (v : string_view) (separator : byte) : list string_view :=
  default [] (split_loop (S (length (chars v))) (Some v) separator).

Definition split_string_pair (v : string_view) (at_ : byte) : string_view * string_view :=
  match find_char at_ (chars v) with
  | None => (trim_whitespace v, view_of [])
  | Some pos => (trim_whitespace (substr_to pos v), trim_whitespace (substr_from (S pos) v))
  end.

(** ** Specification *)

(** [t] is [s] without the occurrences of [c] around it. *)
Definition trimmed (c : byte) (s t : list byte) : Prop :=
  (exists i j, s = replicate i c ++ t ++ replicate j c) /\ head t <> Some c /\ last t <> Some c.

Fixpoint join (c : byte) (ps : list (list byte)) : list byte :=
  match ps with
  | [] => []
  | [p] => p
  | p :: ps' => p ++ c :: join c ps'
  end.

(** The substrings between the separators. *)
Fixpoint split_on (c : byte) (s : list byte) : list (list byte) :=
  match s with
  | [] => [[]]
  | b :: s' =>
      if bool_decide (b = c) then [] :: split_on c s'
      else match split_on c s' with p :: ps => (b :: p) :: ps | [] => [[b]] end
  end.

Lemma count_while_spec c s :
  s = replicate (count_while c s) c ++ drop (count_while c s) s /\
  head (drop (count_while c s) s) <> Some c.
Proof.
  induction s as [|b s [IH1 IH2]]; simpl; [done|]. case_bool_decide as E; simpl.
  - subst b. split; [by f_equal|done].
  - split; [done|congruence].
Qed.

Lemma head_rev {A} (l : list A) : head (rev l) = last l.
Proof. rewrite rev_alt. apply head_reverse. Qed.

Lemma trim_back_spec c v :
  exists j, chars v = chars (trim_back c v) ++ replicate j c /\ last (chars (trim_back c v)) <> Some c.
Proof.
  unfold trim_back. simpl. set (s := chars v).
  destruct (count_while_spec c (rev s)) as [E H]. set (k := count_while c (rev s)) in *.
  exists k. rewrite skipn_rev in E, H. rewrite head_rev in H.
  apply (f_equal (@rev byte)) in E. rewrite rev_app_distr, !rev_involutive in E.
  split.
  - rewrite E at 1. f_equal. rewrite rev_alt. apply reverse_replicate.
  - done.
Qed.

Lemma trim_char_spec c v : trimmed c (chars v) (chars (trim_char c v)).
Proof.
  unfold trim_char. destruct (count_while_spec c (chars v)) as [E1 H1].
  destruct (trim_back_spec c (trim_front c v)) as (j & E2 & H2).
  change (chars (trim_front c v)) with (drop (count_while c (chars v)) (chars v)) in E2.
  split_and!; [|intros Hh; apply H1|done].
  - exists (count_while c (chars v)), j. by rewrite <-E2.
  - rewrite E2. by destruct (chars (trim_back c (trim_front c v))).
Qed.

Lemma find_char_None c s : find_char c s = None -> split_on c s = [s].
Proof.
  induction s as [|b s IH]; simpl; [done|]. case_bool_decide as Hb; [done|].
  intros H. destruct (find_char c s); [done|]. by rewrite IH.
Qed.

Lemma find_char_Some c s pos :
  find_char c s = Some pos ->
  split_on c s = take pos s :: split_on c (drop (S pos) s) /\ (pos < length s)%nat.
Proof.
  revert pos. induction s as [|b s IH]; intros pos; simpl; [done|]. case_bool_decide.
  - intros [= <-]. simpl. split; [done|lia].
  - intros (n & Hn & ->)%fmap_Some. destruct (IH n Hn) as [-> ?]. split; [done|lia].
Qed.

Lemma split_loop_spec sep fuel : forall v,
  (length (chars v) < fuel)%nat ->
  exists out, split_loop fuel (Some v) sep = Some out /\
    Forall2 (fun p w => trimmed " "%byte p (chars w)) (split_on sep (chars v)) out.
Proof.
  induction fuel as [|fuel IH]; intros v Hf; [lia|]. cbn [split_loop split_first].
  destruct (find_char sep (chars v)) as [pos|] eqn:E.
  - destruct (find_char_Some _ _ _ E) as [-> Hpos].
    destruct (IH (substr_from (S pos) v)) as (out & -> & Hout).
    { simpl. rewrite length_drop. lia. }
    eexists. split; [done|]. constructor; [|done]. apply (trim_char_spec " "%byte (substr_to pos v)).
  - rewrite (find_char_None _ _ E).
    assert (split_loop fuel None sep = Some []) as -> by (by destruct fuel).
    eexists. split; [done|]. constructor; [|constructor]. apply (trim_char_spec " "%byte v).
Qed.

Lemma split_on_nonempty c s : split_on c s <> [].
Proof. destruct s; simpl; [done|]. case_bool_decide; [done|]. by destruct (split_on c s). Qed.

Lemma join_split_on c s : join c (split_on c s) = s.
Proof.
  induction s as [|b s IH]; simpl; [done|]. case_bool_decide as E.
  - subst. destruct (split_on c s) eqn:Es; [by apply split_on_nonempty in Es|]. simpl in *. by rewrite IH.
  - destruct (split_on c s) as [|p ps] eqn:Es; [by apply split_on_nonempty in Es|].
    destruct ps; simpl in *; by rewrite IH.
Qed.

Lemma split_on_free c s : Forall (fun p => c ∉ p) (split_on c s).
Proof.
  induction s as [|b s IH]; simpl; [repeat constructor; apply not_elem_of_nil|].
  case_bool_decide; [constructor; [apply not_elem_of_nil|done]|].
  destruct (split_on c s) as [|p ps].
  - repeat constructor. rewrite list_elem_of_singleton. congruence.
  - apply Forall_cons in IH as [Hp Hps]. constructor; [|done]. rewrite elem_of_cons. naive_solver.
Qed.

(** ** Splitting what was joined *)

(** No occurrence of [c] at either end. *)
Definition no_margin (c : byte) (s : list byte) : Prop := head s <> Some c /\ last s <> Some c.

Lemma trimmed_no_margin c s t : no_margin c s -> trimmed c s t -> t = s.
Proof.
  intros [Hh Hl] ((i & j & ->) & _ & _). destruct i; [|done]. simpl in *.
  destruct j as [|j]; [by rewrite app_nil_r|].
  exfalso. apply Hl. rewrite replicate_S_end, app_assoc. apply last_snoc.
Qed.

Lemma trim_whitespace_no_margin v : no_margin " "%byte (chars v) -> chars (trim_whitespace v) = chars v.
Proof. intros Hm. apply (trimmed_no_margin " "%byte); [done|]. apply trim_char_spec. Qed.

Lemma no_margin_free c s : c ∉ s -> no_margin c s.
Proof.
  intros Hs. split; intros E.
  - destruct s; [done|]. injection E as ->. apply Hs. left.
  - by apply Hs, last_Some_elem_of.
Qed.

Lemma find_char_app c a b : c ∉ a -> find_char c (a ++ c :: b) = Some (length a).
Proof.
  induction a as [|x a IH]; simpl; intros Ha; [by rewrite bool_decide_true|].
  rewrite elem_of_cons in Ha. rewrite bool_decide_false by naive_solver. rewrite IH by naive_solver. done.
Qed.

Lemma split_on_free_cons c p s : c ∉ p -> split_on c (p ++ c :: s) = p :: split_on c s.
Proof.
  intros Hp. destruct (find_char_Some _ _ _ (find_char_app c p s Hp)) as [-> _].
  rewrite take_app_length, drop_app_ge by lia. by replace (S (length p) - length p)%nat with 1%nat by lia.
Qed.

Lemma split_on_one c p : c ∉ p -> split_on c p = [p].
Proof.
  induction p as [|x p IH]; simpl; intros Hp; [done|]. rewrite elem_of_cons in Hp.
  rewrite bool_decide_false by naive_solver. by rewrite IH by naive_solver.
Qed.

Lemma split_on_join c ps : ps <> [] -> Forall (fun p => c ∉ p) ps -> split_on c (join c ps) = ps.
Proof.
  intros Hne Hps. induction Hps as [|p ps Hp Hps IH]; [done|].
  destruct ps as [|q ps]; [by apply split_on_one|].
  change (join c (p :: q :: ps)) with (p ++ c :: join c (q :: ps)).
  by rewrite split_on_free_cons, IH.
Qed.

(** Splitting a joined list gives it back, when its items need no trimming. *)
Lemma SplitString_join v sep ps :
  chars v = join sep ps -> ps <> [] -> Forall (fun p => (sep ∉ p) /\ no_margin " "%byte p) ps ->
  map chars (SplitString v sep) = ps.
Proof.
  intros Hv Hne Hps. unfold SplitString.
  destruct (split_loop_spec sep (S (length (chars v))) v) as (out & -> & Hout); [lia|].
  rewrite Hv, split_on_join in Hout; [|done|by eapply Forall_impl; [exact Hps|]; intros ? []].
  simpl. clear Hv Hne. induction Hout as [|p w ps out Hpw Hout IH]; [done|]. inversion Hps as [|?? [_ Hp]]; subst.
  simpl. by rewrite (trimmed_no_margin _ _ _ Hp Hpw), IH.
Qed.

Lemma split_string_pair_spec v c k w :
  chars v = k ++ c :: w -> c ∉ k -> no_margin " "%byte k -> no_margin " "%byte w ->
  chars (fst (split_string_pair v c)) = k /\ chars (snd (split_string_pair v c)) = w.
Proof.
  intros Hv Hk Mk Mw. unfold split_string_pair. rewrite Hv, find_char_app by done.
  assert (chars (substr_to (length k) v) = k) as E1 by (simpl; by rewrite Hv, take_app_length).
  assert (chars (substr_from (S (length k)) v) = w) as E2.
  { simpl. rewrite Hv, drop_app_ge by lia. by replace (S (length k) - length k)%nat with 1%nat by lia. }
  split; cbn [fst snd]; by rewrite trim_whitespace_no_margin by (rewrite ?E1, ?E2; done).
Qed.

(** iterating over a [SplitString] ends, and yields the substrings between
    the separators, in order, each without the spaces around it: joined with the
    separator, the untrimmed substrings give back the string. *)
Theorem split_string_correct (v : string_view) (sep : byte) :
  exists ps,
    chars v = join sep ps /\ ps <> [] /\ Forall (fun p => sep ∉ p) ps /\
    split_loop (S (length (chars v))) (Some v) sep = Some (SplitString v sep) /\
    Forall2 (fun p w => trimmed " "%byte p (chars w)) ps (SplitString v sep).
Proof.
  exists (split_on sep (chars v)). unfold SplitString.
  destruct (split_loop_spec sep (S (length (chars v))) v) as (out & -> & Hout); [lia|].
  split_and!; [by rewrite join_split_on|apply split_on_nonempty|apply split_on_free|done|done].
Qed.

Example split_string_example :
  map chars (SplitString (view_of (str "foo, bar ,, baz mag,")) ","%byte)
  = [str "foo"; str "bar"; str ""; str "baz mag"; str ""].
Proof. vm_compute. reflexivity. Qed.
