(* ===== verification/Url.v ===== *)
(** * URLs: src/util/url.h and url.cpp

    [Url::from] matches a regular expression whose parts are delimited by
    characters that the preceding part cannot contain, so the match is computed
    from left to right. *)
From S2P Require Import Prelude Number.

(** ASCII case folding, as [boost::iequals] and [regex::icase] compare. *)
Definition lower (c : byte) : byte :=
  if (65 <=? code c) && (code c <=? 90) then byte_of (code c + 32) else c.

Definition lower_str (s : list byte) : list byte := map lower s.

Definition iequals (a b : list byte) : bool := bool_decide (lower_str a = lower_str b).

Record Url := {
  scheme : list byte;
  host : list byte;
  port : list byte;
  path : list byte;
  query : list byte;
  fragment : list byte;
}.

(** An optional part with its mark. *)
Definition marked (mark : byte) (part : list byte) : list byte :=
  match part with [] => [] | _ :: _ => mark :: part end.

Definition reassemble (u : Url) : list byte :=
  scheme u ++ str "://" ++ host u
  ++ marked ":" (port u)
  ++ path u
  ++ marked "?" (query u)
  ++ marked "#" (fragment u).

(** The maximal prefix whose characters satisfy [p], and the rest. *)
Fixpoint span (p : byte -> bool) (s : list byte) : list byte * list byte :=
  match s with
  | c :: s' => if p c then let '(a, b) := span p s' in (c :: a, b) else ([], s)
  | [] => ([], [])
  end.

Definition is_letter (c : byte) : bool := (97 <=? code (lower c)) && (code (lower c) <=? 122).

(** [[-\.a-z0-9]] and [[:0-9a-f]], ignoring case *)
Definition is_name_char (c : byte) : bool :=
  bool_decide (c = "-"%byte) || bool_decide (c = "."%byte) || is_letter c || is_digit c.
Definition is_ip6_char (c : byte) : bool :=
  bool_decide (c = ":"%byte) || is_digit c
  || ((97 <=? code (lower c)) && (code (lower c) <=? 102)).

(** [^(http|https)://] *)
Definition parse_scheme (s : list byte) : option (list byte * list byte) :=
  if iequals (take 7 s) (str "http://") then Some (take 4 s, drop 7 s)
  else if iequals (take 8 s) (str "https://") then Some (take 5 s, drop 8 s)
  else None.

(** [([-\.a-z0-9]+|\[[:0-9a-f]+\])] *)
Definition parse_host (s : list byte) : option (list byte * list byte) :=
  match s with
  | "["%byte :: s' =>
      match span is_ip6_char s' with
      | ((_ :: _) as h, "]"%byte :: rest) => Some ("["%byte :: h ++ ["]"%byte], rest)
      | _ => None
      end
  | _ =>
      match span is_name_char s with
      | ((_ :: _) as h, rest) => Some (h, rest)
      | _ => None
      end
  end.

(** [(:[0-9]{1,5})?]; without the colon.  Behind the host, a colon that does not
    start a port of one to five digits cannot be matched by what follows. *)
Definition parse_port (s : list byte) : option (list byte * list byte) :=
  match s with
  | ":"%byte :: s' =>
      let '(p, rest) := span is_digit s' in
      if ((1 <=? length p) && (length p <=? 5))%nat then Some (p, rest) else None
  | _ => Some ([], s)
  end.

Definition neither (a b c : byte) : bool := negb (bool_decide (c = a)) && negb (bool_decide (c = b)).

(** The optional path: a slash and what precedes a question mark or a hash. *)
Definition parse_path (s : list byte) : list byte * list byte :=
  match s with
  | "/"%byte :: s' => let '(p, rest) := span (neither "?" "#") s' in ("/"%byte :: p, rest)
  | _ => ([], s)
  end.

(** The optional query, up to a hash; without the question mark. *)
Definition parse_query (s : list byte) : list byte * list byte :=
  match s with
  | "?"%byte :: s' => span (neither "#" "#") s'
  | _ => ([], s)
  end.

(** The optional fragment, up to the end of the string; without the hash. *)
Definition parse_fragment (s : list byte) : option (list byte) :=
  match s with
  | "#"%byte :: s' => Some s'
  | [] => Some []
  | _ => None
  end.

Definition Url_from (url_s : list byte) : option Url :=
  let? (scheme, s) := parse_scheme url_s in
  let? (host, s) := parse_host s in
  let? (port, s) := parse_port s in
  let '(path, s) := parse_path s in
  let '(query, s) := parse_query s in
  let? fragment := parse_fragment s in
  Some {| scheme := scheme; host := host; port := port;
          path := path; query := query; fragment := fragment |}.

(** ** The parts of a parsed URL *)

Lemma span_app p s : let '(a, b) := span p s in s = a ++ b /\ Forall (fun c => p c = true) a /\
  match b with c :: _ => p c = false | [] => True end.
Proof.
  induction s as [|c s IH]; simpl; [done|]. destruct (p c) eqn:E; [|done].
  destruct (span p s) as [a b]. destruct IH as (-> & Ha & Hb). split_and!; [done|by constructor|done].
Qed.

Lemma span_all p a b :
  Forall (fun c => p c = true) a -> match b with c :: _ => p c = false | [] => True end ->
  span p (a ++ b) = (a, b).
Proof.
  intros Ha Hb. induction Ha as [|c a Hc Ha IH]; simpl.
  - destruct b as [|c b]; simpl; [done|]. by rewrite Hb.
  - by rewrite Hc, IH.
Qed.

(** The first character of what is left after the host. *)
Definition starts_part (s : list byte) : Prop :=
  match s with
  | [] => True
  | c :: _ => c = ":"%byte \/ c = "/"%byte \/ c = "?"%byte \/ c = "#"%byte
  end.

Definition host_ok (h : list byte) : Prop :=
  h <> [] /\
  (Forall (fun c => is_name_char c = true) h \/
   exists m, h = "["%byte :: m ++ ["]"%byte] /\ m <> [] /\ Forall (fun c => is_ip6_char c = true) m).

Record url_ok (u : Url) : Prop := {
  ok_scheme : lower_str (scheme u) = str "http" \/ lower_str (scheme u) = str "https";
  ok_host : host_ok (host u);
  ok_port : Forall (fun c => is_digit c = true) (port u) /\ (length (port u) <= 5)%nat;
  ok_path : path u = [] \/ exists p, path u = "/"%byte :: p /\ Forall (fun c => neither "?" "#" c = true) p;
  ok_query : Forall (fun c => neither "#" "#" c = true) (query u);
}.

Lemma lower_str_app_inv s x y :
  lower_str s = x ++ y -> lower_str (take (length x) s) = x.
Proof. intros E. unfold lower_str in *. by rewrite <-firstn_map, E, take_app_length. Qed.

Lemma parse_scheme_ok s sch rest :
  parse_scheme s = Some (sch, rest) ->
  lower_str sch = str "http" \/ lower_str sch = str "https".
Proof.
  unfold parse_scheme, iequals. case_bool_decide as E1; [|case_bool_decide as E2; [|done]]; intros [= <- _].
  - left. apply (lower_str_app_inv (take 7 s) (str "http") (str "://")) in E1.
    by rewrite take_take in E1.
  - right. apply (lower_str_app_inv (take 8 s) (str "https") (str "://")) in E2.
    by rewrite take_take in E2.
Qed.

Lemma parse_host_ok s h rest : parse_host s = Some (h, rest) -> host_ok h.
Proof.
  unfold parse_host, host_ok. intros H.
  assert (forall s, match span is_name_char s with
                    | ((_ :: _) as h, rest) => Some (h, rest)
                    | _ => None end = Some (h, rest) ->
          h <> [] /\ Forall (fun c => is_name_char c = true) h) as Hname.
  { intros s' Hs. pose proof (span_app is_name_char s') as Sp. destruct (span is_name_char s') as [[|c a] b]; [done|].
    simplify_eq. destruct Sp as (_ & Sp & _). by split. }
  destruct s as [|c s]; [done|]. destruct (decide (c = "["%byte)) as [->|Hne].
  - pose proof (span_app is_ip6_char s) as Sp. destruct (span is_ip6_char s) as [[|x a] [|d b]]; try done.
    destruct (decide (d = "]"%byte)) as [->|]; [|by destruct d]. simplify_eq.
    split; [done|]. right. exists (x :: a). destruct Sp as (_ & Sp & _). by split_and!.
  - destruct (Hname (c :: s)) as [H1 H2]; [by destruct c|]. split; [done|by left].
Qed.

Lemma Url_from_ok s u : Url_from s = Some u -> url_ok u.
Proof.
  unfold Url_from.
  destruct (parse_scheme s) as [[sch s1]|] eqn:E1; [|done].
  destruct (parse_host s1) as [[h s2]|] eqn:E2; [|done].
  destruct (parse_port s2) as [[p s3]|] eqn:E3; [|done].
  destruct (parse_path s3) as [pa s4] eqn:E4. destruct (parse_query s4) as [q s5] eqn:E5.
  destruct (parse_fragment s5) as [f|] eqn:E6; [|done]. intros [= <-]. split; simpl.
  - by eapply parse_scheme_ok.
  - by eapply parse_host_ok.
  - destruct s2 as [|c s2]; [simplify_eq/=; split; [constructor|lia]|]. destruct (decide (c = ":"%byte)) as [->|].
    + cbn [parse_port] in E3. pose proof (span_app is_digit s2) as Sp. destruct (span is_digit s2) as [a b].
      destruct ((1 <=? length a)%nat && (length a <=? 5)%nat) eqn:El; [|done]. simplify_eq.
      split; [apply Sp|]. apply andb_true_iff in El as [_ El]. by apply Nat.leb_le.
    + assert (p = []) as -> by (destruct c; by simplify_eq/=). split; [constructor|simpl; lia].
  - destruct s3 as [|c s3]; [left; by simplify_eq/=|]. destruct (decide (c = "/"%byte)) as [->|].
    + simpl in E4. pose proof (span_app (neither "?" "#") s3) as Sp. destruct (span (neither "?" "#") s3) as [a b].
      simplify_eq. right. exists a. split; [done|apply Sp].
    + left. destruct c; by simplify_eq/=.
  - destruct s4 as [|c s4]; [simplify_eq/=; constructor|]. destruct (decide (c = "?"%byte)) as [->|].
    + simpl in E5. pose proof (span_app (neither "#" "#") s4) as Sp. rewrite E5 in Sp. apply Sp.
    + assert (q = []) as -> by (destruct c; by simplify_eq/=). constructor.
Qed.

(** ** Parsing what was printed *)

Lemma parse_scheme_print sch rest :
  lower_str sch = str "http" \/ lower_str sch = str "https" ->
  parse_scheme (sch ++ str "://" ++ rest) = Some (sch, rest).
Proof.
  intros H. unfold parse_scheme, iequals.
  assert (forall k x, length sch = k -> lower_str sch = x ->
    take k (sch ++ str "://" ++ rest) = sch /\ drop (k + 3) (sch ++ str "://" ++ rest) = rest /\
    lower_str (take (k + 3) (sch ++ str "://" ++ rest)) = x ++ str "://") as Hk.
  { intros k x Hl Hx. rewrite app_assoc, <-app_assoc. split_and!.
    - by apply take_app_length'.
    - rewrite app_assoc. apply drop_app_length'. rewrite length_app, Hl. done.
    - rewrite app_assoc, take_app_length' by (rewrite length_app, Hl; done).
      unfold lower_str in *. by rewrite map_app, Hx. }
  assert (length sch = length (lower_str sch)) as El by (unfold lower_str; by rewrite length_map).
  destruct H as [H|H]; rewrite H in El.
  - destruct (Hk 4%nat _ El H) as (T & D & L). cbn [plus] in D, L. rewrite bool_decide_true by exact L. by rewrite T, D.
  - destruct (Hk 5%nat _ El H) as (T & D & L). cbn [plus] in D, L. rewrite bool_decide_false.
    + rewrite bool_decide_true by exact L. by rewrite T, D.
    + intros E. apply (f_equal (take 7)) in L. unfold lower_str in *.
      rewrite <-firstn_map, take_take in L. rewrite <-firstn_map in E. simpl in L, E. congruence.
Qed.

Lemma parse_host_print h rest :
  host_ok h -> starts_part rest -> parse_host (h ++ rest) = Some (h, rest).
Proof.
  intros [Hne Hh] Hr.
  assert (forall p : byte -> bool, p ":"%byte = false -> p "/"%byte = false -> p "?"%byte = false ->
          p "#"%byte = false -> match rest with c :: _ => p c = false | [] => True end) as Hp.
  { intros p ? ? ? ?. destruct rest as [|c rest]; [done|]. simpl in Hr. naive_solver. }
  destruct Hh as [Hh|(m & -> & Hm & Hi)].
  - pose proof (span_all is_name_char h rest Hh ltac:(by apply Hp)) as Sp.
    destruct h as [|c h]; [done|]. apply Forall_cons in Hh as [Hc Hh]. cbn [app parse_host] in *.
    destruct (decide (c = "["%byte)) as [->|]; [done|].
    destruct c; try done; by rewrite Sp.
  - cbn [app parse_host]. rewrite <-app_assoc.
    rewrite (span_all is_ip6_char m (["]"%byte] ++ rest) Hi); [|done].
    by destruct m.
Qed.

Lemma parse_port_print p rest :
  Forall (fun c => is_digit c = true) p -> (length p <= 5)%nat ->
  match rest with c :: _ => is_digit c = false /\ c <> ":"%byte | [] => True end ->
  parse_port (marked ":" p ++ rest) = Some (p, rest).
Proof.
  intros Hp Hl Hr. destruct p as [|c p].
  - simpl. destruct rest as [|c rest]; [done|]. destruct Hr as [_ Hr]. by destruct c.
  - assert (span is_digit ((c :: p) ++ rest) = (c :: p, rest)) as Sp.
    { apply span_all; [done|]. by destruct rest; [|apply Hr]. }
    cbn [marked app parse_port] in *. rewrite Sp.
    replace ((1 <=? length (c :: p))%nat && (length (c :: p) <=? 5)%nat) with true; [done|].
    symmetry. apply andb_true_iff. split; apply Nat.leb_le; simpl in *; lia.
Qed.

Lemma parse_path_print p rest :
  (p = [] \/ exists p', p = "/"%byte :: p' /\ Forall (fun c => neither "?" "#" c = true) p') ->
  match rest with c :: _ => c = "?"%byte \/ c = "#"%byte | [] => True end ->
  parse_path (p ++ rest) = (p, rest).
Proof.
  intros [->|(p' & -> & Hp)] Hr.
  - destruct rest as [|c rest]; [done|]. by destruct Hr as [-> | ->].
  - cbn [app parse_path]. rewrite (span_all _ p' rest Hp); [done|].
    destruct rest as [|c rest]; [done|]. by destruct Hr as [-> | ->].
Qed.

Lemma parse_query_print q rest :
  Forall (fun c => neither "#" "#" c = true) q ->
  match rest with c :: _ => c = "#"%byte | [] => True end ->
  parse_query (marked "?" q ++ rest) = (q, rest).
Proof.
  intros Hq Hr. destruct q as [|c q].
  - destruct rest as [|c rest]; [done|]. by subst c.
  - cbn [marked app parse_query]. apply (span_all _ (c :: q) rest); [done|].
    destruct rest as [|c' rest]; [done|]. by subst c'.
Qed.

Lemma Url_from_reassemble u : url_ok u -> Url_from (reassemble u) = Some u.
Proof.
  intros [Hs Hh [Hp Hl] Hpa Hq]. unfold Url_from, reassemble.
  set (F := marked "#" (fragment u)).
  set (Q := marked "?" (query u) ++ F).
  set (P := marked ":" (port u) ++ path u ++ Q).
  assert (match F with c :: _ => c = "#"%byte | [] => True end) as HF.
  { unfold F. by destruct (fragment u). }
  assert (match Q with c :: _ => c = "?"%byte \/ c = "#"%byte | [] => True end) as HQ.
  { unfold Q. destruct (query u); [|by left]. simpl. destruct F; [done|by right]. }
  assert (match path u ++ Q with c :: _ => c = "/"%byte \/ c = "?"%byte \/ c = "#"%byte | [] => True end) as HR.
  { destruct Hpa as [->|(p' & -> & _)]; [|by left]. simpl. destruct Q; [done|by right]. }
  rewrite parse_scheme_print by done. rewrite parse_host_print; [|done|].
  2: { unfold P. destruct (port u); [|by left]. simpl. destruct (path u ++ Q); [done|by right]. }
  unfold P. rewrite parse_port_print; [|done|done|].
  2: { destruct (path u ++ Q); [done|]. by destruct HR as [->|[->| ->]]. }
  rewrite parse_path_print by done. unfold Q. rewrite parse_query_print by done.
  assert (parse_fragment F = Some (fragment u)) as ->.
  { unfold F. by destruct (fragment u). }
  by destruct u.
Qed.

(** a URL that was parsed is printed to a string that parses to the same
    URL. *)
Theorem url_roundtrip (s : list byte) (u : Url) :
  Url_from s = Some u -> Url_from (reassemble u) = Some u.
Proof. intros H. by apply Url_from_reassemble, (Url_from_ok s). Qed.

Lemma url_roundtrip_witness :
  Url_from (str "https://[::1]:8080/a?b") = Some
    {| scheme := str "https"; host := str "[::1]"; port := str "8080";
       path := str "/a"; query := str "b"; fragment := [] |}.
Proof.
  apply (url_roundtrip (str "https://[::1]:8080/a?b#")
    {| scheme := str "https"; host := str "[::1]"; port := str "8080";
       path := str "/a"; query := str "b"; fragment := [] |}).
  vm_compute. reflexivity.
Defined.
