(* ===== verification/Http.v ===== *)
(** * HTTP messages: src/http_util.h, http_util.cpp and constants.h

    Header fields, the filters that make a request or a response fit for the
    injector, the origin or the cache, byte ranges and protocol versions.

    A message header (Boost.Beast) is the list of its fields in order; names are
    compared without case.  Beast's table of standard field names is a parameter:
    a name that is not in it has the enumeration value [unknown]. *)
From S2P Require Import Prelude Number SplitString Url.

Abbreviation fields := (list (list byte * list byte)).

(** ** Header fields *)

Definition same_name (name : list byte) (f : list byte * list byte) : bool := iequals (fst f) name.

(** [find]: the first field of that name; [operator[]]: its value or the empty
    string. *)
Definition find_field (name : list byte) (fs : fields) : option (list byte) :=
  snd <$> List.find (same_name name) fs.
Definition field_value (name : list byte) (fs : fields) : list byte :=
  default [] (find_field name fs).
Definition erase_field (name : list byte) (fs : fields) : fields :=
  List.filter (fun f => negb (same_name name f)) fs.
(** [set] replaces all fields of that name. *)
Definition set_field (name value : list byte) (fs : fields) : fields :=
  erase_field name fs ++ [(name, value)].
(** [insert] puts the field behind the last one of that name, or at the end. *)
Fixpoint insert_field (name value : list byte) (fs : fields) : fields :=
  match fs with
  | [] => [(name, value)]
  | f :: fs' =>
      if same_name name f && negb (existsb (same_name name) fs')
      then f :: (name, value) :: fs'
      else f :: insert_field name value fs'
  end.

(** The value of a field as a view: in the buffer, a line end follows it. *)
Definition field_view (value : list byte) : string_view :=
  {| chars := value; behind := [Byte.x0d; Byte.x0a] |}.

Record request_header := {
  method : list byte;
  target : list byte;
  version : Z;
  rq_fields : fields;
}.

Record response_header := { result : Z; rs_version : Z; rs_fields : fields }.

Definition set_rq_fields (rq : request_header) (fs : fields) : request_header :=
  {| method := method rq; target := target rq; version := version rq; rq_fields := fs |}.
Definition set_target (rq : request_header) (t : list byte) : request_header :=
  {| method := method rq; target := t; version := version rq; rq_fields := rq_fields rq |}.
Definition set_version (rq : request_header) (v : Z) : request_header :=
  {| method := method rq; target := target rq; version := v; rq_fields := rq_fields rq |}.
Definition set_rs_fields (rs : response_header) (fs : fields) : response_header :=
  {| result := result rs; rs_version := rs_version rs; rs_fields := fs |}.

(** ** Constants *)

Definition header_prefix : list byte := str "X-Ouinet-".
Definition protocol_version_hdr : list byte := header_prefix ++ str "Version".
Definition protocol_version_hdr_current : list byte := str "7".
Definition protocol_version_current : Z := 7.
Definition response_error_hdr : list byte := header_prefix ++ str "Error".
Definition response_error_hdr_version_too_low : list byte := str "1 Client's version too low".
Definition response_error_hdr_version_too_high : list byte := str "2 Client's version too high".
Definition response_injection_hdr : list byte := header_prefix ++ str "Injection".
Definition request_druid_hdr : list byte := str "X-Ouinet-DRUID".
Definition request_group_hdr : list byte := header_prefix ++ str "Group".
Definition request_private_hdr : list byte := header_prefix ++ str "Private".
Definition request_private_true : list byte := str "true".

(** [protocol_version_rx]: one or more digits. *)
Definition matches_protocol_version (s : list byte) : bool :=
  match s with [] => false | _ :: _ => forallb is_digit s end.

(** [response_error_rx]: digits, a space, printable characters the first of which
    is not a space. *)
Definition matches_response_error (s : list byte) : bool :=
  match span is_digit s with
  | (_ :: _, sp :: c :: rest) =>
      bool_decide (sp = " "%byte)
      && ((33 <=? code c) && (code c <=? 126))
      && forallb (fun b => (32 <=? code b) && (code b <=? 126)) rest
  | _ => false
  end.

(** ** Field filters *)

Inductive field := unknown | known (name : list byte).

Class FieldTable := { is_standard : list byte -> bool }.

(** How a filter names a field: [http::field] or a string. *)
Inductive field_spec := ByEnum (f : field) | ByName (name : list byte).

#[global] Instance field_eq_dec : EqDecision field.
Proof. solve_decision. Defined.

Definition std (name : String.string) : field_spec := ByEnum (known (str name)).

Section Filters.
Context `{FieldTable}.

Definition string_to_field (name : list byte) : field :=
  if is_standard name then known (lower_str name) else unknown.

(** [Compare<First>::is_same] *)
Definition is_same (f : list byte * list byte) (spec : field_spec) : bool :=
  match spec with
  | ByEnum g => bool_decide (string_to_field (fst f) = g)
  | ByName name => iequals (fst f) name
  end.

Definition field_is_one_of (f : list byte * list byte) (specs : list field_spec) : bool :=
  existsb (is_same f) specs.

Definition filter_fields (keep : list field_spec) (fs : fields) : fields :=
  List.filter (fun f => field_is_one_of f keep) fs.

Definition istarts_with (s prefix : list byte) : bool :=
  iequals (take (length prefix) s) prefix.

Definition remove_ouinet_fields (fs : fields) : fields :=
  List.filter (fun f => negb (istarts_with (fst f) header_prefix)) fs.

Definition remove_ouinet_nonerrors (fs : fields) : fields :=
  let proto_err := field_value response_error_hdr fs in
  let fs := remove_ouinet_fields fs in
  if negb (matches_response_error proto_err) then fs
  else set_field response_error_hdr proto_err
         (set_field protocol_version_hdr (to_string protocol_version_current) fs).

(** ** Requests *)

(** The position of the first occurrence of [p] in [s]. *)
Fixpoint find_sub (p s : list byte) : option nat :=
  if bool_decide (take (length p) s = p) then Some O
  else match s with
       | [] => None
       | _ :: s' => S <$> find_sub p s'
       end.

(** [absolute_target.find(path, from)] and [substr]; [None] stands for the
    [std::out_of_range] that [substr(npos)] throws. *)
Definition substr_find (s p : list byte) (from : nat) : option (list byte) :=
  (fun n => drop (from + n) s) <$> find_sub p (drop from s).

Definition req_form_from_absolute_to_origin (rq : request_header) : option request_header :=
  match Url_from (target rq) with
  | None => Some rq
  | Some url =>
      set_target rq <$> substr_find (target rq) (path url) (length (scheme url) + 3)
  end.

Definition canonical_url (u : Url) : list byte :=
  reassemble {| scheme := scheme u; host := host u; port := port u;
                path := path u; query := query u; fragment := [] |}.

Definition canonical_user_agent : list byte :=
  str "Mozilla/5.0 (Windows NT 10.0; rv:109.0) Gecko/20100101 Firefox/115.0".

Definition canonical_fields : list field_spec :=
  [ std "connection"; std "host"; std "accept"; std "accept-encoding"; ByName (str "DNT");
    std "from"; std "origin"; ByName (str "Upgrade-Insecure-Requests"); std "user-agent" ].

Definition url_host (u : Url) : list byte :=
  match port u with [] => host u | _ :: _ => host u ++ str ":" ++ port u end.

Definition to_canonical_request (keep : list field_spec) (rq : request_header) : option request_header :=
  let? url := Url_from (target rq) in
  let rq := set_version (set_target rq (canonical_url url)) 11 in
  let fs := set_field (str "Host") (url_host url) (rq_fields rq) in
  let fs := set_field (str "Accept") (str "*/*") fs in
  let fs := set_field (str "Accept-Encoding") (str "") fs in
  let fs := set_field (str "DNT") (str "1") fs in
  let fs := set_field (str "Upgrade-Insecure-Requests") (str "1") fs in
  let fs := set_field (str "User-Agent") canonical_user_agent fs in
  Some (set_rq_fields rq (filter_fields (canonical_fields ++ keep) fs)).

Definition injector_fields : list field_spec :=
  [ std "proxy-authorization"; std "cache-control"; std "if-match"; std "if-modified-since";
    std "if-none-match"; std "if-range"; std "if-unmodified-since"; std "pragma"; std "range";
    ByEnum (string_to_field request_druid_hdr); ByEnum (string_to_field protocol_version_hdr) ].

Definition to_injector_request (rq : request_header) : option request_header :=
  to_canonical_request injector_fields
    (set_rq_fields rq (set_field protocol_version_hdr protocol_version_hdr_current (rq_fields rq))).

Definition to_cache_request (rq : request_header) : option request_header :=
  to_canonical_request [] rq.

Definition to_origin_request (rq : request_header) : option request_header :=
  let? rq := req_form_from_absolute_to_origin rq in
  Some (set_rq_fields rq (remove_ouinet_fields (erase_field (str "Proxy-Authorization") (rq_fields rq)))).

(** ** Responses *)

Definition cache_response_fields : list field_spec :=
  [ std "server"; std "retry-after"; std "content-length"; std "content-type"; std "content-encoding";
    std "content-language"; std "digest"; std "transfer-encoding"; std "accept-ranges"; std "etag";
    std "age"; std "date"; std "expires"; std "via"; std "vary"; std "location"; std "cache-control";
    std "warning"; std "last-modified"; std "access-control-allow-origin";
    std "access-control-allow-credentials"; std "access-control-allow-methods";
    std "access-control-allow-headers"; std "access-control-max-age";
    std "access-control-expose-headers" ].

(** The flag of the result is the error code [invalid_argument]. *)
Definition to_cache_response (rs : response_header) : bool * response_header :=
  let rs_te := field_value (str "Transfer-Encoding") (rs_fields rs) in
  if negb (bool_decide (rs_te = [])) && negb (iequals rs_te (str "chunked")) then (true, rs)
  else (false, set_rs_fields rs (filter_fields cache_response_fields (remove_ouinet_fields (rs_fields rs)))).

End Filters.

(** The value of a field of the injection header; the empty view if it is missing. *)
Fixpoint injection_item (items : list string_view) (name : list byte) : string_view :=
  match items with
  | [] => view_of []
  | item :: items' =>
      let '(k, v) := split_string_pair item "="%byte in
      if bool_decide (chars k = name) then v else injection_item items' name
  end.

Definition http_injection_field (rsh : response_header) (name : list byte) : string_view :=
  match field_value response_injection_hdr (rs_fields rsh) with
  | [] => view_of []
  | ih => injection_item (SplitString (field_view ih) ","%byte) name
  end.

Definition http_injection_id (rsh : response_header) : string_view := http_injection_field rsh (str "id").
Definition http_injection_ts (rsh : response_header) : string_view := http_injection_field rsh (str "ts").

(** [parse::number] on a view. *)
Definition number_of_view (w : width) (v : string_view) : option Z * string_view :=
  let '(n, rest) := number_unsigned w (next_byte v) (chars v) in
  (n, {| chars := rest; behind := behind v |}).

(** ** Protocol versions *)

(** [http_proto_version_error]: [None] when the versions agree; otherwise the
    error fields of the response.  An unparsable version counts as zero. *)
Definition http_proto_version_error (oui_version server_string : string_view) : option fields :=
  let version := default 0 (fst (number_of_view W4 oui_version)) in
  let supported_version := default (2 ^ 32 - 1) (fst (number_of_view W4 (view_of protocol_version_hdr_current))) in
  if version =? supported_version then None else
  let fs := set_field (str "Server") (chars server_string)
              (set_field protocol_version_hdr (chars oui_version) []) in
  Some (if version <? supported_version then set_field response_error_hdr response_error_hdr_version_too_low fs
        else set_field response_error_hdr response_error_hdr_version_too_high fs).

(** [http_proto_version_check_trusted], with the updated newest version.  [None]
    is the undefined behaviour of dereferencing an empty optional. *)
Definition http_proto_version_check_trusted (proto_vs : string_view) (newest_proto_seen : Z)
    : option (bool * Z) :=
  if negb (matches_protocol_version (chars proto_vs)) then Some (false, newest_proto_seen)
  else
    let? proto_vn := fst (number_of_view W4 proto_vs) in
    let newest := if newest_proto_seen <? proto_vn then proto_vn else newest_proto_seen in
    Some (proto_vn =? protocol_version_current, newest).

(** ** Byte ranges *)

Record HttpResponseByteRange := { first : Z; last : Z; length_ : option Z }.

(** The regular expression of [Content-Range] values; the third group is a star. *)
Definition match_content_range (s : list byte) : option bool :=
  if bool_decide (take 6 s = str "bytes ") then
    match span is_digit (drop 6 s) with
    | (_ :: _, "-"%byte :: s1) =>
        match span is_digit s1 with
        | (_ :: _, "/"%byte :: s2) =>
            match span is_digit s2 with
            | (_ :: _, []) => Some false
            | ([], ["*"%byte]) => Some true
            | _ => None
            end
        | _ => None
        end
    | _ => None
    end
  else None.

Definition skip (n : nat) (v : string_view) : string_view := substr_from n v.

Definition HttpResponseByteRange_parse (s : string_view) : option HttpResponseByteRange :=
  let? star := match_content_range (chars s) in
  match number_of_view W8 (skip 6 s) with
  | (None, _) => None
  | (Some first, s) =>
      match number_of_view W8 (skip 1 s) with
      | (None, _) => None
      | (Some last, s) =>
          let '(length, _) := number_of_view W8 (skip 1 s) in
          if negb star && bool_decide (length = None) then None
          else if (last <? first) || match length with Some l => l <=? last | None => false end then None
          else Some {| first := first; last := last; length_ := length |}
      end
  end.

(** The part of a range behind the slash. *)
Definition length_text (o : option Z) : list byte :=
  match o with Some l => to_string l | None => str "*" end.

Definition HttpResponseByteRange_print (br : HttpResponseByteRange) : list byte :=
  str "bytes " ++ to_string (first br) ++ str "-" ++ to_string (last br) ++ str "/"
  ++ length_text (length_ br).

Definition matches_length (s : Z) (br : HttpResponseByteRange) : bool :=
  match length_ br with Some l => l =? s | None => false end.

Definition matches_length_view (ls : string_view) (br : HttpResponseByteRange) : bool :=
  match fst (number_of_view W8 ls) with
  | Some s => matches_length s br
  | None => match length_ br with Some _ => false | None => true end
  end.

(** [HttpRequestByteRange::parse] *)
Definition consume (what : list byte) (v : string_view) : option string_view :=
  if bool_decide (take (length what) (chars v) = what) then Some (skip (length what) v) else None.

Definition trim_ws (v : string_view) : string_view := trim_front " "%byte v.

(** One iteration of the loop: a range and what follows it. *)
Definition parse_range (v : string_view) : option (Z * Z * string_view) :=
  match number_of_view W8 v with
  | (None, _) => None
  | (Some first, v) =>
      let? v := consume (str "-") (trim_ws v) in
      match number_of_view W8 (trim_ws v) with
      | (None, _) => None
      | (Some last, v) => Some (first, last, trim_ws v)
      end
  end.

(** The loop; the outer [None] is exhausted fuel. *)
Fixpoint parse_ranges (fuel : nat) (ranges : list (Z * Z)) (v : string_view)
    : option (option (list (Z * Z))) :=
  match fuel with
  | O => None
  | S fuel' =>
      match parse_range v with
      | None => Some None
      | Some (first, last, v) =>
          let ranges := ranges ++ [(first, last)] in
          match consume (str ",") v with
          | None => Some (Some ranges)
          | Some v => parse_ranges fuel' ranges (trim_ws v)
          end
      end
  end.

Definition HttpRequestByteRange_parse (v : string_view) : option (option (list (Z * Z))) :=
  match consume (str "bytes") (trim_ws v) with
  | None => Some None
  | Some v =>
      match consume (str "=") (trim_ws v) with
      | None => Some None
      | Some v => parse_ranges (S (length (chars v))) [] (trim_ws v)
      end
  end.

(** ** Lookup in filtered fields *)

Lemma iequals_true a b : iequals a b = true <-> lower_str a = lower_str b.
Proof. unfold iequals. by rewrite bool_decide_eq_true. Qed.

Lemma iequals_trans a b c : iequals a b = true -> iequals a c = iequals b c.
Proof. rewrite iequals_true. unfold iequals. by intros ->. Qed.

Lemma find_app_None {A} (p : A -> bool) l k :
  Forall (fun x => p x = false) l -> List.find p (l ++ k) = List.find p k.
Proof. induction 1 as [|x l Hx Hl IH]; simpl; [done|]. by rewrite Hx. Qed.

Lemma erase_field_free name fs : Forall (fun f => same_name name f = false) (erase_field name fs).
Proof.
  apply Forall_forall. intros f Hf. unfold erase_field in Hf.
  apply list_elem_of_In, filter_In in Hf as [_ Hf]. by apply negb_true_iff.
Qed.

Lemma find_set_same name value fs : find_field name (set_field name value fs) = Some value.
Proof.
  unfold find_field, set_field. rewrite find_app_None by apply erase_field_free. simpl.
  replace (same_name name (name, value)) with true; [done|]. symmetry. by apply iequals_true.
Qed.

Lemma find_filter {A} (p q : A -> bool) l :
  (forall x, p x = true -> q x = true) -> List.find p (List.filter q l) = List.find p l.
Proof.
  intros Hpq. induction l as [|x l IH]; simpl; [done|]. destruct (q x) eqn:Eq; simpl.
  - by rewrite IH.
  - destruct (p x) eqn:Ep; [by rewrite (Hpq x Ep) in Eq|done].
Qed.

Lemma find_app_last {A} (p : A -> bool) l x : p x = false -> List.find p (l ++ [x]) = List.find p l.
Proof. intros Hx. induction l as [|y l IH]; simpl; [by rewrite Hx|]. by rewrite IH. Qed.

Lemma find_set_other name name' value fs :
  iequals name' name = false -> find_field name (set_field name' value fs) = find_field name fs.
Proof.
  intros Hne. unfold find_field, set_field. f_equal. rewrite find_app_last by done.
  apply find_filter. intros f Hf. apply negb_true_iff. unfold same_name in *.
  destruct (iequals (fst f) name') eqn:E; [|done]. rewrite (iequals_trans _ _ _ E) in Hf. congruence.
Qed.

Lemma elem_of_set_field name value fs f :
  f ∈ fs -> same_name name f = false -> f ∈ set_field name value fs.
Proof.
  intros Hf Hn. unfold set_field, erase_field. apply elem_of_app. left.
  apply list_elem_of_In, filter_In. rewrite Hn. split; [by apply list_elem_of_In|done].
Qed.

(** ** What Beast's table of fields is assumed to say *)

Class FieldTableLaws (T : FieldTable) : Prop := {
  standard_icase a b : lower_str a = lower_str b -> is_standard a = is_standard b;
  standard_names : Forall (fun n => is_standard n = true)
    [str "Host"; str "Accept"; str "Accept-Encoding"; str "User-Agent"];
  ouinet_not_standard : is_standard request_druid_hdr = false;
}.

Section Properties.
Context {T : FieldTable} {L : FieldTableLaws T}.

Lemma standard_is_same name f :
  is_standard name = true -> same_name name f = true -> is_same f (ByEnum (known (lower_str name))) = true.
Proof.
  intros Hs Hf. apply iequals_true in Hf. simpl. apply bool_decide_eq_true.
  unfold string_to_field. rewrite (standard_icase _ _ Hf), Hs. by rewrite Hf.
Qed.

Lemma find_filter_fields name keep fs :
  (forall f, same_name name f = true -> field_is_one_of f keep = true) ->
  find_field name (filter_fields keep fs) = find_field name fs.
Proof. intros H. unfold find_field, filter_fields. by rewrite find_filter. Qed.

(** A field kept by a filter of standard names and literals has one of them. *)
Definition spec_name (s : field_spec) : list byte :=
  match s with ByEnum (known n) => n | ByEnum unknown => [] | ByName n => n end.

Lemma lower_idem c : lower (lower c) = lower c.
Proof. by destruct c. Qed.

Lemma lower_str_idem s : lower_str (lower_str s) = lower_str s.
Proof. unfold lower_str. rewrite map_map. apply map_ext, lower_idem. Qed.

Lemma kept_name keep fs f :
  Forall (fun s => s <> ByEnum unknown) keep -> f ∈ filter_fields keep fs ->
  existsb (fun s => iequals (fst f) (spec_name s)) keep = true /\ f ∈ fs.
Proof.
  intros Hk Hf. unfold filter_fields in Hf. apply list_elem_of_In, filter_In in Hf as [Hin Hf].
  split; [|by apply list_elem_of_In]. unfold field_is_one_of in Hf.
  apply existsb_exists in Hf as (s & Hs & Hsame). apply existsb_exists. exists s. split; [done|].
  rewrite Forall_forall in Hk. specialize (Hk s (proj2 (list_elem_of_In _ _) Hs)).
  destruct s as [[|n]|n]; simpl in *; [done| |done].
  apply bool_decide_eq_true in Hsame. unfold string_to_field in Hsame.
  destruct (is_standard (fst f)); [|done]. simplify_eq. apply iequals_true. by rewrite lower_str_idem.
Qed.

(** The fields that a request for the cache may have. *)
Definition cache_request_names : list (list byte) :=
  [ str "connection"; str "host"; str "accept"; str "accept-encoding"; str "dnt";
    str "from"; str "origin"; str "upgrade-insecure-requests"; str "user-agent" ].

Lemma is_one_of_std name keep f :
  is_standard name = true -> In (ByEnum (known (lower_str name))) keep -> same_name name f = true ->
  field_is_one_of f keep = true.
Proof.
  intros Hs Hin Hf. apply existsb_exists. eexists. split; [exact Hin|]. by apply standard_is_same.
Qed.

Lemma is_one_of_name name keep f :
  In (ByName name) keep -> same_name name f = true -> field_is_one_of f keep = true.
Proof. intros Hin Hf. apply existsb_exists. eexists. split; [exact Hin|]. done. Qed.

(** a request for the cache reveals nothing but its URL: its target is the
    URL without the fragment, its fields are among nine names, and the ones that
    could tell agents apart have the canonical values. *)
Theorem cache_request_is_canonical (rq rq' : request_header) :
  to_cache_request rq = Some rq' ->
  exists u, Url_from (target rq) = Some u /\
    target rq' = canonical_url u /\ version rq' = 11 /\ method rq' = method rq /\
    Forall (fun f => existsb (fun n => iequals (fst f) n) cache_request_names = true) (rq_fields rq') /\
    find_field (str "Host") (rq_fields rq') = Some (url_host u) /\
    find_field (str "Accept") (rq_fields rq') = Some (str "*/*") /\
    find_field (str "Accept-Encoding") (rq_fields rq') = Some (str "") /\
    find_field (str "DNT") (rq_fields rq') = Some (str "1") /\
    find_field (str "Upgrade-Insecure-Requests") (rq_fields rq') = Some (str "1") /\
    find_field (str "User-Agent") (rq_fields rq') = Some canonical_user_agent.
Proof.
  unfold to_cache_request, to_canonical_request. destruct (Url_from (target rq)) as [u|]; [|done].
  intros [= <-]. exists u. cbn [target version method rq_fields set_rq_fields set_version set_target].
  pose proof standard_names as Hstd. rewrite !Forall_cons in Hstd. destruct Hstd as (S1 & S2 & S3 & S4 & _).
  set (fs := set_field (str "User-Agent") _ _).
  split_and!; try done.
  { apply Forall_forall. intros f Hf. apply kept_name in Hf as [Hf _]; [done|].
    repeat (constructor; [done|]). constructor. }
  - rewrite find_filter_fields by (intros f; apply is_one_of_std; [done|simpl; tauto]).
    unfold fs. rewrite !find_set_other by done. apply find_set_same.
  - rewrite find_filter_fields by (intros f; apply is_one_of_std; [done|simpl; tauto]).
    unfold fs. rewrite !find_set_other by done. apply find_set_same.
  - rewrite find_filter_fields by (intros f; apply is_one_of_std; [done|simpl; tauto]).
    unfold fs. rewrite !find_set_other by done. apply find_set_same.
  - rewrite find_filter_fields by (intros f; apply is_one_of_name; simpl; tauto).
    unfold fs. rewrite !find_set_other by done. apply find_set_same.
  - rewrite find_filter_fields by (intros f; apply is_one_of_name; simpl; tauto).
    unfold fs. rewrite !find_set_other by done. apply find_set_same.
  - rewrite find_filter_fields by (intros f; apply is_one_of_std; [done|simpl; tauto]).
    apply find_set_same.
Qed.

Lemma not_standard_differs name n :
  is_standard name = false -> is_standard n = true -> iequals name n = false.
Proof.
  intros H1 H2. destruct (iequals name n) eqn:E; [|done]. apply iequals_true, standard_icase in E. congruence.
Qed.

(** a request for the injector keeps every field with a name that Beast
    does not know, other than the three that it overwrites: the names of Ouinet's
    own fields are mapped to the enumeration value [unknown], which all such
    fields share. *)
Theorem injector_request_keeps_unknown (rq rq' : request_header) (name value : list byte) :
  is_standard name = false ->
  Forall (fun n => iequals name n = false)
    [protocol_version_hdr; str "DNT"; str "Upgrade-Insecure-Requests"] ->
  (name, value) ∈ rq_fields rq ->
  to_injector_request rq = Some rq' ->
  (name, value) ∈ rq_fields rq'.
Proof.
  intros Hns Hne Hin. rewrite !Forall_cons in Hne. destruct Hne as (N1 & N2 & N3 & _).
  pose proof standard_names as Hstd. rewrite !Forall_cons in Hstd. destruct Hstd as (S1 & S2 & S3 & S4 & _).
  unfold to_injector_request, to_canonical_request. cbn [target set_rq_fields].
  destruct (Url_from (target rq)) as [u|]; [|done]. intros [= <-]. cbn [rq_fields set_rq_fields].
  unfold filter_fields. apply list_elem_of_In, filter_In. split.
  - apply list_elem_of_In. cbn [rq_fields set_rq_fields set_version set_target].
    repeat (apply elem_of_set_field; [|by first [done | apply not_standard_differs]]). done.
  - apply existsb_exists. exists (ByEnum (string_to_field request_druid_hdr)). split.
    + apply (in_or_app canonical_fields injector_fields). right. simpl. tauto.
    + simpl. apply bool_decide_eq_true. unfold string_to_field. simpl. by rewrite Hns, ouinet_not_standard.
Qed.

End Properties.

(** ** Byte ranges *)

Lemma to_string_digits z :
  0 <= z -> exists c ds, to_string z = c :: ds /\ Forall (fun c => is_digit c = true) (c :: ds).
Proof.
  intros Hz. rewrite to_string_abs. destruct (Z.ltb_spec z 0); [lia|]. simpl.
  destruct (abs_digits_spec z) as (H1 & _ & H3). destruct (abs_digits z) as [|c ds]; [done|].
  exists c, ds. split; [done|exact H1].
Qed.

Lemma span_to_string z rest :
  0 <= z -> no_digit rest ->
  exists c ds, to_string z = c :: ds /\ span is_digit (to_string z ++ rest) = (c :: ds, rest).
Proof.
  intros Hz Hr. destruct (to_string_digits z Hz) as (c & ds & E & Hd). exists c, ds. split; [done|].
  rewrite E. apply span_all; [done|]. destruct rest as [|b rest]; [done|].
  unfold no_digit in Hr. simpl in Hr. by destruct (is_digit b).
Qed.

Definition range_ok (br : HttpResponseByteRange) : Prop :=
  0 <= first br <= last br /\ last br < unsigned_max W8 /\
  match length_ br with Some l => last br < l < unsigned_max W8 | None => True end.

Lemma match_content_range_print br :
  range_ok br -> match_content_range (HttpResponseByteRange_print br) =
    Some (match length_ br with Some _ => false | None => true end).
Proof.
  intros (H1 & H2 & H3). unfold match_content_range, HttpResponseByteRange_print.
  rewrite bool_decide_true by done. change (drop 6 (str "bytes " ++ ?x)) with x.
  destruct (span_to_string (first br) (str "-" ++ to_string (last br) ++ str "/" ++ length_text (length_ br)))
    as (c1 & d1 & _ & E1); [lia|done|]. rewrite E1. change (str "-" ++ ?x) with ("-"%byte :: x).
  destruct (span_to_string (last br) (str "/" ++ length_text (length_ br)))
    as (c2 & d2 & _ & E2); [lia|done|]. cbv iota. rewrite E2. change (str "/" ++ ?x) with ("/"%byte :: x).
  cbv iota. destruct (length_ br) as [l|]; [|done]. cbn [length_text].
  destruct (span_to_string l []) as (c3 & d3 & _ & E3); [lia|done|]. rewrite app_nil_r in E3. by rewrite E3.
Qed.

Lemma number_of_view_to_string z rest bh :
  0 <= z < unsigned_max W8 -> no_digit rest ->
  number_of_view W8 {| chars := to_string z ++ rest; behind := bh |}
  = (Some z, {| chars := rest; behind := bh |}).
Proof.
  intros Hz Hr. unfold number_of_view. cbn [chars behind].
  by rewrite number_unsigned_to_string.
Qed.

(** a byte range that is printed for a [Content-Range] field is parsed back,
    as long as its numbers are below the largest [size_t]. *)
Theorem content_range_roundtrip (br : HttpResponseByteRange) (bh : list byte) :
  range_ok br ->
  HttpResponseByteRange_parse {| chars := HttpResponseByteRange_print br; behind := bh |} = Some br.
Proof.
  intros Hok. unfold HttpResponseByteRange_parse. cbn [chars].
  rewrite match_content_range_print by done. destruct Hok as (H1 & H2 & H3).
  unfold HttpResponseByteRange_print, skip, substr_from. cbn [chars behind].
  change (drop 6 (str "bytes " ++ ?x)) with x.
  rewrite number_of_view_to_string by (done || lia). cbn [chars behind].
  change (drop 1 (str "-" ++ ?x)) with x.
  rewrite number_of_view_to_string by (done || lia). cbn [chars behind].
  change (drop 1 (str "/" ++ ?x)) with x.
  destruct br as [f l [len|]]; cbn [first last length_ length_text] in *.
  - rewrite <-(app_nil_r (to_string len)). rewrite number_of_view_to_string by (done || lia).
    rewrite bool_decide_false by done. cbn [negb andb].
    destruct (Z.ltb_spec l f); [lia|]. destruct (Z.leb_spec len l); [lia|]. done.
  - destruct (Z.ltb_spec l f); [lia|]. done.
Qed.

Lemma content_range_roundtrip_witness :
  HttpResponseByteRange_parse {| chars := str "bytes 0-99/200"; behind := [] |}
  = Some {| first := 0; last := 99; length_ := Some 200 |}.
Proof.
  apply (content_range_roundtrip {| first := 0; last := 99; length_ := Some 200 |} []).
  repeat split; vm_compute; congruence.
Defined.

(** ** The origin form of a target *)

Lemma lower_punct c d : lower c = d -> is_letter d = false -> c = d.
Proof. intros <-. by destruct c. Qed.

Lemma lower_str_marks s : lower_str s = str "://" -> s = str "://".
Proof.
  intros E. do 3 (destruct s as [|? s]; [done|]). destruct s; [|done].
  unfold lower_str in E. cbn [map] in E. injection E as E1 E2 E3.
  apply lower_punct in E1 as ->; [|done]. apply lower_punct in E2 as ->; [|done].
  by apply lower_punct in E3 as ->.
Qed.

Lemma parse_scheme_inv s sch rest :
  parse_scheme s = Some (sch, rest) -> s = sch ++ str "://" ++ rest.
Proof.
  assert (forall n x, length x = n -> iequals (take (n + 3) s) (x ++ str "://") = true ->
          s = take n s ++ str "://" ++ drop (n + 3) s) as Hgen.
  { intros n x Hl E. apply iequals_true in E.
    assert (take 3 (drop n s) = str "://") as Em.
    { apply lower_str_marks. rewrite take_drop_commute. unfold lower_str in *.
      rewrite <-skipn_map, E, map_app. apply drop_app_length'. by rewrite length_map. }
    rewrite <-Em, app_assoc, take_take_drop. by rewrite take_drop. }
  unfold parse_scheme. intros H.
  destruct (iequals (take 7 s) (str "http://")) eqn:E1; [simplify_eq|].
  { by apply (Hgen 4%nat (str "http")). }
  destruct (iequals (take 8 s) (str "https://")) eqn:E2; [|done]. simplify_eq.
  by apply (Hgen 5%nat (str "https")).
Qed.

Lemma parse_host_inv s h rest : parse_host s = Some (h, rest) -> s = h ++ rest.
Proof.
  unfold parse_host. intros H.
  assert (forall s, match span is_name_char s with
                    | ((_ :: _) as h, rest) => Some (h, rest)
                    | _ => None end = Some (h, rest) -> s = h ++ rest) as Hname.
  { intros s' Hs. pose proof (span_app is_name_char s') as Sp.
    destruct (span is_name_char s') as [[|c a] b]; [done|]. simplify_eq. apply Sp. }
  destruct s as [|c s]; [by simpl in H|]. destruct (decide (c = "["%byte)) as [->|Hne].
  - pose proof (span_app is_ip6_char s) as Sp. destruct (span is_ip6_char s) as [[|x a] [|d b]]; try done.
    destruct (decide (d = "]"%byte)) as [->|]; [|by destruct d]. simplify_eq.
    destruct Sp as [-> _]. cbn [app]. by rewrite <-app_assoc.
  - apply Hname. by destruct c.
Qed.

Lemma parse_port_inv s p rest :
  parse_port s = Some (p, rest) -> s = marked ":" p ++ rest.
Proof.
  destruct s as [|c s]; [intros H; by simplify_eq/=|]. destruct (decide (c = ":"%byte)) as [->|].
  - cbn [parse_port]. pose proof (span_app is_digit s) as Sp. destruct (span is_digit s) as [a b].
    destruct Sp as [-> _]. destruct a as [|x a]; [done|].
    destruct (_ && _); [|done]. intros H. by simplify_eq.
  - intros H. assert (p = [] /\ rest = c :: s) as [-> ->] by (destruct c; by simplify_eq/=). done.
Qed.

Lemma parse_path_inv s : s = fst (parse_path s) ++ snd (parse_path s).
Proof.
  destruct s as [|c s]; [done|]. destruct (decide (c = "/"%byte)) as [->|]; [|by destruct c].
  cbn [parse_path]. pose proof (span_app (neither "?" "#") s) as Sp.
  destruct (span (neither "?" "#") s) as [a b]. destruct Sp as [-> _]. done.
Qed.

(** A parsed string is its scheme, host and port followed by its path and a rest. *)
Lemma Url_from_inv s u :
  Url_from s = Some u ->
  exists t, s = scheme u ++ str "://" ++ (host u ++ marked ":" (port u)) ++ path u ++ t.
Proof.
  unfold Url_from.
  destruct (parse_scheme s) as [[sch s1]|] eqn:E1; [|done].
  destruct (parse_host s1) as [[h s2]|] eqn:E2; [|done].
  destruct (parse_port s2) as [[p s3]|] eqn:E3; [|done].
  pose proof (parse_path_inv s3) as E4. destruct (parse_path s3) as [pa s4].
  destruct (parse_query s4) as [q s5]. destruct (parse_fragment s5) as [f|]; [|done].
  intros [= <-]. exists s4. cbn [fst snd host scheme port path] in *.
  rewrite (parse_scheme_inv _ _ _ E1), (parse_host_inv _ _ _ E2), (parse_port_inv _ _ _ E3), E4.
  by rewrite <-!app_assoc.
Qed.

Lemma find_sub_skip a p t :
  Forall (fun c => c <> "/"%byte) a -> head p = Some "/"%byte ->
  find_sub p (a ++ p ++ t) = Some (length a).
Proof.
  intros Ha Hp. induction Ha as [|c a Hc Ha IH]; cbn [app].
  - assert (take (length p) (p ++ t) = p) as E by apply take_app_length.
    destruct p as [|c p]; [done|]. cbn [app find_sub] in *. by rewrite bool_decide_true.
  - cbn [find_sub]. rewrite bool_decide_false.
    + by rewrite IH.
    + destruct p as [|d p]; [done|]. simpl. intros [= -> _]. simpl in Hp. congruence.
Qed.

Lemma host_port_no_slash u : url_ok u -> Forall (fun c => c <> "/"%byte) (host u ++ marked ":" (port u)).
Proof.
  intros [_ [_ Hh] [Hp _] _ _]. apply Forall_app. split.
  - destruct Hh as [Hh|(m & -> & _ & Hm)].
    + eapply Forall_impl; [exact Hh|]. by intros c Hc ->.
    + constructor; [done|]. apply Forall_app. split; [|by repeat constructor].
      eapply Forall_impl; [exact Hm|]. by intros c Hc ->.
  - destruct (port u) as [|x p]; [constructor|]. constructor; [done|].
    eapply Forall_impl; [exact Hp|]. by intros c Hc ->.
Qed.

(** the origin form of an absolute target is what follows the host and
    port, so it starts with the path; but when the path is empty the target
    becomes the host itself, without the slash that an origin form starts with. *)
Theorem origin_form_target (rq : request_header) (u : Url) :
  Url_from (target rq) = Some u ->
  exists t, target rq = scheme u ++ str "://" ++ (host u ++ marked ":" (port u)) ++ path u ++ t /\
    req_form_from_absolute_to_origin rq = Some (set_target rq
      (match path u with
       | [] => (host u ++ marked ":" (port u)) ++ t
       | _ :: _ => path u ++ t
       end)).
Proof.
  intros Hu. destruct (Url_from_inv _ _ Hu) as [t Et]. exists t. split; [done|].
  unfold req_form_from_absolute_to_origin. rewrite Hu. unfold substr_find.
  set (hp := host u ++ marked ":" (port u)) in *.
  assert (drop (length (scheme u) + 3) (target rq) = hp ++ path u ++ t) as Ed.
  { rewrite Et, app_assoc. apply drop_app_length'. by rewrite length_app. }
  pose proof (Url_from_ok _ _ Hu) as Hok. destruct (ok_path _ Hok) as [Ep|(p & Ep & _)].
  - rewrite Ed, Ep. cbn [app]. rewrite Ep in Ed. cbn [app] in Ed.
    replace (find_sub [] (hp ++ t)) with (Some O) by (by destruct (hp ++ t)). simpl.
    by rewrite Nat.add_0_r, Ed.
  - rewrite Ed, find_sub_skip; [|by apply host_port_no_slash|by rewrite Ep]. simpl.
    rewrite Ep. do 2 f_equal. rewrite <-Ep, <-drop_drop, Ed. by rewrite drop_app_length.
Qed.

(** ** Termination of the loop over request ranges *)

Lemma number_of_view_shorter w v n v' :
  number_of_view w v = (Some n, v') -> (length (chars v') < length (chars v))%nat.
Proof.
  unfold number_of_view. rewrite number_unsigned_spec_eq. unfold number_unsigned_spec.
  case_bool_decide as Hd; [done|]. destruct (_ <? _); [done|]. destruct (_ && _); [done|].
  intros [= _ <-]. simpl. unfold after_digits, digits in *. rewrite length_drop.
  destruct (chars v) as [|c s]; [done|]. simpl in *. destruct (is_digit c); [|done]. simpl. lia.
Qed.

Lemma consume_shorter what v v' :
  consume what v = Some v' -> (length (chars v') <= length (chars v))%nat.
Proof.
  unfold consume. case_bool_decide; [|done]. intros [= <-]. simpl. rewrite length_drop. lia.
Qed.

Lemma trim_ws_shorter v : (length (chars (trim_ws v)) <= length (chars v))%nat.
Proof. simpl. rewrite length_drop. lia. Qed.

Lemma parse_range_shorter v f l v' :
  parse_range v = Some (f, l, v') -> (length (chars v') < length (chars v))%nat.
Proof.
  unfold parse_range. destruct (number_of_view W8 v) as [[n|] v1] eqn:E1; [|done].
  destruct (consume (str "-") (trim_ws v1)) as [v2|] eqn:E2; [|done].
  destruct (number_of_view W8 (trim_ws v2)) as [[m|] v3] eqn:E3; [|done]. intros [= _ _ <-].
  apply number_of_view_shorter in E1, E3. apply consume_shorter in E2.
  pose proof (trim_ws_shorter v1). pose proof (trim_ws_shorter v2). pose proof (trim_ws_shorter v3). lia.
Qed.

Lemma parse_ranges_total fuel : forall ranges v,
  (length (chars v) < fuel)%nat -> parse_ranges fuel ranges v <> None.
Proof.
  induction fuel as [|fuel IH]; intros ranges v Hf; [lia|]. cbn [parse_ranges].
  destruct (parse_range v) as [[[f l] v1]|] eqn:E1; [|done].
  destruct (consume (str ",") v1) as [v2|] eqn:E2; [|done]. apply IH.
  apply parse_range_shorter in E1. apply consume_shorter in E2. pose proof (trim_ws_shorter v2). lia.
Qed.

Lemma request_ranges_total v : HttpRequestByteRange_parse v <> None.
Proof.
  unfold HttpRequestByteRange_parse. destruct (consume (str "bytes") (trim_ws v)) as [v1|]; [|done].
  destruct (consume (str "=") (trim_ws v1)) as [v2|]; [|done]. apply parse_ranges_total.
  pose proof (trim_ws_shorter v2). lia.
Qed.

(** ** Witnesses *)

Definition sample_names : list (list byte) :=
  [str "Host"; str "Accept"; str "Accept-Encoding"; str "User-Agent"; str "Cookie"].

#[local] Instance sample_table : FieldTable :=
  {| is_standard n := existsb (iequals n) sample_names |}.

#[local] Instance sample_table_laws : FieldTableLaws sample_table.
Proof.
  split.
  - intros a b E. unfold is_standard, sample_table, iequals. by rewrite E.
  - by repeat constructor.
  - done.
Qed.

Definition sample_request : request_header :=
  {| method := str "GET"; target := str "http://example.com/a#b"; version := 11;
     rq_fields := [(str "Cookie", str "secret"); (str "X-Token", str "secret")] |}.

Lemma cache_request_is_canonical_witness :
  exists rq', to_cache_request sample_request = Some rq' /\ target rq' = str "http://example.com/a".
Proof.
  eexists. split; [reflexivity|].
  destruct (cache_request_is_canonical sample_request
    (default sample_request (to_cache_request sample_request))) as (u & Hu & Ht & _); [reflexivity|].
  vm_compute in Hu. injection Hu as <-. exact Ht.
Defined.

Lemma injector_request_keeps_unknown_witness :
  exists rq', to_injector_request sample_request = Some rq' /\
    (str "X-Token", str "secret") ∈ rq_fields rq'.
Proof.
  eexists. split; [reflexivity|].
  apply (injector_request_keeps_unknown sample_request _ (str "X-Token") (str "secret")).
  - reflexivity.
  - by repeat constructor.
  - right. left.
  - reflexivity.
Defined.

Lemma origin_form_target_witness :
  req_form_from_absolute_to_origin sample_request = Some (set_target sample_request (str "/a#b")).
Proof.
  destruct (origin_form_target sample_request
    {| scheme := str "http"; host := str "example.com"; port := []; path := str "/a";
       query := []; fragment := str "b" |}) as (t & Et & E); [reflexivity|].
  rewrite E. simpl in *. by simplify_eq.
Defined.
