(* ===== verification/Request.v ===== *)
(** * Requests and the identity of resources: src/request.h, request.cpp,
    cache_type.h, cache_type.cpp, cache/resource_id.h and .cpp, cache/resource_key.cpp

    The classification of a request header as a request for the cache, the
    requests derived from it for the injector and for peers, and the identifier
    and key of its resource.  The digests (OpenSSL) are parameters. *)
From S2P Require Import Prelude Number SplitString Url Http Bytes.

(** ** Cache types *)

Inductive CacheType := Bep5Http | Bep3HTTPOverI2P | Ouisync.
Inductive InjectingCacheType := InjectBep5Http | InjectBep3HTTPOverI2P.

Definition InjectingCacheType_from (t : CacheType) : option InjectingCacheType :=
  match t with
  | Bep5Http => Some InjectBep5Http
  | Bep3HTTPOverI2P => Some InjectBep3HTTPOverI2P
  | Ouisync => None
  end.

Definition CacheType_of_injecting (t : InjectingCacheType) : CacheType :=
  match t with InjectBep5Http => Bep5Http | InjectBep3HTTPOverI2P => Bep3HTTPOverI2P end.

(** [operator<<] *)
Definition CacheType_print (t : CacheType) : list byte :=
  match t with
  | Bep5Http => str "Bep5Http"
  | Bep3HTTPOverI2P => str "Bep3HTTPOverI2P"
  | Ouisync => str "Ouisync"
  end.

Definition CacheType_from_str (s : list byte) : option CacheType :=
  if iequals s (str "Bep5Http") then Some Bep5Http
  else if iequals s (str "Bep3HTTPOverI2P") then Some Bep3HTTPOverI2P
  else if iequals s (str "Ouisync") then Some Ouisync
  else None.

Definition InjectingCacheType_from_str (s : list byte) : option InjectingCacheType :=
  let? t := CacheType_from_str s in InjectingCacheType_from t.

Definition CacheType_from_cmd_arg (s : list byte) : option CacheType :=
  if bool_decide (s = str "bep5-http") then Some Bep5Http
  else if bool_decide (s = str "bep3-http-over-i2p") then Some Bep3HTTPOverI2P
  else if bool_decide (s = str "ouisync") then Some Ouisync
  else None.

(** ** Resource identifiers *)

Definition BYTE_SIZE : nat := 20.

(** [is_hex] of resource_id.cpp: lower case only. *)
Definition is_lower_hex (c : byte) : bool :=
  ((48 <=? code c) && (code c <=? 57)) || ((97 <=? code c) && (code c <=? 102)).

Definition sanitize_hex (hex : list byte) : option (list byte) :=
  if negb (length hex =? BYTE_SIZE * 2)%nat then None
  else if forallb is_lower_hex hex then Some hex else None.

Definition ResourceId_from_hex (hex : list byte) : option (list byte) := sanitize_hex hex.

(** ** Requests *)

Record CachePeerRetrieveRequest := {
  peer_method : list byte;
  peer_cache_type : InjectingCacheType;
  peer_resource_id : list byte;
  peer_resource_key : list byte;
  peer_dht_group : list byte;
}.

Record CacheOuisyncRetrieveRequest := {
  ouisync_method : list byte;
  ouisync_resource_id : list byte;
  ouisync_dht_group : list byte;
}.

Inductive CacheRetrieveRequest :=
  | PeerRetrieve (r : CachePeerRetrieveRequest)
  | OuisyncRetrieve (r : CacheOuisyncRetrieveRequest).

Definition retrieve_resource_id (r : CacheRetrieveRequest) : list byte :=
  match r with PeerRetrieve r => peer_resource_id r | OuisyncRetrieve r => ouisync_resource_id r end.

Record CacheInjectRequest := {
  inject_header : request_header;
  inject_cache_type : InjectingCacheType;
  inject_resource_id : list byte;
  inject_dht_group : list byte;
}.

Record CacheRequest := {
  _header : request_header;
  _cache_type : CacheType;
  _resource_id : list byte;
  _resource_key : list byte;
  _dht_group : list byte;
}.

(** [hdr.erase(i)] of the first field of that name. *)
Fixpoint erase_first (name : list byte) (fs : fields) : fields :=
  match fs with
  | [] => []
  | f :: fs' => if same_name name f then fs' else f :: erase_first name fs'
  end.

(** The group and the header without it. *)
Definition extract_dht_group (hdr : request_header) : option (list byte) * request_header :=
  match find_field request_group_hdr (rq_fields hdr) with
  | Some g => (Some g, set_rq_fields hdr (erase_first request_group_hdr (rq_fields hdr)))
  | None => (None, hdr)
  end.

Definition is_private (hdr : request_header) : bool :=
  match find_field request_private_hdr (rq_fields hdr) with
  | Some v => iequals v request_private_true
  | None => false
  end.

Definition to_retrieve_request (rq : CacheRequest) : CacheRetrieveRequest :=
  let m := method (_header rq) in
  let peer t := PeerRetrieve
    {| peer_method := m; peer_cache_type := t; peer_resource_id := _resource_id rq;
       peer_resource_key := _resource_key rq; peer_dht_group := _dht_group rq |} in
  match _cache_type rq with
  | Bep5Http => peer InjectBep5Http
  | Bep3HTTPOverI2P => peer InjectBep3HTTPOverI2P
  | Ouisync => OuisyncRetrieve
      {| ouisync_method := m; ouisync_resource_id := _resource_id rq; ouisync_dht_group := _dht_group rq |}
  end.

Definition to_inject_request (rq : CacheRequest) : option CacheInjectRequest :=
  let inject t := Some
    {| inject_header := _header rq; inject_cache_type := t;
       inject_resource_id := _resource_id rq; inject_dht_group := _dht_group rq |} in
  match _cache_type rq with
  | Bep5Http => inject InjectBep5Http
  | Bep3HTTPOverI2P => inject InjectBep3HTTPOverI2P
  | Ouisync => None
  end.

Definition set_if_none_match (etag : list byte) (rq : CacheRequest) : CacheRequest :=
  {| _header := set_rq_fields (_header rq)
       (set_field (str "If-None-Match") etag (rq_fields (_header rq)));
     _cache_type := _cache_type rq; _resource_id := _resource_id rq;
     _resource_key := _resource_key rq; _dht_group := _dht_group rq |}.

Definition set_druid (druid : list byte) (rq : CacheInjectRequest) : CacheInjectRequest :=
  {| inject_header := set_rq_fields (inject_header rq)
       (set_field request_druid_hdr druid (rq_fields (inject_header rq)));
     inject_cache_type := inject_cache_type rq; inject_resource_id := inject_resource_id rq;
     inject_dht_group := inject_dht_group rq |}.

Definition get_if_none_match_field (rq : CacheInjectRequest) : option (list byte) :=
  find_field (str "If-None-Match") (rq_fields (inject_header rq)).
Definition get_cache_control_field (rq : CacheInjectRequest) : option (list byte) :=
  find_field (str "Cache-Control") (rq_fields (inject_header rq)).

Record InsecureRequest := { insecure_cache_type : InjectingCacheType; insecure_request : request_header }.

Definition InsecureRequest_from (t : InjectingCacheType) (rq : request_header) : option InsecureRequest :=
  if is_private rq then None
  else Some {| insecure_cache_type := t;
               insecure_request := set_rq_fields rq (remove_ouinet_fields (rq_fields rq)) |}.

Section Code.
Context {T : FieldTable}.
Variables sha1 sha256 : list byte -> list byte.

Definition ResourceId_from_url (url : list byte) : list byte :=
  to_hex (sha1 (str "ouinet-resource-id-salt" ++ url)).

Definition resource_key_from_url (url : list byte) : list byte :=
  sha256 (str "ouinet-resource-key-salt" ++ url).

Definition CacheRequest_from (cache_type : CacheType) (orig_hdr : request_header) : option CacheRequest :=
  let '(dht_group, orig_hdr) := extract_dht_group orig_hdr in
  let? group := dht_group in
  if negb (bool_decide (method orig_hdr = str "GET")) && negb (bool_decide (method orig_hdr = str "HEAD"))
  then None
  else if is_private orig_hdr then None
  else if match find_field (str "Content-Length") (rq_fields orig_hdr) with
          | Some v => negb (bool_decide (v = str "0"))
          | None => false
          end then None
  else
    let? hdr := to_injector_request orig_hdr in
    Some {| _header := hdr; _cache_type := cache_type;
            _resource_id := ResourceId_from_url (target hdr);
            _resource_key := resource_key_from_url (target hdr);
            _dht_group := group |}.

(** ** Facts *)

Lemma find_erase_first name name' fs :
  iequals name' name = false -> find_field name (erase_first name' fs) = find_field name fs.
Proof.
  intros Hne. unfold find_field. f_equal. induction fs as [|f fs IH]; simpl; [done|].
  destruct (same_name name' f) eqn:E; simpl; [|by rewrite IH].
  unfold same_name in *. rewrite (iequals_trans _ _ _ E), Hne. done.
Qed.

Lemma to_injector_request_target rq rq' :
  to_injector_request rq = Some rq' ->
  exists u, Url_from (target rq) = Some u /\ target rq' = canonical_url u.
Proof.
  unfold to_injector_request, to_canonical_request. simpl.
  destruct (Url_from (target rq)) as [u|]; [|done]. intros [= <-]. eauto.
Qed.

Lemma to_injector_request_None rq : to_injector_request rq = None <-> Url_from (target rq) = None.
Proof. unfold to_injector_request, to_canonical_request. simpl. by destruct (Url_from (target rq)). Qed.

(** The conditions under which a request may go to the cache. *)
Definition cacheable (hdr : request_header) : Prop :=
  (method hdr = str "GET" \/ method hdr = str "HEAD") /\
  is_private hdr = false /\
  find_field (str "Content-Length") (rq_fields hdr) ∈ [None; Some (str "0")].

Lemma extract_dht_group_spec hdr g hdr' :
  extract_dht_group hdr = (g, hdr') ->
  g = find_field request_group_hdr (rq_fields hdr) /\ method hdr' = method hdr /\
  target hdr' = target hdr /\ is_private hdr' = is_private hdr /\
  find_field (str "Content-Length") (rq_fields hdr') = find_field (str "Content-Length") (rq_fields hdr).
Proof.
  unfold extract_dht_group. destruct (find_field request_group_hdr (rq_fields hdr)); intros [= <- <-]; [|done].
  split_and!; try done; simpl; [|by rewrite find_erase_first].
  unfold is_private. simpl. by rewrite find_erase_first.
Qed.

(** a request goes to the cache exactly if it names a group, is a [GET] or
    [HEAD], is not marked private, has no body and has an absolute [http] or
    [https] target; the identifier and the key of its resource are those of the
    URL without its fragment, so requests for the same page share them whatever
    else they contain. *)
Theorem cache_request_from (t : CacheType) (hdr : request_header) :
  match CacheRequest_from t hdr with
  | Some rq =>
      cacheable hdr /\ find_field request_group_hdr (rq_fields hdr) = Some (_dht_group rq) /\
      exists u, Url_from (target hdr) = Some u /\ target (_header rq) = canonical_url u /\
        _resource_id rq = ResourceId_from_url (canonical_url u) /\
        _resource_key rq = resource_key_from_url (canonical_url u) /\ _cache_type rq = t
  | None =>
      ~ (cacheable hdr /\ is_Some (find_field request_group_hdr (rq_fields hdr)) /\
         is_Some (Url_from (target hdr)))
  end.
Proof.
  unfold CacheRequest_from. destruct (extract_dht_group hdr) as [g hdr'] eqn:E.
  apply extract_dht_group_spec in E as (-> & Em & Et & Ep & Ec). unfold cacheable.
  rewrite <-Em, <-Et, <-Ep, <-Ec. clear Em Et Ep Ec. rename hdr' into h.
  destruct (find_field request_group_hdr (rq_fields hdr)) as [g|]; [|intros (_ & [? ?] & _); done].
  destruct (negb _ && negb _) eqn:Em.
  { apply andb_true_iff in Em as [Em1 Em2]. apply negb_true_iff in Em1, Em2.
    apply bool_decide_eq_false in Em1, Em2. tauto. }
  assert (method h = str "GET" \/ method h = str "HEAD") as Hm.
  { apply andb_false_iff in Em as [Em|Em]; apply negb_false_iff, bool_decide_eq_true in Em; auto. }
  destruct (is_private h) eqn:Ep; [naive_solver|].
  destruct (find_field (str "Content-Length") (rq_fields h)) as [v|] eqn:Ec.
  - destruct (negb (bool_decide (v = str "0"))) eqn:Ev.
    { apply negb_true_iff, bool_decide_eq_false in Ev. intros ((_ & _ & Hc) & _).
      apply elem_of_cons in Hc as [?|Hc]; [done|]. apply list_elem_of_singleton in Hc. congruence. }
    apply negb_false_iff, bool_decide_eq_true in Ev. subst v.
    destruct (to_injector_request h) as [rq|] eqn:Ei.
    + apply to_injector_request_target in Ei as (u & Eu & Et). simpl. rewrite Et.
      split_and!; [done|done|right; left|done|eauto 8].
    + apply to_injector_request_None in Ei. rewrite Ei. intros (_ & _ & [? ?]). done.
  - destruct (to_injector_request h) as [rq|] eqn:Ei.
    + apply to_injector_request_target in Ei as (u & Eu & Et). simpl. rewrite Et.
      split_and!; [done|done|left|done|eauto 8].
    + apply to_injector_request_None in Ei. rewrite Ei. intros (_ & _ & [? ?]). done.
Qed.

End Code.

Lemma cache_type_from_str_print t : CacheType_from_str (CacheType_print t) = Some t.
Proof. by destruct t. Qed.

Lemma injecting_cache_type_roundtrip t : InjectingCacheType_from (CacheType_of_injecting t) = Some t.
Proof. by destruct t. Qed.

(** An insecure request carries none of Ouinet's fields. *)
Lemma insecure_request_no_ouinet t rq r :
  InsecureRequest_from t rq = Some r ->
  Forall (fun f => istarts_with (fst f) header_prefix = false) (rq_fields (insecure_request r)).
Proof.
  unfold InsecureRequest_from. destruct (is_private rq); [done|]. intros [= <-]. simpl.
  apply Forall_forall. intros f Hf. apply list_elem_of_In, filter_In in Hf as [_ Hf].
  by apply negb_true_iff.
Qed.
