(* ===== verification/CacheControl.v ===== *)
(** * The HTTP cache policy: src/cache_control.h and cache_control.cpp

    Freshness of responses, which responses may be cached, and [fetch], which
    races a fetch from the injector against a fetch from the distributed cache.

    Dates and their arithmetic are Boost.DateTime, and so are the two date
    formats that [util::parse_date] tries: an interface with the documented
    behaviour as laws.  A session is its response head and an opaque body. *)
From S2P Require Import Prelude Number SplitString Url Http Request.

(** ** Dates *)

Class PosixTime := {
  ptime : Type;
  not_a_date_time : ptime;
  from_time_t : Z -> ptime;
  plus_seconds : ptime -> Z -> ptime;
  is_before : ptime -> ptime -> bool;
  (** [now - time_stamp > seconds(d)] *)
  is_older_than : ptime -> ptime -> Z -> bool;
  is_date : ptime -> bool;
  (** [istream >> ptime] with the first and the second format of [parse_date] *)
  read_date_1 : list byte -> ptime;
  read_date_2 : list byte -> ptime;
}.

(** The last second of the year 9999, the end of the calendar. *)
Definition max_time_t : Z := 253402300799.

Class PosixTimeLaws (P : PosixTime) : Prop := {
  before_spec a b : 0 <= a <= max_time_t -> 0 <= b <= max_time_t ->
    is_before (from_time_t a) (from_time_t b) = (a <? b);
  plus_spec a n : 0 <= a -> 0 <= n -> a + n <= max_time_t ->
    plus_seconds (from_time_t a) n = from_time_t (a + n);
  older_spec a b d : 0 <= a <= max_time_t -> 0 <= b <= max_time_t ->
    is_older_than (from_time_t a) (from_time_t b) d = (d <? a - b);
  plus_not_a_date n : plus_seconds not_a_date_time n = not_a_date_time;
  before_not_a_date t : is_before not_a_date_time t = false;
  older_not_a_date t d : is_older_than t not_a_date_time d = false;
}.

Inductive error_code :=
  | operation_aborted | operation_not_supported | invalid_argument | other_error (n : Z).

#[global] Instance error_code_eq_dec : EqDecision error_code.
Proof. solve_decision. Defined.

(** [std::expected<A, error_code>] *)
Inductive expected (A : Type) := value (a : A) | unexpected (e : error_code).
Arguments value {A} a.
Arguments unexpected {A} e.

Section Code.
Context {P : PosixTime}.
Context {Body : Type}.

Record Session := { head : response_header; body : Body }.
Record CacheEntry := { time_stamp : ptime; response : Session }.

Definition iequals_view (v : string_view) (s : list byte) : bool := iequals (chars v) s.

(** [get(r, field)] as a view *)
Definition get_field (name : list byte) (fs : fields) : option string_view :=
  field_view <$> find_field name fs.

Definition has_cache_control_directive (s : Session) (directive : list byte) : bool :=
  match get_field (str "Cache-Control") (rs_fields (head s)) with
  | None => false
  | Some v => existsb (fun kv => iequals_view kv directive) (SplitString v ","%byte)
  end.

Definition trim_quotes (v : string_view) : string_view := trim_char Byte.x22 v.

(** The lambda of [get_max_age]. *)
Definition update_max_age (max_age : option Z) (v : string_view) : option Z :=
  match fst (number_of_view W4 (trim_quotes v)) with
  | None => max_age
  | Some delta =>
      match max_age with
      | None => Some delta
      | Some m => if m <? delta then Some delta else Some m
      end
  end.

Definition update_ages (acc : option Z * option Z) (kv : string_view) : option Z * option Z :=
  let '(max_age, s_maxage) := acc in
  let '(key, val) := split_string_pair kv "="%byte in
  let s_maxage := if iequals_view key (str "s-maxage") then update_max_age s_maxage val else s_maxage in
  let max_age := if iequals_view key (str "max-age") then update_max_age max_age val else max_age in
  (max_age, s_maxage).

Definition get_max_age (cache_control_value : string_view) : option Z :=
  let '(max_age, s_maxage) :=
    fold_left update_ages (SplitString cache_control_value ","%byte) (None, None) in
  match s_maxage with Some _ => s_maxage | None => max_age end.

(** The quotes and spaces that [util::parse_date] skips. *)
Fixpoint skip_quotes (s : list byte) : list byte :=
  match s with
  | c :: s' => if bool_decide (c = Byte.x22) || bool_decide (c = " "%byte) then skip_quotes s' else s
  | [] => []
  end.

Definition parse_date (s : string_view) : ptime :=
  let s := skip_quotes (chars s) in
  let pt := read_date_1 s in
  if is_date pt then pt else read_date_2 s.

Definition http10_is_expired (now : ptime) (rs : response_header) : bool :=
  match get_field (str "Expires") (rs_fields rs) with
  | Some expires =>
      let exp_date := parse_date expires in
      if is_date exp_date then is_before exp_date now else true
  | None => true
  end.

Definition is_expired (now : ptime) (rs : response_header) (ts : ptime) : bool :=
  match get_field (str "Cache-Control") (rs_fields rs) with
  | None => http10_is_expired now rs
  | Some v =>
      match get_max_age v with
      | None => http10_is_expired now rs
      | Some max_age => is_before (plus_seconds ts max_age) now
      end
  end.

Definition entry_is_expired (now : ptime) (e : CacheEntry) : bool :=
  is_expired now (head (response e)) (time_stamp e).

(** [_max_cached_age] in seconds; -1 means that entries never get too old. *)
Definition is_older_than_max_cache_age (max_cached_age : Z) (now ts : ptime) : bool :=
  negb (max_cached_age =? -1) && is_older_than now ts max_cached_age.

Definition add_warning (s : Session) (v : list byte) : Session :=
  {| head := set_rs_fields (head s) (insert_field (str "Warning") v (rs_fields (head s)));
     body := body s |}.

Definition stale_warning : list byte := str "110 Ouinet " ++ [Byte.x22] ++ str "Response is stale" ++ [Byte.x22].
Definition revalidation_warning : list byte :=
  str "111 Ouinet " ++ [Byte.x22] ++ str "Revalidation Failed" ++ [Byte.x22].

Definition add_stale_warning (s : Session) : Session := add_warning s stale_warning.

Definition must_revalidate (rq : CacheRequest) : bool :=
  match get_field (str "If-None-Match") (rq_fields (_header rq)) with
  | Some _ => true
  | None =>
      match get_field (str "Cache-Control") (rq_fields (_header rq)) with
      | None => false
      | Some cache_control =>
          match get_max_age cache_control with
          | Some 0 => true
          | _ => existsb (fun kv => iequals_view kv (str "no-cache") || iequals_view kv (str "no-store"))
                   (SplitString cache_control ","%byte)
          end
      end
  end.

Definition has_temporary_result (s : Session) : bool :=
  (result (head s) =? 302) || (result (head s) =? 307).

(** ** What may be cached *)

Definition public_request_fields : list field_spec :=
  [ std "host"; std "user-agent"; std "cache-control"; std "accept"; std "accept-language";
    std "accept-encoding"; std "from"; std "origin"; std "keep-alive"; std "connection";
    std "referer"; std "proxy-connection"; std "te"; ByName (str "X-Requested-With");
    ByName (str "Upgrade-Insecure-Requests"); ByName (str "DNT") ].

Definition starts_with (s prefix : list byte) : bool := bool_decide (take (length prefix) s = prefix).

Definition contains_private_data `{FieldTable} (rq : request_header) : bool :=
  existsb (fun f => negb (field_is_one_of f public_request_fields || starts_with (fst f) header_prefix))
    (rq_fields rq)
  || negb (bool_decide (method rq = str "GET"))
  || negb (bool_decide (chars (snd (split_string_pair (view_of (target rq)) "?"%byte)) = [])).

(** The loop over the directives of the response. *)
Fixpoint response_allows `{FieldTable} (rq : request_header) (cache_private : bool)
    (kvs : list string_view) : bool :=
  match kvs with
  | [] => true
  | kv :: kvs' =>
      let '(key, _) := split_string_pair kv "="%byte in
      if iequals_view key (str "no-store") then false
      else if negb cache_private && iequals_view key (str "private") && contains_private_data rq then false
      else response_allows rq cache_private kvs'
  end.

Definition ok_to_cache `{FieldTable} (rq : request_header) (rs : response_header) (cache_private : bool) : bool :=
  if negb (existsb (Z.eqb (result rs)) [200; 301; 302; 307]) then false
  else if match get_field (str "Cache-Control") (rq_fields rq) with
          | Some v => existsb (fun d => iequals_view d (str "no-store")) (SplitString v ","%byte)
          | None => false
          end then false
  else
    let res_cache_control := get_field (str "Cache-Control") (rs_fields rs) in
    if negb cache_private && existsb (same_name (str "Authorization")) (rq_fields rq)
       && match res_cache_control with
          | None => true
          | Some v => negb (existsb (fun d => iequals_view d (str "must-revalidate")
                                              || iequals_view d (str "public")
                                              || iequals_view d (str "s-maxage"))
                              (SplitString v ","%byte))
          end then false
    else match res_cache_control with
         | None => true
         | Some v => response_allows rq cache_private (SplitString v ","%byte)
         end.

(** ** Fetching *)

Record CacheControl := {
  fetch_fresh : option (CacheInjectRequest -> expected Session);
  fetch_stored : option (CacheRetrieveRequest -> expected Session);
  max_cached_age : Z;
}.

Definition do_fetch_fresh (cc : CacheControl) (rq : CacheRequest) : expected Session :=
  match fetch_fresh cc with
  | None => unexpected operation_not_supported
  | Some f =>
      match to_inject_request rq with
      | None => unexpected invalid_argument
      | Some inject_rq => f inject_rq
      end
  end.

(** [parse::number<time_t>] of the injection time stamp. *)
Definition injection_date (rs : response_header) : ptime :=
  let tsh := http_injection_ts rs in
  match fst (number_signed W8 (next_byte tsh) (chars tsh)) with
  | Some ts => from_time_t ts
  | None => not_a_date_time
  end.

Definition do_fetch_stored (cc : CacheControl) (rq : CacheRequest) : expected CacheEntry :=
  match fetch_stored cc with
  | None => unexpected operation_not_supported
  | Some f =>
      match f (to_retrieve_request rq) with
      | unexpected e => unexpected e
      | value s => value {| time_stamp := injection_date (head s); response := s |}
      end
  end.

(** The results of the two child coroutines, and which of them end before each
    time the waiting coroutine is woken up. *)
Record jobs := {
  fresh_result : option (expected Session);
  stored_result : option (expected CacheEntry);
}.

Inductive job := Fresh | Stored.

Definition no_jobs : jobs := {| fresh_result := None; stored_result := None |}.

Definition complete (cc : CacheControl) (rq : CacheRequest) (st : jobs) (j : job) : jobs :=
  match j with
  | Fresh => {| fresh_result := Some (do_fetch_fresh cc rq); stored_result := stored_result st |}
  | Stored => {| fresh_result := fresh_result st; stored_result := Some (do_fetch_stored cc rq) |}
  end.

(** [while (!done) cv.wait(yield);] *)
Fixpoint wait_until (cc : CacheControl) (rq : CacheRequest) (done : jobs -> bool)
    (schedule : list (list job)) (st : jobs) : option (jobs * list (list job)) :=
  if done st then Some (st, schedule)
  else match schedule with
       | [] => None
       | batch :: schedule' =>
           wait_until cc rq done schedule' (fold_left (complete cc rq) batch st)
       end.

Definition succeeded {A} (r : option (expected A)) : bool :=
  match r with Some (value _) => true | _ => false end.
Definition ended {A} (r : option (expected A)) : bool :=
  match r with Some _ => true | None => false end.

(** The condition that ends the first loop of [fetch]. *)
Definition first_wait_done (st : jobs) : bool :=
  succeeded (fresh_result st) || succeeded (stored_result st)
  || (ended (fresh_result st) && ended (stored_result st)).

Definition fetch_revalidate (cc : CacheControl) (rq : CacheRequest) : expected Session :=
  match do_fetch_fresh cc rq with
  | value s => value s
  | unexpected e =>
      if bool_decide (e = operation_aborted) then unexpected e
      else match do_fetch_stored cc rq with
           | value entry => value (add_warning (response entry) revalidation_warning)
           | unexpected e' => unexpected e'
           end
  end.

(** What [fetch] does with a stored entry, once it has one: the clock is read
    before and after it waits for the other job. *)
Definition serve_stored (cc : CacheControl) (rq : CacheRequest) (before now : ptime)
    (st : jobs) (schedule : list (list job)) (entry : CacheEntry) : option (expected Session) :=
  if has_cache_control_directive (response entry) (str "private")
     || is_older_than_max_cache_age (max_cached_age cc) before (time_stamp entry)
     || has_temporary_result (response entry) then
    let? (st, _) := wait_until cc rq (fun st => ended (fresh_result st)) schedule st in
    match fresh_result st with
    | Some (value s) => Some (value s)
    | _ => Some (value (if entry_is_expired now entry then add_stale_warning (response entry)
                        else response entry))
    end
  else if negb (entry_is_expired now entry) then Some (value (response entry))
  else
    match get_field (str "ETag") (rs_fields (head (response entry))),
          get_field (str "If-None-Match") (rq_fields (_header rq)) with
    | Some etag, None =>
        match do_fetch_fresh cc (set_if_none_match (chars etag) rq) with
        | unexpected _ => Some (value (add_stale_warning (response entry)))
        | value s => if result (head s) =? 304 then Some (value (response entry)) else Some (value s)
        end
    | _, _ =>
        let? (st, _) := wait_until cc rq (fun st => ended (fresh_result st)) schedule st in
        match fresh_result st with
        | Some (value s) => Some (value s)
        | _ => Some (value (add_stale_warning (response entry)))
        end
    end.

(** [CacheControl::fetch]; [None] when the schedule ends while it still waits. *)
Definition fetch (cc : CacheControl) (rq : CacheRequest) (before now : ptime) (schedule : list (list job))
    : option (expected Session) :=
  if must_revalidate rq then Some (fetch_revalidate cc rq)
  else
    let? (st, schedule) := wait_until cc rq first_wait_done schedule no_jobs in
    match fresh_result st, stored_result st with
    | Some (unexpected e), Some (unexpected _) => Some (unexpected e)
    | Some (value s), _ => Some (value s)
    | _, Some (value entry) => serve_stored cc rq before now st schedule entry
    | _, _ => None
    end.

(** ** The lifetime of a response *)

(** The values that the directives [name=value] of a list give. *)
Definition directive_values (name : list byte) (items : list string_view) : list Z :=
  omap (fun kv => let '(k, v) := split_string_pair kv "="%byte in
                  if iequals_view k name then fst (number_of_view W4 (trim_quotes v)) else None) items.

Definition is_max (l : list Z) (o : option Z) : Prop :=
  match o with
  | None => l = []
  | Some m => m ∈ l /\ Forall (fun x => x <= m) l
  end.

Lemma is_max_snoc l o d :
  is_max l o ->
  is_max (l ++ [d]) (match o with None => Some d | Some m => if m <? d then Some d else Some m end).
Proof.
  destruct o as [m|]; simpl.
  - intros [Hin Hall]. destruct (Z.ltb_spec m d); simpl; rewrite elem_of_app, list_elem_of_singleton, Forall_app.
    + split; [by right|]. split; [|constructor; [lia|constructor]].
      eapply Forall_impl; [exact Hall|]. simpl. intros. lia.
    + split; [by left|]. split; [done|]. constructor; [lia|constructor].
  - intros ->. simpl. split; [left|]. constructor; [lia|constructor].
Qed.

Lemma update_ages_max kv items ma sm :
  is_max (directive_values (str "max-age") items) ma ->
  is_max (directive_values (str "s-maxage") items) sm ->
  let '(ma', sm') := update_ages (ma, sm) kv in
  is_max (directive_values (str "max-age") (items ++ [kv])) ma' /\
  is_max (directive_values (str "s-maxage") (items ++ [kv])) sm'.
Proof.
  intros Hma Hsm. unfold update_ages, directive_values. rewrite !omap_app. simpl.
  destruct (split_string_pair kv "="%byte) as [k v]. unfold update_max_age.
  split; [destruct (iequals_view k (str "max-age"))|destruct (iequals_view k (str "s-maxage"))];
    rewrite ?app_nil_r; try done;
    (destruct (fst (number_of_view W4 (trim_quotes v))) as [d|]; simpl; rewrite ?app_nil_r; [|done]);
    by apply is_max_snoc.
Qed.

Lemma fold_ages_max items2 : forall items ma sm,
  is_max (directive_values (str "max-age") items) ma ->
  is_max (directive_values (str "s-maxage") items) sm ->
  let '(ma', sm') := fold_left update_ages items2 (ma, sm) in
  is_max (directive_values (str "max-age") (items ++ items2)) ma' /\
  is_max (directive_values (str "s-maxage") (items ++ items2)) sm'.
Proof.
  induction items2 as [|kv items2 IH]; intros items ma sm Hma Hsm; cbn [fold_left]; [by rewrite app_nil_r|].
  pose proof (update_ages_max kv items ma sm Hma Hsm) as Hu.
  destruct (update_ages (ma, sm) kv) as [ma' sm']. destruct Hu as [Hma' Hsm'].
  specialize (IH (items ++ [kv]) ma' sm' Hma' Hsm'). by rewrite <-app_assoc in IH.
Qed.

(** the lifetime that [get_max_age] reads from a [Cache-Control] value is the
    largest value of its [s-maxage] directives, or, if none of them has one, the
    largest value of its [max-age] directives. *)
Theorem get_max_age_correct (v : string_view) :
  let items := SplitString v ","%byte in
  let s := directive_values (str "s-maxage") items in
  let a := directive_values (str "max-age") items in
  is_max (match s with [] => a | _ :: _ => s end) (get_max_age v).
Proof.
  intros items s a. unfold get_max_age. fold items.
  pose proof (fold_ages_max items [] None None eq_refl eq_refl) as H. cbn [app] in H.
  destruct (fold_left update_ages items (None, None)) as [ma sm]. destruct H as [Hma Hsm].
  fold s in Hsm. fold a in Hma. destruct sm as [m|].
  - destruct s; [|done]. destruct Hsm as [Hin _]. by apply elem_of_nil in Hin.
  - simpl in Hsm. by rewrite Hsm.
Qed.

(** ** What may be cached *)

Definition directives (fs : fields) : list string_view :=
  match get_field (str "Cache-Control") fs with
  | Some v => SplitString v ","%byte
  | None => []
  end.

Definition has_directive (d : list byte) (fs : fields) : Prop :=
  exists kv, kv ∈ directives fs /\ iequals_view kv d = true.
Definition has_key (k : list byte) (fs : fields) : Prop :=
  exists kv, kv ∈ directives fs /\ iequals_view (fst (split_string_pair kv "="%byte)) k = true.

Lemma existsb_true_iff {A} (f : A -> bool) l : existsb f l = true <-> exists x, x ∈ l /\ f x = true.
Proof. rewrite existsb_exists. by setoid_rewrite list_elem_of_In. Qed.

Lemma existsb_false_iff {A} (f : A -> bool) l : existsb f l = false <-> ~ exists x, x ∈ l /\ f x = true.
Proof. by rewrite <-existsb_true_iff, not_true_iff_false. Qed.

Lemma response_allows_iff `{FieldTable} rq cp kvs :
  response_allows rq cp kvs = true <->
  (~ exists kv, kv ∈ kvs /\ iequals_view (fst (split_string_pair kv "="%byte)) (str "no-store") = true) /\
  (cp = true \/ contains_private_data rq = false \/
   ~ exists kv, kv ∈ kvs /\ iequals_view (fst (split_string_pair kv "="%byte)) (str "private") = true).
Proof.
  rewrite <-!existsb_false_iff. induction kvs as [|kv kvs IH]; simpl; [tauto|].
  destruct (split_string_pair kv "="%byte) as [k v]. simpl.
  destruct (iequals_view k (str "no-store")); simpl; [split; [done|by intros []]|].
  destruct cp; simpl; [rewrite IH; naive_solver|].
  destruct (iequals_view k (str "private")); simpl; [|done].
  destruct (contains_private_data rq); simpl; [|rewrite IH; naive_solver].
  split; [done|]. intros (_ & [?|[?|?]]); done.
Qed.

Definition vouched (fs : fields) : Prop :=
  has_directive (str "must-revalidate") fs \/ has_directive (str "public") fs \/
  has_directive (str "s-maxage") fs.

(** The test for a request with credentials, as the code writes it. *)
Lemma vouched_iff fs :
  (match get_field (str "Cache-Control") fs with
   | None => true
   | Some v => negb (existsb (fun d => iequals_view d (str "must-revalidate")
                                       || iequals_view d (str "public")
                                       || iequals_view d (str "s-maxage"))
                       (SplitString v ","%byte))
   end) = false <-> vouched fs.
Proof.
  unfold vouched, has_directive, directives. destruct (get_field (str "Cache-Control") fs) as [v|].
  - rewrite negb_false_iff, existsb_true_iff. setoid_rewrite orb_true_iff. setoid_rewrite orb_true_iff.
    naive_solver.
  - split; [done|]. intros [(kv & Hk & _)|[(kv & Hk & _)|(kv & Hk & _)]]; by apply elem_of_nil in Hk.
Qed.

(** the decision to cache a response, in RFC 7234's terms: the status is
    cacheable, neither side says [no-store], a response to a request with
    credentials is vouched for by the origin or cached privately, and a private
    response is cached only privately or for a request without private data. *)
Theorem ok_to_cache_iff `{FieldTable} (rq : request_header) (rs : response_header) (cache_private : bool) :
  ok_to_cache rq rs cache_private = true <->
  result rs ∈ [200; 301; 302; 307] /\
  ~ has_directive (str "no-store") (rq_fields rq) /\
  (cache_private = true \/ existsb (same_name (str "Authorization")) (rq_fields rq) = false \/
   vouched (rs_fields rs)) /\
  ~ has_key (str "no-store") (rs_fields rs) /\
  (cache_private = true \/ contains_private_data rq = false \/ ~ has_key (str "private") (rs_fields rs)).
Proof.
  unfold ok_to_cache.
  assert (existsb (Z.eqb (result rs)) [200; 301; 302; 307] = true <-> result rs ∈ [200; 301; 302; 307]) as Es.
  { rewrite existsb_true_iff. setoid_rewrite Z.eqb_eq. naive_solver. }
  destruct (existsb (Z.eqb (result rs)) [200; 301; 302; 307]); simpl.
  2: { split; [done|]. intros [Hs _]. by apply Es in Hs. }
  assert ((match get_field (str "Cache-Control") (rq_fields rq) with
           | Some v => existsb (fun d => iequals_view d (str "no-store")) (SplitString v ","%byte)
           | None => false
           end) = false <-> ~ has_directive (str "no-store") (rq_fields rq)) as En.
  { unfold has_directive, directives. destruct (get_field (str "Cache-Control") (rq_fields rq)) as [v|].
    - apply existsb_false_iff.
    - split; [|done]. intros _ (kv & Hk & _). by apply elem_of_nil in Hk. }
  destruct (match get_field (str "Cache-Control") (rq_fields rq) with Some v => _ | None => _ end).
  { split; [done|]. intros (_ & Hn & _). by apply En in Hn. }
  pose proof (vouched_iff (rs_fields rs)) as Ev.
  destruct (match get_field (str "Cache-Control") (rs_fields rs) with
            | Some v => negb (existsb _ (SplitString v ","%byte)) | None => true end).
  all: assert ((match get_field (str "Cache-Control") (rs_fields rs) with
                | None => true
                | Some v => response_allows rq cache_private (SplitString v ","%byte)
                end) = true <->
         ~ has_key (str "no-store") (rs_fields rs) /\
         (cache_private = true \/ contains_private_data rq = false \/ ~ has_key (str "private") (rs_fields rs)))
    as Er.
  1, 3: unfold has_key, directives; destruct (get_field (str "Cache-Control") (rs_fields rs)) as [v|];
    [apply response_allows_iff|]; split; [|done]; intros _; split; [|right; right];
    intros (kv & Hk & _); by apply elem_of_nil in Hk.
  all: destruct cache_private, (existsb (same_name (str "Authorization")) (rq_fields rq)); simpl;
    rewrite ?Er; naive_solver.
Qed.

(** ** Fetching *)

Section Fetch.
Variables (cc : CacheControl) (rq : CacheRequest).

(** The jobs after a schedule. *)
Definition final (schedule : list (list job)) (st : jobs) : jobs :=
  fold_left (complete cc rq) (concat schedule) st.

Definition jobs_ok (st : jobs) : Prop :=
  fresh_result st ∈ [None; Some (do_fetch_fresh cc rq)] /\
  stored_result st ∈ [None; Some (do_fetch_stored cc rq)].

Lemma complete_ok st j : jobs_ok st -> jobs_ok (complete cc rq st j).
Proof. intros [H1 H2]. destruct j; split; simpl; try done; right; left. Qed.

Lemma completes_ok js : forall st, jobs_ok st -> jobs_ok (fold_left (complete cc rq) js st).
Proof. induction js as [|j js IH]; intros st H; simpl; [done|]. by apply IH, complete_ok. Qed.

Lemma completes_keep js : forall st,
  (ended (fresh_result st) = true -> ended (fresh_result (fold_left (complete cc rq) js st)) = true) /\
  (ended (stored_result st) = true -> ended (stored_result (fold_left (complete cc rq) js st)) = true).
Proof.
  induction js as [|j js IH]; intros st; simpl; [done|].
  destruct (IH (complete cc rq st j)) as [I1 I2]. split; intros H; [apply I1|apply I2]; by destruct j.
Qed.

(** Both jobs end in the schedule. *)
Definition both_end (schedule : list (list job)) : Prop :=
  Fresh ∈ concat schedule /\ Stored ∈ concat schedule.

Lemma completes_ended js j st :
  j ∈ js ->
  match j with
  | Fresh => ended (fresh_result (fold_left (complete cc rq) js st)) = true
  | Stored => ended (stored_result (fold_left (complete cc rq) js st)) = true
  end.
Proof.
  intros Hj. revert st. induction js as [|j' js IH]; intros st; [by apply elem_of_nil in Hj|]. simpl.
  apply elem_of_cons in Hj as [<-|Hj]; [|by apply IH].
  destruct j; apply completes_keep; done.
Qed.

Lemma wait_until_spec done schedule : forall st,
  jobs_ok st -> done (final schedule st) = true ->
  exists st' rest, wait_until cc rq done schedule st = Some (st', rest) /\
    done st' = true /\ jobs_ok st' /\ final rest st' = final schedule st.
Proof.
  induction schedule as [|batch schedule IH]; intros st Hok Hd; cbn [wait_until];
    destruct (done st) eqn:Ed; [by exists st, []| |by exists st, (batch :: schedule)|].
  - unfold final in Hd. simpl in Hd. congruence.
  - destruct (IH (fold_left (complete cc rq) batch st)) as (st' & rest & E & Hd' & Hok' & Ef).
    + by apply completes_ok.
    + unfold final in *. simpl in Hd. by rewrite fold_left_app in Hd.
    + exists st', rest. split_and!; [done..|]. rewrite Ef. unfold final. simpl. by rewrite fold_left_app.
Qed.

Lemma final_ended schedule st :
  both_end schedule ->
  ended (fresh_result (final schedule st)) = true /\ ended (stored_result (final schedule st)) = true.
Proof.
  intros [H1 H2]. split; [apply (completes_ended _ Fresh)|apply (completes_ended _ Stored)]; done.
Qed.

Lemma jobs_ok_fresh st :
  jobs_ok st -> ended (fresh_result st) = true -> fresh_result st = Some (do_fetch_fresh cc rq).
Proof.
  intros [H _] He. apply elem_of_cons in H as [E|E%list_elem_of_singleton]; [by rewrite E in He|done].
Qed.

Lemma jobs_ok_stored st :
  jobs_ok st -> ended (stored_result st) = true -> stored_result st = Some (do_fetch_stored cc rq).
Proof.
  intros [_ H] He. apply elem_of_cons in H as [E|E%list_elem_of_singleton]; [by rewrite E in He|done].
Qed.

(** The wait for the fresh response ends with it. *)
Lemma wait_fresh schedule st :
  jobs_ok st -> ended (fresh_result (final schedule st)) = true ->
  exists st' rest, wait_until cc rq (fun st => ended (fresh_result st)) schedule st = Some (st', rest) /\
    fresh_result st' = Some (do_fetch_fresh cc rq).
Proof.
  intros Hok Hd.
  destruct (wait_until_spec (fun st => ended (fresh_result st)) schedule st Hok Hd) as (st' & rest & E & Hd' & Hok' & _).
  exists st', rest. split; [done|]. by apply jobs_ok_fresh.
Qed.

(** The state in which the first loop of [fetch] ends. *)
Lemma first_wait schedule :
  both_end schedule ->
  exists st rest, wait_until cc rq first_wait_done schedule no_jobs = Some (st, rest) /\
    first_wait_done st = true /\ jobs_ok st /\ ended (fresh_result (final rest st)) = true.
Proof.
  intros Hb. destruct (final_ended schedule no_jobs Hb) as [Hf Hs].
  destruct (wait_until_spec first_wait_done schedule no_jobs) as (st & rest & E & Hd & Hok & Ef).
  - split; left.
  - unfold first_wait_done. rewrite Hf, Hs. apply orb_true_r.
  - exists st, rest. by rewrite Ef.
Qed.

(** What may be served for a request: a fresh response; the response to a
    revalidation; or a stored response that is fresh, was confirmed by a 304
    answer, or carries a warning. *)
Inductive served (now : ptime) : Session -> Prop :=
  | served_fresh s : do_fetch_fresh cc rq = value s -> served now s
  | served_revalidated e etag s :
      do_fetch_stored cc rq = value e -> entry_is_expired now e = true ->
      do_fetch_fresh cc (set_if_none_match etag rq) = value s -> result (head s) <> 304 -> served now s
  | served_not_modified e etag s :
      do_fetch_stored cc rq = value e ->
      do_fetch_fresh cc (set_if_none_match etag rq) = value s -> result (head s) = 304 ->
      served now (response e)
  | served_cached e :
      do_fetch_stored cc rq = value e -> entry_is_expired now e = false -> served now (response e)
  | served_stale e :
      do_fetch_stored cc rq = value e -> entry_is_expired now e = true ->
      served now (add_stale_warning (response e))
  | served_unrevalidated e err :
      must_revalidate rq = true -> do_fetch_fresh cc rq = unexpected err ->
      do_fetch_stored cc rq = value e -> served now (add_warning (response e) revalidation_warning).

Lemma serve_stored_served before now st rest e :
  jobs_ok st -> ended (fresh_result (final rest st)) = true -> do_fetch_stored cc rq = value e ->
  exists s, serve_stored cc rq before now st rest e = Some (value s) /\ served now s.
Proof.
  intros Hok Hf He. unfold serve_stored. destruct (wait_fresh rest st Hok Hf) as (st' & rest' & Ew & Ef).
  destruct (_ || _ || _).
  { rewrite Ew, Ef. destruct (do_fetch_fresh cc rq) as [s|err] eqn:Efr.
    - exists s. split; [done|]. by constructor.
    - eexists. split; [done|]. destruct (entry_is_expired now e) eqn:Ex; [by apply served_stale|by apply served_cached]. }
  destruct (entry_is_expired now e) eqn:Ex; simpl; [|eexists; split; [done|by apply served_cached]].
  assert (exists s, (let? (st, _) := wait_until cc rq (fun st => ended (fresh_result st)) rest st in
     match fresh_result st with
     | Some (value s) => Some (value s)
     | _ => Some (value (add_stale_warning (response e)))
     end) = Some (value s) /\ served now s) as Hwait.
  { rewrite Ew, Ef. destruct (do_fetch_fresh cc rq) as [s|err] eqn:Efr.
    - exists s. split; [done|]. by constructor.
    - eexists. split; [done|]. by apply served_stale. }
  destruct (get_field (str "ETag") _) as [etag|]; [|done].
  destruct (get_field (str "If-None-Match") _); [done|].
  destruct (do_fetch_fresh cc (set_if_none_match (chars etag) rq)) as [s|err] eqn:Efr.
  - destruct (Z.eqb_spec (result (head s)) 304).
    + eexists. split; [done|]. by eapply served_not_modified.
    + eexists. split; [done|]. by eapply served_revalidated.
  - eexists. split; [done|]. by apply served_stale.
Qed.

Lemma fetch_served before now schedule :
  both_end schedule ->
  match fetch cc rq before now schedule with
  | None => False
  | Some (value s) => served now s
  | Some (unexpected err) =>
      (exists e, do_fetch_fresh cc rq = unexpected e) /\
      ((must_revalidate rq = true /\ do_fetch_fresh cc rq = unexpected operation_aborted) \/
       exists e, do_fetch_stored cc rq = unexpected e)
  end.
Proof.
  intros Hb. unfold fetch. destruct (must_revalidate rq) eqn:Er.
  { unfold fetch_revalidate. destruct (do_fetch_fresh cc rq) as [s|err] eqn:Ef; [by constructor|].
    case_bool_decide as Ea; [subst; split; [eauto|by left]|].
    destruct (do_fetch_stored cc rq) as [e|err'] eqn:Es; [by eapply served_unrevalidated|].
    split; [eauto|right; eauto]. }
  destruct (first_wait schedule Hb) as (st & rest & -> & Hd & Hok & Hf).
  destruct Hok as [Hok1 Hok2].
  destruct (fresh_result st) as [fr|] eqn:Efr.
  - assert (fr = do_fetch_fresh cc rq) as ->.
    { apply elem_of_cons in Hok1 as [?|?%list_elem_of_singleton]; congruence. }
    destruct (do_fetch_fresh cc rq) as [s|err] eqn:Edf; [by destruct (stored_result st) as [[]|]; constructor|].
    destruct (stored_result st) as [sr|] eqn:Esr.
    + assert (sr = do_fetch_stored cc rq) as ->.
      { apply elem_of_cons in Hok2 as [?|?%list_elem_of_singleton]; congruence. }
      destruct (do_fetch_stored cc rq) as [e|err'] eqn:Eds; [|split; [eauto|right; eauto]].
      destruct (serve_stored_served before now st rest e) as (s & -> & Hs); [|done|done|done].
      split; [rewrite Efr|rewrite Esr, Eds]; [rewrite Edf|]; right; left.
    + unfold first_wait_done in Hd. rewrite Efr, Esr in Hd. done.
  - destruct (stored_result st) as [sr|] eqn:Esr.
    + assert (sr = do_fetch_stored cc rq) as ->.
      { apply elem_of_cons in Hok2 as [?|?%list_elem_of_singleton]; congruence. }
      destruct (do_fetch_stored cc rq) as [e|err'] eqn:Eds.
      * destruct (serve_stored_served before now st rest e) as (s & -> & Hs); [|done|done|done].
        split; [rewrite Efr; left|rewrite Esr, Eds; right; left].
      * unfold first_wait_done in Hd. rewrite Efr, Esr in Hd. done.
    + unfold first_wait_done in Hd. rewrite Efr, Esr in Hd. done.
Qed.

End Fetch.

(** C34: [fetch] answers once both of its jobs have ended, in whatever order and
    however their ends are interleaved with its waits, and it never serves a
    stored response that is expired without a warning or a confirmation: what it
    serves is a fresh response, a stored response that is not expired, was
    confirmed by a 304 answer or carries the warning 110 or 111, or the response
    that replaced an expired one.  It fails only if the fetch of a fresh response
    failed, and the fetch of a stored one too unless a forced revalidation was
    aborted. *)
Theorem fetch_outcome (cc : CacheControl) (rq : CacheRequest) (before now : ptime) (schedule : list (list job)) :
  both_end schedule ->
  match fetch cc rq before now schedule with
  | None => False
  | Some (value s) => served cc rq now s
  | Some (unexpected err) =>
      (exists e, do_fetch_fresh cc rq = unexpected e) /\
      ((must_revalidate rq = true /\ do_fetch_fresh cc rq = unexpected operation_aborted) \/
       exists e, do_fetch_stored cc rq = unexpected e)
  end.
Proof. apply fetch_served. Qed.

(** The entries that [fetch] serves only if it cannot get a fresh response. *)
Definition last_resort (cc : CacheControl) (before : ptime) (e : CacheEntry) : bool :=
  has_cache_control_directive (response e) (str "private")
  || is_older_than_max_cache_age (max_cached_age cc) before (time_stamp e)
  || has_temporary_result (response e).

(** a stored response that is private, older than the configured age or a
    temporary redirection is never served in place of a fresh one: if the fetch of
    a fresh response succeeds, that response is served, whichever job ends first. *)
Theorem fetch_prefers_fresh (cc : CacheControl) (rq : CacheRequest) (before now : ptime)
    (schedule : list (list job)) (s : Session) :
  both_end schedule -> do_fetch_fresh cc rq = value s ->
  match do_fetch_stored cc rq with value e => last_resort cc before e = true | unexpected _ => True end ->
  fetch cc rq before now schedule = Some (value s).
Proof.
  intros Hb Hs He. unfold fetch. destruct (must_revalidate rq).
  { unfold fetch_revalidate. by rewrite Hs. }
  destruct (first_wait cc rq schedule Hb) as (st & rest & -> & Hd & Hok & Hf).
  destruct (fresh_result st) as [fr|] eqn:Efr.
  { rewrite (jobs_ok_fresh cc rq st Hok) in Efr by (by rewrite Efr). rewrite Hs in Efr. simplify_eq.
    by destruct (stored_result st) as [[]|]. }
  destruct (stored_result st) as [sr|] eqn:Esr; unfold first_wait_done in Hd; rewrite Efr, Esr in Hd; [|done].
  pose proof (jobs_ok_stored cc rq st Hok ltac:(by rewrite Esr)) as Es. rewrite Esr in Es. simplify_eq.
  destruct (do_fetch_stored cc rq) as [e|]; [|done]. unfold serve_stored. unfold last_resort in He. rewrite He.
  destruct (wait_fresh cc rq rest st Hok Hf) as (st' & rest' & -> & ->). by rewrite Hs.
Qed.

(** a response with a lifetime of [m] seconds that was injected at [t] is
    expired exactly after [t + m]; one without an injection time never is. *)
Theorem lifetime_from_injection `{!PosixTimeLaws P} (rs : response_header) (v : string_view) (m t n : Z) :
  get_field (str "Cache-Control") (rs_fields rs) = Some v -> get_max_age v = Some m ->
  0 <= t -> 0 <= m -> t + m <= max_time_t -> 0 <= n <= max_time_t ->
  is_expired (from_time_t n) rs (from_time_t t) = (t + m <? n) /\
  is_expired (from_time_t n) rs not_a_date_time = false.
Proof.
  intros Hv Hm Ht Hm0 Htm Hn. unfold is_expired. rewrite Hv, Hm. split.
  - rewrite plus_spec, before_spec by lia. done.
  - rewrite plus_not_a_date. apply before_not_a_date.
Qed.

End Code.

(** ** Witnesses *)

#[local] Instance sample_time : PosixTime := {|
  ptime := option Z;
  not_a_date_time := None;
  from_time_t t := Some t;
  plus_seconds t n := Z.add n <$> t;
  is_before a b := match a, b with Some a, Some b => a <? b | _, _ => false end;
  is_older_than a b d := match a, b with Some a, Some b => d <? a - b | _, _ => false end;
  is_date t := match t with Some _ => true | None => false end;
  read_date_1 _ := None;
  read_date_2 _ := None;
|}.

#[local] Instance sample_time_laws : PosixTimeLaws sample_time.
Proof.
  split; try done.
  - intros a n _ _ _. simpl. by rewrite Z.add_comm.
  - by intros [].
Qed.

Definition sample_response (cc : list byte) : response_header :=
  {| result := 200; rs_version := 11;
     rs_fields := [(str "Cache-Control", cc);
                   (str "X-Ouinet-Injection", str "id=a,ts=1000")] |}.

Definition sample_cache_request : CacheRequest :=
  {| _header := {| method := str "GET"; target := str "http://a/"; version := 11; rq_fields := [] |};
     _cache_type := Bep5Http; _resource_id := []; _resource_key := []; _dht_group := str "g" |}.

(** An injector that is unreachable and a cache with one entry. *)
Definition sample_control (fresh : expected (@Session bool)) (stored : list byte) : @CacheControl bool :=
  {| fetch_fresh := Some (fun _ => fresh);
     fetch_stored := Some (fun _ => value {| head := sample_response stored; body := false |});
     max_cached_age := 604800 |}.

Lemma fetch_outcome_witness :
  served (sample_control (unexpected invalid_argument) (str "max-age=60")) sample_cache_request (from_time_t 1061)
    (add_stale_warning {| head := sample_response (str "max-age=60"); body := false |}).
Proof.
  assert (fetch (sample_control (unexpected invalid_argument) (str "max-age=60")) sample_cache_request
    (from_time_t 1061) (from_time_t 1061) [[Stored]; [Fresh]]
    = Some (value (add_stale_warning {| head := sample_response (str "max-age=60"); body := false |}))) as E.
  { vm_compute. reflexivity. }
  pose proof (fetch_outcome (sample_control (unexpected invalid_argument) (str "max-age=60"))
    sample_cache_request (from_time_t 1061) (from_time_t 1061) [[Stored]; [Fresh]]) as H.
  rewrite E in H. apply H. split; [right; left|left].
Defined.

Lemma fetch_prefers_fresh_witness :
  let s := {| head := sample_response (str "max-age=60"); body := true |} in
  fetch (sample_control (value s) (str "private")) sample_cache_request (from_time_t 1000) (from_time_t 1000)
    [[Stored]; []; [Fresh]] = Some (value s).
Proof.
  apply (fetch_prefers_fresh (sample_control (value _) (str "private"))).
  - split; [right; left|left].
  - reflexivity.
  - vm_compute. reflexivity.
Defined.

Lemma lifetime_from_injection_witness :
  is_expired (from_time_t 1061) (sample_response (str "max-age=60")) (from_time_t 1000) = true /\
  is_expired (from_time_t 1061) (sample_response (str "max-age=60")) not_a_date_time = false.
Proof.
  apply (lifetime_from_injection (P := sample_time) (sample_response (str "max-age=60"))
    (field_view (str "max-age=60")) 60 1000 1061); try (vm_compute; congruence).
  split; vm_compute; congruence.
Defined.
