(* ===== verification/HashList.v ===== *)
(** * Hash chains and hash lists: src/cache/chain_hasher.h, hash_list.h and hash_list.cpp

    The signed chain of block digests of a response, and the wire format in which
    a list of them travels.  SHA-512 is a parameter; signatures are the interface
    of Crypto.  The head of a hash list (its signed header) is represented by the
    three fields that the verification uses; its own verification is not part of
    this file. *)
From S2P Require Import Prelude Number Crypto.

Definition Digest_size : nat := 64.

Record ChainHash := { offset : Z; chain_digest : list byte; chain_signature : list byte }.

(** The string that is signed for a block: [%s%c%d%c%s] with zero bytes between. *)
Definition str_to_sign (injection_id : list byte) (offset : Z) (digest : list byte) : list byte :=
  injection_id ++ [Byte.x00] ++ to_string offset ++ [Byte.x00] ++ digest.

Record ChainHasher := {
  _offset : Z;
  _prev_chained_digest : option (list byte);
  _prev_chained_signature : option (list byte);
}.

Definition new_hasher : ChainHasher :=
  {| _offset := 0; _prev_chained_digest := None; _prev_chained_signature := None |}.

Record Block := { data_hash : list byte; chained_hash_signature : list byte }.

Record HashList := {
  block_size : Z;
  list_public_key : list byte;
  injection_id : list byte;
  blocks : list Block;
}.

Section Code.
Context `{SignatureScheme}.
Variable sha512 : list byte -> list byte.

Definition ChainHash_verify (pk injection_id : list byte) (c : ChainHash) : bool :=
  verify_message pk (str_to_sign injection_id (offset c) (chain_digest c)) (chain_signature c).

(** [Signature] or [Signer] *)
Inductive SigOrSigner :=
  | Sig (s : list byte)
  | Signer (injection_id : list byte) (key : SecretKey).

(** What the hasher of one block is fed. *)
Definition chain_input (h : ChainHasher) (data_digest : list byte) : list byte :=
  default [] (_prev_chained_signature h) ++ default [] (_prev_chained_digest h) ++ data_digest.

Definition calculate_block (data_size : Z) (data_digest : list byte) (sig_or_signer : SigOrSigner)
    (h : ChainHasher) : ChainHash * ChainHasher :=
  let chained_digest := sha512 (chain_input h data_digest) in
  let chained_signature :=
    match sig_or_signer with
    | Sig s => s
    | Signer injection_id key => sign_message key (str_to_sign injection_id (_offset h) chained_digest)
    end in
  ({| offset := _offset h; chain_digest := chained_digest; chain_signature := chained_signature |},
   {| _offset := (_offset h + data_size) mod 2 ^ 64;
      _prev_chained_digest := Some chained_digest;
      _prev_chained_signature := Some chained_signature |}).

(** The loop of [HashList::verify]: the chain hash of the last block. *)
Fixpoint chain_blocks (size : Z) (bs : list Block) (last : option ChainHash) (h : ChainHasher)
    : option ChainHash :=
  match bs with
  | [] => last
  | b :: bs' =>
      let '(c, h) := calculate_block size (data_hash b) (Sig (chained_hash_signature b)) h in
      chain_blocks size bs' (Some c) h
  end.

Definition HashList_verify (l : HashList) : bool :=
  match chain_blocks (block_size l) (blocks l) None new_hasher with
  | None => false
  | Some c => ChainHash_verify (list_public_key l) (injection_id l) c
  end.

Definition get_block (l : HashList) (block_id : nat) : option Block := blocks l !! block_id.

End Code.

(** ** The wire format *)

Definition MAX_LINE_SIZE_BYTES : nat := 512.
Definition MAGIC : list byte := str "OUINET_HASH_LIST_V1".
Definition newline : byte := Byte.x0a.

Definition block_bytes (b : Block) : list byte := data_hash b ++ chained_hash_signature b.

(** The buffers that [HashList::write] sends after the head, and the value it
    puts in [Content-Length]. *)
Definition write_body (bs : list Block) : list byte :=
  MAGIC ++ [newline] ++ concat (map block_bytes bs).
Definition content_length (bs : list Block) : Z :=
  Z.of_nat (length MAGIC) + 1 + Z.of_nat (length bs) * (Z.of_nat Signature_size + Z.of_nat Digest_size).

(** [Parser::read_line] and [read_array]: the item and the rest of the buffer. *)
Fixpoint read_line (buffer : list byte) : option (list byte * list byte) :=
  match buffer with
  | [] => None
  | c :: rest =>
      if bool_decide (c = newline) then Some ([], rest)
      else let? (l, r) := read_line rest in Some (c :: l, r)
  end.

Definition read_array (n : nat) (buffer : list byte) : option (list byte * list byte) :=
  if (length buffer <? n)%nat then None else Some (take n buffer, drop n buffer).

Record LoadState := {
  buffer : list byte;
  magic_checked : bool;
  digest : option (list byte);
  loaded : list Block;
}.

(** One iteration of the inner loop of [load]: [None] is [bad_message]; the flag
    is [progress]. *)
Definition load_step (st : LoadState) : option (bool * LoadState) :=
  if negb (magic_checked st) then
    match read_line (buffer st) with
    | None => Some (false, st)
    | Some (line, rest) =>
        if bool_decide (line = MAGIC)
        then Some (true, {| buffer := rest; magic_checked := true; digest := digest st; loaded := loaded st |})
        else None
    end
  else
    match digest st with
    | None =>
        match read_array Digest_size (buffer st) with
        | None => Some (false, st)
        | Some (d, rest) =>
            Some (true, {| buffer := rest; magic_checked := true; digest := Some d; loaded := loaded st |})
        end
    | Some d =>
        match read_array Signature_size (buffer st) with
        | None => Some (false, st)
        | Some (s, rest) =>
            Some (true, {| buffer := rest; magic_checked := true; digest := None;
                           loaded := loaded st ++ [{| data_hash := d; chained_hash_signature := s |}] |})
        end
    end.

Inductive outcome (A : Type) := Done (a : A) | BadMessage | OutOfFuel.
Arguments Done {A} a.
Arguments BadMessage {A}.
Arguments OutOfFuel {A}.

Fixpoint load_loop (fuel : nat) (st : LoadState) : outcome LoadState :=
  match fuel with
  | O => OutOfFuel
  | S fuel' =>
      match load_step st with
      | None => BadMessage
      | Some (true, st') => load_loop fuel' st'
      | Some (false, st') =>
          if (MAX_LINE_SIZE_BYTES <? length (buffer st'))%nat then BadMessage else Done st'
      end
  end.

(** The parts of the response after its head. *)
Inductive Part := BodyPart (data : list byte) | ChunkBodyPart (data : list byte) | OtherPart.

Definition append_data (st : LoadState) (data : list byte) : LoadState :=
  {| buffer := buffer st ++ data; magic_checked := magic_checked st; digest := digest st; loaded := loaded st |}.

(** The outer loop of [load]; every iteration of the inner loop that makes
    progress removes bytes from the buffer. *)
Fixpoint load_parts (parts : list Part) (st : LoadState) : outcome LoadState :=
  match parts with
  | [] => Done st
  | OtherPart :: parts' => load_parts parts' st
  | (BodyPart data | ChunkBodyPart data) :: parts' =>
      let st := append_data st data in
      match load_loop (S (length (buffer st))) st with
      | Done st' => load_parts parts' st'
      | BadMessage => BadMessage
      | OutOfFuel => OutOfFuel
      end
  end.

Definition initial : LoadState :=
  {| buffer := []; magic_checked := false; digest := None; loaded := [] |}.

(** The body of [HashList::load], from the first part after the head to the test
    that there are blocks. *)
Definition load_blocks (parts : list Part) : outcome (list Block) :=
  match load_parts parts initial with
  | Done st => match loaded st with [] => BadMessage | bs => Done bs end
  | BadMessage => BadMessage
  | OutOfFuel => OutOfFuel
  end.

Definition part_data (p : Part) : list byte :=
  match p with BodyPart d | ChunkBodyPart d => d | OtherPart => [] end.

(** ** Reassembly *)

Definition block_ok (b : Block) : Prop :=
  length (data_hash b) = Digest_size /\ length (chained_hash_signature b) = Signature_size.

(** The bytes that a state stands for. *)
Definition serial (st : LoadState) : list byte :=
  (if magic_checked st
   then MAGIC ++ [newline] ++ concat (map block_bytes (loaded st)) ++ default [] (digest st)
   else []) ++ buffer st.

Record state_ok (st : LoadState) : Prop := {
  ok_loaded : Forall block_ok (loaded st);
  ok_digest : match digest st with Some d => length d = Digest_size | None => True end;
  ok_before_magic : magic_checked st = false -> loaded st = [] /\ digest st = None;
}.

(** A state in which the inner loop makes no progress. *)
Definition stuck (st : LoadState) : Prop :=
  if magic_checked st then (length (buffer st) < 64)%nat else newline ∉ buffer st.

Lemma read_line_spec b :
  match read_line b with
  | None => newline ∉ b
  | Some (l, r) => b = l ++ [newline] ++ r /\ newline ∉ l
  end.
Proof.
  induction b as [|c b IH]; simpl; [apply not_elem_of_nil|]. case_bool_decide as E.
  - subst c. split; [done|apply not_elem_of_nil].
  - destruct (read_line b) as [[l r]|]; [destruct IH as [-> Hl]; split; [done|]|];
      rewrite elem_of_cons; naive_solver.
Qed.

Lemma load_step_spec st :
  state_ok st ->
  match load_step st with
  | None => magic_checked st = false /\ exists l r, serial st = l ++ [newline] ++ r /\ (newline ∉ l) /\ l <> MAGIC
  | Some (true, st') =>
      state_ok st' /\ serial st' = serial st /\ (length (buffer st') < length (buffer st))%nat
  | Some (false, st') => st' = st /\ stuck st
  end.
Proof.
  intros [Hl Hd Hm]. unfold load_step, serial, stuck. destruct st as [b [] d bs];
    cbn [buffer magic_checked digest loaded negb] in *.
  - destruct d as [d|]; unfold read_array.
    + destruct (Nat.ltb_spec (length b) Signature_size) as [Hlt|Hge]; [by split|]. split_and!.
      * split; simpl; [|done|done]. apply Forall_app. split; [done|].
        constructor; [|constructor]. split; [done|]. simpl. rewrite length_take. lia.
      * cbn [buffer magic_checked digest loaded]. rewrite map_app, concat_app. unfold block_bytes.
        cbn [map concat default data_hash chained_hash_signature].
        by rewrite !app_nil_r, <-!app_assoc, take_drop.
      * simpl. rewrite length_drop. unfold Signature_size in *. lia.
    + destruct (Nat.ltb_spec (length b) Digest_size) as [Hlt|Hge]; [by split|]. split_and!.
      * split; simpl; [done| |done]. rewrite length_take. lia.
      * cbn [buffer magic_checked digest loaded]. change (default [] (Some ?x)) with x.
        change (default [] None) with (@nil byte). by rewrite app_nil_r, <-!app_assoc, take_drop.
      * simpl. rewrite length_drop. unfold Digest_size in *. lia.
  - destruct (Hm eq_refl) as [-> ->]. pose proof (read_line_spec b) as R.
    destruct (read_line b) as [[l r]|]; [|by split].
    destruct R as [-> Hn]. case_bool_decide as E.
    + subst l. split_and!; [by split|done|]. simpl. lia.
    + split; [done|]. eauto.
Qed.

(** Data that cannot start a hash list. *)
Definition bad_prefix (s : list byte) : Prop :=
  (exists l r, s = l ++ [newline] ++ r /\ (newline ∉ l) /\ l <> MAGIC) \/
  ((newline ∉ s) /\ (MAX_LINE_SIZE_BYTES < length s)%nat).

Lemma load_loop_spec fuel : forall st,
  state_ok st -> (length (buffer st) < fuel)%nat ->
  match load_loop fuel st with
  | Done st' => state_ok st' /\ serial st' = serial st /\ stuck st'
  | BadMessage => bad_prefix (serial st)
  | OutOfFuel => False
  end.
Proof.
  induction fuel as [|fuel IH]; intros st Hok Hf; [lia|]. cbn [load_loop].
  pose proof (load_step_spec st Hok) as Hs. destruct (load_step st) as [[[] st']|].
  - destruct Hs as (Hok' & Es & Hl). specialize (IH st' Hok' ltac:(lia)). by rewrite Es in IH.
  - destruct Hs as [-> Hs].
    destruct (Nat.ltb_spec MAX_LINE_SIZE_BYTES (length (buffer st))) as [Hlt|]; [|done].
    right. unfold stuck in Hs. unfold serial. unfold MAX_LINE_SIZE_BYTES in *.
    destruct (magic_checked st); [lia|]. by split.
  - destruct Hs as [_ Hs]. by left.
Qed.

Lemma append_data_spec st d :
  state_ok st -> state_ok (append_data st d) /\ serial (append_data st d) = serial st ++ d.
Proof. intros [H1 H2 H3]. split; [by split|]. unfold serial. simpl. by rewrite <-app_assoc. Qed.

Lemma load_parts_spec parts : forall st,
  state_ok st -> stuck st ->
  match load_parts parts st with
  | Done st' => state_ok st' /\ stuck st' /\ serial st' = serial st ++ concat (map part_data parts)
  | BadMessage => exists s t, serial st ++ concat (map part_data parts) = s ++ t /\ bad_prefix s
  | OutOfFuel => False
  end.
Proof.
  induction parts as [|p parts IH]; intros st Hok Hst; simpl; [by rewrite app_nil_r|].
  assert (forall d,
    match (match load_loop (S (length (buffer (append_data st d)))) (append_data st d) with
           | Done st' => load_parts parts st'
           | BadMessage => BadMessage
           | OutOfFuel => OutOfFuel
           end) with
    | Done st' => state_ok st' /\ stuck st' /\ serial st' = serial st ++ d ++ concat (map part_data parts)
    | BadMessage => exists s t, serial st ++ d ++ concat (map part_data parts) = s ++ t /\ bad_prefix s
    | OutOfFuel => False
    end) as Hd.
  { intros d. destruct (append_data_spec st d Hok) as [Hok1 Es].
    pose proof (load_loop_spec (S (length (buffer (append_data st d)))) _ Hok1 ltac:(lia)) as Hl.
    destruct (load_loop _ _) as [st'| |]; [|by rewrite app_assoc, <-Es; eauto|done].
    destruct Hl as (Hok' & Es' & Hst'). specialize (IH st' Hok' Hst').
    by rewrite Es', Es, <-!app_assoc in IH. }
  destruct p as [d|d|]; [apply Hd..|]. by apply IH.
Qed.

Lemma newline_split l1 l2 r1 r2 :
  newline ∉ l1 -> newline ∉ l2 -> l1 ++ [newline] ++ r1 = l2 ++ [newline] ++ r2 -> l1 = l2.
Proof.
  revert l2. induction l1 as [|c l1 IH]; intros [|d l2] H1 H2 E; simplify_eq/=; try done.
  - destruct H2. left.
  - destruct H1. left.
  - f_equal. apply IH; [by intros ?; destruct H1; right|by intros ?; destruct H2; right|done].
Qed.

Lemma MAGIC_line : newline ∉ MAGIC.
Proof. by apply (bool_decide_unpack _). Qed.

Lemma good_prefix x s t : MAGIC ++ [newline] ++ x = s ++ t -> ~ bad_prefix s.
Proof.
  intros E [(l & r & -> & Hl & Hne)|[Hn Hlen]].
  - rewrite <-!app_assoc in E. apply newline_split in E; [|apply MAGIC_line|done]. done.
  - apply Hn. assert (s = take (length s) (MAGIC ++ [newline] ++ x)) as ->.
    { rewrite E. by rewrite take_app_length. }
    rewrite app_assoc, take_app_ge by (simpl; unfold MAX_LINE_SIZE_BYTES in Hlen; lia).
    apply elem_of_app. left. by apply elem_of_app; right; left.
Qed.

Lemma concat_blocks_length bs :
  Forall block_ok bs -> length (concat (map block_bytes bs)) = (128 * length bs)%nat.
Proof.
  induction 1 as [|b bs [H1 H2] Hbs IH]; simpl; [done|]. rewrite length_app, IH. unfold block_bytes.
  rewrite length_app, H1, H2. unfold Digest_size, Signature_size. lia.
Qed.

Lemma concat_blocks_inj bs bs' r r' :
  Forall block_ok bs -> Forall block_ok bs' ->
  concat (map block_bytes bs) ++ r = concat (map block_bytes bs') ++ r' ->
  (length r < 128)%nat -> (length r' < 128)%nat -> bs = bs'.
Proof.
  intros H. revert bs'. induction H as [|b bs [H1 H2] Hbs IH]; intros bs' H' E Hr Hr'.
  - destruct H' as [|b' bs' Hb' Hbs']; [done|].
    apply (f_equal length) in E. rewrite !length_app, (concat_blocks_length (b' :: bs')) in E by (by constructor).
    simpl in E. lia.
  - destruct H' as [|b' bs' [H1' H2'] Hbs'].
    { apply (f_equal length) in E. rewrite !length_app, (concat_blocks_length (b :: bs)) in E by (by constructor).
      simpl in E. lia. }
    simpl in E. unfold block_bytes at 1 3 in E. rewrite <-!app_assoc in E.
    apply app_inj_1 in E as [E1 E]; [|congruence]. apply app_inj_1 in E as [E2 E]; [|congruence].
    f_equal; [destruct b, b'; simpl in *; congruence|]. by apply IH.
Qed.

Lemma state_rest st :
  state_ok st -> stuck st -> magic_checked st = true ->
  (length (default [] (digest st) ++ buffer st) < 128)%nat.
Proof.
  intros Hok Hst Hm. unfold stuck in Hst. rewrite Hm in Hst. rewrite length_app.
  pose proof (ok_digest _ Hok) as Hd. unfold Digest_size in Hd. destruct (digest st); simpl; lia.
Qed.

Lemma serial_magic st :
  magic_checked st = true ->
  serial st = write_body (loaded st) ++ default [] (digest st) ++ buffer st.
Proof. intros Hm. unfold serial, write_body. rewrite Hm. by rewrite <-!app_assoc. Qed.

Lemma initial_ok : state_ok initial /\ stuck initial /\ serial initial = [].
Proof. split_and!; [by split|apply not_elem_of_nil|done]. Qed.

Lemma load_blocks_outcome parts :
  let data := concat (map part_data parts) in
  match load_blocks parts with
  | Done bs => bs <> [] /\ Forall block_ok bs /\
      exists rest, data = write_body bs ++ rest /\ (length rest < 128)%nat
  | BadMessage => ~ exists bs rest, bs <> [] /\ Forall block_ok bs /\ data = write_body bs ++ rest
  | OutOfFuel => False
  end.
Proof.
  intros data. unfold load_blocks. destruct initial_ok as (Hok & Hst & Es).
  pose proof (load_parts_spec parts initial Hok Hst) as Hp. rewrite Es in Hp. cbn [app] in Hp. fold data in Hp.
  destruct (load_parts parts initial) as [st| |]; [|clear Hok Hst|done].
  2: { intros (bs & rest & _ & _ & E). destruct Hp as (s & t & Ed & Hbad).
       rewrite E in Ed. unfold write_body in Ed. rewrite <-!app_assoc in Ed. by apply good_prefix in Ed. }
  destruct Hp as (Hok' & Hst' & Ed). destruct (magic_checked st) eqn:Em.
  - pose proof (state_rest st Hok' Hst' Em) as Hr. rewrite (serial_magic st Em) in Ed.
    pose proof (ok_loaded _ Hok') as Hl. destruct (loaded st) as [|b bs] eqn:Eb.
    + intros (bs & rest & Hne & Hbs & E). rewrite E in Ed.
      apply (f_equal length) in Ed. unfold write_body in Ed. rewrite length_app in Hr.
      rewrite !length_app, (concat_blocks_length bs) in Ed by done.
      destruct bs as [|b bs]; [done|]. simpl in *. lia.
    + split_and!; [done|done|]. by exists (default [] (digest st) ++ buffer st).
  - destruct (ok_before_magic _ Hok' Em) as [-> Edg].
    intros (bs & rest & _ & _ & E). unfold stuck in Hst'. unfold serial in Ed. rewrite Em in Hst', Ed.
    simpl in Ed. apply Hst'. rewrite Ed, E. unfold write_body. rewrite !elem_of_app. left. right. left. left.
Qed.

(** a hash list survives the wire: its blocks are loaded back from the bytes
    that [write] sends, however the stream cuts them into parts and whatever
    other parts come in between, and the announced content length is the number
    of bytes. *)
Theorem hash_list_roundtrip (bs : list Block) (parts : list Part) :
  bs <> [] -> Forall block_ok bs -> concat (map part_data parts) = write_body bs ->
  load_blocks parts = Done bs /\ Z.of_nat (length (write_body bs)) = content_length bs.
Proof.
  intros Hne Hbs E. split.
  - pose proof (load_blocks_outcome parts) as Ho. cbv zeta in Ho. rewrite E in Ho.
    destruct (load_blocks parts) as [bs'| |]; [| |done].
    + destruct Ho as (_ & Hbs' & rest & E' & Hr). f_equal. unfold write_body in E'.
      rewrite <-!app_assoc in E'. do 2 apply app_inv_head in E'.
      rewrite <-(app_nil_r (concat (map block_bytes bs))) in E'. symmetry.
      apply (concat_blocks_inj bs bs' [] rest); simpl; [done..|lia|done].
    + destruct Ho. exists bs, []. by rewrite app_nil_r.
  - unfold write_body, content_length. rewrite !length_app, concat_blocks_length by done.
    unfold Signature_size, Digest_size. simpl length. lia.
Qed.

(** what [load] accepts, for every sequence of parts: it always ends; it
    returns blocks exactly if the data starts with the magic line and at least
    one whole block, and then these are all the whole blocks of the data; up to
    127 bytes of an incomplete block at the end are ignored. *)
Theorem hash_list_load (parts : list Part) :
  let data := concat (map part_data parts) in
  match load_blocks parts with
  | Done bs => bs <> [] /\ Forall block_ok bs /\
      exists rest, data = write_body bs ++ rest /\ (length rest < 128)%nat
  | BadMessage => ~ exists bs rest, bs <> [] /\ Forall block_ok bs /\ data = write_body bs ++ rest
  | OutOfFuel => False
  end.
Proof. apply load_blocks_outcome. Qed.

(** ** The chain *)

Section Chain.
Context {S : SignatureScheme} {L : SignatureLaws S}.
Variable sha512 : list byte -> list byte.
Hypothesis sha512_size : forall x, length (sha512 x) = Digest_size.

(** The digest of a chain, given by its blocks in reverse. *)
Fixpoint rchain (rbs : list Block) : list byte :=
  match rbs with
  | [] => []
  | b :: rest =>
      sha512 (match rest with
              | [] => data_hash b
              | b' :: _ => chained_hash_signature b' ++ rchain rest ++ data_hash b
              end)
  end.

(** The hasher after the blocks of a chain. *)
Fixpoint rhasher (size : Z) (rbs : list Block) : ChainHasher :=
  match rbs with
  | [] => new_hasher
  | b :: rest => snd (calculate_block sha512 size (data_hash b) (Sig (chained_hash_signature b)) (rhasher size rest))
  end.

Lemma rhasher_prev size rbs :
  match rbs with
  | [] => True
  | b :: _ => _prev_chained_digest (rhasher size rbs) = Some (rchain rbs) /\
              _prev_chained_signature (rhasher size rbs) = Some (chained_hash_signature b)
  end.
Proof.
  induction rbs as [|b rest IH]; [done|]. split; [|done]. cbn [rhasher calculate_block snd _prev_chained_digest rchain].
  unfold chain_input. destruct rest as [|b' rest]; [done|]. destruct IH as [-> ->]. done.
Qed.

Lemma chain_blocks_app size bs1 bs2 : forall last h,
  chain_blocks sha512 size (bs1 ++ bs2) last h =
  chain_blocks sha512 size bs2
    (chain_blocks sha512 size bs1 last h)
    (fold_left (fun h b => snd (calculate_block sha512 size (data_hash b) (Sig (chained_hash_signature b)) h)) bs1 h).
Proof. induction bs1 as [|b bs1 IH]; intros last h; [done|]. simpl. apply IH. Qed.

Lemma rhasher_fold size rbs :
  rhasher size rbs =
  fold_left (fun h b => snd (calculate_block sha512 size (data_hash b) (Sig (chained_hash_signature b)) h))
    (rev rbs) new_hasher.
Proof. induction rbs as [|b rbs IH]; [done|]. cbn [rev]. rewrite fold_left_app. cbn [fold_left]. by rewrite <-IH. Qed.

(** The chain hash of the last block. *)
Lemma chain_blocks_rev size b rbs :
  chain_blocks sha512 size (rev (b :: rbs)) None new_hasher =
  Some {| offset := _offset (rhasher size rbs); chain_digest := rchain (b :: rbs);
          chain_signature := chained_hash_signature b |}.
Proof.
  cbn [rev]. rewrite chain_blocks_app, <-rhasher_fold. cbn [chain_blocks calculate_block rchain]. do 2 f_equal.
  pose proof (rhasher_prev size rbs) as Hp. unfold chain_input.
  destruct rbs as [|b' rbs]; [done|]. by destruct Hp as [-> ->].
Qed.

(** The texts that are hashed for the chain, the last one first. *)
Definition rchain_text (rbs : list Block) : list byte :=
  match rbs with
  | [] => []
  | b :: rest => match rest with [] => [] | b' :: _ => chained_hash_signature b' ++ rchain rest end ++ data_hash b
  end.

Fixpoint rchain_texts (rbs : list Block) : list (list byte) :=
  match rbs with
  | [] => []
  | b :: rest => rchain_text rbs :: rchain_texts rest
  end.

(** The hash tells each of the texts [xs] from each other one of the texts [ys]. *)
Definition no_clash (xs ys : list (list byte)) : Prop :=
  forall x y, x ∈ xs -> y ∈ ys -> sha512 x = sha512 y -> x = y.

Lemma no_clash_mono xs xs' ys ys' : xs' ⊆ xs -> ys' ⊆ ys -> no_clash xs ys -> no_clash xs' ys'.
Proof. intros Hx Hy Hc x y ?%Hx ?%Hy. by apply Hc. Qed.

Lemma no_clash_check xs ys :
  forallb (fun x => forallb (fun y => implb (bool_decide (sha512 x = sha512 y)) (bool_decide (x = y))) ys) xs = true ->
  no_clash xs ys.
Proof.
  intros Hc x y Hx Hy E. rewrite forallb_forall in Hc. apply list_elem_of_In in Hx, Hy. specialize (Hc x Hx).
  rewrite forallb_forall in Hc. specialize (Hc y Hy). rewrite bool_decide_true in Hc by done. by apply bool_decide_eq_true in Hc.
Qed.

Lemma rchain_text_hash b rbs : rchain (b :: rbs) = sha512 (rchain_text (b :: rbs)).
Proof. cbn [rchain rchain_text]. destruct rbs; [done|]. by rewrite <-app_assoc. Qed.

Lemma rchain_texts_app xs ys : rchain_texts ys ⊆ rchain_texts (xs ++ ys).
Proof. induction xs as [|x xs IH]; [done|]. cbn [app rchain_texts]. by apply list_subseteq_cons. Qed.

(** Equal chain digests come from equal blocks, if the hash tells the texts of the
    two chains apart. *)
Lemma rchain_binds (rbs1 : list Block) : forall rbs2 : list Block,
  Forall block_ok rbs1 -> Forall block_ok rbs2 -> rbs1 <> [] -> rbs2 <> [] ->
  no_clash (rchain_texts rbs1) (rchain_texts rbs2) -> rchain rbs1 = rchain rbs2 ->
  map data_hash rbs1 = map data_hash rbs2 /\
  map chained_hash_signature (tail rbs1) = map chained_hash_signature (tail rbs2).
Proof.
  induction rbs1 as [|b1 r1 IH]; intros [|b2 r2] H1 H2 Hn1 Hn2 Hc E; try done. rewrite !rchain_text_hash in E.
  apply Forall_cons in H1 as [[D1 S1] H1], H2 as [[D2 S2] H2].
  apply Hc in E as Ei; [|by left..]. clear E. cbn [rchain_text] in Ei.
  destruct r1 as [|b1' r1], r2 as [|b2' r2].
  - simpl in *. by rewrite Ei.
  - apply (f_equal length) in Ei. apply Forall_cons in H2 as [[_ S2'] _]. rewrite !length_app in Ei.
    unfold Digest_size, Signature_size in *. cbn [length] in Ei. lia.
  - apply (f_equal length) in Ei. apply Forall_cons in H1 as [[_ S1'] _]. rewrite !length_app in Ei.
    unfold Digest_size, Signature_size in *. cbn [length] in Ei. lia.
  - pose proof H1 as [[_ S1'] _]%Forall_cons. pose proof H2 as [[_ S2'] _]%Forall_cons. rewrite <-!app_assoc in Ei.
    apply app_inj_1 in Ei as [E1 Ei]; [|congruence].
    apply app_inj_1 in Ei as [E2 E3]; [|cbn [rchain]; by rewrite !sha512_size].
    destruct (IH (b2' :: r2) H1 H2) as [I1 I2]; [done..| |done|].
    { eapply no_clash_mono; [..|exact Hc]; cbn [rchain_texts]; by apply list_subseteq_cons. }
    split; [cbn [map]; by rewrite E3; f_equal|]. cbn [tail map] in *. congruence.
Qed.

Lemma rev_cons_inv {A} (l : list A) : l <> [] -> exists x r, l = rev (x :: r).
Proof.
  intros Hl. destruct (rev l) as [|x r] eqn:E.
  - apply (f_equal (@rev A)) in E. rewrite rev_involutive in E. done.
  - exists x, r. by rewrite <-E, rev_involutive.
Qed.

Lemma split_at_zero a : forall b r s,
  Byte.x00 ∉ a -> Byte.x00 ∉ b -> a ++ [Byte.x00] ++ r = b ++ [Byte.x00] ++ s -> a = b /\ r = s.
Proof.
  induction a as [|c a IH]; intros [|d b] r s Ha Hb Hab; simplify_eq/=; try done.
  - destruct Hb. left.
  - destruct Ha. left.
  - destruct (IH b r s) as [-> ->]; [| |done|done]; intros ?; [destruct Ha|destruct Hb]; by right.
Qed.

Lemma to_string_value z : 0 <= z -> dec_value (to_string z) = z /\ (Byte.x00 ∉ to_string z).
Proof.
  intros Hz. rewrite to_string_abs. destruct (Z.ltb_spec z 0); [lia|]. simpl.
  destruct (abs_digits_spec z) as (H1 & H2 & _). split; [lia|].
  unfold all_digits in H1. rewrite Forall_forall in H1. by intros Hin%H1.
Qed.

Lemma str_to_sign_inj id1 id2 o1 o2 d1 d2 :
  Byte.x00 ∉ id1 -> Byte.x00 ∉ id2 -> 0 <= o1 -> 0 <= o2 ->
  str_to_sign id1 o1 d1 = str_to_sign id2 o2 d2 -> id1 = id2 /\ o1 = o2 /\ d1 = d2.
Proof.
  intros H1 H2 O1 O2 E. unfold str_to_sign in E.
  destruct (to_string_value o1 O1) as [V1 N1], (to_string_value o2 O2) as [V2 N2].
  apply split_at_zero in E as [-> E]; [|done..].
  apply split_at_zero in E as [E ->]; [|done..]. split_and!; [done| |done]. congruence.
Qed.

Lemma rhasher_offset size rbs : 0 <= _offset (rhasher size rbs).
Proof. destruct rbs; simpl; [lia|]. apply Z.mod_pos_bound. lia. Qed.

(** The string whose signature [HashList::verify] checks. *)
Definition signed_string (l : HashList) : option (list byte) :=
  (fun c => str_to_sign (injection_id l) (offset c) (chain_digest c))
    <$> chain_blocks sha512 (block_size l) (blocks l) None new_hasher.

(** one signature vouches for the whole list: two hash lists whose last
    block is signed over the same string are for the same injection and, if SHA-512
    tells the texts of their chains apart, they have the same block digests, in the
    same order. *)
Theorem hash_list_binding (l1 l2 : HashList) (m : list byte) :
  Forall block_ok (blocks l1) -> Forall block_ok (blocks l2) ->
  Byte.x00 ∉ injection_id l1 -> Byte.x00 ∉ injection_id l2 ->
  signed_string l1 = Some m -> signed_string l2 = Some m ->
  injection_id l1 = injection_id l2 /\
  (no_clash (rchain_texts (rev (blocks l1))) (rchain_texts (rev (blocks l2))) ->
   map data_hash (blocks l1) = map data_hash (blocks l2)).
Proof.
  intros B1 B2 Z1 Z2 E1 E2. unfold signed_string in *.
  destruct (decide (blocks l1 = [])) as [N1|N1]; [by rewrite N1 in E1|].
  destruct (decide (blocks l2 = [])) as [N2|N2]; [by rewrite N2 in E2|].
  apply rev_cons_inv in N1 as (b1 & r1 & N1), N2 as (b2 & r2 & N2). rewrite N1, chain_blocks_rev in E1.
  rewrite N2, chain_blocks_rev in E2. cbn in E1, E2.
  injection E1 as <-. injection E2 as E2. symmetry in E2. apply str_to_sign_inj in E2 as (Ei & _ & Ed); [|done|done|apply rhasher_offset..].
  split; [done|]. rewrite N1, N2. rewrite N1 in B1. rewrite N2 in B2.
  apply Forall_rev in B1, B2. rewrite rev_involutive in B1, B2.
  rewrite !rev_involutive. intros Hc. destruct (rchain_binds (b1 :: r1) (b2 :: r2)) as [Hd _]; [done..|].
  by rewrite !map_rev, Hd.
Qed.

(** The blocks that a signer makes of a list of data digests. *)
Fixpoint sign_blocks (size : Z) (id : list byte) (key : SecretKey) (ds : list (list byte)) (h : ChainHasher)
    : list Block :=
  match ds with
  | [] => []
  | d :: ds' =>
      let '(c, h) := calculate_block sha512 size d (Signer id key) h in
      {| data_hash := d; chained_hash_signature := chain_signature c |} :: sign_blocks size id key ds' h
  end.

Lemma sign_blocks_chain size id key ds : forall last h,
  match chain_blocks sha512 size (sign_blocks size id key ds h) last h with
  | Some c => (ds = [] /\ last = Some c) \/ ChainHash_verify (public_key_of key) id c = true
  | None => ds = []
  end.
Proof.
  induction ds as [|d ds IH]; intros last h; simpl; [destruct last; auto|].
  match goal with |- context [chain_blocks _ _ (sign_blocks _ _ _ _ ?h') (Some ?c) _] =>
    specialize (IH (Some c) h'); assert (ChainHash_verify (public_key_of key) id c = true) as Hc
  end.
  { unfold ChainHash_verify. simpl. apply verify_sign. }
  destruct (chain_blocks _ _ _ _ _) as [c|] eqn:E.
  - destruct IH as [[-> [= <-]]|IH]; by right.
  - subst ds. done.
Qed.

(** a hash list made by signing a chain of blocks verifies under the key of
    the signer. *)
Theorem signed_hash_list_verifies (size : Z) (id : list byte) (key : SecretKey) (ds : list (list byte)) :
  ds <> [] ->
  HashList_verify sha512
    {| block_size := size; list_public_key := public_key_of key; injection_id := id;
       blocks := sign_blocks size id key ds new_hasher |} = true.
Proof.
  intros Hds. unfold HashList_verify. simpl. pose proof (sign_blocks_chain size id key ds None new_hasher) as H.
  destruct (chain_blocks _ _ _ _ _) as [c|]; [|done]. by destruct H as [[? ?]|?].
Qed.

End Chain.

(** ** Witnesses *)

Definition sample_block (c : byte) : Block :=
  {| data_hash := replicate 64 c; chained_hash_signature := replicate 64 Byte.x41 |}.

Lemma hash_list_roundtrip_witness :
  load_blocks [BodyPart (take 100 (write_body [sample_block Byte.x42])); OtherPart;
               ChunkBodyPart (drop 100 (write_body [sample_block Byte.x42]))]
  = Done [sample_block Byte.x42].
Proof.
  apply (hash_list_roundtrip [sample_block Byte.x42]).
  - done.
  - by repeat constructor.
  - reflexivity.
Defined.

Definition toy_sha512 (x : list byte) : list byte := pad 64 x.

Lemma hash_list_binding_witness :
  let l := {| block_size := 65536; list_public_key := []; injection_id := str "id";
              blocks := [sample_block Byte.x42] |} in
  injection_id l = injection_id l /\
  (no_clash toy_sha512 (rchain_texts toy_sha512 (rev (blocks l))) (rchain_texts toy_sha512 (rev (blocks l))) ->
   map data_hash (blocks l) = map data_hash (blocks l)).
Proof.
  intros l. apply (hash_list_binding (S := toy_scheme) toy_sha512 (pad_length 64) l l
    (str_to_sign (str "id") 0 (replicate 64 Byte.x42))).
  1, 2: by repeat constructor.
  1, 2: by apply (bool_decide_unpack _).
  all: reflexivity.
Defined.

Lemma signed_hash_list_verifies_witness :
  @HashList_verify toy_scheme toy_sha512
    {| block_size := 10; list_public_key := pad PublicKey_size (str "k"); injection_id := str "id";
       blocks := @sign_blocks toy_scheme toy_sha512 10 (str "id") (str "k") [str "a"; str "b"] new_hasher |} = true.
Proof.
  apply (@signed_hash_list_verifies toy_scheme toy_scheme_laws toy_sha512 10 (str "id") (str "k") [str "a"; str "b"]).
  done.
Defined.
