(* ===== verification/DhtNode.v ===== *)
(** * The queries a DHT node answers: [DhtNode::handle_query] of src/bittorrent/mainline_dht.cpp

    One datagram from another node is handled at a time: the handlers change the
    routing table, the write tokens, the tracker and the data store, and send one
    datagram back.  The handler of a query runs up to the sending of its reply
    without suspension, so it is a function of the node, the time of the clock
    and the sender.  What is undefined behaviour in C++ is a fault here: a null
    routing table that is dereferenced, a bit behind the end of an identifier that is
    cleared, and a view of the transaction or of the token that is read after an
    insertion into the map it points into.  A short string is stored in place and moves
    with the elements of the map; up to which length is a matter of the standard library
    ([in_place], 15 or 22 characters in the usual ones). *)
From S2P Require Import Prelude Number Bencoding Bytes NodeId Contact RoutingTable DhtStorage.
From S2P Require Import Crypto MutableData DataStore.

Record DhtNode := {
  _node_id : list byte;
  is_v4 : bool;
  _routing_table : option RoutingTable;
  _tracker_tokens : Tokens.DhtWriteTokenStorage;
  _swarms : gmap (list byte) Swarms.Swarm;
  _data_tokens : Tokens.DhtWriteTokenStorage;
  _data_store : DataStore;
}.

Definition set_routing_table (n : DhtNode) (t : option RoutingTable) : DhtNode :=
  {| _node_id := _node_id n; is_v4 := is_v4 n; _routing_table := t;
     _tracker_tokens := _tracker_tokens n; _swarms := _swarms n;
     _data_tokens := _data_tokens n; _data_store := _data_store n |}.

Definition set_tracker (n : DhtNode) (tokens : Tokens.DhtWriteTokenStorage)
    (swarms : gmap (list byte) Swarms.Swarm) : DhtNode :=
  {| _node_id := _node_id n; is_v4 := is_v4 n; _routing_table := _routing_table n;
     _tracker_tokens := tokens; _swarms := swarms;
     _data_tokens := _data_tokens n; _data_store := _data_store n |}.

Definition set_data (n : DhtNode) (tokens : Tokens.DhtWriteTokenStorage) (store : DataStore) : DhtNode :=
  {| _node_id := _node_id n; is_v4 := is_v4 n; _routing_table := _routing_table n;
     _tracker_tokens := _tracker_tokens n; _swarms := _swarms n;
     _data_tokens := tokens; _data_store := store |}.

Definition RESPONSIBLE_TRACKERS_PER_SWARM : nat := 8.
Definition NUM_PEERS : nat := 50.

(** What is sent: [send_reply] or [send_error]. *)
Variant answer :=
| Reply (reply : BencodedMap)
| SendError (code : Z) (description : list byte).

(** What the handler must not do. *)
Variant fault :=
| StaleView          (* the transaction is read through an invalidated view *)
| StaleToken         (* the token is read through an invalidated view *)
| OutsideIdentifier  (* [NodeID::set_bit] behind the last bit *)
| NullRoutingTable   (* [_routing_table->] before the node is bootstrapped *)
| LengthError.       (* [MutableDataItem::verify] throws *)

Variant outcome :=
| NoReply
| Datagram (message : BencodedMap)
| Fault (f : fault).

(** [flat_map::operator[]] inserts a default value for a missing key, and the
    default [BencodedValue] is the empty string. *)
Definition arg (m : BencodedMap) (k : list byte) : BencodedValue :=
  default (BStr []) (map_find m k).

Definition has_key (m : BencodedMap) (k : list byte) : bool :=
  bool_decide (is_Some (map_find m k)).

Definition missing_argument (name : list byte) : answer :=
  SendError 203 (str "Missing argument '" ++ name ++ str "'").
Definition malformed_argument (name : list byte) : answer :=
  SendError 203 (str "Malformed argument '" ++ name ++ str "'").

(** A string argument of a given size; identifiers have 20 bytes. *)
Definition sized_argument (size : nat) (arguments : BencodedMap) (name : list byte) : answer + list byte :=
  match as_string (arg arguments name) with
  | None => inl (missing_argument name)
  | Some s => if (length s =? size)%nat then inr s else inl (malformed_argument name)
  end.
Definition id_argument : BencodedMap -> list byte -> answer + list byte := sized_argument id_size.

(** The message that [send_error] builds. *)
Definition send_error (sender : endpoint) (transaction : list byte) (code : Z) (description : list byte)
    : BencodedMap :=
  [ (str "e", BList [BInt code; BStr description]);
    (str "ip", BStr (encode_endpoint sender));
    (str "t", BStr transaction);
    (str "y", BStr (str "e")) ].

(** The message that [send_reply] builds. *)
Definition send_reply (me : list byte) (sender : endpoint) (transaction : list byte) (reply : BencodedMap)
    : BencodedMap :=
  [ (str "ip", BStr (encode_endpoint sender));
    (str "r", BMap (map_assign reply (str "id") (BStr me)));
    (str "t", BStr transaction);
    (str "y", BStr (str "r")) ].

Definition message_of (me : list byte) (sender : endpoint) (transaction : list byte) (a : answer)
    : BencodedMap :=
  match a with
  | Reply r => send_reply me sender transaction r
  | SendError code description => send_error sender transaction code description
  end.

(** [nodes += contact.id.to_bytestring(); nodes += encode_endpoint(contact.endpoint)] *)
Fixpoint encode_nodes (contacts : list NodeContact) : list byte :=
  match contacts with
  | [] => []
  | c :: cs => (id c ++ encode_endpoint (contact_endpoint c)) ++ encode_nodes cs
  end.

(** [reply["nodes"] = nodes] or [reply["nodes6"] = nodes] *)
Definition put_nodes (n : DhtNode) (nodes : list byte) (reply : BencodedMap) : BencodedMap :=
  map_assign reply (if is_v4 n then str "nodes" else str "nodes6") (BStr nodes).

(** [find_closest_routing_nodes], which looks for the bucket of the target. *)
Definition closest_nodes (t : RoutingTable) (target : list byte) (count : nat) : fault + list NodeContact :=
  if find_bucket_ok t target then inr (find_closest_routing_nodes t target count) else inl OutsideIdentifier.

Definition closest_contacts (n : DhtNode) (target : list byte) : fault + list NodeContact :=
  match _routing_table n with
  | Some t => closest_nodes t target BUCKET_SIZE
  | None => inr []
  end.

(** The loop that looks for a known node that is farther than this one. *)
Definition contains_self (n : DhtNode) (t : RoutingTable) (target : list byte) : fault + bool :=
  match closest_nodes t target (RESPONSIBLE_TRACKERS_PER_SWARM * 4) with
  | inl f => inl f
  | inr closer_nodes => inr (existsb (fun i => closer_to target (_node_id n) (id i)) closer_nodes)
  end.

(** An announcement is refused if enough better nodes are known. *)
Definition responsible (n : DhtNode) (infohash : list byte) : fault + bool :=
  match _routing_table n with
  | Some t => contains_self n t infohash
  | None => inr true
  end.

(** A view of the string [s] is stale once the argument [name], which sorts before it, is
    looked up: a missing one is inserted, which moves the string. *)
Definition stale_view (in_place : nat) (arguments : BencodedMap) (name s : list byte) : bool :=
  negb (has_key arguments name) && (length s <=? in_place)%nat.

(** ** The handlers *)

Definition handle_find_node (arguments : BencodedMap) (n : DhtNode) : fault + answer * DhtNode :=
  match id_argument arguments (str "target") with
  | inl e => inr (e, n)
  | inr target_id =>
      match closest_contacts n target_id with
      | inl f => inl f
      | inr contacts =>
          let nodes :=
            match contacts with
            | c :: _ => if bool_decide (id c = target_id)
                        then id c ++ encode_endpoint (contact_endpoint c)
                        else encode_nodes contacts
            | [] => encode_nodes contacts
            end in
          inr (Reply (put_nodes n nodes []), n)
      end
  end.

Section Code.
Variable sha1 : list byte -> list byte.
Variable addr_to_string : ip_address -> list byte.
Variable in_place : nat.
Context `{SignatureScheme}.

Definition generate_token := Tokens.generate_token sha1 addr_to_string.
Definition verify_token := Tokens.verify_token sha1 addr_to_string.

Definition handle_get_peers (now : Z) (rand : nat -> nat) (sender : endpoint)
    (arguments : BencodedMap) (n : DhtNode) : fault + answer * DhtNode :=
  match id_argument arguments (str "info_hash") with
  | inl e => inr (e, n)
  | inr infohash =>
      match closest_contacts n infohash with
      | inl f => inl f
      | inr contacts =>
          let reply := put_nodes n (encode_nodes contacts) [] in
          let '(token, tokens) := generate_token now (address sender) infohash (_tracker_tokens n) in
          let reply := map_assign reply (str "token") (BStr (default [] token)) in
          let '(peers, swarms) := Tracker.list_peers rand infohash NUM_PEERS (_swarms n) in
          let reply :=
            match peers with
            | [] => reply
            | _ => map_assign reply (str "values") (BList (map (fun p => BStr (encode_endpoint p)) peers))
            end in
          inr (Reply reply, set_tracker n tokens swarms)
      end
  end.

(** [int effective_port], then the [unsigned short] of the endpoint. *)
Definition effective_port (sender : endpoint) (arguments : BencodedMap) (p : Z) : Z :=
  match as_int (arg arguments (str "implied_port")) with
  | Some 1 => port sender
  | _ => to_signed W4 p mod 2 ^ 16
  end.

(** The token is read behind the lookup of [implied_port]. *)
Definition handle_announce_peer (now : Z) (sender : endpoint) (arguments : BencodedMap) (n : DhtNode)
    : fault + answer * DhtNode :=
  match id_argument arguments (str "info_hash") with
  | inl e => inr (e, n)
  | inr infohash =>
      match as_string (arg arguments (str "token")), as_int (arg arguments (str "port")) with
      | None, _ => inr (missing_argument (str "token"), n)
      | Some _, None => inr (missing_argument (str "port"), n)
      | Some token, Some p =>
          match responsible n infohash with
          | inl f => inl f
          | inr false => inr (SendError 201 (str "This torrent is not my responsibility"), n)
          | inr true =>
              if stale_view in_place arguments (str "implied_port") token then inl StaleToken
              else
                let '(ok, tokens) := verify_token now (address sender) infohash token (_tracker_tokens n) in
                if negb ok then
                  inr (SendError 203 (str "Incorrect announce token"), set_tracker n tokens (_swarms n))
                else
                  let ep := {| address := address sender; port := effective_port sender arguments p |} in
                  inr (Reply [], set_tracker n tokens (Tracker.add_peer now infohash ep (_swarms n)))
          end
      end
  end.

Definition mutable_reply (item : MutableDataItem) (reply : BencodedMap) : BencodedMap :=
  let reply := map_assign reply (str "k") (BStr (public_key item)) in
  let reply := map_assign reply (str "seq") (BInt (sequence_number item)) in
  let reply := map_assign reply (str "sig") (BStr (signature item)) in
  map_assign reply (str "v") (value item).

Definition handle_get (now : Z) (sender : endpoint) (arguments : BencodedMap) (n : DhtNode)
    : fault + answer * DhtNode :=
  match id_argument arguments (str "target") with
  | inl e => inr (e, n)
  | inr target =>
      let sequence_number_ := as_int (arg arguments (str "seq")) in
      match _routing_table n with
      | None => inl NullRoutingTable
      | Some t =>
          match closest_nodes t target BUCKET_SIZE with inl f => inl f | inr contacts =>
          let reply := put_nodes n (encode_nodes contacts) [] in
          let '(token, tokens) := generate_token now (address sender) target (_data_tokens n) in
          let reply := map_assign reply (str "token") (BStr (default [] token)) in
          let n := set_data n tokens (_data_store n) in
          let mutable_part :=
            match get_mutable target (_data_store n), sequence_number_ with
            | None, _ => reply
            | Some item, Some seq =>
                if seq <=? sequence_number item then reply else mutable_reply item reply
            | Some item, None => mutable_reply item reply
            end in
          let reply :=
            match sequence_number_, get_immutable target (_data_store n) with
            | None, Some v => map_assign reply (str "v") v
            | _, _ => mutable_part
            end in
          inr (Reply reply, n)
          end
      end
  end.

(** The checks against the item that is stored already. *)
Definition conflict (arguments : BencodedMap) (sequence_number_ : Z) (v : BencodedValue)
    (existing : option MutableDataItem) : option answer :=
  match existing with
  | None => None
  | Some item =>
      if sequence_number_ <? sequence_number item
      then Some (SendError 302 (str "Sequence number less than current"))
      else if (sequence_number_ =? sequence_number item)
              && negb (bool_decide (bencoding_encode v = bencoding_encode (value item)))
      then Some (SendError 302 (str "Sequence number not updated"))
      else match as_int (arg arguments (str "cas")) with
           | Some cas => if cas =? sequence_number item then None
                         else Some (SendError 301 (str "Compare-and-swap mismatch"))
           | None => None
           end
  end.

(** From the token on, for the target of an item; [store] puts it. *)
Definition checked_put (now : Z) (sender : endpoint) (target token : list byte) (n : DhtNode)
    (store : DhtNode -> fault + answer * DhtNode) : fault + answer * DhtNode :=
  let '(ok, tokens) := verify_token now (address sender) target token (_data_tokens n) in
  let n := set_data n tokens (_data_store n) in
  if negb ok then inr (SendError 203 (str "Incorrect put token"), n)
  else match _routing_table n with
       | None => inl NullRoutingTable
       | Some t =>
           match contains_self n t target with
           | inl f => inl f
           | inr false => inr (SendError 201 (str "This data item is not my responsibility"), n)
           | inr true => store n
           end
       end.

Definition put_mutable_item (now : Z) (sender : endpoint) (token : list byte) (v : BencodedValue)
    (arguments : BencodedMap) (n : DhtNode) : fault + answer * DhtNode :=
  match sized_argument PublicKey_size arguments (str "k") with
  | inl e => inr (e, n)
  | inr pk =>
  match sized_argument Signature_size arguments (str "sig") with
  | inl e => inr (e, n)
  | inr sig =>
  match as_int (arg arguments (str "seq")) with
  | None => inr (missing_argument (str "seq"), n)
  | Some seq =>
      let salt_ := as_string (arg arguments (str "salt")) in
      if (64 <? length (default [] salt_))%nat then inr (SendError 207 (str "Argument 'salt' too big"), n)
      else
        let item := {| public_key := pk; salt := default [] salt_; value := v;
                       sequence_number := seq; signature := sig |} in
        let target := mutable_get_id sha1 pk (salt item) in
        if stale_view in_place arguments (str "salt") token then inl StaleToken
        else checked_put now sender target token n (fun n =>
          match verify item with
          | None => inl LengthError
          | Some false => inr (SendError 206 (str "Invalid signature"), n)
          | Some true =>
              match conflict arguments seq v (get_mutable target (_data_store n)) with
              | Some e => inr (e, n)
              | None => inr (Reply [], set_data n (_data_tokens n)
                                         (put_mutable sha1 now item (_data_store n)))
              end
          end)
  end end end.

Definition put_immutable_item (now : Z) (sender : endpoint) (token : list byte) (v : BencodedValue)
    (n : DhtNode) : fault + answer * DhtNode :=
  checked_put now sender (immutable_get_id sha1 v) token n (fun n =>
    inr (Reply [], set_data n (_data_tokens n) (put_immutable sha1 now v (_data_store n)))).

Definition is_string (v : BencodedValue) : bool := bool_decide (is_Some (as_string v)).

Definition handle_put (now : Z) (sender : endpoint) (arguments : BencodedMap) (n : DhtNode)
    : fault + answer * DhtNode :=
  match as_string (arg arguments (str "token")) with
  | None => inr (missing_argument (str "token"), n)
  | Some token =>
      match map_find arguments (str "v") with
      | None => inr (missing_argument (str "v"), n)
      | Some v =>
          if (1000 <=? length (bencoding_encode v))%nat
          then inr (SendError 205 (str "Argument 'v' too big"), n)
          else if is_string (arg arguments (str "k"))
          then put_mutable_item now sender token v arguments n
          else put_immutable_item now sender token v n
      end
  end.

Definition dispatch (now : Z) (rand : nat -> nat) (sender : endpoint) (query_type : list byte)
    (arguments : BencodedMap) (n : DhtNode) : fault + answer * DhtNode :=
  if bool_decide (query_type = str "ping") then inr (Reply [], n)
  else if bool_decide (query_type = str "find_node") then handle_find_node arguments n
  else if bool_decide (query_type = str "get_peers")
  then handle_get_peers now rand sender arguments n
  else if bool_decide (query_type = str "announce_peer")
  then handle_announce_peer now sender arguments n
  else if bool_decide (query_type = str "get") then handle_get now sender arguments n
  else if bool_decide (query_type = str "put") then handle_put now sender arguments n
  else inr (SendError 204 (str "Query type not implemented"), n).

(** BEP 43: a read-only sender is not considered for routing. *)
Definition learn_sender (now : Z) (sender : endpoint) (sender_id : list byte) (arguments : BencodedMap)
    (n : DhtNode) : fault + DhtNode * list NodeContact :=
  match _routing_table n with
  | None => inr (n, [])
  | Some t =>
      if bool_decide (as_int (arg arguments (str "ro")) = Some 1) then inr (n, [])
      else if negb (find_bucket_ok t sender_id) then inl OutsideIdentifier
      else
        let '(t', pings) := try_add_node now {| id := sender_id; contact_endpoint := sender |} false t in
        inr (set_routing_table n (Some t'), pings)
  end.

(** The body behind the checks of ['q'] and ['a']: the answer, the node and the
    contacts to ping. *)
Definition answer_query (now : Z) (rand : nat -> nat) (sender : endpoint) (query_type : list byte)
    (arguments : BencodedMap) (n : DhtNode) : fault + answer * DhtNode * list NodeContact :=
  match id_argument arguments (str "id") with
  | inl e => inr (e, n, [])
  | inr sender_id =>
      match learn_sender now sender sender_id arguments n with
      | inl f => inl f
      | inr (n, pings) =>
          match dispatch now rand sender query_type arguments n with
          | inl f => inl f
          | inr (a, n) => inr (a, n, pings)
          end
      end
  end.

(** A missing ['q'] or ['a'] is inserted before ['t'], and the transaction is a
    view into the map. *)
Definition handle_query (now : Z) (rand : nat -> nat) (sender : endpoint) (query : BencodedMap)
    (n : DhtNode) : outcome * DhtNode * list NodeContact :=
  match as_string (arg query (str "t")) with
  | None => (NoReply, n, [])
  | Some transaction =>
      if negb (has_key query (str "q")) then (Fault StaleView, n, [])
      else
        match as_string (arg query (str "q")) with
        | None => (Datagram (send_error sender transaction 203 (str "Missing field 'q'")), n, [])
        | Some query_type =>
            if negb (has_key query (str "a")) then (Fault StaleView, n, [])
            else
              match as_map (arg query (str "a")) with
              | None => (Datagram (send_error sender transaction 203 (str "Missing field 'a'")), n, [])
              | Some arguments =>
                  match answer_query now rand sender query_type arguments n with
                  | inl f => (Fault f, n, [])
                  | inr (a, n', pings) =>
                      (Datagram (message_of (_node_id n) sender transaction a), n', pings)
                  end
              end
        end
  end.

End Code.

(** Projections of an updated node, and nothing else. *)
Ltac node_simpl :=
  cbn [_node_id is_v4 _routing_table _tracker_tokens _swarms _data_tokens _data_store
       set_routing_table set_tracker set_data] in *.

(** ** What a query can do to a node *)

Section Effects.
Context (sha1 : list byte -> list byte) (addr_to_string : ip_address -> list byte) (in_place : nat).
Context `{SignatureScheme}.
#[local] Abbreviation generate now a i st := (generate_token sha1 addr_to_string now a i st).
#[local] Abbreviation check now a i tok st := (verify_token sha1 addr_to_string now a i tok st).

(** The changes of state, one constructor for each way a handler ends. *)
Inductive effect (now : Z) (sender : endpoint) (arguments : BencodedMap) (n : DhtNode) : DhtNode -> Prop :=
| eff_none : effect now sender arguments n n
| eff_get_peers infohash rand :
    effect now sender arguments n
      (set_tracker n (snd (generate now (address sender) infohash (_tracker_tokens n)))
         (snd (Tracker.list_peers rand infohash NUM_PEERS (_swarms n))))
| eff_announce_refused infohash token :
    effect now sender arguments n
      (set_tracker n (snd (check now (address sender) infohash token (_tracker_tokens n))) (_swarms n))
| eff_announce infohash token p :
    map_find arguments (str "token") = Some (BStr token) \/ token = [] ->
    fst (check now (address sender) infohash token (_tracker_tokens n)) = true ->
    effect now sender arguments n
      (set_tracker n (snd (check now (address sender) infohash token (_tracker_tokens n)))
         (Tracker.add_peer now infohash {| address := address sender; port := p |} (_swarms n)))
| eff_get target :
    effect now sender arguments n
      (set_data n (snd (generate now (address sender) target (_data_tokens n))) (_data_store n))
| eff_put_refused target token :
    effect now sender arguments n
      (set_data n (snd (check now (address sender) target token (_data_tokens n))) (_data_store n))
| eff_put_mutable item token :
    let target := mutable_get_id sha1 (public_key item) (salt item) in
    fst (check now (address sender) target token (_data_tokens n)) = true ->
    (length (bencoding_encode (value item)) < 1000)%nat -> (length (salt item) <= 64)%nat ->
    verify item = Some true ->
    conflict arguments (sequence_number item) (value item) (get_mutable target (_data_store n)) = None ->
    effect now sender arguments n
      (set_data n (snd (check now (address sender) target token (_data_tokens n)))
         (put_mutable sha1 now item (_data_store n)))
| eff_put_immutable v token :
    let target := immutable_get_id sha1 v in
    fst (check now (address sender) target token (_data_tokens n)) = true ->
    (length (bencoding_encode v) < 1000)%nat ->
    is_string (arg arguments (str "k")) = false ->
    effect now sender arguments n
      (set_data n (snd (check now (address sender) target token (_data_tokens n)))
         (put_immutable sha1 now v (_data_store n))).

Hint Constructors effect : ou.

Lemma arg_string m k s : as_string (arg m k) = Some s -> map_find m k = Some (BStr s) \/ s = [].
Proof. unfold arg. destruct (map_find m k) as [[]|]; simpl; intros; simplify_eq; auto. Qed.

Lemma get_peers_effect now rand sender arguments n a n' :
  handle_get_peers sha1 addr_to_string now rand sender arguments n = inr (a, n') ->
  effect now sender arguments n n'.
Proof.
  unfold handle_get_peers. destruct (id_argument _ _) as [|infohash]; [intros; simplify_eq; auto with ou|].
  destruct (closest_contacts n infohash) as [|contacts]; [done|].
  pose proof (eff_get_peers now sender arguments n infohash rand) as E.
  destruct (generate _ _ _ _) as [tok tokens], (Tracker.list_peers _ _ _ _) as [peers swarms].
  simpl in E. intros; by simplify_eq.
Qed.

Lemma announce_effect now sender arguments n a n' :
  handle_announce_peer sha1 addr_to_string in_place now sender arguments n = inr (a, n') ->
  effect now sender arguments n n'.
Proof.
  unfold handle_announce_peer. destruct (id_argument _ _) as [|infohash]; [intros; simplify_eq; auto with ou|].
  destruct (as_string _) as [token|] eqn:Et; [|intros; simplify_eq; auto with ou].
  destruct (as_int _) as [p|]; [|intros; simplify_eq; auto with ou].
  destruct (responsible n infohash) as [|[]]; [done| |intros; simplify_eq; auto with ou].
  destruct (stale_view _ _ _ _); [done|].
  pose proof (eff_announce_refused now sender arguments n infohash token) as E0.
  pose proof (eff_announce now sender arguments n infohash token (effective_port sender arguments p)
    (arg_string _ _ _ Et)) as E1.
  destruct (check _ _ _ _ _) as [[] tokens]; simpl in *; intros; simplify_eq; auto.
Qed.

Lemma get_effect now sender arguments n a n' :
  handle_get sha1 addr_to_string now sender arguments n = inr (a, n') -> effect now sender arguments n n'.
Proof.
  unfold handle_get. destruct (id_argument _ _) as [|target]; [intros; simplify_eq; auto with ou|].
  destruct (_routing_table n) as [t|]; [|done]. destruct (closest_nodes t target BUCKET_SIZE) as [|contacts]; [done|].
  pose proof (eff_get now sender arguments n target) as E.
  destruct (generate _ _ _ _) as [tok tokens]. simpl in E. intros; by simplify_eq.
Qed.

(** A put ends before the token is checked, after it, or in [store]. *)
Lemma checked_put_effect now sender arguments target token n store a n' :
  checked_put sha1 addr_to_string now sender target token n store = inr (a, n') ->
  effect now sender arguments n n' \/
  (fst (check now (address sender) target token (_data_tokens n)) = true /\
   store (set_data n (snd (check now (address sender) target token (_data_tokens n))) (_data_store n))
   = inr (a, n')).
Proof.
  unfold checked_put. pose proof (eff_put_refused now sender arguments n target token) as E.
  destruct (check _ _ _ _ _) as [[] tokens]; simpl in *; [|intros; simplify_eq; auto].
  destruct (_routing_table n) as [t|]; [|done].
  destruct (contains_self _ t target) as [|[]]; [done| |intros; simplify_eq; auto]. auto.
Qed.

Lemma put_effect now sender arguments n a n' :
  handle_put sha1 addr_to_string in_place now sender arguments n = inr (a, n') -> effect now sender arguments n n'.
Proof.
  unfold handle_put. destruct (as_string _) as [token|]; [|intros; simplify_eq; auto with ou].
  destruct (map_find _ _) as [v|]; [|intros; simplify_eq; auto with ou].
  destruct (Nat.leb_spec 1000 (length (bencoding_encode v))) as [|Hv]; [intros; simplify_eq; auto with ou|].
  destruct (is_string _) eqn:Ek.
  - unfold put_mutable_item.
    destruct (sized_argument _ _ (str "k")) as [|pk]; [intros; simplify_eq; auto with ou|].
    destruct (sized_argument _ _ (str "sig")) as [|sig]; [intros; simplify_eq; auto with ou|].
    destruct (as_int (arg arguments (str "seq"))) as [seq|]; [|intros; simplify_eq; auto with ou].
    destruct (Nat.ltb_spec 64 (length (default [] (as_string (arg arguments (str "salt")))))) as [|Hs];
      [intros; simplify_eq; auto with ou|].
    set (item := Build_MutableDataItem _ _ _ _ _). destruct (stale_view _ _ _ _); [done|].
    intros [?|[Hok Hst]]%(checked_put_effect now sender arguments); [done|].
    destruct (verify item) as [[]|] eqn:Ev; [|simplify_eq; apply eff_put_refused|done].
    destruct (conflict _ _ _ _) eqn:Ec; simplify_eq; [apply eff_put_refused|].
    by apply (eff_put_mutable now sender arguments n item token).
  - intros [?|[Hok Hst]]%(checked_put_effect now sender arguments); [done|]. simplify_eq.
    by apply (eff_put_immutable now sender arguments n v token).
Qed.

Lemma dispatch_effect now rand sender query_type arguments n a n' :
  dispatch sha1 addr_to_string in_place now rand sender query_type arguments n = inr (a, n') ->
  effect now sender arguments n n'.
Proof.
  unfold dispatch. repeat case_bool_decide; intros E; simplify_eq;
    eauto using get_peers_effect, announce_effect, get_effect, put_effect with ou.
  unfold handle_find_node in E. destruct (id_argument _ _) as [|i]; [simplify_eq; auto with ou|].
  destruct (closest_contacts n i); simplify_eq; auto with ou.
Qed.

(** A handled query: nothing, or the sender is learnt and a handler acts. *)
Lemma handle_query_effect now rand sender query n o n' pings :
  handle_query sha1 addr_to_string in_place now rand sender query n = (o, n', pings) ->
  n' = n \/
  exists arguments sender_id n1,
    map_find query (str "a") = Some (BMap arguments) /\ valid_id sender_id /\
    map_find arguments (str "id") = Some (BStr sender_id) /\
    learn_sender now sender sender_id arguments n = inr (n1, pings) /\ effect now sender arguments n1 n'.
Proof.
  unfold handle_query.
  destruct (as_string _) as [transaction|]; [|intros; simplify_eq; auto].
  destruct (negb _); [intros; simplify_eq; auto|].
  destruct (as_string (arg query (str "q"))) as [query_type|]; [|intros; simplify_eq; auto].
  destruct (negb _); [intros; simplify_eq; auto|].
  destruct (as_map (arg query (str "a"))) as [arguments|] eqn:Ea; [|intros; simplify_eq; auto].
  unfold answer_query. destruct (id_argument arguments (str "id")) as [|sender_id] eqn:Ei;
    [intros; simplify_eq; auto|].
  destruct (learn_sender _ _ _ _ _) as [|[n1 ps]] eqn:El; [intros; simplify_eq; auto|].
  destruct (dispatch _ _ _ _ _ _ _ _ _) as [|[a n2]] eqn:Ed; [intros; simplify_eq; auto|].
  intros; simplify_eq. right. exists arguments, sender_id, n1.
  apply dispatch_effect in Ed. unfold id_argument, sized_argument in Ei.
  destruct (as_string (arg arguments (str "id"))) as [s|] eqn:Es; [|done].
  destruct (Nat.eqb_spec (length s) id_size) as [Hl|]; [|done]. simplify_eq.
  split_and!; [|done| |done|done].
  - unfold arg in Ea. destruct (map_find query (str "a")) as [[]|]; by simplify_eq/=.
  - apply arg_string in Es as [?| ->]; [done|discriminate].
Qed.

End Effects.

(** ** The life of a node *)

(** What happens to a node: queries of others, rounds of the periodic tasks of
    the tracker and the data store, the end of the bootstrap (its identifier,
    and the contacts of an earlier run, which are added unverified), and the
    outcome of its own queries ([send_query_await_reply]). *)
Inductive event :=
| Query (sender : endpoint) (query : BencodedMap) (rand : nat -> nat)
| TrackerTick
| StoreTick
| Bootstrapped (me : list byte) (old_contacts : list NodeContact)
| QueryReplied (c : NodeContact)
| QueryFailed (c : NodeContact).

Section Runs.
Context (sha1 : list byte -> list byte) (addr_to_string : ip_address -> list byte) (in_place : nat).
Context `{SignatureScheme}.

(** An operation on the table for an identifier, unless it leaves its bits. *)
Definition table_op (i : list byte) (f : RoutingTable -> RoutingTable) (t : RoutingTable) : option RoutingTable :=
  if find_bucket_ok t i then Some (f t) else None.

(** The routing table of a bootstrapped node. *)
Fixpoint add_old_contacts (now : Z) (old_contacts : list NodeContact) (t : RoutingTable) : option RoutingTable :=
  match old_contacts with
  | [] => Some t
  | c :: cs => let? t' := table_op (id c) (fun t => fst (try_add_node now c false t)) t in add_old_contacts now cs t'
  end.

Definition bootstrap_table (now : Z) (me : list byte) (old_contacts : list NodeContact) : option RoutingTable :=
  add_old_contacts now old_contacts (new_table me).

Definition with_table (n : DhtNode) (f : RoutingTable -> option RoutingTable) : option DhtNode :=
  match _routing_table n with
  | None => Some n
  | Some t => let? t' := f t in Some (set_routing_table n (Some t'))
  end.

(** [None]: the node has crashed. *)
Definition node_step (now : Z) (e : event) (n : DhtNode) : option DhtNode :=
  match e with
  | Query sender query rand =>
      match handle_query sha1 addr_to_string in_place now rand sender query n with
      | (Fault _, _, _) => None
      | (_, n', _) => Some n'
      end
  | TrackerTick => let? swarms := Tracker.tick now (_swarms n) in
                   Some (set_tracker n (_tracker_tokens n) swarms)
  | StoreTick => Some (set_data n (_data_tokens n) (DataStore.tick now (_data_store n)))
  | Bootstrapped me old =>
      let? t := bootstrap_table now me old in
      Some {| _node_id := me; is_v4 := is_v4 n; _routing_table := Some t;
              _tracker_tokens := _tracker_tokens n; _swarms := _swarms n;
              _data_tokens := _data_tokens n; _data_store := _data_store n |}
  | QueryReplied c => with_table n (table_op (id c) (fun t => fst (try_add_node now c true t)))
  | QueryFailed c => with_table n (table_op (id c) (fun t => fst (fail_node now c t)))
  end.

(** A node that has just started. *)
Definition new_node (v4 : bool) (salt1 salt2 : list byte) : DhtNode :=
  {| _node_id := NodeID_zero; is_v4 := v4; _routing_table := None;
     _tracker_tokens := Tokens.new_storage salt1; _swarms := ∅;
     _data_tokens := Tokens.new_storage salt2; _data_store := new_store |}.

(** Whether contacts may claim the identifier of the node itself. *)
Variable own : bool.

Definition admissible (n : DhtNode) (e : event) : Prop :=
  let other me c := valid_id (id c) /\ (own = false -> id c <> me) in
  match e with
  | Query sender query _ =>
      own = false -> forall arguments i, map_find query (str "a") = Some (BMap arguments) ->
        map_find arguments (str "id") = Some (BStr i) -> i <> _node_id n
  | Bootstrapped me old => valid_id me /\ Forall (other me) old
  | QueryReplied c | QueryFailed c => other (_node_id n) c
  | TrackerTick | StoreTick => True
  end.

(** A run: events at times that never go back. *)
Inductive node_run (T : Z) (n : DhtNode) : list (Z * event) -> Z -> DhtNode -> Prop :=
| run_done : node_run T n [] T n
| run_next now e es n1 T' n' :
    T <= now -> admissible n e -> node_step now e n = Some n1 ->
    node_run now n1 es T' n' -> node_run T n ((now, e) :: es) T' n'.

(** What a stored item has passed. *)
Definition item_checked (i : MutableStoredItem) : Prop :=
  verify (stored_item i) = Some true /\
  (length (bencoding_encode (value (stored_item i))) < 1000)%nat /\
  (length (salt (stored_item i)) <= 64)%nat.

Record NodeInv (T : Z) (n : DhtNode) : Prop := {
  inv_time : 0 <= T;
  inv_table : forall t, _routing_table n = Some t -> Inv own t /\ RoutingTable._node_id t = _node_id n;
  inv_tracker_tokens : Tokens.token_inv T (_tracker_tokens n);
  inv_swarms : Tracker.tracker_ok (_swarms n);
  inv_data_tokens : Tokens.token_inv T (_data_tokens n);
  inv_store : store_ok sha1 (_data_store n);
  inv_items : map_Forall (fun _ => item_checked) (_mutable_data (_data_store n));
}.

Lemma token_inv_le T T' st : T <= T' -> Tokens.token_inv T st -> Tokens.token_inv T' st.
Proof.
  intros HT [H1 H2 H3]. split; [done..|]. eapply Forall_impl; [exact H3|]. simpl. intros; lia.
Qed.

Lemma NodeInv_le T T' n : T <= T' -> NodeInv T n -> NodeInv T' n.
Proof. intros HT []. split; eauto using token_inv_le. lia. Qed.

Lemma try_add_node_id now c v t : RoutingTable._node_id (fst (try_add_node now c v t)) = RoutingTable._node_id t.
Proof.
  unfold try_add_node. cbv zeta. repeat case_match; simplify_eq/=; try done.
  unfold split_bucket. by repeat case_match.
Qed.

Lemma fail_node_id now c t : RoutingTable._node_id (fst (fail_node now c t)) = RoutingTable._node_id t.
Proof. unfold fail_node. by repeat case_match; simplify_eq/=. Qed.

Lemma generate_inv T now a i st :
  Tokens.token_inv T st -> T <= now -> 0 <= now ->
  Tokens.token_inv now (snd (generate_token sha1 addr_to_string now a i st)).
Proof.
  intros HI HT Hn. pose proof (Tokens.generate_token_secret sha1 addr_to_string T now a i st HI HT Hn) as G.
  unfold generate_token. destruct (Tokens.generate_token _ _ _ _ _ _). apply G.
Qed.

Lemma verify_inv T now a i tok st :
  Tokens.token_inv T st -> T <= now ->
  Tokens.token_inv now (snd (verify_token sha1 addr_to_string now a i tok st)).
Proof. apply Tokens.expire_inv. Qed.

Lemma list_peers_ok rand h k t : Tracker.tracker_ok t -> Tracker.tracker_ok (snd (Tracker.list_peers rand h k t)).
Proof.
  intros Ht. pose proof (Tracker.list_peers_spec rand h k t Ht) as L.
  destruct (Tracker.list_peers _ _ _ _). apply L.
Qed.

Hint Resolve generate_inv verify_inv list_peers_ok : ou.

Lemma effect_inv T now sender arguments n n' :
  NodeInv T n -> T <= now -> effect sha1 addr_to_string now sender arguments n n' -> NodeInv now n'.
Proof.
  intros HI HT E. pose proof (NodeInv_le T now n HT HI) as [].
  destruct HI as [? _ Ht _ Hd _ _].
  destruct E; split; node_simpl; eauto with ou.
  - apply (Tracker.add_peer_spec now infohash _ _ inv_swarms0).
  - by apply (store_step_ok sha1 _ (now, PutMutable item)).
  - apply map_Forall_insert_2; [|done]. by split_and!.
  - by apply (store_step_ok sha1 _ (now, PutImmutable v)).
Qed.

Lemma learn_sender_table now sender i arguments n n1 ps :
  learn_sender now sender i arguments n = inr (n1, ps) ->
  n1 = n \/ exists t, _routing_table n = Some t /\ find_bucket_ok t i = true /\
              n1 = set_routing_table n (Some (fst (try_add_node now {| id := i; contact_endpoint := sender |} false t))).
Proof.
  unfold learn_sender. destruct (_routing_table n) as [t|]; [|intros [= <- <-]; by left].
  case_bool_decide; [intros [= <- <-]; by left|]. destruct (find_bucket_ok t i) eqn:E; cbn [negb]; [|done].
  destruct (try_add_node _ _ _ _) as [t' pings] eqn:Et. intros [= <- <-]. right. exists t. by rewrite Et.
Qed.

Lemma set_table_inv T n t' :
  NodeInv T n ->
  (forall t, t' = Some t -> Inv own t /\ RoutingTable._node_id t = _node_id n) ->
  NodeInv T (set_routing_table n t').
Proof. intros [] Ht. by split. Qed.

(** The table after an operation for a contact. *)
Lemma try_add_ok now c v t me t' :
  Inv own t /\ RoutingTable._node_id t = me -> valid_id (id c) -> (own = false -> id c <> me) ->
  table_op (id c) (fun t => fst (try_add_node now c v t)) t = Some t' ->
  Inv own t' /\ RoutingTable._node_id t' = me.
Proof.
  intros [Ht Et] Hv Hne. unfold table_op. destruct (find_bucket_ok t (id c)) eqn:E; [|done]. intros [= <-].
  split; [|by rewrite try_add_node_id]. apply try_add_node_Inv; [done|]. split_and!; [done|by rewrite Et|done].
Qed.

Lemma fail_ok now c t me t' :
  Inv own t /\ RoutingTable._node_id t = me -> valid_id (id c) -> (own = false -> id c <> me) ->
  table_op (id c) (fun t => fst (fail_node now c t)) t = Some t' ->
  Inv own t' /\ RoutingTable._node_id t' = me.
Proof.
  intros [Ht Et] Hv Hne. unfold table_op. destruct (find_bucket_ok t (id c)) eqn:E; [|done]. intros [= <-].
  split; [|by rewrite fail_node_id]. apply fail_node_Inv; [done|]. split_and!; [done|by rewrite Et|done].
Qed.

Lemma with_table_inv T n f n' :
  NodeInv T n ->
  (forall t t', Inv own t /\ RoutingTable._node_id t = _node_id n -> f t = Some t' ->
     Inv own t' /\ RoutingTable._node_id t' = _node_id n) ->
  with_table n f = Some n' -> NodeInv T n'.
Proof.
  intros HI Hf. unfold with_table. destruct (_routing_table n) as [t|] eqn:E; [|by intros [= <-]].
  destruct (f t) as [t'|] eqn:Ef; [|done]. cbn. intros [= <-]. apply set_table_inv; [done|]. intros t1 [= <-].
  eapply Hf; [by apply (inv_table _ _ HI)|exact Ef].
Qed.

Lemma learn_sender_inv T now sender i arguments n n1 ps :
  NodeInv T n -> valid_id i -> (own = false -> i <> _node_id n) ->
  learn_sender now sender i arguments n = inr (n1, ps) -> NodeInv T n1.
Proof.
  intros HI Hv Hne [->|(t & Et & Hok & ->)]%learn_sender_table; [done|]. apply set_table_inv; [done|]. intros t1 [= <-].
  eapply (try_add_ok now {| id := i; contact_endpoint := sender |} false t); [by apply (inv_table _ _ HI)|done|done|].
  unfold table_op. cbn [id]. by rewrite Hok.
Qed.

Lemma handle_query_inv T now rand sender query n :
  NodeInv T n -> T <= now -> admissible n (Query sender query rand) ->
  NodeInv now (snd (fst (handle_query sha1 addr_to_string in_place now rand sender query n))).
Proof.
  intros HI HT Ha. destruct (handle_query _ _ _ _ _ _ _ _) as [[o n'] pings] eqn:E. simpl.
  apply handle_query_effect in E as [->|(arguments & i & n1 & Eq & Hv & Ei & El & Ef)]; [by eapply NodeInv_le|].
  eapply effect_inv; [|exact HT|exact Ef]. eapply learn_sender_inv; [done|done| |exact El]. intros Ho. by eapply Ha.
Qed.

Lemma bootstrap_table_Inv now me old t :
  valid_id me -> Forall (fun c => valid_id (id c) /\ (own = false -> id c <> me)) old ->
  bootstrap_table now me old = Some t -> Inv own t /\ RoutingTable._node_id t = me.
Proof.
  intros Hme Hold. unfold bootstrap_table.
  assert (Inv own (new_table me) /\ RoutingTable._node_id (new_table me) = me) as Hb by (split; [by apply Inv_new|done]).
  revert Hb. generalize (new_table me). induction Hold as [|c old [Hv Hne] _ IH]; intros t0 Ht0; cbn [add_old_contacts].
  { by intros [= <-]. }
  destruct (table_op _ _ t0) as [t1|] eqn:E; [|done]. apply IH. by eapply try_add_ok.
Qed.

Lemma node_step_inv T now e n n' :
  NodeInv T n -> T <= now -> admissible n e -> node_step now e n = Some n' -> NodeInv now n'.
Proof.
  intros HI HT Ha E. destruct e as [sender query rand| | |me old|c|c]; cbn [node_step] in E.
  - pose proof (handle_query_inv T now rand sender query n HI HT Ha) as Hi.
    destruct (handle_query _ _ _ _ _ _ _ _) as [[[] n1] pings]; by simplify_eq/=.
  - destruct (Tracker.tick_spec now (_swarms n) (inv_swarms _ _ HI)) as (sw & Es & Hs & _).
    rewrite Es in E. simplify_eq. pose proof (NodeInv_le T now n HT HI) as []. by split.
  - simplify_eq. pose proof (NodeInv_le T now n HT HI) as []. split; node_simpl; try done.
    + by apply (store_step_ok sha1 _ (now, TickStore)).
    + intros k i [Ei _]%map_lookup_filter_Some. by eapply inv_items0.
  - destruct (bootstrap_table now me old) as [t|] eqn:Eb; [|done]. cbn in E. simplify_eq.
    pose proof (NodeInv_le T now n HT HI) as []. split; node_simpl; try done.
    intros t1 [= <-]. destruct Ha. by eapply bootstrap_table_Inv.
  - destruct Ha. eapply with_table_inv; [by eapply NodeInv_le| |exact E]. intros t t' Ht. by apply try_add_ok.
  - destruct Ha. eapply with_table_inv; [by eapply NodeInv_le| |exact E]. intros t t' Ht. by apply fail_ok.
Qed.

Lemma node_run_inv T n es T' n' : NodeInv T n -> node_run T n es T' n' -> NodeInv T' n' /\ T <= T'.
Proof.
  intros HI R. revert HI. induction R as [|T n now e es n1 T' n' HT Ha E R IH]; intros HI; [done|].
  destruct IH as [H1 H2]; [by eapply node_step_inv|]. split; [done|lia].
Qed.

Lemma new_node_inv v4 salt1 salt2 : NodeInv 0 (new_node v4 salt1 salt2).
Proof.
  split; node_simpl; try done; try (split; constructor).
Qed.

(** *** Secrets outlive the events before they expire *)

Lemma effect_keeps_secret now sender arguments n n' s :
  effect sha1 addr_to_string now sender arguments n n' -> now <= Tokens.expires s ->
  (s ∈ Tokens._secrets (_tracker_tokens n) -> s ∈ Tokens._secrets (_tracker_tokens n')) /\
  (s ∈ Tokens._secrets (_data_tokens n) -> s ∈ Tokens._secrets (_data_tokens n')).
Proof.
  intros E He.
  assert (forall a i st, s ∈ Tokens._secrets st ->
            s ∈ Tokens._secrets (snd (generate_token sha1 addr_to_string now a i st))) as Hg.
  { intros a i st Hs. by apply (Tokens.apply_op_keeps sha1 addr_to_string s (Tokens.Generate now a i)). }
  assert (forall a i tok st, s ∈ Tokens._secrets st ->
            s ∈ Tokens._secrets (snd (verify_token sha1 addr_to_string now a i tok st))) as Hv.
  { intros a i tok st Hs. by apply (Tokens.apply_op_keeps sha1 addr_to_string s (Tokens.Verify now a i tok)). }
  destruct E; split; node_simpl; auto.
Qed.

Lemma learn_sender_rest now sender i arguments n n1 ps :
  learn_sender now sender i arguments n = inr (n1, ps) ->
  _node_id n1 = _node_id n /\ is_v4 n1 = is_v4 n /\ _tracker_tokens n1 = _tracker_tokens n /\
  _swarms n1 = _swarms n /\ _data_tokens n1 = _data_tokens n /\ _data_store n1 = _data_store n.
Proof. by intros [->|(t & _ & _ & ->)]%learn_sender_table. Qed.

Lemma with_table_rest n f n' :
  with_table n f = Some n' ->
  _tracker_tokens n' = _tracker_tokens n /\ _data_store n' = _data_store n.
Proof.
  unfold with_table. destruct (_routing_table n) as [t|]; [|by intros [= <-]]. destruct (f t); [|done]. by intros [= <-].
Qed.

Lemma node_step_keeps_secret now e n n' s :
  node_step now e n = Some n' -> now <= Tokens.expires s ->
  s ∈ Tokens._secrets (_tracker_tokens n) -> s ∈ Tokens._secrets (_tracker_tokens n').
Proof.
  intros E He Hs. destruct e as [sender query rand| | |me old|c|c]; cbn [node_step] in E; simplify_eq; try done.
  - destruct (handle_query _ _ _ _ _ _ _ _) as [[o n1] pings] eqn:Eq.
    assert (n1 = n') as -> by (destruct o; by simplify_eq).
    apply handle_query_effect in Eq as [->|(arguments & i & n1 & _ & _ & _ & El & Ef)]; [done|].
    destruct (learn_sender_rest _ _ _ _ _ _ _ El) as (_ & _ & Et & _).
    eapply effect_keeps_secret; [done..|]. by rewrite Et.
  - destruct (Tracker.tick _ _); by simplify_eq.
  - destruct (bootstrap_table now me old); by simplify_eq/=.
  - by destruct (with_table_rest _ _ _ E) as [-> _].
  - by destruct (with_table_rest _ _ _ E) as [-> _].
Qed.

Lemma node_run_keeps_secret T n es T' n' s :
  node_run T n es T' n' -> T' <= Tokens.expires s -> NodeInv T n ->
  s ∈ Tokens._secrets (_tracker_tokens n) -> s ∈ Tokens._secrets (_tracker_tokens n').
Proof.
  intros R. induction R as [|T n now e es n1 T' n' HT Ha E R IH]; intros He HI Hs; [done|].
  pose proof (node_step_inv _ _ _ _ _ HI HT Ha E) as HI1.
  pose proof (node_run_inv _ _ _ _ _ HI1 R) as [_ Hle].
  apply IH; [done..|]. eapply node_step_keeps_secret; [done| |done]. lia.
Qed.

End Runs.

(** ** Properties *)

(** The form of a query: its transaction, type and arguments. *)
Definition query_message (transaction query_type : list byte) (arguments : BencodedMap) : BencodedMap :=
  [ (str "a", BMap arguments); (str "q", BStr query_type); (str "t", BStr transaction);
    (str "y", BStr (str "q")) ].

Section Properties.
Context (sha1 : list byte -> list byte) (addr_to_string : ip_address -> list byte) (in_place : nat).
Context `{SignatureScheme}.

Lemma handle_query_message now rand sender t q arguments n :
  handle_query sha1 addr_to_string in_place now rand sender (query_message t q arguments) n =
  match answer_query sha1 addr_to_string in_place now rand sender q arguments n with
  | inl f => (Fault f, n, [])
  | inr (a, n', pings) => (Datagram (message_of (_node_id n) sender t a), n', pings)
  end.
Proof. reflexivity. Qed.

(** C23: whatever is sent to a node, at any time and by anyone, keeps its parts
    consistent, as long as it has not run into undefined behaviour (a fault of
    [handle_query], or a bit behind an identifier): the routing table satisfies its
    invariant for the node's identifier, the token secrets are ordered and bounded in
    time, the swarms have consistent indices, items are stored under the digest they
    belong to, and every stored mutable item has a valid signature, less than 1000 bytes
    and a salt of at most 64. Contacts may claim the node's own identifier ([own]); if
    none ever does, the table has at most 160 buckets, and does not know that identifier. *)
Theorem node_invariant (own v4 : bool) (salt1 salt2 : list byte) (es : list (Z * event)) T n :
  node_run sha1 addr_to_string in_place own 0 (new_node v4 salt1 salt2) es T n -> NodeInv sha1 own T n.
Proof. intros R. eapply node_run_inv; [apply new_node_inv|exact R]. Qed.

Definition well_formed_reply (me : list byte) (sender : endpoint) (t : list byte) (m : BencodedMap) : Prop :=
  map_find m (str "t") = Some (BStr t) /\
  map_find m (str "ip") = Some (BStr (encode_endpoint sender)) /\
  ((map_find m (str "y") = Some (BStr (str "r")) /\
    exists r, map_find m (str "r") = Some (BMap r) /\ map_find r (str "id") = Some (BStr me)) \/
   (map_find m (str "y") = Some (BStr (str "e")) /\
    exists code description, map_find m (str "e") = Some (BList [BInt code; BStr description]))).

Lemma message_well_formed me sender t a : well_formed_reply me sender t (message_of me sender t a).
Proof.
  destruct a as [r|code description]; (split; [done|split; [done|]]); [left|right]; (split; [done|]).
  - eexists. split; [done|]. rewrite map_find_assign. by rewrite bool_decide_true.
  - by do 2 eexists.
Qed.

Lemma verify_never_throws item :
  (length (bencoding_encode (value item)) < 1000)%nat -> verify item <> None.
Proof.
  intros Hl. unfold verify, mutable_data_signature_buffer.
  destruct (Nat.ltb_spec 1000 (length (bencoding_encode (value item)))); [lia|done].
Qed.

(** What is behind a fault of a handler. *)
Definition fault_reason (q : list byte) (arguments : BencodedMap) (n : DhtNode) (f : fault) : Prop :=
  match f with
  | NullRoutingTable => _routing_table n = None /\ (q = str "get" \/ q = str "put")
  | OutsideIdentifier => exists t i, _routing_table n = Some t /\ valid_id i /\ find_bucket_ok t i = false
  | StaleToken => exists token, as_string (arg arguments (str "token")) = Some token /\ (length token <= in_place)%nat /\
      ((q = str "announce_peer" /\ map_find arguments (str "implied_port") = None) \/
       (q = str "put" /\ map_find arguments (str "salt") = None))
  | StaleView | LengthError => False
  end.

Lemma id_argument_valid arguments name i : id_argument arguments name = inr i -> valid_id i.
Proof.
  unfold id_argument, sized_argument. destruct (as_string _) as [s|]; [|done].
  destruct (Nat.eqb_spec (length s) id_size); [|done]. by intros [= <-].
Qed.

Lemma closest_fault q arguments n t i count f :
  _routing_table n = Some t -> valid_id i -> closest_nodes t i count = inl f -> fault_reason q arguments n f.
Proof.
  intros Ht Hi. unfold closest_nodes. destruct (find_bucket_ok t i) eqn:E; [done|]. intros [= <-]. by exists t, i.
Qed.

Lemma stale_fault arguments name token :
  stale_view in_place arguments name token = true -> (length token <= in_place)%nat /\ map_find arguments name = None.
Proof.
  unfold stale_view, has_key. rewrite andb_true_iff, negb_true_iff, bool_decide_eq_false, Nat.leb_le.
  intros [Hn Hl]. split; [done|]. by apply eq_None_not_Some.
Qed.

Section Faults.
Hypothesis sha1_size : forall x, length (sha1 x) = id_size.

Lemma checked_put_fault now sender target token arguments n store f :
  valid_id target ->
  checked_put sha1 addr_to_string now sender target token n store = inl f ->
  fault_reason (str "put") arguments n f \/ exists n1, store n1 = inl f.
Proof.
  intros Hv. unfold checked_put. destruct (verify_token _ _ _ _ _ _ _) as [[] tokens]; simpl; [|done].
  destruct (_routing_table n) as [t|] eqn:Et; [|intros; simplify_eq; left; by split; [|right]].
  unfold contains_self. destruct (closest_nodes t target _) as [f1|cs] eqn:Ec.
  - intros [= <-]. left. by eapply closest_fault.
  - destruct (existsb _ cs); [|done]. eauto.
Qed.

Lemma put_fault now sender arguments n f :
  handle_put sha1 addr_to_string in_place now sender arguments n = inl f -> fault_reason (str "put") arguments n f.
Proof.
  unfold handle_put. destruct (as_string _) as [token|] eqn:Etok; [|done]. destruct (map_find _ _) as [v|]; [|done].
  destruct (Nat.leb_spec 1000 (length (bencoding_encode v))); [done|].
  destruct (is_string _).
  - unfold put_mutable_item. destruct (sized_argument _ _ (str "k")) as [|pk]; [done|].
    destruct (sized_argument _ _ (str "sig")) as [|sig]; [done|]. destruct (as_int _); [|done].
    destruct (64 <? _)%nat; [done|]. destruct (stale_view _ _ _ _) eqn:Est.
    { intros [= <-]. apply stale_fault in Est as [? ?]. exists token. split_and!; [done|done|]. by right. }
    intros [?|[n1 E]]%(checked_put_fault _ _ _ _ arguments); [done| |apply sha1_size].
    destruct (verify _) as [[]|] eqn:Ev; [|done|]; [by destruct (conflict _ _ _ _)|].
    by apply verify_never_throws in Ev.
  - intros [?|[n1 E]]%(checked_put_fault _ _ _ _ arguments); [done|done|apply sha1_size].
Qed.

Lemma dispatch_fault now rand sender q arguments n f :
  dispatch sha1 addr_to_string in_place now rand sender q arguments n = inl f -> fault_reason q arguments n f.
Proof.
  unfold dispatch. repeat case_bool_decide; try done.
  - unfold handle_find_node. destruct (id_argument _ _) as [|i] eqn:Ei; [done|]. unfold closest_contacts.
    destruct (_routing_table n) as [t|] eqn:Et; [|done]. destruct (closest_nodes t i _) eqn:Ec; [|done].
    intros [= <-]. eapply closest_fault; [done|by eapply id_argument_valid|done].
  - unfold handle_get_peers. destruct (id_argument _ _) as [|i] eqn:Ei; [done|]. unfold closest_contacts.
    destruct (_routing_table n) as [t|] eqn:Et.
    2: { destruct (generate_token _ _ _ _ _ _). by destruct (Tracker.list_peers _ _ _ _). }
    destruct (closest_nodes t i _) eqn:Ec.
    { intros [= <-]. eapply closest_fault; [done|by eapply id_argument_valid|done]. }
    destruct (generate_token _ _ _ _ _ _). by destruct (Tracker.list_peers _ _ _ _).
  - unfold handle_announce_peer. destruct (id_argument _ _) as [|i] eqn:Ei; [done|].
    destruct (as_string _) as [token|] eqn:Etok; [|done]. destruct (as_int _) as [p|]; [|done].
    assert (forall f, responsible n i = inl f -> fault_reason q arguments n f) as Hr.
    { intros f'. unfold responsible, contains_self. destruct (_routing_table n) as [t|] eqn:Et; [|done].
      destruct (closest_nodes t i _) eqn:Ec; [|done]. intros [= <-]. eapply closest_fault; [done|by eapply id_argument_valid|done]. }
    destruct (responsible n i) as [f'|[]]; [intros [= <-]; by apply Hr| |done].
    destruct (stale_view _ _ _ _) eqn:Est; [|destruct (verify_token _ _ _ _ _ _ _) as [[] tokens]; done].
    intros [= <-]. apply stale_fault in Est as [? ?]. exists token. split_and!; [done|done|]. by left.
  - unfold handle_get. destruct (id_argument _ _) as [|i] eqn:Ei; [done|].
    destruct (_routing_table n) as [t|] eqn:Et; [|intros [= <-]; by split; [|left]].
    destruct (closest_nodes t i _) eqn:Ec; [|by destruct (generate_token _ _ _ _ _ _)].
    intros [= <-]. eapply closest_fault; [done|by eapply id_argument_valid|done].
  - subst q. apply put_fault.
Qed.

(** An unverified contact changes no number of buckets. *)
Lemma unverified_length now c t : length (_buckets (fst (try_add_node now c false t))) = length (_buckets t).
Proof. unfold try_add_node. cbv zeta. repeat case_match; simplify_eq/=; by rewrite ?length_insert. Qed.

Lemma outside_buckets own T now sender i arguments n n1 ps t j :
  NodeInv sha1 own T n -> valid_id i -> (own = false -> i <> _node_id n) ->
  learn_sender now sender i arguments n = inr (n1, ps) -> _routing_table n1 = Some t -> valid_id j -> find_bucket_ok t j = false ->
  exists t0, _routing_table n = Some t0 /\ length (_buckets t0) = S bit_size.
Proof.
  intros HI Hi Hne El Et Hj Hf. pose proof (learn_sender_inv sha1 own T now sender i arguments n n1 ps HI Hi Hne El) as HI1.
  destruct (inv_table _ _ _ _ HI1 t Et) as [Ht _].
  assert (length (_buckets t) = S bit_size) as Hlen.
  { pose proof (inv_length_S own t Ht) as Hl. apply not_true_iff_false in Hf.
    rewrite find_bucket_ok_spec in Hf; [lia|apply Ht|done|lia]. }
  apply learn_sender_table in El as [->|(t0 & E0 & _ & ->)]; [by exists t|]. exists t0. split; [done|].
  injection Et as <-. by rewrite unverified_length in Hlen.
Qed.


End Faults.

(** *** Announcements *)

(** C27: nobody can announce another address: if a query makes a node list an
    endpoint in a swarm, or renews it, then the endpoint has the address of the
    sender, and the query carries a token that is the digest of that address,
    the swarm and a secret of the node that has not expired. *)
Theorem announced_by_owner own T now rand sender query n o n' pings swarm ep u :
  NodeInv sha1 own T n ->
  handle_query sha1 addr_to_string in_place now rand sender query n = (o, n', pings) ->
  Tracker.abs_tracker (_swarms n') !! (swarm, ep) = Some u ->
  Tracker.abs_tracker (_swarms n) !! (swarm, ep) = Some u \/
  (u = now /\ address ep = address sender /\
   exists arguments token s,
     map_find query (str "a") = Some (BMap arguments) /\
     (map_find arguments (str "token") = Some (BStr token) \/ token = []) /\
     s ∈ Tokens._secrets (_tracker_tokens n) /\ now <= Tokens.expires s /\
     token = sha1 (Tokens.secret s ++ addr_to_string (address sender) ++ swarm)).
Proof.
  intros HI E Hu. apply handle_query_effect in E as [->|(arguments & i & n1 & Ea & _ & _ & El & Ef)]; [auto|].
  destruct (learn_sender_rest _ _ _ _ _ _ _ El) as (_ & _ & Et & Es & _).
  pose proof (inv_swarms _ _ _ _ HI) as Hsw. pose proof (inv_tracker_tokens _ _ _ _ HI) as Htk.
  rewrite <-Et in Htk. rewrite <-Es in Hsw |- *. rewrite <-Et. clear Et Es El. destruct Ef; node_simpl; auto.
  - pose proof (Tracker.list_peers_spec rand0 infohash NUM_PEERS (_swarms n1) Hsw) as L.
    destruct (Tracker.list_peers _ _ _ _) as [peers sw]. destruct L as (_ & L & _). simpl in Hu.
    rewrite L in Hu. auto.
  - destruct (Tracker.add_peer_spec now infohash {| address := address sender; port := p |} (_swarms n1) Hsw)
      as [_ L]. rewrite L in Hu. apply lookup_insert_Some in Hu as [[[= <- <-] <-]|[_ Hu]]; [|auto].
    right. split_and!; [done|done|]. exists arguments, token.
    apply existsb_exists in H1 as (s & Hs & Ht%bool_decide_eq_true). apply list_elem_of_In in Hs.
    pose proof (Tokens.expire_alive T now _ Htk) as Ha. rewrite Forall_forall in Ha.
    exists s. split_and!; [done|done| |by apply Ha|done].
    destruct (Tokens.pop_expired_suffix now (Tokens._secrets (_tracker_tokens n1))) as (q & -> & _).
    apply elem_of_app. by right.
Qed.

Lemma to_signed_port p : 0 <= p < 2 ^ 16 -> to_signed W4 p mod 2 ^ 16 = p.
Proof.
  intros Hp. unfold to_signed. change (2 ^ bits W4) with 4294967296.
  change (2 ^ (bits W4 - 1)) with 2147483648. change (2 ^ 16) with 65536 in *.
  rewrite (Z.mod_small p 4294967296) by lia. destruct (Z.ltb_spec p 2147483648); [|lia].
  apply Z.mod_small. lia.
Qed.

Lemma id_argument_at arguments name i :
  map_find arguments name = Some (BStr i) -> valid_id i -> id_argument arguments name = inr i.
Proof. intros E Hi. unfold id_argument, sized_argument, arg. rewrite E. simpl. by rewrite Hi. Qed.

(** The arguments of [get_peers] and [announce_peer] without [implied_port]. *)
Definition get_peers_arguments (i infohash : list byte) : BencodedMap :=
  [(str "id", BStr i); (str "info_hash", BStr infohash)].
Definition announce_arguments (i infohash : list byte) (p : Z) (token : list byte) : BencodedMap :=
  [(str "id", BStr i); (str "info_hash", BStr infohash); (str "port", BInt p); (str "token", BStr token)].

(** The table has not more buckets than an identifier has bits. *)
Definition fits (n : DhtNode) : Prop := forall t, _routing_table n = Some t -> (length (_buckets t) <= bit_size)%nat.

Lemma fits_ok own T n t i : NodeInv sha1 own T n -> fits n -> _routing_table n = Some t -> valid_id i -> find_bucket_ok t i = true.
Proof.
  intros HI Hf Et Hi. destruct (inv_table _ _ _ _ HI t Et) as [Ht _]. specialize (Hf t Et).
  apply find_bucket_ok_spec; [apply Ht|done|lia|by left].
Qed.

Lemma learn_sender_fits own T now sender i arguments n :
  NodeInv sha1 own T n -> fits n -> valid_id i -> (own = false -> i <> _node_id n) ->
  exists n1 ps, learn_sender now sender i arguments n = inr (n1, ps) /\ NodeInv sha1 own T n1 /\ fits n1.
Proof.
  intros HI Hf Hi Hne.
  assert (exists n1 ps, learn_sender now sender i arguments n = inr (n1, ps)) as (n1 & ps & El).
  { unfold learn_sender. destruct (_routing_table n) as [t|] eqn:Et; [|by do 2 eexists]. case_bool_decide; [by do 2 eexists|].
    rewrite (fits_ok own T n t i) by done. cbn [negb]. destruct (try_add_node _ _ _ _). by do 2 eexists. }
  exists n1, ps. split_and!; [done|by eapply learn_sender_inv|].
  apply learn_sender_table in El as [->|(t & Et & _ & ->)]; [done|]. intros t1 [= <-]. rewrite unverified_length. by apply Hf.
Qed.

Lemma get_peers_token own T now rand sender i infohash t n :
  NodeInv sha1 own T n -> fits n -> (own = false -> i <> _node_id n) -> T <= now -> valid_id i -> valid_id infohash ->
  exists r n1 pings s,
    handle_query sha1 addr_to_string in_place now rand sender
      (query_message t (str "get_peers") (get_peers_arguments i infohash)) n
    = (Datagram (send_reply (_node_id n) sender t r), n1, pings) /\
    map_find r (str "token") =
      Some (BStr (Tokens.token_of sha1 addr_to_string s (address sender) infohash)) /\
    s ∈ Tokens._secrets (_tracker_tokens n1) /\ now + seconds 600 <= Tokens.expires s.
Proof.
  intros HI Hf Hne HT Hi Hh. rewrite handle_query_message. unfold answer_query.
  rewrite (id_argument_at _ (str "id") i) by done.
  destruct (learn_sender_fits own T now sender i (get_peers_arguments i infohash) n HI Hf Hi Hne) as (n0 & ps & El & HI0 & Hf0).
  pose proof (learn_sender_rest _ _ _ _ _ _ _ El) as (_ & _ & Et & _). rewrite El.
  change (dispatch _ _ _ _ _ _ _ _ _)
    with (handle_get_peers sha1 addr_to_string now rand sender (get_peers_arguments i infohash) n0).
  unfold handle_get_peers. rewrite (id_argument_at _ (str "info_hash") infohash) by done.
  assert (exists cs, closest_contacts n0 infohash = inr cs) as [cs ->].
  { unfold closest_contacts, closest_nodes. destruct (_routing_table n0) as [tb|] eqn:Etb; [|by eexists].
    rewrite (fits_ok own T n0 tb infohash) by done. by eexists. }
  pose proof (Tokens.generate_token_secret sha1 addr_to_string T now (address sender) infohash
    (_tracker_tokens n0)) as G.
  unfold generate_token. destruct (Tokens.generate_token _ _ _ _ _ _) as [tok tokens].
  destruct (Tracker.list_peers _ _ _ _) as [peers sw].
  destruct G as (_ & s & Hs & -> & He); [rewrite Et; apply HI|done|pose proof (inv_time _ _ _ _ HI); lia|].
  do 3 eexists. exists s. split; [done|]. split; [|split; [done|lia]].
  destruct peers; rewrite ?map_find_assign; done.
Qed.

Lemma announce_reply later rand sender i infohash p token t n s :
  Tracker.tracker_ok (_swarms n) -> valid_id i -> valid_id infohash -> 0 <= p < 2 ^ 16 ->
  s ∈ Tokens._secrets (_tracker_tokens n) -> later <= Tokens.expires s ->
  token = Tokens.token_of sha1 addr_to_string s (address sender) infohash -> (in_place < length token)%nat ->
  let args := announce_arguments i infohash p token in
  (exists n1 ps, learn_sender later sender i args n = inr (n1, ps) /\ responsible n1 infohash = inr true) ->
  exists n' pings,
    handle_query sha1 addr_to_string in_place later rand sender (query_message t (str "announce_peer") args) n
    = (Datagram (send_reply (_node_id n) sender t []), n', pings) /\
    Tracker.abs_tracker (_swarms n') !! (infohash, {| address := address sender; port := p |}) = Some later.
Proof.
  intros Hsw Hi Hh Hp Hs He Htok Hlong args (n1 & ps & El & Hresp).
  rewrite handle_query_message. unfold answer_query. rewrite (id_argument_at _ (str "id") i) by done.
  destruct (learn_sender_rest _ _ _ _ _ _ _ El) as (Eid & _ & Et & Es & _). rewrite El.
  change (dispatch _ _ _ _ _ _ _ _ _)
    with (handle_announce_peer sha1 addr_to_string in_place later sender args n1).
  unfold handle_announce_peer. rewrite (id_argument_at _ (str "info_hash") infohash) by done.
  change (as_string (arg args (str "token"))) with (Some token).
  change (as_int (arg args (str "port"))) with (Some p). cbn iota beta. rewrite Hresp.
  replace (stale_view _ _ _ _) with false.
  2: { symmetry. unfold stale_view. apply andb_false_iff. right. apply Nat.leb_gt. done. }
  change (effective_port sender args p) with (to_signed W4 p mod 2 ^ 16). rewrite to_signed_port by done.
  assert (fst (verify_token sha1 addr_to_string later (address sender) infohash token (_tracker_tokens n1)) = true)
    as Hv.
  { rewrite Et, Htok. apply existsb_exists. exists s. split; [|by apply bool_decide_eq_true].
    by apply list_elem_of_In, Tokens.pop_expired_keeps. }
  destruct (verify_token _ _ _ _ _ _ _) as [ok tokens]. simpl in Hv. subst ok. cbn [negb].
  do 2 eexists. split; [done|]. node_simpl. rewrite <-Es in Hsw.
  destruct (Tracker.add_peer_spec later infohash {| address := address sender; port := p |} _ Hsw) as [_ ->].
  apply lookup_insert_eq.
Qed.

(** a peer that asks for the peers of a swarm and announces itself with the
    token it was given, up to ten minutes later, is accepted, whatever the node
    was asked in between, if the node is responsible for the swarm: the answer is
    a reply and the peer is listed with its address and the port it named. *)
Theorem announce_accepted own T now rand1 rand2 sender i infohash p t1 t2 n :
  (forall x, in_place < length (sha1 x))%nat -> NodeInv sha1 own T n -> fits n -> T <= now -> valid_id i -> valid_id infohash -> i <> _node_id n -> 0 <= p < 2 ^ 16 ->
  exists r token n1 pings,
    handle_query sha1 addr_to_string in_place now rand1 sender
      (query_message t1 (str "get_peers") (get_peers_arguments i infohash)) n
    = (Datagram (send_reply (_node_id n) sender t1 r), n1, pings) /\
    map_find r (str "token") = Some (BStr token) /\
    forall es T2 n2 later,
      node_run sha1 addr_to_string in_place own now n1 es T2 n2 -> T2 <= later <= now + seconds 600 -> i <> _node_id n2 ->
      let args := announce_arguments i infohash p token in
      (exists n3 ps, learn_sender later sender i args n2 = inr (n3, ps) /\ responsible n3 infohash = inr true) ->
      exists n3 pings',
        handle_query sha1 addr_to_string in_place later rand2 sender (query_message t2 (str "announce_peer") args) n2
        = (Datagram (send_reply (_node_id n2) sender t2 []), n3, pings') /\
        Tracker.abs_tracker (_swarms n3) !! (infohash, {| address := address sender; port := p |}) = Some later.
Proof.
  intros Hlong HI Hf HT Hi Hh Hne Hp.
  destruct (get_peers_token own T now rand1 sender i infohash t1 n HI Hf ltac:(done) HT Hi Hh) as (r & n1 & ps & s & E1 & Er & Hs & He).
  do 4 eexists. split; [exact E1|]. split; [exact Er|]. intros es T2 n2 later R Hl Hne2 args Hresp.
  assert (NodeInv sha1 own now n1) as HI1.
  { pose proof (handle_query_inv sha1 addr_to_string in_place own T now rand1 sender
      (query_message t1 (str "get_peers") (get_peers_arguments i infohash)) n HI HT) as Hinv.
    rewrite E1 in Hinv. apply Hinv. intros _ arguments j Ea Ej.
    change (Some (BMap (get_peers_arguments i infohash)) = Some (BMap arguments)) in Ea. injection Ea as <-.
    change (Some (BStr i) = Some (BStr j)) in Ej. by injection Ej as <-. }
  destruct (node_run_inv _ _ _ _ _ _ _ _ _ HI1 R) as [HI2 _].
  eapply (announce_reply later rand2 sender i infohash p _ t2 n2 s); eauto; [apply HI2| |lia].
  eapply node_run_keeps_secret; [exact R|lia|done..].
Qed.

(** *** Stored items *)

(** An item may replace another of its target. *)
Definition supersedes (old new : MutableDataItem) : Prop :=
  sequence_number old < sequence_number new \/
  (sequence_number old = sequence_number new /\
   bencoding_encode (value old) = bencoding_encode (value new)).

Lemma supersedes_refl i : supersedes i i.
Proof. by right. Qed.

Lemma supersedes_trans i j k : supersedes i j -> supersedes j k -> supersedes i k.
Proof. unfold supersedes. intros [?|[? ?]] [?|[? ?]]; [left; lia..|right; split; [lia|congruence]]. Qed.

Lemma conflict_none arguments item old :
  conflict arguments (sequence_number item) (value item) (Some old) = None -> supersedes old item.
Proof.
  unfold conflict, supersedes. destruct (Z.ltb_spec (sequence_number item) (sequence_number old)); [done|].
  destruct (Z.eqb_spec (sequence_number item) (sequence_number old)); [|left; lia].
  case_bool_decide; [|done]. right. by split.
Qed.

Lemma effect_supersedes now sender arguments n n' target old :
  effect sha1 addr_to_string now sender arguments n n' ->
  get_mutable target (_data_store n) = Some old ->
  exists new, get_mutable target (_data_store n') = Some new /\ supersedes old new.
Proof.
  intros E Ho. destruct E; node_simpl; eauto using supersedes_refl.
  destruct (decide (target0 = target)) as [<-|Hne].
  - exists item. split; [by unfold get_mutable; simpl; rewrite lookup_insert_eq|].
    eapply conflict_none. by rewrite <-Ho.
  - exists old. split; [|apply supersedes_refl]. unfold get_mutable. simpl. by rewrite lookup_insert_ne.
Qed.

Lemma node_step_supersedes now e n n' target old :
  node_step sha1 addr_to_string in_place now e n = Some n' -> e <> StoreTick ->
  get_mutable target (_data_store n) = Some old ->
  exists new, get_mutable target (_data_store n') = Some new /\ supersedes old new.
Proof.
  intros E He Ho. destruct e as [sender query rand| | |me old'|c|c]; cbn [node_step] in E; simplify_eq;
    try (exists old; split; [exact Ho|apply supersedes_refl]).
  - destruct (handle_query _ _ _ _ _ _ _ _) as [[o n1] pings] eqn:Eq.
    assert (n1 = n') as -> by (destruct o; by simplify_eq).
    apply handle_query_effect in Eq as [->|(arguments & i & n1 & _ & _ & _ & El & Ef)]; [eauto using supersedes_refl|].
    destruct (learn_sender_rest _ _ _ _ _ _ _ El) as (_ & _ & _ & _ & _ & Ed).
    eapply effect_supersedes; [exact Ef|by rewrite Ed].
  - destruct (Tracker.tick _ _); simplify_eq. eauto using supersedes_refl.
  - destruct (bootstrap_table now me old'); simplify_eq/=. eauto using supersedes_refl.
  - destruct (with_table_rest _ _ _ E) as [_ ->]. eauto using supersedes_refl.
  - destruct (with_table_rest _ _ _ E) as [_ ->]. eauto using supersedes_refl.
Qed.

(** until a round of the periodic task removes it, a mutable item is only
    ever replaced by one of a larger sequence number, or stored again with the
    same number and the same encoded value; no query removes it. *)
Theorem mutable_item_superseded own T n es T' n' target old :
  node_run sha1 addr_to_string in_place own T n es T' n' -> Forall (fun e => snd e <> StoreTick) es ->
  get_mutable target (_data_store n) = Some old ->
  exists new, get_mutable target (_data_store n') = Some new /\ supersedes old new.
Proof.
  intros R. revert old. induction R as [|T n now e es n1 T' n' HT Ha E R IH]; intros old Hes Ho;
    [eauto using supersedes_refl|].
  apply Forall_cons in Hes as [He Hes].
  destruct (node_step_supersedes _ _ _ _ _ _ E He Ho) as (mid & Hm & S1).
  destruct (IH mid Hes Hm) as (new & Hn & S2). eauto using supersedes_trans.
Qed.

(** a [put] without the argument ['k'], which is how BEP 44 stores an
    immutable item, is always refused and changes nothing: the lookup of ['k']
    inserts an empty string, so the query is taken for that of a mutable item. *)
Theorem immutable_put_refused now sender arguments n :
  map_find arguments (str "k") = None ->
  handle_put sha1 addr_to_string in_place now sender arguments n =
  inr (match as_string (arg arguments (str "token")), map_find arguments (str "v") with
       | None, _ => missing_argument (str "token")
       | Some _, None => missing_argument (str "v")
       | Some _, Some v => if (1000 <=? length (bencoding_encode v))%nat
                           then SendError 205 (str "Argument 'v' too big")
                           else malformed_argument (str "k")
       end, n).
Proof.
  intros Hk. unfold handle_put. destruct (as_string _); [|done]. destruct (map_find arguments (str "v")) as [v|]; [|done].
  destruct (1000 <=? _)%nat; [done|]. unfold put_mutable_item, sized_argument, arg at 1 2. by rewrite Hk.
Qed.

(** what a [get] returns as value: without a sequence number the immutable
    item of the target, or else the mutable one; with a sequence number the
    mutable item only if its own number is smaller than the one asked for, the
    opposite of BEP 44, where an item is sent only if it is newer. *)
Theorem get_reply_value now sender arguments n t target :
  _routing_table n = Some t -> id_argument arguments (str "target") = inr target -> find_bucket_ok t target = true ->
  exists r n', handle_get sha1 addr_to_string now sender arguments n = inr (Reply r, n') /\
    _data_store n' = _data_store n /\
    map_find r (str "v") =
    match as_int (arg arguments (str "seq")), get_immutable target (_data_store n),
          get_mutable target (_data_store n) with
    | None, Some v, _ => Some v
    | None, None, Some item => Some (value item)
    | Some seq, _, Some item => if seq <=? sequence_number item then None else Some (value item)
    | _, _, None => None
    end.
Proof.
  intros Ht Htg Hok. unfold handle_get, closest_nodes. rewrite Htg, Ht, Hok. destruct (generate_token _ _ _ _ _ _) as [tok tokens].
  do 2 eexists. split; [done|]. split; [done|]. node_simpl. unfold mutable_reply, put_nodes.
  destruct (as_int _) as [seq|], (get_immutable target (_data_store n)),
    (get_mutable target (_data_store n)) as [item|]; repeat case_match;
    rewrite !map_find_assign; by destruct (is_v4 n).
Qed.

End Properties.

(** ** Witnesses: a node that is bootstrapped, given a contact and an item *)

Module Example.
#[local] Existing Instance toy_scheme.
#[local] Abbreviation digest := Tokens.toy_digest.
#[local] Abbreviation step := (node_step digest address_bytes 15).
#[local] Abbreviation handle := (handle_query digest address_bytes 15).

Definition me : list byte := NodeID_zero.
Definition far : NodeContact :=
  {| id := NodeID_max; contact_endpoint := {| address := IPv4 (str "1234"); port := 6881 |} |}.
Definition peer : endpoint := {| address := IPv4 (str "abcd"); port := 5000 |}.
Definition peer_id : list byte := replicate 20 "p"%byte.
Definition no_rand (_ : nat) : nat := O.

Definition item (seq : Z) : MutableDataItem :=
  default {| public_key := []; salt := []; value := BInt 0; sequence_number := 0; signature := [] |}
    (sign (BInt (10 * seq)) seq [] [] : option MutableDataItem).
Definition target : list byte := mutable_get_id digest (public_key (item 0)) [].

Definition started_node : DhtNode := new_node true (str "s1") (str "s2").

(** Bootstrapped, with one verified contact, and asked for the item by [peer]. *)
Definition ready_node : DhtNode :=
  default started_node
    (let? n := step 1 (Bootstrapped me []) started_node in
     let? n := step 2 (QueryReplied far) n in
     step 3 (Query peer (query_message (str "aa") (str "get")
               [(str "id", BStr peer_id); (str "target", BStr target)]) no_rand) n).

(** The token [peer] was given. *)
Definition token : list byte :=
  default [] (fst (generate_token digest address_bytes 3 (address peer) target
                     (Tokens.new_storage (str "s2")))).

Definition put_query (i : MutableDataItem) : BencodedMap :=
  query_message (str "bb") (str "put")
    [ (str "id", BStr peer_id); (str "k", BStr (public_key i)); (str "seq", BInt (sequence_number i));
      (str "sig", BStr (signature i)); (str "token", BStr token); (str "v", value i) ].

Definition storing_node : DhtNode :=
  default started_node (step 4 (Query peer (put_query (item 1)) no_rand) ready_node).

Lemma stored : get_mutable target (_data_store storing_node) = Some (item 1).
Proof. vm_compute. reflexivity. Qed.

Lemma digest_size x : length (digest x) = id_size.
Proof. unfold Tokens.toy_digest, id_size. rewrite length_take, length_app, length_replicate. lia. Qed.

Lemma query_admissible own n sender t q i rest rand :
  i <> _node_id n -> admissible own n (Query sender (query_message t q ((str "id", BStr i) :: rest)) rand).
Proof.
  intros Hi _ arguments j Ea Ej.
  change (Some (BMap ((str "id", BStr i) :: rest)) = Some (BMap arguments)) in Ea. injection Ea as <-.
  change (Some (BStr i) = Some (BStr j)) in Ej. by injection Ej as <-.
Qed.

Lemma node_invariant_witness :
  exists n, node_run digest address_bytes 15 true 0 started_node
    [(1, Bootstrapped me [far]); (2, QueryReplied far); (3, QueryReplied (local_contact me 7));
     (5, Query peer (query_message (str "aa") (str "ping") [(str "id", BStr peer_id)]) no_rand);
     (6, TrackerTick)] 6 n /\ NodeInv digest true 6 n.
Proof.
  match goal with |- exists n, ?P n /\ _ => assert (exists n, P n) as [n R] end.
  - eexists. eapply run_next; [lia| |reflexivity|].
    { split; [done|]. repeat constructor. discriminate. }
    do 2 (eapply run_next; [lia| |reflexivity|]; [split; [done|discriminate]|]).
    eapply run_next; [lia|by apply query_admissible|reflexivity|].
    eapply run_next; [lia|done|reflexivity|]. constructor.
  - exists n. split; [exact R|]. exact (node_invariant digest address_bytes 15 _ _ _ _ _ _ _ R).
Defined.


Definition announcing_node : DhtNode :=
  snd (fst (handle 1 no_rand peer
    (query_message (str "t1") (str "get_peers") (get_peers_arguments peer_id target)) started_node)).
Definition announce_token : list byte :=
  default [] (fst (generate_token digest address_bytes 1 (address peer) target
                     (Tokens.new_storage (str "s1")))).

Lemma announced_by_owner_witness :
  exists arguments tok s,
     map_find (query_message (str "t2") (str "announce_peer")
       (announce_arguments peer_id target 80 announce_token)) (str "a") = Some (BMap arguments) /\
     (map_find arguments (str "token") = Some (BStr tok) \/ tok = []) /\
     s ∈ Tokens._secrets (_tracker_tokens announcing_node) /\ 2 <= Tokens.expires s /\
     tok = digest (Tokens.secret s ++ address_bytes (address peer) ++ target).
Proof.
  assert (NodeInv digest true 1 announcing_node) as HI.
  { apply (handle_query_inv digest address_bytes 15 true 0); [apply new_node_inv|lia|].
    by apply query_admissible. }
  destruct (handle 2 no_rand peer (query_message (str "t2") (str "announce_peer")
       (announce_arguments peer_id target 80 announce_token)) announcing_node) as [[o n'] ps] eqn:E.
  destruct (announced_by_owner digest address_bytes 15 true 1 2 no_rand peer _ announcing_node o n' ps
    target {| address := address peer; port := 80 |} 2 HI E) as [Hold|(_ & _ & Hnew)].
  - change n' with (snd (fst (o, n', ps))). rewrite <-E. vm_compute. reflexivity.
  - vm_compute in Hold. discriminate.
  - exact Hnew.
Defined.

Lemma announce_accepted_witness :
  exists tok n1 n3 ps, handle 100 no_rand peer
      (query_message (str "t2") (str "announce_peer") (announce_arguments peer_id target 80 tok)) n1
      = (Datagram (send_reply me peer (str "t2") []), n3, ps) /\
    Tracker.abs_tracker (_swarms n3) !! (target, {| address := address peer; port := 80 |}) = Some 100.
Proof.
  destruct (announce_accepted digest address_bytes 15 true 0 1 no_rand no_rand peer peer_id target 80
    (str "t1") (str "t2") started_node) as (r & tok & n1 & ps & E & _ & Hl);
    [intros x; rewrite digest_size; apply (bool_decide_unpack _); exact I|apply new_node_inv|discriminate|lia|done|done|done|lia|].
  assert (n1 = announcing_node) as ->.
  { change n1 with (snd (fst (Datagram (send_reply (_node_id started_node) peer (str "t1") r), n1, ps))). by rewrite <-E. }
  destruct (Hl [] 1 announcing_node 100) as (n3 & ps3 & E3 & L3);
    [constructor|unfold seconds; lia|discriminate|do 2 eexists; split; reflexivity|].
  exists tok, announcing_node, n3, ps3. split; [exact E3|exact L3].
Defined.

Lemma mutable_item_superseded_witness :
  exists n' new, get_mutable target (_data_store n') = Some new /\ supersedes (item 1) new /\
    new = item 2.
Proof.
  set (n' := default started_node (step 5 (Query peer (put_query (item 2)) no_rand) storing_node)).
  assert (node_run digest address_bytes 15 true 4 storing_node
            [(5, Query peer (put_query (item 2)) no_rand)] 5 n') as R.
  { eapply run_next; [lia| | |constructor].
    - apply query_admissible. vm_compute. discriminate.
    - vm_compute. reflexivity. }
  assert (get_mutable target (_data_store n') = Some (item 2)) as Hn by (vm_compute; reflexivity).
  destruct (mutable_item_superseded digest address_bytes 15 true 4 storing_node _ 5 n' target (item 1) R)
    as (new & Hnew & Hs); [by repeat constructor|exact stored|].
  exists n', new. split; [exact Hnew|]. split; [exact Hs|]. congruence.
Defined.

Lemma immutable_put_refused_witness :
  handle_put digest address_bytes 15 4 peer
    [(str "id", BStr peer_id); (str "token", BStr token); (str "v", BInt 7)] ready_node
  = inr (malformed_argument (str "k"), ready_node).
Proof. apply (immutable_put_refused digest address_bytes 15 4 peer). reflexivity. Defined.

Lemma get_reply_value_witness :
  exists r n', handle_get digest address_bytes 5 peer
      [(str "id", BStr peer_id); (str "seq", BInt 0); (str "target", BStr target)] storing_node
    = inr (Reply r, n') /\ _data_store n' = _data_store storing_node /\ map_find r (str "v") = None.
Proof.
  destruct (_routing_table storing_node) as [t|] eqn:Et; [|vm_compute in Et; discriminate].
  apply (get_reply_value digest address_bytes 5 peer
    [(str "id", BStr peer_id); (str "seq", BInt 0); (str "target", BStr target)] storing_node t target Et);
    [vm_compute; reflexivity|].
  vm_compute in Et. injection Et as <-. vm_compute. reflexivity.
Defined.

End Example.
