(* ===== verification/DhtLookup.v ===== *)
(** * Searching the DHT: the client side of src/bittorrent/mainline_dht.cpp and collect.h

    Transactions and the matching of responses, the nodes read from a reply, the
    search that evaluates candidates concurrently ([collect]) as a step relation,
    and the evaluation functions of the lookups that are built on it. *)
From S2P Require Import Prelude Number Bencoding Bytes NodeId Contact RoutingTable Crypto.
From S2P Require Import MutableData DhtStorage DataStore ProximityMap DhtNode.

(** ** Transactions and incoming messages *)

Module Transactions.

(** The loop of [new_transaction_string]: at most four bytes of a [uint32_t]. *)
Fixpoint transaction_loop (fuel : nat) (transaction_id : Z) : list byte :=
  match fuel with
  | O => []
  | S fuel' =>
      if transaction_id =? 0 then []
      else byte_of (Z.land transaction_id 255) :: transaction_loop fuel' (Z.shiftr transaction_id 8)
  end.

(** The string and the next value of the counter. *)
Definition new_transaction_string (_next_transaction_id : Z) : list byte * Z :=
  let transaction_id := _next_transaction_id in
  (if transaction_id =? 0 then [Byte.x00] else transaction_loop 4 transaction_id,
   (_next_transaction_id + 1) mod 2 ^ 32).

Definition MAX_HANDLE_QUERY_CONCURRENCY : Z := 32.

Variant received :=
| Ignored
| IncomingQuery (message : BencodedMap)
| Response (transaction : list byte) (message : BencodedMap).

(** The body of [receive_loop] for one packet; [active_requests] gives the
    destination of each pending request. *)
Definition receive (active_requests : gmap (list byte) endpoint) (concurrency : Z)
    (sender : endpoint) (packet : list byte) : received :=
  match bencoding_decode packet ≫= as_map with
  | None => Ignored
  | Some message =>
      if negb (has_key message (str "y")) || negb (has_key message (str "t")) then Ignored
      else
        match as_string (arg message (str "y")), as_string (arg message (str "t")) with
        | Some message_type, Some transaction_id =>
            if bool_decide (message_type = str "q") then
              if MAX_HANDLE_QUERY_CONCURRENCY <=? concurrency then Ignored else IncomingQuery message
            else if bool_decide (message_type = str "r") || bool_decide (message_type = str "e") then
              match active_requests !! transaction_id with
              | Some destination =>
                  if bool_decide (destination = sender) then Response transaction_id message else Ignored
              | None => Ignored
              end
            else Ignored
        | _, _ => Ignored
        end
  end.

(** The requests of a node: the counter and the pending requests. *)
Record requests := { next_id : Z; active : gmap (list byte) endpoint }.

Definition begin_request (destination : endpoint) (r : requests) : list byte * requests :=
  let '(t, next) := new_transaction_string (next_id r) in
  (t, {| next_id := next; active := <[t := destination]> (active r) |}).

Definition end_request (t : list byte) (r : requests) : requests :=
  {| next_id := next_id r; active := delete t (active r) |}.

Inductive request_event :=
| Begin (destination : endpoint)
| End_ (transaction : list byte).

Definition request_step (r : requests) (e : request_event) : requests :=
  match e with
  | Begin d => snd (begin_request d r)
  | End_ t => end_request t r
  end.

Definition request_run (es : list request_event) : requests :=
  fold_left request_step es {| next_id := 1; active := ∅ |}.

(** The requests begun in a run, oldest first. *)
Definition begun (es : list request_event) : list endpoint :=
  omap (fun e => match e with Begin d => Some d | End_ _ => None end) es.

(** The transaction of the [k]-th request of a node, counted from zero. *)
Definition transaction_of (k : nat) : list byte := fst (new_transaction_string ((Z.of_nat k + 1) mod 2 ^ 32)).

(** *** Transactions determine their number *)

Fixpoint le_value (s : list byte) : Z :=
  match s with
  | [] => 0
  | b :: s' => code b + 256 * le_value s'
  end.

Lemma transaction_loop_value fuel : forall z,
  0 <= z < 256 ^ Z.of_nat fuel -> le_value (transaction_loop fuel z) = z.
Proof.
  induction fuel as [|fuel IH]; intros z Hz; cbn [transaction_loop]; [simpl in *; lia|].
  destruct (Z.eqb_spec z 0) as [->|Hz0]; [done|]. cbn [le_value].
  rewrite code_byte_of. change 255 with (Z.ones 8).
  rewrite Z.land_ones, Z.shiftr_div_pow2 by lia. change (2 ^ 8) with 256. rewrite Z.mod_mod by lia.
  rewrite IH.
  - pose proof (Z.div_mod z 256). lia.
  - rewrite Nat2Z.inj_succ, Z.pow_succ_r in Hz by lia.
    split; [apply Z.div_pos; lia|apply Z.div_lt_upper_bound; lia].
Qed.

Lemma new_transaction_inj a b :
  0 <= a < 2 ^ 32 -> 0 <= b < 2 ^ 32 ->
  fst (new_transaction_string a) = fst (new_transaction_string b) -> a = b.
Proof.
  assert (forall z, 0 <= z < 2 ^ 32 -> le_value (fst (new_transaction_string z)) = z) as Hv.
  { intros z Hz. unfold new_transaction_string. cbn [fst]. destruct (Z.eqb_spec z 0) as [->|]; [done|].
    apply transaction_loop_value. done. }
  intros Ha Hb E%(f_equal le_value). rewrite !Hv in E by done. done.
Qed.

Lemma transaction_of_inj j k :
  Z.of_nat j < 2 ^ 32 -> Z.of_nat k < 2 ^ 32 -> transaction_of j = transaction_of k -> j = k.
Proof.
  intros Hj Hk E%new_transaction_inj; [|apply Z.mod_pos_bound; lia..].
  destruct (Z.eq_dec (Z.of_nat j + 1) (2 ^ 32)) as [Ej|Ej], (Z.eq_dec (Z.of_nat k + 1) (2 ^ 32)) as [Ek|Ek];
    rewrite ?Ej, ?Ek, ?Z_mod_same_full in E; try lia;
    rewrite ?Z.mod_small in E by lia; try lia.
  all: exfalso; rewrite ?Z.mod_small in E by lia; lia.
Qed.

(** *** Pending requests *)

Record requests_ok (ds : list endpoint) (r : requests) : Prop := {
  ok_next : next_id r = (Z.of_nat (length ds) + 1) mod 2 ^ 32;
  ok_active : forall t d, active r !! t = Some d -> exists k, ds !! k = Some d /\ t = transaction_of k;
}.

Lemma request_step_ok ds r e :
  requests_ok ds r ->
  requests_ok (ds ++ begun [e]) (request_step r e).
Proof.
  intros [Hn Ha]. destruct e as [d|t]; cbn [request_step].
  - change (begun [Begin d]) with [d]. unfold begin_request, new_transaction_string. cbn [snd].
    split; cbn [next_id active].
    + rewrite Hn, length_app. change (length [d]) with 1%nat.
      rewrite Nat2Z.inj_add, Zplus_mod_idemp_l. f_equal; lia.
    + intros t d' [[<- <-]|[_ H']]%lookup_insert_Some.
      * exists (length ds). rewrite list_lookup_middle by done. split; [done|].
        unfold transaction_of. by rewrite <-Hn.
      * destruct (Ha t d' H') as (k & Hk & ->). exists k. split; [by apply lookup_app_l_Some|done].
  - change (begun [End_ t]) with (@nil endpoint). rewrite app_nil_r.
    split; cbn [end_request next_id active]; [done|]. intros t' d' [_ H']%lookup_delete_Some. by apply Ha.
Qed.

Lemma request_run_ok es : requests_ok (begun es) (request_run es).
Proof.
  unfold request_run. rewrite <-(app_nil_l (begun es)).
  assert (requests_ok [] {| next_id := 1; active := ∅ |}) as H0.
  { split; [reflexivity|]. intros ? ?. cbn [active]. by rewrite lookup_empty. }
  revert H0. generalize (@nil endpoint), {| next_id := 1; active := ∅ |}.
  induction es as [|e es IH]; intros ds r Hr; [by rewrite app_nil_r|]. cbn [fold_left].
  replace (ds ++ begun (e :: es)) with ((ds ++ begun [e]) ++ begun es)
    by (rewrite <-app_assoc; by destruct e).
  by apply IH, request_step_ok.
Qed.

(** a response reaches a request only from the endpoint the request was
    sent to: as long as a node has begun fewer than 2^32 requests, a message is
    delivered as the response to a transaction only if the one request with that
    transaction was sent to the sender, and the message is of type r or e. *)
Theorem response_from_destination (es : list request_event) concurrency sender packet t message :
  Z.of_nat (length (begun es)) < 2 ^ 32 ->
  receive (active (request_run es)) concurrency sender packet = Response t message ->
  (exists k, begun es !! k = Some sender /\ t = transaction_of k /\
     forall j, (j < length (begun es))%nat -> t = transaction_of j -> j = k) /\
  bencoding_decode packet = Some (BMap message) /\
  map_find message (str "t") = Some (BStr t) /\
  (map_find message (str "y") = Some (BStr (str "r")) \/ map_find message (str "y") = Some (BStr (str "e"))).
Proof.
  intros Hlen E. unfold receive in E.
  destruct (bencoding_decode packet) as [v|] eqn:Ed; [|done].
  destruct v as [| | |m]; try done. cbn [mbind option_bind as_map] in E. unfold has_key in E.
  case_bool_decide as Hy; [|done]. case_bool_decide as Ht; [|done]. cbn [negb orb] in E.
  destruct Hy as [vy Ey], Ht as [vt Et]. unfold arg in E. rewrite Ey, Et in E. cbn [from_option Datatypes.id] in E.
  destruct vy as [|y| |]; try done. destruct vt as [|t'| |]; try done. cbn [as_string] in E.
  case_bool_decide; [destruct (MAX_HANDLE_QUERY_CONCURRENCY <=? concurrency); done|].
  destruct (_ || _) eqn:Hor; [|done].
  destruct (active (request_run es) !! t') as [d|] eqn:Ea; [|done].
  case_bool_decide as Hd; [|done]. injection E as -> ->. subst d.
  destruct (ok_active _ _ (request_run_ok es) t sender Ea) as (k & Hk & ->).
  split_and!; [|done|done|].
  - exists k. split_and!; [done|done|]. intros j Hj E'.
    apply transaction_of_inj in E'; [done|apply lookup_lt_Some in Hk; lia|lia].
  - apply orb_true_iff in Hor as [->%bool_decide_eq_true| ->%bool_decide_eq_true]; auto.
Qed.

Lemma response_from_destination_witness :
  let ep := {| address := IPv4 (str "abcd"); port := 6881 |} in
  begun [Begin ep] !! 0%nat = Some ep /\ transaction_of 0 = [Byte.x01].
Proof.
  set (ep := {| address := IPv4 (str "abcd"); port := 6881 |}).
  set (m := [(str "r", BMap []); (str "t", BStr [Byte.x01]); (str "y", BStr (str "r"))]).
  destruct (response_from_destination [Begin ep] 0 ep (bencoding_encode (BMap m)) [Byte.x01] m)
    as [(k & Hk & Et & _) _].
  - reflexivity.
  - vm_compute. reflexivity.
  - destruct k as [|[|k]]; [|discriminate Hk..]. split; [exact Hk|]. by symmetry.
Defined.

End Transactions.

(** ** The search *)

Module Collect.

(** [struct Contact]: bootstrap nodes have no identifier. *)
Record Contact := { c_endpoint : endpoint; c_id : option (list byte) }.

Definition of_node (c : NodeContact) : Contact :=
  {| c_endpoint := contact_endpoint c; c_id := Some (id c) |}.

Variant Progress := unused | used.

#[export] Instance Contact_eq_dec : EqDecision Contact.
Proof. solve_decision. Defined.
#[export] Instance Progress_eq_dec : EqDecision Progress.
Proof. solve_decision. Defined.

Section Code.
(** The order of endpoints is asio's. *)
Variable endpoint_lt : endpoint -> endpoint -> bool.
Variable target_id : list byte.

(** [Compare::operator()] *)
Definition compare (l r : Contact) : bool :=
  match c_id l, c_id r with
  | None, None => endpoint_lt (c_endpoint l) (c_endpoint r)
  | Some _, None => true
  | None, Some _ => false
  | Some i, Some j => closer_to target_id i j
  end.

(** [std::map::insert] of a contact that is unused. *)
Fixpoint insert_candidate (c : Contact) (l : list (Contact * Progress)) : list (Contact * Progress) :=
  match l with
  | [] => [(c, unused)]
  | x :: l' =>
      if compare c (fst x) then (c, unused) :: l
      else if compare (fst x) c then x :: insert_candidate c l'
      else l
  end.

Definition insert_candidates (cs : list Contact) (l : list (Contact * Progress)) : list (Contact * Progress) :=
  fold_left (fun l c => insert_candidate c l) cs l.

(** The first unused candidate, which is marked used. *)
Fixpoint pick_candidate (l : list (Contact * Progress)) : option (Contact * list (Contact * Progress)) :=
  match l with
  | [] => None
  | (c, unused) :: l' => Some (c, (c, used) :: l')
  | (c, used) :: l' => let? (d, l'') := pick_candidate l' in Some (d, (c, used) :: l'')
  end.

(** The candidates of [DhtNode::collect]: those of the routing table, and the
    bootstrap endpoints that are not among them. *)
Definition seed_candidates (table_contacts : list NodeContact) (bootstrap_endpoints : list endpoint)
    : list Contact :=
  map of_node table_contacts ++
  map (fun ep => {| c_endpoint := ep; c_id := None |})
    (List.filter (fun ep => negb (bool_decide (ep ∈ map contact_endpoint table_contacts))) bootstrap_endpoints).

Definition MAX_JOBS : nat := 8.

(** The variables of [collect].  [running] are the calls of [evaluate] that have
    not returned, [active_jobs] those that hold a slot; an entry of the queue
    without a contact is the mark a finished job leaves behind.  [evaluated] and
    [pushed] record the history. *)
Record collecting := {
  candidates : list (Contact * Progress);
  new_candidates : list (option NodeContact);
  active_jobs : list nat;
  next_job_id : nat;
  running : list (nat * Contact);
  evaluated : list Contact;
  pushed : list Contact;
}.

Definition collect_init (first_candidates : list Contact) : collecting :=
  {| candidates := insert_candidates first_candidates []; new_candidates := []; active_jobs := [];
     next_job_id := 0; running := []; evaluated := []; pushed := first_candidates |}.

(** [async_pop_one_or_more]: the contacts of the queue, without the marks. *)
Definition pop_all (q : list (option NodeContact)) : list Contact :=
  map of_node (omap (fun x => x) q).

(** [on_finish]: nothing if the job was dismissed before. *)
Definition on_finish (job_id : nat) (s : collecting) : collecting :=
  if bool_decide (job_id ∈ active_jobs s) then
    {| candidates := candidates s; new_candidates := new_candidates s ++ [None];
       active_jobs := List.filter (fun j => negb (j =? job_id)%nat) (active_jobs s);
       next_job_id := next_job_id s; running := running s;
       evaluated := evaluated s; pushed := pushed s |}
  else s.

Inductive collect_step (s : collecting) : collecting -> Prop :=
(** The loop has a slot and starts a job. *)
| start_job c l :
    (length (active_jobs s) < MAX_JOBS)%nat -> pick_candidate (candidates s) = Some (c, l) ->
    collect_step s
      {| candidates := l; new_candidates := new_candidates s;
         active_jobs := active_jobs s ++ [next_job_id s]; next_job_id := S (next_job_id s);
         running := running s ++ [(next_job_id s, c)];
         evaluated := evaluated s ++ [c]; pushed := pushed s |}
(** It has none to start and takes what has arrived. *)
| take_new :
    (length (active_jobs s) < MAX_JOBS)%nat -> pick_candidate (candidates s) = None ->
    new_candidates s <> [] ->
    collect_step s
      {| candidates := insert_candidates (pop_all (new_candidates s)) (candidates s);
         new_candidates := []; active_jobs := active_jobs s; next_job_id := next_job_id s;
         running := running s; evaluated := evaluated s; pushed := pushed s |}
(** A job pushes the nodes of a reply, whose identifiers have 20 bytes. *)
| job_pushes j c cs :
    (j, c) ∈ running s -> Forall (fun c => valid_id (id c)) cs ->
    collect_step s
      {| candidates := candidates s; new_candidates := new_candidates s ++ map Some cs;
         active_jobs := active_jobs s; next_job_id := next_job_id s; running := running s;
         evaluated := evaluated s; pushed := pushed s ++ map of_node cs |}
(** Its watch dog gives up on it: it goes on without its slot. *)
| job_dismissed j c :
    (j, c) ∈ running s -> collect_step s (on_finish j s)
(** It returns. *)
| job_returns j c :
    (j, c) ∈ running s ->
    collect_step s
      (on_finish j {| candidates := candidates s; new_candidates := new_candidates s;
                      active_jobs := active_jobs s; next_job_id := next_job_id s;
                      running := List.filter (fun x => negb (fst x =? j)%nat) (running s);
                      evaluated := evaluated s; pushed := pushed s |}).

(** The loop ends: nothing to try, no job, nothing in the queue. *)
Definition collect_done (s : collecting) : Prop :=
  pick_candidate (candidates s) = None /\ active_jobs s = [] /\ new_candidates s = [].

(** *** The order of candidates *)

Hypothesis endpoint_lt_irrefl : forall e, endpoint_lt e e = false.
Hypothesis endpoint_lt_trans : forall a b c,
  endpoint_lt a b = true -> endpoint_lt b c = true -> endpoint_lt a c = true.
Hypothesis endpoint_lt_total : forall a b, endpoint_lt a b = false -> endpoint_lt b a = false -> a = b.
Hypothesis valid_target : valid_id target_id.

Definition valid_candidate (c : Contact) : Prop := forall i, c_id c = Some i -> valid_id i.

(** What the comparison sees of a candidate. *)
Definition key (c : Contact) : list byte + endpoint :=
  match c_id c with Some i => inl i | None => inr (c_endpoint c) end.

Lemma compare_irrefl c : valid_candidate c -> compare c c = false.
Proof.
  unfold compare. intros Hc. destruct (c_id c) as [i|] eqn:E; [|done].
  specialize (Hc i E). rewrite closer_to_distance by done. apply Z.ltb_irrefl.
Qed.

Lemma compare_trans a b c :
  valid_candidate a -> valid_candidate b -> valid_candidate c ->
  compare a b = true -> compare b c = true -> compare a c = true.
Proof.
  unfold compare, valid_candidate. intros Ha Hb Hc.
  destruct (c_id a) as [i|], (c_id b) as [j|], (c_id c) as [k|]; try done; [|by apply endpoint_lt_trans].
  specialize (Ha i eq_refl). specialize (Hb j eq_refl). specialize (Hc k eq_refl).
  rewrite !closer_to_distance by done. rewrite !Z.ltb_lt. lia.
Qed.

Lemma compare_key a b :
  valid_candidate a -> valid_candidate b ->
  compare a b = false -> compare b a = false -> key a = key b.
Proof.
  unfold compare, valid_candidate, key. intros Ha Hb.
  destruct (c_id a) as [i|], (c_id b) as [j|]; try done.
  - specialize (Ha i eq_refl). specialize (Hb j eq_refl). rewrite !closer_to_distance by done.
    rewrite !Z.ltb_ge. intros H1 H2. f_equal. apply (distance_inj i j target_id); [done..|lia].
  - intros H1 H2. f_equal. by apply endpoint_lt_total.
Qed.

Lemma key_compare a b : valid_candidate a -> valid_candidate b -> key a = key b -> compare a b = false.
Proof.
  intros Ha Hb E. pose proof (compare_irrefl a Ha) as Hi. unfold compare, key in *.
  destruct (c_id a) as [i|], (c_id b) as [j|]; simplify_eq; congruence.
Qed.

(** The candidates of a search: valid and strictly ordered. *)
Definition sorted (l : list (Contact * Progress)) : Prop :=
  StronglySorted (fun x y => compare (fst x) (fst y) = true) l.
Definition all_valid (l : list (Contact * Progress)) : Prop := Forall (fun x => valid_candidate (fst x)) l.

Lemma sorted_key_inj l x y :
  all_valid l -> sorted l -> x ∈ l -> y ∈ l -> key (fst x) = key (fst y) -> x = y.
Proof.
  intros Hv Hs. induction Hs as [|z l Hs IH Hz]; [by intros ?%elem_of_nil|].
  apply Forall_cons in Hv as [Hvz Hv]. rewrite Forall_forall in Hz. unfold all_valid in Hv.
  pose proof Hv as Hv'. rewrite Forall_forall in Hv'.
  intros [->|Hx]%elem_of_cons [->|Hy]%elem_of_cons E; [done| | |by apply IH].
  - specialize (Hz y Hy). rewrite key_compare in Hz; auto. done.
  - specialize (Hz x Hx). rewrite key_compare in Hz; auto. done.
Qed.

Lemma insert_candidate_in c l x : x ∈ insert_candidate c l -> x ∈ l \/ x = (c, unused).
Proof.
  induction l as [|y l IH]; simpl; [by intros ->%list_elem_of_singleton; right|].
  repeat case_match; rewrite ?elem_of_cons; [tauto| |tauto]. intros [->|Hx]; [by left; left|].
  destruct (IH Hx); tauto.
Qed.

Lemma insert_candidate_keeps c l x : x ∈ l -> x ∈ insert_candidate c l.
Proof.
  induction l as [|y l IH]; simpl; [by intros ?%elem_of_nil|].
  repeat case_match; rewrite ?elem_of_cons; [tauto| |tauto]. intros [->|Hx]; [by left|right; by apply IH].
Qed.

Lemma insert_candidate_valid c l : valid_candidate c -> all_valid l -> all_valid (insert_candidate c l).
Proof.
  intros Hc Hl. apply Forall_forall. intros x [Hx| ->]%insert_candidate_in; [|done].
  unfold all_valid in Hl. rewrite Forall_forall in Hl. by apply Hl.
Qed.

Lemma insert_candidate_sorted c l :
  valid_candidate c -> all_valid l -> sorted l -> sorted (insert_candidate c l).
Proof.
  intros Hc Hl Hs. induction Hs as [|y l Hs IH Hy]; simpl; [by repeat constructor|].
  apply Forall_cons in Hl as [Hvy Hl].
  destruct (compare c (fst y)) eqn:E1; [|destruct (compare (fst y) c) eqn:E2].
  - constructor; [by constructor|]. constructor; [done|]. apply Forall_forall. intros x Hx.
    unfold all_valid in Hl. rewrite Forall_forall in Hl, Hy. eapply (compare_trans _ (fst y)); auto.
  - constructor; [by apply IH|]. apply Forall_forall. rewrite Forall_forall in Hy.
    intros x [Hx| ->]%insert_candidate_in; auto.
  - by constructor.
Qed.

Lemma insert_candidate_key c l :
  valid_candidate c -> all_valid l -> exists x, x ∈ insert_candidate c l /\ key (fst x) = key c.
Proof.
  intros Hc Hl. induction Hl as [|y l Hy Hl IH]; simpl.
  - exists (c, unused). split; [by left|done].
  - destruct (compare c (fst y)) eqn:E1; [exists (c, unused); split; [by left|done]|].
    destruct (compare (fst y) c) eqn:E2.
    + destruct IH as (x & Hx & E). exists x. split; [by right|done].
    + exists y. split; [by left|]. symmetry. by apply compare_key.
Qed.

Lemma insert_candidates_spec cs : forall l,
  Forall valid_candidate cs -> all_valid l -> sorted l ->
  let l' := insert_candidates cs l in
  all_valid l' /\ sorted l' /\ (forall x, x ∈ l -> x ∈ l') /\
  (forall x, x ∈ l' -> x ∈ l \/ exists c, c ∈ cs /\ x = (c, unused)) /\
  (forall c, c ∈ cs -> exists x, x ∈ l' /\ key (fst x) = key c).
Proof.
  induction cs as [|c cs IH]; intros l Hcs Hl Hs; cbn [insert_candidates fold_left].
  - split_and!; auto. by intros c ?%elem_of_nil.
  - apply Forall_cons in Hcs as [Hc Hcs].
    destruct (IH (insert_candidate c l) Hcs) as (H1 & H2 & H3 & H4 & H5);
      [by apply insert_candidate_valid|by apply insert_candidate_sorted|].
    fold (insert_candidates cs (insert_candidate c l)) in *. split_and!; [done|done| | |].
    + intros x Hx. by apply H3, insert_candidate_keeps.
    + intros x [[Hx| ->]%insert_candidate_in|(d & Hd & ->)]%H4; [by left|right|right].
      * exists c. split; [by left|done].
      * exists d. split; [by right|done].
    + intros d [->|Hd]%elem_of_cons; [|by apply H5].
      destruct (insert_candidate_key c l Hc Hl) as (x & Hx & E). exists x. split; [by apply H3|done].
Qed.

Lemma pick_candidate_Some l c l' :
  pick_candidate l = Some (c, l') ->
  exists l1 l2, l = l1 ++ (c, unused) :: l2 /\ l' = l1 ++ (c, used) :: l2 /\ Forall (fun x => snd x = used) l1.
Proof.
  revert l'. induction l as [|[d [|]] l IH]; intros l' E; simpl in E; [done| |].
  - simplify_eq. exists [], l. by repeat constructor.
  - destruct (pick_candidate l) as [[e l'']|]; [|done]. simplify_eq.
    destruct (IH l'' eq_refl) as (l1 & l2 & -> & -> & Hu). exists ((d, used) :: l1), l2.
    split_and!; [done|done|by constructor].
Qed.

Lemma pick_candidate_None l x : pick_candidate l = None -> x ∈ l -> snd x = used.
Proof.
  induction l as [|[d [|]] l IH]; simpl; [by intros _ ?%elem_of_nil|done|].
  destruct (pick_candidate l) as [[e l'']|]; [done|]. intros _ [->|Hx]%elem_of_cons; [done|by apply IH].
Qed.

Lemma sorted_mark l1 c p q l2 : sorted (l1 ++ (c, p) :: l2) -> sorted (l1 ++ (c, q) :: l2).
Proof.
  unfold sorted. induction l1 as [|x l1 IH]; simpl; intros Hs; apply StronglySorted_inv in Hs as [Hs Hx].
  - by constructor.
  - constructor; [by apply IH|]. apply Forall_app in Hx as [H1 H2]. apply Forall_cons in H2 as [H2 H3].
    apply Forall_app. split; [done|by constructor].
Qed.

Lemma sorted_NoDup l : all_valid l -> sorted l -> NoDup l.
Proof.
  intros Hv Hs. induction Hs as [|y l Hs IH Hy]; [constructor|]. apply Forall_cons in Hv as [Hvy Hv].
  constructor; [|by apply IH]. rewrite Forall_forall in Hy. intros Hin%Hy. by rewrite compare_irrefl in Hin.
Qed.

Lemma marked_elem l1 c l2 x :
  all_valid (l1 ++ (c, unused) :: l2) -> sorted (l1 ++ (c, unused) :: l2) ->
  x ∈ l1 ++ (c, used) :: l2 <-> x = (c, used) \/ (x ∈ l1 ++ (c, unused) :: l2 /\ x <> (c, unused)).
Proof.
  intros Hv Hs. pose proof (sorted_NoDup _ Hv Hs) as Hnd.
  rewrite <-(Permutation_middle l1 l2) in Hnd. apply NoDup_cons in Hnd as [Hnot _].
  rewrite elem_of_app in Hnot. rewrite !elem_of_app, !elem_of_cons.
  destruct (decide (x = (c, unused))) as [->|Hne]; [|tauto].
  split; [intros [?|[?|?]]; [tauto|done|tauto]|]. intros [?|[_ ?]]; done.
Qed.

(** *** The invariant of a search *)

Record collect_inv (s : collecting) : Prop := {
  ci_valid : all_valid (candidates s);
  ci_sorted : sorted (candidates s);
  ci_pushed : Forall valid_candidate (pushed s);
  ci_queue : forall c, Some c ∈ new_candidates s -> of_node c ∈ pushed s;
  ci_cover : forall c, c ∈ pushed s ->
    (exists x, x ∈ candidates s /\ key (fst x) = key c) \/
    (exists d, Some d ∈ new_candidates s /\ of_node d = c);
  ci_origin : forall x, x ∈ candidates s -> fst x ∈ pushed s;
  ci_used : forall c, c ∈ evaluated s <-> (c, used) ∈ candidates s;
  ci_once : NoDup (map key (evaluated s));
  ci_slots : (length (active_jobs s) <= MAX_JOBS)%nat;
  ci_active : forall j, j ∈ active_jobs s -> exists c, (j, c) ∈ running s;
}.

Lemma collect_init_inv first_candidates :
  Forall valid_candidate first_candidates -> collect_inv (collect_init first_candidates).
Proof.
  intros Hv. destruct (insert_candidates_spec first_candidates [] Hv) as (H1 & H2 & _ & H4 & H5);
    [constructor|constructor|].
  split; simpl; auto; try (by intros ? ?%elem_of_nil); try constructor.
  - intros x [?%elem_of_nil|(c & Hc & ->)]%H4; done.
  - by intros ?%elem_of_nil.
  - intros Hc. apply H4 in Hc as [?%elem_of_nil|(d & _ & E)]; done.
  - unfold MAX_JOBS. lia.
Qed.

Lemma start_job_inv s c l :
  collect_inv s -> (length (active_jobs s) < MAX_JOBS)%nat -> pick_candidate (candidates s) = Some (c, l) ->
  collect_inv
    {| candidates := l; new_candidates := new_candidates s;
       active_jobs := active_jobs s ++ [next_job_id s]; next_job_id := S (next_job_id s);
       running := running s ++ [(next_job_id s, c)];
       evaluated := evaluated s ++ [c]; pushed := pushed s |}.
Proof.
  intros [Hv Hs Hp Hq Hc Ho Hu Hn Hl Ha] Hlen E.
  destruct (pick_candidate_Some _ _ _ E) as (l1 & l2 & E1 & -> & _).
  assert ((c, unused) ∈ candidates s) as Hcin by (rewrite E1; apply elem_of_app; right; by left).
  assert (c ∉ evaluated s) as Hce.
  { intros Hce%Hu. pose proof (sorted_key_inj _ _ _ Hv Hs Hce Hcin eq_refl). done. }
  assert (forall x, x ∈ l1 ++ (c, used) :: l2 <-> x = (c, used) \/ (x ∈ candidates s /\ x <> (c, unused))) as Hx.
  { rewrite E1 in Hv, Hs |- *. intros x. by apply marked_elem. }
  split; simpl; try done.
  - apply Forall_forall. unfold all_valid in Hv. rewrite Forall_forall in Hv.
    intros x [->|[Hin _]]%Hx; [by apply (Hv (c, unused))|by apply Hv].
  - eapply sorted_mark. by rewrite <-E1.
  - intros d [(x & Hin & Ek)|?]%Hc; [left|by right].
    destruct (decide (x = (c, unused))) as [->|Hne].
    + exists (c, used). split; [apply Hx; by left|done].
    + exists x. split; [apply Hx; by right|done].
  - intros x [->|[Hin _]]%Hx; [by apply (Ho (c, unused))|by apply Ho].
  - intros d. rewrite Hx, elem_of_app, list_elem_of_singleton, Hu. split.
    + intros [?| ->]; [right|by left]. done.
    + intros [[= ->]|[? _]]; auto.
  - rewrite map_app. apply NoDup_app. split_and!; [done| |by apply NoDup_singleton].
    intros k Hk Hk'. apply list_elem_of_singleton in Hk' as ->.
    apply list_elem_of_fmap in Hk as (d & Ek & Hd). apply Hu in Hd.
    pose proof (sorted_key_inj _ _ _ Hv Hs Hcin Hd Ek). done.
  - rewrite length_app. simpl. lia.
  - intros j [Hj|Hj]%elem_of_app.
    + destruct (Ha j Hj) as [d Hd]. exists d. apply elem_of_app. by left.
    + apply list_elem_of_singleton in Hj as ->. exists c. apply elem_of_app. right. by left.
Qed.

Lemma take_new_inv s :
  collect_inv s -> 
  collect_inv
    {| candidates := insert_candidates (pop_all (new_candidates s)) (candidates s);
       new_candidates := []; active_jobs := active_jobs s; next_job_id := next_job_id s;
       running := running s; evaluated := evaluated s; pushed := pushed s |}.
Proof.
  intros [Hv Hs Hp Hq Hc Ho Hu Hn Hl Ha].
  assert (forall c, c ∈ pop_all (new_candidates s) <-> exists d, Some d ∈ new_candidates s /\ of_node d = c) as Hpop.
  { intros c. unfold pop_all. rewrite list_elem_of_fmap. setoid_rewrite list_elem_of_omap. naive_solver. }
  destruct (insert_candidates_spec (pop_all (new_candidates s)) (candidates s)) as (H1 & H2 & H3 & H4 & H5);
    [|done|done|].
  { rewrite Forall_forall in Hp |- *. intros c (d & Hd & <-)%Hpop. by apply Hp, Hq. }
  split; simpl; auto.
  - by intros c ?%elem_of_nil.
  - intros c [(x & Hx & E)|Hd]%Hc; left; [exists x; auto|]. by apply H5, Hpop.
  - intros x [Hx|(c & (d & Hd & <-)%Hpop & ->)]%H4; [by apply Ho|by apply Hq].
  - intros c. rewrite Hu. split; [by intros; apply H3|]. intros [?|(d & _ & ?)]%H4; done.
Qed.

(** What a job that ends or is dismissed leaves behind. *)
Lemma on_finish_inv j s r :
  collect_inv s -> (forall x, x ∈ running s -> fst x <> j -> x ∈ r) ->
  (j ∈ active_jobs s \/ forall x, x ∈ running s -> fst x ∈ active_jobs s -> x ∈ r) ->
  collect_inv (on_finish j {| candidates := candidates s; new_candidates := new_candidates s;
                              active_jobs := active_jobs s; next_job_id := next_job_id s;
                              running := r; evaluated := evaluated s; pushed := pushed s |}).
Proof.
  intros [Hv Hs Hp Hq Hc Ho Hu Hn Hl Ha] Hr Hj. unfold on_finish. cbn [active_jobs].
  case_bool_decide as Hin; split; simpl; auto.
  - intros c [?|?%list_elem_of_singleton]%elem_of_app; [by apply Hq|done].
  - intros c [?|(d & Hd & E)]%Hc; [by left|right]. exists d. split; [apply elem_of_app; by left|done].
  - etrans; [apply filter_length_le|done].
  - intros k [Hk Hne]%list_elem_of_In%filter_In. apply list_elem_of_In in Hk.
    apply negb_true_iff, Nat.eqb_neq in Hne. destruct (Ha k Hk) as [c Hkc]. exists c. by apply Hr.
  - destruct Hj as [?|Hj]; [done|]. intros k Hk. destruct (Ha k Hk) as [c Hkc]. exists c. by apply Hj.
Qed.

Lemma collect_step_inv s s' : collect_inv s -> collect_step s s' -> collect_inv s'.
Proof.
  intros HI E. destruct E as [c l Hlen E|Hlen E Hne|j c cs Hj Hcs|j c Hj|j c Hj].
  - by apply start_job_inv.
  - by apply take_new_inv.
  - destruct HI as [Hv Hs Hp Hq Hc Ho Hu Hn Hl Ha]. split; simpl; auto.
    + apply Forall_app. split; [done|]. apply Forall_map. eapply Forall_impl; [exact Hcs|].
      intros d Hd i [= <-]. done.
    + intros d. rewrite !elem_of_app. intros [Hd|Hd]; [left; by apply Hq|right].
      apply list_elem_of_fmap in Hd as (e & [= ->] & He). apply list_elem_of_fmap. by exists e.
    + intros d [[?|(e & He & <-)]%Hc|(e & -> & He)%list_elem_of_fmap]%elem_of_app; [by left|right..];
        exists e; (split; [apply elem_of_app|done]); [by left|right]. apply list_elem_of_fmap. by exists e.
    + intros x Hx. apply elem_of_app. left. by apply Ho.
  - replace s with {| candidates := candidates s; new_candidates := new_candidates s;
      active_jobs := active_jobs s; next_job_id := next_job_id s; running := running s;
      evaluated := evaluated s; pushed := pushed s |} by (by destruct s).
    apply on_finish_inv; [done|auto|auto].
  - apply on_finish_inv; [done| |].
    + intros x Hx Hne. apply list_elem_of_In, filter_In. split; [by apply list_elem_of_In|].
      by apply negb_true_iff, Nat.eqb_neq.
    + destruct (decide (j ∈ active_jobs s)) as [|Hnot]; [by left|right]. intros x Hx Hact.
      apply list_elem_of_In, filter_In. split; [by apply list_elem_of_In|].
      apply negb_true_iff, Nat.eqb_neq. intros <-. done.
Qed.

Lemma collect_run_inv first_candidates s :
  Forall valid_candidate first_candidates -> rtc collect_step (collect_init first_candidates) s -> collect_inv s.
Proof.
  intros Hv R. pose proof (collect_init_inv first_candidates Hv) as HI. revert HI.
  induction R; eauto using collect_step_inv.
Qed.

(** C36: contacts are told apart by their identifiers, or by their endpoints if they have
    none ([key]); a search evaluates one contact of each key it hears of: no two
    evaluated ones have the same key, every evaluated one was a first candidate or in a
    reply, and when the search ends, one with the key of each contact heard of has been
    evaluated (a known identifier at another endpoint is not evaluated again). At no time
    do more than eight jobs hold a slot; a job that was dismissed gives its slot up and
    may go on running. The search cannot get stuck: without running jobs it has ended or
    its loop can go on. *)
Theorem collect_evaluates_all (first_candidates : list Contact) s :
  Forall valid_candidate first_candidates ->
  rtc collect_step (collect_init first_candidates) s ->
  (length (active_jobs s) <= MAX_JOBS)%nat /\ NoDup (map key (evaluated s)) /\
  (forall c, c ∈ evaluated s -> c ∈ pushed s) /\
  (collect_done s -> forall c, c ∈ pushed s -> exists d, d ∈ evaluated s /\ key d = key c) /\
  (running s = [] -> collect_done s \/ exists s', collect_step s s').
Proof.
  intros Hv R. pose proof (collect_run_inv first_candidates s Hv R) as [Hval Hs Hp Hq Hc Ho Hu Hn Hl Ha].
  split_and!; [done|done| | |].
  - intros c Hce%Hu. by apply Ho in Hce.
  - intros (Hpick & _ & Hnew) c [([d p] & Hx & Ek)|(d & Hd & _)]%Hc.
    + pose proof (pick_candidate_None _ _ Hpick Hx) as Hpu. simpl in Hpu. subst p.
      exists d. split; [by apply Hu|done].
    + rewrite Hnew in Hd. by apply elem_of_nil in Hd.
  - intros Hrun. assert (active_jobs s = []) as Hact.
    { destruct (active_jobs s) as [|j js] eqn:E; [done|].
      destruct (Ha j) as [c Hjc]; [by left|]. rewrite Hrun in Hjc. by apply elem_of_nil in Hjc. }
    assert (length (active_jobs s) < MAX_JOBS)%nat as Hlt by (rewrite Hact; unfold MAX_JOBS; simpl; lia).
    destruct (pick_candidate (candidates s)) as [[c l]|] eqn:Epick; [right; eexists; by apply start_job|].
    destruct (new_candidates s) as [|q qs] eqn:Eq; [by left|].
    right. eexists. apply take_new; [done|done|]. by rewrite Eq.
Qed.

(** a job is started for the closest of the candidates known and unused,
    with the nodes that have no identifier last. *)
Theorem collect_picks_closest (first_candidates : list Contact) s c l d :
  Forall valid_candidate first_candidates ->
  rtc collect_step (collect_init first_candidates) s ->
  pick_candidate (candidates s) = Some (c, l) -> (d, unused) ∈ candidates s -> d = c \/ compare c d = true.
Proof.
  intros Hv R E Hd. destruct (collect_run_inv first_candidates s Hv R) as [Hval Hs _ _ _ _ _ _ _ _].
  destruct (pick_candidate_Some _ _ _ E) as (l1 & l2 & E1 & _ & Hu). rewrite E1 in Hs, Hd.
  apply elem_of_app in Hd as [Hd|[Hd|Hd]%elem_of_cons].
  - rewrite Forall_forall in Hu. by apply Hu in Hd.
  - left. by injection Hd.
  - right. clear -Hs Hd. unfold sorted in Hs. induction l1 as [|x l1 IH]; simpl in Hs;
      apply StronglySorted_inv in Hs as [Hs Hx]; [|by apply IH].
    rewrite Forall_forall in Hx. by apply (Hx (d, unused)).
Qed.

End Code.
End Collect.

(** ** The lookups *)

Module Lookups.
Import Collect.

Section Replies.
Variable kinds : address_class.

(** [read_nodes]: the nodes that are pushed to the search. *)
Definition read_nodes (v4 : bool) (response : BencodedMap) (peer_filter : PeerFilter) : list NodeContact :=
  let name := if v4 then str "nodes" else str "nodes6" in
  let nodes :=
    match map_find response name ≫= as_string with
    | Some s => match (if v4 then decode_compact_v4 s [] else decode_compact_v6 s []) with
                | Some (_, nodes) => nodes
                | None => []
                end
    | None => []
    end in
  List.filter (fun n => is_allowed kinds peer_filter (contact_endpoint n)) nodes.
End Replies.

(** What becomes of a reply to [get_peers]: [BadNodes] is the dereference of an
    empty optional. *)
Variant get_peers_result :=
| NoPeers
| BadNodes
| Peers (response : BencodedMap) (closer_nodes : list NodeContact).

(** [query_get_peers], given the reply to the query, if there is one, and what
    the [find_node] query that follows an empty list of nodes appends. *)
Definition query_get_peers (v4 : bool) (reply : option BencodedMap) (found : list NodeContact)
    : get_peers_result :=
  match reply with
  | None => NoPeers
  | Some reply =>
      if negb (bool_decide (as_string (arg reply (str "y")) = Some (str "r"))) then NoPeers
      else
        match as_map (arg reply (str "r")) with
        | None => NoPeers
        | Some response =>
            match as_string (arg response (if v4 then str "nodes" else str "nodes6")) with
            | None => BadNodes
            | Some nodes =>
                match (if v4 then decode_compact_v4 nodes [] else decode_compact_v6 nodes []) with
                | Some (true, []) => Peers response found
                | Some (true, closer_nodes) => Peers response closer_nodes
                | _ => NoPeers
                end
            end
        end
  end.

(** *** [tracker_do_search_peers] *)

Record ResponsibleNode := {
  node_endpoint : endpoint;
  node_peers : list endpoint;
  put_token : list byte;
}.

(** The check before a candidate is queried, common to all lookups. *)
Definition wants {V} (candidate : Contact) (m : ProximityMap) : bool :=
  match c_id candidate with
  | None => negb (@full V m)
  | Some i => would_insert i m
  end.

(** The endpoints among the values of a response. *)
Definition decode_peers (response : BencodedMap) : list endpoint :=
  match as_list (arg response (str "values")) with
  | None => []
  | Some l => omap (fun peer => as_string peer ≫= decode_endpoint) l
  end.

(** The evaluation of a candidate that has responded. *)
Definition search_response (candidate : Contact) (response : BencodedMap)
    (m : ProximityMap (Value := ResponsibleNode)) : ProximityMap :=
  match as_string (arg response (str "token")), c_id candidate with
  | Some announce_token, Some i =>
      ProximityMap.insert (i, {| node_endpoint := c_endpoint candidate;
                                 node_peers := decode_peers response;
                                 put_token := announce_token |}) m
  | _, _ => m
  end.

(** The responses in the order in which they come. *)
Definition search_peers (infohash : list byte) (responses : list (Contact * BencodedMap))
    : ProximityMap (Value := ResponsibleNode) :=
  fold_left (fun m r => search_response (fst r) (snd r) m) responses
    (new_map infohash RESPONSIBLE_TRACKERS_PER_SWARM).

(** The peers that are returned and the nodes to announce to. *)
Definition found_peers (m : ProximityMap (Value := ResponsibleNode)) : gset endpoint :=
  list_to_set (concat (map (fun e => node_peers (snd e)) (entries m))).
Definition announce_to (m : ProximityMap (Value := ResponsibleNode)) : gmap (list byte) (endpoint * list byte) :=
  list_to_map (map (fun e => (fst e, (node_endpoint (snd e), put_token (snd e)))) (entries m)).

(** *** [data_get_mutable] and [data_put_mutable] *)

Section Mutable.
Context `{SignatureScheme}.

(** The item in a response, for a key and a salt; [None]: there is none. *)
Definition item_of_response (pk salt_ : list byte) (response : BencodedMap) : option MutableDataItem :=
  if negb (bool_decide (as_string (arg response (str "k")) = Some pk)) then None
  else
    let? seq := as_int (arg response (str "seq")) in
    let? sig := as_string (arg response (str "sig")) in
    if negb (length sig =? Signature_size)%nat then None
    else Some {| public_key := pk; salt := salt_; value := arg response (str "v");
                 sequence_number := seq; signature := sig |}.

(** One response of [data_get_mutable]; the outer [None] is the exception of
    [verify]. *)
Definition get_mutable_response (pk salt_ : list byte) (data : option MutableDataItem)
    (response : BencodedMap) : option (option MutableDataItem) :=
  match item_of_response pk salt_ response with
  | None => Some data
  | Some item =>
      let? ok := verify item in
      Some (if ok then
              match data with
              | None => Some item
              | Some old => if sequence_number old <? sequence_number item then Some item else Some old
              end
            else data)
  end.

Fixpoint get_mutable_run (pk salt_ : list byte) (data : option MutableDataItem)
    (responses : list BencodedMap) : option (option MutableDataItem) :=
  match responses with
  | [] => Some data
  | r :: rs => let? data' := get_mutable_response pk salt_ data r in get_mutable_run pk salt_ data' rs
  end.

End Mutable.

(** [send_write_query]: the outcomes of the attempts; any reply ends it, an error
    reply too. *)
Definition TRIES : nat := 3.
Definition send_write_query (replies : nat -> option BencodedMap) : bool :=
  existsb (fun i => bool_decide (is_Some (replies i))) (seq 0 TRIES).

(** The state of [data_put_mutable]. *)
Record putting := {
  responsible_nodes : ProximityMap (Value := unit);
  blacklist : gset endpoint;
}.

Definition put_init (target_id : list byte) : putting :=
  {| responsible_nodes := new_map target_id RESPONSIBLE_TRACKERS_PER_SWARM; blacklist := ∅ |}.

(** Whether a candidate is queried. *)
Definition put_wants (candidate : Contact) (s : putting) : bool :=
  wants candidate (responsible_nodes s) && negb (bool_decide (c_endpoint candidate ∈ blacklist s)).

(** Up to the first write: it is made if the candidate has a token to give, an
    identifier, and would be inserted. *)
Definition put_response (candidate : Contact) (response : option BencodedMap) (s : putting)
    : putting * option (list byte * list byte) :=
  match response with
  | None => ({| responsible_nodes := responsible_nodes s;
                blacklist := {[c_endpoint candidate]} ∪ blacklist s |}, None)
  | Some response =>
      match as_string (arg response (str "token")), c_id candidate with
      | Some token, Some i => (s, if would_insert i (responsible_nodes s) then Some (i, token) else None)
      | _, _ => (s, None)
      end
  end.

(** After the first write to the node [i]. *)
Definition put_written (i : list byte) (write_success : bool) (s : putting) : putting :=
  if negb write_success
  then {| responsible_nodes := ProximityMap.insert (i, tt) (responsible_nodes s); blacklist := blacklist s |}
  else s.

(** The steps of the concurrent evaluations, in the order in which they happen. *)
Inductive put_event :=
| PutResponse (candidate : Contact) (response : option BencodedMap)
| PutWritten (i : list byte) (write_success : bool).

Definition put_step (s : putting) (e : put_event) : putting :=
  match e with
  | PutResponse candidate response => fst (put_response candidate response s)
  | PutWritten i ok => put_written i ok s
  end.

(** The result: [true] is success, [false] is [network_down]. *)
Definition data_put_mutable (target_id : list byte) (es : list put_event) : bool :=
  negb (bool_decide (entries (responsible_nodes (fold_left put_step es (put_init target_id))) = [])).

(** ** Properties of the lookups *)

(** The nodes that a reply to [get] or [find_node] adds to a search pass the peer
    filter, and their identifiers are those [job_pushes] asks for. *)
Lemma read_nodes_valid kinds v4 response f :
  Forall (fun c => valid_id (id c) /\ is_allowed kinds f (contact_endpoint c) = true)
    (read_nodes kinds v4 response f).
Proof.
  apply Forall_forall. intros c Hc. unfold read_nodes in Hc.
  apply list_elem_of_In, filter_In in Hc as [Hc Ha]. split; [|done].
  apply list_elem_of_In in Hc. destruct (_ ≫= as_string) as [s|]; [|by apply elem_of_nil in Hc].
  destruct (if v4 then decode_compact_v4 s [] else decode_compact_v6 s []) as [[b nodes]|] eqn:E;
    [|by apply elem_of_nil in Hc].
  assert (Forall valid_contact nodes) as Hn by (destruct v4; by eapply decode_compact_valid).
  rewrite Forall_forall in Hn. by apply Hn.
Qed.

(** What a response contributes to a search for peers. *)
Definition contribution (r : Contact * BencodedMap) : option (list byte * ResponsibleNode) :=
  match as_string (arg (snd r) (str "token")), c_id (fst r) with
  | Some token, Some i =>
      Some (i, {| node_endpoint := c_endpoint (fst r); node_peers := decode_peers (snd r); put_token := token |})
  | _, _ => None
  end.

Lemma search_peers_insert infohash responses :
  search_peers infohash responses =
  insert_all (omap contribution responses) (new_map infohash RESPONSIBLE_TRACKERS_PER_SWARM).
Proof.
  unfold search_peers. generalize (new_map (Value := ResponsibleNode) infohash RESPONSIBLE_TRACKERS_PER_SWARM).
  induction responses as [|r rs IH]; intros m; [done|]. simpl. rewrite IH.
  unfold search_response, contribution. by destruct (as_string _), (c_id (fst r)).
Qed.

Lemma contribution_key r i node : contribution r = Some (i, node) -> key (fst r) = inl i.
Proof.
  unfold contribution, key. destruct (as_string _); [|done]. destruct (c_id (fst r)); [|done].
  by intros [= <- _].
Qed.

Lemma contributions_NoDup responses :
  NoDup (map (fun r => key (fst r)) responses) -> NoDup (map fst (omap contribution responses)).
Proof.
  induction responses as [|r rs IH]; simpl; [constructor|]. intros [Hr Hrs]%NoDup_cons.
  destruct (contribution r) as [[i node]|] eqn:E; [|by apply IH]. simpl. constructor; [|by apply IH].
  intros Hi. apply Hr. apply list_elem_of_fmap in Hi as ([j node'] & -> & Hj).
  apply list_elem_of_omap in Hj as (r' & Hr' & E'). apply list_elem_of_fmap. exists r'. split; [|done].
  apply contribution_key in E, E'. simpl in *. congruence.
Qed.

(** C37: a search for peers, given the responses of different nodes in any order,
    returns exactly the peers named by the eight closest of the nodes with an
    identifier that responded, and announces to these: a node it leaves out is farther
    than each of them. A response without a token counts with an empty one; only one
    whose token is not a string does not count. *)
Theorem search_finds_closest (infohash : list byte) (responses : list (Contact * BencodedMap)) :
  valid_id infohash -> Forall (fun r => valid_candidate (fst r)) responses ->
  NoDup (map (fun r => key (fst r)) responses) ->
  let m := search_peers infohash responses in
  let given := omap contribution responses in
  (forall r i, r ∈ responses -> c_id (fst r) = Some i ->
     (exists node, contribution r = Some (i, node)) <->
     match map_find (snd r) (str "token") with Some v => is_Some (as_string v) | None => True end) /\
  length (entries m) = Nat.min 8 (length given) /\ entries m ⊆+ given /\
  (forall x y, x ∈ entries m -> y ∈ given -> y ∉ entries m -> closer_to infohash (fst x) (fst y) = true) /\
  (forall ep, ep ∈ found_peers m <-> exists i node, (i, node) ∈ entries m /\ ep ∈ node_peers node) /\
  (forall i ep token, announce_to m !! i = Some (ep, token) <->
     exists node, (i, node) ∈ entries m /\ ep = node_endpoint node /\ token = put_token node).
Proof.
  intros Hh Hv Hnd m given. assert (NoDup (map fst given)) as Hg by (by apply contributions_NoDup).
  assert (Forall (fun x => valid_id (fst x)) given) as Hgv.
  { apply Forall_forall. intros [i node] (r & Hr & E)%list_elem_of_omap. simpl.
    pose proof (proj1 (Forall_forall _ _) Hv r Hr) as Hr'. simpl in Hr'. apply contribution_key in E. unfold key in E.
    destruct (c_id (fst r)) as [j|] eqn:Ej; [|done]. injection E as <-. by apply Hr'. }
  assert (m = insert_all given (new_map infohash 8)) as Em by apply search_peers_insert.
  destruct (proximity_map_keeps_closest infohash 8 given Hh Hgv Hg) as (_ & H2 & H3 & _ & H5).
  rewrite <-Em in H2, H3, H5. split_and!; [|done..| |].
  - intros r i _ Ei. unfold contribution, arg. rewrite Ei. destruct (map_find (snd r) (str "token")) as [v|]; cbn [from_option Datatypes.id].
    + destruct (as_string v) as [token|]; [split; [by eexists|by eexists]|].
      split; [by intros [node E]|by intros [x E]].
    + split; [done|by eexists].
  - intros ep. unfold found_peers. rewrite elem_of_list_to_set, list_elem_of_In, in_concat.
    setoid_rewrite in_map_iff. setoid_rewrite <-list_elem_of_In. split.
    + intros (l & ([i node] & <- & Hin) & Hep). by exists i, node.
    + intros (i & node & Hin & Hep). exists (node_peers node). split; [|done]. by exists (i, node).
  - intros i ep token. unfold announce_to. rewrite <-elem_of_list_to_map.
    + rewrite list_elem_of_fmap. split.
      * intros ([j node] & [= -> -> ->] & Hin). by exists node.
      * intros (node & Hin & -> & ->). by exists (i, node).
    + rewrite <-list_fmap_compose. eapply submseteq_NoDup_l; [|exact Hg].
      by apply (fmap_submseteq fst).
Qed.

(** *** Mutable items *)

Section MutableProperties.
Context `{SignatureScheme}.

(** The responses that hold an item with a valid signature. *)
Definition valid_item (pk salt_ : list byte) (response : BencodedMap) : option MutableDataItem :=
  let? item := item_of_response pk salt_ response in
  if bool_decide (verify item = Some true) then Some item else None.

(** The newer of two items, the first one if they have the same number. *)
Definition newer (a b : option MutableDataItem) : option MutableDataItem :=
  match a, b with
  | Some x, Some y => if sequence_number x <? sequence_number y then Some y else Some x
  | None, y => y
  | x, None => x
  end.

Definition newest_of (data : option MutableDataItem) (items : list (option MutableDataItem)) :=
  fold_left newer items data.

Definition small_value (response : BencodedMap) : Prop :=
  (length (bencoding_encode (arg response (str "v"))) <= 1000)%nat.

Lemma item_value pk salt_ response item :
  item_of_response pk salt_ response = Some item ->
  value item = arg response (str "v") /\ public_key item = pk /\ salt item = salt_.
Proof. unfold item_of_response. intros. repeat case_match; by simplify_eq/=. Qed.

Lemma verify_total item :
  (length (bencoding_encode (value item)) <= 1000)%nat -> is_Some (verify item).
Proof.
  intros Hl. unfold verify. pose proof (buffer_length (value item) (salt item) (sequence_number item)) as Hb.
  destruct (Nat.leb_spec (length (bencoding_encode (value item))) 1000); [|lia].
  destruct Hb as [b ->]. by eexists.
Qed.

Lemma get_mutable_response_newer pk salt_ data response :
  small_value response ->
  get_mutable_response pk salt_ data response = Some (newer data (valid_item pk salt_ response)).
Proof.
  intros Hs. unfold get_mutable_response, valid_item.
  destruct (item_of_response pk salt_ response) as [item|] eqn:E; [|by destruct data].
  destruct (item_value _ _ _ _ E) as (Ev & _). unfold small_value in Hs. rewrite <-Ev in Hs.
  destruct (verify_total item Hs) as [ok Eok]. rewrite Eok.
  destruct ok; case_bool_decide; simplify_eq; destruct data; done.
Qed.

Lemma newest_of_max items : forall data,
  match newest_of data items with
  | None => data = None /\ Forall (fun i => i = None) items
  | Some item => (data = Some item \/ Some item ∈ items) /\
      (forall i, Some i ∈ data :: items -> sequence_number i <= sequence_number item)
  end.
Proof.
  induction items as [|x items IH]; intros data; simpl.
  - destruct data as [item|]; [|by split]. split; [by left|]. intros i Hi.
    apply list_elem_of_singleton in Hi as [= ->]. lia.
  - specialize (IH (newer data x)). destruct (newest_of (newer data x) items) as [item|].
    + destruct IH as [H1 H2]. split.
      * destruct H1 as [H1|H1]; [|right; by right]. unfold newer in H1.
        destruct data as [d|], x as [y|]; try destruct (sequence_number d <? sequence_number y); simplify_eq;
          auto; right; by left.
      * assert (forall i, newer data x = Some i -> sequence_number i <= sequence_number item) as Hn.
        { intros i Hi. apply H2. rewrite <-Hi. by left. }
        intros i [Hi|[Hi|Hi]%elem_of_cons]%elem_of_cons; [| |apply H2; by right];
          subst; unfold newer in Hn; [destruct x as [y|]|destruct data as [d|]]; try (by apply Hn).
        -- destruct (Z.ltb_spec (sequence_number i) (sequence_number y)); [|by apply Hn].
           specialize (Hn y eq_refl). lia.
        -- destruct (Z.ltb_spec (sequence_number d) (sequence_number i)); [by apply Hn|].
           specialize (Hn d eq_refl). lia.
    + destruct IH as [H1 H2]. unfold newer in H1.
      destruct data as [d|], x as [y|]; try destruct (sequence_number d <? sequence_number y); simplify_eq.
      split; [done|by constructor].
Qed.

(** a search for a mutable item that is not ended early returns, for
    responses with values of at most 1000 bytes, an item of the key and the salt
    with a valid signature whose sequence number is the largest of all valid
    items in the responses, and nothing only if there is none. *)
Theorem get_mutable_newest pk salt_ (responses : list BencodedMap) :
  Forall small_value responses ->
  match get_mutable_run pk salt_ None responses with
  | Some (Some item) =>
      verify item = Some true /\ public_key item = pk /\ salt item = salt_ /\
      (exists r, r ∈ responses /\ valid_item pk salt_ r = Some item) /\
      (forall r i, r ∈ responses -> valid_item pk salt_ r = Some i -> sequence_number i <= sequence_number item)
  | Some None => forall r, r ∈ responses -> valid_item pk salt_ r = None
  | None => False
  end.
Proof.
  intros Hs. assert (forall data, get_mutable_run pk salt_ data responses =
    Some (newest_of data (map (valid_item pk salt_) responses))) as E.
  { induction Hs as [|r rs Hr Hrs IH]; intros data; [done|]. cbn [get_mutable_run map].
    rewrite get_mutable_response_newer by done. apply IH. }
  rewrite E. pose proof (newest_of_max (map (valid_item pk salt_) responses) None) as Hm.
  destruct (newest_of None _) as [item|].
  - destruct Hm as [[?|Hin] Hmax]; [done|]. apply list_elem_of_fmap in Hin as (r & Er & Hr). symmetry in Er.
    pose proof Er as Er'. unfold valid_item in Er'.
    destruct (item_of_response pk salt_ r) as [i|] eqn:Ei; [|done]. case_bool_decide; simplify_eq.
    destruct (item_value _ _ _ _ Ei) as (_ & ? & ?). split_and!; [done..|by exists r|].
    intros r' i' Hr' Ei'. apply Hmax. right. rewrite <-Ei'. apply list_elem_of_fmap. by exists r'.
  - intros r Hr. destruct Hm as [_ Hm]. rewrite Forall_forall in Hm. apply Hm.
    apply list_elem_of_fmap. by exists r.
Qed.

End MutableProperties.

(** *** The result of a put *)

Lemma parent_insert_nonempty p (v : list byte * unit) l : parent_insert p v l <> [].
Proof. destruct l; simpl; [done|]. by repeat case_match. Qed.

Lemma put_step_nonempty s e :
  _max_size (responsible_nodes s) = 8%nat ->
  _max_size (responsible_nodes (put_step s e)) = 8%nat /\
  (entries (responsible_nodes (put_step s e)) = [] <->
   entries (responsible_nodes s) = [] /\ forall i, e <> PutWritten i false).
Proof.
  intros Hm. destruct e as [c r|i ok]; simpl.
  - assert (responsible_nodes (fst (put_response c r s)) = responsible_nodes s) as ->
      by (unfold put_response; by repeat case_match).
    naive_solver.
  - unfold put_written. destruct ok; simpl; [naive_solver|].
    destruct (insert_fields (i, tt) (responsible_nodes s)) as [_ ->]. split; [done|].
    split; [|naive_solver]. unfold ProximityMap.insert, full, last_entry. rewrite Hm. simpl Nat.eqb. cbn iota.
    destruct (negb _) eqn:Ef; [by intros ?%parent_insert_nonempty|].
    destruct (last (entries (responsible_nodes s))) as [x|] eqn:El.
    + destruct (closer_to _ _ _); [|by intros ?%parent_insert_nonempty].
      intros E. by rewrite E in El.
    + apply last_None in El. rewrite El in Ef. done.
Qed.

(** [data_put_mutable] reports the opposite of what happened: it succeeds
    exactly if a write to some node has failed, because only then a node is
    recorded as responsible; if every write succeeds it reports
    [network_down]. *)
Theorem put_succeeds_iff_write_failed (target_id : list byte) (es : list put_event) :
  data_put_mutable target_id es = true <-> exists i, PutWritten i false ∈ es.
Proof.
  unfold data_put_mutable. rewrite negb_true_iff, bool_decide_eq_false.
  assert (forall s, _max_size (responsible_nodes s) = 8%nat ->
    entries (responsible_nodes (fold_left put_step es s)) = [] <->
    entries (responsible_nodes s) = [] /\ forall i, PutWritten i false ∉ es) as Hgen.
  { induction es as [|e es IH]; intros s Hm; simpl.
    - split; [|naive_solver]. intros Hs. split; [done|]. by intros i ?%elem_of_nil.
    - destruct (put_step_nonempty s e Hm) as [Hm' Hs]. rewrite IH by done. rewrite Hs.
      setoid_rewrite not_elem_of_cons. naive_solver. }
  rewrite Hgen by done. split.
  - intros Hn. destruct (existsb (fun e => match e with PutWritten _ false => true | _ => false end) es) eqn:Hex.
    + apply existsb_exists in Hex as ([c r|i []] & He & Hf); try done. exists i. by apply list_elem_of_In.
    + destruct Hn. split; [done|]. intros i Hi%list_elem_of_In. apply not_true_iff_false in Hex. apply Hex.
      apply existsb_exists. by exists (PutWritten i false).
  - intros [i Hi] [_ Hno]. by apply (Hno i).
Qed.

End Lookups.

(** ** Witnesses *)

Module Examples.
Import Collect Lookups.

(** An order of endpoints: by family, address and port. *)
Definition address_lt (a b : ip_address) : bool :=
  match a, b with
  | IPv4 x, IPv4 y | IPv6 x, IPv6 y => lex_ltb x y
  | IPv4 _, IPv6 _ => true
  | IPv6 _, IPv4 _ => false
  end.

Definition ep_lt (e f : endpoint) : bool :=
  address_lt (address e) (address f) ||
  (bool_decide (address e = address f) && (port e <? port f)).

Lemma address_lt_irrefl a : address_lt a a = false.
Proof. destruct a; apply lex_ltb_irrefl. Qed.

Lemma address_lt_trans a b c : address_lt a b = true -> address_lt b c = true -> address_lt a c = true.
Proof. destruct a, b, c; try done; apply lex_ltb_trans. Qed.

Lemma ep_lt_irrefl e : ep_lt e e = false.
Proof. unfold ep_lt. by rewrite address_lt_irrefl, Z.ltb_irrefl, andb_false_r. Qed.

Lemma ep_lt_trans a b c : ep_lt a b = true -> ep_lt b c = true -> ep_lt a c = true.
Proof.
  unfold ep_lt. rewrite !orb_true_iff, !andb_true_iff, !bool_decide_eq_true, !Z.ltb_lt.
  intros [H1|[E1 H1]] [H2|[E2 H2]].
  - left. by eapply address_lt_trans.
  - left. congruence.
  - left. congruence.
  - right. split; [congruence|lia].
Qed.

Lemma ep_lt_total a b : ep_lt a b = false -> ep_lt b a = false -> a = b.
Proof.
  unfold ep_lt. rewrite !orb_false_iff, !andb_false_iff, !bool_decide_eq_false, !Z.ltb_ge.
  intros [H1 K1] [H2 K2]. assert (address a = address b) as E.
  { destruct (address a), (address b); try done; f_equal; by apply lex_ltb_total. }
  destruct K1 as [?|K1], K2 as [?|K2]; try congruence.
  destruct a, b; simpl in *. f_equal; [done|lia].
Qed.

Definition node (b : byte) : NodeContact :=
  {| id := replicate 20 b; contact_endpoint := {| address := IPv4 (str "1234"); port := 1000 |} |}.

(** One candidate; its job finds a closer one and returns, which is evaluated in turn. *)
Definition first := [of_node (node Byte.x02)].

Definition s1 : collecting :=
  {| candidates := [(of_node (node Byte.x02), used)]; new_candidates := [Some (node Byte.x01)];
     active_jobs := [O]; next_job_id := 1; running := [(O, of_node (node Byte.x02))];
     evaluated := [of_node (node Byte.x02)]; pushed := [of_node (node Byte.x02); of_node (node Byte.x01)] |}.
Definition s2 : collecting :=
  {| candidates := [(of_node (node Byte.x01), unused); (of_node (node Byte.x02), used)]; new_candidates := [];
     active_jobs := []; next_job_id := 1; running := []; evaluated := [of_node (node Byte.x02)];
     pushed := [of_node (node Byte.x02); of_node (node Byte.x01)] |}.

#[local] Abbreviation step := (collect_step ep_lt NodeID_zero).

Lemma reach_s2 : rtc step (collect_init ep_lt NodeID_zero first) s2.
Proof.
  eapply rtc_l; [eapply start_job; [unfold MAX_JOBS; simpl; lia|reflexivity]|].
  eapply rtc_l; [eapply (job_pushes _ _ _ O _ [node Byte.x01]); [by left|by repeat constructor]|].
  eapply rtc_l; [eapply (job_returns _ _ _ O); by left|].
  eapply rtc_l; [eapply take_new; [unfold MAX_JOBS; simpl; lia|reflexivity|discriminate]|].
  apply rtc_refl.
Qed.

Definition s3 : collecting :=
  {| candidates := [(of_node (node Byte.x01), used); (of_node (node Byte.x02), used)]; new_candidates := [];
     active_jobs := []; next_job_id := 2; running := [];
     evaluated := [of_node (node Byte.x02); of_node (node Byte.x01)];
     pushed := [of_node (node Byte.x02); of_node (node Byte.x01)] |}.

Lemma reach_s3 : rtc step (collect_init ep_lt NodeID_zero first) s3.
Proof.
  etrans; [exact reach_s2|].
  eapply rtc_l; [eapply start_job; [unfold MAX_JOBS; simpl; lia|reflexivity]|].
  eapply rtc_l; [eapply (job_returns _ _ _ 1%nat); by left|].
  eapply rtc_l; [eapply take_new; [unfold MAX_JOBS; simpl; lia|reflexivity|discriminate]|].
  apply rtc_refl.
Qed.

Lemma first_valid : Forall valid_candidate first.
Proof. repeat constructor. intros i [= <-]. reflexivity. Qed.

Lemma collect_evaluates_all_witness :
  exists d, d ∈ evaluated s3 /\ key d = inl (replicate 20 Byte.x01).
Proof.
  destruct (collect_evaluates_all ep_lt NodeID_zero ep_lt_irrefl ep_lt_trans ep_lt_total eq_refl
    first s3 first_valid reach_s3) as (_ & _ & _ & Hd & _).
  apply (Hd ltac:(split_and!; reflexivity) (of_node (node Byte.x01))). right. left.
Defined.

Lemma collect_picks_closest_witness :
  of_node (node Byte.x01) = of_node (node Byte.x01) \/
  compare ep_lt NodeID_zero (of_node (node Byte.x01)) (of_node (node Byte.x01)) = true.
Proof.
  apply (collect_picks_closest ep_lt NodeID_zero ep_lt_irrefl ep_lt_trans ep_lt_total eq_refl
    first s2 (of_node (node Byte.x01)) (candidates s3)); [exact first_valid|exact reach_s2|reflexivity|].
  left.
Defined.

Definition response (token : String.string) : BencodedMap :=
  [(str "token", BStr (str token)); (str "values", BList [BStr (str "abcd12"); BInt 3])].

Lemma search_finds_closest_witness :
  {| address := IPv4 (str "abcd"); port := 12594 |} ∈ found_peers (search_peers NodeID_zero
    [(of_node (node Byte.x02), response "t2"); (of_node (node Byte.x01), response "t1")]).
Proof.
  destruct (search_finds_closest NodeID_zero
    [(of_node (node Byte.x02), response "t2"); (of_node (node Byte.x01), response "t1")])
    as (_ & _ & _ & _ & Hp & _).
  - reflexivity.
  - repeat constructor; intros i [= <-]; reflexivity.
  - refine (bool_decide_unpack _ _). vm_compute. exact I.
  - apply Hp. exists (replicate 20 Byte.x01). eexists. split; [vm_compute; left|]. left.
Defined.

#[local] Existing Instance toy_scheme.

Definition signed_response (seq : Z) : BencodedMap :=
  match sign (BInt seq) seq [] [] with
  | Some i => [(str "k", BStr (public_key i)); (str "seq", BInt (sequence_number i));
               (str "sig", BStr (signature i)); (str "v", value i)]
  | None => []
  end.

Lemma get_mutable_newest_witness :
  exists item, get_mutable_run (pad PublicKey_size []) [] None [signed_response 4; signed_response 9; [];
    signed_response 6] = Some (Some item) /\ verify item = Some true /\ 9 <= sequence_number item.
Proof.
  pose proof (get_mutable_newest (pad PublicKey_size []) []
    [signed_response 4; signed_response 9; []; signed_response 6]) as Hn.
  destruct (get_mutable_run _ _ _ _) as [[item|]|] eqn:E; [|exfalso; vm_compute in E; discriminate..].
  destruct Hn as (Hv & _ & _ & _ & Hmax).
  - unfold small_value. repeat constructor; apply Nat.leb_le; vm_compute; reflexivity.
  - exists item. split; [reflexivity|]. split; [exact Hv|].
    destruct (valid_item (pad PublicKey_size []) [] (signed_response 9)) as [i|] eqn:Ei;
      [|exfalso; vm_compute in Ei; discriminate].
    assert (sequence_number i = 9) as <- by (vm_compute in Ei; by injection Ei as <-).
    apply (Hmax (signed_response 9) i); [right; left|exact Ei].
Defined.

End Examples.
