(* ===== verification/HttpSign.v ===== *)
(** * Signed response heads: src/cache/http_sign.cpp, http_sign.h, signed_head.cpp and signed_head.h

    The injector signs the head of a response (draft-cavage HTTP signatures): the
    signature covers the lower-case header names with their flattened values.  The
    client keeps only the headers that a good signature covers.

    Base64 and Beast's handling of the [Transfer-Encoding] value are classes with
    their documented behaviour; Ed25519 is the interface of Crypto. *)
From S2P Require Import Prelude Number SplitString Url Http Crypto HashList.

(** [util::base64_encode] and [util::base64_decode<Array>], by the size of the array. *)
Class Base64 := {
  base64_encode : list byte -> list byte;
  base64_decode : nat -> list byte -> option (list byte);
}.

Definition is_base64_char (c : byte) : bool :=
  is_digit c || ((65 <=? code c) && (code c <=? 90)) || ((97 <=? code c) && (code c <=? 122))
  || (code c =? 43) || (code c =? 47) || (code c =? 61).

Class Base64Laws (B : Base64) : Prop := {
  base64_decode_encode s : base64_decode (length s) (base64_encode s) = Some s;
  base64_text s : forallb is_base64_char (base64_encode s) = true;
  base64_nonempty s : s <> [] -> base64_encode s <> [];
  base64_decode_size n s out : base64_decode n s = Some out -> length out = n;
}.

(** [set_chunked_impl] of Beast's fields, on the value of [Transfer-Encoding]. *)
Class TransferCoding := {
  last_is_chunked : list byte -> bool;
  drop_chunked : list byte -> list byte;
}.

Class TransferCodingLaws (T : TransferCoding) : Prop := {
  chunked_is_last te : iequals te (str "chunked") = true -> last_is_chunked te = true;
  chunked_dropped te : iequals te (str "chunked") = true -> drop_chunked te = [];
}.

(** ** Names *)

Definition response_signature_hdr_pfx : list byte := header_prefix ++ str "Sig".
Definition response_data_size_hdr : list byte := header_prefix ++ str "Data-Size".
Definition response_original_http_status : list byte := header_prefix ++ str "HTTP-Status".
Definition response_block_signatures_hdr : list byte := header_prefix ++ str "BSigs".
Definition response_uri_hdr : list byte := header_prefix ++ str "URI".
Definition response_data_block : Z := 65536.
Definition response_data_block_max : Z := 1024 * 1024.
Definition sig_alg_hs2019 : list byte := str "hs2019".
Definition initial_signature_hdr : list byte := response_signature_hdr_pfx ++ str "0".
Definition final_signature_hdr : list byte := response_signature_hdr_pfx ++ str "1".
Definition key_id_pfx : list byte := str "ed25519=".

(** [response_signature_hdr_rx]: the prefix in any case and digits. *)
Definition is_signature_hdr (name : list byte) : bool :=
  let n := length response_signature_hdr_pfx in
  iequals (take n name) response_signature_hdr_pfx
  && negb (bool_decide (drop n name = [])) && forallb is_digit (drop n name).

(** The quote, the separator of flattened values. *)
Definition quote : byte := Byte.x22.
Definition quoted (s : list byte) : list byte := [quote] ++ s ++ [quote].
Definition comma_space : list byte := str ", ".

(** ** Parsing a signature *)

(** [quotes_seen] counts the quotes before a comma. *)
Fixpoint comma_loop (quotes_seen : Z) (s : list byte) : bool :=
  match s with
  | [] => false
  | c :: s' =>
      if bool_decide (c = quote) then comma_loop (quotes_seen + 1) s'
      else if bool_decide (c = ","%byte) && negb (quotes_seen mod 2 =? 0) then true
      else comma_loop quotes_seen s'
  end.

Definition has_comma_in_quotes (s : list byte) : bool := comma_loop 0 s.

Record HttpSignature := {
  keyId : string_view;
  algorithm : string_view;
  created : string_view;
  expires : string_view;
  headers : string_view;
  signature : string_view;
}.

(** The test of quoted values and the removal of the quotes. *)
Definition unquote (value : string_view) : option string_view :=
  let s := chars value in
  if (length s <? 2)%nat || negb (bool_decide (head s = Some quote)) || negb (bool_decide (list.last s = Some quote))
  then None
  else Some (substr_to (length s - 2) (substr_from 1 value)).

Definition empty_signature : HttpSignature :=
  {| keyId := view_of []; algorithm := view_of []; created := view_of []; expires := view_of [];
     headers := view_of (str "(created)"); signature := view_of [] |}.

(** Assignments to the members. *)
Definition set_keyId (v : string_view) (hs : HttpSignature) : HttpSignature :=
  {| keyId := v; algorithm := algorithm hs; created := created hs;
     expires := expires hs; headers := headers hs; signature := signature hs |}.
Definition set_algorithm (v : string_view) (hs : HttpSignature) : HttpSignature :=
  {| keyId := keyId hs; algorithm := v; created := created hs;
     expires := expires hs; headers := headers hs; signature := signature hs |}.
Definition set_created (v : string_view) (hs : HttpSignature) : HttpSignature :=
  {| keyId := keyId hs; algorithm := algorithm hs; created := v;
     expires := expires hs; headers := headers hs; signature := signature hs |}.
Definition set_expires (v : string_view) (hs : HttpSignature) : HttpSignature :=
  {| keyId := keyId hs; algorithm := algorithm hs; created := created hs;
     expires := v; headers := headers hs; signature := signature hs |}.
Definition set_headers (v : string_view) (hs : HttpSignature) : HttpSignature :=
  {| keyId := keyId hs; algorithm := algorithm hs; created := created hs;
     expires := expires hs; headers := v; signature := signature hs |}.
Definition set_signature (v : string_view) (hs : HttpSignature) : HttpSignature :=
  {| keyId := keyId hs; algorithm := algorithm hs; created := created hs;
     expires := expires hs; headers := headers hs; signature := v |}.

(** One item of the list; [None] is the early return. *)
Definition parse_item (hs : HttpSignature) (item : string_view) : option HttpSignature :=
  let '(key, value) := split_string_pair item "="%byte in
  let named name := bool_decide (chars key = str name) in
  if named "created" then Some (set_created value hs)
  else if named "expires" then Some (set_expires value hs)
  else
    let? value := unquote value in
    if named "keyId" then Some (set_keyId value hs)
    else if named "algorithm" then Some (set_algorithm value hs)
    else if named "headers" then Some (set_headers value hs)
    else if named "signature" then Some (set_signature value hs)
    else None.

Fixpoint parse_items (hs : HttpSignature) (items : list string_view) : option HttpSignature :=
  match items with
  | [] => Some hs
  | item :: items' => let? hs := parse_item hs item in parse_items hs items'
  end.

Definition HttpSignature_parse (sig : string_view) : option HttpSignature :=
  if has_comma_in_quotes (chars sig) then None
  else
    let? hs := parse_items empty_signature (SplitString sig ","%byte) in
    if bool_decide (chars (keyId hs) = []) || bool_decide (chars (signature hs) = []) then None
    else Some hs.

(** ** The head that is signed *)

Definition trimmed_value (value : list byte) : list byte := chars (trim_whitespace (field_view value)).

(** The loop of [prep_sig_head]: [hdr_sorted] and [hdr_values]. *)
Definition prep_step (st : list (list byte) * gmap (list byte) (list byte)) (hdr : list byte * list byte)
    : list (list byte) * gmap (list byte) (list byte) :=
  let '(hdr_sorted, hdr_values) := st in
  let name := lower_str (fst hdr) in
  let value_v := trimmed_value (snd hdr) in
  match hdr_values !! name with
  | None => (hdr_sorted ++ [name], <[name := value_v]> hdr_values)
  | Some v => (hdr_sorted, <[name := v ++ comma_space ++ value_v]> hdr_values)
  end.

Definition prep_sig_head (inh outh : fields) : fields :=
  let '(hdr_sorted, hdr_values) := foldl prep_step ([], ∅) inh in
  foldl (fun o name => set_field name (default [] (hdr_values !! name)) o) outh hdr_sorted.

(** The overloads for responses. *)
Definition request_target_ph (rsh : response_header) : list byte := [].
Definition response_status_ph (rsh : response_header) : list byte := to_string (result rsh).

Definition flatten_step (ret : list byte) (f : list byte * list byte) : list byte :=
  let ret := if bool_decide (ret = []) then ret else ret ++ comma_space in
  ret ++ trimmed_value (snd f).

Definition flatten_header_values (inh : fields) (hn : list byte) : option (list byte) :=
  match List.filter (same_name hn) inh with
  | [] => None
  | fs => Some (foldl flatten_step [] fs)
  end.

(** [hn[0]], which for an empty view is the byte behind it. *)
Definition first_char (v : string_view) : option byte := head (chars v ++ behind v).

(** The header [vh.set] for one name of the signature's list. *)
Definition verification_value (inh : response_header) (hsig : HttpSignature) (hn : string_view)
    : option (list byte) :=
  let named name := bool_decide (chars hn = str name) in
  if negb (bool_decide (first_char hn = Some "("%byte)) then flatten_header_values (rs_fields inh) (chars hn)
  else if named "(request-target)" then
    let hv := request_target_ph inh in if bool_decide (hv = []) then None else Some hv
  else if named "(response-status)" then
    let hv := response_status_ph inh in if bool_decide (hv = []) then None else Some hv
  else if named "(created)" then Some (chars (created hsig))
  else if named "(expires)" then Some (chars (expires hsig))
  else None.

Fixpoint verification_loop (inh : response_header) (hsig : HttpSignature) (vh : fields) (hns : list string_view)
    : option fields :=
  match hns with
  | [] => Some vh
  | hn :: hns' =>
      let? hv := verification_value inh hsig hn in
      verification_loop inh hsig (set_field (chars hn) hv vh) hns'
  end.

Definition verification_head (inh : response_header) (hsig : HttpSignature) : option fields :=
  verification_loop inh hsig [] (SplitString (headers hsig) " "%byte).

(** The loop of [get_sig_str_hdrs]: [sig_string], [headers] and [ins_sep]. *)
Definition sig_str_step (st : list byte * list byte * bool) (hdr : list byte * list byte)
    : list byte * list byte * bool :=
  let '(sig_string, headers, ins_sep) := st in
  let '(name, value) := hdr in
  ((if ins_sep then sig_string ++ [newline] else sig_string) ++ name ++ str ": " ++ value,
   (if ins_sep then headers ++ str " " else headers) ++ name, true).

Definition get_sig_str_hdrs (sig_head : fields) : list byte * list byte :=
  let '(sig_string, headers, _) := foldl sig_str_step ([], [], false) sig_head in (sig_string, headers).

(** A value, or the read of an object that was not initialised. *)
Variant reading (A : Type) := Value (a : A) | Indeterminate.
Arguments Value {A} a.
Arguments Indeterminate {A}.

(** [SignedHead::BlockSigs] *)
Record BlockSigs := { bs_pk : list byte; bs_algorithm : string_view; bs_size : Z }.

(** [SignedHead]: the head and what is parsed from it. *)
Record SignedHead := {
  sh_head : response_header;
  sh_injection_id : list byte;
  sh_injection_ts : Z;
  sh_uri : list byte;
  sh_bs_params : BlockSigs;
}.

Definition sh_block_size (h : SignedHead) : Z := bs_size (sh_bs_params h).
Definition sh_public_key (h : SignedHead) : list byte := bs_pk (sh_bs_params h).
Definition more_recent_than (a b : SignedHead) : bool := sh_injection_ts b <? sh_injection_ts a.

Section Code.
Context `{SignatureScheme} `{Base64} `{TransferCoding}.

(** ** Framing *)

Definition set_chunked_impl (value : bool) (fs : fields) : fields :=
  let te_hdr := str "Transfer-Encoding" in
  match find_field te_hdr fs with
  | None => if value then set_field te_hdr (str "chunked") fs else fs
  | Some te =>
      if value then if last_is_chunked te then fs else set_field te_hdr (te ++ str ", chunked") fs
      else match drop_chunked te with [] => erase_field te_hdr fs | te' => set_field te_hdr te' fs end
  end.

(** [message::chunked] also takes the content length away. *)
Definition set_chunked (value : bool) (fs : fields) : fields :=
  erase_field (str "Content-Length") (set_chunked_impl value fs).

Definition without_framing (rsh : response_header) : response_header :=
  set_rs_fields rsh
    (erase_field (str "Trailer") (erase_field (str "Content-Length") (set_chunked false (rs_fields rsh)))).

(** ** Signing *)

Definition http_signature (rsh : response_header) (sk : SecretKey) (key_id : list byte) (ts : Z) : list byte :=
  let sig_head := set_field (str "(created)") (to_string ts)
                    (set_field (str "(response-status)") (to_string (result rsh)) []) in
  let sig_head := prep_sig_head (rs_fields rsh) sig_head in
  let '(sig_string, headers) := get_sig_str_hdrs sig_head in
  let encoded_sig := base64_encode (sign_message sk sig_string) in
  str "keyId=" ++ quoted key_id ++ str ",algorithm=" ++ quoted sig_alg_hs2019
  ++ str ",created=" ++ to_string ts ++ str ",headers=" ++ quoted headers
  ++ str ",signature=" ++ quoted encoded_sig.

Definition encode_key_id (pk : list byte) : list byte := key_id_pfx ++ base64_encode pk.

Definition decode_key_id (key_id : list byte) : option (list byte) :=
  if bool_decide (take (length key_id_pfx) key_id = key_id_pfx)
  then base64_decode PublicKey_size (drop (length key_id_pfx) key_id)
  else None.

(** The values that [sign_response] sets. *)
Definition injection_value (injection_id : list byte) (injection_ts : Z) : list byte :=
  str "id=" ++ injection_id ++ str ",ts=" ++ to_string injection_ts.
Definition bsigs_value (key_id : list byte) : list byte :=
  str "keyId=" ++ quoted key_id ++ str ",algorithm=" ++ quoted sig_alg_hs2019
  ++ str ",size=" ++ to_string response_data_block.

Definition sign_response (rqh : request_header) (rsh : response_header) (injection_id : list byte)
    (injection_ts : Z) (sk : SecretKey) : response_header :=
  let key_id := encode_key_id (public_key_of sk) in
  let fs := set_field protocol_version_hdr protocol_version_hdr_current (rs_fields rsh) in
  let fs := set_field response_uri_hdr (target rqh) fs in
  let fs := set_field response_injection_hdr (injection_value injection_id injection_ts) fs in
  let fs := set_field response_block_signatures_hdr (bsigs_value key_id) fs in
  let to_sign := without_framing (set_rs_fields rsh fs) in
  let fs := set_field initial_signature_hdr (http_signature to_sign sk key_id injection_ts) fs in
  let fs := set_chunked true fs in
  let trhdr := field_value (str "Trailer") fs in
  set_rs_fields rsh
    (set_field (str "Trailer")
       (trhdr ++ (if bool_decide (trhdr = []) then [] else comma_space)
        ++ response_data_size_hdr ++ str ", Digest, " ++ final_signature_hdr) fs).

(** [content_digest] is the SHA-256 digest of the body. *)
Definition http_injection_trailer (rsh : response_header) (rst : fields) (content_length : Z)
    (content_digest : list byte) (sk : SecretKey) (key_id : list byte) (ts : Z) : fields :=
  let rst := set_field response_data_size_hdr (to_string content_length) rst in
  let rst := set_field (str "Digest") (str "SHA-256=" ++ base64_encode content_digest) rst in
  let to_sign := erase_field initial_signature_hdr (rs_fields (without_framing rsh)) in
  let to_sign := foldl (fun fs hdr => set_field (fst hdr) (snd hdr) fs) to_sign rst in
  set_field final_signature_hdr (http_signature (set_rs_fields rsh to_sign) sk key_id ts) rst.

(** ** Verifying *)

(** [HttpSignature::verify]: the verdict and the headers that are not covered. *)
Definition HttpSignature_verify (hsig : HttpSignature) (rsh : response_header) (pk : list byte)
    : bool * fields :=
  match verification_head rsh hsig with
  | None => (false, [])
  | Some vfy_head =>
      let '(sig_string, _) := get_sig_str_hdrs vfy_head in
      match base64_decode Signature_size (chars (signature hsig)) with
      | None => (false, [])
      | Some decoded_sig =>
          if negb (verify_message pk sig_string decoded_sig) then (false, [])
          else (true, foldl (fun extra hdr =>
                               if bool_decide (find_field (fst hdr) vfy_head = None)
                               then insert_field (fst hdr) (snd hdr) extra else extra) [] (rs_fields rsh))
      end
  end.

(** The first loop of [SignedHead::verify]: [rsh], [to_verify] and [sig_headers]. *)
Definition split_signatures (rsh to_verify : fields) : fields * fields * fields :=
  foldl (fun '(rs, tv, sigs) hdr =>
           if is_signature_hdr (fst hdr)
           then (rs, erase_field (fst hdr) tv, insert_field (fst hdr) (snd hdr) sigs)
           else (rs ++ [hdr], tv, sigs)) ([], to_verify, []) rsh.

(** [rsh], [sig_ok], [extra] and [sig_idx] of the second loop. *)
Record verify_state := { v_rsh : fields; v_sig_ok : bool; v_extra : fields; v_sig_idx : Z }.

Definition keep_signature (sig : list byte) (st : verify_state) : verify_state :=
  {| v_rsh := insert_field (response_signature_hdr_pfx ++ to_string (v_sig_idx st)) sig (v_rsh st);
     v_sig_ok := v_sig_ok st; v_extra := v_extra st; v_sig_idx := v_sig_idx st + 1 |}.

Definition verify_step (to_verify : response_header) (pk : list byte) (st : verify_state)
    (hdr : list byte * list byte) : verify_state :=
  match HttpSignature_parse (field_view (snd hdr)) with
  | None => st
  | Some sig =>
      if negb (bool_decide (chars (keyId sig) = encode_key_id pk)) then keep_signature (snd hdr) st
      else if negb (bool_decide (chars (algorithm sig) = []))
              && negb (bool_decide (chars (algorithm sig) = sig_alg_hs2019)) then st
      else
        match HttpSignature_verify sig to_verify pk with
        | (false, _) => st
        | (true, extra) =>
            let st := keep_signature (snd hdr) st in
            {| v_rsh := v_rsh st; v_sig_ok := true;
               v_extra := List.filter (fun e => negb (bool_decide (find_field (fst e) extra = None))) (v_extra st);
               v_sig_idx := v_sig_idx st |}
        end
  end.

Definition SignedHead_verify (rsh : response_header) (pk : list byte) : option response_header :=
  let '(rs, tv, sig_headers) := split_signatures (rs_fields rsh) (rs_fields (without_framing rsh)) in
  let to_verify := set_rs_fields rsh tv in
  let st := foldl (verify_step to_verify pk)
              {| v_rsh := rs; v_sig_ok := false; v_extra := rs; v_sig_idx := 0 |} sig_headers in
  if negb (v_sig_ok st) then None
  else Some (set_rs_fields rsh (foldl (fun fs eh => erase_field (fst eh) fs) (v_rsh st) (v_extra st))).

(** The members of [BlockSigs] while it is parsed: the key if there was a valid
    one, the size if it was assigned. *)
Record bsigs_state := { p_pk : option (list byte); p_algorithm : string_view; p_size : option Z }.

Definition bsigs_item (st : bsigs_state) (item : string_view) : option bsigs_state :=
  let '(key, value) := split_string_pair item "="%byte in
  let named name := bool_decide (chars key = str name) in
  if named "size" then
    Some {| p_pk := p_pk st; p_algorithm := p_algorithm st;
            p_size := Some (default 0 (fst (number_of_view W8 value))) |}
  else
    let? value := unquote value in
    if named "keyId" then
      match decode_key_id (chars value) with
      | None => Some st
      | Some pk => Some {| p_pk := Some pk; p_algorithm := p_algorithm st; p_size := p_size st |}
      end
    else if named "algorithm" then Some {| p_pk := p_pk st; p_algorithm := value; p_size := p_size st |}
    else None.

Fixpoint bsigs_items (st : bsigs_state) (items : list string_view) : option bsigs_state :=
  match items with
  | [] => Some st
  | item :: items' => let? st := bsigs_item st item in bsigs_items st items'
  end.

Definition BlockSigs_parse (bsigs : string_view) : reading (option BlockSigs) :=
  if has_comma_in_quotes (chars bsigs) then Value None
  else
    match bsigs_items {| p_pk := None; p_algorithm := view_of []; p_size := None |} (SplitString bsigs ","%byte) with
    | None => Value None
    | Some st =>
        match p_pk st with
        | None => Value None
        | Some pk =>
            if negb (bool_decide (chars (p_algorithm st) = sig_alg_hs2019)) then Value None
            else match p_size st with
                 | None => Indeterminate
                 | Some 0 => Value None
                 | Some size => Value (Some {| bs_pk := pk; bs_algorithm := p_algorithm st; bs_size := size |})
                 end
        end
    end.

Definition create_from_trusted_source (rsh : response_header) : reading (option SignedHead) :=
  let uri := field_value response_uri_hdr (rs_fields rsh) in
  let bsh := field_value response_block_signatures_hdr (rs_fields rsh) in
  if bool_decide (bsh = []) then Value None
  else
    match BlockSigs_parse (field_view bsh) with
    | Indeterminate => Indeterminate
    | Value None => Value None
    | Value (Some bs_params) =>
        if response_data_block_max <? bs_size bs_params then Value None
        else
          let injection_id := chars (http_injection_id rsh) in
          if bool_decide (injection_id = []) then Value None
          else
            let tsh := http_injection_ts rsh in
            match fst (number_signed W8 (next_byte tsh) (chars tsh)) with
            | None => Value None
            | Some injection_ts =>
                Value (Some {| sh_head := rsh; sh_injection_id := injection_id; sh_injection_ts := injection_ts;
                               sh_uri := uri; sh_bs_params := bs_params |})
            end
    end.

Definition verify_and_create (rsh : response_header) (pk : list byte) : reading (option SignedHead) :=
  match SignedHead_verify rsh pk with
  | None => Value None
  | Some rsh => create_from_trusted_source rsh
  end.

End Code.

(** ** Merging a trailer into a head *)

(** [sig_headers_set], as the list of its elements. *)
Definition sig_headers_set (hs : string_view) : list (list byte) := map chars (SplitString hs " "%byte).

Definition has_extra_items (s1 s2 : list (list byte)) : bool :=
  existsb (fun x => negb (bool_decide (x ∈ s2))) s1.

(** [parse::number<time_t>] *)
Definition time_of_view (v : string_view) : option Z := fst (number_signed W8 (next_byte v) (chars v)).

(** The loop over the head: the fields kept, and whether to insert the new
    signature.  [None] is the failure of [assert(hsig)]. *)
Fixpoint redundant_loop (thsig : HttpSignature) (ths_ts : Z) (insert : bool) (head : fields)
    : option (fields * bool) :=
  match head with
  | [] => Some ([], insert)
  | h :: head' =>
      let continue (keep insert : bool) :=
        let? (kept, insert) := redundant_loop thsig ths_ts insert head' in
        Some (if keep then h :: kept else kept, insert) in
      if negb (is_signature_hdr (fst h)) then continue true insert
      else
        let? hsig := HttpSignature_parse (field_view (snd h)) in
        if negb (bool_decide (chars (keyId thsig) = chars (keyId hsig)))
           || negb (bool_decide (chars (algorithm thsig) = chars (algorithm hsig)))
        then continue true insert
        else
          let ths_hdrs := sig_headers_set (headers thsig) in
          let hs_hdrs := sig_headers_set (headers hsig) in
          let hs_ts := default 0 (time_of_view (created hsig)) in
          continue ((ths_ts <? hs_ts) || has_extra_items hs_hdrs ths_hdrs)
                   (insert && ((hs_ts <? ths_ts) || has_extra_items ths_hdrs hs_hdrs))
  end.

Definition insert_trailer (head : fields) (th : list byte * list byte) : option fields :=
  let '(thn, thv) := th in
  if negb (is_signature_hdr thn) then Some (insert_field thn thv head)
  else
    let? thsig := HttpSignature_parse (field_view thv) in
    match time_of_view (created thsig) with
    | None => Some head
    | Some ths_ts =>
        let? (head, insert) := redundant_loop thsig ths_ts true head in
        Some (if insert : bool then insert_field thn thv head else head)
    end.

Fixpoint insert_trailers (head : fields) (rst : fields) : option fields :=
  match rst with
  | [] => Some head
  | th :: rst' => let? head := insert_trailer head th in insert_trailers head rst'
  end.

Definition http_injection_merge `{TransferCoding} (rsh : response_header) (rst : fields) : option response_header :=
  let rsh := without_framing rsh in
  let? fs := insert_trailers (rs_fields rsh) rst in
  Some (set_rs_fields rsh fs).

(** ** [KeepSignedReader], on a head *)

(** The names that the signatures of the head list; [None] is [assert(hsig)]. *)
Fixpoint signed_names (head : fields) : option (list (list byte)) :=
  match head with
  | [] => Some []
  | h :: head' =>
      if negb (is_signature_hdr (fst h)) then signed_names head'
      else
        let? hsig := HttpSignature_parse (field_view (snd h)) in
        let? names := signed_names head' in
        Some (map chars (SplitString (headers hsig) " "%byte) ++ names)
  end.

Definition keep_signed (extra : list (list byte)) (head : fields) : option fields :=
  let? names := signed_names head in
  let keep_headers := map lower_str extra ++ names in
  Some (List.filter (fun h => let hn := lower_str (fst h) in
                              is_signature_hdr hn || bool_decide (hn ∈ keep_headers)) head).

(** ** Flattened values *)

(** The trimmed values of a name, in order, and their concatenation. *)
Definition values (n : list byte) (fs : fields) : list (list byte) :=
  map (fun f => trimmed_value (snd f)) (List.filter (same_name n) fs).

Definition flat (vs : list (list byte)) : list byte :=
  match vs with
  | [] => []
  | v :: vs' => v ++ concat (map (fun w => comma_space ++ w) vs')
  end.

Lemma flat_snoc vs v : vs <> [] -> flat (vs ++ [v]) = flat vs ++ comma_space ++ v.
Proof.
  destruct vs as [|w vs]; [done|]. intros _. simpl.
  rewrite map_app, concat_app, <-!app_assoc. simpl. by rewrite app_nil_r.
Qed.

Lemma values_snoc n fs f :
  values n (fs ++ [f]) = values n fs ++ (if same_name n f then [trimmed_value (snd f)] else []).
Proof.
  unfold values. rewrite List.filter_app. simpl. rewrite map_app. by destruct (same_name n f).
Qed.

Lemma flatten_steps fs : forall ret, ret <> [] ->
  foldl flatten_step ret fs = ret ++ concat (map (fun f => comma_space ++ trimmed_value (snd f)) fs).
Proof.
  induction fs as [|f fs IH]; intros ret Hr; simpl; [by rewrite app_nil_r|].
  unfold flatten_step at 2. rewrite bool_decide_false by done. rewrite IH.
  - by rewrite <-!app_assoc.
  - by destruct ret.
Qed.

(** A first value that is empty and not alone. *)
Definition starts_empty (vs : list (list byte)) : Prop := exists w vs', vs = [] :: w :: vs'.

Lemma flatten_filtered fs :
  ~ starts_empty (map (fun f => trimmed_value (snd f)) fs) ->
  foldl flatten_step [] fs = flat (map (fun f => trimmed_value (snd f)) fs).
Proof.
  intros Hs. destruct fs as [|f fs]; [done|]. cbn [foldl map flat].
  change (flatten_step [] f) with (trimmed_value (snd f)).
  destruct (decide (trimmed_value (snd f) = [])) as [E|E].
  - rewrite E. destruct fs as [|g fs]; [done|]. exfalso. apply Hs. simpl. rewrite E. by eexists _, _.
  - rewrite flatten_steps by done. by rewrite map_map.
Qed.

Lemma flatten_length fs :
  (length (foldl flatten_step [] fs) <= length (flat (map (fun f => trimmed_value (snd f)) fs)))%nat.
Proof.
  assert (forall vs, (length (concat (map (fun w => comma_space ++ w) vs)) >= length (flat vs))%nat) as Hflat.
  { intros [|v vs]; simpl; [lia|]. rewrite !length_app. lia. }
  induction fs as [|f fs IH]; [done|].
  destruct (decide (trimmed_value (snd f) = [])) as [E|E].
  - cbn [foldl]. change (flatten_step [] f) with (trimmed_value (snd f)). rewrite E.
    cbn [map flat]. rewrite E. simpl. etrans; [apply IH|apply Hflat].
  - rewrite flatten_filtered; [done|]. simpl. by intros (w & vs & [= E' _]).
Qed.

Lemma flatten_values fs hn :
  flatten_header_values fs hn = Some (flat (values hn fs)) <->
  values hn fs <> [] /\ ~ starts_empty (values hn fs).
Proof.
  unfold flatten_header_values, values. destruct (List.filter (same_name hn) fs) as [|f fs'].
  - simpl. split; [done|naive_solver].
  - split.
    + intros [= E]. split; [done|]. intros (w & vs & [= Ef Evs]).
      cbn [foldl map flat] in E. change (flatten_step [] f) with (trimmed_value (snd f)) in E.
      rewrite Ef in E. pose proof (flatten_length fs') as Hl. rewrite E, Evs in Hl. simpl in Hl.
      rewrite !length_app in Hl. lia.
    + intros [_ Hs]. f_equal. by apply flatten_filtered.
Qed.

(** *** The head prepared for signing *)

Lemma same_name_lower n f : lower_str (fst f) = lower_str n <-> same_name n f = true.
Proof. unfold same_name. by rewrite iequals_true. Qed.

Lemma values_nonempty n fs :
  values n fs <> [] <-> exists f, f ∈ fs /\ lower_str (fst f) = lower_str n.
Proof.
  setoid_rewrite same_name_lower. unfold values. split.
  - destruct (List.filter (same_name n) fs) as [|f l] eqn:E; [done|]. intros _.
    assert (In f (List.filter (same_name n) fs)) as Hf by (rewrite E; by left).
    apply filter_In in Hf as [Hf Hn]. exists f. by rewrite list_elem_of_In.
  - intros (f & Hf & Hn) E. assert (In f (List.filter (same_name n) fs)) as Hin.
    { apply filter_In. by rewrite <-list_elem_of_In. }
    by destruct (List.filter (same_name n) fs).
Qed.

(** [sorted] has each lower-case name once, and [m] its flattened value. *)
Definition prepared (fs : fields) (sorted : list (list byte)) (m : gmap (list byte) (list byte)) : Prop :=
  NoDup sorted /\
  (forall n, n ∈ sorted <-> lower_str n = n /\ values n fs <> []) /\
  (forall n, m !! n = if decide (n ∈ sorted) then Some (flat (values n fs)) else None).

Lemma values_other n fs f : n <> lower_str (fst f) -> lower_str n = n -> values n (fs ++ [f]) = values n fs.
Proof.
  intros Hn Hl. rewrite values_snoc. destruct (same_name n f) eqn:E; [|apply app_nil_r].
  apply same_name_lower in E. congruence.
Qed.

Lemma prepared_step fs f sorted m :
  prepared fs sorted m -> let '(sorted', m') := prep_step (sorted, m) f in prepared (fs ++ [f]) sorted' m'.
Proof.
  intros (Hnd & Hin & Hm). unfold prep_step. set (name := lower_str (fst f)).
  assert (lower_str name = name) as Hlow by apply lower_str_idem.
  assert (values name (fs ++ [f]) = values name fs ++ [trimmed_value (snd f)]) as Hname.
  { rewrite values_snoc. replace (same_name name f) with true; [done|].
    symmetry. apply same_name_lower. by rewrite Hlow. }
  assert (forall n, n <> name -> n ∈ sorted -> values n (fs ++ [f]) = values n fs) as Hother.
  { intros n Hne [Hl _]%Hin. by apply values_other. }
  rewrite Hm. destruct (decide (name ∈ sorted)) as [Hs|Hs].
  - split_and!; [done|intros n; rewrite Hin; split; intros [Hl Hv]; (split; [done|])|intros n].
    + rewrite values_snoc. by destruct (values n fs).
    + destruct (decide (n = name)) as [->|Hne]; [by apply Hin in Hs as []|]. by rewrite values_other in Hv.
    + destruct (decide (n = name)) as [->|Hne].
      * rewrite lookup_insert_eq, decide_True, Hname, flat_snoc; [done|by apply Hin in Hs as []|done].
      * rewrite lookup_insert_ne, Hm by done. case_decide; [by rewrite Hother|done].
  - split_and!; [apply NoDup_app; split_and!; [done| |apply NoDup_singleton]| |].
    + intros n Hn ->%list_elem_of_singleton. done.
    + intros n. rewrite elem_of_app, list_elem_of_singleton, Hin. split.
      * intros [[Hl Hv]| ->]; (split; [done|]); [rewrite values_snoc; by destruct (values n fs)|].
        rewrite Hname. by destruct (values name fs).
      * intros [Hl Hv]. destruct (decide (n = name)) as [->|Hne]; [by right|left]. by rewrite values_other in Hv.
    + intros n. destruct (decide (n = name)) as [->|Hne].
      * rewrite lookup_insert_eq, decide_True, Hname by set_solver.
        destruct (values name fs) eqn:E; [simpl; by rewrite app_nil_r|]. exfalso. apply Hs, Hin. by rewrite E.
      * rewrite lookup_insert_ne, Hm by done.
        destruct (decide (n ∈ sorted)); [rewrite decide_True by set_solver|by rewrite decide_False by set_solver].
        by rewrite Hother.
Qed.

Lemma prep_fold fs : let '(sorted, m) := foldl prep_step ([], ∅) fs in prepared fs sorted m.
Proof.
  induction fs as [|f fs IH] using rev_ind.
  - split_and!; [constructor| |done]. intros n. rewrite elem_of_nil. naive_solver.
  - rewrite foldl_app. destruct (foldl prep_step ([], ∅) fs) as [sorted m]. by apply prepared_step.
Qed.

(** *** Distinct names *)

Lemma set_field_new n v fs :
  (forall f, f ∈ fs -> lower_str (fst f) <> lower_str n) -> set_field n v fs = fs ++ [(n, v)].
Proof.
  intros Hfs. unfold set_field, erase_field. f_equal. apply filter_all, Forall_forall. intros f Hf.
  apply negb_true_iff, not_true_iff_false. rewrite <-same_name_lower. by apply Hfs.
Qed.

(** Names in lower case, each once, and not among those of [fs]. *)
Definition fresh_names (ns : list (list byte)) (fs : fields) : Prop :=
  NoDup ns /\ (forall n, n ∈ ns -> lower_str n = n) /\ (forall f, f ∈ fs -> lower_str (fst f) ∉ ns).

Lemma fresh_names_cons n v ns fs :
  fresh_names (n :: ns) fs ->
  set_field n v fs = fs ++ [(n, v)] /\ fresh_names ns (fs ++ [(n, v)]).
Proof.
  intros (Hnd & Hl & Hfs). apply NoDup_cons in Hnd as [Hn Hnd]. split.
  - apply set_field_new. intros f Hf E. apply (Hfs f Hf). rewrite E, Hl; set_solver.
  - split_and!; [done|set_solver|]. intros f [Hf| ->%list_elem_of_singleton]%elem_of_app; [set_solver|].
    simpl. rewrite Hl; set_solver.
Qed.

Lemma set_fields_new (value : list byte -> list byte) ns : forall fs,
  fresh_names ns fs ->
  foldl (fun o n => set_field n (value n) o) fs ns = fs ++ map (fun n => (n, value n)) ns.
Proof.
  induction ns as [|n ns IH]; intros fs Hf; simpl; [by rewrite app_nil_r|].
  destruct (fresh_names_cons n (value n) ns fs Hf) as [-> Hf']. by rewrite IH, <-app_assoc.
Qed.

Lemma prep_sig_head_spec inh outh :
  exists sorted m, prepared inh sorted m /\
    (fresh_names sorted outh ->
     prep_sig_head inh outh = outh ++ map (fun n => (n, flat (values n inh))) sorted).
Proof.
  unfold prep_sig_head. pose proof (prep_fold inh) as Hp. destruct (foldl prep_step ([], ∅) inh) as [sorted m].
  exists sorted, m. split; [done|]. intros Hf. rewrite set_fields_new by done. f_equal.
  apply map_ext_in. intros n Hn%list_elem_of_In. destruct Hp as (_ & _ & ->). by rewrite decide_True.
Qed.

Lemma verification_loop_spec inh hsig (value : list byte -> list byte) hns : forall vh,
  fresh_names (map chars hns) vh ->
  (forall hn, hn ∈ hns -> verification_value inh hsig hn = Some (value (chars hn))) ->
  verification_loop inh hsig vh hns = Some (vh ++ map (fun n => (n, value n)) (map chars hns)).
Proof.
  induction hns as [|hn hns IH]; intros vh Hf Hv; simpl; [by rewrite app_nil_r|].
  rewrite Hv by left. destruct (fresh_names_cons _ (value (chars hn)) _ _ Hf) as [-> Hf'].
  rewrite IH by (done || (intros; apply Hv; by right)). by rewrite <-app_assoc.
Qed.

(** *** The signed string *)

Definition header_line (f : list byte * list byte) : list byte := fst f ++ str ": " ++ snd f.

Lemma sig_str_steps fs : forall s h,
  foldl sig_str_step (s, h, true) fs =
  (s ++ concat (map (fun f => newline :: header_line f) fs), h ++ concat (map (fun f => " "%byte :: fst f) fs), true).
Proof.
  induction fs as [|[n v] fs IH]; intros s h; simpl; [by rewrite !app_nil_r|]. rewrite IH.
  unfold header_line. simpl. repeat (f_equal; []). by rewrite <-!app_assoc.
Qed.

Lemma join_cons c p ps : join c (p :: ps) = p ++ concat (map (cons c) ps).
Proof.
  revert p. induction ps as [|q ps IH]; intros p; [simpl; by rewrite app_nil_r|].
  change (join c (p :: q :: ps)) with (p ++ c :: join c (q :: ps)). by rewrite IH.
Qed.

Lemma get_sig_str_hdrs_spec fs :
  get_sig_str_hdrs fs = (join newline (map header_line fs), join " "%byte (map fst fs)).
Proof.
  unfold get_sig_str_hdrs. destruct fs as [|[n v] fs]; [done|]. cbn [foldl sig_str_step].
  rewrite sig_str_steps. cbn [map]. rewrite !join_cons, !map_map. done.
Qed.

(** ** Reading a signature back *)

(** No comma and no quote. *)
Definition clean (s : list byte) : Prop := (","%byte ∉ s) /\ (quote ∉ s).

Ltac by_evaluation := apply (bool_decide_unpack _); vm_compute; exact I.

Lemma clean_app a b : clean a -> clean b -> clean (a ++ b).
Proof. unfold clean. rewrite !not_elem_of_app. naive_solver. Qed.

Lemma comma_loop_clean q s t : clean s -> comma_loop q (s ++ t) = comma_loop q t.
Proof.
  intros [Hc Hq]. induction s as [|c s IH]; simpl; [done|]. rewrite not_elem_of_cons in Hc, Hq.
  rewrite bool_decide_false by naive_solver. rewrite bool_decide_false by naive_solver.
  simpl. apply IH; naive_solver.
Qed.

Lemma comma_loop_quoted q s t : clean s -> comma_loop q (quoted s ++ t) = comma_loop (q + 1 + 1) t.
Proof.
  intros Hs. unfold quoted. simpl. rewrite <-app_assoc, comma_loop_clean by done. done.
Qed.

Lemma comma_loop_comma q t : q mod 2 = 0 -> comma_loop q (","%byte :: t) = comma_loop q t.
Proof. intros Hq. simpl. rewrite Hq. done. Qed.

Lemma comma_loop_end q s : clean s -> comma_loop q s = false.
Proof. intros Hs. rewrite <-(app_nil_r s), comma_loop_clean by done. done. Qed.

Lemma last_quoted s : list.last (quoted s) = Some quote.
Proof. unfold quoted. rewrite app_assoc. apply last_snoc. Qed.

Lemma unquote_quoted v s : chars v = quoted s -> exists w, unquote v = Some w /\ chars w = s.
Proof.
  intros Hv. unfold unquote. rewrite Hv, last_quoted.
  assert (length (quoted s) = S (S (length s))) as Hl by (unfold quoted; rewrite !length_app; simpl; lia).
  rewrite Hl. cbn [quoted app head Nat.ltb Nat.leb]. rewrite !bool_decide_true by done. eexists. split; [done|].
  cbn [chars substr_to substr_from]. rewrite Hv. unfold quoted. simpl. rewrite Nat.sub_0_r. apply take_app_length.
Qed.

Lemma no_margin_quoted s : no_margin " "%byte (quoted s).
Proof. split; [done|]. by rewrite last_quoted. Qed.

Lemma split_quoted v k s :
  chars v = k ++ "="%byte :: quoted s -> ("="%byte ∉ k) -> no_margin " "%byte k ->
  exists key value w, split_string_pair v "="%byte = (key, value) /\ chars key = k /\
    unquote value = Some w /\ chars w = s.
Proof.
  intros Hv Hk Hm. destruct (split_string_pair_spec v "="%byte k (quoted s)) as [E1 E2];
    [done|done|done|apply no_margin_quoted|].
  destruct (split_string_pair v "="%byte) as [key value]. destruct (unquote_quoted value s) as (w & Hw & Es); [done|].
  by exists key, value, w.
Qed.

Lemma parse_quoted v k s :
  chars v = k ++ "="%byte :: quoted s -> k ∈ [str "keyId"; str "algorithm"; str "headers"; str "signature"] ->
  exists w, chars w = s /\
    forall hs, parse_item hs v = Some (if bool_decide (k = str "keyId") then set_keyId w hs
                            else if bool_decide (k = str "algorithm") then set_algorithm w hs
                            else if bool_decide (k = str "headers") then set_headers w hs
                            else set_signature w hs).
Proof.
  intros Hv Hk. destruct (split_quoted v k s) as (key & value & w & Hs & Ek & Hu & Ew); [done|..].
  { repeat (apply elem_of_cons in Hk as [-> |Hk]; [by_evaluation|]). by apply not_elem_of_nil in Hk. }
  { apply no_margin_free. repeat (apply elem_of_cons in Hk as [-> |Hk]; [by_evaluation|]). by apply not_elem_of_nil in Hk. }
  exists w. split; [done|]. intros hs. unfold parse_item. rewrite Hs, Ek, Hu.
  repeat (apply elem_of_cons in Hk as [-> |Hk]; [reflexivity|]). by apply not_elem_of_nil in Hk.
Qed.

Lemma parse_created v t :
  chars v = str "created" ++ "="%byte :: t -> no_margin " "%byte t ->
  exists w, chars w = t /\ forall hs, parse_item hs v = Some (set_created w hs).
Proof.
  intros Hv Ht. destruct (split_string_pair_spec v "="%byte (str "created") t) as [E1 E2];
    [done|by_evaluation|apply no_margin_free; by_evaluation|done|].
  destruct (split_string_pair v "="%byte) as [key value] eqn:Es. exists value. split; [done|].
  intros hs. unfold parse_item. rewrite Es. simpl in E1. by rewrite E1.
Qed.

(** The text of a signature. *)
Definition signature_text (k a t h s : list byte) : list byte :=
  str "keyId=" ++ quoted k ++ str ",algorithm=" ++ quoted a ++ str ",created=" ++ t
  ++ str ",headers=" ++ quoted h ++ str ",signature=" ++ quoted s.

Definition signature_parts (hs : HttpSignature) : list (list byte) :=
  [chars (keyId hs); chars (algorithm hs); chars (created hs); chars (expires hs); chars (headers hs);
   chars (signature hs)].

Lemma signature_text_join k a t h s :
  signature_text k a t h s =
  join ","%byte [str "keyId" ++ "="%byte :: quoted k; str "algorithm" ++ "="%byte :: quoted a;
                 str "created" ++ "="%byte :: t; str "headers" ++ "="%byte :: quoted h;
                 str "signature" ++ "="%byte :: quoted s].
Proof. unfold signature_text, join, quoted. simpl. repeat (rewrite <-?app_assoc; simpl). done. Qed.

Lemma signature_text_no_comma k a t h s :
  clean k -> clean a -> clean t -> clean h -> clean s -> has_comma_in_quotes (signature_text k a t h s) = false.
Proof.
  intros Hk Ha Ht Hh Hs. unfold has_comma_in_quotes, signature_text.
  assert (forall q l t, q mod 2 = 0 -> clean l -> comma_loop q ((","%byte :: l) ++ t) = comma_loop q t) as Hsep.
  { intros q l u Hq Hl. simpl app. rewrite comma_loop_comma by done. by apply comma_loop_clean. }
  rewrite comma_loop_clean by (split; by_evaluation). rewrite comma_loop_quoted by done.
  rewrite (Hsep _ (str "algorithm=")) by (done || (split; by_evaluation)). rewrite comma_loop_quoted by done.
  rewrite (Hsep _ (str "created=")) by (done || (split; by_evaluation)). rewrite comma_loop_clean by done.
  rewrite (Hsep _ (str "headers=")) by (done || (split; by_evaluation)). rewrite comma_loop_quoted by done.
  rewrite (Hsep _ (str "signature=")) by (done || (split; by_evaluation)).
  rewrite <-(app_nil_r (quoted s)), comma_loop_quoted by done. done.
Qed.

(** Neither a separator nor a line end. *)
Definition is_plain (c : byte) : bool := negb (bool_decide (c ∈ [","%byte; quote; " "%byte; newline])).

Lemma plain_text s : forallb is_plain s = true -> clean s /\ (" "%byte ∉ s) /\ (newline ∉ s).
Proof.
  rewrite forallb_forall. intros Hs.
  assert (forall c, c ∈ s -> c ∉ [","%byte; quote; " "%byte; newline]) as Hc.
  { intros c Hc%list_elem_of_In%Hs. by apply negb_true_iff, bool_decide_eq_false in Hc. }
  split_and!; try split; intros Hin%Hc; set_solver.
Qed.

(** An item [key=value] of such a list. *)
Definition is_item (p : list byte) : Prop := (","%byte ∉ p) /\ no_margin " "%byte p.

Lemma key_value_ok k x :
  forallb is_plain k = true -> k <> [] -> (","%byte ∉ x) -> no_margin " "%byte x -> is_item (k ++ "="%byte :: x).
Proof.
  intros [[Hk _] [Hks _]]%plain_text Hk0 Hx [_ Hl]. split; [|split].
  - apply not_elem_of_app. split; [done|]. by apply not_elem_of_cons.
  - destruct k as [|c k]; [done|]. intros [= ->]. apply Hks. left.
  - rewrite list.last_app, last_cons. by destruct (list.last x).
Qed.

Lemma quoted_comma s : clean s -> ","%byte ∉ quoted s.
Proof.
  intros [Hs _]. unfold quoted. rewrite !not_elem_of_app, !not_elem_of_cons.
  split_and!; done || apply not_elem_of_nil.
Qed.

Lemma parse_signature_text v k a t h s :
  chars v = signature_text k a t h s ->
  clean k -> clean a -> clean t -> clean h -> clean s -> no_margin " "%byte t -> k <> [] -> s <> [] ->
  exists hs, HttpSignature_parse v = Some hs /\ signature_parts hs = [k; a; t; []; h; s].
Proof.
  intros Hv Hk Ha Ht Hh Hs Hm Hk0 Hs0. unfold HttpSignature_parse.
  rewrite Hv, signature_text_no_comma by done. rewrite signature_text_join in Hv.
  pose proof (SplitString_join v _ _ Hv ltac:(done)) as Hsplit.
  unshelve epose proof (Hsplit _) as Hitems.
  { repeat constructor; apply key_value_ok; done || (by apply quoted_comma) || (by apply no_margin_quoted) || apply Ht. }
  clear Hsplit. destruct (SplitString v ","%byte) as [|w1 [|w2 [|w3 [|w4 [|w5 [|]]]]]]; try discriminate.
  injection Hitems as E1 E2 E3 E4 E5. cbn [parse_items].
  destruct (parse_quoted w1 (str "keyId") k) as (v1 & F1 & ->); [done|set_solver|].
  destruct (parse_quoted w2 (str "algorithm") a) as (v2 & F2 & G2); [done|set_solver|]. rewrite G2.
  destruct (parse_created w3 t) as (v3 & F3 & G3); [done|done|]. rewrite G3.
  destruct (parse_quoted w4 (str "headers") h) as (v4 & F4 & G4); [done|set_solver|]. rewrite G4.
  destruct (parse_quoted w5 (str "signature") s) as (v5 & F5 & G5); [done|set_solver|]. rewrite G5.
  simpl. rewrite F1, F5, !bool_decide_false by done. eexists. split; [done|].
  unfold signature_parts. simpl. by rewrite F1, F2, F3, F4, F5.
Qed.
