(* ===== verification/Base64.v ===== *)
(** * Base64: [base64_encode] and the array form of [base64_decode] of src/util.cpp

    The iterators regroup bits, most significant first, and translate six bits to a
    character and back; the translation is the class [Base64Table].  The decoder
    compares its position with the end of the view for equality, and two characters go
    into the first byte of each group: if one character is left over, the end is
    stepped over and reading goes on behind the view.

    The signing code and the store use base64 through the class [Base64] of HttpSign
    with its laws, which are proved here of this code. *)
From S2P Require Import Prelude Number SplitString HttpSign.

(** The 64 characters of the alphabet (RFC 4648). *)
Definition is_base64_text (c : byte) : bool :=
  let z := code c in
  ((65 <=? z) && (z <=? 90)) || ((97 <=? z) && (z <=? 122)) || ((48 <=? z) && (z <=? 57))
  || (z =? 43) || (z =? 47).

Class Base64Table := {
  six_char : Z -> byte;           (* base64_from_binary *)
  six_bits : byte -> option Z;    (* binary_from_base64; [None] is its exception *)
}.

Class Base64TableLaws (T : Base64Table) : Prop := {
  six_bits_char v : 0 <= v < 64 -> six_bits (six_char v) = Some v;
  six_char_text v : 0 <= v < 64 -> is_base64_text (six_char v) = true;
}.

Section Code.
Context `{Base64Table}.

(** Three bytes to four characters, a rest filled with zero bits. *)
Fixpoint encode_groups (s : list byte) : list byte :=
  match s with
  | [] => []
  | [a] => [six_char (code a / 4); six_char (code a mod 4 * 16)]
  | [a; b] => [six_char (code a / 4); six_char (code a mod 4 * 16 + code b / 16);
               six_char (code b mod 16 * 4)]
  | a :: b :: c :: s' =>
      six_char (code a / 4) :: six_char (code a mod 4 * 16 + code b / 16) ::
      six_char (code b mod 16 * 4 + code c / 64) :: six_char (code c mod 64) :: encode_groups s'
  end.

Definition util_base64_encode (s : list byte) : list byte :=
  encode_groups s ++ replicate ((3 - length s mod 3) mod 3)%nat "="%byte.

Variant decoded :=
| Bytes (out : list byte)
| TooShort
| Throws          (* a character that is not of the alphabet *)
| OutOfBounds.    (* reading behind the buffer of the view *)

(** The bits of a character that are not used yet. *)
Variant pending := P0 | P4 (x : Z) | P2 (x : Z).

(** One character of the view or of what is behind it. *)
Definition next_six (s : list byte) : decoded + Z * list byte :=
  match s with
  | [] => inl OutOfBounds
  | c :: s' => match six_bits c with None => inl Throws | Some v => inr (v, s') end
  end.

(** The next byte: the byte, the bits left, the rest, the characters read. *)
Definition next_octet (p : pending) (s : list byte) : decoded + byte * pending * list byte * Z :=
  match p with
  | P0 =>
      match next_six s with
      | inl e => inl e
      | inr (a, s) =>
          match next_six s with
          | inl e => inl e
          | inr (b, s) => inr (byte_of (a * 4 + b / 16), P4 (b mod 16), s, 2)
          end
      end
  | P4 x => match next_six s with
            | inl e => inl e
            | inr (c, s) => inr (byte_of (x * 16 + c / 4), P2 (c mod 4), s, 1)
            end
  | P2 x => match next_six s with
            | inl e => inl e
            | inr (d, s) => inr (byte_of (x * 64 + d), P0, s, 1)
            end
  end.

(** The loop: [left] characters before the end, which may be stepped over. *)
Fixpoint decode_loop (out_size : nat) (left : Z) (p : pending) (s : list byte) : decoded :=
  match out_size with
  | O => Bytes []
  | S k =>
      if left =? 0 then TooShort
      else
        match next_octet p s with
        | inl e => e
        | inr (b, p', s', n) =>
            match decode_loop k (left - n) p' s' with
            | Bytes out => Bytes (b :: out)
            | e => e
            end
        end
  end.

(** [while (in.ends_with('=')) in.remove_suffix(1)], then the loop. *)
Definition util_base64_decode (out_size : nat) (in_ : string_view) : decoded :=
  let v := trim_back "="%byte in_ in
  decode_loop out_size (Z.of_nat (length (chars v))) P0 (chars v ++ behind v).

End Code.

(** ** Decoding inverts encoding *)

Lemma count_while_replicate c k l :
  head l <> Some c -> count_while c (replicate k c ++ l) = k.
Proof.
  intros Hl. induction k as [|k IH]; simpl; [|by rewrite bool_decide_true, IH].
  destruct l as [|b l]; [done|]. simpl. rewrite bool_decide_false; [done|]. intros ->. done.
Qed.

Lemma trim_back_replicate c k l b :
  last l <> Some c ->
  trim_back c {| chars := l ++ replicate k c; behind := b |} = {| chars := l; behind := replicate k c ++ b |}.
Proof.
  intros Hl. unfold trim_back. simpl. rewrite rev_app_distr.
  assert (rev (replicate k c) = replicate k c) as -> by (rewrite rev_alt; apply reverse_replicate).
  rewrite count_while_replicate.
  - rewrite length_app, length_replicate. replace (length l + k - k)%nat with (length l) by lia.
    by rewrite take_app_length, drop_app_length.
  - intros E. apply Hl. rewrite <-(rev_involutive l). destruct (rev l) as [|x r]; [done|]. simpl in *.
    by rewrite last_snoc.
Qed.

(** Linear arithmetic with division by constants. *)
Ltac dlia := Z.to_euclidean_division_equations; lia.

Section Roundtrip.
Context {T : Base64Table} {L : Base64TableLaws T}.

Lemma next_six_char v s : 0 <= v < 64 -> next_six (six_char v :: s) = inr (v, s).
Proof. intros Hv. unfold next_six. by rewrite six_bits_char. Qed.

Ltac read := cbn [next_octet]; rewrite next_six_char by dlia; cbn iota beta.

Lemma byte_of_eq b z : z = code b -> byte_of z = b.
Proof. intros ->. apply byte_of_code. Qed.

(** The characters of one whole group. *)
Lemma decode_group n a b c left s :
  4 <= left ->
  decode_loop (S (S (S n))) left P0
    (six_char (code a / 4) :: six_char (code a mod 4 * 16 + code b / 16) ::
     six_char (code b mod 16 * 4 + code c / 64) :: six_char (code c mod 64) :: s) =
  match decode_loop n (left - 4) P0 s with Bytes out => Bytes (a :: b :: c :: out) | e => e end.
Proof.
  intros Hl. pose proof (code_range a). pose proof (code_range b). pose proof (code_range c).
  cbn [decode_loop next_octet].
  destruct (Z.eqb_spec left 0); [lia|]. read. read.
  destruct (Z.eqb_spec (left - 2) 0); [lia|]. read.
  destruct (Z.eqb_spec (left - 2 - 1) 0); [lia|]. read.
  rewrite (byte_of_eq a (code a / 4 * 4 + (code a mod 4 * 16 + code b / 16) / 16)),
    (byte_of_eq b ((code a mod 4 * 16 + code b / 16) mod 16 * 16 + (code b mod 16 * 4 + code c / 64) / 4)),
    (byte_of_eq c ((code b mod 16 * 4 + code c / 64) mod 4 * 64 + code c mod 64)) by dlia.
  replace (left - 2 - 1 - 1) with (left - 4) by lia.
  by destruct (decode_loop n (left - 4) P0 s).
Qed.

Lemma decode_groups s rest : forall left,
  Z.of_nat (length (encode_groups s)) <= left ->
  decode_loop (length s) left P0 (encode_groups s ++ rest) = Bytes s.
Proof.
  remember (length s) as n eqn:En. revert s En.
  induction (lt_wf n) as [n _ IH]. intros s ->. destruct s as [|a [|b [|c s]]]; intros left Hl; [done|..].
  - pose proof (code_range a). cbn [encode_groups app length decode_loop next_octet] in *.
    destruct (Z.eqb_spec left 0); [lia|]. read. read.
    by rewrite (byte_of_eq a) by dlia.
  - pose proof (code_range a). pose proof (code_range b).
    cbn [encode_groups app length decode_loop next_octet] in *.
    destruct (Z.eqb_spec left 0); [lia|]. read. read.
    destruct (Z.eqb_spec (left - 2) 0); [lia|]. read.
    by rewrite (byte_of_eq a (code a / 4 * 4 + (code a mod 4 * 16 + code b / 16) / 16)),
      (byte_of_eq b ((code a mod 4 * 16 + code b / 16) mod 16 * 16 + code b mod 16 * 4 / 4)) by dlia.
  - cbn [encode_groups app length] in *. rewrite decode_group by lia.
    rewrite (IH (length s)); [done|simpl; lia|done|]. lia.
Qed.

Lemma encode_groups_text s : Forall (fun c => is_base64_text c = true) (encode_groups s).
Proof.
  remember (length s) as n eqn:En. revert s En. induction (lt_wf n) as [n _ IH]. intros s ->.
  destruct s as [|a [|b [|c s]]]; cbn [encode_groups].
  - constructor.
  - pose proof (code_range a). repeat constructor; apply six_char_text; dlia.
  - pose proof (code_range a). pose proof (code_range b). repeat constructor; apply six_char_text; dlia.
  - pose proof (code_range a). pose proof (code_range b). pose proof (code_range c).
    do 4 (constructor; [apply six_char_text; dlia|]). apply (IH (length s)); [simpl; lia|done].
Qed.

(** What is encoded is decoded again, whatever is behind the view. *)
Lemma util_base64_roundtrip (s b : list byte) :
  util_base64_decode (length s) {| chars := util_base64_encode s; behind := b |} = Bytes s.
Proof.
  unfold util_base64_decode, util_base64_encode. rewrite trim_back_replicate.
  - cbn [chars behind]. by apply decode_groups.
  - intros E. apply last_Some_elem_of in E. pose proof (encode_groups_text s) as Ht.
    rewrite Forall_forall in Ht. by specialize (Ht _ E).
Qed.

Lemma text_char c : is_base64_text c = true -> is_base64_char c = true.
Proof.
  unfold is_base64_text, is_base64_char, is_digit. rewrite !orb_true_iff, !andb_true_iff, !Z.leb_le, !Z.eqb_eq. lia.
Qed.

Lemma encode_groups_length s :
  (length (encode_groups s) + (3 - length s mod 3) mod 3 = 4 * ((length s + 2) / 3))%nat.
Proof.
  remember (length s) as n eqn:En. revert s En. induction (lt_wf n) as [n _ IH]. intros s ->.
  destruct s as [|a [|b [|c s]]]; [done..|]. cbn [encode_groups length].
  specialize (IH (length s) ltac:(cbn; lia) s eq_refl).
  replace (S (S (S (length s)))) with (length s + 1 * 3)%nat by lia.
  rewrite Nat.Div0.mod_add. replace (length s + 1 * 3 + 2)%nat with (length s + 2 + 1 * 3)%nat by lia.
  rewrite Nat.div_add by lia. lia.
Qed.

Lemma decode_loop_size k : forall left p s out, decode_loop k left p s = Bytes out -> length out = k.
Proof.
  induction k as [|k IH]; intros left p s out; cbn [decode_loop]; [by intros [= <-]|].
  destruct (left =? 0); [done|]. destruct (next_octet p s) as [e|[[[b p'] s'] n]] eqn:E.
  - intros ->. exfalso. unfold next_octet, next_six in E. repeat case_match; simplify_eq.
  - destruct (decode_loop k _ p' s') as [o| | |] eqn:Eo; [|done..]. intros [= <-]. cbn. f_equal. by eapply IH.
Qed.

End Roundtrip.

(** ** What the other components rely on *)

(** Four characters for three bytes. *)
Class Base64Size (B : Base64) : Prop :=
  base64_length s : length (base64_encode s) = (4 * ((length s + 2) / 3))%nat.

Section Interface.
Context {T : Base64Table} {L : Base64TableLaws T}.

(** The base64 of the program; a decoding that is not accepted gives nothing. *)
Definition program_base64 : Base64 := {|
  base64_encode := util_base64_encode;
  base64_decode n s := match util_base64_decode n (view_of s) with Bytes out => Some out | _ => None end;
|}.

Lemma program_base64_laws : Base64Laws program_base64.
Proof.
  split; cbn [base64_encode base64_decode program_base64].
  - intros s. unfold view_of. by rewrite util_base64_roundtrip.
  - intros s. unfold util_base64_encode. rewrite forallb_app. apply andb_true_iff. split.
    + rewrite forallb_forall. intros c Hc%list_elem_of_In. apply text_char. pose proof (encode_groups_text s) as Ht. rewrite Forall_forall in Ht. by apply Ht.
    + by induction ((3 - length s mod 3) mod 3)%nat.
  - intros s Hs E. apply app_eq_nil in E as [E _]. by destruct s as [|a [|b [|c s]]].
  - intros n s out. destruct (util_base64_decode n (view_of s)) as [o| | |] eqn:E; [|done..]. intros [= <-].
    by eapply decode_loop_size.
Qed.

Lemma program_base64_size : Base64Size program_base64.
Proof.
  intros s. cbn [base64_encode program_base64]. unfold util_base64_encode. rewrite length_app, length_replicate.
  apply encode_groups_length.
Qed.

(** Characters behind those that are needed are not looked at. *)
Lemma util_base64_trailing (s extra b : list byte) :
  last (encode_groups s ++ extra) <> Some "="%byte ->
  util_base64_decode (length s) {| chars := encode_groups s ++ extra; behind := b |} = Bytes s.
Proof.
  intros Hl. unfold util_base64_decode. pose proof (trim_back_replicate "="%byte 0 _ b Hl) as E.
  rewrite app_nil_r in E. rewrite E. cbn [chars behind]. rewrite <-app_assoc. apply decode_groups.
  rewrite length_app. lia.
Qed.

(** ** Theorems *)

(** base64 is a code: what is encoded is decoded to the same bytes, the text has
    four characters of the alphabet or padding for every three bytes, two texts are
    the same only for the same bytes, and a text that goes on behind what is needed
    is decoded to the same bytes still. *)
Theorem base64_is_a_code (s t extra b : list byte) :
  util_base64_decode (length s) {| chars := util_base64_encode s; behind := b |} = Bytes s /\
  length (util_base64_encode s) = (4 * ((length s + 2) / 3))%nat /\
  forallb is_base64_char (util_base64_encode s) = true /\
  (length s = length t /\ util_base64_encode s = util_base64_encode t -> s = t) /\
  (last (encode_groups s ++ extra) <> Some "="%byte ->
   util_base64_decode (length s) {| chars := encode_groups s ++ extra; behind := b |} = Bytes s).
Proof.
  split_and!.
  - apply util_base64_roundtrip.
  - apply (program_base64_size s).
  - apply (base64_text (Base64Laws := program_base64_laws)).
  - intros [Hl E]. pose proof (util_base64_roundtrip s []) as H1. rewrite E, Hl, util_base64_roundtrip in H1. by injection H1.
  - apply util_base64_trailing.
Qed.

End Interface.

(** ** The alphabet of RFC 4648 *)

Definition alphabet : list byte := str "ABCDEFGHIJKLMNOPQRSTUVWXYZabcdefghijklmnopqrstuvwxyz0123456789+/".

#[local] Instance rfc4648 : Base64Table := {|
  six_char v := default "A"%byte (alphabet !! Z.to_nat v);
  six_bits c := Z.of_nat <$> find_char c alphabet;
|}.

#[local] Instance rfc4648_laws : Base64TableLaws rfc4648.
Proof.
  assert (forallb (fun n => bool_decide (six_bits (six_char (Z.of_nat n)) = Some (Z.of_nat n))
                            && is_base64_text (six_char (Z.of_nat n))) (seq 0 64) = true) as Hall
    by (vm_compute; reflexivity).
  rewrite forallb_forall in Hall.
  assert (forall v, 0 <= v < 64 -> six_bits (six_char v) = Some v /\ is_base64_text (six_char v) = true) as Hv.
  { intros v Hv. specialize (Hall (Z.to_nat v)). rewrite Z2Nat.id in Hall by lia. rewrite andb_true_iff, bool_decide_eq_true in Hall.
    apply Hall, in_seq. lia. }
  by split; apply Hv.
Qed.

Definition rfc_base64 : Base64 := program_base64.
Definition rfc_base64_laws : Base64Laws rfc_base64 := program_base64_laws.
Definition rfc_base64_size : Base64Size rfc_base64 := program_base64_size.

Example encode_sample : util_base64_encode (str "Ouinet!") = str "T3VpbmV0IQ==".
Proof. vm_compute. reflexivity. Qed.

(** A text that is cut off after the first character of a group makes the decoder read
    behind the view. *)
Example decode_cut_off : util_base64_decode 4 {| chars := str "T3Vpb"; behind := [] |} = OutOfBounds.
Proof. vm_compute. reflexivity. Qed.

Lemma base64_is_a_code_witness :
  util_base64_decode 7 {| chars := str "T3VpbmV0IQx"; behind := str "==" |} = Bytes (str "Ouinet!").
Proof.
  destruct (base64_is_a_code (str "Ouinet!") [] (str "x") (str "==")) as (_ & _ & _ & _ & Hextra).
  apply Hextra. vm_compute. discriminate.
Defined.
