(* ===== verification/SignedHead.v ===== *)
(** * What head signatures guarantee: src/cache/http_sign.cpp and signed_head.cpp

    Theorems about the definitions of HttpSign: what the injector signs is
    accepted by the client with nothing lost, what the client keeps is covered by
    a good signature, the signed string determines the headers, and what merging
    the signatures of a trailer does. *)
From S2P Require Import Prelude Number SplitString Url Http Crypto HashList HttpSign.

(** ** A head that is signed verifies *)

(** The characters of header names (RFC 7230). *)
Definition is_tchar (c : byte) : bool :=
  is_digit c || ((65 <=? code c) && (code c <=? 90)) || ((97 <=? code c) && (code c <=? 122))
  || bool_decide (c ∈ str "!#$%&'*+-.^_`|~").

Definition is_token (n : list byte) : bool := negb (bool_decide (n = [])) && forallb is_tchar n.

Definition token_names (fs : fields) : Prop := forall f, f ∈ fs -> is_token (fst f) = true.

Lemma tchar_plain c : is_tchar c = true -> is_plain c = true /\ c <> "("%byte /\ c <> ":"%byte.
Proof. by destruct c. Qed.

Lemma tchar_lower c : is_tchar (lower c) = is_tchar c.
Proof. by destruct c. Qed.

Lemma base64_plain c : is_base64_char c = true -> is_plain c = true.
Proof. by destruct c. Qed.

Lemma forallb_mono {A} (p q : A -> bool) l :
  (forall x, p x = true -> q x = true) -> forallb p l = true -> forallb q l = true.
Proof. intros Hpq. rewrite !forallb_forall. auto. Qed.

Lemma token_lower n : is_token n = true -> is_token (lower_str n) = true.
Proof.
  unfold is_token. rewrite !andb_true_iff, !negb_true_iff, !bool_decide_eq_false, !forallb_forall.
  intros [Hn Ht]. split; [by destruct n|]. intros c (d & <- & Hd)%in_map_iff. rewrite tchar_lower. auto.
Qed.

Lemma token_spec n :
  is_token n = true ->
  n <> [] /\ forallb is_plain n = true /\ head n <> Some "("%byte /\ (":"%byte ∉ n).
Proof.
  unfold is_token. rewrite andb_true_iff, negb_true_iff, bool_decide_eq_false, forallb_forall. intros [Hn Ht].
  split_and!; [done| | |].
  - apply forallb_forall. intros c Hc. by apply tchar_plain, Ht.
  - destruct n as [|c n]; [done|]. intros [= ->]. specialize (Ht "("%byte (or_introl eq_refl)). done.
  - intros Hc%list_elem_of_In%Ht. done.
Qed.

Lemma to_string_plain z : forallb is_plain (to_string z) = true /\ to_string z <> [].
Proof.
  rewrite to_string_abs. destruct (abs_digits_spec z) as (H1 & _ & H3). split; [|by destruct (z <? 0)].
  rewrite forallb_app, andb_true_iff. split; [by destruct (z <? 0)|].
  apply forallb_forall. intros c Hc%list_elem_of_In. unfold all_digits in H1. rewrite Forall_forall in H1.
  apply tchar_plain. unfold is_tchar. by rewrite (H1 c Hc).
Qed.

Lemma join_plain ns :
  Forall (fun n => forallb is_plain n = true) ns -> clean (join " "%byte ns).
Proof.
  intros Hns. destruct Hns as [|n ns Hn Hns]; [split; apply not_elem_of_nil|]. rewrite join_cons.
  apply clean_app; [by apply plain_text|].
  induction Hns as [|m ns Hm Hns IH]; [split; apply not_elem_of_nil|]. cbn [map concat].
  apply clean_app; [|done]. change (" "%byte :: m) with ([" "%byte] ++ m).
  apply clean_app; [split; by_evaluation|by apply plain_text].
Qed.

Lemma find_field_None n fs : find_field n fs = None <-> forall f, f ∈ fs -> lower_str (fst f) <> lower_str n.
Proof.
  unfold find_field. rewrite fmap_None. split.
  - intros Hf f Hin E. apply same_name_lower in E. apply list_elem_of_In in Hin.
    by rewrite (find_none _ _ Hf _ Hin) in E.
  - intros Hf. destruct (List.find (same_name n) fs) as [f|] eqn:E; [|done].
    apply find_some in E as [Hin%list_elem_of_In E%same_name_lower]. by apply Hf in E.
Qed.

(** The name and value pairs that a signature of a head covers. *)
Definition signed_pairs (rsh : response_header) (ts : Z) (sorted : list (list byte)) : fields :=
  (str "(response-status)", to_string (result rsh)) :: (str "(created)", to_string ts)
  :: map (fun n => (n, flat (values n (rs_fields rsh)))) sorted.

Lemma prepared_names rsh sorted m :
  prepared (rs_fields rsh) sorted m -> token_names (rs_fields rsh) -> forall n, n ∈ sorted -> is_token n = true.
Proof.
  intros (_ & Hin & _) Ht n [Hl (f & Hf & E)%values_nonempty]%Hin. rewrite <-Hl, <-E. by apply token_lower, Ht.
Qed.

Lemma pseudo_fresh sorted fs m :
  prepared fs sorted m -> (forall n, n ∈ sorted -> is_token n = true) ->
  fresh_names (str "(response-status)" :: str "(created)" :: sorted) [].
Proof.
  intros (Hnd & Hin & _) Ht.
  assert (forall n, head n = Some "("%byte -> n ∉ sorted) as Hp.
  { intros n Hn Hs%Ht. by apply token_spec in Hs as (_ & _ & Hs & _). }
  split_and!.
  - apply NoDup_cons. split; [apply not_elem_of_cons; split; [done|by apply Hp]|].
    apply NoDup_cons. split; [by apply Hp|done].
  - intros n. rewrite !elem_of_cons. intros [->|[->|Hn]]; [done|done|]. by apply Hin in Hn as [].
  - by intros f Hf%not_elem_of_nil.
Qed.

Lemma elem_of_insert_field n v fs f : f ∈ insert_field n v fs <-> f ∈ fs \/ f = (n, v).
Proof.
  induction fs as [|g fs IH]; cbn [insert_field]; [rewrite list_elem_of_singleton; set_solver|].
  destruct (same_name n g && negb (existsb (same_name n) fs)); rewrite !elem_of_cons; [|rewrite IH]; naive_solver.
Qed.

Lemma filter_lower n m fs : lower_str n = lower_str m -> List.filter (same_name n) fs = List.filter (same_name m) fs.
Proof. intros E. apply filter_ext. intros f. unfold same_name, iequals. by rewrite E. Qed.

Lemma values_lower n m fs : lower_str n = lower_str m -> values n fs = values m fs.
Proof. intros E. unfold values. by rewrite (filter_lower n m). Qed.

Section Signed.
Context {S : SignatureScheme} {SL : SignatureLaws S} {B : Base64} {BL : Base64Laws B}.

Lemma http_signature_text rsh sk key_id ts :
  token_names (rs_fields rsh) ->
  exists sorted m, prepared (rs_fields rsh) sorted m /\
    http_signature rsh sk key_id ts =
    signature_text key_id sig_alg_hs2019 (to_string ts)
      (join " "%byte (str "(response-status)" :: str "(created)" :: sorted))
      (base64_encode (sign_message sk (join newline (map header_line (signed_pairs rsh ts sorted))))).
Proof.
  intros Ht. unfold http_signature.
  set (outh := set_field (str "(created)") _ _). destruct (prep_sig_head_spec (rs_fields rsh) outh) as (sorted & m & Hp & Hhead).
  exists sorted, m. split; [done|].
  destruct (pseudo_fresh sorted _ m Hp (prepared_names _ _ _ Hp Ht)) as (Hnd & Hl & _).
  assert (outh = [(str "(response-status)", to_string (result rsh)); (str "(created)", to_string ts)]) as Eo by done.
  rewrite Hhead, get_sig_str_hdrs_spec, Eo.
  - unfold signature_text, signed_pairs. cbn [map app fst]. rewrite !map_map. cbn [fst]. by rewrite map_id.
  - rewrite Eo. rewrite !NoDup_cons in Hnd. split_and!; [naive_solver|set_solver|].
    intros f Hf. rewrite !elem_of_cons in Hf. destruct Hf as [->|[->|Hf%not_elem_of_nil]]; [..|done].
    + change (lower_str (fst _)) with (str "(response-status)"). set_solver.
    + change (lower_str (fst _)) with (str "(created)"). set_solver.
Qed.

(** What verification computes for the names of such a signature. *)
Lemma verification_head_signed rsh rsh' ts sorted m hs :
  prepared (rs_fields rsh) sorted m -> token_names (rs_fields rsh) ->
  chars (created hs) = to_string ts ->
  chars (headers hs) = join " "%byte (str "(response-status)" :: str "(created)" :: sorted) ->
  result rsh' = result rsh ->
  (forall n, values n (rs_fields rsh) <> [] -> values n (rs_fields rsh') = values n (rs_fields rsh)) ->
  (forall n, ~ starts_empty (values n (rs_fields rsh))) ->
  verification_head rsh' hs = Some (signed_pairs rsh ts sorted).
Proof.
  intros Hp Ht Hc Hh Hr Hv He. pose proof (prepared_names _ _ _ Hp Ht) as Htok. unfold verification_head.
  set (ns := str "(response-status)" :: str "(created)" :: sorted) in *.
  assert (map chars (SplitString (headers hs) " "%byte) = ns) as Hns.
  { apply SplitString_join; [done|done|]. apply Forall_forall. intros n Hn.
    assert (" "%byte ∉ n) as Hsp; [|split; [done|by apply no_margin_free]].
    unfold ns in Hn. rewrite !elem_of_cons in Hn. destruct Hn as [->|[->|Hn%Htok]]; [by_evaluation|by_evaluation|].
    apply token_spec in Hn as (_ & Hn & _). by apply plain_text. }
  pose (value n := if bool_decide (n = str "(response-status)") then to_string (result rsh)
                   else if bool_decide (n = str "(created)") then to_string ts
                   else flat (values n (rs_fields rsh))).
  rewrite (verification_loop_spec _ _ value).
  - rewrite Hns. unfold signed_pairs, ns. cbn [map app].
    apply (f_equal (fun l => Some ((str "(response-status)", to_string (result rsh)) :: (str "(created)", to_string ts) :: l))).
    apply map_ext_in.
    intros n Hn%list_elem_of_In%Htok%token_spec. unfold value.
    rewrite !bool_decide_false; [done|..]; intros ->; naive_solver.
  - rewrite Hns. by eapply pseudo_fresh.
  - intros hn Hhn. assert (chars hn ∈ ns) as Hn by (rewrite <-Hns; by apply list_elem_of_fmap_2).
    unfold ns in Hn. rewrite !elem_of_cons in Hn. unfold verification_value, value, first_char.
    destruct Hn as [E|[E|Hn]].
    + rewrite E. unfold response_status_ph. rewrite Hr. destruct (to_string_plain (result rsh)) as [_ Hne].
      by destruct (to_string (result rsh)).
    + rewrite E, <-Hc. reflexivity.
    + destruct (token_spec _ (Htok _ Hn)) as (Hne & _ & Hhd & _).
      assert (head (chars hn ++ behind hn) = head (chars hn)) as -> by (by destruct (chars hn)).
      rewrite !(bool_decide_false (head (chars hn) = _)) by done. cbn [negb].
      rewrite !(bool_decide_false (chars hn = _)) by (intros E; by rewrite E in Hhd).
      assert (values (chars hn) (rs_fields rsh) <> []) as Hn0 by (destruct Hp as (_ & Hin & _); by apply Hin).
      rewrite <-Hv by done. apply flatten_values. rewrite Hv by done. done.
Qed.

(** The headers that a signature does not cover. *)
Definition uncovered (vh fs extra : fields) : fields :=
  foldl (fun extra hdr => if bool_decide (find_field (fst hdr) vh = None)
                          then insert_field (fst hdr) (snd hdr) extra else extra) extra fs.

Lemma elem_of_uncovered vh f fs : forall extra,
  f ∈ uncovered vh fs extra <-> f ∈ extra \/ f ∈ fs /\ find_field (fst f) vh = None.
Proof.
  induction fs as [|g fs IH]; intros extra; cbn [uncovered foldl]; [set_solver|].
  fold (uncovered vh fs (if bool_decide (find_field (fst g) vh = None) then insert_field (fst g) (snd g) extra else extra)).
  rewrite IH, elem_of_cons. case_bool_decide; [|naive_solver]. rewrite elem_of_insert_field. destruct g. naive_solver.
Qed.

Lemma signed_pairs_find rsh ts sorted m n :
  prepared (rs_fields rsh) sorted m -> is_token n = true ->
  find_field n (signed_pairs rsh ts sorted) = None <-> values n (rs_fields rsh) = [].
Proof.
  intros (_ & Hin & _) Ht%token_lower%token_spec. destruct Ht as (_ & _ & Hp & _).
  rewrite <-(values_lower (lower_str n) n) by apply lower_str_idem. rewrite find_field_None. split.
  - intros Hno. destruct (values (lower_str n) (rs_fields rsh)) eqn:E; [done|]. exfalso.
    apply (Hno (lower_str n, flat (values (lower_str n) (rs_fields rsh)))); [|apply lower_str_idem].
    do 2 right. apply (list_elem_of_fmap_2 (fun n => (n, flat (values n (rs_fields rsh))))), Hin.
    rewrite E. split; [apply lower_str_idem|done].
  - intros E f Hf En. unfold signed_pairs in Hf. rewrite !elem_of_cons in Hf.
    destruct Hf as [->|[->|(k & -> & [Hk Hv]%Hin)%list_elem_of_fmap]]; cbn [fst] in En.
    + by rewrite <-En in Hp.
    + by rewrite <-En in Hp.
    + apply Hv. by rewrite <-E, <-En, Hk.
Qed.

Lemma http_signature_verify rsh rsh' sk key_id ts v :
  chars v = http_signature rsh sk key_id ts -> token_names (rs_fields rsh) -> token_names (rs_fields rsh') ->
  clean key_id -> key_id <> [] -> result rsh' = result rsh ->
  (forall n, values n (rs_fields rsh) <> [] -> values n (rs_fields rsh') = values n (rs_fields rsh)) ->
  (forall n, ~ starts_empty (values n (rs_fields rsh))) ->
  exists hs extra, HttpSignature_parse v = Some hs /\ chars (keyId hs) = key_id /\
    chars (algorithm hs) = sig_alg_hs2019 /\ HttpSignature_verify hs rsh' (public_key_of sk) = (true, extra) /\
    (forall n, find_field n extra = None <-> values n (rs_fields rsh') = [] \/ values n (rs_fields rsh) <> []).
Proof.
  intros Hv Ht Ht' Hk Hk0 Hr Hvals He.
  destruct (http_signature_text rsh sk key_id ts Ht) as (sorted & m & Hp & Htext). rewrite Htext in Hv.
  pose proof (prepared_names _ _ _ Hp Ht) as Htok. destruct (to_string_plain ts) as [Hts%plain_text _].
  set (msg := join newline (map header_line (signed_pairs rsh ts sorted))) in *.
  assert (base64_encode (sign_message sk msg) <> []) as Hs0.
  { apply base64_nonempty. intros E. pose proof (signature_size sk msg) as L. by rewrite E in L. }
  destruct (parse_signature_text _ _ _ _ _ _ Hv) as (hs & Hparse & Hparts); try done.
  - split; by_evaluation.
  - apply Hts.
  - apply join_plain. repeat constructor. apply Forall_forall. intros n Hn%Htok. by apply token_spec in Hn as (_ & Hn & _).
  - eapply plain_text, forallb_mono; [apply base64_plain|apply base64_text].
  - apply no_margin_free, Hts.
  - injection Hparts as Ek Ea Ec Ee Eh Es. exists hs, (uncovered (signed_pairs rsh ts sorted) (rs_fields rsh') []).
    split_and!; [done|done|done|..].
    + unfold HttpSignature_verify. rewrite (verification_head_signed rsh rsh' ts sorted m hs) by done.
      rewrite get_sig_str_hdrs_spec, Es. fold msg. by rewrite <-(signature_size sk msg), base64_decode_encode, verify_sign.
    + intros n. rewrite find_field_None. setoid_rewrite elem_of_uncovered. split.
      * intros Hno. destruct (decide (values n (rs_fields rsh') = [])) as [E|E]; [by left|right]. intros E'.
        apply values_nonempty in E as (f & Hf & En). apply (Hno f); [right; split; [done|]|done].
        apply (signed_pairs_find rsh ts sorted m); [done|by apply Ht'|]. by rewrite (values_lower _ _ _ En).
      * intros Hcase f [Hf%not_elem_of_nil|[Hf Hno]] En; [done|].
        apply (signed_pairs_find rsh ts sorted m) in Hno; [|done|by apply Ht']. rewrite (values_lower _ _ _ En) in Hno.
        destruct Hcase as [E|?]; [|done]. assert (values n (rs_fields rsh') <> []) by (apply values_nonempty; by exists f). done.
Qed.

End Signed.

(** *** Fields by name *)

Lemma same_name_iff n f : same_name n f = bool_decide (lower_str (fst f) = lower_str n).
Proof. done. Qed.

Lemma values_erase n m fs :
  values n (erase_field m fs) = if bool_decide (lower_str m = lower_str n) then [] else values n fs.
Proof.
  unfold values, erase_field. induction fs as [|f fs IH]; [by case_bool_decide|]. cbn [List.filter].
  rewrite (same_name_iff m f). destruct (decide (lower_str (fst f) = lower_str m)) as [E|E].
  - rewrite (bool_decide_true (_ = lower_str m)) by done. cbn [negb]. rewrite IH, same_name_iff, E. by case_bool_decide.
  - rewrite (bool_decide_false (_ = lower_str m)) by done. cbn [negb List.filter]. rewrite (same_name_iff n f).
    destruct (bool_decide_reflect (lower_str (fst f) = lower_str n)) as [E'|E']; [|apply IH].
    cbn [map]. rewrite IH, bool_decide_false by congruence. done.
Qed.

Lemma values_set n m v fs :
  values n (set_field m v fs) =
  if bool_decide (lower_str m = lower_str n) then [trimmed_value v] else values n fs.
Proof.
  unfold set_field. rewrite values_snoc, values_erase, same_name_iff. cbn [fst snd].
  destruct (bool_decide _); [done|]. apply app_nil_r.
Qed.

Lemma elem_of_erase_field m fs f : f ∈ erase_field m fs <-> f ∈ fs /\ lower_str (fst f) <> lower_str m.
Proof.
  unfold erase_field. rewrite !list_elem_of_In, filter_In, negb_true_iff, <-not_true_iff_false, <-same_name_lower. done.
Qed.

Lemma elem_of_set m v fs f : f ∈ set_field m v fs -> f ∈ fs \/ f = (m, v).
Proof. unfold set_field. rewrite elem_of_app, elem_of_erase_field, list_elem_of_singleton. naive_solver. Qed.

Lemma insert_field_new n v fs :
  (forall f, f ∈ fs -> lower_str (fst f) <> lower_str n) -> insert_field n v fs = fs ++ [(n, v)].
Proof.
  induction fs as [|f fs IH]; intros Hf; [done|]. cbn [insert_field]. rewrite same_name_iff.
  rewrite bool_decide_false by (apply Hf; left). simpl. rewrite IH; [done|]. intros g Hg. apply Hf. by right.
Qed.

(** Whether a field is a signature. *)
Definition sig_field (f : list byte * list byte) : bool := is_signature_hdr (fst f).

Lemma forallb_digit_lower s : forallb is_digit (lower_str s) = forallb is_digit s.
Proof. induction s as [|c s IH]; [done|]. cbn. rewrite <-IH. f_equal. by destruct c. Qed.

Lemma is_signature_hdr_lower n : is_signature_hdr (lower_str n) = is_signature_hdr n.
Proof.
  unfold is_signature_hdr, iequals. set (k := length response_signature_hdr_pfx).
  assert (take k (lower_str n) = lower_str (take k n)) as -> by (symmetry; apply (fmap_take lower)).
  assert (drop k (lower_str n) = lower_str (drop k n)) as -> by (symmetry; apply (fmap_drop lower)).
  rewrite lower_str_idem, forallb_digit_lower. repeat f_equal. by destruct (drop k n).
Qed.

Lemma sig_field_name n f : lower_str (fst f) = lower_str n -> sig_field f = is_signature_hdr n.
Proof. intros E. unfold sig_field. by rewrite <-is_signature_hdr_lower, E, is_signature_hdr_lower. Qed.

Lemma filter_sig_erase n fs :
  is_signature_hdr n = false -> List.filter sig_field (erase_field n fs) = List.filter sig_field fs.
Proof.
  intros Hn. unfold erase_field. induction fs as [|f fs IH]; [done|]. cbn [List.filter].
  destruct (same_name n f) eqn:E; cbn [negb List.filter]; [|by rewrite IH].
  apply same_name_lower in E. by rewrite (sig_field_name n f E), Hn.
Qed.

Lemma filter_sig_set n v fs :
  is_signature_hdr n = false -> List.filter sig_field (set_field n v fs) = List.filter sig_field fs.
Proof.
  intros Hn. unfold set_field. rewrite List.filter_app, filter_sig_erase by done. simpl.
  unfold sig_field at 2. simpl. rewrite Hn. apply app_nil_r.
Qed.

(** The first loop of [SignedHead::verify] takes the signatures out. *)
Lemma split_signatures_spec fs tv :
  split_signatures fs tv =
  (List.filter (fun f => negb (sig_field f)) fs,
   foldl (fun tv h => erase_field (fst h) tv) tv (List.filter sig_field fs),
   foldl (fun sigs h => insert_field (fst h) (snd h) sigs) [] (List.filter sig_field fs)).
Proof.
  unfold split_signatures.
  enough (forall rs tv sigs, foldl (fun '(rs, tv, sigs) hdr =>
             if is_signature_hdr (fst hdr)
             then (rs, erase_field (fst hdr) tv, insert_field (fst hdr) (snd hdr) sigs)
             else (rs ++ [hdr], tv, sigs)) (rs, tv, sigs) fs =
           (rs ++ List.filter (fun f => negb (sig_field f)) fs,
            foldl (fun tv h => erase_field (fst h) tv) tv (List.filter sig_field fs),
            foldl (fun sigs h => insert_field (fst h) (snd h) sigs) sigs (List.filter sig_field fs))) as Hgen
    by apply Hgen.
  induction fs as [|f fs IH]; intros rs tv' sigs; cbn [foldl List.filter]; [by rewrite app_nil_r|].
  change (sig_field f) with (is_signature_hdr (fst f)). destruct (is_signature_hdr (fst f)); cbn [negb foldl]; rewrite IH; [done|].
  by rewrite <-app_assoc.
Qed.

(** ** Framing *)

Section Framing.
Context {T : TransferCoding} {TL : TransferCodingLaws T}.

Definition framing_names : list (list byte) := [str "Transfer-Encoding"; str "Content-Length"; str "Trailer"].
Definition is_framing (n : list byte) : bool := existsb (iequals n) framing_names.

(** The body is not encoded, or only chunked. *)
Definition only_chunked (fs : fields) : Prop :=
  forall te, find_field (str "Transfer-Encoding") fs = Some te -> iequals te (str "chunked") = true.

Lemma values_without_framing n rsh :
  only_chunked (rs_fields rsh) ->
  values n (rs_fields (without_framing rsh)) = if is_framing n then [] else values n (rs_fields rsh).
Proof.
  intros Hte. unfold without_framing, set_chunked. cbn [rs_fields set_rs_fields]. rewrite !values_erase.
  assert (values n (set_chunked_impl false (rs_fields rsh)) =
          if bool_decide (lower_str (str "Transfer-Encoding") = lower_str n) then [] else values n (rs_fields rsh)) as ->.
  { unfold set_chunked_impl. destruct (find_field _ _) as [te|] eqn:E.
    - rewrite chunked_dropped by (by apply Hte). apply values_erase.
    - case_bool_decide as En; [|done]. destruct (values n (rs_fields rsh)) as [|v vs] eqn:Ev; [done|].
      exfalso. rewrite find_field_None in E. destruct (proj1 (values_nonempty n (rs_fields rsh))) as (f & Hf & Ef).
      { by rewrite Ev. }
      by apply (E f Hf); rewrite Ef. }
  unfold is_framing, framing_names, iequals. cbn [existsb].
  repeat case_bool_decide; cbn [orb]; try done; exfalso; congruence.
Qed.

Lemma find_erase_other n m fs :
  lower_str m <> lower_str n -> find_field n (erase_field m fs) = find_field n fs.
Proof.
  intros Hne. unfold find_field, erase_field. f_equal. apply find_filter. intros f Hf%same_name_lower.
  apply negb_true_iff, not_true_iff_false. rewrite <-same_name_lower. congruence.
Qed.

Lemma framing_lower n m : lower_str m = lower_str n -> is_framing m = is_framing n.
Proof. unfold is_framing, iequals. by intros ->. Qed.

Lemma values_set_chunked b n fs :
  is_framing n = false -> values n (set_chunked b fs) = values n fs.
Proof.
  intros Hn. assert (forall m, is_framing m = true -> lower_str m <> lower_str n) as Hne.
  { intros m Hm E%framing_lower. congruence. }
  unfold set_chunked. rewrite values_erase, bool_decide_false by (by apply Hne). unfold set_chunked_impl.
  destruct (find_field _ fs) as [te|], b; [destruct (last_is_chunked te)|destruct (drop_chunked te)|..];
    rewrite ?values_set, ?values_erase, ?bool_decide_false by (by apply Hne); done.
Qed.

Lemma filter_sig_chunked b fs : List.filter sig_field (set_chunked b fs) = List.filter sig_field fs.
Proof.
  unfold set_chunked. rewrite filter_sig_erase by done. unfold set_chunked_impl.
  destruct (find_field _ fs) as [te|], b; [destruct (last_is_chunked te)|destruct (drop_chunked te)|..];
    rewrite ?filter_sig_set, ?filter_sig_erase by done; done.
Qed.

Lemma only_chunked_chunked fs : only_chunked fs -> only_chunked (set_chunked true fs).
Proof.
  intros Hte te. unfold set_chunked. rewrite find_erase_other by done. unfold set_chunked_impl.
  destruct (find_field _ fs) as [te'|] eqn:E.
  - rewrite chunked_is_last by (by apply Hte). intros [= <-]%(eq_trans (eq_sym E)). by apply Hte.
  - rewrite find_set_same. by intros [= <-].
Qed.

Lemma only_chunked_set n v fs :
  lower_str n <> lower_str (str "Transfer-Encoding") -> only_chunked fs -> only_chunked (set_field n v fs).
Proof.
  intros Hn Hte te. rewrite find_set_other by (by apply bool_decide_eq_false). apply Hte.
Qed.

Lemma without_framing_elem f rsh :
  only_chunked (rs_fields rsh) ->
  f ∈ rs_fields (without_framing rsh) -> f ∈ rs_fields rsh /\ is_framing (fst f) = false.
Proof.
  intros Hte. unfold without_framing, set_chunked. cbn [rs_fields set_rs_fields].
  rewrite !elem_of_erase_field. unfold set_chunked_impl, is_framing, framing_names, iequals. cbn [existsb].
  intros [[[Hf Hcl] _] Htr]. rewrite !orb_false_iff, !bool_decide_eq_false.
  destruct (find_field _ (rs_fields rsh)) as [te|] eqn:E.
  - rewrite chunked_dropped in Hf by (by apply Hte). apply elem_of_erase_field in Hf as [Hf Hn]. by split_and!.
  - rewrite find_field_None in E. split_and!; try done. by apply E.
Qed.

End Framing.

Lemma filter_both {A} (p q : A -> bool) l : List.filter p (List.filter q l) = List.filter (fun x => q x && p x) l.
Proof. induction l as [|x l IH]; [done|]. cbn [List.filter]. destruct (q x); cbn [andb List.filter]; by rewrite IH. Qed.

Lemma filter_partition {A} (p : A -> bool) l : List.filter (fun x => negb (p x)) l ++ List.filter p l ≡ₚ l.
Proof.
  induction l as [|x l IH]; [done|]. cbn [List.filter]. destruct (p x); cbn [negb app]; [|by rewrite IH].
  rewrite <-Permutation_middle. by rewrite IH.
Qed.

Lemma filter_name_erase n m fs :
  lower_str m <> lower_str n -> List.filter (same_name n) (erase_field m fs) = List.filter (same_name n) fs.
Proof.
  intros Hne. unfold erase_field. induction fs as [|f fs IH]; [done|]. cbn [List.filter].
  destruct (same_name m f) eqn:E; cbn [negb List.filter]; [|by rewrite IH].
  rewrite IH. destruct (same_name n f) eqn:E'; [|done].
  apply same_name_lower in E, E'. congruence.
Qed.

Lemma filter_name_set n m v fs :
  lower_str m <> lower_str n -> List.filter (same_name n) (set_field m v fs) = List.filter (same_name n) fs.
Proof.
  intros Hne. unfold set_field. rewrite List.filter_app, filter_name_erase by done. cbn [List.filter].
  rewrite same_name_iff, bool_decide_false by done. apply app_nil_r.
Qed.

Lemma filter_name_framing `{TransferCoding} n rsh :
  is_framing n = false ->
  List.filter (same_name n) (rs_fields (without_framing rsh)) = List.filter (same_name n) (rs_fields rsh).
Proof.
  intros Hn. assert (forall m, is_framing m = true -> lower_str m <> lower_str n) as Hne.
  { intros m Hm E%framing_lower. congruence. }
  unfold without_framing, set_chunked. cbn [rs_fields set_rs_fields].
  rewrite !filter_name_erase by (by apply Hne). unfold set_chunked_impl.
  destruct (find_field _ (rs_fields rsh)) as [te|]; [|done]. destruct (drop_chunked te);
    [apply filter_name_erase|apply filter_name_set]; by apply Hne.
Qed.

Lemma filter_name_erases n (hs : fields) : forall fs,
  (forall h, h ∈ hs -> lower_str (fst h) <> lower_str n) ->
  List.filter (same_name n) (foldl (fun tv h => erase_field (fst h) tv) fs hs) = List.filter (same_name n) fs.
Proof.
  induction hs as [|h hs IH]; intros fs Hhs; [done|]. cbn [foldl].
  rewrite IH by (intros; apply Hhs; by right). apply filter_name_erase, Hhs. left.
Qed.

Lemma elem_of_erases (hs : fields) f : forall fs,
  f ∈ foldl (fun fs h => erase_field (fst h) fs) fs hs ->
  f ∈ fs /\ forall h, h ∈ hs -> lower_str (fst f) <> lower_str (fst h).
Proof.
  induction hs as [|h hs IH]; intros fs Hf; cbn [foldl] in Hf.
  - split; [done|]. by intros h Hh%not_elem_of_nil.
  - apply IH in Hf as [[Hf Hn]%elem_of_erase_field Hhs]. split; [done|].
    intros g [->|Hg]%elem_of_cons; [done|by apply Hhs].
Qed.

(** *** The first field of a name *)

Lemma find_field_filter n fs : find_field n fs = snd <$> head (List.filter (same_name n) fs).
Proof.
  unfold find_field. f_equal. induction fs as [|f fs IH]; [done|]. cbn [List.find List.filter].
  by destruct (same_name n f).
Qed.

Lemma erases_app (hs A B : fields) :
  (forall h f, h ∈ hs -> f ∈ B -> lower_str (fst f) <> lower_str (fst h)) ->
  foldl (fun fs h => erase_field (fst h) fs) (A ++ B) hs = foldl (fun fs h => erase_field (fst h) fs) A hs ++ B.
Proof.
  revert A. induction hs as [|h hs IH]; intros A Hb; [done|]. cbn [foldl]. rewrite <-IH by (intros; apply Hb; [by right|done]).
  f_equal. unfold erase_field. rewrite List.filter_app. f_equal. apply filter_all, Forall_forall. intros f Hf.
  apply negb_true_iff, not_true_iff_false. rewrite <-same_name_lower. apply Hb; [left|done].
Qed.

Lemma filter_name_nonsig n fs :
  is_signature_hdr n = false ->
  List.filter (same_name n) (List.filter (fun f => negb (sig_field f)) fs) = List.filter (same_name n) fs.
Proof.
  intros Hn. induction fs as [|f fs IH]; [done|]. cbn [List.filter].
  destruct (same_name n f) eqn:E; [rewrite (sig_field_name n f), Hn by (by apply same_name_lower)|].
  - cbn [negb List.filter]. by rewrite E, IH.
  - destruct (negb (sig_field f)); cbn [List.filter]; by rewrite ?E.
Qed.

(** The head that the signatures are checked against. *)
Definition checked `{TransferCoding} (rsh : response_header) : response_header :=
  set_rs_fields rsh
    (foldl (fun tv h => erase_field (fst h) tv) (rs_fields (without_framing rsh)) (List.filter sig_field (rs_fields rsh))).

(** ** What the injector signs, the client accepts *)

Section Accepted.
Context {S : SignatureScheme} {SL : SignatureLaws S} {B : Base64} {BL : Base64Laws B}.
Context {T : TransferCoding} {TL : TransferCodingLaws T}.
Variables (rqh : request_header) (rsh : response_header) (id : list byte) (ts : Z) (sk : SecretKey).

(** The head before it is signed, the signature, the signed head. *)
Definition announced : fields :=
  set_field response_block_signatures_hdr (bsigs_value (encode_key_id (public_key_of sk)))
    (set_field response_injection_hdr (injection_value id ts)
      (set_field response_uri_hdr (target rqh)
        (set_field protocol_version_hdr protocol_version_hdr_current (rs_fields rsh)))).
Definition to_be_signed : response_header := without_framing (set_rs_fields rsh announced).
Definition head_signature : list byte := http_signature to_be_signed sk (encode_key_id (public_key_of sk)) ts.
Definition signed_head : response_header := sign_response rqh rsh id ts sk.

(** What [to_cache_response] leaves of a head, and that no header that is
    repeated starts with an empty value. *)
Record cache_head : Prop := {
  head_tokens : token_names (rs_fields rsh);
  head_only_chunked : only_chunked (rs_fields rsh);
  head_unsigned : List.filter sig_field (rs_fields rsh) = [];
  head_values n : ~ starts_empty (values n (rs_fields rsh));
}.

Hypothesis Hhead : cache_head.

Lemma announced_only_chunked : only_chunked announced.
Proof. unfold announced. do 4 (apply only_chunked_set; [done|]). apply Hhead. Qed.

Lemma announced_unsigned : List.filter sig_field announced = [].
Proof. unfold announced. rewrite !filter_sig_set by done. apply Hhead. Qed.

Lemma announced_tokens : token_names announced.
Proof.
  intros f Hf. unfold announced in Hf.
  do 4 (apply elem_of_set in Hf as [Hf| ->]; [|done]). by apply Hhead.
Qed.

Lemma announced_values n : ~ starts_empty (values n announced).
Proof.
  unfold announced. rewrite !values_set.
  repeat (case_bool_decide; [by intros (w & vs & [=])|]). apply Hhead.
Qed.

Lemma signed_head_fields :
  rs_fields signed_head =
  set_field (str "Trailer") (field_value (str "Trailer") (set_chunked true (set_field initial_signature_hdr head_signature announced))
     ++ (if bool_decide (field_value (str "Trailer") (set_chunked true (set_field initial_signature_hdr head_signature announced)) = [])
         then [] else comma_space) ++ response_data_size_hdr ++ str ", Digest, " ++ final_signature_hdr)
    (set_chunked true (set_field initial_signature_hdr head_signature announced)).
Proof. reflexivity. Qed.

Lemma signed_head_signatures : List.filter sig_field (rs_fields signed_head) = [(initial_signature_hdr, head_signature)].
Proof.
  rewrite signed_head_fields, filter_sig_set, filter_sig_chunked by done. unfold set_field at 1.
  rewrite List.filter_app. replace (List.filter sig_field (erase_field initial_signature_hdr announced)) with (@nil (list byte * list byte)); [done|].
  symmetry. apply filter_nil_all, Forall_forall. intros f [Hf _]%elem_of_erase_field.
  destruct (sig_field f) eqn:E; [|done]. exfalso.
  assert (In f (List.filter sig_field announced)) as Hin by (apply filter_In; by rewrite <-list_elem_of_In).
  by rewrite announced_unsigned in Hin.
Qed.

Lemma signed_head_only_chunked : only_chunked (rs_fields signed_head).
Proof.
  rewrite signed_head_fields. apply only_chunked_set; [done|]. apply only_chunked_chunked, only_chunked_set; [done|].
  apply announced_only_chunked.
Qed.

(** The head that the client checks has the values that were signed. *)
Lemma checked_values n :
  values n (erase_field initial_signature_hdr (rs_fields (without_framing signed_head))) = values n (rs_fields to_be_signed).
Proof.
  rewrite values_erase. unfold to_be_signed. rewrite !values_without_framing
    by (apply signed_head_only_chunked || apply announced_only_chunked). cbn [rs_fields set_rs_fields].
  case_bool_decide as E.
  - destruct (is_framing n); [done|]. destruct (values n announced) eqn:Ev; [done|].
    exfalso. destruct (proj1 (values_nonempty n announced)) as (f & Hf & Ef); [by rewrite Ev|].
    assert (In f (List.filter sig_field announced)) as Hin.
    { apply filter_In. rewrite <-list_elem_of_In. split; [done|]. rewrite (sig_field_name initial_signature_hdr); [done|congruence]. }
    by rewrite announced_unsigned in Hin.
  - destruct (is_framing n) eqn:Ef; [done|]. rewrite signed_head_fields.
    rewrite values_set, bool_decide_false by (intros E'%framing_lower; by rewrite Ef in E').
    by rewrite values_set_chunked, values_set, bool_decide_false.
Qed.

Lemma encode_key_id_clean pk : clean (encode_key_id pk) /\ encode_key_id pk <> [].
Proof.
  unfold encode_key_id. split; [|done]. apply clean_app; [split; by_evaluation|].
  eapply plain_text, forallb_mono; [apply base64_plain|apply base64_text].
Qed.

Lemma verify_step_good tv pk st hdr hs extra :
  HttpSignature_parse (field_view (snd hdr)) = Some hs -> chars (keyId hs) = encode_key_id pk ->
  chars (algorithm hs) = sig_alg_hs2019 -> HttpSignature_verify hs tv pk = (true, extra) ->
  verify_step tv pk st hdr =
  {| v_rsh := insert_field (response_signature_hdr_pfx ++ to_string (v_sig_idx st)) (snd hdr) (v_rsh st);
     v_sig_ok := true;
     v_extra := List.filter (fun e => negb (bool_decide (find_field (fst e) extra = None))) (v_extra st);
     v_sig_idx := v_sig_idx st + 1 |}.
Proof.
  intros Hp Ek Ea Hv. unfold verify_step. rewrite Hp, Ek, bool_decide_true by done. cbn [negb].
  rewrite Ea, (bool_decide_true (sig_alg_hs2019 = sig_alg_hs2019)), andb_false_r by done. by rewrite Hv.
Qed.

Lemma injection_items v :
  chars v = injection_value id ts -> (","%byte ∉ id) -> no_margin " "%byte id ->
  chars (injection_item (SplitString v ","%byte) (str "id")) = id /\
  chars (injection_item (SplitString v ","%byte) (str "ts")) = to_string ts.
Proof.
  intros Hv Hc Hm. destruct (to_string_plain ts) as [[[Hts _] [Hsp _]]%plain_text Hne].
  pose proof (SplitString_join v ","%byte [str "id" ++ "="%byte :: id; str "ts" ++ "="%byte :: to_string ts] Hv ltac:(done)) as Hsplit.
  unshelve epose proof (Hsplit _) as Hitems.
  { repeat constructor; apply key_value_ok; done || by apply no_margin_free. }
  clear Hsplit. destruct (SplitString v ","%byte) as [|w1 [|w2 [|]]]; try discriminate.
  injection Hitems as E1 E2. cbn [injection_item].
  destruct (split_string_pair_spec w1 "="%byte (str "id") id) as [F1 G1]; [done|by_evaluation|apply no_margin_free; by_evaluation|done|].
  destruct (split_string_pair_spec w2 "="%byte (str "ts") (to_string ts)) as [F2 G2];
    [done|by_evaluation|apply no_margin_free; by_evaluation|by apply no_margin_free|].
  destruct (split_string_pair w1 "="%byte) as [k1 v1], (split_string_pair w2 "="%byte) as [k2 v2].
  cbn [fst snd] in *. rewrite F1, F2. done.
Qed.

Lemma decode_encode_key_id pk : length pk = PublicKey_size -> decode_key_id (encode_key_id pk) = Some pk.
Proof.
  intros Hl. unfold decode_key_id, encode_key_id. rewrite take_app_length, drop_app_length, bool_decide_true by done.
  rewrite <-Hl. apply base64_decode_encode.
Qed.

Lemma bsigs_no_comma k : clean k -> has_comma_in_quotes (bsigs_value k) = false.
Proof.
  intros Hk. unfold has_comma_in_quotes, bsigs_value.
  rewrite comma_loop_clean by (split; by_evaluation). rewrite comma_loop_quoted by done.
  change (str ",algorithm=" ++ quoted sig_alg_hs2019 ++ str ",size=" ++ to_string response_data_block)
    with (","%byte :: (str "algorithm=" ++ quoted sig_alg_hs2019 ++ str ",size=" ++ to_string response_data_block)).
  rewrite comma_loop_comma by done. vm_compute. reflexivity.
Qed.

Lemma bsigs_parsed v :
  chars v = bsigs_value (encode_key_id (public_key_of sk)) ->
  exists a, BlockSigs_parse v =
    Value (Some {| bs_pk := public_key_of sk; bs_algorithm := a; bs_size := response_data_block |}).
Proof.
  intros Hv. destruct (encode_key_id_clean (public_key_of sk)) as [Hk Hk0]. unfold BlockSigs_parse.
  rewrite Hv, bsigs_no_comma by done.
  pose proof (SplitString_join v ","%byte
    [str "keyId" ++ "="%byte :: quoted (encode_key_id (public_key_of sk));
     str "algorithm" ++ "="%byte :: quoted sig_alg_hs2019; str "size" ++ "="%byte :: to_string response_data_block]) as Hsplit.
  unshelve epose proof (Hsplit _ _ _) as Hitems; [|done| |].
  { rewrite Hv. unfold bsigs_value, join, quoted. simpl. by repeat (rewrite <-?app_assoc; simpl). }
  { repeat constructor; apply key_value_ok; done || (by apply quoted_comma) || (by apply no_margin_quoted) || by_evaluation || (apply no_margin_free; by_evaluation). }
  clear Hsplit. destruct (SplitString v ","%byte) as [|w1 [|w2 [|w3 [|]]]]; try discriminate.
  injection Hitems as E1 E2 E3.
  destruct (split_quoted w1 (str "keyId") (encode_key_id (public_key_of sk))) as (k1 & v1 & u1 & S1 & K1 & U1 & V1);
    [done|by_evaluation|apply no_margin_free; by_evaluation|].
  destruct (split_quoted w2 (str "algorithm") sig_alg_hs2019) as (k2 & v2 & u2 & S2 & K2 & U2 & V2);
    [done|by_evaluation|apply no_margin_free; by_evaluation|].
  destruct (split_string_pair_spec w3 "="%byte (str "size") (to_string response_data_block)) as [K3 V3];
    [done|by_evaluation|apply no_margin_free; by_evaluation|apply no_margin_free; by_evaluation|].
  destruct (split_string_pair w3 "="%byte) as [k3 v3] eqn:S3. cbn [fst snd] in *.
  assert (fst (number_of_view W8 v3) = Some response_data_block) as Hn.
  { unfold number_of_view. rewrite V3, <-(app_nil_r (to_string response_data_block)).
    rewrite number_unsigned_to_string; [done|by vm_compute|apply no_digit_nil]. }
  assert (bsigs_items {| p_pk := None; p_algorithm := view_of []; p_size := None |} [w1; w2; w3] =
          Some {| p_pk := Some (public_key_of sk); p_algorithm := u2; p_size := Some response_data_block |}) as ->.
  { cbn [bsigs_items]. unfold bsigs_item. rewrite S1, K1, U1, V1, decode_encode_key_id by apply public_key_size.
    rewrite S2, K2, U2, S3, K3, Hn. reflexivity. }
  cbn [p_pk p_algorithm p_size]. rewrite V2. exists u2. reflexivity.
Qed.

(** The value that verification compares with, and whether a name is covered. *)
Lemma head_signature_good (R : response_header) :
  token_names (rs_fields R) -> result R = result rsh ->
  (forall n, values n (rs_fields to_be_signed) <> [] -> values n (rs_fields R) = values n (rs_fields to_be_signed)) ->
  exists hs extra, HttpSignature_parse (field_view head_signature) = Some hs /\
    chars (keyId hs) = encode_key_id (public_key_of sk) /\ chars (algorithm hs) = sig_alg_hs2019 /\
    HttpSignature_verify hs R (public_key_of sk) = (true, extra) /\
    (forall n, find_field n extra = None <-> values n (rs_fields R) = [] \/ values n (rs_fields to_be_signed) <> []).
Proof.
  intros Ht Hr Hv. destruct (encode_key_id_clean (public_key_of sk)) as [Hk Hk0].
  apply (http_signature_verify to_be_signed R sk (encode_key_id (public_key_of sk)) ts); try done.
  - intros f Hf. apply without_framing_elem in Hf as [Hf _]; [by apply announced_tokens|apply announced_only_chunked].
  - intros n. unfold to_be_signed. rewrite values_without_framing by apply announced_only_chunked.
    destruct (is_framing n); [by intros (w & vs & [=])|apply announced_values].
Qed.

Lemma to_be_signed_values n :
  values n (rs_fields to_be_signed) = if is_framing n then [] else values n announced.
Proof. unfold to_be_signed. by rewrite values_without_framing by apply announced_only_chunked. Qed.

(** A head as it may be received: it has the fields that were signed, and maybe
    others that were added on the way. *)
Record received (R : response_header) : Prop := {
  rc_result : result R = result rsh;
  rc_tokens : token_names (rs_fields R);
  rc_only_chunked : only_chunked (rs_fields R);
  rc_signatures : List.filter sig_field (rs_fields R) = [(initial_signature_hdr, head_signature)];
  rc_named n : is_framing n = false -> values n announced <> [] ->
    List.filter (same_name n) (rs_fields R) = List.filter (same_name n) announced;
}.

(** The fields that are left: those that were added are gone. *)
Definition added (R : response_header) : fields :=
  List.filter (fun f => negb (sig_field f) && negb (is_framing (fst f)) && bool_decide (values (fst f) announced = []))
    (rs_fields R).
Definition accepted_fields (R : response_header) : fields :=
  foldl (fun fs h => erase_field (fst h) fs) (List.filter (fun f => negb (sig_field f)) (rs_fields R)) (added R)
  ++ [(initial_signature_hdr, head_signature)].

Lemma checked_received R n :
  received R -> values n (rs_fields (checked R)) = if is_framing n || is_signature_hdr n then [] else values n (rs_fields R).
Proof.
  intros HR. unfold checked. cbn [rs_fields set_rs_fields]. rewrite (rc_signatures R HR). cbn [foldl fst].
  rewrite values_erase, values_without_framing by apply HR. destruct (is_framing n); [by case_bool_decide|]. cbn [orb].
  destruct (is_signature_hdr n) eqn:Es.
  - case_bool_decide as E; [done|]. destruct (values n (rs_fields R)) eqn:Ev; [done|]. exfalso.
    destruct (proj1 (values_nonempty n (rs_fields R))) as (f & Hf & Ef); [by rewrite Ev|].
    assert (In f (List.filter sig_field (rs_fields R))) as Hin.
    { apply filter_In. rewrite <-list_elem_of_In, (sig_field_name n f Ef). done. }
    rewrite (rc_signatures R HR) in Hin. destruct Hin as [<-|[]]. done.
  - rewrite bool_decide_false; [done|]. intros E. rewrite <-(sig_field_name n (initial_signature_hdr, []) E) in Es. done.
Qed.

Lemma announced_signature n : is_signature_hdr n = true -> values n announced = [].
Proof.
  intros Hn. destruct (values n announced) eqn:Ev; [done|]. exfalso.
  destruct (proj1 (values_nonempty n announced)) as (f & Hf & Ef); [by rewrite Ev|].
  assert (In f (List.filter sig_field announced)) as Hin.
  { apply filter_In. rewrite <-list_elem_of_In, (sig_field_name n f Ef). done. }
  by rewrite announced_unsigned in Hin.
Qed.

Lemma received_verified R :
  received R -> SignedHead_verify R (public_key_of sk) = Some (set_rs_fields R (accepted_fields R)).
Proof.
  intros HR. unfold SignedHead_verify. rewrite split_signatures_spec. fold (checked R). rewrite (rc_signatures R HR).
  cbn [foldl fst snd insert_field]. set (rs := List.filter (fun f => negb (sig_field f)) (rs_fields R)).
  destruct (head_signature_good (checked R)) as (hs & extra & Hp & Ek & Ea & Hv & Hx).
  - intros f Hf. unfold checked in Hf. cbn [rs_fields set_rs_fields] in Hf. apply elem_of_erases in Hf as [Hf _].
    apply without_framing_elem in Hf as [Hf _]; [by apply (rc_tokens R HR)|apply (rc_only_chunked R HR)].
  - apply (rc_result R HR).
  - intros n. rewrite to_be_signed_values, checked_received by done.
    destruct (is_framing n) eqn:Ef; [done|]. cbn [orb]. intros Hn.
    destruct (is_signature_hdr n) eqn:Es; [by rewrite announced_signature in Hn|].
    unfold values. by rewrite (rc_named R HR).
  - erewrite verify_step_good by (cbn [snd]; done). cbn [v_rsh v_sig_ok v_extra v_sig_idx snd negb]. do 2 f_equal.
    unfold accepted_fields. fold rs.
    assert (List.filter (fun e => negb (bool_decide (find_field (fst e) extra = None))) rs = added R) as ->.
    { unfold rs, added. rewrite filter_both. apply List.filter_ext_in. intros f Hf.
      destruct (sig_field f) eqn:Es; [done|]. cbn [negb andb].
      rewrite (bool_decide_ext _ _ (Hx (fst f))), to_be_signed_values, checked_received by done.
      unfold sig_field in Es. rewrite Es, orb_false_r. destruct (is_framing (fst f)); [by rewrite bool_decide_true by (by left)|].
      cbn [negb andb]. assert (values (fst f) (rs_fields R) <> []) as Hne by (apply values_nonempty; exists f; by rewrite list_elem_of_In).
      destruct (bool_decide_reflect (values (fst f) announced = [])); [by rewrite bool_decide_false by tauto|].
      by rewrite bool_decide_true by (by right). }
    rewrite insert_field_new.
    + apply erases_app. intros h f Hh Hf%list_elem_of_singleton E. subst f. cbn [fst] in E.
      apply list_elem_of_In, filter_In in Hh as [_ Hh]. rewrite !andb_true_iff in Hh. destruct Hh as [[Hh _] _].
      apply negb_true_iff in Hh. unfold sig_field in Hh. by rewrite <-(sig_field_name (fst h) (initial_signature_hdr, []) E) in Hh.
    + intros f Hf%list_elem_of_In Ef. apply filter_In in Hf as [_ Hf]. by rewrite (sig_field_name _ _ Ef) in Hf.
Qed.

Lemma accepted_named R n :
  received R -> is_signature_hdr n = false ->
  List.filter (same_name n) (accepted_fields R) =
  if is_framing n || negb (bool_decide (values n announced = [])) then List.filter (same_name n) (rs_fields R) else [].
Proof.
  intros HR Hs. unfold accepted_fields. rewrite List.filter_app.
  assert (List.filter (same_name n) [(initial_signature_hdr, head_signature)] = []) as ->.
  { apply filter_nil_all. constructor; [|constructor]. apply not_true_iff_false. rewrite <-same_name_lower. intros E.
    by rewrite <-(sig_field_name n _ E) in Hs. }
  rewrite app_nil_r. destruct (is_framing n || negb (bool_decide (values n announced = []))) eqn:E.
  - rewrite filter_name_erases; [by apply filter_name_nonsig|].
    intros h Hh En. apply list_elem_of_In, filter_In in Hh as [_ Hh].
    rewrite !andb_true_iff, !negb_true_iff, bool_decide_eq_true in Hh. destruct Hh as [[_ Hf] Hv].
    rewrite (framing_lower _ _ En) in Hf. rewrite (values_lower _ _ _ En) in Hv.
    by rewrite Hf, bool_decide_true in E.
  - apply orb_false_iff in E as [Ef Ev]. apply negb_false_iff, bool_decide_eq_true in Ev.
    apply filter_nil_all, Forall_forall. intros f [Hf Hno]%elem_of_erases.
    apply not_true_iff_false. rewrite <-same_name_lower. intros En. apply (Hno f); [|done].
    apply list_elem_of_In, filter_In in Hf as [Hf Hsf]. apply list_elem_of_In, filter_In.
    split; [done|]. rewrite Hsf, (framing_lower _ _ En), Ef, (values_lower _ _ _ En), bool_decide_true by done. done.
Qed.

Lemma accepted_signatures R : List.filter sig_field (accepted_fields R) = [(initial_signature_hdr, head_signature)].
Proof.
  unfold accepted_fields. rewrite List.filter_app, filter_nil_all; [done|]. apply Forall_forall.
  intros f [Hf _]%elem_of_erases. apply list_elem_of_In, filter_In in Hf as [_ Hf]. by apply negb_true_iff.
Qed.

Lemma announced_values_named n : values n announced <> [] -> List.filter (same_name n) announced <> [].
Proof. intros Hv E. apply Hv. unfold values. by rewrite E. Qed.

(** What is read from a head that has the announced fields. *)
Hypothesis Hid : id <> [] /\ (","%byte ∉ id) /\ no_margin " "%byte id.
Hypothesis Hts : - 2 ^ 63 <= ts < 2 ^ 63.

Definition parsed_from (sh : SignedHead) (r : response_header) : Prop :=
  sh_head sh = r /\ sh_injection_id sh = id /\ sh_injection_ts sh = ts /\ sh_uri sh = target rqh /\
  sh_public_key sh = public_key_of sk /\ sh_block_size sh = response_data_block.

Lemma created_from r :
  (forall n, n ∈ [response_uri_hdr; response_injection_hdr; response_block_signatures_hdr] ->
     find_field n (rs_fields r) = find_field n announced) ->
  exists sh, create_from_trusted_source r = Value (Some sh) /\ parsed_from sh r.
Proof.
  intros Hr. assert (forall n v, n ∈ [response_uri_hdr; response_injection_hdr; response_block_signatures_hdr] ->
    find_field n announced = Some v -> field_value n (rs_fields r) = v) as Hfield.
  { intros n v Hn Hv. unfold field_value. by rewrite (Hr n Hn), Hv. }
  unfold create_from_trusted_source.
  rewrite (Hfield response_uri_hdr (target rqh)); [|left|unfold announced; repeat (rewrite find_set_other by done); by rewrite find_set_same].
  rewrite (Hfield response_block_signatures_hdr (bsigs_value (encode_key_id (public_key_of sk))));
    [|set_solver|unfold announced; by rewrite find_set_same].
  rewrite bool_decide_false by done. destruct (bsigs_parsed (field_view (bsigs_value (encode_key_id (public_key_of sk))))) as [a ->]; [done|].
  cbn [bs_size]. destruct (Z.ltb_spec response_data_block_max response_data_block) as [Hlt|_]; [by vm_compute in Hlt|].
  unfold http_injection_id, http_injection_ts, http_injection_field.
  rewrite (Hfield response_injection_hdr (injection_value id ts));
    [|set_solver|unfold announced; repeat (rewrite find_set_other by done); by rewrite find_set_same].
  destruct (injection_items (field_view (injection_value id ts))) as [E1 E2]; [done|apply Hid|apply Hid|].
  change (injection_value id ts) with ("i"%byte :: str "d=" ++ id ++ str ",ts=" ++ to_string ts) in *.
  cbv beta iota. rewrite E1, E2, bool_decide_false by apply Hid.
  rewrite <-(app_nil_r (to_string ts)), number_signed_to_string; [|unfold signed_max, bits; lia|apply no_digit_nil].
  cbn [fst]. eexists. split; [done|]. done.
Qed.

Lemma announced_names n :
  n ∈ [response_uri_hdr; response_injection_hdr; response_block_signatures_hdr] ->
  is_framing n = false /\ is_signature_hdr n = false /\ values n announced <> [].
Proof.
  intros Hn. rewrite !elem_of_cons in Hn.
  destruct Hn as [->|[->|[->|Hn%not_elem_of_nil]]]; [..|done]; (split; [done|]; split; [done|]);
    unfold announced; rewrite !values_set; repeat (first [rewrite bool_decide_true by done; done|rewrite bool_decide_false by done]).
Qed.

Lemma received_created R :
  received R -> exists sh, verify_and_create R (public_key_of sk) = Value (Some sh) /\
    parsed_from sh (set_rs_fields R (accepted_fields R)).
Proof.
  intros HR. unfold verify_and_create. rewrite received_verified by done. apply created_from.
  intros n (Hf & Hs & Hv)%announced_names. rewrite !find_field_filter. cbn [rs_fields set_rs_fields].
  by rewrite accepted_named, Hf, bool_decide_false, (rc_named R HR) by done.
Qed.

(** The signed head is such a head, and nothing was added to it. *)
Lemma signed_head_named n :
  is_framing n = false -> is_signature_hdr n = false ->
  List.filter (same_name n) (rs_fields signed_head) = List.filter (same_name n) announced.
Proof.
  intros Hf Hs. assert (forall m, is_framing m = true -> lower_str m <> lower_str n) as Hne.
  { intros m Hm E%framing_lower. congruence. }
  rewrite signed_head_fields, filter_name_set by (by apply Hne). unfold set_chunked.
  rewrite filter_name_erase by (by apply Hne).
  transitivity (List.filter (same_name n) (set_field initial_signature_hdr head_signature announced)).
  - unfold set_chunked_impl. destruct (find_field (str "Transfer-Encoding") _) as [te|]; [destruct (last_is_chunked te); [done|]|];
      apply filter_name_set; by apply Hne.
  - apply filter_name_set. intros E. by rewrite <-(sig_field_name n (initial_signature_hdr, []) E) in Hs.
Qed.

Lemma signed_head_tokens : token_names (rs_fields signed_head).
Proof.
  intros f Hf. rewrite signed_head_fields in Hf. apply elem_of_set in Hf as [Hf| ->]; [|done].
  unfold set_chunked in Hf. apply elem_of_erase_field in Hf as [Hf _]. unfold set_chunked_impl in Hf.
  assert (f ∈ set_field initial_signature_hdr head_signature announced \/ is_token (fst f) = true) as [Hf'|?]; [|..|done].
  - destruct (find_field (str "Transfer-Encoding") _) as [te|]; [destruct (last_is_chunked te); [by left|]|];
      (apply elem_of_set in Hf as [Hf| ->]; [by left|by right]).
  - apply elem_of_set in Hf' as [Hf'| ->]; [by apply announced_tokens|done].
Qed.

Lemma signed_head_received : received signed_head.
Proof.
  split; [done|apply signed_head_tokens|apply signed_head_only_chunked|apply signed_head_signatures|].
  intros n Hf Hv. apply signed_head_named; [done|]. destruct (is_signature_hdr n) eqn:Es; [|done].
  by rewrite announced_signature in Hv.
Qed.

Lemma signed_head_added : added signed_head = [].
Proof.
  apply filter_nil_all, Forall_forall. intros f Hf. destruct (sig_field f) eqn:Es; [done|].
  destruct (is_framing (fst f)) eqn:Ef; [done|]. cbn [negb andb]. apply bool_decide_false.
  assert (In f (List.filter (same_name (fst f)) (rs_fields signed_head))) as Hin.
  { apply filter_In. rewrite <-list_elem_of_In. split; [done|]. by apply same_name_lower. }
  rewrite signed_head_named in Hin by done. apply filter_In in Hin as [Hin _]. apply values_nonempty. exists f.
  by rewrite list_elem_of_In.
Qed.

(** *** With the trailer *)

Section Trailer.
Variables (len now : Z) (digest : list byte).

(** The response has no digest of its own, and no size from another injector. *)
Hypothesis Hsize : values response_data_size_hdr (rs_fields rsh) = [].
Hypothesis Hdigest : values (str "Digest") (rs_fields rsh) = [].

Definition digest_value : list byte := str "SHA-256=" ++ base64_encode digest.
Definition final_head : response_header :=
  set_rs_fields signed_head
    (set_field (str "Digest") digest_value
      (set_field response_data_size_hdr (to_string len)
        (erase_field initial_signature_hdr (rs_fields (without_framing signed_head))))).
Definition final_signature : list byte :=
  http_signature final_head sk (encode_key_id (public_key_of sk)) now.
Definition trailer : fields :=
  [(response_data_size_hdr, to_string len); (str "Digest", digest_value); (final_signature_hdr, final_signature)].

Lemma http_injection_trailer_fields :
  http_injection_trailer signed_head [] len digest sk (encode_key_id (public_key_of sk)) now = trailer.
Proof. reflexivity. Qed.

Lemma announced_without n :
  n ∈ [response_data_size_hdr; str "Digest"] ->
  values n announced = [] /\ is_framing n = false /\ is_signature_hdr n = false.
Proof.
  intros Hn. unfold announced. rewrite !elem_of_cons in Hn. destruct Hn as [->|[->|Hn%not_elem_of_nil]]; [..|done];
    rewrite !values_set, !bool_decide_false by done; done.
Qed.

Lemma final_head_values n :
  values n (rs_fields final_head) =
  if bool_decide (lower_str (str "Digest") = lower_str n) then [trimmed_value digest_value]
  else if bool_decide (lower_str response_data_size_hdr = lower_str n) then [trimmed_value (to_string len)]
  else if is_framing n then [] else values n announced.
Proof.
  unfold final_head. cbn [rs_fields set_rs_fields]. rewrite !values_set, checked_values, to_be_signed_values. done.
Qed.

Variable R : response_header.
Hypothesis HR : received R.

(** The head after the fields of the trailer were inserted. *)
Definition extended : response_header := set_rs_fields R (accepted_fields R ++ trailer).

Lemma insert_trailer_fields :
  foldl (fun fs h => insert_field (fst h) (snd h) fs) (accepted_fields R) trailer = accepted_fields R ++ trailer.
Proof.
  assert (forall n f, n ∈ [response_data_size_hdr; str "Digest"] -> f ∈ accepted_fields R -> lower_str (fst f) <> lower_str n) as Hnew.
  { intros n f Hn Hf E. destruct (announced_without n Hn) as (Hv & Hfr & Hs).
    assert (In f (List.filter (same_name n) (accepted_fields R))) as Hin.
    { apply filter_In. rewrite <-list_elem_of_In. split; [done|]. by apply same_name_lower. }
    by rewrite accepted_named, Hfr, bool_decide_true in Hin. }
  assert (forall f, f ∈ accepted_fields R -> lower_str (fst f) <> lower_str final_signature_hdr) as Hsig.
  { intros f Hf E. assert (In f (List.filter sig_field (accepted_fields R))) as Hin.
    { apply filter_In. rewrite <-list_elem_of_In, (sig_field_name final_signature_hdr f E). done. }
    rewrite accepted_signatures in Hin. destruct Hin as [<-|[]]. done. }
  unfold trailer. cbn [foldl fst snd]. rewrite (insert_field_new response_data_size_hdr) by (intros f Hf; apply Hnew; [left|done]).
  rewrite (insert_field_new (str "Digest")).
  2: { intros f [Hf| ->%list_elem_of_singleton]%elem_of_app; [apply Hnew; [right; left|done]|done]. }
  rewrite insert_field_new.
  2: { intros f [[Hf| ->%list_elem_of_singleton]%elem_of_app| ->%list_elem_of_singleton]%elem_of_app; [by apply Hsig|done|done]. }
  by rewrite <-!app_assoc.
Qed.

Lemma extended_signatures :
  List.filter sig_field (rs_fields extended) = [(initial_signature_hdr, head_signature); (final_signature_hdr, final_signature)].
Proof. unfold extended. cbn [rs_fields set_rs_fields]. by rewrite List.filter_app, accepted_signatures. Qed.

Lemma extended_only_chunked : only_chunked (rs_fields extended).
Proof.
  intros te. rewrite find_field_filter. unfold extended. cbn [rs_fields set_rs_fields].
  rewrite List.filter_app, accepted_named by done.
  assert (List.filter (same_name (str "Transfer-Encoding")) trailer = []) as -> by done.
  change (is_framing (str "Transfer-Encoding")) with true. cbn [orb]. rewrite app_nil_r, <-find_field_filter.
  apply (rc_only_chunked R HR).
Qed.

Lemma trailer_values n :
  values n trailer =
  (if bool_decide (lower_str response_data_size_hdr = lower_str n) then [trimmed_value (to_string len)] else [])
  ++ (if bool_decide (lower_str (str "Digest") = lower_str n) then [trimmed_value digest_value] else [])
  ++ (if bool_decide (lower_str final_signature_hdr = lower_str n) then [trimmed_value final_signature] else []).
Proof.
  unfold trailer. change [?a; ?b; ?c] with ((([] ++ [a]) ++ [b]) ++ [c]). rewrite !values_snoc, !same_name_iff.
  cbn [fst snd values map List.filter app]. by rewrite <-app_assoc.
Qed.

Lemma values_app n fs gs : values n (fs ++ gs) = values n fs ++ values n gs.
Proof. unfold values. by rewrite List.filter_app, map_app. Qed.

(** The values that the signatures are checked with. *)
Lemma extended_checked n : values n (rs_fields (checked extended)) = values n (rs_fields final_head).
Proof.
  rewrite final_head_values. unfold checked. cbn [rs_fields set_rs_fields]. rewrite extended_signatures. cbn [foldl fst].
  rewrite !values_erase, values_without_framing by apply extended_only_chunked. unfold extended at 1. cbn [rs_fields set_rs_fields].
  rewrite values_app, trailer_values.
  assert (forall m, m ∈ [response_data_size_hdr; str "Digest"] -> lower_str m = lower_str n ->
            is_framing n = false /\ is_signature_hdr n = false /\ values n announced = []) as Hnew.
  { intros m (Hv & Hf & Hs)%announced_without E. rewrite <-(framing_lower _ _ E), <-(values_lower _ _ _ E).
    by rewrite <-(sig_field_name n (m, []) E). }
  assert (forall m, is_signature_hdr m = true -> lower_str m = lower_str n -> is_signature_hdr n = true) as Hsig.
  { intros m Hm E. by rewrite <-(sig_field_name n (m, []) E). }
  destruct (is_signature_hdr n) eqn:Es.
  - assert (lower_str initial_signature_hdr <> lower_str n -> values n (accepted_fields R) = []) as Hacc.
    { intros Hne. destruct (values n (accepted_fields R)) eqn:Ev; [done|]. exfalso.
      destruct (proj1 (values_nonempty n (accepted_fields R))) as (f & Hf & Ef); [by rewrite Ev|].
      assert (In f (List.filter sig_field (accepted_fields R))) as Hin.
      { apply filter_In. rewrite <-list_elem_of_In, (sig_field_name n f Ef). done. }
      rewrite accepted_signatures in Hin. destruct Hin as [<-|[]]. done. }
    rewrite announced_signature by done.
    rewrite !(bool_decide_false (lower_str response_data_size_hdr = _))
      by (intros E; destruct (Hnew response_data_size_hdr) as (_ & ? & _); [left|done|done]).
    rewrite !(bool_decide_false (lower_str (str "Digest") = _))
      by (intros E; destruct (Hnew (str "Digest")) as (_ & ? & _); [right; left|done|done]).
    destruct (bool_decide_reflect (lower_str final_signature_hdr = lower_str n)); [by destruct (is_framing n)|].
    destruct (bool_decide_reflect (lower_str initial_signature_hdr = lower_str n)); [by destruct (is_framing n)|].
    rewrite Hacc by done. by destruct (is_framing n).
  - rewrite !(bool_decide_false (lower_str final_signature_hdr = _)) by (intros E; pose proof (Hsig final_signature_hdr eq_refl E); congruence).
    rewrite !(bool_decide_false (lower_str initial_signature_hdr = _)) by (intros E; pose proof (Hsig initial_signature_hdr eq_refl E); congruence).
    unfold values at 1. rewrite accepted_named by done.
    destruct (is_framing n) eqn:Ef.
    + rewrite !bool_decide_false; [done|..]; intros E; [destruct (Hnew response_data_size_hdr)|destruct (Hnew (str "Digest"))];
        try done; set_solver.
    + cbn [orb]. assert (map (fun f => trimmed_value (snd f))
        (if negb (bool_decide (values n announced = [])) then List.filter (same_name n) (rs_fields R) else []) = values n announced) as ->.
      { case_bool_decide as Ev; cbn [negb map]; [done|]. by rewrite (rc_named R HR). }
      rewrite app_nil_r. case_bool_decide as E1; case_bool_decide as E2; [..|by rewrite app_nil_r].
      * exfalso. rewrite <-E2 in E1. done.
      * destruct (Hnew response_data_size_hdr) as (_ & _ & ->); [left|done|done].
      * destruct (Hnew (str "Digest")) as (_ & _ & ->); [right; left|done|done].
Qed.

Lemma extended_tokens : token_names (rs_fields (checked extended)).
Proof.
  intros f Hf. unfold checked in Hf. cbn [rs_fields set_rs_fields] in Hf. apply elem_of_erases in Hf as [Hf _].
  apply without_framing_elem in Hf as [Hf _]; [|apply extended_only_chunked]. unfold extended in Hf. cbn [rs_fields set_rs_fields] in Hf.
  apply elem_of_app in Hf as [Hf|Hf].
  - unfold accepted_fields in Hf. apply elem_of_app in Hf as [Hf| ->%list_elem_of_singleton]; [|done].
    apply elem_of_erases in Hf as [Hf _]. apply list_elem_of_In, filter_In in Hf as [Hf _].
    apply (rc_tokens R HR). by apply list_elem_of_In.
  - unfold trailer in Hf. rewrite !elem_of_cons in Hf. by destruct Hf as [->|[->|[->|Hf%not_elem_of_nil]]].
Qed.

Lemma final_head_tokens : token_names (rs_fields final_head).
Proof.
  intros f Hf. unfold final_head in Hf. cbn [rs_fields set_rs_fields] in Hf.
  apply elem_of_set in Hf as [Hf| ->]; [|done]. apply elem_of_set in Hf as [Hf| ->]; [|done].
  apply elem_of_erase_field in Hf as [Hf _]. apply without_framing_elem in Hf as [Hf _]; [|apply signed_head_only_chunked].
  by apply signed_head_tokens.
Qed.

Lemma final_signature_good :
  exists hs extra, HttpSignature_parse (field_view final_signature) = Some hs /\
    chars (keyId hs) = encode_key_id (public_key_of sk) /\ chars (algorithm hs) = sig_alg_hs2019 /\
    HttpSignature_verify hs (checked extended) (public_key_of sk) = (true, extra) /\ (forall n, find_field n extra = None).
Proof.
  destruct (encode_key_id_clean (public_key_of sk)) as [Hk Hk0].
  destruct (http_signature_verify final_head (checked extended) sk (encode_key_id (public_key_of sk)) now
              (field_view final_signature)) as (hs & extra & Hp & Ek & Ea & Hv & Hx); try done.
  - apply final_head_tokens.
  - apply extended_tokens.
  - apply (rc_result R HR).
  - intros n _. apply extended_checked.
  - intros n. rewrite final_head_values. repeat (case_bool_decide; [by intros (w & vs & [=])|]).
    destruct (is_framing n); [by intros (w & vs & [=])|apply announced_values].
  - exists hs, extra. split_and!; try done. intros n. apply Hx. rewrite extended_checked.
    destruct (values n (rs_fields final_head)); [by left|by right].
Qed.

Definition extended_kept : response_header :=
  set_rs_fields extended (List.filter (fun f => negb (sig_field f)) (rs_fields extended)
                          ++ [(initial_signature_hdr, head_signature); (final_signature_hdr, final_signature)]).

Lemma extended_verified : SignedHead_verify extended (public_key_of sk) = Some extended_kept.
Proof.
  unfold SignedHead_verify. rewrite split_signatures_spec. fold (checked extended). rewrite extended_signatures.
  cbn [foldl fst snd]. rewrite (insert_field_new final_signature_hdr _ (insert_field _ _ [])) by (intros f ->%list_elem_of_singleton; done).
  cbn [insert_field app foldl]. set (rs := List.filter (fun f => negb (sig_field f)) (rs_fields extended)).
  destruct (head_signature_good (checked extended)) as (hs & extra & Hp & Ek & Ea & Hv & Hx).
  - apply extended_tokens.
  - apply (rc_result R HR).
  - intros n. rewrite to_be_signed_values, extended_checked, final_head_values. destruct (is_framing n); [done|]. intros Hn.
    rewrite !bool_decide_false; [done|..]; intros E;
      [destruct (announced_without response_data_size_hdr) as [Hv _]; [left|]|destruct (announced_without (str "Digest")) as [Hv _]; [right; left|]];
      by rewrite (values_lower _ _ _ E) in Hv.
  - destruct final_signature_good as (hs1 & extra1 & Hp1 & Ek1 & Ea1 & Hv1 & Hx1).
    rewrite (verify_step_good (checked extended) _ _ (initial_signature_hdr, head_signature) hs extra) by done. cbn [v_rsh v_sig_ok v_extra v_sig_idx snd].
    rewrite (verify_step_good (checked extended) _ _ (final_signature_hdr, final_signature) hs1 extra1) by done. cbn [v_rsh v_sig_ok v_extra v_sig_idx snd negb].
    rewrite (filter_nil_all (fun e => negb (bool_decide (find_field (fst e) extra1 = None))))
      by (apply Forall_forall; intros f _; by rewrite bool_decide_true).
    cbn [foldl]. unfold extended_kept. fold rs. do 2 f_equal.
    assert (forall f n, f ∈ rs -> is_signature_hdr n = true -> lower_str (fst f) <> lower_str n) as Hrs.
    { intros f n Hf Hn E. apply list_elem_of_In, filter_In in Hf as [_ Hf]. rewrite (sig_field_name _ _ E) in Hf. by rewrite Hn in Hf. }
    rewrite (insert_field_new _ head_signature rs) by (intros f Hf; by apply Hrs).
    rewrite insert_field_new; [by rewrite <-app_assoc|].
    intros f [Hf| ->%list_elem_of_singleton]%elem_of_app; [by apply Hrs|done].
Qed.

Lemma extended_kept_named n :
  is_signature_hdr n = false ->
  List.filter (same_name n) (rs_fields extended_kept) = List.filter (same_name n) (accepted_fields R) ++ List.filter (same_name n) trailer.
Proof.
  intros Hs. unfold extended_kept. cbn [rs_fields set_rs_fields]. rewrite List.filter_app, filter_name_nonsig by done.
  rewrite (filter_nil_all _ [_; _]).
  - rewrite app_nil_r. unfold extended. cbn [rs_fields set_rs_fields]. apply List.filter_app.
  - repeat constructor; apply not_true_iff_false; rewrite <-same_name_lower; intros E;
      by rewrite <-(sig_field_name n _ E) in Hs.
Qed.

Lemma extended_created :
  exists sh, verify_and_create extended (public_key_of sk) = Value (Some sh) /\ parsed_from sh extended_kept /\
    find_field response_data_size_hdr (rs_fields (sh_head sh)) = Some (to_string len) /\
    List.filter (same_name (str "Digest")) (rs_fields (sh_head sh)) = [(str "Digest", digest_value)].
Proof.
  unfold verify_and_create. rewrite extended_verified.
  destruct (created_from extended_kept) as (sh & Hc & Hsh).
  { intros n (Hf & Hs & Hv)%announced_names. rewrite !find_field_filter, extended_kept_named, accepted_named, Hf, bool_decide_false by done.
    cbn [orb negb]. rewrite (rc_named R HR) by done.
    destruct (List.filter (same_name n) announced) eqn:E; [|done]. exfalso. apply Hv. unfold values. by rewrite E. }
  exists sh. split; [done|]. split; [done|]. destruct Hsh as (-> & _).
  destruct (announced_without response_data_size_hdr) as (V1 & F1 & S1); [left|].
  destruct (announced_without (str "Digest")) as (V2 & F2 & S2); [right; left|].
  split.
  - by rewrite find_field_filter, extended_kept_named, accepted_named, F1, bool_decide_true by done.
  - by rewrite extended_kept_named, accepted_named, F2, bool_decide_true by done.
Qed.

End Trailer.

End Accepted.

(** ** What the client keeps is signed *)

Lemma elem_of_inserts (hs : fields) f : forall sigs,
  f ∈ foldl (fun sigs h => insert_field (fst h) (snd h) sigs) sigs hs -> f ∈ sigs \/ f ∈ hs.
Proof.
  induction hs as [|h hs IH]; intros sigs Hf; cbn [foldl] in Hf; [by left|].
  apply IH in Hf as [[Hf| ->]%elem_of_insert_field|Hf]; [by left|right; destruct h; left|right; by right].
Qed.

(** A covered name has the flattened value of the head. *)
Lemma verification_loop_inv inh hsig hns n x : forall vh vh',
  verification_loop inh hsig vh hns = Some vh' -> find_field n vh' = Some x ->
  find_field n vh = Some x \/
  exists hn, lower_str (chars hn) = lower_str n /\ verification_value inh hsig hn = Some x.
Proof.
  induction hns as [|hn hns IH]; intros vh vh' Hl Hx; cbn [verification_loop] in Hl; [left; by simplify_eq|].
  destruct (verification_value inh hsig hn) as [hv|] eqn:E; [|done].
  destruct (IH _ _ Hl Hx) as [Hf|Hf]; [|by right].
  destruct (decide (lower_str (chars hn) = lower_str n)) as [En|En].
  - right. exists hn. split; [done|]. rewrite E. f_equal.
    assert (find_field n (set_field (chars hn) hv vh) = find_field (chars hn) (set_field (chars hn) hv vh)) as Ef.
    { unfold find_field. f_equal. clear -En. induction (set_field _ _ _) as [|f l IH]; [done|]. cbn [List.find].
      rewrite !same_name_iff, En. by rewrite IH. }
    rewrite Ef, find_set_same in Hf. by simplify_eq.
  - left. rewrite find_set_other in Hf; [done|by apply bool_decide_eq_false].
Qed.

Lemma lower_paren c : lower c = "("%byte -> c = "("%byte.
Proof. by destruct c. Qed.

Lemma flatten_lower fs n m : lower_str n = lower_str m -> flatten_header_values fs n = flatten_header_values fs m.
Proof. intros E. unfold flatten_header_values. by rewrite (filter_lower n m). Qed.

Lemma covered_value inh hsig vh n x :
  verification_head inh hsig = Some vh -> find_field n vh = Some x -> is_token n = true ->
  flatten_header_values (rs_fields inh) n = Some x.
Proof.
  intros Hv Hx (Hne & _ & Hp & _)%token_spec.
  destruct (verification_loop_inv _ _ _ _ _ _ _ Hv Hx) as [Hf|(hn & En & Hval)]; [done|].
  rewrite (flatten_lower _ _ _ (eq_sym En)). unfold verification_value in Hval.
  rewrite bool_decide_false in Hval; [done|]. unfold first_char. intros Hh.
  destruct n as [|c n]; [done|]. destruct (chars hn) as [|d l]; [done|].
  cbn in En, Hh. simplify_eq. apply Hp. simpl. f_equal. apply lower_paren. by rewrite <-H.
Qed.

Section Sound.
Context {S : SignatureScheme} {B : Base64} {T : TransferCoding}.

(** A header of the head is a signature, by the owner of [pk], of the headers [vh]. *)
Definition signs (rsh : response_header) (pk : list byte) (vh : fields) : Prop :=
  exists m v sig sg,
    (m, v) ∈ rs_fields rsh /\ is_signature_hdr m = true /\ HttpSignature_parse (field_view v) = Some sig /\
    chars (keyId sig) = encode_key_id pk /\
    base64_decode Signature_size (chars (signature sig)) = Some sg /\
    verify_message pk (fst (get_sig_str_hdrs vh)) sg = true.

Variables (rsh : response_header) (pk : list byte).

(** The header [n] is among those that a signature covers. *)
Definition covered (n : list byte) : Prop :=
  exists vh, signs rsh pk vh /\ is_Some (find_field n vh) /\
    (is_token n = true -> find_field n vh = flatten_header_values (rs_fields (checked rsh)) n).

Lemma verify_covers sig v m extra n f :
  (m, v) ∈ rs_fields rsh -> is_signature_hdr m = true -> HttpSignature_parse (field_view v) = Some sig ->
  chars (keyId sig) = encode_key_id pk -> HttpSignature_verify sig (checked rsh) pk = (true, extra) ->
  f ∈ rs_fields (checked rsh) -> lower_str (fst f) = lower_str n -> find_field n extra = None -> covered n.
Proof.
  intros Hm Hs Hp Hk Hv Hf En Hno. unfold HttpSignature_verify in Hv.
  destruct (verification_head (checked rsh) sig) as [vh|] eqn:Evh; [|done].
  destruct (get_sig_str_hdrs vh) as [sig_string hdrs] eqn:Estr.
  destruct (base64_decode Signature_size (chars (signature sig))) as [sg|] eqn:Esg; [|done].
  destruct (verify_message pk sig_string sg) eqn:Ever; [|done]. cbn [negb] in Hv. injection Hv as Hextra.
  assert (is_Some (find_field n vh)) as [x Hx].
  { destruct (find_field n vh) as [x|] eqn:E; [by exists x|]. exfalso. subst extra.
    rewrite find_field_None in Hno. eapply Hno; [|exact En]. clear -E Hf En.
    assert (find_field (fst f) vh = None) as E'.
    { rewrite find_field_None in E |- *. intros g Hg. rewrite En. by apply E. }
    enough (forall fs acc, f ∈ fs \/ f ∈ acc ->
              f ∈ foldl (fun extra hdr => if bool_decide (find_field (fst hdr) vh = None)
                                          then insert_field (fst hdr) (snd hdr) extra else extra) acc fs) by auto.
    induction fs as [|g fs IH]; intros acc [Hg|Hg]; cbn [foldl];
      [by apply not_elem_of_nil in Hg|done|apply elem_of_cons in Hg as [<-|Hg]|]; apply IH; auto.
    - right. rewrite bool_decide_true by done. apply elem_of_insert_field. right. by destruct f.
    - right. case_bool_decide; [|done]. apply elem_of_insert_field. by left. }
  exists vh. split_and!; [|by exists x|].
  - exists m, v, sig, sg. by rewrite Estr.
  - intros Ht. rewrite Hx. symmetry. by apply (covered_value (checked rsh) sig vh).
Qed.

(** What holds after each signature header. *)
Definition verify_inv (rs : fields) (st : verify_state) : Prop :=
  (forall f, f ∈ v_rsh st -> f ∈ rs \/
     sig_field f = true /\ exists m, (m, snd f) ∈ rs_fields rsh /\ is_signature_hdr m = true) /\
  (v_sig_ok st = true -> exists vh, signs rsh pk vh) /\
  (forall f g, f ∈ rs -> f ∉ v_extra st -> g ∈ rs_fields (checked rsh) -> lower_str (fst g) = lower_str (fst f) -> covered (fst f)) /\
  0 <= v_sig_idx st.

Lemma is_signature_hdr_number i : 0 <= i -> is_signature_hdr (response_signature_hdr_pfx ++ to_string i) = true.
Proof.
  intros Hi. unfold is_signature_hdr. rewrite take_app_length, drop_app_length.
  destruct (to_string_digits i Hi) as (c & ds & -> & Hd). rewrite !andb_true_iff. split_and!; [done|done|].
  apply forallb_forall. intros d Hd'%list_elem_of_In. rewrite Forall_forall in Hd. by apply Hd.
Qed.

Lemma keep_signature_inv rs st v m :
  (m, v) ∈ rs_fields rsh -> is_signature_hdr m = true -> verify_inv rs st -> verify_inv rs (keep_signature v st).
Proof.
  intros Hm Hs (I1 & I2 & I3 & I4). unfold keep_signature. split_and!; cbn [v_rsh v_sig_ok v_extra v_sig_idx]; [|done|done|lia].
  intros f [Hf| ->]%elem_of_insert_field; [by apply I1|]. right. split; [by apply is_signature_hdr_number|].
  by exists m.
Qed.

Lemma verify_step_inv rs st h :
  h ∈ rs_fields rsh -> sig_field h = true -> verify_inv rs st -> verify_inv rs (verify_step (checked rsh) pk st h).
Proof.
  intros Hh Hs Hi. destruct h as [m v]. unfold verify_step. cbn [snd].
  destruct (HttpSignature_parse (field_view v)) as [sig|] eqn:Hp; [|done].
  case_bool_decide as Hk; cbn [negb]; [|by eapply keep_signature_inv].
  destruct (negb _ && negb _); [done|].
  destruct (HttpSignature_verify sig (checked rsh) pk) as [[] extra] eqn:Hv; [|done].
  pose proof (keep_signature_inv rs st v m Hh Hs Hi) as (I1 & I2 & I3 & I4).
  destruct Hi as (_ & _ & I3' & _). split_and!; cbn [v_rsh v_sig_ok v_extra v_sig_idx]; [done| | |done].
  - intros _. pose proof Hv as Hv'. unfold HttpSignature_verify in Hv'.
    destruct (verification_head (checked rsh) sig) as [vh|]; [|done].
    destruct (get_sig_str_hdrs vh) as [sig_string hdrs] eqn:Estr.
    destruct (base64_decode Signature_size (chars (signature sig))) as [sg|] eqn:Esg; [|done].
    destruct (verify_message pk sig_string sg) eqn:Ever; [|done].
    exists vh, m, v, sig, sg. by rewrite Estr.
  - intros f g Hf Hno Hg Eg. destruct (decide (f ∈ v_extra st)) as [Hin|Hout]; [|by eapply I3'].
    eapply verify_covers; [done..|].
    destruct (find_field (fst f) extra) eqn:E; [|done]. exfalso. apply Hno, list_elem_of_In, filter_In.
    rewrite <-list_elem_of_In. split; [done|]. by rewrite E.
Qed.

Lemma verify_steps_inv rs sigs : forall st,
  (forall h, h ∈ sigs -> h ∈ rs_fields rsh /\ sig_field h = true) ->
  verify_inv rs st -> verify_inv rs (foldl (verify_step (checked rsh) pk) st sigs).
Proof.
  induction sigs as [|h sigs IH]; intros st Hs Hi; [done|]. cbn [foldl]. apply IH.
  - intros g Hg. apply Hs. by right.
  - apply verify_step_inv; [apply Hs; left..|done].
Qed.

End Sound.

(** ** The signed string determines the headers *)

(** Nothing in a name or a value that the format of the string separates with. *)
Definition line_ok (f : list byte * list byte) : Prop :=
  (":"%byte ∉ fst f) /\ (newline ∉ fst f) /\ (newline ∉ snd f).

Lemma split_at_colon a : forall b r s,
  (":"%byte ∉ a) -> (":"%byte ∉ b) -> a ++ ":"%byte :: r = b ++ ":"%byte :: s -> a = b /\ r = s.
Proof.
  induction a as [|x a IH]; intros [|y b] r s Ha Hb E; simpl in E; simplify_eq; [done| | |].
  - by destruct Hb; left.
  - by destruct Ha; left.
  - rewrite not_elem_of_cons in Ha, Hb. destruct (IH b r s) as [-> ->]; naive_solver.
Qed.

Lemma header_lines_inj fs gs :
  Forall line_ok fs -> Forall line_ok gs -> map header_line fs = map header_line gs -> fs = gs.
Proof.
  intros Hf. revert gs. induction Hf as [|[n v] fs (Hn & _) Hf IH]; intros [|[m w] gs] Hg E; try done.
  apply Forall_cons in Hg as [(Hm & _) Hg]. cbn [map] in E. injection E as E1 E2.
  destruct (split_at_colon n m (" "%byte :: v) (" "%byte :: w)) as [-> E3]; [done..|]. injection E3 as ->.
  f_equal. by apply IH.
Qed.

Lemma signed_string_inj fs gs :
  Forall line_ok fs -> Forall line_ok gs -> fst (get_sig_str_hdrs fs) = fst (get_sig_str_hdrs gs) -> fs = gs.
Proof.
  intros Hf Hg. rewrite !get_sig_str_hdrs_spec. cbn [fst]. intros E. apply header_lines_inj; [done..|].
  assert (forall hs, Forall line_ok hs -> Forall (fun l => newline ∉ l) (map header_line hs)) as Hlines.
  { intros hs Hs. apply Forall_fmap. eapply Forall_impl; [exact Hs|]. intros [n v] (_ & Hn & Hv).
    unfold compose, header_line. cbn [fst snd] in *. rewrite !not_elem_of_app. split_and!; [done|by_evaluation|done]. }
  assert (forall hs, join newline (map header_line hs) = [] -> hs = []) as Hnil.
  { intros [|[n v] hs] Hj; [done|]. cbn [map] in Hj. rewrite join_cons in Hj. unfold header_line in Hj.
    cbn [fst snd] in Hj. by destruct n. }
  destruct fs as [|f fs]; [by rewrite (Hnil gs) by done|].
  destruct gs as [|g gs]; [by rewrite (Hnil (f :: fs)) by done|].
  apply (f_equal (split_on newline)) in E. by rewrite !split_on_join in E by (done || by apply Hlines).
Qed.

Lemma trimmed_elem c d s t : trimmed c s t -> d ∈ t -> d ∈ s.
Proof. intros ((i & j & ->) & _) Hd. set_solver. Qed.

Lemma flatten_free fs n x :
  flatten_header_values fs n = Some x -> (forall f, f ∈ fs -> newline ∉ snd f) -> newline ∉ x.
Proof.
  unfold flatten_header_values. intros Hx Hfs.
  assert (forall f, f ∈ List.filter (same_name n) fs -> newline ∉ trimmed_value (snd f)) as Hv.
  { intros f [Hf _]%list_elem_of_In%filter_In Hin. apply list_elem_of_In in Hf.
    eapply (Hfs f Hf), trimmed_elem; [|exact Hin]. apply (trim_char_spec " "%byte (field_view (snd f))). }
  destruct (List.filter (same_name n) fs) as [|f0 fs0] eqn:E; [done|].
  assert (x = foldl flatten_step [] (f0 :: fs0)) as -> by congruence.
  enough (forall l acc, (forall f, f ∈ l -> newline ∉ trimmed_value (snd f)) -> newline ∉ acc ->
            newline ∉ foldl flatten_step acc l) as Hgen by (apply Hgen; [exact Hv|apply not_elem_of_nil]).
  clear.
  induction l as [|f l IH]; intros acc Hl Ha; [done|]. cbn [foldl]. apply IH; [intros; apply Hl; by right|].
  unfold flatten_step. apply not_elem_of_app. split; [|apply Hl; left].
  case_bool_decide; [done|]. apply not_elem_of_app. split; [done|by_evaluation].
Qed.

Lemma token_of_lower n m : lower_str n = lower_str m -> is_token m = true -> is_token n = true.
Proof.
  intros E Hm%token_lower. rewrite <-E in Hm. clear E. unfold is_token in *.
  rewrite andb_true_iff, negb_true_iff, bool_decide_eq_false, forallb_forall in *. destruct Hm as [Hne Hm].
  split; [by destruct n|]. intros c Hc. rewrite <-tchar_lower. apply Hm. by apply in_map.
Qed.

(** A head and a signature as they come from parsed messages. *)
Definition parsed_message (rsh : response_header) (sig : HttpSignature) : Prop :=
  token_names (rs_fields rsh) /\ (forall f, f ∈ rs_fields rsh -> newline ∉ snd f) /\
  (newline ∉ chars (created sig)) /\ (newline ∉ chars (expires sig)).

Lemma verification_value_ok rsh sig hn x :
  parsed_message rsh sig -> verification_value rsh sig hn = Some x -> line_ok (chars hn, x).
Proof.
  intros (Ht & Hn & Hc & He). unfold verification_value. case_bool_decide as Hp; cbn [negb].
  - case_bool_decide as E1; [done|]. case_bool_decide as E2.
    { case_bool_decide; [done|]. intros [= <-]. rewrite E2. split_and!; cbn [fst snd]; [by_evaluation..|].
      apply plain_text, to_string_plain. }
    case_bool_decide as E3; [intros [= <-]; rewrite E3; split_and!; cbn [fst snd]; [by_evaluation..|done]|].
    case_bool_decide as E4; [intros [= <-]; rewrite E4; split_and!; cbn [fst snd]; [by_evaluation..|done]|done].
  - intros Hx. split_and!; cbn [fst snd]; [| |by eapply flatten_free].
    all: assert (is_token (chars hn) = true) as (_ & Hpl & _ & Hcol)%token_spec; [|done || by apply plain_text].
    all: unfold flatten_header_values in Hx; destruct (List.filter (same_name (chars hn)) (rs_fields rsh)) as [|f l] eqn:E; [done|];
      assert (In f (List.filter (same_name (chars hn)) (rs_fields rsh))) as [Hf%list_elem_of_In Hs%same_name_lower]%filter_In by (rewrite E; by left);
      apply (token_of_lower _ (fst f)); [done|by apply Ht].
Qed.

Lemma verification_head_ok rsh sig vh :
  parsed_message rsh sig -> verification_head rsh sig = Some vh -> Forall line_ok vh.
Proof.
  intros Hm. unfold verification_head. generalize (SplitString (headers sig) " "%byte) as hns.
  intros hns. assert (Forall line_ok []) as Hnil by constructor. revert Hnil. generalize (@nil (list byte * list byte)) as acc.
  induction hns as [|hn hns IH]; intros acc Ha Hl; cbn [verification_loop] in Hl; [by simplify_eq|].
  destruct (verification_value rsh sig hn) as [x|] eqn:E; [|done]. eapply IH; [|exact Hl].
  apply Forall_forall. intros f [Hf| ->]%elem_of_set; [|by eapply verification_value_ok].
  rewrite Forall_forall in Ha. by apply Ha.
Qed.

(** ** Redundant signatures *)

(** "Signature B is redundant regarding A": same key and algorithm, not newer, and
    no header that A does not have. *)
Definition redundant (b a : HttpSignature) : Prop :=
  chars (keyId a) = chars (keyId b) /\ chars (algorithm a) = chars (algorithm b) /\
  default 0 (time_of_view (created b)) <= default 0 (time_of_view (created a)) /\
  (forall x, x ∈ sig_headers_set (headers b) -> x ∈ sig_headers_set (headers a)).

Lemma has_extra_items_false s1 s2 : has_extra_items s1 s2 = false <-> forall x, x ∈ s1 -> x ∈ s2.
Proof.
  unfold has_extra_items. rewrite <-not_true_iff_false, existsb_exists. split.
  - intros Hno x Hx. destruct (decide (x ∈ s2)); [done|]. exfalso. apply Hno. exists x.
    rewrite <-list_elem_of_In. by rewrite bool_decide_false.
  - intros Hs (x & Hx & Hn). apply list_elem_of_In, Hs in Hx. by rewrite bool_decide_true in Hn.
Qed.

(** A signature of the head, parsed. *)
Definition signature_of (h : list byte * list byte) (sig : HttpSignature) : Prop :=
  is_signature_hdr (fst h) = true /\ HttpSignature_parse (field_view (snd h)) = Some sig.

Lemma older_or_fewer sig1 sig2 ts1 ts2 :
  chars (keyId sig2) = chars (keyId sig1) -> chars (algorithm sig2) = chars (algorithm sig1) ->
  default 0 (time_of_view (created sig1)) = ts1 -> default 0 (time_of_view (created sig2)) = ts2 ->
  (ts2 <? ts1) || has_extra_items (sig_headers_set (headers sig1)) (sig_headers_set (headers sig2)) = false <->
  redundant sig1 sig2.
Proof.
  intros Hk Ha <- <-. rewrite orb_false_iff, has_extra_items_false, Z.ltb_ge. unfold redundant. naive_solver.
Qed.

Lemma redundant_loop_cons thsig ths_ts insert h head kept insert' :
  time_of_view (created thsig) = Some ths_ts ->
  redundant_loop thsig ths_ts insert (h :: head) = Some (kept, insert') ->
  exists keep ok kept0,
    redundant_loop thsig ths_ts (insert && ok) head = Some (kept0, insert') /\
    kept = (if keep : bool then h :: kept0 else kept0) /\
    (keep = false <-> exists sig, signature_of h sig /\ redundant sig thsig) /\
    (ok = false <-> exists sig, signature_of h sig /\ redundant thsig sig).
Proof.
  intros Hts. cbn [redundant_loop]. unfold signature_of.
  destruct (is_signature_hdr (fst h)); cbn [negb].
  2: { destruct (redundant_loop thsig ths_ts insert head) as [[kept0 ins]|] eqn:E; [|done]. intros [= <- <-].
       exists true, true, kept0. rewrite andb_true_r. split_and!; [done|done|naive_solver|naive_solver]. }
  destruct (HttpSignature_parse (field_view (snd h))) as [hsig|]; [|done].
  assert (forall P, (exists sig, (true = true /\ Some hsig = Some sig) /\ P sig) <-> P hsig) as Hex by naive_solver.
  setoid_rewrite Hex.
  destruct (bool_decide_reflect (chars (keyId thsig) = chars (keyId hsig))) as [Hk|Hk];
    [destruct (bool_decide_reflect (chars (algorithm thsig) = chars (algorithm hsig))) as [Ha|Ha]|]; cbn [negb orb].
  2,3: destruct (redundant_loop thsig ths_ts insert head) as [[kept0 ins]|] eqn:E; [|done]; intros [= <- <-];
       exists true, true, kept0; rewrite andb_true_r; unfold redundant; split_and!; [done|done|naive_solver|naive_solver].
  destruct (redundant_loop thsig ths_ts (insert && _) head) as [[kept0 ins]|] eqn:E; [|done]. intros [= <- <-].
  eexists _, _, kept0. split_and!; [exact E|done|..]; apply older_or_fewer; by rewrite ?Hts.
Qed.

Lemma redundant_loop_spec thsig ths_ts head : forall insert kept insert',
  time_of_view (created thsig) = Some ths_ts ->
  redundant_loop thsig ths_ts insert head = Some (kept, insert') ->
  (forall h, h ∈ kept -> h ∈ head /\ ~ exists sig, signature_of h sig /\ redundant sig thsig) /\
  (forall h, h ∈ head -> h ∈ kept \/ exists sig, signature_of h sig /\ redundant sig thsig) /\
  (insert' = true -> insert = true /\ ~ exists h sig, h ∈ head /\ signature_of h sig /\ redundant thsig sig) /\
  (insert' = false -> insert = false \/ exists h sig, h ∈ head /\ signature_of h sig /\ redundant thsig sig).
Proof.
  intros insert kept insert' Hts. revert insert kept insert'.
  induction head as [|h head IH]; intros insert kept insert'.
  { intros [= <- <-]. split_and!; [set_solver..| |auto]. intros ->. split; [done|]. set_solver. }
  intros Hl. destruct (redundant_loop_cons _ _ _ _ _ _ _ Hts Hl) as (keep & ok & kept0 & Hrest & -> & Hkeep & Hok).
  destruct (IH _ _ _ Hrest) as (IH1 & IH2 & IH3 & IH4).
  assert (if keep then ~ exists sig, signature_of h sig /\ redundant sig thsig
          else exists sig, signature_of h sig /\ redundant sig thsig) as Hk
    by (destruct keep; [rewrite <-Hkeep; done|by apply Hkeep]).
  assert (if ok then ~ exists sig, signature_of h sig /\ redundant thsig sig
          else exists sig, signature_of h sig /\ redundant thsig sig) as Ho
    by (destruct ok; [rewrite <-Hok; done|by apply Hok]).
  clear Hkeep Hok Hl. setoid_rewrite elem_of_cons. split_and!.
  - intros g. destruct keep; rewrite ?elem_of_cons; [|naive_solver].
    intros [->|Hg]; [split; [by left|done]|naive_solver].
  - intros g [->|Hg]; [destruct keep; [left; left|by right]|].
    destruct (IH2 _ Hg) as [?|?]; [|by right]. left. destruct keep; [by right|done].
  - intros [[-> ->]%andb_true_iff Hno]%IH3. split; [done|].
    intros (g & sig & [->|Hg] & Hs & Hr); [apply Ho; by exists sig|apply Hno; by exists g, sig].
  - intros [Hf|(g & sig & Hg & Hs)]%IH4; [|right; exists g, sig; auto].
    destruct insert; [|by left]. simpl in Hf. subst ok. destruct Ho as (sig & Hs). right. exists h, sig. auto.
Qed.

(** ** Properties of signed heads *)

Section Theorems.
Context {S : SignatureScheme} {B : Base64} {T : TransferCoding}.

(** C24: every header of a verified head was in the head that was received and is
    a framing header or is listed by a signature of the key's owner which was
    checked with the value that the header has; the others are signatures that
    were in the head.  The status is the received one, and there is at least one
    good signature. *)
Theorem verified_head_is_signed (rsh r : response_header) (pk : list byte) :
  SignedHead_verify rsh pk = Some r -> token_names (rs_fields rsh) ->
  result r = result rsh /\ (exists vh, signs rsh pk vh) /\
  forall n v, (n, v) ∈ rs_fields r ->
    (is_signature_hdr n = true /\ exists m, (m, v) ∈ rs_fields rsh /\ is_signature_hdr m = true) \/
    (is_signature_hdr n = false /\ (n, v) ∈ rs_fields rsh /\
     (is_framing n = true \/
      exists vh, signs rsh pk vh /\ find_field n vh = flatten_header_values (rs_fields rsh) n /\ is_Some (find_field n vh))).
Proof.
  intros Hv Ht. unfold SignedHead_verify in Hv. rewrite split_signatures_spec in Hv. fold (checked rsh) in Hv.
  set (rs := List.filter (fun f => negb (sig_field f)) (rs_fields rsh)) in *.
  assert (verify_inv rsh pk rs {| v_rsh := rs; v_sig_ok := false; v_extra := rs; v_sig_idx := 0 |}) as Hinit.
  { split_and!; cbn; [auto|done|done|lia]. }
  apply (verify_steps_inv rsh pk rs (foldl (fun sigs h => insert_field (fst h) (snd h) sigs) [] (List.filter sig_field (rs_fields rsh)))) in Hinit.
  2: { intros h [Hh%not_elem_of_nil|Hh]%elem_of_inserts; [done|].
       apply list_elem_of_In, filter_In in Hh. by rewrite list_elem_of_In. }
  destruct (foldl _ _ _) as [v_rsh v_ok v_extra v_idx]. cbn [HttpSign.v_rsh HttpSign.v_sig_ok HttpSign.v_extra] in Hv.
  destruct Hinit as (I1 & I2 & I3 & _). cbn [HttpSign.v_rsh HttpSign.v_sig_ok HttpSign.v_extra] in I1, I2, I3.
  destruct v_ok; [|done]. cbn [negb] in Hv. injection Hv as <-. cbn [rs_fields set_rs_fields result].
  split_and!; [done|by apply I2|]. intros n v [Hf Hx]%elem_of_erases.
  destruct (I1 _ Hf) as [Hrs|[Hs Hm]]; [|by left]. right.
  apply list_elem_of_In, filter_In in Hrs as [Hin Hns]. apply list_elem_of_In in Hin. apply negb_true_iff in Hns.
  split_and!; [done|done|]. destruct (is_framing n) eqn:Hfr; [by left|right].
  assert (List.filter (same_name n) (rs_fields (checked rsh)) = List.filter (same_name n) (rs_fields rsh)) as Hsame.
  { unfold checked. cbn [rs_fields set_rs_fields]. rewrite filter_name_erases; [by apply filter_name_framing|].
    intros h Hh En. apply list_elem_of_In, filter_In in Hh as [_ Hh].
    by rewrite (sig_field_name n h En) in Hh; unfold sig_field in Hns; cbn in Hns; rewrite Hns in Hh. }
  assert ((n, v) ∈ rs_fields (checked rsh)) as Hck.
  { assert (In (n, v) (List.filter (same_name n) (rs_fields rsh))) as Hn.
    { apply filter_In. rewrite <-list_elem_of_In. split; [done|]. by apply same_name_lower. }
    rewrite <-Hsame in Hn. apply filter_In in Hn as [Hn _]. by apply list_elem_of_In. }
  destruct (I3 (n, v) (n, v)) as (vh & Hsig & Hsome & Hval); [|..|done|done|].
  - apply list_elem_of_In, filter_In. rewrite <-list_elem_of_In. by rewrite Hns.
  - intros Hex. by apply (Hx _ Hex).
  - exists vh. split_and!; [done| |done]. cbn [fst] in *. rewrite Hval by (by apply (Ht (n, v))).
    unfold flatten_header_values. by rewrite Hsame.
Qed.

(** the signed string determines the headers that it covers: if two messages
    give the same string, then each header that the signature lists is present in
    both, with the same flattened value. *)
Theorem signature_binds_headers (rsh1 rsh2 : response_header) (sig1 sig2 : HttpSignature) (vh1 vh2 : fields) (n : list byte) :
  parsed_message rsh1 sig1 -> parsed_message rsh2 sig2 ->
  verification_head rsh1 sig1 = Some vh1 -> verification_head rsh2 sig2 = Some vh2 ->
  fst (get_sig_str_hdrs vh1) = fst (get_sig_str_hdrs vh2) ->
  vh1 = vh2 /\
  (is_token n = true -> find_field n vh1 <> None ->
   flatten_header_values (rs_fields rsh1) n = find_field n vh1 /\
   flatten_header_values (rs_fields rsh2) n = find_field n vh1).
Proof.
  intros Hm1 Hm2 Hv1 Hv2 E.
  assert (vh1 = vh2) as <- by (apply signed_string_inj; [by apply (verification_head_ok rsh1 sig1)|by apply (verification_head_ok rsh2 sig2)|done]).
  split; [done|]. intros Ht Hf. destruct (find_field n vh1) as [x|] eqn:Hx; [|done].
  split; [by apply (covered_value rsh1 sig1 vh1)|by apply (covered_value rsh2 sig2 vh1)].
Qed.

(** what the injector signs is accepted: the head that [sign_response] makes
    of a response that is fit for the cache verifies under the injector's key, no
    header is lost, and the injection parameters are read back. *)
Theorem signed_response_accepted {SL : SignatureLaws S} {BL : Base64Laws B} {TL : TransferCodingLaws T}
    (rqh : request_header) (rsh : response_header) (id : list byte) (ts : Z) (sk : SecretKey) :
  cache_head rsh -> id <> [] /\ (","%byte ∉ id) /\ no_margin " "%byte id -> - 2 ^ 63 <= ts < 2 ^ 63 ->
  exists sh,
    verify_and_create (sign_response rqh rsh id ts sk) (public_key_of sk) = Value (Some sh) /\
    rs_fields (sh_head sh) ≡ₚ rs_fields (sign_response rqh rsh id ts sk) /\ result (sh_head sh) = result rsh /\
    sh_injection_id sh = id /\ sh_injection_ts sh = ts /\ sh_uri sh = target rqh /\
    sh_public_key sh = public_key_of sk /\ sh_block_size sh = response_data_block.
Proof.
  intros Hh Hid Hts. pose proof (signed_head_received rqh rsh id ts sk Hh) as HR.
  destruct (received_created rqh rsh id ts sk Hh Hid Hts _ HR) as (sh & Hv & Eh & Hrest).
  exists sh. split; [done|]. rewrite Eh. split_and!; [|done|apply Hrest..].
  cbn [rs_fields set_rs_fields]. unfold accepted_fields. rewrite signed_head_added by done. cbn [foldl].
  rewrite <-(signed_head_signatures rqh rsh id ts sk Hh). apply filter_partition.
Qed.

(** the value that is checked for a header is the one that was signed, except
    when the header is repeated and its first value is empty: then it differs, and
    the signature of the head does not verify. *)
Theorem flattened_value_signed (fs : fields) (n : list byte) :
  values n fs <> [] ->
  flatten_header_values fs n = find_field n (prep_sig_head fs []) <-> ~ starts_empty (values n fs).
Proof.
  intros Hne. destruct (prep_sig_head_spec fs []) as (sorted & m & (Hnd & Hin & Hm) & Hhead).
  rewrite Hhead by (split_and!; [done|by intros k [Hk _]%Hin|by intros f Hf%not_elem_of_nil]).
  assert (values (lower_str n) fs = values n fs) as Hlow.
  { unfold values. f_equal. clear. induction fs as [|f fs IH]; [done|]. cbn [List.filter].
    rewrite !same_name_iff, lower_str_idem. by rewrite IH. }
  assert (find_field n ([] ++ map (fun k => (k, flat (values k fs))) sorted) = Some (flat (values n fs))) as ->.
  { assert (lower_str n ∈ sorted) as Hs by (apply Hin; rewrite lower_str_idem, Hlow; done).
    unfold find_field. cbn [app]. destruct (List.find (same_name n) _) as [[k v]|] eqn:E.
    - apply find_some in E as [(k' & [= <- <-] & Hk)%in_map_iff Hs']. apply same_name_lower in Hs'. cbn [fst] in Hs'.
      apply list_elem_of_In, Hin in Hk as [Hk _]. rewrite Hk in Hs'. subst k'. simpl. by rewrite Hlow.
    - exfalso. eapply find_none in E; [|apply in_map_iff; exists (lower_str n); split; [done|by apply list_elem_of_In]].
      rewrite same_name_iff, bool_decide_true in E; [done|]. apply lower_str_idem. }
  rewrite flatten_values. naive_solver.
Qed.

(** merging a signature of the trailer into a head takes only signatures away
    that are redundant regarding it, and leaves one that it is redundant
    regarding, unless the head had one that is equal to it in all respects. *)
Theorem trailer_signature_merged (head head' : fields) (thn thv : list byte) (thsig : HttpSignature) (ts : Z) :
  is_signature_hdr thn = true -> HttpSignature_parse (field_view thv) = Some thsig ->
  time_of_view (created thsig) = Some ts -> insert_trailer head (thn, thv) = Some head' ->
  (forall h, h ∈ head -> h ∈ head' \/ exists sig, signature_of h sig /\ redundant sig thsig) /\
  ((exists h sig, h ∈ head' /\ signature_of h sig /\ redundant thsig sig) \/
   (exists h sig, h ∈ head /\ signature_of h sig /\ redundant thsig sig /\ redundant sig thsig)).
Proof.
  intros Hn Hp Hts Hi. unfold insert_trailer in Hi. rewrite Hn, Hp, Hts in Hi. cbn [negb] in Hi.
  destruct (redundant_loop thsig ts true head) as [[kept ins]|] eqn:E; [|done]. injection Hi as <-.
  destruct (redundant_loop_spec _ _ _ _ _ _ Hts E) as (_ & Hall & _ & Hins).
  assert (forall h, h ∈ kept -> h ∈ (if ins then insert_field thn thv kept else kept)) as Hsub.
  { intros h Hh. destruct ins; [|done]. apply elem_of_insert_field. by left. }
  split; [intros h Hh; destruct (Hall h Hh); auto|]. destruct ins.
  - left. exists (thn, thv), thsig. split_and!; [apply elem_of_insert_field; by right|done|].
    unfold redundant. naive_solver lia.
  - destruct (Hins eq_refl) as [?|(h & sig & Hh & Hs & Hr)]; [done|].
    destruct (Hall h Hh) as [Hk|(sig' & Hs' & Hr')]; [left; by exists h, sig|right].
    assert (sig' = sig) as -> by (destruct Hs, Hs'; congruence). by exists h, sig.
Qed.

(** a signature that the head already has is lost when the trailer repeats it:
    it is redundant regarding the new one, and the new one regarding it. *)
Theorem repeated_signature_lost (head head' : fields) (n thn thv : list byte) (thsig : HttpSignature) (ts : Z) :
  is_signature_hdr thn = true -> is_signature_hdr n = true -> HttpSignature_parse (field_view thv) = Some thsig ->
  time_of_view (created thsig) = Some ts -> (n, thv) ∈ head -> insert_trailer head (thn, thv) = Some head' ->
  forall m, is_signature_hdr m = true -> (m, thv) ∉ head'.
Proof.
  intros Hthn Hn Hp Hts Hin Hi m Hm. unfold insert_trailer in Hi. rewrite Hthn, Hp, Hts in Hi. cbn [negb] in Hi.
  destruct (redundant_loop thsig ts true head) as [[kept ins]|] eqn:E; [|done]. injection Hi as <-.
  destruct (redundant_loop_spec _ _ _ _ _ _ Hts E) as (Hkept & _ & Hins & _).
  assert (redundant thsig thsig) as Hr by (unfold redundant; naive_solver lia).
  destruct ins.
  - exfalso. apply Hins; [done|]. by exists (n, thv), thsig.
  - intros Hk. apply Hkept in Hk as [_ Hno]. apply Hno. by exists thsig.
Qed.

End Theorems.

(** ** Witnesses *)

(** Codecs for evaluating examples: two letters per byte, and a coding that is
    either chunked or not. *)
Definition toy_letters (c : byte) : list byte := [byte_of (65 + code c / 16); byte_of (65 + code c mod 16)].

Fixpoint toy_decode (n : nat) (s : list byte) : option (list byte) :=
  match n, s with
  | O, [] => Some []
  | S n', x :: y :: s' =>
      let? out := toy_decode n' s' in Some (byte_of ((code x - 65) * 16 + (code y - 65)) :: out)
  | _, _ => None
  end.

#[local] Instance toy_base64 : Base64 := {|
  base64_encode s := concat (map toy_letters s);
  base64_decode := toy_decode;
|}.

#[local] Instance toy_base64_laws : Base64Laws toy_base64.
Proof.
  split.
  - induction s as [|c s IH]; [done|]. cbn. cbn in IH. rewrite IH. do 2 f_equal. by destruct c.
  - induction s as [|c s IH]; [done|]. cbn in IH |- *. rewrite IH. by destruct c.
  - by intros [|c s].
  - intros n. induction n as [|n IH]; intros [|x [|y s]] out Hd; try done; cbn in Hd; [by simplify_eq|].
    destruct (toy_decode n s) as [o|] eqn:E; [|done]. simplify_eq. cbn. f_equal. by eapply IH.
Qed.

#[local] Instance toy_coding : TransferCoding := {|
  last_is_chunked te := iequals te (str "chunked");
  drop_chunked te := if iequals te (str "chunked") then [] else te;
|}.

#[local] Instance toy_coding_laws : TransferCodingLaws toy_coding.
Proof. split; intros te Hte; cbn [last_is_chunked drop_chunked toy_coding]; by rewrite Hte. Qed.

#[local] Existing Instances Crypto.toy_scheme Crypto.toy_scheme_laws.

Definition sample_rq : request_header :=
  {| method := str "GET"; target := str "https://example.com/foo"; version := 11; rq_fields := [] |}.
Definition sample_rs : response_header :=
  {| result := 200; rs_version := 11;
     rs_fields := [(str "Date", str "Mon, 15 Jan 2018 20:31:50 GMT"); (str "Server", str "Apache1");
                   (str "Via", str "one"); (str "Via", str " two "); (str "Transfer-Encoding", str "chunked")] |}.
Definition sample_sk : @SecretKey Crypto.toy_scheme := str "secret".
Definition sample_signed : response_header := sign_response sample_rq sample_rs (str "d6076384") 1516048310 sample_sk.

Lemma token_names_check fs : forallb (fun f => is_token (fst f)) fs = true -> token_names fs.
Proof. rewrite forallb_forall. intros Hf f Hin%list_elem_of_In. by apply (Hf f). Qed.

Lemma sample_head : cache_head sample_rs.
Proof.
  split.
  - by apply token_names_check.
  - intros te [= <-]. reflexivity.
  - reflexivity.
  - intros n (w & vs & E). unfold values in E.
    assert (forall f, f ∈ rs_fields sample_rs -> trimmed_value (snd f) <> []) as Hne.
    { apply Forall_forall. by_evaluation. }
    destruct (List.filter (same_name n) (rs_fields sample_rs)) as [|f l] eqn:Ef; [done|].
    apply (Hne f); [|by injection E]. apply list_elem_of_In.
    assert (In f (List.filter (same_name n) (rs_fields sample_rs))) as [Hin _]%filter_In by (rewrite Ef; by left). done.
Qed.

Lemma signed_response_accepted_witness :
  exists sh, verify_and_create sample_signed (public_key_of sample_sk) = Value (Some sh) /\
    sh_injection_id sh = str "d6076384" /\ sh_injection_ts sh = 1516048310.
Proof.
  destruct (signed_response_accepted sample_rq sample_rs (str "d6076384") 1516048310 sample_sk)
    as (sh & Hv & _ & _ & Hid & Hts & _).
  - exact sample_head.
  - split; [discriminate|]. split; [by_evaluation|]. apply no_margin_free. by_evaluation.
  - lia.
  - exists sh. exact (conj Hv (conj Hid Hts)).
Defined.

(** A head with a header that nobody signed. *)
Definition sample_received : response_header :=
  set_rs_fields sample_signed ((str "X-Evil", str "1") :: rs_fields sample_signed).
Definition sample_kept : response_header :=
  default sample_received (SignedHead_verify sample_received (public_key_of sample_sk)).

Example unsigned_header_dropped :
  find_field (str "X-Evil") (rs_fields sample_kept) = None /\
  find_field (str "via") (rs_fields sample_kept) = Some (str "one").
Proof. vm_compute. done. Qed.

Lemma verified_head_is_signed_witness :
  exists vh, signs sample_received (public_key_of sample_sk) vh.
Proof.
  refine (proj1 (proj2 (verified_head_is_signed sample_received sample_kept (public_key_of sample_sk) _ _))).
  - vm_compute. reflexivity.
  - apply token_names_check. vm_compute. reflexivity.
Defined.

Definition sample_sig : HttpSignature :=
  default empty_signature (HttpSignature_parse (field_view (field_value initial_signature_hdr (rs_fields sample_signed)))).
Definition sample_vh : fields := default [] (verification_head sample_signed sample_sig).

Lemma parsed_message_check rsh sig :
  forallb (fun f => is_token (fst f) && negb (bool_decide (newline ∈ snd f))) (rs_fields rsh)
  && negb (bool_decide (newline ∈ chars (created sig))) && negb (bool_decide (newline ∈ chars (expires sig))) = true ->
  parsed_message rsh sig.
Proof.
  rewrite !andb_true_iff, !negb_true_iff, !bool_decide_eq_false, forallb_forall. intros [[Hf Hc] He].
  split_and!; [|..|done|done]; intros f Hin%list_elem_of_In%Hf;
    apply andb_true_iff in Hin as [Ht Hn]; [done|]. by apply negb_true_iff, bool_decide_eq_false in Hn.
Qed.

Lemma signature_binds_headers_witness :
  flatten_header_values (rs_fields sample_signed) (str "Via") = find_field (str "Via") sample_vh.
Proof.
  refine (proj1 (proj2 (signature_binds_headers sample_signed sample_signed sample_sig sample_sig sample_vh sample_vh
    (str "Via") _ _ _ _ eq_refl) _ _)).
  - apply parsed_message_check. vm_compute. reflexivity.
  - apply parsed_message_check. vm_compute. reflexivity.
  - vm_compute. reflexivity.
  - vm_compute. reflexivity.
  - vm_compute. reflexivity.
  - vm_compute. discriminate.
Defined.

Lemma flattened_value_signed_witness :
  flatten_header_values (rs_fields sample_rs) (str "via") = find_field (str "via") (prep_sig_head (rs_fields sample_rs) []).
Proof.
  apply (flattened_value_signed (rs_fields sample_rs) (str "via")).
  - vm_compute. discriminate.
  - apply (head_values _ sample_head).
Defined.

(** The case in which they differ. *)
Definition sample_empty_first : fields := [(str "X-Foo", []); (str "X-Foo", str "bar")].

Example empty_first_value :
  flatten_header_values sample_empty_first (str "x-foo") = Some (str "bar") /\
  find_field (str "x-foo") (prep_sig_head sample_empty_first []) = Some (str ", bar").
Proof. vm_compute. done. Qed.

Definition sample_sig_text : list byte := field_value initial_signature_hdr (rs_fields sample_signed).

Lemma repeated_signature_lost_witness :
  bool_decide ((initial_signature_hdr, sample_sig_text) ∈
    default [] (insert_trailer [(initial_signature_hdr, sample_sig_text)] (final_signature_hdr, sample_sig_text))) = false.
Proof.
  apply bool_decide_false.
  refine (repeated_signature_lost [(initial_signature_hdr, sample_sig_text)] _ initial_signature_hdr final_signature_hdr
    sample_sig_text sample_sig 1516048310 eq_refl eq_refl _ _ _ _ initial_signature_hdr eq_refl).
  - vm_compute. reflexivity.
  - vm_compute. reflexivity.
  - left.
  - vm_compute. reflexivity.
Defined.

Lemma trailer_signature_merged_witness :
  (exists h sig, h ∈ [(final_signature_hdr, sample_sig_text)] /\ signature_of h sig /\ redundant sample_sig sig) \/
  (exists h sig, h ∈ [] /\ signature_of h sig /\ redundant sample_sig sig /\ redundant sig sample_sig).
Proof.
  refine (proj2 (trailer_signature_merged [] _ final_signature_hdr sample_sig_text sample_sig 1516048310 eq_refl _ _ _)).
  - vm_compute. reflexivity.
  - vm_compute. reflexivity.
  - vm_compute. reflexivity.
Defined.

(** The parameters of block signatures without a size. *)
Example block_sigs_without_size :
  BlockSigs_parse (field_view (str "keyId=" ++ quoted (encode_key_id (public_key_of sample_sk))
                               ++ str ",algorithm=" ++ quoted sig_alg_hs2019)) = Indeterminate.
Proof. vm_compute. reflexivity. Qed.

(** A scheme whose signatures depend on the whole message. *)
Definition poly_hash (m : list byte) : list byte :=
  pad Signature_size (to_string (foldl (fun a c => (a * 257 + code c) mod 2 ^ 200) 1 m)).

Definition poly_scheme : SignatureScheme := {|
  SecretKey := list byte;
  public_key_of := pad PublicKey_size;
  sign_message sk m := poly_hash (pad PublicKey_size sk ++ m);
  verify_message pk m sig := bool_decide (sig = poly_hash (pk ++ m));
|}.

(** A response of an origin, signed with its trailer: what the client makes of the
    head when it has seen the trailer. *)
Definition head_with_trailer (rs : response_header) : option response_header :=
  let sk : @SecretKey poly_scheme := str "secret" in
  let pk := @public_key_of poly_scheme sk in
  let signed := @sign_response poly_scheme _ _ sample_rq rs (str "d6076384") 1516048310 sk in
  let? kept := @SignedHead_verify poly_scheme _ _ signed pk in
  let trailer := @http_injection_trailer poly_scheme _ _ signed [] 5 (str "digest") sk (encode_key_id pk) 1516048311 in
  @SignedHead_verify poly_scheme _ _
    (set_rs_fields kept (foldl (fun fs h => insert_field (fst h) (snd h) fs) (rs_fields kept) trailer)) pk.

(** If the origin sent a digest of its own, the head that is signed with the trailer
    has only the new digest, and the head that is checked has both. *)
Example origin_digest_breaks_trailer :
  head_with_trailer sample_rs <> None /\
  head_with_trailer (set_rs_fields sample_rs ((str "Digest", str "MD5=abc") :: rs_fields sample_rs)) = None.
Proof. vm_compute. split; [discriminate|reflexivity]. Qed.
