(* ===== verification/BlockSign.v ===== *)
(** * Signing and verifying readers: src/cache/http_sign.cpp and src/util/quantized_buffer.h

    A reader turns the parts of a response into other parts.  [SigningReader]
    regroups the body into blocks and adds their signatures as chunk extensions;
    [VerifyingReader] checks them and passes a block on only after its signature.

    The reader below is the list of what it still delivers: a part or an error; it
    is done when the list is empty (src/response_reader.cpp sets [_is_done] with
    the last part of a chunked response).  Hashes are functions of all the data fed
    to them.  Beast's parser of chunk extensions, its [Connection] header and its
    table of status codes are a class. *)
From S2P Require Import Prelude Number SplitString Url Http Request Crypto HashList HttpSign.

(** ** Parts of a response (src/response_part.h) *)

Inductive Part :=
  | HeadPart (h : response_header)
  | ChunkHdr (size : Z) (exts : list byte)
  | ChunkBody (data : list byte) (remain : Z)
  | Body (data : list byte)
  | Trailer (fs : fields).

(** What a read delivers: a part or an error code. *)
Variant errc :=
  | no_message | bad_message | invalid_argument | bad_descriptor | connection_aborted | invalid_seek
  | not_found | no_such_file | no_data
  | read_error (e : Z).
Abbreviation input := (list (errc + Part)).

(** [Fault] stands for a failed assertion, an exception or an indeterminate value. *)
Variant res (A : Type) := Ok (a : A) | Fail (e : errc) | Fault.
Arguments Ok {A} a.
Arguments Fail {A} e.
Arguments Fault {A}.

Class BeastOps := {
  parse_extensions : list byte -> option (list (list byte * list byte));  (* chunk_extensions::parse *)
  get_keep_alive : response_header -> bool;
  set_keep_alive : bool -> response_header -> response_header;
  known_status : Z -> bool;                                                (* int_to_status is not unknown *)
}.

(** [quantized_buffer], by its size and contents; [put] throws [length_error]. *)
Definition qbuf_put (qsize : nat) (data buf : list byte) : option (list byte) :=
  if (2 * qsize <? length buf + length data)%nat then None else Some (buf ++ data).

(** [get] and [get_rest]: the piece and what is left; [get_rest] asserts that there is
    less than a quantum. *)
Definition qbuf_get (qsize : nat) (buf : list byte) : list byte * list byte :=
  if (length buf <? qsize)%nat then ([], buf) else (take qsize buf, drop qsize buf).
Definition qbuf_get_rest (qsize : nat) (buf : list byte) : option (list byte * list byte) :=
  if (length buf <? qsize)%nat then Some (buf, []) else None.

Definition response_block_signature_ext : list byte := str "ouisig".
Definition response_block_chain_hash_ext : list byte := str "ouihash".

(** [size_t] arithmetic *)
Definition size_add (a b : Z) : Z := (a + b) mod 2 ^ 64.
Definition size_of (data : list byte) : Z := Z.of_nat (length data).

Section Code.
Context `{SignatureScheme} `{Base64} `{TransferCoding} `{BeastOps} `{FieldTable}.
Variables (sha256 sha512 : list byte -> list byte).

(** ** Chunk extensions *)

Definition extension (name value : list byte) : list byte := str ";" ++ name ++ str "=" ++ quoted value.

Definition block_chunk_ext (sig : option (list byte)) (prev_digest : option (list byte)) : list byte :=
  match sig with Some s => extension response_block_signature_ext (base64_encode s) | None => [] end
  ++ match prev_digest with Some d => extension response_block_chain_hash_ext (base64_encode d) | None => [] end.

(** The array in an extension; the outer [None] is [assert(!ec)]. *)
Definition block_arrattr_from_exts (size : nat) (xs ext_name : list byte) : option (option (list byte)) :=
  if bool_decide (xs = []) then Some None
  else
    let? xp := parse_extensions xs in
    match List.find (fun x => bool_decide (fst x = ext_name)) xp with
    | None => Some None
    | Some (_, value) => Some (base64_decode size value)
    end.

Definition block_dig_from_exts (xs : list byte) : option (option (list byte)) :=
  block_arrattr_from_exts Digest_size xs response_block_chain_hash_ext.
Definition block_sig_from_exts (xs : list byte) : option (option (list byte)) :=
  block_arrattr_from_exts Signature_size xs response_block_signature_ext.

Definition http_digest (body : list byte) : list byte := str "SHA-256=" ++ base64_encode (sha256 body).

(** ** [SigningReader::Impl] *)

Record signing := {
  s_chain_hasher : ChainHasher;
  s_do_inject : bool;
  s_outh : response_header;
  s_body_length : Z;
  s_block_offset : Z;
  s_block_size_last : Z;
  s_body_hash : list byte;
  s_block_hash : list byte;
  s_qbuf : list byte;
  s_pending_parts : list Part;
  s_trailer_in : fields;
  s_is_done : bool;
}.

Definition signing_init : signing :=
  {| s_chain_hasher := new_hasher; s_do_inject := false;
     s_outh := {| result := 200; rs_version := 11; rs_fields := [] |};
     s_body_length := 0; s_block_offset := 0; s_block_size_last := 0; s_body_hash := []; s_block_hash := [];
     s_qbuf := []; s_pending_parts := []; s_trailer_in := []; s_is_done := false |}.

Section Signing.
Variables (rqh : request_header) (injection_id : list byte) (injection_ts : Z) (sk : SecretKey).

Definition block_quantum : nat := Z.to_nat response_data_block.

Definition sign_head (inh_orig : response_header) (st : signing) : option Part * signing :=
  match to_cache_response inh_orig with
  | (true, _) => (Some (HeadPart inh_orig), st)
  | (false, inh) =>
      let inh := sign_response rqh inh injection_id injection_ts sk in
      (Some (HeadPart (set_keep_alive (get_keep_alive inh_orig) inh)),
       {| s_chain_hasher := s_chain_hasher st; s_do_inject := true; s_outh := inh;
          s_body_length := s_body_length st; s_block_offset := s_block_offset st;
          s_block_size_last := s_block_size_last st; s_body_hash := s_body_hash st;
          s_block_hash := s_block_hash st; s_qbuf := s_qbuf st; s_pending_parts := s_pending_parts st;
          s_trailer_in := s_trailer_in st; s_is_done := s_is_done st |})
  end.

(** The signature of the block that was sent last, and the hasher after it. *)
Definition sign_last_block (st : signing) : ChainHash * ChainHasher :=
  calculate_block sha512 (s_block_size_last st) (sha512 (s_block_hash st)) (Signer injection_id sk) (s_chain_hasher st).

(** The body overload of [process_part]. *)
Definition sign_body (inbuf : list byte) (st : signing) : res (option Part * signing) :=
  let body_length := size_add (s_body_length st) (size_of inbuf) in
  let body_hash := if s_do_inject st then s_body_hash st ++ inbuf else s_body_hash st in
  match qbuf_put block_quantum inbuf (s_qbuf st) with
  | None => Fault
  | Some buf =>
      match (if bool_decide (inbuf = []) then qbuf_get_rest block_quantum buf else Some (qbuf_get block_quantum buf)) with
      | None => Fault
      | Some (block_buf, buf) =>
          let st :=
            {| s_chain_hasher := s_chain_hasher st; s_do_inject := s_do_inject st; s_outh := s_outh st;
               s_body_length := body_length; s_block_offset := s_block_offset st;
               s_block_size_last := s_block_size_last st; s_body_hash := body_hash;
               s_block_hash := s_block_hash st; s_qbuf := buf; s_pending_parts := s_pending_parts st;
               s_trailer_in := s_trailer_in st; s_is_done := s_is_done st |} in
          if bool_decide (block_buf = []) then Ok (None, st)
          else
            let pending := s_pending_parts st ++ [ChunkBody block_buf 0] in
            let '(exts, hasher, block_hash) :=
              if s_do_inject st && (0 <? s_block_offset st) then
                let '(c, h) := sign_last_block st in (block_chunk_ext (Some (chain_signature c)) None, h, [])
              else ([], s_chain_hasher st, s_block_hash st) in
            Ok (Some (ChunkHdr (size_of block_buf) exts),
                {| s_chain_hasher := hasher; s_do_inject := s_do_inject st; s_outh := s_outh st;
                   s_body_length := s_body_length st;
                   s_block_offset := if s_do_inject st then size_add (s_block_offset st) (size_of block_buf)
                                     else s_block_offset st;
                   s_block_size_last := if s_do_inject st then size_of block_buf else s_block_size_last st;
                   s_body_hash := s_body_hash st;
                   s_block_hash := if s_do_inject st then block_hash ++ block_buf else block_hash;
                   s_qbuf := s_qbuf st; s_pending_parts := pending;
                   s_trailer_in := s_trailer_in st; s_is_done := s_is_done st |})
      end
  end.

(** [to_cache_trailer] clears the trailer. *)
Definition to_cache_trailer (rst : fields) : fields := [].

Definition sign_trailer (intr : fields) (st : signing) : signing :=
  {| s_chain_hasher := s_chain_hasher st; s_do_inject := s_do_inject st; s_outh := s_outh st;
     s_body_length := s_body_length st; s_block_offset := s_block_offset st;
     s_block_size_last := s_block_size_last st; s_body_hash := s_body_hash st;
     s_block_hash := s_block_hash st; s_qbuf := s_qbuf st; s_pending_parts := s_pending_parts st;
     s_trailer_in := if s_do_inject st then to_cache_trailer intr else intr; s_is_done := s_is_done st |}.

Definition sign_part (p : Part) (st : signing) : res (option Part * signing) :=
  match p with
  | HeadPart h => Ok (sign_head h st)
  | ChunkHdr _ _ => Ok (None, st)
  | ChunkBody data _ | Body data => sign_body data st
  | Trailer fs => Ok (None, sign_trailer fs st)
  end.

(** [process_end]; [now] is the time at which the trailer is signed. *)
Definition sign_end (now : Z) (st : signing) : res (option Part * signing) :=
  if s_is_done st then Ok (None, st)
  else
    match sign_body [] st with
    | Ok (Some ch, st) => Ok (Some ch, st)
    | Ok (None, st) =>
        let finish last_ch trailer hasher body_hash block_hash :=
          Ok (Some last_ch,
              {| s_chain_hasher := hasher; s_do_inject := s_do_inject st; s_outh := s_outh st;
                 s_body_length := s_body_length st; s_block_offset := s_block_offset st;
                 s_block_size_last := s_block_size_last st; s_body_hash := body_hash;
                 s_block_hash := block_hash; s_qbuf := s_qbuf st; s_pending_parts := s_pending_parts st ++ [Trailer trailer];
                 s_trailer_in := []; s_is_done := true |}) in
        if s_do_inject st then
          let '(c, hasher) := sign_last_block st in
          finish (ChunkHdr 0 (block_chunk_ext (Some (chain_signature c)) None))
            (http_injection_trailer (s_outh st) (s_trailer_in st) (s_body_length st) (sha256 (s_body_hash st)) sk
               (encode_key_id (public_key_of sk)) now) hasher [] []
        else finish (ChunkHdr 0 []) (s_trailer_in st) (s_chain_hasher st) (s_body_hash st) (s_block_hash st)
    | Fail e => Fail e
    | Fault => Fault
    end.

(** The loop of [async_read_part] when no part is pending. *)
Fixpoint sign_loop (now : Z) (inp : input) (st : signing) : res (option Part * signing * input) :=
  match inp with
  | [] => match sign_end now st with
          | Ok (p, st) => Ok (p, st, [])
          | Fail e => Fail e
          | Fault => Fault
          end
  | inl e :: _ => Fail e
  | inr p :: inp' =>
      if s_is_done st then Fault
      else
        match sign_part p st with
        | Ok (Some p, st) => Ok (Some p, st, inp')
        | Ok (None, st) => sign_loop now inp' st
        | Fail e => Fail e
        | Fault => Fault
        end
  end.

Definition signing_pop (st : signing) : option (Part * signing) :=
  match s_pending_parts st with
  | [] => None
  | p :: pending =>
      Some (p, {| s_chain_hasher := s_chain_hasher st; s_do_inject := s_do_inject st; s_outh := s_outh st;
                  s_body_length := s_body_length st; s_block_offset := s_block_offset st;
                  s_block_size_last := s_block_size_last st; s_body_hash := s_body_hash st;
                  s_block_hash := s_block_hash st; s_qbuf := s_qbuf st; s_pending_parts := pending;
                  s_trailer_in := s_trailer_in st; s_is_done := s_is_done st |})
  end.

(** [SigningReader::async_read_part] *)
Definition signing_read (now : Z) (inp : input) (st : signing) : res (option Part * signing * input) :=
  match signing_pop st with
  | Some (p, st) => Ok (Some p, st, inp)
  | None => sign_loop now inp st
  end.

End Signing.

(** ** [VerifyingReader::Impl] *)

(** [_head] is not initialised before a head was processed. *)
Record verifying := {
  v_head : option SignedHead;
  v_range : option (Z * Z);
  v_block_offset : Z;
  v_block_data : list byte;
  v_chain_hasher : ChainHasher;
  v_prev_block_dig : option (list byte);
  v_pending_parts : list Part;
  v_body_length : Z;
  v_body_hash : list byte;
  v_is_done : bool;
}.

Definition verifying_init : verifying :=
  {| v_head := None; v_range := None; v_block_offset := 0; v_block_data := []; v_chain_hasher := new_hasher;
     v_prev_block_dig := None; v_pending_parts := []; v_body_length := 0; v_body_hash := []; v_is_done := false |}.

Section Verifying.
Variables (check_framing : bool) (pk : list byte) (statuses : list Z).

(** [result()]: the enumeration value of the status. *)
Definition status_of (n : Z) : Z := if known_status n then n else 0.

Definition get_original_status (inh : response_header) : option Z :=
  if bool_decide (statuses = []) then None
  else if negb (bool_decide (status_of (result inh) ∈ statuses)) then None
  else
    let orig_status_sv := field_value response_original_http_status (rs_fields inh) in
    if bool_decide (orig_status_sv = []) then None
    else
      let? n := fst (number_of_view W4 (field_view orig_status_sv)) in
      if known_status n then Some n else None.

Definition set_result (n : Z) (h : response_header) : response_header :=
  {| result := n; rs_version := rs_version h; rs_fields := rs_fields h |}.

(** The head to verify and the [Content-Range] that was taken from it. *)
Definition restore_original (inh : response_header) (orig_status : option Z) : response_header * list byte :=
  match orig_status with
  | None => (inh, [])
  | Some orig =>
      let resp_status := status_of (result inh) in
      let fs := erase_field response_original_http_status (rs_fields inh) in
      if resp_status =? 206 then
        match find_field (str "Content-Range") fs with
        | Some resp_range =>
            ({| result := orig; rs_version := rs_version inh; rs_fields := erase_first (str "Content-Range") fs |},
             resp_range)
        | None => (set_result orig (set_rs_fields inh fs), [])
        end
      else (set_result orig (set_rs_fields inh fs), [])
  end.

(** The range of a partial response; [None] if it is malformed. *)
Definition partial_range (head : SignedHead) (resp_range : list byte) : option (option (Z * Z)) :=
  if bool_decide (resp_range = []) then Some None
  else
    let? br := HttpResponseByteRange_parse (view_of resp_range) in
    if matches_length_view (field_view (field_value response_data_size_hdr (rs_fields (sh_head head)))) br
    then Some (Some (first br, size_add (last br) 1)) else None.

Definition verify_head (inh : response_header) (st : verifying) : res (option Part * verifying) :=
  let resp_status := status_of (result inh) in
  let orig_status := get_original_status inh in
  let '(inh', resp_range) := restore_original inh orig_status in
  match verify_and_create inh' pk with
  | Indeterminate => Fault
  | Value None => Fail no_message
  | Value (Some head) =>
      if check_framing && negb match find_field (str "Transfer-Encoding") (rs_fields (sh_head head)) with
                               | Some te => last_is_chunked te
                               | None => false
                               end then Fail no_message
      else
        match partial_range head resp_range with
        | None => Fail no_message
        | Some range =>
            let out_head :=
              match orig_status with
              | None => sh_head head
              | Some orig =>
                  let fs := set_field response_original_http_status (to_string orig) (rs_fields (sh_head head)) in
                  let fs := if (resp_status =? 206) && negb (bool_decide (resp_range = []))
                            then set_field (str "Content-Range") resp_range fs else fs in
                  set_result resp_status (set_rs_fields (sh_head head) fs)
              end in
            Ok (Some (HeadPart out_head),
                {| v_head := Some head;
                   v_range := match range with Some r => Some r | None => v_range st end;
                   v_block_offset := match range with Some (b, _) => b | None => v_block_offset st end;
                   v_block_data := v_block_data st; v_chain_hasher := v_chain_hasher st;
                   v_prev_block_dig := v_prev_block_dig st; v_pending_parts := v_pending_parts st;
                   v_body_length := v_body_length st; v_body_hash := v_body_hash st; v_is_done := v_is_done st |})
        end
  end.

(** At the first block of a range: the hasher and the previous digest. *)
Definition range_start (exts : list byte) (st : verifying) : res (ChainHasher * option (list byte)) :=
  match v_range st with
  | Some (range_begin, _) =>
      if (0 <? v_block_offset st) && (v_block_offset st =? range_begin) then
        match v_prev_block_dig st with
        | Some _ => Fault
        | None =>
            match block_dig_from_exts exts with
            | None => Fault
            | Some None => Fail bad_message
            | Some (Some dig) =>
                Ok ({| _offset := v_block_offset st; _prev_chained_digest := Some dig;
                       _prev_chained_signature := _prev_chained_signature (v_chain_hasher st) |}, Some dig)
            end
        end
      else Ok (v_chain_hasher st, v_prev_block_dig st)
  | None => Ok (v_chain_hasher st, v_prev_block_dig st)
  end.

Definition verify_chunk_hdr (size : Z) (exts : list byte) (st : verifying) : res (option Part * verifying) :=
  match v_head st with
  | None => Fault
  | Some head =>
      if sh_block_size head <? size then Fail bad_message
      else if bool_decide (v_block_data st = []) then Ok (Some (ChunkHdr size exts), st)
      else
        match block_sig_from_exts exts with
        | None => Fault
        | Some None => Fail bad_message
        | Some (Some block_sig) =>
            match range_start exts st with
            | Fail e => Fail e
            | Fault => Fault
            | Ok (hasher, prev_dig) =>
                let '(c, hasher') := calculate_block sha512 (size_of (v_block_data st)) (sha512 (v_block_data st))
                                       (Sig block_sig) hasher in
                if negb (ChainHash_verify (sh_public_key head) (sh_injection_id head) c) then Fail bad_message
                else
                  Ok (Some (ChunkBody (v_block_data st) 0),
                      {| v_head := v_head st; v_range := v_range st;
                         v_block_offset := size_add (v_block_offset st) (size_of (v_block_data st));
                         v_block_data := []; v_chain_hasher := hasher'; v_prev_block_dig := Some (chain_digest c);
                         v_pending_parts := v_pending_parts st ++ [ChunkHdr size (block_chunk_ext (Some block_sig) prev_dig)];
                         v_body_length := v_body_length st; v_body_hash := v_body_hash st; v_is_done := v_is_done st |})
            end
        end
  end.

Definition verify_body (ind : list byte) (st : verifying) : res (option Part * verifying) :=
  match v_head st with
  | None => Fault
  | Some head =>
      if sh_block_size head <? size_add (size_of (v_block_data st)) (size_of ind) then Fail bad_message
      else
        Ok (None,
            {| v_head := v_head st; v_range := v_range st; v_block_offset := v_block_offset st;
               v_block_data := v_block_data st ++ ind; v_chain_hasher := v_chain_hasher st;
               v_prev_block_dig := v_prev_block_dig st; v_pending_parts := v_pending_parts st;
               v_body_length := size_add (v_body_length st) (size_of ind);
               v_body_hash := v_body_hash st ++ ind; v_is_done := v_is_done st |})
  end.

Definition set_v_head (head : SignedHead) (st : verifying) : verifying :=
  {| v_head := Some head; v_range := v_range st; v_block_offset := v_block_offset st;
     v_block_data := v_block_data st; v_chain_hasher := v_chain_hasher st; v_prev_block_dig := v_prev_block_dig st;
     v_pending_parts := v_pending_parts st; v_body_length := v_body_length st; v_body_hash := v_body_hash st;
     v_is_done := v_is_done st |}.

(** The headers of the trailer are inserted into the head. *)
Definition insert_fields (fs hs : fields) : fields :=
  foldl (fun fs h => insert_field (fst h) (snd h) fs) fs hs.

Definition verify_trailer (intr : fields) (st : verifying) : res (option Part * verifying) :=
  match v_head st with
  | None => Fault
  | Some head =>
      let rsh := set_rs_fields (sh_head head) (insert_fields (rs_fields (sh_head head)) intr) in
      if existsb (fun h => is_signature_hdr (fst h)) intr then
        match verify_and_create rsh pk with
        | Indeterminate => Fault
        | Value None => Fail bad_message
        | Value (Some head) => Ok (Some (Trailer intr), set_v_head head st)
        end
      else
        Ok (Some (Trailer intr),
            set_v_head {| sh_head := rsh; sh_injection_id := sh_injection_id head;
                          sh_injection_ts := sh_injection_ts head; sh_uri := sh_uri head;
                          sh_bs_params := sh_bs_params head |} st)
  end.

Definition verify_part (p : Part) (st : verifying) : res (option Part * verifying) :=
  match p with
  | HeadPart h => verify_head h st
  | ChunkHdr size exts => verify_chunk_hdr size exts st
  | ChunkBody data _ | Body data => verify_body data st
  | Trailer fs => verify_trailer fs st
  end.

(** The digests of the head with the algorithm of ours are equal to it. *)
Definition digest_matches (b_digest : list byte) (value : list byte) : bool :=
  let '(b_alg, b_val) := split_string_pair (view_of b_digest) "="%byte in
  let '(h_alg, h_val) := split_string_pair (field_view value) "="%byte in
  negb (iequals (chars b_alg) (chars h_alg)) || bool_decide (chars b_val = chars h_val).

(** [check_body]: whether the error code is set, and the state. *)
Definition check_body (st : verifying) : res verifying :=
  if v_is_done st then Ok st
  else
    match v_head st with
    | None => Fault
    | Some head =>
        let fs := rs_fields (sh_head head) in
        match fst (number_of_view W8 (field_view (field_value response_data_size_hdr fs))) with
        | None => Fail bad_message
        | Some h_body_length =>
            let exp_body_length := match v_range st with Some (b, e) => (e - b) mod 2 ^ 64 | None => h_body_length end in
            if negb (exp_body_length =? v_body_length st) then Fail bad_message
            else
              let whole := match v_range st with Some (b, e) => negb ((0 <? b) || (e <? h_body_length)) | None => true end in
              if whole && negb (forallb (fun f => digest_matches (http_digest (v_body_hash st)) (snd f))
                                  (List.filter (same_name (str "Digest")) fs))
              then Fail bad_message
              else
                Ok {| v_head := v_head st; v_range := v_range st; v_block_offset := v_block_offset st;
                      v_block_data := v_block_data st; v_chain_hasher := v_chain_hasher st;
                      v_prev_block_dig := v_prev_block_dig st; v_pending_parts := v_pending_parts st;
                      v_body_length := v_body_length st;
                      v_body_hash := if whole then [] else v_body_hash st; v_is_done := true |}
        end
    end.

(** The loop of [async_read_part], up to the check of the body. *)
Fixpoint verify_loop (inp : input) (st : verifying) : res (option Part * verifying * input) :=
  match inp with
  | [] => Ok (None, st, [])
  | inl e :: _ => Fail e
  | inr p :: inp' =>
      match verify_part p st with
      | Ok (Some p, st) => Ok (Some p, st, inp')
      | Ok (None, st) => verify_loop inp' st
      | Fail e => Fail e
      | Fault => Fault
      end
  end.

Definition verifying_pop (st : verifying) : option (Part * verifying) :=
  match v_pending_parts st with
  | [] => None
  | p :: pending =>
      Some (p, {| v_head := v_head st; v_range := v_range st; v_block_offset := v_block_offset st;
                  v_block_data := v_block_data st; v_chain_hasher := v_chain_hasher st;
                  v_prev_block_dig := v_prev_block_dig st; v_pending_parts := pending;
                  v_body_length := v_body_length st; v_body_hash := v_body_hash st; v_is_done := v_is_done st |})
  end.

(** [VerifyingReader::async_read_part] *)
Definition verifying_read (inp : input) (st : verifying) : res (option Part * verifying * input) :=
  match (match verifying_pop st with
         | Some (p, st) => Ok (Some p, st, inp)
         | None => verify_loop inp st
         end) with
  | Ok (p, st, inp) =>
      if bool_decide (inp = []) then
        match check_body st with
        | Ok st => Ok (p, st, inp)
        | Fail e => Fail e
        | Fault => Fault
        end
      else Ok (p, st, inp)
  | Fail e => Fail e
  | Fault => Fault
  end.

End Verifying.

(** ** Reading to the end *)

(** Reads until there is no part; the parts, and how the last read ended. *)
Variant ending := Ended | Failed (e : errc) | Faulted | OutOfFuel.

Fixpoint drain {St : Type} (fuel : nat) (read : input -> St -> res (option Part * St * input)) (inp : input) (st : St)
    : list Part * ending :=
  match fuel with
  | O => ([], OutOfFuel)
  | S fuel' =>
      match read inp st with
      | Ok (None, _, _) => ([], Ended)
      | Ok (Some p, st, inp) => let '(ps, e) := drain fuel' read inp st in (p :: ps, e)
      | Fail e => ([], Failed e)
      | Fault => ([], Faulted)
      end
  end.

End Code.
