(* ===== verification/SignedBody.v ===== *)
(** * What block signatures guarantee: src/cache/http_sign.cpp and chain_hasher.h

    Theorems about the readers of BlockSign: whatever a verifying reader passes on
    was injected, and what a signing reader makes of a response is passed on whole. *)
From S2P Require Import Prelude Number SplitString Url Http Request Crypto HashList HttpSign SignedHead BlockSign.

(** ** Chains of blocks *)

Section Chains.
Context {S : SignatureScheme}.
Variable sha512 : list byte -> list byte.

(** A chain: the data of each block with its signature. *)
Abbreviation chain := (list (list byte * list byte)).

Definition chain_step (h : ChainHasher) (b : list byte * list byte) : ChainHash * ChainHasher :=
  calculate_block sha512 (size_of (fst b)) (sha512 (fst b)) (Sig (snd b)) h.

Definition hasher_after (h : ChainHasher) (l : chain) : ChainHasher := foldl (fun h b => snd (chain_step h b)) h l.

(** Every block's signature is good at its place in the chain. *)
Fixpoint verified_chain (pk id : list byte) (h : ChainHasher) (l : chain) : Prop :=
  match l with
  | [] => True
  | b :: l' => ChainHash_verify pk id (fst (chain_step h b)) = true /\ verified_chain pk id (snd (chain_step h b)) l'
  end.

Lemma hasher_after_snoc h l b : hasher_after h (l ++ [b]) = snd (chain_step (hasher_after h l) b).
Proof. unfold hasher_after. by rewrite foldl_app. Qed.

Lemma verified_chain_snoc pk id l b : forall h,
  verified_chain pk id h (l ++ [b]) <->
  verified_chain pk id h l /\ ChainHash_verify pk id (fst (chain_step (hasher_after h l) b)) = true.
Proof. induction l as [|c l IH]; intros h; cbn; [tauto|]. rewrite IH. cbn. tauto. Qed.

Lemma verified_chain_app pk id l2 l1 : forall h,
  verified_chain pk id h (l1 ++ l2) <-> verified_chain pk id h l1 /\ verified_chain pk id (hasher_after h l1) l2.
Proof. induction l1 as [|b l1 IH]; intros h; cbn [app verified_chain]; [tauto|]. rewrite IH. cbn. tauto. Qed.

(** The chain that the injector makes of the blocks of a body. *)
Fixpoint injected (id : list byte) (sk : SecretKey) (h : ChainHasher) (ds : list (list byte)) : chain :=
  match ds with
  | [] => []
  | d :: ds' =>
      let '(c, h') := calculate_block sha512 (size_of d) (sha512 d) (Signer id sk) h in
      (d, chain_signature c) :: injected id sk h' ds'
  end.

(** The strings whose signatures a chain contains. *)
Fixpoint strings (id : list byte) (h : ChainHasher) (l : chain) : list (list byte) :=
  match l with
  | [] => []
  | b :: l' => let '(c, h') := chain_step h b in str_to_sign id (offset c) (chain_digest c) :: strings id h' l'
  end.

Definition as_block (b : list byte * list byte) : Block :=
  {| data_hash := sha512 (fst b); chained_hash_signature := snd b |}.

Lemma hasher_after_prev l b :
  _prev_chained_digest (hasher_after new_hasher (l ++ [b])) = Some (rchain sha512 (rev (map as_block (l ++ [b])))) /\
  _prev_chained_signature (hasher_after new_hasher (l ++ [b])) = Some (snd b).
Proof.
  revert b. induction l as [|c l IH] using rev_ind; intros b; [done|].
  rewrite hasher_after_snoc. split; [|done]. cbn [chain_step calculate_block snd _prev_chained_digest].
  unfold chain_input. destruct (IH c) as [-> ->]. rewrite !map_app, !rev_app_distr. done.
Qed.

Lemma chain_step_digest l b :
  chain_digest (fst (chain_step (hasher_after new_hasher l) b)) = rchain sha512 (rev (map as_block (l ++ [b]))).
Proof.
  pose proof (hasher_after_prev l b) as [Hd _]. rewrite hasher_after_snoc in Hd.
  cbn [chain_step calculate_block snd fst _prev_chained_digest chain_digest] in *. by simplify_eq.
Qed.

Lemma elem_of_strings id m l : forall h,
  m ∈ strings id h l ->
  exists l1 b l2, l = l1 ++ b :: l2 /\
    m = str_to_sign id (_offset (hasher_after h l1)) (chain_digest (fst (chain_step (hasher_after h l1) b))).
Proof.
  induction l as [|b l IH]; intros h; cbn [strings]; [by intros Hm%not_elem_of_nil|].
  destruct (chain_step h b) as [c h'] eqn:E. intros [->|Hm]%elem_of_cons.
  - exists [], b, l. split; [done|]. unfold hasher_after. cbn [foldl]. rewrite E. cbn [fst]. f_equal.
    unfold chain_step, calculate_block in E. by injection E as <-.
  - apply IH in Hm as (l1 & b' & l2 & -> & ->). exists (b :: l1), b', l2. split; [done|].
    cbn [hasher_after foldl]. fold (hasher_after (snd (chain_step h b)) l1). by rewrite E.
Qed.

Lemma hasher_after_offset l : 0 <= _offset (hasher_after new_hasher l).
Proof.
  destruct l as [|b l _] using rev_ind; [done|]. rewrite hasher_after_snoc. apply Z.mod_pos_bound. lia.
Qed.

Lemma injected_data id sk ds : forall h, map fst (injected id sk h ds) = ds.
Proof.
  induction ds as [|d ds IH]; intros h; [done|]. cbn [injected]. destruct (calculate_block _ _ _ _ _).
  cbn [map fst]. by rewrite IH.
Qed.

(** The texts that are hashed for a chain: the data of the blocks, and the texts that
    bind each block to those before it. *)
Definition hashed_texts (l : chain) : list (list byte) := map fst l ++ rchain_texts sha512 (rev (map as_block l)).

Lemma hashed_texts_app l1 l2 : hashed_texts l1 ⊆ hashed_texts (l1 ++ l2).
Proof.
  unfold hashed_texts. rewrite !map_app, rev_app_distr. apply list_subseteq_app_iff_l. split.
  - intros x Hx. apply elem_of_app. left. apply elem_of_app. by left.
  - intros x Hx. apply elem_of_app. right. by apply rchain_texts_app.
Qed.

Section Binding.
Hypothesis sha512_size : forall x, length (sha512 x) = Digest_size.

Lemma map_no_clash (xs : list (list byte)) : forall ys,
  no_clash sha512 xs ys -> map sha512 xs = map sha512 ys -> xs = ys.
Proof.
  induction xs as [|x xs IH]; intros [|y ys] Hc E; try done. injection E as E1 E2.
  apply Hc in E1 as ->; [|by left..]. f_equal. apply IH; [|done].
  eapply no_clash_mono; [..|exact Hc]; by apply list_subseteq_cons.
Qed.

(** A verified chain whose strings are all among those of another chain has the
    data of a beginning of it, if the hash tells the texts of the two apart. *)
Lemma chain_prefix pk id (l honest : chain) :
  (Byte.x00 ∉ id) ->
  Forall (fun b => length (snd b) = Signature_size) l -> Forall (fun b => length (snd b) = Signature_size) honest ->
  (forall o d s, verify_message pk (str_to_sign id o d) s = true -> str_to_sign id o d ∈ strings id new_hasher honest) ->
  no_clash sha512 (hashed_texts honest) (hashed_texts l) ->
  verified_chain pk id new_hasher l ->
  exists rest, map fst honest = map fst l ++ rest.
Proof.
  intros Hid Hl Hh Hsigned Hc Hv. destruct l as [|b l _] using rev_ind; [by eexists|].
  apply verified_chain_snoc in Hv as [_ Hv]. apply Hsigned, elem_of_strings in Hv as (h1 & c & h2 & -> & E).
  apply str_to_sign_inj in E as (_ & _ & E); [|done|done|apply hasher_after_offset..].
  rewrite (app_assoc h1 [c] h2 : h1 ++ c :: h2 = _) in Hc, Hh |- *.
  assert (no_clash sha512 (hashed_texts (h1 ++ [c])) (hashed_texts (l ++ [b]))) as Hc1.
  { eapply no_clash_mono; [apply hashed_texts_app|done|exact Hc]. }
  rewrite !chain_step_digest in E. symmetry in E. apply rchain_binds in E; [|done|..].
  2,3: apply Forall_rev, Forall_fmap; eapply Forall_impl; [|intros x Hx; split; [apply sha512_size|exact Hx]].
  2: by apply Forall_app in Hh as [Hh _].
  2: exact Hl.
  2,3: rewrite map_app, rev_app_distr; done.
  2: eapply no_clash_mono; [..|exact Hc1]; apply list_subseteq_app_r; done.
  destruct E as [E _]. rewrite !map_rev, !map_map in E.
  apply (f_equal (@rev (list byte))) in E. rewrite !rev_involutive in E.
  change (map (fun x => data_hash (as_block x))) with (map (fun x : list byte * list byte => sha512 (fst x))) in E.
  rewrite <-!(map_map fst sha512) in E. apply map_no_clash in E.
  2: eapply no_clash_mono; [..|exact Hc1]; apply list_subseteq_app_l; done.
  exists (map fst h2). by rewrite map_app, E.
Qed.

(** A chain that starts from a digest without a signature never fits. *)
Lemma chain_without_signature pk id (l honest : chain) o dig :
  (Byte.x00 ∉ id) -> 0 <= o -> length dig = Digest_size ->
  Forall (fun b => length (snd b) = Signature_size) honest ->
  (forall o d s, verify_message pk (str_to_sign id o d) s = true -> str_to_sign id o d ∈ strings id new_hasher honest) ->
  match l with [] => True | b :: _ => no_clash sha512 (hashed_texts honest) [dig ++ sha512 (fst b)] end ->
  verified_chain pk id {| _offset := o; _prev_chained_digest := Some dig; _prev_chained_signature := None |} l ->
  l = [].
Proof.
  intros Hid Ho Hdig Hh Hsigned Hc Hv. destruct l as [|b l]; [done|]. exfalso. destruct Hv as [Hv _].
  apply Hsigned, elem_of_strings in Hv as (h1 & c & h2 & -> & E).
  apply str_to_sign_inj in E as (_ & _ & E); [|done|done|done|apply hasher_after_offset].
  rewrite chain_step_digest, map_app, rev_app_distr in E. cbn [map rev app] in E. rewrite rchain_text_hash in E.
  cbn [chain_step calculate_block fst chain_digest chain_input _prev_chained_signature _prev_chained_digest default] in E.
  symmetry in E. apply Hc in E; [|apply elem_of_app; right|by left].
  2: { rewrite (app_assoc h1 [c] h2 : h1 ++ c :: h2 = _), map_app, rev_app_distr. apply rchain_texts_app.
       rewrite map_app, rev_app_distr. left. }
  apply (f_equal length) in E. cbn [rchain_text] in E.
  destruct h1 as [|b1 h1 _] using rev_ind.
  - cbn in E. rewrite length_app, !sha512_size in E. unfold Digest_size in *. lia.
  - rewrite map_app, rev_app_distr in E. cbn [map rev app] in E.
    rewrite Forall_app, Forall_app in Hh. destruct Hh as [[_ Hb] _]. apply Forall_cons in Hb as [Hb _].
    unfold chain_input in E. rewrite rchain_text_hash, !length_app, !sha512_size in E. cbn in E. rewrite Hb, !sha512_size in E. unfold Digest_size, Signature_size in *. lia.
Qed.

End Binding.
End Chains.

(** ** What a verifying reader passes on *)

(** The data of the parts that carry some. *)
Definition part_body (p : Part) : list (list byte) :=
  match p with ChunkBody d _ | Body d => [d] | _ => [] end.
Definition bodies (ps : list Part) : list (list byte) := concat (map part_body ps).

(** What follows the head of a response: chunks, and a trailer at the end. *)
Fixpoint body_input (inp : input) : bool :=
  match inp with
  | [] => true
  | inl _ :: inp' => body_input inp'
  | inr (HeadPart _) :: _ => false
  | inr (Trailer _) :: inp' => bool_decide (inp' = [])
  | inr _ :: inp' => body_input inp'
  end.

(** ** Chunks of a chain of blocks *)

Section ChunkLists.
Context {S : SignatureScheme} {B : Base64}.
Variable sha512 : list byte -> list byte.

(** The extensions with the signature of a block: alone, as the injector sends it, or
    with the chain hash of the block before it. *)
Definition plain_ext (h : ChainHasher) (b : list byte * list byte) : list byte := block_chunk_ext (Some (snd b)) None.
Definition hashed_ext (h : ChainHasher) (b : list byte * list byte) : list byte :=
  block_chunk_ext (Some (snd b)) (_prev_chained_digest h).

Variable ext : ChainHasher -> list byte * list byte -> list byte.

Definition signed_blocks (l : list (list byte * list byte)) : Prop := Forall (fun b => length (snd b) = Signature_size) l.

Definition ext_of (h : ChainHasher) (pend : option (list byte * list byte)) : list byte :=
  match pend with Some b => ext h b | None => [] end.
Definition hasher_of (h : ChainHasher) (pend : option (list byte * list byte)) : ChainHasher :=
  match pend with Some b => snd (chain_step sha512 h b) | None => h end.

(** The signature of a block comes with the header of the next one. *)
Fixpoint chunk_list (h : ChainHasher) (pend : option (list byte * list byte)) (l : list (list byte * list byte)) : list Part :=
  match l with
  | [] => [ChunkHdr 0 (ext_of h pend)]
  | b :: l' => ChunkHdr (size_of (fst b)) (ext_of h pend) :: ChunkBody (fst b) 0 :: chunk_list (hasher_of h pend) (Some b) l'
  end.

(** The parts of a whole body: those of its blocks, or the header with the signature of
    an empty body. *)
Definition chain_parts (c : list (list byte * list byte)) : list Part :=
  match c with
  | [([], s)] => chunk_list new_hasher (Some ([], s)) []
  | _ => chunk_list new_hasher None c
  end.

Lemma bodies_chunks l : forall h pend, bodies (chunk_list h pend l) = map fst l.
Proof.
  induction l as [|b l IH]; intros h pend; [done|]. cbn [chunk_list map].
  change (bodies (?a :: ?b :: ?l)) with (part_body a ++ part_body b ++ bodies l). cbn [part_body app]. by rewrite IH.
Qed.

Lemma chunk_list_chunked l : forall h pend, Forall (fun p => match p with Body _ => False | _ => True end) (chunk_list h pend l).
Proof. induction l as [|b l IH]; intros h pend; cbn [chunk_list]; repeat constructor. apply IH. Qed.

Lemma chain_parts_chunked c : Forall (fun p => match p with Body _ => False | _ => True end) (chain_parts c).
Proof. destruct c as [|[[|x d] s] [|b c]]; apply chunk_list_chunked. Qed.

Lemma chain_parts_blocks c : Forall (fun b => fst b <> []) c -> chain_parts c = chunk_list new_hasher None c.
Proof. intros Hc. destruct c as [|[[|x d] s] [|b c]]; try done. by apply Forall_cons in Hc as [? _]. Qed.

End ChunkLists.

Section Safety.
Context {S : SignatureScheme} {B : Base64} {BL : Base64Laws B} {T : TransferCoding} {O : BeastOps}.
Variables (sha256 sha512 : list byte -> list byte) (check_framing : bool) (pk : list byte) (statuses : list Z).

(** The blocks that a peer sends: data, with the extensions of the chunk header behind it. *)
Fixpoint received_blocks (acc : list byte) (inp : input) : list (list byte * list byte) :=
  match inp with
  | inr (ChunkBody d _) :: inp' | inr (Body d) :: inp' => received_blocks (acc ++ d) inp'
  | inr (ChunkHdr _ exts) :: inp' =>
      if bool_decide (acc = []) then received_blocks [] inp' else (acc, exts) :: received_blocks [] inp'
  | _ => []
  end.

Definition with_signature (b : list byte * list byte) : list byte * list byte :=
  (fst b, match block_sig_from_exts (snd b) with Some (Some sig) => sig | _ => [] end).

(** The text hashed for the first of them if it is not the first one of the body: the
    chain hash of the block before it comes with its signature. *)
Definition range_text (rb : list (list byte * list byte)) : list (list byte) :=
  match rb with
  | (d, exts) :: _ => match block_dig_from_exts exts with Some (Some dig) => [dig ++ sha512 d] | _ => [] end
  | [] => []
  end.

(** All texts that a verifying reader can hash for the chain of what it receives. *)
Definition received_texts (inp : input) : list (list byte) :=
  let rb := received_blocks [] inp in hashed_texts sha512 (map with_signature rb) ++ range_text rb.

Section Received.
Variable rb : list (list byte * list byte).

(** Where the chain of a response starts. *)
Definition chain_start (range : option (Z * Z)) (h0 : ChainHasher) : Prop :=
  match range with
  | Some (b, _) =>
      if 0 <? b then
        exists dig, length dig = Digest_size /\ (exists d exts rb', rb = (d, exts) :: rb' /\ block_dig_from_exts exts = Some (Some dig)) /\
          h0 = {| _offset := b; _prev_chained_digest := Some dig; _prev_chained_signature := None |}
      else h0 = new_hasher
  | None => h0 = new_hasher
  end.

Definition good_chain (sh : SignedHead) (range : option (Z * Z)) (h0 : ChainHasher) (l : list (list byte * list byte)) : Prop :=
  chain_start range h0 /\ verified_chain sha512 (sh_public_key sh) (sh_injection_id sh) h0 l /\
  Forall (fun b => length (snd b) = Signature_size) l.

(** The blocks [l] of those received were passed on. *)
Definition taken_in (l : list (list byte * list byte)) (st : verifying) (inp : input) : Prop :=
  exists taken, rb = taken ++ received_blocks (v_block_data st) inp /\ l = map with_signature taken.

Definition passed (sh : SignedHead) (range : option (Z * Z)) (l : list (list byte * list byte)) (st : verifying) (inp : input) : Prop :=
  taken_in l st inp /\ v_head st = Some sh /\ v_range st = range /\ bodies (v_pending_parts st) = [] /\
  match l with
  | [] => v_chain_hasher st = new_hasher /\ match range with Some (b, _) => v_block_offset st = b | None => True end
  | _ => is_Some (v_prev_block_dig st) /\
         exists h0, good_chain sh range h0 l /\ v_chain_hasher st = hasher_after sha512 h0 l
  end.

Lemma bodies_app ps qs : bodies (ps ++ qs) = bodies ps ++ bodies qs.
Proof. unfold bodies. by rewrite map_app, concat_app. Qed.

Lemma block_attr_size n xs name a : block_arrattr_from_exts n xs name = Some (Some a) -> length a = n.
Proof.
  unfold block_arrattr_from_exts. case_bool_decide; [done|]. destruct (parse_extensions xs) as [xp|]; [|done].
  destruct (List.find _ xp) as [[k v]|]; [|done]. intros [= Hd]. by eapply base64_decode_size.
Qed.

Lemma verify_chunk_passed sh range l st size exts inp p st' :
  passed sh range l st (inr (ChunkHdr size exts) :: inp) -> verify_chunk_hdr sha512 size exts st = Ok (p, st') ->
  exists new, bodies (option_list p) = map fst new /\ passed sh range (l ++ new) st' inp.
Proof.
  intros ((taken & Ht & Etk) & Hh & Hr & Hp & Hl). unfold verify_chunk_hdr. rewrite Hh. cbn [received_blocks] in Ht.
  destruct (sh_block_size sh <? size); [done|]. case_bool_decide as Hd.
  { intros [= <- <-]. exists []. rewrite app_nil_r. split; [done|]. split; [|by split_and!]. exists taken. by rewrite Hd. }
  destruct (block_sig_from_exts exts) as [[sig|]|] eqn:Es; [|done|done].
  pose proof (block_attr_size _ _ _ _ Es) as Hsz.
  destruct (range_start exts st) as [[h prev]|e|] eqn:Ers; [|done|done].
  destruct (calculate_block _ _ _ _ h) as [c h'] eqn:Ec.
  destruct (ChainHash_verify _ _ c) eqn:Ev; [|done]. cbn [negb]. intros [= <- <-].
  exists [(v_block_data st, sig)]. split; [done|].
  split_and!; cbn [v_head v_range v_pending_parts v_chain_hasher v_prev_block_dig]; [|done|done|by rewrite bodies_app, Hp|].
  { exists (taken ++ [(v_block_data st, exts)]). rewrite <-app_assoc, map_app, <-Etk. split; [exact Ht|].
    unfold with_signature. cbn [map fst snd]. by rewrite Es. }
  assert (forall h0, good_chain sh range h0 l -> h = hasher_after sha512 h0 l ->
            exists h0, good_chain sh range h0 (l ++ [(v_block_data st, sig)]) /\
                       h' = hasher_after sha512 h0 (l ++ [(v_block_data st, sig)])) as Hnext.
  { intros h0 (G1 & G2 & G3) ->. exists h0. rewrite hasher_after_snoc. unfold chain_step. cbn [fst snd]. rewrite Ec.
    split; [|done]. split_and!; [done|apply verified_chain_snoc; split; [done|]|apply Forall_app; by repeat constructor].
    unfold chain_step. cbn [fst snd]. by rewrite Ec. }
  assert (exists h0, good_chain sh range h0 l /\ h = hasher_after sha512 h0 l) as (h0 & Hg & Hh0).
  { unfold range_start in Ers. rewrite Hr in Ers. destruct l as [|b l].
    - destruct Hl as [Hl Ho]. unfold good_chain, chain_start.
      destruct range as [[rb0 re]|].
      2: { exists new_hasher. split; [split_and!; [done|done|constructor]|]. cbn. congruence. }
      rewrite Ho, Z.eqb_refl, andb_true_r in Ers. destruct (0 <? rb0) eqn:Eo.
      + destruct (v_prev_block_dig st); [done|]. destruct (block_dig_from_exts exts) as [[dig|]|] eqn:Ed; [|done|done].
        pose proof (block_attr_size _ _ _ _ Ed). injection Ers as <- <-. rewrite Hl.
        symmetry in Etk. apply map_eq_nil in Etk as ->.
        eexists. split; [split_and!; [exists dig; split_and!; [done|by do 3 eexists|done]|done|constructor]|done].
      + exists new_hasher. split; [split_and!; [done|done|constructor]|]. cbn. congruence.
    - destruct Hl as ([dg Hdg] & h0 & Hg & Hc). exists h0. split; [done|].
      destruct range as [[rb0 re]|]; [|congruence].
      destruct ((0 <? v_block_offset st) && (v_block_offset st =? rb0)); [by rewrite Hdg in Ers|congruence]. }
  destruct (Hnext h0 Hg Hh0) as (h1 & Hg1 & Hh1).
  destruct (l ++ [(v_block_data st, sig)]) as [|x y] eqn:El; [by destruct l|]. split; [by eexists|]. by exists h1.
Qed.

Lemma verify_body_passed sh range l st q data inp p st' :
  q = Body data \/ (exists r, q = ChunkBody data r) ->
  passed sh range l st (inr q :: inp) -> verify_body data st = Ok (p, st') ->
  p = None /\ passed sh range l st' inp /\ v_pending_parts st' = v_pending_parts st.
Proof.
  intros Hq (Ht & Hh & Hr & Hp & Hl). unfold verify_body. rewrite Hh.
  destruct (sh_block_size sh <? _); [done|]. intros [= <- <-]. split; [done|]. split; [|done]. split; [|done].
  destruct Ht as (taken & Ht & Etk). exists taken. by destruct Hq as [->|[r ->]].
Qed.

(** Nothing is left to be passed on. *)
Definition at_end (inp : input) (st : verifying) : Prop := inp = [] /\ bodies (v_pending_parts st) = [].

(** Only data is taken in without passing anything on. *)
Lemma verify_part_silent q st st' :
  verify_part sha512 check_framing pk statuses q st = Ok (None, st') ->
  exists data, (q = Body data \/ exists r, q = ChunkBody data r) /\ verify_body data st = Ok (None, st').
Proof.
  destruct q as [h|size exts|data rem|data|fs]; cbn [verify_part].
  - unfold verify_head. destruct (restore_original h _) as [inh range]. destruct (verify_and_create inh pk) as [[hd|]|]; [|done|done].
    destruct (_ && _); [done|]. by destruct (partial_range hd range).
  - unfold verify_chunk_hdr. destruct (v_head st); [|done]. destruct (_ <? _); [done|]. case_bool_decide; [done|].
    destruct (block_sig_from_exts exts) as [[sig|]|]; [|done|done]. destruct (range_start exts st) as [[hh prev]|e|]; [|done|done].
    destruct (calculate_block _ _ _ _ _) as [c h']. by destruct (negb _).
  - intros Hb. exists data. split; [right; by exists rem|done].
  - intros Hb. exists data. split; [by left|done].
  - unfold verify_trailer. destruct (v_head st); [|done].
    destruct (existsb _ fs); [by destruct (verify_and_create _ pk) as [[hd'|]|]|done].
Qed.

Lemma verify_loop_passed sh range inp : forall l st p st' inp',
  body_input inp = true -> passed sh range l st inp -> v_pending_parts st = [] ->
  verify_loop sha512 check_framing pk statuses inp st = Ok (p, st', inp') ->
  exists new, bodies (option_list p) = map fst new /\
    ((passed sh range (l ++ new) st' inp' /\ body_input inp' = true) \/ (new = [] /\ at_end inp' st')).
Proof.
  induction inp as [|[e|q] inp IH]; intros l st p st' inp' Hi Hs Hp Hl; cbn [verify_loop] in Hl; [|done|].
  - injection Hl as <- <- <-. exists []. rewrite app_nil_r. split; [done|]. by left.
  - destruct (verify_part sha512 check_framing pk statuses q st) as [[[p1|] st1]|e|] eqn:Eq; [| |done|done].
    + injection Hl as <- <- <-. destruct q as [h|size exts|data rem|data|fs]; cbn [verify_part body_input] in *; [done|..].
      * destruct (verify_chunk_passed _ _ _ _ _ _ _ _ _ Hs Eq) as (new & Hb & Hn). exists new. split; [done|]. by left.
      * by destruct (verify_body_passed _ _ _ _ _ _ _ _ _ ltac:(right; by eexists) Hs Eq) as (? & _).
      * by destruct (verify_body_passed _ _ _ _ _ _ _ _ _ ltac:(by left) Hs Eq) as (? & _).
      * apply bool_decide_eq_true in Hi as ->. unfold verify_trailer in Eq. destruct (v_head st) as [hd|]; [|done].
        exists []. destruct (existsb _ fs); [destruct (verify_and_create _ pk) as [[hd'|]|]; [|done|done]|];
          injection Eq as <- <-; (split; [done|]; right; split; [done|]; split; [done|]; cbn; by rewrite Hp).
    + destruct (verify_part_silent _ _ _ Eq) as (data & Hq & Eb).
      destruct (verify_body_passed _ _ _ _ _ _ _ _ _ Hq Hs Eb) as (_ & Hn & Hpend).
      apply (IH l st1); [by destruct Hq as [->|[r ->]]|done|congruence|done].
Qed.

Lemma verifying_read_passed sh range l inp st p st' inp' :
  body_input inp = true -> passed sh range l st inp ->
  verifying_read sha256 sha512 check_framing pk statuses inp st = Ok (p, st', inp') ->
  exists new, bodies (option_list p) = map fst new /\
    ((passed sh range (l ++ new) st' inp' /\ body_input inp' = true) \/ (new = [] /\ at_end inp' st')).
Proof.
  intros Hi Hs. unfold verifying_read.
  assert (forall st2 st3, check_body sha256 st2 = Ok st3 ->
            (forall l inp, passed sh range l st2 inp -> passed sh range l st3 inp) /\
            bodies (v_pending_parts st3) = bodies (v_pending_parts st2)) as Hcheck.
  { intros st2 st3. unfold check_body. destruct (v_is_done st2); [by intros [= <-]|].
    destruct (v_head st2) as [hd|] eqn:Eh; [|done]. destruct (fst (number_of_view _ _)) as [n|]; [|done].
    destruct (negb (_ =? _)); [done|]. destruct (_ && _); [done|]. intros [= <-]. split; [|done].
    intros l' inp2 (H0 & H1 & H2 & H3 & H4). split_and!; [done|cbn; congruence|done..]. }
  assert (forall q st2 inp2, (match verifying_pop st with
                              | Some (p, st) => Ok (Some p, st, inp)
                              | None => verify_loop sha512 check_framing pk statuses inp st
                              end) = Ok (q, st2, inp2) ->
            exists new, bodies (option_list q) = map fst new /\
              ((passed sh range (l ++ new) st2 inp2 /\ body_input inp2 = true) \/ (new = [] /\ at_end inp2 st2))) as Hraw.
  { intros q st2 inp2. unfold verifying_pop. destruct (v_pending_parts st) as [|pp ps] eqn:Ep.
    - intros Hl. by eapply verify_loop_passed.
    - intros [= <- <- <-]. exists []. rewrite app_nil_r. destruct Hs as (H0 & H1 & H2 & H3 & H4). rewrite Ep in H3.
      change (pp :: ps) with ([pp] ++ ps) in H3. rewrite bodies_app in H3. apply app_eq_nil in H3 as [H3 H3'].
      split; [done|]. left. split; [|done]. by split_and!. }
  destruct (match verifying_pop st with Some _ => _ | None => _ end) as [[[q st2] inp2]|e|]; [|done|done].
  destruct (Hraw q st2 inp2 eq_refl) as (new & Hb & Hcase). case_bool_decide as Hin.
  - destruct (check_body sha256 st2) as [st3|e|] eqn:Ec; [|done|done]. intros [= <- <- <-].
    destruct (Hcheck _ _ Ec) as [Hc1 Hc2]. exists new. split; [done|].
    destruct Hcase as [[Hpass Hbi]|[-> [Hnil Hend]]]; [left; split; [by apply Hc1|done]|right].
    split; [done|]. split; [done|]. by rewrite Hc2.
  - intros [= <- <- <-]. by exists new.
Qed.

Lemma drain_at_end fuel : forall inp st,
  at_end inp st -> bodies (fst (drain fuel (verifying_read sha256 sha512 check_framing pk statuses) inp st)) = [].
Proof.
  induction fuel as [|fuel IH]; intros inp st [-> Hp]; [done|]. cbn [drain].
  unfold verifying_read at 1, verifying_pop. destruct (v_pending_parts st) as [|pp ps] eqn:Ep; cbn [verify_loop].
  - rewrite bool_decide_true by done. by destruct (check_body sha256 st).
  - rewrite bool_decide_true by done. destruct (check_body sha256 _) as [st3|e|] eqn:Ec; [|done|done].
    change (pp :: ps) with ([pp] ++ ps) in Hp. rewrite bodies_app in Hp. apply app_eq_nil in Hp as [Hp1 Hp2].
    specialize (IH [] st3). destruct (drain fuel _ [] st3) as [qs e]. cbn [fst] in *.
    change (pp :: qs) with ([pp] ++ qs). rewrite bodies_app, Hp1. apply IH. split; [done|].
    unfold check_body in Ec. cbn [v_is_done v_head v_range v_body_length v_body_hash] in Ec.
    destruct (v_is_done st); [by injection Ec as <-|]. destruct (v_head st); [|done].
    destruct (fst (number_of_view _ _)); [|done]. destruct (negb (_ =? _)); [done|]. destruct (_ && _); [done|].
    by injection Ec as <-.
Qed.

Lemma drain_passed sh range fuel : forall l inp st,
  body_input inp = true -> passed sh range l st inp ->
  exists new, bodies (fst (drain fuel (verifying_read sha256 sha512 check_framing pk statuses) inp st)) = map fst new /\
    (exists more, map with_signature rb = (l ++ new) ++ more) /\
    (l ++ new = [] \/ exists h0, good_chain sh range h0 (l ++ new)).
Proof.
  assert (forall l st inp, passed sh range l st inp ->
            (exists more, map with_signature rb = l ++ more) /\ (l = [] \/ exists h0, good_chain sh range h0 l)) as Hgood.
  { intros l st inp ((taken & Ht & Etk) & _ & _ & _ & Hl). split.
    { exists (map with_signature (received_blocks (v_block_data st) inp)). by rewrite Ht, map_app, Etk. }
    destruct l as [|b l]; [by left|right]. destruct Hl as (_ & h0 & Hg & _). by exists h0. }
  induction fuel as [|fuel IH]; intros l inp st Hi Hs.
  { exists []. rewrite app_nil_r. split; [done|]. by eapply Hgood. }
  cbn [drain]. destruct (verifying_read sha256 sha512 check_framing pk statuses inp st) as [[[p st'] inp']|e|] eqn:Er.
  2,3: exists []; rewrite app_nil_r; split; [done|by eapply Hgood].
  destruct (verifying_read_passed _ _ _ _ _ _ _ _ Hi Hs Er) as (new & Hb & Hcase).
  destruct p as [p|].
  2: { exists []. rewrite app_nil_r. split; [done|by eapply Hgood]. }
  destruct Hcase as [[Hpass Hbi]|[-> Hend]].
  - destruct (IH _ _ _ Hbi Hpass) as (more & Hm & Hg).
    destruct (drain fuel _ inp' st') as [qs e]. cbn [fst] in *. exists (new ++ more).
    change (p :: qs) with ([p] ++ qs). rewrite bodies_app, Hm, map_app, app_assoc.
    change (bodies [p] = map fst new) in Hb. by rewrite Hb.
  - pose proof (drain_at_end fuel _ _ Hend) as Hd. destruct (drain fuel _ inp' st') as [qs e]. cbn [fst] in *.
    exists []. rewrite app_nil_r. change (p :: qs) with ([p] ++ qs). rewrite bodies_app, Hd, app_nil_r.
    split; [done|by eapply Hgood].
Qed.

End Received.

(** The head of which the signatures are checked: without what the cache changed. *)
Definition head_to_verify (h : response_header) : response_header :=
  fst (restore_original h (get_original_status statuses h)).

(** What a verifying reader does with the head it starts with. *)
Lemma verifying_head_passed h inp p st inp' :
  verifying_read sha256 sha512 check_framing pk statuses (inr (HeadPart h) :: inp) verifying_init = Ok (p, st, inp') ->
  exists sh range, verify_and_create (head_to_verify h) pk = Value (Some sh) /\ passed (received_blocks [] inp) sh range [] st inp /\ inp' = inp /\
    bodies (option_list p) = [].
Proof.
  unfold verifying_read. cbn [verifying_pop verifying_init v_pending_parts verify_loop verify_part].
  destruct (verify_head check_framing pk statuses h verifying_init) as [[[q|] st2]|e|] eqn:Eh; [| |done|done].
  2: { by destruct (verify_part_silent (HeadPart h) _ _ Eh) as (d & [?|[r ?]] & _). }
  unfold verify_head in Eh. unfold head_to_verify. destruct (restore_original h _) as [h' rr]. cbn [fst].
  destruct (verify_and_create h' pk) as [[sh|]|] eqn:Ev; [|done|done]. destruct (_ && _); [done|].
  destruct (partial_range sh rr) as [range|]; [|done].
  set (st1 := {| v_head := Some sh; v_range := _ |}) in Eh. injection Eh as <- <-.
  assert (passed (received_blocks [] inp) sh (match range with Some r => Some r | None => None end) [] st1 inp) as Hs.
  { split_and!; [by exists []|done|by destruct range|done|done|by destruct range as [[]|]]. }
  case_bool_decide.
  - destruct (check_body sha256 st1) as [st3|e|] eqn:Ec; [|done|done]. intros [= <- <- <-].
    exists sh, (match range with Some r => Some r | None => None end). split_and!; try done.
    unfold check_body in Ec. cbn [st1 v_is_done verifying_init v_head v_range] in Ec.
    destruct (fst (number_of_view _ _)); [|done]. destruct (negb (_ =? _)); [done|]. destruct (_ && _); [done|].
    injection Ec as <-. done.
  - intros [= <- <- <-]. exists sh, (match range with Some r => Some r | None => None end). done.
Qed.

(** ** Theorems *)

Lemma good_start rb range h0 :
  chain_start rb range h0 ->
  h0 = new_hasher \/
  exists b dig, 0 < b /\ length dig = Digest_size /\ (exists d exts rb', rb = (d, exts) :: rb' /\ block_dig_from_exts exts = Some (Some dig)) /\
    h0 = {| _offset := b; _prev_chained_digest := Some dig; _prev_chained_signature := None |}.
Proof.
  unfold chain_start. destruct range as [[b e]|]; [|by left]. destruct (Z.ltb_spec 0 b); [|by left].
  intros (dig & Hd & Hx & ->). right. by exists b, dig.
Qed.

(** The owners of the keys of the head [sh] signed no other block of that injection
    than those of [honest]. *)
Definition signed_only (sh : SignedHead) (honest : list (list byte * list byte)) : Prop :=
  (Byte.x00 ∉ sh_injection_id sh) /\ Forall (fun b => length (snd b) = Signature_size) honest /\
  forall o d s, verify_message (sh_public_key sh) (str_to_sign (sh_injection_id sh) o d) s = true ->
    str_to_sign (sh_injection_id sh) o d ∈ strings sha512 (sh_injection_id sh) new_hasher honest.

(** A chain among the received blocks that does not start at the first byte is empty. *)
Lemma range_chain_nil inp sh b dig honest l :
  (forall x, length (sha512 x) = Digest_size) -> 0 < b -> length dig = Digest_size ->
  (exists d exts rb', received_blocks [] inp = (d, exts) :: rb' /\ block_dig_from_exts exts = Some (Some dig)) ->
  (exists more, map with_signature (received_blocks [] inp) = l ++ more) ->
  signed_only sh honest -> no_clash sha512 (hashed_texts sha512 honest) (received_texts inp) ->
  verified_chain sha512 (sh_public_key sh) (sh_injection_id sh)
    {| _offset := b; _prev_chained_digest := Some dig; _prev_chained_signature := None |} l -> l = [].
Proof.
  intros Hsize Hb Hdig (d & exts & rb' & Erb & Ex) [more Hm] (Hid & Hh & Hsigned) Hc Hver.
  eapply (chain_without_signature sha512 Hsize (sh_public_key sh) (sh_injection_id sh) l honest b dig); try done; [lia|].
  destruct l as [|x l]; [done|]. eapply no_clash_mono; [done| |exact Hc]. unfold received_texts.
  rewrite Erb in Hm |- *. cbn [map app with_signature fst] in Hm. injection Hm as <- _. cbn [range_text fst]. rewrite Ex.
  apply list_subseteq_app_r. done.
Qed.

(** C2: whatever a peer sends, the data that a verifying reader passes on is a
    beginning of the body that was injected with the head it verified: block by
    block, in order, from the first one. The key of the injector has signed nothing else for
    that injection, and the input has no second head. The hash must tell the texts that were hashed
    when the body was injected from those that can be hashed for what was received:
    two finite lists, given by the body and by the input. *)
Theorem verified_body_is_injected (fuel : nat) (h : response_header) (inp : input) (honest : list (list byte * list byte)) :
  (forall x, length (sha512 x) = Digest_size) -> body_input inp = true ->
  (forall sh, verify_and_create (head_to_verify h) pk = Value (Some sh) -> signed_only sh honest) ->
  no_clash sha512 (hashed_texts sha512 honest) (received_texts inp) ->
  let out := bodies (fst (drain fuel (verifying_read sha256 sha512 check_framing pk statuses)
                            (inr (HeadPart h) :: inp) verifying_init)) in
  out <> [] ->
  exists sh rest, verify_and_create (head_to_verify h) pk = Value (Some sh) /\ map fst honest = out ++ rest.
Proof.
  intros Hsize Hi Hhonest Hclash out. subst out. destruct fuel as [|fuel]; [done|]. cbn [drain].
  destruct (verifying_read _ _ _ _ _ (inr (HeadPart h) :: inp) verifying_init) as [[[p st] inp']|e|] eqn:Er; [|done..].
  destruct (verifying_head_passed _ _ _ _ _ Er) as (sh & range & Hv & Hs & -> & Hb).
  destruct p as [p|]; [|done].
  destruct (drain_passed _ sh range fuel [] inp st Hi Hs) as (l & Hl & [more Hm] & Hg).
  destruct (drain fuel _ inp st) as [qs e]. cbn [fst] in *. change (bodies [p] = []) in Hb.
  change (p :: qs) with ([p] ++ qs). rewrite bodies_app, Hb, Hl. cbn [app] in *. intros Hne.
  pose proof (Hhonest sh Hv) as Hsigned. destruct Hg as [->|(h0 & Hstart & Hver & Hsig)]; [done|].
  destruct (good_start _ _ _ Hstart) as [->|(b & dig & Hb0 & Hdig & Hx & ->)].
  - destruct Hsigned as (Hid & Hh & Hsigned).
    destruct (chain_prefix sha512 Hsize _ _ _ _ Hid Hsig Hh Hsigned) with (2 := Hver) as [rest Hp]; [|by exists sh, rest].
    eapply no_clash_mono; [done| |exact Hclash]. unfold received_texts. rewrite Hm. apply list_subseteq_app_l, hashed_texts_app.
  - by rewrite (range_chain_nil inp sh b dig honest l) in Hne by eauto.
Qed.

(** a partial response that does not start at the first byte is never passed
    on: the chain hash of the block before it is used without that block's
    signature, so no block that was injected fits it. *)
Theorem partial_body_never_verified (fuel : nat) (h : response_header) (inp inp' : input) (p : option Part) (st : verifying)
    (sh : SignedHead) (b e : Z) (honest : list (list byte * list byte)) :
  (forall x, length (sha512 x) = Digest_size) -> body_input inp = true ->
  verifying_read sha256 sha512 check_framing pk statuses (inr (HeadPart h) :: inp) verifying_init = Ok (p, st, inp') ->
  v_head st = Some sh -> v_range st = Some (b, e) -> 0 < b -> signed_only sh honest ->
  no_clash sha512 (hashed_texts sha512 honest) (received_texts inp) ->
  bodies (fst (drain fuel (verifying_read sha256 sha512 check_framing pk statuses) inp' st)) = [].
Proof.
  intros Hsize Hi Hr Hh0 Hr0 Hb Hsigned Hclash.
  destruct (verifying_head_passed _ _ _ _ _ Hr) as (sh' & range & _ & Hs & -> & _).
  pose proof Hs as (_ & E1 & E2 & _). rewrite Hh0 in E1. rewrite Hr0 in E2. injection E1 as <-. subst range.
  destruct (drain_passed _ sh (Some (b, e)) fuel [] inp st Hi Hs) as (l & -> & Hm & Hg). cbn [app] in Hg, Hm.
  destruct Hg as [->|(h0 & Hstart & Hver & _)]; [done|]. unfold chain_start in Hstart.
  destruct (Z.ltb_spec 0 b); [|lia]. destruct Hstart as (dig & Hdig & Hx & ->).
  by rewrite (range_chain_nil inp sh b dig honest l) by eauto.
Qed.

End Safety.

(** ** What a signing reader delivers *)

(** Reading to the end gives the parts [ps]. *)
Inductive delivers {St : Type} (read : input -> St -> res (option Part * St * input)) : input -> St -> list Part -> Prop :=
  | deliver_end inp st st' inp' : read inp st = Ok (None, st', inp') -> delivers read inp st []
  | deliver_part inp st p st' inp' ps :
      read inp st = Ok (Some p, st', inp') -> delivers read inp' st' ps -> delivers read inp st (p :: ps).

Lemma delivers_drain {St} (read : input -> St -> res (option Part * St * input)) inp st ps :
  delivers read inp st ps -> forall fuel, (length ps < fuel)%nat -> drain fuel read inp st = (ps, Ended).
Proof.
  induction 1 as [inp st st' inp' E|inp st p st' inp' ps E _ IH]; intros [|fuel] Hf; cbn in Hf; [lia| |lia|]; cbn [drain]; rewrite E.
  - done.
  - by rewrite IH by lia.
Qed.

Lemma delivers_same {St} (read : input -> St -> res (option Part * St * input)) inp st inp' st' ps :
  read inp st = read inp' st' -> delivers read inp' st' ps -> delivers read inp st ps.
Proof.
  intros E Hd. destruct Hd as [inp' st' st2 inp2 E'|inp' st' p st2 inp2 ps E' Hd].
  - eapply deliver_end. by rewrite E.
  - eapply deliver_part; [by rewrite E|done].
Qed.

(** Parts that follow the head of an origin's response, none larger than a block. *)
Definition origin_part (p : Part) : bool :=
  match p with
  | HeadPart _ => false
  | ChunkBody d _ | Body d => (length d <=? block_quantum)%nat
  | _ => true
  end.

Lemma block_quantum_size : Z.of_nat block_quantum = response_data_block.
Proof. done. Qed.

#[local] Opaque block_quantum.

Lemma size_of_app a b : size_of (a ++ b) = size_of a + size_of b.
Proof. unfold size_of. rewrite length_app. lia. Qed.

Lemma size_of_nonneg a : 0 <= size_of a.
Proof. unfold size_of. lia. Qed.

(** All blocks but the last are full. *)
Fixpoint full_blocks {A : Type} (data : A -> list byte) (bs : Z) (l : list A) : Prop :=
  match l with
  | [] => True
  | [b] => size_of (data b) <= bs
  | b :: l' => size_of (data b) = bs /\ full_blocks data bs l'
  end.

Lemma full_blocks_intro {A} (data : A -> list byte) bs b l :
  size_of (data b) = bs -> full_blocks data bs l -> full_blocks data bs (b :: l).
Proof. intros Hb Hl. destruct l; [cbn; lia|by split]. Qed.

Lemma full_blocks_map {A} (data : A -> list byte) bs l : full_blocks Datatypes.id bs (map data l) <-> full_blocks data bs l.
Proof.
  induction l as [|b l IH]; [done|]. destruct l as [|c l]; [done|].
  change (size_of (data b) = bs /\ full_blocks Datatypes.id bs (map data (c :: l)) <-> size_of (data b) = bs /\ full_blocks data bs (c :: l)).
  by rewrite IH.
Qed.

(** On the way, the data of a chunk may be divided into several parts. *)
Inductive transported : list Part -> list Part -> Prop :=
  | transport_nil : transported [] []
  | transport_body d r pieces ps qs :
      concat (map fst pieces) = d -> transported ps qs ->
      transported (ChunkBody d r :: ps) (map (fun x => ChunkBody (fst x) (snd x)) pieces ++ qs)
  | transport_part p ps qs : part_body p = [] -> transported ps qs -> transported (p :: ps) (p :: qs).

Lemma transported_part p ps qs :
  part_body p = [] -> transported (p :: ps) qs -> exists qs', qs = p :: qs' /\ transported ps qs'.
Proof. intros Hp Ht. inversion Ht; subst; [done|by eexists]. Qed.

Lemma transported_body d r ps qs :
  transported (ChunkBody d r :: ps) qs ->
  exists pieces qs', qs = map (fun x => ChunkBody (fst x) (snd x)) pieces ++ qs' /\ concat (map fst pieces) = d /\ transported ps qs'.
Proof. intros Ht. inversion Ht as [|d' r' pieces ps' qs'|]; subst; [by exists pieces, qs'|done]. Qed.

Lemma transported_nonempty ps p qs : part_body p = [] -> transported (ps ++ [p]) qs -> qs <> [].
Proof.
  intros Hp Ht. remember (ps ++ [p]) as l eqn:El. revert ps El.
  induction Ht as [|d r pieces ps' qs' _ _ IH|]; intros pre El; [by destruct pre| |done].
  intros [_ ->]%app_eq_nil. destruct pre as [|x pre]; injection El as <- El; [done|]. by apply (IH pre).
Qed.

Lemma transported_refl ps : Forall (fun p => match p with Body _ => False | _ => True end) ps -> transported ps ps.
Proof.
  induction 1 as [|p ps Hp _ IH]; [constructor|]. destruct p as [h|size exts|d r|d|fs]; try by constructor.
  apply (transport_body d r [(d, r)] ps ps); [apply app_nil_r|done].
Qed.

(** ** What a verifying reader makes of signed chunks *)

Class BeastLaws {O : BeastOps} : Prop := {
  parse_extension l :
    l <> [] -> Forall (fun x => forallb is_tchar (fst x) = true /\ forallb is_base64_char (snd x) = true) l ->
    parse_extensions (concat (map (fun x => extension (fst x) (snd x)) l)) = Some l;
  keep_alive_connection b h : result (set_keep_alive b h) = result h /\
    (rs_fields (set_keep_alive b h) = rs_fields h \/
     rs_fields (set_keep_alive b h) = erase_field (str "Connection") (rs_fields h) \/
     exists v, rs_fields (set_keep_alive b h) = set_field (str "Connection") v (rs_fields h));
}.

Section Client.
Context {S : SignatureScheme} {B : Base64} {BL : Base64Laws B} {T : TransferCoding} {O : BeastOps} {OL : BeastLaws}.
Variables (sha256 sha512 : list byte -> list byte) (check_framing : bool) (pk : list byte) (statuses : list Z).
Variables (sh : SignedHead) (ext : ChainHasher -> list byte * list byte -> list byte).

Lemma chunk_sig_read sig prev :
  length sig = Signature_size -> block_sig_from_exts (block_chunk_ext (Some sig) prev) = Some (Some sig).
Proof.
  intros Hl. unfold block_sig_from_exts, block_arrattr_from_exts, block_chunk_ext.
  set (l := (response_block_signature_ext, base64_encode sig) ::
            match prev with Some d => [(response_block_chain_hash_ext, base64_encode d)] | None => [] end).
  assert (extension response_block_signature_ext (base64_encode sig) ++
            match prev with Some d => extension response_block_chain_hash_ext (base64_encode d) | None => [] end =
          concat (map (fun x => extension (fst x) (snd x)) l)) as ->.
  { unfold l. destruct prev; cbn [map concat fst snd]; by rewrite ?app_nil_r. }
  rewrite bool_decide_false by done. rewrite parse_extension; [|done|].
  - cbn [l List.find fst]. rewrite bool_decide_true by done. by rewrite <-Hl, base64_decode_encode.
  - unfold l. destruct prev; repeat constructor; cbn [snd]; apply base64_text.
Qed.

Hypothesis Hext : forall h b, length (snd b) = Signature_size -> block_sig_from_exts (ext h b) = Some (Some (snd b)).
Hypothesis Hblock : 0 < sh_block_size sh < 2 ^ 63.

Abbreviation verify_reads := (verifying_read sha256 sha512 check_framing pk statuses).

(** The state of the reader inside a body: the hasher, the block that is not
    verified yet, and all data so far. *)
Record following (h : ChainHasher) (block data : list byte) (st : verifying) : Prop := {
  fo_head : v_head st = Some sh;
  fo_range : v_range st = None;
  fo_block : v_block_data st = block;
  fo_hasher : v_chain_hasher st = h;
  fo_prev : v_prev_block_dig st = _prev_chained_digest h;
  fo_length : v_body_length st = size_of data;
  fo_body : v_body_hash st = data;
  fo_done : v_is_done st = false;
  fo_pending : v_pending_parts st = [];
}.

(** The data of a chunk is taken in silently. *)
Lemma verify_pieces pieces rest : forall h block data st,
  following h block data st ->
  size_of (block ++ concat (map fst pieces)) <= sh_block_size sh -> size_of (data ++ concat (map fst pieces)) < 2 ^ 64 ->
  exists st', following h (block ++ concat (map fst pieces)) (data ++ concat (map fst pieces)) st' /\
    verify_reads (map inr (map (fun x => ChunkBody (fst x) (snd x)) pieces) ++ rest) st = verify_reads rest st'.
Proof.
  induction pieces as [|[x r] pieces IH]; intros h block data st Hf Hl Hs; cbn [map concat] in *.
  { rewrite !app_nil_r. by exists st. }
  destruct Hf as [F1 F2 F3 F4 F9 F5 F6 F7 F8]. cbn [app fst] in Hl, Hs.
  pose proof (size_of_nonneg (concat (map fst pieces))). pose proof (size_of_nonneg (data ++ x)).
  pose proof (size_of_nonneg block). pose proof (size_of_nonneg x).
  assert (size_of block + size_of x <= sh_block_size sh) as Hle by (rewrite !size_of_app in Hl; lia).
  set (st1 := {| v_head := v_head st; v_range := v_range st; v_block_offset := v_block_offset st;
                 v_block_data := v_block_data st ++ x; v_chain_hasher := v_chain_hasher st;
                 v_prev_block_dig := v_prev_block_dig st; v_pending_parts := v_pending_parts st;
                 v_body_length := size_add (v_body_length st) (size_of x);
                 v_body_hash := v_body_hash st ++ x; v_is_done := v_is_done st |}).
  destruct (IH h (block ++ x) (data ++ x) st1) as (st' & Hf' & Hl').
  - split; cbn; try done; [by rewrite F3| |by rewrite F6]. rewrite F5. unfold size_add. rewrite <-size_of_app. apply Z.mod_small.
    rewrite app_assoc, size_of_app in Hs. lia.
  - by rewrite <-app_assoc.
  - by rewrite <-app_assoc.
  - rewrite <-!app_assoc in Hf'. exists st'. split; [exact Hf'|]. rewrite <-Hl'.
    unfold verifying_read, verifying_pop. cbn [st1 v_pending_parts]. rewrite F8.
    cbn [app verify_loop verify_part snd fst]. unfold verify_body. rewrite F1.
    assert (size_add (size_of (v_block_data st)) (size_of x) = size_of block + size_of x) as ->.
    { rewrite F3. unfold size_add. apply Z.mod_small. lia. }
    destruct (Z.ltb_spec (sh_block_size sh) (size_of block + size_of x)); [lia|]. subst st1. by rewrite F1.
Qed.

(** The block that is passed on when its signature was checked. *)
Definition pending_body (pend : option (list byte * list byte)) : list Part :=
  match pend with Some b => if bool_decide (fst b = []) then [] else [ChunkBody (fst b) 0] | None => [] end.

(** A chunk header with the signature of the block before it: the block is passed on,
    and then the header with the signature and the chain hash. *)
Lemma verify_header size rest h pend data st :
  following h (default [] (fst <$> pend)) data st -> size <= sh_block_size sh -> rest <> [] ->
  signed_blocks (option_list pend) -> verified_chain sha512 (sh_public_key sh) (sh_injection_id sh) h (option_list pend) ->
  match pend with Some b => fst b = [] -> ext h b = hashed_ext h b | None => True end ->
  exists st', following (if bool_decide (default [] (fst <$> pend) = []) then h else hasher_of sha512 h pend) [] data st' /\
    forall out, delivers verify_reads rest st' out ->
      delivers verify_reads (inr (ChunkHdr size (ext_of ext h pend)) :: rest) st
        (pending_body pend ++ ChunkHdr size (ext_of hashed_ext h pend) :: out).
Proof.
  intros [F1 F2 F3 F4 F9 F5 F6 F7 F8] Hs Hrest Hsig Hver Hempty.
  assert (forall p st', verify_chunk_hdr sha512 size (ext_of ext h pend) st = Ok (Some p, st') ->
    verify_reads (inr (ChunkHdr size (ext_of ext h pend)) :: rest) st = Ok (Some p, st', rest)) as Hread.
  { intros p st' Hv. unfold verifying_read, verifying_pop. rewrite F8. cbn [verify_loop verify_part]. rewrite Hv.
    by rewrite bool_decide_false. }
  unfold verify_chunk_hdr in Hread. rewrite F1, F3 in Hread. destruct (Z.ltb_spec (sh_block_size sh) size); [lia|].
  destruct pend as [[d sg]|]; cbn [default from_option Datatypes.id fmap option_fmap option_map fst ext_of hasher_of pending_body] in *.
  2: { rewrite bool_decide_true in Hread |- * by done. exists st. split; [by split|]. intros out Hout. cbn [app].
       by eapply deliver_part; [apply Hread|]. }
  destruct (bool_decide_reflect (d = [])) as [->|Hd].
  { exists st. split; [by split|]. intros out Hout. cbn [app]. rewrite Hempty in Hread |- * by done.
    by eapply deliver_part; [apply Hread|]. }
  apply Forall_cons in Hsig as [Hsg _]. rewrite Hext in Hread by done. cbn [snd] in *.
  destruct Hver as [Hver _]. unfold chain_step in Hver |- *. cbn [fst snd] in *.
  unfold range_start in Hread. rewrite F2, F4 in Hread.
  destruct (calculate_block sha512 (size_of d) (sha512 d) (Sig sg) h) as [c h'] eqn:Ec. cbn [fst snd] in *.
  rewrite Hver in Hread. cbn [negb] in Hread. specialize (Hread _ _ eq_refl).
  match type of Hread with _ = Ok (_, ?s, _) => set (st1 := s) in Hread end.
  assert (chain_digest c = default [] (_prev_chained_digest h') /\ is_Some (_prev_chained_digest h') /\ chain_signature c = sg) as (Hcd & [cd Hcd'] & _).
  { injection Ec as <- <-. by split_and!. }
  eexists. split; [|].
  2: { intros out Hout. cbn [app]. eapply deliver_part; [exact Hread|]. eapply deliver_part; [|exact Hout].
       unfold verifying_read, verifying_pop. cbn [st1 v_pending_parts]. rewrite F8. cbn [app].
       rewrite bool_decide_false by done. unfold hashed_ext. cbn [snd]. rewrite F9. reflexivity. }
  split; cbn; try done. by rewrite Hcd, Hcd'.
Qed.

(** Chunks, in whatever pieces their data arrives, are passed on up to the trailer. *)
Lemma verify_chunks t total l : forall h pend data qs st,
  (forall h st, following h [] total st -> delivers verify_reads [inr (Trailer t)] st [Trailer t]) ->
  following h (default [] (fst <$> pend)) data st ->
  signed_blocks (option_list pend ++ l) -> verified_chain sha512 (sh_public_key sh) (sh_injection_id sh) h (option_list pend ++ l) ->
  match pend with Some b => fst b = [] -> l = [] /\ ext h b = hashed_ext h b | None => True end ->
  Forall (fun b => fst b <> [] /\ size_of (fst b) <= sh_block_size sh) l -> data ++ concat (map fst l) = total -> size_of total < 2 ^ 64 ->
  transported (chunk_list sha512 ext h pend l ++ [Trailer t]) qs ->
  delivers verify_reads (map inr qs) st
    (pending_body pend ++ chunk_list sha512 hashed_ext h pend l ++ [Trailer t]).
Proof.
  induction l as [|b l IH]; intros h pend data qs st Hend Hf Hsig Hver Hempty Hl Htot Hsize Ht; cbn [chunk_list] in Ht |- *.
  - cbn [app map concat] in *. rewrite !app_nil_r in *. subst total.
    apply transported_part in Ht as (qs1 & -> & (qs2 & -> & Ht)%transported_part); [|done..].
    assert (qs2 = []) as -> by (by inversion Ht). cbn [map].
    destruct (verify_header 0 [inr (Trailer t)] h pend data st) as (st' & Hf' & Hd); [done|lia|done|done|done|by destruct pend; naive_solver|].
    apply Hd, (Hend _ _ Hf').
  - apply transported_part in Ht as (qs1 & -> & (pieces & qs' & -> & Hcat & Ht)%transported_body); [|done].
    apply Forall_cons in Hl as [[Hne Hlen] Hl]. cbn [map concat] in Htot.
    assert (qs' <> []) as Hqs' by (by apply transported_nonempty in Ht).
    assert (match pend with Some b => fst b <> [] | None => True end) as Hpend by (destruct pend; naive_solver).
    assert (default [] (fst <$> pend) = [] -> pend = None) as Hnone by (by destruct pend).
    unfold signed_blocks in Hsig. rewrite Forall_app in Hsig. destruct Hsig as [Hsig1 Hsig2].
    rewrite verified_chain_app in Hver. destruct Hver as [Hver1 Hver2].
    destruct (verify_header (size_of (fst b)) (map inr (map (fun x => ChunkBody (fst x) (snd x)) pieces ++ qs')) h pend data st)
      as (st1 & Hf1 & Hd); [done|done| |done|done|by destruct pend; naive_solver|].
    { rewrite map_app. intros [_ E]%app_eq_nil. by apply map_eq_nil in E. }
    assert ((if bool_decide (default [] (fst <$> pend) = []) then h else hasher_of sha512 h pend) = hasher_of sha512 h pend) as Heq.
    { case_bool_decide as E; [|done]. by rewrite (Hnone E). }
    rewrite Heq in Hf1.
    assert (hasher_after sha512 h (option_list pend) = hasher_of sha512 h pend) as Hh by (by destruct pend). rewrite Hh in Hver2.
    destruct (verify_pieces pieces (map inr qs') (hasher_of sha512 h pend) [] data st1) as (st2 & Hf2 & Hr);
      [done|by rewrite Hcat|rewrite Hcat; rewrite <-Htot, app_assoc, size_of_app in Hsize; pose proof (size_of_nonneg (concat (map fst l))); lia|].
    rewrite Hcat in Hf2. cbn [app] in Hf2. cbn [map app]. apply Hd. rewrite map_app. apply (delivers_same _ _ _ _ _ _ Hr).
    specialize (IH (hasher_of sha512 h pend) (Some b) (data ++ fst b) qs' st2).
    unfold pending_body in IH. rewrite bool_decide_false in IH by done. cbn [app] in IH.
    apply IH; try done. by rewrite <-app_assoc.
Qed.

End Client.

Section Roundtrip.
Context {S : SignatureScheme} {SL : SignatureLaws S} {B : Base64} {BL : Base64Laws B}.
Context {T : TransferCoding} {TL : TransferCodingLaws T} {O : BeastOps} {OL : BeastLaws} {F : FieldTable}.
Variables (sha256 sha512 : list byte -> list byte).
Variables (rqh : request_header) (rsh : response_header) (id : list byte) (ts now : Z) (sk : SecretKey).

Abbreviation sign_reads := (signing_read sha256 sha512 rqh id ts sk now).

(** The extensions for the signature of a block, and the chunks of a body. *)
Definition signature_ext (c : ChainHash) : list byte := block_chunk_ext (Some (chain_signature c)) None.

Fixpoint signed_chunks (h : ChainHasher) (prev : option (list byte)) (bs : list (list byte)) : list Part :=
  let sign d := calculate_block sha512 (size_of d) (sha512 d) (Signer id sk) h in
  match bs with
  | [] => [ChunkHdr 0 (signature_ext (fst (sign (default [] prev))))]
  | b :: bs' =>
      match prev with
      | None => ChunkHdr (size_of b) [] :: ChunkBody b 0 :: signed_chunks h (Some b) bs'
      | Some d => ChunkHdr (size_of b) (signature_ext (fst (sign d))) :: ChunkBody b 0
                  :: signed_chunks (snd (sign d)) (Some b) bs'
      end
  end.

Abbreviation outh := (sign_response rqh rsh id ts sk).

(** The state of the reader when it injects: the hasher, the last block that was
    sent, what is buffered, and all data so far. *)
Record injecting (h : ChainHasher) (prev : option (list byte)) (buf data : list byte) (st : signing) : Prop := {
  in_inject : s_do_inject st = true;
  in_outh : s_outh st = outh;
  in_hasher : s_chain_hasher st = h;
  in_length : s_body_length st = size_of data;
  in_offset : match prev with Some _ => 0 < s_block_offset st | None => s_block_offset st = 0 end;
  in_total : s_block_offset st + size_of buf = size_of data;
  in_last : s_block_size_last st = size_of (default [] prev);
  in_block : s_block_hash st = default [] prev;
  in_body : s_body_hash st = data;
  in_buf : s_qbuf st = buf;
  in_small : (length buf < block_quantum)%nat;
  in_trailer : s_trailer_in st = [];
  in_done : s_is_done st = false;
}.

(** The extensions sent with the next block, and the hasher after that. *)
Definition emitted (h : ChainHasher) (prev : option (list byte)) : list byte * ChainHasher :=
  match prev with
  | None => ([], h)
  | Some d => let '(c, h') := calculate_block sha512 (size_of d) (sha512 d) (Signer id sk) h in (signature_ext c, h')
  end.

Lemma sign_body_step h prev buf data inbuf st b rest :
  injecting h prev buf data st -> size_of (data ++ inbuf) < 2 ^ 64 -> (length inbuf <= block_quantum)%nat ->
  (if bool_decide (inbuf = []) then (buf, []) else qbuf_get block_quantum (buf ++ inbuf)) = (b, rest) ->
  exists st', injecting (if bool_decide (b = []) then h else snd (emitted h prev))
                        (if bool_decide (b = []) then prev else Some b) rest (data ++ inbuf) st' /\
    b ++ rest = buf ++ inbuf /\
    (if bool_decide (b = []) then sign_body sha512 id sk inbuf st = Ok (None, st') /\ s_pending_parts st' = s_pending_parts st
     else sign_body sha512 id sk inbuf st = Ok (Some (ChunkHdr (size_of b) (fst (emitted h prev))), st') /\
          s_pending_parts st' = s_pending_parts st ++ [ChunkBody b 0]).
Proof.
  intros [I1 I2 I3 I4 I5 I6 I7 I8 I9 I10 I11 I12 I13] Hsize Hq Hb. unfold sign_body.
  assert (size_add (s_body_length st) (size_of inbuf) = size_of (data ++ inbuf)) as ->.
  { unfold size_add. rewrite I4, <-size_of_app. apply Z.mod_small. pose proof (size_of_nonneg (data ++ inbuf)). lia. }
  unfold qbuf_put. rewrite I10. destruct (Nat.ltb_spec (2 * block_quantum) (length buf + length inbuf)); [lia|].
  assert ((if bool_decide (inbuf = []) then qbuf_get_rest block_quantum (buf ++ inbuf)
           else Some (qbuf_get block_quantum (buf ++ inbuf))) = Some (b, rest) /\ b ++ rest = buf ++ inbuf /\
          (length rest < block_quantum)%nat) as (-> & Hcat & Hrest).
  { case_bool_decide as E.
    - subst inbuf. injection Hb as <- <-. rewrite app_nil_r. unfold qbuf_get_rest.
      destruct (Nat.ltb_spec (length buf) block_quantum); [|lia]. split_and!; [done|by rewrite ?app_nil_r|cbn; lia].
    - rewrite Hb. unfold qbuf_get in Hb. rewrite length_app in Hb.
      destruct (Nat.ltb_spec (length buf + length inbuf) block_quantum); injection Hb as <- <-.
      + split_and!; [done|done|]. by rewrite length_app.
      + split_and!; [done|by rewrite take_drop|]. rewrite length_drop, length_app. lia. }
  destruct (bool_decide_reflect (b = [])) as [->|Hne].
  - eexists. split; [|split; [done|split; done]]. cbn [app] in Hcat. subst rest.
    split; cbn; rewrite ?I1, ?I9; try done. rewrite !size_of_app. lia.
  - cbn [s_do_inject s_block_offset s_chain_hasher s_block_hash s_pending_parts]. rewrite I1. cbn [andb].
    assert (0 < size_of b) as Hb0 by (unfold size_of; destruct b; [done|cbn; lia]).
    assert (s_block_offset st + size_of b + size_of rest = size_of (data ++ inbuf)) as Htotal.
    { pose proof (f_equal size_of Hcat) as Hc. rewrite !size_of_app in Hc. rewrite size_of_app. lia. }
    assert (0 <= s_block_offset st) as Hoff by (destruct prev; lia).
    assert (size_add (s_block_offset st) (size_of b) = s_block_offset st + size_of b) as Hadd.
    { unfold size_add. apply Z.mod_small. pose proof (size_of_nonneg rest). lia. }
    destruct prev as [d|]; cbn [emitted default from_option] in *.
    + destruct (Z.ltb_spec 0 (s_block_offset st)); [|lia]. unfold sign_last_block.
      cbn [s_block_size_last s_block_hash s_chain_hasher]. rewrite I7, I8, I3. cbn [Datatypes.id].
      destruct (calculate_block sha512 (size_of d) (sha512 d) (Signer id sk) h) as [c h'] eqn:Ec.
      eexists. split; [|split; [done|split; done]].
      split; cbn; rewrite ?I9, ?Hadd; try done; lia.
    + destruct (Z.ltb_spec 0 (s_block_offset st)); [lia|].
      eexists. split; [|split; [done|split; done]].
      split; cbn; rewrite ?I8, ?I9, ?Hadd; try done; lia.
Qed.

(** The trailer of a body. *)
Definition body_trailer (data : list byte) : fields :=
  http_injection_trailer outh [] (size_of data) (sha256 data) sk (encode_key_id (public_key_of sk)) now.

Lemma signing_pop_pending st p ps :
  s_pending_parts st = p :: ps ->
  exists st', signing_pop st = Some (p, st') /\ s_pending_parts st' = ps /\
    forall h prev buf data, injecting h prev buf data st -> injecting h prev buf data st'.
Proof.
  intros Hp. unfold signing_pop. rewrite Hp. eexists. split; [done|]. split; [done|].
  intros h prev buf data [I1 I2 I3 I4 I5 I6 I7 I8 I9 I10 I11 I12 I13]. by split.
Qed.

Lemma deliver_pending inp st p ps :
  s_pending_parts st = [p] ->
  (forall st', s_pending_parts st' = [] ->
     (forall h prev buf data, injecting h prev buf data st -> injecting h prev buf data st') ->
     s_is_done st' = s_is_done st -> delivers sign_reads inp st' ps) ->
  delivers sign_reads inp st (p :: ps).
Proof.
  intros Hp Hnext. unfold signing_read, signing_pop.
  eapply deliver_part; [rewrite Hp; reflexivity|]. apply Hnext; cbn; [done| |done].
  intros h prev buf data [I1 I2 I3 I4 I5 I6 I7 I8 I9 I10 I11 I12 I13]. by split.
Qed.

(** At the end, with nothing buffered. *)
Lemma deliver_last h prev data st :
  injecting h prev [] data st -> s_pending_parts st = [] -> size_of data < 2 ^ 64 ->
  delivers sign_reads [] st (signed_chunks h prev [] ++ [Trailer (body_trailer data)]).
Proof.
  intros Hi Hp Hsize. destruct (sign_body_step h prev [] data [] st [] []) as (st1 & Hi1 & _ & Hb); [done|by rewrite app_nil_r|apply Nat.le_0_l|done|].
  rewrite bool_decide_true in Hi1, Hb by done. destruct Hb as [Hb Hp1]. rewrite app_nil_r in Hi1.
  assert (exists st2, sign_end sha256 sha512 id sk now st =
            Ok (Some (ChunkHdr 0 (signature_ext (fst (calculate_block sha512 (size_of (default [] prev)) (sha512 (default [] prev)) (Signer id sk) h)))), st2) /\
          s_pending_parts st2 = [Trailer (body_trailer data)] /\ s_is_done st2 = true) as (st2 & He & Hp2 & Hd2).
  { unfold sign_end. rewrite (in_done _ _ _ _ _ Hi), Hb. cbn [fst]. rewrite (in_inject _ _ _ _ _ Hi1). unfold sign_last_block.
    rewrite (in_last _ _ _ _ _ Hi1), (in_block _ _ _ _ _ Hi1), (in_hasher _ _ _ _ _ Hi1).
    destruct (calculate_block sha512 (size_of (default [] prev)) (sha512 (default [] prev)) (Signer id sk) h) as [c h'].
    eexists. split; [reflexivity|]. cbn. split; [|done]. rewrite Hp1, Hp. cbn [app]. unfold body_trailer.
    by rewrite (in_outh _ _ _ _ _ Hi1), (in_trailer _ _ _ _ _ Hi1), (in_length _ _ _ _ _ Hi1), (in_body _ _ _ _ _ Hi1). }
  cbn [signed_chunks app]. eapply deliver_part.
  - unfold signing_read, signing_pop. rewrite Hp. cbn [sign_loop]. by rewrite He.
  - apply deliver_pending; [done|]. intros st3 Hp3 _ Hd3. eapply deliver_end.
    unfold signing_read, signing_pop. rewrite Hp3. cbn [sign_loop]. unfold sign_end. by rewrite Hd3, Hd2.
Qed.

(** The chunks that start with a block that is sent now. *)
Lemma signed_chunks_cons h prev b bs :
  signed_chunks h prev (b :: bs) =
  ChunkHdr (size_of b) (fst (emitted h prev)) :: ChunkBody b 0 :: signed_chunks (snd (emitted h prev)) (Some b) bs.
Proof.
  cbn [signed_chunks]. destruct prev as [d|]; [|done]. cbn [emitted].
  by destruct (calculate_block sha512 (size_of d) (sha512 d) (Signer id sk) h).
Qed.

Definition good_block (b : list byte) : Prop := b <> [] /\ (length b <= block_quantum)%nat.

Definition input_data (inp : input) : list byte :=
  concat (map (fun i => match i with inr p => concat (part_body p) | inl _ => [] end) inp).

(** The origin sends no empty part; the injector ends a block at such a part. *)
Definition no_empty_part (inp : input) : Prop :=
  Forall (fun i => match i with inr p => part_body p <> [[]] | inl _ => True end) inp.

Lemma deliver_block inp inp' h prev b rest data st st1 :
  s_pending_parts st = [] ->
  sign_loop sha256 sha512 rqh id ts sk now inp st =
    Ok (Some (ChunkHdr (size_of b) (fst (emitted h prev))), st1, inp') ->
  s_pending_parts st1 = [ChunkBody b 0] -> injecting (snd (emitted h prev)) (Some b) rest data st1 ->
  exists st2, s_pending_parts st2 = [] /\ injecting (snd (emitted h prev)) (Some b) rest data st2 /\
    forall bs tl, delivers sign_reads inp' st2 (signed_chunks (snd (emitted h prev)) (Some b) bs ++ tl) ->
      delivers sign_reads inp st (signed_chunks h prev (b :: bs) ++ tl).
Proof.
  intros Hp Hl Hp1 Hi1. destruct (signing_pop_pending st1 _ _ Hp1) as (st2 & Hpop & Hp2 & Hi2).
  exists st2. split_and!; [done|by apply Hi2|]. intros bs tl Hnext. rewrite signed_chunks_cons. cbn [app].
  eapply deliver_part; [unfold signing_read, signing_pop; rewrite Hp; exact Hl|].
  eapply deliver_part; [unfold signing_read; rewrite Hpop; reflexivity|done].
Qed.

(** A part that carries data. *)
Lemma deliver_data q d inp h prev buf data st :
  (forall st, sign_part sha512 rqh id ts sk q st = sign_body sha512 id sk d st) ->
  injecting h prev buf data st -> s_pending_parts st = [] -> (length d <= block_quantum)%nat ->
  size_of (data ++ d ++ input_data inp) < 2 ^ 64 ->
  (forall h prev buf st, injecting h prev buf (data ++ d) st -> s_pending_parts st = [] ->
     exists bs, Forall good_block bs /\ concat bs = buf ++ input_data inp /\
       (no_empty_part inp -> full_blocks Datatypes.id response_data_block bs) /\
       delivers sign_reads inp st (signed_chunks h prev bs ++ [Trailer (body_trailer ((data ++ d) ++ input_data inp))])) ->
  exists bs, Forall good_block bs /\ concat bs = buf ++ d ++ input_data inp /\
    (d <> [] -> no_empty_part inp -> full_blocks Datatypes.id response_data_block bs) /\
    delivers sign_reads (inr q :: inp) st (signed_chunks h prev bs ++ [Trailer (body_trailer (data ++ d ++ input_data inp))]).
Proof.
  intros Hq Hi Hp Hd Hsize Hnext. rewrite (app_assoc data d) in Hsize |- *.
  destruct (if bool_decide (d = []) then (buf, []) else qbuf_get block_quantum (buf ++ d)) as [b rest] eqn:Eb.
  destruct (sign_body_step h prev buf data d st b rest) as (st1 & Hi1 & Hcat & Hb); [done| |done|done|].
  { rewrite size_of_app in Hsize. pose proof (size_of_nonneg (input_data inp)). lia. }
  assert (forall r, sign_body sha512 id sk d st = r ->
            sign_loop sha256 sha512 rqh id ts sk now (inr q :: inp) st =
            match r with Ok (Some p, st) => Ok (Some p, st, inp) | Ok (None, st) => sign_loop sha256 sha512 rqh id ts sk now inp st
                       | Fail e => Fail e | Fault => Fault end) as Hloop.
  { intros r <-. cbn [sign_loop]. rewrite (in_done _ _ _ _ _ Hi), Hq. done. }
  destruct (bool_decide_reflect (b = [])) as [->|Hne]; destruct Hb as [Hb Hp1].
  - cbn [app] in Hcat. subst rest. destruct (Hnext h prev _ st1 Hi1) as (bs & Hg & Hc & Hfb & Hdel); [congruence|].
    exists bs. split_and!; [done|by rewrite Hc, app_assoc|by intros _|].
    assert (sign_reads (inr q :: inp) st = sign_reads inp st1) as Heq.
    { unfold signing_read, signing_pop. rewrite Hp1, Hp. by rewrite (Hloop _ Hb). }
    by apply (delivers_same _ _ _ _ _ _ Heq).
  - destruct (deliver_block (inr q :: inp) inp h prev b rest (data ++ d) st st1) as (st2 & Hp2 & Hi2 & Hdel);
      [done|by rewrite (Hloop _ Hb)|by rewrite Hp1, Hp|done|].
    destruct (Hnext _ _ _ st2 Hi2 Hp2) as (bs & Hg & Hc & Hfb & Hrest). exists (b :: bs). split_and!.
    + constructor; [|done]. split; [done|].
      case_bool_decide; [injection Eb as <- <-; pose proof (in_small _ _ _ _ _ Hi); lia|].
      unfold qbuf_get in Eb. destruct (_ <? _)%nat; [by injection Eb as <- <-|]. injection Eb as <- <-. rewrite length_take. lia.
    + cbn [concat]. by rewrite Hc, app_assoc, Hcat, app_assoc.
    + intros Hd0 Hno. apply full_blocks_intro; [|by apply Hfb]. rewrite bool_decide_false in Eb by done.
      unfold qbuf_get in Eb. destruct (Nat.ltb_spec (length (buf ++ d)) block_quantum); injection Eb as <- <-; [done|].
      rewrite <-block_quantum_size. unfold size_of, Datatypes.id. rewrite length_take. lia.
    + by apply Hdel.
Qed.

Lemma deliver_body inp : forall h prev buf data st,
  Forall (fun i => exists p, i = inr p /\ origin_part p = true) inp ->
  injecting h prev buf data st -> s_pending_parts st = [] -> size_of (data ++ input_data inp) < 2 ^ 64 ->
  exists bs, Forall good_block bs /\ concat bs = buf ++ input_data inp /\
    (no_empty_part inp -> full_blocks Datatypes.id response_data_block bs) /\
    delivers sign_reads inp st (signed_chunks h prev bs ++ [Trailer (body_trailer (data ++ input_data inp))]).
Proof.
  induction inp as [|i inp IH]; intros h prev buf data st Hinp Hi Hp Hsize.
  - change (input_data []) with (@nil byte) in *. rewrite (app_nil_r data) in *. rewrite (app_nil_r buf).
    destruct (decide (buf = [])) as [->|Hne].
    { exists []. split_and!; [constructor|done|done|]. by apply deliver_last. }
    destruct (sign_body_step h prev buf data [] st buf []) as (st1 & Hi1 & _ & Hb);
      [done|by rewrite app_nil_r|apply Nat.le_0_l|done|].
    rewrite bool_decide_false in Hi1, Hb by done. destruct Hb as [Hb Hp1]. rewrite app_nil_r in Hi1.
    destruct (deliver_block [] [] h prev buf [] data st st1) as (st2 & Hp2 & Hi2 & Hdel); [done| |by rewrite Hp1, Hp|done|].
    { cbn [sign_loop]. unfold sign_end. by rewrite (in_done _ _ _ _ _ Hi), Hb. }
    exists [buf]. split_and!.
    + repeat constructor; [done|]. pose proof (in_small _ _ _ _ _ Hi). lia.
    + cbn. apply app_nil_r.
    + intros _. cbn [full_blocks]. rewrite <-block_quantum_size. pose proof (in_small _ _ _ _ _ Hi).
      unfold size_of, Datatypes.id. lia.
    + apply Hdel. by apply deliver_last.
  - apply Forall_cons in Hinp as [(q & -> & Hq) Hinp].
    assert (forall d, concat (part_body q) = d -> input_data (inr q :: inp) = d ++ input_data inp) as Hdata by (intros d <-; done).
    assert (forall st1, sign_part sha512 rqh id ts sk q st = Ok (None, st1) -> injecting h prev buf data st1 -> s_pending_parts st1 = [] ->
              concat (part_body q) = [] ->
              exists bs, Forall good_block bs /\ concat bs = buf ++ input_data (inr q :: inp) /\
                (no_empty_part (inr q :: inp) -> full_blocks Datatypes.id response_data_block bs) /\
                delivers sign_reads (inr q :: inp) st (signed_chunks h prev bs ++ [Trailer (body_trailer (data ++ input_data (inr q :: inp)))])) as Hsilent.
    { intros st1 Hs1 Hi1 Hp1 Hc. rewrite (Hdata _ Hc) in Hsize |- *. cbn [app] in *.
      destruct (IH h prev buf data st1 Hinp Hi1 Hp1 Hsize) as (bs & Hg & Hcat & Hfb & Hdel).
      exists bs. split_and!; [done|done|intros Hno; by apply Hfb; apply Forall_cons in Hno as [_ Hno]|].
      assert (sign_reads (inr q :: inp) st = sign_reads inp st1) as Heq.
      { unfold signing_read, signing_pop. rewrite Hp1, Hp. cbn [sign_loop]. by rewrite (in_done _ _ _ _ _ Hi), Hs1. }
      by apply (delivers_same _ _ _ _ _ _ Heq). }
    destruct q as [hh|size exts|d r|d|fs]; cbn [origin_part] in Hq; [done|..].
    + by apply (Hsilent st).
    + rewrite (Hdata d) in Hsize |- * by (cbn; apply app_nil_r). apply Nat.leb_le in Hq.
      destruct (deliver_data (ChunkBody d r) d inp h prev buf data st) as (bs & Hg & Hc & Hfb & Hdel); [done..| |].
      { intros h' prev' buf' st' Hi' Hp'. apply IH; [done..|by rewrite <-app_assoc]. }
      exists bs. split_and!; [done|done| |done]. intros [Hd Hno]%Forall_cons. apply Hfb; [|done]. by intros ->.
    + rewrite (Hdata d) in Hsize |- * by (cbn; apply app_nil_r). apply Nat.leb_le in Hq.
      destruct (deliver_data (Body d) d inp h prev buf data st) as (bs & Hg & Hc & Hfb & Hdel); [done..| |].
      { intros h' prev' buf' st' Hi' Hp'. apply IH; [done..|by rewrite <-app_assoc]. }
      exists bs. split_and!; [done|done| |done]. intros [Hd Hno]%Forall_cons. apply Hfb; [|done]. by intros ->.
    + apply (Hsilent (sign_trailer fs st)); [done| |done|done].
      destruct Hi as [I1 I2 I3 I4 I5 I6 I7 I8 I9 I10 I11 I12 I13]. split; cbn; try done. by rewrite I1.
Qed.

(** A whole response: the signed head, the signed chunks of the body, the trailer. *)
Lemma deliver_response orig inp :
  to_cache_response orig = (false, rsh) ->
  Forall (fun i => exists p, i = inr p /\ origin_part p = true) inp -> size_of (input_data inp) < 2 ^ 64 ->
  exists bs, Forall good_block bs /\ concat bs = input_data inp /\
    (no_empty_part inp -> full_blocks Datatypes.id response_data_block bs) /\
    delivers sign_reads (inr (HeadPart orig) :: inp) signing_init
      (HeadPart (set_keep_alive (get_keep_alive orig) outh)
       :: signed_chunks new_hasher None bs ++ [Trailer (body_trailer (input_data inp))]).
Proof.
  intros Ho Hinp Hsize.
  set (st1 := {| s_chain_hasher := new_hasher; s_do_inject := true; s_outh := outh; s_body_length := 0; s_block_offset := 0;
                 s_block_size_last := 0; s_body_hash := []; s_block_hash := []; s_qbuf := []; s_pending_parts := [];
                 s_trailer_in := []; s_is_done := false |}).
  destruct (deliver_body inp new_hasher None [] [] st1) as (bs & Hg & Hc & Hfb & Hd); [done| |done|done|].
  { split; cbn; try done. pose proof block_quantum_size as Hq. unfold response_data_block in Hq. lia. }
  exists bs. split_and!; [done|done|done|]. eapply deliver_part; [|exact Hd].
  unfold signing_read, signing_pop, signing_init. cbn [s_pending_parts sign_loop s_is_done sign_part].
  unfold sign_head. by rewrite Ho.
Qed.

(** *** The chain of the chunks *)

(** The blocks of a body: an empty one when there is no data. *)
Definition body_blocks (bs : list (list byte)) : list (list byte) := match bs with [] => [[]] | _ => bs end.

Definition injected_chain (bs : list (list byte)) : list (list byte * list byte) :=
  injected sha512 id sk new_hasher (body_blocks bs).

Lemma injected_cons h d ds :
  exists sg h', injected sha512 id sk h (d :: ds) = (d, sg) :: injected sha512 id sk h' ds /\
    length sg = Signature_size /\ chain_step sha512 h (d, sg) = calculate_block sha512 (size_of d) (sha512 d) (Signer id sk) h /\
    h' = snd (chain_step sha512 h (d, sg)) /\ sg = chain_signature (fst (chain_step sha512 h (d, sg))) /\
    ChainHash_verify (public_key_of sk) id (fst (chain_step sha512 h (d, sg))) = true.
Proof.
  cbn [injected]. destruct (calculate_block sha512 (size_of d) (sha512 d) (Signer id sk) h) as [c h'] eqn:Ec.
  exists (chain_signature c), h'. assert (chain_step sha512 h (d, chain_signature c) = (c, h')) as Hs.
  { unfold chain_step. cbn [fst snd]. rewrite <-Ec. unfold calculate_block in *. by injection Ec as <- <-. }
  rewrite Hs. split_and!; try done; injection Ec as <- <-; cbn [chain_signature fst].
  - apply signature_size.
  - unfold ChainHash_verify. cbn [offset chain_digest chain_signature]. apply verify_sign.
Qed.

Lemma injected_good ds : forall h,
  signed_blocks (injected sha512 id sk h ds) /\ verified_chain sha512 (public_key_of sk) id h (injected sha512 id sk h ds).
Proof.
  induction ds as [|d ds IH]; intros h; [by repeat constructor|].
  destruct (injected_cons h d ds) as (sg & h' & -> & Hl & _ & -> & _ & Hv). destruct (IH (snd (chain_step sha512 h (d, sg)))) as [H1 H2].
  split; [by constructor|by split].
Qed.

(** The chunks of the signing reader are those of the chain. *)
Lemma signed_chunks_list bs : forall h,
  (bs <> [] -> signed_chunks h None bs = chunk_list sha512 plain_ext h None (injected sha512 id sk h bs)) /\
  forall d, match injected sha512 id sk h (d :: bs) with
            | b :: l => signed_chunks h (Some d) bs = chunk_list sha512 plain_ext h (Some b) l
            | [] => False
            end.
Proof.
  assert (forall bs h, (forall h d, match injected sha512 id sk h (d :: bs) with
            | b :: l => signed_chunks h (Some d) bs = chunk_list sha512 plain_ext h (Some b) l | [] => False end) ->
          forall b, signed_chunks h None (b :: bs) = chunk_list sha512 plain_ext h None (injected sha512 id sk h (b :: bs))) as Hnone.
  { intros bs' h Hs b. specialize (Hs h b). cbn [signed_chunks]. destruct (injected_cons h b bs') as (sg & h' & E & _).
    rewrite E in Hs |- *. cbn [chunk_list fst]. by rewrite Hs. }
  assert (forall bs h d, match injected sha512 id sk h (d :: bs) with
            | b :: l => signed_chunks h (Some d) bs = chunk_list sha512 plain_ext h (Some b) l | [] => False end) as Hsome.
  { induction bs0 as [|b bs0 IH]; intros h d.
    - destruct (injected_cons h d []) as (sg & h' & -> & _ & Es & _ & Hsg & _). cbn [signed_chunks injected chunk_list ext_of default from_option Datatypes.id].
      rewrite <-Es. unfold signature_ext, plain_ext. cbn [snd]. by rewrite <-Hsg.
    - destruct (injected_cons h d (b :: bs0)) as (sg & h' & -> & _ & Es & Hh & Hsg & _).
      cbn [signed_chunks]. specialize (IH h' b). destruct (injected_cons h' b bs0) as (sg2 & h2 & E & _).
      rewrite E in IH |- *. cbn [chunk_list ext_of hasher_of fst]. rewrite <-Es, <-Hh, IH.
      unfold signature_ext, plain_ext. cbn [snd]. by rewrite <-Hsg. }
  intros h. split; [|apply Hsome]. destruct bs as [|b bs]; [done|]. intros _. apply Hnone, Hsome.
Qed.

Lemma signed_chunks_chain bs : Forall (fun b => b <> []) bs -> signed_chunks new_hasher None bs = chain_parts sha512 plain_ext (injected_chain bs).
Proof.
  intros Hbs. unfold injected_chain. destruct bs as [|b bs]; cbn [body_blocks].
  - destruct (injected_cons new_hasher [] []) as (sg & h' & -> & _ & Es & _ & Hsg & _). cbn [injected chain_parts chunk_list ext_of signed_chunks default from_option Datatypes.id].
    rewrite <-Es. unfold signature_ext, plain_ext. cbn [snd]. by rewrite <-Hsg.
  - rewrite chain_parts_blocks.
    + by apply signed_chunks_list.
    + rewrite <-(injected_data sha512 id sk (b :: bs) new_hasher) in Hbs. apply (Forall_fmap fst) in Hbs. exact Hbs.
Qed.

Lemma injected_bodies ext bs : Forall (fun b => b <> []) bs -> concat (bodies (chain_parts sha512 ext (injected_chain bs))) = concat bs.
Proof.
  intros Hbs. destruct bs as [|b bs].
  - unfold injected_chain. cbn [body_blocks]. by destruct (injected_cons new_hasher [] []) as (sg & h' & -> & _).
  - pose proof (injected_data sha512 id sk (b :: bs) new_hasher) as Hd. rewrite chain_parts_blocks, bodies_chunks.
    + unfold injected_chain. cbn [body_blocks]. by rewrite Hd.
    + unfold injected_chain. cbn [body_blocks]. rewrite <-Hd in Hbs. apply (Forall_fmap fst) in Hbs. exact Hbs.
Qed.

(** *** The trailer *)

Lemma digest_matches_self data : digest_matches (http_digest sha256 data) (digest_value (sha256 data)) = true.
Proof.
  unfold digest_matches.
  assert (no_margin " "%byte (base64_encode (sha256 data))) as Hm.
  { apply no_margin_free. intros Hs%list_elem_of_In. pose proof (base64_text (sha256 data)) as Ht. rewrite forallb_forall in Ht.
    by apply Ht in Hs. }
  destruct (split_string_pair_spec (view_of (http_digest sha256 data)) "="%byte (str "SHA-256") (base64_encode (sha256 data)))
    as [E1 E2]; [done|by_evaluation|apply no_margin_free; by_evaluation|done|].
  destruct (split_string_pair_spec (field_view (digest_value (sha256 data))) "="%byte (str "SHA-256") (base64_encode (sha256 data)))
    as [E3 E4]; [done|by_evaluation|apply no_margin_free; by_evaluation|done|].
  destruct (split_string_pair _ _) as [a1 v1]. destruct (split_string_pair _ _) as [a2 v2]. cbn [fst snd] in *.
  by rewrite E1, E2, E3, E4, bool_decide_true, orb_true_r.
Qed.

(** A body of the size and digest that the head has is accepted. *)
Lemma check_body_good sh data st :
  v_head st = Some sh -> v_range st = None -> v_is_done st = false -> v_body_length st = size_of data -> v_body_hash st = data ->
  find_field response_data_size_hdr (rs_fields (sh_head sh)) = Some (to_string (size_of data)) ->
  List.filter (same_name (str "Digest")) (rs_fields (sh_head sh)) = [(str "Digest", digest_value (sha256 data))] ->
  size_of data < unsigned_max W8 ->
  exists st', check_body sha256 st = Ok st' /\ v_is_done st' = true /\ v_pending_parts st' = v_pending_parts st.
Proof.
  intros F1 F2 F7 F5 F6 Hfs Hfd Hlen. unfold check_body. rewrite F7, F1, F2, F5, F6.
  unfold field_value. rewrite Hfs. cbn [default from_option Datatypes.id]. unfold number_of_view.
  cbn [chars field_view]. rewrite <-(app_nil_r (to_string (size_of data))).
  rewrite number_unsigned_to_string; [|pose proof (size_of_nonneg data); lia|apply no_digit_nil]. cbn [fst].
  rewrite Z.eqb_refl. cbn [negb]. rewrite Hfd. cbn [forallb snd andb]. rewrite digest_matches_self.
  cbn. eexists. split; [reflexivity|]. done.
Qed.

(** The last part of a body that fits its head. *)
Lemma verify_last check_framing t st sh data :
  v_pending_parts st = [] ->
  verify_trailer (public_key_of sk) t st = Ok (Some (Trailer t), set_v_head sh st) ->
  v_range st = None -> v_is_done st = false -> v_body_length st = size_of data -> v_body_hash st = data ->
  find_field response_data_size_hdr (rs_fields (sh_head sh)) = Some (to_string (size_of data)) ->
  List.filter (same_name (str "Digest")) (rs_fields (sh_head sh)) = [(str "Digest", digest_value (sha256 data))] ->
  size_of data < unsigned_max W8 ->
  delivers (verifying_read sha256 sha512 check_framing (public_key_of sk) []) [inr (Trailer t)] st [Trailer t].
Proof.
  intros F8 Ht F2 F7 F5 F6 Hfs Hfd Hlen.
  destruct (check_body_good sh data (set_v_head sh st)) as (st' & Hc & Hd & Hp); try done.
  assert (verifying_read sha256 sha512 check_framing (public_key_of sk) [] [inr (Trailer t)] st = Ok (Some (Trailer t), st', [])) as Hread.
  { unfold verifying_read, verifying_pop. rewrite F8. cbn [verify_loop verify_part]. rewrite Ht.
    rewrite bool_decide_true by done. by rewrite Hc. }
  eapply deliver_part; [exact Hread|]. eapply (deliver_end _ _ _ st' []).
  unfold verifying_read, verifying_pop. rewrite Hp. cbn [set_v_head v_pending_parts]. rewrite F8. cbn [verify_loop].
  rewrite bool_decide_true by done. unfold check_body. by rewrite Hd.
Qed.

Section End.
Variables (check_framing : bool) (sh : SignedHead).
Hypothesis Hcache : cache_head rsh.
Hypothesis Hid : id <> [] /\ (","%byte ∉ id) /\ no_margin " "%byte id.
Hypothesis Hts : - 2 ^ 63 <= ts < 2 ^ 63.
Hypothesis Hsize : values response_data_size_hdr (rs_fields rsh) = [].
Hypothesis Hdigest : values (str "Digest") (rs_fields rsh) = [].
Variable R : response_header.
Hypothesis HR : received rqh rsh id ts sk R.
Hypothesis Hsh : sh_head sh = set_rs_fields R (accepted_fields rqh rsh id ts sk R).

Lemma verify_end data h st :
  following sh h [] data st -> size_of data < unsigned_max W8 ->
  delivers (verifying_read sha256 sha512 check_framing (public_key_of sk) []) [inr (Trailer (body_trailer data))] st [Trailer (body_trailer data)].
Proof.
  intros [F1 F2 F3 F4 F9 F5 F6 F7 F8] Hlen.
  destruct (extended_created rqh rsh id ts sk Hcache Hid Hts (size_of data) now (sha256 data) Hsize Hdigest R HR)
    as (sh2 & Hv & _ & Hfs & Hfd).
  assert (verify_trailer (public_key_of sk) (body_trailer data) st = Ok (Some (Trailer (body_trailer data)), set_v_head sh2 st)) as Ht.
  { unfold verify_trailer. rewrite F1, Hsh. cbn [rs_fields set_rs_fields]. unfold body_trailer. rewrite http_injection_trailer_fields.
    unfold insert_fields. rewrite insert_trailer_fields by done.
    match goal with |- context [existsb ?f ?l] => replace (existsb f l) with true by reflexivity end.
    match goal with |- context [verify_and_create (set_rs_fields (set_rs_fields R _) ?x)] =>
      change (set_rs_fields (set_rs_fields R _) x) with (set_rs_fields R x) end.
    unfold extended in Hv. by rewrite Hv. }
  by eapply verify_last.
Qed.

End End.

(** *** The head *)

Section Head.
Hypothesis Hcache : cache_head rsh.
Hypothesis Hconnection : values (str "Connection") (rs_fields rsh) = [].

Lemma signed_head_kept_alive b : received rqh rsh id ts sk (set_keep_alive b outh).
Proof.
  pose proof (signed_head_received rqh rsh id ts sk Hcache) as [R1 R2 R3 R4 R5].
  destruct (keep_alive_connection b outh) as [Hr Hc].
  assert (forall n, values n (announced rqh rsh id ts sk) <> [] -> lower_str (str "Connection") <> lower_str n) as Hne.
  { intros n Hv E. apply Hv. unfold announced.
    rewrite <-(values_lower _ _ _ E), !values_set, !bool_decide_false by done. exact Hconnection. }
  destruct Hc as [E|[E|[v E]]]; split; rewrite ?Hr, ?E; try done.
  - intros f [Hf _]%elem_of_erase_field. by apply R2.
  - intros te. rewrite find_erase_other by done. apply R3.
  - by rewrite filter_sig_erase.
  - intros n Hf Hv. rewrite filter_name_erase by (by apply Hne). by apply R5.
  - intros f [Hf| ->]%elem_of_set; [by apply R2|done].
  - by apply only_chunked_set.
  - by rewrite filter_sig_set.
  - intros n Hf Hv. rewrite filter_name_set by (by apply Hne). by apply R5.
Qed.

(** The body of the head that is sent is chunked. *)
Lemma signed_head_chunked b :
  exists te, find_field (str "Transfer-Encoding") (rs_fields (set_keep_alive b outh)) = Some te /\ last_is_chunked te = true.
Proof.
  assert (exists te, find_field (str "Transfer-Encoding") (rs_fields outh) = Some te /\ last_is_chunked te = true) as (te & Hte & Hl).
  { change outh with (signed_head rqh rsh id ts sk). rewrite signed_head_fields, find_set_other by done. unfold set_chunked. rewrite find_erase_other by done.
    unfold set_chunked_impl. rewrite find_set_other by done.
    destruct (find_field (str "Transfer-Encoding") (announced rqh rsh id ts sk)) as [te|] eqn:E.
    - pose proof (announced_only_chunked rqh rsh id ts sk Hcache te E) as Hc.
      exists te. rewrite chunked_is_last, find_set_other by done. done.
    - rewrite find_set_same. eexists. split; [done|]. by apply chunked_is_last. }
  exists te. split; [|done]. destruct (keep_alive_connection b outh) as [_ [->|[->|[v ->]]]];
    [done|by rewrite find_erase_other|by rewrite find_set_other].
Qed.

Hypothesis Hid : id <> [] /\ (","%byte ∉ id) /\ no_margin " "%byte id.
Hypothesis Hts : - 2 ^ 63 <= ts < 2 ^ 63.

Lemma read_head check_framing X sh te rest :
  verify_and_create X (public_key_of sk) = Value (Some sh) ->
  find_field (str "Transfer-Encoding") (rs_fields (sh_head sh)) = Some te -> last_is_chunked te = true -> rest <> [] ->
  exists st, verifying_read sha256 sha512 check_framing (public_key_of sk) [] (inr (HeadPart X) :: rest) verifying_init =
      Ok (Some (HeadPart (sh_head sh)), st, rest) /\ following sh new_hasher [] [] st.
Proof.
  intros Hv Hte Hl Hrest. eexists. split.
  - unfold verifying_read, verifying_pop, verifying_init. cbn [v_pending_parts verify_loop verify_part]. unfold verify_head.
    unfold get_original_status. rewrite bool_decide_true by done. cbn [restore_original]. rewrite Hv, Hte, Hl, andb_false_r.
    unfold partial_range. rewrite bool_decide_true by done. rewrite bool_decide_false by done. reflexivity.
  - by split.
Qed.

Lemma verify_signed_head check_framing b rest :
  rest <> [] ->
  exists sh st, parsed_from rqh id ts sk sh (set_rs_fields (set_keep_alive b outh) (accepted_fields rqh rsh id ts sk (set_keep_alive b outh))) /\
    verifying_read sha256 sha512 check_framing (public_key_of sk) [] (inr (HeadPart (set_keep_alive b outh)) :: rest) verifying_init =
      Ok (Some (HeadPart (sh_head sh)), st, rest) /\ following sh new_hasher [] [] st.
Proof.
  intros Hrest. set (R := set_keep_alive b outh). pose proof (signed_head_kept_alive b : received rqh rsh id ts sk R) as HR.
  destruct (received_created rqh rsh id ts sk Hcache Hid Hts R HR) as (sh & Hv & Hsh).
  destruct (signed_head_chunked b) as (te & Hte & Hl).
  destruct (read_head check_framing R sh te rest) as (st & Hread & Hf); [done| |done|done|by exists sh, st].
  destruct Hsh as (-> & _). cbn [rs_fields set_rs_fields]. rewrite find_field_filter in Hte |- *. by rewrite accepted_named.
Qed.
End Head.

(** *** The head of an origin *)

(** What the headers of the origin must be like: names are tokens, no repeated
    header starts with an empty value, the transfer encoding is not empty, and there
    is no [Digest]. *)
Record origin_head (orig : response_header) : Prop := {
  oh_tokens : token_names (rs_fields orig);
  oh_values n : ~ starts_empty (values n (rs_fields orig));
  oh_coding : find_field (str "Transfer-Encoding") (rs_fields orig) <> Some [];
  oh_digest : values (str "Digest") (rs_fields orig) = [];
}.

Context {FL : FieldTableLaws F}.

(** The filter of cached responses keeps all fields of a name or none. *)
Definition kept_name (n : list byte) : bool :=
  negb (istarts_with n header_prefix) && existsb (fun g => is_same (n, []) g) cache_response_fields.

Lemma kept_name_lower n m : lower_str n = lower_str m -> kept_name n = kept_name m.
Proof.
  intros E. unfold kept_name. f_equal.
  - unfold istarts_with, iequals. do 2 f_equal. unfold lower_str in *. by rewrite <-!firstn_map, E.
  - cbn [existsb is_same cache_response_fields std fst]. unfold string_to_field. by rewrite (standard_icase n m E), E.
Qed.

Lemma filter_kept_name n fs :
  List.filter (same_name n) (filter_fields cache_response_fields (remove_ouinet_fields fs)) =
  if kept_name n then List.filter (same_name n) fs else [].
Proof.
  unfold filter_fields, remove_ouinet_fields. rewrite !filter_both. induction fs as [|f fs IH]; [by destruct (kept_name n)|].
  cbn [List.filter]. destruct (same_name n f) eqn:Es.
  2: { rewrite andb_false_r, andb_false_r. exact IH. }
  assert (negb (istarts_with (fst f) header_prefix) && field_is_one_of f cache_response_fields = kept_name n) as Hk.
  { apply same_name_lower in Es. by rewrite <-(kept_name_lower (fst f) n Es). }
  rewrite andb_true_r, Hk, IH. by destruct (kept_name n).
Qed.

Lemma kept_values orig n :
  to_cache_response orig = (false, rsh) -> values n (rs_fields rsh) = if kept_name n then values n (rs_fields orig) else [].
Proof.
  unfold to_cache_response. destruct (_ && _); [done|]. intros [= <-]. cbn [rs_fields set_rs_fields]. unfold values.
  rewrite filter_kept_name. by destruct (kept_name n).
Qed.

Lemma origin_cache_head orig : to_cache_response orig = (false, rsh) -> origin_head orig -> cache_head rsh.
Proof.
  intros Ho [O1 O2 O3 O4]. pose proof (fun n => kept_values orig n Ho) as Hv. unfold to_cache_response in Ho.
  destruct (negb _ && _) eqn:Eg; [done|]. 
  assert (rs_fields rsh = filter_fields cache_response_fields (remove_ouinet_fields (rs_fields orig))) as Hf by (by injection Ho as <-).
  split.
  - intros f Hin. rewrite Hf in Hin. apply O1. unfold filter_fields, remove_ouinet_fields in Hin.
    rewrite list_elem_of_In, !filter_In, <-list_elem_of_In in Hin. apply Hin.
  - intros te. rewrite Hf, find_field_filter, filter_kept_name. destruct (kept_name _); [|done].
    rewrite <-find_field_filter. intros E. unfold field_value in Eg. rewrite E in Eg. cbn [default from_option Datatypes.id] in Eg.
    apply andb_false_iff in Eg as [Eg|Eg]; apply negb_false_iff in Eg; [|done].
    apply bool_decide_eq_true in Eg as ->. by rewrite E in O3.
  - rewrite Hf. apply filter_nil_all, Forall_forall. intros f Hin. unfold filter_fields, remove_ouinet_fields in Hin.
    rewrite list_elem_of_In, !filter_In in Hin. destruct Hin as [[_ Hn] _]. apply negb_true_iff in Hn.
    unfold sig_field, is_signature_hdr. destruct (iequals (take _ (fst f)) response_signature_hdr_pfx) eqn:E; [|done]. exfalso.
    revert Hn. apply not_false_iff_true. unfold istarts_with. apply iequals_true. apply iequals_true in E.
    unfold lower_str in *. rewrite <-firstn_map in E |- *.
    apply (f_equal (take (length header_prefix))) in E. rewrite take_take in E. exact E.
  - intros n. rewrite (Hv n). destruct (kept_name n); [apply O2|by intros (w & vs & [=])].
Qed.

(** The chunks of a signed body, in whatever pieces their data arrives. *)
Lemma verify_injected ext check_framing sh t data bs qs st :
  (forall h b, length (snd b) = Signature_size -> block_sig_from_exts (ext h b) = Some (Some (snd b))) ->
  (forall b, ext new_hasher b = hashed_ext new_hasher b) ->
  parsed_from rqh id ts sk sh (sh_head sh) -> following sh new_hasher [] [] st ->
  (forall h st, following sh h [] data st ->
     delivers (verifying_read sha256 sha512 check_framing (public_key_of sk) []) [inr (Trailer t)] st [Trailer t]) ->
  Forall good_block bs -> concat bs = data -> size_of data < 2 ^ 64 ->
  transported (chain_parts sha512 ext (injected_chain bs) ++ [Trailer t]) qs ->
  delivers (verifying_read sha256 sha512 check_framing (public_key_of sk) []) (map inr qs) st
    (chain_parts sha512 hashed_ext (injected_chain bs) ++ [Trailer t]).
Proof.
  intros Hext Hnew (_ & Hinj & _ & _ & Hkey & Hblock) Hf Hend Hbs Hcat Hsize Ht.
  assert (0 < sh_block_size sh < 2 ^ 63) as Hb by (rewrite Hblock; done).
  destruct (injected_good (body_blocks bs) new_hasher) as [Hg1 Hg2]. fold (injected_chain bs) in Hg1, Hg2.
  rewrite <-Hkey, <-Hinj in Hg2. pose proof (injected_data sha512 id sk (body_blocks bs) new_hasher) as Hdata.
  fold (injected_chain bs) in Hdata.
  destruct bs as [|b bs].
  - unfold injected_chain in *. cbn [body_blocks] in *.
    destruct (injected_cons new_hasher [] []) as (sg & h' & E & _). rewrite E in *. cbn [injected chain_parts] in *.
    apply (verify_chunks sha256 sha512 check_framing (public_key_of sk) [] sh ext Hext Hb
             t data [] new_hasher (Some ([], sg)) []); done.
  - assert (Forall (fun x => fst x <> [] /\ size_of (fst x) <= sh_block_size sh) (injected_chain (b :: bs))) as Hall.
    { apply (Forall_fmap fst (fun x => x <> [] /\ size_of x <= sh_block_size sh)). cbn [body_blocks] in Hdata.
      change (fst <$> injected_chain (b :: bs)) with (map fst (injected_chain (b :: bs))). rewrite Hdata.
      eapply Forall_impl; [exact Hbs|]. intros x [Hx Hl]. split; [done|]. rewrite Hblock, <-block_quantum_size. unfold size_of. lia. }
    assert (Forall (fun x => fst x <> []) (injected_chain (b :: bs))) as Hne by (eapply Forall_impl; [exact Hall|naive_solver]).
    rewrite chain_parts_blocks in Ht |- * by done.
    apply (verify_chunks sha256 sha512 check_framing (public_key_of sk) [] sh ext Hext Hb
             t data (injected_chain (b :: bs)) new_hasher None []); try done. cbn [body_blocks] in Hdata. by rewrite Hdata.
Qed.

(** What an injector makes of a response, and a client of that. *)
Lemma signed_response_verified orig inp :
  to_cache_response orig = (false, rsh) -> origin_head orig ->
  id <> [] /\ (","%byte ∉ id) /\ no_margin " "%byte id -> - 2 ^ 63 <= ts < 2 ^ 63 ->
  Forall (fun i => exists p, i = inr p /\ origin_part p = true) inp -> size_of (input_data inp) < unsigned_max W8 ->
  let R := set_keep_alive (get_keep_alive orig) outh in
  exists bs, Forall good_block bs /\ concat bs = input_data inp /\
    (no_empty_part inp -> full_blocks Datatypes.id response_data_block bs) /\
    delivers sign_reads (inr (HeadPart orig) :: inp) signing_init
      (HeadPart R :: chain_parts sha512 plain_ext (injected_chain bs) ++ [Trailer (body_trailer (input_data inp))]) /\
    cache_head rsh /\ values response_data_size_hdr (rs_fields rsh) = [] /\ values (str "Digest") (rs_fields rsh) = [] /\
    received rqh rsh id ts sk R /\
    forall check_framing arrived,
      transported (HeadPart R :: chain_parts sha512 plain_ext (injected_chain bs) ++ [Trailer (body_trailer (input_data inp))]) arrived ->
      exists sh, parsed_from rqh id ts sk sh (set_rs_fields R (accepted_fields rqh rsh id ts sk R)) /\
        delivers (verifying_read sha256 sha512 check_framing (public_key_of sk) []) (map inr arrived) verifying_init
          (HeadPart (sh_head sh) :: chain_parts sha512 hashed_ext (injected_chain bs) ++ [Trailer (body_trailer (input_data inp))]).
Proof.
  intros Ho Hh Hid Hts Hinp Hlen R. pose proof (origin_cache_head orig Ho Hh) as Hcache.
  assert (size_of (input_data inp) < 2 ^ 64) as Hsize by (unfold unsigned_max, bits in Hlen; lia).
  assert (forall n, kept_name n = false \/ values n (rs_fields orig) = [] -> values n (rs_fields rsh) = []) as Hnone.
  { intros n Hn. rewrite (kept_values orig n Ho). by destruct (kept_name n), Hn. }
  assert (values (str "Connection") (rs_fields rsh) = []) as Hc.
  { apply Hnone. left. unfold kept_name. apply andb_false_iff. right.
    cbn [existsb is_same cache_response_fields std fst]. unfold string_to_field.
    destruct (is_standard (str "Connection")); by vm_compute. }
  assert (values response_data_size_hdr (rs_fields rsh) = []) as Hs by (apply Hnone; by left).
  assert (values (str "Digest") (rs_fields rsh) = []) as Hd by (apply Hnone; right; apply Hh).
  destruct (deliver_response orig inp Ho Hinp Hsize) as (bs & Hbs & Hcat & Hfull & Hsent).
  rewrite signed_chunks_chain in Hsent by (eapply Forall_impl; [exact Hbs|by intros x [? _]]).
  pose proof (signed_head_kept_alive Hcache Hc (get_keep_alive orig)) as HR.
  exists bs. split_and!; try done. intros check_framing arrived Ha.
  apply transported_part in Ha as (qs & -> & Ha); [|done]. cbn [map].
  destruct (verify_signed_head Hcache Hc Hid Hts check_framing (get_keep_alive orig) (map inr qs)) as (sh & st & Hsh & Hread & Hf).
  { intros E%map_eq_nil. by apply transported_nonempty in Ha. }
  exists sh. split; [done|]. eapply deliver_part; [exact Hread|].
  eapply (verify_injected plain_ext); try done.
  - intros h b Hb. by apply chunk_sig_read.
  - by destruct Hsh as (Hhead & ?).
  - intros h st' Hf'. eapply (verify_end check_framing sh Hcache Hid Hts Hs Hd R HR); try done. by destruct Hsh as [? _].
Qed.

(** ** Theorems *)


End Roundtrip.

(** ** Witnesses *)

#[local] Existing Instances toy_base64 toy_base64_laws toy_coding toy_coding_laws.
#[local] Existing Instances Crypto.toy_scheme Crypto.toy_scheme_laws.

(** Extensions with quoted values. *)
Fixpoint toy_extensions_loop (fuel : nat) (xs : list byte) : option (list (list byte * list byte)) :=
  match fuel, xs with
  | _, [] => Some []
  | O, _ => None
  | S fuel', _ :: xs' =>
      let? k := find_char "="%byte xs' in
      let v := drop (S (S k)) xs' in
      let? j := find_char quote v in
      let? l := toy_extensions_loop fuel' (drop (S j) v) in
      Some ((take k xs', take j v) :: l)
  end.

Definition toy_extensions (xs : list byte) : option (list (list byte * list byte)) := toy_extensions_loop (length xs) xs.

Lemma toy_extensions_spec l : forall fuel,
  Forall (fun x => forallb is_tchar (fst x) = true /\ forallb is_base64_char (snd x) = true) l ->
  (length (concat (map (fun x => extension (fst x) (snd x)) l)) <= fuel)%nat ->
  toy_extensions_loop fuel (concat (map (fun x => extension (fst x) (snd x)) l)) = Some l.
Proof.
  induction l as [|[n v] l IH]; intros fuel Hl Hf; [by destruct fuel|]. apply Forall_cons in Hl as [[Hn Hv] Hl].
  cbn [map concat fst snd] in *. set (rest := concat (map _ l)) in *.
  assert (extension n v ++ rest = ";"%byte :: n ++ "="%byte :: quote :: v ++ quote :: rest) as E.
  { unfold extension, quoted. rewrite <-!app_assoc. done. }
  rewrite E in Hf |- *. destruct fuel as [|fuel]; [cbn [length] in Hf; lia|]. cbn [toy_extensions_loop].
  rewrite find_char_app.
  2: { intros Hin%list_elem_of_In. rewrite forallb_forall in Hn. by apply Hn in Hin. }
  rewrite drop_app_ge by lia. replace (S (S (length n)) - length n)%nat with 2%nat by lia. cbn [drop]. rewrite drop_0.
  rewrite find_char_app.
  2: { intros Hin%list_elem_of_In. rewrite forallb_forall in Hv. by apply Hv in Hin. }
  rewrite !take_app_length, drop_app_ge by lia. replace (S (length v) - length v)%nat with 1%nat by lia. cbn [drop].
  rewrite drop_0, IH; [done|done|].
  cbn [length] in Hf. rewrite length_app in Hf. cbn [length] in Hf. rewrite length_app in Hf. cbn [length] in Hf. fold rest. lia.
Qed.

#[local] Instance toy_beast : BeastOps := {|
  parse_extensions := toy_extensions;
  get_keep_alive _ := true;
  set_keep_alive _ h := h;
  known_status _ := true;
|}.

#[local] Instance toy_beast_laws : @BeastLaws toy_beast.
Proof.
  split; [|intros b h; split; [done|by left]].
  intros l _ Hl. cbn [parse_extensions toy_beast]. unfold toy_extensions. apply toy_extensions_spec; [done|lia].
Qed.

Definition header_table : list (list byte) :=
  [str "Host"; str "Accept"; str "Accept-Encoding"; str "User-Agent"; str "Date"; str "Server"; str "Via";
   str "Transfer-Encoding"; str "Digest"; str "Connection"].

#[local] Instance sample_headers : FieldTable := {| is_standard n := existsb (iequals n) header_table |}.

#[local] Instance sample_headers_laws : FieldTableLaws sample_headers.
Proof.
  split; [|by repeat constructor|done].
  intros a b E. unfold is_standard, sample_headers, iequals. by rewrite E.
Qed.

(** The hash of the examples. *)
Definition toy_hash (x : list byte) : list byte :=
  pad Digest_size (to_string (foldl (fun h c => (h * 257 + code c + 1) mod (2 ^ 61 - 1)) 7 x)).

Lemma toy_hash_size x : length (toy_hash x) = Digest_size.
Proof. apply pad_length. Qed.

Lemma sample_origin : origin_head sample_rs.
Proof.
  destruct sample_head as [H1 _ _ H4]. by split.
Qed.

Definition sample_body : input := [inr (Body (str "hello ")); inr (ChunkBody (str "world") 0)].


(** A scheme in which no other block can be signed than those of one chain. *)
Definition sample_chain : list (list byte * list byte) :=
  injected toy_hash (str "d6076384") sample_sk new_hasher [str "hello "; str "world"].

Definition sealed_scheme : SignatureScheme := {|
  SecretKey := list byte;
  public_key_of := pad PublicKey_size;
  sign_message := @sign_message Crypto.toy_scheme;
  verify_message pk m sig :=
    @verify_message Crypto.toy_scheme pk m sig &&
    (bool_decide (Byte.x00 ∉ m) || bool_decide (m ∈ strings toy_hash (str "d6076384") new_hasher sample_chain));
|}.

Definition sample_pk : list byte := pad PublicKey_size sample_sk.

Definition sample_ext (k : nat) : list byte :=
  block_chunk_ext (snd <$> nth_error sample_chain k) None.

Definition sample_input : input :=
  [inr (ChunkHdr 6 []); inr (ChunkBody (str "hel") 3); inr (ChunkBody (str "lo ") 0);
   inr (ChunkHdr 5 (sample_ext 0)); inr (ChunkBody (str "World") 0); inr (ChunkHdr 0 (sample_ext 1))].

(** The partial response: the second block, with the chain hash of the first. *)
Definition sample_partial : response_header :=
  {| result := 206; rs_version := 11;
     rs_fields := rs_fields sample_signed ++ [(response_original_http_status, str "200"); (str "Content-Range", str "bytes 6-10/*")] |}.

Definition sample_partial_input : input :=
  [inr (ChunkHdr 5 []); inr (ChunkBody (str "world") 0);
   inr (ChunkHdr 0 (block_chunk_ext (snd <$> nth_error sample_chain 1) (Some (toy_hash (str "hello ")))))].

Lemma sealed_signed_only sh :
  sh_injection_id sh = str "d6076384" -> sh_public_key sh = sample_pk ->
  @signed_only sealed_scheme toy_hash sh sample_chain.
Proof.
  intros Ei Ek. split; rewrite Ei; [by_evaluation|]. split; [by repeat constructor|].
  intros o d s Hv. cbn [verify_message sealed_scheme] in Hv. apply andb_true_iff in Hv as [_ Hv].
  apply orb_true_iff in Hv as [Hv|Hv]; apply bool_decide_eq_true in Hv; [|done].
  exfalso. apply Hv. unfold str_to_sign. apply elem_of_app. right. left.
Qed.

Lemma verified_body_is_injected_witness :
  exists sh rest, @verify_and_create sealed_scheme _ _ sample_signed sample_pk = Value (Some sh) /\
    map fst sample_chain = [str "hello "] ++ rest.
Proof.
  pose proof (@verified_body_is_injected sealed_scheme _ _ _ _ toy_hash toy_hash true sample_pk [] 10 sample_signed
                sample_input sample_chain toy_hash_size eq_refl) as Hinj.
  cbv zeta in Hinj.
  assert (bodies (fst (drain 10 (@verifying_read sealed_scheme _ _ _ toy_hash toy_hash true sample_pk [])
                         (inr (HeadPart sample_signed) :: sample_input) verifying_init)) = [str "hello "]) as Hout
    by (vm_compute; reflexivity).
  assert (no_clash toy_hash (hashed_texts toy_hash sample_chain) (received_texts toy_hash sample_input)) as Hclash
    by (apply no_clash_check; vm_compute; reflexivity).
  rewrite Hout in Hinj. apply Hinj; [|exact Hclash|discriminate].
  assert (match @verify_and_create sealed_scheme _ _ sample_signed sample_pk with
          | Value (Some sh) => (sh_injection_id sh, sh_public_key sh) | _ => ([], []) end = (str "d6076384", sample_pk)) as Hsh
    by (vm_compute; reflexivity).
  intros sh Hv. change (head_to_verify [] sample_signed) with sample_signed in Hv. rewrite Hv in Hsh.
  injection Hsh as Hi Hk. by apply sealed_signed_only.
Defined.

Definition sample_partial_read : option Part * verifying * input :=
  match @verifying_read sealed_scheme _ _ _ toy_hash toy_hash true sample_pk [206]
          (inr (HeadPart sample_partial) :: sample_partial_input) verifying_init with
  | Ok r => r
  | _ => (None, verifying_init, [])
  end.

Lemma partial_body_never_verified_witness :
  bodies (fst (drain 10 (@verifying_read sealed_scheme _ _ _ toy_hash toy_hash true sample_pk [206])
                 (snd sample_partial_read) (snd (fst sample_partial_read)))) = [].
Proof.
  destruct (v_head (snd (fst sample_partial_read))) as [sh|] eqn:Eh; [|by vm_compute in Eh].
  eapply (@partial_body_never_verified sealed_scheme _ _ _ _ toy_hash toy_hash true sample_pk [206] 10 sample_partial
            sample_partial_input _ (fst (fst sample_partial_read)) _ sh 6 11 sample_chain toy_hash_size).
  - reflexivity.
  - vm_compute. reflexivity.
  - exact Eh.
  - vm_compute. reflexivity.
  - lia.
  - assert (option_map (fun sh => (sh_injection_id sh, sh_public_key sh)) (v_head (snd (fst sample_partial_read))) =
            Some (str "d6076384", sample_pk)) as Hsh by (vm_compute; reflexivity).
    rewrite Eh in Hsh. injection Hsh as Hi Hk. by apply sealed_signed_only.
  - apply no_clash_check. vm_compute. reflexivity.
Defined.
