(* ===== verification/HttpStore.v ===== *)
(** * The store of responses: src/cache/http_store.cpp and src/cache/resource.h

    A response is kept in a directory with three files: the head without framing,
    the body, and one line of signatures and hashes per block.  [SplittedWriter]
    writes them from the parts that a reader delivers, [GenericResourceReader]
    makes parts of them again, for the whole body or for a range of it.

    Files are lists of bytes, and a file that was not created is [None].  Reading them
    does not fail; the failures of storing (creating and writing the files, removing the
    old entry, renaming the new one) are an argument ([store_faults]).  How Beast prints and parses a head is a class.
    A line of signatures is what [async_read_until] finds up to a newline; at the end
    of the file it reports that nothing was read. *)
From S2P Require Import Prelude Number SplitString Url Http Request Crypto Bytes HashList HttpSign BlockSign.

Class HeadCodec := {
  print_head : response_header -> list byte;          (* Head::writer *)
  parse_head : list byte -> option response_header;   (* async_read_header *)
}.

(** ** Lines of the file of signatures: [SigEntry] *)

Record SigEntry := {
  e_offset : Z;
  e_signature : list byte;
  e_block_digest : list byte;
  e_prev_chained_digest : list byte;
}.

(** [%016x] of a [size_t]. *)
Definition hex16 (z : Z) : list byte := map (fun i => hex_digit (z / 16 ^ Z.of_nat i mod 16)) (rev (seq 0 16)).

Definition newline_char : byte := Byte.x0a.

(** The characters of the fields of a line. *)
Definition is_lower_hex (c : byte) : bool := is_digit c || ((97 <=? code c) && (code c <=? 102)).
Definition hex_value (c : byte) : Z := if is_digit c then code c - 48 else code c - 97 + 10.

Definition parse_data_block_offset (s : list byte) : Z :=
  foldl (fun offset c => (Z.shiftl offset 4 mod 2 ^ 64 + hex_value c) mod 2 ^ 64) 0 s.

(** The regular expression of a line. *)
Definition take_group (n : nat) (p : byte -> bool) (s : list byte) : option (list byte * list byte) :=
  if (length s <? n)%nat then None
  else if forallb p (take n s) then Some (take n s, drop n s) else None.

Definition take_space (s : list byte) : option (list byte) :=
  match s with " "%byte :: s' => Some s' | _ => None end.

Definition match_line (line : list byte) : option (list byte * list byte * list byte * list byte) :=
  let? (offset, s) := take_group 16 is_lower_hex line in
  let? s := take_space s in
  let? (signature, s) := take_group 88 is_base64_char s in
  let? s := take_space s in
  let? (block_digest, s) := take_group 88 is_base64_char s in
  let? s := take_space s in
  let? (prev_digest, s) := take_group 88 is_base64_char s in
  if bool_decide (s = []) then Some (offset, signature, block_digest, prev_digest) else None.

Section Code.
Context `{SignatureScheme} `{Base64} `{TransferCoding} `{BeastOps} `{HeadCodec}.
Variable sha512 : list byte -> list byte.

Definition zero_digest : list byte := replicate Digest_size Byte.x00.
Definition pad_digest : list byte := base64_encode zero_digest.

Definition SigEntry_str (e : SigEntry) : list byte :=
  hex16 (e_offset e) ++ str " " ++ e_signature e ++ str " " ++ e_block_digest e ++ str " "
  ++ (if bool_decide (e_prev_chained_digest e = []) then pad_digest else e_prev_chained_digest e) ++ [newline_char].

Definition chunk_exts (e : SigEntry) : list byte :=
  (if bool_decide (e_signature e = []) then [] else extension response_block_signature_ext (e_signature e))
  ++ (if bool_decide (e_prev_chained_digest e = []) then []
      else extension response_block_chain_hash_ext (e_prev_chained_digest e)).

(** [SigEntry::parse]: the entry, if there is one more line, and what follows it. *)
Definition SigEntry_parse (s : list byte) : res (option SigEntry * list byte) :=
  match find_char newline_char s with
  | None => Ok (None, s)
  | Some k =>
      match match_line (take k s) with
      | None => Fail bad_message
      | Some (offset, signature, block_digest, prev_digest) =>
          Ok (Some {| e_offset := parse_data_block_offset offset; e_signature := signature;
                      e_block_digest := block_digest;
                      e_prev_chained_digest := if bool_decide (prev_digest = pad_digest) then [] else prev_digest |},
              drop (S k) s)
      end
  end.

(** ** Writing: [SplittedWriter] *)

Record stored := { head_file : option (list byte); body_file : option (list byte); sigs_file : option (list byte) }.

Definition no_files : stored := {| head_file := None; body_file := None; sigs_file := None |}.

(** [block_size] is not initialised before a head was written. *)
Record writer := {
  w_files : stored;
  w_head : response_header;
  w_block_size : option Z;
  w_byte_count : Z;
  w_block_count : Z;
  w_block_hash : list byte;
  w_chain_hasher : ChainHasher;
}.

Definition writer_init : writer :=
  {| w_files := no_files; w_head := {| result := 200; rs_version := 11; rs_fields := [] |}; w_block_size := None;
     w_byte_count := 0; w_block_count := 0; w_block_hash := []; w_chain_hasher := new_hasher |}.

(** The signature in chunk extensions; [None] stands for a failed assertion. *)
Definition stored_sig_from_exts (xs : list byte) : option (list byte) :=
  let sigpfx := str ";" ++ response_block_signature_ext ++ str "=" ++ [quote] in
  match find_sub sigpfx xs with
  | None => Some []
  | Some sigext =>
      let rest := drop (sigext + length sigpfx) xs in
      if bool_decide (rest = []) then None
      else let? sigend := find_char quote rest in Some (take sigend rest)
  end.

Definition write_head (h : response_header) (w : writer) : res writer :=
  match head_file (w_files w) with
  | Some _ => Fault
  | None =>
      if bool_decide (field_value response_uri_hdr (rs_fields h) = []) then Fail invalid_argument
      else
        let bsh := field_value response_block_signatures_hdr (rs_fields h) in
        if bool_decide (bsh = []) then Fail invalid_argument
        else
          match BlockSigs_parse (field_view bsh) with
          | Indeterminate => Fault
          | Value None => Fail invalid_argument
          | Value (Some bs_params) =>
              match http_injection_merge h [] with
              | None => Fault
              | Some head =>
                  Ok {| w_files := {| head_file := Some (print_head head); body_file := body_file (w_files w);
                                      sigs_file := sigs_file (w_files w) |};
                        w_head := head; w_block_size := Some (bs_size bs_params);
                        w_byte_count := w_byte_count w; w_block_count := w_block_count w;
                        w_block_hash := w_block_hash w; w_chain_hasher := w_chain_hasher w |}
              end
          end
  end.

(** The file of signatures with a line more; it is created with the first header. *)
Definition with_sigs (line : list byte) (f : stored) : stored :=
  {| head_file := head_file f; body_file := body_file f; sigs_file := Some (default [] (sigs_file f) ++ line) |}.

Definition set_files (f : stored) (w : writer) : writer :=
  {| w_files := f; w_head := w_head w; w_block_size := w_block_size w; w_byte_count := w_byte_count w;
     w_block_count := w_block_count w; w_block_hash := w_block_hash w; w_chain_hasher := w_chain_hasher w |}.

Definition write_chunk_hdr (size : Z) (exts : list byte) (w : writer) : res writer :=
  let w := set_files (with_sigs [] (w_files w)) w in
  match stored_sig_from_exts exts with
  | None => Fault
  | Some signature =>
      if bool_decide (signature = []) then Ok w
      else
        match base64_decode Signature_size signature with
        | None => Ok w
        | Some sig =>
            match w_block_size w with
            | None => Fault
            | Some block_size =>
                let offset := (w_block_count w * block_size) mod 2 ^ 64 in
                let block_count := (w_block_count w + 1) mod 2 ^ 32 in
                if (0 <? size) && negb (w_byte_count w =? (block_count * block_size) mod 2 ^ 64) then Fail invalid_argument
                else
                  let block_digest := sha512 (w_block_hash w) in
                  let e := {| e_offset := offset; e_signature := signature; e_block_digest := base64_encode block_digest;
                              e_prev_chained_digest :=
                                match _prev_chained_digest (w_chain_hasher w) with Some d => base64_encode d | None => [] end |} in
                  let '(_, hasher) := calculate_block sha512 size block_digest (Sig sig) (w_chain_hasher w) in
                  Ok {| w_files := with_sigs (SigEntry_str e) (w_files w); w_head := w_head w; w_block_size := w_block_size w;
                        w_byte_count := w_byte_count w; w_block_count := block_count; w_block_hash := [];
                        w_chain_hasher := hasher |}
            end
        end
  end.

Definition write_body (b : list byte) (w : writer) : res writer :=
  Ok {| w_files := {| head_file := head_file (w_files w); body_file := Some (default [] (body_file (w_files w)) ++ b);
                      sigs_file := sigs_file (w_files w) |};
        w_head := w_head w; w_block_size := w_block_size w; w_byte_count := size_add (w_byte_count w) (size_of b);
        w_block_count := w_block_count w; w_block_hash := w_block_hash w ++ b; w_chain_hasher := w_chain_hasher w |}.

Definition write_trailer (t : fields) (w : writer) : res writer :=
  match head_file (w_files w) with
  | None => Fault
  | Some _ =>
      if bool_decide (t = []) then Ok w
      else
        match http_injection_merge (w_head w) t with
        | None => Fault
        | Some head =>
            Ok {| w_files := {| head_file := Some (print_head head); body_file := body_file (w_files w);
                                sigs_file := sigs_file (w_files w) |};
                  w_head := head; w_block_size := w_block_size w; w_byte_count := w_byte_count w;
                  w_block_count := w_block_count w; w_block_hash := w_block_hash w; w_chain_hasher := w_chain_hasher w |}
        end
  end.

Definition write_part (p : Part) (w : writer) : res writer :=
  match p with
  | HeadPart h => write_head h w
  | ChunkHdr size exts => write_chunk_hdr size exts w
  | ChunkBody b _ | Body b => write_body b w
  | Trailer t => write_trailer t w
  end.

(** [http_store] *)
Fixpoint http_store (inp : input) (w : writer) : res stored :=
  match inp with
  | [] => Ok (w_files w)
  | inl e :: _ => Fail e
  | inr p :: inp' =>
      match write_part p w with
      | Ok w => http_store inp' w
      | Fail e => Fail e
      | Fault => Fault
      end
  end.

(** ** Reading: [GenericResourceReader] *)

(** [r_bodyf] is the file of the body and the position in it. *)
Record resource := {
  r_head : SignedHead;
  r_sigsf : option (list byte);
  r_bodyf : option (list byte * Z);
  r_range : option (Z * Z);
  r_data_size : option Z;
  r_block_size : option Z;
  r_is_head_done : bool;
  r_is_body_done : bool;
  r_is_done : bool;
  r_is_open : bool;
  r_block_offset : Z;
  r_next_chunk_exts : list byte;
  r_next_chunk_body : option Part;
}.

Definition new_resource (head : SignedHead) (sigsf bodyf : option (list byte)) (range : option (Z * Z)) : resource :=
  {| r_head := head; r_sigsf := sigsf; r_bodyf := (fun b => (b, 0)) <$> bodyf; r_range := range;
     r_data_size := None; r_block_size := None; r_is_head_done := false; r_is_body_done := false; r_is_done := false;
     r_is_open := true; r_block_offset := 0; r_next_chunk_exts := []; r_next_chunk_body := None |}.

Definition read_signed_head (file : list byte) : res SignedHead :=
  match parse_head file with
  | None => Fail no_message
  | Some rsh =>
      match create_from_trusted_source rsh with
      | Indeterminate => Fault
      | Value None => Fail no_message
      | Value (Some sh) => Ok sh
      end
  end.

(** The range aligned to blocks and clipped to the file. *)
Definition aligned_range (bs : Z) (bodyf : option (list byte * Z)) (range : Z * Z) : Z * Z :=
  let '(begin, end_) := range in
  let end_ := if 0 <? end_ then bs * ((end_ - 1) / bs + 1) else 0 in
  (bs * (begin / bs),
   match bodyf with
   | Some (data, _) => if size_of data <? end_ then size_of data else end_
   | None => 0
   end).

(** The head of a partial response. *)
Definition partial_head (range : Z * Z) (data_size : option Z) (h : response_header) : response_header :=
  let fs := set_field response_original_http_status (to_string (result h)) (rs_fields h) in
  let content_range := {| first := fst range; last := (snd range - 1) mod 2 ^ 64; length_ := data_size |} in
  {| result := 206; rs_version := rs_version h;
     rs_fields := set_field (str "Content-Range") (HttpResponseByteRange_print content_range) fs |}.

(** The head with which the body is sent; [None] stands for a failed assertion. *)
Definition chunked_head (h : response_header) : option response_header :=
  let empty n := bool_decide (field_value n (rs_fields h) = []) in
  let? h := if negb (empty (str "Content-Length") && empty (str "Transfer-Encoding") && empty (str "Trailer"))
            then http_injection_merge h [] else Some h in
  Some (set_rs_fields h (set_field (str "Transfer-Encoding") (str "chunked") (rs_fields h))).

(** [prepare_head], which moves the head out of the reader. *)
Definition prepare_head (r : resource) : res (response_header * resource) :=
  let h := sh_head (r_head r) in
  if bool_decide (field_value response_uri_hdr (rs_fields h) = []) then Fail bad_descriptor
  else
    let bs := sh_block_size (r_head r) in
    let data_size := match fst (number_of_view W8 (field_view (field_value response_data_size_hdr (rs_fields h)))) with
                     | Some n => Some n
                     | None => r_data_size r
                     end in
    let range := aligned_range bs (r_bodyf r) <$> r_range r in
    let h := match range with Some rg => partial_head rg data_size h | None => h end in
    match chunked_head h with
    | None => Fault
    | Some h =>
        Ok (h, {| r_head := r_head r; r_sigsf := r_sigsf r; r_bodyf := r_bodyf r; r_range := range;
                  r_data_size := data_size; r_block_size := Some bs; r_is_head_done := r_is_head_done r;
                  r_is_body_done := r_is_body_done r; r_is_done := r_is_done r; r_is_open := r_is_open r;
                  r_block_offset := r_block_offset r; r_next_chunk_exts := r_next_chunk_exts r;
                  r_next_chunk_body := r_next_chunk_body r |})
    end.

(** [get_sig_entry] *)
Definition get_sig_entry (sigsf : option (list byte)) : res (option SigEntry * option (list byte)) :=
  match sigsf with
  | None => Ok (None, None)
  | Some s => match SigEntry_parse s with
              | Ok (e, s) => Ok (e, Some s)
              | Fail e => Fail e
              | Fault => Fault
              end
  end.

Fixpoint skip_sig_entries (n : nat) (sigsf : option (list byte)) : res (option (list byte)) :=
  match n with
  | O => Ok sigsf
  | S n' => match get_sig_entry sigsf with
            | Ok (_, sigsf) => skip_sig_entries n' sigsf
            | Fail e => Fail e
            | Fault => Fault
            end
  end.

Definition set_reading (sigsf : option (list byte)) (bodyf : option (list byte * Z)) (offset : Z) (r : resource) : resource :=
  {| r_head := r_head r; r_sigsf := sigsf; r_bodyf := bodyf; r_range := r_range r; r_data_size := r_data_size r;
     r_block_size := r_block_size r; r_is_head_done := true; r_is_body_done := r_is_body_done r;
     r_is_done := r_is_done r; r_is_open := r_is_open r; r_block_offset := offset;
     r_next_chunk_exts := r_next_chunk_exts r; r_next_chunk_body := r_next_chunk_body r |}.

(** [seek_to_range_begin]; the head is done from here on. *)
Definition seek_to_range_begin (r : resource) : res resource :=
  let stay := Ok (set_reading (r_sigsf r) (r_bodyf r) (r_block_offset r) r) in
  match r_range r with
  | None => stay
  | Some (begin, end_) =>
      if end_ =? 0 then stay
      else
        match r_bodyf r, r_block_size r with
        | Some (data, _), Some bs =>
            match skip_sig_entries (Z.to_nat (begin / bs)) (r_sigsf r) with
            | Ok sigsf => Ok (set_reading sigsf (Some (data, begin)) begin r)
            | Fail e => Fail e
            | Fault => Fault
            end
        | _, _ => Fault
        end
  end.

(** [get_chunk_body]: up to a block of data from the position on. *)
Definition get_chunk_body (bs : option Z) (bodyf : option (list byte * Z)) : option (list byte * option (list byte * Z)) :=
  match bodyf with
  | None => Some ([], None)
  | Some (data, pos) =>
      let? bs := bs in
      let block := take (Z.to_nat bs) (drop (Z.to_nat pos) data) in
      Some (block, Some (data, pos + size_of block))
  end.

Definition set_chunks (sigsf : option (list byte)) (bodyf : option (list byte * Z)) (offset : Z) (exts : list byte)
    (next : option Part) (r : resource) : resource :=
  {| r_head := r_head r; r_sigsf := sigsf; r_bodyf := bodyf; r_range := r_range r; r_data_size := r_data_size r;
     r_block_size := r_block_size r; r_is_head_done := r_is_head_done r; r_is_body_done := r_is_body_done r;
     r_is_done := r_is_done r; r_is_open := r_is_open r; r_block_offset := offset; r_next_chunk_exts := exts;
     r_next_chunk_body := next |}.

(** [get_chunk_part] *)
Definition get_chunk_part (r : resource) : res (option Part * resource) :=
  match r_next_chunk_body r with
  | Some p => Ok (Some p, set_chunks (r_sigsf r) (r_bodyf r) (r_block_offset r) (r_next_chunk_exts r) None r)
  | None =>
      match get_sig_entry (r_sigsf r) with
      | Fail e => Fail e
      | Fault => Fault
      | Ok (sig_entry, sigsf) =>
          let exts := r_next_chunk_exts r in
          if bool_decide (sig_entry = None) && bool_decide (exts = []) then
            match r_data_size r with
            | None => Fail connection_aborted
            | Some _ => Ok (None, set_chunks sigsf (r_bodyf r) (r_block_offset r) exts None r)
            end
          else
            match get_chunk_body (r_block_size r) (r_bodyf r) with
            | None => Fault
            | Some (chunk_body, bodyf) =>
                if match sig_entry with Some e => negb (e_offset e =? r_block_offset r) | None => false end then Fail bad_message
                else
                  let block_offset := size_add (r_block_offset r) (size_of chunk_body) in
                  let '(sigsf, bodyf) :=
                    match r_range r with
                    | Some (_, end_) => if end_ <=? block_offset then (None, None) else (sigsf, bodyf)
                    | None => (sigsf, bodyf)
                    end in
                  match sig_entry with
                  | Some e =>
                      if bool_decide (chunk_body = []) && bool_decide (exts = [])
                      then Ok (Some (ChunkHdr 0 (chunk_exts e)), set_chunks sigsf bodyf block_offset exts None r)
                      else Ok (Some (ChunkHdr (size_of chunk_body) exts),
                               set_chunks sigsf bodyf block_offset (chunk_exts e)
                                 (if bool_decide (chunk_body = []) then None else Some (ChunkBody chunk_body 0)) r)
                  | None => Ok (Some (ChunkHdr (size_of chunk_body) exts), set_chunks sigsf bodyf block_offset [] None r)
                  end
            end
      end
  end.

Definition is_last_hdr (p : Part) : option bool := match p with ChunkHdr size _ => Some (size =? 0) | _ => None end.

(** [async_read_part] *)
Definition resource_read (r : resource) : res (option Part * resource) :=
  if negb (r_is_open r) || r_is_done r then Ok (None, r)
  else if negb (r_is_head_done r) then
    match prepare_head r with
    | Fail e => Fail e
    | Fault => Fault
    | Ok (h, r) => match seek_to_range_begin r with
                   | Ok r => Ok (Some (HeadPart h), r)
                   | Fail e => Fail e
                   | Fault => Fault
                   end
    end
  else if negb (r_is_body_done r) then
    match get_chunk_part r with
    | Fail e => Fail e
    | Fault => Fault
    | Ok (None, r) => Ok (None, r)
    | Ok (Some p, r) =>
        Ok (Some p,
            {| r_head := r_head r; r_sigsf := r_sigsf r; r_bodyf := r_bodyf r; r_range := r_range r;
               r_data_size := r_data_size r; r_block_size := r_block_size r; r_is_head_done := r_is_head_done r;
               r_is_body_done := match is_last_hdr p with Some b => b | None => r_is_body_done r end;
               r_is_done := r_is_done r; r_is_open := r_is_open r; r_block_offset := r_block_offset r;
               r_next_chunk_exts := r_next_chunk_exts r; r_next_chunk_body := r_next_chunk_body r |})
    end
  else
    Ok (Some (Trailer []),
        {| r_head := r_head r; r_sigsf := None; r_bodyf := None; r_range := r_range r; r_data_size := r_data_size r;
           r_block_size := r_block_size r; r_is_head_done := true; r_is_body_done := true; r_is_done := true;
           r_is_open := false; r_block_offset := r_block_offset r; r_next_chunk_exts := r_next_chunk_exts r;
           r_next_chunk_body := r_next_chunk_body r |}).

(** ** The store *)

(** [_http_store_reader] without a content directory; [range] is the first and the
    last byte that are asked for. *)
Definition http_store_reader (files : stored) (range : option (Z * Z)) : res resource :=
  match head_file files with
  | None => Fail no_such_file
  | Some headf =>
      match read_signed_head headf with
      | Fail e => Fail e
      | Fault => Fault
      | Ok head =>
          match range with
          | None => Ok (new_resource head (sigs_file files) (body_file files) None)
          | Some (range_first, range_last) =>
              let begin := range_first in
              let end_ := size_add range_last 1 in
              if end_ <? begin then Fail invalid_seek
              else
                match body_file files with
                | None => Ok (new_resource head (sigs_file files) (body_file files) (Some (0, 0)))
                | Some body =>
                    if (0 <? begin) && (size_of body <=? begin) then Fail invalid_seek
                    else Ok (new_resource head (sigs_file files) (body_file files)
                               (Some (begin, Z.min end_ (size_of body))))
                end
          end
      end
  end.

(** [_http_store_body_size] *)
Definition http_store_body_size (files : stored) : res Z :=
  match head_file files with
  | None => Fail no_such_file
  | Some _ => match body_file files with Some body => Ok (size_of body) | None => Fail no_data end
  end.

(** The loop of [http_store_load_hash_list]; it ends with the file. *)
Fixpoint load_blocks (fuel : nat) (sigs : list byte) : res (list Block) :=
  match fuel with
  | O => Fault
  | S fuel' =>
      match SigEntry_parse sigs with
      | Fail e => Fail e
      | Fault => Fault
      | Ok (None, _) => Ok []
      | Ok (Some e, sigs) =>
          match base64_decode Digest_size (e_block_digest e), base64_decode Signature_size (e_signature e) with
          | Some d, Some sig =>
              match load_blocks fuel' sigs with
              | Ok bs => Ok ({| data_hash := d; chained_hash_signature := sig |} :: bs)
              | Fail e => Fail e
              | Fault => Fault
              end
          | _, _ => Fail bad_descriptor
          end
      end
  end.

Definition http_store_load_hash_list (files : stored) : res HashList :=
  match head_file files, sigs_file files with
  | Some headf, Some sigsf =>
      match read_signed_head headf with
      | Fail e => Fail e
      | Fault => Fault
      | Ok head =>
          match load_blocks (S (length sigsf)) sigsf with
          | Fail e => Fail e
          | Fault => Fault
          | Ok [] => Fail not_found
          | Ok bs => Ok {| block_size := sh_block_size head; list_public_key := sh_public_key head;
                           HashList.injection_id := sh_injection_id head; blocks := bs |}
          end
      end
  | _, _ => Fail no_such_file
  end.

(** [path_from_resource_id]: the two parts of the hexadecimal digest. *)
Abbreviation path := (list byte * list byte)%type.
Definition path_from_resource_id (hex_digest : list byte) : path := (take 2 hex_digest, drop 2 hex_digest).

(** [FullHttpStore]: the directories.  A response is written to a temporary directory; the
    old entry is removed, and then the temporary directory is renamed.  What can fail on the
    way: creating the directories or writing to them, the removal of the old entry, which
    can leave some of its files, and the renaming, when the old entry is gone. *)
Abbreviation http_stores := (gmap (list byte * list byte) stored).

Record store_faults := {
  sf_write : option errc;
  sf_remove : option (errc * stored);
  sf_commit : option errc;
}.

Definition no_faults : store_faults := {| sf_write := None; sf_remove := None; sf_commit := None |}.

Definition replace_entry (sf : store_faults) (p : path) (files : stored) (st : http_stores) : http_stores * option errc :=
  match st !! p, sf_remove sf with
  | Some _, Some (e, remains) => (<[p := remains]> st, Some e)
  | _, _ =>
      let st := delete p st in
      match sf_commit sf with
      | Some e => (st, Some e)
      | None => (<[p := files]> st, None)
      end
  end.

(** [FullHttpStore::store]; [None] is a fault. *)
Definition store_response (sf : store_faults) (resource_id : list byte) (inp : input) (st : http_stores)
    : option (http_stores * option errc) :=
  match sf_write sf with
  | Some e => Some (st, Some e)
  | None =>
      match http_store inp writer_init with
      | Fault => None
      | Fail e => Some (st, Some e)
      | Ok files => Some (replace_entry sf (path_from_resource_id resource_id) files st)
      end
  end.

Definition lookup_files (resource_id : list byte) (st : http_stores) : stored :=
  default no_files (st !! path_from_resource_id resource_id).

Definition store_reader (resource_id : list byte) (range : option (Z * Z)) (st : http_stores) : res resource :=
  http_store_reader (lookup_files resource_id st) range.

(** [reader_and_size] *)
Definition store_reader_and_size (resource_id : list byte) (st : http_stores) : res (resource * Z) :=
  match store_reader resource_id None st with
  | Fail e => Fail e
  | Fault => Fault
  | Ok r => match http_store_body_size (lookup_files resource_id st) with
            | Ok n => Ok (r, n)
            | Fail e => Fail e
            | Fault => Fault
            end
  end.

Definition store_body_size (resource_id : list byte) (st : http_stores) : res Z :=
  http_store_body_size (lookup_files resource_id st).

Definition store_load_hash_list (resource_id : list byte) (st : http_stores) : res HashList :=
  http_store_load_hash_list (lookup_files resource_id st).

(** [recursive_dir_size]: the regular files of all directories. *)
Definition files_size (f : stored) : Z :=
  let size o := match o with Some s => size_of s | None => 0 end in
  size (head_file f) + size (body_file f) + size (sigs_file f).

Definition store_size (st : http_stores) : Z :=
  map_fold (fun _ f total => (total + files_size f) mod 2 ^ 64) 0 st.

(** The body of the loop of [for_each], for a directory with a valid name: whether it
    is kept.  [keep] gets the identifier and a reader. *)
Definition keep_entry (keep : list byte -> resource -> res bool) (p : path) (files : stored) : res bool :=
  match http_store_reader files None with
  | Fault => Fault
  | Fail _ => Ok false
  | Ok r => match keep (fst p ++ snd p) r with
            | Fault => Fault
            | Fail _ => Ok false
            | Ok b => Ok b
            end
  end.

Definition is_kept (b : res bool) : bool := match b with Ok b => b | _ => false end.

(** [for_each]; the order of the directories does not matter.  A removal that fails, which
    is only logged, leaves some of the files. *)
Definition for_each (remains : path -> option stored) (keep : list byte -> resource -> res bool) (st : http_stores) : res http_stores :=
  if existsb (fun pf => match keep_entry keep (fst pf) (snd pf) with Fault => true | _ => false end) (map_to_list st)
  then Fault
  else Ok (map_imap (fun p files => if is_kept (keep_entry keep p files) then Some files else remains p) st).

(** [BackedHttpStore]: what fails in the store is tried in the fallback. *)
Definition backed {A : Type} (get : http_stores -> res A) (st fallback : http_stores) : res A :=
  match get st with
  | Ok a => Ok a
  | Fault => Fault
  | Fail _ => get fallback
  end.

(** The size is that of both. *)
Definition backed_size (st fallback : http_stores) : Z := (store_size st + store_size fallback) mod 2 ^ 64.

End Code.
