(* ===== verification/StoredBody.v ===== *)
(** * What the store keeps: theorems about src/cache/http_store.cpp

    Lines of signatures are read back as they were written; a response that was
    stored is read back with the same blocks and signatures. *)
From S2P Require Import Prelude Number SplitString Url Http Request Crypto Bytes HashList HttpSign Base64 SignedHead BlockSign SignedBody HttpStore.

(** ** Lines of signatures *)

Fixpoint hex_digits (n : nat) (z : Z) : list byte :=
  match n with O => [] | S n' => hex_digit (z / 16 ^ Z.of_nat n' mod 16) :: hex_digits n' z end.

Lemma hex16_digits z : hex16 z = hex_digits 16 z.
Proof. reflexivity. Qed.

Lemma hex_digit_lower v : 0 <= v < 16 -> is_lower_hex (hex_digit v) = true /\ hex_value (hex_digit v) = v.
Proof.
  intros Hv. assert (forall k, (k < 16)%nat -> is_lower_hex (hex_digit (Z.of_nat k)) = true /\ hex_value (hex_digit (Z.of_nat k)) = Z.of_nat k) as Hk.
  { intros k Hk. do 16 (destruct k as [|k]; [done|]). lia. }
  specialize (Hk (Z.to_nat v)). rewrite Z2Nat.id in Hk by lia. apply Hk. lia.
Qed.

Lemma parse_hex_digits n z : forall acc,
  foldl (fun offset c => (Z.shiftl offset 4 mod 2 ^ 64 + hex_value c) mod 2 ^ 64) acc (hex_digits n z) mod 2 ^ 64 =
  (acc * 16 ^ Z.of_nat n + z mod 16 ^ Z.of_nat n) mod 2 ^ 64.
Proof.
  induction n as [|n IH]; intros acc.
  - cbn [hex_digits foldl]. f_equal. rewrite Z.pow_0_r, Z.mod_1_r. lia.
  - cbn [hex_digits foldl]. rewrite IH.
    pose proof (Z.mod_pos_bound (z / 16 ^ Z.of_nat n) 16 ltac:(lia)) as Hd.
    destruct (hex_digit_lower _ Hd) as [_ ->]. rewrite Z.shiftl_mul_pow2 by lia. change (2 ^ 4) with 16.
    rewrite Z.add_mod_idemp_l by lia.
    rewrite <-(Z.add_mod_idemp_l (_ * _)), Z.mul_mod_idemp_l, Z.add_mod_idemp_l by lia. f_equal.
    rewrite (Nat2Z.inj_succ n), Z.pow_succ_r by lia.
    rewrite (Z.mul_comm 16 (16 ^ _)) at 1 2. rewrite (Z.rem_mul_r z (16 ^ Z.of_nat n) 16) by lia.
    ring.
Qed.

Lemma parse_hex16 z : 0 <= z < 2 ^ 64 -> parse_data_block_offset (hex16 z) = z.
Proof.
  intros Hz. unfold parse_data_block_offset. pose proof (parse_hex_digits 16 z 0) as E. rewrite <-hex16_digits in E.
  change (16 ^ Z.of_nat 16) with (2 ^ 64) in E. rewrite Z.mul_0_l, Z.add_0_l, Z.mod_mod, (Z.mod_small z) in E by lia.
  rewrite Z.mod_small in E; [done|]. rewrite hex16_digits. cbn [hex_digits foldl]. apply Z.mod_pos_bound. lia.
Qed.

Lemma hex16_lower z : forallb is_lower_hex (hex16 z) = true /\ length (hex16 z) = 16%nat.
Proof.
  split; [|done]. rewrite hex16_digits. generalize 16%nat. induction n as [|n IH]; [done|]. cbn [hex_digits forallb].
  rewrite IH, andb_true_r. apply hex_digit_lower, Z.mod_pos_bound. lia.
Qed.

Lemma take_group_app n p a b : length a = n -> forallb p a = true -> take_group n p (a ++ b) = Some (a, b).
Proof.
  intros <- Hp. unfold take_group. rewrite length_app. destruct (Nat.ltb_spec (length a + length b) (length a)); [lia|].
  by rewrite take_app_length, drop_app_length, Hp.
Qed.

Section Lines.
Context {B : Base64} {BL : Base64Laws B} {BS : Base64Size B}.

Definition is_field (s : list byte) : Prop := length s = 88%nat /\ forallb is_base64_char s = true.

Lemma encoded_field x : length x = 64%nat -> is_field (base64_encode x).
Proof. intros Hx. split; [by rewrite base64_length, Hx|apply base64_text]. Qed.

Lemma decode_encoded n x : length x = n -> base64_decode n (base64_encode x) = Some x.
Proof. intros <-. apply base64_decode_encode. Qed.

Lemma field_nonempty s : is_field s -> s <> [].
Proof. by intros [H _] ->. Qed.

Lemma field_plain s c : is_field s -> is_base64_char c = false -> c ∉ s.
Proof. intros [_ Hs] Hc Hin%list_elem_of_In. rewrite forallb_forall in Hs. apply Hs in Hin. congruence. Qed.

(** An entry that fits a line. *)
Definition line_entry (e : SigEntry) : Prop :=
  0 <= e_offset e < 2 ^ 64 /\ is_field (e_signature e) /\ is_field (e_block_digest e) /\
  (e_prev_chained_digest e = [] \/ is_field (e_prev_chained_digest e) /\ e_prev_chained_digest e <> pad_digest).

Lemma match_printed_line o s d p :
  length o = 16%nat -> forallb is_lower_hex o = true -> is_field s -> is_field d -> is_field p ->
  match_line (o ++ str " " ++ s ++ str " " ++ d ++ str " " ++ p) = Some (o, s, d, p).
Proof.
  intros Ho1 Ho2 [Hs1 Hs2] [Hd1 Hd2] [Hp1 Hp2]. unfold match_line. rewrite take_group_app by done. cbn [str app take_space].
  change (str " ") with [" "%byte]. cbn [app take_space].
  rewrite (take_group_app 88 is_base64_char s) by done. cbn [app take_space].
  rewrite (take_group_app 88 is_base64_char d) by done. cbn [app take_space].
  rewrite <-(app_nil_r p) at 1. rewrite (take_group_app 88 is_base64_char p) by done. by rewrite bool_decide_true.
Qed.

(** A line of signatures is read back as it was written, whatever follows it. *)
Lemma sig_entry_read (e : SigEntry) (rest : list byte) :
  line_entry e -> SigEntry_parse (SigEntry_str e ++ rest) = Ok (Some e, rest).
Proof.
  intros (Ho & Hs & Hd & Hp). unfold SigEntry_parse.
  set (p := if bool_decide (e_prev_chained_digest e = []) then pad_digest else e_prev_chained_digest e).
  assert (is_field p) as Hf.
  { unfold p. case_bool_decide; [by apply encoded_field|]. by destruct Hp as [?|[? _]]. }
  destruct (hex16_lower (e_offset e)) as [Hx1 Hx2].
  set (line := hex16 (e_offset e) ++ str " " ++ e_signature e ++ str " " ++ e_block_digest e ++ str " " ++ p).
  assert (SigEntry_str e ++ rest = line ++ newline_char :: rest) as ->.
  { unfold SigEntry_str, line. fold p. by rewrite <-!app_assoc. }
  rewrite find_char_app.
  2: { unfold line. rewrite !elem_of_app. intros [Hin|[Hin|[Hin|[Hin|[Hin|[Hin|Hin]]]]]];
         try (by apply list_elem_of_singleton in Hin); try (by eapply field_plain; [..|exact Hin]).
       apply list_elem_of_In in Hin. rewrite forallb_forall in Hx1. by apply Hx1 in Hin. }
  assert (match_line line = Some (hex16 (e_offset e), e_signature e, e_block_digest e, p)) as Hm by (by apply match_printed_line).
  rewrite take_app_length, Hm, parse_hex16 by done.
  rewrite drop_app_ge by lia. replace (S (length line) - length line)%nat with 1%nat by lia. cbn [drop].
  destruct e as [o s d q]. cbn [e_offset e_signature e_block_digest e_prev_chained_digest] in *. subst p.
  do 4 f_equal. case_bool_decide as E1; case_bool_decide as E2; subst; try done. by destruct Hp as [?|[_ ?]].
Qed.

End Lines.

(** ** Blocks in the store *)

Lemma find_sub_prefix p x : find_sub p (p ++ x) = Some 0%nat.
Proof.
  destruct (p ++ x) as [|c s] eqn:E; cbn [find_sub]; rewrite <-E, take_app_length, bool_decide_true by done; done.
Qed.

Section Blocks.
Context {S : SignatureScheme} {B : Base64} {BL : Base64Laws B} {BS : Base64Size B} {T : TransferCoding}.
Variable sha512 : list byte -> list byte.
Hypothesis sha512_size : forall x, length (sha512 x) = Digest_size.

(** The parts of a body: the signature of a block, with the chain hash of the block
    before it, comes with the header of the next one. *)
Abbreviation sent_ext := (ext_of hashed_ext).
Abbreviation next_hasher := (hasher_of sha512).
Abbreviation body_chunks := (chunk_list sha512 hashed_ext).
Abbreviation body_parts := (chain_parts sha512 hashed_ext).

Definition encoded_digest (h : ChainHasher) : list byte :=
  match _prev_chained_digest h with Some d => base64_encode d | None => [] end.

Definition entry_of (h : ChainHasher) (off : Z) (b : list byte * list byte) : SigEntry :=
  {| e_offset := off; e_signature := base64_encode (snd b); e_block_digest := base64_encode (sha512 (fst b));
     e_prev_chained_digest := encoded_digest h |}.

(** The lines for the blocks from number [n] on. *)
Fixpoint entries (bs : Z) (h : ChainHasher) (n : Z) (l : list (list byte * list byte)) : list SigEntry :=
  match l with
  | [] => []
  | b :: l' => entry_of h (n * bs) b :: entries bs (snd (chain_step sha512 h b)) (n + 1) l'
  end.

Definition sigs_text (bs : Z) (h : ChainHasher) (n : Z) (l : list (list byte * list byte)) : list byte :=
  concat (map SigEntry_str (entries bs h n l)).

(** No chain hash is the one that stands for none. *)
Fixpoint no_zero_hash (h : ChainHasher) (l : list (list byte * list byte)) : Prop :=
  match l with
  | [] => True
  | b :: l' => _prev_chained_digest h <> Some zero_digest /\ no_zero_hash (snd (chain_step sha512 h b)) l'
  end.

Definition hasher_ok (h : ChainHasher) : Prop :=
  match _prev_chained_digest h with Some d => length d = Digest_size | None => True end.

Lemma step_ok h b : hasher_ok (snd (chain_step sha512 h b)).
Proof. apply sha512_size. Qed.

Lemma entry_line h off b :
  hasher_ok h -> length (snd b) = Signature_size -> 0 <= off < 2 ^ 64 -> _prev_chained_digest h <> Some zero_digest ->
  line_entry (entry_of h off b).
Proof.
  intros Hh Hb Ho Hz. split_and!; cbn [entry_of e_offset e_signature e_block_digest e_prev_chained_digest]; try lia.
  - by apply encoded_field.
  - apply encoded_field, sha512_size.
  - unfold encoded_digest, hasher_ok in *. destruct (_prev_chained_digest h) as [d|]; [right|by left].
    split; [by apply encoded_field|]. unfold pad_digest. intros E. apply Hz. f_equal.
    apply (f_equal (base64_decode Digest_size)) in E. rewrite <-Hh in E at 1.
    change Digest_size with (length zero_digest) in E at 1. rewrite !base64_decode_encode in E. by injection E.
Qed.

Lemma entry_exts h off b :
  hasher_ok h -> length (snd b) = Signature_size -> chunk_exts (entry_of h off b) = sent_ext h (Some b).
Proof.
  intros Hh Hb. unfold chunk_exts, ext_of, hashed_ext, block_chunk_ext. cbn [entry_of e_signature e_prev_chained_digest].
  rewrite bool_decide_false by (apply base64_nonempty; intros E; by rewrite E in Hb).
  unfold encoded_digest, hasher_ok in *. destruct (_prev_chained_digest h) as [d|]; [|by rewrite bool_decide_true].
  rewrite bool_decide_false; [done|]. apply base64_nonempty. intros ->. done.
Qed.

Lemma stored_sig_ext h b : length (snd b) = Signature_size ->
  stored_sig_from_exts (sent_ext h (Some b)) = Some (base64_encode (snd b)).
Proof.
  intros Hb. unfold stored_sig_from_exts, ext_of, hashed_ext, block_chunk_ext.
  set (pfx := str ";" ++ response_block_signature_ext ++ str "=" ++ [quote]).
  set (tl := match _prev_chained_digest h with Some d => _ | None => _ end).
  assert (extension response_block_signature_ext (base64_encode (snd b)) ++ tl = pfx ++ (base64_encode (snd b) ++ quote :: tl)) as ->.
  { unfold extension, quoted, pfx. by rewrite <-!app_assoc. }
  assert (forall x, find_sub pfx (pfx ++ x) = Some 0%nat) as ->.
  { intros x. apply find_sub_prefix. }
  cbn [Nat.add]. rewrite drop_app_length. rewrite bool_decide_false by (by destruct (base64_encode (snd b))).
  rewrite find_char_app; [by rewrite take_app_length|].
  intros Hin%list_elem_of_In. pose proof (base64_text (snd b)) as Ht. rewrite forallb_forall in Ht. by apply Ht in Hin.
Qed.

(** *** Writing *)

Context {C : HeadCodec}.

(** The state of the writer: [n] blocks are recorded with the hasher [h] behind them,
    the data of the next block, and all data and lines so far. *)
Record written (bs n : Z) (h : ChainHasher) (block body sigs : list byte) (hd : response_header) (w : writer) : Prop := {
  wr_head : w_head w = hd;
  wr_file : head_file (w_files w) = Some (print_head hd);
  wr_size : w_block_size w = Some bs;
  wr_bytes : w_byte_count w = size_of body;
  wr_count : w_block_count w = n;
  wr_block : w_block_hash w = block;
  wr_digest : _prev_chained_digest (w_chain_hasher w) = _prev_chained_digest h;
  wr_signature : _prev_chained_signature (w_chain_hasher w) = _prev_chained_signature h;
  wr_body : body_file (w_files w) = Some body \/ body_file (w_files w) = None /\ body = [];
  wr_sigs : default [] (sigs_file (w_files w)) = sigs;
}.

Lemma write_pieces pieces : forall bs n h block body sigs hd w rest,
  written bs n h block body sigs hd w -> size_of (body ++ concat (map fst pieces)) < 2 ^ 64 ->
  exists w', written bs n h (block ++ concat (map fst pieces)) (body ++ concat (map fst pieces)) sigs hd w' /\
    sigs_file (w_files w') = sigs_file (w_files w) /\
    http_store sha512 (map inr (map (fun x => ChunkBody (fst x) (snd x)) pieces) ++ rest) w = http_store sha512 rest w'.
Proof.
  induction pieces as [|[x r] pieces IH]; intros bs n h block body sigs hd w rest Hw Hs; cbn [map concat fst app] in *.
  { rewrite !app_nil_r. by exists w. }
  rewrite app_assoc in Hs |- *. rewrite (app_assoc body). cbn [http_store write_part snd].
  destruct Hw as [W1 W2 W3 W4 W5 W6 W7 W8 W9 W10].
  unfold write_body. match goal with |- context [http_store _ (map inr (map _ pieces) ++ rest) ?s] => set (w1 := s) end.
  destruct (IH bs n h (block ++ x) (body ++ x) sigs hd w1 rest) as (w' & Hw' & Hsf & Hr); [|exact Hs|by exists w'].
  split; cbn; try done.
  - rewrite W4. unfold size_add. rewrite <-size_of_app. apply Z.mod_small. rewrite (size_of_app (body ++ x)) in Hs.
    pose proof (size_of_nonneg (concat (map fst pieces))). pose proof (size_of_nonneg (body ++ x)). lia.
  - by rewrite W6.
  - left. by destruct W9 as [->|[-> ->]].
Qed.

(** A header: the block before it, if any, is recorded. *)
Lemma write_header size bs n h (pend : option (list byte * list byte)) body sigs hd w :
  written bs n h (default [] (fst <$> pend)) body sigs hd w -> 0 < bs -> 0 <= n -> n + 1 < 2 ^ 32 -> (n + 1) * bs < 2 ^ 64 ->
  signed_blocks (option_list pend) ->
  (0 < size -> pend <> None -> size_of body = (n + 1) * bs) ->
  exists w', write_chunk_hdr sha512 size (sent_ext h pend) w = Ok w' /\ is_Some (sigs_file (w_files w')) /\
    written bs (n + Z.of_nat (length (option_list pend))) (next_hasher h pend) [] body (sigs ++ sigs_text bs h n (option_list pend)) hd w'.
Proof.
  intros [W1 W2 W3 W4 W5 W6 W7 W8 W9 W10] Hbs Hn Hc Hm Hsig Hfull. unfold write_chunk_hdr.
  destruct pend as [b|]; cbn [option_list option_rect fmap option_fmap option_map default from_option Datatypes.id] in *.
  2: { eexists. split; [done|]. split; [done|]. unfold sigs_text. cbn [entries map concat ext_of]. rewrite app_nil_r.
       split; cbn; try done; [lia|by rewrite app_nil_r]. }
  apply Forall_cons in Hsig as [Hb _]. rewrite stored_sig_ext by done.
  rewrite bool_decide_false by (apply base64_nonempty; intros E; by rewrite E in Hb).
  rewrite <-Hb, base64_decode_encode. cbn [set_files w_block_size w_block_count w_byte_count w_block_hash w_chain_hasher w_head w_files].
  rewrite W3, W5, W6, W7, W4. rewrite (Z.mod_small (n + 1)) by lia. rewrite (Z.mod_small ((n + 1) * bs)), (Z.mod_small (n * bs)) by nia.
  assert ((0 <? size) && negb (size_of body =? (n + 1) * bs) = false) as ->.
  { destruct (Z.ltb_spec 0 size); [|done]. cbn [andb]. rewrite Hfull by done. by rewrite Z.eqb_refl. }
  eexists. split; [reflexivity|]. split; [done|].
  split; cbn; try done.
  - unfold chain_input. by rewrite W7, W8.
  - unfold sigs_text. cbn [entries map concat]. rewrite !app_nil_r, W10. done.
Qed.

Lemma write_chunks bs hd rest l : forall n h (pend : option (list byte * list byte)) body sigs w qs,
  written bs n h (default [] (fst <$> pend)) body sigs hd w -> 0 < bs -> 0 <= n ->
  n + Z.of_nat (length (option_list pend ++ l)) < 2 ^ 32 -> (n + Z.of_nat (length (option_list pend ++ l))) * bs < 2 ^ 64 ->
  signed_blocks (option_list pend ++ l) -> full_blocks fst bs (option_list pend ++ l) ->
  size_of body = n * bs + size_of (default [] (fst <$> pend)) ->
  size_of (body ++ concat (map fst l)) < 2 ^ 64 ->
  (option_list pend ++ l <> []) -> transported (body_chunks h pend l) qs ->
  exists w', http_store sha512 (map inr qs ++ rest) w = http_store sha512 rest w' /\
    written bs (n + Z.of_nat (length (option_list pend ++ l))) (hasher_after sha512 h (option_list pend ++ l)) []
      (body ++ concat (map fst l)) (sigs ++ sigs_text bs h n (option_list pend ++ l)) hd w' /\ is_Some (sigs_file (w_files w')).
Proof.
  induction l as [|b l IH]; intros n h pend body sigs w qs Hw Hbs Hn Hc Hm Hsig Hfull Hbody Hsize Hne Ht; cbn [chunk_list] in Ht.
  - apply transported_part in Ht as (qs' & -> & Ht); [|done]. assert (qs' = []) as -> by (by inversion Ht).
    destruct pend as [b|]; [|done]. cbn [option_list option_rect app length] in *. cbn [map app http_store write_part]. change (Z.of_nat 1) with 1 in *.
    destruct (write_header 0 bs n h (Some b) body sigs hd w) as (w' & Hr & Hs & Hw'); [done|done|done|lia|lia|done|lia|].
    exists w'. rewrite Hr. split; [done|]. cbn [concat map]. rewrite app_nil_r. split; [|done].
    done.
  - apply transported_part in Ht as (qs1 & -> & (pieces & qs' & -> & Hcat & Ht)%transported_body); [|done].
    cbn [map app http_store write_part].
    destruct (write_header (size_of (fst b)) bs n h pend body sigs hd w) as (w1 & Hr & Hs1 & Hw1); [done|done|done| | | | |].
    { rewrite length_app in Hc. cbn [length] in Hc. lia. }
    { rewrite length_app in Hm. cbn [length] in Hm. nia. }
    { unfold signed_blocks in *. apply Forall_app in Hsig. apply Hsig. }
    { intros _ Hp. destruct pend as [p|]; [|done]. cbn in Hfull, Hbody. rewrite Hbody. lia. }
    rewrite Hr, map_app, <-app_assoc.
    destruct (write_pieces pieces bs _ _ _ _ _ _ w1 (map inr qs' ++ rest) Hw1) as (w2 & Hw2 & Hsf & Hr2).
    { rewrite Hcat. cbn [map concat] in Hsize. rewrite app_assoc, size_of_app in Hsize.
      pose proof (size_of_nonneg (concat (map fst l))). lia. }
    rewrite Hcat in Hw2. cbn [app] in Hw2. 
    destruct (IH (n + Z.of_nat (length (option_list pend))) (next_hasher h pend) (Some b) (body ++ fst b) (sigs ++ sigs_text bs h n (option_list pend)) w2 qs')
      as (w' & Hr' & Hw' & Hs'); [done|done| | | | | | | |done|done|].
    { lia. }
    { rewrite length_app in Hc. cbn [length option_list option_rect app] in Hc |- *. lia. }
    { rewrite length_app in Hm. cbn [length option_list option_rect app] in Hm |- *. nia. }
    { unfold signed_blocks in *. apply Forall_app in Hsig. apply Hsig. }
    { destruct pend; [apply Hfull|done]. }
    { assert (size_of (default [] (fst <$> pend)) = Z.of_nat (length (option_list pend)) * bs) as Hp.
      { destruct pend as [p|]; [|done]. destruct Hfull as [Hf _]. change (size_of (fst p) = 1 * bs). lia. }
      rewrite size_of_app, Hbody, Hp. change (default [] (fst <$> Some b)) with (fst b). lia. }
    { cbn [map concat] in Hsize. by rewrite <-app_assoc. }
    exists w'. rewrite Hr2, Hr'. split; [done|]. split; [|done].
    rewrite <-!app_assoc in Hw'. destruct pend as [p|]; cbn [option_list option_rect app length map concat] in *.
    + replace (n + Z.of_nat (Datatypes.S (Datatypes.S (length l)))) with (n + Z.of_nat 1 + Z.of_nat (Datatypes.S (length l))) by lia.
      unfold sigs_text in *. cbn [entries map concat] in *. by rewrite app_nil_r in Hw'.
    + by rewrite Z.add_0_r in Hw'.
Qed.

(** *** Reading *)

Definition resource_reads (inp : input) (r : resource) : res (option Part * resource * input) :=
  match resource_read r with
  | Ok (p, r) => Ok (p, r, inp)
  | Fail e => Fail e
  | Fault => Fault
  end.

(** The reader before the header of block number [n], when the extensions of the
    block before it are known and [l] is still to be read; what is behind [l] in the
    files of a range is [more]. *)
Record at_block (bs n : Z) (h : ChainHasher) (ext : list byte) (l more : list (list byte * list byte)) (r : resource) : Prop := {
  ab_open : r_is_open r = true;
  ab_done : r_is_done r = false;
  ab_head : r_is_head_done r = true;
  ab_body : r_is_body_done r = false;
  ab_size : r_block_size r = Some bs;
  ab_next : r_next_chunk_body r = None;
  ab_exts : r_next_chunk_exts r = ext;
  ab_sigs : match l, r_range r with
            | [], Some _ => r_sigsf r = None
            | _, _ => r_sigsf r = Some (sigs_text bs h n (l ++ more))
            end;
  ab_data : match r_bodyf r with
            | Some (data, pos) => 0 <= pos /\ drop (Z.to_nat pos) data = concat (map fst (l ++ more))
            | None => l = []
            end;
  ab_range : match r_range r with
             | Some (_, e) => if l is nil then r_bodyf r = None
                              else (n + Z.of_nat (length l) - 1) * bs < e <= n * bs + size_of (concat (map fst l))
             | None => more = []
             end;
  ab_offset : l <> [] -> r_block_offset r = n * bs;
}.

(** The last header and what follows it. *)
Lemma read_last bs n h ext more r inp :
  at_block bs n h ext [] more r -> ext <> [] -> delivers resource_reads inp r [ChunkHdr 0 ext; Trailer []].
Proof.
  intros [A1 A2 A3 A4 A6 A7 A8 A9 A10 A5 A11] He.
  assert (exists sigsf bodyf, get_sig_entry (r_sigsf r) = Ok (None, sigsf) /\
            get_chunk_body (r_block_size r) (r_bodyf r) = Some ([], bodyf)) as (sigsf & bodyf & Hs & Hb).
  { destruct (r_range r) as [[b e]|].
    - rewrite A9, A5. by eexists _, _.
    - subst more. rewrite A9. cbn [app] in *. exists (Some []). unfold get_chunk_body.
      destruct (r_bodyf r) as [[data pos]|]; [|by eexists]. rewrite A6. destruct A10 as [_ ->].
      cbn [map concat]. rewrite take_nil. by eexists. }
  assert (exists sf bf off, get_chunk_part r = Ok (Some (ChunkHdr 0 ext), set_chunks sf bf off [] None r)) as (sf & bf & off & Hp).
  { unfold get_chunk_part. rewrite A7, Hs, A8, Hb. rewrite (bool_decide_false (ext = [])), andb_false_r by done.
    destruct (match r_range r with Some _ => _ | None => _ end). by eexists _, _, _. }
  eapply deliver_part.
  { unfold resource_reads, resource_read. rewrite A1, A2, A3, A4, Hp. cbn [negb orb]. reflexivity. }
  eapply deliver_part; [unfold resource_reads, resource_read; cbn; rewrite A1, A2, A3; reflexivity|].
  eapply deliver_end. unfold resource_reads, resource_read. cbn. reflexivity.
Qed.

Lemma full_blocks_cons bs (b : list byte * list byte) l :
  full_blocks fst bs (b :: l) -> size_of (fst b) <= bs /\ full_blocks fst bs l /\ (l <> [] -> size_of (fst b) = bs).
Proof. destruct l as [|c l]; [by intros Hf|]. intros [-> Hf]. split_and!; [lia|done|done]. Qed.

Lemma read_block bs n h ext b l more r inp :
  at_block bs n h ext (b :: l) more r -> 0 < bs -> 0 <= n -> n * bs + size_of (fst b) < 2 ^ 64 -> fst b <> [] ->
  full_blocks fst bs (b :: l ++ more) -> hasher_ok h -> length (snd b) = Signature_size -> _prev_chained_digest h <> Some zero_digest ->
  exists r', at_block bs (n + 1) (snd (chain_step sha512 h b)) (sent_ext h (Some b)) l more r' /\
    forall ps, delivers resource_reads inp r' ps ->
      delivers resource_reads inp r (ChunkHdr (size_of (fst b)) ext :: ChunkBody (fst b) 0 :: ps).
Proof.
  intros [A1 A2 A3 A4 A6 A7 A8 A9 A10 A5 A11] Hbs Hn Hs Hne Hfull Hh Hsig Hz. specialize (A11 ltac:(done)).
  pose proof (size_of_nonneg (fst b)) as Hpos. assert (0 <= n * bs) as Hnb by nia.
  destruct (r_bodyf r) as [[data pos]|] eqn:Eb; [|done]. destruct A10 as [Hp0 Hdrop]. cbn [app] in *.
  destruct (full_blocks_cons _ _ _ Hfull) as (Hle & _ & Heq).
  assert (take (Z.to_nat bs) (drop (Z.to_nat pos) data) = fst b) as Htake.
  { rewrite Hdrop. cbn [map concat]. destruct (l ++ more) as [|c l'] eqn:El.
    - cbn [map concat] in *. rewrite app_nil_r. apply take_ge. unfold size_of in Hle. lia.
    - rewrite <-Heq by done. unfold size_of. rewrite Nat2Z.id. apply take_app_length. }
  assert (SigEntry_parse (sigs_text bs h n (b :: l ++ more)) =
          Ok (Some (entry_of h (n * bs) b), sigs_text bs (snd (chain_step sha512 h b)) (n + 1) (l ++ more))) as Hparse.
  { unfold sigs_text. cbn [entries map concat]. apply sig_entry_read. apply entry_line; [done|done|lia|done]. }
  set (closed := match r_range r with Some (_, e) => e <=? n * bs + size_of (fst b) | None => false end).
  set (sigsf := if closed then None else Some (sigs_text bs (snd (chain_step sha512 h b)) (n + 1) (l ++ more))).
  set (bodyf := if closed then None else Some (data, pos + size_of (fst b))).
  assert (get_chunk_part r = Ok (Some (ChunkHdr (size_of (fst b)) ext),
            set_chunks sigsf bodyf (n * bs + size_of (fst b)) (sent_ext h (Some b)) (Some (ChunkBody (fst b) 0)) r)) as Hpart.
  { unfold get_chunk_part. rewrite A7. assert (r_sigsf r = Some (sigs_text bs h n (b :: l ++ more))) as -> by (by destruct (r_range r)).
    cbn [get_sig_entry]. rewrite Hparse, A8. rewrite bool_decide_false by done. cbn [andb].
    unfold get_chunk_body. rewrite A6, Eb, Htake, A11. cbn [entry_of e_offset]. rewrite Z.eqb_refl. cbn [negb].
    unfold size_add. rewrite Z.mod_small by lia. rewrite !(bool_decide_false (fst b = [])) by done. cbn [andb].
    rewrite entry_exts by done. unfold sigsf, bodyf, closed. destruct (r_range r) as [[rb re]|]; [|done].
    by destruct (re <=? n * bs + size_of (fst b)). }
  assert ((size_of (fst b) =? 0) = false) as Hsz by (apply Z.eqb_neq; unfold size_of; destruct (fst b); [done|cbn; lia]).
  assert (l <> [] -> size_of (fst b) = bs) as Hfullb by (intros Hl; apply Heq; by destruct l).
  assert (closed = match l, r_range r with [], Some _ => true | _, _ => false end) as Hclosed.
  { unfold closed. destruct (r_range r) as [[rb re]|]; [|by destruct l]. cbn [map concat length] in A5. rewrite size_of_app in A5.
    destruct l as [|c l]; [apply Z.leb_le; change (size_of []) with 0 in A5; cbn [map concat] in A5; change (size_of []) with 0 in A5; lia|].
    apply Z.leb_gt. rewrite Hfullb by done. cbn [length] in A5. nia. }
  exists {| r_head := r_head r; r_sigsf := sigsf; r_bodyf := bodyf; r_range := r_range r; r_data_size := r_data_size r;
            r_block_size := r_block_size r; r_is_head_done := r_is_head_done r; r_is_body_done := size_of (fst b) =? 0;
            r_is_done := r_is_done r; r_is_open := r_is_open r; r_block_offset := n * bs + size_of (fst b);
            r_next_chunk_exts := sent_ext h (Some b); r_next_chunk_body := None |}. split.
  - split; cbn [r_is_open r_is_done r_is_head_done r_is_body_done r_block_size r_next_chunk_body r_next_chunk_exts r_range r_sigsf r_bodyf r_block_offset]; try done.
    + unfold sigsf. rewrite Hclosed. by destruct l, (r_range r).
    + unfold bodyf. rewrite Hclosed.
      assert (0 <= pos + size_of (fst b) /\ drop (Z.to_nat (pos + size_of (fst b))) data = concat (map fst (l ++ more))) as Hrest.
      { split; [lia|]. rewrite Z2Nat.inj_add, <-drop_drop, Hdrop by lia. cbn [map concat]. unfold size_of. rewrite Nat2Z.id.
        apply drop_app_length. }
      by destruct l, (r_range r).
    + unfold bodyf. rewrite Hclosed. destruct (r_range r) as [[rb re]|]; [|done]. destruct l as [|c l]; [done|].
      cbn [map concat length] in A5. rewrite size_of_app, Hfullb in A5 by done. cbn [length map concat]. lia.
    + intros Hl. rewrite Hfullb by done. lia.
  - intros ps Hps. eapply deliver_part.
    + unfold resource_reads, resource_read. rewrite A1, A2, A3, A4, Hpart. cbn [negb orb]. reflexivity.
    + eapply deliver_part; [|exact Hps].
      unfold resource_reads, resource_read. cbn. rewrite A1, A2, A3, Hsz. reflexivity.
Qed.

(** The chunks of a chain of blocks are read back. *)
Lemma read_chunks bs more inp l : forall n h pend r,
  at_block bs (n + Z.of_nat (length (option_list pend))) (next_hasher h pend) (sent_ext h pend) l more r ->
  0 < bs -> 0 <= n -> (n + Z.of_nat (length (option_list pend ++ l))) * bs < 2 ^ 64 -> option_list pend ++ l <> [] ->
  signed_blocks (option_list pend ++ l) -> full_blocks fst bs (l ++ more) -> Forall (fun b => fst b <> []) l ->
  hasher_ok (next_hasher h pend) -> no_zero_hash (next_hasher h pend) l ->
  delivers resource_reads inp r (body_chunks h pend l ++ [Trailer []]).
Proof.
  induction l as [|b l IH]; intros n h pend r Hat Hbs Hn Hm Hne Hsig Hfull Hnil Hh Hz; cbn [chunk_list app].
  - eapply read_last; [exact Hat|]. destruct pend; [|done]. unfold ext_of, hashed_ext, block_chunk_ext, extension. done.
  - apply Forall_cons in Hnil as [Hb Hnil]. destruct Hz as [Hz0 Hz].
    assert (length (snd b) = Signature_size) as Hb2.
    { unfold signed_blocks in Hsig. rewrite Forall_app, Forall_cons in Hsig. apply Hsig. }
    destruct (full_blocks_cons _ _ _ Hfull) as (Hle & Hfull' & _).
    destruct (read_block bs _ _ _ b l more r inp Hat) as (r' & Hat' & Hdel); try done; [lia| |].
    { rewrite length_app in Hm. cbn [length] in Hm. nia. }
    apply Hdel. apply (IH (n + Z.of_nat (length (option_list pend)))); try done.
    + lia.
    + rewrite length_app in Hm. cbn [length option_list option_rect app] in Hm |- *. nia.
    + unfold signed_blocks in *. rewrite Forall_app in Hsig. apply Hsig.
    + apply step_ok.
Qed.

(** *** A whole response *)

(** A chain that fits a response with blocks of [bs] bytes. *)
Definition chain_ok (bs : Z) (c : list (list byte * list byte)) : Prop :=
  0 < bs /\ c <> [] /\ signed_blocks c /\ full_blocks fst bs c /\ no_zero_hash new_hasher c /\
  (Forall (fun b => fst b <> []) c \/ exists s, c = [([], s)]) /\
  Z.of_nat (length c) < 2 ^ 32 /\ Z.of_nat (length c) * bs < 2 ^ 64.

(** The head that is kept: without framing, and with the trailer merged in. *)
Definition kept_head (h : response_header) (t : fields) : option response_header :=
  if bool_decide (t = []) then Some (without_framing h) else http_injection_merge (without_framing h) t.

Lemma full_blocks_size bs (c : list (list byte * list byte)) : 0 < bs -> full_blocks fst bs c -> size_of (concat (map fst c)) <= Z.of_nat (length c) * bs.
Proof.
  intros Hbs. induction c as [|b c IH]; intros Hf; [done|]. cbn [map concat length]. rewrite size_of_app.
  assert (size_of (fst b) <= bs /\ full_blocks fst bs c) as [H1 H2] by (destruct c; [done|destruct Hf as [-> ?]; split; [lia|done]]).
  specialize (IH H2). lia.
Qed.

Lemma store_written bs h t hd bsp c qs :
  field_value response_uri_hdr (rs_fields h) <> [] -> field_value response_block_signatures_hdr (rs_fields h) <> [] ->
  BlockSigs_parse (field_view (field_value response_block_signatures_hdr (rs_fields h))) = Value (Some bsp) ->
  bs_size bsp = bs -> kept_head h t = Some hd -> chain_ok bs c -> transported (body_parts c) qs ->
  exists files, http_store sha512 (map inr (HeadPart h :: qs ++ [Trailer t])) writer_init = Ok files /\
    head_file files = Some (print_head hd) /\ sigs_file files = Some (sigs_text bs new_hasher 0 c) /\
    (body_file files = Some (concat (map fst c)) \/ body_file files = None /\ exists s, c = [([], s)]).
Proof.
  intros Hu Hb Hp Hs Hk (C1 & C2 & C3 & C4 & C5 & C6 & C7 & C8) Ht.
  cbn [map http_store write_part]. unfold write_head. cbn [writer_init no_files w_files head_file].
  rewrite bool_decide_false, bool_decide_false, Hp, Hs by done. change (http_injection_merge h []) with (Some (without_framing h)).
  cbv beta iota zeta. match goal with |- context [http_store _ (map inr _) ?s] => set (w1 := s) end.
  assert (forall pend : option (list byte * list byte), (pend = None \/ exists s, pend = Some ([], s)) ->
            written bs 0 new_hasher (default [] (fst <$> pend)) [] [] (without_framing h) w1) as Hw1.
  { intros pend Hpend. split; cbn; try done; [by destruct Hpend as [->|[s ->]]|by right]. }
  rewrite map_app. change (map inr [Trailer t]) with ([inr (Trailer t)] : input).
  assert (exists w2, http_store sha512 (map inr qs ++ [inr (Trailer t)]) w1 = http_store sha512 [inr (Trailer t)] w2 /\
            written bs (Z.of_nat (length c)) (hasher_after sha512 new_hasher c) [] (concat (map fst c)) (sigs_text bs new_hasher 0 c)
              (without_framing h) w2 /\ is_Some (sigs_file (w_files w2))) as (w2 & Hr & [W1 W2 W3 W4 W5 W6 W7 W8 W9 W10] & [sf Hsf]).
  { unfold chain_parts in Ht. pose proof (full_blocks_size bs c C1 C4) as Hz.
    destruct C6 as [Hall|[s ->]].
    - assert (transported (body_chunks new_hasher None c) qs) as Ht' by (destruct c as [|[[|] ] []]; try done; by apply Forall_cons in Hall as [? _]).
      apply (write_chunks bs (without_framing h) [inr (Trailer t)] c 0 new_hasher None [] [] w1 qs); try done; [by apply Hw1; left|cbn [app]; lia].
    - apply (write_chunks bs (without_framing h) [inr (Trailer t)] [] 0 new_hasher (Some ([], s)) [] [] w1 qs); try done.
      apply (Hw1 (Some ([], s))). right. by exists s. }
  rewrite Hr. cbn [http_store write_part]. unfold write_trailer, kept_head in *. rewrite W2.
  rewrite Hsf in W10. cbn [default from_option Datatypes.id] in W10.
  assert (body_file (w_files w2) = Some (concat (map fst c)) \/ body_file (w_files w2) = None /\ exists s, c = [([], s)]) as Hbody.
  { destruct W9 as [?|[? Hd]]; [by left|right]. split; [done|]. destruct C6 as [Hall|?]; [exfalso|done].
    destruct c as [|b c]; [done|]. apply Forall_cons in Hall as [Hall _]. cbn [map concat] in Hd. by apply app_eq_nil in Hd as [? _]. }
  case_bool_decide as Et.
  - injection Hk as <-. exists (w_files w2). rewrite Hsf, W10. done.
  - rewrite W1, Hk. eexists. split; [reflexivity|]. cbn [head_file sigs_file body_file]. by rewrite Hsf, W10.
Qed.

Lemma chunked_head_total h : is_Some (chunked_head h).
Proof. unfold chunked_head. destruct (negb _); by eexists. Qed.

Lemma created_head rsh sh : create_from_trusted_source rsh = Value (Some sh) -> sh_head sh = rsh.
Proof.
  unfold create_from_trusted_source. case_bool_decide; [done|]. destruct (BlockSigs_parse _) as [[bsp|]|]; [|done|done].
  destruct (_ <? _); [done|]. case_bool_decide; [done|]. destruct (fst _); [|done]. by intros [= <-].
Qed.

Lemma store_read bs hd sh c files :
  parse_head (print_head hd) = Some hd -> create_from_trusted_source hd = Value (Some sh) -> sh_block_size sh = bs ->
  field_value response_uri_hdr (rs_fields hd) <> [] -> chain_ok bs c ->
  head_file files = Some (print_head hd) -> sigs_file files = Some (sigs_text bs new_hasher 0 c) ->
  (body_file files = Some (concat (map fst c)) \/ body_file files = None /\ exists s, c = [([], s)]) ->
  exists r hd', http_store_reader files None = Ok r /\ chunked_head hd = Some hd' /\
    delivers resource_reads [] r (HeadPart hd' :: body_parts c ++ [Trailer []]).
Proof.
  intros Hp Hc Hs Hu (C1 & C2 & C3 & C4 & C5 & C6 & C7 & C8) Fh Fs Fb.
  unfold http_store_reader, read_signed_head. rewrite Fh, Hp, Hc. pose proof (created_head _ _ Hc) as Hhd.
  destruct (chunked_head_total hd) as [hd' Hhd']. eexists _, hd'. split; [reflexivity|]. split; [done|].
  eapply deliver_part.
  { unfold resource_reads, resource_read, new_resource, prepare_head, seek_to_range_begin.
    cbn [r_is_open r_is_done r_is_head_done negb orb r_head r_range fmap option_fmap option_map]. rewrite Hhd, bool_decide_false by done.
    rewrite Hhd'. cbn [r_range]. reflexivity. }
  cbn [r_sigsf r_bodyf r_block_offset set_reading].
  destruct C6 as [Hall|[s ->]].
  - assert (body_parts c = body_chunks new_hasher None c) as ->.
    { destruct c as [|[[|x d] s] [|b c]]; try done. by apply Forall_cons in Hall as [? _]. }
    apply (read_chunks bs [] [] c 0); rewrite ?app_nil_r; try done.
    rewrite Fs. split; cbn; rewrite ?app_nil_r; try done; [by rewrite Hs|by destruct c|].
    destruct Fb as [->|[_ [s ->]]]; [by split|]. by apply Forall_cons in Hall as [? _].
  - cbn [chain_parts body_chunks app]. apply Forall_cons in C3 as [C3 _]. destruct C5 as [C5 _].
    assert (exists bodyf, get_chunk_body (Some (sh_block_size sh)) ((fun b => (b, 0)) <$> body_file files) = Some ([], bodyf)) as [bodyf Hb].
    { destruct Fb as [->|[-> _]]; [|by eexists]. unfold get_chunk_body. cbn [fmap option_fmap option_map map concat fst app]. rewrite drop_nil, take_nil. by eexists. }
    eapply deliver_part.
    { unfold resource_reads, resource_read, get_chunk_part.
      cbn [r_is_open r_is_done r_is_head_done r_is_body_done r_next_chunk_body r_sigsf r_next_chunk_exts r_block_size r_bodyf r_block_offset r_range set_reading negb orb].
      rewrite Fs. cbn [get_sig_entry]. unfold sigs_text. cbn [entries map concat]. rewrite sig_entry_read.
      2: { apply entry_line; [done|done|lia|done]. }
      rewrite bool_decide_false by done. cbn [andb]. rewrite Hb. cbn [entry_of e_offset Z.mul negb Z.eqb].
      rewrite !bool_decide_true by done. cbn [andb]. rewrite entry_exts by done. reflexivity. }
    eapply deliver_part; [unfold resource_reads, resource_read; cbn; reflexivity|].
    eapply deliver_end. unfold resource_reads, resource_read. cbn. reflexivity.
Qed.

(** *** Hash lists *)

Lemma sigs_text_cons bs h n b l :
  sigs_text bs h n (b :: l) = SigEntry_str (entry_of h (n * bs) b) ++ sigs_text bs (snd (chain_step sha512 h b)) (n + 1) l.
Proof. done. Qed.

Lemma load_stored_blocks bs l : forall fuel n h,
  (length l < fuel)%nat -> 0 < bs -> 0 <= n -> (n + Z.of_nat (length l)) * bs < 2 ^ 64 -> signed_blocks l -> hasher_ok h -> no_zero_hash h l ->
  load_blocks fuel (sigs_text bs h n l) = Ok (map (as_block sha512) l).
Proof.
  induction l as [|b l IH]; intros [|fuel] n h Hf Hbs Hn Hm Hs Hh Hz; cbn [length] in *; [lia|done|lia|].
  apply Forall_cons in Hs as [Hb Hs]. destruct Hz as [Hz0 Hz]. cbn [load_blocks]. rewrite sigs_text_cons, sig_entry_read.
  2: { apply entry_line; [done|done|nia|done]. }
  cbn [entry_of e_block_digest e_signature].
  rewrite !decode_encoded, IH by (apply sha512_size || apply step_ok || done || lia). done.
Qed.

Lemma sigs_text_length bs l : forall h n, (length l <= length (sigs_text bs h n l))%nat.
Proof.
  induction l as [|b l IH]; intros h n; [done|]. rewrite sigs_text_cons, length_app. cbn [length].
  specialize (IH (snd (chain_step sha512 h b)) (n + 1)). unfold SigEntry_str. rewrite !length_app. cbn [length]. lia.
Qed.

(** *** Ranges *)

Lemma skip_stored bs l2 l1 : forall n h,
  0 < bs -> 0 <= n -> (n + Z.of_nat (length l1)) * bs < 2 ^ 64 -> signed_blocks l1 -> hasher_ok h -> no_zero_hash h l1 ->
  skip_sig_entries (length l1) (Some (sigs_text bs h n (l1 ++ l2))) =
  Ok (Some (sigs_text bs (hasher_after sha512 h l1) (n + Z.of_nat (length l1)) l2)).
Proof.
  induction l1 as [|b l1 IH]; intros n h Hbs Hn Hm Hs Hh Hz; cbn [length app] in *; [by rewrite Z.add_0_r|].
  apply Forall_cons in Hs as [Hb Hs]. destruct Hz as [Hz0 Hz]. cbn [skip_sig_entries get_sig_entry].
  rewrite sigs_text_cons, sig_entry_read by (apply entry_line; [done|done|nia|done]).
  rewrite IH; [|lia|lia|lia|done|apply step_ok|done]. do 3 f_equal. lia.
Qed.

Lemma full_blocks_take bs (c : list (list byte * list byte)) : 0 < bs -> full_blocks fst bs c -> forall j, (j <= length c)%nat ->
  size_of (concat (map fst (take j c))) = Z.min (Z.of_nat j * bs) (size_of (concat (map fst c))).
Proof.
  intros Hbs. induction c as [|b c IH]; intros Hf j Hj.
  - destruct j; [done|cbn in Hj; lia].
  - destruct (full_blocks_cons _ _ _ Hf) as (H1 & H2 & H3). pose proof (size_of_nonneg (fst b)).
    destruct j as [|j]; cbn [take map concat]; [rewrite size_of_app; pose proof (size_of_nonneg (concat (map fst c))); change (size_of []) with 0; lia|].
    cbn [length] in Hj. rewrite !size_of_app, IH by (done || lia). destruct c as [|d c]; [|rewrite H3 by done; lia].
    cbn [length] in Hj. assert (j = 0%nat) as -> by lia. cbn [map concat]. change (size_of []) with 0. lia.
Qed.

Lemma concat_take_drop (c : list (list byte * list byte)) j :
  concat (map fst c) = concat (map fst (take j c)) ++ concat (map fst (drop j c)).
Proof. rewrite <-concat_app, <-map_app. by rewrite take_drop. Qed.

Lemma no_zero_app l1 l2 : forall h, no_zero_hash h (l1 ++ l2) <-> no_zero_hash h l1 /\ no_zero_hash (hasher_after sha512 h l1) l2.
Proof. induction l1 as [|b l1 IH]; intros h; cbn [app no_zero_hash]; [tauto|]. rewrite IH. cbn. tauto. Qed.

Lemma hasher_after_ok l : forall h, hasher_ok h -> hasher_ok (hasher_after sha512 h l).
Proof. induction l as [|b l IH]; intros h Hh; [done|]. apply IH, step_ok. Qed.

(** *** Theorems *)

(** What the directory of a response with the head [hd] and the chain [c] holds. *)
Definition holds (files : stored) (hd : response_header) (bs : Z) (c : list (list byte * list byte)) : Prop :=
  head_file files = Some (print_head hd) /\ sigs_file files = Some (sigs_text bs new_hasher 0 c) /\
  (body_file files = Some (concat (map fst c)) \/ body_file files = None /\ exists s, c = [([], s)]).

(** A head that can be read from its file. *)
Definition readable (hd : response_header) (sh : SignedHead) : Prop :=
  parse_head (print_head hd) = Some hd /\ create_from_trusted_source hd = Value (Some sh) /\
  field_value response_uri_hdr (rs_fields hd) <> [].

(** a response that is stored is read back: whatever pieces its blocks arrive in,
    the directory is written, and reading it delivers the head with the trailer merged
    in and chunked again, every block with its signature and the chain hash before it,
    and an empty trailer; the hash list has a line for every block. *)
Theorem stored_response_read_back (bs : Z) (h hd : response_header) (t : fields) (bsp : BlockSigs) (sh : SignedHead)
    (c : list (list byte * list byte)) (qs : list Part) :
  field_value response_uri_hdr (rs_fields h) <> [] -> field_value response_block_signatures_hdr (rs_fields h) <> [] ->
  BlockSigs_parse (field_view (field_value response_block_signatures_hdr (rs_fields h))) = Value (Some bsp) -> bs_size bsp = bs ->
  kept_head h t = Some hd -> readable hd sh -> sh_block_size sh = bs ->
  chain_ok bs c -> transported (body_parts c) qs ->
  exists files r hd', http_store sha512 (map inr (HeadPart h :: qs ++ [Trailer t])) writer_init = Ok files /\
    http_store_reader files None = Ok r /\ chunked_head hd = Some hd' /\
    delivers resource_reads [] r (HeadPart hd' :: body_parts c ++ [Trailer []]) /\
    http_store_load_hash_list files =
      Ok {| block_size := bs; list_public_key := sh_public_key sh; HashList.injection_id := sh_injection_id sh;
            blocks := map (as_block sha512) c |}.
Proof.
  intros Hu Hb Hp Hs Hk (Hr1 & Hr2 & Hr3) Hsh Hc Ht.
  destruct (store_written bs h t hd bsp c qs) as (files & Hst & Fh & Fs & Fb); try done.
  destruct (store_read bs hd sh c files) as (r & hd' & Hr & Hh' & Hd); try done.
  exists files, r, hd'. split_and!; try done.
  unfold http_store_load_hash_list. rewrite Fh, Fs. unfold read_signed_head. rewrite Hr1, Hr2.
  destruct Hc as (C1 & C2 & C3 & C4 & C5 & _ & _ & C8).
  rewrite (load_stored_blocks bs c) by (done || (pose proof (sigs_text_length bs c new_hasher 0); lia) || lia).
  destruct c as [|b c]; [done|]. cbn [map]. by rewrite Hsh.
Qed.

(** A chain that is divided. *)
Lemma chain_split bs c l1 l2 :
  c = l1 ++ l2 -> signed_blocks c -> full_blocks fst bs c -> no_zero_hash new_hasher c ->
  signed_blocks l1 /\ signed_blocks l2 /\ full_blocks fst bs l2 /\ no_zero_hash new_hasher l1 /\
  no_zero_hash (hasher_after sha512 new_hasher l1) l2.
Proof.
  intros -> Hs Hf Hz. unfold signed_blocks in *. rewrite Forall_app in Hs. apply no_zero_app in Hz.
  split_and!; [apply Hs|apply Hs| |apply Hz|apply Hz].
  clear Hs Hz. induction l1 as [|b l1 IH]; [done|]. apply IH. by apply full_blocks_cons in Hf as (_ & Hf & _).
Qed.

(** The blocks of a range and their place. *)
Lemma range_blocks bs (c : list (list byte * list byte)) (k m : nat) :
  0 < bs -> full_blocks fst bs c -> (k <= m)%nat -> Z.of_nat m * bs < size_of (concat (map fst c)) ->
  let l := take (Datatypes.S m - k) (drop k c) in
  let end_ := Z.min (Z.of_nat (Datatypes.S m) * bs) (size_of (concat (map fst c))) in
  (m < length c)%nat /\ length l = (Datatypes.S m - k)%nat /\ length (take k c) = k /\
  c = take k c ++ l ++ drop (Datatypes.S m - k) (drop k c) /\
  size_of (concat (map fst (take k c))) = Z.of_nat k * bs /\
  Z.of_nat k * bs + size_of (concat (map fst l)) = end_ /\ Z.of_nat m * bs < end_.
Proof.
  intros Hbs Hf Hkm Hm l end_. pose proof (full_blocks_size bs c Hbs Hf) as Hle.
  assert (m < length c)%nat as Hlen by nia.
  assert (length l = (Datatypes.S m - k)%nat) as Hl by (unfold l; rewrite length_take, length_drop; lia).
  assert (length (take k c) = k) as Hk by (rewrite length_take; lia).
  assert (take k c ++ l = take (Datatypes.S m) c) as Htake.
  { unfold l. rewrite take_drop_commute. replace (k + (Datatypes.S m - k))%nat with (Datatypes.S m) by lia.
    rewrite <-(take_drop k (take (Datatypes.S m) c)) at 2. rewrite take_take. by replace (k `min` Datatypes.S m)%nat with k by lia. }
  pose proof (full_blocks_take bs c Hbs Hf k ltac:(lia)) as Sk. rewrite Z.min_l in Sk by nia.
  pose proof (full_blocks_take bs c Hbs Hf (Datatypes.S m) ltac:(lia)) as Sm.
  split_and!; try done.
  - unfold l. by rewrite !take_drop.
  - rewrite <-Sk, <-size_of_app, <-concat_app, <-map_app, Htake. apply Sm.
  - unfold end_. lia.
Qed.

(** C28: a range of a stored response is read in whole blocks: those that have a byte of
    the range, each with its signature and chain hash; the partial head names the
    bytes that are sent. *)
Theorem stored_range_read (bs range_first range_last : Z) (hd : response_header) (sh : SignedHead)
    (c : list (list byte * list byte)) (files : stored) :
  holds files hd bs c -> readable hd sh -> sh_block_size sh = bs -> chain_ok bs c ->
  0 <= range_first <= range_last -> range_last < size_of (concat (map fst c)) ->
  let k := Z.to_nat (range_first / bs) in
  let m := Z.to_nat (range_last / bs) in
  let begin := Z.of_nat k * bs in
  let end_ := Z.min (Z.of_nat (Datatypes.S m) * bs) (size_of (concat (map fst c))) in
  exists r hd' chunks, http_store_reader files (Some (range_first, range_last)) = Ok r /\
    chunked_head (partial_head (begin, end_)
      (fst (number_of_view W8 (field_view (field_value response_data_size_hdr (rs_fields hd))))) hd) = Some hd' /\
    delivers resource_reads [] r (HeadPart hd' :: chunks ++ [Trailer []]) /\
    chunks = body_chunks (hasher_after sha512 new_hasher (take k c)) None (take (Datatypes.S m - k) (drop k c)) /\
    concat (bodies chunks) = take (Z.to_nat (end_ - begin)) (drop (Z.to_nat begin) (concat (map fst c))).
Proof.
  intros (Fh & Fs & Fb) (Hr1 & Hr2 & Hr3) Hsh (C1 & C2 & C3 & C4 & C5 & C6 & C7 & C8) Hr Hlast k m begin end_.
  set (body := concat (map fst c)) in *. pose proof (full_blocks_size bs c C1 C4) as Htotal. fold body in Htotal.
  assert (Forall (fun b => fst b <> []) c /\ body_file files = Some body) as [Hall Hbf].
  { assert (c = [([], default [] (snd <$> head c))] -> False) as Hno.
    { intros E. unfold body in Hlast. rewrite E in Hlast. cbn in Hlast. change (size_of []) with 0 in Hlast. lia. }
    split; [destruct C6 as [?|[s ->]]; [done|by destruct Hno]|destruct Fb as [?|[_ [s ->]]]; [done|by destruct Hno]]. }
  assert (0 <= range_first / bs <= range_last / bs) as Hdiv.
  { split; [apply Z.div_pos; lia|apply Z.div_le_mono; lia]. }
  assert (Z.of_nat m * bs < size_of body) as Hmb.
  { unfold m. rewrite Z2Nat.id by lia. pose proof (Z.mul_div_le range_last bs C1). lia. }
  destruct (range_blocks bs c k m C1 C4 ltac:(lia) Hmb) as (B1 & B2 & B3 & B4 & B5 & B6 & B7). fold body end_ in B6, B7.
  set (l := take (Datatypes.S m - k) (drop k c)) in *. set (more := drop (Datatypes.S m - k) (drop k c)) in *.
  unfold http_store_reader, read_signed_head. rewrite Fh, Hr1, Hr2, Hbf.
  assert (size_add range_last 1 = range_last + 1) as -> by (unfold size_add; apply Z.mod_small; lia).
  destruct (Z.ltb_spec (range_last + 1) range_first); [lia|].
  assert ((0 <? range_first) && (size_of body <=? range_first) = false) as ->.
  { destruct (Z.leb_spec (size_of body) range_first); [lia|]. apply andb_false_r. }
  rewrite Z.min_l by lia. pose proof (created_head _ _ Hr2) as Hhd.
  assert (aligned_range bs (Some (body, 0)) (range_first, range_last + 1) = (begin, end_)) as Hal.
  { unfold aligned_range. destruct (Z.ltb_spec 0 (range_last + 1)); [|lia]. f_equal.
    - unfold begin, k. rewrite Z2Nat.id by lia. lia.
    - unfold end_, m. replace (range_last + 1 - 1) with range_last by lia. rewrite Nat2Z.inj_succ, Z2Nat.id by lia.
      rewrite (Z.mul_comm bs). unfold Z.succ. destruct (Z.ltb_spec (size_of body) ((range_last / bs + 1) * bs)); lia. }
  set (ds := fst (number_of_view W8 (field_view (field_value response_data_size_hdr (rs_fields hd))))).
  destruct (chunked_head_total (partial_head (begin, end_) ds hd)) as [hd' Hhd'].
  eexists _, hd', _. split; [reflexivity|]. split; [exact Hhd'|]. split; [|split; [reflexivity|]].
  2: { rewrite bodies_chunks. fold l.
       assert (body = concat (map fst (take k c)) ++ concat (map fst l) ++ concat (map fst more)) as ->.
       { rewrite <-!concat_app, <-!map_app. by rewrite <-B4. }
       replace (Z.to_nat begin) with (length (concat (map fst (take k c)))) by (unfold size_of in B5; unfold begin; lia).
       rewrite drop_app_length. replace (Z.to_nat (end_ - begin)) with (length (concat (map fst l))) by (unfold size_of in B6; unfold begin; lia).
       by rewrite take_app_length. }
  destruct (chain_split bs c (take k c) (l ++ more) B4 C3 C4 C5) as (L1 & L2 & L3 & L4 & L5).
  assert (skip_sig_entries (length (take k c)) (Some (sigs_text bs new_hasher 0 c)) =
          Ok (Some (sigs_text bs (hasher_after sha512 new_hasher (take k c)) (Z.of_nat k) (l ++ more)))) as Hskip.
  { pose proof (skip_stored bs (l ++ more) (take k c) 0 new_hasher C1 ltac:(lia)) as Hk. rewrite <-B4 in Hk.
    rewrite Hk by (done || (rewrite B3; nia)). by rewrite B3, Z.add_0_l. }
  eapply deliver_part.
  { unfold resource_reads, resource_read, new_resource, prepare_head, seek_to_range_begin.
    cbn [r_is_open r_is_done r_is_head_done negb orb r_head r_range r_bodyf fmap option_fmap option_map r_data_size].
    rewrite Hhd, bool_decide_false by done. rewrite Hsh, Hal. fold ds.
    assert ((match ds with Some n => Some n | None => None end) = ds) as -> by (by destruct ds). rewrite Hhd'.
    cbn [r_range r_bodyf r_block_size r_sigsf]. destruct (Z.eqb_spec end_ 0); [lia|].
    replace (Z.to_nat (begin / bs)) with (length (take k c)) by (unfold begin; rewrite Z.div_mul by lia; lia).
    rewrite Fs, Hskip. reflexivity. }
  assert (l <> []) as Hlne by (intros E; rewrite E in B2; cbn in B2; lia).
  cbn [set_reading r_range r_data_size r_block_size r_is_body_done r_is_done r_is_open r_next_chunk_exts r_next_chunk_body r_head].
  apply (read_chunks bs more [] l (Z.of_nat k)); cbn [option_list option_rect app length hasher_of ext_of]; try done.
  - rewrite Z.add_0_r. split; cbn; try done.
    + by destruct l.
    + split; [unfold begin; nia|].
      assert (body = concat (map fst (take k c)) ++ concat (map fst (l ++ more))) as ->.
      { rewrite <-concat_app, <-map_app. by rewrite <-B4. }
      replace (Z.to_nat begin) with (length (concat (map fst (take k c)))) by (unfold size_of in B5; unfold begin; lia).
      apply drop_app_length.
    + destruct l as [|x l']; [done|]. rewrite B2. split; [lia|lia].
  - lia.
  - rewrite B2. nia.
  - unfold signed_blocks in *. rewrite Forall_app in L2. apply L2.
  - rewrite B4 in Hall. rewrite !Forall_app in Hall. apply Hall.
  - by apply hasher_after_ok.
  - apply no_zero_app in L5. apply L5.
Qed.

End Blocks.

(** ** Witnesses *)

#[local] Existing Instances rfc_base64 rfc_base64_laws rfc_base64_size toy_coding.
#[local] Existing Instances Crypto.toy_scheme Crypto.toy_scheme_laws.

(** Heads as lines: the status, the version, and a line per field. *)
Definition line_print (h : response_header) : list byte :=
  to_string (result h) ++ [newline_char] ++ to_string (rs_version h) ++ [newline_char]
  ++ concat (map (fun f => fst f ++ ":"%byte :: snd f ++ [newline_char]) (rs_fields h)).

Definition line_field (s : list byte) : option (list byte * list byte) :=
  let? k := find_char ":"%byte s in Some (take k s, drop (S k) s).

Definition line_parse (s : list byte) : option response_header :=
  match split_on newline_char s with
  | st :: v :: lines =>
      let? st := fst (number_of_view W8 (view_of st)) in
      let? v := fst (number_of_view W8 (view_of v)) in
      let? fs := mapM line_field (List.filter (fun l => negb (bool_decide (l = []))) lines) in
      Some {| result := st; rs_version := v; rs_fields := fs |}
  | _ => None
  end.

#[local] Instance line_codec : HeadCodec := {| print_head := line_print; parse_head := line_parse |}.

(** A signed head for blocks of six bytes, and the chain of a body of two blocks. *)
Definition six_byte_head : response_header :=
  set_rs_fields (sign_response sample_rq sample_rs (str "d6076384") 1516048310 sample_sk)
    (set_field response_block_signatures_hdr
       (str "keyId=" ++ quoted (encode_key_id (public_key_of sample_sk)) ++ str ",algorithm=" ++ quoted sig_alg_hs2019 ++ str ",size=6")
       (rs_fields (sign_response sample_rq sample_rs (str "d6076384") 1516048310 sample_sk))).

Definition six_byte_trailer : fields :=
  http_injection_trailer six_byte_head [] 11 (toy_hash (str "hello world")) sample_sk
    (encode_key_id (public_key_of sample_sk)) 1516048311.

Definition six_byte_kept : response_header := default six_byte_head (kept_head six_byte_head six_byte_trailer).

Definition six_byte_chain : list (list byte * list byte) :=
  injected toy_hash (str "d6076384") sample_sk new_hasher [str "hello "; str "world"].

Definition six_byte_params : BlockSigs :=
  match BlockSigs_parse (field_view (field_value response_block_signatures_hdr (rs_fields six_byte_head))) with
  | Value (Some p) => p
  | _ => {| bs_pk := []; bs_algorithm := view_of []; bs_size := 0 |}
  end.

Definition six_byte_signed_head : SignedHead :=
  match create_from_trusted_source six_byte_kept with
  | Value (Some sh) => sh
  | _ => {| sh_head := six_byte_kept; sh_injection_id := []; sh_injection_ts := 0; sh_uri := []; sh_bs_params := six_byte_params |}
  end.

Lemma six_byte_readable : readable six_byte_kept six_byte_signed_head.
Proof. split_and!; [vm_compute; reflexivity..|vm_compute; discriminate]. Qed.

Lemma six_byte_chain_ok : chain_ok toy_hash 6 six_byte_chain.
Proof.
  assert (signed_blocks six_byte_chain) as Hs by repeat constructor.
  assert (Forall (fun b => fst b <> []) six_byte_chain) as Hne by (repeat constructor; discriminate).
  refine (conj _ (conj _ (conj Hs (conj _ (conj _ (conj (or_introl Hne) _)))))); repeat split; vm_compute; reflexivity || discriminate.
Qed.

Lemma stored_response_read_back_witness :
  exists files r hd', http_store toy_hash (map inr (HeadPart six_byte_head :: chain_parts toy_hash hashed_ext six_byte_chain
                                                      ++ [Trailer six_byte_trailer])) writer_init = Ok files /\
    http_store_reader files None = Ok r /\ chunked_head six_byte_kept = Some hd' /\
    delivers resource_reads [] r (HeadPart hd' :: chain_parts toy_hash hashed_ext six_byte_chain ++ [Trailer []]).
Proof.
  destruct (stored_response_read_back toy_hash toy_hash_size 6 six_byte_head six_byte_kept six_byte_trailer six_byte_params
              six_byte_signed_head six_byte_chain (chain_parts toy_hash hashed_ext six_byte_chain))
    as (files & r & hd' & H1 & H2 & H3 & H4 & _).
  - vm_compute. discriminate.
  - vm_compute. discriminate.
  - vm_compute. reflexivity.
  - vm_compute. reflexivity.
  - vm_compute. reflexivity.
  - exact six_byte_readable.
  - vm_compute. reflexivity.
  - exact six_byte_chain_ok.
  - apply transported_refl. repeat constructor.
  - exists files, r, hd'. exact (conj H1 (conj H2 (conj H3 H4))).
Defined.

Definition six_byte_files : stored :=
  {| head_file := Some (print_head six_byte_kept); body_file := Some (str "hello world");
     sigs_file := Some (sigs_text toy_hash 6 new_hasher 0 six_byte_chain) |}.

Lemma stored_range_read_witness :
  exists r hd' chunks, http_store_reader six_byte_files (Some (7, 8)) = Ok r /\
    delivers resource_reads [] r (HeadPart hd' :: chunks ++ [Trailer []]) /\ concat (bodies chunks) = str "world".
Proof.
  destruct (stored_range_read toy_hash toy_hash_size 6 7 8 six_byte_kept six_byte_signed_head six_byte_chain six_byte_files)
    as (r & hd' & chunks & H1 & _ & H3 & _ & H5).
  - split_and!; [reflexivity|reflexivity|left; vm_compute; reflexivity].
  - exact six_byte_readable.
  - vm_compute. reflexivity.
  - exact six_byte_chain_ok.
  - lia.
  - vm_compute. reflexivity.
  - exists r, hd', chunks. refine (conj H1 (conj H3 _)). rewrite H5. vm_compute. reflexivity.
Defined.

(** A response that is stored. *)
Definition six_byte_input : input := [inr (HeadPart six_byte_kept); inr (ChunkBody (str "hello world") 0)].

(** When the temporary directory cannot be renamed, the old entry of the response is gone. *)
Example failed_commit_loses_entry :
  (let? (st, _) := store_response toy_hash no_faults (str "a") six_byte_input ∅ in
   let? (st', e) := store_response toy_hash {| sf_write := None; sf_remove := None; sf_commit := Some no_such_file |} (str "a") six_byte_input st in
   Some (bool_decide (is_Some (st !! path_from_resource_id (str "a"))), bool_decide (is_Some (st' !! path_from_resource_id (str "a"))))) =
  Some (true, false).
Proof. vm_compute. reflexivity. Qed.
