(* ===== verification/EndToEnd.v ===== *)
(** * From the injector through a store to another client

    The head that the store keeps is that of the response with its trailer merged in
    (src/cache/http_sign.cpp): the signature of the trailer takes the place of the
    first one.  It verifies like the head it was made of, so that what is read from
    the store is accepted by a client as what the injector sent. *)
From S2P Require Import Prelude Number SplitString Url Http Request Crypto Bytes HashList HttpSign Base64 SignedHead BlockSign SignedBody HttpStore StoredBody.

(** ** Redundant signatures in a head with one *)

Lemma redundant_loop_none thsig ts l : forall insert,
  List.filter sig_field l = [] -> redundant_loop thsig ts insert l = Some (l, insert).
Proof.
  induction l as [|h l IH]; intros insert Hl; [done|]. cbn [List.filter redundant_loop] in *.
  destruct (sig_field h) eqn:E; [done|]. unfold sig_field in E. rewrite E. cbn [negb]. by rewrite IH.
Qed.

(** The one signature is not newer and covers no more. *)
Lemma redundant_loop_one thsig ths_ts hsig x l : forall insert,
  List.filter sig_field l = [x] -> HttpSignature_parse (field_view (snd x)) = Some hsig ->
  chars (keyId thsig) = chars (keyId hsig) -> chars (algorithm thsig) = chars (algorithm hsig) ->
  default 0 (time_of_view (created hsig)) <= ths_ts ->
  has_extra_items (sig_headers_set (headers hsig)) (sig_headers_set (headers thsig)) = false ->
  has_extra_items (sig_headers_set (headers thsig)) (sig_headers_set (headers hsig)) = true ->
  redundant_loop thsig ths_ts insert l = Some (List.filter (fun f => negb (sig_field f)) l, insert).
Proof.
  induction l as [|h l IH]; intros insert Hl Hp Hk Ha Ht H1 H2; [done|]. cbn [List.filter redundant_loop] in *.
  destruct (sig_field h) eqn:E; unfold sig_field in E; rewrite E; cbn [negb].
  - injection Hl as -> Hl. rewrite Hp, Hk, Ha, !bool_decide_true by done. cbn [negb orb].
    rewrite H1, H2, orb_true_r, andb_true_r. rewrite orb_false_r. rewrite redundant_loop_none by done.
    destruct (Z.ltb_spec ths_ts (default 0 (time_of_view (created hsig)))); [lia|].
    assert (List.filter (fun f => negb (sig_field f)) l = l) as ->; [|done].
    clear -Hl. induction l as [|f l IH]; [done|]. cbn [List.filter] in *. destruct (sig_field f); [done|]. cbn [negb]. by rewrite IH.
  - by rewrite (IH insert).
Qed.

Section Stored.
Context {S : SignatureScheme} {SL : SignatureLaws S} {B : Base64} {BL : Base64Laws B}.
Context {T : TransferCoding} {TL : TransferCodingLaws T}.

(** What is read from a signature. *)
Lemma http_signature_parsed rsh sk key_id ts v :
  chars v = http_signature rsh sk key_id ts -> token_names (rs_fields rsh) -> clean key_id -> key_id <> [] ->
  - 2 ^ 63 <= ts < 2 ^ 63 ->
  exists hs, HttpSignature_parse v = Some hs /\ chars (keyId hs) = key_id /\ chars (algorithm hs) = sig_alg_hs2019 /\
    time_of_view (created hs) = Some ts /\
    forall n, n ∈ sig_headers_set (headers hs) <->
      n = str "(response-status)" \/ n = str "(created)" \/ lower_str n = n /\ values n (rs_fields rsh) <> [].
Proof.
  intros Hv Ht Hk Hk0 Hts. destruct (http_signature_text rsh sk key_id ts Ht) as (sorted & m & Hp & Htext). rewrite Htext in Hv.
  pose proof (prepared_names _ _ _ Hp Ht) as Htok. destruct (to_string_plain ts) as [Htp%plain_text _].
  set (msg := join newline (map header_line (signed_pairs rsh ts sorted))) in *.
  assert (base64_encode (sign_message sk msg) <> []) as Hs0.
  { apply base64_nonempty. intros E. pose proof (signature_size sk msg) as L. by rewrite E in L. }
  destruct (parse_signature_text _ _ _ _ _ _ Hv) as (hs & Hparse & Hparts); try done.
  - split; by_evaluation.
  - apply Htp.
  - apply join_plain. repeat constructor. apply Forall_forall. intros n Hn%Htok. by apply token_spec in Hn as (_ & Hn & _).
  - eapply plain_text, forallb_mono; [apply base64_plain|apply base64_text].
  - apply no_margin_free, Htp.
  - injection Hparts as Ek Ea Ec Ee Eh Es. exists hs. split_and!; [done|done|done|..].
    + unfold time_of_view. rewrite Ec, <-(app_nil_r (to_string ts)), number_signed_to_string; [done| |apply no_digit_nil].
      unfold signed_max, bits. lia.
    + assert (sig_headers_set (headers hs) = str "(response-status)" :: str "(created)" :: sorted) as ->.
      { apply SplitString_join; [done|done|]. apply Forall_forall. intros n Hn.
        assert (" "%byte ∉ n) as Hsp; [|split; [done|by apply no_margin_free]].
        rewrite !elem_of_cons in Hn. destruct Hn as [->|[->|Hn%Htok]]; [by_evaluation|by_evaluation|].
        apply token_spec in Hn as (_ & Hn & _). by apply plain_text. }
      intros n. rewrite !elem_of_cons. destruct Hp as (_ & Hin & _). by rewrite Hin.
Qed.

Lemma checked_named X n :
  only_chunked (rs_fields X) ->
  values n (rs_fields (checked X)) = if is_framing n || is_signature_hdr n then [] else values n (rs_fields X).
Proof.
  intros HX. unfold checked. cbn [rs_fields set_rs_fields]. set (sigs := List.filter sig_field (rs_fields X)).
  destruct (is_signature_hdr n) eqn:Es.
  - rewrite orb_true_r. destruct (values n _) eqn:Ev; [done|]. exfalso.
    match type of Ev with values n ?l = _ => destruct (proj1 (values_nonempty n l)) as (f & Hf & Ef); [by rewrite Ev|] end.
    apply elem_of_erases in Hf as [Hf Hno]. apply without_framing_elem in Hf as [Hf _]; [|done]. apply (Hno f); [|done].
    unfold sigs. rewrite list_elem_of_In, filter_In, <-list_elem_of_In. split; [done|]. by rewrite (sig_field_name n f Ef).
  - rewrite orb_false_r. rewrite <-values_without_framing by done. unfold values. rewrite filter_name_erases; [done|].
    intros h Hh E. unfold sigs in Hh. rewrite list_elem_of_In, filter_In in Hh. destruct Hh as [_ Hh].
    by rewrite (sig_field_name n h E), Es in Hh.
Qed.

(** ** The head that is kept *)

Section Kept.
Variables (rqh : request_header) (rsh : response_header) (id : list byte) (ts : Z) (sk : SecretKey).
Variables (len now : Z) (digest : list byte).
Hypothesis Hhead : cache_head rsh.
Hypothesis Hid : id <> [] /\ (","%byte ∉ id) /\ no_margin " "%byte id.
Hypothesis Hts : - 2 ^ 63 <= ts /\ ts <= now < 2 ^ 63.
Hypothesis Hsize : values response_data_size_hdr (rs_fields rsh) = [].
Hypothesis Hdigest : values (str "Digest") (rs_fields rsh) = [].
Variable R : response_header.
Hypothesis HR : received rqh rsh id ts sk R.

Abbreviation accepted := (accepted_fields rqh rsh id ts sk R).
Abbreviation trailer_of := (trailer rqh rsh id ts sk len now digest).
Abbreviation final_sig := (final_signature rqh rsh id ts sk len now digest).

(** The head that the client accepted, without framing, and with the trailer. *)
Definition bare_fields : fields := rs_fields (without_framing (without_framing (set_rs_fields R accepted))).
Definition merged : response_header := set_rs_fields R (List.filter (fun f => negb (sig_field f)) bare_fields ++ trailer_of).

Lemma filter_sig_framing X : List.filter sig_field (rs_fields (without_framing X)) = List.filter sig_field (rs_fields X).
Proof. unfold without_framing. cbn [rs_fields set_rs_fields]. by rewrite !filter_sig_erase, filter_sig_chunked. Qed.

Lemma accepted_only_chunked : only_chunked accepted.
Proof.
  intros te. rewrite find_field_filter, accepted_named by done. change (is_framing (str "Transfer-Encoding")) with true. cbn [orb].
  rewrite <-find_field_filter. apply (rc_only_chunked _ _ _ _ _ R HR).
Qed.

Lemma find_none_values n fs : values n fs = [] -> find_field n fs = None.
Proof. intros E. rewrite find_field_filter. unfold values in E. apply map_eq_nil in E. by rewrite E. Qed.

Lemma bare_framing n : is_framing n = true -> values n bare_fields = [].
Proof.
  intros Hn. unfold bare_fields. rewrite values_without_framing; [by rewrite Hn|].
  intros te. rewrite find_none_values; [done|]. rewrite values_without_framing by apply accepted_only_chunked. done.
Qed.

Lemma bare_named n : is_framing n = false -> List.filter (same_name n) bare_fields = List.filter (same_name n) accepted.
Proof. intros Hn. unfold bare_fields. by rewrite !filter_name_framing. Qed.

Lemma bare_signatures : List.filter sig_field bare_fields = [(initial_signature_hdr, head_signature rqh rsh id ts sk)].
Proof. unfold bare_fields. rewrite !filter_sig_framing. apply accepted_signatures. Qed.

Lemma bare_new n f : n ∈ [response_data_size_hdr; str "Digest"] -> f ∈ bare_fields -> lower_str (fst f) <> lower_str n.
Proof.
  intros Hn Hf E. destruct (announced_without rqh rsh id ts sk Hsize Hdigest n Hn) as (Hv & Hfr & Hs).
  assert (In f (List.filter (same_name n) bare_fields)) as Hin.
  { apply filter_In. rewrite <-list_elem_of_In. split; [done|]. by apply same_name_lower. }
  by rewrite bare_named, accepted_named, Hfr, bool_decide_true in Hin.
Qed.

Lemma to_be_signed_tokens : token_names (rs_fields (to_be_signed rqh rsh id ts sk)).
Proof.
  intros f Hf. apply without_framing_elem in Hf as [Hf _]; [by apply (announced_tokens rqh rsh id ts sk Hhead)|by apply announced_only_chunked].
Qed.

(** The signature of the trailer is for the headers of the first one and more. *)
Lemma final_covers hs ths :
  (forall n, n ∈ sig_headers_set (headers hs) <->
     n = str "(response-status)" \/ n = str "(created)" \/ lower_str n = n /\ values n (rs_fields (to_be_signed rqh rsh id ts sk)) <> []) ->
  (forall n, n ∈ sig_headers_set (headers ths) <->
     n = str "(response-status)" \/ n = str "(created)" \/ lower_str n = n /\ values n (rs_fields (final_head rqh rsh id ts sk len digest)) <> []) ->
  has_extra_items (sig_headers_set (headers hs)) (sig_headers_set (headers ths)) = false /\
  has_extra_items (sig_headers_set (headers ths)) (sig_headers_set (headers hs)) = true.
Proof.
  intros H1 H2. split.
  - apply has_extra_items_false. intros n [?|[?|[Hl Hv]]]%H1; apply H2; [by left|by right; left|]. right. right. split; [done|].
    rewrite to_be_signed_values in Hv by done. rewrite final_head_values by done.
    repeat (case_bool_decide; [done|]). by destruct (is_framing n).
  - apply not_false_iff_true. rewrite has_extra_items_false. intros Hall. specialize (Hall (str "digest")).
    rewrite H1, H2 in Hall. destruct Hall as [?|[?|[_ Hv]]]; [|done|done|].
    + right. right. split; [done|]. rewrite final_head_values by done. by rewrite bool_decide_true.
    + apply Hv. rewrite to_be_signed_values by done. change (is_framing (str "digest")) with false. cbv iota.
      rewrite (values_lower (str "digest") (str "Digest")) by done.
      apply (announced_without rqh rsh id ts sk Hsize Hdigest). right. left.
Qed.

Lemma merge_accepted : http_injection_merge (without_framing (set_rs_fields R accepted)) trailer_of = Some merged.
Proof.
  unfold http_injection_merge. fold bare_fields. cbn [insert_trailers trailer]. unfold insert_trailer at 1.
  change (is_signature_hdr response_data_size_hdr) with false. cbn [negb].
  rewrite (insert_field_new response_data_size_hdr) by (intros f Hf; apply bare_new; [left|done]).
  unfold insert_trailer at 1. change (is_signature_hdr (str "Digest")) with false. cbn [negb].
  rewrite (insert_field_new (str "Digest")).
  2: { intros f [Hf| ->%list_elem_of_singleton]%elem_of_app; [by apply bare_new; [right; left|]|done]. }
  unfold insert_trailer. change (is_signature_hdr final_signature_hdr) with true. cbn [negb].
  destruct (encode_key_id_clean (public_key_of sk)) as [Hk Hk0].
  destruct (http_signature_parsed (to_be_signed rqh rsh id ts sk) sk (encode_key_id (public_key_of sk)) ts
              (field_view (head_signature rqh rsh id ts sk))) as (hs & P1 & K1 & A1 & C1 & S1); [done|apply to_be_signed_tokens|done|done|lia|].
  destruct (http_signature_parsed (final_head rqh rsh id ts sk len digest) sk (encode_key_id (public_key_of sk)) now
              (field_view final_sig)) as (ths & P2 & K2 & A2 & C2 & S2); [done|by apply final_head_tokens|done|done|lia|].
  rewrite P2, C2. destruct (final_covers hs ths S1 S2) as [X1 X2].
  rewrite (redundant_loop_one ths now hs (initial_signature_hdr, head_signature rqh rsh id ts sk)); try done; try congruence.
  2: { rewrite !List.filter_app, bare_signatures. done. }
  2: { rewrite C1. cbn. lia. }
  rewrite !List.filter_app. cbn [List.filter sig_field fst negb]. change (is_signature_hdr response_data_size_hdr) with false.
  change (is_signature_hdr (str "Digest")) with false. cbv iota. cbn [negb].
  rewrite insert_field_new; [unfold merged; by rewrite <-!app_assoc|].
  intros f [[Hf| ->%list_elem_of_singleton]%elem_of_app| ->%list_elem_of_singleton]%elem_of_app; [|done|done]. intros E.
  apply list_elem_of_In, filter_In in Hf as [_ Hf]. by rewrite (sig_field_name _ _ E) in Hf.
Qed.

(** The fields of the kept head by name. *)
Lemma merged_named n :
  is_signature_hdr n = false -> is_framing n = false ->
  List.filter (same_name n) (rs_fields merged) = List.filter (same_name n) accepted ++ List.filter (same_name n) trailer_of.
Proof.
  intros Hs Hf. unfold merged. cbn [rs_fields set_rs_fields]. by rewrite List.filter_app, filter_name_nonsig, bare_named.
Qed.

Lemma merged_framing n : is_framing n = true -> values n (rs_fields merged) = [].
Proof.
  intros Hf. unfold merged. cbn [rs_fields set_rs_fields]. rewrite values_app.
  assert (is_signature_hdr n = false) as Hs.
  { destruct (is_signature_hdr n) eqn:Es; [|done]. exfalso. unfold is_framing in Hf. apply existsb_exists in Hf as (m & Hm & E).
    apply iequals_true in E. rewrite <-(sig_field_name n (m, []) (eq_sym E)) in Es. unfold framing_names in Hm.
    by destruct Hm as [<-|[<-|[<-|[]]]]. }
  unfold values at 1. rewrite filter_name_nonsig by done. fold (values n bare_fields). rewrite bare_framing by done. cbn [app].
  rewrite trailer_values. rewrite !bool_decide_false; [done|..]; intros E%framing_lower; by rewrite Hf in E.
Qed.

Lemma merged_signatures : List.filter sig_field (rs_fields merged) = [(final_signature_hdr, final_sig)].
Proof.
  unfold merged. cbn [rs_fields set_rs_fields]. rewrite List.filter_app, filter_both, filter_nil_all; [done|].
  apply Forall_forall. intros f _. by destruct (sig_field f).
Qed.

Lemma merged_tokens : token_names (rs_fields merged).
Proof.
  intros f Hf. unfold merged in Hf. cbn [rs_fields set_rs_fields] in Hf. apply elem_of_app in Hf as [Hf|Hf].
  - apply list_elem_of_In, filter_In in Hf as [Hf _]. apply list_elem_of_In in Hf. unfold bare_fields in Hf.
    apply without_framing_elem in Hf as [Hf _].
    2: { intros te. rewrite find_none_values; [done|]. by rewrite values_without_framing by apply accepted_only_chunked. }
    apply without_framing_elem in Hf as [Hf _]; [|apply accepted_only_chunked]. cbn [rs_fields set_rs_fields] in Hf.
    unfold accepted_fields in Hf. apply elem_of_app in Hf as [Hf| ->%list_elem_of_singleton]; [|done].
    apply elem_of_erases in Hf as [Hf _]. apply list_elem_of_In, filter_In in Hf as [Hf _].
    apply (rc_tokens _ _ _ _ _ R HR). by apply list_elem_of_In.
  - unfold trailer in Hf. rewrite !elem_of_cons in Hf. by destruct Hf as [->|[->|[->|Hf%not_elem_of_nil]]].
Qed.

(** The head that is read from the store: the kept one, chunked. *)
Definition stored_head : response_header :=
  set_rs_fields merged (set_field (str "Transfer-Encoding") (str "chunked") (rs_fields merged)).

Lemma chunked_merged : chunked_head merged = Some stored_head.
Proof.
  unfold chunked_head, field_value. rewrite !find_none_values by (by apply merged_framing). done.
Qed.

Lemma stored_only_chunked : only_chunked (rs_fields stored_head).
Proof. intros te. unfold stored_head. cbn [rs_fields set_rs_fields]. rewrite find_set_same. by intros [= <-]. Qed.

Lemma stored_named n :
  is_signature_hdr n = false -> is_framing n = false ->
  List.filter (same_name n) (rs_fields stored_head) = List.filter (same_name n) accepted ++ List.filter (same_name n) trailer_of.
Proof.
  intros Hs Hf. unfold stored_head. cbn [rs_fields set_rs_fields]. rewrite filter_name_set, merged_named by done || (intros E%framing_lower; by rewrite Hf in E).
  done.
Qed.

Lemma stored_signatures : List.filter sig_field (rs_fields stored_head) = [(final_signature_hdr, final_sig)].
Proof. unfold stored_head. cbn [rs_fields set_rs_fields]. by rewrite filter_sig_set, merged_signatures. Qed.

Lemma stored_tokens : token_names (rs_fields stored_head).
Proof. intros f Hf. unfold stored_head in Hf. cbn [rs_fields set_rs_fields] in Hf. apply elem_of_set in Hf as [Hf| ->]; [by apply merged_tokens|done]. Qed.

Lemma stored_checked n : values n (rs_fields (checked stored_head)) = values n (rs_fields (final_head rqh rsh id ts sk len digest)).
Proof.
  rewrite <-(extended_checked rqh rsh id ts sk Hhead Hid ltac:(lia) len now digest Hsize Hdigest R HR n).
  rewrite !checked_named by (apply stored_only_chunked || by apply extended_only_chunked).
  destruct (is_framing n) eqn:Ef; [done|]. destruct (is_signature_hdr n) eqn:Es; [done|]. cbn [orb].
  unfold values. rewrite stored_named by done. unfold extended. cbn [rs_fields set_rs_fields]. by rewrite List.filter_app.
Qed.

(** The signature of the trailer alone covers the kept head. *)
Lemma stored_verified :
  SignedHead_verify stored_head (public_key_of sk) =
  Some (set_rs_fields stored_head (List.filter (fun f => negb (sig_field f)) (rs_fields stored_head) ++ [(initial_signature_hdr, final_sig)])).
Proof.
  unfold SignedHead_verify. rewrite split_signatures_spec. fold (checked stored_head). rewrite stored_signatures.
  cbn [foldl fst snd insert_field]. set (rs := List.filter (fun f => negb (sig_field f)) (rs_fields stored_head)).
  destruct (encode_key_id_clean (public_key_of sk)) as [Hk Hk0].
  destruct (http_signature_verify (final_head rqh rsh id ts sk len digest) (checked stored_head) sk (encode_key_id (public_key_of sk)) now
              (field_view final_sig)) as (hs & extra & Hp & Ek & Ea & Hv & Hx); try done.
  - by apply final_head_tokens.
  - intros f Hf. unfold checked in Hf. cbn [rs_fields set_rs_fields] in Hf. apply elem_of_erases in Hf as [Hf _].
    apply without_framing_elem in Hf as [Hf _]; [by apply stored_tokens|apply stored_only_chunked].
  - apply (rc_result _ _ _ _ _ R HR).
  - intros n _. apply stored_checked.
  - intros n. rewrite final_head_values by done. repeat (case_bool_decide; [by intros (w & vs & [=])|]).
    destruct (is_framing n); [by intros (w & vs & [=])|by apply announced_values].
  - rewrite (verify_step_good (checked stored_head) _ _ (final_signature_hdr, final_sig) hs extra) by done.
    cbn [v_rsh v_sig_ok v_extra v_sig_idx snd negb].
    rewrite (filter_nil_all (fun e => negb (bool_decide (find_field (fst e) extra = None)))).
    2: { apply Forall_forall. intros f _. rewrite bool_decide_true; [done|]. apply Hx. rewrite stored_checked.
         destruct (values (fst f) (rs_fields (final_head rqh rsh id ts sk len digest))); [by left|by right]. }
    cbn [foldl]. do 2 f_equal. apply insert_field_new. intros f Hf E.
    apply list_elem_of_In, filter_In in Hf as [_ Hf]. by rewrite (sig_field_name _ _ E) in Hf.
Qed.

Lemma announced_found r :
  (forall n, is_signature_hdr n = false -> is_framing n = false ->
     List.filter (same_name n) (rs_fields r) = List.filter (same_name n) accepted ++ List.filter (same_name n) trailer_of) ->
  exists sh, create_from_trusted_source r = Value (Some sh) /\ parsed_from rqh id ts sk sh r /\
    find_field response_data_size_hdr (rs_fields r) = Some (to_string len) /\
    List.filter (same_name (str "Digest")) (rs_fields r) = [(str "Digest", digest_value digest)].
Proof.
  intros Hr. destruct (created_from rqh rsh id ts sk Hhead Hid ltac:(lia) r) as (sh & Hc & Hsh).
  { intros n (Hf & Hs & Hv)%(announced_names rqh rsh id ts sk). rewrite !find_field_filter, Hr, accepted_named, Hf, bool_decide_false by done.
    cbn [orb negb]. rewrite (rc_named _ _ _ _ _ R HR) by done.
    destruct (List.filter (same_name n) (announced rqh rsh id ts sk)) eqn:E; [|done]. exfalso. apply Hv. unfold values. by rewrite E. }
  exists sh. split_and!; [done|done|..].
  - destruct (announced_without rqh rsh id ts sk Hsize Hdigest response_data_size_hdr) as (V1 & F1 & S1); [left|].
    by rewrite find_field_filter, Hr, accepted_named, F1, bool_decide_true by done.
  - destruct (announced_without rqh rsh id ts sk Hsize Hdigest (str "Digest")) as (V2 & F2 & S2); [right; left|].
    by rewrite Hr, accepted_named, F2, bool_decide_true by done.
Qed.

Lemma accepted_found n :
  n ∈ [response_uri_hdr; response_injection_hdr; response_block_signatures_hdr] ->
  find_field n accepted = find_field n (announced rqh rsh id ts sk).
Proof.
  intros (Hf & Hs & Hv)%(announced_names rqh rsh id ts sk). rewrite !find_field_filter, accepted_named, Hf, bool_decide_false by done.
  cbn [orb negb]. by rewrite (rc_named _ _ _ _ _ R HR).
Qed.

Lemma merged_created : exists sh, create_from_trusted_source merged = Value (Some sh) /\ parsed_from rqh id ts sk sh merged.
Proof. destruct (announced_found merged merged_named) as (sh & Hc & Hp & _). by exists sh. Qed.

Lemma stored_created :
  exists sh te, verify_and_create stored_head (public_key_of sk) = Value (Some sh) /\ parsed_from rqh id ts sk sh (sh_head sh) /\
    find_field (str "Transfer-Encoding") (rs_fields (sh_head sh)) = Some te /\ last_is_chunked te = true /\
    result (sh_head sh) = result rsh /\
    find_field response_data_size_hdr (rs_fields (sh_head sh)) = Some (to_string len) /\
    List.filter (same_name (str "Digest")) (rs_fields (sh_head sh)) = [(str "Digest", digest_value digest)].
Proof.
  unfold verify_and_create. rewrite stored_verified. set (K := set_rs_fields stored_head _).
  assert (forall n, is_signature_hdr n = false -> List.filter (same_name n) (rs_fields K) = List.filter (same_name n) (rs_fields stored_head)) as HK.
  { intros n Hs. unfold K. cbn [rs_fields set_rs_fields]. rewrite List.filter_app, filter_name_nonsig by done.
    rewrite (filter_nil_all _ [_]); [apply app_nil_r|]. constructor; [|constructor]. apply not_true_iff_false.
    rewrite <-same_name_lower. intros E. by rewrite <-(sig_field_name n _ E) in Hs. }
  destruct (announced_found K) as (sh & Hc & Hp & Hd & Hg).
  { intros n Hs Hf. by rewrite HK, stored_named. }
  exists sh, (str "chunked"). pose proof Hp as (Hh & _). rewrite Hh. split_and!; try done.
  - rewrite find_field_filter, HK, <-find_field_filter by done. unfold stored_head. cbn [rs_fields set_rs_fields]. apply find_set_same.
  - by apply chunked_is_last.
  - apply (rc_result _ _ _ _ _ R HR).
Qed.

End Kept.
End Stored.

(** ** Chains fit for the store *)

Section Chain.
Context {S : SignatureScheme} {SL : SignatureLaws S}.
Variable sha512 : list byte -> list byte.

Definition hashed (h : ChainHasher) : Prop :=
  match _prev_chained_digest h with Some d => exists x, d = sha512 x | None => True end.

(** A hash that is never zero is fit for every chain. *)
Lemma never_zero l : (forall x, sha512 x <> zero_digest) -> forall h, hashed h -> no_zero_hash sha512 h l.
Proof.
  intros Hz. induction l as [|b l IH]; intros h Hh; [done|]. cbn [no_zero_hash]. split; [|apply IH; by eexists].
  intros E. unfold hashed in Hh. rewrite E in Hh. destruct Hh as [x Hx]. by apply (Hz x).
Qed.

Lemma full_blocks_count bs (c : list (list byte * list byte)) :
  0 < bs -> full_blocks fst bs c -> Forall (fun b => fst b <> []) c -> (Z.of_nat (length c) - 1) * bs <= size_of (concat (map fst c)).
Proof.
  intros Hbs. induction c as [|b c IH]; intros Hf Hne; [cbn; change (size_of []) with 0; lia|].
  apply Forall_cons in Hne as [Hb Hne]. destruct (full_blocks_cons _ _ _ Hf) as (_ & Hf' & Hfull).
  specialize (IH Hf' Hne). cbn [map concat length]. rewrite size_of_app. pose proof (size_of_nonneg (fst b)).
  destruct c as [|d c]; [cbn; change (size_of []) with 0; lia|]. rewrite Hfull by done. rewrite Nat2Z.inj_succ. lia.
Qed.

Lemma injected_chain_ok id sk (bs : list (list byte)) :
  Forall good_block bs -> full_blocks Datatypes.id response_data_block bs -> size_of (concat bs) < 2 ^ 47 ->
  no_zero_hash sha512 new_hasher (injected_chain sha512 id sk bs) ->
  chain_ok sha512 response_data_block (injected_chain sha512 id sk bs).
Proof.
  intros Hg Hf Hs Hz.
  set (c := injected_chain sha512 id sk bs) in *.
  assert (map fst c = body_blocks bs) as Hd by (unfold c, injected_chain; apply injected_data).
  assert (full_blocks fst response_data_block c) as Hfull.
  { apply full_blocks_map. rewrite Hd. by destruct bs. }
  assert (concat (map fst c) = concat bs) as Hcat by (rewrite Hd; by destruct bs).
  assert (0 < response_data_block) as Hpos by done.
  assert (Forall (fun b => fst b <> []) c \/ exists s, c = [([], s)]) as Hne.
  { destruct bs as [|b bs]; [right|left].
    - destruct c as [|[d s] [|]]; try done. injection Hd as ->. by exists s.
    - apply (Forall_fmap fst (fun x => x <> [])). change (fst <$> c) with (map fst c). rewrite Hd. eapply Forall_impl; [exact Hg|by intros x [? _]]. }
  assert ((Z.of_nat (length c) - 1) * response_data_block <= size_of (concat (map fst c))) as Hcount.
  { destruct Hne as [Hne|[s ->]]; [by apply full_blocks_count|done]. }
  rewrite Hcat in Hcount. unfold response_data_block in Hcount. split_and!; try done.
  - intros E. rewrite E in Hd. by destruct bs.
  - apply injected_good.
  - lia.
  - unfold response_data_block. lia.
Qed.

End Chain.

(** ** Theorem *)

Lemma created_uri `{Base64} rsh sh : create_from_trusted_source rsh = Value (Some sh) -> sh_uri sh = field_value response_uri_hdr (rs_fields rsh).
Proof.
  unfold create_from_trusted_source. case_bool_decide; [done|]. destruct (BlockSigs_parse _) as [[bsp|]|]; [|done|done].
  destruct (_ <? _); [done|]. case_bool_decide; [done|]. destruct (fst _); [|done]. by intros [= <-].
Qed.

Section PassedOn.
Context {S : SignatureScheme} {SL : SignatureLaws S} {B : Base64} {BL : Base64Laws B} {BS : Base64Size B}.
Context {T : TransferCoding} {TL : TransferCodingLaws T} {O : BeastOps} {OL : BeastLaws} {F : FieldTable} {FL : FieldTableLaws F}.
Context {C : HeadCodec}.
Variables (sha256 sha512 : list byte -> list byte).

Abbreviation verify_reads pk := (verifying_read sha256 sha512 true pk []).

(** What the store sends is accepted: its head has the size and the digest, and its
    trailer is empty. *)
Lemma stored_body_accepted rqh rsh id ts now sk R data bs arrived :
  cache_head rsh -> id <> [] /\ (","%byte ∉ id) /\ no_margin " "%byte id -> - 2 ^ 63 <= ts /\ ts <= now < 2 ^ 63 ->
  values response_data_size_hdr (rs_fields rsh) = [] -> values (str "Digest") (rs_fields rsh) = [] ->
  received rqh rsh id ts sk R -> Forall good_block bs -> concat bs = data -> size_of data < 2 ^ 47 ->
  transported (HeadPart (stored_head rqh rsh id ts sk (size_of data) now (sha256 data) R)
               :: chain_parts sha512 hashed_ext (injected_chain sha512 id sk bs) ++ [Trailer []]) arrived ->
  exists head rest, delivers (verify_reads (public_key_of sk)) (map inr arrived) verifying_init (HeadPart head :: rest) /\
    result head = result rsh /\ concat (bodies rest) = data.
Proof.
  intros Hcache Hid Hts Hs Hd HR Hbs Hcat Hlen Ha.
  assert (size_of data < unsigned_max W8) as Hmax by (unfold unsigned_max, bits; lia).
  apply transported_part in Ha as (qs & -> & Ha); [|done]. cbn [map].
  destruct (stored_created rqh rsh id ts sk (size_of data) now (sha256 data) Hcache Hid Hts Hs Hd R HR)
    as (sh & te & Hv & Hsh & Hte & Hl & Hres & Hfs & Hfd).
  destruct (read_head sha256 sha512 sk true _ sh te (map inr qs) Hv Hte Hl) as (st & Hread & Hf).
  { intros E%map_eq_nil. by apply transported_nonempty in Ha. }
  exists (sh_head sh), (chain_parts sha512 hashed_ext (injected_chain sha512 id sk bs) ++ [Trailer []]). split_and!; [|done|].
  - eapply deliver_part; [exact Hread|].
    apply (verify_injected sha256 sha512 rqh id ts sk hashed_ext true sh [] data bs qs st); try done; [| |lia].
    + intros h b Hb. by apply chunk_sig_read.
    + intros h st' [F1 F2 F3 F4 F9 F5 F6 F7 F8].
      eapply verify_last; [done| |done|done|done|done|exact Hfs|exact Hfd|done].
      unfold verify_trailer. rewrite F1. cbn [existsb insert_fields foldl]. destruct sh as [[] ]. reflexivity.
  - unfold bodies. rewrite map_app, concat_app. cbn [map concat part_body]. fold (bodies (chain_parts sha512 hashed_ext (injected_chain sha512 id sk bs))).
    rewrite app_nil_r, <-Hcat. apply injected_bodies. eapply Forall_impl; [exact Hbs|by intros x [? _]].
Qed.

(** C3: what an injector signs can be passed on from client to client: a client that
    verified a response stores it, and what another client is sent from that store is
    accepted again and is the body of the origin. This is so under conditions that the
    code does not check: the headers of the origin are tokens, none of them is repeated
    with an empty first value, [Transfer-Encoding] is not empty and there is no [Digest];
    no data part is empty; the body is smaller than 2^47 bytes; the URL
    of the request is not empty; the times are of 64 bits and that of the injection is not in the future; the identifier of the injection has no comma and no margin of blanks; none of the digests of the chain of
    the body (its blocks are given by its data) is the zero that stands for none; and
    the head that is stored is read from its file as it was written. *)
Theorem stored_response_reverified (rqh : request_header) (orig rsh : response_header) (id : list byte) (ts now : Z) (sk : SecretKey)
    (inp : input) :
  (forall x, length (sha512 x) = Digest_size) ->
  to_cache_response orig = (false, rsh) -> origin_head orig -> target rqh <> [] ->
  id <> [] /\ (","%byte ∉ id) /\ no_margin " "%byte id -> - 2 ^ 63 <= ts /\ ts <= now < 2 ^ 63 ->
  Forall (fun i => exists p, i = inr p /\ origin_part p = true) inp -> no_empty_part inp -> size_of (input_data inp) < 2 ^ 47 ->
  (forall bs, concat bs = input_data inp -> full_blocks Datatypes.id response_data_block bs ->
     no_zero_hash sha512 new_hasher (injected_chain sha512 id sk bs)) ->
  exists sent, delivers (signing_read sha256 sha512 rqh id ts sk now) (inr (HeadPart orig) :: inp) signing_init sent /\
    forall arrived, transported sent arrived ->
      exists head rest t hd,
        delivers (verify_reads (public_key_of sk)) (map inr arrived) verifying_init (HeadPart head :: rest ++ [Trailer t]) /\
        kept_head head t = Some hd /\
        (parse_head (print_head hd) = Some hd ->
         exists files r again, http_store sha512 (map inr (HeadPart head :: rest ++ [Trailer t])) writer_init = Ok files /\
           http_store_reader files None = Ok r /\ delivers resource_reads [] r again /\
           forall arrived2, transported again arrived2 ->
             exists head2 rest2, delivers (verify_reads (public_key_of sk)) (map inr arrived2) verifying_init (HeadPart head2 :: rest2) /\
               result head2 = result orig /\ concat (bodies rest2) = input_data inp).
Proof.
  intros Hsha Ho Hh Htarget Hid Hts Hinp Hempty Hlen Hzero.
  assert (size_of (input_data inp) < unsigned_max W8) as Hmax by (unfold unsigned_max, bits; lia).
  destruct (signed_response_verified sha256 sha512 rqh rsh id ts now sk orig inp Ho Hh Hid ltac:(lia) Hinp Hmax)
    as (bs & Hbs & Hcat & Hfull & Hsent & Hcache & Hs & Hd & HR & Hver).
  pose proof (injected_chain_ok sha512 id sk bs Hbs (Hfull Hempty) ltac:(by rewrite Hcat) (Hzero bs Hcat (Hfull Hempty))) as Hok.
  eexists. split; [exact Hsent|]. intros arrived Ha. destruct (Hver true arrived Ha) as (sh & Hsh & Hdel).
  set (R := set_keep_alive (get_keep_alive orig) (sign_response rqh rsh id ts sk)) in *.
  set (data := input_data inp) in *. set (t := body_trailer sha256 rqh rsh id ts now sk data) in *.
  set (len := size_of data). set (digest := sha256 data). set (hd := merged rqh rsh id ts sk len now digest R).
  exists (sh_head sh), (chain_parts sha512 hashed_ext (injected_chain sha512 id sk bs)), t, hd.
  destruct Hsh as (Hhead & _). split_and!; [exact Hdel| |].
  { unfold kept_head. rewrite bool_decide_false by done. rewrite Hhead.
    apply (merge_accepted rqh rsh id ts sk len now digest Hcache Hts Hs Hd R HR). }
  intros Hcodec. destruct (merged_created rqh rsh id ts sk len now digest Hcache Hid Hts Hs Hd R HR) as (shm & Hcm & Hpm).
  destruct Hpm as (_ & _ & _ & Huri & _ & Hblock). rewrite (created_uri _ _ Hcm) in Huri.
  pose proof (fun n => accepted_found rqh rsh id ts sk R HR n) as Hfound.
  destruct (bsigs_parsed sk (field_view (bsigs_value (encode_key_id (public_key_of sk)))) eq_refl) as [a Hbp].
  assert (field_value response_block_signatures_hdr (rs_fields (sh_head sh)) = bsigs_value (encode_key_id (public_key_of sk))) as Hb.
  { rewrite Hhead. cbn [rs_fields set_rs_fields]. unfold field_value. rewrite Hfound by (right; right; left). unfold announced. by rewrite find_set_same. }
  destruct (store_written sha512 response_data_block (sh_head sh) t hd
              {| bs_pk := public_key_of sk; bs_algorithm := a; bs_size := response_data_block |}
              (injected_chain sha512 id sk bs) (chain_parts sha512 hashed_ext (injected_chain sha512 id sk bs)))
    as (files & Hst & Fh & Fs & Fb); try done; try by rewrite Hb.
  { rewrite Hhead. cbn [rs_fields set_rs_fields]. unfold field_value. rewrite Hfound by left. unfold announced.
    repeat (rewrite find_set_other by done). by rewrite find_set_same. }
  { unfold kept_head. rewrite bool_decide_false by done. rewrite Hhead.
    apply (merge_accepted rqh rsh id ts sk len now digest Hcache Hts Hs Hd R HR). }
  { apply transported_refl, chain_parts_chunked. }
  destruct (store_read sha512 Hsha response_data_block hd shm (injected_chain sha512 id sk bs) files) as (r & hd' & Hr & Hhd' & Hread);
    try done; [by unfold hd; rewrite Huri|].
  pose proof (chunked_merged rqh rsh id ts sk len now digest R HR) as Hch. fold hd in Hch. rewrite Hhd' in Hch. injection Hch as ->.
  exists files, r. eexists. split_and!; [exact Hst|exact Hr|exact Hread|]. intros arrived2 Ha2.
  destruct (stored_body_accepted rqh rsh id ts now sk R data bs arrived2) as (head2 & rest2 & H1 & H2 & H3); try done.
  exists head2, rest2. split_and!; [done| |done]. rewrite H2. unfold to_cache_response in Ho. destruct (_ && _); [done|]. by injection Ho as <-.
Qed.

End PassedOn.

(** ** Witness *)

#[local] Existing Instances rfc_base64 rfc_base64_laws rfc_base64_size toy_coding toy_coding_laws toy_beast toy_beast_laws.
#[local] Existing Instances sample_headers sample_headers_laws line_codec Crypto.toy_scheme Crypto.toy_scheme_laws.

(** A hash that is never zero. *)
Definition marked_hash (x : list byte) : list byte := Byte.x01 :: pad 63 x.

Lemma marked_hash_size x : length (marked_hash x) = Digest_size.
Proof. unfold marked_hash. cbn [length]. by rewrite pad_length. Qed.

Lemma stored_response_reverified_witness :
  exists sent, delivers (signing_read marked_hash marked_hash sample_rq (str "d6076384") 1516048310 sample_sk 1516048311)
                 (inr (HeadPart sample_rs) :: sample_body) signing_init sent /\
    forall arrived, transported sent arrived ->
      exists head rest t hd,
        delivers (verifying_read marked_hash marked_hash true (public_key_of sample_sk) []) (map inr arrived) verifying_init
          (HeadPart head :: rest ++ [Trailer t]) /\
        kept_head head t = Some hd /\
        (parse_head (print_head hd) = Some hd ->
         exists files r again, http_store marked_hash (map inr (HeadPart head :: rest ++ [Trailer t])) writer_init = Ok files /\
           http_store_reader files None = Ok r /\ delivers resource_reads [] r again /\
           forall arrived2, transported again arrived2 ->
             exists head2 rest2, delivers (verifying_read marked_hash marked_hash true (public_key_of sample_sk) []) (map inr arrived2)
                                   verifying_init (HeadPart head2 :: rest2) /\
               result head2 = 200 /\ concat (bodies rest2) = str "hello world").
Proof.
  apply (stored_response_reverified marked_hash marked_hash sample_rq sample_rs (snd (to_cache_response sample_rs)) (str "d6076384")
              1516048310 1516048311 sample_sk sample_body marked_hash_size).
  - vm_compute. reflexivity.
  - exact sample_origin.
  - discriminate.
  - split; [discriminate|]. split; [by_evaluation|]. apply no_margin_free. by_evaluation.
  - lia.
  - repeat constructor; eexists; (split; [reflexivity|]); apply Nat.leb_le; cbn; pose proof block_quantum_size as Hq;
      unfold response_data_block in Hq; lia.
  - repeat constructor; discriminate.
  - vm_compute. reflexivity.
  - intros bs _ _. apply never_zero; [discriminate|done].
Defined.
