(* ===== verification/Announcer.v ===== *)
(** * Announcing keys: src/cache/announcer.cpp

    The loop that announces the keys of the cache's groups to the DHT.  Entries wait
    in a queue; the loop takes the first one when it is due and spawns a coroutine
    that announces it, up to a number of them at a time, and waits for all of these
    before it takes the next ones.  A spawned coroutine runs up to its first
    suspension before the loop goes on.

    The coroutines are steps on a shared state: an event is something that a client
    calls, the loop going on to its next suspension, a coroutine that ends, or the
    passing of time.  Instants are nanoseconds of the steady clock, and the instant
    that is zero stands for none, as [Clock::time_point()] does. *)
From S2P Require Import Prelude.

Definition Key := list byte.

Record Entry := {
  key : Key;
  infohash : list byte;
  successful_update : Z;
  failed_update : Z;
  to_remove : bool;
}.

Definition minutes (n : Z) : Z := n * 60 * 10 ^ 9.
Definition success_reannounce_period : Z := minutes 20.
Definition failure_reannounce_period : Z := minutes 5.

Section Code.
Variable sha1 : list byte -> list byte.

Definition new_entry (k : Key) : Entry :=
  {| key := k; infohash := sha1 k; successful_update := 0; failed_update := 0; to_remove := false |}.

Definition attempted_update (e : Entry) : bool :=
  negb (successful_update e =? 0) || negb (failed_update e =? 0).

Definition set_to_remove (b : bool) (e : Entry) : Entry :=
  {| key := key e; infohash := infohash e; successful_update := successful_update e;
     failed_update := failed_update e; to_remove := b |}.

(** ** The queue *)

Definition find_entry_by_key (k : Key) (entries : list Entry) : option nat :=
  fst <$> list_find (fun e => key e = k) entries.

(** The new entry goes behind all that were not updated yet. *)
Fixpoint insert_new (e : Entry) (entries : list Entry) : list Entry :=
  match entries with
  | [] => [e]
  | x :: entries' => if attempted_update x then e :: entries else x :: insert_new e entries'
  end.

Definition add (k : Key) (entries : list Entry) : bool * list Entry :=
  match find_entry_by_key k entries with
  | Some i => (false, alter (set_to_remove false) i entries)
  | None => (true, insert_new (new_entry k) entries)
  end.

Definition remove (k : Key) (entries : list Entry) : bool * list Entry :=
  match find_entry_by_key k entries with
  | Some i => (true, alter (set_to_remove true) i entries)
  | None => (false, entries)
  end.

Definition next_update_after (now : Z) (e : Entry) : Z :=
  if (successful_update e =? 0) && (failed_update e =? 0) then 0
  else if failed_update e <=? successful_update e then
    if successful_update e + success_reannounce_period <=? now then 0
    else successful_update e + success_reannounce_period - now
  else
    if failed_update e + failure_reannounce_period <? now then 0
    else failed_update e + failure_reannounce_period - now.

(** ** The loop *)

(** Where the coroutine of the loop is: it picks the entry number [n] of its round,
    waits in [pick_entry] for one to be pushed or for the first one to be due, or
    waits for all announcements of the round. *)
Variant phase :=
| Picking (n : nat)
| Waiting (n : nat)
| Sleeping (n : nat) (until : Z)
| Joining.

Record state := { entries : list Entry; in_flight : list Entry; at_ : phase; now : Z }.

Definition set_phase (p : phase) (s : state) : state :=
  {| entries := entries s; in_flight := in_flight s; at_ := p; now := now s |}.

Variable simultaneous : nat.

(** [pick_entry], and what the loop does with the entry; also the entry it took. *)
Definition pick (n : nat) (s : state) : state * option Entry :=
  if (simultaneous <=? n)%nat then (set_phase Joining s, None)
  else
    match entries s with
    | [] => (set_phase (Waiting n) s, None)
    | e :: entries' =>
        let d := next_update_after (now s) e in
        if d =? 0 then
          if to_remove e then
            ({| entries := entries'; in_flight := in_flight s; at_ := Picking (S n); now := now s |}, Some e)
          else
            ({| entries := entries'; in_flight := in_flight s ++ [e]; at_ := Picking (S n); now := now s |}, Some e)
        else (set_phase (Sleeping n (now s + d)) s, None)
    end.

(** The loop goes on, if it can. *)
Definition loop (s : state) : option (state * option Entry) :=
  match at_ s with
  | Picking n => Some (pick n s)
  | Waiting n => if bool_decide (entries s = []) then None else Some (set_phase (Picking n) s, None)
  | Sleeping n until => if now s <? until then None else Some (set_phase (Picking n) s, None)
  | Joining => if bool_decide (in_flight s = []) then Some (set_phase (Picking 0) s, None) else None
  end.

(** Up to three attempts to announce. *)
Fixpoint announce_attempts (tries : nat) (outcomes : list bool) : bool :=
  match tries, outcomes with
  | S tries', o :: outcomes' => if o : bool then true else announce_attempts tries' outcomes'
  | _, _ => false
  end.

Definition updated (success : bool) (now : Z) (e : Entry) : Entry :=
  if success
  then {| key := key e; infohash := infohash e; successful_update := now; failed_update := 0; to_remove := to_remove e |}
  else {| key := key e; infohash := infohash e; successful_update := successful_update e; failed_update := now;
          to_remove := to_remove e |}.

(** The coroutine of the announcement number [i] ends. *)
Definition finish (i : nat) (outcomes : list bool) (s : state) : option state :=
  let? e := in_flight s !! i in
  let e := updated (announce_attempts 3 outcomes) (now s) e in
  Some {| entries := if to_remove e then entries s else entries s ++ [e];
          in_flight := delete i (in_flight s); at_ := at_ s; now := now s |}.

Inductive event :=
| Add (k : Key)
| Remove (k : Key)
| Loop
| Finish (i : nat) (outcomes : list bool)
| Tick (t : Z).

Definition set_entries (l : list Entry) (s : state) : state :=
  {| entries := l; in_flight := in_flight s; at_ := at_ s; now := now s |}.

(** A step, with the entry that the loop took from the queue in it. *)
Definition step (ev : event) (s : state) : option (state * option Entry) :=
  match ev with
  | Add k => Some (set_entries (snd (add k (entries s))) s, None)
  | Remove k => Some (set_entries (snd (remove k (entries s))) s, None)
  | Loop => loop s
  | Finish i outcomes => let? s := finish i outcomes s in Some (s, None)
  | Tick t => if now s <=? t
              then Some ({| entries := entries s; in_flight := in_flight s; at_ := at_ s; now := t |}, None) else None
  end.

(** A run, with the entries that were taken. *)
Fixpoint run (evs : list event) (s : state) : option (state * list Entry) :=
  match evs with
  | [] => Some (s, [])
  | ev :: evs' =>
      let? (s, taken) := step ev s in
      let? (s, more) := run evs' s in
      Some (s, match taken with Some e => e :: more | None => more end)
  end.

Definition start (t : Z) : state := {| entries := []; in_flight := []; at_ := Picking 0; now := t |}.

End Code.

(** ** The order of the queue *)

Definition last_attempt (e : Entry) : Z := Z.max (successful_update e) (failed_update e).

Definition older (a b : Entry) : Prop := last_attempt a <= last_attempt b.

Definition entry_ok (t : Z) (e : Entry) : Prop := 0 <= successful_update e <= t /\ 0 <= failed_update e <= t.

(** The queue is sorted by the last attempt; entries in flight are not to be removed. *)
Record Inv (s : state) : Prop := {
  inv_now : 0 < now s;
  inv_sorted : StronglySorted older (entries s);
  inv_entries : Forall (entry_ok (now s)) (entries s);
  inv_flying : Forall (fun e => entry_ok (now s) e /\ to_remove e = false) (in_flight s);
}.

Lemma attempted_iff t e : entry_ok t e -> attempted_update e = true <-> 0 < last_attempt e.
Proof.
  intros [H1 H2]. unfold attempted_update, last_attempt. rewrite orb_true_iff, !negb_true_iff, !Z.eqb_neq. lia.
Qed.

Lemma unattempted_iff t e : entry_ok t e -> attempted_update e = false <-> last_attempt e = 0.
Proof.
  intros H. rewrite <-not_true_iff_false, attempted_iff by done. destruct H. unfold last_attempt. lia.
Qed.

Lemma entry_ok_later t t' e : t <= t' -> entry_ok t e -> entry_ok t' e.
Proof. intros Ht [H1 H2]. split; lia. Qed.

Lemma insert_new_elem e l x : x ∈ insert_new e l <-> x = e \/ x ∈ l.
Proof.
  induction l as [|y l IH]; cbn [insert_new]; [set_solver|]. destruct (attempted_update y); set_solver.
Qed.

Lemma insert_new_sorted t e l :
  last_attempt e = 0 -> Forall (entry_ok t) l -> StronglySorted older l -> StronglySorted older (insert_new e l).
Proof.
  intros He Hl Hs. induction Hs as [|y l Hs IH Hy]; cbn [insert_new]; [by repeat constructor|].
  apply Forall_cons in Hl as [Hok Hl]. destruct (attempted_update y) eqn:Ea.
  - apply (attempted_iff t) in Ea; [|done]. repeat constructor; [done..|unfold older; lia|].
    eapply Forall_impl; [exact Hy|]. unfold older. intros x Hx. lia.
  - apply (unattempted_iff t) in Ea; [|done]. constructor; [by apply IH|]. apply Forall_forall. intros x [->|Hx]%insert_new_elem.
    + unfold older. lia.
    + rewrite Forall_forall in Hy. by apply Hy.
Qed.

Lemma sorted_fmap f l :
  (forall e, last_attempt (f e) = last_attempt e) -> StronglySorted older l -> forall i, StronglySorted older (alter f i l).
Proof.
  intros Hf Hs. induction Hs as [|y l Hs IH Hy]; intros [|i]; cbn; [constructor..| |]; constructor; try done.
  - eapply Forall_impl; [exact Hy|]. unfold older. intros x Hx. by rewrite Hf.
  - apply Forall_forall. intros x Hx. apply list_elem_of_lookup in Hx as [j Hj].
    rewrite list_lookup_alter in Hj. rewrite Forall_lookup in Hy. case_decide as E; [subst j|by eapply Hy].
    destruct (l !! i) as [z|] eqn:Ez; [|done]. injection Hj as <-. unfold older. rewrite Hf. by eapply Hy.
Qed.

Lemma ok_alter t b i l : Forall (entry_ok t) l -> Forall (entry_ok t) (alter (set_to_remove b) i l).
Proof. intros Hl. by apply Forall_alter. Qed.

Lemma sorted_snoc l e : StronglySorted older l -> Forall (fun x => older x e) l -> StronglySorted older (l ++ [e]).
Proof.
  intros Hs. induction Hs as [|y l Hs IH Hy]; intros Hl; cbn; [by repeat constructor|]. apply Forall_cons in Hl as [Hye Hl].
  constructor; [by apply IH|]. apply Forall_app. split; [done|]. by repeat constructor.
Qed.

Lemma updated_ok b t e : 0 < t -> entry_ok t e -> entry_ok t (updated b t e) /\ last_attempt (updated b t e) = t.
Proof. intros Ht [H1 H2]. unfold entry_ok, last_attempt, updated. destruct b; cbn; lia. Qed.

Section Runs.
Variable sha1 : list byte -> list byte.
Variable simultaneous : nat.

Lemma step_inv ev s s' taken : Inv s -> step sha1 simultaneous ev s = Some (s', taken) -> Inv s'.
Proof.
  intros [I1 I2 I3 I4]. destruct ev as [k|k| |i outcomes|t]; cbn [step].
  - intros [= <- <-]. unfold add. destruct (find_entry_by_key k (entries s)) as [i|]; split; cbn; try done.
    + by apply sorted_fmap.
    + by apply ok_alter.
    + by eapply insert_new_sorted.
    + apply Forall_forall. intros x [->|Hx]%insert_new_elem; [split; cbn; lia|]. rewrite Forall_forall in I3. by apply I3.
  - intros [= <- <-]. unfold remove. destruct (find_entry_by_key k (entries s)) as [i|]; split; cbn; try done.
    + by apply sorted_fmap.
    + by apply ok_alter.
  - unfold loop. destruct (at_ s) as [n|n|n until|].
    + unfold pick. destruct (simultaneous <=? n)%nat; [by intros [= <- <-]|].
      destruct (entries s) as [|e l] eqn:El; [intros [= <- <-]; split; cbn; rewrite ?El; done|].
      pose proof (StronglySorted_inv I2) as [I2' _]. pose proof (proj1 (Forall_cons _ _ _) I3) as [I3' I3''].
      destruct (next_update_after (now s) e =? 0); [|intros [= <- <-]; split; cbn; rewrite ?El; done].
      destruct (to_remove e) eqn:Er; intros [= <- <-]; split; cbn; try done. apply Forall_app. by rewrite Forall_singleton.
    + case_bool_decide; [done|]. by intros [= <- <-].
    + destruct (now s <? until); [done|]. by intros [= <- <-].
    + case_bool_decide; [|done]. by intros [= <- <-].
  - unfold finish. destruct (in_flight s !! i) as [e|] eqn:Ei; [|done]. cbv zeta.
    rewrite Forall_lookup in I4. destruct (I4 _ _ Ei) as [He Hr].
    destruct (updated_ok (announce_attempts 3 outcomes) (now s) e I1 He) as [Hu Hl].
    assert (to_remove (updated (announce_attempts 3 outcomes) (now s) e) = false) as Hur by (unfold updated; by destruct (announce_attempts 3 outcomes)).
    revert Hu Hl Hur. generalize (updated (announce_attempts 3 outcomes) (now s) e). intros u Hu Hl Hur. rewrite Hur.
    intros [= <- <-]. split; cbn [entries in_flight now]; try done.
    + apply sorted_snoc; [done|]. eapply Forall_impl; [exact I3|]. intros x [H1 H2]. unfold older. rewrite Hl. unfold last_attempt. lia.
    + apply Forall_app. by rewrite Forall_singleton.
    + apply Forall_delete. by apply Forall_lookup.
  - destruct (Z.leb_spec (now s) t); [|done]. intros [= <- <-]. split; cbn; [lia|done|..].
    + eapply Forall_impl; [exact I3|]. intros x. by apply entry_ok_later.
    + eapply Forall_impl; [exact I4|]. intros x [? ?]. split; [by eapply entry_ok_later|done].
Qed.

Lemma run_inv evs : forall s s' taken, Inv s -> run sha1 simultaneous evs s = Some (s', taken) -> Inv s'.
Proof.
  induction evs as [|ev evs IH]; intros s s' taken Hi; cbn [run]; [by intros [= <- <-]|].
  destruct (step sha1 simultaneous ev s) as [[s1 t1]|] eqn:Es; [|done].
  destruct (run sha1 simultaneous evs s1) as [[s2 t2]|] eqn:Er; [|done]. intros [= <- <-].
  eapply IH; [|exact Er]. by eapply step_inv.
Qed.

(** ** Entries that were not announced yet *)

Lemma sorted_front (l : list Entry) (i j : nat) x y :
  StronglySorted older l -> l !! i = Some x -> l !! j = Some y -> (i <= j)%nat -> older x y.
Proof.
  intros Hs. revert i j. induction Hs as [|z l Hs IH Hz]; intros [|i] [|j] Hi Hj Hij; try done; try lia.
  - cbn in *. simplify_eq. unfold older. lia.
  - cbn in Hi. simplify_eq. rewrite Forall_lookup in Hz. by eapply Hz.
  - eapply IH; [done|done|lia].
Qed.

Lemma insert_new_lookup e (l : list Entry) (i : nat) :
  (forall j x, (j <= i)%nat -> l !! j = Some x -> attempted_update x = false) -> (i < length l)%nat ->
  insert_new e l !! i = l !! i.
Proof.
  revert i. induction l as [|y l IH]; intros i Hu Hi; [cbn in Hi; lia|]. cbn [insert_new].
  rewrite (Hu 0%nat y) by (done || lia). destruct i as [|i]; [done|]. cbn in *. apply IH; [|lia].
  intros j x Hj Hx. apply (Hu (S j)); [lia|done].
Qed.

(** [e] with the same key, not announced yet. *)
Definition same_new (e e' : Entry) : Prop := key e' = key e /\ last_attempt e' = 0.

Lemma alter_same_new b j (l : list Entry) (i : nat) e :
  l !! i = Some e -> last_attempt e = 0 -> exists e', alter (set_to_remove b) j l !! i = Some e' /\ same_new e e'.
Proof.
  intros Hl He. rewrite list_lookup_alter. case_decide as E; [subst; rewrite Hl; by eexists|by exists e].
Qed.

(** It keeps its place, but for entries before it that are taken. *)
Lemma step_new ev s s' taken i e :
  Inv s -> step sha1 simultaneous ev s = Some (s', taken) -> entries s !! i = Some e -> last_attempt e = 0 ->
  match taken, i with
  | None, _ => exists e', entries s' !! i = Some e' /\ same_new e e'
  | Some x, O => x = e
  | Some x, S j => exists e', entries s' !! j = Some e' /\ same_new e e'
  end.
Proof.
  intros Hi Hs Hl He. assert (exists e', entries s !! i = Some e' /\ same_new e e') as Hsame by (by exists e).
  destruct ev as [k|k| |j outcomes|t]; cbn [step] in Hs.
  - injection Hs as <- <-. unfold add. cbn [entries set_entries]. destruct (find_entry_by_key k (entries s)); cbn [snd].
    + by apply alter_same_new.
    + rewrite insert_new_lookup; [done| |by eapply lookup_lt_Some]. intros j x Hj Hx.
      pose proof (sorted_front _ _ _ _ _ (inv_sorted s Hi) Hx Hl Hj) as Ho. unfold older in Ho.
      assert (entry_ok (now s) x) as Hok by (pose proof (inv_entries s Hi) as Hf; rewrite Forall_lookup in Hf; by eapply Hf).
      apply (unattempted_iff (now s)); [done|]. destruct Hok. unfold last_attempt in *. lia.
  - injection Hs as <- <-. unfold remove. cbn [entries set_entries]. destruct (find_entry_by_key k (entries s)); cbn [snd]; [by apply alter_same_new|done].
  - unfold loop in Hs. destruct (at_ s) as [n|n|n until|].
    + unfold pick in Hs. destruct (simultaneous <=? n)%nat; [by injection Hs as <- <-|].
      destruct (entries s) as [|x l] eqn:El; [done|].
      destruct (next_update_after (now s) x =? 0); [|injection Hs as <- <-; cbn; by rewrite El].
      destruct (to_remove x); injection Hs as <- <-; (destruct i as [|i]; [by injection Hl|by exists e]).
    + case_bool_decide; [done|]. by injection Hs as <- <-.
    + destruct (now s <? until); [done|]. by injection Hs as <- <-.
    + case_bool_decide; [|done]. by injection Hs as <- <-.
  - destruct (finish j outcomes s) as [s1|] eqn:Ef; [|done]. injection Hs as <- <-. unfold finish in Ef.
    destruct (in_flight s !! j) as [x|]; [|done]. cbv zeta in Ef. injection Ef as <-. cbn [entries].
    exists e. split; [|done]. destruct (to_remove _); [done|]. by apply lookup_app_l_Some.
  - destruct (now s <=? t); [|done]. by injection Hs as <- <-.
Qed.

Lemma run_new evs : forall s s' taken i e,
  Inv s -> run sha1 simultaneous evs s = Some (s', taken) -> entries s !! i = Some e -> last_attempt e = 0 ->
  (exists x, taken !! i = Some x /\ key x = key e) \/
  (length taken <= i)%nat /\ exists e', entries s' !! (i - length taken)%nat = Some e' /\ same_new e e'.
Proof.
  induction evs as [|ev evs IH]; intros s s' taken i e Hi Hr Hl He; cbn [run] in Hr.
  { injection Hr as <- <-. right. cbn. split; [lia|]. rewrite Nat.sub_0_r. by exists e. }
  destruct (step sha1 simultaneous ev s) as [[s1 t1]|] eqn:Es; [|done].
  destruct (run sha1 simultaneous evs s1) as [[s2 t2]|] eqn:Er; [|done]. injection Hr as <- <-.
  pose proof (step_inv _ _ _ _ Hi Es) as Hi1. pose proof (step_new _ _ _ _ _ _ Hi Es Hl He) as Hstep.
  destruct t1 as [x|]; [destruct i as [|i]; [left; exists x; by subst|]|]; destruct Hstep as (e1 & Hl1 & Hk1 & He1).
  - destruct (IH _ _ _ _ _ Hi1 Er Hl1 He1) as [(y & Hy & Hk)|(Hle & e' & Hl' & Hk & Hz)].
    + left. exists y. split; [done|congruence].
    + right. cbn. split; [lia|]. exists e'. split; [done|]. split; [congruence|done].
  - destruct (IH _ _ _ _ _ Hi1 Er Hl1 He1) as [(y & Hy & Hk)|(Hle & e' & Hl' & Hk & Hz)].
    + left. exists y. split; [done|congruence].
    + right. split; [done|]. exists e'. split; [done|]. split; [congruence|done].
Qed.

(** *** Progress *)

(** What happens without a client. *)
Definition system (ev : event) : Prop := match ev with Add _ | Remove _ => False | _ => True end.

Lemma run_app evs1 evs2 s s1 s2 t1 t2 :
  run sha1 simultaneous evs1 s = Some (s1, t1) -> run sha1 simultaneous evs2 s1 = Some (s2, t2) ->
  run sha1 simultaneous (evs1 ++ evs2) s = Some (s2, t1 ++ t2).
Proof.
  revert s t1. induction evs1 as [|ev evs1 IH]; intros s t1 H1 H2; cbn [run app] in *; [by injection H1 as <- <-|].
  destruct (step sha1 simultaneous ev s) as [[s3 x]|]; [|done].
  destruct (run sha1 simultaneous evs1 s3) as [[s4 y]|] eqn:E; [|done]. injection H1 as <- <-.
  rewrite (IH _ _ E H2). by destruct x.
Qed.

Lemma finish_all l : forall s, in_flight s = l ->
  exists evs s' more, Forall system evs /\ run sha1 simultaneous evs s = Some (s', []) /\
    in_flight s' = [] /\ at_ s' = at_ s /\ entries s' = entries s ++ more.
Proof.
  induction l as [|e l IH]; intros s Hf.
  { exists [], s, []. split_and!; [constructor|done..|by rewrite app_nil_r]. }
  assert (exists s1 more, step sha1 simultaneous (Finish 0 [true]) s = Some (s1, None) /\ in_flight s1 = l /\ at_ s1 = at_ s /\ entries s1 = entries s ++ more)
    as (s1 & more1 & Hs & Hf1 & Hp & He).
  { cbn [step]. unfold finish. rewrite Hf. cbn [lookup list_lookup delete list_delete announce_attempts]. cbv zeta.
    destruct (to_remove (updated true (now s) e)) eqn:Er; eexists _, _; (split; [reflexivity|]); cbn [in_flight at_ entries]; split_and!; try done.
    by rewrite app_nil_r. }
  destruct (IH s1 Hf1) as (evs & s' & more & Hsys & Hrun & Hf' & Hp' & He').
  exists (Finish 0 [true] :: evs), s', (more1 ++ more). split_and!; [by constructor| |done|congruence|by rewrite He', He, app_assoc].
  cbn [run]. by rewrite Hs, Hrun.
Qed.

(** The announcements under way are at most those that the round has started. *)
Definition started (p : phase) : nat :=
  match p with
  | Picking n | Waiting n | Sleeping n _ => min n simultaneous
  | Joining => simultaneous
  end.

Lemma step_slots ev s s' taken :
  (length (in_flight s) <= started (at_ s))%nat -> step sha1 simultaneous ev s = Some (s', taken) ->
  (length (in_flight s') <= started (at_ s'))%nat.
Proof.
  intros Hs. destruct ev as [k|k| |i outcomes|t]; cbn [step].
  - by intros [= <- <-].
  - by intros [= <- <-].
  - unfold loop. destruct (at_ s) as [n|n|n until|] eqn:Ep; cbn [started] in Hs.
    + unfold pick. destruct (Nat.leb_spec simultaneous n); [intros [= <- <-]; cbn; lia|].
      destruct (entries s) as [|e l]; [by intros [= <- <-]|].
      destruct (next_update_after (now s) e =? 0); [|by intros [= <- <-]].
      destruct (to_remove e); intros [= <- <-]; cbn [started in_flight at_]; rewrite ?length_app; cbn [length]; lia.
    + case_bool_decide; [done|]. by intros [= <- <-].
    + destruct (now s <? until); [done|]. by intros [= <- <-].
    + case_bool_decide as E; [|done]. intros [= <- <-]. cbn. rewrite E. cbn. lia.
  - unfold finish. destruct (in_flight s !! i) as [e|] eqn:Ei; [|done]. cbv zeta. intros [= <- <-]. cbn [in_flight at_].
    pose proof (length_delete (in_flight s) i ltac:(by eexists)). lia.
  - destruct (now s <=? t); [|done]. by intros [= <- <-].
Qed.

Lemma run_slots evs : forall s s' taken,
  (length (in_flight s) <= started (at_ s))%nat -> run sha1 simultaneous evs s = Some (s', taken) ->
  (length (in_flight s') <= started (at_ s'))%nat.
Proof.
  induction evs as [|ev evs IH]; intros s s' taken Hs; cbn [run]; [by intros [= <- <-]|].
  destruct (step sha1 simultaneous ev s) as [[s1 t1]|] eqn:Es; [|done].
  destruct (run sha1 simultaneous evs s1) as [[s2 t2]|] eqn:Er; [|done]. intros [= <- <-].
  eapply IH; [|exact Er]. by eapply step_slots.
Qed.

Lemma started_le p : (started p <= simultaneous)%nat.
Proof. destruct p; cbn; lia. Qed.

Lemma start_inv t : 0 < t -> Inv (start t).
Proof. intros Ht. by split; cbn; [|constructor..]. Qed.

(** What a step that takes an entry does. *)
Lemma step_taken ev s s' e :
  step sha1 simultaneous ev s = Some (s', Some e) ->
  ev = Loop /\ entries s = e :: entries s' /\ next_update_after (now s) e = 0 /\
  in_flight s' = in_flight s ++ (if to_remove e then [] else [e]).
Proof.
  destruct ev as [k|k| |i outcomes|t]; cbn [step]; [done|done| |by destruct (finish _ _ _)|by destruct (now s <=? t)].
  unfold loop. destruct (at_ s) as [n|n|n until|]; [|by case_bool_decide|by destruct (now s <? until)|by case_bool_decide].
  unfold pick. destruct (simultaneous <=? n)%nat; [done|]. destruct (entries s) as [|x l]; [done|].
  destruct (Z.eqb_spec (next_update_after (now s) x) 0); [|done].
  destruct (to_remove x) eqn:Er; intros [= <- <-]; cbn; rewrite Er, ?app_nil_r; done.
Qed.

Lemma step_now ev s s' taken : step sha1 simultaneous ev s = Some (s', taken) -> now s <= now s'.
Proof.
  destruct ev as [k|k| |i outcomes|t]; cbn [step].
  - by intros [= <- <-].
  - by intros [= <- <-].
  - unfold loop. destruct (at_ s) as [n|n|n until|].
    + unfold pick. destruct (simultaneous <=? n)%nat; [by intros [= <- <-]|].
      destruct (entries s) as [|e l]; [by intros [= <- <-]|].
      destruct (next_update_after (now s) e =? 0); [|by intros [= <- <-]]. by destruct (to_remove e); intros [= <- <-].
    + case_bool_decide; [done|]. by intros [= <- <-].
    + destruct (now s <? until); [done|]. by intros [= <- <-].
    + case_bool_decide; [|done]. by intros [= <- <-].
  - unfold finish. destruct (in_flight s !! i) as [e|]; [|done]. by intros [= <- <-].
  - destruct (Z.leb_spec (now s) t); [|done]. by intros [= <- <-].
Qed.

Lemma run_now evs : forall s s' taken, run sha1 simultaneous evs s = Some (s', taken) -> now s <= now s'.
Proof.
  induction evs as [|ev evs IH]; intros s s' taken; cbn [run]; [by intros [= <- <-]|].
  destruct (step sha1 simultaneous ev s) as [[s1 t1]|] eqn:Es; [|done].
  destruct (run sha1 simultaneous evs s1) as [[s2 t2]|] eqn:Er; [|done]. intros [= <- <-].
  apply step_now in Es. apply IH in Er. lia.
Qed.

Lemma step_sleeping ev s s' taken n until :
  at_ s = Sleeping n until -> step sha1 simultaneous ev s = Some (s', taken) -> now s < until ->
  taken = None /\ at_ s' = Sleeping n until.
Proof.
  intros Ep. destruct ev as [k|k| |i outcomes|t]; cbn [step].
  - by intros [= <- <-].
  - by intros [= <- <-].
  - unfold loop. rewrite Ep. destruct (Z.ltb_spec (now s) until); [done|lia].
  - unfold finish. destruct (in_flight s !! i) as [e|]; [|done]. by intros [= <- <-].
  - destruct (now s <=? t); [|done]. by intros [= <- <-].
Qed.

Hypothesis some_slots : (0 < simultaneous)%nat.

(** A first entry that is not announced yet is taken, wherever the loop is. *)
Section First.
Variable e : Entry.
Hypothesis e_new : successful_update e = 0 /\ failed_update e = 0.

Lemma pick_first n s l :
  entries s = e :: l -> at_ s = Picking n -> (n < simultaneous)%nat ->
  exists s', step sha1 simultaneous Loop s = Some (s', Some e).
Proof.
  intros El Ep Hn. cbn [step]. unfold loop. rewrite Ep. unfold pick. rewrite El.
  destruct (Nat.leb_spec simultaneous n); [lia|].
  assert (next_update_after (now s) e = 0) as ->.
  { unfold next_update_after. by destruct e_new as [-> ->]. }
  rewrite Z.eqb_refl. destruct (to_remove e); by eexists.
Qed.

Lemma join_first s l :
  entries s = e :: l -> at_ s = Joining ->
  exists evs s', Forall system evs /\ run sha1 simultaneous evs s = Some (s', [e]).
Proof.
  intros El Ep. destruct (finish_all _ s eq_refl) as (evs & s1 & more & Hsys & Hrun & Hf & Hp & Hent).
  assert (step sha1 simultaneous Loop s1 = Some (set_phase (Picking 0) s1, None)) as Hloop.
  { cbn [step]. unfold loop. rewrite Hp, Ep, Hf. by rewrite bool_decide_true. }
  destruct (pick_first 0 (set_phase (Picking 0) s1) (l ++ more)) as [s2 Hs2]; [cbn; by rewrite Hent, El|done|done|].
  exists (evs ++ [Loop; Loop]), s2. split; [apply Forall_app; by repeat constructor|].
  rewrite (run_app _ _ _ _ s2 _ [e] Hrun); [done|]. cbn [run]. by rewrite Hloop, Hs2.
Qed.

Lemma picking_first n s l :
  entries s = e :: l -> at_ s = Picking n ->
  exists evs s', Forall system evs /\ run sha1 simultaneous evs s = Some (s', [e]).
Proof.
  intros El Ep. destruct (decide (n < simultaneous)%nat) as [Hn|Hn].
  - destruct (pick_first n s l El Ep Hn) as [s1 Hs1]. exists [Loop], s1. split; [by repeat constructor|]. cbn [run]. by rewrite Hs1.
  - destruct (join_first (set_phase Joining s) l) as (evs & s1 & Hsys & Hrun); [done|done|].
    exists (Loop :: evs), s1. split; [by constructor|]. cbn [run step]. unfold loop. rewrite Ep. unfold pick.
    destruct (Nat.leb_spec simultaneous n); [|lia]. by rewrite Hrun.
Qed.

Lemma take_front s l :
  entries s = e :: l -> exists evs s', Forall system evs /\ run sha1 simultaneous evs s = Some (s', [e]).
Proof.
  intros Hl. destruct (at_ s) as [n|n|n until|] eqn:Ep.
  - by eapply picking_first.
  - destruct (picking_first n (set_phase (Picking n) s) l) as (evs & s1 & Hsys & Hrun); [done|done|].
    exists (Loop :: evs), s1. split; [by constructor|]. cbn [run step]. unfold loop. rewrite Ep, bool_decide_false by (by rewrite Hl). by rewrite Hrun.
  - set (s0 := {| entries := entries s; in_flight := in_flight s; at_ := at_ s; now := Z.max (now s) until |}).
    destruct (picking_first n (set_phase (Picking n) s0) l) as (evs & s1 & Hsys & Hrun); [done|done|].
    exists (Tick (Z.max (now s) until) :: Loop :: evs), s1. split; [by repeat constructor|].
    cbn [run step]. destruct (Z.leb_spec (now s) (Z.max (now s) until)); [|lia]. fold s0. unfold loop. change (at_ s0) with (at_ s). rewrite Ep.
    cbn [s0 now]. destruct (Z.ltb_spec (Z.max (now s) until) until); [lia|]. by rewrite Hrun.
  - by eapply join_first.
Qed.

End First.

Lemma first_new t e : entry_ok t e -> last_attempt e = 0 -> successful_update e = 0 /\ failed_update e = 0.
Proof. intros [H1 H2]. unfold last_attempt. lia. Qed.

Lemma take_new i : forall s e,
  Inv s -> entries s !! i = Some e -> last_attempt e = 0 ->
  exists evs s' taken x, Forall system evs /\ run sha1 simultaneous evs s = Some (s', taken) /\ taken !! i = Some x /\ key x = key e.
Proof.
  induction i as [|i IH]; intros s e Hi Hl He.
  - destruct (entries s) as [|y l] eqn:El; [done|]. injection Hl as ->.
    assert (entry_ok (now s) e) as Hok.
    { pose proof (inv_entries s Hi) as Hf. rewrite El in Hf. by apply Forall_cons in Hf as [? _]. }
    destruct (take_front e (first_new _ _ Hok He) s l El) as (evs & s' & Hsys & Hrun).
    by exists evs, s', [e], e.
  - destruct (entries s) as [|y l] eqn:El; [done|].
    assert (entry_ok (now s) y) as Hok.
    { pose proof (inv_entries s Hi) as Hf. rewrite El in Hf. by apply Forall_cons in Hf as [? _]. }
    assert (last_attempt y = 0) as Hy.
    { pose proof (inv_sorted s Hi) as Hs. rewrite El in Hs.
      pose proof (sorted_front _ 0 (S i) y e Hs eq_refl Hl ltac:(lia)) as Ho. unfold older in Ho. destruct Hok. unfold last_attempt in *. lia. }
    destruct (take_front y (first_new _ _ Hok Hy) s l El) as (evs & s1 & Hsys & Hrun).
    rewrite <-El in Hl. destruct (run_new _ _ _ _ _ _ Hi Hrun Hl He) as [(x & Hx & _)|(_ & e1 & Hl1 & Hk1 & He1)]; [by destruct i|].
    replace (S i - length [y])%nat with i in Hl1 by (cbn; lia).
    destruct (IH s1 e1) as (evs2 & s2 & t2 & x & Hsys2 & Hrun2 & Hx & Hk); [by eapply run_inv|done|done|].
    exists (evs ++ evs2), s2, ([y] ++ t2), x. split_and!; [by apply Forall_app|by eapply run_app|done|congruence].
Qed.

End Runs.

(** ** Properties *)

(** When an entry is due: never announced, 20 minutes after it was, or 5 minutes
    after that failed. *)
Definition due (t : Z) (e : Entry) : Prop :=
  attempted_update e = false \/
  (failed_update e <= successful_update e /\ successful_update e + minutes 20 <= t) \/
  (successful_update e < failed_update e /\ failed_update e + minutes 5 <= t).

Lemma next_update_due t e : next_update_after t e = 0 -> due t e.
Proof.
  unfold next_update_after, due, attempted_update, success_reannounce_period, failure_reannounce_period.
  destruct (Z.eqb_spec (successful_update e) 0), (Z.eqb_spec (failed_update e) 0); cbn [andb orb negb]; [by left|right..];
    (destruct (Z.leb_spec (failed_update e) (successful_update e)); [left|right]; split; [done| |done|]);
    repeat case_match; lia.
Qed.

(** The queue is in the order of the last attempts, whatever clients do and however the
    announcements end: the entry that the loop takes is the first one, it is due, and all
    that stay behind were attempted no earlier.  One that was marked for removal is
    dropped; any other is announced, with never more than the allowed number at a time. *)
Theorem announcer_order sha1 simultaneous t evs s taken ev s' e :
  0 < t -> run sha1 simultaneous evs (start t) = Some (s, taken) -> step sha1 simultaneous ev s = Some (s', Some e) ->
  entries s = e :: entries s' /\ due (now s) e /\ Forall (older e) (entries s') /\
  in_flight s' = in_flight s ++ (if to_remove e then [] else [e]) /\ (length (in_flight s') <= simultaneous)%nat.
Proof.
  intros Ht Hr Hs. pose proof (run_inv _ _ _ _ _ _ (start_inv t Ht) Hr) as Hi.
  destruct (step_taken _ _ _ _ _ _ Hs) as (_ & El & Hd & Hf). split_and!; [done|by apply next_update_due| |done|].
  - pose proof (inv_sorted s Hi) as H. rewrite El in H. by apply StronglySorted_inv in H as [_ ?].
  - etransitivity; [|apply (started_le simultaneous (at_ s'))]. eapply step_slots; [|exact Hs].
    eapply run_slots; [|exact Hr]. cbn. lia.
Qed.

(** C31: A key that was not announced yet is not overtaken and not forgotten.  At place [i] of
    the queue, it is the entry number [i] that the loop takes, or it is still waiting with
    as many fewer before it as were taken; and as long as at least one announcement at
    a time is allowed, there are steps of the loop, of its announcements and of the clock
    after which it has been taken, with no help of a client. *)
Theorem announcer_liveness sha1 simultaneous t evs0 s taken0 i e :
  0 < t -> (0 < simultaneous)%nat -> run sha1 simultaneous evs0 (start t) = Some (s, taken0) ->
  entries s !! i = Some e -> attempted_update e = false ->
  (forall evs s' taken, run sha1 simultaneous evs s = Some (s', taken) ->
    (exists x, taken !! i = Some x /\ key x = key e) \/
    (length taken <= i)%nat /\ exists e', entries s' !! (i - length taken)%nat = Some e' /\ key e' = key e) /\
  (exists evs s' taken x, Forall system evs /\ run sha1 simultaneous evs s = Some (s', taken) /\
    taken !! i = Some x /\ key x = key e).
Proof.
  intros Ht Hn Hr Hl Ha. pose proof (run_inv _ _ _ _ _ _ (start_inv t Ht) Hr) as Hi.
  assert (last_attempt e = 0) as He.
  { apply (unattempted_iff (now s)); [|done]. pose proof (inv_entries s Hi) as Hf. rewrite Forall_lookup in Hf. by eapply Hf. }
  split; [|by apply take_new]. intros evs s' taken Hrun.
  destruct (run_new _ _ _ _ _ _ _ _ Hi Hrun Hl He) as [?|(? & e' & ? & ? & ?)]; [by left|right; eauto].
Qed.

(** Nothing interrupts the sleep of the loop: until the instant it was set to has come, no
    entry is taken, even when a client has added a key, which is due at once and for which
    [add] calls the signal that was meant to wake the loop. *)
Theorem sleeping_not_interrupted sha1 simultaneous k evs s s' taken n until :
  at_ s = Sleeping n until -> run sha1 simultaneous (Add k :: evs) s = Some (s', taken) -> now s' < until ->
  taken = [] /\ at_ s' = Sleeping n until.
Proof.
  generalize (Add k :: evs). clear k evs. intros evs. revert s taken.
  induction evs as [|ev evs IH]; intros s taken Ep; cbn [run]; [by intros [= <- <-]|].
  destruct (step sha1 simultaneous ev s) as [[s1 t1]|] eqn:Es; [|done].
  destruct (run sha1 simultaneous evs s1) as [[s2 t2]|] eqn:Er; [|done]. intros [= <- <-] Hu.
  pose proof (run_now _ _ _ _ _ _ Er). pose proof (step_now _ _ _ _ _ _ Es).
  destruct (step_sleeping _ _ _ _ _ _ _ _ Ep Es) as [-> Ep1]; [lia|]. by apply (IH s1).
Qed.

(** A key that is being announced is not in the queue.  Its removal in the meantime is
    answered with false and without effect: when the announcement ends, the key is back
    in the queue, to be announced again.  Adding it is answered as if it were new, and it is
    in the queue twice from then on. *)
Theorem removal_lost sha1 simultaneous t evs s taken i e outcomes :
  0 < t -> run sha1 simultaneous evs (start t) = Some (s, taken) -> in_flight s !! i = Some e ->
  find_entry_by_key (key e) (entries s) = None ->
  remove (key e) (entries s) = (false, entries s) /\
  (exists s' e', run sha1 simultaneous [Remove (key e); Finish i outcomes] s = Some (s', []) /\
     entries s' = entries s ++ [e'] /\ key e' = key e /\ to_remove e' = false) /\
  fst (add sha1 (key e) (entries s)) = true /\
  (exists s' e' l, run sha1 simultaneous [Add (key e); Finish i outcomes] s = Some (s', []) /\
     entries s' = l ++ [e'] /\ key e' = key e /\ new_entry sha1 (key e) ∈ l).
Proof.
  intros Ht Hr Hi Hn. pose proof (inv_flying s (run_inv _ _ _ _ _ _ (start_inv t Ht) Hr)) as Hfl.
  rewrite Forall_lookup in Hfl. destruct (Hfl _ _ Hi) as [_ Hrem].
  set (u := updated (announce_attempts 3 outcomes) (now s) e).
  assert (key u = key e /\ to_remove u = false) as [Hk Hu] by (unfold u, updated; by destruct (announce_attempts 3 outcomes)).
  unfold remove, add. rewrite Hn. split_and!; [done| |done|].
  - cbn [run step]. unfold remove. rewrite Hn. cbn [snd]. unfold finish. cbn [in_flight set_entries now entries].
    rewrite Hi. cbv zeta. fold u. rewrite Hu. by eexists _, u.
  - cbn [run step]. unfold add. rewrite Hn. cbn [snd]. unfold finish. cbn [in_flight set_entries now entries].
    rewrite Hi. cbv zeta. fold u. rewrite Hu. eexists _, u, _. split_and!; [reflexivity|reflexivity|done|].
    apply insert_new_elem. by left.
Qed.

(** *** Witnesses *)

Definition demo_sha1 (l : list byte) : list byte := l.
Definition k1 : Key := str "k1".
Definition k2 : Key := str "k2".

Definition after (evs : list event) : state :=
  match run demo_sha1 2 evs (start 1) with Some (s, _) => s | None => start 1 end.

Definition front (s : state) : Entry := match entries s with e :: _ => e | [] => new_entry demo_sha1 [] end.

(** Two keys are added and the first one is taken; the second one is next. *)
Definition demo_taken : list event := [Add k1; Add k2; Loop].

Lemma announcer_order_witness :
  due 1 (new_entry demo_sha1 k2) /\ (length (in_flight (after (demo_taken ++ [Loop]))) <= 2)%nat.
Proof.
  pose proof (announcer_order demo_sha1 2 1 demo_taken (after demo_taken) [new_entry demo_sha1 k1] Loop
                (after (demo_taken ++ [Loop])) (new_entry demo_sha1 k2) eq_refl eq_refl eq_refl) as (_ & Hd & _ & _ & Hl).
  split; [exact Hd|exact Hl].
Defined.

Lemma announcer_liveness_witness :
  exists evs s' taken x, Forall system evs /\ run demo_sha1 2 evs (after [Add k1; Add k2]) = Some (s', taken) /\
    taken !! 1%nat = Some x /\ key x = k2.
Proof.
  refine (proj2 (announcer_liveness demo_sha1 2 1 [Add k1; Add k2] (after [Add k1; Add k2]) [] 1 (new_entry demo_sha1 k2)
                   eq_refl _ eq_refl eq_refl eq_refl)). lia.
Defined.

(** The first key was announced and the loop sleeps; a second key is added. *)
Definition demo_asleep : list event := [Add k1; Loop; Finish 0 [true]; Loop].

Lemma sleeping_not_interrupted_witness :
  exists s', run demo_sha1 2 [Add k2; Tick (minutes 19)] (after demo_asleep) = Some (s', []) /\
    front s' = new_entry demo_sha1 k2 /\ at_ s' = Sleeping 1 (1 + minutes 20).
Proof.
  exists (after (demo_asleep ++ [Add k2; Tick (minutes 19)])). split_and!; [reflexivity..|].
  refine (proj2 (sleeping_not_interrupted demo_sha1 2 k2 [Tick (minutes 19)] (after demo_asleep)
                   (after (demo_asleep ++ [Add k2; Tick (minutes 19)])) [] 1 (1 + minutes 20) eq_refl eq_refl _)). reflexivity.
Defined.

Lemma removal_lost_witness :
  remove k1 (entries (after [Add k1; Loop])) = (false, []) /\
  exists s' e', run demo_sha1 2 [Remove k1; Finish 0 [true]] (after [Add k1; Loop]) = Some (s', []) /\
    entries s' = [e'] /\ key e' = k1 /\ to_remove e' = false.
Proof.
  destruct (removal_lost demo_sha1 2 1 [Add k1; Loop] (after [Add k1; Loop]) [new_entry demo_sha1 k1] 0
              (new_entry demo_sha1 k1) [true] eq_refl eq_refl eq_refl eq_refl) as (Hr & Hb & _).
  split; [exact Hr|exact Hb].
Defined.
