(* ===== verification/I2pAnnouncer.v ===== *)
(** * Announcing to an I2P tracker: src/ouiservice/i2p/announcer.cpp

    One coroutine announces the entries of a vector, the one that is due for the longest
    time first, and sleeps until the next one is due.  It is modelled as steps: calls of
    clients, the coroutine going on to its next suspension, the end of the handshake and of an
    announcement, and the passing of time.

    While an announcement is under way the coroutine holds a pointer into the vector.  A client
    that adds an entry may make the vector reallocate, which is an argument of the event,
    and one that removes an entry moves those behind it; both invalidate such pointers by the
    rules of [std::vector].  A pointer that was invalidated is marked, and its use is a fault. *)
From S2P Require Import Prelude.

Record Entry := { infohash : list byte; announce_at : Z }.

Definition seconds (n : Z) : Z := n * 10 ^ 9.
Definition period : Z := seconds (15 * 60).

(** ** The entries *)

(** The first entry with the lowest time. *)
Fixpoint front_from (ret : option (nat * Entry)) (i : nat) (entries : list Entry) : option (nat * Entry) :=
  match entries with
  | [] => ret
  | entry :: entries' =>
      let ret := match ret with
                 | None => Some (i, entry)
                 | Some (_, best) => if announce_at entry <? announce_at best then Some (i, entry) else ret
                 end in
      front_from ret (S i) entries'
  end.

Definition front (entries : list Entry) : option (nat * Entry) := front_from None 0 entries.

Definition find_entry_to_announce (now : Z) (entries : list Entry) : option (nat * Entry) :=
  match front entries with
  | Some (i, entry) => if announce_at entry <=? now then Some (i, entry) else None
  | None => None
  end.

(** [None] is [time_point::max()]. *)
Definition sleep_until (entries : list Entry) : option Z := announce_at ∘ snd <$> front entries.

Definition has_entry (h : list byte) (entries : list Entry) : bool := existsb (fun e => bool_decide (infohash e = h)) entries.

Definition add (h : list byte) (now : Z) (entries : list Entry) : bool * list Entry :=
  if has_entry h entries then (false, entries) else (true, entries ++ [{| infohash := h; announce_at := now |}]).

Fixpoint find_index (h : list byte) (entries : list Entry) : option nat :=
  match entries with
  | [] => None
  | e :: entries' => if bool_decide (infohash e = h) then Some O else S <$> find_index h entries'
  end.

Definition remove (h : list byte) (entries : list Entry) : bool * list Entry :=
  match find_index h entries with
  | Some i => (true, delete i entries)
  | None => (false, entries)
  end.

(** ** The coroutine *)

Definition increment_without_overflow (v : Z) : Z := if v =? 2 ^ 16 - 1 then v else v + 1.

Definition error_sleep (error_count : Z) : Z := seconds 1 * 2 ^ Z.min (error_count - 1) 5.

Variant phase :=
| Handshake
| Sleeping (until : option Z)
| Checking (error_count : Z)
| Announcing (i : nat) (valid : bool) (error_count : Z)
| ErrorSleep (until : Z) (error_count : Z).

Record state := { entries : list Entry; at_ : phase; now : Z }.

Definition with_phase (p : phase) (s : state) : state := {| entries := entries s; at_ := p; now := now s |}.

Variant event :=
| Add (h : list byte) (reallocates : bool)
| Remove (h : list byte)
| HandshakeDone
| Loop
| Announced (success : bool)
| Tick (t : Z).

(** The next state and the info hash whose announcement starts, a fault, or an event that
    cannot happen. *)
Variant result := NotEnabled | Fault | Next (s : state) (announced : option (list byte)).

Definition invalidate (b : bool) (p : phase) : phase :=
  match p with Announcing i valid n => Announcing i (valid && negb b) n | _ => p end.

(** [add] cancels the timer, which ends the sleep of the coroutine. *)
Definition wake (p : phase) : phase := match p with Sleeping _ => Checking 0 | _ => p end.

Definition loop (s : state) : result :=
  match at_ s with
  | Sleeping (Some until) => if until <=? now s then Next (with_phase (Checking 0) s) None else NotEnabled
  | Checking n =>
      match find_entry_to_announce (now s) (entries s) with
      | Some (i, entry) => Next (with_phase (Announcing i true n) s) (Some (infohash entry))
      | None => Next (with_phase (Sleeping (sleep_until (entries s))) s) None
      end
  | ErrorSleep until n => if until <=? now s then Next (with_phase (Checking n) s) None else NotEnabled
  | _ => NotEnabled
  end.

Definition set_announce_at (t : Z) (e : Entry) : Entry := {| infohash := infohash e; announce_at := t |}.

Definition step (ev : event) (s : state) : result :=
  match ev with
  | Add h reallocates =>
      let '(added, es) := add h (now s) (entries s) in
      Next {| entries := es; at_ := if added then wake (invalidate reallocates (at_ s)) else at_ s; now := now s |} None
  | Remove h =>
      let erased := match find_index h (entries s), at_ s with
                    | Some j, Announcing i _ _ => (j <=? i)%nat
                    | _, _ => false
                    end in
      Next {| entries := snd (remove h (entries s)); at_ := invalidate erased (at_ s); now := now s |} None
  | HandshakeDone =>
      match at_ s with
      | Handshake => Next (with_phase (Sleeping (sleep_until (entries s))) s) None
      | _ => NotEnabled
      end
  | Loop => loop s
  | Announced success =>
      match at_ s with
      | Announcing i valid n =>
          if success then
            if valid
            then Next {| entries := alter (set_announce_at (now s + period)) i (entries s); at_ := Checking n; now := now s |} None
            else Fault
          else
            let n := increment_without_overflow n in
            Next (with_phase (ErrorSleep (now s + error_sleep n) n) s) None
      | _ => NotEnabled
      end
  | Tick t => if now s <=? t then Next {| entries := entries s; at_ := at_ s; now := t |} None else NotEnabled
  end.

(** A run and the announcements that were started; [None] if an event cannot happen, an
    empty result if there is a fault. *)
Fixpoint run (evs : list event) (s : state) : option (option (state * list (list byte))) :=
  match evs with
  | [] => Some (Some (s, []))
  | ev :: evs' =>
      match step ev s with
      | NotEnabled => None
      | Fault => Some None
      | Next s announced =>
          match run evs' s with
          | Some (Some (s, more)) => Some (Some (s, match announced with Some h => h :: more | None => more end))
          | r => r
          end
      end
  end.

Definition start (t : Z) : state := {| entries := []; at_ := Handshake; now := t |}.

(** ** The first entry *)

Lemma front_from_spec l : forall ret i,
  match front_from ret i l with
  | None => ret = None /\ l = []
  | Some (j, e) =>
      (ret = Some (j, e) \/ exists k, j = (i + k)%nat /\ l !! k = Some e) /\
      (forall x, x ∈ l -> announce_at e <= announce_at x) /\
      (forall k b, ret = Some (k, b) -> announce_at e <= announce_at b)
  end.
Proof.
  induction l as [|x l IH]; intros ret i; cbn [front_from].
  - destruct ret as [[j e]|]; [|done]. split_and!; [by left|by intros ? ?%elem_of_nil|]. intros k b [= <- <-]. lia.
  - specialize (IH (match ret with None => Some (i, x) | Some (_, best) => if announce_at x <? announce_at best then Some (i, x) else ret end) (S i)).
    destruct (front_from _ (S i) l) as [[j e]|]; [|destruct ret as [[? ?]|]; [|by destruct IH]; destruct (_ <? _); by destruct IH].
    destruct IH as (H1 & H2 & H3). destruct ret as [[k0 b0]|]; [destruct (Z.ltb_spec (announce_at x) (announce_at b0))|].
    + specialize (H3 _ _ eq_refl). split_and!.
      * right. destruct H1 as [[= <- <-]|(k & -> & Hk)]; [exists 0%nat; split; [lia|done]|exists (S k); split; [lia|done]].
      * intros y [->|Hy]%elem_of_cons; [done|by apply H2].
      * intros k b [= <- <-]. lia.
    + specialize (H3 _ _ eq_refl). split_and!.
      * destruct H1 as [?|(k & -> & Hk)]; [by left|right; exists (S k); split; [lia|done]].
      * intros y [->|Hy]%elem_of_cons; [lia|by apply H2].
      * intros k b [= <- <-]. lia.
    + specialize (H3 _ _ eq_refl). split_and!; [|intros y [->|Hy]%elem_of_cons; [done|by apply H2]|done].
      right. destruct H1 as [[= <- <-]|(k & -> & Hk)]; [exists 0%nat; split; [lia|done]|exists (S k); split; [lia|done]].
Qed.

Lemma front_spec l :
  match front l with
  | None => l = []
  | Some (i, e) => l !! i = Some e /\ forall x, x ∈ l -> announce_at e <= announce_at x
  end.
Proof.
  pose proof (front_from_spec l None 0) as H. unfold front. destruct (front_from None 0 l) as [[i e]|]; [|by destruct H].
  destruct H as ([?|(k & -> & Hk)] & Hmin & _); [done|]. by rewrite Nat.add_0_l.
Qed.

(** ** Progress *)

Definition due_in (t : Z) (l : list Entry) : list Entry := filter (fun e => announce_at e <= t) l.

Definition due (s : state) : list Entry := due_in (now s) (entries s).

Lemma find_due s :
  match find_entry_to_announce (now s) (entries s) with
  | None => due s = []
  | Some (i, e) => entries s !! i = Some e /\ announce_at e <= now s /\ forall x, x ∈ entries s -> announce_at e <= announce_at x
  end.
Proof.
  pose proof (front_spec (entries s)) as H. unfold find_entry_to_announce, due, due_in. destruct (front (entries s)) as [[i e]|]; [|by rewrite H].
  destruct H as [Hi Hmin]. destruct (Z.leb_spec (announce_at e) (now s)); [done|].
  destruct (filter (fun e : Entry => announce_at e <= now s) (entries s)) as [|x l] eqn:E; [done|].
  assert (x ∈ filter (fun e : Entry => announce_at e <= now s) (entries s)) as [Hx Hin]%list_elem_of_filter by (rewrite E; by left).
  pose proof (Hmin _ Hin). lia.
Qed.

Lemma due_alter (l : list Entry) (i : nat) e t :
  l !! i = Some e -> announce_at e <= t ->
  (length (due_in t (alter (set_announce_at (t + period)) i l)) < length (due_in t l))%nat.
Proof.
  unfold due_in.
  revert i. induction l as [|x l IH]; intros [|i] Hi Ht; [done|done|..]; cbn [alter list_alter].
  - injection Hi as ->. rewrite !filter_cons. rewrite decide_False by (cbn; unfold period, seconds; lia). rewrite decide_True by done. cbn. lia.
  - specialize (IH i Hi Ht). rewrite !filter_cons. case_decide; cbn [length]; [|done]. by apply -> Nat.succ_lt_mono.
Qed.

Lemma alter_infohash (l : list Entry) (i : nat) t h :
  (exists e, e ∈ l /\ infohash e = h) -> exists e, e ∈ alter (set_announce_at t) i l /\ infohash e = h.
Proof.
  intros (e & [j Hj]%list_elem_of_lookup & <-). destruct (decide (i = j)) as [->|Hne].
  - exists (set_announce_at t e). split; [|done]. apply list_elem_of_lookup. exists j. rewrite list_lookup_alter, decide_True by done. by rewrite Hj.
  - exists e. split; [|done]. apply list_elem_of_lookup. exists j. by rewrite list_lookup_alter, decide_False.
Qed.

(** What happens without a client. *)
Definition system (ev : event) : Prop := match ev with Add _ _ | Remove _ => False | _ => True end.

Lemma run_cons ev evs s s1 a s2 more :
  step ev s = Next s1 a -> run evs s1 = Some (Some (s2, more)) ->
  run (ev :: evs) s = Some (Some (s2, match a with Some h => h :: more | None => more end)).
Proof. intros H1 H2. cbn [run]. by rewrite H1, H2. Qed.

(** From the check on, everything that is due gets announced. *)
Lemma checking_announces n : forall s k h,
  (length (due s) < n)%nat -> at_ s = Checking k -> (exists e, e ∈ entries s /\ infohash e = h /\ announce_at e <= now s) ->
  exists evs s' hs, Forall system evs /\ run evs s = Some (Some (s', hs)) /\ h ∈ hs.
Proof.
  induction n as [|n IH]; intros s k h Hn Hp (e & He & Hh & Hd); [lia|].
  pose proof (find_due s) as Hf. destruct (find_entry_to_announce (now s) (entries s)) as [[i x]|] eqn:Ef.
  2:{ assert (e ∈ due s) as Hin by (by apply list_elem_of_filter). rewrite Hf in Hin. by apply elem_of_nil in Hin. }
  destruct Hf as (Hi & Hx & _).
  set (s1 := with_phase (Announcing i true k) s).
  set (s2 := {| entries := alter (set_announce_at (now s + period)) i (entries s); at_ := Checking k; now := now s |}).
  assert (step Loop s = Next s1 (Some (infohash x))) as Hs1 by (cbn [step]; unfold loop; by rewrite Hp, Ef).
  assert (step (Announced true) s1 = Next s2 None) as Hs2 by done.
  destruct (decide (infohash x = h)) as [<-|Hne].
  { exists [Loop], s1, [infohash x]. split_and!; [by repeat constructor| |by left]. cbn [run]. by rewrite Hs1. }
  destruct (IH s2 k h) as (evs & s' & hs & Hsys & Hrun & Hin).
  - unfold due. cbn [entries now s2]. pose proof (due_alter (entries s) i x (now s) Hi Hx). unfold due in Hn. lia.
  - done.
  - apply list_elem_of_lookup in He as [j Hj]. exists e. split_and!; [|done|done]. apply list_elem_of_lookup. exists j. cbn [entries s2].
    rewrite list_lookup_alter, decide_False; [done|]. intros ->. rewrite Hi in Hj. injection Hj as ->. done.
  - exists (Loop :: Announced true :: evs), s', (infohash x :: hs). split_and!; [by repeat constructor| |by right].
    rewrite (run_cons _ _ _ _ _ _ _ Hs1 (run_cons _ _ _ _ _ _ _ Hs2 Hrun)). done.
Qed.

(** The coroutine only sleeps forever when there is nothing to announce. *)
Definition sleep_ok (s : state) : Prop := at_ s = Sleeping None -> entries s = [].

Lemma sleep_until_ok l : sleep_until l = None -> l = [].
Proof. intros H. pose proof (front_spec l) as Hf. unfold sleep_until in H. by destruct (front l). Qed.

Lemma wake_not_asleep p u : wake p ≠ Sleeping u.
Proof. by destruct p. Qed.

Lemma invalidate_asleep b p u : invalidate b p = Sleeping u -> p = Sleeping u.
Proof. by destruct p. Qed.

Lemma step_sleep_ok ev s s' a : sleep_ok s -> step ev s = Next s' a -> sleep_ok s'.
Proof.
  unfold sleep_ok. intros Hs. destruct ev as [h r|h| | |ok|t]; cbn [step].
  - unfold add. destruct (has_entry h (entries s)); intros [= <- <-]; cbn; [done|]. intros H. by apply wake_not_asleep in H.
  - intros [= <- <-]. cbn. intros H%invalidate_asleep. unfold remove. by rewrite (Hs H).
  - destruct (at_ s); [|done..]. intros [= <- <-]. cbn. intros [= H]. by apply sleep_until_ok.
  - unfold loop. destruct (at_ s) as [|[u|]|n|i v n|u n]; try done.
    + destruct (u <=? now s); [|done]. by intros [= <- <-].
    + destruct (find_entry_to_announce _ _) as [[i e]|]; intros [= <- <-]; [done|]. cbn. intros [= H]. by apply sleep_until_ok.
    + destruct (u <=? now s); [|done]. by intros [= <- <-].
  - destruct (at_ s); try done. destruct ok; [destruct valid; [|done]|]; by intros [= <- <-].
  - destruct (now s <=? t); [|done]. by intros [= <- <-].
Qed.

Lemma run_sleep_ok evs : forall s s' hs, sleep_ok s -> run evs s = Some (Some (s', hs)) -> sleep_ok s'.
Proof.
  induction evs as [|ev evs IH]; intros s s' hs Hs; cbn [run]; [by intros [= <- <-]|].
  destruct (step ev s) as [| |s1 a] eqn:Es; [done..|]. destruct (run evs s1) as [[[s2 more]|]|] eqn:Er; [|done..]. intros [= <- <-].
  eapply IH; [|exact Er]. by eapply step_sleep_ok.
Qed.

(** Once the clock has come to [t], the coroutine gets to its check. *)
Definition at_time (t : Z) (s : state) : state := {| entries := entries s; at_ := at_ s; now := Z.max (now s) t |}.

Lemma tick_step t s : step (Tick (Z.max (now s) t)) s = Next (at_time t s) None.
Proof. cbn [step]. by destruct (Z.leb_spec (now s) (Z.max (now s) t)); [|lia]. Qed.

Lemma reach_checking s t :
  sleep_ok s -> entries s ≠ [] ->
  exists evs s' k, Forall system evs /\ run evs s = Some (Some (s', [])) /\ at_ s' = Checking k /\ entries s' = entries s /\ t <= now s'.
Proof.
  intros Hs Hne.
  assert (forall u s, at_ s = Sleeping (Some u) -> exists evs s' k, Forall system evs /\ run evs s = Some (Some (s', [])) /\
            at_ s' = Checking k /\ entries s' = entries s /\ t <= now s') as Hsleep.
  { intros u s0 Hp. exists [Tick (Z.max (now s0) (Z.max u t)); Loop], (with_phase (Checking 0) (at_time (Z.max u t) s0)), 0.
    split_and!; [by repeat constructor| |done|done|cbn; lia]. cbn [run]. rewrite tick_step. cbn [step]. unfold loop. cbn [at_time at_ now].
    rewrite Hp. by destruct (Z.leb_spec u (Z.max (now s0) (Z.max u t))); [|lia]. }
  assert (forall u n s, at_ s = ErrorSleep u n -> exists evs s' k, Forall system evs /\ run evs s = Some (Some (s', [])) /\
            at_ s' = Checking k /\ entries s' = entries s /\ t <= now s') as Herror.
  { intros u n s0 Hp. exists [Tick (Z.max (now s0) (Z.max u t)); Loop], (with_phase (Checking n) (at_time (Z.max u t) s0)), n.
    split_and!; [by repeat constructor| |done|done|cbn; lia]. cbn [run]. rewrite tick_step. cbn [step]. unfold loop. cbn [at_time at_ now].
    rewrite Hp. by destruct (Z.leb_spec u (Z.max (now s0) (Z.max u t))); [|lia]. }
  destruct (at_ s) as [|[u|]|n|i v n|u n] eqn:Hp.
  - destruct (sleep_until (entries s)) as [u|] eqn:Eu; [|by apply sleep_until_ok in Eu].
    destruct (Hsleep u (with_phase (Sleeping (Some u)) s) eq_refl) as (evs & s' & k & Hsys & Hrun & ? & ? & ?).
    exists (HandshakeDone :: evs), s', k. split_and!; [by constructor| |done|done|done].
    apply (run_cons HandshakeDone _ _ (with_phase (Sleeping (Some u)) s) None _ []); [|exact Hrun]. cbn [step]. by rewrite Hp, Eu.
  - by eapply Hsleep.
  - by specialize (Hs Hp).
  - exists [Tick (Z.max (now s) t)], (at_time t s), n. split_and!; [by repeat constructor| |done|done|cbn; lia]. cbn [run]. by rewrite tick_step.
  - set (n' := increment_without_overflow n).
    destruct (Herror (now s + error_sleep n') n' (with_phase (ErrorSleep (now s + error_sleep n') n') s) eq_refl)
      as (evs & s' & k & Hsys & Hrun & ? & ? & ?).
    exists (Announced false :: evs), s', k. split_and!; [by constructor| |done|done|done].
    apply (run_cons (Announced false) _ _ (with_phase (ErrorSleep (now s + error_sleep n') n') s) None _ []); [|exact Hrun]. cbn [step]. by rewrite Hp.
  - by eapply Herror.
Qed.

Lemma i2p_run_app evs1 evs2 : forall s s1 s2 h1 h2,
  run evs1 s = Some (Some (s1, h1)) -> run evs2 s1 = Some (Some (s2, h2)) -> run (evs1 ++ evs2) s = Some (Some (s2, h1 ++ h2)).
Proof.
  induction evs1 as [|ev evs1 IH]; intros s s1 s2 h1 h2 H1 H2; cbn [run app] in *; [by injection H1 as <- <-|].
  destruct (step ev s) as [| |s3 a]; [done..|]. destruct (run evs1 s3) as [[[s4 more]|]|] eqn:E; [|done..]. injection H1 as <- <-.
  rewrite (IH _ _ _ _ _ E H2). by destruct a.
Qed.

(** ** Properties *)

(** every entry gets announced: after any run without a fault, for each entry there are
    steps of the coroutine, of the tracker and of the clock in which its announcement starts,
    with no call of a client. *)
Theorem i2p_entry_announced t evs s hs h :
  run evs (start t) = Some (Some (s, hs)) -> h ∈ infohash <$> entries s ->
  exists evs' s' hs', Forall system evs' /\ run evs' s = Some (Some (s', hs')) /\ h ∈ hs'.
Proof.
  intros Hr (e & -> & He)%list_elem_of_fmap. assert (sleep_ok s) as Hs by (by eapply run_sleep_ok; [|exact Hr]).
  destruct (reach_checking s (announce_at e) Hs) as (evs1 & s1 & k & Hsys1 & Hrun1 & Hp & Hent & Ht); [by intros E; rewrite E in He; apply elem_of_nil in He|].
  destruct (checking_announces (S (length (due s1))) s1 k (infohash e)) as (evs2 & s2 & hs2 & Hsys2 & Hrun2 & Hin); [lia|done|exists e; by rewrite Hent|].
  exists (evs1 ++ evs2), s2, hs2. split_and!; [by apply Forall_app|by apply (i2p_run_app _ _ _ _ _ _ _ Hrun1 Hrun2)|done].
Qed.

(** while an entry is announced, the coroutine keeps a pointer to it.  If a client removes
    this or an earlier entry in the meantime, or adds one and the vector reallocates, the
    pointer is used after it was invalidated when the announcement succeeds; without
    such a call the entry, and no other, gets its next time. *)
Theorem i2p_stale_entry s i n :
  at_ s = Announcing i true n ->
  (forall h j, find_index h (entries s) = Some j -> (j <= i)%nat -> run [Remove h; Announced true] s = Some None) /\
  (forall h, has_entry h (entries s) = false -> run [Add h true; Announced true] s = Some None) /\
  run [Announced true] s =
    Some (Some ({| entries := alter (set_announce_at (now s + period)) i (entries s); at_ := Checking n; now := now s |}, [])).
Proof.
  intros Hp. split_and!.
  - intros h j Hj Hle. cbn [run step]. rewrite Hj, Hp. cbn [invalidate at_]. by destruct (Nat.leb_spec j i); [|lia].
  - intros h Hh. cbn [run step]. unfold add. by rewrite Hh, Hp.
  - cbn [run step]. by rewrite Hp.
Qed.

(** *** Witnesses *)

Definition h1 : list byte := str "h1".
Definition h2 : list byte := str "h2".

Definition after (evs : list event) : state :=
  match run evs (start 1) with Some (Some (s, _)) => s | _ => start 1 end.

Lemma i2p_entry_announced_witness :
  exists evs' s' hs', Forall system evs' /\ run evs' (after [Add h1 false; HandshakeDone; Add h2 true]) = Some (Some (s', hs')) /\ h2 ∈ hs'.
Proof.
  apply (i2p_entry_announced 1 [Add h1 false; HandshakeDone; Add h2 true] _ [] h2 eq_refl). apply list_elem_of_fmap.
  exists {| infohash := h2; announce_at := 1 |}. split; [done|]. by right; left.
Defined.

Lemma i2p_stale_entry_witness :
  run [Remove h1; Announced true] (after [Add h1 false; HandshakeDone; Loop; Loop]) = Some None.
Proof.
  apply (i2p_stale_entry (after [Add h1 false; HandshakeDone; Loop; Loop]) 0 0 eq_refl) with (j := 0%nat); [reflexivity|lia].
Defined.
