(* ===== verification/DhtGroups.v ===== *)
(** * Groups of resources: src/cache/dht_groups.{h,cpp}

    A group is a set of resources that are announced together.  The groups are in
    memory and in a directory: a group has a subdirectory, named after the SHA-1 digest of
    its name, with a file for its name, a directory [items] with an empty file per resource,
    and the file [pinned] if it is pinned.

    The directory is a finite map.  The order in which a directory is listed is an
    argument of [load]; which of the operations on files fail is an argument of [add],
    [pin_group] and [unpin_group], which react to it; removals, whose failures are only
    logged, succeed.  SHA-1 is a parameter. *)
From stdpp Require Import sorting.
From S2P Require Import Prelude.
From S2P Require Import Bytes.
From S2P Require Import Request.

Abbreviation GroupName := (list byte) (only parsing).
Abbreviation ResourceId := (list byte) (only parsing).
Abbreviation Groups := (gmap GroupName (gset ResourceId)) (only parsing).

(** ** The directory *)

Variant items_entry := NoItems | ItemsNotDir | ItemsDir (files : gset (list byte)).

(** The contents of the file [group_name] if there is such a regular file, the entry
    [items], and whether there is an entry [pinned]. *)
Record group_dir := { group_name_file : option (list byte); items_of : items_entry; pinned : bool }.

Variant dir_entry := OtherFile | GroupDir (d : group_dir).

Abbreviation root := (gmap (list byte) dir_entry) (only parsing).

Variant root_entry := NoRoot | RootNotDir | RootDir (r : root).

Variant errc := invalid_argument | value_too_large | not_a_directory | no_such_file_or_directory | file_error (n : Z).

#[export] Instance errc_eq_dec : EqDecision errc.
Proof. solve_decision. Defined.

Definition MAX_URL_SIZE : Z := 2000.

Section Code.
Variable sha1 : list byte -> list byte.

Definition sha1_hex_digest (s : list byte) : list byte := to_hex (sha1 s).

(** ** Loading *)

Definition read_file (f : option (list byte)) : errc + list byte :=
  match f with
  | None => inl invalid_argument
  | Some content => if MAX_URL_SIZE <? Z.of_nat (length content) then inl value_too_large else inr content
  end.

Definition load_items (files : gset (list byte)) : gset ResourceId :=
  list_to_set (omap ResourceId_from_hex (elements files)).

Definition load_group (trusted : bool) (filename : list byte) (d : group_dir) : errc + (GroupName * gset ResourceId) :=
  match read_file (group_name_file d) with
  | inl e => inl e
  | inr group_name =>
      if negb trusted && negb (bool_decide (filename = sha1_hex_digest group_name)) then inl invalid_argument
      else
        match items_of d with
        | NoItems => inr (group_name, ∅)
        | ItemsNotDir => inl not_a_directory
        | ItemsDir files => inr (group_name, load_items files)
        end
  end.

(** The loop over the entries of the directory, in the order in which they are listed. *)
Fixpoint load_entries (trusted : bool) (es : list (list byte * dir_entry)) (r : root) (groups : Groups) : root * (errc + Groups) :=
  match es with
  | [] => (r, inr groups)
  | (_, OtherFile) :: es' => load_entries trusted es' r groups
  | (f, GroupDir d) :: es' =>
      match load_group trusted f d with
      | inl e => (r, inl e)
      | inr (group_name, items) =>
          if bool_decide (items = ∅) then load_entries trusted es' (if trusted then delete f r else r) groups
          else
            load_entries trusted es' r
              (match groups !! group_name with Some _ => groups | None => <[group_name := items]> groups end)
      end
  end.

Record DhtGroupsImpl := { _root : root; _groups : Groups }.

Definition load (trusted : bool) (listed : root -> list (list byte * dir_entry)) (root_dir : root_entry) :
    root_entry * (errc + DhtGroupsImpl) :=
  match root_dir with
  | RootNotDir => (RootNotDir, inl not_a_directory)
  | NoRoot =>
      if trusted then (RootDir ∅, inr {| _root := ∅; _groups := ∅ |}) else (NoRoot, inl no_such_file_or_directory)
  | RootDir r =>
      match load_entries trusted (listed r) r ∅ with
      | (r, inl e) => (RootDir r, inl e)
      | (r, inr groups) => (RootDir r, inr {| _root := r; _groups := groups |})
      end
  end.

(** ** Queries *)

Definition groups (st : DhtGroupsImpl) : gset GroupName := dom (_groups st).

Definition items (gn : GroupName) (st : DhtGroupsImpl) : gset ResourceId := default ∅ (_groups st !! gn).

(** Relative to the root. *)
Definition group_path (gn : GroupName) : list byte := sha1_hex_digest gn.

Definition is_pinned (gn : GroupName) (r : root) : bool :=
  match r !! group_path gn with
  | None => false
  | Some OtherFile => false
  | Some (GroupDir d) => pinned d
  end.

Definition pinned_groups (st : DhtGroupsImpl) : gset GroupName := filter (fun gn => is_pinned gn (_root st) = true) (groups st).

Definition item_exists (gn : GroupName) (item : ResourceId) (r : root) : bool :=
  match r !! group_path gn with
  | Some (GroupDir d) => match items_of d with ItemsDir files => bool_decide (item ∈ files) | _ => false end
  | _ => false
  end.

(** [is_pinned] of a resource. *)
Definition is_pinned_resource (item : ResourceId) (st : DhtGroupsImpl) : bool :=
  existsb (fun gn => item_exists gn item (_root st)) (elements (pinned_groups st)).

(** ** Changes *)

Definition set_pinned (b : bool) (d : group_dir) : group_dir :=
  {| group_name_file := group_name_file d; items_of := items_of d; pinned := b |}.

Definition set_items (i : items_entry) (d : group_dir) : group_dir :=
  {| group_name_file := group_name_file d; items_of := i; pinned := pinned d |}.

Definition set_root (r : root) (st : DhtGroupsImpl) : DhtGroupsImpl := {| _root := r; _groups := _groups st |}.

Definition pin_group (fails : bool) (gn : GroupName) (st : DhtGroupsImpl) : DhtGroupsImpl * bool :=
  match _root st !! group_path gn with
  | None | Some OtherFile => (st, false)
  | Some (GroupDir d) =>
      if fails then (st, false) else (set_root (<[group_path gn := GroupDir (set_pinned true d)]> (_root st)) st, true)
  end.

Definition unpin_group (fails : bool) (gn : GroupName) (st : DhtGroupsImpl) : DhtGroupsImpl * bool :=
  match _root st !! group_path gn with
  | None => (st, false)
  | Some OtherFile => (st, true)
  | Some (GroupDir d) =>
      if negb (pinned d) then (st, true)
      else if fails then (st, false)
      else (set_root (<[group_path gn := GroupDir (set_pinned false d)]> (_root st)) st, true)
  end.

(** The operations on files of [add]. *)
Variant add_op := CreateGroupDir | OpenName | WriteName | CreateItemsDir | OpenItem | TruncateItem.

(** The directory of a group that exists, or is created with the file of its name. *)
Definition add_group_dir (fails : add_op -> option errc) (gn : GroupName) (r : root) : root * (errc + group_dir) :=
  match r !! group_path gn with
  | Some OtherFile => (r, inl not_a_directory)
  | Some (GroupDir d) => (r, inr d)
  | None =>
      match fails CreateGroupDir with
      | Some e => (r, inl e)
      | None =>
          match fails OpenName, fails WriteName with
          | Some e, _ | None, Some e => (delete (group_path gn) r, inl e)
          | None, None => (r, inr {| group_name_file := Some gn; items_of := NoItems; pinned := false |})
          end
      end
  end.

(** The files of its directory of items. *)
Definition add_items_dir (fails : add_op -> option errc) (d : group_dir) : errc + gset (list byte) :=
  match items_of d, fails CreateItemsDir with
  | ItemsDir files, _ => inr files
  | NoItems, None => inr ∅
  | _, Some e => inl e
  | ItemsNotDir, None => inl not_a_directory
  end.

Definition add_item (item_name : ResourceId) (gn : GroupName) (groups : Groups) : Groups :=
  match groups !! gn with
  | None => <[gn := {[item_name]}]> groups
  | Some items => <[gn := {[item_name]} ∪ items]> groups
  end.

Definition add (fails : add_op -> option errc) (gn : GroupName) (item_name : ResourceId) (st : DhtGroupsImpl) :
    DhtGroupsImpl * option errc :=
  match add_group_dir fails gn (_root st) with
  | (r, inl e) => (set_root r st, Some e)
  | (r, inr d) =>
      match add_items_dir fails d with
      | inl e => (set_root (delete (group_path gn) r) st, Some e)
      | inr files =>
          let with_files fs := <[group_path gn := GroupDir (set_items (ItemsDir fs) d)]> r in
          match fails OpenItem with
          | Some e =>
              (set_root (if bool_decide (files = ∅) then delete (group_path gn) (with_files files) else with_files files) st, Some e)
          | None =>
              let files := {[item_name]} ∪ files in
              match fails TruncateItem with
              | Some e =>
                  (set_root (if bool_decide (files = ∅) then delete (group_path gn) (with_files files) else with_files files) st, Some e)
              | None => ({| _root := with_files files; _groups := add_item item_name gn (_groups st) |}, None)
              end
          end
      end
  end.

Definition remove_item (gn : GroupName) (item_name : ResourceId) (r : root) : root :=
  match r !! group_path gn with
  | Some (GroupDir d) =>
      match items_of d with
      | ItemsDir files => <[group_path gn := GroupDir (set_items (ItemsDir (files ∖ {[item_name]})) d)]> r
      | _ => r
      end
  | _ => r
  end.

Record removal := { rm_impl : DhtGroupsImpl; erased_groups : gset GroupName; group_pinned : bool }.

Definition erase_group (gn : GroupName) (rm : removal) : removal :=
  {| rm_impl := {| _root := delete (group_path gn) (_root (rm_impl rm)); _groups := delete gn (_groups (rm_impl rm)) |};
     erased_groups := {[gn]} ∪ erased_groups rm; group_pinned := group_pinned rm |}.

(** The body of the loop of [remove]. *)
Definition remove_from (item_name : ResourceId) (rm : removal) (g : GroupName * gset ResourceId) : removal :=
  let '(gn, items) := g in
  if bool_decide (items = ∅) then erase_group gn rm
  else if negb (bool_decide (item_name ∈ items)) then rm
  else if is_pinned gn (_root (rm_impl rm)) then
    {| rm_impl := rm_impl rm; erased_groups := erased_groups rm; group_pinned := true |}
  else
    let items := items ∖ {[item_name]} in
    let rm := {| rm_impl := {| _root := remove_item gn item_name (_root (rm_impl rm));
                               _groups := <[gn := items]> (_groups (rm_impl rm)) |};
                 erased_groups := erased_groups rm; group_pinned := group_pinned rm |} in
    if bool_decide (items = ∅) then erase_group gn rm else rm.

(** The order of the keys of [std::map]. *)
Definition name_le (a b : GroupName * gset ResourceId) : Prop := lex_ltb (fst b) (fst a) = false.

#[global] Instance name_le_dec : RelDecision name_le.
Proof. intros a b. unfold name_le. apply _. Defined.

Definition in_order (gs : Groups) : list (GroupName * gset ResourceId) := merge_sort name_le (map_to_list gs).

Definition remove (item_name : ResourceId) (st : DhtGroupsImpl) : removal :=
  foldl (remove_from item_name) {| rm_impl := st; erased_groups := ∅; group_pinned := false |} (in_order (_groups st)).

Definition remove_group (gn : GroupName) (st : DhtGroupsImpl) : DhtGroupsImpl :=
  match _groups st !! gn with
  | None => st
  | Some _ => {| _root := delete (group_path gn) (_root st); _groups := delete gn (_groups st) |}
  end.

(** ** Groups with a fallback *)

Record BackedDhtGroups := { impl : DhtGroupsImpl; fallback_groups : DhtGroupsImpl }.

Definition backed_groups (b : BackedDhtGroups) : gset GroupName := groups (impl b) ∪ groups (fallback_groups b).

Definition backed_items (gn : GroupName) (b : BackedDhtGroups) : gset ResourceId := items gn (impl b) ∪ items gn (fallback_groups b).

(** The overload with one argument, which is overridden. *)
Definition backed_remove (item_name : ResourceId) (b : BackedDhtGroups) : BackedDhtGroups * gset GroupName :=
  let rm := remove item_name (impl b) in
  ({| impl := rm_impl rm; fallback_groups := fallback_groups b |},
   filter (fun gn => gn ∉ groups (fallback_groups b)) (erased_groups rm)).

(** The overload that also says whether a group was pinned, which is inherited. *)
Definition backed_remove_pinned (item_name : ResourceId) (b : BackedDhtGroups) : BackedDhtGroups * gset GroupName * bool :=
  let rm := remove item_name (impl b) in
  ({| impl := rm_impl rm; fallback_groups := fallback_groups b |}, erased_groups rm, group_pinned rm).

End Code.

(** ** What the groups promise

    The groups with their items and the set of those that are pinned.  An operation on
    files that fails makes [add] fail and changes nothing; a restart changes nothing. *)
Record spec := { sgroups : Groups; spins : gset GroupName }.

Variant op :=
| Add (fails : add_op -> option errc) (gn : GroupName) (item_name : ResourceId)
| Remove (item_name : ResourceId)
| Pin (fails : bool) (gn : GroupName)
| Unpin (fails : bool) (gn : GroupName)
| RemoveGroup (gn : GroupName)
| Restart (trusted : bool) (listed : root -> list (list byte * dir_entry)).

Variant out :=
| Added (e : option errc)
| Removed (erased : gset GroupName) (was_pinned : bool)
| Answer (b : bool)
| NoAnswer
| Restarted (e : option errc).

(** The first of the operations that [add] has to do for the group and that fails. *)
Definition add_failure (fails : add_op -> option errc) (is_new : bool) : option errc :=
  head (omap fails (if is_new then [CreateGroupDir; OpenName; WriteName; CreateItemsDir; OpenItem] else [OpenItem])).

(** An item leaves its groups that are not pinned; a group without items ends. *)
Definition after_remove (item_name : ResourceId) (pins : gset GroupName) (gn : GroupName) (items : gset ResourceId) :
    option (gset ResourceId) :=
  if bool_decide (item_name ∈ items) && bool_decide (gn ∉ pins)
  then (if bool_decide (items ∖ {[item_name]} = ∅) then None else Some (items ∖ {[item_name]}))
  else Some items.

Definition spec_remove (item_name : ResourceId) (sp : spec) : spec :=
  {| sgroups := map_imap (after_remove item_name (spins sp)) (sgroups sp); spins := spins sp |}.

Definition spec_step (o : op) (sp : spec) : spec * out :=
  match o with
  | Add fails gn item_name =>
      match add_failure fails (bool_decide (gn ∉ dom (sgroups sp))) with
      | Some e => (sp, Added (Some e))
      | None => ({| sgroups := <[gn := {[item_name]} ∪ default ∅ (sgroups sp !! gn)]> (sgroups sp); spins := spins sp |}, Added None)
      end
  | Remove item_name =>
      let sp' := spec_remove item_name sp in
      (sp', Removed (dom (sgroups sp) ∖ dom (sgroups sp'))
                    (bool_decide (map_Exists (fun gn items => item_name ∈ items /\ gn ∈ spins sp) (sgroups sp))))
  | Pin fails gn =>
      if negb fails && bool_decide (gn ∈ dom (sgroups sp))
      then ({| sgroups := sgroups sp; spins := {[gn]} ∪ spins sp |}, Answer true) else (sp, Answer false)
  | Unpin fails gn =>
      if bool_decide (gn ∉ dom (sgroups sp)) then (sp, Answer false)
      else if bool_decide (gn ∉ spins sp) then (sp, Answer true)
      else if fails then (sp, Answer false)
      else ({| sgroups := sgroups sp; spins := spins sp ∖ {[gn]} |}, Answer true)
  | RemoveGroup gn => ({| sgroups := delete gn (sgroups sp); spins := spins sp ∖ {[gn]} |}, NoAnswer)
  | Restart _ _ => (sp, Restarted None)
  end.

Fixpoint spec_run (os : list op) (sp : spec) : spec * list out :=
  match os with
  | [] => (sp, [])
  | o :: os' => let '(sp, x) := spec_step o sp in let '(sp, xs) := spec_run os' sp in (sp, x :: xs)
  end.

Section Refinement.
Variable sha1 : list byte -> list byte.

Definition step (o : op) (st : DhtGroupsImpl) : DhtGroupsImpl * out :=
  match o with
  | Add fails gn item_name => let '(st, e) := add sha1 fails gn item_name st in (st, Added e)
  | Remove item_name => let rm := remove sha1 item_name st in (rm_impl rm, Removed (erased_groups rm) (group_pinned rm))
  | Pin fails gn => let '(st, b) := pin_group sha1 fails gn st in (st, Answer b)
  | Unpin fails gn => let '(st, b) := unpin_group sha1 fails gn st in (st, Answer b)
  | RemoveGroup gn => (remove_group sha1 gn st, NoAnswer)
  | Restart trusted listed =>
      match load sha1 trusted listed (RootDir (_root st)) with
      | (_, inr st) => (st, Restarted None)
      | (_, inl e) => (st, Restarted (Some e))
      end
  end.

Fixpoint run (os : list op) (st : DhtGroupsImpl) : DhtGroupsImpl * list out :=
  match os with
  | [] => (st, [])
  | o :: os' => let '(st, x) := step o st in let '(st, xs) := run os' st in (st, x :: xs)
  end.

(** The names that are used have different digests. *)
Variable used : GroupName -> Prop.
Hypothesis digests_differ : forall a b, used a -> used b -> sha1 a = sha1 b -> a = b.

Definition valid_item (i : ResourceId) : Prop := ResourceId_from_hex i = Some i.

Definition op_ok (o : op) : Prop :=
  match o with
  | Add fails gn item_name =>
      used gn /\ Z.of_nat (length gn) <= MAX_URL_SIZE /\ valid_item item_name /\ fails TruncateItem = None
  | Remove _ => True
  | Pin _ gn | Unpin _ gn | RemoveGroup gn => used gn
  | Restart _ listed => forall r, listed r ≡ₚ map_to_list r
  end.

(** *** The directory of the groups *)

Definition dir_of (sp : spec) (gn : GroupName) : option dir_entry :=
  (fun items => GroupDir {| group_name_file := Some gn; items_of := ItemsDir items; pinned := bool_decide (gn ∈ spins sp) |})
    <$> sgroups sp !! gn.

Record root_ok (r : root) (sp : spec) : Prop := {
  root_dirs : forall gn, used gn -> r !! group_path sha1 gn = dir_of sp gn;
  root_paths : forall p, is_Some (r !! p) -> exists gn, used gn /\ p = group_path sha1 gn;
}.

Record spec_ok (sp : spec) : Prop := {
  spec_names : forall gn items, sgroups sp !! gn = Some items -> used gn /\ Z.of_nat (length gn) <= MAX_URL_SIZE;
  spec_items : forall gn items, sgroups sp !! gn = Some items -> items ≠ ∅ /\ forall i, i ∈ items -> valid_item i;
  spec_pins : spins sp ⊆ dom (sgroups sp);
}.

Record refines (st : DhtGroupsImpl) (sp : spec) : Prop := {
  ref_groups : _groups st = sgroups sp;
  ref_root : root_ok (_root st) sp;
  ref_ok : spec_ok sp;
}.

Lemma to_hex_inj a b : to_hex a = to_hex b -> a = b.
Proof.
  intros H. pose proof (from_hex_to_hex a []) as Ha. pose proof (from_hex_to_hex b []) as Hb.
  rewrite !app_nil_r in *. rewrite H, Hb in Ha. cbn in Ha. rewrite !app_nil_r in Ha. by injection Ha.
Qed.

Lemma group_path_inj a b : used a -> used b -> group_path sha1 a = group_path sha1 b -> a = b.
Proof. intros Ha Hb H. by apply digests_differ, to_hex_inj. Qed.

(** A change of the directory of one group. *)
Lemma root_ok_update r sp sp' gn x :
  root_ok r sp -> used gn -> (forall gn', gn' ≠ gn -> dir_of sp' gn' = dir_of sp gn') -> dir_of sp' gn = x ->
  root_ok (partial_alter (fun _ => x) (group_path sha1 gn) r) sp'.
Proof.
  intros [Hd Hp] Hu Ho Hx. split.
  - intros gn' Hu'. destruct (decide (gn' = gn)) as [->|Hne]; [by rewrite lookup_partial_alter_eq|].
    rewrite lookup_partial_alter_ne by (intros E; apply Hne; by apply group_path_inj). rewrite Hd by done. by rewrite Ho.
  - intros p. destruct (decide (p = group_path sha1 gn)) as [->|Hne]; [eauto|]. rewrite lookup_partial_alter_ne by done. apply Hp.
Qed.

(** Everything in the directory is a group. *)
Lemma root_ok_lookup r sp p e :
  root_ok r sp -> r !! p = Some e ->
  exists gn items, used gn /\ p = group_path sha1 gn /\ sgroups sp !! gn = Some items /\
    e = GroupDir {| group_name_file := Some gn; items_of := ItemsDir items; pinned := bool_decide (gn ∈ spins sp) |}.
Proof.
  intros [Hd Hp] He. destruct (Hp p ltac:(by eexists)) as (gn & Hu & ->). rewrite Hd in He by done. unfold dir_of in He.
  destruct (sgroups sp !! gn) as [items|] eqn:E; [|done]. injection He as <-. eauto 10.
Qed.

Lemma load_items_valid (files : gset (list byte)) : (forall i, i ∈ files -> valid_item i) -> load_items files = files.
Proof.
  intros Hv. apply set_eq. intros x. unfold load_items. rewrite elem_of_list_to_set, list_elem_of_omap. split.
  - intros (y & Hy%elem_of_elements & E). rewrite (Hv y Hy) in E. by injection E as <-.
  - intros Hx. exists x. split; [by apply elem_of_elements|by apply Hv].
Qed.

(** *** Restarts *)

Lemma load_entries_spec trusted r sp es : forall gs,
  spec_ok sp -> (forall p e, (p, e) ∈ es -> exists gn items, p = group_path sha1 gn /\ sgroups sp !! gn = Some items /\
    e = GroupDir {| group_name_file := Some gn; items_of := ItemsDir items; pinned := bool_decide (gn ∈ spins sp) |}) ->
  gs ⊆ sgroups sp ->
  exists gs', load_entries sha1 trusted es r gs = (r, inr gs') /\ gs ⊆ gs' /\ gs' ⊆ sgroups sp /\
    forall p d gn, (p, GroupDir d) ∈ es -> group_name_file d = Some gn -> is_Some (gs' !! gn).
Proof.
  induction es as [|[p e] es IH]; intros gs Hok Hes Hsub; cbn [load_entries].
  { exists gs. split_and!; try done. intros ??? H%elem_of_nil. done. }
  destruct (Hes p e) as (gn & items & -> & Hi & ->); [by left|].
  unfold load_group. cbn [group_name_file items_of]. unfold read_file.
  destruct (spec_names sp Hok _ _ Hi) as [_ Hlen]. destruct (spec_items sp Hok _ _ Hi) as [Hne Hval].
  destruct (Z.ltb_spec MAX_URL_SIZE (Z.of_nat (length gn))); [lia|].
  rewrite bool_decide_true by done. rewrite andb_false_r. rewrite load_items_valid by done. rewrite bool_decide_false by done.
  set (gs1 := match gs !! gn with Some _ => gs | None => <[gn := items]> gs end).
  assert (gs ⊆ gs1 /\ gs1 ⊆ sgroups sp /\ gs1 !! gn = Some items) as (H1 & H2 & H3).
  { unfold gs1. destruct (gs !! gn) as [i'|] eqn:E.
    - pose proof (lookup_weaken _ _ _ _ E Hsub) as E'. rewrite Hi in E'. injection E' as <-. done.
    - split_and!; [by apply insert_subseteq|by apply insert_subseteq_l|by apply lookup_insert_eq]. }
  destruct (IH gs1 Hok) as (gs' & Hl & Hg1 & Hg2 & Hg3); [intros; apply Hes; by right|done|].
  exists gs'. split_and!; [done|by etransitivity|done|]. intros p' d gn' [E|H']%elem_of_cons Hn.
  - injection E as -> ->. cbn in Hn. injection Hn as <-. exists items. by eapply lookup_weaken.
  - by eapply Hg3.
Qed.

Lemma load_spec trusted listed st sp :
  refines st sp -> (forall r, listed r ≡ₚ map_to_list r) ->
  load sha1 trusted listed (RootDir (_root st)) = (RootDir (_root st), inr st).
Proof.
  intros [Hg Hr Hok] Hl. unfold load.
  destruct (load_entries_spec trusted (_root st) sp (listed (_root st)) ∅) as (gs' & -> & _ & Hsub & Hall); [done| |apply map_empty_subseteq|].
  { intros p e Hin. rewrite Hl, elem_of_map_to_list in Hin. destruct (root_ok_lookup _ _ _ _ Hr Hin) as (gn & items & _ & ? & ? & ?). eauto. }
  assert (gs' = _groups st) as ->; [|by destruct st].
  rewrite Hg. apply map_eq. intros gn. destruct (sgroups sp !! gn) as [items|] eqn:E.
  - destruct (spec_names sp Hok _ _ E) as [Hu _].
    assert (_root st !! group_path sha1 gn = dir_of sp gn) as Hd by (by apply Hr). unfold dir_of in Hd. rewrite E in Hd. cbn in Hd.
    destruct (Hall (group_path sha1 gn) _ gn (ltac:(rewrite Hl; by apply elem_of_map_to_list)) eq_refl) as [i' Hi'].
    rewrite Hi'. rewrite <-E. symmetry. by eapply lookup_weaken.
  - destruct (gs' !! gn) as [i'|] eqn:E'; [|done]. exfalso. pose proof (lookup_weaken _ _ _ _ E' Hsub). congruence.
Qed.

(** *** Operations on one group *)

Lemma refines_intro st sp sp' r' gs' :
  _groups st = sgroups sp -> gs' = sgroups sp' -> root_ok r' sp' -> spec_ok sp' -> refines {| _root := r'; _groups := gs' |} sp'.
Proof. intros _ -> ??. by split. Qed.

Lemma root_ok_delete r sp gn : root_ok r sp -> used gn -> sgroups sp !! gn = None -> root_ok (delete (group_path sha1 gn) r) sp.
Proof. intros Hr Hu Hn. apply (root_ok_update r sp); [done..|]. unfold dir_of. by rewrite Hn. Qed.

Lemma refines_same st sp r : refines st sp -> root_ok r sp -> refines (set_root r st) sp.
Proof. intros [Hg _ Hok] Hr. by split. Qed.

(** The specification of the group with an item more. *)
Definition spec_add (gn : GroupName) (item_name : ResourceId) (sp : spec) : spec :=
  {| sgroups := <[gn := {[item_name]} ∪ default ∅ (sgroups sp !! gn)]> (sgroups sp); spins := spins sp |}.

Lemma spec_add_ok gn item_name sp :
  spec_ok sp -> used gn -> Z.of_nat (length gn) <= MAX_URL_SIZE -> valid_item item_name -> spec_ok (spec_add gn item_name sp).
Proof.
  intros [Hn Hi Hp] Hu Hlen Hv. split; cbn [spec_add sgroups spins].
  - intros gn' items'. destruct (decide (gn = gn')) as [<-|Hne]; [done|]. rewrite lookup_insert_ne by done. apply Hn.
  - intros gn' items'. destruct (decide (gn = gn')) as [<-|Hne].
    + rewrite lookup_insert_eq. intros [= <-]. split; [set_solver|]. intros i [->%elem_of_singleton|Hin]%elem_of_union; [done|].
      destruct (sgroups sp !! gn) as [items|] eqn:E; [by eapply Hi|]. cbn in Hin. by apply not_elem_of_empty in Hin.
    + rewrite lookup_insert_ne by done. apply Hi.
  - rewrite dom_insert_L. set_solver.
Qed.

Lemma add_refines fails gn item_name st sp :
  op_ok (Add fails gn item_name) -> refines st sp ->
  refines (fst (step (Add fails gn item_name) st)) (fst (spec_step (Add fails gn item_name) sp)) /\
  snd (step (Add fails gn item_name) st) = snd (spec_step (Add fails gn item_name) sp).
Proof.
  intros (Hu & Hlen & Hv & Ht) Href. pose proof Href as [Hg Hr Hok]. cbn [step spec_step]. unfold add, add_group_dir, add_failure.
  pose proof (root_dirs _ _ Hr gn Hu) as Hd. unfold dir_of in Hd. rewrite Hd. fold (spec_add gn item_name sp).
  destruct (sgroups sp !! gn) as [items|] eqn:E; cbn [fmap option_fmap option_map].
  - rewrite (bool_decide_false (gn ∉ dom (sgroups sp))) by (intros Hc%not_elem_of_dom; congruence). cbn [omap list_omap].
    cbn [add_items_dir items_of]. destruct (spec_items sp Hok _ _ E) as [Hne _].
    destruct (fails OpenItem) as [e|]; cbn [head fst snd].
    + rewrite (bool_decide_false (items = ∅)) by done. split; [|done]. apply refines_same; [done|].
      apply (root_ok_update (_root st) sp); [done..|]. unfold dir_of. by rewrite E.
    + rewrite Ht. cbn [fst snd]. split; [|done]. eapply refines_intro; [exact Hg| | |by apply spec_add_ok].
      * unfold add_item, spec_add. cbn. by rewrite Hg, E.
      * apply (root_ok_update (_root st) sp); [done|done| |].
        -- intros gn' Hgn'. unfold dir_of, spec_add. cbn. by rewrite lookup_insert_ne.
        -- unfold dir_of, spec_add. cbn. by rewrite lookup_insert_eq, E.
  - rewrite (bool_decide_true (gn ∉ dom (sgroups sp))) by (by apply not_elem_of_dom). cbn [omap list_omap].
    destruct (fails CreateGroupDir) as [e|]; cbn [head fst snd]; [split; [by destruct st|done]|].
    destruct (fails OpenName) as [e|]; cbn [head fst snd]; [split; [by apply refines_same, root_ok_delete|done]|].
    destruct (fails WriteName) as [e|]; cbn [head fst snd]; [split; [by apply refines_same, root_ok_delete|done]|].
    cbn [add_items_dir items_of]. destruct (fails CreateItemsDir) as [e|]; cbn [head fst snd]; [split; [by apply refines_same, root_ok_delete|done]|].
    destruct (fails OpenItem) as [e|]; cbn [head fst snd].
    + rewrite bool_decide_true by done. split; [|done]. apply refines_same; [done|]. rewrite delete_insert_eq. by apply root_ok_delete.
    + rewrite Ht. cbn [fst snd]. split; [|done]. eapply refines_intro; [exact Hg| | |by apply spec_add_ok].
      * unfold add_item, spec_add. cbn. rewrite Hg, E. cbn. by rewrite (right_id_L ∅ (∪)).
      * apply (root_ok_update (_root st) sp); [done|done| |].
        -- intros gn' Hgn'. unfold dir_of, spec_add. cbn. by rewrite lookup_insert_ne.
        -- unfold dir_of, spec_add. cbn. rewrite lookup_insert_eq, E. cbn. f_equal. f_equal. unfold set_items. cbn. f_equal.
           apply bool_decide_eq_false. intros Hin. apply (spec_pins sp Hok), elem_of_dom in Hin as [? ?]. congruence.
Qed.

Lemma pin_refines fails gn st sp :
  used gn -> refines st sp ->
  refines (fst (step (Pin fails gn) st)) (fst (spec_step (Pin fails gn) sp)) /\
  snd (step (Pin fails gn) st) = snd (spec_step (Pin fails gn) sp).
Proof.
  intros Hu Href. pose proof Href as [Hg Hr Hok]. cbn [step spec_step]. unfold pin_group.
  pose proof (root_dirs _ _ Hr gn Hu) as Hd. unfold dir_of in Hd. rewrite Hd.
  destruct (sgroups sp !! gn) as [items|] eqn:E; cbn [fmap option_fmap option_map].
  - rewrite (bool_decide_true (gn ∈ dom (sgroups sp))) by (by apply elem_of_dom). destruct fails; [by split|].
    cbn [negb andb fst snd]. split; [|done]. apply (refines_intro st sp); [done|done| |].
    + apply (root_ok_update (_root st) sp); [done|done| |].
      * intros gn' Hne. unfold dir_of. cbn. destruct (sgroups sp !! gn') as [i'|]; [|done]. cbn. do 3 f_equal.
        apply bool_decide_ext. set_solver.
      * unfold dir_of. cbn. rewrite E. cbn. unfold set_pinned. cbn. rewrite bool_decide_true; [done|set_solver].
    + destruct Hok as [H1 H2 H3]. split; cbn; [done|done|]. apply union_subseteq. split; [|done].
      apply singleton_subseteq_l, elem_of_dom. by eexists.
  - rewrite (bool_decide_false (gn ∈ dom (sgroups sp))) by (by apply not_elem_of_dom). rewrite andb_false_r. by split.
Qed.

Lemma unpin_refines fails gn st sp :
  used gn -> refines st sp ->
  refines (fst (step (Unpin fails gn) st)) (fst (spec_step (Unpin fails gn) sp)) /\
  snd (step (Unpin fails gn) st) = snd (spec_step (Unpin fails gn) sp).
Proof.
  intros Hu Href. pose proof Href as [Hg Hr Hok]. cbn [step spec_step]. unfold unpin_group.
  pose proof (root_dirs _ _ Hr gn Hu) as Hd. unfold dir_of in Hd. rewrite Hd.
  destruct (sgroups sp !! gn) as [items|] eqn:E; cbn [fmap option_fmap option_map].
  - rewrite (bool_decide_false (gn ∉ dom (sgroups sp))) by (intros Hc%not_elem_of_dom; congruence). cbn [pinned].
    destruct (decide (gn ∈ spins sp)) as [Hp|Hp].
    + rewrite (bool_decide_true (gn ∈ spins sp)), (bool_decide_false (gn ∉ spins sp)) by (done || naive_solver). cbn [negb].
      destruct fails; [by split|]. cbn [fst snd]. split; [|done]. apply (refines_intro st sp); [done|done| |].
      * apply (root_ok_update (_root st) sp); [done|done| |].
        -- intros gn' Hne. unfold dir_of. cbn. destruct (sgroups sp !! gn') as [i'|]; [|done]. cbn. do 3 f_equal.
           apply bool_decide_ext. set_solver.
        -- unfold dir_of. cbn. rewrite E. cbn. unfold set_pinned. cbn. rewrite bool_decide_false; [done|set_solver].
      * destruct Hok as [H1 H2 H3]. split; cbn; [done|done|set_solver].
    + rewrite (bool_decide_false (gn ∈ spins sp)), (bool_decide_true (gn ∉ spins sp)) by done. by split.
  - rewrite (bool_decide_true (gn ∉ dom (sgroups sp))) by (by apply not_elem_of_dom). by split.
Qed.

(** The specification without a group. *)
Definition spec_drop (gn : GroupName) (sp : spec) : spec :=
  {| sgroups := delete gn (sgroups sp); spins := spins sp ∖ {[gn]} |}.

Lemma spec_drop_ok gn sp : spec_ok sp -> spec_ok (spec_drop gn sp).
Proof.
  intros [Hn Hi Hp]. split; cbn [spec_drop sgroups spins].
  - intros gn' items' [_ H]%lookup_delete_Some. by eapply Hn.
  - intros gn' items' [_ H]%lookup_delete_Some. by eapply Hi.
  - rewrite dom_delete_L. set_solver.
Qed.

Lemma root_ok_drop r sp gn : root_ok r sp -> used gn -> root_ok (delete (group_path sha1 gn) r) (spec_drop gn sp).
Proof.
  intros Hr Hu. apply (root_ok_update r sp); [done|done| |].
  - intros gn' Hne. unfold dir_of, spec_drop. cbn. rewrite lookup_delete_ne by done. destruct (sgroups sp !! gn') as [i'|]; [|done].
    cbn. do 3 f_equal. apply bool_decide_ext. set_solver.
  - unfold dir_of, spec_drop. cbn. by rewrite lookup_delete_eq.
Qed.

Lemma spec_drop_absent gn sp : spec_ok sp -> sgroups sp !! gn = None -> spec_drop gn sp = sp.
Proof.
  intros Hok Hn. destruct sp as [gs ps]. unfold spec_drop. cbn in *. f_equal; [by apply delete_id|].
  pose proof (spec_pins _ Hok) as Hp. cbn in Hp. assert (gn ∉ ps) as Hg; [|set_solver].
  intros [? ?]%Hp%elem_of_dom. congruence.
Qed.

Lemma remove_group_refines gn st sp : used gn -> refines st sp -> refines (remove_group sha1 gn st) (spec_drop gn sp).
Proof.
  intros Hu Href. pose proof Href as [Hg Hr Hok]. unfold remove_group. rewrite Hg.
  destruct (sgroups sp !! gn) as [items|] eqn:E; [|by rewrite spec_drop_absent].
  apply (refines_intro st sp); [done..| |by apply spec_drop_ok]. by apply root_ok_drop.
Qed.

(** *** Removing an item from every group *)

Definition spec_remove_one (item_name : ResourceId) (gn : GroupName) (items : gset ResourceId) (sp : spec) : spec :=
  {| sgroups := partial_alter (fun _ => after_remove item_name (spins sp) gn items) gn (sgroups sp); spins := spins sp |}.

Lemma is_pinned_spec gn r sp :
  root_ok r sp -> used gn -> spec_ok sp -> is_pinned sha1 gn r = bool_decide (gn ∈ spins sp).
Proof.
  intros Hr Hu Hok. unfold is_pinned. rewrite (root_dirs _ _ Hr gn Hu). unfold dir_of.
  destruct (sgroups sp !! gn) eqn:E; [done|]. symmetry. apply bool_decide_eq_false.
  intros [? ?]%(spec_pins sp Hok)%elem_of_dom. congruence.
Qed.

Lemma after_remove_ok item_name pins gn items items' :
  items ≠ ∅ -> after_remove item_name pins gn items = Some items' -> items' ≠ ∅ /\ items' ⊆ items.
Proof.
  intros Hne. unfold after_remove. destruct (_ && _); [|by intros [= <-]]. case_bool_decide; [done|]. intros [= <-].
  split; [done|set_solver].
Qed.

Lemma after_remove_None item_name pins gn items : after_remove item_name pins gn items = None -> gn ∉ pins.
Proof. unfold after_remove. do 2 case_bool_decide; cbn [andb]; naive_solver. Qed.

Lemma spec_remove_one_ok item_name gn items sp :
  spec_ok sp -> sgroups sp !! gn = Some items -> spec_ok (spec_remove_one item_name gn items sp).
Proof.
  intros [Hn Hi Hp] E. split; cbn [spec_remove_one sgroups spins].
  - intros gn' items'. destruct (decide (gn = gn')) as [<-|Hne]; [intros _; by eapply Hn|]. rewrite lookup_partial_alter_ne by done. apply Hn.
  - intros gn' items'. destruct (decide (gn = gn')) as [<-|Hne].
    + rewrite lookup_partial_alter_eq. destruct (Hi _ _ E) as [Hne Hv]. intros Ha. destruct (after_remove_ok _ _ _ _ _ Hne Ha). naive_solver.
    + rewrite lookup_partial_alter_ne by done. apply Hi.
  - intros gn' Hgn'. apply elem_of_dom. destruct (decide (gn = gn')) as [<-|Hne].
    + rewrite lookup_partial_alter_eq. destruct (after_remove _ _ _ _) eqn:Ea; [by eexists|]. by apply after_remove_None in Ea.
    + rewrite lookup_partial_alter_ne by done. by apply elem_of_dom, Hp.
Qed.

Lemma root_ok_remove_one r sp item_name gn items :
  root_ok r sp -> spec_ok sp -> used gn -> sgroups sp !! gn = Some items ->
  root_ok (partial_alter (fun _ => dir_of (spec_remove_one item_name gn items sp) gn) (group_path sha1 gn) r)
          (spec_remove_one item_name gn items sp).
Proof.
  intros Hr Hok Hu E. apply (root_ok_update r sp); [done|done| |done].
  intros gn' Hne. unfold dir_of, spec_remove_one. cbn. by rewrite lookup_partial_alter_ne.
Qed.

Lemma remove_from_refines item_name rm gn items sp :
  refines (rm_impl rm) sp -> sgroups sp !! gn = Some items ->
  let rm' := remove_from sha1 item_name rm (gn, items) in
  refines (rm_impl rm') (spec_remove_one item_name gn items sp) /\
  erased_groups rm' = (if after_remove item_name (spins sp) gn items is None then {[gn]} else ∅) ∪ erased_groups rm /\
  group_pinned rm' = group_pinned rm || bool_decide (item_name ∈ items /\ gn ∈ spins sp).
Proof.
  intros Href E. pose proof Href as [Hg Hr Hok]. destruct (spec_names sp Hok _ _ E) as [Hu _]. destruct (spec_items sp Hok _ _ E) as [Hne _].
  pose proof (root_ok_remove_one _ _ item_name _ _ Hr Hok Hu E) as Hr'. pose proof (spec_remove_one_ok item_name _ _ _ Hok E) as Hok'.
  cbv zeta. unfold remove_from. rewrite (bool_decide_false (items = ∅)) by done. rewrite (is_pinned_spec _ _ sp) by done.
  pose proof (root_dirs _ _ Hr gn Hu) as Hd. unfold dir_of in Hd. rewrite E in Hd. cbn in Hd.
  assert (sgroups (spec_remove_one item_name gn items sp) = partial_alter (fun _ => after_remove item_name (spins sp) gn items) gn (sgroups sp)) as Hs by done.
  assert (dir_of (spec_remove_one item_name gn items sp) gn = (fun i => GroupDir {| group_name_file := Some gn; items_of := ItemsDir i;
    pinned := bool_decide (gn ∈ spins sp) |}) <$> after_remove item_name (spins sp) gn items) as Hdir.
  { unfold dir_of. rewrite Hs. by rewrite lookup_partial_alter_eq. }
  rewrite Hdir in Hr'. revert Hr' Hs. generalize (spec_remove_one item_name gn items sp), Hok'. intros sp' Hok''. clear Hok' Hdir.
  assert (partial_alter (fun _ => Some items) gn (sgroups sp) = sgroups sp) as Hsame1 by (by apply partial_alter_id).
  pose proof (partial_alter_id (fun _ => _root (rm_impl rm) !! group_path sha1 gn) (_root (rm_impl rm)) (group_path sha1 gn) eq_refl) as Hsame2.
  rewrite Hd in Hsame2. unfold after_remove. destruct (decide (item_name ∈ items)) as [Hin|Hin].
  - rewrite (bool_decide_true (item_name ∈ items)) by done. cbn [negb andb]. destruct (decide (gn ∈ spins sp)) as [Hp|Hp].
    + rewrite (bool_decide_true (gn ∈ spins sp)), (bool_decide_false (gn ∉ spins sp)) by naive_solver. rewrite (bool_decide_true (_ /\ _)) by done.
      rewrite (bool_decide_true (gn ∈ spins sp)) in Hsame2 by done.
      cbn. intros Hr' Hs. rewrite orb_true_r, (left_id_L ∅ (∪)). split_and!; [|done|done]. split; [by rewrite Hs, Hsame1| |done].
      by rewrite Hsame2 in Hr'.
    + rewrite (bool_decide_false (gn ∈ spins sp)), (bool_decide_true (gn ∉ spins sp)) by done. rewrite (bool_decide_false (_ /\ _)) by naive_solver.
      rewrite (bool_decide_false (gn ∈ spins sp)) in Hd by done. unfold remove_item. rewrite Hd. cbn [items_of]. rewrite orb_false_r.
      destruct (decide (items ∖ {[item_name]} = ∅)) as [He|He];
        [rewrite (bool_decide_true (items ∖ {[item_name]} = ∅)) by done|rewrite (bool_decide_false (items ∖ {[item_name]} = ∅)) by done]; intros Hr' Hs.
      * cbn. split_and!; [|done|done]. split; cbn; [| |done].
        -- rewrite Hs, Hg, delete_insert_eq. done.
        -- rewrite delete_insert_eq. exact Hr'.
      * cbn. rewrite (left_id_L ∅ (∪)). split_and!; [|done|done]. split; cbn; [by rewrite Hs, Hg|exact Hr'|done].
  - rewrite (bool_decide_false (item_name ∈ items)) by done. rewrite (bool_decide_false (_ /\ _)) by naive_solver.
    cbn. intros Hr' Hs. rewrite orb_false_r, (left_id_L ∅ (∪)). split_and!; [|done|done]. split; [by rewrite Hs, Hsame1| |done].
    by rewrite Hsame2 in Hr'.
Qed.

Lemma remove_fold item_name pins l : forall rm sp,
  refines (rm_impl rm) sp -> spins sp = pins -> NoDup l.*1 -> (forall gn items, (gn, items) ∈ l -> sgroups sp !! gn = Some items) ->
  let rm' := foldl (remove_from sha1 item_name) rm l in
  exists sp', refines (rm_impl rm') sp' /\ spins sp' = pins /\
    (forall gn, gn ∉ l.*1 -> sgroups sp' !! gn = sgroups sp !! gn) /\
    (forall gn items, (gn, items) ∈ l -> sgroups sp' !! gn = after_remove item_name pins gn items) /\
    (forall gn, gn ∈ erased_groups rm' <-> gn ∈ erased_groups rm \/ exists items, (gn, items) ∈ l /\ after_remove item_name pins gn items = None) /\
    (group_pinned rm' = true <-> group_pinned rm = true \/ exists gn items, (gn, items) ∈ l /\ item_name ∈ items /\ gn ∈ pins).
Proof.
  induction l as [|[gn0 items0] l IH]; intros rm sp Href Hp Hnd Hl; cbn [foldl].
  { exists sp. split_and!; [done|done|done|by intros ?? H%elem_of_nil|..].
    - intros gn. split; [by left|]. by intros [?|(? & H%elem_of_nil & _)].
    - split; [by left|]. by intros [?|(? & ? & H%elem_of_nil & _)]. }
  cbn [fmap list_fmap fst] in Hnd. apply NoDup_cons in Hnd as [Hnin Hnd].
  destruct (remove_from_refines item_name rm gn0 items0 sp Href) as (Href1 & He1 & Hp1); [apply Hl; by left|]. subst pins.
  destruct (IH (remove_from sha1 item_name rm (gn0, items0)) (spec_remove_one item_name gn0 items0 sp)) as (sp' & H1 & H2 & H3 & H4 & H5 & H6); [done|done|done| |].
  { intros gn items Hin. cbn. rewrite lookup_partial_alter_ne; [apply Hl; by right|]. intros <-. apply Hnin.
    apply list_elem_of_fmap. by exists (gn0, items). }
  exists sp'. split_and!; [done|done|..].
  - intros gn [Hne Hn]%not_elem_of_cons. rewrite H3 by done. cbn. by apply lookup_partial_alter_ne.
  - intros gn items [[= -> ->]|Hin]%elem_of_cons; [|by apply H4]. rewrite H3 by done. cbn. by rewrite lookup_partial_alter_eq.
  - intros gn. rewrite H5, He1, elem_of_union. split.
    + intros [[H|H]|(items & Hin & H)]; [|by left|right; exists items; split; [by right|done]].
      destruct (after_remove _ _ gn0 items0) eqn:Ea; [by apply not_elem_of_empty in H|]. apply elem_of_singleton in H as ->.
      right. exists items0. split; [by left|done].
    + intros [H|(items & [[= -> ->]|Hin]%elem_of_cons & H)]; [by left; right|left; left; rewrite H; by apply elem_of_singleton|right; by exists items].
  - rewrite H6, Hp1, orb_true_iff, bool_decide_eq_true. split.
    + intros [[H|H]|(gn & items & Hin & H)]; [by left|right; exists gn0, items0; split; [by left|done]|right; exists gn, items; split; [by right|done]].
    + intros [H|(gn & items & [[= -> ->]|Hin]%elem_of_cons & H)]; [by left; left|by left; right|right; by exists gn, items].
Qed.

Lemma in_order_perm gs : in_order gs ≡ₚ map_to_list gs.
Proof. apply merge_sort_Permutation. Qed.

Lemma elem_of_in_order gs gn items : (gn, items) ∈ in_order gs <-> gs !! gn = Some items.
Proof. rewrite in_order_perm. apply elem_of_map_to_list. Qed.

Lemma remove_refines item_name st sp :
  refines st sp ->
  refines (fst (step (Remove item_name) st)) (fst (spec_step (Remove item_name) sp)) /\
  snd (step (Remove item_name) st) = snd (spec_step (Remove item_name) sp).
Proof.
  intros Href. pose proof (ref_groups _ _ Href) as Hg. cbn [step spec_step fst snd]. unfold remove.
  destruct (remove_fold item_name (spins sp) (in_order (_groups st)) {| rm_impl := st; erased_groups := ∅; group_pinned := false |} sp)
    as (sp' & H1 & H2 & H3 & H4 & H5 & H6); [done|done| |by intros gn items; rewrite elem_of_in_order, Hg|].
  { rewrite in_order_perm. apply NoDup_fst_map_to_list. }
  assert (sp' = spec_remove item_name sp) as ->.
  { destruct sp' as [gs' ps']. unfold spec_remove. cbn in *. f_equal; [|done]. apply map_eq. intros gn. rewrite map_lookup_imap.
    destruct (sgroups sp !! gn) as [items|] eqn:E; cbn.
    - apply H4. by rewrite elem_of_in_order, Hg.
    - rewrite H3, E; [done|]. rewrite list_elem_of_fmap. intros ([gn' items] & -> & Hin). rewrite elem_of_in_order, Hg in Hin. cbn in E. congruence. }
  split; [done|]. f_equal.
  - apply set_eq. intros gn. rewrite H5, elem_of_difference, !elem_of_dom. cbn [spec_remove sgroups]. rewrite map_lookup_imap. split.
    + intros [H|(items & Hin & Ha)]; [by apply not_elem_of_empty in H|]. rewrite elem_of_in_order, Hg in Hin. rewrite Hin. cbn. rewrite Ha.
      split; [by eexists|]. by intros [? ?].
    + intros [[items Hi] Hn]. right. exists items. rewrite elem_of_in_order, Hg. split; [done|]. rewrite Hi in Hn. cbn in Hn.
      destruct (after_remove _ _ _ _); [|done]. destruct Hn. by eexists.
  - apply eq_bool_prop_intro. rewrite !Is_true_true, bool_decide_eq_true, H6. unfold map_Exists. split.
    + intros [?|(gn & items & Hin & H)]; [done|]. rewrite elem_of_in_order, Hg in Hin. eauto.
    + intros (gn & items & Hin & H). right. exists gn, items. by rewrite elem_of_in_order, Hg.
Qed.

Lemma groups_step_refines o st sp :
  op_ok o -> refines st sp ->
  refines (fst (step o st)) (fst (spec_step o sp)) /\ snd (step o st) = snd (spec_step o sp).
Proof.
  intros Ho Href. destruct o as [fails gn i|i|fails gn|fails gn|gn|trusted listed].
  - by apply add_refines.
  - by apply remove_refines.
  - by apply pin_refines.
  - by apply unpin_refines.
  - split; [|done]. by apply remove_group_refines.
  - cbn [step spec_step]. by rewrite (load_spec trusted listed st sp Href Ho).
Qed.

Lemma groups_run_refines os : forall st sp,
  Forall op_ok os -> refines st sp -> refines (fst (run os st)) (fst (spec_run os sp)) /\ snd (run os st) = snd (spec_run os sp).
Proof.
  induction os as [|o os IH]; intros st sp Hok Href; cbn [run spec_run]; [done|]. apply Forall_cons in Hok as [Ho Hos].
  destruct (groups_step_refines o st sp Ho Href) as [H1 H2]. destruct (step o st) as [st1 x], (spec_step o sp) as [sp1 y]. cbn in H1, H2.
  destruct (IH st1 sp1 Hos H1) as [H3 H4]. destruct (run os st1), (spec_run os sp1). cbn in *. by subst.
Qed.

Lemma pinned_groups_spec st sp : refines st sp -> pinned_groups sha1 st = spins sp.
Proof.
  intros [Hg Hr Hok]. apply set_eq. intros gn. unfold pinned_groups. rewrite elem_of_filter. unfold groups. rewrite Hg. split.
  - intros [Hp [items Hi]%elem_of_dom]. rewrite (is_pinned_spec _ _ sp) in Hp by (done || by apply (spec_names sp Hok gn items)).
    by apply bool_decide_eq_true in Hp.
  - intros Hp. pose proof (spec_pins sp Hok _ Hp) as Hd. split; [|done]. apply elem_of_dom in Hd as [items Hi].
    rewrite (is_pinned_spec _ _ sp) by (done || by apply (spec_names sp Hok gn items)). by apply bool_decide_eq_true.
Qed.

Lemma is_pinned_resource_spec i st sp :
  refines st sp ->
  is_pinned_resource sha1 i st = true <-> exists gn items, sgroups sp !! gn = Some items /\ i ∈ items /\ gn ∈ spins sp.
Proof.
  intros Href. pose proof Href as [Hg Hr Hok]. unfold is_pinned_resource. rewrite (pinned_groups_spec _ _ Href), existsb_exists.
  assert (forall gn items, sgroups sp !! gn = Some items -> item_exists sha1 gn i (_root st) = bool_decide (i ∈ items)) as Hex.
  { intros gn items E. unfold item_exists. destruct (spec_names sp Hok _ _ E) as [Hu _]. rewrite (root_dirs _ _ Hr gn Hu).
    unfold dir_of. by rewrite E. }
  split.
  - intros (gn & Hin & Hi). rewrite <-list_elem_of_In, elem_of_elements in Hin.
    pose proof (spec_pins sp Hok _ Hin) as [items E]%elem_of_dom. rewrite (Hex _ _ E) in Hi. apply bool_decide_eq_true in Hi. eauto.
  - intros (gn & items & E & Hi & Hp). exists gn. rewrite <-list_elem_of_In, elem_of_elements. split; [done|].
    rewrite (Hex _ _ E). by apply bool_decide_eq_true.
Qed.

Lemma refines_init : refines {| _root := ∅; _groups := ∅ |} {| sgroups := ∅; spins := ∅ |}.
Proof.
  split; [done| |].
  - split; [intros gn _; unfold dir_of; cbn [sgroups]; by rewrite !lookup_empty|]. intros p [? H]. cbn [_root] in H. by rewrite lookup_empty in H.
  - split; cbn [sgroups spins]; [by intros ?? H; rewrite lookup_empty in H..|set_solver].
Qed.

End Refinement.

(** ** Properties *)

(** No operation on files fails. *)
Definition no_failure (o : add_op) : option errc := None.

Definition no_groups : DhtGroupsImpl := {| _root := ∅; _groups := ∅ |}.

Definition spec_init : spec := {| sgroups := ∅; spins := ∅ |}.

(** C29: the groups behave like a map from names to sets of items with a set of pinned names,
    for any sequence of operations and restarts: the answers are the same, and at the end the
    groups and the pinned ones are.  A load of the directory gives the same groups again and
    changes nothing, whatever the order in which the directory is listed, also with the checks
    for a directory that is not trusted.  Creating directories and files, writing names, opening
    items, pinning and unpinning can fail; the truncation of the file of an item and removals do
    not, names are at most 2000 bytes long, and SHA-1 tells those that are used apart:
    [failed_truncate_leaves_item] and [long_group_name] show what happens otherwise. *)
Theorem dht_groups_refine sha1 (used : GroupName -> Prop) os :
  (forall a b, used a -> used b -> sha1 a = sha1 b -> a = b) -> Forall (op_ok used) os ->
  let '(st, outs) := run sha1 os no_groups in
  let '(sp, spec_outs) := spec_run os spec_init in
  outs = spec_outs /\ groups st = dom (sgroups sp) /\ (forall gn, items gn st = default ∅ (sgroups sp !! gn)) /\
  pinned_groups sha1 st = spins sp /\
  (forall trusted listed, (forall r, listed r ≡ₚ map_to_list r) ->
    load sha1 trusted listed (RootDir (_root st)) = (RootDir (_root st), inr st)).
Proof.
  intros Hinj Hok. destruct (groups_run_refines sha1 used Hinj os no_groups spec_init Hok) as [Href Houts]; [apply refines_init|].
  destruct (run sha1 os no_groups) as [st outs], (spec_run os spec_init) as [sp spec_outs]. cbn [fst snd] in *.
  pose proof (ref_groups _ _ _ _ Href) as Hg. split_and!; [done|..].
  - unfold groups. by rewrite Hg.
  - intros gn. unfold items. by rewrite Hg.
  - by eapply pinned_groups_spec.
  - intros trusted listed Hl. by eapply load_spec.
Qed.

(** An entry that makes the load fail. *)
Lemma load_entries_too_long sha1 used sp trusted es : forall r gs,
  spec_ok used sp ->
  (forall p e, (p, e) ∈ es ->
    (exists gn d, e = GroupDir d /\ group_name_file d = Some gn /\ MAX_URL_SIZE < Z.of_nat (length gn)) \/
    (exists gn items, p = group_path sha1 gn /\ sgroups sp !! gn = Some items /\
      e = GroupDir {| group_name_file := Some gn; items_of := ItemsDir items; pinned := bool_decide (gn ∈ spins sp) |})) ->
  (exists p gn d, (p, GroupDir d) ∈ es /\ group_name_file d = Some gn /\ MAX_URL_SIZE < Z.of_nat (length gn)) ->
  snd (load_entries sha1 trusted es r gs) = inl value_too_large.
Proof.
  induction es as [|[p e] es IH]; intros r gs Hok Hes (p0 & gn0 & d0 & Hin & Hn0 & Hlong); [by apply elem_of_nil in Hin|].
  cbn [load_entries]. destruct (Hes p e) as [(gn & d & -> & Hn & Hl)|(gn & items & -> & Hi & ->)]; [by left|..].
  { unfold load_group, read_file. rewrite Hn. by destruct (Z.ltb_spec MAX_URL_SIZE (Z.of_nat (length gn))); [|lia]. }
  unfold load_group, read_file. cbn [group_name_file items_of].
  destruct (spec_names _ sp Hok _ _ Hi) as [_ Hlen]. destruct (spec_items _ sp Hok _ _ Hi) as [Hne Hval].
  destruct (Z.ltb_spec MAX_URL_SIZE (Z.of_nat (length gn))); [lia|].
  rewrite bool_decide_true by done. rewrite andb_false_r, load_items_valid, bool_decide_false by done.
  apply IH; [done|intros; apply Hes; by right|]. apply elem_of_cons in Hin as [Heq|Hin]; [|by exists p0, gn0, d0].
  injection Heq as -> ->. cbn in Hn0. injection Hn0 as ->. lia.
Qed.

(** a group whose name is longer than 2000 bytes can be added and is there, but after
    that a load of the directory fails, for all groups, in every order of the entries. *)
Theorem long_group_name sha1 (used : GroupName -> Prop) os gn item_name st outs :
  (forall a b, used a -> used b -> sha1 a = sha1 b -> a = b) -> Forall (op_ok used) os ->
  run sha1 os no_groups = (st, outs) -> used gn -> MAX_URL_SIZE < Z.of_nat (length gn) ->
  let '(st', e) := add sha1 no_failure gn item_name st in
  e = None /\ item_name ∈ items gn st' /\
  (forall trusted listed, (forall r, listed r ≡ₚ map_to_list r) ->
    snd (load sha1 trusted listed (RootDir (_root st'))) = inl value_too_large).
Proof.
  intros Hinj Hok Hrun Hu Hlong. destruct (groups_run_refines sha1 used Hinj os no_groups spec_init Hok) as [Href _]; [apply refines_init|].
  rewrite Hrun in Href. cbn [fst] in Href. revert Href. generalize (fst (spec_run os spec_init)). intros sp [Hg Hr Hsp].
  assert (sgroups sp !! gn = None) as Hn.
  { destruct (sgroups sp !! gn) eqn:E; [|done]. destruct (spec_names _ sp Hsp _ _ E). lia. }
  pose proof (root_dirs _ _ _ _ Hr gn Hu) as Hd. unfold dir_of in Hd. rewrite Hn in Hd. cbn in Hd.
  unfold add, add_group_dir. rewrite Hd. cbn. unfold add_item. rewrite Hg, Hn.
  split_and!; [done|unfold items; cbn; rewrite lookup_insert_eq; cbn; set_solver|].
  intros trusted listed Hl. unfold load. set (r := insert _ _ (_root st)).
  assert (snd (load_entries sha1 trusted (listed r) r ∅) = inl value_too_large) as H.
  - apply (load_entries_too_long _ used sp); [done|..].
    + intros p e. rewrite Hl, elem_of_map_to_list. intros [[<- <-]|[Hne He]]%lookup_insert_Some.
      * left. by eexists gn, _.
      * right. destruct (root_ok_lookup _ _ _ _ _ _ Hr He) as (gn' & items & _ & ? & ? & ?). eauto.
    + exists (group_path sha1 gn). eexists gn, _. split_and!; [rewrite Hl; apply elem_of_map_to_list, lookup_insert_eq|done|done].
  - destruct (load_entries sha1 trusted (listed r) r ∅) as [r' [e|gs]]; [|done]. by injection H as ->.
Qed.

(** *** Witnesses *)

Definition plain_sha1 (l : list byte) : list byte := l.

Definition group1 : GroupName := str "example.org".
Definition group2 : GroupName := str "example.net".
Definition item1 : ResourceId := replicate 40 "a"%byte.
Definition item2 : ResourceId := replicate 40 "b"%byte.

Definition name_fails (o : add_op) : option errc := match o with WriteName => Some (file_error 28) | _ => None end.

Definition truncate_fails (o : add_op) : option errc := match o with TruncateItem => Some (file_error 5) | _ => None end.

Definition demo_ops : list op :=
  [Add no_failure group1 item1; Add no_failure group2 item1; Add name_fails (str "example.com") item2; Pin false group1;
   Remove item1; Restart true map_to_list; Unpin false group1; Remove item1].

Lemma plain_sha1_differ a b : True -> True -> plain_sha1 a = plain_sha1 b -> a = b.
Proof. done. Defined.

Lemma demo_ops_ok : Forall (op_ok (fun _ => True)) demo_ops.
Proof. repeat (apply Forall_cons; split; [repeat split; by vm_compute|]). by apply Forall_nil. Defined.

Lemma dht_groups_refine_witness :
  snd (run plain_sha1 demo_ops no_groups) =
    [Added None; Added None; Added (Some (file_error 28)); Answer true; Removed {[group2]} true; Restarted None;
     Answer true; Removed {[group1]} false].
Proof.
  pose proof (dht_groups_refine plain_sha1 (fun _ => True) demo_ops plain_sha1_differ demo_ops_ok) as H.
  assert (snd (spec_run demo_ops spec_init) =
    [Added None; Added None; Added (Some (file_error 28)); Answer true; Removed {[group2]} true; Restarted None;
     Answer true; Removed {[group1]} false]) as Hs by (vm_compute; reflexivity).
  destruct (run plain_sha1 demo_ops no_groups) as [st outs], (spec_run demo_ops spec_init) as [sp spec_outs].
  cbn [snd] in *. destruct H as [-> _]. exact Hs.
Defined.

Lemma long_group_name_witness :
  snd (load plain_sha1 true map_to_list (RootDir (_root (fst (add plain_sha1 no_failure (replicate 2001 "a"%byte) item1 no_groups))))) =
    inl value_too_large.
Proof.
  pose proof (long_group_name plain_sha1 (fun _ => True) [] (replicate 2001 "a"%byte) item1 no_groups []
                plain_sha1_differ (Forall_nil_2 _) eq_refl I ltac:(vm_compute; reflexivity)) as H.
  destruct (add plain_sha1 no_failure (replicate 2001 "a"%byte) item1 no_groups) as [st' e]. cbn [fst].
  destruct H as (_ & _ & H). by apply H.
Defined.

(** When the file of an item was created but cannot be truncated, [add] fails and the group
    is not there, but after a restart it is, with the item: the directory is not
    empty, and so it is not removed. *)
Example failed_truncate_leaves_item :
  (let '(st, e) := add plain_sha1 truncate_fails group1 item1 no_groups in
   bool_decide (e = Some (file_error 5)) && bool_decide (group1 ∉ groups st) &&
   match load plain_sha1 true map_to_list (RootDir (_root st)) with
   | (_, inr st') => bool_decide (item1 ∈ items group1 st')
   | _ => false
   end) = true.
Proof. vm_compute. reflexivity. Qed.
