(* ===== verification/CacheClient.v ===== *)
(** * The cache of a client: src/cache/client.cpp

    The client keeps responses in the HTTP store, which resources belong to which group, and
    announces the groups that it has to the DHT and to an I2P tracker.  This file composes the
    models of these parts ([HttpStore], [DhtGroups], [Announcer], [I2pAnnouncer]) as the code
    does: storing a response, the garbage collector, purging, pinning, the load at the
    start, which checks that groups and store agree, and enabling the announcers.

    The store and the groups can have a static fallback, empty maps if there is none.  The order
    in which directories are listed, the clock and the failures of operations on files are
    arguments.  [boost::posix_time::seconds] is a parameter, in ticks. *)
From S2P Require Import Prelude Number SplitString Url Http Request Crypto HashList HttpSign Base64 SignedHead BlockSign SignedBody HttpStore StoredBody.
From S2P Require Import Announcer I2pAnnouncer DhtGroups.

Abbreviation path := (list byte * list byte)%type (only parsing).
Abbreviation http_stores := (gmap (list byte * list byte) stored) (only parsing).

Record client := {
  c_store : http_stores;
  c_static_store : http_stores;
  c_groups : BackedDhtGroups;
  c_bep5 : option Announcer.state;
  c_i2p : option I2pAnnouncer.state;
}.

Definition set_store (st : http_stores) (c : client) : client :=
  {| c_store := st; c_static_store := c_static_store c; c_groups := c_groups c; c_bep5 := c_bep5 c; c_i2p := c_i2p c |}.
Definition set_groups (g : BackedDhtGroups) (c : client) : client :=
  {| c_store := c_store c; c_static_store := c_static_store c; c_groups := g; c_bep5 := c_bep5 c; c_i2p := c_i2p c |}.
Definition set_announcers (b : option Announcer.state) (i : option I2pAnnouncer.state) (c : client) : client :=
  {| c_store := c_store c; c_static_store := c_static_store c; c_groups := c_groups c; c_bep5 := b; c_i2p := i |}.

Section Code.
Context `{SignatureScheme} `{Base64} `{TransferCoding} `{BeastOps} `{HeadCodec}.
Variable sha1 sha512 : list byte -> list byte.
Variable _uri_swarm_prefix : list byte.
Variable _max_cached_age : Z.
Variable bsecs : Z -> Z.

Definition compute_swarm_name (group : GroupName) : list byte := _uri_swarm_prefix ++ group.

(** ** Announcers *)

Definition bep5_add (k : list byte) (a : Announcer.state) : Announcer.state :=
  Announcer.set_entries (snd (Announcer.add sha1 k (Announcer.entries a))) a.

Definition bep5_remove (k : list byte) (a : Announcer.state) : Announcer.state :=
  Announcer.set_entries (snd (Announcer.remove k (Announcer.entries a))) a.

Definition i2p_call (ev : I2pAnnouncer.event) (s : I2pAnnouncer.state) : I2pAnnouncer.state :=
  match I2pAnnouncer.step ev s with I2pAnnouncer.Next s _ => s | _ => s end.

(** Start announcing a group with each announcer that is enabled. *)
Definition announce_group (reallocates : bool) (group : GroupName) (c : client) : client :=
  set_announcers (bep5_add (compute_swarm_name group) <$> c_bep5 c)
                 (i2p_call (I2pAnnouncer.Add (sha1 (compute_swarm_name group)) reallocates) <$> c_i2p c) c.

Definition stop_announcing (c : client) (group : GroupName) : client :=
  set_announcers (bep5_remove (compute_swarm_name group) <$> c_bep5 c)
                 (i2p_call (I2pAnnouncer.Remove (sha1 (compute_swarm_name group))) <$> c_i2p c) c.

Definition enable_dht (t : Z) (c : client) : client * bool :=
  match c_bep5 c with
  | Some _ => (c, false)
  | None =>
      (set_announcers (Some (foldl (fun a gn => bep5_add (compute_swarm_name gn) a) (Announcer.start t) (elements (backed_groups (c_groups c)))))
                      (c_i2p c) c, true)
  end.

Definition enable_i2p (t : Z) (c : client) : client * bool :=
  match c_i2p c with
  | Some _ => (c, false)
  | None =>
      (set_announcers (c_bep5 c)
         (Some (foldl (fun s gn => i2p_call (I2pAnnouncer.Add (sha1 (compute_swarm_name gn)) false) s) (I2pAnnouncer.start t)
                      (elements (backed_groups (c_groups c))))) c, true)
  end.

(** ** Storing a response *)

(** [KeepSignedReader]; [None] is its assertion. *)
Definition keep_part (p : Part) : option Part :=
  match p with
  | HeadPart h => let? fs := keep_signed [] (rs_fields h) in Some (HeadPart (set_rs_fields h fs))
  | _ => Some p
  end.

(** [http_store] of what the reader delivers. *)
Fixpoint http_store_kept (inp : input) (w : writer) : res stored :=
  match inp with
  | [] => Ok (w_files w)
  | inl e :: _ => Fail e
  | inr p :: inp' =>
      match keep_part p with
      | None => BlockSign.Fault
      | Some p =>
          match write_part sha512 p w with
          | Ok w => http_store_kept inp' w
          | Fail e => Fail e
          | BlockSign.Fault => BlockSign.Fault
          end
      end
  end.

Variant store_outcome := Stored | StoreFailed (e : BlockSign.errc) | GroupFailed (e : DhtGroups.errc).

(** [FullHttpStore::store] of what the reader delivers; [None] is a fault. *)
Definition store_kept (sf : store_faults) (resource_id : list byte) (inp : input) (st : http_stores)
    : option (http_stores * option BlockSign.errc) :=
  match sf_write sf with
  | Some e => Some (st, Some e)
  | None =>
      match http_store_kept inp writer_init with
      | BlockSign.Fault => None
      | Fail e => Some (st, Some e)
      | Ok files => Some (replace_entry sf (path_from_resource_id resource_id) files st)
      end
  end.

Definition store (sf : store_faults) (resource_id : list byte) (group : GroupName) (inp : input) (fails : add_op -> option DhtGroups.errc)
    (reallocates : bool) (c : client) : option (client * store_outcome) :=
  match store_kept sf resource_id inp (c_store c) with
  | None => None
  | Some (st, Some e) => Some (set_store st c, StoreFailed e)
  | Some (st, None) =>
      let c := set_store st c in
      let '(g, e) := DhtGroups.add sha1 fails group resource_id (impl (c_groups c)) in
      let c := set_groups {| impl := g; fallback_groups := fallback_groups (c_groups c) |} c in
      match e with
      | Some e => Some (c, GroupFailed e)
      | None => Some (announce_group reallocates group c, Stored)
      end
  end.

(** ** Removing responses *)

Definition read_response_header (r : resource) : res response_header :=
  match resource_read r with
  | Fail e => Fail e
  | BlockSign.Fault => BlockSign.Fault
  | Ok (None, _) => Fail no_message
  | Ok (Some (HeadPart h), _) => Ok h
  | Ok (Some _, _) => BlockSign.Fault
  end.

(** [int64_t] wraps around. *)
Definition wrap64 (z : Z) : Z := (z + 2 ^ 63) mod 2 ^ 64 - 2 ^ 63.

Definition cache_entry_age (now : Z) (head : response_header) : Z :=
  let max_age := bsecs (2 ^ 63 - 1) in
  let ts_sv := http_injection_ts head in
  if bool_decide (chars ts_sv = []) then max_age
  else match fst (number_signed W8 (next_byte ts_sv) (chars ts_sv)) with
       | None => max_age
       | Some ts => bsecs (wrap64 (now - ts))
       end.

(** The client and whether a group was pinned. *)
Definition unpublish_cache_entry (resource_id : list byte) (c : client) : client * bool :=
  let '(g, empty_groups, group_pinned) := backed_remove_pinned sha1 resource_id (c_groups c) in
  let c := set_groups g c in
  if group_pinned then (c, true) else (foldl stop_announcing c (elements empty_groups), false).

Definition keep_cache_entry (now : Z) (resource_id : list byte) (r : resource) (c : client) : res (bool * client) :=
  match read_response_header r with
  | Fail e => Fail e
  | BlockSign.Fault => BlockSign.Fault
  | Ok hdr =>
      if negb (bool_decide (field_value protocol_version_hdr (rs_fields hdr) = protocol_version_hdr_current)) then Ok (false, c)
      else if _max_cached_age <? cache_entry_age now hdr then
        if is_pinned_resource sha1 resource_id (impl (c_groups c)) then Ok (true, c)
        else Ok (false, fst (unpublish_cache_entry resource_id c))
      else Ok (true, c)
  end.

Definition purge_entry (resource_id : list byte) (r : resource) (c : client) : res (bool * client) :=
  match read_response_header r with
  | Fail _ => Ok (false, c)
  | BlockSign.Fault => BlockSign.Fault
  | Ok _ => let '(c, group_pinned) := unpublish_cache_entry resource_id c in Ok (group_pinned, c)
  end.

(** [try_remove]: a removal that fails, which is only logged, leaves some of the files. *)
Definition drop_entry (remains : path -> option stored) (p : path) (c : client) : client :=
  set_store (match remains p with Some files => <[p := files]> (c_store c) | None => delete p (c_store c) end) c.

(** [FullHttpStore::for_each] with a function that changes the client; the list is that of the
    directories with valid names. *)
Fixpoint for_each_entry (remains : path -> option stored) (keep : list byte -> resource -> client -> res (bool * client)) (es : list (path * stored)) (c : client) :
    option client :=
  match es with
  | [] => Some c
  | (p, files) :: es' =>
      match http_store_reader files None with
      | BlockSign.Fault => None
      | Fail _ => for_each_entry remains keep es' (drop_entry remains p c)
      | Ok r =>
          match keep (fst p ++ snd p) r c with
          | BlockSign.Fault => None
          | Fail _ => for_each_entry remains keep es' (drop_entry remains p c)
          | Ok (true, c) => for_each_entry remains keep es' c
          | Ok (false, c) => for_each_entry remains keep es' (drop_entry remains p c)
          end
      end
  end.

(** A round of [GarbageCollector]. *)
Definition collect_garbage (remains : path -> option stored) (now : Z) (listed : http_stores -> list (path * stored)) (c : client) : option client :=
  for_each_entry remains (keep_cache_entry now) (listed (c_store c)) c.

Definition local_purge (remains : path -> option stored) (listed : http_stores -> list (path * stored)) (c : client) : option client :=
  for_each_entry remains purge_entry (listed (c_store c)) c.

(** ** Groups *)

Definition pin_group (fails : bool) (gn : GroupName) (c : client) : client * bool :=
  let '(g, b) := DhtGroups.pin_group sha1 fails gn (impl (c_groups c)) in
  (set_groups {| impl := g; fallback_groups := fallback_groups (c_groups c) |} c, b).

Definition unpin_group (fails : bool) (gn : GroupName) (c : client) : client * bool :=
  let '(g, b) := DhtGroups.unpin_group sha1 fails gn (impl (c_groups c)) in
  (set_groups {| impl := g; fallback_groups := fallback_groups (c_groups c) |} c, b).

(** [_http_store->reader], which also looks into the static store. *)
Definition entry_reader (resource_id : list byte) (c : client) : res resource :=
  backed (store_reader resource_id None) (c_store c) (c_static_store c).

Definition is_available (resource_id : list byte) (c : client) : bool :=
  match entry_reader resource_id c with Ok _ => true | _ => false end.

(** The checks at the end of [load_stored_groups]: items that the store does not have, and
    groups that have no other. *)
Definition bad_groups (c : client) : list GroupName :=
  List.filter (fun gn => negb (existsb (fun i => is_available i c) (elements (backed_items gn (c_groups c))))) (elements (backed_groups (c_groups c))).

Definition bad_items (c : client) : list ResourceId :=
  List.filter (fun i => negb (is_available i c))
    (mjoin (map (fun gn => elements (backed_items gn (c_groups c))) (elements (backed_groups (c_groups c))))).

Definition remove_bad_group (c : client) (gn : GroupName) : client :=
  set_groups {| impl := DhtGroups.remove_group sha1 gn (impl (c_groups c)); fallback_groups := fallback_groups (c_groups c) |} c.

Definition remove_bad_item (c : client) (item : ResourceId) : client := set_groups (fst (backed_remove sha1 item (c_groups c))) c.

Definition check_groups (c : client) : option client :=
  if existsb (fun gn => existsb (fun i => match entry_reader i c with BlockSign.Fault => true | _ => false end)
                          (elements (backed_items gn (c_groups c)))) (elements (backed_groups (c_groups c)))
  then None
  else Some (foldl remove_bad_item (foldl remove_bad_group c (bad_groups c)) (bad_items c)).

Variant load_outcome := Loaded (c : client) | LoadFailed (e : DhtGroups.errc) | LoadFault.

(** The static groups if there is a directory of them that can be loaded. *)
Definition load_static (listed : DhtGroups.root -> list (list byte * dir_entry)) (static_dir : option root_entry) : DhtGroupsImpl :=
  match static_dir with
  | None => {| _root := ∅; _groups := ∅ |}
  | Some d => match load sha1 false listed d with (_, inr g) => g | (_, inl _) => {| _root := ∅; _groups := ∅ |} end
  end.

Definition load_stored_groups (remains : path -> option stored) (now : Z) (st static_st : http_stores) (groups_dir : root_entry) (static_dir : option root_entry)
    (listed : DhtGroups.root -> list (list byte * dir_entry)) (listed_store : http_stores -> list (path * stored)) : load_outcome :=
  match load sha1 true listed groups_dir with
  | (_, inl e) => LoadFailed e
  | (_, inr g) =>
      let c := {| c_store := st; c_static_store := static_st;
                  c_groups := {| impl := g; fallback_groups := load_static listed static_dir |}; c_bep5 := None; c_i2p := None |} in
      match collect_garbage remains now listed_store c with
      | None => LoadFault
      | Some c => match check_groups c with None => LoadFault | Some c => Loaded c end
      end
  end.

(** ** The life of a client *)

Inductive client_event :=
| Store (sf : store_faults) (resource_id : list byte) (group : GroupName) (inp : input) (fails : add_op -> option DhtGroups.errc) (reallocates : bool)
| Gc (remains : path -> option stored) (now : Z) (listed : http_stores -> list (path * stored))
| Purge (remains : path -> option stored) (listed : http_stores -> list (path * stored))
| PinGroup (fails : bool) (gn : GroupName)
| UnpinGroup (fails : bool) (gn : GroupName)
| EnableDht (t : Z)
| EnableI2p (t : Z)
| Bep5 (ev : Announcer.event)
| I2p (ev : I2pAnnouncer.event)
| Reload (remains : path -> option stored) (now : Z) (listed : DhtGroups.root -> list (list byte * dir_entry)) (listed_store : http_stores -> list (path * stored)).

Variable simultaneous : nat.

Definition client_step (ev : client_event) (c : client) : option client :=
  match ev with
  | Store sf resource_id group inp fails reallocates => fst <$> store sf resource_id group inp fails reallocates c
  | Gc remains now listed => collect_garbage remains now listed c
  | Purge remains listed => local_purge remains listed c
  | PinGroup fails gn => Some (fst (pin_group fails gn c))
  | UnpinGroup fails gn => Some (fst (unpin_group fails gn c))
  | EnableDht t => Some (fst (enable_dht t c))
  | EnableI2p t => Some (fst (enable_i2p t c))
  | Bep5 ev =>
      let? a := c_bep5 c in
      let? (a, _) := Announcer.step sha1 simultaneous ev a in
      Some (set_announcers (Some a) (c_i2p c) c)
  | I2p ev =>
      let? s := c_i2p c in
      match I2pAnnouncer.step ev s with
      | I2pAnnouncer.Next s _ => Some (set_announcers (c_bep5 c) (Some s) c)
      | _ => None
      end
  | Reload remains now listed listed_store =>
      match load_stored_groups remains now (c_store c) (c_static_store c) (RootDir (_root (impl (c_groups c)))) None listed listed_store with
      | Loaded c => Some c
      | _ => None
      end
  end.

Fixpoint client_run (evs : list client_event) (c : client) : option client :=
  match evs with
  | [] => Some c
  | ev :: evs' => let? c := client_step ev c in client_run evs' c
  end.

Definition no_client : client :=
  {| c_store := ∅; c_static_store := ∅; c_groups := {| impl := {| _root := ∅; _groups := ∅ |}; fallback_groups := {| _root := ∅; _groups := ∅ |} |};
     c_bep5 := None; c_i2p := None |}.

End Code.

(** ** Keys that are being announced *)

(** In the queue or in flight, and not to be removed. *)
Definition bep5_announced (k : list byte) (a : Announcer.state) : Prop :=
  exists e, e ∈ Announcer.entries a ++ Announcer.in_flight a /\ Announcer.key e = k /\ Announcer.to_remove e = false.

Definition i2p_announced (h : list byte) (s : I2pAnnouncer.state) : Prop := h ∈ I2pAnnouncer.infohash <$> I2pAnnouncer.entries s.

Lemma find_entry_key k l i : find_entry_by_key k l = Some i -> exists e, l !! i = Some e /\ Announcer.key e = k.
Proof.
  unfold find_entry_by_key. intros ([j e] & Hf & ->)%fmap_Some. apply list_find_Some in Hf as (Hl & Hk & _). cbn. eauto.
Qed.

Lemma alter_elem_of {A} (f : A -> A) (l : list A) (i : nat) x y :
  l !! i = Some y -> x ∈ l -> x ∈ alter f i l \/ x = y.
Proof.
  intros Hi [j Hj]%list_elem_of_lookup. destruct (decide (i = j)) as [<-|Hne]; [right; congruence|]. left.
  apply list_elem_of_lookup. exists j. by rewrite list_lookup_alter, decide_False.
Qed.

Lemma alter_elem {A} (f : A -> A) (l : list A) (i : nat) y : l !! i = Some y -> f y ∈ alter f i l.
Proof. intros Hi. apply list_elem_of_lookup. exists i. by rewrite list_lookup_alter, decide_True, Hi. Qed.

Lemma bep5_add_self sha1 k a : bep5_announced k (bep5_add sha1 k a).
Proof.
  unfold bep5_announced, bep5_add, Announcer.add. cbn [Announcer.entries Announcer.in_flight Announcer.set_entries].
  destruct (find_entry_by_key k (Announcer.entries a)) as [i|] eqn:E; cbn [snd].
  - destruct (find_entry_key _ _ _ E) as (e & Hi & Hk). exists (Announcer.set_to_remove false e). split_and!; [|done|done].
    apply elem_of_app. left. by apply alter_elem.
  - exists (Announcer.new_entry sha1 k). split_and!; [|done|done]. apply elem_of_app. left. apply insert_new_elem. by left.
Qed.

Lemma bep5_add_other sha1 k k' a : bep5_announced k a -> bep5_announced k (bep5_add sha1 k' a).
Proof.
  intros (e & [He|He]%elem_of_app & Hk & Hr).
  2:{ exists e. split_and!; [|done|done]. apply elem_of_app. by right. }
  destruct (decide (k = k')) as [->|Hne]; [apply bep5_add_self|].
  exists e. split_and!; [|done|done]. apply elem_of_app. left. unfold bep5_add, Announcer.add.
  cbn [Announcer.entries Announcer.set_entries]. destruct (find_entry_by_key k' (Announcer.entries a)) as [i|] eqn:E; cbn [snd].
  - destruct (find_entry_key _ _ _ E) as (e' & Hi & Hk').
    destruct (alter_elem_of (Announcer.set_to_remove false) _ _ _ _ Hi He) as [?| ->]; [done|congruence].
  - apply insert_new_elem. by right.
Qed.

Lemma bep5_remove_other k k' a : k ≠ k' -> bep5_announced k a -> bep5_announced k (bep5_remove k' a).
Proof.
  intros Hne (e & [He|He]%elem_of_app & Hk & Hr); exists e; split_and!; try done; apply elem_of_app; [left|by right].
  unfold bep5_remove, Announcer.remove. cbn [Announcer.entries Announcer.set_entries].
  destruct (find_entry_by_key k' (Announcer.entries a)) as [i|] eqn:E; cbn [snd]; [|done].
  destruct (find_entry_key _ _ _ E) as (e' & Hi & Hk').
  destruct (alter_elem_of (Announcer.set_to_remove true) _ _ _ _ Hi He) as [?| ->]; [done|congruence].
Qed.

(** What the announcer does itself. *)
Definition bep5_own (ev : Announcer.event) : Prop := match ev with Announcer.Add _ | Announcer.Remove _ => False | _ => True end.

Lemma bep5_step_announced sha1 n ev a a' x k :
  bep5_own ev -> Announcer.step sha1 n ev a = Some (a', x) -> bep5_announced k a -> bep5_announced k a'.
Proof.
  intros Hown. destruct ev as [?|?| |i outcomes|t]; [done|done|..]; cbn [Announcer.step].
  - unfold Announcer.loop. destruct (Announcer.at_ a) as [m|m|m until|].
    + unfold pick. destruct (n <=? m)%nat; [by intros [= <- <-]|]. destruct (Announcer.entries a) as [|e l] eqn:El; [intros [= <- <-]; unfold bep5_announced; cbn; by rewrite El|].
      destruct (next_update_after (Announcer.now a) e =? 0); [|intros [= <- <-]; unfold bep5_announced; cbn; by rewrite El].
      unfold bep5_announced. rewrite El. destruct (Announcer.to_remove e) eqn:Er; intros [= <- <-] (e' & He & Hk & Hr); exists e'; (split_and!; [|done|done]);
        cbn in *; apply elem_of_cons in He as [->|He].
      * congruence.
      * done.
      * rewrite !elem_of_app. right. right. by left.
      * rewrite !elem_of_app in *. tauto.
    + case_bool_decide; [done|]. by intros [= <- <-].
    + destruct (Announcer.now a <? until); [done|]. by intros [= <- <-].
    + case_bool_decide; [|done]. by intros [= <- <-].
  - unfold finish. destruct (Announcer.in_flight a !! i) as [f|] eqn:Ei; [|done]. cbv zeta.
    set (u := updated _ _ f). assert (Announcer.key u = Announcer.key f /\ Announcer.to_remove u = Announcer.to_remove f) as [Hku Hru].
    { unfold u, updated. by destruct (announce_attempts 3 outcomes). }
    intros [= <- <-] (e & He & Hk & Hr). unfold bep5_announced. cbn. rewrite Hru. apply elem_of_app in He as [He|He].
    { exists e. split_and!; [|done|done]. apply elem_of_app. left. destruct (Announcer.to_remove f); [done|]. apply elem_of_app. by left. }
    apply list_elem_of_lookup in He as [j Hj]. destruct (decide (i = j)) as [<-|Hne].
    + rewrite Ei in Hj. injection Hj as ->. rewrite Hr. exists u. split_and!; [|congruence|congruence]. apply elem_of_app. left. apply elem_of_app. right. by left.
    + exists e. split_and!; [|done|done]. apply elem_of_app. right.
      apply elem_of_Permutation. exists (delete (if decide (j < i)%nat then j else (j - 1)%nat) (delete i (Announcer.in_flight a))).
      apply delete_Permutation. destruct (decide (j < i)%nat).
      * by rewrite list_lookup_delete_lt.
      * rewrite list_lookup_delete_ge by lia. by replace (S (j - 1)) with j by lia.
  - destruct (Announcer.now a <=? t); [|done]. by intros [= <- <-].
Qed.

Lemma i2p_add_entries h r s : I2pAnnouncer.entries (i2p_call (I2pAnnouncer.Add h r) s) = snd (I2pAnnouncer.add h (I2pAnnouncer.now s) (I2pAnnouncer.entries s)).
Proof. unfold i2p_call. cbn [I2pAnnouncer.step]. by destruct (I2pAnnouncer.add _ _ _). Qed.

Lemma i2p_add_self h r s : i2p_announced h (i2p_call (I2pAnnouncer.Add h r) s).
Proof.
  unfold i2p_announced. rewrite i2p_add_entries. unfold I2pAnnouncer.add. destruct (has_entry h (I2pAnnouncer.entries s)) eqn:E; cbn [snd].
  - unfold has_entry in E. apply existsb_exists in E as (e & He & Hh). apply bool_decide_eq_true in Hh. apply list_elem_of_fmap.
    exists e. by rewrite list_elem_of_In.
  - rewrite fmap_app. apply elem_of_app. right. by left.
Qed.

Lemma i2p_add_other h h' r s : i2p_announced h s -> i2p_announced h (i2p_call (I2pAnnouncer.Add h' r) s).
Proof.
  unfold i2p_announced. rewrite i2p_add_entries. unfold I2pAnnouncer.add. destruct (has_entry h' (I2pAnnouncer.entries s)); cbn [snd]; [done|].
  intros He. rewrite fmap_app. apply elem_of_app. by left.
Qed.

Lemma find_index_infohash h l i : find_index h l = Some i -> exists e, l !! i = Some e /\ I2pAnnouncer.infohash e = h.
Proof.
  revert i. induction l as [|e l IH]; intros i; cbn [find_index]; [done|]. case_bool_decide; [intros [= <-]; by exists e|].
  intros (j & Hj & ->)%fmap_Some. destruct (IH j Hj) as (e' & ? & ?). by exists e'.
Qed.

Lemma i2p_remove_other h h' s : h ≠ h' -> i2p_announced h s -> i2p_announced h (i2p_call (I2pAnnouncer.Remove h') s).
Proof.
  unfold i2p_announced, i2p_call. cbn [I2pAnnouncer.step I2pAnnouncer.entries]. unfold I2pAnnouncer.remove. intros Hne.
  destruct (find_index h' (I2pAnnouncer.entries s)) as [i|] eqn:E; cbn [snd]; [|done].
  destruct (find_index_infohash _ _ _ E) as (e & Hi & He). rewrite (delete_Permutation _ _ _ Hi) at 1. cbn [fmap list_fmap].
  intros [->|?]%elem_of_cons; [congruence|done].
Qed.

(** What the announcer does itself. *)
Definition i2p_own (ev : I2pAnnouncer.event) : Prop :=
  match ev with I2pAnnouncer.Add _ _ | I2pAnnouncer.Remove _ => False | _ => True end.

Lemma i2p_step_announced ev s s' x h :
  i2p_own ev -> I2pAnnouncer.step ev s = I2pAnnouncer.Next s' x -> i2p_announced h s -> i2p_announced h s'.
Proof.
  intros Hown. unfold i2p_announced. destruct ev as [?|?| | |ok|t]; [done|done|..]; cbn [I2pAnnouncer.step].
  - destruct (I2pAnnouncer.at_ s); [|done..]. by intros [= <- <-].
  - unfold I2pAnnouncer.loop. destruct (I2pAnnouncer.at_ s) as [|[u|]|n|i v n|u n]; try done.
    + destruct (_ <=? _); [|done]. by intros [= <- <-].
    + destruct (find_entry_to_announce _ _) as [[i e]|]; by intros [= <- <-].
    + destruct (_ <=? _); [|done]. by intros [= <- <-].
  - destruct (I2pAnnouncer.at_ s); try done. destruct ok; [destruct valid; [|done]|by intros [= <- <-]]. intros [= <- <-]. cbn.
    intros (e & -> & He)%list_elem_of_fmap. destruct (alter_infohash (I2pAnnouncer.entries s) i (I2pAnnouncer.now s + period) (I2pAnnouncer.infohash e)) as (e' & He' & <-); [by exists e|].
    apply list_elem_of_fmap. by exists e'.
  - destruct (_ <=? _); [|done]. by intros [= <- <-].
Qed.

(** ** Consistency *)

Section Consistency.
Context `{SignatureScheme} `{Base64} `{TransferCoding} `{BeastOps} `{HeadCodec}.
Variable sha1 sha512 : list byte -> list byte.
Variable prefix : list byte.
Variable max_age : Z.
Variable bsecs : Z -> Z.
Variable simultaneous : nat.

(** The names that are used and the keys of their swarms have different digests. *)
Variable used : GroupName -> Prop.
Hypothesis digests_differ : forall a b, used a -> used b -> sha1 a = sha1 b -> a = b.
Hypothesis swarms_differ : forall a b, used a -> used b -> sha1 (prefix ++ a) = sha1 (prefix ++ b) -> a = b.

(** The store can read the head, which has the current version of the protocol. *)
Definition entry_readable (files : stored) : Prop :=
  exists r h, http_store_reader files None = Ok r /\ read_response_header r = Ok h /\
    field_value protocol_version_hdr (rs_fields h) = protocol_version_hdr_current.

(** The head that is in the store at the end: that of the response with what its signatures
    cover, merged with the trailer. *)
Fixpoint final_head (inp : input) (h : option response_header) : option response_header :=
  match inp with
  | inr p :: inp' =>
      final_head inp'
        (match p with
         | HeadPart h' => let? fs := keep_signed [] (rs_fields h') in http_injection_merge (set_rs_fields h' fs) []
         | Trailer t => if bool_decide (t = []) then h else let? h := h in http_injection_merge h t
         | _ => h
         end)
  | _ => h
  end.

(** A head that the store can read again: it is read from its file as it was written, it has what
    the head of a signed response must have, and the current version of the protocol. *)
Definition good_head (hd : response_header) : Prop :=
  parse_head (print_head hd) = Some hd /\ (exists sh, create_from_trusted_source hd = Value (Some sh)) /\
  field_value response_uri_hdr (rs_fields hd) <> [] /\ field_value protocol_version_hdr (rs_fields hd) = protocol_version_hdr_current.

(** What is assumed of the events: the head of a response that is stored is good; names of groups
    are at most 2000 bytes long; of the operations on files that can fail, the truncation of the file
    of an item, removals and the renaming of a directory that was written do not; directories
    are listed completely. *)
Definition event_ok (ev : client_event) : Prop :=
  match ev with
  | Store sf resource_id group inp fails _ =>
      used group /\ Z.of_nat (length group) <= MAX_URL_SIZE /\ valid_item resource_id /\ fails TruncateItem = None /\
      sf_remove sf = None /\ sf_commit sf = None /\ exists hd, final_head inp None = Some hd /\ good_head hd
  | Gc remains _ listed | Purge remains listed => (forall p, remains p = None) /\ forall st, listed st ≡ₚ map_to_list st
  | PinGroup _ gn | UnpinGroup _ gn => used gn
  | EnableDht _ | EnableI2p _ => True
  | Bep5 ev => bep5_own ev
  | I2p ev => i2p_own ev
  | Reload remains _ listed listed_store =>
      (forall p, remains p = None) /\ (forall r, listed r ≡ₚ map_to_list r) /\ (forall st, listed_store st ≡ₚ map_to_list st)
  end.

(** *** What is stored can be read *)

Lemma chunked_head_field hd n :
  is_framing n = false ->
  exists hd', chunked_head hd = Some hd' /\ find_field n (rs_fields hd') = find_field n (rs_fields hd).
Proof.
  intros Hn. unfold chunked_head.
  assert (exists h1, (if negb (bool_decide (field_value (str "Content-Length") (rs_fields hd) = []) &&
                         bool_decide (field_value (str "Transfer-Encoding") (rs_fields hd) = []) &&
                         bool_decide (field_value (str "Trailer") (rs_fields hd) = []))
                      then http_injection_merge hd [] else Some hd) = Some h1 /\
            find_field n (rs_fields h1) = find_field n (rs_fields hd)) as (h1 & -> & E).
  { destruct (negb _); [|by eexists]. eexists. split; [done|]. cbn [rs_fields set_rs_fields].
    rewrite !(find_field_filter n). by rewrite filter_name_framing. }
  eexists. split; [done|]. cbn [rs_fields set_rs_fields]. rewrite <-E. apply find_set_other.
  apply not_true_iff_false. intros Ht%iequals_true%framing_lower. by rewrite Hn in Ht.
Qed.

Lemma good_head_readable files hd :
  head_file files = Some (print_head hd) -> good_head hd -> entry_readable files.
Proof.
  intros Hf (Hp & [sh Hsh] & Hu & Hv). unfold entry_readable, http_store_reader, read_signed_head. rewrite Hf, Hp, Hsh.
  destruct (chunked_head_field hd protocol_version_hdr) as (hd' & Ech & E); [done|].
  eexists _, hd'. split; [done|]. unfold read_response_header, resource_read. cbn [new_resource r_is_open r_is_done r_is_head_done negb orb].
  unfold prepare_head. cbn [new_resource r_head r_range r_data_size]. assert (sh_head sh = hd) as -> by by eapply created_head.
  rewrite bool_decide_false by done. cbn [fmap option_fmap option_map].
  rewrite Ech. split; [reflexivity|].
  unfold field_value. by rewrite E.
Qed.

Lemma final_head_written inp : forall w files h,
  head_file (w_files w) = print_head <$> h -> (forall x, h = Some x -> w_head w = x) ->
  http_store_kept sha512 inp w = Ok files -> head_file files = print_head <$> final_head inp h.
Proof.
  induction inp as [|[e|p] inp IH]; intros w files h Hh Hw; cbn [http_store_kept final_head]; [by intros [= <-]|done|].
  destruct p as [h'|size exts|b r|b|t]; cbn [keep_part write_part].
  - destruct (keep_signed [] (rs_fields h')) as [fs|]; cbv beta iota; [|done]. cbn [write_part]. unfold write_head.
    destruct (head_file (w_files w)); [done|]. case_bool_decide; [done|]. case_bool_decide; [done|].
    destruct (BlockSigs_parse _) as [[bs|]|]; [|done..]. destruct (http_injection_merge _ []) as [hd|] eqn:Em; [|done].
    apply IH; [done|]. by intros x [= <-].
  - destruct (write_chunk_hdr sha512 size exts w) as [w'| |] eqn:E; [|done..].
    assert (head_file (w_files w') = head_file (w_files w) /\ w_head w' = w_head w) as [E1 E2].
    { unfold write_chunk_hdr in E. destruct (stored_sig_from_exts exts) as [sg|]; [|done]. case_bool_decide; [by injection E as <-|].
      destruct (base64_decode _ sg); [|by injection E as <-]. cbn [w_block_size set_files] in E. destruct (w_block_size w); [|done].
      destruct (_ && _); [done|]. destruct (calculate_block _ _ _ _ _). by injection E as <-. }
    apply IH; [congruence|]. intros x Hx. rewrite E2. by apply Hw.
  - apply IH; done.
  - apply IH; done.
  - unfold write_trailer. destruct (head_file (w_files w)) as [hf|] eqn:Ehf; [|done]. case_bool_decide; [by apply IH; [congruence|]|].
    destruct h as [x|]; [|done]. rewrite (Hw x eq_refl). destruct (http_injection_merge x t) as [hd|] eqn:Em; [|done]. cbv beta iota.
    apply IH; [done|]. by intros y [= <-].
Qed.

Lemma stored_readable inp hd files :
  final_head inp None = Some hd -> good_head hd -> http_store_kept sha512 inp writer_init = Ok files -> entry_readable files.
Proof.
  intros Hf Hg E. apply (good_head_readable _ hd); [|done]. rewrite (final_head_written inp writer_init files None) by done. by rewrite Hf.
Qed.

Record consistent (c : client) (sp : spec) : Prop := {
  con_groups : refines sha1 used (impl (c_groups c)) sp;
  con_fallback : fallback_groups (c_groups c) = {| _root := ∅; _groups := ∅ |} /\ c_static_store c = ∅;
  con_bep5 : forall a, c_bep5 c = Some a -> forall gn, gn ∈ dom (sgroups sp) -> bep5_announced (prefix ++ gn) a;
  con_i2p : forall s, c_i2p c = Some s -> forall gn, gn ∈ dom (sgroups sp) -> i2p_announced (sha1 (prefix ++ gn)) s;
  con_stored : forall gn items i, sgroups sp !! gn = Some items -> i ∈ items -> is_Some (c_store c !! path_from_resource_id i);
  con_readable : forall p files, c_store c !! p = Some files -> entry_readable files /\ path_from_resource_id (fst p ++ snd p) = p;
}.

Lemma dom_used sp gn : spec_ok used sp -> gn ∈ dom (sgroups sp) -> used gn.
Proof. intros Hok [items Hi]%elem_of_dom. by destruct (spec_names used sp Hok _ _ Hi). Qed.

(** *** Unpublishing *)

Lemma stop_announcing_fold l : forall c,
  let c' := foldl (stop_announcing sha1 prefix) c l in
  c_store c' = c_store c /\ c_static_store c' = c_static_store c /\ c_groups c' = c_groups c /\
  (forall a' gn, used gn -> Forall used l -> gn ∉ l -> c_bep5 c' = Some a' ->
    exists a, c_bep5 c = Some a /\ (bep5_announced (prefix ++ gn) a -> bep5_announced (prefix ++ gn) a')) /\
  (forall s' gn, used gn -> Forall used l -> gn ∉ l -> c_i2p c' = Some s' ->
    exists s, c_i2p c = Some s /\ (i2p_announced (sha1 (prefix ++ gn)) s -> i2p_announced (sha1 (prefix ++ gn)) s')).
Proof.
  induction l as [|g l IH]; intros c; cbn [foldl]; [split_and!; [done..| |]; intros; eauto|].
  destruct (IH (stop_announcing sha1 prefix c g)) as (K1 & K2 & K3 & K4 & K5). split_and!; [done..| |].
  - intros a' gn Hu [Hg Hl]%Forall_cons [Hne Hn]%not_elem_of_cons Ha'. destruct (K4 a' gn Hu Hl Hn Ha') as (a1 & Ha1 & Himp).
    cbn in Ha1. destruct (c_bep5 c) as [a|]; [|done]. injection Ha1 as <-. exists a. split; [done|]. intros Ha. apply Himp.
    apply bep5_remove_other; [|done]. unfold compute_swarm_name. intros E%app_inv_head. done.
  - intros s' gn Hu [Hg Hl]%Forall_cons [Hne Hn]%not_elem_of_cons Hs'. destruct (K5 s' gn Hu Hl Hn Hs') as (s1 & Hs1 & Himp).
    cbn in Hs1. destruct (c_i2p c) as [s|]; [|done]. injection Hs1 as <-. exists s. split; [done|]. intros Hs. apply Himp.
    apply i2p_remove_other; [|done]. unfold compute_swarm_name. intros E. apply Hne. by apply swarms_differ.
Qed.

Lemma spec_remove_lookup i sp gn items :
  sgroups (spec_remove i sp) !! gn = Some items -> exists items0, sgroups sp !! gn = Some items0 /\ after_remove i (spins sp) gn items0 = Some items.
Proof. cbn. rewrite map_lookup_imap. destruct (sgroups sp !! gn) as [items0|]; [|done]. cbn. eauto. Qed.

Lemma after_remove_sub i pins gn items0 items : after_remove i pins gn items0 = Some items -> items ⊆ items0.
Proof. unfold after_remove. destruct (_ && _); [case_bool_decide; [done|]|]; intros [= <-]; set_solver. Qed.

Lemma after_remove_gone i pins gn items0 items :
  ~ (i ∈ items0 /\ gn ∈ pins) -> after_remove i pins gn items0 = Some items -> i ∉ items.
Proof.
  intros Hn. unfold after_remove. destruct (decide (i ∈ items0)) as [Hi|Hi].
  - rewrite (bool_decide_true (i ∈ items0)), (bool_decide_true (gn ∉ pins)) by naive_solver. cbn [andb].
    case_bool_decide; [done|]. intros [= <-]. set_solver.
  - rewrite (bool_decide_false (i ∈ items0)) by done. by intros [= <-].
Qed.

Lemma unpublish_consistent c sp i :
  consistent c sp ->
  let '(c', group_pinned) := unpublish_cache_entry sha1 prefix i c in
  consistent c' (spec_remove i sp) /\ c_store c' = c_store c /\
  (group_pinned = true <-> exists gn items, sgroups sp !! gn = Some items /\ i ∈ items /\ gn ∈ spins sp).
Proof.
  intros [Hg Hf Hb Hi Hs Hr]. unfold unpublish_cache_entry, backed_remove_pinned.
  destruct (remove_refines sha1 used digests_differ i (impl (c_groups c)) sp Hg) as [Href Hout].
  cbn [step spec_step fst snd] in Href, Hout. revert Href Hout. generalize (DhtGroups.remove sha1 i (impl (c_groups c))).
  intros [g erased gp] Href Hout. cbn [rm_impl erased_groups group_pinned] in *. injection Hout as -> ->.
  change (map_imap (after_remove i (spins sp)) (sgroups sp)) with (sgroups (spec_remove i sp)). set (sp' := spec_remove i sp) in *.
  assert (forall gn, gn ∈ dom (sgroups sp') -> gn ∈ dom (sgroups sp)) as Hdom.
  { intros gn [items Hi']%elem_of_dom. apply spec_remove_lookup in Hi' as (items0 & Hi0 & _). apply elem_of_dom. by eexists. }
  assert (forall gn items j, sgroups sp' !! gn = Some items -> j ∈ items -> is_Some (c_store c !! path_from_resource_id j)) as Hs'.
  { intros gn items j Hl Hj. apply spec_remove_lookup in Hl as (items0 & Hi0 & Ha). apply (Hs gn items0); [done|]. by apply (after_remove_sub _ _ _ _ _ Ha). }
  destruct (bool_decide (map_Exists _ _)) eqn:Ep.
  - apply bool_decide_eq_true in Ep as (gn & items & Hl & Hin & Hp). split_and!; [|done|naive_solver].
    split; cbn; [done|done|..|done|done]; intros; eauto.
  - apply bool_decide_eq_false in Ep. set (c0 := set_groups _ c).
    destruct (stop_announcing_fold (elements (dom (sgroups sp) ∖ dom (sgroups sp'))) c0) as (K1 & K2 & K3 & K4 & K5).
    assert (Forall used (elements (dom (sgroups sp) ∖ dom (sgroups sp')))) as Hall.
    { apply Forall_forall. intros gn [Hd _]%elem_of_elements%elem_of_difference. apply (dom_used sp); [apply Hg|done]. }
    assert (forall gn, gn ∈ dom (sgroups sp') -> gn ∉ elements (dom (sgroups sp) ∖ dom (sgroups sp'))) as Hnot by (intros gn Hgn; set_solver).
    assert (forall gn, gn ∈ dom (sgroups sp') -> used gn) as Hused by (intros gn ?%Hdom; apply (dom_used sp); [apply Hg|done]).
    split_and!; [|done|].
    + split.
      * by rewrite K3.
      * by rewrite K3, K2.
      * intros a' Ha' gn Hgn. destruct (K4 a' gn (Hused _ Hgn) Hall (Hnot _ Hgn) Ha') as (a & Ha & Himp). by apply Himp, Hb, Hdom.
      * intros s' Hs'' gn Hgn. destruct (K5 s' gn (Hused _ Hgn) Hall (Hnot _ Hgn) Hs'') as (s & Hs0 & Himp). by apply Himp, Hi, Hdom.
      * by rewrite K1.
      * by rewrite K1.
    + split; [done|]. intros (gn & items & Hl & Hin & Hp). destruct Ep. by exists gn, items.
Qed.

(** *** Going through the store *)

Lemma set_store_consistent c sp st :
  consistent c sp ->
  (forall gn items i, sgroups sp !! gn = Some items -> i ∈ items -> is_Some (st !! path_from_resource_id i)) ->
  (forall p files, st !! p = Some files -> entry_readable files /\ path_from_resource_id (fst p ++ snd p) = p) ->
  consistent (set_store st c) sp.
Proof. intros [Hg Hf Hb Hi Hs Hr] Hst Hrd. by split. Qed.

Lemma drop_entry_consistent c sp p :
  consistent c sp -> path_from_resource_id (fst p ++ snd p) = p ->
  (forall gn items, sgroups sp !! gn = Some items -> fst p ++ snd p ∉ items) -> consistent (drop_entry (fun _ => None) p c) sp.
Proof.
  intros Hc Hp Hn. pose proof Hc as [Hg Hf Hb Hi Hs Hr]. apply set_store_consistent; [done|..].
  - intros gn items i Hl Hin. rewrite lookup_delete_ne; [by eapply Hs|]. intros E. apply (Hn _ _ Hl).
    assert (i = fst p ++ snd p) as <-; [|done]. rewrite E. unfold path_from_resource_id. cbn. by rewrite take_drop.
  - intros p' files [_ H']%lookup_delete_Some. by apply Hr.
Qed.

(** Groups that are pinned stay as they are. *)
Definition pins_kept (sp sp' : spec) : Prop :=
  spins sp' = spins sp /\ forall gn, gn ∈ spins sp -> sgroups sp' !! gn = sgroups sp !! gn.

#[local] Instance pins_kept_preorder : PreOrder pins_kept.
Proof.
  split; [by intros sp|]. intros sp1 sp2 sp3 [P1 Q1] [P2 Q2]. split; [congruence|]. intros gn Hp. rewrite Q2 by congruence. by apply Q1.
Qed.

Lemma spec_remove_pins i sp : pins_kept sp (spec_remove i sp).
Proof.
  split; [done|]. intros gn Hp. cbn. rewrite map_lookup_imap. destruct (sgroups sp !! gn) as [items|]; [|done]. cbn.
  unfold after_remove. by rewrite (bool_decide_false (gn ∉ spins sp)), andb_false_r by naive_solver.
Qed.

(** What the function that decides about an entry may do. *)
Definition keep_ok (keep : list byte -> resource -> client -> res (bool * client)) : Prop :=
  forall c sp i r h, consistent c sp -> read_response_header r = Ok h ->
    field_value protocol_version_hdr (rs_fields h) = protocol_version_hdr_current ->
    exists b c' sp', keep i r c = Ok (b, c') /\ consistent c' sp' /\ pins_kept sp sp' /\ c_store c' = c_store c /\
      (b = false -> forall gn items, sgroups sp' !! gn = Some items -> i ∉ items).

Lemma for_each_consistent keep es : forall c sp,
  keep_ok keep -> consistent c sp ->
  (forall p files, (p, files) ∈ es -> entry_readable files /\ path_from_resource_id (fst p ++ snd p) = p) ->
  exists c' sp', for_each_entry (fun _ => None) keep es c = Some c' /\ consistent c' sp' /\ pins_kept sp sp'.
Proof.
  induction es as [|[p files] es IH]; intros c sp Hk Hc Hes; cbn [for_each_entry]; [by exists c, sp|].
  destruct (Hes p files) as [(r & h & Hr & Hh & Hv) Hp]; [by left|]. rewrite Hr.
  destruct (Hk c sp (fst p ++ snd p) r h Hc Hh Hv) as (b & c1 & sp1 & -> & Hc1 & Hpk & Hst & Hb).
  assert (consistent (if b then c1 else drop_entry (fun _ => None) p c1) sp1) as Hc2.
  { destruct b; [done|]. apply drop_entry_consistent; [done|done|by apply Hb]. }
  destruct (IH _ sp1 Hk Hc2) as (c' & sp' & Hf & Hc' & Hpk'); [intros; apply Hes; by right|].
  exists c', sp'. split_and!; [by destruct b|done|by etransitivity].
Qed.

Lemma unpublish_gone c sp i c' :
  consistent c sp -> unpublish_cache_entry sha1 prefix i c = (c', false) ->
  consistent c' (spec_remove i sp) /\ c_store c' = c_store c /\
  forall gn items, sgroups (spec_remove i sp) !! gn = Some items -> i ∉ items.
Proof.
  intros Hc E. pose proof (unpublish_consistent c sp i Hc) as Hu. rewrite E in Hu. destruct Hu as (Hc' & Hst & Hp). split_and!; [done|done|].
  intros gn items (items0 & Hl & Ha)%spec_remove_lookup. eapply after_remove_gone; [|exact Ha]. intros [Hi Hpin].
  assert (false = true); [|done]. apply Hp. eauto.
Qed.

Lemma keep_cache_entry_ok now : keep_ok (keep_cache_entry sha1 prefix max_age bsecs now).
Proof.
  intros c sp i r h Hc Hh Hv. unfold keep_cache_entry. rewrite Hh, (bool_decide_true _ Hv). cbn [negb].
  destruct (max_age <? cache_entry_age bsecs now h); [|by exists true, c, sp].
  destruct (is_pinned_resource sha1 i (impl (c_groups c))) eqn:Ep; [by exists true, c, sp|].
  pose proof (unpublish_consistent c sp i Hc) as Hu. destruct (unpublish_cache_entry sha1 prefix i c) as [c' gp] eqn:E.
  destruct gp.
  - exfalso. destruct Hu as (_ & _ & Hp). pose proof (proj1 Hp eq_refl) as Hex.
    apply (is_pinned_resource_spec sha1 used i _ sp (con_groups c sp Hc)) in Hex. congruence.
  - destruct (unpublish_gone c sp i c' Hc E) as (Hc' & Hst & Hg). exists false, c', (spec_remove i sp). split_and!; try done. apply spec_remove_pins.
Qed.

Lemma purge_entry_ok : keep_ok (purge_entry sha1 prefix).
Proof.
  intros c sp i r h Hc Hh Hv. unfold purge_entry. rewrite Hh. pose proof (unpublish_consistent c sp i Hc) as Hu.
  destruct (unpublish_cache_entry sha1 prefix i c) as [c' gp] eqn:E. destruct Hu as (Hc' & Hst & _).
  exists gp, c', (spec_remove i sp). split_and!; try done; [apply spec_remove_pins|]. intros ->. by apply (unpublish_gone c sp i c' Hc E).
Qed.

Lemma listed_ok (listed : http_stores -> list (path * stored)) c sp :
  consistent c sp -> (forall st, listed st ≡ₚ map_to_list st) ->
  forall p files, (p, files) ∈ listed (c_store c) -> entry_readable files /\ path_from_resource_id (fst p ++ snd p) = p.
Proof. intros Hc Hl p files. rewrite Hl, elem_of_map_to_list. apply (con_readable c sp Hc). Qed.

(** *** Storing and announcing *)

Lemma announce_group_consistent c sp r gn :
  (forall gn', gn' ∈ dom (sgroups sp) -> gn' ≠ gn -> 
    (forall a, c_bep5 c = Some a -> bep5_announced (prefix ++ gn') a) /\
    (forall s, c_i2p c = Some s -> i2p_announced (sha1 (prefix ++ gn')) s)) ->
  refines sha1 used (impl (c_groups c)) sp ->
  fallback_groups (c_groups c) = {| _root := ∅; _groups := ∅ |} /\ c_static_store c = ∅ ->
  (forall gn items i, sgroups sp !! gn = Some items -> i ∈ items -> is_Some (c_store c !! path_from_resource_id i)) ->
  (forall p files, c_store c !! p = Some files -> entry_readable files /\ path_from_resource_id (fst p ++ snd p) = p) ->
  consistent (announce_group sha1 prefix r gn c) sp.
Proof.
  intros Ha Hg Hf Hs Hr. split; cbn; try done.
  - intros a' (a & Ea & ->)%fmap_Some gn' Hd. destruct (decide (gn' = gn)) as [->|Hne]; [apply bep5_add_self|].
    apply bep5_add_other. by apply (Ha gn' Hd Hne).
  - intros s' (s & Es & ->)%fmap_Some gn' Hd. destruct (decide (gn' = gn)) as [->|Hne]; [apply i2p_add_self|].
    apply i2p_add_other. by apply (Ha gn' Hd Hne).
Qed.

Lemma store_consistent c sp sf i gn inp fails r c' o :
  event_ok (Store sf i gn inp fails r) -> consistent c sp -> store sha1 sha512 prefix sf i gn inp fails r c = Some (c', o) ->
  exists sp', consistent c' sp'.
Proof.
  intros (Hu & Hlen & Hv & Ht & Hsr & Hsc & hd & Hfh & Hgh) Hc. pose proof Hc as [Hg Hf Hb Hi Hs Hr]. unfold store, store_kept.
  assert (consistent (set_store (c_store c) c) sp) as Hc0 by (destruct c; exact Hc).
  destruct (sf_write sf); [intros [= <- <-]; eauto|].
  destruct (http_store_kept sha512 inp writer_init) as [files|e|] eqn:Ek; [|intros [= <- <-]; eauto|done].
  pose proof (stored_readable inp hd files Hfh Hgh Ek) as Hrd.
  assert (replace_entry sf (path_from_resource_id i) files (c_store c) = (<[path_from_resource_id i := files]> (c_store c), None)) as ->.
  { unfold replace_entry. rewrite Hsr, Hsc. destruct (c_store c !! path_from_resource_id i); by rewrite insert_delete_eq. }
  set (st := <[path_from_resource_id i := files]> (c_store c)).
  assert (forall p files, st !! p = Some files -> entry_readable files /\ path_from_resource_id (fst p ++ snd p) = p) as Hrd'.
  { intros p f [[<- <-]|[_ Hl]]%lookup_insert_Some; [|by apply Hr]. split; [done|]. unfold path_from_resource_id. cbn. by rewrite take_drop. }
  assert (forall j, is_Some (c_store c !! path_from_resource_id j) -> is_Some (st !! path_from_resource_id j)) as Hmono.
  { intros j Hj. unfold st. destruct (decide (path_from_resource_id i = path_from_resource_id j)) as [E|E].
    - rewrite E, lookup_insert_eq. by eexists.
    - by rewrite lookup_insert_ne. }
  destruct (add_refines sha1 used digests_differ fails gn i (impl (c_groups c)) sp) as [Href Hout]; [done|done|].
  cbn [step spec_step c_groups set_store] in *. destruct (DhtGroups.add sha1 fails gn i (impl (c_groups c))) as [g e]. cbn [fst snd] in *.
  destruct (add_failure fails (bool_decide (gn ∉ dom (sgroups sp)))) as [e'|]; cbn [fst snd] in *; injection Hout as ->; intros [= <- <-].
  - exists sp. split; cbn; try done. intros gn' items j Hl Hin. by eapply Hmono, Hs.
  - exists (spec_add gn i sp). apply announce_group_consistent; cbn; [|exact Href|done| |done].
    + intros gn' Hd Hne. rewrite dom_insert_L in Hd. apply elem_of_union in Hd as [?%elem_of_singleton|Hd]; [done|].
      split; [intros a Ea; by apply Hb|intros s Es; by apply Hi].
    + intros gn' items j. destruct (decide (gn = gn')) as [<-|Hne].
      * rewrite lookup_insert_eq. intros [= <-] [->%elem_of_singleton|Hin]%elem_of_union; [unfold st; rewrite lookup_insert_eq; by eexists|].
        destruct (sgroups sp !! gn) as [items|] eqn:E; [by eapply Hmono, Hs|]. by apply not_elem_of_empty in Hin.
      * rewrite lookup_insert_ne by done. intros Hl Hin. by eapply Hmono, Hs.
Qed.

(** *** Other events *)

Lemma own_groups c sp gn : consistent c sp -> gn ∈ backed_groups (c_groups c) <-> gn ∈ dom (sgroups sp).
Proof.
  intros [Hg [Hf _] _ _ _ _]. unfold backed_groups, groups. rewrite Hf, (ref_groups _ _ _ _ Hg). cbn [_groups].
  by rewrite dom_empty_L, (right_id_L ∅ (∪)).
Qed.

Lemma own_items c sp gn : consistent c sp -> backed_items gn (c_groups c) = default ∅ (sgroups sp !! gn).
Proof.
  intros [Hg [Hf _] _ _ _ _]. unfold backed_items, items. rewrite Hf, (ref_groups _ _ _ _ Hg). cbn [_groups]. rewrite lookup_empty.
  cbn [default]. by rewrite (right_id_L ∅ (∪) (default ∅ (sgroups sp !! gn))).
Qed.

Lemma item_readable c sp gn i : consistent c sp -> i ∈ backed_items gn (c_groups c) -> exists r, entry_reader i c = Ok r.
Proof.
  intros Hc. rewrite (own_items c sp gn Hc). destruct (sgroups sp !! gn) as [items|] eqn:E; cbn; [|by intros ?%not_elem_of_empty].
  intros Hi. destruct (con_stored c sp Hc _ _ _ E Hi) as [files Hl]. destruct (con_readable c sp Hc _ _ Hl) as [(r & h & Hr & _) _].
  exists r. unfold entry_reader, backed, store_reader, lookup_files. rewrite Hl. cbn. by rewrite Hr.
Qed.

Lemma group_not_empty c sp gn : consistent c sp -> gn ∈ backed_groups (c_groups c) -> backed_items gn (c_groups c) ≠ ∅.
Proof.
  intros Hc Hgn. pose proof Hgn as Hd. rewrite (own_groups c sp gn Hc) in Hd. apply elem_of_dom in Hd as [items E].
  rewrite (own_items c sp gn Hc), E. cbn. by apply (spec_items used sp (ref_ok _ _ _ _ (con_groups c sp Hc)) gn items).
Qed.

Lemma filter_nil {A} (f : A -> bool) l : (forall x, x ∈ l -> f x = false) -> List.filter f l = [].
Proof. induction l as [|x l IH]; intros Hf; cbn; [done|]. rewrite Hf by (by left). apply IH. intros y Hy. apply Hf. by right. Qed.

(** Nothing is repaired when groups and store agree. *)
Lemma check_groups_consistent c sp : consistent c sp -> check_groups sha1 c = Some c.
Proof.
  intros Hc. unfold check_groups.
  assert (forall gn i, i ∈ backed_items gn (c_groups c) -> is_available i c = true) as Hav.
  { intros gn i Hi. unfold is_available. destruct (item_readable c sp gn i Hc Hi) as [r Hr]. by rewrite Hr. }
  destruct (existsb _ _) eqn:E.
  { apply existsb_exists in E as (gn & _ & (i & Hi & Hf)%existsb_exists). rewrite <-list_elem_of_In, elem_of_elements in Hi.
    destruct (item_readable c sp gn i Hc Hi) as [r Hr]. by rewrite Hr in Hf. }
  assert (bad_groups c = []) as ->.
  { apply filter_nil. intros gn Hgn%elem_of_elements. apply negb_false_iff, existsb_exists.
    pose proof (group_not_empty c sp gn Hc Hgn) as [i Hi]%set_choose_L. exists i. rewrite <-list_elem_of_In, elem_of_elements. split; [done|by eapply Hav]. }
  assert (bad_items c = []) as ->; [|done].
  apply filter_nil. intros i Hi. apply list_elem_of_join in Hi as (l & Hi & Hl). apply negb_false_iff.
  change (l ∈ (fun gn => elements (backed_items gn (c_groups c))) <$> elements (backed_groups (c_groups c))) in Hl.
  apply list_elem_of_fmap in Hl as (gn & -> & _). apply elem_of_elements in Hi. by eapply Hav.
Qed.

Lemma reload_consistent c sp now listed listed_store :
  consistent c sp -> (forall r, listed r ≡ₚ map_to_list r) -> (forall st, listed_store st ≡ₚ map_to_list st) ->
  exists c' sp', load_stored_groups sha1 prefix max_age bsecs (fun _ => None) now (c_store c) (c_static_store c) (RootDir (_root (impl (c_groups c)))) None
                   listed listed_store = Loaded c' /\ consistent c' sp' /\ pins_kept sp sp'.
Proof.
  intros Hc Hl Hls. pose proof Hc as [Hg Hf Hb Hi Hs Hr]. unfold load_stored_groups.
  rewrite (load_spec sha1 used true listed (impl (c_groups c)) sp Hg Hl). cbn [load_static]. set (c0 := Build_client _ _ _ _ _).
  assert (consistent c0 sp) as Hc0 by (split; cbn; try done; by destruct Hf).
  destruct (for_each_consistent (keep_cache_entry sha1 prefix max_age bsecs now) (listed_store (c_store c0)) c0 sp (keep_cache_entry_ok now) Hc0)
    as (c1 & sp1 & Hf1 & Hc1 & Hpk); [by apply (listed_ok listed_store c0 sp)|].
  unfold collect_garbage. rewrite Hf1, (check_groups_consistent c1 sp1 Hc1). eauto.
Qed.

Lemma announce_all l : forall a k, bep5_announced k a \/ (exists gn, gn ∈ l /\ k = prefix ++ gn) ->
  bep5_announced k (foldl (fun a gn => bep5_add sha1 (compute_swarm_name prefix gn) a) a l).
Proof.
  induction l as [|g l IH]; intros a k Hk; cbn [foldl]; [by destruct Hk as [?|(? & H'%elem_of_nil & _)]|]. apply IH.
  destruct Hk as [Hk|(gn & [->|Hin]%elem_of_cons & ->)]; [left; by apply bep5_add_other|left; apply bep5_add_self|right; eauto].
Qed.

Lemma announce_all_i2p l : forall s k, i2p_announced k s \/ (exists gn, gn ∈ l /\ k = sha1 (prefix ++ gn)) ->
  i2p_announced k (foldl (fun s gn => i2p_call (I2pAnnouncer.Add (sha1 (compute_swarm_name prefix gn)) false) s) s l).
Proof.
  induction l as [|g l IH]; intros s k Hk; cbn [foldl]; [by destruct Hk as [?|(? & H'%elem_of_nil & _)]|]. apply IH.
  destruct Hk as [Hk|(gn & [->|Hin]%elem_of_cons & ->)]; [left; by apply i2p_add_other|left; apply i2p_add_self|right; eauto].
Qed.

Lemma groups_consistent c sp sp' g :
  consistent c sp -> refines sha1 used g sp' -> sgroups sp' = sgroups sp ->
  consistent (set_groups {| impl := g; fallback_groups := fallback_groups (c_groups c) |} c) sp'.
Proof. intros [Hg Hf Hb Hi Hs Hr] Href E. split; cbn; rewrite ?E; done. Qed.

(** Removals that all succeed. *)
Lemma for_each_removed remains keep es : forall c,
  (forall p, remains p = None) -> for_each_entry remains keep es c = for_each_entry (fun _ => None) keep es c.
Proof.
  induction es as [|[p files] es IH]; intros c Hrm; cbn [for_each_entry]; [done|].
  assert (forall c, drop_entry remains p c = drop_entry (fun _ => None) p c) as Hd by (intros c1; unfold drop_entry; by rewrite Hrm).
  destruct (http_store_reader files None) as [r| |]; [|rewrite Hd; by apply IH|done].
  destruct (keep (fst p ++ snd p) r c) as [[[] c1]| |]; [by apply IH|rewrite Hd; by apply IH..|done].
Qed.

Lemma collect_garbage_removed remains now listed c :
  (forall p, remains p = None) ->
  collect_garbage sha1 prefix max_age bsecs remains now listed c = collect_garbage sha1 prefix max_age bsecs (fun _ => None) now listed c.
Proof. apply for_each_removed. Qed.

Lemma local_purge_removed remains listed c :
  (forall p, remains p = None) -> local_purge sha1 prefix remains listed c = local_purge sha1 prefix (fun _ => None) listed c.
Proof. apply for_each_removed. Qed.

Lemma load_stored_groups_removed remains now st static_st dir static_dir listed listed_store :
  (forall p, remains p = None) ->
  load_stored_groups sha1 prefix max_age bsecs remains now st static_st dir static_dir listed listed_store =
  load_stored_groups sha1 prefix max_age bsecs (fun _ => None) now st static_st dir static_dir listed listed_store.
Proof.
  intros Hrm. unfold load_stored_groups. destruct (load sha1 true listed dir) as [? [|g]]; [done|].
  by rewrite collect_garbage_removed.
Qed.

Lemma client_step_consistent ev c c' sp :
  event_ok ev -> consistent c sp -> client_step sha1 sha512 prefix max_age bsecs simultaneous ev c = Some c' -> exists sp', consistent c' sp'.
Proof.
  intros Hok Hc. destruct ev as [sf i gn inp fails r|remains now listed|remains listed|fails gn|fails gn|t|t|ev|ev|remains now listed listed_store]; cbn [client_step].
  - intros ([c1 o] & Hst & ->)%fmap_Some. by eapply store_consistent.
  - destruct Hok as [Hrm Hok]. rewrite (collect_garbage_removed remains now listed c Hrm).
    destruct (for_each_consistent (keep_cache_entry sha1 prefix max_age bsecs now) (listed (c_store c)) c sp (keep_cache_entry_ok now) Hc)
      as (c1 & sp1 & Hf1 & Hc1 & _); [by apply (listed_ok listed c sp)|]. unfold collect_garbage. rewrite Hf1. intros [= <-]. eauto.
  - destruct Hok as [Hrm Hok]. rewrite (local_purge_removed remains listed c Hrm).
    destruct (for_each_consistent (purge_entry sha1 prefix) (listed (c_store c)) c sp purge_entry_ok Hc)
      as (c1 & sp1 & Hf1 & Hc1 & _); [by apply (listed_ok listed c sp)|]. unfold local_purge. rewrite Hf1. intros [= <-]. eauto.
  - intros [= <-]. unfold pin_group. destruct (pin_refines sha1 used digests_differ fails gn _ sp Hok (con_groups c sp Hc)) as [Href _].
    cbn [step spec_step] in Href. destruct (DhtGroups.pin_group sha1 fails gn (impl (c_groups c))) as [g b]. cbn [fst].
    eexists. eapply groups_consistent; [done|exact Href|]. by destruct (_ && _).
  - intros [= <-]. unfold unpin_group. destruct (unpin_refines sha1 used digests_differ fails gn _ sp Hok (con_groups c sp Hc)) as [Href _].
    cbn [step spec_step] in Href. destruct (DhtGroups.unpin_group sha1 fails gn (impl (c_groups c))) as [g b]. cbn [fst].
    eexists. eapply groups_consistent; [done|exact Href|]. repeat case_match; done.
  - intros [= <-]. unfold enable_dht. destruct (c_bep5 c) as [a|] eqn:Ea; cbn [fst]; [eauto|]. exists sp. pose proof Hc as [Hg Hf Hb Hi Hs Hr].
    split; cbn; try done. intros a [= <-] gn Hd. apply announce_all. right. exists gn. split; [|done]. apply elem_of_elements. by rewrite (own_groups c sp gn Hc).
  - intros [= <-]. unfold enable_i2p. destruct (c_i2p c) as [s|] eqn:Es; cbn [fst]; [eauto|]. exists sp. pose proof Hc as [Hg Hf Hb Hi Hs Hr].
    split; cbn; try done. intros s [= <-] gn Hd. apply announce_all_i2p. right. exists gn. split; [|done]. apply elem_of_elements. by rewrite (own_groups c sp gn Hc).
  - destruct (c_bep5 c) as [a|] eqn:Ea; [|done]. destruct (Announcer.step sha1 simultaneous ev a) as [[a' x]|] eqn:Es; [|done]. intros [= <-].
    exists sp. pose proof Hc as [Hg Hf Hb Hi Hs Hr]. split; cbn; try done. intros a1 [= <-] gn Hd. eapply bep5_step_announced; [done|exact Es|by apply Hb].
  - destruct (c_i2p c) as [s|] eqn:Es0; [|done]. destruct (I2pAnnouncer.step ev s) as [| |s' x] eqn:Es; [done..|]. intros [= <-].
    exists sp. pose proof Hc as [Hg Hf Hb Hi Hs Hr]. split; cbn; try done. intros s1 [= <-] gn Hd. eapply i2p_step_announced; [done|exact Es|by apply Hi].
  - destruct Hok as (Hrm & Hl & Hls). rewrite (load_stored_groups_removed remains) by done. destruct (reload_consistent c sp now listed listed_store Hc Hl Hls) as (c1 & sp1 & -> & Hc1 & _). intros [= <-]. eauto.
Qed.

Lemma no_client_consistent : consistent no_client {| sgroups := ∅; spins := ∅ |}.
Proof.
  split; cbn [no_client c_groups c_store c_static_store c_bep5 c_i2p sgroups]; [apply refines_init|done|done|done|..].
  - intros ??? Hl. by rewrite lookup_empty in Hl.
  - intros ?? Hl. by rewrite lookup_empty in Hl.
Qed.

Lemma client_run_consistent evs : forall c c' sp,
  Forall event_ok evs -> consistent c sp -> client_run sha1 sha512 prefix max_age bsecs simultaneous evs c = Some c' -> exists sp', consistent c' sp'.
Proof.
  induction evs as [|ev evs IH]; intros c c' sp Hok Hc; cbn [client_run]; [intros [= <-]; eauto|]. apply Forall_cons in Hok as [Ho Hos].
  destruct (client_step _ _ _ _ _ _ ev c) as [c1|] eqn:E; [|done]. destruct (client_step_consistent ev c c1 sp Ho Hc E) as [sp1 Hc1]. by eapply IH.
Qed.

End Consistency.

(** ** Properties *)

(** C5: the parts of the client agree, in whatever order responses are stored, collected, purged, pinned or
    reloaded and however the announcers run: every group that the client has is being announced by
    the announcers that are enabled, and is not to be removed from them; it has items, and each of
    them can be read from the store.  This is so for a client without a static cache, if the heads of
    the responses that are stored have what a signed response must have, the current version of
    the protocol, and are read from a file as they were written; if names of groups are at most
    2000 bytes long and SHA-1 tells them and their swarms apart; and if of the operations on files
    that can fail, the truncation of the file of an item, removals and the renaming of a new
    entry do not. *)
Theorem cache_client_consistent `{SignatureScheme} `{Base64} `{TransferCoding} `{BeastOps} `{HeadCodec}
    (sha1 sha512 : list byte -> list byte) (prefix : list byte) (max_age : Z) (bsecs : Z -> Z) (simultaneous : nat)
    (used : GroupName -> Prop) (evs : list client_event) (c : client) :
  (forall a b, used a -> used b -> sha1 a = sha1 b -> a = b) ->
  (forall a b, used a -> used b -> sha1 (prefix ++ a) = sha1 (prefix ++ b) -> a = b) ->
  Forall (event_ok used) evs -> client_run sha1 sha512 prefix max_age bsecs simultaneous evs no_client = Some c ->
  forall gn, gn ∈ backed_groups (c_groups c) ->
    (forall a, c_bep5 c = Some a -> bep5_announced (compute_swarm_name prefix gn) a) /\
    (forall s, c_i2p c = Some s -> i2p_announced (sha1 (compute_swarm_name prefix gn)) s) /\
    backed_items gn (c_groups c) ≠ ∅ /\
    forall i, i ∈ backed_items gn (c_groups c) -> exists r, entry_reader i c = Ok r.
Proof.
  intros Hd Hs Hok Hrun gn Hgn.
  destruct (client_run_consistent _ _ _ _ _ _ used Hd Hs evs no_client c _ Hok (no_client_consistent sha1 prefix used) Hrun) as [sp Hc].
  pose proof (proj1 (own_groups _ _ _ _ _ _ Hc) Hgn) as Hdom. split_and!.
  - intros a Ha. by apply (con_bep5 _ _ _ _ _ Hc).
  - intros s Hs'. by apply (con_i2p _ _ _ _ _ Hc).
  - by eapply group_not_empty.
  - intros i Hi. by eapply item_readable.
Qed.

(** The groups that are pinned are the same in both clients, with the same items, which the second
    one can read. *)
Definition pinned_same `{SignatureScheme} `{Base64} `{HeadCodec} sha1 (c c' : client) : Prop :=
  pinned_groups sha1 (impl (c_groups c')) = pinned_groups sha1 (impl (c_groups c)) /\
  forall gn, gn ∈ pinned_groups sha1 (impl (c_groups c)) ->
    backed_items gn (c_groups c') = backed_items gn (c_groups c) /\
    forall i, i ∈ backed_items gn (c_groups c) -> exists r, entry_reader i c' = Ok r.

Lemma pins_kept_same `{SignatureScheme} `{Base64} `{TransferCoding} `{BeastOps} `{HeadCodec} sha1 prefix used c c' sp sp' :
  consistent sha1 prefix used c sp -> consistent sha1 prefix used c' sp' -> pins_kept sp sp' -> pinned_same sha1 c c'.
Proof.
  intros Hc Hc' [P Q]. unfold pinned_same.
  rewrite (pinned_groups_spec _ _ _ _ (con_groups _ _ _ _ _ Hc)), (pinned_groups_spec _ _ _ _ (con_groups _ _ _ _ _ Hc')).
  split; [done|]. intros gn Hp. assert (backed_items gn (c_groups c') = backed_items gn (c_groups c)) as E.
  { rewrite (own_items _ _ _ _ _ _ Hc), (own_items _ _ _ _ _ _ Hc'). by rewrite Q. }
  split; [done|]. intros i Hi. rewrite <-E in Hi. by eapply item_readable.
Qed.

(** a round of the garbage collector, a purge and a restart always end without a fault, and leave
    the groups that are pinned and their items alone, however old they are. *)
Theorem pinned_groups_survive `{SignatureScheme} `{Base64} `{TransferCoding} `{BeastOps} `{HeadCodec}
    (sha1 sha512 : list byte -> list byte) (prefix : list byte) (max_age : Z) (bsecs : Z -> Z) (simultaneous : nat)
    (used : GroupName -> Prop) (evs : list client_event) (c : client) (now : Z)
    (listed : DhtGroups.root -> list (list byte * dir_entry)) (listed_store : http_stores -> list (path * stored)) :
  (forall a b, used a -> used b -> sha1 a = sha1 b -> a = b) ->
  (forall a b, used a -> used b -> sha1 (prefix ++ a) = sha1 (prefix ++ b) -> a = b) ->
  Forall (event_ok used) evs -> client_run sha1 sha512 prefix max_age bsecs simultaneous evs no_client = Some c ->
  (forall r, listed r ≡ₚ map_to_list r) -> (forall st, listed_store st ≡ₚ map_to_list st) ->
  exists collected purged reloaded,
    collect_garbage sha1 prefix max_age bsecs (fun _ => None) now listed_store c = Some collected /\ pinned_same sha1 c collected /\
    local_purge sha1 prefix (fun _ => None) listed_store c = Some purged /\ pinned_same sha1 c purged /\
    load_stored_groups sha1 prefix max_age bsecs (fun _ => None) now (c_store c) (c_static_store c) (RootDir (_root (impl (c_groups c)))) None
      listed listed_store = Loaded reloaded /\ pinned_same sha1 c reloaded.
Proof.
  intros Hd Hs Hok Hrun Hl Hls.
  destruct (client_run_consistent _ _ _ _ _ _ used Hd Hs evs no_client c _ Hok (no_client_consistent sha1 prefix used) Hrun) as [sp Hc].
  destruct (for_each_consistent sha1 prefix used (keep_cache_entry sha1 prefix max_age bsecs now) (listed_store (c_store c)) c sp
              ltac:(by eapply keep_cache_entry_ok) Hc) as (c1 & sp1 & E1 & Hc1 & P1); [by eapply listed_ok|].
  destruct (for_each_consistent sha1 prefix used (purge_entry sha1 prefix) (listed_store (c_store c)) c sp
              ltac:(by eapply purge_entry_ok) Hc) as (c2 & sp2 & E2 & Hc2 & P2); [by eapply listed_ok|].
  destruct (reload_consistent sha1 sha512 prefix max_age bsecs used Hd Hs c sp now listed listed_store Hc Hl Hls) as (c3 & sp3 & E3 & Hc3 & P3).
  exists c1, c2, c3. split_and!; [exact E1|by eapply pins_kept_same|exact E2|by eapply pins_kept_same|exact E3|by eapply pins_kept_same].
Qed.

(** *** Witnesses *)

#[local] Existing Instances rfc_base64 toy_coding toy_beast line_codec Crypto.toy_scheme.

Definition demo_prefix : list byte := str "swarm/".

(** A response is stored in a group that is pinned and in another one, while the DHT is announced to. *)
Definition demo_evs : list client_event :=
  [EnableDht 1; Store no_faults item1 group1 six_byte_input no_failure false; PinGroup false group1; EnableI2p 1;
   Store no_faults item2 group2 six_byte_input no_failure true; Bep5 Announcer.Loop; Gc (fun _ => None) 1700000000 map_to_list; Bep5 (Announcer.Finish 0 [true])].

Definition demo_run : option client := client_run plain_sha1 toy_hash demo_prefix 100 (fun n => n) 2 demo_evs no_client.

Lemma demo_head : exists hd, final_head six_byte_input None = Some hd /\ good_head hd.
Proof.
  eexists. split; [vm_compute; reflexivity|]. split_and!.
  - vm_compute. reflexivity.
  - eexists. vm_compute. reflexivity.
  - vm_compute. discriminate.
  - vm_compute. reflexivity.
Qed.

Lemma demo_evs_ok : Forall (event_ok (fun _ => True)) demo_evs.
Proof.
  repeat (apply Forall_cons; split; [try exact I|]); [..|by apply Forall_nil].
  - split_and!; [exact I|vm_compute; discriminate|vm_compute; reflexivity|reflexivity|reflexivity|reflexivity|exact demo_head].
  - split_and!; [exact I|vm_compute; discriminate|vm_compute; reflexivity|reflexivity|reflexivity|reflexivity|exact demo_head].
  - split; [reflexivity|]. intros st. reflexivity.
Qed.

Lemma demo_swarms_differ a b : True -> True -> plain_sha1 (demo_prefix ++ a) = plain_sha1 (demo_prefix ++ b) -> a = b.
Proof. intros _ _. apply app_inv_head. Qed.

(** The old response was collected in the group that is not pinned. *)
Definition demo_checks (c : client) : bool :=
  bool_decide (group1 ∈ backed_groups (c_groups c)) && bool_decide (item1 ∈ backed_items group1 (c_groups c)) &&
  bool_decide (group2 ∉ backed_groups (c_groups c)) && match c_bep5 c with Some _ => true | None => false end.

Lemma cache_client_consistent_witness :
  exists c a r, demo_run = Some c /\ c_bep5 c = Some a /\ bep5_announced (demo_prefix ++ group1) a /\ entry_reader item1 c = Ok r.
Proof.
  assert (match demo_run with Some c => demo_checks c | None => false end = true) as Hb by (vm_compute; reflexivity).
  destruct demo_run as [c|] eqn:E; [|discriminate Hb]. unfold demo_checks in Hb.
  destruct (c_bep5 c) as [a|] eqn:Ea; [|by rewrite andb_false_r in Hb].
  apply andb_true_iff in Hb as [[[Hg Hi]%andb_true_iff _]%andb_true_iff _]. apply bool_decide_eq_true in Hg, Hi. unfold demo_run in E.
  destruct (cache_client_consistent plain_sha1 toy_hash demo_prefix 100 (fun n => n) 2 (fun _ => True) demo_evs c
              plain_sha1_differ demo_swarms_differ demo_evs_ok E group1 Hg) as (Hb5 & _ & _ & Hr).
  destruct (Hr item1 Hi) as [r Er]. exists c, a, r. exact (conj eq_refl (conj Ea (conj (Hb5 a Ea) Er))).
Defined.

Lemma pinned_groups_survive_witness :
  exists c purged, demo_run = Some c /\ local_purge plain_sha1 demo_prefix (fun _ => None) map_to_list c = Some purged /\ pinned_same plain_sha1 c purged.
Proof.
  assert (match demo_run with Some c => true | None => false end = true) as Hb by (vm_compute; reflexivity).
  destruct demo_run as [c|] eqn:E; [|discriminate Hb]. unfold demo_run in E.
  destruct (pinned_groups_survive plain_sha1 toy_hash demo_prefix 100 (fun n => n) 2 (fun _ => True) demo_evs c 1800000000 map_to_list map_to_list
              plain_sha1_differ demo_swarms_differ demo_evs_ok E (fun r => reflexivity _) (fun st => reflexivity _))
    as (_ & purged & _ & _ & _ & Hp & Hs & _). exists c, purged. exact (conj eq_refl (conj Hp Hs)).
Defined.

(** With static groups, the client stops announcing a group that it still has: the overload of [remove] that the
    client calls reports the group as empty although it is in the fallback. *)
Example static_group_not_announced :
  (let own := fst (DhtGroups.add plain_sha1 no_failure group1 item1 no_groups) in
   let static := fst (DhtGroups.add plain_sha1 no_failure group1 item2 no_groups) in
   let c := fst (enable_dht plain_sha1 demo_prefix 1
                   {| c_store := ∅; c_static_store := ∅; c_groups := {| impl := own; fallback_groups := static |}; c_bep5 := None; c_i2p := None |}) in
   let '(c', _) := unpublish_cache_entry plain_sha1 demo_prefix item1 c in
   bool_decide (group1 ∈ backed_groups (c_groups c')) &&
   match c_bep5 c' with Some a => forallb Announcer.to_remove (Announcer.entries a) | None => false end &&
   bool_decide (group1 ∉ snd (backed_remove plain_sha1 item1 (c_groups c)))) = true.
Proof. vm_compute. reflexivity. Qed.
