(* ===== verification/MultiPeer.v ===== *)
(** * Reading a response from several peers: src/cache/multi_peer_reader.cpp

    The reader gets the hash list of the response from each peer it hears of, takes the most
    recent one as the reference, and then fetches block after block, each from a peer whose hash
    list has the same digest for it; a peer whose answer is wrong is not asked again.

    What happens outside is a list of inputs: events of the coroutines that look for peers and load
    hash lists, the answer of a peer to a request for a block, and the choice of the random
    generator.  A read is a function of the state and the inputs; it ends with a part or an
    error, with a fault, or it is still waiting when there are no more inputs.  A block that
    is fetched ahead in another coroutine is taken to be answered when it is waited for.
    Assertions that are followed by the return of an error are modelled by the error. *)
From S2P Require Import Prelude Number SplitString Url Http Request Crypto HashList HttpSign Base64 SignedHead BlockSign SignedBody.

(** ** Loading a hash list: src/cache/hash_list.cpp *)

Record PeerList := { pl_head : SignedHead; pl_blocks : list Block }.

Definition hash_list_of (l : PeerList) : HashList :=
  {| block_size := sh_block_size (pl_head l); list_public_key := sh_public_key (pl_head l);
     injection_id := sh_injection_id (pl_head l); blocks := pl_blocks l |}.

Definition ORIGINAL_STATUS : list byte := str "X-Ouinet-Original-Status".

(** What the parser of the list is given: the parts up to an error. *)
Fixpoint list_parts (inp : input) : list HashList.Part * option errc :=
  match inp with
  | [] => ([], None)
  | inl e :: _ => ([], Some e)
  | inr p :: inp' =>
      let '(ps, e) := list_parts inp' in
      ((match p with Body d => BodyPart d | ChunkBody d _ => ChunkBodyPart d | _ => OtherPart end) :: ps, e)
  end.

Section Code.
Context `{SignatureScheme} `{Base64} `{TransferCoding}.
Variable sha512 : list byte -> list byte.

Definition load_list_blocks (head : SignedHead) (inp : input) : res PeerList :=
  let '(parts, error) := list_parts inp in
  match load_parts parts initial with
  | BadMessage => Fail bad_message
  | HashList.OutOfFuel => Fault
  | Done st =>
      match error, loaded st with
      | Some e, _ => Fail e
      | None, [] => Fail bad_message
      | None, bs =>
          let l := {| pl_head := head; pl_blocks := bs |} in
          if HashList_verify sha512 (hash_list_of l) then Ok l else Fail bad_message
      end
  end.

(** [HashList::load] *)
Definition HashList_load (pk : list byte) (inp : input) : res PeerList :=
  match inp with
  | [] => Fail bad_message
  | inl e :: _ => Fail e
  | inr (HeadPart raw_head) :: inp' =>
      if result raw_head =? 404 then Fail not_found
      else
        match fst (number_of_view W4 (field_view (field_value ORIGINAL_STATUS (rs_fields raw_head)))) with
        | None => Fail bad_message
        | Some orig_status =>
            if 999 <? orig_status then Fault
            else
              let raw_head := {| result := orig_status; rs_version := rs_version raw_head;
                                 rs_fields := erase_field ORIGINAL_STATUS (rs_fields raw_head) |} in
              match verify_and_create raw_head pk with
              | Indeterminate => Fault
              | Value None => Fail bad_message
              | Value (Some sh) =>
                  let fs := set_field (str "Transfer-Encoding") (str "chunked") (erase_field (str "Content-Length") (rs_fields (sh_head sh))) in
                  load_list_blocks {| sh_head := set_rs_fields (sh_head sh) fs; sh_injection_id := sh_injection_id sh;
                                      sh_injection_ts := sh_injection_ts sh; sh_uri := sh_uri sh; sh_bs_params := sh_bs_params sh |} inp'
              end
        end
  | inr _ :: _ => Fail bad_message
  end.

(** ** Reading a block *)

Variant merr :=
| inconsistent_hash | expected_head | expected_first_chunk_hdr | expected_chunk_body | block_is_too_big | expected_chunk_hdr
| no_peers | expected_trailer_or_end_of_response | trailer_received_twice | expected_no_more_data
| part_error (e : errc).

Record PeerBlock := { chunk_body : list byte; chunk_hdr_exts : list byte; block_trailer : option fields }.

Variant read_result (A : Type) := Got (a : A) | Wrong (e : merr) | Broken.
Arguments Got {A} a.
Arguments Wrong {A} e.
Arguments Broken {A}.

(** The data of the block, and the parts behind it. *)
Fixpoint read_body (acc : list byte) (inp : input) : read_result (list byte * input) :=
  match inp with
  | [] => Broken
  | inl e :: _ => Wrong (part_error e)
  | inr (ChunkBody d remain) :: inp' =>
      if response_data_block_max <? size_of acc + size_of d then Wrong block_is_too_big
      else if remain =? 0 then Got (acc ++ d, inp')
      else read_body (acc ++ d) inp'
  | inr _ :: _ => Wrong expected_chunk_body
  end.

Definition read_data (size : Z) (inp : input) : read_result (list byte * input) :=
  if size =? 0 then Got ([], inp)
  else
    match read_body [] inp with
    | Broken => Broken
    | Wrong e => Wrong e
    | Got (d, inp) =>
        match inp with
        | inl e :: _ => Wrong (part_error e)
        | inr (ChunkHdr size _) :: inp' => if size =? 0 then Got (d, inp') else Wrong expected_no_more_data
        | _ => Wrong expected_chunk_hdr
        end
    end.

(** The rest of the response. *)
Fixpoint read_trailer (trailer : option fields) (inp : input) : read_result (option fields) :=
  match inp with
  | [] => Got trailer
  | inl e :: _ => Wrong (part_error e)
  | inr (Trailer t) :: inp' =>
      match trailer with
      | Some _ => Wrong trailer_received_twice
      | None => read_trailer (Some t) inp'
      end
  | inr _ :: _ => Wrong expected_trailer_or_end_of_response
  end.

(** [Peer::read_block]; [None] if the response has no body. *)
Definition read_block (l : PeerList) (block_id : nat) (inp : input) : read_result (option PeerBlock) :=
  match inp with
  | inl e :: _ => Wrong (part_error e)
  | inr (HeadPart _) :: inp =>
      match inp with
      | [] => Got None
      | inl e :: _ => Wrong (part_error e)
      | inr (ChunkHdr size _) :: inp =>
          if response_data_block_max <? size then Wrong block_is_too_big
          else
            match read_data size inp with
            | Broken => Broken
            | Wrong e => Wrong e
            | Got (d, inp) =>
                match pl_blocks l !! block_id with
                | None => Broken
                | Some current_block =>
                    if negb (bool_decide (sha512 d = data_hash current_block)) then Wrong inconsistent_hash
                    else
                      match read_trailer None inp with
                      | Broken => Broken
                      | Wrong e => Wrong e
                      | Got t =>
                          Got (Some {| chunk_body := d; chunk_hdr_exts := block_chunk_ext (Some (chained_hash_signature current_block)) None;
                                       block_trailer := t |})
                      end
                end
            end
      | inr _ :: _ => Wrong expected_first_chunk_hdr
      end
  | _ => Wrong expected_head
  end.

(** ** Peers *)

(** A peer is its number.  [timed_out] counts those that stay among the candidates after their time
    was over; [lookup] is whether [_dht_lookup] or [_i2p_lookup] is still set. *)
Record Peers := {
  good_peers : list (nat * PeerList);
  candidate_peers : list nat;
  timed_out : nat;
  all_peers : list nat;
  lookup_pending : bool;
  newest_proto_seen : Z;
}.

Variant peer_event :=
| CandidateFound (id : nat)
| LookupDone (ids : list nat)
| HashListReply (id : nat) (inp : input)
| HashListError (id : nat)
| HashListTimeout (id : nat).

(** [add_candidate] of a peer that is allowed. *)
Definition add_candidate (p : Peers) (id : nat) : Peers :=
  if bool_decide (id ∈ all_peers p) then p
  else {| good_peers := good_peers p; candidate_peers := candidate_peers p ++ [id]; timed_out := timed_out p;
          all_peers := id :: all_peers p; lookup_pending := lookup_pending p; newest_proto_seen := newest_proto_seen p |}.

Definition not_candidate (id : nat) (p : Peers) : Peers :=
  {| good_peers := good_peers p; candidate_peers := List.filter (fun c => negb (bool_decide (c = id))) (candidate_peers p); timed_out := timed_out p;
     all_peers := all_peers p; lookup_pending := lookup_pending p; newest_proto_seen := newest_proto_seen p |}.

Variable cache_pk : list byte.

(** [None] if the event cannot happen, an empty result for a fault. *)
Definition peers_step (ev : peer_event) (p : Peers) : option (option Peers) :=
  match ev with
  | CandidateFound id => Some (Some (add_candidate p id))
  | LookupDone ids =>
      let p := foldl add_candidate p ids in
      Some (Some {| good_peers := good_peers p; candidate_peers := candidate_peers p; timed_out := timed_out p;
                    all_peers := all_peers p; lookup_pending := false; newest_proto_seen := newest_proto_seen p |})
  | HashListReply id inp =>
      if negb (bool_decide (id ∈ candidate_peers p)) then None
      else
        match HashList_load cache_pk inp with
        | Fault => Some None
        | Fail _ => Some (Some (not_candidate id p))
        | Ok l =>
            match http_proto_version_check_trusted (field_view (field_value protocol_version_hdr (rs_fields (sh_head (pl_head l))))) (newest_proto_seen p) with
            | None => Some None
            | Some (ok, newest) =>
                let p := not_candidate id p in
                Some (Some {| good_peers := if ok : bool then good_peers p ++ [(id, l)] else good_peers p;
                              candidate_peers := candidate_peers p; timed_out := timed_out p; all_peers := all_peers p;
                              lookup_pending := lookup_pending p; newest_proto_seen := newest |})
            end
        end
  | HashListError id => if negb (bool_decide (id ∈ candidate_peers p)) then None else Some (Some (not_candidate id p))
  | HashListTimeout id =>
      if negb (bool_decide (id ∈ candidate_peers p)) then None
      else
        let p := not_candidate id p in
        Some (Some {| good_peers := good_peers p; candidate_peers := candidate_peers p; timed_out := S (timed_out p);
                      all_peers := all_peers p; lookup_pending := lookup_pending p; newest_proto_seen := newest_proto_seen p |})
  end.

Definition still_waiting_for_candidates (p : Peers) : bool :=
  lookup_pending p || negb (bool_decide (candidate_peers p = [])) || (0 <? timed_out p)%nat.

Definition has_enough_good_peers (p : Peers) : bool := negb (bool_decide (good_peers p = [])).

Definition unmark_peer (id : nat) (p : Peers) : Peers :=
  {| good_peers := List.filter (fun g => negb (bool_decide (fst g = id))) (good_peers p); candidate_peers := candidate_peers p; timed_out := timed_out p;
     all_peers := all_peers p; lookup_pending := lookup_pending p; newest_proto_seen := newest_proto_seen p |}.

(** ** Inputs *)

Variant env := PeerEvent (ev : peer_event) | Answer (inp : input) | Choice (n : nat).

Variant out (A : Type) := Ret (r : merr + A) (p : Peers) (es : list env) | Crash | Waiting.
Arguments Ret {A} r p es.
Arguments Crash {A}.
Arguments Waiting {A}.

(** [wait_for_some_peers_to_respond] *)
Fixpoint wait_for_peers (p : Peers) (es : list env) {struct es} : out unit :=
  if has_enough_good_peers p then Ret (inr tt) p es
  else if negb (still_waiting_for_candidates p) then Ret (inl no_peers) p es
  else
    match es with
    | PeerEvent ev :: es' =>
        match peers_step ev p with
        | Some (Some p) => wait_for_peers p es'
        | Some None => Crash
        | None => Waiting
        end
    | _ => Waiting
    end.

(** The first of the most recent hash lists. *)
Fixpoint best_list (best : option PeerList) (ps : list (nat * PeerList)) : option PeerList :=
  match ps with
  | [] => best
  | (_, l) :: ps' =>
      best_list (match best with
                 | None => Some l
                 | Some b => if more_recent_than (pl_head l) (pl_head b) then Some l else best
                 end) ps'
  end.

Definition choose_reference_hash_list (p : Peers) (es : list env) : out PeerList :=
  match wait_for_peers p es with
  | Crash => Crash
  | Waiting => Waiting
  | Ret (inl e) p es => Ret (inl e) p es
  | Ret (inr _) p es =>
      match best_list None (good_peers p) with
      | None => Ret (inl no_peers) p es
      | Some l => Ret (inr l) p es
      end
  end.

Definition has_block (block_id : nat) (b : Block) (g : nat * PeerList) : bool :=
  match pl_blocks (snd g) !! block_id with
  | Some b' => bool_decide (data_hash b' = data_hash b)
  | None => false
  end.

Definition choose_peer_for_block (ref : PeerList) (block_id : nat) (p : Peers) (es : list env) : out (nat * PeerList) :=
  match wait_for_peers p es with
  | Crash => Crash
  | Waiting => Waiting
  | Ret (inl e) p es => Ret (inl e) p es
  | Ret (inr _) p es =>
      match pl_blocks ref !! block_id with
      | None => Ret (inl no_peers) p es
      | Some b =>
          match List.filter (has_block block_id b) (good_peers p) with
          | [] => Ret (inl no_peers) p es
          | g :: gs =>
              match es with
              | Choice n :: es' => Ret (inr (default g ((g :: gs) !! (n mod length (g :: gs))%nat))) p es'
              | _ => Waiting
              end
          end
      end
  end.

(** A block that is to be fetched, and the peer. *)
Abbreviation fetch := (nat * (nat * PeerList))%type.

(** [new_fetch_job] *)
Definition new_fetch_job (ref : PeerList) (block_id : nat) (p : Peers) (es : list env) : out (option fetch) :=
  if (length (pl_blocks ref) <=? block_id)%nat then Ret (inr None) p es
  else
    match choose_peer_for_block ref block_id p es with
    | Crash => Crash
    | Waiting => Waiting
    | Ret (inl e) p es => Ret (inl e) p es
    | Ret (inr g) p es => Ret (inr (Some (block_id, g))) p es
    end.

(** [PreFetch::get_block]: other things happen until the peer answers. *)
Fixpoint get_block (f : fetch) (p : Peers) (es : list env) {struct es} : out (read_result (option PeerBlock)) :=
  match es with
  | PeerEvent ev :: es' =>
      match peers_step ev p with
      | Some (Some p) => get_block f p es'
      | Some None => Crash
      | None => Waiting
      end
  | Answer inp :: es' => Ret (inr (read_block (snd (snd f)) (fst f) inp)) p es'
  | _ => Waiting
  end.

(** The loop of [fetch_block]; every turn takes an answer. *)
Fixpoint fetch_loop (fuel : nat) (ref : PeerList) (block_id : nat) (f : fetch) (pre_fetch : option fetch) (p : Peers) (es : list env) :
    out (option PeerBlock * option fetch) :=
  match fuel with
  | O => Waiting
  | S fuel =>
      match get_block f p es with
      | Crash => Crash
      | Waiting => Waiting
      | Ret (inl e) p es => Ret (inl e) p es
      | Ret (inr Broken) p es => Crash
      | Ret (inr (Got b)) p es => Ret (inr (b, pre_fetch)) p es
      | Ret (inr (Wrong _)) p es =>
          let peer := fst (snd f) in
          let p := unmark_peer peer p in
          let pre_fetch := match pre_fetch with
                           | Some pf => if bool_decide (fst (snd pf) = peer) then None else Some pf
                           | None => None
                           end in
          match new_fetch_job ref block_id p es with
          | Crash => Crash
          | Waiting => Waiting
          | Ret (inl e) p es => Ret (inl e) p es
          | Ret (inr None) p es => Crash
          | Ret (inr (Some f)) p es => fetch_loop fuel ref block_id f pre_fetch p es
          end
      end
  end.

Definition fetch_block (ref : PeerList) (block_id : nat) (pre_fetch : option fetch) (p : Peers) (es : list env) :
    out (option PeerBlock * option fetch) :=
  let start :=
    match pre_fetch with
    | Some f => Ret (inr (Some f)) p es
    | None => new_fetch_job ref block_id p es
    end in
  match start with
  | Crash => Crash
  | Waiting => Waiting
  | Ret (inl e) p es => Ret (inl e) p es
  | Ret (inr None) p es => Crash
  | Ret (inr (Some f)) p es =>
      match new_fetch_job ref (S block_id) p es with
      | Crash => Crash
      | Waiting => Waiting
      | Ret (inl e) p es => Ret (inl e) p es
      | Ret (inr pre_fetch) p es => fetch_loop (S (length es)) ref block_id f pre_fetch p es
      end
  end.

(** ** The reader *)

Variant State := active | done_ | closed.

Record MultiPeerReader := {
  _state : State;
  _reference_hash_list : option PeerList;
  _head_sent : bool;
  _block_id : nat;
  _next_chunk_hdr_ext : list byte;
  _next_chunk_body : option (list byte);
  _next_trailer : option fields;
  _last_chunk_hdr_sent : bool;
  _pre_fetch : option fetch;
}.

Definition with_reference (l : PeerList) (m : MultiPeerReader) : MultiPeerReader :=
  {| _state := _state m; _reference_hash_list := Some l; _head_sent := _head_sent m; _block_id := _block_id m;
     _next_chunk_hdr_ext := _next_chunk_hdr_ext m; _next_chunk_body := _next_chunk_body m; _next_trailer := _next_trailer m;
     _last_chunk_hdr_sent := _last_chunk_hdr_sent m; _pre_fetch := _pre_fetch m |}.

Definition set_state (s : State) (m : MultiPeerReader) : MultiPeerReader :=
  {| _state := s; _reference_hash_list := _reference_hash_list m; _head_sent := _head_sent m; _block_id := _block_id m;
     _next_chunk_hdr_ext := _next_chunk_hdr_ext m; _next_chunk_body := _next_chunk_body m; _next_trailer := _next_trailer m;
     _last_chunk_hdr_sent := _last_chunk_hdr_sent m; _pre_fetch := _pre_fetch m |}.

Definition mark_done (m : MultiPeerReader) : MultiPeerReader :=
  match _state m with closed => m | _ => set_state done_ m end.

Definition send_head (m : MultiPeerReader) : MultiPeerReader :=
  {| _state := _state m; _reference_hash_list := _reference_hash_list m; _head_sent := true; _block_id := _block_id m;
     _next_chunk_hdr_ext := _next_chunk_hdr_ext m; _next_chunk_body := _next_chunk_body m; _next_trailer := _next_trailer m;
     _last_chunk_hdr_sent := _last_chunk_hdr_sent m; _pre_fetch := _pre_fetch m |}.

Definition send_body (m : MultiPeerReader) : MultiPeerReader :=
  {| _state := _state m; _reference_hash_list := _reference_hash_list m; _head_sent := _head_sent m; _block_id := _block_id m;
     _next_chunk_hdr_ext := _next_chunk_hdr_ext m; _next_chunk_body := None; _next_trailer := _next_trailer m;
     _last_chunk_hdr_sent := _last_chunk_hdr_sent m; _pre_fetch := _pre_fetch m |}.

Definition send_trailer (m : MultiPeerReader) : MultiPeerReader :=
  {| _state := _state m; _reference_hash_list := _reference_hash_list m; _head_sent := _head_sent m; _block_id := _block_id m;
     _next_chunk_hdr_ext := _next_chunk_hdr_ext m; _next_chunk_body := _next_chunk_body m; _next_trailer := None;
     _last_chunk_hdr_sent := _last_chunk_hdr_sent m; _pre_fetch := _pre_fetch m |}.

(** The last chunk header, the extension of which is moved away. *)
Definition send_last_hdr (m : MultiPeerReader) : MultiPeerReader :=
  {| _state := _state m; _reference_hash_list := _reference_hash_list m; _head_sent := _head_sent m; _block_id := _block_id m;
     _next_chunk_hdr_ext := []; _next_chunk_body := _next_chunk_body m; _next_trailer := _next_trailer m;
     _last_chunk_hdr_sent := true; _pre_fetch := _pre_fetch m |}.

(** The end of the body, if it was not sent yet. *)
Definition finish (m : MultiPeerReader) : option Part * MultiPeerReader :=
  let m := mark_done m in
  if _last_chunk_hdr_sent m then (None, m) else (Some (ChunkHdr 0 (_next_chunk_hdr_ext m)), send_last_hdr m).

(** A block was fetched, or a response without a body. *)
Definition take_block (ref : PeerList) (b : option PeerBlock) (pre_fetch : option fetch) (m : MultiPeerReader) : option Part * MultiPeerReader :=
  let next exts body trailer :=
    {| _state := _state m; _reference_hash_list := _reference_hash_list m; _head_sent := _head_sent m; _block_id := S (_block_id m);
       _next_chunk_hdr_ext := exts; _next_chunk_body := body; _next_trailer := trailer;
       _last_chunk_hdr_sent := _last_chunk_hdr_sent m; _pre_fetch := pre_fetch |} in
  match b with
  | None => finish (next (_next_chunk_hdr_ext m) (_next_chunk_body m) (_next_trailer m))
  | Some b =>
      (Some (ChunkHdr (size_of (chunk_body b)) (_next_chunk_hdr_ext m)),
       next (chunk_hdr_exts b) (Some (chunk_body b))
            (if (S (_block_id m) =? length (pl_blocks ref))%nat then block_trailer b else _next_trailer m))
  end.

(** What a read returns, with the new state. *)
Variant reading := PartRead (part : option Part) (m : MultiPeerReader) (p : Peers) (es : list env) | ReadFailed (e : merr) | ReadCrash | ReadWaiting.

Definition read_impl_ref (ref : PeerList) (m : MultiPeerReader) (p : Peers) (es : list env) : reading :=
  if negb (_head_sent m) then PartRead (Some (HeadPart (sh_head (pl_head ref)))) (send_head m) p es
  else
    match _next_chunk_body m with
    | Some d => PartRead (Some (ChunkBody d 0)) (send_body m) p es
    | None =>
        match _next_trailer m with
        | Some t =>
            if negb (_last_chunk_hdr_sent m) then PartRead (Some (ChunkHdr 0 (_next_chunk_hdr_ext m))) (send_last_hdr m) p es
            else PartRead (Some (Trailer t)) (mark_done (send_trailer m)) p es
        | None =>
            if (length (pl_blocks ref) <=? _block_id m)%nat then let '(part, m) := finish m in PartRead part m p es
            else
              match fetch_block ref (_block_id m) (_pre_fetch m) p es with
              | Crash => ReadCrash
              | Waiting => ReadWaiting
              | Ret (inl e) _ _ => ReadFailed e
              | Ret (inr (b, pre_fetch)) p es => let '(part, m) := take_block ref b pre_fetch m in PartRead part m p es
              end
        end
    end.

(** [async_read_part_impl] *)
Definition async_read_part_impl (m : MultiPeerReader) (p : Peers) (es : list env) : reading :=
  match _reference_hash_list m with
  | Some ref => read_impl_ref ref m p es
  | None =>
      match choose_reference_hash_list p es with
      | Crash => ReadCrash
      | Waiting => ReadWaiting
      | Ret (inl e) _ _ => ReadFailed e
      | Ret (inr ref) p es => read_impl_ref ref (with_reference ref m) p es
      end
  end.

(** [async_read_part]; after an error the reader is closed. *)
Definition async_read_part (m : MultiPeerReader) (p : Peers) (es : list env) : reading :=
  match _state m with
  | closed => ReadFailed (part_error bad_descriptor)
  | done_ => PartRead None m p es
  | active =>
      match async_read_part_impl m p es with
      | PartRead None m p es => PartRead None (set_state done_ m) p es
      | r => r
      end
  end.

Definition close (m : MultiPeerReader) : MultiPeerReader := set_state closed m.

Definition new_reader : MultiPeerReader :=
  {| _state := active; _reference_hash_list := None; _head_sent := false; _block_id := 0; _next_chunk_hdr_ext := []; _next_chunk_body := None;
     _next_trailer := None; _last_chunk_hdr_sent := false; _pre_fetch := None |}.

(** No peer is known yet; with or without a lookup. *)
Definition no_peers_yet (lookup : bool) : Peers :=
  {| good_peers := []; candidate_peers := []; timed_out := 0; all_peers := []; lookup_pending := lookup;
     newest_proto_seen := protocol_version_current |}.

(** Reading up to [n] parts: the parts, and how it ended. *)
Variant ending := Complete | EndedWith (e : merr) | Crashed | StillWaiting | MoreToRead.

Fixpoint read_parts (n : nat) (m : MultiPeerReader) (p : Peers) (es : list env) : list Part * ending :=
  match n with
  | O => ([], MoreToRead)
  | S n =>
      match async_read_part m p es with
      | PartRead None _ _ _ => ([], Complete)
      | PartRead (Some part) m p es => let '(parts, e) := read_parts n m p es in (part :: parts, e)
      | ReadFailed e => ([], EndedWith e)
      | ReadCrash => ([], Crashed)
      | ReadWaiting => ([], StillWaiting)
      end
  end.

End Code.

Arguments Got {A} a.
Arguments Wrong {A} e.
Arguments Broken {A}.
Arguments Ret {A} r p es.
Arguments Crash {A}.
Arguments Waiting {A}.

(** ** What is delivered *)

Section Delivered.
Context `{SignatureScheme} `{Base64} `{TransferCoding}.
Variable sha512 : list byte -> list byte.
Variable cache_pk : list byte.
Variable run : list env.

(** The list was loaded from what a peer sent. *)
Definition genuine (l : PeerList) : Prop :=
  exists id inp, PeerEvent (HashListReply id inp) ∈ run /\ HashList_load sha512 cache_pk inp = Ok l.

Definition peers_ok (p : Peers) : Prop := Forall (fun g => genuine (snd g)) (good_peers p).

(** The data is that of the first blocks of the list. *)
Definition first_blocks (l : PeerList) (ds : list (list byte)) : Prop :=
  map sha512 ds = take (length ds) (map data_hash (pl_blocks l)).

Lemma load_list_verified head inp l :
  load_list_blocks sha512 head inp = Ok l -> HashList_verify sha512 (hash_list_of l) = true /\ Forall block_ok (pl_blocks l).
Proof.
  unfold load_list_blocks. destruct (list_parts inp) as [parts error]. pose proof (load_blocks_outcome parts) as Ho. cbv zeta in Ho.
  unfold load_blocks in Ho. destruct (load_parts parts initial) as [st| |]; [|done..].
  destruct error; [done|]. destruct (loaded st) as [|b bs]; [done|]. destruct (HashList_verify _ _) eqn:E; [|done]. intros [= <-].
  split; [done|]. apply Ho.
Qed.

Lemma genuine_verified l : genuine l -> HashList_verify sha512 (hash_list_of l) = true /\ Forall block_ok (pl_blocks l).
Proof.
  intros (id & inp & _ & Hl). revert Hl. unfold HashList_load. destruct inp as [|[e|part] inp]; [done|done|]. destruct part as [h| | | |]; try done.
  destruct (result h =? 404); [done|]. destruct (fst (number_of_view _ _)) as [st|]; [|done]. destruct (999 <? st); [done|].
  destruct (verify_and_create _ _) as [[sh|]|]; [|done..]. apply load_list_verified.
Qed.

Lemma add_candidate_good p id : good_peers (add_candidate p id) = good_peers p.
Proof. unfold add_candidate. by case_bool_decide. Qed.

Lemma add_candidates_good ids : forall p, good_peers (foldl add_candidate p ids) = good_peers p.
Proof. induction ids as [|id ids IH]; intros p; cbn [foldl]; [done|]. by rewrite IH, add_candidate_good. Qed.

Lemma peers_step_ok ev p p' : PeerEvent ev ∈ run -> peers_ok p -> peers_step sha512 cache_pk ev p = Some (Some p') -> peers_ok p'.
Proof.
  unfold peers_ok. intros Hev Hp. destruct ev as [id|ids|id inp|id|id]; cbn [peers_step].
  - intros [= <-]. by rewrite add_candidate_good.
  - intros [= <-]. cbn. by rewrite add_candidates_good.
  - destruct (negb _); [done|]. destruct (HashList_load sha512 cache_pk inp) as [l|e|] eqn:El; [|by intros [= <-]|done].
    destruct (http_proto_version_check_trusted _ _) as [[ok newest]|]; [|done]. intros [= <-]. cbn. destruct ok; [|done].
    apply Forall_app. split; [done|]. apply Forall_singleton. by exists id, inp.
  - destruct (negb _); [done|]. by intros [= <-].
  - destruct (negb _); [done|]. by intros [= <-].
Qed.

Lemma head_run (x : env) es : x :: es ⊆ run -> x ∈ run.
Proof. intros Hs. apply Hs. by left. Qed.

Lemma tail_run (x : env) es : x :: es ⊆ run -> es ⊆ run.
Proof. intros Hs y Hy. apply Hs. by right. Qed.

Lemma wait_ok es : forall p r p' es', es ⊆ run -> peers_ok p -> wait_for_peers sha512 cache_pk p es = Ret r p' es' -> peers_ok p' /\ es' ⊆ es.
Proof.
  induction es as [|x es IH]; intros p r p' es' Hrun Hp; cbn [wait_for_peers];
    (destruct (has_enough_good_peers p); [intros [= <- <- <-]; done|]; destruct (negb _); [intros [= <- <- <-]; done|]); [done|].
  destruct x as [ev| |]; [|done..]. destruct (peers_step sha512 cache_pk ev p) as [[p1|]|] eqn:E; [|done..].
  intros Hw. destruct (IH _ _ _ _ (tail_run _ _ Hrun) (peers_step_ok _ _ _ (head_run _ _ Hrun) Hp E) Hw) as [? Hs]. split; [done|]. set_solver.
Qed.

Lemma best_list_ok ps : forall best l, (forall b, best = Some b -> genuine b) -> Forall (fun g => genuine (snd g)) ps -> best_list best ps = Some l -> genuine l.
Proof.
  induction ps as [|[id x] ps IH]; intros best l Hb Hps; cbn [best_list]; [by apply Hb|]. apply Forall_cons in Hps as [Hx Hps].
  apply IH; [|done]. destruct best as [b|]; [|by intros b [= <-]]. destruct (more_recent_than _ _); [by intros b' [= <-]|done].
Qed.

Lemma reference_ok p es l p' es' :
  es ⊆ run -> peers_ok p -> choose_reference_hash_list sha512 cache_pk p es = Ret (inr l) p' es' -> genuine l /\ peers_ok p' /\ es' ⊆ es.
Proof.
  intros Hrun Hp. unfold choose_reference_hash_list. destruct (wait_for_peers _ _ p es) as [[e|[]] p1 es1| |] eqn:Ew; [done| |done..].
  destruct (wait_ok _ _ _ _ _ Hrun Hp Ew) as [Hp1 Hes]. destruct (best_list None (good_peers p1)) as [b|] eqn:Eb; [|done]. intros [= <- <- <-].
  split; [|done]. by eapply best_list_ok; [|exact Hp1|exact Eb].
Qed.

(** The job is for the block, and the peer has it. *)
Definition fetch_ok (ref : PeerList) (block_id : nat) (f : nat * (nat * PeerList)) : Prop :=
  fst f = block_id /\ exists b, pl_blocks ref !! block_id = Some b /\ has_block block_id b (snd f) = true.

Lemma choice_in {A} (g : A) gs i : default g ((g :: gs) !! i) ∈ g :: gs.
Proof. destruct ((g :: gs) !! i) as [x|] eqn:E; cbn [default]; [by eapply list_elem_of_lookup_2|by left]. Qed.

Lemma new_fetch_job_ok ref k p es r p' es' :
  es ⊆ run -> peers_ok p -> new_fetch_job sha512 cache_pk ref k p es = Ret r p' es' ->
  peers_ok p' /\ es' ⊆ es /\ (forall f, r = inr (Some f) -> fetch_ok ref k f) /\ (r = inr None -> (length (pl_blocks ref) <= k)%nat).
Proof.
  intros Hrun Hp. unfold new_fetch_job. destruct (Nat.leb_spec (length (pl_blocks ref)) k); [by intros [= <- <- <-]|].
  unfold choose_peer_for_block. destruct (wait_for_peers _ _ p es) as [[e|[]] p1 es1| |] eqn:Ew; [|..|done|done].
  { destruct (wait_ok _ _ _ _ _ Hrun Hp Ew) as [Hp1 Hes]. by intros [= <- <- <-]. }
  destruct (wait_ok _ _ _ _ _ Hrun Hp Ew) as [Hp1 Hes]. destruct (pl_blocks ref !! k) as [b|] eqn:Eb; [|by intros [= <- <- <-]].
  destruct (List.filter (has_block k b) (good_peers p1)) as [|g gs] eqn:Eg; [by intros [= <- <- <-]|].
  destruct es1 as [|[ev|inp|n] es2]; [done|done|done|].
  pose proof (choice_in g gs (n mod length (g :: gs))%nat) as Hin. revert Hin. generalize (default g ((g :: gs) !! (n mod length (g :: gs))%nat)) as x.
  intros x Hin [= <- <- <-]. split_and!; [done|set_solver| |done].
  intros f [= <-]. split; [done|]. exists b. split; [done|].
  rewrite <-Eg, list_elem_of_In in Hin. by apply filter_In in Hin as [_ ?].
Qed.

Lemma get_block_ok f es : forall p r p' es',
  es ⊆ run -> peers_ok p -> get_block sha512 cache_pk f p es = Ret r p' es' ->
  peers_ok p' /\ es' ⊆ es /\ exists inp, Answer inp ∈ es /\ r = inr (read_block sha512 (snd (snd f)) (fst f) inp).
Proof.
  induction es as [|x es IH]; intros p r p' es' Hrun Hp; cbn [get_block]; [done|]. destruct x as [ev|inp|n]; [|..|done].
  - destruct (peers_step sha512 cache_pk ev p) as [[p1|]|] eqn:E; [|done..]. intros Hg.
    destruct (IH _ _ _ _ (tail_run _ _ Hrun) (peers_step_ok _ _ _ (head_run _ _ Hrun) Hp E) Hg) as (? & Hs & inp & Hin & ->). split_and!; [done|set_solver|]. exists inp. split; [by right|done].
  - intros [= <- <- <-]. split_and!; [done|set_solver|]. exists inp. split; [by left|done].
Qed.

(** An answer that is a head and nothing else. *)
Definition bodyless (x : env) : Prop := exists h, x = Answer [inr (HeadPart h)].

Lemma read_block_spec l k inp b :
  read_block sha512 l k inp = Got b ->
  match b with
  | None => bodyless (Answer inp)
  | Some b => exists blk, pl_blocks l !! k = Some blk /\ sha512 (chunk_body b) = data_hash blk /\
                chunk_hdr_exts b = block_chunk_ext (Some (chained_hash_signature blk)) None
  end.
Proof.
  unfold read_block. destruct inp as [|[e|part] inp]; [done|done|]. destruct part as [h| | | |]; try done.
  destruct inp as [|[e|part] inp]; [intros [= <-]; by exists h|done|]. destruct part as [|size exts| | |]; try done.
  destruct (_ <? size); [done|]. destruct (read_data size inp) as [[d inp']| |]; [|done..].
  destruct (pl_blocks l !! k) as [blk|] eqn:Eb; [|done]. case_bool_decide as Hd; cbn [negb]; [|done].
  destruct (read_trailer None inp') as [t| |]; [|done..]. intros [= <-]. by exists blk.
Qed.

(** What fetching a block gives. *)
Definition fetched (ref : PeerList) (k : nat) (es : list env) (b : option PeerBlock) (pf : option (nat * (nat * PeerList))) : Prop :=
  (forall f, pf = Some f -> fetch_ok ref (S k) f) /\
  match b with
  | None => exists x, x ∈ es /\ bodyless x
  | Some b => exists blk, pl_blocks ref !! k = Some blk /\ sha512 (chunk_body b) = data_hash blk
  end.

Lemma fetch_loop_ok fuel : forall ref k f pf p es b pf' p' es',
  es ⊆ run -> peers_ok p -> fetch_ok ref k f -> (forall f, pf = Some f -> fetch_ok ref (S k) f) ->
  fetch_loop sha512 cache_pk fuel ref k f pf p es = Ret (inr (b, pf')) p' es' ->
  peers_ok p' /\ es' ⊆ es /\ fetched ref k es b pf'.
Proof.
  induction fuel as [|fuel IH]; intros ref k f pf p es b pf' p' es' Hrun Hp Hf Hpf; cbn [fetch_loop]; [done|].
  destruct (get_block sha512 cache_pk f p es) as [[e|r] p1 es1| |] eqn:Eg; [done| |done..].
  destruct (get_block_ok _ _ _ _ _ _ Hrun Hp Eg) as (Hp1 & Hes1 & inp & Hin & [= Hr]). destruct r as [b1|e|]; [| |done].
  - intros [= <- <- <- <-]. split_and!; [done|done|]. split; [done|]. symmetry in Hr. apply read_block_spec in Hr.
    destruct b1 as [b1|]; [|by exists (Answer inp)]. destruct Hf as (Hk & bk & Hbk & Hh). rewrite Hk in Hr. destruct Hr as (blk & Hblk & Hs & _).
    exists bk. split; [done|]. unfold has_block in Hh. rewrite Hblk in Hh. apply bool_decide_eq_true in Hh. congruence.
  - set (p2 := unmark_peer _ p1). assert (peers_ok p2) as Hp2.
    { unfold peers_ok, p2. cbn. apply Forall_forall. intros g Hg. rewrite list_elem_of_In in Hg. apply filter_In in Hg as [Hg _].
      rewrite <-list_elem_of_In in Hg. unfold peers_ok in Hp1. rewrite Forall_forall in Hp1. by apply Hp1. }
    destruct (new_fetch_job sha512 cache_pk ref k p2 es1) as [[e'|[f'|]] p3 es3| |] eqn:En; try done.
    destruct (new_fetch_job_ok _ _ _ _ _ _ _ (transitivity Hes1 Hrun) Hp2 En) as (Hp3 & Hes3 & Hf' & _). intros Hl.
    eapply IH in Hl; [|set_solver|done|by apply Hf'|].
    2: { intros f0. destruct pf as [pf|]; [|done]. case_bool_decide; [done|]. intros [= <-]. by apply Hpf. }
    destruct Hl as (? & Hs & Hfd & Hbd).
    split_and!; [done|set_solver|]. split; [done|]. destruct b as [b|]; [done|]. destruct Hbd as (x & Hx & ?). exists x. split; [set_solver|done].
Qed.

Lemma fetch_block_ok ref k pf p es b pf' p' es' :
  es ⊆ run -> peers_ok p -> (forall f, pf = Some f -> fetch_ok ref k f) -> fetch_block sha512 cache_pk ref k pf p es = Ret (inr (b, pf')) p' es' ->
  peers_ok p' /\ es' ⊆ es /\ fetched ref k es b pf'.
Proof.
  intros Hrun Hp Hpf. unfold fetch_block.
  assert (forall r p1 es1, match pf with Some f => Ret (inr (Some f)) p es | None => new_fetch_job sha512 cache_pk ref k p es end = Ret r p1 es1 ->
            peers_ok p1 /\ es1 ⊆ es /\ forall f, r = inr (Some f) -> fetch_ok ref k f) as Hstart.
  { intros r p1 es1. destruct pf as [f|].
    - intros [= <- <- <-]. split_and!; [done|done|]. intros f0 [= <-]. by apply Hpf.
    - intros En. destruct (new_fetch_job_ok _ _ _ _ _ _ _ Hrun Hp En) as (? & ? & ? & _). done. }
  destruct (match pf with Some _ => _ | None => _ end) as [[e|[f|]] p1 es1| |]; try done.
  destruct (Hstart _ _ _ eq_refl) as (Hp1 & Hes1 & Hf).
  destruct (new_fetch_job sha512 cache_pk ref (S k) p1 es1) as [[e|pf2] p2 es2| |] eqn:En; try done.
  destruct (new_fetch_job_ok _ _ _ _ _ _ _ (transitivity Hes1 Hrun) Hp1 En) as (Hp2 & Hes2 & Hf2 & _). intros Hl.
  eapply fetch_loop_ok in Hl; [|set_solver|done|by apply Hf|by intros f0 ->; apply Hf2]. destruct Hl as (? & Hs & Hfd & Hbd).
  split_and!; [done|set_solver|]. split; [done|]. destruct b as [b|]; [done|]. destruct Hbd as (x & Hx & ?). exists x. split; [set_solver|done].
Qed.

(** *** The reader *)

Definition pending_body (m : MultiPeerReader) : list (list byte) := match _next_chunk_body m with Some d => [d] | None => [] end.

(** All blocks were delivered, or a peer answered with a head and nothing else. *)
Definition at_last (l : PeerList) (ds : list (list byte)) : Prop :=
  length ds = length (pl_blocks l) \/ exists x, x ∈ run /\ bodyless x.

(** Of the blocks of [ref] the reader has delivered [ds]. *)
Record reader_ok (ref : PeerList) (ds : list (list byte)) (m : MultiPeerReader) : Prop := {
  ro_reference : _reference_hash_list m = Some ref;
  ro_head : _head_sent m = true;
  ro_blocks : first_blocks ref (ds ++ pending_body m);
  ro_pre_fetch : forall f, _pre_fetch m = Some f -> fetch_ok ref (_block_id m) f;
  ro_trailer : forall t, _next_trailer m = Some t -> _block_id m = length (pl_blocks ref);
  ro_bound : (_block_id m <= length (pl_blocks ref))%nat;
  ro_state : match _state m with
             | active => length (ds ++ pending_body m) = _block_id m
             | done_ => pending_body m = [] /\ at_last ref ds
             | closed => False
             end;
}.

Lemma first_blocks_snoc ref ds d b :
  first_blocks ref ds -> pl_blocks ref !! length ds = Some b -> sha512 d = data_hash b -> first_blocks ref (ds ++ [d]).
Proof.
  unfold first_blocks. intros Hds Hb Hd. rewrite map_app, Hds. cbn [map]. rewrite length_app. cbn [length]. rewrite Nat.add_1_r, Hd.
  symmetry. apply take_S_r. by rewrite list_lookup_fmap, Hb.
Qed.

Lemma first_blocks_prefix ref ds ds' : first_blocks ref (ds ++ ds') -> first_blocks ref ds.
Proof.
  unfold first_blocks. rewrite map_app, length_app. intros Hb. apply (f_equal (take (length ds))) in Hb.
  rewrite take_app_length' in Hb by by rewrite length_map. rewrite Hb, take_take. f_equal. lia.
Qed.

(** The body ends. *)
Lemma finish_ok ref ds m part m' :
  reader_ok ref ds m -> _state m = active -> pending_body m = [] -> at_last ref ds -> finish m = (part, m') ->
  match part with
  | Some part => part_body part = [] /\ reader_ok ref ds m'
  | None => True
  end.
Proof.
  intros [R1 R2 R3 R4 R5 R6 R7] Hs Hp Hl. unfold finish, mark_done. rewrite Hs. destruct (_last_chunk_hdr_sent (set_state done_ m)); intros [= <- <-]; [done|].
  split; [done|]. by split.
Qed.

Lemma take_block_ok ref ds m b pf part m' :
  reader_ok ref ds m -> _state m = active -> pending_body m = [] -> (_block_id m < length (pl_blocks ref))%nat ->
  fetched ref (_block_id m) run b pf -> take_block ref b pf m = (part, m') ->
  match part with
  | Some part => part_body part = [] /\ reader_ok ref ds m'
  | None => at_last ref ds
  end.
Proof.
  intros [R1 R2 R3 R4 R5 R6 R7] Hs Hp Hlt [Hf Hb]. rewrite Hs, Hp, app_nil_r in R7. rewrite Hp, app_nil_r in R3.
  unfold take_block. destruct b as [b|].
  - destruct Hb as (blk & Hblk & Hd). intros [= <- <-]. split; [done|]. split; cbn -[Nat.eqb].
    + done.
    + done.
    + apply (first_blocks_snoc _ _ _ blk); [done|by rewrite R7|done].
    + done.
    + intros t. destruct (length (pl_blocks ref)) as [|n] eqn:El; [lia|]. destruct (Nat.eqb_spec (_block_id m) n); [lia|]. intros Ht. apply R5 in Ht. lia.
    + lia.
    + rewrite Hs, length_app. cbn. lia.
  - unfold finish, mark_done. cbn. rewrite Hs. cbn. destruct (_last_chunk_hdr_sent m); intros [= <- <-]; [by right|].
    split; [done|]. split; cbn; [done|done|change (first_blocks ref (ds ++ pending_body m)); by rewrite Hp, app_nil_r|done| |lia|].
    + intros t Ht. apply R5 in Ht. lia.
    + split; [exact Hp|]. by right.
Qed.

(** What a read leaves behind it. *)
Definition read_ok (ref : PeerList) (ds : list (list byte)) (part : option Part) (m : MultiPeerReader) (p : Peers) (es : list env) : Prop :=
  peers_ok p /\ es ⊆ run /\
  match part with
  | Some part => reader_ok ref (ds ++ part_body part) m
  | None => at_last ref ds
  end.

Lemma fetched_more ref k es b pf : es ⊆ run -> fetched ref k es b pf -> fetched ref k run b pf.
Proof. intros Hes [? Hb]. split; [done|]. destruct b; [done|]. destruct Hb as (x & Hx & ?). exists x. split; [by apply Hes|done]. Qed.

Lemma read_impl_ref_ok ref ds m p es part m' p' es' :
  peers_ok p -> es ⊆ run -> reader_ok ref ds m -> _state m = active ->
  read_impl_ref sha512 cache_pk ref m p es = PartRead part m' p' es' -> read_ok ref ds part m' p' es'.
Proof.
  intros Hp Hes Hm Hs. pose proof Hm as [R1 R2 R3 R4 R5 R6 R7]. rewrite Hs in R7. unfold read_impl_ref, pending_body in *. rewrite R2. cbn [negb].
  destruct (_next_chunk_body m) as [d|] eqn:Ed.
  { intros [= <- <- <- <-]. split_and!; [done|done|]. split; cbn; [done|done|by rewrite app_nil_r|done|done|done|]. by rewrite Hs, app_nil_r. }
  rewrite app_nil_r in R3, R7. destruct (_next_trailer m) as [t|] eqn:Et.
  { pose proof (R5 t eq_refl) as Hk. destruct (_last_chunk_hdr_sent m); cbn [negb]; intros [= <- <- <- <-]; (split_and!; [done|done|]).
    - unfold mark_done. cbn. rewrite Hs. split; cbn; unfold pending_body; cbn; rewrite ?Ed, ?app_nil_r; [done|done|done|done|done|done|].
      split; [done|]. left. lia.
    - split; cbn; unfold pending_body; cbn; rewrite ?Ed, ?app_nil_r; [done|done|done|done|done|done|]. by rewrite Hs. }
  destruct (Nat.leb_spec (length (pl_blocks ref)) (_block_id m)) as [Hle|Hlt].
  - destruct (finish m) as [part1 m1] eqn:Ef. assert (at_last ref ds) as Hl by (left; lia).
    pose proof (finish_ok _ _ _ _ _ Hm Hs ltac:(unfold pending_body; by rewrite Ed) Hl Ef) as Hf. intros [= <- <- <- <-].
    split_and!; [done|done|]. destruct part1 as [part1|]; [|done]. destruct Hf as [-> Hf]. by rewrite app_nil_r.
  - destruct (fetch_block sha512 cache_pk ref (_block_id m) (_pre_fetch m) p es) as [[e|[b pf]] p1 es1| |] eqn:Ef; [done| |done..].
    destruct (fetch_block_ok _ _ _ _ _ _ _ _ _ Hes Hp R4 Ef) as (Hp1 & Hes1 & Hfd). apply (fetched_more _ _ _) in Hfd; [|done].
    destruct (take_block ref b pf m) as [part1 m1] eqn:Et1. intros [= <- <- <- <-].
    pose proof (take_block_ok _ _ _ _ _ _ _ Hm Hs ltac:(unfold pending_body; by rewrite Ed) Hlt Hfd Et1) as Hf.
    split_and!; [done|by transitivity es|]. destruct part1 as [part1|]; [|done]. destruct Hf as [-> Hf]. by rewrite app_nil_r.
Qed.

Lemma async_read_part_ok ref ds m p es part m' p' es' :
  peers_ok p -> es ⊆ run -> reader_ok ref ds m ->
  async_read_part sha512 cache_pk m p es = PartRead part m' p' es' -> read_ok ref ds part m' p' es'.
Proof.
  intros Hp Hes Hm. pose proof Hm as [R1 R2 R3 R4 R5 R6 R7]. unfold async_read_part. destruct (_state m) eqn:Hs.
  - unfold async_read_part_impl. rewrite R1. destruct (read_impl_ref _ _ ref m p es) as [part1 m1 p1 es1| | |] eqn:E; [|done..].
    apply (read_impl_ref_ok ref ds) in E; [|done..]. destruct part1 as [part1|]; intros [= <- <- <- <-]; [done|]. exact E.
  - intros [= <- <- <- <-]. by destruct R7.
  - done.
Qed.

Lemma read_parts_ok ref n : forall ds m p es parts e,
  peers_ok p -> es ⊆ run -> reader_ok ref ds m -> read_parts sha512 cache_pk n m p es = (parts, e) ->
  first_blocks ref (ds ++ bodies parts) /\ (e = Complete -> at_last ref (ds ++ bodies parts)).
Proof.
  induction n as [|n IH]; intros ds m p es parts e Hp Hes Hm; cbn [read_parts].
  all: pose proof (first_blocks_prefix _ _ _ (ro_blocks _ _ _ Hm)) as Hds.
  { intros [= <- <-]. cbn. by rewrite app_nil_r. }
  destruct (async_read_part _ _ m p es) as [part m1 p1 es1|e1| |] eqn:E; [|intros [= <- <-]; cbn; by rewrite app_nil_r..].
  destruct (async_read_part_ok _ _ _ _ _ _ _ _ _ Hp Hes Hm E) as (Hp1 & Hes1 & Hpart). destruct part as [part|].
  - destruct (read_parts _ _ n m1 p1 es1) as [parts1 e1] eqn:Er. intros [= <- <-].
    destruct (IH _ _ _ _ _ _ Hp1 Hes1 Hpart Er) as [Hb He]. change (part :: parts1) with ([part] ++ parts1).
    rewrite bodies_app, app_assoc. unfold bodies at 1 3. cbn [map concat]. by rewrite app_nil_r.
  - intros [= <- <-]. cbn. by rewrite app_nil_r.
Qed.

(** *** What was injected *)

Section Injected.
Hypothesis sha512_size : forall x, length (sha512 x) = Digest_size.

(** The digests of a list that verifies are those of the first blocks that were signed. *)
Lemma genuine_injected l honest :
  genuine l -> signed_only sha512 (pl_head l) honest ->
  no_clash sha512 (hashed_texts sha512 honest) (rchain_texts sha512 (rev (pl_blocks l))) ->
  exists rest, map sha512 (map fst honest) = map data_hash (pl_blocks l) ++ rest.
Proof.
  intros Hg (Hid & Hh & Hsigned) Hc. apply genuine_verified in Hg as [Hv Hb]. unfold HashList_verify in Hv. cbn [blocks hash_list_of block_size list_public_key injection_id] in Hv.
  destruct (decide (pl_blocks l = [])) as [N|N]; [by rewrite N in Hv|]. apply rev_cons_inv in N as (b & r & N). rewrite N, chain_blocks_rev in Hv.
  unfold ChainHash_verify in Hv. cbn [offset chain_digest chain_signature] in Hv. apply Hsigned, elem_of_strings in Hv as (h1 & c & h2 & -> & E).
  apply str_to_sign_inj in E as (_ & _ & E); [|done|done|apply rhasher_offset|apply hasher_after_offset].
  rewrite (app_assoc h1 [c] h2 : h1 ++ c :: h2 = _) in Hc, Hh |- *.
  rewrite chain_step_digest in E. symmetry in E. apply rchain_binds in E; [|done|..].
  2: { apply Forall_rev, Forall_fmap. eapply Forall_impl; [|intros x Hx; split; [apply sha512_size|exact Hx]]. by apply Forall_app in Hh as [Hh _]. }
  2: { rewrite N in Hb. apply Forall_rev in Hb. by rewrite rev_involutive in Hb. }
  2: rewrite map_app, rev_app_distr; done.
  2: done.
  2: { eapply no_clash_mono; [|rewrite <-(rev_involutive (b :: r)), <-N; done|exact Hc].
       etransitivity; [|apply hashed_texts_app]. by apply list_subseteq_app_r. }
  destruct E as [E _]. exists (map sha512 (map fst h2)). rewrite N, map_rev, <-E, map_rev, rev_involutive, !map_map, !map_app. done.
Qed.

Lemma first_blocks_injected l ds honest :
  genuine l -> signed_only sha512 (pl_head l) honest ->
  no_clash sha512 (hashed_texts sha512 honest) (rchain_texts sha512 (rev (pl_blocks l)) ++ ds) ->
  first_blocks l ds -> exists rest, map fst honest = ds ++ rest.
Proof.
  intros Hg Hs Hc Hf. destruct (genuine_injected l honest Hg Hs) as [rest Hr].
  { eapply no_clash_mono; [done| |exact Hc]. by apply list_subseteq_app_l. }
  assert (length ds <= length (map data_hash (pl_blocks l)))%nat as Hlen.
  { apply (f_equal length) in Hf. rewrite length_take, length_map in Hf. lia. }
  apply (f_equal (take (length ds))) in Hr. rewrite take_app_le in Hr by done. unfold first_blocks in Hf. rewrite <-Hf, firstn_map in Hr.
  apply map_no_clash in Hr.
  2: { eapply no_clash_mono; [..|exact Hc]; [|by apply list_subseteq_app_r].
       intros x Hx. apply elem_of_app. left. eapply subseteq_take, Hx. }
  exists (drop (length ds) (map fst honest)). rewrite <-Hr at 1. by rewrite take_drop.
Qed.

End Injected.
End Delivered.

(** ** What peers that answer right are good for *)

Section Complete.
Context `{SignatureScheme} `{Base64} `{TransferCoding}.
Variable sha512 : list byte -> list byte.
Variable cache_pk : list byte.

(** The data of a block in the parts of a stream. *)
Inductive pieces : list byte -> input -> Prop :=
| pieces_last d : pieces d [inr (ChunkBody d 0)]
| pieces_more d d' inp : d' <> [] -> pieces d' inp -> pieces (d ++ d') (inr (ChunkBody d (size_of d')) :: inp).

(** The response to a request for a block with the data [d]. *)
Inductive block_answer (d : list byte) (t : option fields) : input -> Prop :=
| answer_data h x y inp : d <> [] -> pieces d inp ->
    block_answer d t (inr (HeadPart h) :: inr (ChunkHdr (size_of d) x) :: inp ++ inr (ChunkHdr 0 y) :: match t with Some t => [inr (Trailer t)] | None => [] end)
| answer_empty h x : d = [] ->
    block_answer d t (inr (HeadPart h) :: inr (ChunkHdr 0 x) :: match t with Some t => [inr (Trailer t)] | None => [] end).

Lemma read_body_pieces d inp : pieces d inp -> forall acc rest, size_of acc + size_of d <= response_data_block_max ->
  read_body acc (inp ++ rest) = Got (acc ++ d, rest).
Proof.
  induction 1 as [d|d d' inp Hne _ IH]; intros acc rest Hmax; cbn [app read_body].
  - destruct (Z.ltb_spec response_data_block_max (size_of acc + size_of d)); [lia|]. done.
  - unfold size_of in *. rewrite length_app in Hmax.
    destruct (Z.ltb_spec response_data_block_max (Z.of_nat (length acc) + Z.of_nat (length d))); [lia|].
    destruct (Z.eqb_spec (Z.of_nat (length d')) 0) as [E0|_]; [destruct d'; [done|cbn in E0; lia]|].
    rewrite IH by (rewrite length_app; lia). by rewrite app_assoc.
Qed.

Lemma read_trailer_end (t : option fields) : read_trailer None (match t with Some t => [inr (Trailer t)] | None => [] end) = Got t.
Proof. by destruct t. Qed.

(** The block is accepted. *)
Lemma answer_accepted l k d t inp b :
  block_answer d t inp -> size_of d <= response_data_block_max -> pl_blocks l !! k = Some b -> sha512 d = data_hash b ->
  read_block sha512 l k inp = Got (Some {| chunk_body := d; chunk_hdr_exts := block_chunk_ext (Some (chained_hash_signature b)) None; block_trailer := t |}).
Proof.
  intros Ha Hmax Hb Hd. destruct Ha as [h x y inp Hne Hp|h x ->]; cbn [read_block].
  - destruct (Z.ltb_spec response_data_block_max (size_of d)); [lia|]. unfold read_data.
    destruct (Z.eqb_spec (size_of d) 0) as [E0|_]; [destruct d; [done|unfold size_of in E0; cbn in E0; lia]|].
    rewrite (read_body_pieces _ _ Hp) by (change (size_of []) with 0; lia). cbn [app]. change (0 =? 0) with true. cbn iota beta zeta.
    rewrite Hb, (bool_decide_true _ Hd). cbn [negb]. by rewrite read_trailer_end.
  - change (response_data_block_max <? 0) with false. cbn iota. unfold read_data. change (0 =? 0) with true. cbn iota beta zeta.
    rewrite Hb, (bool_decide_true _ Hd). cbn [negb]. by rewrite read_trailer_end.
Qed.

(** Every good peer has the list [ref]. *)
Definition all_have (ref : PeerList) (p : Peers) : Prop := good_peers p <> [] /\ Forall (fun g => snd g = ref) (good_peers p).

Lemma all_have_wait ref p es : all_have ref p -> wait_for_peers sha512 cache_pk p es = Ret (inr tt) p es.
Proof. intros [Hne _]. destruct es; cbn [wait_for_peers]; unfold has_enough_good_peers; by rewrite (bool_decide_false _ Hne). Qed.

Lemma best_list_all ref ps : Forall (fun g => snd g = ref) ps -> best_list (Some ref) ps = Some ref.
Proof.
  induction ps as [|[id l] ps IH]; intros Hps; cbn [best_list]; [done|]. apply Forall_cons in Hps as [Hl Hps]. cbn in Hl. subst l.
  destruct (more_recent_than _ _); by apply IH.
Qed.

Lemma all_have_reference ref p es : all_have ref p -> choose_reference_hash_list sha512 cache_pk p es = Ret (inr ref) p es.
Proof.
  intros Hp. unfold choose_reference_hash_list. rewrite (all_have_wait ref) by done. destruct Hp as [Hne Hall].
  destruct (good_peers p) as [|[id l] ps]; [done|]. apply Forall_cons in Hall as [Hl Hps]. cbn in Hl. subst l. cbn [best_list].
  by rewrite best_list_all.
Qed.

Lemma all_have_job ref k p es c b :
  all_have ref p -> pl_blocks ref !! k = Some b ->
  exists id, new_fetch_job sha512 cache_pk ref k p (Choice c :: es) = Ret (inr (Some (k, (id, ref)))) p es.
Proof.
  intros Hp Hb. unfold new_fetch_job. destruct (Nat.leb_spec (length (pl_blocks ref)) k) as [Hle|_]; [apply lookup_lt_Some in Hb; lia|].
  unfold choose_peer_for_block. rewrite (all_have_wait ref) by done. rewrite Hb. destruct Hp as [Hne Hall].
  assert (List.filter (has_block k b) (good_peers p) = good_peers p) as ->.
  { clear Hne. induction Hall as [|[id l] ps Hl Hps IH]; [done|]. cbn in Hl. subst l. cbn. unfold has_block at 1. cbn [snd].
    rewrite Hb, bool_decide_true by done. by rewrite IH. }
  destruct (good_peers p) as [|g gs] eqn:Eg; [done|]. pose proof (choice_in g gs (c mod length (g :: gs))%nat) as Hin.
  rewrite Forall_forall in Hall. apply Hall in Hin. revert Hin. generalize (default g ((g :: gs) !! (c mod length (g :: gs))%nat)) as x.
  intros [id l] Hl. cbn in Hl. subst l. by exists id.
Qed.

(** What happens while the blocks are fetched: a peer is chosen for the next block, then the answer for this one comes. *)
Fixpoint script (choice : nat -> nat) (k : nat) (answers : list input) : list env :=
  match answers with
  | [] => []
  | [a] => [Answer a]
  | a :: answers' => Choice (choice (S k)) :: Answer a :: script choice (S k) answers'
  end.

(** What is delivered of the blocks with the data and signatures [l]. *)
Fixpoint whole_body (ext : list byte) (l : list (list byte * list byte)) (t : option fields) : list Part :=
  match l with
  | [] => ChunkHdr 0 ext :: match t with Some t => [Trailer t] | None => [] end
  | (d, sig) :: l' => ChunkHdr (size_of d) ext :: ChunkBody d 0 :: whole_body (block_chunk_ext (Some sig) None) l' t
  end.

(** The data of the blocks that are still to come, and the answers. *)
Inductive answered (ref : PeerList) : nat -> list (list byte * list byte) -> option fields -> list input -> Prop :=
| answered_last k d t a b :
    pl_blocks ref !! k = Some b -> S k = length (pl_blocks ref) -> sha512 d = data_hash b -> size_of d <= response_data_block_max ->
    block_answer d t a -> answered ref k [(d, chained_hash_signature b)] t [a]
| answered_more k d t t' a b l as_ :
    pl_blocks ref !! k = Some b -> sha512 d = data_hash b -> size_of d <= response_data_block_max -> block_answer d t' a ->
    answered ref (S k) l t as_ -> answered ref k ((d, chained_hash_signature b) :: l) t (a :: as_).

Lemma answered_nonempty ref k l t as_ : answered ref k l t as_ -> exists a as', as_ = a :: as'.
Proof. destruct 1; eauto. Qed.

Lemma answered_lookup ref k l t as_ : answered ref k l t as_ -> exists b, pl_blocks ref !! k = Some b.
Proof. destruct 1; eauto. Qed.

(** The reader is about to get block [k]; the job for it is there already, or a peer is to be chosen for it. *)
Definition reading_at (ref : PeerList) (k : nat) (ext : list byte) (pf : option (nat * (nat * PeerList))) : MultiPeerReader :=
  {| _state := active; _reference_hash_list := Some ref; _head_sent := true; _block_id := k; _next_chunk_hdr_ext := ext; _next_chunk_body := None;
     _next_trailer := None; _last_chunk_hdr_sent := false; _pre_fetch := pf |}.

Lemma fetch_answer fuel ref k id pf p a es b :
  read_block sha512 ref k a = Got (Some b) ->
  fetch_loop sha512 cache_pk (S fuel) ref k (k, (id, ref)) pf p (Answer a :: es) = Ret (inr (Some b, pf)) p es.
Proof. intros Hr. cbn [fetch_loop get_block fst snd]. by rewrite Hr. Qed.

(** The header of a block, which leaves its data to be read. *)
Lemma header_read ref k ext f p es b pf p' es' :
  (k < length (pl_blocks ref))%nat -> fetch_block sha512 cache_pk ref k (Some f) p es = Ret (inr (Some b, pf)) p' es' ->
  async_read_part sha512 cache_pk (reading_at ref k ext (Some f)) p es =
  PartRead (Some (ChunkHdr (size_of (chunk_body b)) ext))
    {| _state := active; _reference_hash_list := Some ref; _head_sent := true; _block_id := S k; _next_chunk_hdr_ext := chunk_hdr_exts b;
       _next_chunk_body := Some (chunk_body b); _next_trailer := if (S k =? length (pl_blocks ref))%nat then block_trailer b else None;
       _last_chunk_hdr_sent := false; _pre_fetch := pf |} p' es'.
Proof.
  intros Hk Hf. unfold async_read_part. cbn [_state reading_at async_read_part_impl _reference_hash_list]. unfold read_impl_ref.
  cbn [_head_sent negb _next_chunk_body _next_trailer _block_id _pre_fetch reading_at].
  destruct (Nat.leb_spec (length (pl_blocks ref)) k); [lia|]. fold (reading_at ref k ext (Some f)). by rewrite Hf.
Qed.

(** Every block is delivered. *)
Lemma answered_delivered ref choice k l t as_ : answered ref k l t as_ -> forall n p ext id,
  all_have ref p -> (2 * length l + 3 <= n)%nat ->
  read_parts sha512 cache_pk n (reading_at ref k ext (Some (k, (id, ref)))) p (script choice k as_) = (whole_body ext l t, Complete).
Proof.
  induction 1 as [k d t a b Hb Hk Hd Hmax Ha|k d t t' a b l as_ Hb Hd Hmax Ha Hl IH]; intros n p ext id Hp Hn; cbn [length] in Hn.
  - pose proof (answer_accepted ref k d t a b Ha Hmax Hb Hd) as Hr. destruct n as [|[|[|[|[|n]]]]]; [lia..|].
    cbn [script read_parts]. erewrite header_read; [|lia|].
    2: { unfold fetch_block, new_fetch_job. destruct (Nat.leb_spec (length (pl_blocks ref)) (S k)); [|lia]. by rewrite (fetch_answer _ _ _ _ _ _ _ _ _ Hr). }
    cbn [chunk_body chunk_hdr_exts block_trailer]. rewrite Hk, Nat.eqb_refl.
    destruct t as [t|]; cbn -[size_of block_chunk_ext Nat.leb]; rewrite ?Nat.leb_refl; done.
  - pose proof (answer_accepted ref k d t' a b Ha Hmax Hb Hd) as Hr. destruct (answered_nonempty _ _ _ _ _ Hl) as (a2 & as2 & Eas).
    destruct (answered_lookup _ _ _ _ _ Hl) as (b2 & Hb2). assert (S k < length (pl_blocks ref))%nat as Hlt by by apply lookup_lt_Some in Hb2.
    destruct n as [|[|n]]; [lia..|]. assert (script choice k (a :: as_) = Choice (choice (S k)) :: Answer a :: script choice (S k) as_) as -> by by rewrite Eas.
    destruct (all_have_job ref (S k) p (Answer a :: script choice (S k) as_) (choice (S k)) b2 Hp Hb2) as [id2 Ej].
    cbn [read_parts]. erewrite header_read; [|lia|]. 2: { unfold fetch_block. rewrite Ej. by rewrite (fetch_answer _ _ _ _ _ _ _ _ _ Hr). }
    cbn [chunk_body chunk_hdr_exts block_trailer]. destruct (Nat.eqb_spec (S k) (length (pl_blocks ref))); [lia|].
    change (async_read_part _ _ _ p (script choice (S k) as_)) with
      (PartRead (Some (ChunkBody d 0)) (reading_at ref (S k) (block_chunk_ext (Some (chained_hash_signature b)) None) (Some (S k, (id2, ref)))) p (script choice (S k) as_)).
    cbn iota beta. rewrite IH by (done || lia). done.
Qed.

Lemma read_parts_step n m p es part m' p' es' parts e :
  async_read_part sha512 cache_pk m p es = PartRead (Some part) m' p' es' -> read_parts sha512 cache_pk n m' p' es' = (parts, e) ->
  read_parts sha512 cache_pk (S n) m p es = (part :: parts, e).
Proof. intros Hr Hp. cbn [read_parts]. by rewrite Hr, Hp. Qed.

(** Without a job for the first block a peer is chosen for it first. *)
Lemma first_job ref ext p c es b :
  all_have ref p -> pl_blocks ref !! 0%nat = Some b ->
  exists id, async_read_part sha512 cache_pk (reading_at ref 0 ext None) p (Choice c :: es) =
             async_read_part sha512 cache_pk (reading_at ref 0 ext (Some (0%nat, (id, ref)))) p es.
Proof.
  intros Hp Hb. destruct (all_have_job ref 0 p es c b Hp Hb) as [id Ej]. exists id.
  unfold async_read_part. cbn [_state reading_at async_read_part_impl _reference_hash_list]. unfold read_impl_ref.
  cbn [_head_sent negb _next_chunk_body _next_trailer _block_id _pre_fetch reading_at].
  destruct (Nat.leb_spec (length (pl_blocks ref)) 0) as [Hle|_]; [apply lookup_lt_Some in Hb; lia|]. unfold fetch_block. rewrite Ej. done.
Qed.

(** *** Wrong answers *)

(** The number of good peers with the data of the block [k] of [ref]. *)
Definition holders (ref : PeerList) (k : nat) (p : Peers) : nat :=
  match pl_blocks ref !! k with
  | Some b => length (List.filter (has_block k b) (good_peers p))
  | None => 0
  end.

(** A peer is in one of the lists, once. *)
Record ids_unique (p : Peers) : Prop := {
  iu_good : NoDup (map fst (good_peers p));
  iu_candidates : NoDup (candidate_peers p);
  iu_apart : forall id, id ∈ map fst (good_peers p) -> id ∈ all_peers p /\ id ∉ candidate_peers p;
  iu_known : forall id, id ∈ candidate_peers p -> id ∈ all_peers p;
}.

Definition answers (es : list env) : nat := length (List.filter (fun x => match x with Answer _ => true | _ => false end) es).

Lemma not_in_filter id x (l : list nat) : x ∈ List.filter (fun c => negb (bool_decide (c = id))) l <-> x ∈ l /\ x <> id.
Proof. rewrite !list_elem_of_In, filter_In, negb_true_iff, bool_decide_eq_false. done. Qed.

Lemma add_candidate_unique p id : ids_unique p -> ids_unique (add_candidate p id).
Proof.
  intros [R1 R2 R3 R4]. unfold add_candidate. case_bool_decide as Hid; [done|]. split; cbn.
  - done.
  - apply NoDup_app. split_and!; [done| |apply NoDup_singleton]. intros x Hx ->%list_elem_of_singleton. by apply R4 in Hx.
  - intros x Hx. destruct (R3 x Hx) as [Ha Hc]. split; [by right|]. rewrite elem_of_app, list_elem_of_singleton. intros [?| ->]; [by apply Hc|by apply Hid].
  - intros x. rewrite elem_of_app, list_elem_of_singleton. intros [Hx| ->]; [right; by apply R4|by left].
Qed.

Lemma add_candidates_unique ids : forall p, ids_unique p -> ids_unique (foldl add_candidate p ids).
Proof. induction ids as [|id ids IH]; intros p Hp; cbn [foldl]; [done|]. by apply IH, add_candidate_unique. Qed.

Lemma not_candidate_unique id p : ids_unique p -> ids_unique (not_candidate id p).
Proof.
  intros [R1 R2 R3 R4]. split; cbn; [done|by apply NoDup_ListNoDup, List.NoDup_filter, NoDup_ListNoDup| |].
  - intros x Hx. destruct (R3 x Hx). split; [done|]. rewrite not_in_filter. tauto.
  - intros x [Hx _]%not_in_filter. by apply R4.
Qed.

(** What happens outside takes no good peer away. *)
Lemma peers_step_unique ev p p' :
  ids_unique p -> peers_step sha512 cache_pk ev p = Some (Some p') -> ids_unique p' /\ exists new, good_peers p' = good_peers p ++ new.
Proof.
  intros Hp. pose proof (not_candidate_unique) as Hn. destruct ev as [id|ids|id inp|id|id]; cbn [peers_step].
  - intros [= <-]. split; [by apply add_candidate_unique|]. exists []. by rewrite add_candidate_good, app_nil_r.
  - intros [= <-]. pose proof (add_candidates_unique ids p Hp) as [R1 R2 R3 R4]. split; [by split|]. exists []. cbn. by rewrite add_candidates_good, app_nil_r.
  - case_bool_decide as Hid; [|done]. cbn [negb]. destruct (HashList_load sha512 cache_pk inp) as [l|e|]; [| |done].
    2: { intros [= <-]. split; [by apply Hn|]. exists []. by rewrite app_nil_r. }
    destruct (http_proto_version_check_trusted _ _) as [[ok newest]|]; [|done]. intros [= <-]. destruct (Hn id p Hp) as [R1 R2 R3 R4].
    destruct ok; [|split; [by split|]; exists []; cbn; by rewrite app_nil_r]. split; [|by exists [(id, l)]]. split; cbn.
    + rewrite map_app. apply NoDup_app. split_and!; [done| |apply NoDup_singleton]. intros x Hx ->%list_elem_of_singleton.
      by destruct (iu_apart _ Hp _ Hx).
    + done.
    + intros x. rewrite map_app, elem_of_app. intros [Hx|Hx]; [by apply R3|]. apply list_elem_of_singleton in Hx as ->. split; [by apply iu_known|].
      rewrite not_in_filter. by intros [_ ?].
    + done.
  - destruct (negb _); [done|]. intros [= <-]. split; [by apply Hn|]. exists []. by rewrite app_nil_r.
  - destruct (negb _); [done|]. intros [= <-]. destruct (Hn id p Hp) as [R1 R2 R3 R4]. split; [by split|]. exists []. by rewrite app_nil_r.
Qed.

Lemma holders_grow ref k p p' new : good_peers p' = good_peers p ++ new -> (holders ref k p <= holders ref k p')%nat.
Proof. intros E. unfold holders. destruct (pl_blocks ref !! k); [|done]. rewrite E, List.filter_app, length_app. lia. Qed.

Lemma wait_holders es : forall p r p' es',
  ids_unique p -> wait_for_peers sha512 cache_pk p es = Ret r p' es' ->
  ids_unique p' /\ answers es' = answers es /\ (forall ref k, holders ref k p <= holders ref k p')%nat /\
  (forall e, r = inl e -> e = no_peers /\ good_peers p' = []).
Proof.
  induction es as [|x es IH]; intros p r p' es' Hp; cbn [wait_for_peers];
    (destruct (has_enough_good_peers p) eqn:Eg; [intros [= <- <- <-]; by split_and!|]; destruct (negb _);
      [intros [= <- <- <-]; split_and!; [done..|]; intros e [= <-]; unfold has_enough_good_peers in Eg;
        apply negb_false_iff, bool_decide_eq_true in Eg; done|]); [done|].
  destruct x as [ev| |]; [|done..]. destruct (peers_step sha512 cache_pk ev p) as [[p1|]|] eqn:E; [|done..].
  intros Hw. destruct (peers_step_unique _ _ _ Hp E) as [Hp1 [new Hnew]]. destruct (IH _ _ _ _ Hp1 Hw) as (? & Ha & Hh & ?).
  split_and!; [done|by rewrite Ha| |done]. intros ref k. etrans; [by eapply holders_grow|apply Hh].
Qed.

(** No peer is found for a block only if no good peer has it. *)
Lemma job_holders ref k p es r p' es' :
  ids_unique p -> new_fetch_job sha512 cache_pk ref k p es = Ret r p' es' ->
  ids_unique p' /\ answers es' = answers es /\ (forall k, holders ref k p <= holders ref k p')%nat /\
  (forall e, r = inl e -> e = no_peers /\ (k < length (pl_blocks ref))%nat /\ holders ref k p' = 0%nat).
Proof.
  intros Hp. unfold new_fetch_job. destruct (Nat.leb_spec (length (pl_blocks ref)) k); [intros [= <- <- <-]; by split_and!|].
  unfold choose_peer_for_block. destruct (wait_for_peers _ _ p es) as [[e|[]] p1 es1| |] eqn:Ew; [| |done|done].
  all: destruct (wait_holders _ _ _ _ _ Hp Ew) as (Hp1 & Ha & Hh & He).
  - intros [= <- <- <-]. split_and!; [done|done|intros k'; apply Hh|]. intros e' [= <-]. destruct (He e eq_refl) as [-> Hg]. split_and!; [done|done|].
    unfold holders. rewrite Hg. by destruct (pl_blocks ref !! k).
  - destruct (pl_blocks ref !! k) as [b|] eqn:Eb.
    2: { apply lookup_ge_None in Eb. lia. }
    destruct (List.filter (has_block k b) (good_peers p1)) as [|g gs] eqn:Eg.
    + intros [= <- <- <-]. split_and!; [done|done|intros k'; apply Hh|]. intros e' [= <-]. split_and!; [done|done|]. unfold holders. by rewrite Eb, Eg.
    + destruct es1 as [|[ev|inp|n] es2]; [done|done|done|]. intros [= <- <- <-]. split_and!; [done|by rewrite <-Ha|intros k'; apply Hh|done].
Qed.

Lemma get_block_holders f es : forall p r p' es',
  ids_unique p -> get_block sha512 cache_pk f p es = Ret r p' es' ->
  ids_unique p' /\ answers es = S (answers es') /\ (forall ref k, holders ref k p <= holders ref k p')%nat /\ (forall e, r <> inl e).
Proof.
  induction es as [|x es IH]; intros p r p' es' Hp; cbn [get_block]; [done|]. destruct x as [ev|inp|n]; [|..|done].
  - destruct (peers_step sha512 cache_pk ev p) as [[p1|]|] eqn:E; [|done..]. intros Hg.
    destruct (peers_step_unique _ _ _ Hp E) as [Hp1 [new Hnew]]. destruct (IH _ _ _ _ Hp1 Hg) as (? & Ha & Hh & ?).
    split_and!; [done|by rewrite <-Ha| |done]. intros ref k. etrans; [by eapply holders_grow|apply Hh].
  - intros [= <- <- <-]. by split_and!.
Qed.

Lemma filter_fst_unique (P : nat * PeerList -> bool) id l :
  NoDup (map fst l) -> (length (List.filter P l) <= S (length (List.filter P (List.filter (fun g => negb (bool_decide (fst g = id))) l))))%nat.
Proof.
  induction l as [|[i x] l IH]; intros Hl; cbn; [lia|]. cbn in Hl. apply NoDup_cons in Hl as [Hi Hl].
  case_bool_decide as Hii; cbn [negb].
  - cbn in Hii. subst i. assert (List.filter (fun g => negb (bool_decide (fst g = id))) l = l) as ->.
    { clear -Hi. induction l as [|[j y] l IH]; [done|]. cbn in *. rewrite bool_decide_false by (intros ->; apply Hi; by left). cbn [negb].
      rewrite IH; [done|]. intros ?. apply Hi. by right. }
    destruct (P (id, x)); cbn; lia.
  - cbn. specialize (IH Hl). destruct (P (i, x)); cbn; lia.
Qed.

(** A wrong answer costs one peer. *)
Lemma unmark_holders id p : ids_unique p -> ids_unique (unmark_peer id p) /\ forall ref k, (holders ref k p <= S (holders ref k (unmark_peer id p)))%nat.
Proof.
  intros [R1 R2 R3 R4]. split.
  - split; cbn.
    + clear -R1. induction (good_peers p) as [|[i x] l IH]; cbn in *; [constructor|]. apply NoDup_cons in R1 as [Hi Hl]. destruct (negb _); [|by apply IH].
      cbn. apply NoDup_cons. split; [|by apply IH]. intros Hin. apply Hi. rewrite list_elem_of_In, in_map_iff in Hin |- *.
      destruct Hin as (g & Hg & [Hin _]%filter_In). by exists g.
    + done.
    + intros x Hx. apply R3. rewrite list_elem_of_In, in_map_iff in Hx |- *. destruct Hx as (g & Hg & [Hin _]%filter_In). by exists g.
    + done.
  - intros ref k. unfold holders. destruct (pl_blocks ref !! k) as [b|]; [|lia]. by apply filter_fst_unique.
Qed.

Lemma fetch_loop_holders fuel : forall ref k f pf p es e p' es',
  ids_unique p -> fetch_loop sha512 cache_pk fuel ref k f pf p es = Ret (inl e) p' es' ->
  e = no_peers /\ (holders ref k p + answers es' <= answers es)%nat.
Proof.
  induction fuel as [|fuel IH]; intros ref k f pf p es e p' es' Hp; cbn [fetch_loop]; [done|].
  destruct (get_block sha512 cache_pk f p es) as [[e1|r] p1 es1| |] eqn:Eg; [| |done..].
  { destruct (get_block_holders _ _ _ _ _ _ Hp Eg) as (_ & _ & _ & Hne). by destruct (Hne e1). }
  destruct (get_block_holders _ _ _ _ _ _ Hp Eg) as (Hp1 & Ha1 & Hh1 & _). destruct r as [b1|e1|]; [done| |done].
  destruct (unmark_holders (fst (snd f)) p1 Hp1) as [Hp2 Hh2]. specialize (Hh1 ref k). specialize (Hh2 ref k).
  destruct (new_fetch_job sha512 cache_pk ref k _ es1) as [[e'|[f'|]] p3 es3| |] eqn:En; try done.
  - intros [= <- <- <-]. destruct (job_holders _ _ _ _ _ _ _ Hp2 En) as (_ & Ha3 & Hh3 & He). destruct (He e' eq_refl) as (-> & _ & Hz). specialize (Hh3 k).
    split; [done|]. lia.
  - destruct (job_holders _ _ _ _ _ _ _ Hp2 En) as (Hp3 & Ha3 & Hh3 & _). specialize (Hh3 k). intros Hl. apply IH in Hl as [-> Hl]; [|done]. split; [done|]. lia.
Qed.

(** *** The fuel of the loop is enough *)

Lemma wait_shorter es : forall p r p' es', wait_for_peers sha512 cache_pk p es = Ret r p' es' -> (length es' <= length es)%nat.
Proof.
  induction es as [|x es IH]; intros p r p' es'; cbn [wait_for_peers];
    (destruct (has_enough_good_peers p); [intros [= <- <- <-]; done|]; destruct (negb _); [intros [= <- <- <-]; done|]); [done|].
  destruct x as [ev| |]; [|done..]. destruct (peers_step sha512 cache_pk ev p) as [[p1|]|]; [|done..]. intros Hw%IH. cbn. lia.
Qed.

Lemma job_shorter ref k p es r p' es' : new_fetch_job sha512 cache_pk ref k p es = Ret r p' es' -> (length es' <= length es)%nat.
Proof.
  unfold new_fetch_job, choose_peer_for_block. destruct (_ <=? k)%nat; [by intros [= <- <- <-]|].
  destruct (wait_for_peers _ _ p es) as [[e|[]] p1 es1| |] eqn:Ew; [| |done|done]; apply wait_shorter in Ew; [by intros [= <- <- <-]|].
  destruct (pl_blocks ref !! k) as [b|]; [|by intros [= <- <- <-]]. destruct (List.filter _ _); [by intros [= <- <- <-]|].
  destruct es1 as [|[ev|inp|n] es2]; [done|done|done|]. intros [= <- <- <-]. cbn in Ew. lia.
Qed.

Lemma get_block_shorter f es : forall p r p' es', get_block sha512 cache_pk f p es = Ret r p' es' -> (length es' < length es)%nat.
Proof.
  induction es as [|x es IH]; intros p r p' es'; cbn [get_block]; [done|]. destruct x as [ev|inp|n]; [| |done].
  - destruct (peers_step sha512 cache_pk ev p) as [[p1|]|]; [|done..]. intros Hg%IH. cbn. lia.
  - intros [= <- <- <-]. cbn. lia.
Qed.

(** Every turn of the loop takes an answer: more fuel than there are inputs changes nothing. *)
Lemma fetch_loop_fuel fuel : forall more ref k f pf p es, (length es < fuel)%nat ->
  fetch_loop sha512 cache_pk (fuel + more) ref k f pf p es = fetch_loop sha512 cache_pk fuel ref k f pf p es.
Proof.
  induction fuel as [|fuel IH]; intros more ref k f pf p es Hf; [lia|]. cbn [fetch_loop Nat.add].
  destruct (get_block sha512 cache_pk f p es) as [[e|r] p1 es1| |] eqn:Eg; [done| |done..]. apply get_block_shorter in Eg. destruct r; [done| |done].
  destruct (new_fetch_job sha512 cache_pk ref k _ es1) as [[e'|[f'|]] p3 es3| |] eqn:En; try done. apply job_shorter in En. apply IH. lia.
Qed.

(** *** Peers that do not answer *)

Lemma add_candidates_timed_out ids : forall p, timed_out (foldl add_candidate p ids) = timed_out p.
Proof. induction ids as [|id ids IH]; intros p; cbn [foldl]; [done|]. rewrite IH. unfold add_candidate. by case_bool_decide. Qed.

Lemma peers_step_timed_out ev p p' : peers_step sha512 cache_pk ev p = Some (Some p') -> (timed_out p <= timed_out p')%nat.
Proof.
  destruct ev as [id|ids|id inp|id|id]; cbn [peers_step].
  - intros [= <-]. unfold add_candidate. by case_bool_decide.
  - intros [= <-]. cbn. by rewrite add_candidates_timed_out.
  - destruct (negb _); [done|]. destruct (HashList_load sha512 cache_pk inp) as [l|e|]; [|by intros [= <-]|done].
    destruct (http_proto_version_check_trusted _ _) as [[ok newest]|]; [|done]. by intros [= <-].
  - destruct (negb _); [done|]. by intros [= <-].
  - destruct (negb _); [done|]. intros [= <-]. cbn. lia.
Qed.

(** The wait never ends without a peer. *)
Lemma wait_timed_out es : forall p e p' es', (0 < timed_out p)%nat -> wait_for_peers sha512 cache_pk p es <> Ret (inl e) p' es'.
Proof.
  induction es as [|x es IH]; intros p e p' es' Ht; cbn [wait_for_peers];
    (destruct (has_enough_good_peers p); [done|]; assert (still_waiting_for_candidates p = true) as -> by
      (unfold still_waiting_for_candidates; apply orb_true_iff; right; by apply Nat.ltb_lt)); cbn [negb]; [done|].
  destruct x as [ev| |]; [|done..]. destruct (peers_step sha512 cache_pk ev p) as [[p1|]|] eqn:E; [|done..].
  apply IH. apply peers_step_timed_out in E. lia.
Qed.

Lemma wait_got_peer es : forall p p' es', wait_for_peers sha512 cache_pk p es = Ret (inr tt) p' es' -> good_peers p' <> [].
Proof.
  induction es as [|x es IH]; intros p p' es'; cbn [wait_for_peers];
    (destruct (has_enough_good_peers p) eqn:Eg; [intros [= <- <-]; unfold has_enough_good_peers in Eg; by apply negb_true_iff, bool_decide_eq_false in Eg|];
     destruct (negb _); [done|]); [done|].
  destruct x as [ev| |]; [|done..]. destruct (peers_step sha512 cache_pk ev p) as [[p1|]|]; [|done..]. apply IH.
Qed.

Lemma best_list_some ps : forall b, exists l, best_list (Some b) ps = Some l.
Proof. induction ps as [|[id l] ps IH]; intros b; cbn [best_list]; [by exists b|]. destruct (more_recent_than _ _); apply IH. Qed.

End Complete.

(** ** Theorems *)

Section Theorems.
Context `{SignatureScheme} `{Base64} `{TransferCoding}.
Variable sha512 : list byte -> list byte.
Variable cache_pk : list byte.

(** C4: whatever peers there are and whatever they answer, and in any order: what the reader delivers is nothing, or the head of
    a hash list that verified, and behind it data that is a beginning of the body that was injected with that head, block by block, if the key of the injector has signed nothing
    else for that injection and the hash tells the texts hashed for what was injected from those hashed for that list and for the blocks delivered; and unless a peer answered a request for a block with a head and no body, the end of the response is
    reported only behind the last block of that list. *)
Theorem multi_peer_body (n : nat) (lookup : bool) (es : list env) (injected : SignedHead -> list (list byte * list byte)) (parts : list Part) (e : ending) :
  (forall x, length (sha512 x) = Digest_size) ->
  (forall l, genuine sha512 cache_pk es l -> signed_only sha512 (pl_head l) (injected (pl_head l))) ->
  (forall l, genuine sha512 cache_pk es l ->
     no_clash sha512 (hashed_texts sha512 (injected (pl_head l))) (rchain_texts sha512 (rev (pl_blocks l)) ++ bodies parts)) ->
  read_parts sha512 cache_pk n new_reader (no_peers_yet lookup) es = (parts, e) ->
  (parts = [] /\ e <> Complete) \/
  exists ref body rest, genuine sha512 cache_pk es ref /\ parts = HeadPart (sh_head (pl_head ref)) :: body /\
    map fst (injected (pl_head ref)) = bodies body ++ rest /\
    (e = Complete -> Forall (fun x => ~ bodyless x) es -> length (bodies body) = length (pl_blocks ref)).
Proof.
  intros Hsize Hsigned Hclash. destruct n as [|n]; cbn [read_parts].
  { intros [= <- <-]. by left. }
  unfold async_read_part, async_read_part_impl. cbn [_state _reference_hash_list new_reader].
  destruct (choose_reference_hash_list _ _ (no_peers_yet lookup) es) as [[e1|ref] p1 es1| |] eqn:Er; [intros [= <- <-]; by left| |intros [= <- <-]; by left..].
  apply (reference_ok _ _ es) in Er as (Hg & Hp1 & Hes1); [|done|by constructor]. unfold read_impl_ref. cbn [_head_sent with_reference new_reader negb].
  destruct (read_parts _ _ n _ p1 es1) as [body e1] eqn:E. intros [= <- <-].
  apply (read_parts_ok _ _ es ref n []) in E; [|done|done|].
  2: { split; cbn; try done; lia. }
  cbn [app] in E. destruct E as [Hf Hl]. destruct (first_blocks_injected sha512 cache_pk es Hsize ref (bodies body) _ Hg (Hsigned _ Hg) (Hclash _ Hg) Hf) as [rest Hr].
  right. exists ref, body, rest. split_and!; [done|done|done|]. intros He Hb. destruct (Hl He) as [?|(x & Hx & Hbx)]; [done|].
  rewrite Forall_forall in Hb. by destruct (Hb x Hx).
Qed.

(** a block is given up with [no_peers] only behind at least one answer for every good peer that has it, so after each of
    them has answered wrong; or because no good peer has the block behind it, for which a peer is chosen ahead. *)
Theorem block_given_up (ref : PeerList) (k : nat) (pre_fetch : option (nat * (nat * PeerList))) (p p' : Peers) (es es' : list env) (e : merr) :
  ids_unique p -> fetch_block sha512 cache_pk ref k pre_fetch p es = Ret (inl e) p' es' ->
  e = no_peers /\ ((holders ref k p + answers es' <= answers es)%nat \/ ((S k < length (pl_blocks ref))%nat /\ holders ref (S k) p = 0%nat)).
Proof.
  intros Hp. unfold fetch_block.
  assert (forall r p1 es1, match pre_fetch with Some f => Ret (inr (Some f)) p es | None => new_fetch_job sha512 cache_pk ref k p es end = Ret r p1 es1 ->
    ids_unique p1 /\ answers es1 = answers es /\ (forall k, holders ref k p <= holders ref k p1)%nat /\ (forall e, r = inl e -> e = no_peers /\ holders ref k p1 = 0%nat)) as Hstart.
  { intros r p1 es1. destruct pre_fetch as [f|]; [intros [= <- <- <-]; by split_and!|]. intros En.
    destruct (job_holders _ _ _ _ _ _ _ _ _ Hp En) as (? & ? & ? & He). split_and!; [done..|]. intros e' Hr. by destruct (He e' Hr) as (? & _ & ?). }
  destruct (match pre_fetch with Some _ => _ | None => _ end) as [[e1|[f|]] p1 es1| |]; try done; destruct (Hstart _ _ _ eq_refl) as (Hp1 & Ha & Hh & He).
  { intros [= <- <- <-]. destruct (He e1 eq_refl) as [-> Hz]. specialize (Hh k). split; [done|]. left. lia. }
  destruct (new_fetch_job sha512 cache_pk ref (S k) p1 es1) as [[e1|pf] p2 es2| |] eqn:En; try done;
    destruct (job_holders _ _ _ _ _ _ _ _ _ Hp1 En) as (Hp2 & Ha2 & Hh2 & He2).
  - intros [= <- <- <-]. destruct (He2 e1 eq_refl) as (-> & Hlt & Hz). split; [done|]. right. split; [done|]. specialize (Hh (S k)). specialize (Hh2 (S k)). lia.
  - intros [-> Hl]%fetch_loop_holders; [|done]. specialize (Hh k). specialize (Hh2 k). split; [done|]. left. lia.
Qed.

(** C32: if all good peers have the same hash list and those that are asked, whichever the random generator chooses, answer with the blocks of
    that list, then the whole response is delivered: the head, every block with the signature of the block before it, the end, and the trailer that
    came with the last block. *)
Theorem multi_peer_complete (ref : PeerList) (choice : nat -> nat) (p : Peers) (l : list (list byte * list byte)) (t : option fields) (as_ : list input) (n : nat) :
  all_have ref p -> answered sha512 ref 0 l t as_ -> (2 * length l + 4 <= n)%nat ->
  read_parts sha512 cache_pk n new_reader p (Choice (choice 0%nat) :: script choice 0 as_) = (HeadPart (sh_head (pl_head ref)) :: whole_body [] l t, Complete).
Proof.
  intros Hp Ha Hn. destruct n as [|[|n]]; [lia..|]. destruct (answered_lookup _ _ _ _ _ _ Ha) as [b Hb].
  destruct (first_job sha512 cache_pk ref [] p (choice 0%nat) (script choice 0 as_) b Hp Hb) as [id Hid].
  pose proof (answered_delivered sha512 cache_pk ref choice 0 l t as_ Ha (S n) p [] id Hp ltac:(lia)) as Hd. cbn [read_parts] in Hd.
  eapply read_parts_step.
  { unfold async_read_part, async_read_part_impl. cbn [_state _reference_hash_list new_reader]. by rewrite (all_have_reference sha512 cache_pk ref). }
  change (send_head (with_reference ref new_reader)) with (reading_at ref 0 [] None). cbn [read_parts]. by rewrite Hid.
Qed.

(** a peer that answers the request for a block with a head and no body ends the response as if it were whole, at any block: the reader
    sends the last chunk header, and reports no error. *)
Theorem bodyless_answer_truncates (ref : PeerList) (k : nat) (ext : list byte) (f : nat * (nat * PeerList)) (pf : option (nat * (nat * PeerList)))
    (p p' : Peers) (es es' : list env) (h : response_header) (n : nat) :
  (k < length (pl_blocks ref))%nat -> new_fetch_job sha512 cache_pk ref (S k) p es = Ret (inr pf) p' (Answer [inr (HeadPart h)] :: es') ->
  read_parts sha512 cache_pk (S (S n)) (reading_at ref k ext (Some f)) p es = ([ChunkHdr 0 ext], Complete).
Proof.
  intros Hk Hj. cbn [read_parts]. unfold async_read_part at 1. cbn [_state reading_at async_read_part_impl _reference_hash_list].
  unfold read_impl_ref. cbn [_head_sent negb _next_chunk_body _next_trailer _block_id _pre_fetch reading_at].
  destruct (Nat.leb_spec (length (pl_blocks ref)) k); [lia|]. unfold fetch_block. rewrite Hj. done.
Qed.

(** a peer whose hash list did not come in time stays among the candidates, so that the reader never reports that there are no peers: if no
    other peer turns up, it waits for ever; had the peer failed in another way, the read would have ended with [no_peers]. *)
Theorem timed_out_peer_hangs (p : Peers) (id : nat) :
  good_peers p = [] -> candidate_peers p = [id] -> lookup_pending p = false -> timed_out p = 0%nat ->
  (forall es, async_read_part sha512 cache_pk new_reader p (PeerEvent (HashListError id) :: es) = ReadFailed no_peers) /\
  async_read_part sha512 cache_pk new_reader p [PeerEvent (HashListTimeout id)] = ReadWaiting /\
  forall es e, async_read_part sha512 cache_pk new_reader p (PeerEvent (HashListTimeout id) :: es) <> ReadFailed e.
Proof.
  intros Hg Hc Hl Ht. unfold async_read_part, async_read_part_impl, choose_reference_hash_list. cbn [_state _reference_hash_list new_reader].
  assert (has_enough_good_peers p = false) as Hge by (unfold has_enough_good_peers; by rewrite Hg).
  assert (still_waiting_for_candidates p = true) as Hs by (unfold still_waiting_for_candidates; by rewrite Hl, Hc).
  cbn [wait_for_peers]. rewrite Hge, Hs. cbn [negb peers_step]. rewrite Hc, bool_decide_true by by left. cbn [negb].
  unfold not_candidate. rewrite Hg, Hc, Hl, Ht. cbn [List.filter negb]. rewrite bool_decide_true by done. cbn [negb]. split_and!.
  - intros es. by destruct es.
  - done.
  - intros es e. match goal with |- context [wait_for_peers _ _ ?q es] => set (p1 := q) end. assert (0 < timed_out p1)%nat as Hp1 by (cbn; lia).
    destruct (wait_for_peers _ _ p1 es) as [[e1|[]] p2 es2| |] eqn:Ew; [|..|done|done].
    { by apply wait_timed_out in Ew. }
    apply wait_got_peer in Ew. destruct (good_peers p2) as [|[i l] ps]; [done|]. cbn [best_list]. destruct (best_list_some ps l) as [b ->]. done.
Qed.

End Theorems.

(** ** Witnesses *)

#[local] Existing Instances toy_base64 toy_coding sealed_scheme.

(** One peer with the list of the first block of the sample. *)
Definition sample_blocks : list Block := map (as_block toy_hash) (take 1 sample_chain).

Definition sample_list_reply : input :=
  [inr (HeadPart {| result := 200; rs_version := 11; rs_fields := rs_fields sample_signed ++ [(ORIGINAL_STATUS, str "200")] |});
   inr (Body (write_body sample_blocks))].

Definition sample_block_reply : input :=
  [inr (HeadPart sample_signed); inr (ChunkHdr 6 []); inr (ChunkBody (str "hel") 3); inr (ChunkBody (str "lo ") 0); inr (ChunkHdr 0 [])].

Definition sample_run : list env :=
  [PeerEvent (LookupDone [7%nat]); PeerEvent (HashListReply 7 sample_list_reply); Choice 0; Answer sample_block_reply].

Definition sample_parts : list Part * ending :=
  read_parts toy_hash sample_pk 10 new_reader (no_peers_yet true) sample_run.


Definition sample_list : PeerList :=
  match HashList_load toy_hash sample_pk sample_list_reply with
  | Ok l => l
  | _ => {| pl_head := {| sh_head := sample_signed; sh_injection_id := []; sh_injection_ts := 0; sh_uri := [];
                          sh_bs_params := {| bs_pk := []; bs_algorithm := view_of []; bs_size := 0 |} |}; pl_blocks := [] |}
  end.

Lemma sample_loaded : HashList_load toy_hash sample_pk sample_list_reply = Ok sample_list.
Proof. vm_compute. reflexivity. Qed.

Lemma sample_signed_only : signed_only toy_hash (pl_head sample_list) sample_chain.
Proof. apply sealed_signed_only; vm_compute; reflexivity. Qed.

Lemma sample_list_signed l : HashList_load toy_hash sample_pk sample_list_reply = Ok l -> signed_only toy_hash (pl_head l) sample_chain.
Proof. rewrite sample_loaded. generalize sample_signed_only. generalize sample_list. intros l0 Hs [= <-]. exact Hs. Qed.

Lemma sample_no_clash :
  no_clash toy_hash (hashed_texts toy_hash sample_chain) (rchain_texts toy_hash (rev (pl_blocks sample_list)) ++ bodies (fst sample_parts)).
Proof. apply no_clash_check. vm_compute. reflexivity. Qed.

Lemma sample_list_clash l :
  HashList_load toy_hash sample_pk sample_list_reply = Ok l ->
  no_clash toy_hash (hashed_texts toy_hash sample_chain) (rchain_texts toy_hash (rev (pl_blocks l)) ++ bodies (fst sample_parts)).
Proof.
  rewrite sample_loaded. generalize (bodies (fst sample_parts)), sample_no_clash. generalize sample_list. intros l0 ds Hs [= <-]. exact Hs.
Qed.

Lemma multi_peer_body_witness :
  (fst sample_parts = [] /\ snd sample_parts <> Complete) \/
  exists ref body rest, genuine toy_hash sample_pk sample_run ref /\ fst sample_parts = HeadPart (sh_head (pl_head ref)) :: body /\
    map fst sample_chain = bodies body ++ rest /\
    (snd sample_parts = Complete -> Forall (fun x => ~ bodyless x) sample_run -> length (bodies body) = length (pl_blocks ref)).
Proof.
  apply (multi_peer_body toy_hash sample_pk 10 true sample_run (fun _ => sample_chain) (fst sample_parts) (snd sample_parts) toy_hash_size).
  - intros l (id & inp & Hin & Hl). unfold sample_run in Hin. rewrite !elem_of_cons in Hin.
    destruct Hin as [[=]|[[= -> ->]|[[=]|[[=]|Hn]]]]; [|by apply not_elem_of_nil in Hn]. exact (sample_list_signed l Hl).
  - intros l (id & inp & Hin & Hl). unfold sample_run in Hin. rewrite !elem_of_cons in Hin.
    destruct Hin as [[=]|[[= -> ->]|[[=]|[[=]|Hn]]]]; [|by apply not_elem_of_nil in Hn]. exact (sample_list_clash l Hl).
  - unfold sample_parts. apply surjective_pairing.
Defined.

(** Two blocks, and two peers that have them. *)
Definition two_blocks : PeerList := {| pl_head := pl_head sample_list; pl_blocks := map (as_block toy_hash) sample_chain |}.

Definition two_peers : Peers :=
  {| good_peers := [(7%nat, two_blocks); (8%nat, two_blocks)]; candidate_peers := []; timed_out := 0; all_peers := [7; 8]%nat; lookup_pending := false;
     newest_proto_seen := protocol_version_current |}.

Definition sample_answer (d : list byte) : input :=
  [inr (HeadPart sample_signed); inr (ChunkHdr (size_of d) []); inr (ChunkBody d 0); inr (ChunkHdr 0 [])].

Lemma sample_answer_ok d : d <> [] -> block_answer d None (sample_answer d).
Proof. intros Hd. apply (answer_data d None sample_signed [] [] [inr (ChunkBody d 0)]); [done|constructor]. Qed.

Lemma two_answered ref s1 s2 :
  pl_blocks ref = [as_block toy_hash (str "hello ", s1); as_block toy_hash (str "world", s2)] ->
  answered toy_hash ref 0 [(str "hello ", s1); (str "world", s2)] None [sample_answer (str "hello "); sample_answer (str "world")].
Proof.
  intros Hb. apply (answered_more _ _ _ _ _ None _ (as_block toy_hash (str "hello ", s1))); [by rewrite Hb|done|by vm_compute|by apply sample_answer_ok|].
  apply (answered_last _ _ _ _ _ _ (as_block toy_hash (str "world", s2))); [by rewrite Hb|by rewrite Hb|done|by vm_compute|by apply sample_answer_ok].
Qed.

Lemma multi_peer_complete_witness :
  read_parts toy_hash sample_pk 8 new_reader two_peers
    [Choice 0; Choice 1; Answer (sample_answer (str "hello ")); Answer (sample_answer (str "world"))] =
  (HeadPart (sh_head (pl_head two_blocks)) :: whole_body [] sample_chain None, Complete).
Proof.
  apply (multi_peer_complete toy_hash sample_pk two_blocks id two_peers sample_chain None [sample_answer (str "hello "); sample_answer (str "world")] 8).
  - split; [done|by repeat constructor].
  - assert (map fst sample_chain = [str "hello "; str "world"]) as Hc by (vm_compute; reflexivity). revert Hc.
    assert (pl_blocks two_blocks = map (as_block toy_hash) sample_chain) as Hb by reflexivity. revert Hb. generalize two_blocks sample_chain.
    intros ref [|[d1 s1] [|[d2 s2] [|]]] Hb Hc; try done. injection Hc as -> ->. by apply two_answered.
  - cbn. lia.
Defined.

Definition wrong_answer : env := Answer [inr (HeadPart sample_signed); inr (ChunkHdr 0 [])].

Lemma block_given_up_witness :
  no_peers = no_peers /\ ((holders two_blocks 1 two_peers + answers [] <= answers [wrong_answer; Choice 0; wrong_answer])%nat \/
                          ((2 < length (pl_blocks two_blocks))%nat /\ holders two_blocks 2 two_peers = 0%nat)).
Proof.
  apply (block_given_up toy_hash sample_pk two_blocks 1 (Some (1%nat, (7%nat, two_blocks))) two_peers (unmark_peer 8 (unmark_peer 7 two_peers))
           [wrong_answer; Choice 0; wrong_answer] [] no_peers).
  - split; cbn.
    + repeat constructor; set_solver.
    + constructor.
    + set_solver.
    + set_solver.
  - vm_compute. reflexivity.
Defined.

Lemma bodyless_answer_truncates_witness :
  read_parts toy_hash sample_pk 5 (reading_at two_blocks 0 [] (Some (0%nat, (7%nat, two_blocks)))) two_peers
    [Choice 0; Answer [inr (HeadPart sample_signed)]] = ([ChunkHdr 0 []], Complete).
Proof.
  apply (bodyless_answer_truncates toy_hash sample_pk two_blocks 0 [] (0%nat, (7%nat, two_blocks)) (Some (1%nat, (7%nat, two_blocks))) two_peers two_peers
           [Choice 0; Answer [inr (HeadPart sample_signed)]] [] sample_signed 3).
  - cbn. lia.
  - vm_compute. reflexivity.
Defined.

Definition one_candidate : Peers := add_candidate (no_peers_yet false) 7.

Lemma timed_out_peer_hangs_witness :
  (forall es, async_read_part toy_hash sample_pk new_reader one_candidate (PeerEvent (HashListError 7) :: es) = ReadFailed no_peers) /\
  async_read_part toy_hash sample_pk new_reader one_candidate [PeerEvent (HashListTimeout 7)] = ReadWaiting /\
  forall es e, async_read_part toy_hash sample_pk new_reader one_candidate (PeerEvent (HashListTimeout 7) :: es) <> ReadFailed e.
Proof. by apply (timed_out_peer_hangs toy_hash sample_pk one_candidate 7). Defined.
