(* ===== verification/Regex.v ===== *)
(** * Regular expressions

    What [boost::regex_match] decides for the expressions of the sources: whether the whole of a string is in the language.  [matches] is
    the language, [regex_match] decides it with derivatives; [boost::regex::icase] is an argument of the expressions for
    characters and ranges.

    The expressions of src/util.h that recognise loopback and private addresses. *)
From S2P Require Import Prelude Number Url.

Inductive regex :=
| RNone
| REps
| RSet (p : byte -> bool)
| RCat (r1 r2 : regex)
| RAlt (r1 r2 : regex)
| RStar (r : regex).

(** ** The language *)

Inductive matches : regex -> list byte -> Prop :=
| matches_eps : matches REps []
| matches_set p c : p c = true -> matches (RSet p) [c]
| matches_cat r1 r2 s1 s2 : matches r1 s1 -> matches r2 s2 -> matches (RCat r1 r2) (s1 ++ s2)
| matches_left r1 r2 s : matches r1 s -> matches (RAlt r1 r2) s
| matches_right r1 r2 s : matches r2 s -> matches (RAlt r1 r2) s
| matches_done r : matches (RStar r) []
| matches_more r c s1 s2 : matches r (c :: s1) -> matches (RStar r) s2 -> matches (RStar r) (c :: s1 ++ s2).

(** ** Deciding it *)

Fixpoint nullable (r : regex) : bool :=
  match r with
  | RNone | RSet _ => false
  | REps | RStar _ => true
  | RCat r1 r2 => nullable r1 && nullable r2
  | RAlt r1 r2 => nullable r1 || nullable r2
  end.

(** Without what matches nothing. *)
Definition cat (r1 r2 : regex) : regex :=
  match r1 with RNone => RNone | REps => r2 | _ => RCat r1 r2 end.
Definition alt (r1 r2 : regex) : regex :=
  match r1, r2 with RNone, _ => r2 | _, RNone => r1 | _, _ => RAlt r1 r2 end.

Fixpoint derivative (c : byte) (r : regex) : regex :=
  match r with
  | RNone | REps => RNone
  | RSet p => if p c then REps else RNone
  | RCat r1 r2 =>
      if nullable r1 then alt (cat (derivative c r1) r2) (derivative c r2) else cat (derivative c r1) r2
  | RAlt r1 r2 => alt (derivative c r1) (derivative c r2)
  | RStar r1 => cat (derivative c r1) (RStar r1)
  end.

Fixpoint regex_match (r : regex) (s : list byte) : bool :=
  match s with
  | [] => nullable r
  | c :: s' => regex_match (derivative c r) s'
  end.

(** ** What the sources write *)

Section Syntax.
Variable icase : bool.

Definition chr (c : byte) : regex := RSet (fun x => if icase then bool_decide (lower x = lower c) else bool_decide (x = c)).

Fixpoint lit (s : list byte) : regex :=
  match s with [] => REps | c :: s' => cat (chr c) (lit s') end.

Definition in_range (lo hi x : byte) : bool := (Byte.to_N lo <=? Byte.to_N x)%N && (Byte.to_N x <=? Byte.to_N hi)%N.

(** [[a-bc-d]] *)
Definition ranges (rs : list (byte * byte)) : regex :=
  RSet (fun x => existsb (fun r => in_range (fst r) (snd r) x || (icase && (in_range (fst r) (snd r) (lower x)))) rs).

Definition any : regex := RSet (fun _ => true).

(** [r?], [r+], [r{n}], [r{n,n+m}] *)
Definition opt (r : regex) : regex := alt REps r.
Definition plus (r : regex) : regex := cat r (RStar r).

Fixpoint repeat (n : nat) (r : regex) : regex :=
  match n with O => REps | S n => cat r (repeat n r) end.

Fixpoint up_to (m : nat) (r : regex) : regex :=
  match m with O => REps | S m => opt (cat r (up_to m r)) end.

Definition between (n m : nat) (r : regex) : regex := cat (repeat n r) (up_to m r).

(** [cat] and [alt] of lists *)
Definition cats (rs : list regex) : regex := foldr cat REps rs.
Definition alts (rs : list regex) : regex := foldr alt RNone rs.

End Syntax.

(** ** Correctness *)

Lemma nullable_spec r : nullable r = true <-> matches r [].
Proof.
  split.
  - induction r as [| |p|r1 IH1 r2 IH2|r1 IH1 r2 IH2|r IH]; cbn.
    + done.
    + constructor.
    + done.
    + intros [? ?]%andb_true_iff. change (@nil byte) with (@nil byte ++ []). constructor; auto.
    + intros [?|?]%orb_true_iff; [apply matches_left|apply matches_right]; auto.
    + constructor.
  - remember [] as s eqn:Es. induction 1 as [|p c Hc|r1 r2 s1 s2 _ IH1 _ IH2|r1 r2 s _ IH|r1 r2 s _ IH| |r c s1 s2 _ _ _ _]; cbn; try done.
    + apply app_eq_nil in Es as [-> ->]. by rewrite IH1, IH2.
    + by rewrite IH.
    + rewrite IH by done. apply orb_true_r.
Qed.

Lemma matches_none s : ~ matches RNone s.
Proof. inversion 1. Qed.

Lemma matches_eps_iff s : matches REps s <-> s = [].
Proof. split; [by inversion 1|intros ->; constructor]. Qed.

Lemma matches_cat_iff r1 r2 s : matches (RCat r1 r2) s <-> exists s1 s2, s = s1 ++ s2 /\ matches r1 s1 /\ matches r2 s2.
Proof. split; [inversion 1; subst; eauto|]. intros (s1 & s2 & -> & ? & ?). by constructor. Qed.

Lemma matches_alt_iff r1 r2 s : matches (RAlt r1 r2) s <-> matches r1 s \/ matches r2 s.
Proof. split; [inversion 1; subst; auto|]. intros [?|?]; [by apply matches_left|by apply matches_right]. Qed.

Lemma cat_iff r1 r2 s : matches (cat r1 r2) s <-> matches (RCat r1 r2) s.
Proof.
  destruct r1; cbn [cat]; try done; rewrite matches_cat_iff.
  - split; [intros []%matches_none|]. by intros (s1 & s2 & _ & []%matches_none & _).
  - split; [intros H; exists [], s; split_and!; [done|constructor|done]|]. intros (s1 & s2 & -> & ->%matches_eps_iff & ?). done.
Qed.

Lemma alt_iff r1 r2 s : matches (alt r1 r2) s <-> matches r1 s \/ matches r2 s.
Proof.
  pose proof (matches_none s) as Hn.
  destruct r1, r2; cbn [alt]; try rewrite matches_alt_iff; tauto.
Qed.

Lemma derivative_spec c r : forall s, matches (derivative c r) s <-> matches r (c :: s).
Proof.
  induction r as [| |p|r1 IH1 r2 IH2|r1 IH1 r2 IH2|r IH]; intros s; cbn [derivative].
  - split; intros []%matches_none.
  - split; [intros []%matches_none|by inversion 1].
  - destruct (p c) eqn:E; split.
    + intros ->%matches_eps_iff. by constructor.
    + inversion 1; subst. constructor.
    + intros []%matches_none.
    + inversion 1; subst. congruence.
  - assert (matches (cat (derivative c r1) r2) s <-> exists s1 s2, s = s1 ++ s2 /\ matches r1 (c :: s1) /\ matches r2 s2) as Hd.
    { rewrite cat_iff, matches_cat_iff. by setoid_rewrite IH1. }
    assert (matches (RCat r1 r2) (c :: s) <-> (nullable r1 = true /\ matches r2 (c :: s)) \/ exists s1 s2, s = s1 ++ s2 /\ matches r1 (c :: s1) /\ matches r2 s2) as ->.
    { rewrite matches_cat_iff. split.
      - intros ([|x s1] & s2 & E & H1 & H2); [left; cbn in E; subst; by rewrite nullable_spec|]. injection E as -> ->. right. by exists s1, s2.
      - intros [[H1 H2]|(s1 & s2 & -> & H1 & H2)]; [exists [], (c :: s); by rewrite <-nullable_spec|by exists (c :: s1), s2]. }
    destruct (nullable r1); [rewrite alt_iff, Hd, IH2; tauto|]. rewrite Hd. split; [by right|]. by intros [[? _]|?].
  - rewrite alt_iff, matches_alt_iff, IH1, IH2. done.
  - rewrite cat_iff, matches_cat_iff. setoid_rewrite IH. split.
    + intros (s1 & s2 & -> & H1 & H2). by constructor.
    + inversion 1; subst. eauto.
Qed.

(** the decision is that of the language. *)
Lemma regex_match_iff s : forall r, regex_match r s = true <-> matches r s.
Proof. induction s as [|c s IH]; intros r; cbn [regex_match]; [apply nullable_spec|]. by rewrite IH, derivative_spec. Qed.

(** A string that is written out matches itself, up to case where [icase] is set. *)
Lemma matches_lit icase l : forall s,
  matches (lit icase l) s <-> if icase then lower_str s = lower_str l else s = l.
Proof.
  induction l as [|c l IH]; intros s; cbn [lit].
  - rewrite matches_eps_iff. destruct icase; [|done]. split; [by intros ->|]. intros E. apply (f_equal length) in E. unfold lower_str in E. rewrite !length_map in E.
    by destruct s.
  - rewrite cat_iff, matches_cat_iff. setoid_rewrite IH. unfold chr. destruct icase.
    + split.
      * intros (s1 & s2 & -> & H1 & H2). inversion H1 as [|p x Hx| | | | |]; subst. apply bool_decide_eq_true in Hx. cbn [app]. unfold lower_str in *. cbn [map]. by rewrite Hx, H2.
      * destruct s as [|x s]; [done|]. intros [= Hx Hs]. exists [x], s. split_and!; [done| |done]. constructor. by apply bool_decide_eq_true.
    + split.
      * intros (s1 & s2 & -> & H1 & ->). inversion H1 as [|p x Hx| | | | |]; subst. apply bool_decide_eq_true in Hx. by subst.
      * intros ->. exists [c], l. split_and!; [done| |done]. constructor. by apply bool_decide_eq_true.
Qed.

(** ** Loopback and private addresses: src/util.h *)

Definition digit : regex := ranges true [("0"%byte, "9"%byte)].
Definition hex : regex := ranges true [("0"%byte, "9"%byte); ("a"%byte, "f"%byte)].
Definition ci (s : list byte) : regex := lit true s.

(** [(?:\.[0-9]{1,3}){n}] *)
Definition octets (n : nat) : regex := repeat n (cat (ci (str ".")) (between 1 2 digit)).

Definition _IP4_LOOP_RE : regex := cat (ci (str "127")) (octets 3).

Definition localhost_rx : regex := alts
  [ cat (alts [ci (str "localhost"); ci (str "ip6-localhost"); ci (str "ip6-loopback")]) (opt (ci (str ".localdomain")));
    _IP4_LOOP_RE;
    ci (str "::1");
    cat (ci (str "::ffff:")) _IP4_LOOP_RE;
    cat (ci (str "::")) _IP4_LOOP_RE ].

Definition _IP4_PRIV1_RE : regex := cat (ci (str "10")) (octets 3).
Definition _IP4_PRIV2_RE : regex :=
  cats [ci (str "172."); alts [cat (ci (str "1")) (ranges true [("6"%byte, "9"%byte)]); cat (ci (str "2")) digit; cat (ci (str "3")) (ranges true [("0"%byte, "1"%byte)])]; octets 2].
Definition _IP4_PRIV3_RE : regex := cat (ci (str "192.168")) (octets 2).
Definition _IP4_PRIV4_RE : regex := cat (ci (str "169.254")) (octets 2).

(** [(?:%[0-9a-zA-Z]+)?] *)
Definition zone : regex := opt (cat (ci (str "%")) (plus (ranges true [("0"%byte, "9"%byte); ("a"%byte, "z"%byte); ("A"%byte, "Z"%byte)]))).

Definition group : regex := between 1 3 hex.

(** What may follow the first group of an address. *)
Definition groups_after : regex :=
  alts [cats [RStar (cat group (ci (str ":"))); ci (str ":"); RStar (cat group (ci (str ":"))); group];
        cat (between 1 6 (cat group (ci (str ":")))) group].

Definition _IP6_PRIV1_RE : regex := cat (ci (str "fe80::")) zone.
Definition _IP6_PRIV2_RE : regex := cats [ci (str "fe80:"); groups_after; zone].

(** [f[cd][0-9a-f]{2}] *)
Definition unique_local : regex := cats [ci (str "f"); ranges true [("c"%byte, "d"%byte)]; repeat 2 hex].

Definition _IP6_PRIV3_RE : regex := cats [unique_local; ci (str "::"); zone].
Definition _IP6_PRIV4_RE : regex := cats [unique_local; ci (str ":"); groups_after; zone].

Definition with_mapped (r : regex) : list regex := [r; cat (ci (str "::ffff:")) r; cat (ci (str "::")) r].

(** The first alternative is empty. *)
Definition private_addr_rx : regex := alts
  (REps :: with_mapped _IP4_PRIV1_RE ++ with_mapped _IP4_PRIV2_RE ++ with_mapped _IP4_PRIV3_RE ++ with_mapped _IP4_PRIV4_RE ++
   [_IP6_PRIV1_RE; _IP6_PRIV2_RE; _IP6_PRIV3_RE; _IP6_PRIV4_RE]).

Example addresses_recognised :
  map (fun s => (regex_match localhost_rx (str s), regex_match private_addr_rx (str s)))
    ["LOCALHOST"; "127.0.0.1"; "::ffff:127.1.2.3"; "10.8.4.2"; "172.17.0.1"; "172.32.0.1"; "192.168.2.3"; "fe80::1%eth0"; "FD00:1::5"; "example.com"; ""; "::1"]%string
  = [(true, false); (true, false); (true, false); (false, true); (false, true); (false, false); (false, true); (false, true); (false, true); (false, false); (false, true); (true, false)].
Proof. vm_compute. reflexivity. Qed.

(** ** IPv4 addresses *)

Fixpoint derivatives (r : regex) (s : list byte) : regex :=
  match s with [] => r | c :: s' => derivatives (derivative c r) s' end.

Lemma regex_match_app s1 s2 : forall r, regex_match r (s1 ++ s2) = regex_match (derivatives r s1) s2.
Proof. induction s1 as [|c s1 IH]; intros r; cbn; [done|]. apply IH. Qed.

Definition is_none (r : regex) : bool := match r with RNone => true | _ => false end.

Lemma is_none_spec r s : is_none r = true -> regex_match r s = false.
Proof. destruct r; [|done..]. intros _. destruct (regex_match RNone s) eqn:E; [|done]. by apply regex_match_iff, matches_none in E. Qed.

Lemma matches_alts rs r s : r ∈ rs -> matches r s -> matches (alts rs) s.
Proof.
  induction rs as [|r1 rs IH]; intros Hr Hm; [by apply not_elem_of_nil in Hr|]. cbn. apply alt_iff. apply elem_of_cons in Hr as [->|Hr]; [by left|right; by apply IH].
Qed.

Lemma matches_cats r rs s1 s2 : matches r s1 -> matches (cats rs) s2 -> matches (cats (r :: rs)) (s1 ++ s2).
Proof. intros H1 H2. cbn. apply cat_iff. by constructor. Qed.

Definition bytes_of_octet : list Z := seqZ 0 256.

Lemma octet_in n : 0 <= n < 256 -> n ∈ bytes_of_octet.
Proof. intros Hn. apply elem_of_seqZ. lia. Qed.

Lemma check_octets (f : Z -> bool) : forallb f bytes_of_octet = true -> forall n, 0 <= n < 256 -> f n = true.
Proof. intros Hf n Hn. rewrite forallb_forall in Hf. apply Hf, list_elem_of_In, octet_in, Hn. Qed.

Definition dotted (a b c d : Z) : list byte :=
  (to_string a ++ str ".") ++ (to_string b ++ str ".") ++ to_string c ++ str "." ++ to_string d.

Lemma octet_digits n : 0 <= n < 256 -> matches (between 1 2 digit) (to_string n).
Proof.
  intros Hn. apply regex_match_iff. revert n Hn. apply check_octets. vm_compute. reflexivity.
Qed.

Lemma octets_match n ds : length ds = n -> Forall (fun d => 0 <= d < 256) ds -> matches (octets n) (concat (map (fun d => str "." ++ to_string d) ds)).
Proof.
  revert ds. induction n as [|n IH]; intros [|d ds] Hl Hd; try done; cbn in Hl; [constructor|]. apply Forall_cons in Hd as [Hd Hds].
  unfold octets. cbn [repeat map concat]. apply cat_iff. constructor; [|apply IH; [lia|done]]. apply cat_iff. constructor; [|by apply octet_digits].
  by apply matches_lit.
Qed.

Ltac octet_list := repeat first [apply Forall_nil_2|apply Forall_cons_2; [assumption|]].

(** The numbers of private networks. *)
Definition private_network (a b : Z) : bool :=
  (a =? 10) || ((a =? 172) && (16 <=? b) && (b <=? 31)) || ((a =? 192) && (b =? 168)) || ((a =? 169) && (b =? 254)).

(** The first octet of a private network. *)
Definition first_octet (a : Z) : bool := existsb (Z.eqb a) [10; 169; 172; 192].

Lemma first_octet_check : forallb (fun a => first_octet a || is_none (derivatives private_addr_rx (to_string a ++ str "."))) bytes_of_octet = true.
Proof. vm_compute. reflexivity. Qed.

Lemma second_octet_check :
  forallb (fun a => forallb (fun b => private_network a b || is_none (derivatives (derivatives private_addr_rx (to_string a ++ str ".")) (to_string b ++ str "."))) bytes_of_octet)
    [169; 172; 192] = true.
Proof. vm_compute. reflexivity. Qed.

Lemma loopback_check : forallb (fun a => (a =? 127) || is_none (derivatives localhost_rx (to_string a ++ str "."))) bytes_of_octet = true.
Proof. vm_compute. reflexivity. Qed.

Lemma not_private a b c d : 0 <= a < 256 -> 0 <= b < 256 -> private_network a b = false -> regex_match private_addr_rx (dotted a b c d) = false.
Proof.
  intros Ha Hb Hp. unfold dotted. rewrite regex_match_app. pose proof (check_octets _ first_octet_check a Ha) as Hf. cbv beta in Hf.
  apply orb_true_iff in Hf as [Hf|Hf]; [|by apply is_none_spec]. rewrite regex_match_app. apply is_none_spec.
  pose proof second_octet_check as Hs. cbn [forallb] in Hs. rewrite !andb_true_iff in Hs. destruct Hs as (H1 & H2 & H3 & _).
  unfold first_octet in Hf. cbn [existsb] in Hf. rewrite !orb_true_iff, !Z.eqb_eq in Hf. destruct Hf as [->|[->|[->|[->|Hf]]]]; [discriminate Hp| | | |discriminate Hf].
  - pose proof (check_octets _ H1 b Hb) as Hc. cbv beta in Hc. by rewrite Hp in Hc.
  - pose proof (check_octets _ H2 b Hb) as Hc. cbv beta in Hc. by rewrite Hp in Hc.
  - pose proof (check_octets _ H3 b Hb) as Hc. cbv beta in Hc. by rewrite Hp in Hc.
Qed.

(** The alternatives without a prefix. *)
Lemma private_alternative r s : r ∈ [_IP4_PRIV1_RE; _IP4_PRIV2_RE; _IP4_PRIV3_RE; _IP4_PRIV4_RE] -> matches r s -> regex_match private_addr_rx s = true.
Proof.
  intros Hr Hm. apply regex_match_iff. unfold private_addr_rx. apply (matches_alts _ r); [|done]. rewrite !elem_of_cons in Hr. right. rewrite !elem_of_app.
  destruct Hr as [->|[->|[->|[->|Hn]]]]; [| | | |by apply not_elem_of_nil in Hn]; [left|right; left|right; right; left|do 3 right; left]; by left.
Qed.

Lemma private_172 b : 16 <= b <= 31 ->
  matches (alts [cat (ci (str "1")) (ranges true [("6"%byte, "9"%byte)]); cat (ci (str "2")) digit; cat (ci (str "3")) (ranges true [("0"%byte, "1"%byte)])]) (to_string b).
Proof.
  intros Hb. apply regex_match_iff. assert (0 <= b < 256) as Hr by lia. revert b Hr Hb.
  assert (forallb (fun b => negb ((16 <=? b) && (b <=? 31)) || regex_match (alts [cat (ci (str "1")) (ranges true [("6"%byte, "9"%byte)]);
            cat (ci (str "2")) digit; cat (ci (str "3")) (ranges true [("0"%byte, "1"%byte)])]) (to_string b)) bytes_of_octet = true) as Hc by (vm_compute; reflexivity).
  intros b Hr Hb. pose proof (check_octets _ Hc b Hr) as H. cbv beta in H. apply orb_true_iff in H as [H|H]; [|done].
  apply negb_true_iff, andb_false_iff in H. lia.
Qed.

Lemma private_network_matches a b c d :
  0 <= a < 256 -> 0 <= b < 256 -> 0 <= c < 256 -> 0 <= d < 256 -> private_network a b = true -> regex_match private_addr_rx (dotted a b c d) = true.
Proof.
  intros Ha Hb Hc Hd Hp. unfold private_network in Hp. rewrite !orb_true_iff, !andb_true_iff, !Z.eqb_eq, !Z.leb_le in Hp.
  assert (matches (octets 2) (str "." ++ to_string c ++ str "." ++ to_string d)) as Hcd.
  { pose proof (octets_match 2 [c; d] eq_refl ltac:(octet_list)) as H. cbn [map concat] in H. by rewrite app_nil_r, <-app_assoc in H. }
  assert (forall p, matches (cat (ci p) (octets 2)) (p ++ str "." ++ to_string c ++ str "." ++ to_string d)) as Hpre.
  { intros p. apply cat_iff. constructor; [by apply matches_lit|done]. }
  destruct Hp as [[[->|[[-> Hl] Hu]]|[-> ->]]|[-> ->]]; unfold dotted; rewrite <-!app_assoc.
  - apply (private_alternative _IP4_PRIV1_RE); [by left|]. apply cat_iff. change (to_string 10) with (str "10"). constructor; [by apply matches_lit|].
    pose proof (octets_match 3 [b; c; d] eq_refl ltac:(octet_list)) as H. cbn [map concat] in H. by rewrite app_nil_r, <-!app_assoc in H.
  - apply (private_alternative _IP4_PRIV2_RE); [right; by left|]. unfold _IP4_PRIV2_RE. rewrite (app_assoc (to_string 172)). change (to_string 172 ++ str ".") with (str "172.").
    apply matches_cats; [by apply matches_lit|]. apply matches_cats; [by apply private_172|]. unfold cats. cbn [foldr]. apply cat_iff.
    rewrite <-(app_nil_r (str "." ++ _)). constructor; [done|constructor].
  - apply (private_alternative _IP4_PRIV3_RE); [do 2 right; by left|]. apply (Hpre (str "192.168")).
  - apply (private_alternative _IP4_PRIV4_RE); [do 3 right; by left|]. apply (Hpre (str "169.254")).
Qed.

Lemma loopback_dotted a b c d :
  0 <= a < 256 -> 0 <= b < 256 -> 0 <= c < 256 -> 0 <= d < 256 -> regex_match localhost_rx (dotted a b c d) = (a =? 127).
Proof.
  intros Ha Hb Hc Hd. destruct (Z.eqb_spec a 127) as [->|Hne].
  - apply regex_match_iff. unfold localhost_rx. apply (matches_alts _ _IP4_LOOP_RE); [right; by left|]. apply cat_iff. unfold dotted. rewrite <-!app_assoc.
    change (to_string 127) with (str "127"). constructor; [by apply matches_lit|].
    pose proof (octets_match 3 [b; c; d] eq_refl ltac:(octet_list)) as H. cbn [map concat] in H. by rewrite app_nil_r, <-!app_assoc in H.
  - unfold dotted. rewrite regex_match_app. apply is_none_spec. pose proof (check_octets _ loopback_check a Ha) as Hl. cbv beta in Hl.
    apply orb_true_iff in Hl as [Hl|Hl]; [apply Z.eqb_eq in Hl; lia|done].
Qed.

Lemma private_dotted a b c d :
  0 <= a < 256 -> 0 <= b < 256 -> 0 <= c < 256 -> 0 <= d < 256 -> regex_match private_addr_rx (dotted a b c d) = private_network a b.
Proof. intros Ha Hb Hc Hd. destruct (private_network a b) eqn:Ep; [by apply private_network_matches|by apply not_private]. Qed.

(** of the IPv4 addresses in dotted form the expression for private addresses accepts exactly those of the networks 10/8, 172.16/12, 192.168/16 and 169.254/16,
    and the expression for loopback addresses exactly those of 127/8. *)
Theorem private_ipv4_recognised (a b c d : Z) :
  0 <= a < 256 -> 0 <= b < 256 -> 0 <= c < 256 -> 0 <= d < 256 ->
  regex_match private_addr_rx (dotted a b c d) = private_network a b /\ regex_match localhost_rx (dotted a b c d) = (a =? 127).
Proof. intros Ha Hb Hc Hd. split; [by apply private_dotted|by apply loopback_dotted]. Qed.

Lemma private_ipv4_recognised_witness :
  regex_match private_addr_rx (dotted 172 31 0 1) = private_network 172 31 /\ regex_match localhost_rx (dotted 172 31 0 1) = (172 =? 127).
Proof. apply private_ipv4_recognised; lia. Defined.
