(* ===== verification/Routing.v ===== *)
(** * Where a request goes: src/route.{h,cpp}, src/dispatcher.{h,cpp}

    [Route_choose] reads the route from the request, restricts it for the safety of the user and by the configuration; [dispatch] fetches the response over the channels of
    the route.  The channels themselves (the network) are the functions of the record [Routes]; of two that run concurrently, an argument says which ends first.

    The regular expressions that are made of the configuration are written out: the domain is restricted to letters, digits and dashes when it is read; the text of an endpoint is used
    unescaped, so that a dot stands for any character and the brackets of IPv6 for a set of characters. *)
From S2P Require Import Prelude Number SplitString Url Http Regex Request CacheControl.

(** ** Routes: src/route.h *)

Inductive Route :=
| FrontEnd
| Origin
| BlindInjector (cache_type : InjectingCacheType)
| OriginOrBlindInjector (cache_type : InjectingCacheType)
| PublicInjector (cache_type : InjectingCacheType)
| DCache (cache_type : CacheType)
| OriginOrDCache (cache_type : CacheType)
| OriginOrPublicInjector (cache_type : InjectingCacheType)
| PublicInjectorOrDCache (cache_type : InjectingCacheType)
| OriginOrPublicInjectorOrDCache (cache_type : InjectingCacheType).

Record ClientConfig := {
  local_domain : list byte;
  front_end_is_v6 : bool;
  front_end_address : list byte;
  front_end_port : Z;
  is_private_target_allowed : bool;
  is_origin_access_enabled : bool;
  is_proxy_access_enabled : bool;
  is_injector_access_enabled : bool;
  is_cache_enabled : CacheType -> bool;
}.

(** ** Reading a route: src/route.cpp *)

Definition skip_spaces (s : list byte) : list byte := chars (trim_front " "%byte (view_of s)).
Definition strip (s : list byte) : list byte := chars (trim_char " "%byte (view_of s)).

Fixpoint before_space (s : list byte) : list byte * list byte :=
  match s with
  | [] => ([], [])
  | c :: s' => if bool_decide (c = " "%byte) then ([], s) else let '(t, rest) := before_space s' in (c :: t, rest)
  end.

(** [None] if there is no token; what is left is returned in any case. *)
Definition read_token (s : list byte) : option (list byte) * list byte :=
  match before_space (skip_spaces s) with
  | ([], rest) => (None, rest)
  | (token, rest) => (Some token, rest)
  end.

Definition read_cache_type {C} (from_str : list byte -> option C) (s : list byte) : option (C * list byte) :=
  match strip s with
  | [] => None
  | _ =>
      let '(token, ss) := read_token s in
      let? token := token in
      let? cache_type := from_str token in
      Some (cache_type, ss)
  end.

Definition parse_no_args (r : Route) (s : list byte) : option Route :=
  match strip s with [] => Some r | _ => None end.

(** [ParseCacheTypeArg] and [ParseInjectingCacheTypeArg] *)
Definition parse_cache_type_arg {C} (from_str : list byte -> option C) (r : C -> Route) (s : list byte) : option Route :=
  let? (cache_type, s) := read_cache_type from_str s in
  match fst (read_token s) with
  | Some _ => None
  | None => Some (r cache_type)
  end.

(** The names of the routes in the order in which they are tried, with what parses their arguments. *)
Definition route_parsers : list (list byte * (list byte -> option Route)) :=
  [ (str "FrontEnd", parse_no_args FrontEnd);
    (str "Origin", parse_no_args Origin);
    (str "BlindInjector", parse_cache_type_arg InjectingCacheType_from_str BlindInjector);
    (str "OriginOrBlindInjector", parse_cache_type_arg InjectingCacheType_from_str OriginOrBlindInjector);
    (str "PublicInjector", parse_cache_type_arg InjectingCacheType_from_str PublicInjector);
    (str "DCache", parse_cache_type_arg CacheType_from_str DCache);
    (str "OriginOrDCache", parse_cache_type_arg CacheType_from_str OriginOrDCache);
    (str "OriginOrPublicInjector", parse_cache_type_arg InjectingCacheType_from_str OriginOrPublicInjector);
    (str "PublicInjectorOrDCache", parse_cache_type_arg InjectingCacheType_from_str PublicInjectorOrDCache);
    (str "OriginOrPublicInjectorOrDCache", parse_cache_type_arg InjectingCacheType_from_str OriginOrPublicInjectorOrDCache) ].

Definition read_route (parser : list byte * (list byte -> option Route)) (s : list byte) : option Route :=
  let '(name, ss) := read_token s in
  let? name := name in
  if negb (iequals name (fst parser)) then None else snd parser ss.

Fixpoint first_route (parsers : list (list byte * (list byte -> option Route))) (s : list byte) : option Route :=
  match parsers with
  | [] => None
  | parser :: parsers' =>
      match read_route parser s with
      | Some r => Some r
      | None => first_route parsers' s
      end
  end.

Definition request_route_hdr : list byte := str "X-Ouinet-Route".

Definition choose_by_route_field (rq : request_header) : option Route :=
  first_route route_parsers (strip (field_value request_route_hdr (rq_fields rq))).

(** [operator<<] *)
Definition Route_print (r : Route) : list byte :=
  let with_type name t := str name ++ str " " ++ CacheType_print t in
  let with_injecting name t := with_type name (CacheType_of_injecting t) in
  match r with
  | FrontEnd => str "FrontEnd"
  | Origin => str "Origin"
  | BlindInjector t => with_injecting "BlindInjector"%string t
  | OriginOrBlindInjector t => with_injecting "OriginOrBlindInjector"%string t
  | PublicInjector t => with_injecting "PublicInjector"%string t
  | DCache t => with_type "DCache"%string t
  | OriginOrDCache t => with_type "OriginOrDCache"%string t
  | OriginOrPublicInjector t => with_injecting "OriginOrPublicInjector"%string t
  | PublicInjectorOrDCache t => with_injecting "PublicInjectorOrDCache"%string t
  | OriginOrPublicInjectorOrDCache t => with_injecting "OriginOrPublicInjectorOrDCache"%string t
  end.

(** ** Restrictions *)

Definition remove_origin_access (route : option Route) : option Route :=
  let? r := route in
  match r with
  | Origin => None
  | OriginOrDCache t => Some (DCache t)
  | OriginOrBlindInjector t => Some (BlindInjector t)
  | OriginOrPublicInjector t => Some (PublicInjector t)
  | OriginOrPublicInjectorOrDCache t => Some (PublicInjectorOrDCache t)
  | _ => route
  end.

Definition remove_blind_injector_access (route : option Route) : option Route :=
  let? r := route in
  match r with
  | BlindInjector _ => None
  | OriginOrBlindInjector _ => Some Origin
  | _ => route
  end.

Definition remove_public_injector_access (route : option Route) : option Route :=
  let? r := route in
  match r with
  | PublicInjector _ => None
  | OriginOrPublicInjector _ => Some Origin
  | PublicInjectorOrDCache t => Some (DCache (CacheType_of_injecting t))
  | OriginOrPublicInjectorOrDCache t => Some (OriginOrDCache (CacheType_of_injecting t))
  | _ => route
  end.

Definition remove_dcache_access (route : option Route) : option Route :=
  let? r := route in
  match r with
  | DCache _ => None
  | OriginOrDCache _ => Some Origin
  | PublicInjectorOrDCache t => Some (PublicInjector t)
  | OriginOrPublicInjectorOrDCache t => Some (OriginOrPublicInjector t)
  | _ => route
  end.

Definition public_to_private (route : option Route) : option Route :=
  let? r := route in
  match r with
  | PublicInjector t => Some (BlindInjector t)
  | DCache _ => None
  | OriginOrDCache _ => Some Origin
  | OriginOrPublicInjector t => Some (OriginOrBlindInjector t)
  | PublicInjectorOrDCache t => Some (BlindInjector t)
  | OriginOrPublicInjectorOrDCache t => Some (OriginOrBlindInjector t)
  | _ => route
  end.

Definition get_cache_type (route : option Route) : option CacheType :=
  let? r := route in
  match r with
  | FrontEnd | Origin => None
  | BlindInjector t | OriginOrBlindInjector t | PublicInjector t | OriginOrPublicInjector t | PublicInjectorOrDCache t
  | OriginOrPublicInjectorOrDCache t => Some (CacheType_of_injecting t)
  | DCache t | OriginOrDCache t => Some t
  end.

(** [ep.rfind(':')] *)
Fixpoint last_colon (s : list byte) : option nat :=
  match s with
  | [] => None
  | c :: s' =>
      match last_colon s' with
      | Some n => Some (S n)
      | None => if bool_decide (c = ":"%byte) then Some O else None
      end
  end.

(** [util::split_ep] of src/util.cpp *)
Definition split_ep (ep : list byte) : list byte * list byte :=
  match ep with
  | [] => ([], [])
  | _ =>
      let '(host, port) :=
        match last_colon ep with
        | Some cpos => if bool_decide (ep !! (length ep - 1)%nat = Some "]"%byte) then (ep, []) else (take cpos ep, drop (S cpos) ep)
        | None => (ep, [])
        end in
      match host with
      | "["%byte :: host' => (take (length host - 2) host', port)
      | _ => (host, port)
      end
  end.

Definition not_in (cs : list byte) : regex := RSet (fun x => negb (bool_decide (x ∈ cs))).

(** ["https?://[^:/]+\\." local_domain "(:[0-9]+)?/.*"] *)
Definition local_rx (config : ClientConfig) : regex :=
  cats [lit false (str "http"); opt (lit false (str "s")); lit false (str "://"); plus (not_in [":"%byte; "/"%byte]); lit false (str ".");
        lit false (local_domain config); opt (cat (lit false (str ":")) (plus (ranges false [("0"%byte, "9"%byte)]))); lit false (str "/"); RStar any].

(** The text of the endpoint, as an expression. *)
Definition front_end_rx (config : ClientConfig) : regex :=
  let port := lit false (str ":" ++ to_string (front_end_port config)) in
  if front_end_is_v6 config then cat (RSet (fun x => bool_decide (x ∈ front_end_address config))) port
  else cat (cats (map (fun c => if bool_decide (c = "."%byte) then any else chr false c) (front_end_address config))) port.

Definition get_host (rq : request_header) : list byte := field_value (str "Host") (rq_fields rq).
Definition get_hostname (rq : request_header) : list byte := fst (split_ep (get_host rq)).

Definition private_rx : regex := lit true request_private_true.
Definition cacheable_methods_rx : regex := alt (lit false (str "GET")) (lit false (str "HEAD")).
Definition override_rx : regex := alt REps (lit false (str "GET")).

Definition apply_safety_restrictions (route : option Route) (rq : request_header) (config : ClientConfig) : option Route :=
  match route with
  | None => None
  | Some _ =>
      if regex_match (lit true (str "localhost")) (get_host rq) then Some FrontEnd
      else if regex_match (front_end_rx config) (get_host rq) then Some FrontEnd
      else if negb (is_private_target_allowed config) && regex_match localhost_rx (get_hostname rq) then Some Origin
      else if regex_match (local_rx config) (target rq) then Some Origin
      else if regex_match private_rx (field_value request_private_hdr (rq_fields rq)) then public_to_private route
      else if negb (regex_match cacheable_methods_rx (method rq)) then public_to_private route
      else if negb (regex_match override_rx (field_value (str "X-HTTP-Method-Override") (rq_fields rq))) then public_to_private route
      else if negb (is_private_target_allowed config) && regex_match private_addr_rx (get_hostname rq) then Some Origin
      else route
  end.

Definition apply_config_restrictions (route : option Route) (config : ClientConfig) : option Route :=
  let route := if is_origin_access_enabled config then route else remove_origin_access route in
  let route := if is_proxy_access_enabled config then route else remove_blind_injector_access route in
  let route := if is_injector_access_enabled config then route else remove_public_injector_access route in
  match get_cache_type route with
  | Some cache_type => if is_cache_enabled config cache_type then route else remove_dcache_access route
  | None => route
  end.

Definition default_route : Route := OriginOrPublicInjectorOrDCache InjectBep5Http.

(** [Route::choose] *)
Definition Route_choose (rq : request_header) (config : ClientConfig) : option Route :=
  let route := Some (default default_route (choose_by_route_field rq)) in
  apply_config_restrictions (apply_safety_restrictions route rq config) config.

(** ** What a route allows *)

Variant channel := ToFrontEnd | ToOrigin | ToBlindInjector | ToPublicInjector | ToDCache.

#[global] Instance channel_eq_dec : EqDecision channel.
Proof. solve_decision. Defined.

Definition channels (r : Route) : list channel :=
  match r with
  | FrontEnd => [ToFrontEnd]
  | Origin => [ToOrigin]
  | BlindInjector _ => [ToBlindInjector]
  | OriginOrBlindInjector _ => [ToOrigin; ToBlindInjector]
  | PublicInjector _ => [ToPublicInjector]
  | DCache _ => [ToDCache]
  | OriginOrDCache _ => [ToOrigin; ToDCache]
  | OriginOrPublicInjector _ => [ToOrigin; ToPublicInjector]
  | PublicInjectorOrDCache _ => [ToPublicInjector; ToDCache]
  | OriginOrPublicInjectorOrDCache _ => [ToOrigin; ToPublicInjector; ToDCache]
  end.

Definition channels_of (route : option Route) : list channel := match route with Some r => channels r | None => [] end.

(** The channels that the configuration leaves to a route. *)
Definition enabled (config : ClientConfig) (t : option CacheType) (c : channel) : bool :=
  match c with
  | ToFrontEnd => true
  | ToOrigin => is_origin_access_enabled config
  | ToBlindInjector => is_proxy_access_enabled config
  | ToPublicInjector => is_injector_access_enabled config
  | ToDCache => match t with Some t => is_cache_enabled config t | None => false end
  end.

Definition enabled_channels (config : ClientConfig) (route : option Route) : list channel :=
  List.filter (enabled config (get_cache_type route)) (channels_of route).

(** Nothing but the channels that are disabled is taken away. *)
Lemma config_restrictions_exact route config :
  channels_of (apply_config_restrictions route config) = enabled_channels config route /\
  (forall r, apply_config_restrictions route config = Some r -> channels r <> [] /\
     (ToDCache ∈ channels r -> get_cache_type (Some r) = get_cache_type route)).
Proof.
  destruct config as [ld v6 fa fp pt o b p d]. unfold apply_config_restrictions, enabled_channels. cbn [is_origin_access_enabled is_proxy_access_enabled is_injector_access_enabled is_cache_enabled].
  destruct route as [[| |t|t|t|t|t|t|t|t]|], o, b, p; cbn; try (destruct (d _)); cbn; (split; [done|]); intros r [= <-]; (split; [done|]); cbn; rewrite ?elem_of_cons; intros Hc; try done;
    repeat (destruct Hc as [Hc|Hc]; [done|]); by apply not_elem_of_nil in Hc.
Qed.

Lemma restricted_channels route config c : c ∈ channels_of (apply_config_restrictions route config) -> c ∈ channels_of route.
Proof. destruct (config_restrictions_exact route config) as [-> _]. unfold enabled_channels. rewrite !list_elem_of_In. by intros [? _]%filter_In. Qed.

Lemma public_to_private_channels route c : c ∈ channels_of (public_to_private route) -> c <> ToPublicInjector /\ c <> ToDCache.
Proof. destruct route as [[| |t|t|t|t|t|t|t|t]|]; cbn; rewrite ?elem_of_cons, ?elem_of_nil; intros Hc; split; intros ->; naive_solver. Qed.

Lemma safety_none rq config : apply_safety_restrictions None rq config = None.
Proof. done. Qed.

(** ** Theorems about routes *)

(** The request is tagged as private, or is not one that may be cached. *)
Definition private_request (rq : request_header) : Prop :=
  lower_str (field_value request_private_hdr (rq_fields rq)) = str "true" \/
  (method rq <> str "GET" /\ method rq <> str "HEAD") \/
  (field_value (str "X-HTTP-Method-Override") (rq_fields rq) <> [] /\ field_value (str "X-HTTP-Method-Override") (rq_fields rq) <> str "GET").

Lemma regex_match_lit icase l s : regex_match (lit icase l) s = true <-> if icase then lower_str s = lower_str l else s = l.
Proof. by rewrite regex_match_iff, matches_lit. Qed.

Lemma cacheable_methods m : regex_match cacheable_methods_rx m = true <-> m = str "GET" \/ m = str "HEAD".
Proof. unfold cacheable_methods_rx. rewrite regex_match_iff, alt_iff. by rewrite (matches_lit false), (matches_lit false). Qed.

Lemma override_allowed m : regex_match override_rx m = true <-> m = [] \/ m = str "GET".
Proof. unfold override_rx. rewrite regex_match_iff, alt_iff, matches_eps_iff. by rewrite (matches_lit false). Qed.

(** The three tests that make a request private. *)
Lemma private_tests rq :
  private_request rq ->
  regex_match private_rx (field_value request_private_hdr (rq_fields rq)) = true \/ regex_match cacheable_methods_rx (method rq) = false \/
  regex_match override_rx (field_value (str "X-HTTP-Method-Override") (rq_fields rq)) = false.
Proof.
  intros [H|[[H1 H2]|[H1 H2]]].
  - left. by apply (regex_match_lit true).
  - right. left. apply not_true_iff_false. rewrite cacheable_methods. tauto.
  - right. right. apply not_true_iff_false. rewrite override_allowed. tauto.
Qed.

(** C21: the configuration is obeyed, exactly: the channels of the chosen route are those of the route that the request and the rules of safety give, without those that are disabled; there is no route
    only if none is left. *)
Theorem route_within_config (rq : request_header) (config : ClientConfig) :
  let safe := apply_safety_restrictions (Some (default default_route (choose_by_route_field rq))) rq config in
  match Route_choose rq config with
  | Some r => channels r = enabled_channels config safe /\ Forall (fun c => enabled config (get_cache_type (Some r)) c = true) (channels r)
  | None => enabled_channels config safe = []
  end.
Proof.
  intros safe. unfold Route_choose. fold safe. destruct (config_restrictions_exact safe config) as [Hc Hr].
  destruct (apply_config_restrictions safe config) as [r|] eqn:E; cbn [channels_of] in Hc; [|by rewrite <-Hc]. split; [done|].
  destruct (Hr r eq_refl) as [_ Ht]. apply Forall_forall. intros c Hin. pose proof Hin as Hin'. rewrite Hc in Hin'. unfold enabled_channels in Hin'.
  rewrite list_elem_of_In in Hin'. apply filter_In in Hin' as [_ He]. destruct c; [done..|]. by rewrite Ht.
Qed.

Lemma private_channels rq config r c :
  private_request rq -> Route_choose rq config = Some r -> c ∈ channels r -> c <> ToPublicInjector /\ c <> ToDCache.
Proof.
  intros Hp Hr Hin. change (channels r) with (channels_of (Some r)) in Hin. rewrite <-Hr in Hin. apply restricted_channels in Hin. revert Hin.
  unfold apply_safety_restrictions. destruct (regex_match (lit true _) _); [set_solver|]. destruct (regex_match (front_end_rx _) _); [set_solver|].
  destruct (negb _ && regex_match localhost_rx _); [set_solver|]. destruct (regex_match (local_rx _) _); [set_solver|].
  destruct (private_tests rq Hp) as [->|[->| ->]]; [apply public_to_private_channels| |]; cbn [negb].
  - destruct (regex_match private_rx _); apply public_to_private_channels.
  - destruct (regex_match private_rx _); [apply public_to_private_channels|]. destruct (negb _); apply public_to_private_channels.
Qed.

(** a request that is tagged as private, is not a GET or a HEAD, or declares another method, never goes to a public injector or to the distributed cache, whatever route it asks for. *)
Theorem private_request_not_public (rq : request_header) (config : ClientConfig) (r : Route) :
  private_request rq -> Route_choose rq config = Some r -> (ToPublicInjector ∉ channels r) /\ (ToDCache ∉ channels r).
Proof. intros Hp Hr. split; intros Hc; by destruct (private_channels _ _ _ _ Hp Hr Hc). Qed.

(** unless private targets are allowed, a request to a loopback address leaves the client only to the origin itself. *)
Theorem loopback_stays_local (rq : request_header) (config : ClientConfig) (r : Route) :
  is_private_target_allowed config = false -> regex_match localhost_rx (get_hostname rq) = true -> Route_choose rq config = Some r ->
  channels r = [ToFrontEnd] \/ channels r = [ToOrigin].
Proof.
  intros Ha Hl Hr. unfold Route_choose, apply_safety_restrictions in Hr. rewrite Ha, Hl in Hr. cbn [negb andb] in Hr.
  destruct (config_restrictions_exact (Some FrontEnd) config) as [Hf _], (config_restrictions_exact (Some Origin) config) as [Ho Hne].
  destruct (regex_match (lit true _) _); [left; by rewrite Hr in Hf|]. destruct (regex_match (front_end_rx _) _); [left; by rewrite Hr in Hf|].
  right. destruct (Hne r Hr) as [Hx _]. rewrite Hr in Ho. cbn in Ho. rewrite Ho in Hx |- *. by destruct (is_origin_access_enabled config).
Qed.

(** a route that is printed into the header of a request is chosen by it. *)
Theorem route_roundtrip (rq : request_header) (r : Route) :
  field_value request_route_hdr (rq_fields rq) = Route_print r -> choose_by_route_field rq = Some r.
Proof. unfold choose_by_route_field. intros ->. destruct r as [| |t|t|t|t|t|t|t|t]; try destruct t; vm_compute; reflexivity. Qed.

(** A header that cannot be read counts as none. *)
Example malformed_route_is_public (rq : request_header) :
  field_value request_route_hdr (rq_fields rq) = str "BlindInjector" -> default default_route (choose_by_route_field rq) = OriginOrPublicInjectorOrDCache InjectBep5Http.
Proof. unfold choose_by_route_field. intros ->. vm_compute. reflexivity. Qed.

(** that requests to private addresses do not use the network holds for requests that may be cached only: the same address with another method is sent to an injector too,
    because such requests are made private, and the rule is left, before the address is looked at. *)
Theorem private_address_leaks (rq : request_header) (config : ClientConfig) (a b c d : Z) :
  0 <= a < 256 -> 0 <= b < 256 -> 0 <= c < 256 -> 0 <= d < 256 -> private_network a b = true -> get_hostname rq = dotted a b c d ->
  lower_str (get_host rq) <> str "localhost" -> regex_match (front_end_rx config) (get_host rq) = false -> regex_match (local_rx config) (target rq) = false ->
  is_private_target_allowed config = false -> is_origin_access_enabled config = true -> is_proxy_access_enabled config = true -> choose_by_route_field rq = None ->
  (~ private_request rq -> Route_choose rq config = Some Origin) /\
  (private_request rq -> Route_choose rq config = Some (OriginOrBlindInjector InjectBep5Http)).
Proof.
  intros Ha Hb Hc Hd Hp Hh Hl Hf Ht Hpa Ho Hb' Hr. unfold Route_choose, apply_safety_restrictions. rewrite Hr, Hf, Ht, Hpa, Hh, loopback_dotted, private_dotted, Hp by done.
  assert (regex_match (lit true (str "localhost")) (get_host rq) = false) as -> by (apply not_true_iff_false; by rewrite regex_match_lit).
  assert ((a =? 127) = false) as ->. { unfold private_network in Hp. destruct (Z.eqb_spec a 127) as [->|]; [discriminate Hp|done]. }
  cbn [negb andb default]. split.
  - intros Hn. unfold private_request in Hn.
    destruct (regex_match private_rx _) eqn:E1; [destruct Hn; left; by apply (regex_match_lit true) in E1|].
    destruct (regex_match cacheable_methods_rx _) eqn:E2; [|destruct Hn; right; left; apply not_true_iff_false in E2; rewrite cacheable_methods in E2; tauto].
    destruct (regex_match override_rx _) eqn:E3; [|destruct Hn; right; right; apply not_true_iff_false in E3; rewrite override_allowed in E3; tauto].
    cbn [negb]. unfold apply_config_restrictions. rewrite Ho. by destruct (is_proxy_access_enabled config), (is_injector_access_enabled config).
  - intros Hpr. assert (forall x, x = Some (OriginOrBlindInjector InjectBep5Http) -> apply_config_restrictions x config = Some (OriginOrBlindInjector InjectBep5Http)) as Hx.
    { intros x ->. unfold apply_config_restrictions. rewrite Ho, Hb'. destruct (is_injector_access_enabled config); cbn; by destruct (is_cache_enabled config Bep5Http). }
    apply Hx. destruct (private_tests rq Hpr) as [->|[->| ->]]; [done|cbn [negb]; by destruct (regex_match private_rx _)|].
    cbn [negb]. destruct (regex_match private_rx _); [done|]. by destruct (negb _).
Qed.

(** ** Dispatching: src/dispatcher.cpp *)

Definition response_source_hdr : list byte := header_prefix ++ str "Source".
Definition response_source_hdr_injector : list byte := str "injector".
Definition response_source_hdr_dist_cache : list byte := str "dist-cache".
Definition response_source_hdr_ouisync : list byte := str "ouisync".
Definition response_source_hdr_local_cache : list byte := str "local-cache".

Section Dispatcher.
Context {P : PosixTime} {Body : Type} {T : FieldTable}.
Variables sha1 sha256 : list byte -> list byte.

Abbreviation session := (@Session Body).

(** [Dispatcher::Response] *)
Inductive Response :=
| FromFrontEnd (value : session)
| FromOrigin (s : session)
| FromDCache (request : CacheRequest) (s : session)
| FromLocalCache (s : session)
| FromPublicInjector (request : CacheRequest) (s : session)
| FromPrivateInjector (s : session)
| FromOuisync (s : session).

(** [Dispatcher::Routes] *)
Record Routes := {
  front_end : request_header -> expected session;
  origin : request_header -> expected session;
  public_injector : CacheInjectRequest -> expected session;
  private_injector : InjectingCacheType -> request_header -> expected session;
  distributes_cache : CacheRetrieveRequest -> expected session;
  routes_max_cached_age : Z;
}.

Definition wrap {A W} (w : A -> W) (r : expected A) : expected W :=
  match r with value a => value (w a) | unexpected e => unexpected e end.

(** What happens when: whether the secondary of two jobs ends first; the clock and the schedule of [CacheControl::fetch]. *)
Record timing := { secondary_first : bool; clock_before : ptime; clock_now : ptime; cc_schedule : list (list job) }.

(** A job that succeeds cancels the other one, which then has an error; [None] for a secondary job that does not end. *)
Definition primary_or_secondary {A} (tm : timing) (primary : expected A) (secondary : option (expected A)) : option (expected A) :=
  let decide_ (primary secondary : expected A) :=
    match primary, secondary with
    | value a, _ => value a
    | unexpected _, value b => value b
    | unexpected e, unexpected _ => unexpected e
    end in
  if secondary_first tm then
    let? s := secondary in
    match s with
    | value _ => Some (decide_ (unexpected operation_aborted) s)
    | unexpected _ => Some (decide_ primary s)
    end
  else
    match primary with
    | value _ => Some (decide_ primary (unexpected operation_aborted))
    | unexpected _ => let? s := secondary in Some (decide_ primary s)
    end.

Definition fetch_from_front_end (routes : Routes) (rq : request_header) : expected Response := wrap FromFrontEnd (front_end routes rq).
Definition fetch_from_origin (routes : Routes) (rq : request_header) : expected Response := wrap FromOrigin (origin routes rq).

Definition fetch_from_dcache (routes : Routes) (cache_type : CacheType) (rq : request_header) : expected Response :=
  match CacheRequest_from sha1 sha256 cache_type rq with
  | None => unexpected invalid_argument
  | Some cache_rq => wrap (FromDCache cache_rq) (distributes_cache routes (to_retrieve_request cache_rq))
  end.

Definition fetch_from_public_injector (routes : Routes) (cache_type : CacheType) (rq : request_header) : expected Response :=
  match CacheRequest_from sha1 sha256 cache_type rq with
  | None => unexpected invalid_argument
  | Some cache_rq =>
      match to_inject_request cache_rq with
      | None => unexpected invalid_argument
      | Some injector_rq => wrap (FromPublicInjector cache_rq) (public_injector routes injector_rq)
      end
  end.

Definition fetch_from_private_injector (routes : Routes) (cache_type : InjectingCacheType) (rq : request_header) : expected Response :=
  wrap FromPrivateInjector (private_injector routes cache_type rq).

(** The constructor of [Dispatcher]. *)
Definition cache_control (routes : Routes) : CacheControl :=
  {| fetch_fresh := Some (public_injector routes); fetch_stored := Some (distributes_cache routes); max_cached_age := routes_max_cached_age routes |}.

Definition fault : error_code := other_error 14.

(** The response of [CacheControl], by its source. *)
Definition by_source (cache_rq : CacheRequest) (s : session) : expected Response :=
  let source := field_value response_source_hdr (rs_fields (CacheControl.head s)) in
  if bool_decide (source = response_source_hdr_dist_cache) then value (FromDCache cache_rq s)
  else if bool_decide (source = response_source_hdr_injector) then value (FromPublicInjector cache_rq s)
  else if bool_decide (source = response_source_hdr_local_cache) then value (FromLocalCache s)
  else if bool_decide (source = response_source_hdr_ouisync) then value (FromOuisync s)
  else unexpected fault.

Definition fetch_from_cache_control (routes : Routes) (tm : timing) (cache_type : CacheType) (rq : request_header) : option (expected Response) :=
  match CacheRequest_from sha1 sha256 cache_type rq with
  | None => Some (unexpected invalid_argument)
  | Some cache_rq =>
      let? r := fetch (cache_control routes) cache_rq (clock_before tm) (clock_now tm) (cc_schedule tm) in
      match r with
      | unexpected e => Some (unexpected e)
      | value s => Some (by_source cache_rq s)
      end
  end.

Definition dispatch (routes : Routes) (tm : timing) (rq : request_header) (route : Route) : option (expected Response) :=
  match route with
  | FrontEnd => Some (fetch_from_front_end routes rq)
  | Origin => Some (fetch_from_origin routes rq)
  | BlindInjector t => Some (fetch_from_private_injector routes t rq)
  | OriginOrBlindInjector t => primary_or_secondary tm (fetch_from_origin routes rq) (Some (fetch_from_private_injector routes t rq))
  | PublicInjector t => Some (fetch_from_public_injector routes (CacheType_of_injecting t) rq)
  | DCache t => Some (fetch_from_dcache routes t rq)
  | OriginOrPublicInjectorOrDCache t =>
      primary_or_secondary tm (fetch_from_origin routes rq) (fetch_from_cache_control routes tm (CacheType_of_injecting t) rq)
  | OriginOrDCache t => primary_or_secondary tm (fetch_from_origin routes rq) (Some (fetch_from_dcache routes t rq))
  | OriginOrPublicInjector t =>
      primary_or_secondary tm (fetch_from_origin routes rq) (Some (fetch_from_public_injector routes (CacheType_of_injecting t) rq))
  | PublicInjectorOrDCache t => fetch_from_cache_control routes tm (CacheType_of_injecting t) rq
  end.

(** ** Theorems about dispatching *)

(** Two networks that do not differ on a channel. *)
Definition agree (r1 r2 : Routes) (c : channel) : Prop :=
  match c with
  | ToFrontEnd => front_end r1 = front_end r2
  | ToOrigin => origin r1 = origin r2
  | ToBlindInjector => private_injector r1 = private_injector r2
  | ToPublicInjector => public_injector r1 = public_injector r2
  | ToDCache => distributes_cache r1 = distributes_cache r2 /\ routes_max_cached_age r1 = routes_max_cached_age r2
  end.

Lemma dispatch_agree r1 r2 tm rq route : Forall (agree r1 r2) (channels route) -> dispatch r1 tm rq route = dispatch r2 tm rq route.
Proof.
  destruct r1 as [f1 o1 p1 b1 d1 a1], r2 as [f2 o2 p2 b2 d2 a2].
  destruct route; cbn [channels]; rewrite ?Forall_cons; cbn; intros Ha; repeat (match goal with H : _ /\ _ |- _ => destruct H end); subst; reflexivity.
Qed.

(** The channels without the origin. *)
Definition rest_of (route : Route) : option Route := remove_origin_access (Some route).

Lemma primary_or_secondary_spec {A} (tm : timing) (p : expected A) (s : expected A) :
  match primary_or_secondary tm p (Some s) with
  | Some (value a) => p = value a \/ s = value a
  | Some (unexpected e) => p = unexpected e /\ exists e', s = unexpected e'
  | None => False
  end.
Proof. unfold primary_or_secondary. destruct (secondary_first tm), p, s; cbn; eauto. Qed.

(** C20: what a request is answered with depends on nothing but the channels of its route: networks that differ on other channels only give the same answer; for a request that is private this holds
    of the public injector and the distributed cache, whatever route it asks for. *)
Theorem dispatch_within_route (r1 r2 : Routes) (tm : timing) (rq : request_header) (config : ClientConfig) (route : Route) :
  Route_choose rq config = Some route ->
  (Forall (agree r1 r2) (channels route) -> dispatch r1 tm rq route = dispatch r2 tm rq route) /\
  (private_request rq -> Forall (agree r1 r2) [ToFrontEnd; ToOrigin; ToBlindInjector] -> dispatch r1 tm rq route = dispatch r2 tm rq route).
Proof.
  intros Hr. split; [apply dispatch_agree|]. intros Hp Ha. apply dispatch_agree. apply Forall_forall. intros c Hc. rewrite Forall_forall in Ha. apply Ha.
  assert (c <> ToPublicInjector /\ c <> ToDCache) as [H1 H2] by by eapply private_channels. destruct c; [set_solver..|done|done].
Qed.

(** a request is answered with an error only if every channel of its route that was tried has failed, and then with the error of the origin if that is one of them;
    a response is that of the origin or that of the rest of the route. *)
Theorem dispatch_falls_back (routes : Routes) (tm : timing) (rq : request_header) (route rest : Route) (o : expected Response) :
  ToOrigin ∈ channels route -> rest_of route = Some rest -> dispatch routes tm rq rest = Some o ->
  match dispatch routes tm rq route with
  | Some (value rs) => fetch_from_origin routes rq = value rs \/ o = value rs
  | Some (unexpected e) => fetch_from_origin routes rq = unexpected e /\ exists e', o = unexpected e'
  | None => False
  end.
Proof.
  intros Ho Hr Hd. destruct route; cbn in Ho, Hr; rewrite ?elem_of_cons, ?elem_of_nil in Ho; try (by naive_solver); injection Hr as <-; cbn [dispatch] in *;
    [injection Hd as <-..|]; rewrite ?Hd; apply primary_or_secondary_spec.
Qed.

End Dispatcher.

(** ** Witnesses *)

Definition sample_config : ClientConfig :=
  {| local_domain := str "local"; front_end_is_v6 := false; front_end_address := str "127.0.0.1"; front_end_port := 8078; is_private_target_allowed := false;
     is_origin_access_enabled := true; is_proxy_access_enabled := true; is_injector_access_enabled := true; is_cache_enabled := fun _ => true |}.

Definition sample_post : request_header :=
  {| method := str "POST"; target := str "http://192.168.1.1/login"; version := 11; rq_fields := [(str "Host", str "192.168.1.1")] |}.

Definition sample_loopback : request_header :=
  {| method := str "GET"; target := str "http://127.1.2.3/"; version := 11; rq_fields := [(str "Host", str "127.1.2.3:631"); (request_route_hdr, str "DCache Bep5Http")] |}.

Lemma private_sample : private_request sample_post.
Proof. right. left. by split. Qed.

Lemma private_request_not_public_witness :
  (ToPublicInjector ∉ channels (OriginOrBlindInjector InjectBep5Http)) /\ (ToDCache ∉ channels (OriginOrBlindInjector InjectBep5Http)).
Proof. apply (private_request_not_public sample_post sample_config); [exact private_sample|vm_compute; reflexivity]. Defined.

Lemma loopback_stays_local_witness : channels Origin = [ToFrontEnd] \/ channels Origin = [ToOrigin].
Proof. by apply (loopback_stays_local sample_loopback sample_config Origin); vm_compute. Defined.

Lemma route_roundtrip_witness : choose_by_route_field sample_loopback = Some (DCache Bep5Http).
Proof. by apply (route_roundtrip sample_loopback (DCache Bep5Http)). Defined.

Lemma private_address_leaks_witness :
  (~ private_request sample_post -> Route_choose sample_post sample_config = Some Origin) /\
  (private_request sample_post -> Route_choose sample_post sample_config = Some (OriginOrBlindInjector InjectBep5Http)).
Proof. apply (private_address_leaks sample_post sample_config 192 168 1 1); first [lia|done|by vm_compute]. Defined.

(** A client without a network: only the origin answers. *)
Definition sample_session : @Session unit := {| CacheControl.head := {| result := 200; rs_version := 11; rs_fields := [] |}; CacheControl.body := tt |}.

Definition sample_routes (injector_ok : bool) : @Routes unit :=
  {| front_end := fun _ => unexpected fault; origin := fun _ => value sample_session;
     public_injector := fun _ => if injector_ok then value sample_session else unexpected fault; private_injector := fun _ _ => unexpected fault;
     distributes_cache := fun _ => unexpected fault; routes_max_cached_age := -1 |}.

#[local] Instance no_fields : FieldTable := {| is_standard := fun _ => false |}.
#[local] Existing Instance sample_time.

Definition sample_timing (first : bool) : timing :=
  {| secondary_first := first; clock_before := not_a_date_time; clock_now := not_a_date_time; cc_schedule := [] |}.

Definition no_hash (s : list byte) : list byte := s.

Lemma dispatch_within_route_witness :
  dispatch no_hash no_hash (sample_routes true) (sample_timing false) sample_post (OriginOrBlindInjector InjectBep5Http) =
  dispatch no_hash no_hash (sample_routes false) (sample_timing false) sample_post (OriginOrBlindInjector InjectBep5Http).
Proof.
  refine (proj2 (dispatch_within_route no_hash no_hash (sample_routes true) (sample_routes false) (sample_timing false) sample_post sample_config
                   (OriginOrBlindInjector InjectBep5Http) _) private_sample _).
  - vm_compute. reflexivity.
  - by repeat constructor.
Defined.

Lemma dispatch_falls_back_witness :
  match dispatch no_hash no_hash (sample_routes false) (sample_timing true) sample_post (OriginOrBlindInjector InjectBep5Http) with
  | Some (value rs) => fetch_from_origin (sample_routes false) sample_post = value rs \/ unexpected fault = value rs
  | Some (unexpected e) => fetch_from_origin (sample_routes false) sample_post = unexpected e /\ exists e', @unexpected (@Response unit) fault = unexpected e'
  | None => False
  end.
Proof.
  apply (dispatch_falls_back no_hash no_hash (sample_routes false) (sample_timing true) sample_post (OriginOrBlindInjector InjectBep5Http) (BlindInjector InjectBep5Http)).
  - by left.
  - reflexivity.
  - reflexivity.
Defined.
