(* ===== verification/Access.v ===== *)
(** * Who may use a proxy, and to reach what: src/authenticate.h, the string form of [base64_decode] of src/util.cpp, [util::get_host_port] of src/http_util.cpp and [resolve_target] of src/injector.cpp *)
From S2P Require Import Prelude Number SplitString Url Http Regex Base64 CacheControl Routing.

(** ** Base64 into a string *)

(** [binary_from_base64] translates the padding to zero bits. *)
Class Base64Pad (T : Base64Table) : Prop := six_bits_pad : six_bits "="%byte = Some 0.

Section Decode.
Context `{Base64Table}.

(** [string out(begin, end)]: until the position is exactly the end. *)
Fixpoint decode_all (fuel : nat) (left : Z) (p : pending) (s : list byte) : decoded :=
  match fuel with
  | O => OutOfBounds
  | S fuel =>
      if left =? 0 then Bytes []
      else
        match next_octet p s with
        | inl e => e
        | inr (b, p', s', n) =>
            match decode_all fuel (left - n) p' s' with
            | Bytes out => Bytes (b :: out)
            | e => e
            end
        end
  end.

Definition count_pad (s : list byte) : nat := length (List.filter (fun c => bool_decide (c = "="%byte)) s).

Definition base64_decode_string (in_ : string_view) : decoded :=
  let s := chars in_ ++ behind in_ in
  match decode_all (S (length s)) (Z.of_nat (length (chars in_))) P0 s with
  | Bytes out => Bytes (take (length out - count_pad (chars in_)) out)
  | e => e
  end.

End Decode.

(** ** Credentials *)

Section Auth.
Context `{Base64Table}.

(** [None]: an exception, or a read out of bounds. *)
Definition parse_auth (encoded : string_view) : option (list byte) :=
  let encoded := trim_char " "%byte encoded in
  if negb (bool_decide (take 5 (chars encoded) = str "Basic")) then Some []
  else
    match base64_decode_string (trim_front " "%byte (substr_from 5 encoded)) with
    | Bytes decoded =>
        (* [const auto s = decoded.size() >= 2] is a [bool]: [decoded[s - 1]] is the first character, [decoded[s - 2]] is before it *)
        match decoded with
        | c :: _ :: _ => if bool_decide (c = Byte.xa3) then None else Some decoded
        | _ => Some decoded
        end
    | _ => None
    end.

Definition proxy_authorization : list byte := str "Proxy-Authorization".

Variant access := Granted | Denied | Throws_.

(** [authenticate]; the reply that asks for credentials is sent if it is [Denied]. *)
Definition authenticate (rq : request_header) (credentials : list byte) : access * request_header :=
  if bool_decide (credentials = []) then (Granted, rq)
  else
    match find_field proxy_authorization (rq_fields rq) with
    | None => (Denied, rq)
    | Some auth =>
        match parse_auth (field_view auth) with
        | None => (Throws_, rq)
        | Some computed =>
            (if bool_decide (computed = credentials) then Granted else Denied,
             set_rq_fields rq (erase_field proxy_authorization (rq_fields rq)))
        end
    end.

Definition authorize (rq : request_header) (credentials : list byte) : request_header :=
  set_rq_fields rq (set_field proxy_authorization (str "Basic " ++ util_base64_encode credentials) (rq_fields rq)).

End Auth.

(** ** Targets *)

(** [boost::urls::parse_uri] as far as it is used: host and port. *)
Class UriParser := { parse_uri : list byte -> option (list byte * list byte) }.

Variant host_port := HostPort (host : list byte) (port : Z) | NoHost | BadPort.

Section Targets.
Context `{UriParser}.

Definition parse_port (default_port : Z) (w : width) (port : string_view) (host : list byte) : host_port :=
  match chars port with
  | [] => HostPort host default_port
  | _ => match fst (number_of_view w port) with Some p => HostPort host (p mod 2 ^ 16) | None => BadPort end
  end.

Definition get_host_port (rq : request_header) : host_port :=
  let port := if starts_with (target rq) (str "https:") || starts_with (target rq) (str "wss:") then 443 else 80 in
  let hp := if bool_decide (method rq = str "CONNECT") then target rq else get_host rq in
  if bool_decide (hp = []) && (version rq =? 10) then
    match parse_uri (target rq) with
    | None => NoHost
    | Some (host, port_sv) => parse_port port W4 (view_of port_sv) host
    end
  else let '(host, port_sv) := split_ep hp in parse_port port W2 (field_view port_sv) host.

(** The check of the addresses that a name resolves to, which stops at the first that is not allowed. *)
Fixpoint check_lookup (allow_private_targets : bool) (local priv : bool) (lookup : list (list byte)) : bool * bool :=
  match lookup with
  | [] => (local, priv)
  | r :: lookup' =>
      let local := regex_match localhost_rx r in
      if local then (local, priv)
      else
        let priv := regex_match private_addr_rx r in
        if priv && negb allow_private_targets then (local, priv)
        else check_lookup allow_private_targets local priv lookup'
  end.

(** [resolve] is the DNS resolver: the addresses as text. *)
Definition resolve_target (resolve : list byte -> Z -> expected (list (list byte))) (allow_private_targets : bool) (rq : request_header) : option (expected (list (list byte))) :=
  match get_host_port rq with
  | BadPort => None
  | NoHost => Some (unexpected invalid_argument)
  | HostPort host port =>
      let local := regex_match localhost_rx host in
      let priv := regex_match private_addr_rx host in
      let looked_up := if (negb local && negb priv) || allow_private_targets then resolve host port else value [] in
      match looked_up with
      | unexpected e => Some (unexpected e)
      | value lookup =>
          let '(local, priv) := check_lookup allow_private_targets local priv lookup in
          if (local || priv) && negb allow_private_targets then Some (unexpected invalid_argument)
          else Some (value lookup)
      end
  end.

End Targets.

(** ** Theorems *)

Section Theorems.
Context {T : Base64Table} {L : Base64TableLaws T} {Pd : Base64Pad T}.

(** Four characters with their bits. *)
Lemma decode_four fuel left c1 c2 c3 c4 v1 v2 v3 v4 s :
  4 <= left -> six_bits c1 = Some v1 -> six_bits c2 = Some v2 -> six_bits c3 = Some v3 -> six_bits c4 = Some v4 ->
  decode_all (S (S (S fuel))) left P0 (c1 :: c2 :: c3 :: c4 :: s) =
  match decode_all fuel (left - 4) P0 s with
  | Bytes out => Bytes (byte_of (v1 * 4 + v2 / 16) :: byte_of (v2 mod 16 * 16 + v3 / 4) :: byte_of (v3 mod 4 * 64 + v4) :: out)
  | e => e
  end.
Proof.
  intros Hl H1 H2 H3 H4. cbn [decode_all next_octet next_six]. destruct (Z.eqb_spec left 0); [lia|]. rewrite H1. cbn [next_six]. rewrite H2. cbn iota beta.
  destruct (Z.eqb_spec (left - 2) 0); [lia|]. cbn [next_octet next_six]. rewrite H3. cbn iota beta.
  destruct (Z.eqb_spec (left - 2 - 1) 0); [lia|]. cbn [next_octet next_six]. rewrite H4. cbn iota beta.
  replace (left - 2 - 1 - 1) with (left - 4) by lia. by destruct (decode_all fuel (left - 4) P0 s).
Qed.

(** The zero bytes that the padding decodes to. *)
Definition pad_bytes (s : list byte) : list byte := replicate ((3 - length s mod 3) mod 3) Byte.x00.

Lemma mod_step n : (S (S (S n)) mod 3 = n mod 3)%nat.
Proof. replace (S (S (S n))) with (n + 1 * 3)%nat by lia. by rewrite Nat.Div0.mod_add. Qed.

Lemma string_decode_encoded s : forall fuel b, (length (util_base64_encode s) < fuel)%nat ->
  decode_all fuel (Z.of_nat (length (util_base64_encode s))) P0 (util_base64_encode s ++ b) = Bytes (s ++ pad_bytes s).
Proof.
  remember (length s) as n eqn:En. revert s En. induction (lt_wf n) as [n _ IH]. intros s -> fuel b Hf. unfold util_base64_encode in *.
  destruct s as [|x1 [|x2 [|x3 s]]].
  - destruct fuel; [cbn in Hf; lia|done].
  - pose proof (code_range x1). change (encode_groups [x1] ++ _) with [six_char (code x1 / 4); six_char (code x1 mod 4 * 16); "="%byte; "="%byte] in *. cbn [length] in *.
    destruct fuel as [|[|[|[|fuel]]]]; [lia..|]. cbn [app]. rewrite (decode_four _ _ _ _ _ _ (code x1 / 4) (code x1 mod 4 * 16) 0 0);
      [|lia|apply six_bits_char; dlia|apply six_bits_char; dlia|apply six_bits_pad|apply six_bits_pad].
    replace (Z.of_nat 4 - 4) with 0 by lia. cbn [decode_all Z.eqb]. rewrite (byte_of_eq x1) by dlia.
    replace ((code x1 mod 4 * 16) mod 16 * 16 + 0 / 4) with 0 by dlia. reflexivity.
  - pose proof (code_range x1). pose proof (code_range x2).
    change (encode_groups [x1; x2] ++ _) with [six_char (code x1 / 4); six_char (code x1 mod 4 * 16 + code x2 / 16); six_char (code x2 mod 16 * 4); "="%byte] in *. cbn [length] in *.
    destruct fuel as [|[|[|[|fuel]]]]; [lia..|]. cbn [app]. rewrite (decode_four _ _ _ _ _ _ (code x1 / 4) (code x1 mod 4 * 16 + code x2 / 16) (code x2 mod 16 * 4) 0);
      [|lia|apply six_bits_char; dlia|apply six_bits_char; dlia|apply six_bits_char; dlia|apply six_bits_pad].
    replace (Z.of_nat 4 - 4) with 0 by lia. cbn [decode_all Z.eqb]. rewrite (byte_of_eq x1) by dlia. rewrite (byte_of_eq x2) by dlia.
    replace ((code x2 mod 16 * 4) mod 4 * 64 + 0) with 0 by dlia. reflexivity.
  - pose proof (code_range x1). pose proof (code_range x2). pose proof (code_range x3). cbn [encode_groups length app] in *.
    assert (pad_bytes (x1 :: x2 :: x3 :: s) = pad_bytes s) as -> by (unfold pad_bytes; cbn [length]; by rewrite (mod_step (length s))).
    rewrite (mod_step (length s)) in *. destruct fuel as [|[|[|fuel]]]; [lia..|].
    rewrite (decode_four _ _ _ _ _ _ (code x1 / 4) (code x1 mod 4 * 16 + code x2 / 16) (code x2 mod 16 * 4 + code x3 / 64) (code x3 mod 64));
      [|lia|apply six_bits_char; dlia|apply six_bits_char; dlia|apply six_bits_char; dlia|apply six_bits_char; dlia].
    pose proof (IH (length s) ltac:(cbn; lia) s eq_refl fuel b) as IHs. set (e := encode_groups s ++ _) in *. replace (Z.of_nat (S (S (S (S (length e))))) - 4) with (Z.of_nat (length e)) by lia.
    rewrite IHs by lia. rewrite (byte_of_eq x1), (byte_of_eq x2), (byte_of_eq x3) by dlia. done.
Qed.

Lemma encoded_pads s : count_pad (util_base64_encode s) = ((3 - length s mod 3) mod 3)%nat.
Proof.
  unfold count_pad, util_base64_encode. rewrite List.filter_app, length_app. set (n := ((3 - length s mod 3) mod 3)%nat).
  assert (List.filter (fun c => bool_decide (c = "="%byte)) (encode_groups s) = []) as ->.
  { pose proof (encode_groups_text s) as Ht. induction Ht as [|c l Hc _ IH]; [done|]. cbn [List.filter]. rewrite bool_decide_false; [done|]. by intros ->. }
  cbn [length Nat.add]. induction n as [|n IH]; [done|]. cbn [replicate List.filter]. rewrite bool_decide_true by done. cbn. by rewrite IH.
Qed.

Lemma decode_string_encoded s b : base64_decode_string {| chars := util_base64_encode s; behind := b |} = Bytes s.
Proof.
  unfold base64_decode_string. cbn [chars behind]. rewrite string_decode_encoded by (rewrite length_app; lia).
  rewrite encoded_pads, length_app. unfold pad_bytes. rewrite length_replicate. by rewrite Nat.add_sub, take_app_length.
Qed.

Lemma encoded_no_space s : Forall (fun c => c <> " "%byte) (util_base64_encode s).
Proof.
  unfold util_base64_encode. apply Forall_app. split; [|apply Forall_replicate; done].
  eapply Forall_impl; [apply encode_groups_text|]. intros c Hc ->. done.
Qed.

Lemma count_while_none c s : Forall (fun x => x <> c) s -> count_while c s = O.
Proof. destruct 1 as [|x l Hx _]; [done|]. cbn. by rewrite bool_decide_false. Qed.

Lemma encoded_nonempty s : s <> [] -> util_base64_encode s <> [].
Proof. unfold util_base64_encode. by destruct s as [|a [|b [|c s]]]. Qed.

Lemma erase_set name v fs : erase_field name (set_field name v fs) = erase_field name fs.
Proof.
  unfold set_field, erase_field. rewrite List.filter_app. cbn [List.filter]. assert (same_name name (name, v) = true) as -> by by apply iequals_true.
  cbn [negb]. rewrite app_nil_r. induction fs as [|f fs IH]; [done|]. cbn [List.filter]. destruct (negb (same_name name f)) eqn:E; [|done]. cbn [List.filter]. by rewrite E, IH.
Qed.

(** What [authorize] writes is read back. *)
Lemma parse_authorized c :
  c <> [] -> match c with x :: _ :: _ => x <> Byte.xa3 | _ => True end -> parse_auth (field_view (str "Basic " ++ util_base64_encode c)) = Some c.
Proof.
  intros Hne Hx. set (e := util_base64_encode c). assert (Forall (fun x => x <> " "%byte) (rev e)) as Hrev by (apply Forall_rev, encoded_no_space).
  assert (trim_char " "%byte (field_view (str "Basic " ++ e)) = field_view (str "Basic " ++ e)) as Ht.
  { unfold trim_char, field_view. assert (trim_front " "%byte {| chars := str "Basic " ++ e; behind := [Byte.x0d; Byte.x0a] |} = {| chars := str "Basic " ++ e; behind := [Byte.x0d; Byte.x0a] |}) as -> by done.
    unfold trim_back. cbn [chars behind]. rewrite rev_app_distr.
    assert (count_while " "%byte (rev e ++ rev (str "Basic ")) = O) as ->.
    { pose proof (encoded_nonempty c Hne) as Hn. fold e in Hn. destruct (rev e) as [|x l] eqn:El; [apply (f_equal (@rev byte)) in El; by rewrite rev_involutive in El|].
      cbn. apply Forall_cons in Hrev as [Hx1 _]. by rewrite bool_decide_false. }
    rewrite Nat.sub_0_r, take_ge, drop_ge by done. done. }
  unfold parse_auth. rewrite Ht. cbn [field_view chars]. change (take 5 (str "Basic " ++ e)) with (str "Basic"). rewrite bool_decide_true by done. cbn [negb].
  assert (trim_front " "%byte (substr_from 5 (field_view (str "Basic " ++ e))) = {| chars := e; behind := [Byte.x0d; Byte.x0a] |}) as ->.
  { unfold substr_from, field_view, trim_front. cbn [chars behind]. change (drop 5 (str "Basic " ++ e)) with (" "%byte :: e). cbn [count_while]. rewrite bool_decide_true by done.
    rewrite count_while_none by apply encoded_no_space. done. }
  unfold e. rewrite decode_string_encoded. destruct c as [|x [|y c]]; [done|done|]. by rewrite bool_decide_false.
Qed.

(** a request that is authorized with some credentials is let through exactly if these are the expected ones, byte by byte, and the credentials are not passed on; except for
    credentials that begin with the byte A3, for which the code reads out of bounds. *)
Theorem authorized_iff_same (rq : request_header) (given expected_ : list byte) :
  given <> [] -> expected_ <> [] -> match given with x :: _ :: _ => x <> Byte.xa3 | _ => True end ->
  authenticate (authorize rq given) expected_ =
    (if bool_decide (given = expected_) then Granted else Denied, set_rq_fields rq (erase_field proxy_authorization (rq_fields rq))).
Proof.
  intros Hg He Hx. unfold authenticate. rewrite (bool_decide_false (expected_ = [])) by done. unfold authorize. cbn [rq_fields set_rq_fields].
  rewrite find_set_same, parse_authorized by done. f_equal. unfold set_rq_fields. cbn. f_equal. apply erase_set.
Qed.

End Theorems.

(** ** Which targets an injector connects to *)

Lemma check_lookup_clean lookup : forall local priv,
  check_lookup false local priv lookup = (false, false) ->
  Forall (fun r => regex_match localhost_rx r = false /\ regex_match private_addr_rx r = false) lookup.
Proof.
  induction lookup as [|r lookup IH]; intros local priv; cbn [check_lookup]; [constructor|]. destruct (regex_match localhost_rx r) eqn:E1; [done|].
  destruct (regex_match private_addr_rx r) eqn:E2; cbn [negb andb]; [done|]. intros Hc%IH. by constructor.
Qed.

Section Injector.
Context `{UriParser}.

(** unless private targets are allowed, an injector connects to no address that is a loopback or private one, neither if the request names it nor if a name resolves to it; what it connects to
    is what the resolver gave for the host and port of the request. *)
Theorem resolve_target_safe (resolve : list byte -> Z -> expected (list (list byte))) (rq : request_header) (lookup : list (list byte)) :
  resolve_target resolve false rq = Some (value lookup) ->
  Forall (fun r => regex_match localhost_rx r = false /\ regex_match private_addr_rx r = false) lookup /\
  (forall a b c d, 0 <= a < 256 -> 0 <= b < 256 -> 0 <= c < 256 -> 0 <= d < 256 -> dotted a b c d ∈ lookup -> a <> 127 /\ private_network a b = false) /\
  exists host port, get_host_port rq = HostPort host port /\ resolve host port = value lookup /\
    regex_match localhost_rx host = false /\ regex_match private_addr_rx host = false.
Proof.
  unfold resolve_target. destruct (get_host_port rq) as [host port| |]; [|done..].
  destruct (regex_match localhost_rx host) eqn:E1; cbn [negb andb orb]; [done|].
  destruct (regex_match private_addr_rx host) eqn:E2; cbn [negb andb orb]; [done|].
  destruct (resolve host port) as [l|e] eqn:Er; [|done]. destruct (check_lookup false false false l) as [local priv] eqn:Ec.
  destruct local; cbn [orb andb negb]; [done|]. destruct priv; [done|]. intros [= <-]. apply check_lookup_clean in Ec. split_and!; [done| |by exists host, port].
  intros a b c d Ha Hb Hc Hd Hin. rewrite Forall_forall in Ec. apply Ec in Hin as [H1 H2]. rewrite loopback_dotted in H1 by done. rewrite private_dotted in H2 by done.
  split; [|done]. intros ->. done.
Qed.

End Injector.

(** ** Witnesses *)

#[local] Instance no_uris : UriParser := {| parse_uri := fun _ => None |}.

Definition sample_get : request_header :=
  {| method := str "GET"; target := str "http://example.com/"; version := 11; rq_fields := [(str "Host", str "example.com:8080")] |}.

Definition sample_resolver (host : list byte) (port : Z) : expected (list (list byte)) := value [dotted 93 184 216 34].

Lemma resolve_target_safe_witness :
  Forall (fun r => regex_match localhost_rx r = false /\ regex_match private_addr_rx r = false) [dotted 93 184 216 34] /\
  (forall a b c d, 0 <= a < 256 -> 0 <= b < 256 -> 0 <= c < 256 -> 0 <= d < 256 -> dotted a b c d ∈ [dotted 93 184 216 34] -> a <> 127 /\ private_network a b = false) /\
  exists host port, get_host_port sample_get = HostPort host port /\ sample_resolver host port = value [dotted 93 184 216 34] /\
    regex_match localhost_rx host = false /\ regex_match private_addr_rx host = false.
Proof. apply (resolve_target_safe sample_resolver sample_get). vm_compute. reflexivity. Defined.

#[local] Instance padded_table : Base64Table :=
  {| six_char := @six_char rfc4648; six_bits c := if bool_decide (c = "="%byte) then Some 0 else @six_bits rfc4648 c |}.

#[local] Instance padded_table_laws : Base64TableLaws padded_table.
Proof.
  split; intros v Hv; [|by apply (@six_char_text rfc4648 rfc4648_laws)].
  change (@six_bits padded_table (@six_char padded_table v)) with (if bool_decide (@six_char rfc4648 v = "="%byte) then Some 0 else @six_bits rfc4648 (@six_char rfc4648 v)).
  pose proof (@six_char_text rfc4648 rfc4648_laws v Hv) as Ht. rewrite (@six_bits_char rfc4648 rfc4648_laws v Hv). revert Ht. generalize (@six_char rfc4648 v) as c.
  intros c Ht. rewrite bool_decide_false; [done|]. by intros ->.
Qed.

#[local] Instance padded_table_pad : Base64Pad padded_table.
Proof. done. Qed.

Lemma authorized_iff_same_witness :
  authenticate (authorize sample_get (str "test:123")) (str "test:123") = (Granted, set_rq_fields sample_get (erase_field proxy_authorization (rq_fields sample_get))).
Proof. by apply (authorized_iff_same sample_get (str "test:123") (str "test:123")). Defined.

(** The pound sign at the end, which the code means to remove, is kept, and the password is not accepted. *)
Example pound_sign_kept :
  fst (authenticate (authorize sample_get (str "test:123" ++ [Byte.xc2; Byte.xa3])) (str "test:123")) = Denied.
Proof. vm_compute. reflexivity. Qed.
