(* ===== verification/ClientServe.v ===== *)
(** * Serving a user agent: [serve_request] of src/client.cpp

    A connection is a sequence of requests; the state that is kept between them is whether the connection is inside of the tunnel that a CONNECT request opened, and to where.  What happens outside (the handshake,
    the writes, the fetches) is an argument of a step; a step gives what was done and how the loop goes on.  The websocket forwarding and the pages of errors are not modelled further than that they happen. *)
From S2P Require Import Prelude Number SplitString Url Http Regex Request CacheControl Base64 Routing Access.

Section Code.
Context {P : PosixTime} {Body : Type} {T : FieldTable} {B : Base64Table} {U : UriParser}.
Variables sha1 sha256 : list byte -> list byte.
(** [keep_alive] of Beast's messages. *)
Variables (rq_keep_alive : request_header -> bool) (rs_keep_alive : response_header -> bool).

Record ServeConfig := {
  routing : ClientConfig;
  client_credentials : list byte;
  proxy_access_token : option (list byte);
  add_request_fields : fields;
  do_cache_private : bool;
  has_cache : bool;
}.

Variables (config : ServeConfig) (routes : @Routes Body).

Record conn := { mitm : bool; connect_hp : list byte }.

(** What happens outside while a request is served. *)
Record world := { handshake_ok : bool; reply_ok : bool; wrap_ok : bool; write_ok : bool; when_ : timing }.

Variant action :=
| AskedForCredentials
| Upgraded (rq : request_header)
| SentError (status : Z)
| Dispatched (rq : request_header) (route : Route)
| Served (rs : @Response Body) (stored : bool).

Variant next := Continue (c : conn) | Break | Waiting | Exception.

(** *** Before a request is looked at *)

Definition add_fields (rq : request_header) : request_header :=
  set_rq_fields rq (fold_left (fun fs f => set_field (fst f) (snd f) fs) (add_request_fields config) (rq_fields rq)).

(** [rfind] of a string: the last occurrence. *)
Fixpoint rfind (p s : list byte) : option nat :=
  match s with
  | [] => if bool_decide (p = []) then Some O else None
  | _ :: s' =>
      match rfind p s' with
      | Some n => Some (S n)
      | None => if starts_with s p then Some O else None
      end
  end.

(** The maximum of a position and [npos] is [npos]: the last occurrence anywhere. *)
Definition host_of_connect (target : list byte) : list byte :=
  match rfind (str ":443") target with Some n => take n target | None => target end.

Definition is_websocket_upgrade (rq : request_header) : bool :=
  iequals (field_value (str "Upgrade") (rq_fields rq)) (str "websocket") &&
  existsb (fun s => iequals (chars s) (str "Upgrade")) (SplitString (field_view (field_value (str "Connection") (rq_fields rq))) ","%byte).

(** [maybe_handle_websocket_upgrade] of such a request. *)
Definition upgrade_websocket (c : conn) (rq : request_header) : action :=
  if negb (starts_with (target rq) (str "ws:")) && negb (starts_with (target rq) (str "wss:")) then
    if bool_decide (connect_hp c = []) then SentError 400
    else
      let host := match get_host rq with [] => connect_hp c | host => host end in
      Upgraded (set_target rq (str "wss://" ++ host ++ target rq))
  else Upgraded rq.

Definition is_proxy_like (target : list byte) : bool := starts_with target (str "https://") || starts_with target (str "http://").

(** Inside of the tunnel the target is completed. *)
Definition expand_target (c : conn) (rq : request_header) : request_header :=
  let rq := match get_host rq with
            | [] => set_rq_fields rq (set_field (str "Host") (connect_hp c) (rq_fields rq))
            | _ => rq
            end in
  set_target rq (str "https://" ++ get_host rq ++ target rq).

(** [detail::http_host_header] *)
Definition http_host_header (host port : list byte) : list byte :=
  match host, port with
  | [], _ => []
  | _, [] => host
  | _, _ => if bool_decide (":"%byte ∈ host) then str "[" ++ host ++ str "]:" ++ port else host ++ str ":" ++ port
  end.

Variant ensured := Ensured (rq : request_header) | NotEnsured | EnsureThrows.

Definition req_ensure_host (rq : request_header) : ensured :=
  match get_host rq with
  | _ :: _ => Ensured rq
  | [] =>
      match get_host_port rq with
      | NoHost => NotEnsured
      | BadPort => EnsureThrows
      | HostPort host port =>
          match http_host_header host (to_string port) with
          | [] => NotEnsured
          | hosth => Ensured (set_rq_fields rq (set_field (str "Host") hosth (rq_fields rq)))
          end
      end
  end.

(** *** Storing *)

Definition response_head (rs : @Response Body) : response_header :=
  match rs with
  | FromFrontEnd s | FromOrigin s | FromDCache _ s | FromLocalCache s | FromPublicInjector _ s | FromPrivateInjector s | FromOuisync s => CacheControl.head s
  end.

(** [maybe_wrap_in_storing_session] of a request for the cache. *)
Definition is_stored (rq : CacheRequest) (s : @Session Body) : bool :=
  let source := field_value response_source_hdr (rs_fields (CacheControl.head s)) in
  has_cache config && bool_decide (method (_header rq) = str "GET") &&
  (bool_decide (source = response_source_hdr_dist_cache) || bool_decide (source = response_source_hdr_injector)) &&
  bool_decide (field_value response_error_hdr (rs_fields (CacheControl.head s)) = []) &&
  ok_to_cache (_header rq) (CacheControl.head s) (do_cache_private config).

Definition stores (rs : @Response Body) : bool :=
  match rs with
  | FromDCache rq s | FromPublicInjector rq s => is_stored rq s
  | _ => false
  end.

(** *** One request *)

(** The reply that says that nothing was retrieved, and the end of the turn. *)
Definition retrieval_failure (c : conn) (rq : request_header) (w : world) : list action * next :=
  ([SentError 502], if reply_ok w && rq_keep_alive rq then Continue c else Break).

(** After another error the result of the reply is an error code, which is true if it failed. *)
Definition error_reply (status : Z) (c : conn) (rq : request_header) (w : world) : list action * next :=
  ([SentError status], if negb (reply_ok w) && rq_keep_alive rq then Continue c else Break).

Definition serve_routed (c : conn) (rq : request_header) (w : world) : list action * next :=
  match Route_choose rq (routing config) with
  | None => retrieval_failure c rq w
  | Some route =>
      match dispatch sha1 sha256 routes (when_ w) rq route with
      | None => ([Dispatched rq route], Waiting)
      | Some (unexpected _) => let '(acts, n) := retrieval_failure c rq w in (Dispatched rq route :: acts, n)
      | Some (value rs) =>
          if stores rs && negb (wrap_ok w) then let '(acts, n) := retrieval_failure c rq w in (Dispatched rq route :: acts, n)
          else if negb (write_ok w) then let '(acts, n) := retrieval_failure c rq w in (Dispatched rq route :: Served rs (stores rs) :: acts, n)
          else ([Dispatched rq route; Served rs (stores rs)], if rq_keep_alive rq && rs_keep_alive (response_head rs) then Continue c else Break)
      end
  end.

Definition has_token (rq : request_header) : bool :=
  match proxy_access_token config with
  | None => true
  | Some token => bool_decide (token = field_value (str "X-Ouinet-Proxy-Token") (rq_fields rq))
  end.

Definition serve_proxied (c : conn) (rq : request_header) (w : world) : list action * next :=
  if negb (has_token rq) then error_reply 401 c rq w
  else
    match req_ensure_host rq with
    | EnsureThrows => ([], Exception)
    | NotEnsured => error_reply 400 c rq w
    | Ensured rq => serve_routed c rq w
    end.

Definition serve_clear (c : conn) (rq : request_header) (w : world) : list action * next :=
  if negb (mitm c) && bool_decide (method rq = str "CONNECT") then
    if handshake_ok w then ([], Continue {| mitm := true; connect_hp := host_of_connect (target rq) |}) else ([], Break)
  else if is_websocket_upgrade rq then ([upgrade_websocket c rq], Break)
  else if is_proxy_like (target rq) then serve_proxied c rq w
  else if mitm c then serve_proxied c (expand_target c rq) w
  else error_reply 400 c rq w.

(** A turn of the loop of [serve_request]. *)
Definition serve_one (c : conn) (rq : request_header) (w : world) : list action * next :=
  let rq := add_fields rq in
  if mitm c then serve_clear c rq w
  else
    match authenticate rq (client_credentials config) with
    | (Throws_, _) => ([], Exception)
    | (Denied, _) => ([AskedForCredentials], Continue c)
    | (Granted, rq) => serve_clear c rq w
    end.

(** The requests of a connection. *)
Fixpoint serve_request (c : conn) (rqs : list (request_header * world)) : list action :=
  match rqs with
  | [] => []
  | (rq, w) :: rqs' =>
      let '(acts, n) := serve_one c rq w in
      acts ++ match n with Continue c => serve_request c rqs' | _ => [] end
  end.

Definition new_connection : conn := {| mitm := false; connect_hp := [] |}.

End Code.

(** ** What is dispatched *)

Section Facts.
Context {P : PosixTime} {Body : Type} {T : FieldTable} {B : Base64Table} {U : UriParser}.
Variables sha1 sha256 : list byte -> list byte.
Variables (rq_keep_alive : request_header -> bool) (rs_keep_alive : response_header -> bool).
Variables (config : ServeConfig) (routes : @Routes Body).

Abbreviation serve_one := (serve_one sha1 sha256 rq_keep_alive rs_keep_alive config routes).
Abbreviation serve_request := (serve_request sha1 sha256 rq_keep_alive rs_keep_alive config routes).

(** A request that may be dispatched. *)
Record acceptable (rq : request_header) (route : Route) : Prop := {
  acc_target : is_proxy_like (target rq) = true;
  acc_host : get_host rq <> [];
  acc_token : has_token config rq = true;
  acc_route : Route_choose rq (routing config) = Some route;
}.

Lemma starts_with_app p s : starts_with (p ++ s) p = true.
Proof. unfold starts_with. apply bool_decide_eq_true. by rewrite take_app_length. Qed.

Lemma not_dispatched_failure c rq w rq' route : Dispatched (Body:=Body) rq' route ∉ fst (retrieval_failure rq_keep_alive c rq w).
Proof. unfold retrieval_failure. cbn. rewrite list_elem_of_singleton. done. Qed.

Lemma routed_dispatches c rq w rq' route :
  Dispatched rq' route ∈ fst (serve_routed sha1 sha256 rq_keep_alive rs_keep_alive config routes c rq w) -> rq' = rq /\ Route_choose rq (routing config) = Some route.
Proof.
  unfold serve_routed. destruct (Route_choose rq (routing config)) as [r|] eqn:Er; [|by intros []%not_dispatched_failure].
  destruct (dispatch _ _ _ _ rq r) as [[rs|e]|]; [destruct (stores config rs && _); [|destruct (negb (write_ok w))]|..];
    cbn; rewrite ?elem_of_cons, ?elem_of_nil; intros Hin; naive_solver.
Qed.

Lemma host_name_differs name v fs : iequals (str "Host") name = false -> find_field name (set_field (str "Host") v fs) = find_field name fs.
Proof. apply find_set_other. Qed.

(** A host header is added at most. *)
Lemma ensure_host_spec rq rq' :
  req_ensure_host rq = Ensured rq' ->
  target rq' = target rq /\ get_host rq' <> [] /\ forall name, iequals (str "Host") name = false -> find_field name (rq_fields rq') = find_field name (rq_fields rq).
Proof.
  unfold req_ensure_host. destruct (get_host rq) as [|x host] eqn:Eh.
  - destruct (get_host_port rq) as [host port| |]; [|done..]. destruct (http_host_header host (to_string port)) as [|y hosth]; [done|]. intros [= <-].
    split_and!; [done| |intros name Hn; by apply host_name_differs]. unfold get_host, field_value. cbn [rq_fields set_rq_fields]. by rewrite find_set_same.
  - intros [= <-]. rewrite Eh. done.
Qed.

Lemma proxied_dispatches c rq w rq' route :
  is_proxy_like (target rq) = true ->
  Dispatched rq' route ∈ fst (serve_proxied sha1 sha256 rq_keep_alive rs_keep_alive config routes c rq w) ->
  acceptable rq' route /\ forall name, iequals (str "Host") name = false -> find_field name (rq_fields rq') = find_field name (rq_fields rq).
Proof.
  intros Ht. unfold serve_proxied. destruct (has_token config rq) eqn:Etok; cbn [negb]; [|cbn; by rewrite list_elem_of_singleton].
  destruct (req_ensure_host rq) as [rq1| |] eqn:Ee; [|cbn; by rewrite list_elem_of_singleton|cbn; by intros ?%not_elem_of_nil].
  destruct (ensure_host_spec _ _ Ee) as (Ht1 & Hh & Hf). intros [-> Hr]%routed_dispatches. split; [|done]. split; [by rewrite Ht1|done| |done].
  unfold has_token, field_value in *. by rewrite Hf.
Qed.

Lemma expanded_fields c rq name : iequals (str "Host") name = false -> find_field name (rq_fields (expand_target c rq)) = find_field name (rq_fields rq).
Proof. intros Hn. unfold expand_target. cbn. destruct (get_host rq); [by apply host_name_differs|done]. Qed.

Lemma expanded_proxy_like c rq : is_proxy_like (target (expand_target c rq)) = true.
Proof. unfold is_proxy_like, expand_target. cbn [target set_target]. by rewrite starts_with_app. Qed.

Lemma clear_dispatches c rq w rq' route :
  Dispatched rq' route ∈ fst (serve_clear sha1 sha256 rq_keep_alive rs_keep_alive config routes c rq w) ->
  acceptable rq' route /\ forall name, iequals (str "Host") name = false -> find_field name (rq_fields rq') = find_field name (rq_fields rq).
Proof.
  unfold serve_clear. destruct (negb (mitm c) && _); [destruct (handshake_ok w); cbn; by intros ?%not_elem_of_nil|].
  destruct (is_websocket_upgrade rq).
  { unfold upgrade_websocket. cbn. rewrite list_elem_of_singleton. destruct (_ && _); [|done]. by destruct (bool_decide _). }
  destruct (is_proxy_like (target rq)) eqn:Et; [by apply proxied_dispatches|]. destruct (mitm c); [|cbn; by rewrite list_elem_of_singleton].
  intros Hd. destruct (proxied_dispatches _ _ _ _ _ (expanded_proxy_like c rq) Hd) as [Ha Hf]. split; [done|]. intros name Hn. rewrite Hf by done. by apply expanded_fields.
Qed.

Lemma erased_not_found name fs : find_field name (erase_field name fs) = None.
Proof.
  unfold find_field, erase_field. induction fs as [|f fs IH]; [done|]. cbn. destruct (same_name name f) eqn:E; cbn; [done|]. by rewrite E.
Qed.

(** The connection goes on in the tunnel only if the request was let through. *)
Lemma one_dispatches c rq w :
  (forall rq' route, Dispatched rq' route ∈ fst (serve_one c rq w) ->
     acceptable rq' route /\ (mitm c = true \/ fst (authenticate (add_fields config rq) (client_credentials config)) = Granted /\
       (client_credentials config <> [] -> find_field proxy_authorization (rq_fields rq') = None))) /\
  (forall c', snd (serve_one c rq w) = Continue c' -> mitm c' = true -> mitm c = true \/ fst (authenticate (add_fields config rq) (client_credentials config)) = Granted).
Proof.
  unfold ClientServe.serve_one. destruct (mitm c) eqn:Em.
  { split; [|by left]. intros rq' route [Ha _]%clear_dispatches. split; [done|by left]. }
  destruct (authenticate (add_fields config rq) (client_credentials config)) as [a rq1] eqn:Ea. destruct a; cbn [fst snd].
  - split; [|intros; by right]. intros rq' route [Ha Hf]%clear_dispatches. split; [done|]. right. split; [done|]. intros Hc. rewrite Hf by done.
    unfold authenticate in Ea. rewrite bool_decide_false in Ea by done. destruct (find_field proxy_authorization _) as [auth|]; [|done].
    destruct (parse_auth _); [|done]. injection Ea as _ <-. cbn. apply erased_not_found.
  - split; [intros rq' route; by rewrite list_elem_of_singleton|]. intros c' [= <-] Hm. congruence.
  - split; [by intros rq' route ?%not_elem_of_nil|done].
Qed.

(** A response is served right after the request that it answers was dispatched, and what is said to be stored is what the rules say. *)
Definition answers (w : world) (acts : list action) (rs : @Response Body) (stored : bool) : Prop :=
  exists rq0 route rest, acts = Dispatched rq0 route :: Served rs stored :: rest /\ acceptable rq0 route /\
    dispatch sha1 sha256 routes (when_ w) rq0 route = Some (value rs) /\ stores config rs = stored.

Lemma proxied_served c rq w rs stored :
  is_proxy_like (target rq) = true -> Served rs stored ∈ fst (serve_proxied sha1 sha256 rq_keep_alive rs_keep_alive config routes c rq w) ->
  answers w (fst (serve_proxied sha1 sha256 rq_keep_alive rs_keep_alive config routes c rq w)) rs stored.
Proof.
  intros Ht. pose proof (proxied_dispatches c rq w) as Hd. revert Hd. unfold serve_proxied. destruct (negb _); [cbn; by rewrite list_elem_of_singleton|].
  destruct (req_ensure_host rq) as [rq1| |]; [|cbn; by rewrite list_elem_of_singleton|cbn; by intros _ ?%not_elem_of_nil].
  unfold serve_routed. destruct (Route_choose rq1 (routing config)) as [r|]; [|cbn; by rewrite list_elem_of_singleton]. intros Hd.
  assert (forall rest, acceptable rq1 r -> dispatch sha1 sha256 routes (when_ w) rq1 r = Some (value rs) -> stores config rs = stored ->
    answers w (Dispatched rq1 r :: Served rs stored :: rest) rs stored) as Ha by (intros rest ???; by exists rq1, r, rest).
  destruct (dispatch _ _ _ _ rq1 r) as [[rs'|e]|] eqn:Ed; [destruct (stores config rs' && _); [|destruct (negb (write_ok w))]|..]; cbn in *;
    rewrite ?elem_of_cons, ?elem_of_nil; intros Hin; destruct_or?; simplify_eq; (apply Ha; [|done..]); (eapply Hd; [done|]); left.
Qed.

Lemma clear_served c rq w rs stored :
  Served rs stored ∈ fst (serve_clear sha1 sha256 rq_keep_alive rs_keep_alive config routes c rq w) ->
  answers w (fst (serve_clear sha1 sha256 rq_keep_alive rs_keep_alive config routes c rq w)) rs stored.
Proof.
  unfold serve_clear. destruct (negb (mitm c) && _); [destruct (handshake_ok w); cbn; by intros ?%not_elem_of_nil|].
  destruct (is_websocket_upgrade rq).
  { unfold upgrade_websocket. cbn. rewrite list_elem_of_singleton. destruct (_ && _); [|done]. by destruct (bool_decide _). }
  destruct (is_proxy_like (target rq)) eqn:Et; [by apply proxied_served|].
  destruct (mitm c); [apply proxied_served, expanded_proxy_like|cbn; by rewrite list_elem_of_singleton].
Qed.

Lemma one_served c rq w rs stored : Served rs stored ∈ fst (serve_one c rq w) -> answers w (fst (serve_one c rq w)) rs stored.
Proof.
  unfold ClientServe.serve_one. destruct (mitm c); [apply clear_served|].
  destruct (authenticate _ _) as [[| |] rq1]; [apply clear_served|cbn; by rewrite list_elem_of_singleton|cbn; by intros ?%not_elem_of_nil].
Qed.

(** A response for the cache answers a request that may be injected or looked for in the cache, on a route that goes there. *)
Lemma cache_response_of tm rq0 route rs rq s :
  dispatch sha1 sha256 routes tm rq0 route = Some (value rs) -> rs = FromDCache rq s \/ rs = FromPublicInjector rq s ->
  (exists t, CacheRequest_from sha1 sha256 t rq0 = Some rq) /\ (ToPublicInjector ∈ channels route \/ ToDCache ∈ channels route).
Proof.
  clear rq_keep_alive rs_keep_alive config B U.
  assert (forall p sec, primary_or_secondary tm p sec = Some (value rs) -> p = value rs \/ sec = Some (value rs)) as Hps.
  { intros p sec. unfold primary_or_secondary. destruct (secondary_first tm), p, sec as [[]|]; cbn; intros [= ->]; auto. }
  intros Hdisp Hrs.
  assert (forall (w : @Session Body -> @Response Body) r, Routing.wrap w r = value rs -> (forall s', w s' <> FromDCache rq s /\ w s' <> FromPublicInjector rq s) -> False) as Hno.
  { intros w [s'|e] E Hw; [|done]. injection E as <-. destruct (Hw s'). tauto. }
  assert (forall t, fetch_from_dcache sha1 sha256 routes t rq0 = value rs -> exists t, CacheRequest_from sha1 sha256 t rq0 = Some rq) as Hd.
  { intros t. unfold fetch_from_dcache. destruct (CacheRequest_from _ _ t rq0) as [crq|] eqn:E; [|done]. destruct (distributes_cache _ _); [|done]. intros [= <-]. exists t. rewrite E. destruct Hrs as [[= -> _]|[=]]. done. }
  assert (forall t, fetch_from_public_injector sha1 sha256 routes t rq0 = value rs -> exists t, CacheRequest_from sha1 sha256 t rq0 = Some rq) as Hi.
  { intros t. unfold fetch_from_public_injector. destruct (CacheRequest_from _ _ t rq0) as [crq|] eqn:E; [|done]. destruct (to_inject_request crq); [|done].
    destruct (public_injector _ _); [|done]. intros [= <-]. exists t. rewrite E. destruct Hrs as [[=]|[= -> _]]. done. }
  assert (forall t, fetch_from_cache_control sha1 sha256 routes tm t rq0 = Some (value rs) -> exists t, CacheRequest_from sha1 sha256 t rq0 = Some rq) as Hc.
  { intros t. unfold fetch_from_cache_control. destruct (CacheRequest_from _ _ t rq0) as [crq|] eqn:E; [|done]. destruct (fetch _ _ _ _ _) as [[s'|e]|]; cbn; [|done..].
    intros [= Eb]. exists t. rewrite E. unfold by_source in Eb. repeat case_bool_decide; simplify_eq; destruct Hrs; by simplify_eq. }
  assert (fetch_from_origin routes rq0 = value rs -> False) as Ho by (intros E; by eapply Hno).
  destruct route as [| |t|t|t|t|t|t|t|t]; cbn [dispatch channels] in *;
    try (apply Hps in Hdisp as [Hdisp|Hdisp]; [by apply Ho in Hdisp|]); try (injection Hdisp as Hdisp); try (by exfalso; eapply Hno); (split; [by eauto|set_solver]).
Qed.

End Facts.

(** ** Theorems *)

Section Theorems.
Context {P : PosixTime} {Body : Type} {T : FieldTable} {B : Base64Table} {U : UriParser}.
Variables sha1 sha256 : list byte -> list byte.
Variables (rq_keep_alive : request_header -> bool) (rs_keep_alive : response_header -> bool).
Variables (config : ServeConfig) (routes : @Routes Body).

(** One of the requests had the right credentials. *)
Definition some_granted (rqs : list (request_header * world)) : Prop :=
  exists rq w, (rq, w) ∈ rqs /\ fst (authenticate (add_fields config rq) (client_credentials config)) = Granted.

Lemma run_dispatches rqs : forall c rq' route,
  Dispatched rq' route ∈ serve_request sha1 sha256 rq_keep_alive rs_keep_alive config routes c rqs ->
  acceptable config rq' route /\ (mitm c = true \/ some_granted rqs).
Proof.
  induction rqs as [|[rq w] rqs IH]; intros c rq' route; cbn [serve_request]; [by intros ?%not_elem_of_nil|].
  pose proof (one_dispatches sha1 sha256 rq_keep_alive rs_keep_alive config routes c rq w) as [Hd Hn].
  destruct (serve_one _ _ _ _ _ _ c rq w) as [acts n]. cbn [fst snd] in *.
  assert (forall x, fst (authenticate (add_fields config rq) (client_credentials config)) = Granted -> x \/ some_granted ((rq, w) :: rqs)) as Hg.
  { intros x Hg. right. exists rq, w. split; [by left|done]. }
  rewrite elem_of_app. intros [Hin|Hin].
  - destruct (Hd _ _ Hin) as [Ha [Hm|[Hm _]]]; (split; [done|]); [by left|by apply Hg].
  - destruct n as [c'| | |]; [|by apply not_elem_of_nil in Hin..]. destruct (IH _ _ _ Hin) as [Ha Hc]. split; [done|].
    destruct Hc as [Hc|(rq1 & w1 & Hin1 & Hg1)]; [destruct (Hn c' eq_refl Hc) as [?|?]; [by left|by apply Hg]|]. right. exists rq1, w1. split; [by right|done].
Qed.

(** C6: on every connection, whatever requests come over it and whatever happens outside: a request is dispatched only if its target is an http or https URL, it has a host, it carries the access token
    if one is configured, and it or an earlier request of the connection had the credentials if some are configured; it goes the way that [Route::choose] gives for it. *)
Theorem served_requests_acceptable (rqs : list (request_header * world)) (rq' : request_header) (route : Route) :
  Dispatched rq' route ∈ serve_request sha1 sha256 rq_keep_alive rs_keep_alive config routes new_connection rqs ->
  is_proxy_like (target rq') = true /\ get_host rq' <> [] /\ has_token config rq' = true /\ Route_choose rq' (routing config) = Some route /\ some_granted rqs.
Proof. intros Hd. destruct (run_dispatches _ _ _ _ Hd) as [[] [Hm|Hg]]; [done|]. done. Qed.

Lemma run_served rqs : forall c rs stored,
  Served rs stored ∈ serve_request sha1 sha256 rq_keep_alive rs_keep_alive config routes c rqs ->
  exists before after rq w acts, serve_request sha1 sha256 rq_keep_alive rs_keep_alive config routes c rqs = before ++ acts ++ after /\ (rq, w) ∈ rqs /\
    answers sha1 sha256 config routes w acts rs stored.
Proof.
  induction rqs as [|[rq w] rqs IH]; intros c rs stored; cbn [serve_request]; [by intros ?%not_elem_of_nil|].
  destruct (serve_one _ _ _ _ _ _ c rq w) as [acts n] eqn:E. rewrite elem_of_app. intros [Hin|Hin].
  - change acts with (fst (acts, n)) in Hin. rewrite <-E in Hin. apply one_served in Hin. rewrite E in Hin. eexists [], _, rq, w, acts. split_and!; [done|left|done].
  - destruct n as [c'| | |]; [|by apply not_elem_of_nil in Hin..]. destruct (IH _ _ _ Hin) as (bef & aft & rq1 & w1 & acts1 & -> & Hin1 & Ha).
    exists (acts ++ bef), aft, rq1, w1, acts1. split_and!; [by rewrite <-!app_assoc|by right|done].
Qed.

(** C7: a response is written into the cache only where there is a cache and it is served right after the request that it answers was dispatched; that request is not private and went to a public injector
    or to the distributed cache; it is a GET, and the response says of itself that its source is an injector or the distributed cache (not the origin, a private injector, the local cache or Ouisync)
    and has no error of the injector; its status is cacheable, neither the request nor the response says [no-store], and unless the client caches private responses, the request has no Authorization
    that the response does not vouch for, nor private data while the response is marked private. *)
Theorem stored_responses_cacheable (rqs : list (request_header * world)) (c : conn) (rs : @Response Body) :
  let run := serve_request sha1 sha256 rq_keep_alive rs_keep_alive config routes c rqs in
  Served rs true ∈ run ->
  exists before after rq0 route rq s t,
    run = before ++ Dispatched rq0 route :: Served rs true :: after /\ has_cache config = true /\
    (ToPublicInjector ∈ channels route \/ ToDCache ∈ channels route) /\ ~ private_request rq0 /\ CacheRequest_from sha1 sha256 t rq0 = Some rq /\
    (rs = FromDCache rq s \/ rs = FromPublicInjector rq s) /\ method (_header rq) = str "GET" /\
    field_value response_source_hdr (rs_fields (CacheControl.head s)) ∈ [str "dist-cache"; str "injector"] /\
    field_value response_error_hdr (rs_fields (CacheControl.head s)) = [] /\ result (CacheControl.head s) ∈ [200; 301; 302; 307] /\
    ~ has_directive (str "no-store") (rq_fields (_header rq)) /\ ~ has_key (str "no-store") (rs_fields (CacheControl.head s)) /\
    (do_cache_private config = true \/ existsb (same_name (str "Authorization")) (rq_fields (_header rq)) = false \/ vouched (rs_fields (CacheControl.head s))) /\
    (do_cache_private config = true \/ contains_private_data (_header rq) = false \/ ~ has_key (str "private") (rs_fields (CacheControl.head s))).
Proof.
  intros run Hs. destruct (run_served _ _ _ _ Hs) as (bef & aft & rq' & w & acts & Er & _ & (rq0 & route & rest & -> & Hacc & Hd & Hst)).
  assert (exists rq s, (rs = FromDCache rq s \/ rs = FromPublicInjector rq s) /\ is_stored config rq s = true) as (rq & s & Hrs & Hi).
  { unfold stores in Hst. destruct rs as [s|s|rq s|s|rq s|s|s]; try done; exists rq, s; auto. }
  destruct (cache_response_of _ _ _ _ _ _ _ _ _ Hd Hrs) as [[t Ht] Hch].
  unfold is_stored in Hi. rewrite !andb_true_iff, orb_true_iff, !bool_decide_eq_true, ok_to_cache_iff in Hi.
  destruct Hi as ((((Hca & Hg) & Hsrc) & Her) & Hok1 & Hok2 & Hok3 & Hok4 & Hok5).
  exists bef, (rest ++ aft), rq0, route, rq, s, t. split; [exact Er|]. split; [exact Hca|]. split; [exact Hch|]. split.
  { intros Hp. destruct (private_request_not_public _ _ _ Hp (acc_route _ _ _ Hacc)). tauto. }
  split; [exact Ht|]. split; [exact Hrs|]. split; [exact Hg|]. split; [rewrite !elem_of_cons; destruct Hsrc as [-> | ->]; tauto|]. by repeat (split; [assumption|]).
Qed.

(** after a reply with the error 400 or 401 a keep-alive connection is closed if the reply was sent, and kept if it was not. *)
Theorem error_reply_inverted (c : conn) (rq : request_header) (w : world) :
  mitm c = false -> fst (authenticate (add_fields config rq) (client_credentials config)) = Granted ->
  let rq1 := snd (authenticate (add_fields config rq) (client_credentials config)) in
  method rq1 <> str "CONNECT" -> is_websocket_upgrade rq1 = false -> is_proxy_like (target rq1) = false -> rq_keep_alive rq1 = true ->
  serve_one sha1 sha256 rq_keep_alive rs_keep_alive config routes c rq w = ([SentError 400], if reply_ok w then Break else Continue c).
Proof.
  intros Hm Hg rq1 Hc Hw Hp Hk. unfold serve_one. rewrite Hm. destruct (authenticate _ _) as [a rq2]. cbn in Hg, rq1. subst a rq1. unfold serve_clear.
  rewrite Hm, (bool_decide_false _ Hc), Hw, Hp. cbn [negb andb]. unfold error_reply. rewrite Hk. by destruct (reply_ok w).
Qed.

(** the target of a CONNECT request is cut at the last [:443], also where that is the beginning of a longer port: requests in the tunnel that do not name their host then go to the standard port. *)
Theorem connect_port_lost (host rest : list byte) :
  rfind (str ":443") (str "443" ++ rest) = None -> host_of_connect (host ++ str ":443" ++ rest) = host.
Proof.
  intros Hr. unfold host_of_connect. assert (rfind (str ":443") (host ++ str ":443" ++ rest) = Some (length host)) as ->; [|by rewrite take_app_length].
  induction host as [|x host IH]; cbn [app length].
  - change (str ":443" ++ rest) with (":"%byte :: (str "443" ++ rest)). cbn [rfind]. by rewrite Hr.
  - cbn [rfind]. by rewrite IH.
Qed.

(** a request to upgrade to a websocket is carried out before the access token is looked at and without a route: neither the token nor the channels that are disabled keep it from the origin. *)
Theorem websocket_not_restricted (c : conn) (rq : request_header) (w : world) :
  mitm c = true -> method (add_fields config rq) <> str "CONNECT" -> is_websocket_upgrade (add_fields config rq) = true -> connect_hp c <> [] ->
  exists rq', serve_one sha1 sha256 rq_keep_alive rs_keep_alive config routes c rq w = ([Upgraded rq'], Break).
Proof.
  intros Hm Hc Hw Hh. unfold serve_one. rewrite Hm. unfold serve_clear. rewrite Hm, Hw. cbn [negb andb]. unfold upgrade_websocket. rewrite (bool_decide_false _ Hh).
  destruct (_ && _); eauto.
Qed.

End Theorems.

(** ** Witnesses *)

#[local] Existing Instances sample_time no_fields no_uris padded_table.

Definition serve_config : ServeConfig :=
  {| routing := sample_config; client_credentials := str "test:123"; proxy_access_token := Some (str "token"); add_request_fields := []; do_cache_private := false; has_cache := true |}.

Definition good_world : world := {| handshake_ok := true; reply_ok := true; wrap_ok := true; write_ok := true; when_ := sample_timing false |}.

Definition sample_connect : request_header :=
  authorize {| method := str "CONNECT"; target := str "example.com:443"; version := 11; rq_fields := [] |} (str "test:123").

Definition sample_inner : request_header :=
  {| method := str "GET"; target := str "/index.html"; version := 11; rq_fields := [(str "Host", str "example.com"); (str "X-Ouinet-Proxy-Token", str "token")] |}.

Definition sample_expanded : request_header := set_target sample_inner (str "https://example.com/index.html").

Lemma served_requests_acceptable_witness :
  is_proxy_like (target sample_expanded) = true /\ get_host sample_expanded <> [] /\ has_token serve_config sample_expanded = true /\
  Route_choose sample_expanded (routing serve_config) = Some default_route /\ some_granted serve_config [(sample_connect, good_world); (sample_inner, good_world)].
Proof.
  apply (served_requests_acceptable no_hash no_hash (fun _ => true) (fun _ => true) serve_config (sample_routes true) [(sample_connect, good_world); (sample_inner, good_world)]).
  vm_compute. left.
Defined.

(** A response that an injector signed, and that may be stored. *)
Definition sample_injected : @Session unit :=
  {| CacheControl.head := {| result := 200; rs_version := 11; rs_fields := [(response_source_hdr, response_source_hdr_injector)] |}; CacheControl.body := tt |}.

Definition injector_routes : @Routes unit :=
  {| front_end := fun _ => unexpected fault; origin := fun _ => unexpected fault; public_injector := fun _ => value sample_injected; private_injector := fun _ _ => unexpected fault;
     distributes_cache := fun _ => unexpected fault; routes_max_cached_age := -1 |}.

Definition public_config : ServeConfig :=
  {| routing := sample_config; client_credentials := []; proxy_access_token := None; add_request_fields := []; do_cache_private := false; has_cache := true |}.

Definition sample_public : request_header :=
  {| method := str "GET"; target := str "http://example.com/"; version := 11;
     rq_fields := [(str "Host", str "example.com"); (request_route_hdr, str "PublicInjector Bep5Http"); (request_group_hdr, str "example.com")] |}.

Definition sample_stored : @Response unit :=
  match CacheRequest_from no_hash no_hash Bep5Http sample_public with Some rq => FromPublicInjector rq sample_injected | None => FromOrigin sample_injected end.

Lemma stored_responses_cacheable_witness :
  exists before after rq0 route rq s t,
    serve_request no_hash no_hash (fun _ => true) (fun _ => true) public_config injector_routes new_connection [(sample_public, good_world)] =
      before ++ Dispatched rq0 route :: Served sample_stored true :: after /\ has_cache public_config = true /\
    (ToPublicInjector ∈ channels route \/ ToDCache ∈ channels route) /\ ~ private_request rq0 /\ CacheRequest_from no_hash no_hash t rq0 = Some rq /\
    (sample_stored = FromDCache rq s \/ sample_stored = FromPublicInjector rq s) /\ method (_header rq) = str "GET" /\
    field_value response_source_hdr (rs_fields (CacheControl.head s)) ∈ [str "dist-cache"; str "injector"] /\
    field_value response_error_hdr (rs_fields (CacheControl.head s)) = [] /\ result (CacheControl.head s) ∈ [200; 301; 302; 307] /\
    ~ has_directive (str "no-store") (rq_fields (_header rq)) /\ ~ has_key (str "no-store") (rs_fields (CacheControl.head s)) /\
    (do_cache_private public_config = true \/ existsb (same_name (str "Authorization")) (rq_fields (_header rq)) = false \/ vouched (rs_fields (CacheControl.head s))) /\
    (do_cache_private public_config = true \/ contains_private_data (_header rq) = false \/ ~ has_key (str "private") (rs_fields (CacheControl.head s))).
Proof.
  apply (stored_responses_cacheable no_hash no_hash (fun _ => true) (fun _ => true) public_config injector_routes [(sample_public, good_world)] new_connection).
  vm_compute. right. left.
Defined.

Lemma error_reply_inverted_witness :
  serve_one no_hash no_hash (fun _ => true) (fun _ => true) public_config injector_routes new_connection (set_target sample_public (str "/")) good_world = ([SentError 400], Break).
Proof.
  apply (error_reply_inverted no_hash no_hash (fun _ => true) (fun _ => true) public_config injector_routes new_connection (set_target sample_public (str "/")) good_world);
    first [reflexivity|discriminate].
Defined.

Lemma connect_port_lost_witness : host_of_connect (str "example.com:4430") = str "example.com".
Proof. apply (connect_port_lost (str "example.com") (str "0")). reflexivity. Defined.

Lemma websocket_not_restricted_witness :
  let rq := {| method := str "GET"; target := str "/socket"; version := 11; rq_fields := [(str "Upgrade", str "websocket"); (str "Connection", str "Upgrade")] |} in
  exists rq', serve_one no_hash no_hash (fun _ => true) (fun _ => true) serve_config injector_routes {| mitm := true; connect_hp := str "example.com" |} rq good_world = ([Upgraded rq'], Break).
Proof.
  intros rq. apply (websocket_not_restricted no_hash no_hash (fun _ => true) (fun _ => true) serve_config injector_routes {| mitm := true; connect_hp := str "example.com" |} rq good_world);
    first [reflexivity|discriminate].
Defined.
