(* ===== verification/LruCache.v ===== *)
(** * Caches that keep what was used last: src/util/lru_cache.h, src/util/persistent_lru_cache.{h,cpp}

    Both caches are a linked list, the last used element first, with a map from the keys to the nodes of the list.  A node is a number, so that the list and the map can be looked at separately as in the code.
    The persistent cache keeps shared pointers to elements in its list; an element has a file, which its destructor removes.  Insertions run as coroutines that hold a pointer to their element while they wait for its
    lock and write its file, so that they interleave: they are steps. *)
From S2P Require Import Prelude Bytes.

(** ** The list and the map *)

Section Lru.
Context {K V : Type} `{Countable K}.

Record LruCache := { _list : list (nat * (K * V)); _map : gmap K nat; nodes : nat }.

Definition new_lru : LruCache := {| _list := []; _map := ∅; nodes := O |}.

Definition list_erase (n : nat) (l : list (nat * (K * V))) : list (nat * (K * V)) := List.filter (fun x => negb (bool_decide (fst x = n))) l.

(** The part of [put] that evicts. *)
Definition evict (max_size : nat) (c : LruCache) : LruCache * option (K * V) :=
  if (max_size <? size (_map c))%nat then
    match last (_list c) with
    | Some (_, (k, v)) => ({| _list := removelast (_list c); _map := delete k (_map c); nodes := nodes c |}, Some (k, v))
    | None => (c, None)
    end
  else (c, None).

(** The part of [put] that makes the new node and erases an old one. *)
Definition push (key : K) (value : V) (c : LruCache) : LruCache :=
  let l := (nodes c, (key, value)) :: _list c in
  {| _list := match _map c !! key with Some n => list_erase n l | None => l end; _map := <[key := nodes c]> (_map c); nodes := S (nodes c) |}.

(** The result of [put] is the first node of the list, if there is one. *)
Definition put (max_size : nat) (key : K) (value : V) (c : LruCache) : LruCache * option V :=
  let '(c, _) := evict max_size (push key value c) in
  (c, (fun x => snd (snd x)) <$> head (_list c)).

Definition splice (n : nat) (c : LruCache) : LruCache :=
  {| _list := List.filter (fun x => bool_decide (fst x = n)) (_list c) ++ list_erase n (_list c); _map := _map c; nodes := nodes c |}.

Definition node_value (n : nat) (c : LruCache) : option V := (fun x => snd (snd x)) <$> List.find (fun x => bool_decide (fst x = n)) (_list c).

Definition get (key : K) (c : LruCache) : LruCache * option V :=
  match _map c !! key with
  | None => (c, None)
  | Some n => (splice n c, node_value n c)
  end.

Definition exists_ (key : K) (c : LruCache) : bool := bool_decide (is_Some (_map c !! key)).

Definition size_ (c : LruCache) : nat := size (_map c).

(** [erase] and [move_to_front] of an iterator, which is a position of the map. *)
Definition erase (key : K) (c : LruCache) : LruCache :=
  match _map c !! key with
  | None => c
  | Some n => {| _list := list_erase n (_list c); _map := delete key (_map c); nodes := nodes c |}
  end.

Definition move_to_front (key : K) (c : LruCache) : LruCache :=
  match _map c !! key with
  | None => c
  | Some n => splice n c
  end.

(** *** What the cache is *)

Definition entries (c : LruCache) : list (K * V) := snd <$> _list c.

Record lru_ok (c : LruCache) : Prop := {
  lru_keys : NoDup (fst <$> entries c);
  lru_nodes : NoDup (fst <$> _list c);
  lru_below : Forall (fun x => fst x < nodes c)%nat (_list c);
  lru_map : forall k n, _map c !! k = Some n <-> exists v, (n, (k, v)) ∈ _list c;
}.

Definition without (k : K) (l : list (K * V)) : list (K * V) := List.filter (fun x => negb (bool_decide (fst x = k))) l.

(** The specification: a list of entries without nodes. *)
Definition spec_put (max_size : nat) (k : K) (v : V) (l : list (K * V)) : list (K * V) := take max_size ((k, v) :: without k l).
Definition spec_touch (k : K) (l : list (K * V)) : list (K * V) := List.filter (fun x => bool_decide (fst x = k)) l ++ without k l.
Definition spec_find (k : K) (l : list (K * V)) : option V := snd <$> List.find (fun x => bool_decide (fst x = k)) l.

Lemma filter_fmap_agree {A B} (f : A -> B) (p : A -> bool) (q : B -> bool) (l : list A) :
  Forall (fun x => p x = q (f x)) l -> f <$> List.filter p l = List.filter q (f <$> l).
Proof. induction 1 as [|x l Hx _ IH]; [done|]. cbn. rewrite <-Hx. destruct (p x); cbn; by rewrite ?IH. Qed.

(** In the list a node is a key. *)
Lemma node_key_iff c k n x : lru_ok c -> _map c !! k = Some n -> x ∈ _list c -> fst x = n <-> fst (snd x) = k.
Proof.
  intros Hc Hn Hx. destruct x as [n' [k' v']]. cbn. split.
  - intros ->. assert (_map c !! k' = Some n) as Hk by (apply (lru_map c Hc); eauto). apply (lru_map c Hc) in Hn as [v Hn].
    pose proof (lru_nodes c Hc) as Hnd. destruct (proj1 (list_elem_of_lookup _ _) Hx) as [i Hi]. destruct (proj1 (list_elem_of_lookup _ _) Hn) as [j Hj].
    assert (i = j) as -> by (eapply (NoDup_lookup (fst <$> _list c)); [done| |]; rewrite list_lookup_fmap; [by rewrite Hi|by rewrite Hj]). congruence.
  - intros ->. assert (_map c !! k = Some n') as Hk by (apply (lru_map c Hc); eauto). congruence.
Qed.

Lemma node_is_key c k n : lru_ok c -> _map c !! k = Some n -> Forall (fun x => bool_decide (fst x = n) = bool_decide (fst (snd x) = k)) (_list c).
Proof. intros Hc Hn. apply Forall_forall. intros x Hx. apply bool_decide_ext. by apply (node_key_iff c). Qed.

Lemma node_below c k n : lru_ok c -> _map c !! k = Some n -> (n < nodes c)%nat.
Proof. intros Hc [v Hv]%(lru_map c Hc). pose proof (lru_below c Hc) as Hb. rewrite Forall_forall in Hb. by apply Hb in Hv. Qed.

Lemma elem_erase_key c k n x : lru_ok c -> _map c !! k = Some n -> x ∈ list_erase n (_list c) <-> x ∈ _list c /\ fst (snd x) <> k.
Proof.
  intros Hc Hn. unfold list_erase. rewrite !list_elem_of_In, filter_In, negb_true_iff, bool_decide_eq_false, <-list_elem_of_In. split; intros [Hx Hne]; (split; [done|]); by rewrite (node_key_iff c k n x) in *.
Qed.

Lemma key_absent c k : lru_ok c -> _map c !! k = None -> k ∉ fst <$> entries c.
Proof.
  intros Hc Hn (x & -> & Hx)%list_elem_of_fmap. apply list_elem_of_fmap in Hx as ([n [k v']] & -> & Hx). assert (_map c !! k = Some n) by (apply (lru_map c Hc); eauto). cbn in Hn. congruence.
Qed.

Lemma lru_size c : lru_ok c -> size (_map c) = length (entries c).
Proof.
  intros Hc. assert (_map c = list_to_map ((fun x => (fst (snd x), fst x)) <$> _list c)) as ->.
  { apply map_eq. intros k. apply option_eq. intros n. rewrite (lru_map c Hc), <-elem_of_list_to_map.
    - rewrite list_elem_of_fmap. split; [intros [v Hv]; by exists (n, (k, v))|]. intros ([n' [k' v']] & [= -> ->] & Hx). eauto.
    - rewrite <-list_fmap_compose. pose proof (lru_keys c Hc) as Hk. unfold entries in Hk. by rewrite <-list_fmap_compose in Hk. }
  rewrite map_size_list_to_map; [by rewrite length_fmap; unfold entries; rewrite length_fmap|]. rewrite <-list_fmap_compose. pose proof (lru_keys c Hc) as Hk. unfold entries in Hk. by rewrite <-list_fmap_compose in Hk.
Qed.

Lemma elem_without k l x : x ∈ without k l <-> x ∈ l /\ fst x <> k.
Proof. unfold without. rewrite !list_elem_of_In, filter_In, negb_true_iff, bool_decide_eq_false. done. Qed.

Lemma without_keys k l : NoDup (fst <$> l) -> NoDup (fst <$> without k l).
Proof.
  induction l as [|x l IH]; cbn; [constructor|]. intros [Hx Hl]%NoDup_cons. case_bool_decide; cbn; [by apply IH|]. constructor; [|by apply IH].
  intros (y & Hy & [Hin _]%elem_without)%list_elem_of_fmap. apply Hx, list_elem_of_fmap. eauto.
Qed.

Lemma without_absent k l : k ∉ fst <$> l -> without k l = l.
Proof.
  induction l as [|x l IH]; cbn; [done|]. intros Hk. rewrite bool_decide_false; [cbn; f_equal; apply IH|]; set_solver.
Qed.

Lemma elem_list_erase n (l : list (nat * (K * V))) x : x ∈ list_erase n l <-> x ∈ l /\ fst x <> n.
Proof. unfold list_erase. rewrite !list_elem_of_In, filter_In, negb_true_iff, bool_decide_eq_false. done. Qed.

Lemma list_erase_nodes n (l : list (nat * (K * V))) : NoDup (fst <$> l) -> NoDup (fst <$> list_erase n l).
Proof.
  induction l as [|x l IH]; cbn; [constructor|]. intros [Hx Hl]%NoDup_cons. case_bool_decide; cbn; [by apply IH|]. constructor; [|by apply IH].
  intros (y & Hy & [Hin _]%elem_list_erase)%list_elem_of_fmap. apply Hx, list_elem_of_fmap. eauto.
Qed.

Lemma erase_entries c k n : lru_ok c -> _map c !! k = Some n -> snd <$> list_erase n (_list c) = without k (entries c).
Proof.
  intros Hc Hn. apply filter_fmap_agree. pose proof (node_is_key c k n Hc Hn) as Hf. eapply Forall_impl; [exact Hf|]. intros x Hx. cbn in Hx |- *. by rewrite Hx.
Qed.

Lemma push_entries c k v : lru_ok c -> entries (push k v c) = (k, v) :: without k (entries c).
Proof.
  intros Hc. unfold push, entries. cbn [_list]. destruct (_map c !! k) as [n|] eqn:En.
  - pose proof (node_below c k n Hc En). unfold list_erase at 1. cbn [List.filter]. rewrite bool_decide_false by (cbn; lia). cbn [negb fmap list_fmap]. f_equal. by apply erase_entries.
  - cbn. f_equal. symmetry. by apply without_absent, key_absent.
Qed.

Lemma elem_push c k v x : lru_ok c -> x ∈ _list (push k v c) <-> x = (nodes c, (k, v)) \/ x ∈ _list c /\ fst (snd x) <> k.
Proof.
  intros Hc. unfold push. cbn [_list]. destruct (_map c !! k) as [n|] eqn:En.
  - pose proof (node_below c k n Hc En). unfold list_erase. cbn [List.filter]. rewrite bool_decide_false by (cbn; lia). cbn [negb]. rewrite elem_of_cons. by rewrite (elem_erase_key c k n x).
  - rewrite elem_of_cons. split; [|naive_solver]. intros [->|Hx]; [by left|right]. split; [done|]. intros Hk. apply (key_absent c k Hc En). apply list_elem_of_fmap. exists (snd x). split; [done|]. apply list_elem_of_fmap. eauto.
Qed.

Lemma push_ok c k v : lru_ok c -> lru_ok (push k v c).
Proof.
  intros Hc. pose proof (fun x => elem_push c k v x Hc) as Hin. split.
  - rewrite push_entries by done. cbn. constructor; [|apply without_keys, lru_keys; done]. intros (x & -> & [_ Hx]%elem_without)%list_elem_of_fmap. done.
  - assert (NoDup (fst <$> (nodes c, (k, v)) :: _list c)) as Hnd.
    { cbn. constructor; [|apply lru_nodes; done]. intros (x & Hx & Hi)%list_elem_of_fmap. pose proof (lru_below c Hc) as Hb. rewrite Forall_forall in Hb. specialize (Hb x Hi). cbn in Hb. lia. }
    unfold push. cbn [_list]. destruct (_map c !! k); [by apply list_erase_nodes|done].
  - apply Forall_forall. intros x [->|[Hx _]]%Hin; cbn; [lia|]. pose proof (lru_below c Hc) as Hb. rewrite Forall_forall in Hb. specialize (Hb x Hx). cbn in Hb. lia.
  - intros k' n. cbn [_map push]. rewrite lookup_insert_Some. setoid_rewrite Hin. rewrite (lru_map c Hc). cbn. split.
    + intros [[<- <-]|[Hne [v' Hv]]]; [eauto|]. exists v'. right. done.
    + intros [v' [[= <- <- <-]|[Hx Hne]]]; [by left|right]. split; [done|eauto].
Qed.

Lemma evict_ok m c : lru_ok c -> lru_ok (fst (evict m c)) /\ entries (fst (evict m c)) = (if (m <? length (entries c))%nat then removelast (entries c) else entries c) /\
  snd (evict m c) = (if (m <? length (entries c))%nat then last (entries c) else None).
Proof.
  intros Hc. unfold evict. rewrite (lru_size c Hc). destruct (m <? length (entries c))%nat eqn:El; [|done]. apply Nat.ltb_lt in El.
  assert (exists l n k v, _list c = l ++ [(n, (k, v))]) as (l & n & k & v & El').
  { destruct (exists_last (l := _list c)) as (l & [n [k v]] & ->); [|eauto 6]. intros E. unfold entries in El. rewrite E in El. cbn in El. lia. }
  rewrite El', last_snoc. cbn [fst snd]. rewrite removelast_last. unfold entries. rewrite El', fmap_app. cbn [fmap list_fmap snd]. rewrite removelast_last, last_snoc. split_and!; [|done|done].
  destruct Hc as [Hk Hn Hb Hm]. unfold entries in Hk. rewrite El' in *. rewrite !fmap_app in *. apply NoDup_app in Hk as (Hk & Hkd & _). apply NoDup_app in Hn as (Hn & _ & _). apply Forall_app in Hb as [Hb _].
  split; cbn [_list _map nodes]; [done|done|done|]. intros k' n'. rewrite lookup_delete_Some, Hm. setoid_rewrite elem_of_app. split.
  - intros [Hne [v' [Hv|Hv]]]; [eauto|]. apply list_elem_of_singleton in Hv. congruence.
  - intros [v' Hv]. split; [|eauto]. intros <-. apply (Hkd k); [|by left]. apply list_elem_of_fmap. exists (k, v'). split; [done|]. apply list_elem_of_fmap. by exists (n', (k, v')).
Qed.

Lemma removelast_is_take {A} (l : list A) : removelast l = take (length l - 1) l.
Proof. induction l as [|x [|y l] IH]; [done|done|]. cbn [removelast length] in *. replace (S (S (length l)) - 1)%nat with (S (S (length l) - 1)) by lia. cbn [take]. by rewrite IH. Qed.

(** [put] is that of the specification. *)
Lemma put_refines m k v c :
  lru_ok c -> (length (entries c) <= m)%nat -> lru_ok (fst (put m k v c)) /\ entries (fst (put m k v c)) = spec_put m k v (entries c) /\ snd (put m k v c) = snd <$> head (entries (fst (put m k v c))).
Proof.
  intros Hc Hl. unfold put. pose proof (evict_ok m _ (push_ok c k v Hc)) as (Ho & He & _). destruct (evict m (push k v c)) as [c' ev]. cbn [fst snd] in *. split_and!; [done| |].
  - rewrite He, push_entries by done. unfold spec_put. set (l := (k, v) :: without k (entries c)). assert (length l <= S m)%nat as Hlen.
    { unfold l, without. cbn. pose proof (filter_length_le (fun x => negb (bool_decide (fst x = k))) (entries c)). lia. }
    destruct (m <? length l)%nat eqn:E; [apply Nat.ltb_lt in E; rewrite removelast_is_take; f_equal; lia|]. apply Nat.ltb_ge in E. by rewrite take_ge.
  - unfold entries. by destruct (_list c') as [|[n [k' v']] l].
Qed.

Lemma touch_ok c k n : lru_ok c -> _map c !! k = Some n -> lru_ok (splice n c) /\ entries (splice n c) = spec_touch k (entries c).
Proof.
  intros Hc Hn. assert (_list (splice n c) ≡ₚ _list c) as Hp.
  { unfold splice, list_erase. cbn [_list]. induction (_list c) as [|x l IH]; [done|]. cbn. case_bool_decide; cbn; [by f_equiv|]. by rewrite <-Permutation_middle, IH. }
  split.
  - destruct Hc as [H1 H2 H3 H4]. split; [unfold entries in *; by rewrite Hp|by rewrite Hp|cbn [nodes splice]; by rewrite Hp|]. intros k' n'. cbn [_map splice]. rewrite H4. by setoid_rewrite Hp.
  - unfold entries at 1, splice. cbn [_list]. rewrite fmap_app, (erase_entries c k n) by done. unfold spec_touch. f_equal. apply filter_fmap_agree. by apply node_is_key.
Qed.

Lemma find_fmap_agree {A B} (f : A -> B) (p : A -> bool) (q : B -> bool) (l : list A) :
  Forall (fun x => p x = q (f x)) l -> f <$> List.find p l = List.find q (f <$> l).
Proof. induction 1 as [|x l Hx _ IH]; [done|]. cbn. rewrite <-Hx. by destruct (p x). Qed.

Lemma find_absent k (l : list (K * V)) : k ∉ fst <$> l <-> spec_find k l = None.
Proof.
  unfold spec_find. induction l as [|x l IH]; cbn; [set_solver|]. case_bool_decide as E; cbn; [subst; set_solver|]. rewrite <-IH. set_solver.
Qed.

Lemma touch_absent k (l : list (K * V)) : k ∉ fst <$> l -> spec_touch k l = l.
Proof.
  intros Hk. unfold spec_touch. rewrite (without_absent k l Hk). assert (List.filter (fun x => bool_decide (fst x = k)) l = []) as ->; [|done].
  induction l as [|x l IH]; [done|]. cbn in *. rewrite bool_decide_false by set_solver. apply IH. set_solver.
Qed.

Lemma get_refines k c : lru_ok c -> lru_ok (fst (get k c)) /\ entries (fst (get k c)) = spec_touch k (entries c) /\ snd (get k c) = spec_find k (entries c).
Proof.
  intros Hc. unfold get. destruct (_map c !! k) as [n|] eqn:En; cbn [fst snd].
  - destruct (touch_ok c k n Hc En). split_and!; [done|done|]. unfold node_value, spec_find. rewrite <-(find_fmap_agree snd _ _ _ (node_is_key c k n Hc En)). by destruct (List.find _ _).
  - pose proof (key_absent c k Hc En) as Hk.
    split_and!; [done|by rewrite touch_absent|]. symmetry. by apply find_absent.
Qed.

Lemma erase_refines k c : lru_ok c -> lru_ok (erase k c) /\ entries (erase k c) = without k (entries c).
Proof.
  intros Hc. unfold erase. destruct (_map c !! k) as [n|] eqn:En; [|split; [done|]; symmetry; by apply without_absent, key_absent].
  pose proof (erase_entries c k n Hc En) as He. split; [|done]. pose proof (fun x => elem_erase_key c k n x Hc En) as Hin. split; cbn [_list _map nodes].
  - unfold entries. cbn [_list]. rewrite He. apply without_keys, lru_keys. done.
  - apply list_erase_nodes, lru_nodes. done.
  - apply Forall_forall. intros x [Hx _]%Hin. pose proof (lru_below c Hc) as Hb. rewrite Forall_forall in Hb. by apply Hb.
  - intros k' n'. rewrite lookup_delete_Some, (lru_map c Hc). setoid_rewrite Hin. cbn. naive_solver.
Qed.

(** *** What is kept *)

Variant lru_op := Put (k : K) (v : V) | Get (k : K).

(** The cache after some operations, and the keys that they used, the last one first: those that were put, and those that were found. *)
Fixpoint lru_run (max_size : nat) (ops : list lru_op) (c : LruCache) (used : list K) : LruCache * list K :=
  match ops with
  | [] => (c, used)
  | Put k v :: ops => lru_run max_size ops (fst (put max_size k v c)) (k :: used)
  | Get k :: ops => lru_run max_size ops (fst (get k c)) (match snd (get k c) with Some _ => k :: used | None => used end)
  end.

(** The different keys of a list, in the order of their first occurrence. *)
Fixpoint distinct (l : list K) : list K :=
  match l with
  | [] => []
  | k :: l => k :: List.filter (fun k' => negb (bool_decide (k' = k))) (distinct l)
  end.

Fixpoint last_put (ops : list lru_op) (k : K) (v : option V) : option V :=
  match ops with
  | [] => v
  | Put k' v' :: ops => last_put ops k (if bool_decide (k' = k) then Some v' else v)
  | Get _ :: ops => last_put ops k v
  end.

Lemma elem_other (k x : K) l : x ∈ List.filter (fun k' => negb (bool_decide (k' = k))) l <-> x ∈ l /\ x <> k.
Proof. rewrite !list_elem_of_In, filter_In, negb_true_iff, bool_decide_eq_false. done. Qed.

Lemma NoDup_other (k : K) l : NoDup l -> NoDup (List.filter (fun k' => negb (bool_decide (k' = k))) l).
Proof. induction 1 as [|x l Hx _ IH]; cbn; [constructor|]. case_bool_decide; cbn; [done|]. constructor; [|done]. by intros [? _]%elem_other. Qed.

Lemma other_absent (k : K) l : k ∉ l -> List.filter (fun k' => negb (bool_decide (k' = k))) l = l.
Proof. induction l as [|x l IH]; cbn; [done|]. intros Hk. rewrite bool_decide_false by set_solver. cbn. f_equal. apply IH. set_solver. Qed.

Lemma distinct_NoDup l : NoDup (distinct l).
Proof. induction l as [|k l IH]; cbn; constructor; [by intros [_ ?]%elem_other|by apply NoDup_other]. Qed.

Lemma take_other (k : K) l : NoDup l -> forall n,
  take n (List.filter (fun k' => negb (bool_decide (k' = k))) (take (S n) l)) = take n (List.filter (fun k' => negb (bool_decide (k' = k))) l).
Proof.
  induction 1 as [|x l Hx _ IH]; intros n; [done|]. cbn [take List.filter]. case_bool_decide; cbn [negb].
  - subst x. rewrite !other_absent; [by rewrite take_take, Nat.min_id|done|]. intros Hk. apply Hx. rewrite <-(take_drop n l). apply elem_of_app. by left.
  - destruct n as [|n]; [done|]. rewrite !firstn_cons. by rewrite IH.
Qed.

(** The keys of the specification. *)
Lemma without_fst k (l : list (K * V)) : fst <$> without k l = List.filter (fun k' => negb (bool_decide (k' = k))) (fst <$> l).
Proof. apply filter_fmap_agree. by apply Forall_true. Qed.

Lemma put_keys m k v (l : list (K * V)) used :
  fst <$> l = take m (distinct used) -> fst <$> spec_put m k v l = take m (distinct (k :: used)).
Proof.
  intros Hl. unfold spec_put. rewrite fmap_take, fmap_cons, without_fst, Hl. cbn [distinct fst]. destruct m as [|m]; [done|]. rewrite !firstn_cons. f_equal. apply take_other, distinct_NoDup.
Qed.

Lemma only_key k (l : list (K * V)) : NoDup (fst <$> l) -> spec_find k l <> None -> fst <$> List.filter (fun x => bool_decide (fst x = k)) l = [k].
Proof.
  induction l as [|x l IH]; cbn; [done|]. intros [Hx Hl]%NoDup_cons. unfold spec_find. cbn. case_bool_decide as E; [|by apply IH]. intros _. cbn. f_equal; [done|]. subst k.
  clear IH Hl. induction l as [|y l IH]; cbn in *; [done|]. rewrite bool_decide_false by set_solver. apply IH. set_solver.
Qed.

Lemma length_other (k : K) l : NoDup l -> k ∈ l -> S (length (List.filter (fun k' => negb (bool_decide (k' = k))) l)) = length l.
Proof.
  induction 1 as [|x l Hx Hl IH]; [by intros ?%not_elem_of_nil|]. cbn. case_bool_decide; cbn; [subst; intros _; by rewrite other_absent|]. intros [->|Hk]%elem_of_cons; [done|]. by rewrite IH.
Qed.

Lemma touch_keys m k (l : list (K * V)) used :
  NoDup (fst <$> l) -> spec_find k l <> None -> fst <$> l = take m (distinct used) -> fst <$> spec_touch k l = take m (distinct (k :: used)).
Proof.
  intros Hn Hf Hl. unfold spec_touch. rewrite fmap_app, (only_key k l), without_fst by done. assert (k ∈ fst <$> l) as Hk.
  { unfold spec_find in Hf. destruct (List.find _ l) as [x|] eqn:E; [|done]. apply find_some in E as [Hin Hx]. apply bool_decide_eq_true in Hx. apply list_elem_of_fmap. exists x. split; [done|]. by apply list_elem_of_In. }
  pose proof (length_other k _ Hn Hk) as Hlen. cbn [app distinct]. assert (length (fst <$> l) <= m)%nat as Hm by (rewrite Hl, length_take; lia).
  destruct m as [|m]; [lia|]. rewrite firstn_cons. f_equal. rewrite <-take_other by apply distinct_NoDup. rewrite <-Hl, take_ge; [done|]. lia.
Qed.

Lemma find_put_same m k v (l : list (K * V)) : (0 < m)%nat -> spec_find k (spec_put m k v l) = Some v.
Proof. intros Hm. destruct m as [|m]; [lia|]. unfold spec_find, spec_put. cbn. by rewrite bool_decide_true. Qed.

Lemma find_prefix k m (l : list (K * V)) v : spec_find k (take m l) = Some v -> spec_find k l = Some v.
Proof. unfold spec_find. revert m. induction l as [|x l IH]; intros [|m]; cbn; try done. case_bool_decide; [done|]. apply IH. Qed.

Lemma find_without k k' (l : list (K * V)) : k <> k' -> spec_find k (without k' l) = spec_find k l.
Proof.
  intros Hne. unfold spec_find, without. f_equal. induction l as [|x l IH]; [done|]. cbn. case_bool_decide; cbn; [rewrite bool_decide_false by congruence; done|]. case_bool_decide; [done|]. apply IH.
Qed.

Lemma find_app_ {A} (p : A -> bool) l1 l2 : List.find p (l1 ++ l2) = match List.find p l1 with Some x => Some x | None => List.find p l2 end.
Proof. induction l1 as [|x l1 IH]; [done|]. cbn. by destruct (p x). Qed.

Lemma find_touch k k' (l : list (K * V)) : spec_find k (spec_touch k' l) = spec_find k l.
Proof.
  unfold spec_touch, spec_find. f_equal. rewrite find_app_. destruct (decide (k = k')) as [->|Hne].
  - unfold without. induction l as [|x l IH]; [done|]. cbn. case_bool_decide; cbn; [by rewrite bool_decide_true|]. rewrite bool_decide_false by done. exact IH.
  - assert (List.find (fun x => bool_decide (fst x = k)) (List.filter (fun x => bool_decide (fst x = k')) l) = None) as ->.
    { induction l as [|x l IH]; [done|]. cbn. case_bool_decide; [|done]. cbn. by rewrite bool_decide_false by congruence. }
    unfold without. induction l as [|x l IH]; [done|]. cbn. case_bool_decide; cbn; [rewrite bool_decide_false by congruence; done|]. case_bool_decide; [done|]. apply IH.
Qed.

Lemma run_spec m ops : forall c used vals,
  lru_ok c -> (length (entries c) <= m)%nat -> fst <$> entries c = take m (distinct used) -> (forall k v, spec_find k (entries c) = Some v -> vals k = Some v) ->
  let '(c', used') := lru_run m ops c used in
  lru_ok c' /\ fst <$> entries c' = take m (distinct used') /\ forall k v, spec_find k (entries c') = Some v -> last_put ops k (vals k) = Some v.
Proof.
  induction ops as [|[k v|k] ops IH]; intros c used vals Hc Hl Hk Hv; cbn [lru_run last_put]; [done| |].
  - destruct (put_refines m k v c Hc Hl) as (Hc' & He & _). apply (IH _ _ (fun k' => if bool_decide (k = k') then Some v else vals k')); [done| | |].
    + rewrite He. unfold spec_put. rewrite length_take. lia.
    + rewrite He. by apply put_keys.
    + intros k' v'. rewrite He. destruct (decide (k = k')) as [<-|Hne]; [rewrite bool_decide_true by done|rewrite bool_decide_false by done].
      * intros Hf%find_prefix. revert Hf. unfold spec_find. cbn. by rewrite bool_decide_true.
      * intros Hf%find_prefix. apply Hv. rewrite <-(find_without k' k) by done. revert Hf. unfold spec_find. cbn. by rewrite bool_decide_false.
  - destruct (get_refines k c Hc) as (Hc' & He & Hr). assert (entries (fst (get k c)) ≡ₚ entries c) as Hp.
    { rewrite He. unfold spec_touch, without. clear. induction (entries c) as [|x l IH]; [done|]. cbn. case_bool_decide; cbn; [by f_equiv|]. by rewrite <-Permutation_middle, IH. }
    apply IH; [done|by rewrite Hp| |intros k' v'; rewrite He, find_touch by apply lru_keys, Hc; apply Hv].
    rewrite Hr, He. destruct (spec_find k (entries c)) as [v'|] eqn:Ef; [apply touch_keys; [by apply lru_keys|by rewrite Ef|done]|].
    by rewrite touch_absent by by apply find_absent.
Qed.

Lemma new_lru_ok : lru_ok new_lru.
Proof. split; cbn; [constructor|constructor|constructor|]. intros k n. rewrite lookup_empty. set_solver. Qed.

(** after any sequence of operations on a new cache, the keys in it are the last ones that were used, as many different ones as fit, in the order of their use, and each has the value that was put last;
    [get] finds exactly these. *)
Theorem lru_keeps_last_used (max_size : nat) (ops : list lru_op) :
  let '(c, used) := lru_run max_size ops new_lru [] in
  fst <$> entries c = take max_size (distinct used) /\ size_ c = (length (distinct used) `min` max_size)%nat /\
  forall k, snd (get k c) = (if bool_decide (k ∈ take max_size (distinct used)) then last_put ops k None else None).
Proof.
  pose proof (run_spec max_size ops new_lru [] (fun _ => None)) as Hr. destruct (lru_run max_size ops new_lru []) as [c used].
  destruct Hr as (Hc & Hk & Hv); [apply new_lru_ok|cbn; lia|by destruct max_size|done|].
  split_and!; [done| |].
  - unfold size_. rewrite (lru_size c Hc), <-(length_fmap fst), Hk, length_take. lia.
  - intros k. destruct (get_refines k c Hc) as (_ & _ & ->). rewrite <-Hk. destruct (spec_find k (entries c)) as [v|] eqn:Ef.
    + rewrite bool_decide_true; [symmetry; by apply Hv|]. apply dec_stable. intros Hn%find_absent. congruence.
    + rewrite bool_decide_false; [done|]. by apply find_absent.
Qed.

End Lru.
Arguments LruCache K V {EqDecision0 H} : rename.

(** ** The persistent cache *)

(** What the values of the cache offer: [write] and [read], which reads the rest of the file. *)
Class ValueCodec (V : Type) := { value_write : V -> list byte; value_read : list byte -> option V }.
Class ValueCodecLaws (V : Type) `{ValueCodec V} : Prop := value_roundtrip v : value_read (value_write v) = Some v.

(** [write_number] and [read_number]: the bytes of the number in memory, the low ones first. *)
Fixpoint number_bytes (n : nat) (z : Z) : list byte :=
  match n with
  | O => []
  | S n => byte_of (z mod 256) :: number_bytes n (z / 256)
  end.

Fixpoint bytes_number (l : list byte) : Z :=
  match l with
  | [] => 0
  | b :: l => code b + 256 * bytes_number l
  end.

Definition read_bytes (n : nat) (l : list byte) : option (list byte * list byte) :=
  if (length l <? n)%nat then None else Some (take n l, drop n l).

Section Persistent.
Context {V : Type} `{ValueCodec V}.
Variable sha1 : list byte -> list byte.

Abbreviation Key := (list byte).

(** The names of the files in the directory of the cache. *)
Definition path_from_key (key : Key) : list byte := to_hex (sha1 key).

Definition temp_file_prefix : list byte := str "tmp.".
Definition is_cache_entry (is_regular : bool) (d_name : list byte) : bool :=
  is_regular && negb (bool_decide (take (length temp_file_prefix) d_name = temp_file_prefix)).

(** What [Element::update] writes and [Element::read] reads. *)
Definition element_file (ts : Z) (key : Key) (v : V) : list byte :=
  number_bytes 8 ts ++ number_bytes 4 (Z.of_nat (length key)) ++ key ++ value_write v.

Definition element_read (file : list byte) : option (Z * Key * V) :=
  let? (ts, file) := read_bytes 8 file in
  let? (key_size, file) := read_bytes 4 file in
  let? (key, file) := read_bytes (Z.to_nat (bytes_number key_size)) file in
  let? v := value_read file in
  Some (bytes_number ts, key, v).

Record Element := { e_key : Key; e_path : list byte; e_value : V; _keep_file_on_destruct : bool }.

(** An insertion that is under way: it has its element, and the element's lock once it writes. *)
Record insertion := { i_element : nat; i_value : V; i_writing : bool }.

Record PersistentLruCache := {
  lru : LruCache Key nat;
  heap : gmap nat Element;
  disk : gmap (list byte) (list byte);
  insertions : gmap nat insertion;
  next_element : nat;
}.

Variable max_size : nat.

Definition referenced (e : nat) (st : PersistentLruCache) : bool :=
  bool_decide (e ∈ snd <$> entries (lru st)) || existsb (fun x => bool_decide (i_element (snd x) = e)) (map_to_list (insertions st)).

(** The end of a shared pointer, and the destructor after the last one. *)
Definition release (e : nat) (st : PersistentLruCache) : PersistentLruCache :=
  if referenced e st then st
  else
    match heap st !! e with
    | None => st
    | Some el =>
        {| lru := lru st; heap := delete e (heap st); disk := if _keep_file_on_destruct el then disk st else delete (e_path el) (disk st);
           insertions := insertions st; next_element := next_element st |}
    end.

Definition set_lru (c : LruCache Key nat) (st : PersistentLruCache) : PersistentLruCache :=
  {| lru := c; heap := heap st; disk := disk st; insertions := insertions st; next_element := next_element st |}.
Definition set_insertions (m : gmap nat insertion) (st : PersistentLruCache) : PersistentLruCache :=
  {| lru := lru st; heap := heap st; disk := disk st; insertions := m; next_element := next_element st |}.
Definition set_heap (m : gmap nat Element) (st : PersistentLruCache) : PersistentLruCache :=
  {| lru := lru st; heap := m; disk := disk st; insertions := insertions st; next_element := next_element st |}.
Definition set_disk (m : gmap (list byte) (list byte)) (st : PersistentLruCache) : PersistentLruCache :=
  {| lru := lru st; heap := heap st; disk := m; insertions := insertions st; next_element := next_element st |}.

(** The element of a key, or a new one. *)
Definition find_or_make (key : Key) (value : V) (st : PersistentLruCache) : nat * PersistentLruCache :=
  match snd (get key (lru st)) with
  | Some e => (e, st)
  | None =>
      (next_element st,
       {| lru := lru st; heap := <[next_element st := {| e_key := key; e_path := path_from_key key; e_value := value; _keep_file_on_destruct := false |}]> (heap st);
          disk := disk st; insertions := insertions st; next_element := S (next_element st) |})
  end.

(** [insert] up to the lock; [j] names the coroutine. *)
Definition insert_begin (j : nat) (key : Key) (value : V) (st : PersistentLruCache) : PersistentLruCache :=
  let '(e, st) := find_or_make key value st in
  let '(c, evicted) := evict max_size (push key e (lru st)) in
  let e_is_null := match evicted with Some (k, _) => bool_decide (k = key) | None => false end in
  let st := set_lru c (if e_is_null then st else set_insertions (<[j := {| i_element := e; i_value := value; i_writing := false |}]> (insertions st)) st) in
  match evicted with Some (_, e') => release e' st | None => st end.

(** The lock is taken: [update] up to the writing of the file. *)
Definition insert_locked (j : nat) (st : PersistentLruCache) : PersistentLruCache :=
  match insertions st !! j with
  | Some {| i_element := e; i_value := v; i_writing := false |} =>
      if existsb (fun x => bool_decide (i_element (snd x) = e) && i_writing (snd x)) (map_to_list (insertions st)) then st
      else
        set_insertions (<[j := {| i_element := e; i_value := v; i_writing := true |}]> (insertions st))
          (set_heap (alter (fun el => {| e_key := e_key el; e_path := e_path el; e_value := v; _keep_file_on_destruct := _keep_file_on_destruct el |}) e (heap st)) st)
  | _ => st
  end.

(** The end of [insert]: the file has replaced the old one, with a time stamp, or there was an error. *)
Definition insert_end (j : nat) (result : option Z) (st : PersistentLruCache) : PersistentLruCache :=
  match insertions st !! j with
  | Some x =>
      let e := i_element x in
      let written :=
        match result, i_writing x, heap st !! e with
        | Some ts, true, Some el => set_disk (<[e_path el := element_file ts (e_key el) (e_value el)]> (disk st)) st
        | _, _, _ => st
        end in
      release e (set_insertions (delete j (insertions st)) written)
  | None => st
  end.

Definition find_ (key : Key) (st : PersistentLruCache) : PersistentLruCache := set_lru (move_to_front key (lru st)) st.

Definition value_of (key : Key) (st : PersistentLruCache) : option V :=
  let? e := snd (get key (lru st)) in
  e_value <$> heap st !! e.

(** The destructor of the cache. *)
Definition keep_file (el : Element) : Element := {| e_key := e_key el; e_path := e_path el; e_value := e_value el; _keep_file_on_destruct := true |}.
Definition close_cache (st : PersistentLruCache) : PersistentLruCache :=
  let es := snd <$> entries (lru st) in
  foldr release (set_lru new_lru (set_heap (foldr (alter keep_file) (heap st) es) st)) es.

(** *** [load] *)

Fixpoint insert_by_time (ts : Z) (el : Element) (l : list (Z * Element)) : list (Z * Element) :=
  match l with
  | [] => [(ts, el)]
  | x :: l' => if ts <? fst x then (ts, el) :: l else x :: insert_by_time ts el l'
  end.

(** The files in the order of [readdir]; one that cannot be read is left alone. *)
Fixpoint read_entries (names : list (bool * list byte)) (disk : gmap (list byte) (list byte)) (elements : list (Z * Element)) : list (Z * Element) :=
  match names with
  | [] => elements
  | (is_regular, name) :: names =>
      let elements :=
        if is_cache_entry is_regular name then
          match disk !! name ≫= element_read with
          | Some (ts, key, v) => insert_by_time ts {| e_key := key; e_path := name; e_value := v; _keep_file_on_destruct := false |} elements
          | None => elements
          end
        else elements in
      read_entries names disk elements
  end.

(** The oldest ones that are too many are destroyed, with their files. *)
Definition drop_excess (elements : list (Z * Element)) (disk : gmap (list byte) (list byte)) : gmap (list byte) (list byte) :=
  foldr (fun x d => delete (e_path (snd x)) d) disk (take (length elements - max_size) elements).

(** The others are put into the list, the newest last. *)
Definition load_element (st : PersistentLruCache) (x : Z * Element) : PersistentLruCache :=
  let el := snd x in
  let c := lru st in
  {| lru := {| _list := (nodes c, (e_key el, next_element st)) :: _list c; _map := <[e_key el := nodes c]> (_map c); nodes := S (nodes c) |};
     heap := <[next_element st := el]> (heap st); disk := disk st; insertions := insertions st; next_element := S (next_element st) |}.

Definition load (names : list (bool * list byte)) (disk : gmap (list byte) (list byte)) : PersistentLruCache :=
  let elements := read_entries names disk [] in
  foldl load_element {| lru := new_lru; heap := ∅; disk := drop_excess elements disk; insertions := ∅; next_element := O |} (drop (length elements - max_size) elements).

(** *** Files *)

Lemma number_roundtrip n : forall z, 0 <= z < 256 ^ Z.of_nat n -> bytes_number (number_bytes n z) = z.
Proof.
  induction n as [|n IH]; intros z Hz; cbn [number_bytes bytes_number]; [cbn in Hz; lia|]. rewrite code_byte_of_small by (apply Z.mod_pos_bound; lia).
  rewrite Nat2Z.inj_succ, Z.pow_succ_r in Hz by lia. rewrite IH; [pose proof (Z.div_mod z 256 ltac:(lia)); lia|]. split; [apply Z.div_pos; lia|]. apply Z.div_lt_upper_bound; lia.
Qed.

Lemma number_bytes_length n z : length (number_bytes n z) = n.
Proof. revert z. induction n as [|n IH]; intros z; cbn; [done|]. by rewrite IH. Qed.

Lemma read_bytes_app n l rest : length l = n -> read_bytes n (l ++ rest) = Some (l, rest).
Proof. intros <-. unfold read_bytes. rewrite length_app. destruct (_ <? _)%nat eqn:E; [apply Nat.ltb_lt in E; lia|]. by rewrite take_app_length, drop_app_length. Qed.

Context {L : ValueCodecLaws V}.

Lemma element_roundtrip ts key v : 0 <= ts < 2 ^ 64 -> Z.of_nat (length key) < 2 ^ 32 -> element_read (element_file ts key v) = Some (ts, key, v).
Proof.
  intros Hts Hk. unfold element_read, element_file. rewrite read_bytes_app by apply number_bytes_length. rewrite read_bytes_app by apply number_bytes_length.
  rewrite number_roundtrip by (change (256 ^ Z.of_nat 4) with (2 ^ 32); lia). rewrite Nat2Z.id, read_bytes_app by done. rewrite value_roundtrip.
  by rewrite number_roundtrip by (change (256 ^ Z.of_nat 8) with (2 ^ 64); lia).
Qed.

(** *** Insertions one after the other *)

Definition contents (st : PersistentLruCache) : list (Key * option V) := (fun x => (fst x, e_value <$> heap st !! snd x)) <$> entries (lru st).

(** The keys that are used have different files. *)
Variable keys : list Key.
Hypothesis different_paths : forall k1 k2, k1 ∈ keys -> k2 ∈ keys -> path_from_key k1 = path_from_key k2 -> k1 = k2.
Hypothesis short_keys : forall k, k ∈ keys -> Z.of_nat (length k) < 2 ^ 32.

Record quiet (st : PersistentLruCache) : Prop := {
  q_keys : forall k e, (k, e) ∈ entries (lru st) -> k ∈ keys;
  q_insertions : insertions st = ∅;
  q_lru : lru_ok (lru st);
  q_length : (length (entries (lru st)) <= max_size)%nat;
  q_element : forall k e, (k, e) ∈ entries (lru st) -> exists v, heap st !! e = Some {| e_key := k; e_path := path_from_key k; e_value := v; _keep_file_on_destruct := false |};
  q_heap : forall e el, heap st !! e = Some el -> (e < next_element st)%nat /\ (e_key el, e) ∈ entries (lru st);
  q_file : forall k e, (k, e) ∈ entries (lru st) ->
    exists ts v, 0 <= ts < 2 ^ 64 /\ e_value <$> heap st !! e = Some v /\ disk st !! path_from_key k = Some (element_file ts k v);
  q_disk : forall p, is_Some (disk st !! p) -> exists k e, (k, e) ∈ entries (lru st) /\ p = path_from_key k;
}.

Definition insert_all (j : nat) (k : Key) (v : V) (ts : Z) (st : PersistentLruCache) : PersistentLruCache :=
  insert_end j (Some ts) (insert_locked j (insert_begin j k v st)).

Definition with_value (v : V) (el : Element) : Element := {| e_key := e_key el; e_path := e_path el; e_value := v; _keep_file_on_destruct := _keep_file_on_destruct el |}.

(** The only insertion under way goes on to its end. *)
Lemma locked_end j e v ts el st :
  insertions st = {[j := {| i_element := e; i_value := v; i_writing := false |}]} -> heap st !! e = Some el -> e ∈ snd <$> entries (lru st) ->
  insert_end j (Some ts) (insert_locked j st) =
  {| lru := lru st; heap := <[e := with_value v el]> (heap st); disk := <[e_path el := element_file ts (e_key el) v]> (disk st); insertions := (∅ : gmap nat insertion); next_element := next_element st |}.
Proof.
  intros Hi Hh He. unfold insert_locked. rewrite Hi, lookup_singleton_eq, map_to_list_singleton. cbn [existsb snd i_writing andb orb]. rewrite andb_false_r. cbn [orb].
  unfold insert_end. cbn [insertions set_insertions]. rewrite insert_singleton_eq, lookup_singleton_eq. cbn [i_element i_writing]. cbn [heap set_heap set_insertions].
  assert (alter (fun el0 => {| e_key := e_key el0; e_path := e_path el0; e_value := v; _keep_file_on_destruct := _keep_file_on_destruct el0 |}) e (heap st) = <[e := with_value v el]> (heap st)) as ->.
  { apply map_eq. intros i. destruct (decide (i = e)) as [->|Hne]; [by rewrite lookup_alter_eq, lookup_insert_eq, Hh|by rewrite lookup_alter_ne, lookup_insert_ne]. }
  rewrite lookup_insert_eq, delete_singleton_eq. unfold release, referenced. cbn [lru set_insertions set_disk set_heap]. rewrite bool_decide_true by done. done.
Qed.

(** The element that an insertion uses. *)
Lemma find_or_make_spec k v st e st1 :
  quiet st -> find_or_make k v st = (e, st1) ->
  lru st1 = lru st /\ insertions st1 = ∅ /\ disk st1 = disk st /\ (next_element st <= next_element st1)%nat /\ (e < next_element st1)%nat /\
  (exists v', heap st1 !! e = Some {| e_key := k; e_path := path_from_key k; e_value := v'; _keep_file_on_destruct := false |}) /\
  (forall e', e' <> e -> heap st1 !! e' = heap st !! e') /\
  ((k, e) ∈ entries (lru st) \/ (k ∉ fst <$> entries (lru st)) /\ heap st !! e = None).
Proof.
  intros Hq Hf. unfold find_or_make in Hf. destruct (get_refines k (lru st) (q_lru _ Hq)) as (_ & _ & Hg). rewrite Hg in Hf. destruct (spec_find k (entries (lru st))) as [e0|] eqn:Es; simplify_eq.
  - assert ((k, e) ∈ entries (lru st1)) as Hin.
    { unfold spec_find in Es. destruct (List.find _ _) as [[k' e']|] eqn:E; [|done]. cbn in Es. injection Es as <-. apply find_some in E as [Hi Hk]. apply bool_decide_eq_true in Hk. cbn in Hk. subst k'. by apply list_elem_of_In. }
    destruct (q_element _ Hq _ _ Hin) as [v' Hv]. split_and!; [done|by apply q_insertions|done|done| |eauto|done|by left]. by destruct (q_heap _ Hq _ _ Hv).
  - cbn. apply find_absent in Es. assert (heap st !! next_element st = None) as Hn.
    { destruct (heap st !! next_element st) as [el|] eqn:E; [|done]. apply (q_heap _ Hq) in E as [? _]. lia. }
    split_and!; [done|by apply q_insertions|done|lia|lia|rewrite lookup_insert_eq; eauto|intros; by rewrite lookup_insert_ne|by right].
Qed.

Lemma entry_element st k1 k2 e : quiet st -> (k1, e) ∈ entries (lru st) -> (k2, e) ∈ entries (lru st) -> k1 = k2.
Proof. intros Hq [v1 H1]%(q_element _ Hq) [v2 H2]%(q_element _ Hq). congruence. Qed.

(** The elements in the list are different. *)
Lemma elements_distinct k v st e st1 : quiet st -> find_or_make k v st = (e, st1) -> NoDup (snd <$> (k, e) :: without k (entries (lru st))).
Proof.
  intros Hq Hf. destruct (find_or_make_spec _ _ _ _ _ Hq Hf) as (_ & _ & _ & _ & _ & _ & _ & He). cbn. constructor.
  - intros ([k' e'] & Heq & [Hin Hne]%elem_without)%list_elem_of_fmap. cbn in *. subst e'. destruct He as [He|[Hk Hn]]; [apply Hne; by eapply entry_element|].
    destruct (q_element _ Hq _ _ Hin) as [v' Hv]. congruence.
  - assert (forall l, (forall x, x ∈ l -> x ∈ entries (lru st)) -> NoDup (fst <$> l) -> NoDup (snd <$> l)) as Hgen.
    { induction l as [|[k1 e1] l IH]; cbn; intros Hl Hn; [constructor|]. apply NoDup_cons in Hn as [Hx Hn]. constructor; [|apply IH; [set_solver|done]].
      intros ([k2 e2] & Heq & Hin)%list_elem_of_fmap. cbn in Heq. subst e2. apply Hx, list_elem_of_fmap. exists (k2, e1). split; [|done]. cbn. apply (entry_element st _ _ e1 Hq); apply Hl; [left|by right]. }
    apply Hgen; [by intros x [Hx _]%elem_without|]. apply without_keys, lru_keys, Hq.
Qed.

(** What an insertion leaves behind, unless there is no room for anything. *)
Definition after_insert (k : Key) (v : V) (ts : Z) (e : nat) (ev : option (Key * nat)) (c : LruCache Key nat) (st st1 : PersistentLruCache) : PersistentLruCache :=
  {| lru := c;
     heap := <[e := {| e_key := k; e_path := path_from_key k; e_value := v; _keep_file_on_destruct := false |}]> (match ev with Some (_, e') => delete e' (heap st1) | None => heap st1 end);
     disk := <[path_from_key k := element_file ts k v]> (match ev with Some (k', _) => delete (path_from_key k') (disk st) | None => disk st end);
     insertions := ∅; next_element := next_element st1 |}.

Lemma insert_result j k v ts st e st1 c ev :
  quiet st -> find_or_make k v st = (e, st1) -> evict max_size (push k e (lru st)) = (c, ev) -> match ev with Some (k', _) => k' <> k | None => True end ->
  insert_all j k v ts st = after_insert k v ts e ev c st st1.
Proof.
  intros Hq Hf Hev Hne. destruct (find_or_make_spec _ _ _ _ _ Hq Hf) as (Hl & Hi & Hd & _ & _ & [v' Hv] & Ho & _). pose proof (elements_distinct _ _ _ _ _ Hq Hf) as Hnd.
  pose proof (evict_ok max_size _ (push_ok (lru st) k e (q_lru _ Hq))) as (Hc & Hce & Hcv). rewrite Hev, push_entries in Hce, Hcv by apply Hq. cbn [fst snd] in Hce, Hcv.
  unfold insert_all, insert_begin. rewrite Hf, Hl, Hev, Hi. destruct ev as [[k' e']|].
  - rewrite bool_decide_false by done. set (lp := (k, e) :: without k (entries (lru st))) in *. destruct (max_size <? length lp)%nat; [|done].
    destruct (exists_last (l := lp)) as (l0 & x & Elp); [done|]. rewrite Elp, last_snoc in Hcv. injection Hcv as <-. rewrite Elp, removelast_last in Hce.
    rewrite Elp, fmap_app in Hnd. apply NoDup_app in Hnd as (_ & Hd0 & _).
    assert ((k, e) ∈ l0) as He0.
    { destruct l0 as [|y l0]; [by injection Elp as ? ?; subst; destruct Hne|]. injection Elp as <- _. left. }
    assert (e' ∉ snd <$> l0) as He' by (intros Hin; apply (Hd0 e' Hin); left).
    assert (e' <> e) as Hee. { intros ->. apply He', list_elem_of_fmap. by exists (k, e). }
    assert ((k', e') ∈ entries (lru st)) as Hin'.
    { assert ((k', e') ∈ lp) as Hlp by (rewrite Elp; apply elem_of_app; right; left). apply elem_of_cons in Hlp as [[= ? ?]|[Hx _]%elem_without]; [by destruct Hne|done]. }
    destruct (q_element _ Hq _ _ Hin') as [w Hw]. unfold release at 1. unfold referenced. cbn [lru set_lru insertions set_insertions heap]. rewrite Hce, (bool_decide_false (e' ∈ _)) by done.
    rewrite insert_empty, map_to_list_singleton. cbn [existsb snd i_element orb]. rewrite bool_decide_false by done. cbn [orb]. rewrite (Ho e' Hee), Hw. cbn [_keep_file_on_destruct e_path].
    rewrite (locked_end j e v ts {| e_key := k; e_path := path_from_key k; e_value := v'; _keep_file_on_destruct := false |}); [unfold after_insert; cbn; by rewrite Hd|done| |].
    + cbn [heap]. rewrite lookup_delete_ne by done. exact Hv.
    + cbn [lru]. rewrite Hce. apply list_elem_of_fmap. by exists (k, e).
  - destruct (max_size <? length _)%nat; [by rewrite last_cons in Hcv; destruct (last _)|]. rewrite insert_empty. erewrite locked_end; [|done|exact Hv|].
    + unfold after_insert. cbn. by rewrite Hd.
    + cbn [lru set_lru]. rewrite Hce. left.
Qed.

(** What is in the list afterwards. *)
Lemma after_entries k e st c ev :
  quiet st -> NoDup (snd <$> (k, e) :: without k (entries (lru st))) -> evict max_size (push k e (lru st)) = (c, ev) ->
  lru_ok c /\ entries c = take max_size ((k, e) :: without k (entries (lru st))) /\
  (forall x, x ∈ entries c -> x ∈ (k, e) :: without k (entries (lru st))) /\
  (forall x, x ∈ (k, e) :: without k (entries (lru st)) -> x ∈ entries c \/ ev = Some x) /\
  (forall k' e', ev = Some (k', e') -> (k', e') ∈ (k, e) :: without k (entries (lru st)) /\ e' ∉ snd <$> entries c).
Proof.
  intros Hq Hnd Hev. pose proof (evict_ok max_size _ (push_ok (lru st) k e (q_lru _ Hq))) as (Hc & Hce & Hcv). rewrite Hev in Hc, Hce, Hcv. rewrite push_entries in Hce, Hcv by apply Hq. cbn [fst snd] in *.
  assert (length ((k, e) :: without k (entries (lru st))) <= S max_size)%nat as Hlen.
  { pose proof (q_length _ Hq). unfold without. cbn. pose proof (filter_length_le (fun x => negb (bool_decide (fst x = k))) (entries (lru st))). lia. }
  set (lp := (k, e) :: without k (entries (lru st))) in *. destruct (max_size <? length lp)%nat eqn:E.
  - apply Nat.ltb_lt in E. destruct (exists_last (l := lp)) as (l0 & x & Elp); [done|]. assert (length l0 = max_size) as Hl0 by (rewrite Elp, length_app in *; cbn in *; lia).
    rewrite Elp in Hce, Hcv. rewrite removelast_last in Hce. rewrite last_snoc in Hcv. rewrite Hce, Elp. rewrite Elp, fmap_app in Hnd. apply NoDup_app in Hnd as (_ & Hd & _).
    split_and!; [done|by rewrite <-Hl0, take_app_length| | |].
    + intros y Hy. apply elem_of_app. by left.
    + intros y [Hy|Hy]%elem_of_app; [by left|right]. apply list_elem_of_singleton in Hy. congruence.
    + intros k' e' ->. injection Hcv as <-. split; [apply elem_of_app; right; left|]. intros Hin. apply (Hd _ Hin). left.
  - apply Nat.ltb_ge in E. subst ev. rewrite Hce. split_and!; [done|by rewrite take_ge|done|by left|done].
Qed.

Lemma fmap_ext_elem {A B} (f g : A -> B) (l : list A) : (forall x, x ∈ l -> f x = g x) -> f <$> l = g <$> l.
Proof. intros Hfg. apply map_ext_in. intros x Hx. apply Hfg. by apply list_elem_of_In. Qed.

Lemma contents_without k st : (fun x => (fst x, e_value <$> heap st !! snd x)) <$> without k (entries (lru st)) = without k (contents st).
Proof. apply filter_fmap_agree. by apply Forall_true. Qed.

Lemma NoDup_fst_eq {A B} (l : list (A * B)) k e1 e2 : NoDup (fst <$> l) -> (k, e1) ∈ l -> (k, e2) ∈ l -> e1 = e2.
Proof.
  intros Hn [i Hi]%list_elem_of_lookup [j Hj]%list_elem_of_lookup. assert (i = j) as -> by (eapply (NoDup_lookup (fst <$> l)); [done| |]; rewrite list_lookup_fmap; [by rewrite Hi|by rewrite Hj]). congruence.
Qed.

(** An insertion that leaves the key in the cache. *)
Lemma insert_kept_ok k v ts st e st1 c ev :
  quiet st -> k ∈ keys -> 0 <= ts < 2 ^ 64 -> find_or_make k v st = (e, st1) -> evict max_size (push k e (lru st)) = (c, ev) -> match ev with Some (k', _) => k' <> k | None => True end ->
  quiet (after_insert k v ts e ev c st st1) /\ contents (after_insert k v ts e ev c st st1) = spec_put max_size k (Some v) (contents st).
Proof.
  intros Hq Hk Hts Hf Hev Hne. destruct (find_or_make_spec _ _ _ _ _ Hq Hf) as (Hl & Hi & Hd & Hnx & Hex & _ & Ho & Hold). pose proof (elements_distinct _ _ _ _ _ Hq Hf) as Hnd.
  destruct (after_entries _ _ _ _ _ Hq Hnd Hev) as (Hc & Hce & Hsub & Hsup & Hlost).
  assert ((k, e) ∈ entries c) as Hke. { destruct (Hsup (k, e)) as [?|He]; [left|done|]. rewrite He in Hne. done. }
  assert (forall k1 e1, (k1, e1) ∈ entries c -> (k1, e1) = (k, e) \/ (k1, e1) ∈ entries (lru st) /\ k1 <> k /\ e1 <> e) as Hcase.
  { intros k1 e1 [->|[Hx Hxk]%elem_without]%Hsub%elem_of_cons; [by left|right]. split_and!; [done|done|]. intros ->. apply NoDup_cons in Hnd as [Hn _]. apply Hn, list_elem_of_fmap. exists (k1, e). split; [done|]. by apply elem_without. }
  assert (forall k1 e1, (k1, e1) ∈ entries c -> e1 <> e -> heap (after_insert k v ts e ev c st st1) !! e1 = heap st !! e1) as Hheap.
  { intros k1 e1 Hin Hee. cbn [heap after_insert]. rewrite lookup_insert_ne by done. destruct ev as [[k' e']|]; [|by apply Ho]. rewrite lookup_delete_ne; [by apply Ho|]. intros <-.
    destruct (Hlost k' e' eq_refl) as [_ Hno]. apply Hno, list_elem_of_fmap. by exists (k1, e'). }
  split.
  - split; cbn [lru insertions next_element after_insert].
    + intros k1 e1 [[= -> ->]|(Hx & _)]%Hcase; [done|]. by eapply q_keys.
    + done.
    + done.
    + rewrite Hce, length_take. lia.
    + intros k1 e1 Hin. destruct (Hcase _ _ Hin) as [[= -> ->]|(Hx & _ & Hee)]; [cbn; rewrite lookup_insert_eq; eauto|]. rewrite (Hheap k1) by done. by apply q_element.
    + intros e1 el Hin. destruct (decide (e1 = e)) as [->|Hee]; [cbn in Hin; rewrite lookup_insert_eq in Hin; by simplify_eq|]. cbn [heap after_insert] in Hin. rewrite lookup_insert_ne in Hin by done.
      assert (heap st !! e1 = Some el /\ forall k', ev <> Some (k', e1)) as [Hst Hev1].
      { destruct ev as [[k' e']|]; [apply lookup_delete_Some in Hin as [Hx Hin]|]; rewrite Ho in Hin by done; (split; [done|congruence]). }
      destruct (q_heap _ Hq _ _ Hst) as [Hlt Hx]. split; [lia|]. destruct (Hsup (e_key el, e1)) as [?|Hev2]; [|done|by destruct (Hev1 (e_key el))].
      right. apply elem_without. split; [done|]. cbn. intros He. rewrite He in Hx. destruct Hold as [Hold|[Hold _]]; [|apply Hold, list_elem_of_fmap; by exists (k, e1)].
      apply Hee. by apply (NoDup_fst_eq (entries (lru st)) k); [apply lru_keys, Hq| |].
    + intros k1 e1 Hin. destruct (Hcase _ _ Hin) as [[= -> ->]|(Hx & Hk1 & Hee)]; [exists ts, v; cbn; rewrite !lookup_insert_eq; done|].
      destruct (q_file _ Hq _ _ Hx) as (ts1 & v1 & Hts1 & Hv1 & Hd1). exists ts1, v1. rewrite (Hheap k1) by done. split; [done|]. split; [done|].
      cbn [disk after_insert]. assert (k1 ∈ keys) as Hkk by by eapply q_keys. rewrite lookup_insert_ne by (intros E; apply Hk1; symmetry; by apply different_paths).
      destruct ev as [[k' e']|]; [|done]. destruct (Hlost k' e' eq_refl) as [Hl' Hno]. apply elem_of_cons in Hl' as [[= -> _]|[Hl' _]%elem_without]; [done|].
      rewrite lookup_delete_ne; [done|]. intros E. apply different_paths in E; [|by eapply q_keys|done]. subst k1.
      assert (e1 = e') as -> by by apply (NoDup_fst_eq (entries (lru st)) k'); [apply lru_keys, Hq| |]. apply Hno, list_elem_of_fmap. by exists (k', e').
    + intros p [f Hp]. cbn [disk after_insert] in Hp. apply lookup_insert_Some in Hp as [[<- _]|[Hpk Hp]]; [by exists k, e|].
      assert (disk st !! p = Some f /\ forall k' e', ev = Some (k', e') -> p <> path_from_key k') as [Hp1 Hp2].
      { destruct ev as [[k' e']|]; [apply lookup_delete_Some in Hp as [? ?]; split; [done|]; by intros ? ? [= -> ->]|done]. }
      destruct (q_disk _ Hq p) as (k1 & e1 & Hx & ->); [by eexists|]. exists k1, e1. split; [|done]. destruct (Hsup (k1, e1)) as [?|Hev1]; [|done|by destruct (Hp2 _ _ Hev1)].
      right. apply elem_without. split; [done|]. cbn. by intros ->.
  - unfold contents at 1. cbn [lru after_insert]. rewrite Hce. unfold spec_put. rewrite <-contents_without. destruct max_size as [|m]; [done|]. rewrite !firstn_cons, fmap_cons. f_equal.
    { cbn. by rewrite lookup_insert_eq. }
    rewrite <-fmap_take. apply fmap_ext_elem. intros [k1 e1] Hx. f_equal. assert ((k1, e1) ∈ entries c) as Hin by (rewrite Hce, firstn_cons; by right).
    destruct (Hcase _ _ Hin) as [[= -> ->]|(_ & _ & Hee)]; [|cbn [snd]; by rewrite (Hheap k1)].
    assert ((k, e) ∈ without k (entries (lru st))) as [_ Hkk]%elem_without by (rewrite <-(take_drop m); apply elem_of_app; by left). done.
Qed.

(** No room for anything. *)
Lemma insert_no_room j k v ts st : quiet st -> k ∈ keys -> max_size = O -> quiet (insert_all j k v ts st) /\ contents (insert_all j k v ts st) = [].
Proof.
  intros Hq Hk Hm. assert (entries (lru st) = []) as Hen by (pose proof (q_length _ Hq); rewrite Hm in *; destruct (entries (lru st)); [done|cbn in *; lia]).
  destruct (find_or_make k v st) as [e st1] eqn:Hf. destruct (evict max_size (push k e (lru st))) as [c ev] eqn:Hev.
  destruct (find_or_make_spec _ _ _ _ _ Hq Hf) as (Hl & Hi & Hd & _ & _ & [v' Hv] & Ho & Hold).
  destruct (after_entries _ _ _ _ _ Hq (elements_distinct _ _ _ _ _ Hq Hf) Hev) as (Hc & Hce & _ & Hsup & _). rewrite Hm in Hce. cbn in Hce.
  assert (ev = Some (k, e)) as ->. { destruct (Hsup (k, e)) as [Hin|?]; [left| |done]. rewrite Hce in Hin. by apply not_elem_of_nil in Hin. }
  assert (heap st1 = {[e := {| e_key := k; e_path := path_from_key k; e_value := v'; _keep_file_on_destruct := false |}]}) as Hh.
  { apply map_eq. intros i. destruct (decide (i = e)) as [->|Hne]; [by rewrite lookup_singleton_eq|]. rewrite Ho, lookup_singleton_ne by done. destruct (heap st !! i) eqn:E; [|done].
    apply (q_heap _ Hq) in E as [_ Hin]. rewrite Hen in Hin. by apply not_elem_of_nil in Hin. }
  assert (insert_all j k v ts st = {| lru := c; heap := ∅; disk := delete (path_from_key k) (disk st); insertions := ∅; next_element := next_element st1 |}) as ->.
  { unfold insert_all, insert_begin. rewrite Hf, Hl, Hev, bool_decide_true by done. unfold release at 1, referenced. cbn [lru set_lru insertions heap]. rewrite Hce, Hi, map_to_list_empty. cbn [fmap list_fmap existsb orb].
    rewrite bool_decide_false by apply not_elem_of_nil. cbn [orb]. rewrite Hv. unfold insert_locked. cbn [insertions]. rewrite lookup_empty. unfold insert_end. cbn [insertions]. rewrite lookup_empty.
    cbn. by rewrite Hd, Hh, delete_singleton_eq. }
  split; [|unfold contents; cbn [lru]; by rewrite Hce].
  split; cbn [lru insertions heap disk next_element]; rewrite ?Hce; try done; try (intros ? ? Hx; by apply not_elem_of_nil in Hx).
  - cbn. lia.
  - intros p [f [_ Hp]%lookup_delete_Some]. destruct (q_disk _ Hq p) as (k1 & e1 & Hx & _); [by eexists|]. rewrite Hen in Hx. by apply not_elem_of_nil in Hx.
Qed.

Lemma insert_all_ok j k v ts st :
  quiet st -> k ∈ keys -> 0 <= ts < 2 ^ 64 -> quiet (insert_all j k v ts st) /\ contents (insert_all j k v ts st) = spec_put max_size k (Some v) (contents st).
Proof.
  intros Hq Hk Hts. destruct (decide (max_size = O)) as [Hm|Hm].
  { assert (spec_put max_size k (Some v) (contents st) = []) as -> by by rewrite Hm. by apply insert_no_room. }
  destruct (find_or_make k v st) as [e st1] eqn:Hf. destruct (evict max_size (push k e (lru st))) as [c ev] eqn:Hev.
  assert (match ev with Some (k', _) => k' <> k | None => True end) as Hne.
  { destruct ev as [[k' e']|]; [|done]. intros ->. destruct (after_entries _ _ _ _ _ Hq (elements_distinct _ _ _ _ _ Hq Hf) Hev) as (_ & Hce & _ & _ & Hlost).
    destruct (Hlost k e' eq_refl) as [Hin Hno]. apply elem_of_cons in Hin as [[= ->]|[_ Hn]%elem_without]; [|done]. apply Hno. rewrite Hce. destruct max_size; [done|]. left. }
  rewrite (insert_result j k v ts st e st1 c ev) by done. by apply insert_kept_ok.
Qed.

Lemma find_ok k st : quiet st -> quiet (find_ k st) /\ contents (find_ k st) = spec_touch k (contents st).
Proof.
  intros Hq. assert (lru_ok (move_to_front k (lru st)) /\ entries (move_to_front k (lru st)) = spec_touch k (entries (lru st))) as [Ho He].
  { destruct (get_refines k (lru st) (q_lru _ Hq)) as (H1 & H2 & _). unfold get, move_to_front in *. by destruct (_map (lru st) !! k). }
  assert (forall x, x ∈ entries (lru (find_ k st)) <-> x ∈ entries (lru st)) as Hin.
  { intros x. unfold find_. cbn [lru set_lru]. rewrite He. unfold spec_touch. rewrite elem_of_app, elem_without, list_elem_of_In, filter_In, bool_decide_eq_true, <-list_elem_of_In. destruct (decide (fst x = k)); tauto. }
  split.
  - destruct Hq as [H1 H2 H3 H4 H5 H6 H7 H8]. split; cbn [insertions heap disk next_element find_ set_lru]; try setoid_rewrite Hin; try done.
    cbn [lru set_lru find_]. rewrite He. unfold spec_touch, without. rewrite length_app. etrans; [|exact H4]. apply Nat.eq_le_incl. clear. induction (entries (lru st)) as [|x l IH]; [done|]. cbn. case_bool_decide; cbn; lia.
  - unfold contents, find_. cbn [lru heap set_lru]. rewrite He. unfold spec_touch. rewrite fmap_app. f_equal; [|apply contents_without]. apply filter_fmap_agree. by apply Forall_true.
Qed.

(** *** Restarting *)

Lemma close_disk st : quiet st -> disk (close_cache st) = disk st.
Proof.
  intros Hq. unfold close_cache. set (es := snd <$> entries (lru st)).
  assert (forall e el, foldr (alter keep_file) (heap st) es !! e = Some el -> e ∈ es -> _keep_file_on_destruct el = true) as Hk.
  { clearbody es. induction es as [|e0 es IH]; cbn; intros e el; [by intros _ ?%not_elem_of_nil|]. destruct (decide (e0 = e)) as [->|Hne].
    - rewrite lookup_alter_eq. destruct (foldr _ _ es !! e); [|done]. by intros [= <-].
    - rewrite lookup_alter_ne by done. intros Hl [->|Hin]%elem_of_cons; [done|]. by eapply IH. }
  set (st0 := set_lru new_lru _). assert (forall l, (forall e, e ∈ l -> e ∈ es) -> disk (foldr release st0 l) = disk st /\ (forall e el, heap (foldr release st0 l) !! e = Some el -> heap st0 !! e = Some el)) as Hgen.
  { induction l as [|e l IH]; intros Hl; [done|]. destruct IH as [Hd Hh]; [intros; apply Hl; by right|]. cbn [foldr]. unfold release at 1 3. destruct (referenced e _); [done|].
    destruct (heap (foldr release st0 l) !! e) as [el|] eqn:E; [|done]. cbn [disk heap]. split; [|intros e' el' [_ Hx]%lookup_delete_Some; by apply Hh].
    rewrite (Hk e el); [done|by apply Hh|apply Hl; left]. }
  by apply Hgen.
Qed.

(** What [readdir] lists: the files, and other things that are no regular files. *)
Definition listing (names : list (bool * list byte)) (d : gmap (list byte) (list byte)) : Prop :=
  NoDup (snd <$> names) /\ forall p, is_Some (d !! p) <-> (true, p) ∈ names.

Definition entry_of (d : gmap (list byte) (list byte)) (x : bool * list byte) : option (Z * Element) :=
  if is_cache_entry (fst x) (snd x) then
    let? (ts, key, v) := d !! snd x ≫= element_read in
    Some (ts, {| e_key := key; e_path := snd x; e_value := v; _keep_file_on_destruct := false |})
  else None.

Lemma insert_by_time_perm ts el l : insert_by_time ts el l ≡ₚ (ts, el) :: l.
Proof. induction l as [|x l IH]; cbn; [done|]. destruct (ts <? fst x); [done|]. by rewrite IH, Permutation_swap. Qed.

Lemma read_entries_perm d names : forall acc, read_entries names d acc ≡ₚ acc ++ omap (entry_of d) names.
Proof.
  induction names as [|[r n] names IH]; intros acc; cbn [read_entries]; [by rewrite app_nil_r|]. rewrite IH. cbn [omap list_omap]. unfold entry_of at 2. cbn [fst snd].
  destruct (is_cache_entry r n); [|done]. destruct (d !! n ≫= element_read) as [[[ts k] v]|]; [|done]. rewrite insert_by_time_perm. cbn [app]. apply Permutation_middle.
Qed.

Lemma path_is_entry k : is_cache_entry true (path_from_key k) = true.
Proof.
  unfold is_cache_entry, path_from_key. apply negb_true_iff, bool_decide_false. intros E. pose proof (to_hex_is_hex (sha1 k)) as Hx.
  destruct (to_hex (sha1 k)) as [|c l]; [done|]. cbn in E. injection E as -> _. done.
Qed.

(** The element that is read from the file of a key. *)
Lemma entry_of_file st k e : quiet st -> (k, e) ∈ entries (lru st) ->
  exists ts v, e_value <$> heap st !! e = Some v /\ entry_of (disk st) (true, path_from_key k) = Some (ts, {| e_key := k; e_path := path_from_key k; e_value := v; _keep_file_on_destruct := false |}).
Proof.
  intros Hq Hin. destruct (q_file _ Hq _ _ Hin) as (ts & v & Hts & Hv & Hd). exists ts, v. split; [done|]. unfold entry_of. cbn [fst snd]. rewrite path_is_entry, Hd. cbn [mbind option_bind].
  rewrite element_roundtrip; [done|done|]. by apply short_keys, (q_keys _ Hq k e).
Qed.

Lemma entry_of_key st names x ts el : quiet st -> listing names (disk st) -> x ∈ names -> entry_of (disk st) x = Some (ts, el) ->
  exists e, (e_key el, e) ∈ entries (lru st) /\ e_value <$> heap st !! e = Some (e_value el) /\ snd x = path_from_key (e_key el).
Proof.
  intros Hq [_ Hl] Hx He. destruct x as [r p]. assert (is_Some (disk st !! p)) as Hp.
  { unfold entry_of in He. cbn in He. destruct (is_cache_entry r p); [|done]. destruct (disk st !! p); [by eexists|done]. }
  assert (r = true) as -> by (unfold entry_of, is_cache_entry in He; by destruct r). destruct (q_disk _ Hq p Hp) as (k & e & Hin & ->).
  destruct (entry_of_file _ _ _ Hq Hin) as (ts' & v & Hv & He'). rewrite He' in He. injection He as <- <-. by exists e.
Qed.

Lemma entry_keys_distinct st names : quiet st -> listing names (disk st) -> NoDup ((fun x => e_key (snd x)) <$> omap (entry_of (disk st)) names).
Proof.
  intros Hq Hl. assert (forall l, (forall x, x ∈ l -> x ∈ names) -> NoDup (snd <$> l) -> NoDup ((fun x => e_key (snd x)) <$> omap (entry_of (disk st)) l)) as Hgen; [|apply Hgen; [done|apply Hl]].
  induction l as [|x l IH]; cbn; intros Hin Hn; [constructor|]. apply NoDup_cons in Hn as [Hx Hn]. specialize (IH ltac:(intros; apply Hin; by right) Hn).
  destruct (entry_of (disk st) x) as [[ts el]|] eqn:Ex; [|done]. cbn. constructor; [|done]. intros ([ts' el'] & Hk & (y & Hy & Ey)%list_elem_of_omap)%list_elem_of_fmap. cbn in Hk.
  destruct (entry_of_key st names x ts el Hq Hl (Hin x ltac:(left)) Ex) as (_ & _ & _ & Hpx). destruct (entry_of_key st names y ts' el' Hq Hl (Hin y ltac:(by right)) Ey) as (_ & _ & _ & Hpy).
  apply Hx, list_elem_of_fmap. exists y. split; [congruence|done].
Qed.

Definition holds (st : PersistentLruCache) (k : Key) (v : V) : Prop := exists e, (k, e) ∈ entries (lru st) /\ e_value <$> heap st !! e = Some v.

Lemma value_of_holds st k v : lru_ok (lru st) -> value_of k st = Some v <-> holds st k v.
Proof.
  intros Hc. unfold value_of, holds. destruct (get_refines k (lru st) Hc) as (_ & _ & ->). assert (forall e, spec_find k (entries (lru st)) = Some e <-> (k, e) ∈ entries (lru st)) as Hf.
  { intros e. unfold spec_find. destruct (List.find _ _) as [[k' e']|] eqn:E; cbn.
    - apply find_some in E as [Hin Hk]. apply bool_decide_eq_true in Hk. cbn in Hk. subst k'. apply list_elem_of_In in Hin. split; [by intros [= <-]|]. intros Hin'. f_equal. apply (NoDup_fst_eq (entries (lru st)) k); [apply lru_keys, Hc|done|done].
    - split; [done|]. intros Hin%list_elem_of_In. apply (find_none _ _ E) in Hin. cbn in Hin. by rewrite bool_decide_true in Hin. }
  destruct (spec_find k (entries (lru st))) as [e|] eqn:E.
  - split; [intros Hv; exists e; by rewrite <-Hf|]. intros (e' & Hin & Hv). apply Hf in Hin. congruence.
  - split; [done|]. intros (e & Hin & _). apply Hf in Hin. done.
Qed.

Lemma load_elements els : forall st,
  lru_ok (lru st) -> (forall k e, (k, e) ∈ entries (lru st) -> (e < next_element st)%nat) -> NoDup ((fun x => e_key (snd x)) <$> els) ->
  (forall x, x ∈ els -> e_key (snd x) ∉ fst <$> entries (lru st)) ->
  let st' := foldl load_element st els in
  lru_ok (lru st') /\ forall k v, holds st' k v <-> holds st k v \/ exists x, x ∈ els /\ e_key (snd x) = k /\ e_value (snd x) = v.
Proof.
  induction els as [|x els IH]; intros st Hc Hlt Hn Hfresh; cbn [foldl]; [split; [done|]; intros k v; split; [by left|]; by intros [?|(? & ?%not_elem_of_nil & _)]|].
  cbn in Hn. apply NoDup_cons in Hn as [Hx Hn]. assert (_map (lru st) !! e_key (snd x) = None) as Hm.
  { destruct (_map (lru st) !! e_key (snd x)) as [n|] eqn:E; [|done]. apply (lru_map _ Hc) in E as [e He]. destruct (Hfresh x ltac:(left)). apply list_elem_of_fmap. exists (e_key (snd x), e). split; [done|].
    apply list_elem_of_fmap. by exists (n, (e_key (snd x), e)). }
  assert (lru (load_element st x) = push (e_key (snd x)) (next_element st) (lru st)) as Hp by (unfold load_element, push; cbn [lru]; by rewrite Hm).
  assert (entries (lru (load_element st x)) = (e_key (snd x), next_element st) :: entries (lru st)) as He by (rewrite Hp, push_entries, without_absent; [done|apply Hfresh; left|done]).
  destruct (IH (load_element st x)) as [Hc' Hh].
  - rewrite Hp. by apply push_ok.
  - intros k e. rewrite He. intros [[= -> ->]|Hin]%elem_of_cons; cbn; [lia|]. apply Hlt in Hin. lia.
  - done.
  - intros y Hy. rewrite He. cbn. rewrite not_elem_of_cons. split; [|apply Hfresh; by right]. intros Ek. apply Hx. rewrite <-Ek. apply list_elem_of_fmap. by exists y.
  - split; [done|]. intros k v. rewrite Hh. assert (holds (load_element st x) k v <-> holds st k v \/ e_key (snd x) = k /\ e_value (snd x) = v) as ->; [|].
    + unfold holds. rewrite He. cbn [heap load_element]. split.
      * intros (e & [[= -> ->]|Hin]%elem_of_cons & Hv); [right; rewrite lookup_insert_eq in Hv; cbn in Hv; by simplify_eq|left]. exists e. split; [done|]. rewrite lookup_insert_ne in Hv; [done|]. apply Hlt in Hin. lia.
      * intros [(e & Hin & Hv)|[<- <-]]; [|exists (next_element st); split; [left|by rewrite lookup_insert_eq]]. exists e. split; [by right|]. rewrite lookup_insert_ne; [done|]. apply Hlt in Hin. lia.
    + setoid_rewrite elem_of_cons. naive_solver.
Qed.

Lemma load_quiet st names : quiet st -> listing names (disk st) -> forall k, value_of k (load names (disk st)) = value_of k st.
Proof.
  intros Hq Hl k. pose proof (read_entries_perm (disk st) names []) as Hp. cbn [app] in Hp. pose proof (entry_keys_distinct st names Hq Hl) as Hnd. rewrite <-Hp in Hnd.
  unfold load. set (els := read_entries names (disk st) []) in *. assert (length els <= max_size)%nat as Hlen.
  { etrans; [|apply (q_length _ Hq)]. rewrite <-(length_fmap (fun x => e_key (snd x)) els), <-(length_fmap fst (entries (lru st))). apply submseteq_length, NoDup_submseteq; [done|].
    intros k' ([ts el] & -> & Hx)%list_elem_of_fmap. rewrite Hp in Hx. apply list_elem_of_omap in Hx as (y & Hy & Ey). destruct (entry_of_key st names y ts el Hq Hl Hy Ey) as (e & Hin & _). apply list_elem_of_fmap. by exists (e_key el, e). }
  replace (length els - max_size)%nat with O by lia. cbn [drop]. set (st0 := {| lru := new_lru; heap := ∅; disk := _; insertions := ∅; next_element := O |}).
  destruct (load_elements els st0) as [Hc Hh]; [apply new_lru_ok|by intros ? ? ?%not_elem_of_nil|done|intros ? ? ?%not_elem_of_nil; done|].
  apply option_eq. intros v. rewrite value_of_holds, value_of_holds, Hh by (done || apply Hq). split.
  - intros [(e & Hin & _)|([ts el] & Hx & <- & <-)]; [by apply not_elem_of_nil in Hin|]. rewrite Hp in Hx. apply list_elem_of_omap in Hx as (y & Hy & Ey).
    destruct (entry_of_key st names y ts el Hq Hl Hy Ey) as (e & Hin & Hv & _). by exists e.
  - intros (e & Hin & Hv). right. destruct (entry_of_file st k e Hq Hin) as (ts & v' & Hv' & He). exists (ts, {| e_key := k; e_path := path_from_key k; e_value := v'; _keep_file_on_destruct := false |}).
    split; [|cbn; split; [done|congruence]]. rewrite Hp. apply list_elem_of_omap. exists (true, path_from_key k). split; [|done]. apply Hl. destruct (q_file _ Hq _ _ Hin) as (? & ? & _ & _ & ->). by eexists.
Qed.

(** *** The cache over restarts *)

Variant cache_op := Insert (k : Key) (v : V) (ts : Z) | Find (k : Key).

Definition new_cache : PersistentLruCache := {| lru := new_lru; heap := ∅; disk := ∅; insertions := ∅; next_element := O |}.

Fixpoint cache_run (ops : list cache_op) (st : PersistentLruCache) : PersistentLruCache :=
  match ops with
  | [] => st
  | Insert k v ts :: ops => cache_run ops (insert_all 0 k v ts st)
  | Find k :: ops => cache_run ops (find_ k st)
  end.

Definition in_memory (op : cache_op) : lru_op := match op with Insert k v _ => Put k v | Find k => Get k end.

Definition op_ok (op : cache_op) : Prop := match op with Insert k _ ts => k ∈ keys /\ 0 <= ts < 2 ^ 64 | Find _ => True end.

Abbreviation some_values := (fmap (fun x : Key * V => (fst x, Some (snd x)))).

Lemma run_simulates ops : Forall op_ok ops -> forall c used st,
  lru_ok c -> (length (entries c) <= max_size)%nat -> quiet st -> contents st = some_values (entries c) ->
  lru_ok (fst (lru_run max_size (in_memory <$> ops) c used)) /\ quiet (cache_run ops st) /\ contents (cache_run ops st) = some_values (entries (fst (lru_run max_size (in_memory <$> ops) c used))).
Proof.
  induction 1 as [|op ops Hop _ IH]; intros c used st Hc Hl Hq Hs; [done|]. destruct op as [k v ts|k]; cbn [cache_run fmap list_fmap in_memory lru_run].
  - destruct Hop as [Hk Hts]. destruct (put_refines max_size k v c Hc Hl) as (Hc' & He & _). destruct (insert_all_ok 0 k v ts st Hq Hk Hts) as [Hq' Hs']. apply IH; [done| |done|].
    + rewrite He. unfold spec_put. rewrite length_take. lia.
    + rewrite Hs', He, Hs. unfold spec_put. rewrite fmap_take, fmap_cons. do 2 f_equal. symmetry. apply filter_fmap_agree. by apply Forall_true.
  - destruct (get_refines k c Hc) as (Hc' & He & _). destruct (find_ok k st Hq) as [Hq' Hs']. apply IH; [done| |done|].
    + rewrite He. unfold spec_touch, without. rewrite length_app. etrans; [|exact Hl]. apply Nat.eq_le_incl. clear. induction (entries c) as [|x l IH]; [done|]. cbn. case_bool_decide; cbn; lia.
    + rewrite Hs', He, Hs. unfold spec_touch. rewrite fmap_app. f_equal; symmetry; apply filter_fmap_agree; by apply Forall_true.
Qed.

Lemma new_cache_quiet : quiet new_cache.
Proof.
  split; cbn; try done; try (intros ? ? ?%not_elem_of_nil; done); [apply new_lru_ok|lia|]. intros p [f Hp]. by rewrite lookup_empty in Hp.
Qed.

(** C30: as long as insertions do not overlap, the persistent cache holds what the cache in memory holds after the same operations, there is a file for each of its keys and no other, and closing and loading it again
    gives the same values, in whatever order the directory is read. *)
Theorem persistent_cache_refines (ops : list cache_op) :
  Forall op_ok ops ->
  let st := cache_run ops new_cache in
  let c := fst (lru_run max_size (in_memory <$> ops) new_lru []) in
  (forall k, value_of k st = snd (get k c)) /\
  (forall p, is_Some (disk st !! p) <-> exists k, is_Some (snd (get k c)) /\ p = path_from_key k) /\
  (forall names, listing names (disk (close_cache st)) -> forall k, value_of k (load names (disk (close_cache st))) = snd (get k c)).
Proof.
  intros Hops st c. destruct (run_simulates ops Hops new_lru [] new_cache) as (Hc & Hq & Hs); [apply new_lru_ok|cbn; lia|apply new_cache_quiet|done|]. fold st c in Hc, Hq, Hs.
  assert (forall k, value_of k st = snd (get k c)) as Hval.
  { intros k. destruct (get_refines k c Hc) as (_ & _ & ->). unfold value_of. destruct (get_refines k (lru st) (q_lru _ Hq)) as (_ & _ & ->). unfold contents in Hs.
    revert Hs. unfold spec_find. generalize (entries c). induction (entries (lru st)) as [|x l IH]; intros [|y l'] Hs; cbn in Hs; try done. injection Hs as Hk Hv Hs. cbn. rewrite Hk. case_bool_decide; [done|]. by apply IH. }
  split_and!; [done| |].
  - intros p. split.
    + intros (k & e & Hin & ->)%(q_disk _ Hq). exists k. split; [|done]. rewrite <-Hval. destruct (q_element _ Hq _ _ Hin) as [v Hv]. exists v. apply value_of_holds; [apply Hq|]. exists e. by rewrite Hv.
    + intros (k & [v Hv] & ->). rewrite <-Hval in Hv. apply value_of_holds in Hv as (e & Hin & _); [|apply Hq]. destruct (q_file _ Hq _ _ Hin) as (? & ? & _ & _ & ->). by eexists.
  - intros names. rewrite close_disk by done. intros Hl k. rewrite load_quiet by done. apply Hval.
Qed.

(** *** Insertions that overlap *)

(** an insertion holds its element until it ends; if the key was evicted in the meantime and inserted again, with another element, the end of the first insertion removes the file of the second: the key is in
    the cache, but has no file. *)
Theorem evicted_insertion_removes_file (st : PersistentLruCache) (j e1 e2 : nat) (x : insertion) (el : Element) (k : Key) (result : option Z) :
  insertions st !! j = Some x -> i_element x = e1 -> (forall i y, insertions st !! i = Some y -> i_element y = e1 -> i = j) ->
  heap st !! e1 = Some el -> e_path el = path_from_key k -> _keep_file_on_destruct el = false -> e1 ∉ snd <$> entries (lru st) -> (k, e2) ∈ entries (lru st) ->
  disk (insert_end j result st) !! path_from_key k = None /\ (k, e2) ∈ entries (lru (insert_end j result st)).
Proof.
  intros Hj He Honly Hh Hp Hkeep Hno Hin. unfold insert_end. rewrite Hj, He. set (w := match result with Some _ => _ | None => _ end).
  assert (lru w = lru st /\ heap w = heap st /\ insertions w = insertions st) as (Hwl & Hwh & Hwi) by (unfold w; rewrite Hh; destruct result; [destruct (i_writing x)|]; done).
  unfold release, referenced. cbn [lru insertions heap set_insertions]. rewrite Hwl, Hwh, Hh, bool_decide_false by done. cbn [orb].
  assert (existsb (fun y => bool_decide (i_element (snd y) = e1)) (map_to_list (delete j (insertions st))) = false) as ->; [|cbn [disk lru]; by rewrite Hkeep, Hp, lookup_delete_eq].
  apply not_true_is_false. intros ([i y] & Hy & Hx)%existsb_exists. apply bool_decide_eq_true in Hx. apply list_elem_of_In, elem_of_map_to_list, lookup_delete_Some in Hy as [Hne Hy]. apply Hne. symmetry. by eapply Honly.
Qed.

End Persistent.

(** ** Witnesses *)

#[local] Instance text_codec : ValueCodec (list byte) := {| value_write := id; value_read := Some |}.
#[local] Instance text_codec_laws : ValueCodecLaws (list byte).
Proof. done. Qed.

Definition sample_keys : list (list byte) := [str "hello1"; str "hello2"; str "hello3"].

(** The operations of the test of the repository. *)
Definition sample_ops : list cache_op :=
  [Insert (str "hello1") (str "world1") 1; Find (str "hello1"); Insert (str "hello2") (str "world2") 2; Insert (str "hello3") (str "world3") 3; Find (str "hello2")].

Definition sample_names : list (bool * list byte) := [(false, str "."); (true, to_hex (str "hello3")); (true, to_hex (str "hello2"))].

Lemma sample_listing : listing sample_names (disk (close_cache (cache_run id 2 sample_ops new_cache))).
Proof.
  split; [unfold sample_names; cbn [fmap list_fmap snd]; repeat constructor; rewrite ?elem_of_cons, ?elem_of_nil; intuition discriminate|].
  assert (disk (close_cache (cache_run id 2 sample_ops new_cache)) =
    <[to_hex (str "hello2") := element_file 2 (str "hello2") (str "world2")]> {[to_hex (str "hello3") := element_file 3 (str "hello3") (str "world3")]}) as -> by (apply (bool_decide_unpack _); vm_compute; exact I).
  intros p. unfold sample_names. rewrite !elem_of_cons, elem_of_nil. split.
  - intros [f [[<- _]|[_ [<- _]%lookup_singleton_Some]]%lookup_insert_Some]; tauto.
  - intros [?|[[= ->]|[[= ->]|[]]]]; [discriminate|rewrite lookup_insert_ne, lookup_singleton_eq by discriminate; by eexists|rewrite lookup_insert_eq; by eexists].
Qed.

Lemma persistent_cache_refines_witness :
  value_of (str "hello1") (cache_run id 2 sample_ops new_cache) = None /\
  value_of (str "hello2") (load 2 sample_names (disk (close_cache (cache_run id 2 sample_ops new_cache)))) = Some (str "world2").
Proof.
  destruct (persistent_cache_refines id 2 sample_keys) with (ops := sample_ops) as (Hv & _ & Hr).
  - unfold sample_keys. intros k1 k2 H1 H2. rewrite !elem_of_cons, elem_of_nil in H1, H2. destruct H1 as [-> |[-> |[-> |[]]]], H2 as [-> |[-> |[-> |[]]]]; first [reflexivity|discriminate].
  - unfold sample_keys. intros k Hk. rewrite !elem_of_cons, elem_of_nil in Hk. destruct Hk as [-> |[-> |[-> |[]]]]; reflexivity.
  - unfold sample_ops, sample_keys. repeat constructor; try (rewrite !elem_of_cons; tauto); lia.
  - split; [rewrite Hv; reflexivity|]. rewrite Hr; [reflexivity|apply sample_listing].
Defined.

(** A cache for one element; the first insertion of a key is still waiting when another key evicts it, and the key is inserted again. *)
Definition overlapping : PersistentLruCache :=
  let a := str "hello1" in
  insert_end 3 (Some 3) (insert_locked 3 (insert_begin id 1 3 a (str "again")
    (insert_end 2 (Some 2) (insert_locked 2 (insert_begin id 1 2 (str "hello2") (str "world2")
      (insert_begin id 1 1 a (str "world1") new_cache)))))).

Definition first_insertion : insertion := {| i_element := O; i_value := str "world1"; i_writing := false |}.
Definition first_element : Element := {| e_key := str "hello1"; e_path := to_hex (str "hello1"); e_value := str "world1"; _keep_file_on_destruct := false |}.

Lemma evicted_insertion_removes_file_witness :
  is_Some (disk overlapping !! to_hex (str "hello1")) /\ disk (insert_end 1 None overlapping) !! to_hex (str "hello1") = None /\
  (str "hello1", 2%nat) ∈ entries (lru (insert_end 1 None overlapping)).
Proof.
  split; [vm_compute; by eexists|].
  apply (evicted_insertion_removes_file id overlapping 1 0 2 first_insertion first_element (str "hello1") None); try (vm_compute; reflexivity).
  - intros i y. replace (insertions overlapping) with ({[1%nat := first_insertion]} : gmap nat insertion) by (vm_compute; reflexivity). by intros [<- _]%lookup_singleton_Some.
  - vm_compute. by intros [|?%not_elem_of_nil]%elem_of_cons.
  - vm_compute. left.
Defined.
