(* ===== verification/Injector.v ===== *)
(** * The injector: [serve] of src/injector.cpp, src/origin_pools.h and [ConnectionPool] of src/connection_pool.h

    The connections of user agents are served concurrently and share the pools of connections to origins.  An event is the start of a request on a connection (up to the request that is sent to the origin), the end of
    the response, or something that comes in over a pooled connection; [step] is what the code does on it, on the state of all connections and pools.  What happens outside (the resolver, sockets, the
    handshake, the response) is part of the event.

    A pool is a list that the connections point to weakly: the list has a number, and a connection finds it as long as a pool with that number exists. *)
From S2P Require Import Prelude Number SplitString Url Http Regex Request CacheControl Base64 Routing Access ClientServe.

(** ** Pools of connections to origins *)

(** [OriginPools::PoolId]: [is_ssl] and [host]. *)
Abbreviation PoolId := (bool * list byte)%type.

(** A stream to an origin, with the address and the name that the certificate was checked for.  [unread]: the end of an earlier response is still to come.  [opened_for] and [resolved] record
    the request and the result of the resolver with which it was opened. *)
Record Connection := {
  stream : nat;
  address : list byte;
  tls_name : option (list byte);
  unread : bool;
  _connections : option nat;
  opened_for : request_header;
  resolved : list (list byte);
}.

Definition set_connections (g : option nat) (c : Connection) : Connection :=
  {| stream := stream c; address := address c; tls_name := tls_name c; unread := unread c; _connections := g; opened_for := opened_for c; resolved := resolved c |}.
Definition set_unread (b : bool) (c : Connection) : Connection :=
  {| stream := stream c; address := address c; tls_name := tls_name c; unread := b; _connections := _connections c; opened_for := opened_for c; resolved := resolved c |}.

(** The pools, and the lists that exist. *)
Record OriginPools := { _pools : gmap PoolId nat; lists : gmap nat (list Connection); fresh : nat }.

Definition no_pools : OriginPools := {| _pools := ∅; lists := ∅; fresh := O |}.

Definition make_pool_id (rq : request_header) : option PoolId :=
  match get_host rq with
  | [] => None
  | host => Some (starts_with (target rq) (str "https:"), host)
  end.

Definition set_list (g : nat) (cs : list Connection) (p : OriginPools) : OriginPools :=
  {| _pools := _pools p; lists := <[g := cs]> (lists p); fresh := fresh p |}.

Definition erase_pool (id : PoolId) (g : nat) (p : OriginPools) : OriginPools :=
  {| _pools := delete id (_pools p); lists := delete g (lists p); fresh := fresh p |}.

(** [OriginPools::get_connection], with [ConnectionPool::pop_front]. *)
Definition pooled_connection (rq : request_header) (p : OriginPools) : option Connection * OriginPools :=
  match make_pool_id rq with
  | None => (None, p)
  | Some id =>
      match _pools p !! id with
      | None => (None, p)
      | Some g =>
          match default [] (lists p !! g) with
          | [] => (None, erase_pool id g p)
          | c :: cs =>
              let ret := set_connections (Some g) c in
              (Some ret, match cs with [] => erase_pool id g p | _ => set_list g cs p end)
          end
      end
  end.

(** [OriginPools::wrap]: [operator[]] makes the pool if there is none. *)
Definition wrap (rq : request_header) (c : Connection) (p : OriginPools) : option Connection * OriginPools :=
  match make_pool_id rq with
  | None => (None, p)
  | Some id =>
      match _pools p !! id with
      | Some g => (Some (set_connections (Some g) c), p)
      | None =>
          (Some (set_connections (Some (fresh p)) c),
           {| _pools := <[id := fresh p]> (_pools p); lists := <[fresh p := []]> (lists p); fresh := S (fresh p) |})
      end
  end.

(** The destructor of a connection that is open. *)
Definition put_back (c : Connection) (p : OriginPools) : OriginPools :=
  match _connections c with
  | None => p
  | Some g =>
      match lists p !! g with
      | Some cs => set_list g (cs ++ [set_connections None c]) p
      | None => p
      end
  end.

(** The callback of [make_idle]: a connection over which something comes in while it is in a pool is closed. *)
Definition idle_read (s : nat) (p : OriginPools) : OriginPools :=
  {| _pools := _pools p; lists := List.filter (fun c => negb (bool_decide (stream c = s))) <$> lists p; fresh := fresh p |}.

(** ** Requests *)

Definition is_request_to_this (rq : request_header) : bool :=
  if bool_decide (method rq = str "CONNECT") then false
  else if bool_decide (method rq = str "OPTIONS") then true
  else starts_with (target rq) (str "/").

Record InjectorConfig := {
  credentials : list byte;
  is_proxy_enabled : bool;
  target_rx : option regex;
  is_private_target_allowed_ : bool;
}.

Definition is_restricted_target (config : InjectorConfig) (target : list byte) : bool :=
  match target_rx config with
  | None => false
  | Some rx => negb (regex_match rx target)
  end.

(** What happens outside while a request is started: the resolver, the number of the address that a socket was connected to, the handshake and the writing of a reply. *)
Record outside := {
  resolver : list byte -> Z -> expected (list (list byte));
  connected : expected nat;
  handshake : expected unit;
  replied : bool;
}.

(** [asio::error::not_found], of a socket without addresses to connect to. *)
Definition not_found : error_code := other_error 1.

Section Code.
Context {T : FieldTable} {B : Base64Table} {U : UriParser}.
Variable req_keep_alive : request_header -> bool.
Variable config : InjectorConfig.

(** [connect_to_host]: the address that the socket is connected to. *)
Definition connect_to_host (lookup : list (list byte)) (w : outside) : expected (list byte) :=
  match connected w with
  | unexpected e => unexpected e
  | value i => match lookup !! i with Some a => value a | None => unexpected not_found end
  end.

(** [InjectorCacheControl::connect] *)
Definition connect (rq : request_header) (w : outside) (s : nat) : option (expected Connection) :=
  match Url_from (target rq) with
  | None => Some (unexpected operation_not_supported)
  | Some url =>
      match resolve_target (resolver w) (is_private_target_allowed_ config) rq with
      | None => None
      | Some (unexpected e) => Some (unexpected e)
      | Some (value lookup) =>
          match connect_to_host lookup w with
          | unexpected e => Some (unexpected e)
          | value a =>
              let socket tls := {| stream := s; address := a; tls_name := tls; unread := false; _connections := None; opened_for := rq; resolved := lookup |} in
              if bool_decide (scheme url = str "https") then
                match handshake w with
                | value _ => Some (value (socket (Some (host url))))
                | unexpected e => Some (unexpected e)
                end
              else Some (value (socket None))
          end
      end
  end.

(** [InjectorCacheControl::get_connection] *)
Definition get_connection (rq : request_header) (w : outside) (s : nat) (p : OriginPools) : option (expected Connection) * OriginPools :=
  let '(maybe_connection, p) := pooled_connection rq p in
  match maybe_connection with
  | Some c => (Some (value c), p)
  | None =>
      match connect rq w s with
      | None => (None, p)
      | Some (unexpected e) => (Some (unexpected e), p)
      | Some (value c) =>
          let '(oc, p) := wrap rq c p in
          (match oc with Some c => Some (value c) | None => None end, p)
      end
  end.

(** What [serve] does with a request. *)
Variant plan :=
| Reply (status : Z) (even_if_unsent : bool)
| Tunnel (rq : request_header)
| Proxy (rq : request_header)
| Inject (cache_rq : request_header)
| Drop
| Throw.

(** The part of [serve] for requests with the version header, and [InjectorCacheControl::fetch]. *)
Definition inject_plan (rq : request_header) (version : list byte) : plan :=
  match http_proto_version_error (field_view version) (view_of (str "Ouinet.Injector")) with
  | Some _ => Reply 400 false
  | None =>
      if is_restricted_target config (target rq) then Reply 403 false
      else
        match to_cache_request rq with
        | None => Drop
        | Some cache_rq => Inject cache_rq
        end
  end.

(** The part of [serve] for other requests. *)
Definition proxy_plan (rq : request_header) : plan :=
  if negb (is_proxy_enabled config) then Reply 403 false
  else
    match req_ensure_host rq with
    | EnsureThrows => Throw
    | NotEnsured => Reply 400 false
    | Ensured rq => Proxy rq
    end.

Definition serve_plan (rq : request_header) : plan :=
  if is_request_to_this rq then Reply (if bool_decide (target rq = str "/api/ok") then 200 else 404) true
  else
    match authenticate rq (credentials config) with
    | (Throws_, _) => Throw
    | (Denied, _) => Reply 407 true
    | (Granted, rq) =>
        if bool_decide (method rq = str "CONNECT") then
          if is_proxy_enabled config then Tunnel rq else Reply 403 false
        else
          match find_field protocol_version_hdr (rq_fields rq) with
          | None => proxy_plan rq
          | Some version => inject_plan rq version
          end
    end.

(** ** The state and its steps *)

(** A client's connection: waiting for a request, waiting for the response to one, or closed; whether the response is signed. *)
Variant client :=
| Ready
| Proxying (keep : bool) (c : Connection)
| Injecting (keep : bool) (c : Connection)
| Closed.

Record injector := { pools : OriginPools; next_stream : nat; clients : gmap nat client; crashed : bool }.

Definition new_injector : injector := {| pools := no_pools; next_stream := O; clients := ∅; crashed := false |}.

Variant did :=
| Replied (k : nat) (status : Z)
| Tunneled (k : nat) (rq : request_header) (address : list byte)
| Sent (k : nat) (rq : request_header) (c : Connection) (signed : bool)
| Completed (k : nat).

(** How the response ended: written to the client as a whole, or with an error; then whether the stream to the origin is open, whether it has more of the response to come, and
    whether a part was written to the client. *)
Variant ending := Flushed (rs_keep_alive : bool) | Failed (open more written : bool).

Variant event :=
| Begin (k : nat) (rq : request_header) (w : outside)
| End_ (k : nat) (o : ending)
| IdleRead (s : nat)
| Disconnected (k : nat).

Definition set_client (k : nat) (x : client) (st : injector) : injector :=
  {| pools := pools st; next_stream := next_stream st; clients := <[k := x]> (clients st); crashed := crashed st |}.
Definition set_pools (p : OriginPools) (st : injector) : injector :=
  {| pools := p; next_stream := next_stream st; clients := clients st; crashed := crashed st |}.
Definition crash (st : injector) : injector :=
  {| pools := pools st; next_stream := next_stream st; clients := clients st; crashed := true |}.
Definition used_stream (st : injector) : injector :=
  {| pools := pools st; next_stream := S (next_stream st); clients := clients st; crashed := crashed st |}.

Definition ready_if (keep : bool) : client := if keep then Ready else Closed.

(** [handle_connect_request] *)
Definition tunnel (k : nat) (rq : request_header) (w : outside) (st : injector) : list did * injector :=
  match resolve_target (resolver w) (is_private_target_allowed_ config) rq with
  | None => ([], crash st)
  | Some (unexpected e) => ([Replied k (match e with invalid_argument => 400 | _ => 502 end)], set_client k Closed st)
  | Some (value lookup) =>
      match connect_to_host lookup w with
      | unexpected _ => ([Replied k 502], set_client k Closed st)
      | value a => (if replied w then [Replied k 200; Tunneled k rq a] else [Replied k 200], set_client k Closed st)
      end
  end.

(** The part of the proxying branch of [serve], and of [inject_fresh], up to the request to the origin. *)
Definition forward (k : nat) (rq : request_header) (w : outside) (signed : bool) (waiting : Connection -> client) (failed : list did * client) (st : injector)
    : list did * injector :=
  let '(r, p) := get_connection rq w (next_stream st) (pools st) in
  let st := used_stream (set_pools p st) in
  match r with
  | None => ([], crash st)
  | Some (unexpected _) => (fst failed, set_client k (snd failed) st)
  | Some (value c) =>
      match to_origin_request rq with
      | None => ([], crash st)
      | Some orig_rq => ([Sent k orig_rq c signed], set_client k (waiting c) st)
      end
  end.

Definition is_signed (rq : request_header) : bool := bool_decide (method rq = str "GET") || bool_decide (method rq = str "HEAD").

Definition begin_request (k : nat) (rq : request_header) (w : outside) (st : injector) : list did * injector :=
  let keep := req_keep_alive rq in
  match serve_plan rq with
  | Reply status even_if_unsent => ([Replied k status], set_client k (ready_if ((replied w || even_if_unsent) && keep)) st)
  | Tunnel rq => tunnel k rq w st
  | Proxy rq => forward k rq w false (Proxying keep) ([Replied k 502], ready_if keep) st
  | Inject cache_rq => forward k cache_rq w (is_signed cache_rq) (Injecting keep) ([], Closed) st
  | Drop => ([], set_client k Closed st)
  | Throw => ([], crash st)
  end.

(** The stream to the origin, which goes back to its pool when it is not closed. *)
Definition done_with (c : Connection) (o : ending) (p : OriginPools) : OriginPools :=
  match o with
  | Flushed rs_keep_alive => if rs_keep_alive then put_back c p else p
  | Failed open more _ => if open then put_back (set_unread (unread c || more) c) p else p
  end.

Definition end_request (k : nat) (o : ending) (st : injector) : list did * injector :=
  match clients st !! k with
  | Some (Proxying keep c) =>
      let st := set_client k (ready_if keep) (set_pools (done_with c o (pools st)) st) in
      (match o with Flushed _ => [Completed k] | Failed _ _ written => if written then [] else [Replied k 502] end, st)
  | Some (Injecting keep c) =>
      let st := set_pools (done_with c o (pools st)) st in
      match o with
      | Flushed _ => ([Completed k], set_client k (ready_if keep) st)
      | Failed _ _ _ => ([], set_client k Closed st)
      end
  | _ => ([], st)
  end.

Definition step (e : event) (st : injector) : list did * injector :=
  if crashed st then ([], st)
  else
    match e with
    | Begin k rq w =>
        match default Ready (clients st !! k) with
        | Ready => begin_request k rq w st
        | _ => ([], st)
        end
    | End_ k o => end_request k o st
    | IdleRead s => ([], set_pools (idle_read s (pools st)) st)
    | Disconnected k => match default Ready (clients st !! k) with Ready => ([], set_client k Closed st) | _ => ([], st) end
    end.

Fixpoint run (es : list event) (st : injector) : list did * injector :=
  match es with
  | [] => ([], st)
  | e :: es =>
      let '(out, st) := step e st in
      let '(out', st) := run es st in
      (out ++ out', st)
  end.

End Code.

(** ** The pools *)

Section Invariant.
Context {T : FieldTable} {L : FieldTableLaws T} {B : Base64Table} {U : UriParser}.
Variable req_keep_alive : request_header -> bool.
Variable config : InjectorConfig.

(** The request that is made of a client's, to be sent to the origin. *)
Definition forwards (rq fwd : request_header) : Prop := serve_plan config rq = Proxy fwd \/ serve_plan config rq = Inject fwd.

(** How a connection was opened: while one of the requests of [history] began, to the address that the socket chose of those that the resolver gave and the check of the target let through; and
    with TLS after a handshake, for the name in the URL of that request. *)
Record opened (history : list event) (c : Connection) (u : Url) (w : outside) (i : nat) : Prop := {
  opened_begun : exists k rq, Begin k rq w ∈ history /\ forwards rq (opened_for c);
  opened_url : Url_from (target (opened_for c)) = Some u;
  opened_target : resolve_target (resolver w) (is_private_target_allowed_ config) (opened_for c) = Some (value (resolved c));
  opened_socket : connected w = value i;
  opened_address : resolved c !! i = Some (address c);
  opened_tls : forall name, tls_name c = Some name -> name = host u /\ handshake w = value tt;
}.

(** A response that was left unread on it. *)
Definition cut_short (history : list event) : Prop := exists k written, End_ k (Failed true true written) ∈ history.

(** The events so far. *)
Variable history : list event.

(** What a connection is good for. *)
Record serves (id : PoolId) (c : Connection) : Prop := {
  serves_pool : make_pool_id (opened_for c) = Some id;
  serves_opened : exists u w i, opened history c u w i;
  serves_tls : is_Some (tls_name c) <-> fst id = true;
  serves_unread : unread c = true -> cut_short history;
}.

Record pools_ok (p : OriginPools) : Prop := {
  pool_inj : forall id1 id2 g, _pools p !! id1 = Some g -> _pools p !! id2 = Some g -> id1 = id2;
  pool_below : forall id g, _pools p !! id = Some g -> (g < fresh p)%nat;
  pool_list : forall id g, _pools p !! id = Some g -> is_Some (lists p !! g);
  list_pool : forall g l, lists p !! g = Some l -> exists id, _pools p !! id = Some g /\ Forall (serves id) l;
}.

(** A connection that is in use points to the list of its pool or to none that exists. *)
Definition in_use (p : OriginPools) (id : PoolId) (c : Connection) : Prop :=
  serves id c /\ forall g, _connections c = Some g -> (g < fresh p)%nat /\ forall id', _pools p !! id' = Some g -> id' = id.

(** Pools are never given the number of an earlier one. *)
Definition later (p p' : OriginPools) : Prop :=
  (fresh p <= fresh p')%nat /\ forall id g, _pools p' !! id = Some g -> _pools p !! id = Some g \/ (fresh p <= g)%nat.

Lemma later_same p p' : fresh p' = fresh p -> _pools p' = _pools p -> later p p'.
Proof. intros Hf He. split; [lia|]. rewrite He. eauto. Qed.

Lemma later_refl p : later p p.
Proof. by apply later_same. Qed.

Lemma later_trans p p' p'' : later p p' -> later p' p'' -> later p p''.
Proof. intros [Ha H1] [Hb H2]. split; [lia|]. intros id g [Hg|Hg]%H2; [naive_solver|right; lia]. Qed.

Lemma in_use_later p p' id c : later p p' -> in_use p id c -> in_use p' id c.
Proof. intros [Hf Hl] [Hs Hc]. split; [done|]. intros g Hg. destruct (Hc g Hg). split; [lia|]. intros id' [?|?]%Hl; [eauto|lia]. Qed.

Lemma serves_connections id g c : serves id c -> serves id (set_connections g c).
Proof. intros [Hp (u & w & i & []) Ht Hu]. by split; [|exists u, w, i| |]. Qed.

Lemma serves_left id b c : (b = true -> unread c = true \/ cut_short history) -> serves id c -> serves id (set_unread b c).
Proof. intros Hb [Hp (u & w & i & []) Ht Hu]. split; [done|by exists u, w, i|done|]. cbn. intros [?|?]%Hb; auto. Qed.

Lemma erase_pool_ok id g p : pools_ok p -> _pools p !! id = Some g -> pools_ok (erase_pool id g p) /\ later p (erase_pool id g p).
Proof.
  intros Hp Hg. split; [|split; [done|]; intros id' g'; cbn; intros [_ ?]%lookup_delete_Some; by left].
  assert (forall id' g', delete id (_pools p) !! id' = Some g' -> g' <> g /\ _pools p !! id' = Some g') as Hd.
  { intros id' g' [Hne Hd]%lookup_delete_Some. split; [|done]. intros ->. apply Hne. by eapply pool_inj. }
  split; cbn.
  - intros id1 id2 g' [_ ?]%Hd [_ ?]%Hd. by eapply pool_inj.
  - intros id' g' [_ ?]%Hd. by eapply pool_below.
  - intros id' g' [? ?]%Hd. rewrite lookup_delete_ne by done. by eapply pool_list.
  - intros g' l [Hne Hl]%lookup_delete_Some. destruct (list_pool p Hp g' l Hl) as (id' & Hid & Hs). exists id'. split; [|done].
    rewrite lookup_delete_ne; [done|]. intros ->. congruence.
Qed.

Lemma set_list_ok id g cs p : pools_ok p -> _pools p !! id = Some g -> Forall (serves id) cs -> pools_ok (set_list g cs p) /\ later p (set_list g cs p).
Proof.
  intros Hp Hg Hcs. split; [|by apply later_same]. split; cbn.
  - apply Hp.
  - apply Hp.
  - intros id' g' Hid'. destruct (decide (g' = g)) as [->|]; [rewrite lookup_insert_eq|rewrite lookup_insert_ne by done; eapply pool_list]; eauto.
  - intros g' l [[<- <-]|[Hne Hl]]%lookup_insert_Some; [by exists id|]. by apply list_pool.
Qed.

Lemma pooled_connection_ok rq p oc p' :
  pools_ok p -> pooled_connection rq p = (oc, p') ->
  pools_ok p' /\ later p p' /\ forall c, oc = Some c -> exists id, make_pool_id rq = Some id /\ in_use p' id c.
Proof.
  unfold pooled_connection. intros Hp. destruct (make_pool_id rq) as [id|] eqn:Eid; [|by intros [= <- <-]; split_and!; [|apply later_refl|]].
  destruct (_pools p !! id) as [g|] eqn:Eg; [|by intros [= <- <-]; split_and!; [|apply later_refl|]].
  pose proof (erase_pool_ok id g p Hp Eg) as [He Hle]. destruct (lists p !! g) as [l|] eqn:El; cbn [default]; [|by intros [= <- <-]].
  destruct l as [|c cs]; [by intros [= <- <-]|]. destruct (list_pool p Hp g _ El) as (id' & Hid & Hs). assert (id' = id) as -> by apply (pool_inj p Hp _ _ g Hid Eg).
  apply Forall_cons in Hs as [Hc Hcs]. pose proof (set_list_ok id g cs p Hp Eg Hcs) as [Hs Hls].
  intros [= <- <-]. assert (pools_ok (match cs with [] => erase_pool id g p | _ => set_list g cs p end) /\ later p (match cs with [] => erase_pool id g p | _ => set_list g cs p end)) as [Ho Hl] by by destruct cs.
  split_and!; [done|done|]. intros c' [= <-]. exists id. split; [done|]. eapply in_use_later; [done|]. split; [by apply serves_connections|].
  intros g' [= <-]. split; [apply (pool_below p Hp _ _ Eg)|]. intros id' Hid'. apply (pool_inj p Hp _ _ g Hid' Eg).
Qed.

Lemma wrap_ok_ rq c p oc p' id :
  pools_ok p -> make_pool_id rq = Some id -> serves id c -> wrap rq c p = (oc, p') ->
  pools_ok p' /\ later p p' /\ exists c', oc = Some c' /\ in_use p' id c'.
Proof.
  unfold wrap. intros Hp -> Hs. destruct (_pools p !! id) as [g|] eqn:Eg; intros [= <- <-].
  - split_and!; [done|apply later_refl|]. eexists. split; [done|]. split; [by apply serves_connections|]. intros g' [= <-]. split; [by eapply pool_below|]. intros id' ?. by eapply pool_inj.
  - assert (forall id' g', <[id:=fresh p]> (_pools p) !! id' = Some g' -> id' = id /\ g' = fresh p \/ _pools p !! id' = Some g' /\ (g' < fresh p)%nat) as Hi.
    { intros id' g' [[<- <-]|[_ H]]%lookup_insert_Some; [by left|right]. split; [done|]. by eapply pool_below. }
    split_and!; [split; cbn| |].
    + intros id1 id2 g [[-> ->]|[? ?]]%Hi [[-> ?]|[? ?]]%Hi; [done|lia|lia|by eapply pool_inj].
    + intros id' g [[-> ->]|[_ ?]]%Hi; lia.
    + intros id' g [[-> ->]|[Hq ?]]%Hi; [by rewrite lookup_insert_eq|]. rewrite lookup_insert_ne by lia. by eapply pool_list.
    + intros g l [[<- <-]|[_ Hl]]%lookup_insert_Some; [exists id; by rewrite lookup_insert_eq|]. destruct (list_pool p Hp g l Hl) as (id' & Hid & Hf). exists id'. split; [|done].
      rewrite lookup_insert_ne; [done|]. intros ->. congruence.
    + split; [cbn; lia|]. intros id' g [[-> ->]|[Hq ?]]%Hi; [by right|by left].
    + eexists. split; [done|]. split; [by apply serves_connections|]. intros g [= <-]. cbn. split; [lia|]. intros id' [[-> _]|[_ ?]]%Hi; [done|lia].
Qed.

Lemma put_back_ok p id c : pools_ok p -> in_use p id c -> pools_ok (put_back c p) /\ later p (put_back c p).
Proof.
  intros Hp [Hs Hg]. unfold put_back. destruct (_connections c) as [g|]; [|by split; [|apply later_refl]]. destruct (lists p !! g) as [cs|] eqn:El; [|by split; [|apply later_refl]].
  destruct (list_pool p Hp g cs El) as (id' & Hid & Hcs). destruct (Hg g eq_refl) as [_ Hu]. assert (id' = id) as -> by by apply Hu.
  apply (set_list_ok id); [done|done|]. apply Forall_app. split; [done|]. constructor; [by apply serves_connections|done].
Qed.

Lemma idle_read_ok s p : pools_ok p -> pools_ok (idle_read s p) /\ later p (idle_read s p).
Proof.
  intros Hp. split; [|by apply later_same]. split; cbn; [apply Hp|apply Hp| |].
  - intros id g Hid. rewrite lookup_fmap. destruct (pool_list p Hp id g Hid) as [l ->]. by eexists.
  - intros g l. rewrite lookup_fmap. destruct (lists p !! g) as [l0|] eqn:El; [|done]. intros [= <-]. destruct (list_pool p Hp g l0 El) as (id & Hid & Hf). exists id. split; [done|].
    rewrite Forall_forall in *. intros c Hc%list_elem_of_In. apply filter_In in Hc as [Hc _]. apply Hf. by apply list_elem_of_In.
Qed.

(** ** Runs *)

Lemma Url_scheme s u : Url_from s = Some u -> exists rest, parse_scheme s = Some (scheme u, rest).
Proof.
  unfold Url_from. destruct (parse_scheme s) as [[sch rest]|]; [|done]. destruct (parse_host rest) as [[h s2]|]; [|done]. destruct (Url.parse_port s2) as [[p s3]|]; [|done].
  destruct (parse_path s3) as [pa s4], (parse_query s4) as [q s5]. destruct (parse_fragment s5); [|done]. intros [= <-]. eauto.
Qed.

Lemma https_scheme s u : Url_from s = Some u -> scheme u = str "https" <-> starts_with s (str "https:") = true.
Proof.
  intros [rest Hp]%Url_scheme. unfold parse_scheme in Hp. unfold starts_with. rewrite bool_decide_eq_true. change (length (str "https:")) with 6%nat.
  destruct (iequals (take 7 s) (str "http://")) eqn:E1; [|destruct (iequals (take 8 s) (str "https://")) eqn:E2; [|done]]; injection Hp as <- <-.
  - apply iequals_true in E1. destruct s as [|a [|b [|c [|d [|e [|f s]]]]]]; try done. cbn in E1 |- *. split; [done|]. intros [= -> -> -> -> -> ->]. done.
  - apply iequals_true in E2. destruct s as [|a [|b [|c [|d [|e [|f s]]]]]]; try done. cbn in E2 |- *. injection E2 as _ _ _ _ _ Hf _. apply lower_punct in Hf; [|done].
    subst f. split; [by intros [= -> -> -> -> ->]|]. intros [= -> -> -> -> ->]. done.
Qed.

(** A request of the history. *)
Definition begun (fwd : request_header) (w : outside) : Prop := exists k rq, Begin k rq w ∈ history /\ forwards rq fwd.

Lemma connect_serves rq w s c id : begun rq w -> make_pool_id rq = Some id -> connect config rq w s = Some (value c) -> serves id c.
Proof.
  intros Hb Hid. unfold connect. destruct (Url_from (target rq)) as [u|] eqn:Eu; [|done]. destruct (resolve_target _ _ rq) as [[lookup|e]|] eqn:Er; [|done..].
  unfold connect_to_host. destruct (connected w) as [i|] eqn:Ew; [|done]. destruct (lookup !! i) as [a|] eqn:Ea; [|done]. pose proof (https_scheme _ _ Eu) as Hs.
  assert (fst id = starts_with (target rq) (str "https:")) as Hf by (unfold make_pool_id in Hid; destruct (get_host rq); by simplify_eq).
  destruct (bool_decide_reflect (scheme u = str "https")) as [Hh|Hh]; [destruct (handshake w) as [[]|] eqn:Ehs; [|done]|]; intros [= <-];
    (split; cbn [opened_for resolved address tls_name unread]; [done|exists u, w, i; split; cbn; [done..|by intros ? [= <-] || done]| |done]; rewrite Hf).
  - split; [intros _; by apply Hs|by eexists].
  - split; [by intros [? ?]|]. intros Ht%Hs. done.
Qed.

Lemma get_connection_ok rq w s p r p' :
  begun rq w -> pools_ok p -> get_connection config rq w s p = (r, p') ->
  pools_ok p' /\ later p p' /\ forall c, r = Some (value c) -> exists id, make_pool_id rq = Some id /\ in_use p' id c.
Proof.
  unfold get_connection. intros Hb Hp. destruct (pooled_connection rq p) as [oc p1] eqn:Epc. destruct (pooled_connection_ok _ _ _ _ Hp Epc) as (Hp1 & Hl & Hc).
  destruct oc as [c|]; [intros [= <- <-]; split_and!; [done|done|]; intros c' [= <-]; by apply Hc|].
  destruct (connect config rq w s) as [[c|e]|] eqn:Ec; [|by intros [= <- <-]; split_and!|by intros [= <- <-]; split_and!].
  destruct (make_pool_id rq) as [id|] eqn:Eid; [|unfold wrap; rewrite Eid; by intros [= <- <-]].
  destruct (wrap rq c p1) as [oc p2] eqn:Ew. destruct (wrap_ok_ rq c p1 oc p2 id) as (Hp2 & Hl2 & c' & -> & Hu); [done|done|by eapply connect_serves|done|].
  intros [= <- <-]. split_and!; [done|by eapply later_trans|]. intros ? [= <-]. by exists id.
Qed.

Definition busy (x : client) : option Connection :=
  match x with Proxying _ c | Injecting _ c => Some c | Ready | Closed => None end.

Record state_ok (st : injector) : Prop := {
  state_pools : pools_ok (pools st);
  state_clients : forall k x c, clients st !! k = Some x -> busy x = Some c -> exists id, in_use (pools st) id c;
}.

Lemma new_injector_ok : state_ok new_injector.
Proof. split; [split|]; cbn; intros *; by rewrite lookup_empty. Qed.

Lemma set_client_ok k x st : state_ok st -> (forall c, busy x = Some c -> exists id, in_use (pools st) id c) -> state_ok (set_client k x st).
Proof. intros [Hp Hc] Hx. split; [done|]. cbn. intros k' x' c [[_ <-]|[_ Hk]]%lookup_insert_Some Hb; eauto. Qed.

Lemma set_pools_ok p st : state_ok st -> pools_ok p -> later (pools st) p -> state_ok (set_pools p st).
Proof. intros [Hp Hc] Hp' Hl. split; [done|]. cbn. intros k x c Hk Hb. destruct (Hc k x c Hk Hb) as [id Hi]. exists id. by eapply in_use_later. Qed.

Lemma crash_ok st : state_ok st -> state_ok (crash st).
Proof. by intros [Hp Hc]. Qed.

Lemma used_stream_ok st : state_ok st -> state_ok (used_stream st).
Proof. by intros [Hp Hc]. Qed.

Lemma ready_not_busy keep : busy (ready_if keep) = None.
Proof. by destruct keep. Qed.

(** A request that was sent to an origin. *)
Definition well_sent (rq : request_header) (k : nat) (signed : bool) (d : did) : Prop :=
  exists rq' c id, d = Sent k rq' c signed /\ to_origin_request rq = Some rq' /\ make_pool_id rq = Some id /\ serves id c.

Lemma forward_ok k rq w signed waiting failed st :
  begun rq w -> state_ok st -> (forall c, busy (waiting c) = Some c) -> busy (snd failed) = None ->
  state_ok (snd (forward config k rq w signed waiting failed st)) /\
  Forall (fun d => d ∈ fst failed \/ well_sent rq k signed d) (fst (forward config k rq w signed waiting failed st)).
Proof.
  intros Hb Hst Hw Hf. unfold forward. destruct (get_connection config rq w (next_stream st) (pools st)) as [r p] eqn:Eg.
  destruct (get_connection_ok _ _ _ _ _ _ Hb (state_pools _ Hst) Eg) as (Hp & Hl & Hc).
  assert (state_ok (used_stream (set_pools p st))) as Hst' by by apply used_stream_ok, set_pools_ok.
  destruct r as [[c|e]|]; cbn [fst snd].
  - destruct (Hc c eq_refl) as (id & Hid & Hu). destruct (to_origin_request rq) as [rq'|] eqn:Eo; cbn [fst snd]; [|split; [by apply crash_ok|constructor]].
    split; [apply set_client_ok; [done|]; intros c'; rewrite Hw; intros [= <-]; by exists id|]. constructor; [|constructor]. right. exists rq', c, id. destruct Hu. done.
  - split; [apply set_client_ok; [done|]; by rewrite Hf|]. apply Forall_forall. by left.
  - split; [by apply crash_ok|constructor].
Qed.

(** What one event does with the requests that are sent on. *)
Definition sent_for (e : event) (d : did) : Prop :=
  match d with
  | Sent k rq' c signed =>
      exists rq w fwd id, e = Begin k rq w /\ (serve_plan config rq = Proxy fwd /\ signed = false \/ serve_plan config rq = Inject fwd /\ signed = is_signed fwd) /\
        to_origin_request fwd = Some rq' /\ make_pool_id fwd = Some id /\ serves id c
  | _ => True
  end.

Lemma begin_ok k rq w st :
  Begin k rq w ∈ history -> state_ok st -> state_ok (snd (begin_request req_keep_alive config k rq w st)) /\ Forall (sent_for (Begin k rq w)) (fst (begin_request req_keep_alive config k rq w st)).
Proof.
  intros Hhist Hst. unfold begin_request. destruct (serve_plan config rq) as [status b|rq1|rq1|rq1| |] eqn:Ep; cbn [fst snd].
  - split; [apply set_client_ok; [done|]; by rewrite ready_not_busy|]. by repeat constructor.
  - unfold tunnel. destruct (resolve_target _ _ rq1) as [[lookup|e]|]; cbn [fst snd]; [|split; [by apply set_client_ok|by repeat constructor]|split; [by apply crash_ok|constructor]].
    destruct (connect_to_host lookup w); cbn [fst snd]; (split; [by apply set_client_ok|]); [destruct (replied w)|]; by repeat constructor.
  - destruct (forward_ok k rq1 w false (Proxying (req_keep_alive rq)) ([Replied k 502], ready_if (req_keep_alive rq)) st) as [H1 H2]; [exists k, rq; split; [done|by left]|done|done|apply ready_not_busy|].
    split; [done|]. eapply Forall_impl; [exact H2|]. intros d [->%list_elem_of_singleton|(rq' & c & id & -> & Ho & Hid & Hs)]; [done|]. exists rq, w, rq1, id. eauto 10.
  - destruct (forward_ok k rq1 w (is_signed rq1) (Injecting (req_keep_alive rq)) ([], Closed) st) as [H1 H2]; [exists k, rq; split; [done|by right]|done..|].
    split; [done|]. eapply Forall_impl; [exact H2|]. intros d [[]%not_elem_of_nil|(rq' & c & id & -> & Ho & Hid & Hs)]. exists rq, w, rq1, id. eauto 10.
  - split; [by apply set_client_ok|constructor].
  - split; [by apply crash_ok|constructor].
Qed.

Lemma done_with_ok k id c o p : End_ k o ∈ history -> pools_ok p -> in_use p id c -> pools_ok (done_with c o p) /\ later p (done_with c o p).
Proof.
  intros Hh Hp Hu. unfold done_with. destruct o as [ka|o m wr]; [destruct ka; [by eapply put_back_ok|by split; [|apply later_refl]]|].
  destruct o; [|by split; [|apply later_refl]]. destruct Hu as [Hs Hg]. apply (put_back_ok _ id); [done|]. split; [|done].
  apply serves_left; [|done]. intros [?| ->]%orb_true_iff; [by left|right]. by exists k, wr.
Qed.

Lemma end_ok k o st : End_ k o ∈ history -> state_ok st -> state_ok (snd (end_request k o st)) /\ Forall (sent_for (End_ k o)) (fst (end_request k o st)).
Proof.
  intros Hh Hst. unfold end_request. destruct (clients st !! k) as [x|] eqn:Ek; [|by split; [|constructor]]. destruct x as [|keep c|keep c|]; [by split; [|constructor]| | |by split; [|constructor]];
    (destruct (state_clients _ Hst k _ c Ek eq_refl) as [id Hu]; destruct (done_with_ok k id c o (pools st) Hh (state_pools _ Hst) Hu) as [Hp Hl]; assert (state_ok (set_pools (done_with c o (pools st)) st)) as Hst' by by apply set_pools_ok).
  - cbn [fst snd]. split; [apply set_client_ok; [done|]; by rewrite ready_not_busy|]. destruct o as [|? ? wr]; [|destruct wr]; by repeat constructor.
  - destruct o as [rk|]; cbn [fst snd]; (split; [apply set_client_ok; [done|]; by rewrite ?ready_not_busy|by repeat constructor]).
Qed.

Lemma injector_step_ok e st : e ∈ history -> state_ok st -> state_ok (snd (step req_keep_alive config e st)) /\ Forall (sent_for e) (fst (step req_keep_alive config e st)).
Proof.
  intros Hh Hst. unfold step. destruct (crashed st); [by split; [|constructor]|]. destruct e as [k rq w|k o|s|k].
  - destruct (default Ready (clients st !! k)); [by apply begin_ok| | |]; by split; [|constructor].
  - by apply end_ok.
  - destruct (idle_read_ok s (pools st) (state_pools _ Hst)). split; [by apply set_pools_ok|constructor].
  - destruct (default Ready (clients st !! k)); [split; [by apply set_client_ok|constructor]| | |]; by split; [|constructor].
Qed.

Lemma injector_run_ok es : forall st, (forall e, e ∈ es -> e ∈ history) -> state_ok st -> state_ok (snd (run req_keep_alive config es st)).
Proof.
  induction es as [|e es IH]; intros st Hh Hst; cbn [run snd]; [done|]. destruct (injector_step_ok e st (Hh _ ltac:(left)) Hst) as [Hst' _].
  destruct (step req_keep_alive config e st) as [out st']. specialize (IH st'). destruct (run req_keep_alive config es st') as [out' st'']. apply IH; [|done]. intros e' He. apply Hh. by right.
Qed.

End Invariant.

Section Theorems.
Context {T : FieldTable} {L : FieldTableLaws T} {B : Base64Table} {U : UriParser}.
Variable req_keep_alive : request_header -> bool.
Variable config : InjectorConfig.

(** What a run does is done by one of its events, in the state that the events before it lead to. *)
Lemma run_split es : forall st d,
  d ∈ fst (run req_keep_alive config es st) ->
  exists es1 e es2, es = es1 ++ e :: es2 /\ d ∈ fst (step req_keep_alive config e (snd (run req_keep_alive config es1 st))).
Proof.
  induction es as [|e es IH]; intros st d; cbn [run]; [by intros ?%not_elem_of_nil|]. destruct (step req_keep_alive config e st) as [out st'] eqn:Es.
  destruct (run req_keep_alive config es st') as [out' st''] eqn:Er. cbn [fst]. rewrite elem_of_app. intros [Hin|Hin].
  - exists [], e, es. cbn. by rewrite Es.
  - specialize (IH st' d). rewrite Er in IH. destruct (IH Hin) as (es1 & e' & es2 & -> & Hin'). exists (e :: es1), e', es2. split; [done|]. cbn [run]. rewrite Es.
    by destruct (run req_keep_alive config es1 st').
Qed.

(** A request is sent by an event that begins one, over a connection that the events up to it account for. *)
Lemma sent_split es k rq' c signed :
  Sent k rq' c signed ∈ fst (run req_keep_alive config es new_injector) ->
  exists es1 es2 rq w fwd id, es = es1 ++ Begin k rq w :: es2 /\
    Sent k rq' c signed ∈ fst (step req_keep_alive config (Begin k rq w) (snd (run req_keep_alive config es1 new_injector))) /\
    (serve_plan config rq = Proxy fwd /\ signed = false \/ serve_plan config rq = Inject fwd /\ signed = is_signed fwd) /\
    to_origin_request fwd = Some rq' /\ make_pool_id fwd = Some id /\ serves config (es1 ++ [Begin k rq w]) id c.
Proof.
  intros (es1 & e & es2 & -> & Hin)%run_split. assert (state_ok config (es1 ++ [e]) (snd (run req_keep_alive config es1 new_injector))) as Hst.
  { apply injector_run_ok; [|apply new_injector_ok]. intros e' ?. apply elem_of_app. by left. }
  destruct (injector_step_ok req_keep_alive config (es1 ++ [e]) e _ ltac:(apply elem_of_app; right; left) Hst) as [_ Ho]. rewrite Forall_forall in Ho.
  destruct (Ho _ Hin) as (rq & w & fwd & id & -> & Hp & Hor & Hid & Hs). by exists es1, es2, rq, w, fwd, id.
Qed.

Lemma same_host id rq1 rq2 : make_pool_id rq1 = Some id -> make_pool_id rq2 = Some id -> get_host rq1 = get_host rq2 /\ get_host rq2 <> [] /\ fst id = starts_with (target rq2) (str "https:").
Proof. unfold make_pool_id. destruct (get_host rq1); [done|]. destruct (get_host rq2); [done|]. intros. by simplify_eq. Qed.

Lemma vetted_address res rq lookup a :
  resolve_target res false rq = Some (value lookup) -> a ∈ lookup -> regex_match localhost_rx a = false /\ regex_match private_addr_rx a = false.
Proof.
  unfold resolve_target. destruct (get_host_port rq) as [host port| |]; [|done..].
  destruct (if _ || false then res host port else value []) as [l|e]; [|done]. destruct (check_lookup false _ _ l) as [local priv] eqn:Ec.
  destruct local; cbn [orb andb negb]; [done|]. destruct priv; [done|]. intros [= <-] Hin. apply check_lookup_clean in Ec. rewrite Forall_forall in Ec. by apply Ec.
Qed.

(** C9: in every run of the injector, whatever its clients ask for and in whatever order requests begin and end: a request is sent to an origin by the event that begins a client's request, and is
    the form for the origin of the request [fwd] that the injector makes of that one. The connection has TLS exactly if the URL of [fwd] begins with https, and was opened while that or an earlier
    request began, for a request that the injector made of it and that has the same host header as [fwd]; its address is the one that the socket chose from what the resolver gave then and the check of targets accepted, so that it is
    no loopback or private address unless these are allowed; the TLS handshake succeeded, for the host in the URL of the request that the connection was opened for (which is not compared with that of [fwd]). *)
Theorem origin_connections_vetted (es : list event) (k : nat) (rq' : request_header) (c : Connection) (signed : bool) :
  Sent k rq' c signed ∈ fst (run req_keep_alive config es new_injector) ->
  exists es1 es2 rq w fwd,
    es = es1 ++ Begin k rq w :: es2 /\ Sent k rq' c signed ∈ fst (step req_keep_alive config (Begin k rq w) (snd (run req_keep_alive config es1 new_injector))) /\
    forwards config rq fwd /\ to_origin_request fwd = Some rq' /\
    (is_Some (tls_name c) <-> starts_with (target fwd) (str "https:") = true) /\ get_host (opened_for c) = get_host fwd /\ get_host fwd <> [] /\
    exists k0 rq0 w0 u0 i, Begin k0 rq0 w0 ∈ es1 ++ [Begin k rq w] /\ forwards config rq0 (opened_for c) /\ Url_from (target (opened_for c)) = Some u0 /\
      resolve_target (resolver w0) (is_private_target_allowed_ config) (opened_for c) = Some (value (resolved c)) /\
      connected w0 = value i /\ resolved c !! i = Some (address c) /\
      (is_private_target_allowed_ config = false -> regex_match localhost_rx (address c) = false /\ regex_match private_addr_rx (address c) = false) /\
      (forall name, tls_name c = Some name -> name = host u0 /\ handshake w0 = value tt).
Proof.
  intros (es1 & es2 & rq & w & fwd & id & -> & Hin & Hpl & Ho & Hid & [Hp (u & w0 & i & [(k0 & rq0 & Hb & Hf0) Hu Ht Hc Ha Htl]) Hs _])%sent_split.
  destruct (same_host _ _ _ Hp Hid) as (Hh & Hne & Hf). rewrite Hf in Hs. exists es1, es2, rq, w, fwd. split_and!; try done; [unfold forwards; tauto|].
  exists k0, rq0, w0, u, i. split_and!; try done. intros Hall. rewrite Hall in Ht. eapply vetted_address; [exact Ht|]. by eapply list_elem_of_lookup_2.
Qed.

(** The request that is made for the cache. *)
Lemma cache_request_fields rq rq' :
  to_cache_request rq = Some rq' -> exists u, Url_from (target rq) = Some u /\ method rq' = method rq /\ target rq' = canonical_url u /\ get_host rq' = url_host u /\
    Forall (fun f => existsb (fun n => iequals (fst f) n) cache_request_names = true) (rq_fields rq').
Proof.
  unfold to_cache_request, to_canonical_request. destruct (Url_from (target rq)) as [u|]; [|done]. intros [= <-]. exists u. cbn [target method rq_fields set_rq_fields set_version set_target].
  pose proof standard_names as Hstd. rewrite !Forall_cons in Hstd. destruct Hstd as (S1 & _). split_and!; try done.
  - unfold get_host, field_value. cbn [rq_fields set_rq_fields]. rewrite find_filter_fields by (intros f; apply is_one_of_std; [done|simpl; tauto]).
    rewrite !find_set_other by done. by rewrite find_set_same.
  - apply Forall_forall. intros f Hf. apply kept_name in Hf as [Hf _]; [done|]. repeat (constructor; [done|]). constructor.
Qed.

(** The form for the origin keeps the host and adds no fields. *)
Lemma origin_request_fields rq rq' :
  to_origin_request rq = Some rq' -> get_host rq' = get_host rq /\ method rq' = method rq /\ forall P, Forall P (rq_fields rq) -> Forall P (rq_fields rq').
Proof.
  unfold to_origin_request. destruct (req_form_from_absolute_to_origin rq) as [rq1|] eqn:E1; [|done]. intros [= <-].
  assert (rq_fields rq1 = rq_fields rq /\ method rq1 = method rq) as [Hf Hm].
  { unfold req_form_from_absolute_to_origin in E1. destruct (Url_from (target rq)) as [u|]; [|by simplify_eq]. destruct (substr_find _ _ _); cbn in E1; [|done]. by injection E1 as <-. }
  split_and!; [|done|].
  - unfold get_host, field_value, find_field, remove_ouinet_fields, erase_field. cbn [rq_fields set_rq_fields]. rewrite Hf, !find_filter; [done| |].
    + intros f Hh. unfold same_name in *. by rewrite (iequals_trans _ _ _ Hh).
    + intros f Hh. apply iequals_true in Hh. unfold istarts_with. apply negb_true_iff, not_true_iff_false. intros Hp%iequals_true. revert Hp. unfold lower_str in *. rewrite <-firstn_map, Hh. done.
  - intros P. rewrite <-Hf, !Forall_forall. intros HP f Hin. cbn in Hin. unfold remove_ouinet_fields, erase_field in Hin. apply list_elem_of_In in Hin.
    apply filter_In in Hin as [Hin _]. apply filter_In in Hin as [Hin _]. apply HP. by apply list_elem_of_In.
Qed.

Lemma inject_plan_spec rq fwd :
  serve_plan config rq = Inject fwd ->
  exists rq1 version, is_request_to_this rq = false /\ authenticate rq (credentials config) = (Granted, rq1) /\ method rq1 <> str "CONNECT" /\
    find_field protocol_version_hdr (rq_fields rq1) = Some version /\ http_proto_version_error (field_view version) (view_of (str "Ouinet.Injector")) = None /\
    is_restricted_target config (target rq1) = false /\ to_cache_request rq1 = Some fwd.
Proof.
  unfold serve_plan, proxy_plan, inject_plan. destruct (is_request_to_this rq); [done|]. destruct (authenticate rq (credentials config)) as [[] rq1]; [|done..].
  destruct (bool_decide_reflect (method rq1 = str "CONNECT")); [by destruct (is_proxy_enabled config)|].
  destruct (find_field protocol_version_hdr (rq_fields rq1)) as [v|] eqn:Ev; [|destruct (negb _); [done|by destruct (req_ensure_host rq1)]].
  destruct (http_proto_version_error _ _) eqn:Ee; [done|]. destruct (is_restricted_target config (target rq1)) eqn:Et; [done|]. destruct (to_cache_request rq1) eqn:Ec; [|done].
  intros [= ->]. exists rq1, v. done.
Qed.

(** C8: in every run, the requests that are sent to an origin to have their responses signed: each is sent by the event that begins a client's request with the right credentials, the version of
    the protocol and a target that is not restricted, and is a GET or HEAD for the canonical form of that URL, the one that the signature will be for. Its host header, and that of the request for which the
    connection was opened, is the URL's, the connection has TLS exactly if that form begins with https, and the request carries none of the client's fields but the canonical ones. (This is about the requests: what
    is read from the connection is the response to this request only if nothing was left on it; it has something unread only if an earlier request ended with an open connection and more of
    its response to come.) *)
Theorem signed_requests_acceptable (es : list event) (k : nat) (rq' : request_header) (c : Connection) :
  Sent k rq' c true ∈ fst (run req_keep_alive config es new_injector) ->
  exists es1 es2 rq w rq1 version u fwd,
    es = es1 ++ Begin k rq w :: es2 /\ Sent k rq' c true ∈ fst (step req_keep_alive config (Begin k rq w) (snd (run req_keep_alive config es1 new_injector))) /\
    authenticate rq (credentials config) = (Granted, rq1) /\
    find_field protocol_version_hdr (rq_fields rq1) = Some version /\ http_proto_version_error (field_view version) (view_of (str "Ouinet.Injector")) = None /\
    is_restricted_target config (target rq1) = false /\ Url_from (target rq1) = Some u /\
    serve_plan config rq = Inject fwd /\ target fwd = canonical_url u /\ to_origin_request fwd = Some rq' /\
    (method rq' = str "GET" \/ method rq' = str "HEAD") /\ get_host rq' = url_host u /\ get_host (opened_for c) = url_host u /\
    (is_Some (tls_name c) <-> starts_with (canonical_url u) (str "https:") = true) /\
    Forall (fun f => existsb (fun n => iequals (fst f) n) cache_request_names = true) (rq_fields rq') /\
    (unread c = true -> exists k0 written, End_ k0 (Failed true true written) ∈ es1).
Proof.
  intros (es1 & es2 & rq & w & fwd & id & -> & Hin & [[_ ?]|[Hp Hsg]] & Ho & Hid & [Hpc _ Htls Hunr])%sent_split; [done|].
  destruct (inject_plan_spec _ _ Hp) as (rq1 & version & _ & Ha & _ & Hv & Hve & Hrt & Hc). destruct (cache_request_fields _ _ Hc) as (u & Hu & Hm & Ht & Hh & Hf).
  destruct (origin_request_fields _ _ Ho) as (Hoh & Hom & Hof). destruct (same_host _ _ _ Hpc Hid) as (Hsame & _ & Hssl). rewrite Hssl, Ht in Htls.
  exists es1, es2, rq, w, rq1, version, u, fwd. split_and!; try done; [|congruence|congruence|by apply Hof|].
  - rewrite Hom. symmetry in Hsg. unfold is_signed in Hsg. apply orb_true_iff in Hsg as [Hg|Hg]; apply bool_decide_eq_true in Hg; [left|right]; done.
  - intros (k0 & wr & [Hk|Hk%list_elem_of_singleton]%elem_of_app)%Hunr; [by exists k0, wr|done].
Qed.

(** *** Where the code falls short *)

(** A request takes the first connection of its pool. *)
Lemma reuse_step st k rq fwd rq' w id g c cs :
  crashed st = false -> default Ready (clients st !! k) = Ready -> serve_plan config rq = Inject fwd -> make_pool_id fwd = Some id -> to_origin_request fwd = Some rq' ->
  _pools (pools st) !! id = Some g -> lists (pools st) !! g = Some (c :: cs) ->
  fst (step req_keep_alive config (Begin k rq w) st) = [Sent k rq' (set_connections (Some g) c) (is_signed fwd)].
Proof.
  intros Hcr Hk Hs Hid Ho Hp Hl. unfold step. rewrite Hcr, Hk. unfold begin_request. rewrite Hs. unfold forward, get_connection, pooled_connection. rewrite Hid, Hp, Hl. cbn. by rewrite Ho.
Qed.

(** when a client goes away in the middle of a response, the connection to the origin is not closed but goes back to its pool with the rest of the response still to come; the next request for the
    host, of any client, is sent over it, and what is read first is that rest. *)
Theorem unread_response_reused (st : injector) (k1 k2 : nat) (keep written : bool) (c : Connection) (id : PoolId) (g : nat) (rq fwd rq' : request_header) (w : outside) :
  crashed st = false -> k1 <> k2 -> clients st !! k1 = Some (Injecting keep c) -> default Ready (clients st !! k2) = Ready ->
  _connections c = Some g -> _pools (pools st) !! id = Some g -> lists (pools st) !! g = Some [] ->
  serve_plan config rq = Inject fwd -> make_pool_id fwd = Some id -> to_origin_request fwd = Some rq' ->
  exists c', fst (run req_keep_alive config [End_ k1 (Failed true true written); Begin k2 rq w] st) = [Sent k2 rq' c' (is_signed fwd)] /\
    stream c' = stream c /\ unread c' = true.
Proof.
  intros Hcr Hk Hk1 Hk2 Hg Hp Hl Hs Hid Ho. cbn [run]. set (e := End_ k1 _). set (p' := put_back (set_unread (unread c || true) c) (pools st)).
  assert (step req_keep_alive config e st = ([], set_client k1 Closed (set_pools p' st))) as -> by (unfold e, step, end_request; by rewrite Hcr, Hk1).
  assert (p' = set_list g [set_connections None (set_unread (unread c || true) c)] (pools st)) as -> by (unfold p', put_back; cbn [_connections set_unread]; by rewrite Hg, Hl).
  pose proof (reuse_step (set_client k1 Closed (set_pools (set_list g [set_connections None (set_unread (unread c || true) c)] (pools st)) st)) k2 rq fwd rq' w id g
    (set_connections None (set_unread (unread c || true) c)) []) as Hr.
  destruct (step _ _ (Begin k2 rq w) _) as [out st'] eqn:Es. cbn [fst app] in *. rewrite app_nil_r. eexists. split; [apply Hr|split; [done|]]; try done.
  - cbn. by rewrite lookup_insert_ne.
  - cbn. by rewrite lookup_insert_eq.
  - cbn. apply orb_true_r.
Qed.

(** The last connection of a pool takes the pool with it when it is used, and cannot come back. *)
Lemma last_connection_forgotten rq p id g c0 :
  make_pool_id rq = Some id -> _pools p !! id = Some g -> lists p !! g = Some [c0] ->
  exists c p', pooled_connection rq p = (Some c, p') /\ stream c = stream c0 /\ put_back c p' = p'.
Proof.
  intros Hid Hg Hl. unfold pooled_connection. rewrite Hid, Hg, Hl. cbn [default]. do 2 eexists. split; [done|]. split; [done|].
  unfold put_back. cbn. by rewrite lookup_delete_eq.
Qed.

(** So does a request that comes while all connections of the pool are in use. *)
Lemma empty_pool_forgotten rq p id g c :
  make_pool_id rq = Some id -> _pools p !! id = Some g -> lists p !! g = Some [] -> _connections c = Some g ->
  exists p', pooled_connection rq p = (None, p') /\ put_back c p' = p'.
Proof.
  intros Hid Hg Hl Hc. unfold pooled_connection. rewrite Hid, Hg, Hl. cbn [default]. eexists. split; [done|].
  unfold put_back. rewrite Hc. cbn. by rewrite lookup_delete_eq.
Qed.

(** The certificate is checked for the host of the URL, but the connection is kept for the host of the header: a request with two hosts leaves a connection in the pool of the one that
    is verified for the other. *)
Lemma certificate_of_another_name rq w s p c u :
  _pools p !! (true, get_host rq) = None -> get_host rq <> [] -> starts_with (target rq) (str "https:") = true -> Url_from (target rq) = Some u ->
  connect config rq w s = Some (value c) ->
  let '(r, p') := get_connection config rq w s p in
  exists c' cs g, r = Some (value c') /\ _pools (put_back c' p') !! (true, get_host rq) = Some g /\ lists (put_back c' p') !! g = Some cs /\
    Forall (fun c => tls_name c = Some (host u)) cs /\ cs <> [].
Proof.
  intros Hp Hh Hs Hu Hc. unfold get_connection, pooled_connection, wrap. assert (make_pool_id rq = Some (true, get_host rq)) as Hid by (unfold make_pool_id; rewrite Hs; by destruct (get_host rq)).
  rewrite Hid, Hp, Hc, Hp. unfold put_back. eexists _, _, (fresh p). split; [done|]. cbn. rewrite lookup_insert_eq. cbn. rewrite !lookup_insert_eq. split_and!; [done|done| |done]. constructor; [|done]. cbn.
  unfold connect in Hc. rewrite Hu in Hc. rewrite (bool_decide_true (scheme u = str "https")) in Hc by by apply (https_scheme _ _ Hu).
  destruct (resolve_target _ _ rq) as [[l|]|]; [|done..]. destruct (connect_to_host l w); [|done]. destruct (handshake w); by simplify_eq.
Qed.

Lemma crashed_run es : forall st, crashed st = true -> run req_keep_alive config es st = ([], st).
Proof. induction es as [|e es IH]; intros st Hc; cbn [run]; [done|]. unfold step. rewrite Hc. by rewrite IH. Qed.

(** a request with a port that is no number of sixteen bits makes [get_host_port] throw, which nothing catches: the injector stops, for all its clients. *)
Theorem bad_port_stops_injector (st : injector) (k : nat) (rq fwd : request_header) (w : outside) (es : list event) (u : Url) :
  crashed st = false -> default Ready (clients st !! k) = Ready ->
  serve_plan config rq = Inject fwd -> get_host_port fwd = BadPort -> Url_from (target fwd) = Some u -> pooled_connection fwd (pools st) = (None, pools st) ->
  fst (run req_keep_alive config (Begin k rq w :: es) st) = [].
Proof.
  intros Hcr Hk Hs Hb Hu Hp. cbn [run]. unfold step at 1. rewrite Hcr, Hk. unfold begin_request. rewrite Hs. unfold forward, get_connection. rewrite Hp. unfold connect. rewrite Hu.
  unfold resolve_target. rewrite Hb. rewrite crashed_run by done. done.
Qed.

(** A proxied response that broke off leaves the connection open for the next one, a signed one does not. *)
Lemma broken_response_continues st k c o more :
  crashed st = false ->
  (clients st !! k = Some (Proxying true c) -> fst (step req_keep_alive config (End_ k (Failed o more true)) st) = [] /\ clients (snd (step req_keep_alive config (End_ k (Failed o more true)) st)) !! k = Some Ready) /\
  (clients st !! k = Some (Injecting true c) -> clients (snd (step req_keep_alive config (End_ k (Failed o more true)) st)) !! k = Some Closed).
Proof. intros Hcr. unfold step, end_request. rewrite Hcr. split; intros ->; cbn; [split; [done|]|]; by rewrite lookup_insert_eq. Qed.

End Theorems.

(** ** Witnesses *)

#[local] Existing Instances sample_table sample_table_laws no_uris padded_table.

Definition open_injector : InjectorConfig := {| credentials := str "test:123"; is_proxy_enabled := true; target_rx := None; is_private_target_allowed_ := false |}.

Definition lucky : outside := {| resolver := sample_resolver; connected := value O; handshake := value tt; replied := true |}.

Definition to_inject (url : list byte) : request_header :=
  authorize {| method := str "GET"; target := url; version := 11; rq_fields := [(protocol_version_hdr, protocol_version_hdr_current); (str "Cookie", str "secret")] |} (str "test:123").

Definition sample_inject : request_header := to_inject (str "http://example.com/index.html").

Definition first_sent (k : nat) (ds : list did) : option (request_header * Connection * bool) :=
  match List.find (fun d => match d with Sent k' _ _ _ => Nat.eqb k' k | _ => false end) ds with
  | Some (Sent _ rq c b) => Some (rq, c, b)
  | _ => None
  end.

(** The request that the injector makes of it, and its connection. *)
Definition sample_sent : request_header * Connection * bool :=
  default (sample_inject, {| stream := O; address := []; tls_name := None; unread := false; _connections := None; opened_for := sample_inject; resolved := [] |}, false)
    (first_sent 1 (fst (run (fun _ => true) open_injector [Begin 1 sample_inject lucky] new_injector))).

Lemma origin_connections_vetted_witness :
  address (snd (fst sample_sent)) = dotted 93 184 216 34 /\
  exists rq fwd, forwards open_injector rq fwd /\ to_origin_request fwd = Some (fst (fst sample_sent)) /\ get_host (opened_for (snd (fst sample_sent))) = get_host fwd.
Proof.
  split; [reflexivity|].
  destruct (origin_connections_vetted (fun _ => true) open_injector [Begin 1 sample_inject lucky] 1 (fst (fst sample_sent)) (snd (fst sample_sent)) true)
    as (es1 & es2 & rq & w & fwd & _ & _ & Hf & Ho & _ & Hh & _).
  - vm_compute. left.
  - by exists rq, fwd.
Defined.

Lemma signed_requests_acceptable_witness :
  get_host (fst (fst sample_sent)) = str "example.com" /\ exists u, get_host (fst (fst sample_sent)) = url_host u /\ find_field (str "Cookie") (rq_fields (fst (fst sample_sent))) = None.
Proof.
  split; [reflexivity|].
  destruct (signed_requests_acceptable (fun _ => true) open_injector [Begin 1 sample_inject lucky] 1 (fst (fst sample_sent)) (snd (fst sample_sent)))
    as (es1 & es2 & rq & w & rq1 & v & u & fwd & _ & _ & _ & _ & _ & _ & _ & _ & _ & _ & _ & Hh & _).
  - vm_compute. left.
  - exists u. split; [exact Hh|reflexivity].
Defined.

(** Two clients ask for the same host; the first goes away before its response is there. *)
Definition half_way : injector := snd (run (fun _ => true) open_injector [Begin 1 sample_inject lucky] new_injector).
Definition sample_other : request_header := to_inject (str "http://example.com/other.html").
Definition sample_other_cache : request_header :=
  match serve_plan open_injector sample_other with Inject fwd => fwd | _ => sample_other end.

Lemma unread_response_reused_witness :
  exists c', fst (run (fun _ => true) open_injector [End_ 1 (Failed true true true); Begin 2 sample_other lucky] half_way) = [Sent 2 (default sample_other (to_origin_request sample_other_cache)) c' true] /\
    stream c' = stream (snd (fst sample_sent)) /\ unread c' = true.
Proof.
  apply (unread_response_reused (fun _ => true) open_injector half_way 1 2 true true (snd (fst sample_sent)) (false, str "example.com") O sample_other sample_other_cache
    (default sample_other (to_origin_request sample_other_cache)) lucky); first [vm_compute; reflexivity|lia].
Defined.

Definition bad_port_request : request_header := to_inject (str "http://example.com:70000/").
Definition bad_port_cache : request_header := match serve_plan open_injector bad_port_request with Inject fwd => fwd | _ => bad_port_request end.

Lemma bad_port_stops_injector_witness : fst (run (fun _ => true) open_injector [Begin 1 bad_port_request lucky; Begin 2 sample_inject lucky] new_injector) = [].
Proof.
  apply (bad_port_stops_injector (fun _ => true) open_injector new_injector 1 bad_port_request bad_port_cache lucky [Begin 2 sample_inject lucky]
    {| scheme := str "http"; host := str "example.com"; port := str "70000"; path := str "/"; query := []; fragment := [] |}); vm_compute; reflexivity.
Defined.

(** The scheme of a URL is compared with case: with capital letters the response is fetched without TLS, and signed. *)
Example capital_https_in_clear :
  match fst (run (fun _ => true) open_injector [Begin 1 (to_inject (str "HTTPS://example.com/")) lucky] new_injector) with
  | [Sent _ _ c signed] => tls_name c = None /\ signed = true
  | _ => False
  end.
Proof. vm_compute. done. Qed.
