(* ===== verification/Bep5Announcer.v ===== *)
(** * Announcing in the DHT: src/bittorrent/bep5_announcer.cpp

    The loop of an announcer is a state with the events it waits for: an update, the end of an announcement, the end of a sleep. *)
From S2P Require Import Prelude.

Variant Type_ := Periodic | Manual.
Variant announcer_phase := Waiting | Announcing | Backoff | Pause | Stopped.

#[export] Instance announcer_phase_eq_dec : EqDecision announcer_phase.
Proof. solve_decision. Defined.

Definition min_fail_sleep : Z := 100.
Definition max_fail_sleep : Z := 60000.

Record Bep5AnnouncerImpl := { type : Type_; go_again : bool; fail_sleep : Z; where_ : announcer_phase }.

(** The beginning of a turn of the loop; [alive] says whether the DHT still exists. *)
Definition loop_head (alive : bool) (st : Bep5AnnouncerImpl) : Bep5AnnouncerImpl :=
  match type st, go_again st with
  | Manual, false => {| type := type st; go_again := false; fail_sleep := fail_sleep st; where_ := Waiting |}
  | _, _ => {| type := type st; go_again := false; fail_sleep := fail_sleep st; where_ := if alive then Announcing else Stopped |}
  end.

Definition new_announcer (t : Type_) (alive : bool) : Bep5AnnouncerImpl := loop_head alive {| type := t; go_again := false; fail_sleep := min_fail_sleep; where_ := Waiting |}.

Variant announcer_event := Update (alive : bool) | Announced (ok alive : bool) | Woke (alive : bool).

(** [update] wakes the loop when it waits. *)
Definition update (alive : bool) (st : Bep5AnnouncerImpl) : Bep5AnnouncerImpl :=
  match type st with
  | Periodic => st
  | Manual =>
      let st := {| type := type st; go_again := true; fail_sleep := fail_sleep st; where_ := where_ st |} in
      match where_ st with Waiting => loop_head alive st | _ => st end
  end.

Definition announcer_step (e : announcer_event) (st : Bep5AnnouncerImpl) : Bep5AnnouncerImpl :=
  match e, where_ st with
  | Update alive, _ => update alive st
  | Announced true alive, Announcing =>
      let st := {| type := type st; go_again := go_again st; fail_sleep := min_fail_sleep; where_ := Pause |} in
      match type st with Manual => loop_head alive st | Periodic => st end
  | Announced false _, Announcing => {| type := type st; go_again := go_again st; fail_sleep := fail_sleep st; where_ := Backoff |}
  | Woke alive, Backoff => loop_head alive {| type := type st; go_again := true; fail_sleep := Z.min (2 * fail_sleep st) max_fail_sleep; where_ := Backoff |}
  | Woke alive, Pause => loop_head alive st
  | _, _ => st
  end.

Definition announcer_run (es : list announcer_event) (st : Bep5AnnouncerImpl) : Bep5AnnouncerImpl := foldl (fun st e => announcer_step e st) st es.

(** Whether an announcement succeeded that began after the start of the run; [begun] says so of the one that is running. *)
Fixpoint update_served (es : list announcer_event) (st : Bep5AnnouncerImpl) (begun : bool) : bool :=
  match es with
  | [] => false
  | e :: es =>
      match e, where_ st with
      | Announced ok _, Announcing => ok && begun || update_served es (announcer_step e st) true
      | _, _ => update_served es (announcer_step e st) begun
      end
  end.

(** The failures since the last success. *)
Fixpoint failures (es : list announcer_event) (st : Bep5AnnouncerImpl) (n : Z) : Z :=
  match es with
  | [] => n
  | e :: es =>
      match e, where_ st with
      | Announced true _, Announcing => failures es (announcer_step e st) 0
      | Woke _, Backoff => failures es (announcer_step e st) (n + 1)
      | _, _ => failures es (announcer_step e st) n
      end
  end.

Lemma step_type e st : type (announcer_step e st) = type st.
Proof. destruct e as [| [] |]; cbn; unfold update, loop_head; destruct (where_ st), (type st) eqn:E, (go_again st); cbn; by rewrite ?E. Qed.

Lemma step_no_pause e st : type st = Manual -> where_ st <> Pause -> where_ (announcer_step e st) <> Pause.
Proof.
  intros Ht Hp. destruct e as [alive|[] alive|alive]; destruct (where_ st) eqn:Ew; try done; cbn; rewrite ?Ew; try done; unfold update, loop_head; rewrite ?Ht; cbn; rewrite ?Ew, ?Ht; cbn; try done; try (by destruct alive).
  destruct (go_again st); [by destruct alive|done].
Qed.

(** A request is on its way: an announcement runs, or will be run, that began after it. *)
Lemma served_or_busy es : forall st begun, type st = Manual -> where_ st <> Pause -> where_ st <> Waiting -> (begun = false -> where_ st = Announcing /\ go_again st = true) ->
  where_ (announcer_run es st) = Waiting -> update_served es st begun = true.
Proof.
  induction es as [|e es IH]; intros st begun Ht Hp Hw Hb Hr; [done|]. cbn [announcer_run foldl] in Hr. change (where_ (announcer_run es (announcer_step e st)) = Waiting) in Hr. cbn [update_served].
  assert (type (announcer_step e st) = Manual) as Ht' by by rewrite step_type.
  assert (where_ (announcer_step e st) <> Pause) as Hp' by by apply step_no_pause.
  destruct e as [alive|[] alive|alive]; destruct (where_ st) eqn:Ew; try done; cbn [andb orb];
    try (apply IH; try done; cbn; unfold update, loop_head; rewrite ?Ht, ?Ew; cbn; rewrite ?Ew, ?Ht; cbn; try done; try (intros ->; by destruct Hb); by destruct alive).
  destruct begun; [done|]. destruct (Hb eq_refl) as [_ Hg]. apply IH; [done..| |done|done]. cbn. rewrite Ew, Ht. unfold loop_head. cbn. rewrite ?Ht, Hg. cbn. by destruct alive.
Qed.

Lemma run_sound t alive es : type (announcer_run es (new_announcer t alive)) = t /\ (t = Manual -> where_ (announcer_run es (new_announcer t alive)) <> Pause).
Proof.
  assert (forall es st, type st = t /\ (t = Manual -> where_ st <> Pause) -> type (announcer_run es st) = t /\ (t = Manual -> where_ (announcer_run es st) <> Pause)) as H.
  { clear. induction es as [|e es IH]; intros st [Ht Hp]; [done|]. apply IH. rewrite step_type. split; [done|]. intros Em. apply step_no_pause; [by rewrite Ht|by apply Hp]. }
  apply H. unfold new_announcer, loop_head. destruct t; cbn; (split; [done|]); by intros.
Qed.

Lemma backoff_run es : forall st n, 0 <= n -> fail_sleep st = Z.min (min_fail_sleep * 2 ^ n) max_fail_sleep -> fail_sleep (announcer_run es st) = Z.min (min_fail_sleep * 2 ^ failures es st n) max_fail_sleep.
Proof.
  induction es as [|e es IH]; intros st n Hn Hs; [done|]. cbn [announcer_run foldl failures]. change (foldl _ _ es) with (announcer_run es (announcer_step e st)).
  destruct e as [alive|[] alive|alive], (where_ st) eqn:Ew; (apply IH; [lia|]); cbn; unfold update, loop_head; rewrite ?Ew; destruct (type st) eqn:Et, (go_again st); cbn; rewrite ?Ew, ?Et; cbn; try done;
    rewrite Hs, Z.pow_add_r by lia; unfold min_fail_sleep, max_fail_sleep; lia.
Qed.

(** C19: a manual announcer never loses a request: when it waits again after an update, an announcement that began after the update has succeeded, whatever failed and whatever other updates came in between; after a failure it retries, and the
    wait before the next retry doubles with each failure in a row from 100 ms up to a minute. *)
Theorem update_is_announced (alive alive' : bool) (before after : list announcer_event) :
  let st := announcer_run before (new_announcer Manual alive) in
  (where_ st <> Stopped -> where_ (announcer_run after (announcer_step (Update alive') st)) = Waiting ->
     update_served after (announcer_step (Update alive') st) (negb (bool_decide (where_ st = Announcing))) = true) /\
  fail_sleep st = Z.min (min_fail_sleep * 2 ^ failures before (new_announcer Manual alive) 0) max_fail_sleep.
Proof.
  intros st. destruct (run_sound Manual alive before) as [Ht Hp]. fold st in Ht, Hp. specialize (Hp eq_refl). split; [|by apply backoff_run].
  intros Hs Hw. apply served_or_busy; [by rewrite step_type|..|done]; cbn; unfold update, loop_head; rewrite Ht; cbn; rewrite ?Ht.
  - destruct (where_ st) eqn:Ew; cbn; rewrite ?Ht, ?Ew; cbn; try done. by destruct alive'.
  - destruct (where_ st) eqn:Ew; cbn; rewrite ?Ht, ?Ew; cbn; try done. by destruct alive'.
  - intros Hb%negb_false_iff%bool_decide_eq_true. by rewrite Hb.
Qed.

(** An update while an announcement runs, which then fails, succeeds on the retry. *)
Lemma update_is_announced_witness :
  let st := announcer_run [Update true] (new_announcer Manual true) in
  let after := [Announced false true; Woke true; Announced true true] in
  where_ st = Announcing /\ update_served after (announcer_step (Update true) st) false = true.
Proof.
  intros st after. split; [by vm_compute|]. exact (proj1 (update_is_announced true true [Update true] after) ltac:(vm_compute; discriminate) ltac:(vm_compute; reflexivity)).
Defined.
