(* ===== verification/Bep5Client.v ===== *)
(** * Finding and reaching injectors: src/ouiservice/bep5/client.cpp, src/util/semaphore.h, src/bep5_swarms.cpp

    A swarm keeps the peers that lookups in the DHT found, in an LRU cache.  [connect] collects candidates from the swarms of injectors and helpers and tries them concurrently, as many at a time as a semaphore allows: its coroutines are
    steps of a state, and what the network does is the choice of the next event.  The timer that should hold a lock for a while is an event too. *)
From S2P Require Import Prelude Number NodeId Contact LruCache.

(** ** Names of swarms: src/bep5_swarms.cpp *)

Section Names.
(** [util::base32up_encode] of a public key. *)
Variable base32 : list byte -> list byte.

Definition swarm_name (what : list byte) (pubkey : list byte) (protocol_version : Z) : list byte :=
  str "ed25519:" ++ base32 pubkey ++ str "/v" ++ to_string protocol_version ++ what.

Definition compute_injector_swarm_name := swarm_name (str "/injectors").
Definition compute_bridge_swarm_name := swarm_name (str "/bridges").
Definition compute_uri_swarm_prefix := swarm_name (str "/uri/").
Definition compute_uri_swarm_name (prefix uri : list byte) : list byte := prefix ++ uri.

End Names.

(** ** The semaphore: src/util/semaphore.h *)

(** [_lock_count], the waiting handlers and the handlers that were posted with a lock to come; [held] is the number of locks that exist. *)
Record Semaphore := { _max_lock_count : nat; _lock_count : nat; _handlers : nat; posted : nat; held : nat }.

Definition new_semaphore (max : nat) : Semaphore := {| _max_lock_count := max; _lock_count := O; _handlers := O; posted := O; held := O |}.

Definition can_create_lock (s : Semaphore) : bool := (_lock_count s <? _max_lock_count s)%nat.

Definition create_lock (s : Semaphore) : Semaphore :=
  {| _max_lock_count := _max_lock_count s; _lock_count := S (_lock_count s); _handlers := _handlers s; posted := posted s; held := S (held s) |}.

(** Whether the lock is there at once. *)
Definition await_lock (s : Semaphore) : bool * Semaphore :=
  if can_create_lock s then (true, create_lock s)
  else (false, {| _max_lock_count := _max_lock_count s; _lock_count := _lock_count s; _handlers := S (_handlers s); posted := posted s; held := held s |}).

(** The destructor of a lock, with [on_one_unlocked]. *)
Definition unlock (s : Semaphore) : Semaphore :=
  match held s with
  | O => s
  | S h =>
      match _handlers s with
      | O => {| _max_lock_count := _max_lock_count s; _lock_count := pred (_lock_count s); _handlers := O; posted := posted s; held := h |}
      | S n => {| _max_lock_count := _max_lock_count s; _lock_count := _lock_count s; _handlers := n; posted := S (posted s); held := h |}
      end
  end.

(** A posted handler runs. *)
Definition run_posted (s : Semaphore) : Semaphore :=
  match posted s with
  | O => s
  | S n => create_lock {| _max_lock_count := _max_lock_count s; _lock_count := _lock_count s; _handlers := _handlers s; posted := n; held := held s |}
  end.

Variant semaphore_event := Await | Unlock | RunPosted.

(** The semaphore after some events, the number of locks that were handed over to a waiting handler, and the number of those that were there at once. *)
Definition semaphore_step (e : semaphore_event) (x : Semaphore * nat) : Semaphore * nat :=
  match e with
  | Await => (snd (await_lock (fst x)), snd x)
  | Unlock => (unlock (fst x), snd x)
  | RunPosted => (run_posted (fst x), match posted (fst x) with O => snd x | S _ => S (snd x) end)
  end.

Definition semaphore_run (es : list semaphore_event) (x : Semaphore * nat) : Semaphore * nat := foldl (fun x e => semaphore_step e x) x es.

Lemma semaphore_count es : forall s n,
  _lock_count s = (held s + posted s + n)%nat ->
  let '(s', n') := semaphore_run es (s, n) in _lock_count s' = (held s' + posted s' + n')%nat /\ (n <= n')%nat /\ _max_lock_count s' = _max_lock_count s.
Proof.
  induction es as [|e es IH]; intros s n Hs; [done|]. cbn [semaphore_run foldl]. assert (let '(s', n') := semaphore_step e (s, n) in
    _lock_count s' = (held s' + posted s' + n')%nat /\ (n <= n')%nat /\ _max_lock_count s' = _max_lock_count s) as H1.
  { destruct e; cbn [semaphore_step fst snd].
    - unfold await_lock, create_lock. destruct (can_create_lock s); cbn; lia.
    - unfold unlock. destruct (held s) eqn:Eh; [cbn; lia|]. destruct (_handlers s); cbn; lia.
    - unfold run_posted, create_lock. destruct (posted s) eqn:Ep; cbn; lia. }
  destruct (semaphore_step e (s, n)) as [s1 n1] eqn:E1. destruct H1 as (H1 & H2 & H3). specialize (IH s1 n1 H1). unfold semaphore_run in IH. destruct (foldl _ (s1, n1) es) as [s' n']. destruct IH as (? & ? & ?). lia.
Qed.

(** each lock that is handed over to a waiting handler is lost for the semaphore: the count of locks is that of the existing ones and of all that were ever handed over; after as many as the maximum no
    lock is there at once any more, and when all locks are released nobody who waits ever gets one. *)
Theorem semaphore_leaks (max : nat) (es : list semaphore_event) :
  let '(s, handed_over) := semaphore_run es (new_semaphore max, O) in
  _lock_count s = (held s + posted s + handed_over)%nat /\
  ((max <= handed_over)%nat -> forall es', let s' := fst (semaphore_run es' (s, handed_over)) in
     can_create_lock s' = false /\ (held s = O -> posted s = O -> held s' = O)).
Proof.
  pose proof (semaphore_count es (new_semaphore max) O eq_refl) as Hc. destruct (semaphore_run es (new_semaphore max, O)) as [s n]. destruct Hc as (Hc & _ & Hm). cbn in Hm. split; [done|].
  intros Hn es'. pose proof (semaphore_count es' s n Hc) as Hc'. destruct (semaphore_run es' (s, n)) as [s' n'] eqn:E'. cbn [fst]. destruct Hc' as (Hc' & Hn' & Hm'). split.
  - unfold can_create_lock. rewrite Hm', Hm, Hc'. apply Nat.ltb_ge. lia.
  - intros Hh Hp. assert (forall es s n, held s = O -> posted s = O -> can_create_lock s = false -> held (fst (semaphore_run es (s, n))) = O) as Hgen.
    { clear. induction es as [|e es IH]; intros s n Hh Hp Hc; [done|]. cbn [semaphore_run foldl]. destruct e; cbn [semaphore_step fst snd].
      - unfold await_lock. rewrite Hc. by apply IH.
      - unfold unlock. rewrite Hh. by apply IH.
      - unfold run_posted. rewrite Hp. by apply IH. }
    pose proof (Hgen es' s n Hh Hp) as Hg. rewrite E' in Hg. apply Hg. unfold can_create_lock. rewrite Hm, Hc. apply Nat.ltb_ge. lia.
Qed.

(** ** Swarms *)

Variant SwarmType := injector_ | helper.

#[export] Instance SwarmType_eq_dec : EqDecision SwarmType.
Proof. solve_decision. Defined.

Definition helper_swarm_capacity : nat := 100.
Definition injector_swarm_capacity : nat := 50.
Definition injectors_to_ping : nat := 30.

(** What a swarm uses of the DHT and of the uTP sockets. *)
Record network := {
  wan_endpoints : list endpoint;
  local_endpoints : list endpoint;
  is_peer_allowed : endpoint -> bool;
  verify_remote_endpoint : endpoint -> bool;
}.

Definition is_v4 (e : endpoint) : bool := match address e with IPv4 _ => true | IPv6 _ => false end.
Definition same_ipv (ep1 ep2 : endpoint) : bool := eqb (is_v4 ep1) (is_v4 ep2).

Definition choose_multiplexer_for (net : network) (ep : endpoint) : option endpoint := List.find (same_ipv ep) (local_endpoints net).

(** [Peer]: the client of an endpoint, through the CONNECT request of a helper or not. *)
Record Peer := { peer_endpoint : endpoint; connect_proxy : bool }.

Definition make_peer (net : network) (proxy : bool) (ep : endpoint) : option Peer :=
  match choose_multiplexer_for net ep with
  | None => None
  | Some _ => if verify_remote_endpoint net ep then Some {| peer_endpoint := ep; connect_proxy := proxy |} else None
  end.

Record Swarm := { _peers : LruCache endpoint Peer; _last_success_time : option Z; ready_waiters : nat }.

Definition new_swarm : Swarm := {| _peers := new_lru; _last_success_time := None; ready_waiters := O |}.

Definition is_self (net : network) (ep : endpoint) : bool := bool_decide (ep ∈ wan_endpoints net) || bool_decide (ep ∈ local_endpoints net).

Definition add_peer (capacity : nat) (proxy : bool) (net : network) (peers : LruCache endpoint Peer) (ep : endpoint) : LruCache endpoint Peer :=
  if negb (is_peer_allowed net ep) then peers
  else if is_self net ep then peers
  else
    match get ep peers with
    | (peers, Some _) => peers
    | (peers, None) =>
        match make_peer net proxy ep with
        | None => peers
        | Some p => fst (put capacity ep p peers)
        end
    end.

Definition add_peers (capacity : nat) (proxy : bool) (net : network) (eps : list endpoint) (peers : LruCache endpoint Peer) : LruCache endpoint Peer :=
  foldl (add_peer capacity proxy net) peers eps.

Definition ERROR_WAIT_DURATION : Z := 1.
Definition SUCCESS_WAIT_DURATION : Z := 60.

(** A turn of [Swarm::loop] after the lookup; the result is how long it sleeps then. *)
Definition swarm_turn (capacity : nat) (proxy : bool) (net : network) (now : Z) (endpoints : option (list endpoint)) (s : Swarm) : Z * Swarm :=
  match endpoints with
  | None | Some [] => (ERROR_WAIT_DURATION, s)
  | Some eps =>
      let peers := add_peers capacity proxy net eps (_peers s) in
      if (size_ peers =? 0)%nat then (0, {| _peers := peers; _last_success_time := _last_success_time s; ready_waiters := ready_waiters s |})
      else (SUCCESS_WAIT_DURATION, {| _peers := peers; _last_success_time := Some now; ready_waiters := O |})
  end.

Definition is_ready (now : Z) (s : Swarm) : bool :=
  match _last_success_time s with
  | None => false
  | Some t => now - t <? 5 * SUCCESS_WAIT_DURATION
  end.

(** [wait_for_ready]: whether it returns at once. *)
Definition wait_for_ready (now : Z) (s : Swarm) : bool * Swarm :=
  if is_ready now s then (true, s)
  else (false, {| _peers := _peers s; _last_success_time := _last_success_time s; ready_waiters := S (ready_waiters s) |}).

Record Candidate := { c_endpoint : endpoint; client : Peer; swarm_type : SwarmType }.

(** In the order of the list; the code iterates over the unordered map. *)
Definition candidates (type : SwarmType) (s : Swarm) : list Candidate :=
  (fun x => {| c_endpoint := fst x; client := snd x; swarm_type := type |}) <$> entries (_peers s).

(** ** The choice of candidates *)

Record Candidates := {
  used_candidates : list endpoint;
  preferred_ep : option endpoint;
  preferred : option Candidate;
  inj_candidates : list Candidate;
  hlp_candidates : list Candidate;
}.

Definition new_candidates (ep : option endpoint) : Candidates :=
  {| used_candidates := []; preferred_ep := ep; preferred := None; inj_candidates := []; hlp_candidates := [] |}.

Definition is_in (c : Candidate) (l : list Candidate) : bool := existsb (fun i => bool_decide (c_endpoint c = c_endpoint i)) l.

Definition try_insert (cs : Candidates) (c : Candidate) : Candidates :=
  if bool_decide (c_endpoint c ∈ used_candidates cs) then cs
  else if bool_decide (preferred_ep cs = Some (c_endpoint c)) then
    {| used_candidates := used_candidates cs; preferred_ep := preferred_ep cs; preferred := Some c; inj_candidates := inj_candidates cs; hlp_candidates := hlp_candidates cs |}
  else if is_in c (inj_candidates cs) || is_in c (hlp_candidates cs) then cs
  else
    match swarm_type c with
    | injector_ => {| used_candidates := used_candidates cs; preferred_ep := preferred_ep cs; preferred := preferred cs; inj_candidates := inj_candidates cs ++ [c]; hlp_candidates := hlp_candidates cs |}
    | helper => {| used_candidates := used_candidates cs; preferred_ep := preferred_ep cs; preferred := preferred cs; inj_candidates := inj_candidates cs; hlp_candidates := hlp_candidates cs ++ [c] |}
    end.

(** The element at a random place, which the last one takes. *)
Definition random_remove_from (random : nat) (l : list Candidate) : option (Candidate * list Candidate) :=
  match l !! (random mod length l)%nat, last l with
  | Some c, Some z => Some (c, removelast (<[(random mod length l)%nat := z]> l))
  | _, _ => None
  end.

Definition use (c : Candidate) (inj hlp : list Candidate) (cs : Candidates) : Candidates :=
  {| used_candidates := c_endpoint c :: used_candidates cs; preferred_ep := preferred_ep cs; preferred := None; inj_candidates := inj; hlp_candidates := hlp |}.

Definition pick_candidate (random : nat) (cs : Candidates) : option (Candidate * Candidates) :=
  match preferred cs with
  | Some c => Some (c, use c (inj_candidates cs) (hlp_candidates cs) cs)
  | None =>
      match random_remove_from random (inj_candidates cs) with
      | Some (c, inj) => Some (c, use c inj (hlp_candidates cs) cs)
      | None =>
          match random_remove_from random (hlp_candidates cs) with
          | Some (c, hlp) => Some (c, use c (inj_candidates cs) hlp cs)
          | None => None
          end
      end
  end.

(** ** Connecting *)

Variant phase := Receiving | Picking | Locking (c : Candidate) | Draining | Returned (r : option Candidate) | Threw.

(** The state of [connect]: the lookups that are running, the channel, the candidates, the semaphore, the attempts that are running; [tried] and [failed] record the attempts that were made and those that ended without a connection. *)
Record connecting := {
  lookups : list SwarmType;
  channel : list (list Candidate);
  cands : Candidates;
  concurrency : Semaphore;
  attempts : list Candidate;
  result : option Candidate;
  cancelled : bool;
  where_ : phase;
  tried : list Candidate;
  failed : list Candidate;
}.

Section Connect.
(** What a lookup finds in a swarm, which is not empty. *)
Variable found : SwarmType -> list Candidate.

Definition start_connect (targets : list SwarmType) (last_working_ep : option endpoint) : connecting :=
  {| lookups := targets; channel := []; cands := new_candidates last_working_ep; concurrency := new_semaphore 10; attempts := []; result := None; cancelled := false;
     where_ := match targets with [] => Returned None | _ => Receiving end; tried := []; failed := [] |}.

Definition set_where (p : phase) (st : connecting) : connecting :=
  {| lookups := lookups st; channel := channel st; cands := cands st; concurrency := concurrency st; attempts := attempts st; result := result st; cancelled := cancelled st;
     where_ := p; tried := tried st; failed := failed st |}.
Definition set_cands (cs : Candidates) (st : connecting) : connecting :=
  {| lookups := lookups st; channel := channel st; cands := cs; concurrency := concurrency st; attempts := attempts st; result := result st; cancelled := cancelled st;
     where_ := where_ st; tried := tried st; failed := failed st |}.
Definition set_concurrency (s : Semaphore) (st : connecting) : connecting :=
  {| lookups := lookups st; channel := channel st; cands := cands st; concurrency := s; attempts := attempts st; result := result st; cancelled := cancelled st;
     where_ := where_ st; tried := tried st; failed := failed st |}.
Definition set_channel (ls : list SwarmType) (ch : list (list Candidate)) (st : connecting) : connecting :=
  {| lookups := ls; channel := ch; cands := cands st; concurrency := concurrency st; attempts := attempts st; result := result st; cancelled := cancelled st;
     where_ := where_ st; tried := tried st; failed := failed st |}.
(** The lock is there: the attempt is spawned. *)
Definition spawn (c : Candidate) (st : connecting) : connecting :=
  {| lookups := lookups st; channel := channel st; cands := cands st; concurrency := concurrency st; attempts := attempts st ++ [c]; result := result st; cancelled := cancelled st;
     where_ := Picking; tried := tried st ++ [c]; failed := failed st |}.

(** A step of the coroutine of [connect] itself; the channel is closed when no lookup is left. *)
Definition main_step (random : nat) (st : connecting) : connecting :=
  match where_ st with
  | Receiving =>
      if cancelled st then set_where Draining st
      else
        match channel st with
        | batch :: ch => set_where Picking (set_cands (foldl try_insert (cands st) batch) (set_channel (lookups st) ch st))
        | [] => match lookups st with [] => set_where Draining st | _ => st end
        end
  | Picking =>
      match pick_candidate random (cands st) with
      | None => set_where Receiving st
      | Some (c, cs) =>
          let st := set_cands cs st in
          if cancelled st then set_where Receiving st
          else
            match await_lock (concurrency st) with
            | (true, s) => spawn c (set_concurrency s st)
            | (false, s) => set_where (Locking c) (set_concurrency s st)
            end
      end
  | Locking c => if cancelled st then set_where Threw st else st
  | Draining => match attempts st, lookups st with [], [] => set_where (Returned (result st)) st | _, _ => st end
  | Returned _ | Threw => st
  end.

Variant connect_event :=
| Found (s : SwarmType)
| Main (random : nat)
| TimerFired
| Granted
| Ended (i : nat) (connected : bool).

(** The end of the attempt at a place of the list. *)
Definition end_attempt (i : nat) (connected : bool) (st : connecting) : connecting :=
  match attempts st !! i with
  | None => st
  | Some c =>
      let attempts' := delete i (attempts st) in
      if connected then
        {| lookups := lookups st; channel := channel st; cands := cands st; concurrency := concurrency st; attempts := attempts'; result := Some c; cancelled := true;
           where_ := where_ st; tried := tried st; failed := failed st |}
      else
        {| lookups := lookups st; channel := channel st; cands := cands st; concurrency := concurrency st; attempts := attempts'; result := result st; cancelled := cancelled st;
           where_ := where_ st; tried := tried st; failed := c :: failed st |}
  end.

(** While the coroutine of [connect] picks candidates it does not suspend: nothing else happens then. *)
Definition connect_step (e : connect_event) (st : connecting) : connecting :=
  match e, where_ st with
  | Main random, _ => main_step random st
  | _, Picking => st
  | Found s, _ =>
      if bool_decide (s ∈ lookups st) then
        let ls := List.filter (fun x => negb (bool_decide (x = s))) (lookups st) in
        set_channel ls (if cancelled st then channel st else channel st ++ [found s]) st
      else st
  | TimerFired, _ => if cancelled st then st else set_concurrency (unlock (concurrency st)) st
  | Granted, Locking c =>
      match posted (concurrency st), cancelled st with
      | S _, false => spawn c (set_concurrency (run_posted (concurrency st)) st)
      | _, _ => st
      end
  | Granted, _ => st
  | Ended i connected, _ => end_attempt i connected st
  end.

Definition connect_run (es : list connect_event) (st : connecting) : connecting := foldl (fun st e => connect_step e st) st es.

End Connect.

(** What [connect] leaves in the client: the endpoint that worked, and whether the pinger hears of an injector. *)
Definition after_connect (r : option Candidate) : option endpoint * bool :=
  match r with
  | None => (None, false)
  | Some c => (Some (c_endpoint c), bool_decide (swarm_type c = injector_))
  end.

(** ** The candidates *)

Definition pool (cs : Candidates) : list Candidate := option_list (preferred cs) ++ inj_candidates cs ++ hlp_candidates cs.

Record cands_ok (cs : Candidates) : Prop := {
  pool_distinct : NoDup (c_endpoint <$> pool cs);
  pool_unused : forall c, c ∈ pool cs -> c_endpoint c ∉ used_candidates cs;
  preferred_is : forall c, preferred cs = Some c -> preferred_ep cs = Some (c_endpoint c);
  others_not_preferred : forall c, c ∈ inj_candidates cs ++ hlp_candidates cs -> preferred_ep cs <> Some (c_endpoint c);
}.

(** The endpoints that were tried or are still to be tried. *)
Definition known (cs : Candidates) (e : endpoint) : Prop := e ∈ used_candidates cs \/ e ∈ c_endpoint <$> pool cs.

Lemma is_in_spec c l : is_in c l = true <-> c_endpoint c ∈ c_endpoint <$> l.
Proof.
  unfold is_in. rewrite existsb_exists, list_elem_of_fmap. split.
  - intros (x & Hx & Hb). apply bool_decide_eq_true in Hb. exists x. by rewrite list_elem_of_In.
  - intros (x & Hb & Hx). exists x. rewrite <- list_elem_of_In. split; [done|]. by apply bool_decide_eq_true.
Qed.

Lemma try_insert_ok cs c : cands_ok cs ->
  cands_ok (try_insert cs c) /\ used_candidates (try_insert cs c) = used_candidates cs /\ (length (pool (try_insert cs c)) <= S (length (pool cs)))%nat /\
  (forall x, x ∈ pool (try_insert cs c) -> x ∈ pool cs \/ x = c) /\ (forall e, known cs e \/ e = c_endpoint c -> known (try_insert cs c) e).
Proof.
  intros [Hd Hu Hp Ho]. unfold try_insert. destruct (bool_decide_reflect (c_endpoint c ∈ used_candidates cs)) as [Hin|Hin].
  { split_and!; [by split|done|lia|by left|]. intros e [?| ->]; [done|by left]. }
  destruct (bool_decide_reflect (preferred_ep cs = Some (c_endpoint c))) as [Hpe|Hpe].
  { assert (forall x, x ∈ inj_candidates cs ++ hlp_candidates cs -> c_endpoint x <> c_endpoint c) as Hne.
    { intros x Hx E. apply (Ho x Hx). by rewrite E. }
    split_and!.
    - split; cbn; [|intros x [->|Hx]%elem_of_cons; [done|]|by intros ? [= <-]|done].
      + constructor; [|apply (NoDup_app (c_endpoint <$> option_list (preferred cs))); by rewrite <- fmap_app].
        rewrite list_elem_of_fmap. intros (x & E & Hx). by apply (Hne x).
      + apply Hu. unfold pool. set_solver.
    - done.
    - unfold pool. cbn. rewrite !length_app. destruct (preferred cs); cbn; lia.
    - unfold pool. cbn. set_solver.
    - intros e [[He|He]| ->]; [by left| |right; unfold pool; cbn; set_solver]. right. unfold pool in *. cbn. apply list_elem_of_fmap in He as (x & -> & [Hx|Hx]%elem_of_app).
      + destruct (preferred cs) as [p|] eqn:Ep; [|by apply not_elem_of_nil in Hx]. cbn in Hx. apply list_elem_of_singleton in Hx as ->.
        pose proof (Hp p eq_refl) as E. rewrite Hpe in E. injection E as E. rewrite <- E. set_solver.
      + rewrite !elem_of_cons. right. by apply list_elem_of_fmap_2. }
  destruct (is_in c (inj_candidates cs) || is_in c (hlp_candidates cs)) eqn:Ei.
  { split_and!; [by split|done|lia|by left|]. intros e [?| ->]; [done|right]. unfold pool. rewrite !fmap_app, !elem_of_app, <- !is_in_spec. apply orb_true_iff in Ei. tauto. }
  apply orb_false_iff in Ei as [Ei1 Ei2].
  assert (c_endpoint c ∉ c_endpoint <$> pool cs) as Hnew.
  { unfold pool. rewrite !fmap_app, !elem_of_app, <- !is_in_spec. intros [H|[H|H]]; [|congruence..]. destruct (preferred cs) as [p|] eqn:Ep; cbn in H; [|done].
    rewrite orb_false_r, bool_decide_eq_true in H. by rewrite H, <- (Hp p eq_refl) in Hpe. }
  assert (forall cs', used_candidates cs' = used_candidates cs -> preferred_ep cs' = preferred_ep cs -> preferred cs' = preferred cs ->
      inj_candidates cs' ++ hlp_candidates cs' ≡ₚ c :: inj_candidates cs ++ hlp_candidates cs ->
    cands_ok cs' /\ used_candidates cs' = used_candidates cs /\ (length (pool cs') <= S (length (pool cs)))%nat /\
    (forall x, x ∈ pool cs' -> x ∈ pool cs \/ x = c) /\ (forall e, known cs e \/ e = c_endpoint c -> known cs' e)) as Hgen.
  { intros cs' E1 E2 E3 E4. assert (pool cs' ≡ₚ c :: pool cs) as Epool by (unfold pool; rewrite E3, E4; by rewrite <- Permutation_middle). split_and!.
    - split.
      + rewrite Epool. cbn. by constructor.
      + intros x. rewrite Epool, E1, elem_of_cons. intros [->|Hx]; [done|by apply Hu].
      + intros x. rewrite E3, E2. apply Hp.
      + intros x. rewrite E4, E2, elem_of_cons. intros [->|Hx]; [done|by apply Ho].
    - done.
    - by rewrite Epool.
    - intros x. rewrite Epool. set_solver.
    - intros e. unfold known. rewrite E1, Epool, fmap_cons. set_solver. }
  destruct (swarm_type c); apply Hgen; try done; cbn; [rewrite <- app_assoc; cbn; by rewrite <- Permutation_middle|].
  rewrite app_assoc, (Permutation_app_comm _ [c]). done.
Qed.

Lemma insert_all_candidates_ok batch : forall cs, cands_ok cs ->
  cands_ok (foldl try_insert cs batch) /\ used_candidates (foldl try_insert cs batch) = used_candidates cs /\ (length (pool (foldl try_insert cs batch)) <= length batch + length (pool cs))%nat /\
  (forall x, x ∈ pool (foldl try_insert cs batch) -> x ∈ pool cs \/ x ∈ batch) /\ (forall e, known cs e \/ e ∈ c_endpoint <$> batch -> known (foldl try_insert cs batch) e).
Proof.
  induction batch as [|c batch IH]; intros cs Hcs; cbn [foldl].
  - split_and!; [done|done|cbn; lia|by left|]. intros e [?|H]; [done|by apply not_elem_of_nil in H].
  - destruct (try_insert_ok cs c Hcs) as (H1 & H2 & H3 & H4 & H5). destruct (IH _ H1) as (K1 & K2 & K3 & K4 & K5). split_and!; [done|congruence|cbn; lia| |].
    + intros x Hx. apply K4 in Hx as [Hx|Hx]; [apply H4 in Hx as [Hx|Hx]|]; set_solver.
    + intros e He. apply K5. rewrite fmap_cons, elem_of_cons in He. destruct He as [He|[He|He]]; [left|left|by right]; apply H5; tauto.
Qed.

Lemma random_remove_perm random l c l' : random_remove_from random l = Some (c, l') -> l ≡ₚ c :: l'.
Proof.
  unfold random_remove_from. set (i := (random mod length l)%nat). destruct (l !! i) as [x|] eqn:Ei; [|done]. destruct (last l) as [z|] eqn:El; [|done]. intros [= <- <-].
  apply last_Some in El as [l0 ->]. apply lookup_app_Some in Ei as [Ei|[Hi Ei]].
  - rewrite insert_app_l by by eapply lookup_lt_Some. rewrite removelast_last, insert_take_drop by by eapply lookup_lt_Some.
    rewrite <- (take_drop_middle l0 i x Ei) at 1. rewrite <- !app_assoc. cbn. rewrite <- (Permutation_middle (take i l0)). rewrite (Permutation_app_comm _ [z]). done.
  - apply list_lookup_singleton_Some in Ei as [Ei <-]. rewrite insert_app_r_alt by done. rewrite Ei. cbn. rewrite removelast_last. by rewrite Permutation_app_comm.
Qed.

Lemma random_remove_none random l : random_remove_from random l = None -> l = [].
Proof.
  unfold random_remove_from. destruct l as [|a l]; [done|]. destruct (lookup_lt_is_Some_2 (a :: l) (random mod length (a :: l))) as [x ->]; [apply Nat.mod_upper_bound; cbn; lia|].
  destruct (last (a :: l)) eqn:E; [done|]. by apply last_None in E.
Qed.

Lemma pick_spec random cs : cands_ok cs ->
  match pick_candidate random cs with
  | None => pool cs = []
  | Some (c, cs') => pool cs ≡ₚ c :: pool cs' /\ used_candidates cs' = c_endpoint c :: used_candidates cs /\ cands_ok cs'
  end.
Proof.
  intros [Hd Hu Hp Ho]. assert (forall c cs', preferred_ep cs' = preferred_ep cs -> preferred cs' = None -> used_candidates cs' = c_endpoint c :: used_candidates cs ->
    (forall x, x ∈ inj_candidates cs' ++ hlp_candidates cs' -> x ∈ inj_candidates cs ++ hlp_candidates cs) -> pool cs ≡ₚ c :: pool cs' -> pool cs ≡ₚ c :: pool cs' /\ used_candidates cs' = c_endpoint c :: used_candidates cs /\ cands_ok cs') as Hgen.
  { intros c cs' E1 E2 E3 E4 Eq. split_and!; [done|done|]. rewrite Eq in Hd. cbn in Hd. apply NoDup_cons in Hd as [Hd1 Hd2]. split.
    - done.
    - intros x Hx. rewrite E3, elem_of_cons. intros [E|E]; [apply Hd1; rewrite <- E; by apply list_elem_of_fmap_2|]. apply (Hu x); [rewrite Eq; by right|done].
    - by rewrite E2.
    - intros x Hx. rewrite E1. by apply Ho, E4. }
  unfold pick_candidate. destruct (preferred cs) as [c|] eqn:Epr.
  { apply Hgen; [done..|]. unfold pool. by rewrite Epr. }
  destruct (random_remove_from random (inj_candidates cs)) as [[c inj]|] eqn:E1.
  { apply random_remove_perm in E1. apply Hgen; [done..| |]; cbn; [intros x; rewrite E1; set_solver|]. unfold pool. rewrite Epr. cbn. by rewrite E1. }
  apply random_remove_none in E1. destruct (random_remove_from random (hlp_candidates cs)) as [[c hlp]|] eqn:E2.
  { apply random_remove_perm in E2. apply Hgen; [done..| |]; cbn; [intros x; rewrite E2; set_solver|]. unfold pool. rewrite Epr. cbn. rewrite E1, E2. done. }
  apply random_remove_none in E2. unfold pool. by rewrite Epr, E1, E2.
Qed.

(** ** What [connect] tries, and what it returns *)

(** The candidate that waits for a lock. *)
Definition pending (st : connecting) : list Candidate := match where_ st with Locking c => [c] | _ => [] end.

Definition all_picked (p : phase) : bool := match p with Receiving | Draining | Returned _ => true | _ => false end.
Definition all_received (p : phase) : bool := match p with Draining | Returned _ => true | _ => false end.

Section ConnectOk.
Context (found : SwarmType -> list Candidate) (targets : list SwarmType).

Definition wanted (c : Candidate) : Prop := exists s, s ∈ targets /\ c ∈ found s.

Record connect_ok (st : connecting) : Prop := {
  ok_cands : cands_ok (cands st);
  ok_lookups : lookups st ⊆ targets;
  ok_channel : forall b c, b ∈ channel st -> c ∈ b -> wanted c;
  ok_from : forall c, c ∈ tried st ++ pending st ++ pool (cands st) -> wanted c;
  ok_tried : NoDup (c_endpoint <$> tried st ++ pending st);
  ok_tried_used : forall c, c ∈ tried st ++ pending st -> c_endpoint c ∈ used_candidates (cands st);
  ok_used : cancelled st = false -> forall e, e ∈ used_candidates (cands st) -> e ∈ c_endpoint <$> tried st ++ pending st;
  ok_split : exists connected, tried st ≡ₚ attempts st ++ failed st ++ connected /\ match result st with None => connected = [] /\ cancelled st = false | Some c => c ∈ connected /\ cancelled st = true end;
  ok_empty : cancelled st = false -> all_picked (where_ st) = true -> pool (cands st) = [];
  ok_done : cancelled st = false -> all_received (where_ st) = true -> channel st = [] /\ lookups st = [];
  ok_found : cancelled st = false -> forall s, s ∈ targets -> s ∈ lookups st \/ found s ∈ channel st \/ forall c, c ∈ found s -> known (cands st) (c_endpoint c);
  ok_returned : forall r, where_ st = Returned r -> r = result st /\ attempts st = [];
}.

Lemma start_ok last_ep : connect_ok (start_connect targets last_ep).
Proof.
  assert (pending (start_connect targets last_ep) = []) as Hp by (unfold pending, start_connect; by destruct targets).
  split; rewrite ?Hp; cbn; try done; try (intros ? ? []%not_elem_of_nil); try (intros ? []%not_elem_of_nil).
  - split; cbn; [constructor|intros ? []%not_elem_of_nil|done|intros ? []%not_elem_of_nil].
  - constructor.
  - exists []. done.
  - intros _. by destruct targets.
  - intros _ s Hs. by left.
  - intros r. destruct targets; cbn; [|done]. by intros [= <-].
Qed.

Lemma batch_ok st batch ch : connect_ok st -> where_ st = Receiving -> channel st = batch :: ch ->
  connect_ok (set_where Picking (set_cands (foldl try_insert (cands st) batch) (set_channel (lookups st) ch st))).
Proof.
  intros [] Ew Ec. destruct (insert_all_candidates_ok batch (cands st) ok_cands0) as (H1 & H2 & _ & H4 & H5). assert (pending st = []) as Ep by (unfold pending; by rewrite Ew). rewrite Ep, app_nil_r in *.
  split; cbn -[foldl]; rewrite ?app_nil_r; try done.
  - intros b c Hb. apply ok_channel0. rewrite Ec. by right.
  - intros c [Hc|Hc]%elem_of_app; [apply ok_from0; set_solver|]. apply H4 in Hc as [Hc|Hc]; [apply ok_from0; set_solver|]. apply (ok_channel0 batch); [rewrite Ec; by left|done].
  - by rewrite H2.
  - by rewrite H2.
  - intros Hcan s Hs. destruct (ok_found0 Hcan s Hs) as [H|[H|H]]; [by left| |].
    + rewrite Ec in H. apply elem_of_cons in H as [<-|H]; [|by right; left]. right; right. intros c Hc. apply H5. right. by apply list_elem_of_fmap_2.
    + right; right. intros c Hc. apply H5. left. by apply H.
Qed.

Lemma set_where_ok p st : connect_ok st -> pending st = [] -> (forall c, p <> Locking c) -> (cancelled st = false -> all_picked p = true -> pool (cands st) = []) ->
  (cancelled st = false -> all_received p = true -> channel st = [] /\ lookups st = []) -> (forall r, p = Returned r -> r = result st /\ attempts st = []) -> connect_ok (set_where p st).
Proof. intros [] Ep Hp H1 H2 H3. assert (pending (set_where p st) = []) as Ep' by (unfold pending; cbn; destruct p; try done; by destruct (Hp c)). rewrite Ep in *. split; rewrite ?Ep'; try done. Qed.

Lemma perm_before {A} (a r : list A) (c : A) : (a ++ r) ++ [c] ≡ₚ (a ++ [c]) ++ r.
Proof. rewrite <- !app_assoc. apply Permutation_app_head, Permutation_app_comm. Qed.

(** The candidate that was picked is tried, waits for a lock, or is dropped because a connection is there already. *)
Lemma picked_ok st c cs : connect_ok st -> where_ st = Picking -> pool (cands st) ≡ₚ c :: pool cs -> used_candidates cs = c_endpoint c :: used_candidates (cands st) -> cands_ok cs ->
  forall s, (cancelled st = true -> connect_ok (set_where Receiving (set_cands cs st))) /\ connect_ok (spawn c (set_concurrency s (set_cands cs st))) /\
  connect_ok (set_where (Locking c) (set_concurrency s (set_cands cs st))).
Proof.
  intros [] Ew Epool Eu Hcs s. assert (pending st = []) as Ep by (unfold pending; by rewrite Ew). rewrite Ep, app_nil_r in *. cbn in ok_from0.
  assert (c_endpoint c ∉ used_candidates (cands st)) as Hnew by (apply (pool_unused _ ok_cands0); rewrite Epool; by left).
  assert (forall x, x ∈ (tried st ++ [c]) ++ pool cs -> wanted x) as Hfrom by (intros x Hx; apply ok_from0; rewrite Epool; set_solver).
  assert (NoDup (c_endpoint <$> tried st ++ [c])) as Hnd.
  { rewrite fmap_app. apply NoDup_app. split_and!; [done| |apply NoDup_singleton]. intros e He ->%list_elem_of_singleton. apply list_elem_of_fmap in He as (x & E & Hx). apply Hnew. rewrite E. by apply ok_tried_used0. }
  assert (forall x, x ∈ tried st ++ [c] -> c_endpoint x ∈ used_candidates cs) as Htu by (intros x [Hx| ->%list_elem_of_singleton]%elem_of_app; rewrite Eu; [right; by apply ok_tried_used0|by left]).
  assert (cancelled st = false -> forall e, e ∈ used_candidates cs -> e ∈ c_endpoint <$> tried st ++ [c]) as Hus.
  { intros Hc e. rewrite Eu, fmap_app, elem_of_cons, elem_of_app. intros [->|He]; [right; cbn; by left|left; by apply ok_used0]. }
  assert (cancelled st = false -> forall s, s ∈ targets -> s ∈ lookups st \/ found s ∈ channel st \/ forall x, x ∈ found s -> known cs (c_endpoint x)) as Hfo.
  { intros Hc s' Hs. destruct (ok_found0 Hc s' Hs) as [H|[H|H]]; [by left|by right; left|right; right]. intros x Hx. destruct (H x Hx) as [K|K]; [left; rewrite Eu; by right|].
    rewrite Epool in K. cbn in K. apply elem_of_cons in K as [->|K]; [left; rewrite Eu; by left|by right]. }
  split_and!.
  - intros Hc. split; cbn; rewrite ?app_nil_r; try done; try congruence.
    + intros x Hx. apply Hfrom. set_solver.
    + intros x Hx. rewrite Eu. right. by apply ok_tried_used0.
  - split; cbn; rewrite ?app_nil_r; try done. destruct ok_split0 as (l & E & H). exists l. split; [|done]. rewrite E. apply perm_before.
  - split; cbn; rewrite ?app_nil_r; try done. intros x Hx. apply Hfrom. set_solver.
Qed.

Lemma main_step_ok random st : connect_ok st -> connect_ok (main_step random st).
Proof.
  intros Hok. unfold main_step. destruct (where_ st) as [| |c| | |] eqn:Ew; try done.
  - assert (pending st = []) as Ep by (unfold pending; by rewrite Ew). destruct (cancelled st) eqn:Ec; [apply set_where_ok; congruence|].
    destruct (channel st) as [|b ch] eqn:Ech; [|by apply batch_ok]. destruct (lookups st) eqn:El; [|done]. apply set_where_ok; try done. intros _ _. apply Hok; [done|by rewrite Ew].
  - assert (pending st = []) as Ep by (unfold pending; by rewrite Ew). pose proof (pick_spec random (cands st) (ok_cands _ Hok)) as Hpick.
    destruct (pick_candidate random (cands st)) as [[c cs]|]; [|by apply set_where_ok]. destruct Hpick as (H1 & H2 & H3). change (cancelled (set_cands cs st)) with (cancelled st).
    destruct (cancelled st) eqn:Ec; [by apply (picked_ok st c cs Hok Ew H1 H2 H3 (concurrency st))|].
    destruct (await_lock _) as [[] s]; by apply (picked_ok st c cs Hok Ew H1 H2 H3 s).
  - destruct (cancelled st) eqn:Ec; [|done]. destruct Hok as []. assert (pending st = [c]) as Ep by (unfold pending; by rewrite Ew). rewrite Ep in *.
    split; cbn; rewrite ?app_nil_r; try done; try congruence.
    + intros x Hx. apply ok_from0. set_solver.
    + rewrite fmap_app in ok_tried0. by apply NoDup_app in ok_tried0 as (? & _).
    + intros x Hx. apply ok_tried_used0. set_solver.
  - assert (pending st = []) as Ep by (unfold pending; by rewrite Ew). destruct (attempts st) eqn:Ea; [|done]. destruct (lookups st) eqn:El; [|done]. apply set_where_ok; try done.
    + intros Hc _. apply Hok; [done|by rewrite Ew].
    + intros Hc _. apply Hok; [done|by rewrite Ew].
    + by intros r [= <-].
Qed.

Lemma set_concurrency_ok s st : connect_ok st -> connect_ok (set_concurrency s st).
Proof. intros []. by split. Qed.

Lemma granted_ok c s st : connect_ok st -> where_ st = Locking c -> connect_ok (spawn c (set_concurrency s st)).
Proof.
  intros [] Ew. assert (pending st = [c]) as Ep by (unfold pending; by rewrite Ew). rewrite Ep in *. split; cbn; rewrite ?app_nil_r; try done.
  - intros x Hx. apply ok_from0. set_solver.
  - destruct ok_split0 as (l & E & H). exists l. split; [|done]. rewrite E. apply perm_before.
Qed.

Lemma end_attempt_ok i b st : connect_ok st -> connect_ok (end_attempt i b st).
Proof.
  intros Hok. unfold end_attempt. destruct (attempts st !! i) as [c|] eqn:Ei; [|done]. pose proof (delete_Permutation _ _ _ Ei) as Ea'. set (rest := delete i (attempts st)) in *.
  assert (forall r, where_ st <> Returned r) as Hr. { intros r Er. destruct (ok_returned _ Hok r Er) as [_ E]. by rewrite E in Ei. }
  destruct Hok as []. destruct b; split; try done; cbn; try (by intros r Er; destruct (Hr r)).
  - destruct ok_split0 as (l & E & H). exists (c :: l). split; [|split; [by left|done]]. rewrite E, Ea'. cbn. by rewrite <- !Permutation_middle.
  - destruct ok_split0 as (l & E & H). exists l. split; [|done]. rewrite E, Ea'. cbn. by rewrite <- !Permutation_middle.
Qed.

Lemma found_ok s st : connect_ok st -> where_ st <> Picking -> connect_ok (connect_step found (Found s) st).
Proof.
  intros Hok Hw. assert (connect_step found (Found s) st = if bool_decide (s ∈ lookups st) then
      set_channel (List.filter (fun x => negb (bool_decide (x = s))) (lookups st)) (if cancelled st then channel st else channel st ++ [found s]) st else st) as -> by (cbn; by destruct (where_ st)).
  case_bool_decide as Hs; [|done]. destruct Hok as []. assert (forall x, x ∈ List.filter (fun x => negb (bool_decide (x = s))) (lookups st) <-> x ∈ lookups st /\ x <> s) as Hf.
  { intros x. rewrite list_elem_of_In, filter_In, <- list_elem_of_In, negb_true_iff, bool_decide_eq_false. done. }
  split; cbn; try done.
  - intros x Hx%Hf. apply ok_lookups0. apply Hx.
  - intros b c Hb Hc. destruct (cancelled st); [by apply (ok_channel0 b)|]. apply elem_of_app in Hb as [Hb|Hb]; [by apply (ok_channel0 b)|]. apply list_elem_of_singleton in Hb as ->. exists s. split; [by apply ok_lookups0|done].
  - intros Hc Hr. destruct (ok_done0 Hc Hr) as [_ E]. rewrite E in Hs. by apply not_elem_of_nil in Hs.
  - intros Hc s' Hs'. rewrite Hc. destruct (decide (s' = s)) as [->|Hne]; [right; left; set_solver|]. destruct (ok_found0 Hc s' Hs') as [H|[H|H]]; [left; by apply Hf|right; left; set_solver|by right; right].
Qed.

Lemma connect_step_ok e st : connect_ok st -> connect_ok (connect_step found e st).
Proof.
  intros Hok. destruct e as [s|random| | |i b].
  - destruct (where_ st) eqn:E; try (apply found_ok; congruence). cbn. by rewrite E.
  - by apply main_step_ok.
  - cbn. destruct (where_ st), (cancelled st); try done; by apply set_concurrency_ok.
  - cbn. destruct (where_ st) eqn:Ew; try done. destruct (posted _), (cancelled st); try done. by apply granted_ok.
  - cbn. destruct (where_ st); try done; by apply end_attempt_ok.
Qed.

Lemma connect_run_ok es : forall st, connect_ok st -> connect_ok (connect_run found es st).
Proof. induction es as [|e es IH]; intros st Hst; [done|]. by apply IH, connect_step_ok. Qed.

(** How [connect] comes to its end: it returns when all lookups have ended, and an exception leaves it only after an attempt has connected. *)
Definition ended_well (st : connecting) : Prop :=
  match where_ st with Returned _ => lookups st = [] | Threw => cancelled st = true | _ => True end.

Lemma ended_well_step e st : ended_well st -> ended_well (connect_step found e st).
Proof.
  intros Hw. destruct e as [s|random| | |i b]; cbn; [| |destruct (where_ st) eqn:E, (cancelled st) eqn:Ec; unfold ended_well in *; cbn; rewrite ?E, ?Ec in *; done| |].
  - destruct (where_ st) eqn:E; try done; case_bool_decide as Hs; try done; unfold ended_well in *; cbn; rewrite E in *; try done. rewrite Hw in Hs. by apply not_elem_of_nil in Hs.
  - unfold main_step. destruct (where_ st) as [| |c| |r|] eqn:E; try done.
    + destruct (cancelled st); [done|]. destruct (channel st); [|done]. by destruct (lookups st).
    + destruct (pick_candidate _ _) as [[c cs]|]; [|done]. destruct (cancelled (set_cands cs st)); [done|]. by destruct (await_lock _) as [[] s].
    + destruct (cancelled st) eqn:Ec; [|done]. unfold ended_well. by cbn.
    + destruct (attempts st) eqn:Ea; [|done]. destruct (lookups st) eqn:El; [|done]. unfold ended_well. by cbn.
  - destruct (where_ st) eqn:E; try done. destruct (posted _), (cancelled st) eqn:Ec; try done; unfold ended_well; cbn; by rewrite ?E.
  - destruct (where_ st) eqn:E; try done; unfold end_attempt; destruct (attempts st !! i); try done; destruct b; unfold ended_well in *; cbn; rewrite E in *; done.
Qed.

Lemma connect_ended_well es last_ep : ended_well (connect_run found es (start_connect targets last_ep)).
Proof.
  assert (ended_well (start_connect targets last_ep)) as H0 by by destruct targets. revert H0. generalize (start_connect targets last_ep). induction es as [|e es IH]; intros st Hst; [done|].
  by apply IH, ended_well_step.
Qed.

(** C16: whatever order the lookups, the locks and the attempts come in, [connect] tries each endpoint at most once and only those that the swarms it was asked for gave it. It returns only when all lookups and attempts have ended; a
    candidate that it returns is one that it tried and that connected, and it returns none only when each endpoint that the lookups found was tried without success. The other way for it to end is the exception that it does
    not catch, when an attempt connects while it waits for a lock: then a candidate that was tried has connected, and that connection is not returned (others may be untried). *)
Theorem connect_tries_all (last_ep : option endpoint) (es : list connect_event) :
  let st := connect_run found es (start_connect targets last_ep) in
  NoDup (c_endpoint <$> tried st) /\ (forall c, c ∈ tried st -> exists s, s ∈ targets /\ c ∈ found s) /\
  match where_ st with
  | Returned (Some c) => lookups st = [] /\ attempts st = [] /\ c ∈ tried st /\ c ∉ failed st
  | Returned None => lookups st = [] /\ attempts st = [] /\ tried st ≡ₚ failed st /\ forall s c, s ∈ targets -> c ∈ found s -> exists c', c_endpoint c' = c_endpoint c /\ c' ∈ failed st
  | Threw => exists c, result st = Some c /\ c ∈ tried st /\ c ∉ failed st
  | _ => True
  end.
Proof.
  intros st. pose proof (connect_run_ok es _ (start_ok last_ep)) as Hok. change (connect_ok st) in Hok. pose proof (connect_ended_well es last_ep) as Hend. change (ended_well st) in Hend.
  clearbody st. destruct Hok as []. rewrite fmap_app in ok_tried0. apply NoDup_app in ok_tried0 as (Hnd & _). split; [done|]. split.
  { intros c Hc. apply ok_from0. set_solver. }
  destruct ok_split0 as (l & Hl & Hres). unfold ended_well in Hend. assert (forall c, c ∈ l -> c ∈ tried st /\ c ∉ failed st) as Hconn.
  { intros c Hc. split; [rewrite Hl; set_solver|]. intros Hf. apply NoDup_fmap_1 in Hnd. rewrite Hl in Hnd. apply NoDup_app in Hnd as (_ & _ & Hnd). apply NoDup_app in Hnd as (_ & Hnd & _). by apply (Hnd c). }
  destruct (where_ st) as [| | | |r|] eqn:Ew; try done.
  - destruct (ok_returned0 r eq_refl) as [-> Ea]. rewrite Ea in Hl. cbn in Hl. destruct (result st) as [c|].
    + destruct Hres as [Hc _]. destruct (Hconn c Hc). done.
    + destruct Hres as [-> Hcan]. rewrite app_nil_r in Hl. split_and!; [done..|]. intros s c Hs Hc. pose proof (ok_empty0 Hcan eq_refl) as Hpool. destruct (ok_done0 Hcan eq_refl) as [Hch Hlo].
      destruct (ok_found0 Hcan s Hs) as [H|[H|H]]; [rewrite Hlo in H; by apply not_elem_of_nil in H|rewrite Hch in H; by apply not_elem_of_nil in H|].
      destruct (H c Hc) as [K|K]; [|rewrite Hpool in K; by apply not_elem_of_nil in K]. apply ok_used0 in K; [|done]. unfold pending in K. rewrite Ew, app_nil_r in K. apply list_elem_of_fmap in K as (c' & E & Hc'). exists c'. split; [done|]. by rewrite <- Hl.
  - destruct (result st) as [c|]; [|destruct Hres; congruence]. exists c. split; [done|]. apply Hconn. by destruct Hres.
Qed.

End ConnectOk.

(** ** The end of [connect] *)

Definition finished (p : phase) : bool := match p with Returned _ | Threw => true | _ => false end.

Definition phase_work (p : phase) : nat := match p with Receiving => 2 | Picking => 3 | Locking _ => 8 | Draining => 1 | Returned _ | Threw => O end.

(** Locks that were handed over to a waiting handler, which count for ever. *)
Definition leaked (s : Semaphore) : nat := (_lock_count s - held s - posted s)%nat.

Section ConnectEnds.
Context (found : SwarmType -> list Candidate) (targets : list SwarmType).

Definition lookup_work (l : list SwarmType) : nat := sum_list_with (fun s => 10 * length (found s) + 3)%nat l.
Definition batch_work (l : list (list Candidate)) : nat := sum_list_with (fun b : list Candidate => 10 * length b + 2)%nat l.

(** What is left to do: it bounds the number of events that change the state. *)
Definition work (st : connecting) : nat :=
  (lookup_work (lookups st) + batch_work (channel st) + 10 * length (pool (cands st)) + length (attempts st) + 2 * held (concurrency st) + posted (concurrency st) + phase_work (where_ st))%nat.

Lemma sum_without (f : SwarmType -> nat) s l : s ∈ l -> (sum_list_with f (List.filter (fun x => negb (bool_decide (x = s))) l) + f s <= sum_list_with f l)%nat.
Proof.
  assert (forall l, (sum_list_with f (List.filter (fun x => negb (bool_decide (x = s))) l) <= sum_list_with f l)%nat) as Hle.
  { clear. induction l as [|x l IH]; cbn; [done|]. destruct (negb _); cbn -[Nat.mul]; lia. }
  induction l as [|x l IH]; intros Hs; [by apply not_elem_of_nil in Hs|]. cbn. destruct (decide (x = s)) as [->|Hne].
  - rewrite bool_decide_eq_true_2 by done. cbn. specialize (Hle l). lia.
  - rewrite bool_decide_eq_false_2 by done. cbn. apply elem_of_cons in Hs as [->|Hs]; [done|]. specialize (IH Hs). lia.
Qed.

Lemma set_concurrency_same st : set_concurrency (concurrency st) st = st.
Proof. by destruct st. Qed.

Lemma await_lock_work s : (2 * held (snd (await_lock s)) + posted (snd (await_lock s)) <= 2 * held s + posted s + if fst (await_lock s) then 2 else 0)%nat.
Proof. unfold await_lock, create_lock. destruct (can_create_lock s); cbn -[Nat.mul]; lia. Qed.

Lemma main_work random st : cands_ok (cands st) ->
  main_step random st = st /\ (where_ st = Receiving /\ channel st = [] /\ lookups st <> [] /\ cancelled st = false \/ (exists c, where_ st = Locking c /\ cancelled st = false) \/
    where_ st = Draining /\ (attempts st <> [] \/ lookups st <> []) \/ finished (where_ st) = true) \/ (work (main_step random st) < work st)%nat.
Proof.
  intros Hcs. unfold main_step, work, lookup_work, batch_work. destruct (where_ st) as [| |c| | |] eqn:Ew; [| | | |left; split; [done|tauto]..].
  - destruct (cancelled st); [right; cbn -[Nat.mul]; lia|]. destruct (channel st) as [|b ch] eqn:Ec.
    + destruct (lookups st) eqn:El; [right; cbn -[Nat.mul]; rewrite El, Ec; cbn -[Nat.mul]; lia|left; split; [done|left; by split_and!]].
    + right. destruct (insert_all_candidates_ok b (cands st) Hcs) as (_ & _ & Hl & _). cbn -[foldl Nat.mul]. lia.
  - right. pose proof (pick_spec random (cands st) Hcs) as Hpick. destruct (pick_candidate random (cands st)) as [[c cs]|]; [|cbn -[Nat.mul]; lia]. destruct Hpick as (Hp & _). apply Permutation_length in Hp. cbn in Hp.
    cbn [cancelled set_cands]. destruct (cancelled st); [cbn -[Nat.mul]; lia|]. pose proof (await_lock_work (concurrency st)) as Ha. cbn [concurrency set_cands]. destruct (await_lock (concurrency st)) as [[] s]; cbn -[Nat.mul] in *; rewrite ?length_app; cbn -[Nat.mul]; lia.
  - destruct (cancelled st); [right; cbn -[Nat.mul]; lia|left; split; [done|right; left; by exists c]].
  - destruct (attempts st) eqn:Ea; [|left; split; [done|right; right; left; split; [done|by left]]].
    destruct (lookups st) eqn:El; [right; cbn -[Nat.mul]; rewrite Ea, El; cbn -[Nat.mul]; lia|left; split; [done|right; right; left; split; [done|by right]]].
Qed.

Lemma found_work s st : where_ st <> Picking -> s ∈ lookups st -> (work (connect_step found (Found s) st) < work st)%nat.
Proof.
  intros Hw Hs. assert (connect_step found (Found s) st = set_channel (List.filter (fun x => negb (bool_decide (x = s))) (lookups st)) (if cancelled st then channel st else channel st ++ [found s]) st) as ->.
  { cbn. rewrite bool_decide_eq_true_2 by done. by destruct (where_ st). }
  unfold work, lookup_work, batch_work. cbn -[Nat.mul]. pose proof (sum_without (fun s => 10 * length (found s) + 3)%nat s _ Hs) as H. cbn -[Nat.mul] in H.
  destruct (cancelled st); [lia|]. rewrite sum_list_with_app. cbn -[Nat.mul]. lia.
Qed.

Lemma timer_work st : where_ st <> Picking -> cancelled st = false -> held (concurrency st) <> O -> (work (connect_step found TimerFired st) < work st)%nat.
Proof.
  intros Hw Hc Hh. assert (connect_step found TimerFired st = set_concurrency (unlock (concurrency st)) st) as -> by (cbn; rewrite Hc; by destruct (where_ st)).
  unfold work, lookup_work, batch_work, unlock. cbn -[Nat.mul unlock]. destruct (held (concurrency st)) eqn:E; [done|]. destruct (_handlers (concurrency st)); cbn -[Nat.mul]; lia.
Qed.

Lemma granted_work c st : where_ st = Locking c -> cancelled st = false -> posted (concurrency st) <> O -> (work (connect_step found Granted st) < work st)%nat.
Proof. intros Hw Hc Hp. cbn. rewrite Hw, Hc. unfold work, lookup_work, batch_work, run_posted. destruct (posted (concurrency st)) eqn:E; [done|]. rewrite Hw. cbn -[Nat.mul]. rewrite length_app. cbn -[Nat.mul]. lia. Qed.

Lemma ended_work i b st : where_ st <> Picking -> (i < length (attempts st))%nat -> (work (connect_step found (Ended i b) st) < work st)%nat.
Proof.
  intros Hw Hi. assert (connect_step found (Ended i b) st = end_attempt i b st) as -> by (cbn; by destruct (where_ st)). unfold end_attempt. destruct (lookup_lt_is_Some_2 _ _ Hi) as [c Ec]. rewrite Ec.
  pose proof (length_delete (attempts st) i (mk_is_Some _ _ Ec)) as Hl. set (rest := delete i (attempts st)) in *. unfold work, lookup_work, batch_work. destruct b; cbn -[Nat.mul]; lia.
Qed.

Lemma event_work e st : cands_ok (cands st) -> connect_step found e st = st \/ (work (connect_step found e st) < work st)%nat.
Proof.
  intros Hcs. assert (where_ st = Picking /\ (forall r, e <> Main r) -> connect_step found e st = st) as Hidle by (intros [Hw Hr]; destruct e; [|by destruct (Hr random)|..]; cbn; by rewrite Hw).
  destruct e as [s|r| | |i b]; [|destruct (main_work r st Hcs) as [[H _]|H]; [by left|by right]|..];
    (assert (where_ st = Picking \/ where_ st <> Picking) as [Hw|Hw]; [destruct (where_ st); (by left) || (by right)|left; by apply Hidle|]).
  - destruct (decide (s ∈ lookups st)) as [Hs|Hs]; [right; by apply found_work|]. left. cbn. rewrite bool_decide_eq_false_2 by done. by destruct (where_ st).
  - destruct (cancelled st) eqn:Ec; [left; cbn; rewrite Ec; by destruct (where_ st)|]. destruct (held (concurrency st)) eqn:E; [|right; apply timer_work; [done..|by rewrite E]].
    left. cbn. rewrite Ec. unfold unlock. rewrite E, set_concurrency_same. by destruct (where_ st).
  - cbn. destruct (where_ st) eqn:Ew; try (by left). destruct (posted (concurrency st)) eqn:Ep; [by left|]. destruct (cancelled st) eqn:Ec; [by left|]. right.
    pose proof (granted_work c st Ew Ec) as H. cbn in H. rewrite Ew, Ep, Ec in H. by apply H.
  - destruct (decide (i < length (attempts st))%nat) as [Hi|Hi]; [right; by apply ended_work|]. left. cbn. unfold end_attempt. rewrite lookup_ge_None_2 by lia. by destruct (where_ st).
Qed.

(** As many candidates as the semaphore can serve, whatever it loses, or only one lookup. *)
Definition total : nat := sum_list_with (fun s => length (found s)) targets.

Definition in_sight (st : connecting) : nat :=
  (sum_list_with (fun s => length (found s)) (lookups st) + sum_list_with length (channel st) + length (pool (cands st)) + length (pending st) + length (tried st))%nat.

Definition nothing_to_come (st : connecting) : Prop := lookups st = [] /\ channel st = [].

Record locks_ok (st : connecting) : Prop := {
  locks_max : _max_lock_count (concurrency st) = 10%nat;
  locks_count : _lock_count (concurrency st) = (held (concurrency st) + posted (concurrency st) + leaked (concurrency st))%nat;
  locks_tried : (held (concurrency st) + posted (concurrency st) <= length (tried st))%nat;
  locks_leaked : leaked (concurrency st) = O \/ (leaked (concurrency st) + 10 <= length (tried st))%nat;
  locks_queue : match where_ st with
    | Locking _ => (_handlers (concurrency st) + posted (concurrency st) = 1 /\ 1 <= held (concurrency st) + posted (concurrency st) /\ leaked (concurrency st) + 10 <= length (tried st))%nat
    | _ => _handlers (concurrency st) = O /\ posted (concurrency st) = O
    end;
  locks_room : (total <= 20)%nat \/ (length (lookups st) + length (channel st) <= 1)%nat /\ match where_ st with
    | Receiving => leaked (concurrency st) = O \/ nothing_to_come st
    | Picking => nothing_to_come st /\ (leaked (concurrency st) = O \/ (1 <= held (concurrency st))%nat)
    | Locking _ => nothing_to_come st
    | _ => True
    end;
  locks_total : (in_sight st <= total)%nat;
}.

Lemma start_locks last_ep : (length targets <= 1 \/ total <= 20)%nat -> locks_ok (start_connect targets last_ep).
Proof.
  intros H. assert (all_picked (where_ (start_connect targets last_ep)) = true) as Hw by (cbn; by destruct targets). assert (pending (start_connect targets last_ep) = []) as Hp by (unfold pending; by destruct (where_ _)).
  split; try done; cbn [concurrency start_connect new_semaphore].
  - by left.
  - by destruct (where_ _).
  - destruct H as [H|H]; [right|by left]. split; [cbn; lia|]. destruct (where_ _); try done. by left.
  - unfold in_sight. rewrite Hp. unfold total. cbn. lia.
Qed.

Lemma batch_locks st batch ch : connect_ok found targets st -> locks_ok st -> where_ st = Receiving -> channel st = batch :: ch ->
  locks_ok (set_where Picking (set_cands (foldl try_insert (cands st) batch) (set_channel (lookups st) ch st))).
Proof.
  intros Hok [] Ew Ec. destruct (insert_all_candidates_ok batch (cands st) (ok_cands _ _ _ Hok)) as (_ & _ & Hl & _). rewrite Ew in *. split; try done.
  - cbn -[foldl]. destruct locks_room0 as [?|[H1 H2]]; [by left|right]. rewrite Ec in *. cbn in H1. assert (lookups st = [] /\ ch = []) as [El ->] by (split; apply length_zero_iff_nil; lia).
    split; [cbn; lia|]. split; [by split|]. left. destruct H2 as [?|[_ H2]]; [done|by rewrite Ec in H2].
  - unfold in_sight, pending in *. rewrite Ew, Ec in *. cbn -[foldl] in *. lia.
Qed.

Lemma picked_locks st c cs : connect_ok found targets st -> locks_ok st -> where_ st = Picking -> pool (cands st) ≡ₚ c :: pool cs ->
  match await_lock (concurrency st) with
  | (true, s) => locks_ok (spawn c (set_concurrency s (set_cands cs st)))
  | (false, s) => locks_ok (set_where (Locking c) (set_concurrency s (set_cands cs st)))
  end.
Proof.
  intros Hok [] Ew Ep%Permutation_length. rewrite Ew in *. destruct locks_queue0 as [Hh Hp]. cbn in Ep. unfold in_sight, pending in *. rewrite Ew in *. cbn in locks_total0.
  unfold await_lock, can_create_lock, create_lock. rewrite locks_max0. destruct (Nat.ltb_spec (_lock_count (concurrency st)) 10); split; unfold in_sight, leaked, nothing_to_come in *; cbn in *; rewrite ?length_app; cbn; try done; try lia.
  - destruct locks_room0 as [?|(H1 & H2 & H3)]; [by left|right]. split; [done|]. split; [done|]. lia.
  - destruct locks_room0 as [?|(H1 & H2 & H3)]; [by left|by right].
Qed.

Lemma idle_locks p st : locks_ok st -> all_picked p = true -> (where_ st = Picking \/ where_ st = Receiving \/ where_ st = Draining) -> (p = Receiving -> where_ st = Picking) -> locks_ok (set_where p st).
Proof.
  intros [] Hp Hw Hr. assert (pending (set_where p st) = []) as E by (by destruct p). assert (pending st = []) as E' by (unfold pending; by destruct Hw as [->|[->| ->]]).
  split; try done; cbn.
  - destruct p; try done; by destruct Hw as [Hw|[Hw|Hw]]; rewrite Hw in locks_queue0.
  - destruct locks_room0 as [?|(H1 & H2)]; [by left|right]. split; [done|]. destruct p; try done. rewrite Hr in H2 by done. right. apply H2.
  - unfold in_sight in *. rewrite E, E' in *. done.
Qed.

Lemma main_locks random st : connect_ok found targets st -> cancelled st = false -> locks_ok st -> locks_ok (main_step random st).
Proof.
  intros Hok Hc Hl. unfold main_step. destruct (where_ st) as [| |c| | |] eqn:Ew; try done; rewrite ?Hc.
  - destruct (channel st) as [|b ch] eqn:Ech; [|by apply batch_locks]. destruct (lookups st) eqn:El; [|done]. apply idle_locks; [done..|by right; left|done].
  - pose proof (pick_spec random (cands st) (ok_cands _ _ _ Hok)) as Hpick. destruct (pick_candidate random (cands st)) as [[c cs]|]; [|apply idle_locks; [done..|by left|done]].
    destruct Hpick as (H1 & _). cbn [cancelled set_cands concurrency]. rewrite Hc. pose proof (picked_locks st c cs Hok Hl Ew H1) as H. by destruct (await_lock _) as [[] s].
  - done.
  - destruct (attempts st) eqn:Ea; [|done]. destruct (lookups st) eqn:El; [|done]. apply idle_locks; [done..|by right; right|done].
Qed.

Lemma timer_locks st : locks_ok st -> where_ st <> Picking -> locks_ok (set_concurrency (unlock (concurrency st)) st).
Proof.
  intros Hl Hw. unfold unlock. destruct (held (concurrency st)) as [|h] eqn:Eh; [by rewrite set_concurrency_same|]. destruct Hl as []. rewrite Eh in *.
  destruct (_handlers (concurrency st)) as [|n] eqn:En; unfold in_sight, leaked, nothing_to_come in *; split; unfold leaked, nothing_to_come, in_sight; rewrite ?Eh; cbn; try done; try lia;
    destruct (where_ st) eqn:Ew; try done; try lia; destruct locks_room0 as [?|(H1 & H2)]; (by left) || (right; split; [done|]); try done; (destruct H2 as [H2|H2]; [left; lia|by right]).
Qed.

Lemma granted_locks c st : locks_ok st -> where_ st = Locking c -> posted (concurrency st) <> O -> locks_ok (spawn c (set_concurrency (run_posted (concurrency st)) st)).
Proof.
  intros [] Hw Hp. rewrite Hw in *. unfold run_posted, create_lock. destruct (posted (concurrency st)) as [|n] eqn:Ep; [done|]. unfold in_sight, pending, leaked, nothing_to_come in *. rewrite Hw in *. cbn in locks_total0.
  split; unfold leaked, in_sight, pending, nothing_to_come; cbn; rewrite ?length_app; cbn; try done; try lia.
  destruct locks_room0 as [?|(H1 & H2)]; [by left|right]. split; [done|]. split; [done|]. right. lia.
Qed.

Lemma found_locks s st : connect_ok found targets st -> locks_ok st -> cancelled st = false -> where_ st <> Picking -> locks_ok (connect_step found (Found s) st).
Proof.
  intros Hok Hl Hc Hw. assert (connect_step found (Found s) st = if bool_decide (s ∈ lookups st) then
      set_channel (List.filter (fun x => negb (bool_decide (x = s))) (lookups st)) (channel st ++ [found s]) st else st) as -> by (cbn; rewrite Hc; by destruct (where_ st)).
  case_bool_decide as Hs; [|done]. destruct Hl as []. pose proof (sum_without (fun _ => 1%nat) s _ Hs) as H1. pose proof (sum_without (fun s => length (found s)) s _ Hs) as H2.
  assert (forall l : list SwarmType, sum_list_with (fun _ => 1%nat) l = length l) as Hone by (induction l as [|x l IH]; [done|cbn; by rewrite IH]). rewrite !Hone in H1.
  split; try done; cbn.
  - destruct locks_room0 as [?|(K1 & K2)]; [by left|right]. rewrite length_app. cbn. split; [lia|]. revert K2 Hw. destruct (where_ st); intros K2 Hw; try done; [destruct K2 as [K2|[K2 _]]; [by left|]|destruct K2 as [K2 _]]; by rewrite K2 in Hs; apply not_elem_of_nil in Hs.
  - unfold in_sight in *. cbn in *. rewrite sum_list_with_app. change (pending (set_channel _ _ st)) with (pending st). cbn in *. lia.
Qed.

Lemma step_locks e st : connect_ok found targets st -> (cancelled st = false -> locks_ok st) -> cancelled (connect_step found e st) = false -> locks_ok (connect_step found e st).
Proof.
  intros Hok Hl Hc'. assert (cancelled st = false) as Hc.
  { destruct (cancelled st) eqn:Hc; [|done]. rewrite <- Hc', <- Hc. destruct e; cbn.
    - destruct (where_ st), (bool_decide (s ∈ lookups st)); cbn; congruence.
    - unfold main_step. destruct (where_ st); cbn; rewrite ?Hc; try done; [|by destruct (attempts st), (lookups st)]. destruct (pick_candidate _ _) as [[]|]; cbn; by rewrite ?Hc.
    - rewrite Hc. by destruct (where_ st).
    - rewrite Hc. destruct (where_ st); try done. by destruct (posted _).
    - unfold end_attempt. destruct (where_ st), (attempts st !! i), connected; cbn; congruence. }
  specialize (Hl Hc). assert (where_ st = Picking \/ where_ st <> Picking) as [Hw|Hw] by (destruct (where_ st); (by left) || (by right)).
  { destruct e; [|by apply main_locks|..]; cbn; by rewrite Hw. }
  destruct e.
  - by apply found_locks.
  - by apply main_locks.
  - cbn. rewrite Hc. replace (match where_ st with Picking => st | _ => set_concurrency (unlock (concurrency st)) st end) with (set_concurrency (unlock (concurrency st)) st) by (by destruct (where_ st)). by apply timer_locks.
  - cbn. destruct (where_ st) eqn:Ew; try done. destruct (posted (concurrency st)) eqn:Ep; [done|]. rewrite Hc. apply granted_locks; congruence.
  - cbn in *. replace (match where_ st with Picking => st | _ => end_attempt i connected st end) with (end_attempt i connected st) in * by (by destruct (where_ st)).
    unfold end_attempt in *. destruct (attempts st !! i); [|done]. destruct connected; [done|]. destruct Hl. by split.
Qed.

Lemma run_locks es : forall st, connect_ok found targets st -> (cancelled st = false -> locks_ok st) -> cancelled (connect_run found es st) = false -> locks_ok (connect_run found es st).
Proof. induction es as [|e es IH]; intros st Hok Hl; [done|]. apply IH; [by apply connect_step_ok|by apply step_locks]. Qed.

Lemma some_event st : connect_ok found targets st -> (cancelled st = false -> locks_ok st) -> finished (where_ st) = false -> exists e, (work (connect_step found e st) < work st)%nat.
Proof.
  intros Hok Hl Hf. destruct (main_work O st (ok_cands _ _ _ Hok)) as [[_ [H|[H|[H|H]]]]|H]; [..|by exists (Main O)].
  - destruct H as (Hw & _ & Hlo & _). destruct (lookups st) as [|s ls] eqn:El; [done|]. exists (Found s). apply found_work; [congruence|]. rewrite El. by left.
  - destruct H as (c & Hw & Hc). destruct (Hl Hc) as []. rewrite Hw in *. destruct (posted (concurrency st)) eqn:Ep.
    + exists TimerFired. apply timer_work; [congruence|done|lia].
    + exists Granted. apply (granted_work c); [done|done|]. by rewrite Ep.
  - destruct H as (Hw & [H|H]).
    + exists (Ended O false). apply ended_work; [congruence|]. destruct (attempts st); [done|cbn; lia].
    + destruct (lookups st) as [|s ls] eqn:El; [done|]. exists (Found s). apply found_work; [congruence|]. rewrite El. by left.
  - congruence.
Qed.

(** C17: when [connect] looks in one swarm only, or finds at most twenty candidates, it comes to an end: no event can leave it waiting, each one either changes nothing or takes from a finite amount of work, and until [connect] has ended there is one that does. *)
Theorem connect_ends (last_ep : option endpoint) (es : list connect_event) :
  (length targets <= 1 \/ total <= 20)%nat ->
  let st := connect_run found es (start_connect targets last_ep) in
  (forall e, connect_step found e st = st \/ (work (connect_step found e st) < work st)%nat) /\
  (finished (where_ st) = true \/ exists e, (work (connect_step found e st) < work st)%nat).
Proof.
  intros H st. assert (connect_ok found targets st) as Hok by apply connect_run_ok, start_ok. split; [intros e; apply event_work, Hok|].
  destruct (finished (where_ st)) eqn:Ef; [by left|right]. apply some_event; [done| |done]. intros Hc. apply run_locks; [apply start_ok| |done]. intros _. by apply start_locks.
Qed.

End ConnectEnds.

(** ** What can go wrong *)

Definition sample_candidate (type : SwarmType) (i : nat) : Candidate :=
  let ep := {| address := IPv4 (str "abcd"); port := Z.of_nat i |} in
  {| c_endpoint := ep; client := {| peer_endpoint := ep; connect_proxy := bool_decide (type = helper) |}; swarm_type := type |}.

(** Some helpers, and an injector. *)
Definition sample_found (n : nat) (s : SwarmType) : list Candidate :=
  match s with helper => sample_candidate helper <$> seq 1 n | injector_ => [sample_candidate injector_ 0] end.

(** The order in which an executor runs what is ready, when the injectors are found last and nobody answers. *)
Definition next_event (st : connecting) : connect_event :=
  match where_ st with
  | Locking _ => if (0 <? held (concurrency st))%nat then TimerFired else Granted
  | Receiving => match channel st, attempts st with
      | _ :: _, _ => Main O
      | [], c :: _ => if (0 <? held (concurrency st))%nat then TimerFired else Ended O false
      | [], [] => Found injector_
      end
  | _ => Main O
  end.

Fixpoint schedule (found : SwarmType -> list Candidate) (n : nat) (st : connecting) : list connect_event :=
  match n with
  | O => []
  | S n => let e := next_event st in e :: schedule found n (connect_step found e st)
  end.

(** Nothing is left that could give the lock. *)
Definition nothing_left (st : connecting) : bool :=
  match where_ st with Locking _ => true | _ => false end && negb (cancelled st) && (held (concurrency st) =? 0)%nat && (posted (concurrency st) =? 0)%nat && (length (attempts st) =? 0)%nat.

Lemma waits_for_ever found es : forall st, nothing_left st = true -> nothing_left (connect_run found es st) = true.
Proof.
  induction es as [|e es IH]; intros st H; [done|]. apply IH. unfold nothing_left in *. rewrite !andb_true_iff, !Nat.eqb_eq, negb_true_iff in H. destruct H as ((((Hw & Hc) & Hh) & Hp) & Ha).
  destruct (where_ st) as [| |c| | |] eqn:Ew; try done. destruct (attempts st) eqn:Ea; [|done]. destruct e; cbn; rewrite ?Ew, ?Hc, ?Hp.
  - case_bool_decide; cbn; by rewrite ?Ew, ?Hc, ?Hh, ?Hp, ?Ea.
  - unfold main_step. by rewrite ?Ew, ?Hc, ?Ew, ?Hc, ?Hh, ?Hp, ?Ea.
  - unfold unlock. rewrite Hh. cbn. by rewrite ?Ew, ?Hc, ?Hh, ?Hp, ?Ea.
  - by rewrite ?Ew, ?Hc, ?Hh, ?Hp, ?Ea.
  - unfold end_attempt. rewrite Ea, lookup_nil. by rewrite ?Ew, ?Hc, ?Hh, ?Hp, ?Ea.
Qed.

(** The run that leaves [connect] waiting: fifty-six helpers that do not answer, then an injector. *)
Definition hanging_run : list connect_event := Found helper :: schedule (sample_found 56) 300 (connect_step (sample_found 56) (Found helper) (start_connect [injector_; helper] None)).

(** [connect] can wait for ever: after fifty-six helpers none of which answers the semaphore has lost its ten locks, and the injector that is found then is never tried, whatever happens next. *)
Theorem connect_can_hang :
  let st := connect_run (sample_found 56) hanging_run (start_connect [injector_; helper] None) in
  length (tried st) = 56%nat /\ length (failed st) = 56%nat /\
  forall es, where_ (connect_run (sample_found 56) es st) = Locking (sample_candidate injector_ 0).
Proof.
  set (st := connect_run _ _ _). assert (length (tried st) = 56%nat /\ length (failed st) = 56%nat /\ where_ st = Locking (sample_candidate injector_ 0) /\ nothing_left st = true) as (H1 & H2 & Hw & Hn) by (vm_compute; done).
  split_and!; [done..|]. clearbody st. clear H1 H2. intros es. revert st Hw Hn. induction es as [|e es IH]; intros st Hw Hn; [done|]. apply IH; [|by apply (waits_for_ever _ [e])].
  pose proof (waits_for_ever (sample_found 56) [e] st Hn) as Hn'. cbn [connect_run foldl] in Hn'. unfold nothing_left in Hn. rewrite !andb_true_iff, !Nat.eqb_eq, negb_true_iff in Hn. destruct Hn as ((((_ & Hc) & Hh) & Hp) & Ha).
  destruct e; cbn; rewrite ?Hw, ?Hc, ?Hp; try done; [by destruct (bool_decide _)|unfold main_step; by rewrite Hw, Hc|]. unfold end_attempt. destruct (attempts st); [|done]. by rewrite lookup_nil.
Qed.

(** A connection that comes while [connect] waits for a lock is lost: the exception that leaves [connect] is not the one that it catches. *)
Definition throwing_run : list connect_event := Found helper :: schedule (sample_found 11) 12 (connect_step (sample_found 11) (Found helper) (start_connect [helper] None)) ++ [Ended O true; Main O].

Lemma connect_can_throw : let st := connect_run (sample_found 11) throwing_run (start_connect [helper] None) in
  where_ st = Threw /\ result st = Some (sample_candidate helper 1) /\ length (attempts st) = 9%nat.
Proof. by vm_compute. Qed.

(** The attempts are not cancelled by the first connection; the last one to connect is returned. *)
Lemma last_connection_wins : let run := [Found helper; Main O; Main O; Main O; Main O; Ended O true; Ended O true; Main O; Main O] in
  let st := connect_run (sample_found 2) run (start_connect [helper] None) in
  where_ st = Returned (Some (sample_candidate helper 2)) /\ failed st = [] /\ tried st = [sample_candidate helper 1; sample_candidate helper 2].
Proof. by vm_compute. Qed.

(** A connection to the only helper, for which the condition of [connect_ends] holds. *)
Lemma connect_ends_witness :
  let st := connect_run (sample_found 30) [Found helper; Main O] (start_connect [helper] None) in
  (length [helper] <= 1)%nat /\ where_ st = Picking /\ exists e, (work (sample_found 30) (connect_step (sample_found 30) e st) < work (sample_found 30) st)%nat.
Proof.
  intros st. split; [cbn; lia|]. split; [by vm_compute|]. assert (length [helper] <= 1 \/ total (sample_found 30) [helper] <= 20)%nat as H by (left; cbn; lia).
  destruct (proj2 (connect_ends (sample_found 30) [helper] None [Found helper; Main O] H)) as [K|K]; [by vm_compute in K|exact K].
Defined.

(** ** The peers of a swarm *)

(** A turn of the loop: what the network is at that time, and what the lookup finds. *)
Record turn := { t_net : network; t_now : Z; t_found : option (list endpoint) }.

Section SwarmOk.
Context (capacity : nat) (proxy : bool).

Definition swarm_run (ts : list turn) (s : Swarm) : Swarm := foldl (fun s t => snd (swarm_turn capacity proxy (t_net t) (t_now t) (t_found t) s)) s ts.

(** The peer was found by one of the lookups, and could be used then. *)
Definition found_in (ts : list turn) (ep : endpoint) (p : Peer) : Prop :=
  exists t eps, t ∈ ts /\ t_found t = Some eps /\ ep ∈ eps /\ is_peer_allowed (t_net t) ep = true /\ is_self (t_net t) ep = false /\ make_peer (t_net t) proxy ep = Some p.

Lemma elem_touch {V} (k : endpoint) (l : list (endpoint * V)) x : x ∈ spec_touch k l <-> x ∈ l.
Proof.
  unfold spec_touch. rewrite elem_of_app, elem_without, list_elem_of_In, filter_In, <- list_elem_of_In, bool_decide_eq_true. destruct (decide (fst x = k)); tauto.
Qed.

Lemma elem_spec_put {V} m (k : endpoint) (v : V) l x : x ∈ spec_put m k v l -> x = (k, v) \/ x ∈ l.
Proof. unfold spec_put. intros Hx%elem_of_take. destruct Hx as (i & Hx & _). apply list_elem_of_lookup_2 in Hx. apply elem_of_cons in Hx as [?|[? _]%elem_without]; [by left|by right]. Qed.

Lemma length_touch {V} (k : endpoint) (l : list (endpoint * V)) : length (spec_touch k l) = length l.
Proof.
  unfold spec_touch, without. rewrite length_app. induction l as [|x l IH]; [done|]. cbn. destruct (bool_decide _); cbn; lia.
Qed.

Lemma add_peer_ok net peers ep : lru_ok peers -> (length (entries peers) <= capacity)%nat ->
  lru_ok (add_peer capacity proxy net peers ep) /\ (length (entries (add_peer capacity proxy net peers ep)) <= capacity)%nat /\
  (entries peers <> [] -> (0 < capacity)%nat -> entries (add_peer capacity proxy net peers ep) <> []) /\
  (forall k p, (k, p) ∈ entries (add_peer capacity proxy net peers ep) -> (k, p) ∈ entries peers \/ k = ep /\ is_peer_allowed net ep = true /\ is_self net ep = false /\ make_peer net proxy ep = Some p).
Proof.
  intros Hok Hl. unfold add_peer. destruct (is_peer_allowed net ep); cbn [negb]; [|split_and!; auto]. destruct (is_self net ep); [split_and!; auto|].
  destruct (get_refines ep peers Hok) as (G1 & G2 & _). destruct (get ep peers) as [peers' o]. cbn [fst] in *. assert ((length (entries peers') <= capacity)%nat) as Hl' by (by rewrite G2, length_touch).
  assert (entries peers <> [] -> entries peers' <> []) as Hne. { intros Hn E. apply Hn. apply length_zero_iff_nil. by rewrite <- (length_touch ep), <- G2, E. }
  assert (forall k p, (k, p) ∈ entries peers' -> (k, p) ∈ entries peers) as Hin by (intros k p; by rewrite G2, elem_touch).
  destruct o; [split_and!; auto|]. destruct (make_peer net proxy ep) as [p|]; [|split_and!; auto]. destruct (put_refines capacity ep p peers' G1 Hl') as (P1 & P2 & _). split_and!.
  - done.
  - rewrite P2. unfold spec_put. rewrite length_take. lia.
  - intros _ Hc. rewrite P2. unfold spec_put. destruct capacity; [lia|done].
  - intros k q. rewrite P2. intros [[= -> ->]|H]%elem_spec_put; [by right|left; by apply Hin].
Qed.

Lemma add_peers_ok net eps : forall peers, lru_ok peers -> (length (entries peers) <= capacity)%nat ->
  lru_ok (add_peers capacity proxy net eps peers) /\ (length (entries (add_peers capacity proxy net eps peers)) <= capacity)%nat /\
  (entries peers <> [] -> (0 < capacity)%nat -> entries (add_peers capacity proxy net eps peers) <> []) /\
  (forall k p, (k, p) ∈ entries (add_peers capacity proxy net eps peers) -> (k, p) ∈ entries peers \/ k ∈ eps /\ is_peer_allowed net k = true /\ is_self net k = false /\ make_peer net proxy k = Some p).
Proof.
  induction eps as [|ep eps IH]; intros peers Hok Hl; [split_and!; try done; by left|]. destruct (add_peer_ok net peers ep Hok Hl) as (H1 & H2 & H3 & H4). destruct (IH _ H1 H2) as (K1 & K2 & K3 & K4). cbn [add_peers foldl].
  split_and!; [done|done|auto|]. intros k p Hk. apply K4 in Hk as [Hk|(Hk & ?)]; [|right; split; [by right|done]]. apply H4 in Hk as [Hk|(-> & ?)]; [by left|right; split; [by left|done]].
Qed.

Record swarm_ok (ts : list turn) (s : Swarm) : Prop := {
  swarm_lru : lru_ok (_peers s);
  swarm_bounded : (length (entries (_peers s)) <= capacity)%nat;
  swarm_found : forall k p, (k, p) ∈ entries (_peers s) -> found_in ts k p;
  swarm_ready : _last_success_time s <> None -> (0 < capacity)%nat -> entries (_peers s) <> [];
}.

Lemma turn_ok ts t s : swarm_ok ts s -> swarm_ok (ts ++ [t]) (snd (swarm_turn capacity proxy (t_net t) (t_now t) (t_found t) s)).
Proof.
  intros []. assert (forall k p, found_in ts k p -> found_in (ts ++ [t]) k p) as Hmono. { intros k p (t' & eps & Ht & H). exists t', eps. split; [set_solver|done]. }
  unfold swarm_turn. destruct (t_found t) as [[|ep eps]|] eqn:Ef; [by split; auto| |by split; auto]. destruct (add_peers_ok (t_net t) (ep :: eps) (_peers s) swarm_lru0 swarm_bounded0) as (H1 & H2 & H3 & H4).
  set (peers := add_peers _ _ _ _ _) in *. assert (forall k p, (k, p) ∈ entries peers -> found_in (ts ++ [t]) k p) as Hf.
  { intros k p Hk. apply H4 in Hk as [Hk|(Hk & Ha & Hs & Hm)]; [by apply Hmono, swarm_found0|]. exists t, (ep :: eps). split_and!; [set_solver|done..]. }
  unfold size_. rewrite (lru_size _ H1). destruct (Nat.eqb_spec (length (entries peers)) 0) as [E|E]; split; cbn; auto.
  intros _ _ E'. apply E. by apply length_zero_iff_nil.
Qed.

Lemma fresh_swarm_ok : swarm_ok [] new_swarm.
Proof. split; cbn; [apply new_lru_ok|lia|intros ? ? []%not_elem_of_nil|done]. Qed.

(** C18: whatever the lookups of a swarm find, in whatever order, its peers are at most as many as its capacity, have distinct endpoints, and each was found by some lookup at a time when it was allowed, was not this client itself and could be reached from
    one of its sockets; once the swarm has been ready it has a peer for ever, so that who waits for it to be ready gets a candidate. *)
Theorem swarm_keeps_usable_peers (ts : list turn) :
  let s := swarm_run ts new_swarm in
  (length (entries (_peers s)) <= capacity)%nat /\ NoDup (fst <$> entries (_peers s)) /\
  (forall ep p, (ep, p) ∈ entries (_peers s) -> found_in ts ep p /\ peer_endpoint p = ep /\ connect_proxy p = proxy) /\
  (forall now type, (0 < capacity)%nat -> is_ready now s = true -> candidates type s <> []).
Proof.
  intros s. assert (forall ts ts0 s0, swarm_ok ts0 s0 -> swarm_ok (ts0 ++ ts) (swarm_run ts s0)) as Hrun.
  { clear. induction ts as [|t ts IH]; intros ts0 s0 H; [by rewrite app_nil_r|]. rewrite cons_middle, app_assoc. apply (IH (ts0 ++ [t])). by apply turn_ok. }
  destruct (Hrun ts [] new_swarm fresh_swarm_ok) as [H1 H2 H3 H4]. fold s in H1, H2, H3, H4. split_and!; [done|apply H1| |].
  - intros ep p Hp. split; [by apply H3|]. destruct (H3 ep p Hp) as (t & eps & _ & _ & _ & _ & _ & Hm). unfold make_peer in Hm. destruct (choose_multiplexer_for _ _); [|done]. destruct (verify_remote_endpoint _ _); [|done]. by injection Hm as <-.
  - intros now type Hc Hr. unfold is_ready in Hr. unfold candidates. destruct (_last_success_time s); [|done]. intros E. apply fmap_nil_inv in E. by apply H4.
Qed.

End SwarmOk.

(** ** Pinging injectors, to announce this client as a helper *)

Definition injector_ping_period : Z := 600.

Section Pinger.
(** The shuffle of the random generator, and whether a peer answers within the timeout. *)
Variable shuffle : list Peer -> list Peer.
Variable enabled : bool.

Definition select_injectors_to_ping (s : Swarm) : list Peer := take injectors_to_ping (shuffle (snd <$> entries (_peers s))).
Definition ping_injectors (answers : Peer -> bool) (injectors : list Peer) : bool := existsb answers injectors.

(** How long the pinger sleeps first. *)
Definition ping_pause (last_ping_time : option Z) (now : Z) : Z :=
  match last_ping_time with
  | None => 0
  | Some t => if now - t <? injector_ping_period then t + injector_ping_period - now else 0
  end.

(** What a turn of the loop sees: whether [connect] saw an injector while it slept, if it did sleep, the swarm when it woke, which injectors answer, and how long the pings took. *)
Record ping_turn := { p_seen : bool; p_swarm : Swarm; p_answers : Peer -> bool; p_took : Z }.

(** A turn that begins at some time: whether this client is announced as a helper, which injectors were pinged, and when the turn ends. *)
Definition pinger_turn (last_ping_time : option Z) (now : Z) (t : ping_turn) : bool * list Peer * Z :=
  let woke := now + ping_pause last_ping_time now in
  if p_seen t && (0 <? ping_pause last_ping_time now) then (enabled, [], woke)
  else
    let injectors := select_injectors_to_ping (p_swarm t) in
    (ping_injectors (p_answers t) injectors && enabled, injectors, woke + p_took t).

(** The turns, each with the time it ended at. *)
Fixpoint pinger_run (last_ping_time : option Z) (now : Z) (ts : list ping_turn) : list (bool * list Peer * Z) :=
  match ts with
  | [] => []
  | t :: ts => let r := pinger_turn last_ping_time now t in r :: pinger_run (Some (snd r)) (snd r) ts
  end.

(** The times at which the turns end are a period apart. *)
Lemma pinger_period ts : Forall (fun t => 0 <= p_took t) ts -> forall last now, (forall t, last = Some t -> t <= now) ->
  forall i j x y, (i < j)%nat -> pinger_run last now ts !! i = Some x -> pinger_run last now ts !! j = Some y -> snd x + injector_ping_period <= snd y.
Proof.
  assert (forall ts last now t0, last = Some t0 -> t0 <= now -> Forall (fun t => 0 <= p_took t) ts -> forall j y, pinger_run last now ts !! j = Some y -> t0 + injector_ping_period <= snd y) as Hnext.
  { clear ts. induction ts as [|t ts IH]; intros last now t0 El Hn Ht j y Hj; [done|]. apply Forall_cons in Ht as [Ht Hts]. assert (t0 + injector_ping_period <= snd (pinger_turn last now t)) as H1.
    { unfold pinger_turn, ping_pause. rewrite El. unfold injector_ping_period in *. destruct (Z.ltb_spec (now - t0) 600), (p_seen t && _); cbn [snd]; lia. }
    destruct j; cbn in Hj; [by injection Hj as <-|]. unfold injector_ping_period in *. specialize (IH _ _ _ eq_refl (Z.le_refl _) Hts j y Hj). lia. }
  induction ts as [|t ts IH]; intros Ht last now Hl i j x y Hij Hx Hy; [done|]. apply Forall_cons in Ht as [Ht Hts]. destruct j as [|j]; [lia|]. cbn in Hy. destruct i as [|i]; cbn in Hx.
  - injection Hx as <-. by apply (Hnext ts _ _ _ eq_refl (Z.le_refl _) Hts j).
  - apply (IH Hts (Some (snd (pinger_turn last now t))) (snd (pinger_turn last now t))) with (i := i) (j := j); [|lia|done|done]. intros t' [= <-]. lia.
Qed.

(** however the pings go, this client is announced as a helper only when that is enabled and [connect] saw an injector in that turn, or one of at most thirty peers of the injector swarm that were pinged answered; the turns end at least
    a period apart, so nobody is pinged more often. *)
Theorem helper_only_near_injectors (now : Z) (ts : list ping_turn) :
  (forall l, shuffle l ≡ₚ l) -> Forall (fun t => 0 <= p_took t) ts ->
  let run := pinger_run None now ts in
  (forall i t announce pinged ended, ts !! i = Some t -> run !! i = Some (announce, pinged, ended) ->
     (announce = true -> enabled = true /\ (p_seen t = true \/ exists p, p ∈ pinged /\ p_answers t p = true)) /\
     (length pinged <= 30)%nat /\ (forall p, p ∈ pinged -> exists ep, (ep, p) ∈ entries (_peers (p_swarm t)))) /\
  (forall i j x y, (i < j)%nat -> run !! i = Some x -> run !! j = Some y -> snd x + injector_ping_period <= snd y).
Proof.
  intros Hsh Ht run. split; [|by apply pinger_period]. assert (forall ts last now i t x, ts !! i = Some t -> pinger_run last now ts !! i = Some x -> exists last now, x = pinger_turn last now t) as Hturn.
  { clear. induction ts as [|t' ts IH]; intros last now i t x Hi Hx; [done|]. destruct i; cbn in *; [|by eapply IH]. injection Hi as ->. injection Hx as <-. by exists last, now. }
  intros i t announce pinged ended Hi Hx. destruct (Hturn _ _ _ _ _ _ Hi Hx) as (last & now' & E). unfold pinger_turn in E. destruct (p_seen t && _) eqn:Es; injection E as -> -> ->.
  - split_and!; [intros ->; apply andb_true_iff in Es as [Es _]; by split; [|left]|cbn; lia|intros p []%not_elem_of_nil].
  - split_and!.
    + intros [Hp He]%andb_true_iff. split; [done|right]. unfold ping_injectors in Hp. apply existsb_exists in Hp as (p & Hp & Ha). exists p. by rewrite list_elem_of_In.
    + unfold select_injectors_to_ping, injectors_to_ping. rewrite length_take. lia.
    + intros p (j & Hp & _)%elem_of_take. apply list_elem_of_lookup_2 in Hp. rewrite Hsh in Hp. apply list_elem_of_fmap in Hp as ([ep p'] & -> & Hp). by exists ep.
Qed.

End Pinger.

(** ** Examples *)

Definition sample_net : network :=
  {| wan_endpoints := [c_endpoint (sample_candidate injector_ 1)]; local_endpoints := [c_endpoint (sample_candidate injector_ 2)]; is_peer_allowed := fun e => negb (port e =? 3); verify_remote_endpoint := fun _ => true |}.

Definition sample_turns : list turn :=
  [{| t_net := sample_net; t_now := 0; t_found := None |}; {| t_net := sample_net; t_now := 1; t_found := Some (c_endpoint <$> (sample_candidate injector_ <$> [1; 3]%nat)) |};
   {| t_net := sample_net; t_now := 1; t_found := Some (c_endpoint <$> (sample_candidate injector_ <$> seq 1 6)) |}; {| t_net := sample_net; t_now := 61; t_found := Some (c_endpoint <$> (sample_candidate injector_ <$> [4; 7]%nat)) |}].

Definition sample_swarm (n : nat) : Swarm := swarm_run 3 false (take n sample_turns) new_swarm.

(** Of the endpoints that were found this client itself and the one that is not allowed are left out, and the oldest gives way. *)
Lemma swarm_keeps_usable_peers_witness :
  (port <$> (fst <$> entries (_peers (sample_swarm 3))) = [6; 5; 4]) /\ (port <$> (fst <$> entries (_peers (sample_swarm 4))) = [7; 4; 6]) /\
  is_ready 300 (sample_swarm 4) = true /\ candidates injector_ (sample_swarm 4) <> [].
Proof.
  split; [by vm_compute|]. split; [by vm_compute|]. split; [by vm_compute|].
  exact (proj2 (proj2 (proj2 (swarm_keeps_usable_peers 3 false (take 4 sample_turns)))) 300 injector_ ltac:(lia) ltac:(vm_compute; reflexivity)).
Defined.

(** When all peers that were found are refused the loop looks again at once. *)
Lemma refused_peers_spin : fst (swarm_turn 3 false sample_net 1 (t_found {| t_net := sample_net; t_now := 1; t_found := Some (c_endpoint <$> (sample_candidate injector_ <$> [1; 3]%nat)) |}) new_swarm) = 0.
Proof. by vm_compute. Qed.

Definition sample_ping_turns : list ping_turn :=
  [{| p_seen := true; p_swarm := sample_swarm 4; p_answers := fun _ => false; p_took := 10 |}; {| p_seen := true; p_swarm := sample_swarm 4; p_answers := fun _ => false; p_took := 10 |};
   {| p_seen := false; p_swarm := sample_swarm 4; p_answers := fun p => port (peer_endpoint p) =? 4; p_took := 1 |}].

(** No injector answers at first; one was seen in the second turn, one answers in the third. *)
Lemma helper_only_near_injectors_witness :
  let run := pinger_run (fun l => l) true None 5 sample_ping_turns in
  (fun x => (fst (fst x), snd x)) <$> run = [(false, 15); (true, 615); (true, 1216)] /\
  exists x y, run !! 0%nat = Some x /\ run !! 2%nat = Some y /\ snd x + injector_ping_period <= snd y.
Proof.
  intros run. split; [by vm_compute|]. assert (forall l : list Peer, (fun l => l) l ≡ₚ l) as Hs by done. assert (Forall (fun t => 0 <= p_took t) sample_ping_turns) as Ht by (repeat constructor; cbn; lia).
  eexists _, _. split; [reflexivity|]. split; [reflexivity|]. exact (proj2 (helper_only_near_injectors (fun l => l) true 5 sample_ping_turns Hs Ht) 0%nat 2%nat _ _ ltac:(lia) eq_refl eq_refl).
Defined.
