(* ===== verification/CryptoStream.v ===== *)
(** * Encrypted streams between peers: src/util/crypto_stream.h

    Each direction of the stream starts with an initialisation vector; what follows is encrypted in counter mode.  AES-256-CTR is a parameter: a stream of key bytes for a key and a vector, with which
    the data is combined byte by byte.  The outcome of each operation on the inner stream is an argument. *)
From S2P Require Import Prelude.

Definition xor_byte (a b : byte) : byte := byte_of (Z.lxor (code a) (code b)).

Section Stream.
(** The key stream of [EVP_aes_256_ctr] for a key and a vector. *)
Variable keystream : list byte -> list byte -> nat -> byte.

(** [EVP_EncryptUpdate] and [EVP_DecryptUpdate] of a context that has processed [pos] bytes. *)
Definition ctr_update (key iv : list byte) (pos : nat) (data : list byte) : list byte := imap (fun i c => xor_byte c (keystream key iv (pos + i))) data.

(** [Shared]; the contexts are the number of bytes that they have processed. *)
Record Shared := { key : list byte; encrypt_iv : option (list byte); encrypt_ctx : nat; decrypt_iv : option (list byte); decrypt_ctx : nat }.

Definition new_stream (k : list byte) : Shared := {| key := k; encrypt_iv := None; encrypt_ctx := O; decrypt_iv := None; decrypt_ctx := O |}.

Definition buffer_size : nat := 4096.

(** The loop over the buffers. *)
Fixpoint fill (size : nat) (bufs : list (list byte)) : list byte :=
  match bufs with
  | [] => []
  | b :: bufs =>
      let taken := take size b in
      if (length taken =? size)%nat then taken else taken ++ fill (size - length taken) bufs
  end.

(** What [async_write] on the inner stream sends: all, or some bytes before an error. *)
Definition sent (outcome : option nat) (data : list byte) : list byte := match outcome with None => data | Some n => take n data end.

Variant transferred := Transferred (n : nat) | Failed_ (n : nat).

(** [async_write_some]: the state, what goes to the inner stream, and the result.  The error of writing the vector is not looked at. *)
Definition async_write_some (random : option (list byte)) (write_iv write_data : option nat) (bufs : list (list byte)) (s : Shared) : Shared * list byte * transferred :=
  let encrypt iv sent_iv :=
    let data := fill (Nat.min buffer_size (length (concat bufs))) bufs in
    ({| key := key s; encrypt_iv := Some iv; encrypt_ctx := encrypt_ctx s + length data; decrypt_iv := decrypt_iv s; decrypt_ctx := decrypt_ctx s |},
     sent_iv ++ sent write_data (ctr_update (key s) iv (encrypt_ctx s) data),
     match write_data with None => Transferred (length data) | Some n => Failed_ (Nat.min n (length data)) end) in
  match encrypt_iv s with
  | Some iv => encrypt iv []
  | None =>
      match random with
      | None => (s, [], Failed_ O)
      | Some iv => encrypt iv (sent write_iv iv)
      end
  end.

(** [asio::async_write]: the rest is written until there is none; it stops with an error. *)
Fixpoint async_write (fuel : nat) (random : option (list byte)) (write_iv write_data : option nat) (data : list byte) (s : Shared) : Shared * list byte * bool :=
  match fuel with
  | O => (s, [], false)
  | S fuel =>
      match async_write_some random write_iv write_data [data] s with
      | (s, out, Failed_ _) => (s, out, false)
      | (s, out, Transferred n) =>
          match drop n data with
          | [] => (s, out, true)
          | rest => let '(s, out', ok) := async_write fuel random write_iv write_data rest s in (s, out ++ out', ok)
          end
      end
  end.

(** The loop over the buffers to read into. *)
Fixpoint scatter (sizes : list nat) (data : list byte) : list (list byte) :=
  match sizes with
  | [] => []
  | n :: sizes => take n data :: scatter sizes (drop n data)
  end.

(** [async_read_some]: the inner stream has [incoming] still to give and gives at most [n] bytes of it at a time; the result is what the buffers hold, or nothing at its end. *)
Definition async_read_some (sizes : list nat) (n : nat) (incoming : list byte) (s : Shared) : Shared * list byte * option (list (list byte)) :=
  let receive iv incoming :=
    let max := Nat.min buffer_size (sum_list sizes) in
    match incoming with
    | [] => ({| key := key s; encrypt_iv := encrypt_iv s; encrypt_ctx := encrypt_ctx s; decrypt_iv := Some iv; decrypt_ctx := decrypt_ctx s |}, [], None)
    | _ =>
        let got := take (Nat.min (S n) max) incoming in
        ({| key := key s; encrypt_iv := encrypt_iv s; encrypt_ctx := encrypt_ctx s; decrypt_iv := Some iv; decrypt_ctx := decrypt_ctx s + length got |},
         drop (length got) incoming, Some (scatter sizes (ctr_update (key s) iv (decrypt_ctx s) got)))
    end in
  match decrypt_iv s with
  | Some iv => receive iv incoming
  | None =>
      if (length incoming <? 16)%nat then
        ({| key := key s; encrypt_iv := encrypt_iv s; encrypt_ctx := encrypt_ctx s; decrypt_iv := Some (incoming ++ replicate (16 - length incoming) Byte.x00); decrypt_ctx := decrypt_ctx s |}, [], None)
      else receive (take 16 incoming) (drop 16 incoming)
  end.

(** Some writes, all of which succeed, and some reads, up to the end of the stream. *)
Fixpoint write_all (iv : list byte) (ds : list (list byte)) (s : Shared) : Shared * list byte :=
  match ds with
  | [] => (s, [])
  | d :: ds =>
      let '(s, out, _) := async_write (S (length d)) (Some iv) None None d s in
      let '(s, out') := write_all iv ds s in (s, out ++ out')
  end.

Fixpoint read_all (reads : list (list nat * nat)) (incoming : list byte) (s : Shared) : list byte * list byte :=
  match reads with
  | [] => ([], incoming)
  | (sizes, n) :: reads =>
      match async_read_some sizes n incoming s with
      | (_, incoming, None) => ([], incoming)
      | (s, incoming, Some bufs) => let '(data, rest) := read_all reads incoming s in (concat bufs ++ data, rest)
      end
  end.

(** ** Properties *)

Lemma lxor_byte a b : 0 <= Z.lxor (code a) (code b) < 256.
Proof.
  pose proof (code_range a) as Ha. pose proof (code_range b) as Hb. assert (0 <= Z.lxor (code a) (code b)) as Hp by (apply Z.lxor_nonneg; lia). split; [done|].
  destruct (decide (Z.lxor (code a) (code b) < 256)); [done|]. exfalso. assert (8 <= Z.log2 (Z.lxor (code a) (code b))) as H8 by (change 8 with (Z.log2 256); apply Z.log2_le_mono; lia).
  pose proof (Z.log2_lxor (code a) (code b) ltac:(lia) ltac:(lia)) as Hl. assert (forall z, 0 <= z < 256 -> Z.log2 z <= 7) as H7. { intros z Hz. change 7 with (Z.log2 255). apply Z.log2_le_mono. lia. }
  pose proof (H7 _ Ha). pose proof (H7 _ Hb). lia.
Qed.

Lemma xor_byte_twice a b : xor_byte (xor_byte a b) b = a.
Proof. unfold xor_byte. rewrite code_byte_of_small by apply lxor_byte. rewrite Z.lxor_assoc, Z.lxor_nilpotent, Z.lxor_0_r. apply byte_of_code. Qed.

Lemma ctr_update_length k iv pos d : length (ctr_update k iv pos d) = length d.
Proof. apply length_imap. Qed.

Lemma ctr_update_app k iv pos d1 d2 : ctr_update k iv pos (d1 ++ d2) = ctr_update k iv pos d1 ++ ctr_update k iv (pos + length d1) d2.
Proof. unfold ctr_update. rewrite imap_app. f_equal. apply imap_ext. intros i x _. cbn. do 2 f_equal. lia. Qed.

Lemma ctr_update_twice k iv pos d : ctr_update k iv pos (ctr_update k iv pos d) = d.
Proof.
  apply list_eq. intros i. unfold ctr_update. rewrite !list_lookup_imap. destruct (d !! i); [|done]. cbn. by rewrite xor_byte_twice.
Qed.

Lemma ctr_update_take k iv pos d n : take n (ctr_update k iv pos d) = ctr_update k iv pos (take n d).
Proof.
  destruct (Nat.le_ge_cases n (length d)) as [H|H]; [|by rewrite !take_ge by (rewrite ?ctr_update_length; done)].
  rewrite <- (take_drop n d) at 1. rewrite ctr_update_app, take_app_length'; [done|]. rewrite ctr_update_length, length_take. lia.
Qed.

Lemma ctr_update_drop k iv pos d n : (n <= length d)%nat -> drop n (ctr_update k iv pos d) = ctr_update k iv (pos + n) (drop n d).
Proof.
  intros Hn. rewrite <- (take_drop n d) at 1. rewrite ctr_update_app. rewrite drop_app_ge by (rewrite ctr_update_length, length_take; lia).
  rewrite ctr_update_length, length_take_le by done. by rewrite Nat.sub_diag.
Qed.

Lemma fill_take bufs : forall size, fill size bufs = take size (concat bufs).
Proof.
  induction bufs as [|b bufs IH]; intros size; [by destruct size|]. cbn. rewrite length_take. destruct (Nat.eqb_spec (Nat.min size (length b)) size) as [E|E].
  - rewrite take_app_le by lia. done.
  - rewrite IH, take_app_ge, (take_ge b) by lia. do 2 f_equal. lia.
Qed.

Lemma fill_one d : fill (Nat.min buffer_size (length (concat [d]))) [d] = take buffer_size d.
Proof.
  rewrite fill_take. cbn [concat]. rewrite app_nil_r. destruct (Nat.le_ge_cases buffer_size (length d)) as [H|H]; [by rewrite Nat.min_l|]. rewrite Nat.min_r by done. by rewrite !take_ge.
Qed.

Lemma scatter_concat sizes : forall data, (length data <= sum_list sizes)%nat -> concat (scatter sizes data) = data.
Proof.
  induction sizes as [|n sizes IH]; intros data Hd; cbn in *; [by destruct data; [|cbn in Hd; lia]|]. rewrite IH by (rewrite length_drop; lia). apply take_drop.
Qed.

Definition vector_of (s : Shared) (iv : list byte) : list byte := default iv (encrypt_iv s).
Definition prefix_of (s : Shared) (iv : list byte) : list byte := match encrypt_iv s with None => iv | Some _ => [] end.

Lemma write_some_ok iv d s : async_write_some (Some iv) None None [d] s =
  ({| key := key s; encrypt_iv := Some (vector_of s iv); encrypt_ctx := encrypt_ctx s + length (take buffer_size d); decrypt_iv := decrypt_iv s; decrypt_ctx := decrypt_ctx s |},
   prefix_of s iv ++ ctr_update (key s) (vector_of s iv) (encrypt_ctx s) (take buffer_size d), Transferred (length (take buffer_size d))).
Proof. unfold async_write_some, vector_of, prefix_of. rewrite fill_one. by destruct (encrypt_iv s). Qed.

Lemma write_ok fuel iv : forall d s, (length d < fuel)%nat -> async_write fuel (Some iv) None None d s =
  ({| key := key s; encrypt_iv := Some (vector_of s iv); encrypt_ctx := encrypt_ctx s + length d; decrypt_iv := decrypt_iv s; decrypt_ctx := decrypt_ctx s |},
   prefix_of s iv ++ ctr_update (key s) (vector_of s iv) (encrypt_ctx s) d, true).
Proof.
  induction fuel as [|fuel IH]; intros d s Hf; [lia|]. cbn [async_write]. rewrite write_some_ok. destruct (Nat.le_gt_cases (length d) buffer_size) as [Hl|Hl].
  - rewrite take_ge, drop_all by done. done.
  - rewrite length_take_le by (unfold buffer_size in *; lia). destruct (drop buffer_size d) as [|c rest] eqn:Ed. { apply (f_equal length) in Ed. rewrite length_drop in Ed. cbn in Ed. lia. }
    rewrite <- Ed, IH by (rewrite length_drop; unfold buffer_size in *; lia). unfold vector_of at 2 4 6, prefix_of at 2. cbn [key encrypt_iv encrypt_ctx decrypt_iv decrypt_ctx default app]. f_equal. f_equal.
    + f_equal. rewrite length_drop. lia.
    + rewrite <- app_assoc. f_equal. rewrite <- (take_drop buffer_size d) at 3. rewrite ctr_update_app. rewrite length_take_le by lia. done.
Qed.

Lemma write_all_ok iv ds : forall s, ds <> [] -> snd (write_all iv ds s) = prefix_of s iv ++ ctr_update (key s) (vector_of s iv) (encrypt_ctx s) (concat ds).
Proof.
  induction ds as [|d ds IH]; intros s Hd; [done|]. cbn [write_all]. rewrite write_ok by lia. destruct ds as [|d2 ds]; [cbn; by rewrite !app_nil_r|].
  set (s' := {| key := _; encrypt_iv := _ |}). specialize (IH s' ltac:(done)). destruct (write_all iv (d2 :: ds) s') as [s2 out]. cbn [snd] in *. rewrite IH. unfold s', vector_of at 2, prefix_of at 2. cbn [key encrypt_iv encrypt_ctx default app].
  rewrite <- app_assoc. f_equal. by rewrite <- ctr_update_app.
Qed.

(** The reads once the vector is known. *)
Lemma read_all_ok k iv reads : forall pos data s, key s = k -> decrypt_iv s = Some iv -> decrypt_ctx s = pos ->
  exists got rest, read_all reads (ctr_update k iv pos data) s = (got, ctr_update k iv (pos + length got) rest) /\ data = got ++ rest.
Proof.
  induction reads as [|[sizes n] reads IH]; intros pos data s Hk Hiv Hpos. { exists [], data. cbn. by rewrite Nat.add_0_r. }
  cbn [read_all]. unfold async_read_some. rewrite Hiv. destruct (ctr_update k iv pos data) as [|c t] eqn:Ec.
  { exists [], []. cbn. split; [done|]. apply (f_equal length) in Ec. rewrite ctr_update_length in Ec. by apply length_zero_iff_nil. }
  rewrite <- Ec, Hk, Hpos. set (m := Nat.min (S n) (Nat.min buffer_size (sum_list sizes))). set (l := Nat.min m (length data)).
  assert (length (take m (ctr_update k iv pos data)) = l) as El by (rewrite length_take, ctr_update_length; done). rewrite El, ctr_update_take, ctr_update_twice, ctr_update_drop by (unfold l; lia).
  match goal with |- context [read_all reads _ ?x] => set (s' := x) end. destruct (IH (pos + l)%nat (drop l data) s' ltac:(done) eq_refl ltac:(done)) as (got & rest & E & Ed). rewrite E.
  exists (take m data ++ got), rest. rewrite scatter_concat by (rewrite length_take; lia). split; [|].
  - f_equal. f_equal. rewrite length_app, length_take. fold l. lia.
  - rewrite <- app_assoc, <- Ed. unfold l. destruct (Nat.le_ge_cases m (length data)) as [H|H]; [rewrite Nat.min_l by done; by rewrite take_drop|]. rewrite Nat.min_r by done. rewrite take_ge, drop_all by done. by rewrite app_nil_r.
Qed.

(** What is read with the same key, in whatever pieces, is a beginning of what was written, in whatever pieces, and all of it when nothing is left to read. *)
Lemma stream_decrypted (k iv : list byte) (ds : list (list byte)) (reads : list (list nat * nat)) :
  length iv = 16%nat ->
  let '(got, unread) := read_all reads (snd (write_all iv ds (new_stream k))) (new_stream k) in
  exists rest, concat ds = got ++ rest /\ (reads <> [] -> length unread = length rest).
Proof.
  intros Hiv. destruct ds as [|d ds]. { cbn [write_all snd]. destruct reads as [|[sizes n] reads]; cbn; by exists []. }
  rewrite write_all_ok by done. unfold vector_of, prefix_of. cbn [new_stream key encrypt_iv encrypt_ctx default]. set (data := concat (d :: ds)). destruct reads as [|[sizes n] reads]. { cbn. by exists data. }
  assert (read_all ((sizes, n) :: reads) (iv ++ ctr_update k iv 0 data) (new_stream k) =
    read_all ((sizes, n) :: reads) (ctr_update k iv 0 data) {| key := k; encrypt_iv := None; encrypt_ctx := O; decrypt_iv := Some iv; decrypt_ctx := O |}) as ->.
  { cbn [read_all]. unfold async_read_some at 1. cbn [new_stream decrypt_iv]. destruct (Nat.ltb_spec (length (iv ++ ctr_update k iv 0 data)) 16) as [H|H]; [rewrite length_app in H; lia|].
    rewrite take_app_le, drop_app_ge, Hiv, Nat.sub_diag, drop_0 by lia. rewrite take_ge by lia. done. }
  destruct (read_all_ok k iv ((sizes, n) :: reads) O data {| key := k; encrypt_iv := None; encrypt_ctx := O; decrypt_iv := Some iv; decrypt_ctx := O |} eq_refl eq_refl eq_refl) as (got & rest & E & Ed).
  rewrite E. exists rest. split; [done|]. intros _. by rewrite ctr_update_length.
Qed.

End Stream.
