(* ===== verification/LocalDiscovery.v ===== *)
(** * Discovery of peers on the local network: src/cache/local_peer_discovery.cpp, src/parse/endpoint.h

    A node tells the others of its endpoints in datagrams, and keeps what they tell it.  The state is the map of the peers; the handler of a datagram returns the new state and the reply to send.  The text
    of addresses is a matter of Boost.Asio: a class states what is used of it. *)
From S2P Require Import Prelude Number Bytes NodeId Contact.

(** ** The text of addresses *)

Class AddressText := {
  print_address : ip_address -> list byte;
  make_address : list byte -> option ip_address;
  is_unspecified_address : ip_address -> bool;
}.

Class AddressTextLaws (A : AddressText) := {
  make_print_v4 : forall b, make_address (print_address (IPv4 b)) = Some (IPv4 b);
  no_separator : forall a, (";"%byte ∉ print_address a) /\ ("%"%byte ∉ print_address a);
  bracket_refused : forall s, make_address ("["%byte :: s) = None;
  separator_refused : forall s, ";"%byte ∈ s -> "%"%byte ∉ s -> make_address s = None;
}.

(** ** The code *)

Section Discovery.
Context `{A : AddressText}.

Definition consume_prefix (what sv : list byte) : option (list byte) := if bool_decide (take (length what) sv = what) then Some (drop (length what) sv) else None.

(** [rfind] with both sides of the character. *)
Fixpoint rfind (c : byte) (s : list byte) : option (list byte * list byte) :=
  match s with
  | [] => None
  | x :: s =>
      match rfind c s with
      | Some (a, b) => Some (x :: a, b)
      | None => if bool_decide (x = c) then Some ([], s) else None
      end
  end.

(** [parse::endpoint]; [after] is the byte behind the view. *)
Definition parse_endpoint (after : byte) (s : list byte) : option (endpoint * list byte) :=
  match rfind ":"%byte s with
  | None => None
  | Some (text, rest) =>
      match make_address text with
      | None => None
      | Some addr =>
          match number_unsigned W2 after rest with
          | (None, _) => None
          | (Some p, rest) => Some ({| address := addr; port := p |}, rest)
          end
      end
  end.

(** A turn of the loop takes the separator at least, so that the length of the text bounds their number. *)
Fixpoint consume_endpoints_loop (fuel : nat) (after : byte) (sv : list byte) (from : ip_address) (ret : gset endpoint) : option (gset endpoint) :=
  match sv, fuel with
  | [], _ => Some ret
  | _, O => None
  | _, S fuel =>
      match parse_endpoint after sv with
      | None => None
      | Some (ep, sv) =>
          match consume_prefix (str ";") sv with
          | None => None
          | Some sv =>
              let ep := if is_unspecified_address (address ep) then {| address := from; port := port ep |} else ep in
              consume_endpoints_loop fuel after sv from ({[ep]} ∪ ret)
          end
      end
  end.

Definition consume_endpoints (after : byte) (sv : list byte) (from : ip_address) : option (gset endpoint) := consume_endpoints_loop (length sv) after sv from ∅.

Record Peer := { discovery_ep : endpoint; advertised_eps : gset endpoint }.

(** The endpoints that are advertised are in the order of the set. *)
Record Impl := { _id : Z; _advertised_eps : list endpoint; _peers : gmap Z Peer }.

Definition MSG_PREFIX : list byte := str "OUINET-LPD-V0:".
Definition MSG_QUERY_CMD : list byte := str "QUERY:".
Definition MSG_REPLY_CMD : list byte := str "REPLY:".
Definition MSG_BYE_CMD : list byte := str "BYE:".

(** [operator<<] of an endpoint. *)
Definition print_endpoint (ep : endpoint) : list byte :=
  match address ep with
  | IPv4 _ => print_address (address ep) ++ str ":" ++ to_string (port ep)
  | IPv6 _ => str "[" ++ print_address (address ep) ++ str "]:" ++ to_string (port ep)
  end.

Definition endpoints_text (eps : list endpoint) : list byte := concat ((fun ep => print_endpoint ep ++ str ";") <$> eps).

Definition query_message (st : Impl) : list byte := MSG_PREFIX ++ to_string (_id st) ++ str ":" ++ MSG_QUERY_CMD ++ endpoints_text (_advertised_eps st).
Definition reply_message (st : Impl) : list byte := MSG_PREFIX ++ to_string (_id st) ++ str ":" ++ MSG_REPLY_CMD ++ endpoints_text (_advertised_eps st).
Definition bye_message (st : Impl) : list byte := MSG_PREFIX ++ to_string (_id st) ++ str ":" ++ MSG_BYE_CMD.

Definition set_peers (ps : gmap Z Peer) (st : Impl) : Impl := {| _id := _id st; _advertised_eps := _advertised_eps st; _peers := ps |}.

Definition add_endpoints (peer_id : Z) (peer_ep : endpoint) (eps : gset endpoint) (st : Impl) : Impl :=
  set_peers (<[peer_id := {| discovery_ep := peer_ep; advertised_eps := eps |}]> (_peers st)) st.

Definition handle_reply (after : byte) (sv : list byte) (peer_id : Z) (peer_ep : endpoint) (st : Impl) : Impl * option (list byte * endpoint) :=
  match consume_endpoints after sv (address peer_ep) with
  | None => (st, None)
  | Some eps => (add_endpoints peer_id peer_ep eps st, None)
  end.

Definition handle_query (after : byte) (sv : list byte) (peer_id : Z) (peer_ep : endpoint) (st : Impl) : Impl * option (list byte * endpoint) :=
  match consume_endpoints after sv (address peer_ep) with
  | None => (st, None)
  | Some eps => (add_endpoints peer_id peer_ep eps st, Some (reply_message st, peer_ep))
  end.

Definition handle_bye (peer_id : Z) (st : Impl) : Impl * option (list byte * endpoint) := (set_peers (delete peer_id (_peers st)) st, None).

(** The handler of a datagram; [after] is the byte behind it in the buffer. *)
Definition on_broadcast_receive (after : byte) (sv : list byte) (from : endpoint) (st : Impl) : Impl * option (list byte * endpoint) :=
  match consume_prefix MSG_PREFIX sv with
  | None => (st, None)
  | Some sv =>
      match number_unsigned W8 after sv with
      | (None, _) => (st, None)
      | (Some peer_id, sv) =>
          if peer_id =? _id st then (st, None)
          else
            match consume_prefix (str ":") sv with
            | None => (st, None)
            | Some sv =>
                match consume_prefix MSG_QUERY_CMD sv, consume_prefix MSG_REPLY_CMD sv, consume_prefix MSG_BYE_CMD sv with
                | Some sv, _, _ => handle_query after sv peer_id from st
                | None, Some sv, _ => handle_reply after sv peer_id from st
                | None, None, Some _ => handle_bye peer_id st
                | None, None, None => (st, None)
                end
            end
      end
  end.

Definition found_peers (st : Impl) : gset endpoint := ⋃ ((fun x => advertised_eps (snd x)) <$> map_to_list (_peers st)).

(** ** What is understood *)

Context {L : AddressTextLaws A}.

Lemma consume_prefix_app what sv : consume_prefix what (what ++ sv) = Some sv.
Proof. unfold consume_prefix. by rewrite take_app_length, bool_decide_eq_true_2, drop_app_length. Qed.

Lemma rfind_none c s : c ∉ s -> rfind c s = None.
Proof. induction s as [|x s IH]; cbn; [done|]. rewrite not_elem_of_cons. intros [Hx Hs]. rewrite IH by done. by rewrite bool_decide_eq_false_2. Qed.

Lemma rfind_last c a b : c ∉ b -> rfind c (a ++ c :: b) = Some (a, b).
Proof. intros Hb. induction a as [|x a IH]; cbn; [|by rewrite IH]. rewrite rfind_none by done. by rewrite bool_decide_eq_true_2. Qed.

(** A number in front of a character that is neither a digit nor below the digits. *)
Lemma number_before w after z c rest : 0 <= z <= unsigned_max w -> is_digit c = false -> 48 <= code c -> number_unsigned w after (to_string z ++ c :: rest) = (Some z, c :: rest).
Proof.
  intros Hz Hc H48. rewrite number_unsigned_spec_eq. unfold number_unsigned_spec. rewrite to_string_abs. destruct (Z.ltb_spec z 0); [lia|]. cbn [app]. destruct (abs_digits_spec z) as (H1 & H2 & H3).
  assert (no_digit (c :: rest)) as Hr by by apply no_digit_cons. rewrite digits_exact, after_digits_exact, H2 by done. rewrite bool_decide_eq_false_2 by done.
  assert (rejects_max after (c :: rest) = false) as ->. { unfold rejects_max, digit. cbn. pose proof (code_range c). rewrite Z.mod_small by lia. zbool; lia. }
  rewrite andb_false_r. zbool; [lia|]. do 2 f_equal. lia.
Qed.

Lemma to_string_chars z c : 0 <= z -> c ∈ to_string z -> is_digit c = true.
Proof. intros Hz. rewrite to_string_abs. destruct (Z.ltb_spec z 0); [lia|]. destruct (abs_digits_spec z) as (H1 & _). cbn. unfold all_digits in H1. rewrite Forall_forall in H1. apply H1. Qed.

Definition port_ok (ep : endpoint) : Prop := 0 <= port ep <= unsigned_max W2.

(** The text in front of the last colon. *)
Definition endpoint_head (ep : endpoint) : list byte :=
  match address ep with IPv4 _ => print_address (address ep) | IPv6 _ => str "[" ++ print_address (address ep) ++ str "]" end.

Lemma print_endpoint_head ep : print_endpoint ep = endpoint_head ep ++ ":"%byte :: to_string (port ep).
Proof. unfold print_endpoint, endpoint_head. destruct (address ep); [done|]. cbn. by rewrite <- app_assoc. Qed.

Lemma digit_not ep (c : byte) : port_ok ep -> is_digit c = false -> c ∉ to_string (port ep).
Proof. intros Hp Hc Hin. apply to_string_chars in Hin; [congruence|apply Hp]. Qed.

Lemma endpoints_no_percent eps : Forall port_ok eps -> "%"%byte ∉ endpoints_text eps.
Proof.
  intros H. induction H as [|ep eps Hp _ IH]; [apply not_elem_of_nil|]. unfold endpoints_text. cbn. rewrite print_endpoint_head. destruct (no_separator (address ep)) as [_ Hn]. pose proof (digit_not ep "%"%byte Hp eq_refl) as Hd.
  rewrite !elem_of_app, elem_of_cons. unfold endpoint_head. intros [[[H|[H|H]]|H]|H]; [|done|done|by apply list_elem_of_singleton in H|done].
  revert H Hn. destruct (address ep) as [b|b]; [done|]. rewrite !elem_of_app. intros [H|[H|H]] Hn; [|done|]; by apply list_elem_of_singleton in H.
Qed.

(** The text of some endpoints, seen from its last colon. *)
Lemma endpoints_text_snoc eps ep : endpoints_text (eps ++ [ep]) = (endpoints_text eps ++ endpoint_head ep) ++ ":"%byte :: to_string (port ep) ++ str ";".
Proof. unfold endpoints_text. rewrite fmap_app, concat_app. cbn. rewrite app_nil_r, print_endpoint_head, <- !app_assoc. done. Qed.

Lemma parse_last after eps ep : port_ok ep ->
  parse_endpoint after (endpoints_text (eps ++ [ep])) = (fun a => ({| address := a; port := port ep |}, str ";")) <$> make_address (endpoints_text eps ++ endpoint_head ep).
Proof.
  intros Hp. unfold parse_endpoint. rewrite endpoints_text_snoc, rfind_last. 2:{ intros [H|H]%elem_of_app; [by apply (digit_not ep ":"%byte)|by apply list_elem_of_singleton in H]. }
  destruct (make_address _); [|done]. cbn. by rewrite number_before.
Qed.

(** What becomes of the endpoints in a message. *)
Definition understood (eps : list endpoint) (from : ip_address) : option (gset endpoint) :=
  match eps with
  | [] => Some ∅
  | [ep] => match address ep with IPv4 _ => Some {[ if is_unspecified_address (address ep) then {| address := from; port := port ep |} else ep ]} | IPv6 _ => None end
  | _ => None
  end.

Lemma consume_endpoints_text after eps from : Forall port_ok eps -> consume_endpoints after (endpoints_text eps) from = understood eps from.
Proof.
  intros Hp. unfold consume_endpoints. destruct eps as [|e eps _] using rev_ind; [done|]. apply Forall_app in Hp as [Hps Hp]. rewrite Forall_singleton in Hp.
  assert (exists c t, endpoints_text (eps ++ [e]) = c :: t) as (c & t & Et) by (rewrite endpoints_text_snoc; destruct (endpoints_text eps ++ endpoint_head e); cbn; by eexists _, _).
  pose proof (parse_last after eps e Hp) as Hparse. rewrite Et in *. cbn [length consume_endpoints_loop]. rewrite Hparse. destruct eps as [|e1 eps].
  - change (endpoints_text [] ++ endpoint_head e) with (endpoint_head e). unfold endpoint_head, understood. cbn [app]. destruct (address e) as [b|b] eqn:Ea.
    2:{ change (str "[" ++ print_address (IPv6 b) ++ str "]") with ("["%byte :: print_address (IPv6 b) ++ str "]"). by rewrite bracket_refused. }
    rewrite make_print_v4. cbn [fmap option_fmap option_map]. change (str ";") with (str ";" ++ []) at 2. rewrite consume_prefix_app. cbn [address port]. destruct e as [a p]. cbn in Ea |- *. subst a.
    destruct (length t); cbn; by rewrite union_empty_r_L.
  - rewrite separator_refused.
    + unfold understood. cbn. by destruct eps.
    + unfold endpoints_text. cbn. rewrite !elem_of_app. left. left. right. by left.
    + rewrite elem_of_app. intros [H|H]; [by apply (endpoints_no_percent (e1 :: eps) Hps)|]. apply (endpoints_no_percent [e]); [by constructor|].
      unfold endpoints_text. cbn. rewrite app_nil_r, print_endpoint_head, !elem_of_app. by left; left.
Qed.

Definition id_ok (st : Impl) : Prop := 0 <= _id st <= unsigned_max W8.

Lemma receive_prefix after from st peer rest : id_ok peer -> _id peer <> _id st ->
  on_broadcast_receive after (MSG_PREFIX ++ to_string (_id peer) ++ str ":" ++ rest) from st =
  match consume_prefix MSG_QUERY_CMD rest, consume_prefix MSG_REPLY_CMD rest, consume_prefix MSG_BYE_CMD rest with
  | Some sv, _, _ => handle_query after sv (_id peer) from st
  | None, Some sv, _ => handle_reply after sv (_id peer) from st
  | None, None, Some _ => handle_bye (_id peer) st
  | None, None, None => (st, None)
  end.
Proof.
  intros Hid Hne. unfold on_broadcast_receive. rewrite consume_prefix_app. change (str ":" ++ rest) with (":"%byte :: rest). rewrite number_before by (done || vm_compute; congruence).
  destruct (Z.eqb_spec (_id peer) (_id st)); [done|]. change (":"%byte :: rest) with (str ":" ++ rest). by rewrite consume_prefix_app.
Qed.

Lemma receive_query (after : byte) (from : endpoint) (st peer : Impl) :
  id_ok peer -> _id peer <> _id st -> Forall port_ok (_advertised_eps peer) ->
  on_broadcast_receive after (query_message peer) from st =
    match understood (_advertised_eps peer) (address from) with
    | Some eps => (add_endpoints (_id peer) from eps st, Some (reply_message st, from))
    | None => (st, None)
    end /\
  on_broadcast_receive after (reply_message peer) from st =
    match understood (_advertised_eps peer) (address from) with
    | Some eps => (add_endpoints (_id peer) from eps st, None)
    | None => (st, None)
    end /\
  _peers (fst (on_broadcast_receive after (bye_message peer) from st)) = delete (_id peer) (_peers st).
Proof.
  intros Hid Hne Hp. unfold query_message, reply_message at 2, bye_message. rewrite !receive_prefix by done. rewrite !consume_prefix_app. split_and!.
  - unfold handle_query. rewrite consume_endpoints_text by done. by destruct (understood _ _).
  - change (consume_prefix MSG_QUERY_CMD (MSG_REPLY_CMD ++ endpoints_text (_advertised_eps peer))) with (@None (list byte)). unfold handle_reply. rewrite consume_endpoints_text by done. by destruct (understood _ _).
  - done.
Qed.

(** C33: a node understands the announcements of another exactly when it advertises nothing or one IPv4 endpoint: then it keeps the peer with that endpoint, the address of the sender instead of the unspecified one, and answers
    a query; a message with an IPv6 endpoint or with more than one endpoint changes nothing and is not answered.  A farewell removes the peer. *)
Theorem discovery_one_ipv4_endpoint (after : byte) (from : endpoint) (st peer : Impl) :
  id_ok peer -> _id peer <> _id st -> Forall port_ok (_advertised_eps peer) ->
  on_broadcast_receive after (query_message peer) from st =
    match understood (_advertised_eps peer) (address from) with
    | Some eps => (add_endpoints (_id peer) from eps st, Some (reply_message st, from))
    | None => (st, None)
    end /\
  on_broadcast_receive after (reply_message peer) from st =
    match understood (_advertised_eps peer) (address from) with
    | Some eps => (add_endpoints (_id peer) from eps st, None)
    | None => (st, None)
    end /\
  _peers (fst (on_broadcast_receive after (bye_message peer) from st)) = delete (_id peer) (_peers st).
Proof. apply receive_query. Qed.

(** The byte strings that a node may send: it never hears itself. *)
Lemma own_messages_ignored after from st : id_ok st -> fst (on_broadcast_receive after (query_message st) from st) = st /\ snd (on_broadcast_receive after (query_message st) from st) = None.
Proof.
  intros Hid. unfold on_broadcast_receive, query_message. rewrite consume_prefix_app. change (str ":" ++ MSG_QUERY_CMD ++ endpoints_text (_advertised_eps st)) with (":"%byte :: MSG_QUERY_CMD ++ endpoints_text (_advertised_eps st)).
  rewrite number_before by (done || vm_compute; congruence). by rewrite Z.eqb_refl.
Qed.

(** Whatever arrives, a node is not its own peer, and a reply goes to the sender of a query only. *)
Lemma never_its_own_peer ds : forall st, _peers st !! _id st = None ->
  _peers (foldl (fun st (d : byte * list byte * endpoint) => fst (on_broadcast_receive (fst (fst d)) (snd (fst d)) (snd d) st)) st ds) !! _id st = None.
Proof.
  induction ds as [|[[after sv] from] ds IH]; intros st Hst; [done|]. cbn [foldl fst snd].
  assert (_id (fst (on_broadcast_receive after sv from st)) = _id st /\ _peers (fst (on_broadcast_receive after sv from st)) !! _id st = None) as [E H].
  { unfold on_broadcast_receive. destruct (consume_prefix MSG_PREFIX sv) as [sv1|]; [|done]. destruct (number_unsigned W8 after sv1) as [[i|] sv2]; [|done]. destruct (Z.eqb_spec i (_id st)); [done|].
    destruct (consume_prefix (str ":") sv2) as [sv3|]; [|done]. unfold handle_query, handle_reply, handle_bye, add_endpoints.
    destruct (consume_prefix MSG_QUERY_CMD sv3), (consume_prefix MSG_REPLY_CMD sv3), (consume_prefix MSG_BYE_CMD sv3); try done; try (destruct (consume_endpoints _ _ _)); cbn; rewrite ?lookup_insert_ne, ?lookup_delete_ne by done; done. }
  rewrite <- E. apply IH. by rewrite E.
Qed.

End Discovery.

(** ** Examples *)

Lemma found_single st i p : _peers st = {[i := p]} -> found_peers st = advertised_eps p.
Proof. intros E. unfold found_peers. rewrite E, map_to_list_singleton. cbn. by rewrite union_empty_r_L. Qed.

(** Addresses as hexadecimal digits, for the examples. *)
#[export] Instance sample_text : AddressText := {
  print_address := fun a => match a with IPv4 b | IPv6 b => to_hex b end;
  make_address := fun s => IPv4 <$> from_hex s;
  is_unspecified_address := fun a => match a with IPv4 b | IPv6 b => forallb (fun c => code c =? 0) b end;
}.

Lemma not_hex (c : byte) : bool_decide (c ∈ hex_chars) = false -> c ∉ hex_chars.
Proof. apply bool_decide_eq_false_1. Qed.

Lemma hex_text (c : byte) b : c ∉ hex_chars -> c ∉ to_hex b.
Proof. intros Hc Hin. pose proof (to_hex_is_hex b) as H. unfold is_hex in H. rewrite forallb_forall in H. rewrite list_elem_of_In in Hin. apply H in Hin. by apply bool_decide_eq_true in Hin. Qed.

#[export] Instance sample_text_laws : AddressTextLaws sample_text.
Proof.
  assert (forall (c : byte) s, c ∉ hex_chars -> c ∈ s -> make_address s = None) as Hbad.
  { intros c s Hc Hin. cbn. destruct (from_hex s) eqn:E; [|done]. exfalso. assert (is_hex s = true) as H by (apply from_hex_is_Some; by rewrite E). unfold is_hex in H. rewrite forallb_forall in H. rewrite list_elem_of_In in Hin. apply H in Hin. by apply bool_decide_eq_true in Hin. }
  split.
  - intros b. cbn. rewrite <- (app_nil_r (to_hex b)), from_hex_to_hex. cbn. by rewrite app_nil_r.
  - intros [b|b]; split; cbn; apply hex_text, not_hex; by vm_compute.
  - intros s. apply (Hbad "["%byte); [apply not_hex; by vm_compute|by left].
  - intros s Hs _. apply (Hbad ";"%byte); [apply not_hex; by vm_compute|done].
Qed.

Definition sample_node (i : Z) (eps : list endpoint) : Impl := {| _id := i; _advertised_eps := eps; _peers := ∅ |}.
Definition sample_ep (b : list byte) (p : Z) : endpoint := {| address := IPv4 b; port := p |}.

(** A query and its reply: both nodes know each other, one by the address that it sent from. *)
Lemma discovery_one_ipv4_endpoint_witness :
  let a := sample_node 1 [sample_ep [Byte.x00; Byte.x00; Byte.x00; Byte.x00] 4000] in
  let b := sample_node 2 [sample_ep [Byte.x0a; Byte.x00; Byte.x00; Byte.x02] 65535] in
  let from := sample_ep [Byte.x0a; Byte.x00; Byte.x00; Byte.x01] 37391 in
  _peers (fst (on_broadcast_receive Byte.x00 (query_message a) from b)) = {[1 := {| discovery_ep := from; advertised_eps := {[sample_ep [Byte.x0a; Byte.x00; Byte.x00; Byte.x01] 4000]} |}]} /\
  snd (on_broadcast_receive Byte.x00 (query_message a) from b) = Some (reply_message b, from) /\
  found_peers (fst (on_broadcast_receive Byte.x00 (reply_message b) from a)) = {[sample_ep [Byte.x0a; Byte.x00; Byte.x00; Byte.x02] 65535]}.
Proof.
  intros a b from. assert (id_ok a) as Ha by (vm_compute; split; discriminate). assert (id_ok b) as Hb by (vm_compute; split; discriminate). assert (_id a <> _id b) as Hab by discriminate. assert (_id b <> _id a) as Hba by discriminate.
  assert (Forall port_ok (_advertised_eps a)) as Hpa by (repeat constructor; vm_compute; discriminate). assert (Forall port_ok (_advertised_eps b)) as Hpb by (repeat constructor; vm_compute; discriminate).
  destruct (discovery_one_ipv4_endpoint Byte.x00 from b a Ha Hab Hpa) as (E1 & _). destruct (discovery_one_ipv4_endpoint Byte.x00 from a b Hb Hba Hpb) as (_ & E2 & _). rewrite E1, E2. split; [reflexivity|]. split; [reflexivity|]. by rewrite (found_single _ (_id b) {| discovery_ep := from; advertised_eps := {[sample_ep [Byte.x0a; Byte.x00; Byte.x00; Byte.x02] 65535]} |}).
Defined.

(** A node with two endpoints is not heard. *)
Lemma two_endpoints_not_heard :
  let a := sample_node 1 [sample_ep [Byte.x0a; Byte.x00; Byte.x00; Byte.x01] 4000; sample_ep [Byte.x0a; Byte.x00; Byte.x00; Byte.x01] 4001] in
  let b := sample_node 2 [] in
  on_broadcast_receive Byte.x00 (query_message a) (sample_ep [Byte.x0a; Byte.x00; Byte.x00; Byte.x01] 37391) b = (b, None).
Proof. by vm_compute. Qed.

(** Anybody can say farewell for a peer. *)
Lemma farewell_of_another :
  let a := sample_node 1 [sample_ep [Byte.x0a; Byte.x00; Byte.x00; Byte.x01] 4000] in
  let b := fst (on_broadcast_receive Byte.x00 (query_message a) (sample_ep [Byte.x0a; Byte.x00; Byte.x00; Byte.x01] 37391) (sample_node 2 [])) in
  found_peers b = {[sample_ep [Byte.x0a; Byte.x00; Byte.x00; Byte.x01] 4000]} /\ _peers (fst (on_broadcast_receive Byte.x00 (bye_message a) (sample_ep [Byte.x0a; Byte.x00; Byte.x00; Byte.x63] 5) b)) = ∅.
Proof.
  intros a b. assert (_peers b = {[1 := {| discovery_ep := sample_ep [Byte.x0a; Byte.x00; Byte.x00; Byte.x01] 37391; advertised_eps := {[sample_ep [Byte.x0a; Byte.x00; Byte.x00; Byte.x01] 4000]} |}]}) as E.
  { unfold b. rewrite (proj1 (receive_query Byte.x00 _ (sample_node 2 []) a ltac:(vm_compute; split; discriminate) ltac:(discriminate) ltac:(repeat constructor; vm_compute; discriminate))). reflexivity. }
  split; [by rewrite (found_single _ _ _ E)|]. rewrite (proj2 (proj2 (receive_query Byte.x00 _ b a ltac:(vm_compute; split; discriminate) ltac:(discriminate) ltac:(repeat constructor; vm_compute; discriminate)))). rewrite E. apply delete_singleton_eq.
Qed.
