(* ===== verification/PeerServe.v ===== *)
(** * Serving peers: src/peer_message.cpp, serve_local of src/cache/client.cpp, serve_peer_request of src/client.cpp

    A peer asks for a hash list or for blocks of a response in HTTP; the answer is a byte that says whether an encrypted stream follows, and then the response, encrypted with a key that only who
    knows the URL can compute.  [serve_local] takes it from the store; the loop of [serve_peer_request] answers one request after the other and is a bridge to an injector for CONNECT requests.
    The text of heads, chunk sizes and trailers is that of Beast. *)
From S2P Require Import Prelude Number SplitString Url Http Request Crypto Bytes HashList HttpSign Base64 SignedHead BlockSign SignedBody HttpStore StoredBody MultiPeer CryptoStream.

(** ** Requests of peers: src/peer_message.cpp *)

Variant PeerRequestError := invalid_method | invalid_protocol_version | invalid_target | invalid_range | invalid_blob_type.
Variant BlobType := plain_text | cypher_text.

Record PeerCacheRequest := { pr_method : list byte; pr_keep_alive : bool; pr_resource_id : list byte; pr_range : option (Z * Z) }.
Variant PeerRequest := ConnectRequest | CacheRequest_ (rq : PeerCacheRequest).

Section Messages.
(** [http::token_list(value).exists(token)] of Beast. *)
Variable token_exists : list byte -> list byte -> bool.

(** [util::get_keep_alive] *)
Definition rq_get_keep_alive (rq : request_header) : bool :=
  match find_field (str "Connection") (rq_fields rq) with
  | None => negb (version rq <? 11)
  | Some v => if version rq <? 11 then token_exists v (str "keep-alive") else negb (token_exists v (str "close"))
  end.

(** [PeerRequest::async_read], after the request was read. *)
Definition PeerRequest_read (rq : request_header) : PeerRequestError + PeerRequest :=
  let m := method rq in
  if negb (bool_decide (m = str "GET")) && negb (bool_decide (m = str "CONNECT")) && negb (bool_decide (m = str "HEAD")) && negb (bool_decide (m = str "PROPFIND")) then inl invalid_method
  else if bool_decide (m = str "CONNECT") then inr ConnectRequest
  else
    let keep_alive := rq_get_keep_alive rq in
    match fst (number_of_view W2 (field_view (field_value protocol_version_hdr (rq_fields rq)))) with
    | None => inl invalid_protocol_version
    | Some _ =>
        match ResourceId_from_hex (target rq) with
        | None => inl invalid_target
        | Some resource_id =>
            let ranges := HttpRequestByteRange_parse (field_view (field_value (str "Range") (rq_fields rq))) in
            let range := match ranges with Some (Some [r]) => Some r | _ => None end in
            inr (CacheRequest_ {| pr_method := m; pr_keep_alive := keep_alive; pr_resource_id := resource_id; pr_range := range |})
        end
    end.

(** What the other side sends: [request] and [range_request] of src/cache/multi_peer_reader.cpp. *)
Definition peer_request (verb resource_id : list byte) : request_header :=
  {| method := verb; target := resource_id; version := 11;
     rq_fields := set_field (str "User-Agent") (str "Ouinet.Bep5.Client") (set_field protocol_version_hdr protocol_version_hdr_current (set_field (str "Host") (str "OuinetClient") [])) |}.

Definition block_first (chunk_id : nat) (bs : Z) : Z := (Z.of_nat chunk_id * bs) mod 2 ^ 64.
Definition block_last (chunk_id : nat) (bs : Z) : Z := if 0 <? bs then size_add (block_first chunk_id bs) (bs - 1) else block_first chunk_id bs.

Definition range_request (verb : list byte) (chunk_id : nat) (bs : Z) (resource_id : list byte) : request_header :=
  let rq := peer_request verb resource_id in
  set_rq_fields rq (set_field (str "Range") (str "bytes=" ++ to_string (block_first chunk_id bs) ++ str "-" ++ to_string (block_last chunk_id bs)) (rq_fields rq)).

(** [async_write_blob_type] and [async_read_blob_type] *)
Definition blob_type_byte (t : BlobType) : byte := match t with plain_text => Byte.x00 | cypher_text => Byte.x01 end.
Definition read_blob_type (incoming : list byte) : option (PeerRequestError + BlobType) * list byte :=
  match incoming with
  | [] => (None, [])
  | b :: rest => (Some (match b with Byte.x00 => inr plain_text | Byte.x01 => inr cypher_text | _ => inl invalid_blob_type end), rest)
  end.

Lemma byte_range_request f l bh : 0 <= f < unsigned_max W8 -> 0 <= l < unsigned_max W8 ->
  HttpRequestByteRange_parse {| chars := str "bytes=" ++ to_string f ++ str "-" ++ to_string l; behind := bh |} = Some (Some [(f, l)]).
Proof.
  intros Hf Hl. assert (forall z rest, 0 <= z -> trim_ws {| chars := to_string z ++ rest; behind := bh |} = {| chars := to_string z ++ rest; behind := bh |}) as Htrim.
  { intros z rest Hz. rewrite to_string_abs. destruct (Z.ltb_spec z 0); [lia|]. destruct (abs_digits_spec z) as (H1 & _ & H3). cbn [app]. destruct (abs_digits z) as [|c t]; [done|]. unfold all_digits in H1. apply Forall_cons in H1 as [H1 _].
    unfold trim_ws, trim_front. cbn [chars app]. cbn [count_while]. case_bool_decide as E; [by subst c|done]. }
  unfold HttpRequestByteRange_parse. change (trim_ws {| chars := str "bytes=" ++ ?x; behind := bh |}) with {| chars := str "bytes=" ++ x; behind := bh |}.
  change (consume (str "bytes") {| chars := str "bytes=" ++ ?x; behind := bh |}) with (Some {| chars := str "=" ++ x; behind := bh |}). cbv iota.
  change (consume (str "=") (trim_ws {| chars := str "=" ++ ?x; behind := bh |})) with (Some {| chars := x; behind := bh |}). cbv iota. rewrite Htrim by lia. cbn [parse_ranges chars]. unfold parse_range.
  rewrite number_of_view_to_string by (done || apply no_digit_cons; done). cbv iota. change (consume (str "-") (trim_ws {| chars := str "-" ++ ?x; behind := bh |})) with (Some {| chars := x; behind := bh |}). cbv iota.
  rewrite <- (app_nil_r (to_string l)). rewrite Htrim by lia. rewrite number_of_view_to_string by (done || apply no_digit_nil). cbv iota. done.
Qed.

(** What a peer asks another for is understood: the hash list, and the bytes of a block. *)
Lemma peer_request_read verb chunk_id bs resource_id :
  ResourceId_from_hex resource_id = Some resource_id -> verb = str "GET" \/ verb = str "HEAD" \/ verb = str "PROPFIND" ->
  PeerRequest_read (peer_request verb resource_id) = inr (CacheRequest_ {| pr_method := verb; pr_keep_alive := true; pr_resource_id := resource_id; pr_range := None |}) /\
  (block_first chunk_id bs < unsigned_max W8 -> block_last chunk_id bs < unsigned_max W8 ->
   PeerRequest_read (range_request verb chunk_id bs resource_id) =
   inr (CacheRequest_ {| pr_method := verb; pr_keep_alive := true; pr_resource_id := resource_id; pr_range := Some (block_first chunk_id bs, block_last chunk_id bs) |})).
Proof.
  intros Hid Hv. assert (0 <= block_first chunk_id bs /\ 0 <= block_last chunk_id bs) as [H1 H2].
  { assert (0 <= block_first chunk_id bs) by (apply Z.mod_pos_bound; lia). split; [done|]. unfold block_last, size_add. destruct (0 <? bs); [apply Z.mod_pos_bound; lia|done]. }
  split.
  - unfold PeerRequest_read. cbn [method target peer_request]. destruct Hv as [->|[->| ->]]; cbn -[ResourceId_from_hex]; by rewrite Hid.
  - intros Hf Hl. unfold PeerRequest_read. cbn [method target range_request peer_request set_rq_fields].
    assert (field_value (str "Range") (rq_fields (range_request verb chunk_id bs resource_id)) = str "bytes=" ++ to_string (block_first chunk_id bs) ++ str "-" ++ to_string (block_last chunk_id bs)) as Hr by done.
    unfold field_view at 2. rewrite Hr, byte_range_request by lia.
    assert (fst (number_of_view W2 (field_view (field_value protocol_version_hdr (rq_fields (range_request verb chunk_id bs resource_id))))) = Some 7) as -> by done.
    assert (rq_get_keep_alive (range_request verb chunk_id bs resource_id) = true) as -> by done. rewrite Hid. by destruct Hv as [->|[->| ->]].
Qed.

End Messages.

(** ** The answers *)

Section Serve.
Context `{SignatureScheme} `{Base64} `{TransferCoding} `{BeastOps} `{HeadCodec}.
Variables sha256 : list byte -> list byte.
(** The hexadecimal size in a chunk header and the text of a trailer, of Beast. *)
Variables (chunk_size_text : Z -> list byte) (print_trailer : fields -> list byte).

Abbreviation http_stores := (gmap (list byte * list byte) stored).

Definition crlf : list byte := [Byte.x0d; Byte.x0a].

(** [async_write] of the parts of a response, src/response_part.h: the writes to the stream. *)
Definition part_writes (p : Part) : list (list byte) :=
  match p with
  | HeadPart h => [print_head h]
  | ChunkHdr size exts => if 0 <? size then [chunk_size_text size ++ exts ++ crlf] else [str "0" ++ exts ++ crlf]
  | ChunkBody d remain => d :: (if remain =? 0 then [crlf] else [])
  | Body d => [d]
  | Trailer fs => [print_trailer fs]
  end.

Definition parts_writes (ps : list Part) : list (list byte) := concat (part_writes <$> ps).

(** [resource_key::from_cached_header] *)
Definition resource_key_from_cached_header (h : response_header) : option (list byte) := resource_key_from_url sha256 <$> find_field response_uri_hdr (rs_fields h).

(** [util::http_error] *)
Definition http_error (keep_alive : bool) (status : Z) (proto_error message : list byte) : response_header * list byte :=
  let fs := match proto_error with [] => [] | _ => set_field response_error_hdr proto_error (set_field protocol_version_hdr protocol_version_hdr_current []) end in
  let fs := set_field (str "Content-Type") (str "text/plain") (set_field (str "Server") (str "Ouinet.Client") fs) in
  let h := set_keep_alive keep_alive {| result := status; rs_version := 11; rs_fields := fs |} in
  (set_rs_fields h (set_field (str "Content-Length") (to_string (size_of message)) (rs_fields h)), message).

Definition http_error_text (keep_alive : bool) (status : Z) (proto_error message : list byte) : list byte :=
  let '(h, body) := http_error keep_alive status proto_error message in print_head h ++ body.

Definition response_error_hdr_retrieval_failed : list byte := str "3 Resource retrieval failed".

(** The hash list that [load_hash_list] of the store gives, with its head. *)
Definition load_peer_list (resource_id : list byte) (st : http_stores) : res PeerList :=
  match store_load_hash_list resource_id st, head_file (lookup_files resource_id st) with
  | Ok l, Some headf =>
      match read_signed_head headf with
      | Ok head => Ok {| pl_head := head; pl_blocks := blocks l |}
      | Fail e => Fail e
      | Fault => Fault
      end
  | Fail e, _ => Fail e
  | Fault, _ => Fault
  | Ok _, None => Fail no_such_file
  end.

(** [HashList::write] *)
Definition HashList_write (l : PeerList) : list (list byte) :=
  let h := sh_head (pl_head l) in
  let fs := set_field (str "Content-Length") (to_string (content_length (pl_blocks l))) (set_field ORIGINAL_STATUS (to_string (result h)) (rs_fields h)) in
  [print_head {| result := 200; rs_version := rs_version h; rs_fields := fs |}; HashList.write_body (pl_blocks l)].

(** The loop of [Session::flush_response]; whether the reader came to its end. *)
Fixpoint flush_parts (fuel : nat) (r : resource) : list Part * bool :=
  match fuel with
  | O => ([], false)
  | S fuel =>
      match resource_read r with
      | Ok (None, _) => ([], true)
      | Ok (Some p, r) => let '(ps, ok) := flush_parts fuel r in (p :: ps, ok)
      | Fail _ | Fault => ([], false)
      end
  end.

Variant answer := PlainText (text : list byte) | Encrypted (key : list byte) (writes : list (list byte)).

(** [serve_local]: what is sent, and whether the connection goes on; [fuel] bounds the parts of the response. *)
Definition serve_local (fuel : nat) (rq : PeerCacheRequest) (st : http_stores) : option answer * bool :=
  let not_found := (Some (PlainText (http_error_text (pr_keep_alive rq) 404 response_error_hdr_retrieval_failed [])), true) in
  if bool_decide (pr_method rq = str "PROPFIND") then
    match load_peer_list (pr_resource_id rq) st with
    | Fault => (None, false)
    | Fail _ => not_found
    | Ok l =>
        match resource_key_from_cached_header (sh_head (pl_head l)) with
        | None => not_found
        | Some key => (Some (Encrypted key (HashList_write l)), true)
        end
    end
  else
    match store_reader (pr_resource_id rq) (pr_range rq) st with
    | Fault => (None, false)
    | Fail _ => not_found
    | Ok r =>
        match resource_read r with
        | Ok (Some (HeadPart h), r) =>
            match resource_key_from_cached_header h with
            | None => (None, false)
            | Some key =>
                let '(ps, ok) := if bool_decide (pr_method rq = str "HEAD") then ([], true) else flush_parts fuel r in
                (Some (Encrypted key (parts_writes (HeadPart h :: ps))), ok)
            end
        | _ => (None, false)
        end
    end.

(** ** On the wire *)

Variable keystream : list byte -> list byte -> nat -> byte.

Definition answer_bytes (iv : list byte) (a : answer) : list byte :=
  match a with
  | PlainText text => blob_type_byte plain_text :: text
  | Encrypted key writes => blob_type_byte cypher_text :: snd (write_all keystream iv writes (new_stream key))
  end.

(** [determine_incoming_stream] of src/cache/multi_peer_reader.cpp, and some reads from the stream that it returns: what was read and what is left. *)
Definition receive_answer (resource_key : list byte) (reads : list (list nat * nat)) (incoming : list byte) : option (list byte * list byte) :=
  match read_blob_type incoming with
  | (Some (inr plain_text), rest) => Some (rest, [])
  | (Some (inr cypher_text), rest) => Some (read_all keystream reads rest (new_stream resource_key))
  | _ => None
  end.

(** A beginning of the text is read, and all of it once nothing is left. *)
Definition arrives (text : list byte) (r : option (list byte * list byte)) (reads : list (list nat * nat)) : Prop :=
  exists got unread rest, r = Some (got, unread) /\ text = got ++ rest /\ (reads <> [] -> length unread = length rest).

Lemma encrypted_arrives k iv ws reads : length iv = 16%nat -> arrives (concat ws) (receive_answer k reads (answer_bytes iv (Encrypted k ws))) reads.
Proof.
  intros Hiv. pose proof (stream_decrypted keystream k iv ws reads Hiv) as Hs. unfold arrives, receive_answer, answer_bytes. cbn [read_blob_type blob_type_byte].
  destruct (read_all keystream reads _ (new_stream k)) as [got unread]. destruct Hs as (rest & E & Hl). by exists got, unread, rest.
Qed.

Lemma flush_delivers r ps : delivers resource_reads [] r ps -> forall fuel, (length ps < fuel)%nat -> flush_parts fuel r = (ps, true).
Proof.
  intros Hd. remember ([] : input) as inp eqn:Ei. induction Hd as [inp r r' inp' E|inp r p r' inp' ps E _ IH]; subst inp; intros [|fuel] Hf; cbn in Hf; [lia| |lia|]; cbn [flush_parts]; unfold resource_reads in E;
    destruct (resource_read r) as [[o r1]| |]; try done; injection E as -> -> <-; [done|]. by rewrite IH by (done || lia).
Qed.

(** Whatever is answered is encrypted with the key of a URL, or it is the 404. *)
Lemma local_answers fuel rq st a ok :
  serve_local fuel rq st = (Some a, ok) ->
  a = PlainText (http_error_text (pr_keep_alive rq) 404 response_error_hdr_retrieval_failed []) \/ exists url writes, a = Encrypted (resource_key_from_url sha256 url) writes.
Proof.
  assert (forall h key, resource_key_from_cached_header h = Some key -> exists url, key = resource_key_from_url sha256 url) as Hk.
  { intros h key. unfold resource_key_from_cached_header. destruct (find_field _ _) as [url|]; [|done]. intros [= <-]. by exists url. }
  unfold serve_local. destruct (bool_decide _).
  - destruct (load_peer_list _ _) as [l| |]; [|intros [= <- <-]; by left|done]. destruct (resource_key_from_cached_header _) eqn:E; [|intros [= <- <-]; by left].
    intros [= <- <-]. apply Hk in E as [url ->]. right. eauto.
  - destruct (store_reader _ _ _) as [r| |]; [|intros [= <- <-]; by left|done]. destruct (resource_read r) as [[[[h|?|?|?|?]|] r']| |]; try done.
    destruct (resource_key_from_cached_header h) eqn:E; [|done]. destruct (if bool_decide _ then _ else _) as [ps ok']. intros [= <- <-]. apply Hk in E as [url ->]. right. eauto.
Qed.

(** C10: how a peer answers requests for what is in its store. To a GET (of the whole or a range) it sends the text of exactly the parts that the reader of the store delivers, to a HEAD that of the head alone
    and to a PROPFIND that of the hash list, each encrypted with the key that is computed from the URL in the stored head: who knows the URL reads that text, in whatever pieces. If the store has no
    such response, or no hash list or URL for a PROPFIND, the answer is a 404 in plain text; a head without URL ends the connection without an answer to a GET or HEAD. Nothing but that 404 is ever
    answered in plain text. *)
Theorem stored_response_served (st : http_stores) (url resource_id iv : list byte) (keep_alive : bool) (range : option (Z * Z)) (fuel : nat) (reads : list (list nat * nat)) :
  length iv = 16%nat ->
  let rq m := {| pr_method := m; pr_keep_alive := keep_alive; pr_resource_id := resource_id; pr_range := range |} in
  let key := resource_key_from_url sha256 url in
  let received a := receive_answer key reads (answer_bytes iv a) in
  let not_found := PlainText (http_error_text keep_alive 404 response_error_hdr_retrieval_failed []) in
  (forall r h ps, store_reader resource_id range st = Ok r -> delivers resource_reads [] r (HeadPart h :: ps) -> find_field response_uri_hdr (rs_fields h) = Some url -> (length ps < fuel)%nat ->
     let get := Encrypted key (parts_writes (HeadPart h :: ps)) in
     let head := Encrypted key (parts_writes [HeadPart h]) in
     serve_local fuel (rq (str "GET")) st = (Some get, true) /\ arrives (concat (parts_writes (HeadPart h :: ps))) (received get) reads /\
     serve_local fuel (rq (str "HEAD")) st = (Some head, true) /\ arrives (print_head h) (received head) reads) /\
  (forall l, load_peer_list resource_id st = Ok l -> find_field response_uri_hdr (rs_fields (sh_head (pl_head l))) = Some url ->
     let hashes := Encrypted key (HashList_write l) in
     serve_local fuel (rq (str "PROPFIND")) st = (Some hashes, true) /\ arrives (concat (HashList_write l)) (received hashes) reads) /\
  (forall e m, m = str "GET" \/ m = str "HEAD" -> store_reader resource_id range st = Fail e -> serve_local fuel (rq m) st = (Some not_found, true)) /\
  (forall r h r' m, m = str "GET" \/ m = str "HEAD" -> store_reader resource_id range st = Ok r -> resource_read r = Ok (Some (HeadPart h), r') -> find_field response_uri_hdr (rs_fields h) = None ->
     serve_local fuel (rq m) st = (None, false)) /\
  (forall e, load_peer_list resource_id st = Fail e -> serve_local fuel (rq (str "PROPFIND")) st = (Some not_found, true)) /\
  (forall l, load_peer_list resource_id st = Ok l -> find_field response_uri_hdr (rs_fields (sh_head (pl_head l))) = None -> serve_local fuel (rq (str "PROPFIND")) st = (Some not_found, true)) /\
  received not_found = Some (http_error_text keep_alive 404 response_error_hdr_retrieval_failed [], []) /\
  (forall m text ok, serve_local fuel (rq m) st = (Some (PlainText text), ok) -> PlainText text = not_found).
Proof.
  intros Hiv rq key received not_found. unfold serve_local, rq, resource_key_from_cached_header. cbn [pr_method pr_resource_id pr_range pr_keep_alive]. split_and!.
  - intros r h ps Hr Hd Hu Hf. inversion Hd as [|inp r0 p r' inp' ps' E Hd']; subst. unfold resource_reads in E. destruct (resource_read r) as [[o r1]| |] eqn:Er; try done. injection E as -> -> <-.
    rewrite !(bool_decide_eq_false_2 (_ = str "PROPFIND")), Hr, Er, Hu, (flush_delivers r' ps Hd' fuel Hf) by done. split_and!; [done|by apply encrypted_arrives|done|].
    replace (print_head h) with (concat (parts_writes [HeadPart h])) by apply app_nil_r. by apply encrypted_arrives.
  - intros l Hl Hu. rewrite bool_decide_eq_true_2, Hl, Hu by done. split; [done|by apply encrypted_arrives].
  - intros e m Hm He. rewrite bool_decide_eq_false_2, He by (by destruct Hm as [-> | ->]). done.
  - intros r h r' m Hm Hr Hh Hu. rewrite bool_decide_eq_false_2, Hr, Hh, Hu by (by destruct Hm as [-> | ->]). done.
  - intros e He. by rewrite bool_decide_eq_true_2, He by done.
  - intros l Hl Hu. by rewrite bool_decide_eq_true_2, Hl, Hu by done.
  - done.
  - intros m text ok Hs. destruct (local_answers fuel (rq m) st _ _ Hs) as [Ha|(? & ? & ?)]; [exact Ha|done].
Qed.

(** ** A connection: [serve_peer_request] *)

(** What happens to a CONNECT request: no injector is known, none can be reached, or the tunnel stands. *)
Variant bridge := NoInjectors | Unreachable | Connected.

Variant peer_reply := Answer_ (a : answer) | NoCache | BadRequest (message : list byte) | TunnelEstablished.

(** The replies to the requests of a connection, each with the outcome of its bridge and whether its reply can be sent; [cache] is the store once there is one. *)
Fixpoint serve_peer_requests (token_exists : list byte -> list byte -> bool) (fuel : nat) (cache : option http_stores) (rqs : list (request_header * (bridge * bool))) : list peer_reply :=
  match rqs with
  | [] => []
  | (rq, (b, sent)) :: rqs =>
      match PeerRequest_read token_exists rq with
      | inl _ => []
      | inr (CacheRequest_ crq) =>
          match cache with
          | None => NoCache :: (if sent && pr_keep_alive crq then serve_peer_requests token_exists fuel cache rqs else [])
          | Some st =>
              let '(a, ok) := serve_local fuel crq st in
              match a with None => [] | Some a => [Answer_ a] end ++ (if ok && sent then serve_peer_requests token_exists fuel cache rqs else [])
          end
      | inr ConnectRequest =>
          [match b with NoInjectors => BadRequest (str "No known injectors") | Unreachable => BadRequest (str "Failed to connect to injector") | Connected => TunnelEstablished end]
      end
  end.

(** The text of a reply without a cache, which has no byte for the type of the blob in front. *)
Definition no_cache_text (keep_alive : bool) : list byte := http_error_text keep_alive 404 [] (str "cache not initialized").

Lemma no_cache_not_understood k reads keep_alive : (forall h, head (print_head h) = Some "H"%byte) -> receive_answer k reads (no_cache_text keep_alive) = None.
Proof.
  intros Hh. unfold no_cache_text, http_error_text, http_error. cbn. match goal with |- context [print_head ?h] => specialize (Hh h); destruct (print_head h) as [|c t] end; [done|]. cbn in Hh. by injection Hh as ->.
Qed.

(** A peer sends a cached response only encrypted: in plain text it sends nothing but errors. *)
Lemma answers_encrypted token_exists fuel cache rqs text : Answer_ (PlainText text) ∈ serve_peer_requests token_exists fuel cache rqs ->
  exists keep_alive, text = http_error_text keep_alive 404 response_error_hdr_retrieval_failed [].
Proof.
  induction rqs as [|[rq [b sent]] rqs IH]; cbn [serve_peer_requests]; [by intros ?%not_elem_of_nil|]. destruct (PeerRequest_read token_exists rq) as [e|[|crq]]; [by intros ?%not_elem_of_nil| |].
  { intros Hin%list_elem_of_singleton. by destruct b. }
  destruct cache as [st|].
  2:{ intros [Hin|Hin]%elem_of_cons; [done|]. destruct (sent && pr_keep_alive crq); [by apply IH|by apply not_elem_of_nil in Hin]. }
  destruct (serve_local fuel crq st) as [a ok] eqn:Es. intros [Hin|Hin]%elem_of_app; [|destruct (ok && sent); [by apply IH|by apply not_elem_of_nil in Hin]].
  destruct a as [a|]; [|by apply not_elem_of_nil in Hin]. apply list_elem_of_singleton in Hin. injection Hin as <-. exists (pr_keep_alive crq).
  apply local_answers in Es as [[= ->]|(? & ? & ?)]; done.
Qed.

End Serve.

(** ** Examples *)

#[local] Existing Instances rfc_base64 rfc_base64_laws rfc_base64_size toy_coding Crypto.toy_scheme Crypto.toy_scheme_laws line_codec.
#[local] Instance sample_beast : BeastOps := {| parse_extensions := fun _ => None; get_keep_alive := fun _ => true; set_keep_alive := fun _ h => h; known_status := fun _ => true |}.

Definition sample_id : list byte := str "0123456789abcdef0123456789abcdef01234567".
Definition sample_store : gmap (list byte * list byte) stored := {[ path_from_resource_id sample_id := six_byte_files ]}.
Definition sample_iv : list byte := str "sixteen bytes iv".
Definition sample_keystream (key iv : list byte) (i : nat) : byte := default Byte.x00 ((key ++ iv) !! (i mod 48)%nat).

Definition sample_peer_list : PeerList :=
  match load_peer_list sample_id sample_store with Ok l => l | _ => {| pl_head := six_byte_signed_head; pl_blocks := [] |} end.

(** The hash list of a stored response is served to who knows its URL. *)
Lemma stored_response_served_witness :
  let reads := [([100]%nat, 50%nat); ([10; 20]%nat, 100%nat)] in
  let key := resource_key_from_url toy_hash (target sample_rq) in
  serve_local toy_hash (fun _ => []) (fun _ => []) 10 {| pr_method := str "PROPFIND"; pr_keep_alive := true; pr_resource_id := sample_id; pr_range := None |} sample_store =
    (Some (Encrypted key (HashList_write sample_peer_list)), true) /\
  arrives (concat (HashList_write sample_peer_list))
    (receive_answer sample_keystream key reads (answer_bytes sample_keystream sample_iv (Encrypted key (HashList_write sample_peer_list)))) reads.
Proof.
  intros reads key. refine (proj1 (proj2 (stored_response_served toy_hash (fun _ => []) (fun _ => []) sample_keystream sample_store (target sample_rq) sample_id sample_iv true None 10 reads eq_refl)) sample_peer_list _ _); vm_compute; reflexivity.
Defined.

(** A request for more than one range is answered as one for the whole response. *)
Lemma two_ranges_ignored token_exists :
  PeerRequest_read token_exists (set_rq_fields (peer_request (str "GET") sample_id) (set_field (str "Range") (str "bytes=0-5,6-9") (rq_fields (peer_request (str "GET") sample_id)))) =
  PeerRequest_read token_exists (peer_request (str "GET") sample_id).
Proof. by vm_compute. Qed.
