(* ===== verification/FrontEnd.v ===== *)
(** * The front end of the client: src/client_front_end.cpp, with the settings of src/client_config.h, src/bittorrent/bootstrap.cpp and src/logger.h

    User agents change the settings of a client with requests to its front end.  [serve] is a function of the state and the request; calls of the cache client and of the metrics are returned in the order in which
    they are made, and what they answer is an argument.  The pages themselves are left out: a response has a status and says what its body is; the forms of the portal are data.  The order in which the
    hash table of the arguments is gone through is an argument too. *)
From S2P Require Import Prelude Number SplitString Url Http Base64 NodeId Contact CacheControl Access.

(** ** Text in pages *)

Definition replace_all (c : byte) (by_ : list byte) (s : list byte) : list byte := concat ((fun x => if bool_decide (x = c) then by_ else [x]) <$> s).

Definition as_safe_html (s : list byte) : list byte :=
  let s := replace_all "&"%byte (str "&amp;") s in
  let s := replace_all "<"%byte (str "&lt;") s in
  let s := replace_all "<"%byte (str "&gt;") s in
  let s := replace_all Byte.x22 (str "&quot;") s in
  replace_all "'"%byte (str "&#39;") s.

(** ** Log levels: src/logger.h *)

Variant log_level_t := SILLY | DEBUG | VERBOSE | INFO | WARN | ERROR_LEVEL | ABORT.

#[export] Instance log_level_eq_dec : EqDecision log_level_t.
Proof. solve_decision. Defined.

Definition log_level_str (l : log_level_t) : list byte :=
  match l with
  | SILLY => str "SILLY" | DEBUG => str "DEBUG" | VERBOSE => str "VERBOSE" | INFO => str "INFO" | WARN => str "WARN" | ERROR_LEVEL => str "ERROR" | ABORT => str "ABORT"
  end.

Definition log_level_from_string (s : list byte) : option log_level_t := List.find (fun l => bool_decide (log_level_str l = s)) [SILLY; DEBUG; VERBOSE; INFO; WARN; ERROR_LEVEL; ABORT].

Definition all_levels : list log_level_t := [SILLY; DEBUG; VERBOSE; INFO; WARN; ERROR_LEVEL; ABORT].

(** [Input::update]: the new value and whether it changed. *)
Fixpoint update_from (levels : list log_level_t) (current : log_level_t) (new_value : list byte) : log_level_t * bool :=
  match levels with
  | [] => (current, false)
  | l :: levels => if bool_decide (log_level_str l = new_value) && negb (bool_decide (current = l)) then (l, true) else update_from levels current new_value
  end.

Definition input_update (current : log_level_t) (new_value : list byte) : log_level_t * bool := update_from all_levels current new_value.

(** ** Bootstrap servers: src/bittorrent/bootstrap.cpp *)

Section Bootstrap.
(** [asio::ip::make_address]. *)
Variable make_address : list byte -> option ip_address.

Variant Address := AEndpoint (ep : endpoint) | AIp (a : ip_address) | AHost (s : list byte).

#[export] Instance Address_eq_dec : EqDecision Address.
Proof. solve_decision. Defined.

#[export] Instance Address_countable : Countable Address.
Proof.
  refine (inj_countable' (fun a => match a with AEndpoint e => inl (inl e) | AIp a => inl (inr a) | AHost s => inr s end) (fun x => match x with inl (inl e) => AEndpoint e | inl (inr a) => AIp a | inr s => AHost s end) _).
  by intros [].
Defined.

Fixpoint find_last (c : byte) (s : list byte) : option nat :=
  match s with
  | [] => None
  | x :: s => match find_last c s with Some n => Some (S n) | None => if bool_decide (x = c) then Some O else None end
  end.

(** [util::split_ep] *)
Definition split_ep (ep : list byte) : list byte * list byte :=
  match ep with
  | [] => ([], [])
  | _ =>
      let '(host, port) :=
        match find_last ":"%byte ep with
        | Some cpos => if bool_decide (hd_error (rev ep) = Some "]"%byte) then (ep, []) else (take cpos ep, drop (S cpos) ep)
        | None => (ep, [])
        end in
      match host with
      | "["%byte :: rest => (take (length host - 2) rest, port)
      | _ => (host, port)
      end
  end.

Definition is_label_char (c : byte) : bool := bool_decide (c = "_"%byte) || is_digit c || ((97 <=? code c) && (code c <=? 122)).

(** The expression of host names: labels of lower case letters, digits and underscores, with dots between them. *)
Definition is_host_name (s : list byte) : bool := forallb (fun l => negb (bool_decide (l = [])) && forallb is_label_char l) (split_on "."%byte s).

(** [parse_address]; the byte behind the text is the end of the string. *)
Definition parse_address (addr : list byte) : option Address :=
  let '(host, port) := split_ep addr in
  if bool_decide (host = []) then None
  else
    match (match port with [] => Some 0 | _ => fst (number_unsigned W2 Byte.x00 port) end) with
    | None => None
    | Some port_n =>
        match make_address host with
        | Some a => Some (if port_n =? 0 then AIp a else AEndpoint {| address := a; Contact.port := port_n |})
        | None =>
            let host := lower_str host in
            if is_host_name host then Some (AHost (if port_n =? 0 then host else host ++ str ":" ++ to_string port_n)) else None
        end
    end.

End Bootstrap.

(** ** The settings: src/client_config.h *)

(** What is written to the file of saved options. *)
Record saved_options := { s_log_level : log_level_t; s_log_file : bool; s_bootstraps : gset Address; s_no_default : bool; s_origin : bool; s_injector : bool; s_proxy : bool }.

Record ClientConfig := {
  frontend_credentials : list byte;
  front_end_access_token : option (list byte);
  is_frontend_post_requirement_enabled : bool;
  origin_access : bool;
  proxy_access : bool;
  injector_access : bool;
  distributed_cache : bool;
  log_level : log_level_t;
  is_log_file_enabled : bool;
  bt_bootstrap_extras : gset Address;
  bt_bootstrap_no_default : bool;
  saved : option saved_options;
}.

(** The values of the settings that [save_persistent] writes; the write is taken to succeed. *)
Definition persistent (c : ClientConfig) : saved_options :=
  {| s_log_level := log_level c; s_log_file := is_log_file_enabled c; s_bootstraps := bt_bootstrap_extras c; s_no_default := bt_bootstrap_no_default c; s_origin := origin_access c; s_injector := injector_access c; s_proxy := proxy_access c |}.

Definition save_persistent (c : ClientConfig) : ClientConfig :=
  {| frontend_credentials := frontend_credentials c; front_end_access_token := front_end_access_token c; is_frontend_post_requirement_enabled := is_frontend_post_requirement_enabled c;
     origin_access := origin_access c; proxy_access := proxy_access c; injector_access := injector_access c; distributed_cache := distributed_cache c; log_level := log_level c;
     is_log_file_enabled := is_log_file_enabled c; bt_bootstrap_extras := bt_bootstrap_extras c; bt_bootstrap_no_default := bt_bootstrap_no_default c; saved := Some (persistent c) |}.

(** The setters, each a field with its new value; the log file is enabled if it can be opened. *)
Variant setting := Origin (v : bool) | Proxy (v : bool) | InjectorAccess (v : bool) | DistributedCache (v : bool) | LogLevel (l : log_level_t) | LogFile (v opens : bool) | Bootstraps (b : gset Address).

Definition assign (x : setting) (c : ClientConfig) : ClientConfig :=
  {| frontend_credentials := frontend_credentials c; front_end_access_token := front_end_access_token c; is_frontend_post_requirement_enabled := is_frontend_post_requirement_enabled c;
     origin_access := match x with Origin v => v | _ => origin_access c end; proxy_access := match x with Proxy v => v | _ => proxy_access c end;
     injector_access := match x with InjectorAccess v => v | _ => injector_access c end; distributed_cache := match x with DistributedCache v => v | _ => distributed_cache c end;
     log_level := match x with LogLevel l => l | _ => log_level c end; is_log_file_enabled := match x with LogFile v opens => v && opens | _ => is_log_file_enabled c end;
     bt_bootstrap_extras := match x with Bootstraps b => b | _ => bt_bootstrap_extras c end; bt_bootstrap_no_default := bt_bootstrap_no_default c; saved := saved c |}.

(** Whether the setting has the value already: [CHANGE_AND_SAVE_OPS]. *)
Definition unchanged (x : setting) (c : ClientConfig) : bool :=
  match x with
  | Origin v => bool_decide (v = origin_access c)
  | Proxy v => bool_decide (v = proxy_access c)
  | InjectorAccess v => bool_decide (v = injector_access c)
  | DistributedCache v => bool_decide (v = distributed_cache c)
  | LogLevel l => bool_decide (l = log_level c)
  | LogFile v _ => bool_decide (v = is_log_file_enabled c)
  | Bootstraps b => bool_decide (b = bt_bootstrap_extras c)
  end.

(** A setter; that of the cache does not save. *)
Definition set_option (x : setting) (c : ClientConfig) : ClientConfig :=
  match x with
  | DistributedCache _ => assign x c
  | _ => if unchanged x c then c else save_persistent (assign x c)
  end.

(** ** The front end *)

Record ClientFrontEnd := { _auto_refresh_enabled : bool; _log_level_no_file : option log_level_t; _log_level_input : log_level_t; _csrf_token : list byte }.

Definition new_front_end (c : ClientConfig) (token : list byte) : ClientFrontEnd :=
  {| _auto_refresh_enabled := false; _log_level_no_file := None; _log_level_input := log_level c; _csrf_token := token |}.

(** The configuration, the front end, whether there is a metrics client (it is a no-op unless metrics are configured) and whether it is enabled. *)
Record state := { config : ClientConfig; front_end : ClientFrontEnd; metrics_configured : bool; metrics_enabled : bool }.

Definition set_config (c : ClientConfig) (st : state) : state := {| config := c; front_end := front_end st; metrics_configured := metrics_configured st; metrics_enabled := metrics_enabled st |}.
Definition set_front_end (f : ClientFrontEnd) (st : state) : state := {| config := config st; front_end := f; metrics_configured := metrics_configured st; metrics_enabled := metrics_enabled st |}.
(** [Client::enable] and [Client::disable] of the metrics, which return at once without an implementation. *)
Definition set_metrics (enable : bool) (st : state) : state :=
  if metrics_configured st then {| config := config st; front_end := front_end st; metrics_configured := true; metrics_enabled := enable |} else st.
Definition with_level (no_file : option log_level_t) (input : log_level_t) (f : ClientFrontEnd) : ClientFrontEnd :=
  {| _auto_refresh_enabled := _auto_refresh_enabled f; _log_level_no_file := no_file; _log_level_input := input; _csrf_token := _csrf_token f |}.

Section Serve.
Context `{Base64Table}.
Variable make_address : list byte -> option ip_address.
(** [boost::urls::decode_view], which throws ([None]) where a percent sign is not followed by two hexadecimal digits, and the default level of the program. *)
Variables (decode_view : list byte -> option (list byte)) (default_log_level : log_level_t).

Definition enable_log_to_file (opens : bool) (st : state) : state :=
  if is_log_file_enabled (config st) then st
  else
    let st := set_front_end (with_level (Some (log_level (config st))) DEBUG (front_end st)) st in
    set_config (set_option (LogFile true opens) (set_option (LogLevel DEBUG) (config st))) st.

Definition disable_log_to_file (opens : bool) (st : state) : state :=
  if negb (is_log_file_enabled (config st)) then st
  else
    let c := set_option (LogFile false opens) (config st) in
    let level := default default_log_level (_log_level_no_file (front_end st)) in
    set_config (set_option (LogLevel level) c) (set_front_end (with_level (Some level) level (front_end st)) st).

Definition percent_decode (s : list byte) : option (list byte) := match s with [] => Some [] | _ => decode_view s end.

(** [set_bt_extra_bootstraps]: the servers, unless one cannot be parsed or decoding throws. *)
Variant bootstraps := Servers (b : gset Address) | BadServer | DecodeThrows.

Fixpoint parse_bootstraps (parts : list string_view) (bsx : gset Address) : bootstraps :=
  match parts with
  | [] => Servers bsx
  | p :: parts =>
      match chars p with
      | [] => parse_bootstraps parts bsx
      | enc =>
          match percent_decode enc with
          | None => DecodeThrows
          | Some [] => BadServer
          | Some bs => match parse_address make_address bs with None => BadServer | Some a => parse_bootstraps parts ({[a]} ∪ bsx) end
          end
      end
  end.

(** [None]: an exception. *)
Definition set_bt_extra_bootstraps (v : list byte) (c : ClientConfig) : option ClientConfig :=
  match parse_bootstraps (SplitString (view_of (take 256 v)) "+"%byte) ∅ with
  | DecodeThrows => None
  | BadServer => Some c
  | Servers b => Some (set_option (Bootstraps b) c)
  end.

(** The arguments of a request: the pieces between [&], the last value of each. *)
Definition add_argument (m : gmap (list byte) (list byte)) (kv : list byte) : gmap (list byte) (list byte) :=
  match kv with
  | [] => m
  | _ => match find_char "="%byte kv with Some eq => <[take eq kv := drop (S eq) kv]> m | None => <[kv := []]> m end
  end.

Definition parse_request_arguments (input : list byte) (m : gmap (list byte) (list byte)) : gmap (list byte) (list byte) := foldl add_argument m (split_on "&"%byte input).

Variant call := PinGroup (name : list byte) | UnpinGroup (name : list byte) | LocalPurge | SetAuxKeyValue (record key value : list byte).
Variant page := NoBody | CaPem | LogText | GroupList | PinnedList | ApiStatus | ApiEndpoints | GroupsJson | ErrorJson | MetricsOk | MetricsError | Portal | Redirect.
Record Response := { status : Z; page_ : page }.

Definition reply (s : Z) (p : page) : Response := {| status := s; page_ := p |}.

(** What the other components say: whether there is a cache client, the error of its operation, the result of the metrics, and whether the log file can be opened. *)
Variant call_error := NoSuchFile | OtherError.
Variant SetAuxResult := AuxOk | BadRecordId | Noop.
Record outside := { has_cache : bool; group_error : option call_error; aux_result : SetAuxResult; log_file_opens : bool }.

Definition may_change (is_post required : bool) : bool := is_post || negb required.

Definition handle_api_groups (sub_path : list byte) (is_post required : bool) (args : gmap (list byte) (list byte)) (o : outside) : list call * Response :=
  let group_name := default [] (args !! str "name") in
  if negb (has_cache o) then ([], reply 500 ErrorJson)
  else
    let finish := match group_error o with None => reply 200 GroupsJson | Some NoSuchFile => reply 404 ErrorJson | Some OtherError => reply 500 ErrorJson end in
    if bool_decide (sub_path = str "/") || bool_decide (sub_path = []) then ([], reply 200 GroupsJson)
    else if starts_with sub_path (str "/pinned") then (if bool_decide (group_name = []) then ([], reply 200 GroupsJson) else ([], finish))
    else if starts_with sub_path (str "/pin") && may_change is_post required then ([PinGroup group_name], finish)
    else if starts_with sub_path (str "/unpin") && may_change is_post required then ([UnpinGroup group_name], finish)
    else ([], reply 404 ErrorJson).

Definition handle_api_metrics (sub_path : list byte) (is_post required : bool) (args : gmap (list byte) (list byte)) (o : outside) : list call * Response :=
  if starts_with sub_path (str "/set_key_value") && may_change is_post required then
    match args !! str "record_id", args !! str "key", args !! str "value" with
    | Some r, Some k, Some v =>
        ([SetAuxKeyValue r k v], match aux_result o with AuxOk => reply 200 MetricsOk | BadRecordId => reply 409 MetricsError | Noop => reply 400 MetricsError end)
    | _, _, _ => ([], reply 400 MetricsError)
    end
  else ([], reply 400 MetricsError).

Definition bool_value_arguments : list (list byte) := str <$> ["origin_access"; "proxy_access"; "injector_access"; "distributed_cache"; "auto_refresh"; "metrics"; "logfile"]%string.

Definition set_flag (opens : bool) (argument : list byte) (enable : bool) (st : state) : state :=
  if bool_decide (argument = str "origin_access") then set_config (set_option (Origin enable) (config st)) st
  else if bool_decide (argument = str "proxy_access") then set_config (set_option (Proxy enable) (config st)) st
  else if bool_decide (argument = str "injector_access") then set_config (set_option (InjectorAccess enable) (config st)) st
  else if bool_decide (argument = str "distributed_cache") then set_config (set_option (DistributedCache enable) (config st)) st
  else if bool_decide (argument = str "auto_refresh") then
    set_front_end {| _auto_refresh_enabled := enable; _log_level_no_file := _log_level_no_file (front_end st); _log_level_input := _log_level_input (front_end st); _csrf_token := _csrf_token (front_end st) |} st
  else if bool_decide (argument = str "logfile") then (if enable then enable_log_to_file opens st else disable_log_to_file opens st)
  else set_metrics enable st.

Definition set_loglevel (value : list byte) (st : state) : state :=
  let '(level, changed) := input_update (_log_level_input (front_end st)) value in
  if changed then
    let c := set_option (LogLevel level) (config st) in
    set_config c (set_front_end (with_level (if is_log_file_enabled c then Some level else _log_level_no_file (front_end st)) level (front_end st)) st)
  else st.

(** One argument of the portal. *)
Variant argument_result := Applied (st : state) (calls : list call) | BadArgument | ArgumentThrows.

Definition apply_argument (o : outside) (arg value : list byte) (st : state) : argument_result :=
  if bool_decide (arg ∈ bool_value_arguments) then
    if bool_decide (value = str "enable") then Applied (set_flag (log_file_opens o) arg true st) []
    else if bool_decide (value = str "disable") then Applied (set_flag (log_file_opens o) arg false st) []
    else BadArgument
  else if bool_decide (arg = str "loglevel") then Applied (set_loglevel value st) []
  else if bool_decide (arg = str "purge_cache") then Applied st (if has_cache o then [LocalPurge] else [])
  else if bool_decide (arg = str "bt_extra_bootstrap") then
    if has_cache o then match set_bt_extra_bootstraps value (config st) with Some c => Applied (set_config c st) [] | None => ArgumentThrows end else Applied st []
  else BadArgument.

(** The loop over the arguments; it stops at a bad one and at an exception, with what was done before. *)
Variant loop_end := AllApplied | StoppedAtBad | Threw.

Fixpoint apply_arguments (o : outside) (args : list (list byte * list byte)) (st : state) : state * list call * loop_end :=
  match args with
  | [] => (st, [], AllApplied)
  | (a, v) :: args =>
      match apply_argument o a v st with
      | BadArgument => (st, [], StoppedAtBad)
      | ArgumentThrows => (st, [], Threw)
      | Applied st calls => let '(st, calls', e) := apply_arguments o args st in (st, calls ++ calls', e)
      end
  end.

Definition is_post (rq : request_header) : bool := bool_decide (method rq = str "POST").

(** [path_str]: the path of the URL, or the target as it is. *)
Definition request_path (rq : request_header) : list byte :=
  match Url_from (target rq) with
  | Some u => match path u with [] => target rq | p => p end
  | None => target rq
  end.

Definition url_arguments (p : list byte) : gmap (list byte) (list byte) :=
  match find_char "?"%byte p with
  | Some n => if (1 <? length p - n)%nat then parse_request_arguments (drop (S n) p) ∅ else ∅
  | None => ∅
  end.

Definition request_arguments (rq : request_header) (body : list byte) : gmap (list byte) (list byte) :=
  let args := url_arguments (request_path rq) in
  if is_post rq then parse_request_arguments body args else args.

Definition csrf_ok (rq : request_header) (body : list byte) (st : state) : bool := negb (is_post rq) || bool_decide (request_arguments rq body !! str "csrf" = Some (_csrf_token (front_end st))).

(** The access checks: the status of the refusal, or an exception. *)
Variant gate := Pass | Refused (status : Z) | Throws.

Definition check_access (rq : request_header) (body : list byte) (st : state) : gate :=
  let credentials := frontend_credentials (config st) in
  let authorized :=
    if bool_decide (credentials = []) then Pass
    else
      match find_field (str "Authorization") (rq_fields rq) with
      | None => Refused 401
      | Some auth => match parse_auth (field_view auth) with None => Throws | Some computed => if bool_decide (computed = credentials) then Pass else Refused 401 end
      end in
  match authorized with
  | Pass =>
      match front_end_access_token (config st) with
      | Some token => if bool_decide (token = field_value (str "X-Ouinet-Front-End-Token") (rq_fields rq)) then (if csrf_ok rq body st then Pass else Refused 403) else Refused 403
      | None => if csrf_ok rq body st then Pass else Refused 403
      end
  | r => r
  end.

(** [ClientFrontEnd::serve]; [order] is the order of the hash table, and [None] for the response is an exception. *)
Definition serve (order : list (list byte * list byte) -> list (list byte * list byte)) (o : outside) (rq : request_header) (body : list byte) (st : state) : state * list call * option Response :=
  match check_access rq body st with
  | Throws => (st, [], None)
  | Refused s => (st, [], Some (reply s NoBody))
  | Pass =>
      let p := request_path rq in
      let args := (if is_post rq then delete (str "csrf") (request_arguments rq body) else request_arguments rq body) in
      let required := is_frontend_post_requirement_enabled (config st) in
      if bool_decide (p = str "/ca.pem") then (st, [], Some (reply 200 CaPem))
      else if bool_decide (p = str "/logfile.txt") then (st, [], Some (reply 200 LogText))
      else if bool_decide (p = str "/groups.txt") then (st, [], Some (reply 200 GroupList))
      else if bool_decide (p = str "/pinned-groups.txt") then (st, [], Some (reply 200 PinnedList))
      else if bool_decide (p = str "/api/status") then (st, [], Some (reply 200 ApiStatus))
      else if bool_decide (p = str "/api/endpoints") then (st, [], Some (reply 200 ApiEndpoints))
      else if starts_with p (str "/api/groups") then
        let '(calls, r) := handle_api_groups (drop 11 p) (is_post rq) required args o in (st, calls, Some r)
      else if starts_with p (str "/api/metrics") then
        let '(calls, r) := handle_api_metrics (drop 12 p) (is_post rq) required args o in (st, calls, Some r)
      else if may_change (is_post rq) required then
        let '(st', calls, e) := apply_arguments o (order (map_to_list args)) st in
        match e with
        | Threw => (st', calls, None)
        | StoppedAtBad => (st', calls, Some (reply 400 NoBody))
        | AllApplied => (st', calls, Some (if negb (bool_decide (args = ∅)) then reply 302 Redirect else reply 200 Portal))
        end
      else (st, [], Some (reply 200 Portal))
  end.

(** ** The forms of the portal *)

(** The fields of a form, as the browser sends them; the values are encoded already. *)
Definition form := list (list byte * list byte).

Definition form_body (f : form) : list byte := join "&"%byte ((fun '(n, v) => n ++ "="%byte :: v) <$> f).

Definition csrf_input (st : state) : list byte * list byte := (str "csrf", _csrf_token (front_end st)).

(** [ToggleInput], [Input], [TextInput] and the form that purges the cache. *)
Definition toggle_form (name : list byte) (current_value : bool) (st : state) : form := [(name, if current_value then str "disable" else str "enable"); csrf_input st].
Definition log_level_form (level : log_level_t) (st : state) : form := [(str "loglevel", log_level_str level); csrf_input st].
Definition bootstraps_form (text : list byte) (st : state) : form := [(str "bt_extra_bootstraps", text); csrf_input st].
Definition purge_form : form := [(str "purge_cache", str "Purge+cache+now")].

(** The toggles of [handle_portal] with the values that they show. *)
Definition portal_toggles (st : state) : list (list byte * bool) :=
  [(str "auto_refresh", _auto_refresh_enabled (front_end st)); (str "origin_access", origin_access (config st)); (str "proxy_access", proxy_access (config st));
   (str "injector_access", injector_access (config st)); (str "distributed_cache", distributed_cache (config st)); (str "logfile", is_log_file_enabled (config st)); (str "metrics", metrics_enabled st)].

(** ** Who may change what *)

Lemma may_change_post p : may_change p true = true -> p = true.
Proof. by destruct p. Qed.

Lemma groups_change sub p required args o : fst (handle_api_groups sub p required args o) <> [] -> may_change p required = true.
Proof.
  unfold handle_api_groups. destruct (has_cache o); cbn [negb]; [|done]. destruct (_ || _); [done|]. destruct (starts_with sub (str "/pinned")); [by destruct (bool_decide _)|].
  destruct (may_change p required); [done|]. by rewrite !andb_false_r.
Qed.

Lemma metrics_change sub p required args o : fst (handle_api_metrics sub p required args o) <> [] -> may_change p required = true.
Proof. unfold handle_api_metrics. destruct (may_change p required); [done|]. by rewrite andb_false_r. Qed.

(** C11: the front end changes a setting, or lets the cache or the metrics change something, only for a request that has the credentials and the access token of the configuration, if there are any, and, where changes are required
    to be posted, is a POST request with the token that only a page of this front end knows; and no request changes the credentials, the access token, the requirement or that token. *)
Theorem front_end_changes_guarded order o rq body st st' calls r :
  serve order o rq body st = (st', calls, r) -> st' <> st \/ calls <> [] ->
  (frontend_credentials (config st) = [] \/ exists auth, find_field (str "Authorization") (rq_fields rq) = Some auth /\ parse_auth (field_view auth) = Some (frontend_credentials (config st))) /\
  (forall token, front_end_access_token (config st) = Some token -> field_value (str "X-Ouinet-Front-End-Token") (rq_fields rq) = token) /\
  (is_frontend_post_requirement_enabled (config st) = true -> method rq = str "POST") /\
  (method rq = str "POST" -> request_arguments rq body !! str "csrf" = Some (_csrf_token (front_end st))).
Proof.
  unfold serve. destruct (check_access rq body st) eqn:Ec; [|intros [= <- <- <-] [?|?]; done..]. intros E Hch.
  assert (may_change (is_post rq) (is_frontend_post_requirement_enabled (config st)) = true) as Hm.
  { revert E. set (m := may_change _ _). set (args := (if is_post rq then _ else _)). do 6 (destruct (bool_decide _); [intros [= <- <- <-]; by destruct Hch|]).
    destruct (starts_with _ (str "/api/groups")).
    { pose proof (groups_change (drop 11 (request_path rq)) (is_post rq) (is_frontend_post_requirement_enabled (config st)) args o) as Hg. destruct (handle_api_groups _ _ _ _ _) as [cs rr]. intros [= <- <- <-]. destruct Hch; [done|by apply Hg]. }
    destruct (starts_with _ (str "/api/metrics")).
    { pose proof (metrics_change (drop 12 (request_path rq)) (is_post rq) (is_frontend_post_requirement_enabled (config st)) args o) as Hg. destruct (handle_api_metrics _ _ _ _ _) as [cs rr]. intros [= <- <- <-]. destruct Hch; [done|by apply Hg]. }
    destruct m; [done|]. intros [= <- <- <-]. by destruct Hch. }
  clear E. unfold check_access in Ec. assert (csrf_ok rq body st = true /\ (forall token, front_end_access_token (config st) = Some token -> field_value (str "X-Ouinet-Front-End-Token") (rq_fields rq) = token) /\
    (frontend_credentials (config st) = [] \/ exists auth, find_field (str "Authorization") (rq_fields rq) = Some auth /\ parse_auth (field_view auth) = Some (frontend_credentials (config st)))) as (H1 & H2 & H3).
  { destruct (if bool_decide (frontend_credentials (config st) = []) then Pass else _) eqn:Ea; try done.
    assert (frontend_credentials (config st) = [] \/ exists auth, find_field (str "Authorization") (rq_fields rq) = Some auth /\ parse_auth (field_view auth) = Some (frontend_credentials (config st))) as Hcred.
    { revert Ea. case_bool_decide; [by left|]. destruct (find_field _ _) as [auth|]; [|done]. destruct (parse_auth (field_view auth)) as [computed|] eqn:Ep; [|done]. case_bool_decide as Eq; [|done]. subst computed. intros _. right. by exists auth. }
    clear Ea. destruct (front_end_access_token (config st)) as [token|].
    - revert Ec. case_bool_decide as Et; [|done]. destruct (csrf_ok rq body st); [|done]. intros _. split_and!; [done|by intros ? [= <-]|done].
    - destruct (csrf_ok rq body st); [|done]. by split_and!. }
  split_and!; [done|done| |].
  - intros Hreq. rewrite Hreq in Hm. apply may_change_post in Hm. unfold is_post in Hm. by apply bool_decide_eq_true in Hm.
  - intros Hp. unfold csrf_ok, is_post in H1. rewrite bool_decide_eq_true_2 in H1 by done. cbn in H1. by apply bool_decide_eq_true in H1.
Qed.

(** ** What the settings are *)

(** The level that is shown is the one in force, and what was saved is what is set. *)
Record settings_ok (st : state) : Prop := {
  level_shown : _log_level_input (front_end st) = log_level (config st);
  settings_saved : saved (config st) = None \/ saved (config st) = Some (persistent (config st));
}.

(** What no request changes. *)
Definition same_access (a b : state) : Prop :=
  frontend_credentials (config a) = frontend_credentials (config b) /\ front_end_access_token (config a) = front_end_access_token (config b) /\
  is_frontend_post_requirement_enabled (config a) = is_frontend_post_requirement_enabled (config b) /\ _csrf_token (front_end a) = _csrf_token (front_end b).

Definition saved_ok (c : ClientConfig) : Prop := saved c = None \/ saved c = Some (persistent c).

Lemma set_option_saved x c : saved_ok c -> saved_ok (set_option x c).
Proof. intros Hs. unfold set_option. destruct x; try (destruct (unchanged _ c); [done|by right]). destruct c as [? ? ? ? ? ? ? ? ? ? s]. unfold saved_ok, persistent in *. cbn in *. done. Qed.

Lemma set_option_level x c : log_level (set_option x c) = match x with LogLevel l => l | _ => log_level c end.
Proof. unfold set_option. destruct x; cbn [unchanged]; try (case_bool_decide; done). done. Qed.

Lemma set_option_file x c : is_log_file_enabled (set_option x c) = match x with LogFile v opens => if bool_decide (v = is_log_file_enabled c) then v else v && opens | _ => is_log_file_enabled c end.
Proof. unfold set_option. destruct x; cbn [unchanged]; try (case_bool_decide; done). done. Qed.

Lemma set_option_access x c : frontend_credentials (set_option x c) = frontend_credentials c /\ front_end_access_token (set_option x c) = front_end_access_token c /\
  is_frontend_post_requirement_enabled (set_option x c) = is_frontend_post_requirement_enabled c.
Proof. unfold set_option. destruct x; cbn [unchanged]; try (case_bool_decide; done). done. Qed.

Lemma set_config_ok x st : (forall l, x <> LogLevel l) -> settings_ok st -> settings_ok (set_config (set_option x (config st)) st) /\ same_access (set_config (set_option x (config st)) st) st.
Proof.
  intros Hx [H1 H2]. split.
  - split; cbn; [|by apply set_option_saved]. rewrite set_option_level. destruct x; try done. by destruct (Hx l).
  - destruct (set_option_access x (config st)) as (? & ? & ?). done.
Qed.

Lemma set_flag_access opens n enable st : same_access (set_flag opens n enable st) st.
Proof.
  assert (forall x, same_access (set_config (set_option x (config st)) st) st) as H1 by (intros x; destruct (set_option_access x (config st)) as (? & ? & ?); done).
  assert (forall a b, same_access (set_config (set_option a (set_option b (config st))) st) st) as H2.
  { intros a b. destruct (set_option_access a (set_option b (config st))) as (A1 & A2 & A3). destruct (set_option_access b (config st)) as (B1 & B2 & B3). unfold same_access. cbn. by rewrite A1, A2, A3, B1, B2, B3. }
  unfold set_flag. do 4 (destruct (bool_decide _); [apply H1|]). destruct (bool_decide _); [done|]. destruct (bool_decide _); [|unfold set_metrics; by destruct (metrics_configured st)].
  destruct enable; [unfold enable_log_to_file|unfold disable_log_to_file]; destruct (is_log_file_enabled (config st)); cbn [negb]; try done; apply H2.
Qed.

Lemma log_file_ok opens st (enable : bool) : settings_ok st -> settings_ok (if enable then enable_log_to_file opens st else disable_log_to_file opens st).
Proof.
  intros [H1 H2]. assert (forall a b, saved_ok (set_option a (set_option b (config st)))) as Hsv by (intros; by apply set_option_saved, set_option_saved).
  destruct enable; [unfold enable_log_to_file|unfold disable_log_to_file]; destruct (is_log_file_enabled (config st)); cbn [negb set_front_end config]; try done;
    (split; cbn [config front_end set_config set_front_end with_level _log_level_input]; [|apply Hsv]; by rewrite !set_option_level).
Qed.

Lemma set_flag_ok opens a enable st : settings_ok st -> settings_ok (set_flag opens a enable st) /\ same_access (set_flag opens a enable st) st.
Proof.
  intros Hok. split; [|apply set_flag_access]. unfold set_flag. do 4 (destruct (bool_decide _); [by apply set_config_ok|]). destruct (bool_decide _); [by destruct Hok|]. destruct (bool_decide _); [by apply (log_file_ok opens st enable)|]. unfold set_metrics. destruct Hok. by destruct (metrics_configured st).
Qed.

Lemma set_loglevel_ok v st : settings_ok st -> settings_ok (set_loglevel v st) /\ same_access (set_loglevel v st) st.
Proof.
  intros [H1 H2]. unfold set_loglevel. destruct (input_update _ v) as [l []]; [|by split]. destruct (set_option_access (LogLevel l) (config st)) as (? & ? & ?). split; [|done].
  split; cbn [config front_end set_config set_front_end with_level _log_level_input]; [by rewrite set_option_level|by apply (set_option_saved (LogLevel l))].
Qed.

Lemma apply_argument_ok o a v st st' calls : settings_ok st -> apply_argument o a v st = Applied st' calls -> settings_ok st' /\ same_access st' st.
Proof.
  intros Hok. unfold apply_argument. case_bool_decide. { case_bool_decide; [intros [= <- <-]; by apply set_flag_ok|]. case_bool_decide; [|done]. intros [= <- <-]. by apply set_flag_ok. }
  case_bool_decide; [intros [= <- <-]; by apply set_loglevel_ok|]. case_bool_decide; [by intros [= <- <-]|]. case_bool_decide; [|done]. destruct (has_cache o); [|by intros [= <- <-]].
  unfold set_bt_extra_bootstraps. destruct (parse_bootstraps _ _) as [b| |]; [intros [= <- <-]; by apply (set_config_ok (Bootstraps b))| |done]. intros [= <- <-]. by destruct st.
Qed.

Lemma same_access_trans a b c : same_access a b -> same_access b c -> same_access a c.
Proof. unfold same_access. intros (H1 & H2 & H3 & H4). by rewrite H1, H2, H3, H4. Qed.

Lemma apply_arguments_ok o args : forall st, settings_ok st -> settings_ok (fst (fst (apply_arguments o args st))) /\ same_access (fst (fst (apply_arguments o args st))) st.
Proof.
  induction args as [|[a v] args IH]; intros st Hok; [done|]. cbn [apply_arguments]. destruct (apply_argument o a v st) as [st1 calls| |] eqn:E; [|done..].
  destruct (apply_argument_ok _ _ _ _ _ _ Hok E) as [H1 H2]. destruct (IH st1 H1) as [H3 H4]. destruct (apply_arguments o args st1) as [[st2 calls'] ok]. cbn in *. split; [done|by eapply same_access_trans].
Qed.

Lemma serve_ok order o rq body st : settings_ok st -> settings_ok (fst (fst (serve order o rq body st))) /\ same_access (fst (fst (serve order o rq body st))) st.
Proof.
  intros Hok. unfold serve. destruct (check_access rq body st); [|done..]. set (args := (if is_post rq then _ else _)). do 6 (destruct (bool_decide _); [done|]).
  destruct (starts_with _ _); [by destruct (handle_api_groups _ _ _ _ _)|]. destruct (starts_with _ _); [by destruct (handle_api_metrics _ _ _ _ _)|].
  destruct (may_change _ _); [|done]. pose proof (apply_arguments_ok o (order (map_to_list args)) st Hok) as Ha. destruct (apply_arguments o _ st) as [[st1 calls1] []]; done.
Qed.

Lemma log_file_level_back st : is_log_file_enabled (config st) = false ->
  log_level (config (set_flag true (str "logfile") false (set_flag true (str "logfile") true st))) = log_level (config st).
Proof.
  intros Hf. change (set_flag true (str "logfile") true st) with (enable_log_to_file true st). change (set_flag true (str "logfile") false (enable_log_to_file true st)) with (disable_log_to_file true (enable_log_to_file true st)).
  unfold enable_log_to_file. rewrite Hf. unfold disable_log_to_file. cbn [config set_config set_front_end front_end]. rewrite set_option_file, set_option_file, Hf. cbn [negb bool_decide decide_rel].
  rewrite bool_decide_eq_false_2 by done. cbn [andb negb config set_config set_front_end front_end with_level _log_level_no_file default]. by rewrite set_option_level.
Qed.

(** Where the file cannot be opened, the level is changed all the same, and disabling the log file does not bring it back. *)
Lemma log_file_not_opened st : is_log_file_enabled (config st) = false ->
  let st' := set_flag false (str "logfile") false (set_flag false (str "logfile") true st) in is_log_file_enabled (config st') = false /\ log_level (config st') = DEBUG.
Proof.
  intros Hf. change (set_flag false (str "logfile") true st) with (enable_log_to_file false st). change (set_flag false (str "logfile") false (enable_log_to_file false st)) with (disable_log_to_file false (enable_log_to_file false st)).
  unfold enable_log_to_file. rewrite Hf. unfold disable_log_to_file. cbn [config set_config set_front_end front_end]. rewrite set_option_file, set_option_file, Hf.
  rewrite bool_decide_eq_false_2 by done. cbn [andb negb config set_config set_front_end]. by rewrite set_option_file, set_option_file, Hf, !set_option_level.
Qed.

Record front_request := { q_order : list (list byte * list byte) -> list (list byte * list byte); q_outside : outside; q_request : request_header; q_body : list byte }.

Definition serve_run (rqs : list front_request) (st : state) : state :=
  foldl (fun st q => fst (fst (serve (q_order q) (q_outside q) (q_request q) (q_body q) st))) st rqs.

Lemma serve_run_ok rqs : forall st, settings_ok st -> settings_ok (serve_run rqs st) /\ same_access (serve_run rqs st) st.
Proof.
  induction rqs as [|q rqs IH]; intros st Hok; [done|]. unfold serve_run. cbn [foldl]. destruct (serve_ok (q_order q) (q_outside q) (q_request q) (q_body q) st Hok) as [H1 H2]. destruct (IH _ H1) as [H3 H4]. split; [done|by eapply same_access_trans].
Qed.

(** Whatever is asked of the front end, the log level that it shows is the one in force, the saved options are those that are set, and the credentials and tokens stay what they are; and the level comes back when the log file is
    enabled, its file being opened, and disabled again. *)
Theorem front_end_settings_consistent (c : ClientConfig) (token : list byte) (configured metrics : bool) (rqs : list front_request) :
  saved c = None \/ saved c = Some (persistent c) ->
  let st0 := {| config := c; front_end := new_front_end c token; metrics_configured := configured; metrics_enabled := metrics |} in
  let st := serve_run rqs st0 in
  _log_level_input (front_end st) = log_level (config st) /\ (saved (config st) = None \/ saved (config st) = Some (persistent (config st))) /\ same_access st st0 /\
  (is_log_file_enabled (config st) = false -> log_level (config (set_flag true (str "logfile") false (set_flag true (str "logfile") true st))) = log_level (config st)).
Proof.
  intros Hs st0 st. assert (settings_ok st0) as H0 by by split. assert (settings_ok st /\ same_access st st0) as [[H1 H2] H3].
  { by apply serve_run_ok. }
  split_and!; [done|done|done|]. by apply log_file_level_back.
Qed.

(** ** The forms *)

Lemma add_argument_pair m n v : "="%byte ∉ n -> add_argument m (n ++ "="%byte :: v) = <[n := v]> m.
Proof.
  intros Hn. unfold add_argument. destruct (n ++ "="%byte :: v) eqn:E; [by destruct n|]. rewrite <- E, find_char_app by done.
  rewrite take_app_length. f_equal. rewrite drop_app_ge by lia. by replace (S (length n) - length n)%nat with 1%nat by lia.
Qed.

(** A field that can be sent as it is. *)
Definition plain_field (kv : list byte * list byte) : Prop := ("="%byte ∉ kv.1) /\ ("&"%byte ∉ kv.1) /\ ("&"%byte ∉ kv.2).

Lemma form_arguments (f : form) m : f <> [] -> Forall plain_field f -> parse_request_arguments (form_body f) m = foldl (fun m kv => <[kv.1 := kv.2]> m) m f.
Proof.
  intros Hne Hf. unfold parse_request_arguments, form_body. rewrite split_on_join.
  - clear Hne. revert m. induction Hf as [|[n v] f (H1 & H2 & H3) Hf IH]; intros m; [done|]. cbn [fmap list_fmap foldl]. rewrite add_argument_pair by done. apply IH.
  - by destruct f.
  - apply Forall_fmap. eapply Forall_impl; [done|]. intros [n v] (H1 & H2 & H3). cbn in *. rewrite elem_of_app, elem_of_cons. intros [?|[?|?]]; done.
Qed.

(** A request that a browser makes when a form of the portal is sent, of a user who has access. *)
Record form_request (rq : request_header) (st : state) : Prop := {
  fr_post : method rq = str "POST";
  fr_path : request_path rq = str "/";
  fr_credentials : frontend_credentials (config st) = [] \/ exists auth, find_field (str "Authorization") (rq_fields rq) = Some auth /\ parse_auth (field_view auth) = Some (frontend_credentials (config st));
  fr_token : forall token, front_end_access_token (config st) = Some token -> field_value (str "X-Ouinet-Front-End-Token") (rq_fields rq) = token;
}.

Lemma form_request_access rq body st : form_request rq st -> check_access rq body st = if csrf_ok rq body st then Pass else Refused 403.
Proof.
  intros [_ _ Hc Ht]. unfold check_access. assert ((if bool_decide (frontend_credentials (config st) = []) then Pass else
    match find_field (str "Authorization") (rq_fields rq) with
    | None => Refused 401
    | Some auth => match parse_auth (field_view auth) with None => Throws | Some computed => if bool_decide (computed = frontend_credentials (config st)) then Pass else Refused 401 end
    end) = Pass) as ->.
  { destruct Hc as [Hc|(auth & -> & ->)]; [by rewrite bool_decide_eq_true_2|]. case_bool_decide; [done|]. by rewrite bool_decide_eq_true_2. }
  destruct (front_end_access_token (config st)) as [token|]; [|done]. by rewrite (Ht token eq_refl), bool_decide_eq_true_2.
Qed.

Lemma form_request_arguments rq (f : form) st : form_request rq st -> f <> [] -> Forall plain_field f -> request_arguments rq (form_body f) = foldl (fun m kv => <[kv.1 := kv.2]> m) ∅ f.
Proof.
  intros [Hm Hp _ _] Hne Hf. unfold request_arguments, url_arguments, is_post. rewrite Hp, bool_decide_eq_true_2 by done. by apply form_arguments.
Qed.

(** A form with one field and the token is one argument of the loop. *)
Lemma form_served order o rq n v st :
  form_request rq st -> (forall l, order l ≡ₚ l) -> plain_field (n, v) -> n <> str "csrf" -> "&"%byte ∉ _csrf_token (front_end st) ->
  serve order o rq (form_body [(n, v); csrf_input st]) st =
  match apply_argument o n v st with BadArgument => (st, [], Some (reply 400 NoBody)) | ArgumentThrows => (st, [], None) | Applied st' calls => (st', calls, Some (reply 302 Redirect)) end.
Proof.
  intros Hrq Hord Hf Hn Htok. assert (Forall plain_field [(n, v); csrf_input st]) as Hfs by (repeat constructor; try apply Hf; cbn; try done; by apply (bool_decide_unpack _)).
  assert (request_arguments rq (form_body [(n, v); csrf_input st]) = <[str "csrf" := _csrf_token (front_end st)]> (<[n := v]> ∅)) as Ea by (by rewrite (form_request_arguments rq _ st)).
  unfold serve.
  rewrite (form_request_access rq _ st Hrq). unfold csrf_ok. rewrite Ea, lookup_insert_eq, (bool_decide_eq_true_2 (Some _ = Some _)), orb_true_r by done. destruct Hrq as [Hm Hp _ _].

  assert (is_post rq = true) as Hpost by by apply bool_decide_eq_true. rewrite Hpost, Hp, delete_insert_id by (by rewrite lookup_insert_ne).
  cbn [may_change orb]. change (str "/") with (str "/"). rewrite !bool_decide_eq_false_2 by done. change (starts_with (str "/") (str "/api/groups")) with false. change (starts_with (str "/") (str "/api/metrics")) with false.
  assert (order (map_to_list (<[n:=v]> ∅)) = [(n, v)]) as ->. { apply Permutation_singleton_r. rewrite Hord. by rewrite insert_empty, map_to_list_singleton. }
  cbn [apply_arguments]. destruct (apply_argument o n v st) as [st' calls| |]; [|done..]. by rewrite app_nil_r.
Qed.

Lemma toggle_named (n : list byte) (b : bool) st : (n, b) ∈ portal_toggles st -> n ∈ bool_value_arguments /\ plain_field (n, if b then str "disable" else str "enable") /\ n <> str "csrf".
Proof.
  intros Hin. assert (n ∈ bool_value_arguments) as Hn.
  { unfold portal_toggles in Hin. rewrite !elem_of_cons in Hin. destruct_or! Hin; simplify_eq; try (by apply (bool_decide_unpack _)). by apply elem_of_nil in Hin. }
  assert (forall m, m ∈ bool_value_arguments -> plain_field (m, if b then str "disable" else str "enable") /\ m <> str "csrf") as Hall; [|by destruct (Hall n Hn)].
  clear. intros m Hm. unfold bool_value_arguments in Hm. cbn [fmap list_fmap] in Hm. rewrite !elem_of_cons in Hm. destruct b; destruct_or! Hm; subst; try (split; [split_and!|]; by apply (bool_decide_unpack _)); by apply elem_of_nil in Hm.
Qed.

Lemma log_file_flag opens enable st : opens = true -> is_log_file_enabled (config (if enable : bool then enable_log_to_file opens st else disable_log_to_file opens st)) = enable.
Proof.
  intros ->. destruct enable; [unfold enable_log_to_file|unfold disable_log_to_file]; destruct (is_log_file_enabled (config st)) eqn:E; cbn [negb config set_config set_front_end]; try done; rewrite !set_option_file, ?E; by case_bool_decide.
Qed.

(** The toggles of a configuration. *)
Definition config_toggles (c : ClientConfig) : list bool := [origin_access c; proxy_access c; injector_access c; distributed_cache c].

Lemma set_option_toggles x c :
  config_toggles (set_option x c) = [match x with Origin v => v | _ => origin_access c end; match x with Proxy v => v | _ => proxy_access c end;
    match x with InjectorAccess v => v | _ => injector_access c end; match x with DistributedCache v => v | _ => distributed_cache c end].
Proof. unfold config_toggles, set_option. destruct x; cbn [unchanged]; try (case_bool_decide; subst; done). done. Qed.

Lemma level_toggles l c : config_toggles (set_option (LogLevel l) c) = config_toggles c.
Proof. by rewrite set_option_toggles. Qed.

Lemma file_toggles v opens c : config_toggles (set_option (LogFile v opens) c) = config_toggles c.
Proof. by rewrite set_option_toggles. Qed.

Lemma log_file_toggles opens enable st : let st' := if enable : bool then enable_log_to_file opens st else disable_log_to_file opens st in
  config_toggles (config st') = config_toggles (config st) /\ _auto_refresh_enabled (front_end st') = _auto_refresh_enabled (front_end st) /\ metrics_enabled st' = metrics_enabled st.
Proof.
  destruct enable; [unfold enable_log_to_file|unfold disable_log_to_file]; destruct (is_log_file_enabled (config st)); cbn [negb]; try done; cbn zeta;
    cbn [config set_config set_front_end front_end metrics_enabled with_level _auto_refresh_enabled]; by rewrite ?file_toggles, ?level_toggles, ?file_toggles.
Qed.

(** The toggle of metrics that are not configured does nothing. *)
Definition toggle_works (n : list byte) (st : state) : bool := negb (bool_decide (n = str "metrics")) || metrics_configured st.

(** A flag is set to its value, and the others stay. *)
Lemma set_flag_toggles opens n enable st : n ∈ bool_value_arguments -> (n = str "logfile" -> opens = true) ->
  portal_toggles (set_flag opens n enable st) = (fun '(n', b) => (n', if bool_decide (n' = n) && toggle_works n st then enable else b)) <$> portal_toggles st.
Proof.
  intros Hn Ho. unfold bool_value_arguments in Hn. cbn [fmap list_fmap] in Hn. rewrite !elem_of_cons in Hn.
  assert (forall x, (forall v o, x <> LogFile v o) -> portal_toggles (set_config (set_option x (config st)) st) =
    [(str "auto_refresh", _auto_refresh_enabled (front_end st)); (str "origin_access", match x with Origin v => v | _ => origin_access (config st) end); (str "proxy_access", match x with Proxy v => v | _ => proxy_access (config st) end);
     (str "injector_access", match x with InjectorAccess v => v | _ => injector_access (config st) end); (str "distributed_cache", match x with DistributedCache v => v | _ => distributed_cache (config st) end);
     (str "logfile", is_log_file_enabled (config st)); (str "metrics", metrics_enabled st)]) as Hset.
  { intros x Hx. pose proof (set_option_toggles x (config st)) as Ht. pose proof (set_option_file x (config st)) as Hf. unfold portal_toggles, config_toggles in *. cbn [config set_config front_end metrics_enabled].
    apply (f_equal (fun l => (nth 0 l false, nth 1 l false, nth 2 l false, nth 3 l false))) in Ht. cbn [nth] in Ht. assert (forall a b c d a' b' c' d' : bool, (a, b, c, d) = (a', b', c', d') -> a = a' /\ b = b' /\ c = c' /\ d = d') as Hp by (intros; by simplify_eq).
    apply Hp in Ht as (-> & -> & -> & ->). rewrite Hf. destruct x; try done. by destruct (Hx v opens0). }
  destruct_or! Hn; try (by apply elem_of_nil in Hn); subst n.
  - by apply (Hset (Origin enable)).
  - by apply (Hset (Proxy enable)).
  - by apply (Hset (InjectorAccess enable)).
  - by apply (Hset (DistributedCache enable)).
  - done.
  - change (set_flag opens (str "metrics") enable st) with (set_metrics enable st). unfold set_metrics, toggle_works. by destruct (metrics_configured st) eqn:E.
  - change (set_flag opens (str "logfile") enable st) with (if enable then enable_log_to_file opens st else disable_log_to_file opens st).
    destruct (log_file_toggles opens enable st) as (H1 & H2 & H3). pose proof (log_file_flag opens enable st (Ho eq_refl)) as H4. destruct (if enable then _ else _) as [c f mc m]. unfold config_toggles, portal_toggles in *. cbn [config front_end metrics_enabled] in H1, H2, H3, H4 |- *.
    injection H1 as -> -> -> ->. by rewrite H2, H3, H4.
Qed.

(** C12: every toggle of the portal works.  Sent by a user who has access, its form is accepted, changes nothing outside the settings and leads back to the portal, which then shows the other value of this toggle and what it showed of all the
    others.  The toggle of the log file is considered where its file can be opened; that of the metrics where they are configured: otherwise, as by default, its form is accepted too but the portal shows the same as before.
    (The token is text without [&], as the one that the front end makes.) *)
Theorem portal_toggles_work order o rq n b st :
  form_request rq st -> (forall l, order l ≡ₚ l) -> "&"%byte ∉ _csrf_token (front_end st) -> (n, b) ∈ portal_toggles st -> (n = str "logfile" -> log_file_opens o = true) ->
  exists st', serve order o rq (form_body (toggle_form n b st)) st = (st', [], Some (reply 302 Redirect)) /\
    (n <> str "metrics" \/ metrics_configured st = true -> portal_toggles st' = (fun '(n', b') => (n', if bool_decide (n' = n) then negb b else b')) <$> portal_toggles st) /\
    (n = str "metrics" -> metrics_configured st = false -> st' = st) /\ same_access st' st.
Proof.
  intros Hrq Hord Htok Hin Ho. destruct (toggle_named n b st Hin) as (Hn & Hf & Hc). exists (set_flag (log_file_opens o) n (negb b) st). split_and!.
  - unfold toggle_form. rewrite form_served by done. unfold apply_argument. rewrite bool_decide_eq_true_2 by done. by destruct b.
  - intros Hw. rewrite set_flag_toggles by done. assert (toggle_works n st = true) as ->; [|apply list_fmap_ext; intros ? [] ?; by rewrite andb_true_r].
    unfold toggle_works. destruct Hw as [Hw| ->]; [by rewrite bool_decide_eq_false_2|apply orb_true_r].
  - intros -> Hm. change (set_flag (log_file_opens o) (str "metrics") (negb b) st) with (set_metrics (negb b) st). unfold set_metrics. by rewrite Hm.
  - by apply set_flag_access.
Qed.

(** The text field of the portal has a name that the loop does not know, and the form that purges the cache has no token. *)
Lemma bootstraps_form_refused order o rq text st :
  form_request rq st -> (forall l, order l ≡ₚ l) -> "&"%byte ∉ _csrf_token (front_end st) -> "&"%byte ∉ text -> serve order o rq (form_body (bootstraps_form text st)) st = (st, [], Some (reply 400 NoBody)).
Proof.
  intros Hrq Hord Htok Ht. unfold bootstraps_form. rewrite form_served; [done|done|done| |done|done]. split_and!; [by apply (bool_decide_unpack _)|by apply (bool_decide_unpack _)|done].
Qed.

Lemma purge_form_refused order o rq st : form_request rq st -> serve order o rq (form_body purge_form) st = (st, [], Some (reply 403 NoBody)).
Proof.
  intros Hrq. unfold serve. rewrite (form_request_access rq _ st Hrq). unfold csrf_ok.
  assert (Forall plain_field purge_form) as Hf by (constructor; [split_and!; by apply (bool_decide_unpack _)|done]). rewrite (form_request_arguments rq purge_form st Hrq) by done. destruct Hrq as [Hm _ _ _]. unfold is_post. by rewrite bool_decide_eq_true_2.
Qed.

(** The level chosen in the portal is the level in force, whatever it was. *)
Lemma input_update_level cur l : input_update cur (log_level_str l) = (l, negb (bool_decide (cur = l))).
Proof. by destruct cur, l. Qed.

Lemma level_plain l : plain_field (str "loglevel", log_level_str l).
Proof. destruct l; split_and!; by apply (bool_decide_unpack _). Qed.

Lemma level_form_works order o rq l st :
  settings_ok st -> form_request rq st -> (forall k, order k ≡ₚ k) -> "&"%byte ∉ _csrf_token (front_end st) ->
  exists st', serve order o rq (form_body (log_level_form l st)) st = (st', [], Some (reply 302 Redirect)) /\ log_level (config st') = l /\ settings_ok st'.
Proof.
  intros Hok Hrq Hord Htok. exists (set_loglevel (log_level_str l) st). split_and!.
  - unfold log_level_form. rewrite form_served; [done|done|done|apply level_plain|done|done].
  - destruct Hok as [H1 _]. unfold set_loglevel. rewrite input_update_level, H1. case_bool_decide; [done|]. cbn [negb set_config config]. by rewrite set_option_level.
  - by apply set_loglevel_ok.
Qed.

(** Text that cannot be decoded is an exception, not a bad request. *)
Lemma bad_escape_throws o st : has_cache o = true -> decode_view (str "%zz") = None -> apply_argument o (str "bt_extra_bootstrap") (str "%zz") st = ArgumentThrows.
Proof.
  intros Hc Hd. assert (set_bt_extra_bootstraps (str "%zz") (config st) = None) as E.
  { unfold set_bt_extra_bootstraps. assert (exists w, SplitString (view_of (take 256 (str "%zz"))) "+"%byte = [w] /\ chars w = str "%zz") as (w & -> & Hw) by (eexists; split; [vm_compute; reflexivity|reflexivity]).
    cbn [parse_bootstraps]. rewrite Hw. cbn in Hd |- *. by rewrite Hd. }
  change (apply_argument o (str "bt_extra_bootstrap") (str "%zz") st) with (if has_cache o then match set_bt_extra_bootstraps (str "%zz") (config st) with Some c => Applied (set_config c st) [] | None => ArgumentThrows end else Applied st []).
  by rewrite Hc, E.
Qed.

(** The arguments before a bad one have been applied. *)
Lemma arguments_before_a_bad_one o v st : apply_arguments o [(str "auto_refresh", str "enable"); (str "unknown", v)] st = (set_flag (log_file_opens o) (str "auto_refresh") true st, [], StoppedAtBad).
Proof. done. Qed.

End Serve.

(** ** Text in pages *)

Lemma replace_all_other c by_ s x : x <> c -> x ∉ by_ -> (x ∈ replace_all c by_ s <-> x ∈ s).
Proof.
  intros Hx Hb. unfold replace_all. rewrite !list_elem_of_In, in_concat. setoid_rewrite <- list_elem_of_In. split.
  - intros (l & Hl & Hin). apply list_elem_of_fmap in Hl as (y & -> & Hy). case_bool_decide; [done|]. by apply list_elem_of_singleton in Hin as ->.
  - intros Hin. exists [x]. split; [|by apply list_elem_of_singleton]. apply list_elem_of_fmap. exists x. by rewrite bool_decide_eq_false_2.
Qed.

Lemma replace_all_gone c by_ s : c ∉ by_ -> c ∉ replace_all c by_ s.
Proof.
  intros Hb. unfold replace_all. rewrite list_elem_of_In, in_concat. setoid_rewrite <- list_elem_of_In. intros (l & Hl & Hin). apply list_elem_of_fmap in Hl as (y & -> & Hy).
  case_bool_decide; [done|]. by apply list_elem_of_singleton in Hin as ->.
Qed.

(** No text can open a tag or end an attribute of a page; the character that closes a tag is left. *)
Lemma safe_html_closed s : ("<"%byte ∉ as_safe_html s) /\ (Byte.x22 ∉ as_safe_html s) /\ ("'"%byte ∉ as_safe_html s).
Proof.
  unfold as_safe_html. split_and!.
  - rewrite !replace_all_other by (by apply (bool_decide_unpack _)). by apply replace_all_gone, (bool_decide_unpack _).
  - rewrite replace_all_other by (by apply (bool_decide_unpack _)). by apply replace_all_gone, (bool_decide_unpack _).
  - by apply replace_all_gone, (bool_decide_unpack _).
Qed.

Lemma safe_html_keeps_gt s : (">"%byte ∈ as_safe_html s) <-> (">"%byte ∈ s).
Proof. unfold as_safe_html. by rewrite !replace_all_other by (by apply (bool_decide_unpack _)). Qed.

(** A host name with a hyphen is not a bootstrap server. *)
Lemma hyphen_refused make_address : make_address (str "dht-1.example.org") = None -> parse_address make_address (str "dht-1.example.org:6881") = None.
Proof. intros E. unfold parse_address. change (split_ep (str "dht-1.example.org:6881")) with (str "dht-1.example.org", str "6881"). cbv beta iota. rewrite bool_decide_eq_false_2 by done. by rewrite E. Qed.

Lemma log_level_read l : log_level_from_string (log_level_str l) = Some l.
Proof. by destruct l. Qed.

(** ** Witnesses *)

Module FrontEndExample.

Definition no_table : Base64Table := {| six_char := fun _ => "A"%byte; six_bits := fun _ => None |}.
Definition no_address (_ : list byte) : option ip_address := None.
Definition config0 : ClientConfig :=
  {| frontend_credentials := []; front_end_access_token := Some (str "secret"); is_frontend_post_requirement_enabled := true; origin_access := true; proxy_access := true; injector_access := true; distributed_cache := true;
     log_level := INFO; is_log_file_enabled := false; bt_bootstrap_extras := ∅; bt_bootstrap_no_default := false; saved := None |}.
Definition state0 : state := {| config := config0; front_end := new_front_end config0 (str "Ab1"); metrics_configured := true; metrics_enabled := false |}.
Definition outside0 : outside := {| has_cache := true; group_error := None; aux_result := Noop; log_file_opens := true |}.
Definition request0 : request_header := {| method := str "POST"; target := str "/"; version := 11; rq_fields := [(str "X-Ouinet-Front-End-Token", str "secret")] |}.
Definition served (body : list byte) : state * list call * option Response := @serve no_table no_address Some INFO (fun x => x) outside0 request0 body state0.
Definition body0 : list byte := form_body (toggle_form (str "origin_access") true state0).
Definition state1 : state := fst (fst (served body0)).

End FrontEndExample.
Import FrontEndExample.

Lemma front_end_changes_guarded_witness :
  origin_access (config state1) = false /\ (forall token, front_end_access_token config0 = Some token -> field_value (str "X-Ouinet-Front-End-Token") (rq_fields request0) = token) /\
  request_arguments request0 body0 !! str "csrf" = Some (str "Ab1").
Proof.
  assert (served body0 = (state1, [], Some (reply 302 Redirect))) as E by (vm_compute; reflexivity).
  assert (state1 <> state0) as Hne by (intros Eq; apply (f_equal (fun s => origin_access (config s))) in Eq; vm_compute in Eq; discriminate).
  destruct (@front_end_changes_guarded no_table no_address Some INFO (fun x => x) outside0 request0 body0 state0 state1 [] (Some (reply 302 Redirect)) E (or_introl Hne)) as (_ & H2 & _ & H4).
  split; [vm_compute; reflexivity|]. split; [exact H2|exact (H4 eq_refl)].
Defined.

Lemma front_end_settings_consistent_witness :
  let rqs := [{| q_order := fun l => l; q_outside := outside0; q_request := request0; q_body := str "csrf=Ab1&logfile=enable&loglevel=WARN" |}] in
  let st := @serve_run no_table no_address Some INFO rqs state0 in
  _log_level_input (front_end st) = log_level (config st) /\ saved (config st) = Some (persistent (config st)) /\ is_log_file_enabled (config st) = true.
Proof.
  intros rqs st. destruct (@front_end_settings_consistent no_table no_address Some INFO config0 (str "Ab1") true false rqs (or_introl eq_refl)) as (H1 & H2 & _).
  split; [exact H1|]. split; [|vm_compute; reflexivity]. destruct H2 as [H2|H2]; [vm_compute in H2; discriminate|exact H2].
Defined.

Lemma portal_toggles_work_witness :
  exists st', served (form_body (toggle_form (str "logfile") false state0)) = (st', [], Some (reply 302 Redirect)) /\ (str "logfile", true) ∈ portal_toggles st'.
Proof.
  destruct (@portal_toggles_work no_table no_address Some INFO (fun x => x) outside0 request0 (str "logfile") false state0) as (st' & E & Ht & _ & _).
  - split; [reflexivity|vm_compute; reflexivity|by left|by intros ? [= <-]].
  - done.
  - by apply (bool_decide_unpack _).
  - by apply (bool_decide_unpack _).
  - done.
  - exists st'. split; [exact E|]. rewrite Ht by by left. by apply (bool_decide_unpack _).
Defined.
