(* ===== verification/I2pAddress.v ===== *)
(** * I2P addresses: src/ouiservice/i2p/address.h and address.cpp

    An address is a text, the name of a key or the key itself.  The decoder of Base64 and SHA-256 are parameters. *)
From S2P Require Import Prelude.

(** ** The code *)

Definition B32_BYTE_SIZE : nat := 32.
Definition B32_SUFFIX : list byte := str ".b32.i2p".
Definition B64_SUFFIX : list byte := str ".b64.i2p".

Variant I2pAddress := B32 (value : list byte) | B64 (value : list byte).

Definition ends_with (s suffix : list byte) : bool := (length suffix <=? length s)%nat && bool_decide (drop (length s - length suffix) s = suffix).
Definition remove_suffix (n : nat) (s : list byte) : list byte := take (length s - n) s.

Definition is_b32_char (c : byte) : bool := ((97 <=? code c) && (code c <=? 122)) || ((50 <=? code c) && (code c <=? 55)).

Definition is_valid_b32 (s : list byte) : bool :=
  if negb (ends_with s B32_SUFFIX) then false
  else
    let label_len := (length s - length B32_SUFFIX)%nat in
    if negb (label_len =? 52)%nat && (label_len <? 56)%nat then false else forallb is_b32_char (take label_len s).

(** The loops that remove padding. *)
Fixpoint drop_while (c : byte) (s : list byte) : list byte :=
  match s with
  | x :: s' => if bool_decide (x = c) then drop_while c s' else s
  | [] => []
  end.

Definition remove_padding (s : list byte) : list byte := rev (drop_while "="%byte (rev s)).

Definition b64_alphabet : list byte := str "ABCDEFGHIJKLMNOPQRSTUVWXYZabcdefghijklmnopqrstuvwxyz0123456789-~".

Definition is_valid_b64 (s : list byte) : bool :=
  let s := if ends_with s B64_SUFFIX then remove_suffix (length B64_SUFFIX) s else s in
  if (length s <? 516)%nat then false else forallb (fun c => bool_decide (c ∈ b64_alphabet)) (remove_padding s).

Definition B32_parse (s : list byte) : option I2pAddress := if is_valid_b32 s then Some (B32 s) else None.
Definition B64_parse (s : list byte) : option I2pAddress := if is_valid_b64 s then Some (B64 s) else None.
Definition I2pAddress_parse (s : list byte) : option I2pAddress := match B32_parse s with Some a => Some a | None => B64_parse s end.

Definition as_str (a : I2pAddress) : list byte := match a with B32 v => v | B64 v => v end.

Definition b64_i2p_to_standard (s : list byte) : list byte := (fun c => if bool_decide (c = "-"%byte) then "+"%byte else if bool_decide (c = "~"%byte) then "/"%byte else c) <$> s.

(** *** Base32 *)

Definition base32_alphabet : list byte := str "abcdefghijklmnopqrstuvwxyz234567".
Definition b32_digit (index : Z) : byte := nth (Z.to_nat index) base32_alphabet "a"%byte.

Record b32_state := { buffer : Z; bits_left : nat; output : list byte }.

(** The inner loop: the fuel is the number of bits, of which each turn takes five. *)
Fixpoint emit (fuel : nat) (st : b32_state) : b32_state :=
  match fuel with
  | O => st
  | S fuel =>
      if (5 <=? bits_left st)%nat then
        let left := (bits_left st - 5)%nat in
        emit fuel {| buffer := buffer st; bits_left := left; output := output st ++ [b32_digit (Z.land (Z.shiftr (buffer st) (Z.of_nat left)) 31)] |}
      else st
  end.

Definition add_byte (st : b32_state) (b : byte) : b32_state :=
  let st := {| buffer := Z.lor (Z.shiftl (buffer st) 8 mod 2 ^ 64) (code b); bits_left := (bits_left st + 8)%nat; output := output st |} in emit (bits_left st) st.

(** Padding up to a multiple of eight characters. *)
Definition padding (n : nat) : nat := ((8 - n mod 8) mod 8)%nat.

Definition encode_b32 (input : list byte) (with_padding : bool) : list byte :=
  match input with
  | [] => []
  | _ =>
      let st := foldl add_byte {| buffer := 0; bits_left := 0; output := [] |} input in
      let out := if (0 <? bits_left st)%nat then output st ++ [b32_digit (Z.land (Z.shiftl (buffer st) (5 - Z.of_nat (bits_left st)) mod 2 ^ 64) 31)] else output st in
      if with_padding then out ++ replicate (padding (length out)) "="%byte else out
  end.

Definition B32_from_binary (bytes : list byte) : option I2pAddress := if (length bytes =? B32_BYTE_SIZE)%nat then Some (B32 (encode_b32 bytes false ++ B32_SUFFIX)) else None.

Section Keys.
(** [base64::decode] of Boost.Beast, with the number of characters it used, and SHA-256. *)
Variables (decode : list byte -> list byte * nat) (sha256 : list byte -> list byte).

Definition decode_b64 (s : list byte) : option (list byte) :=
  let s := remove_padding (b64_i2p_to_standard s) in
  let '(out, used) := decode s in
  if (used =? length s)%nat then Some out else None.

Definition b64_to_b32 (s : list byte) : option (list byte) := match decode_b64 s with None => None | Some binary => Some (encode_b32 (sha256 binary) false) end.

(** [None] is an exception. *)
Definition to_b32 (a : I2pAddress) : option (list byte) :=
  match a with
  | B32 v => Some v
  | B64 v => match b64_to_b32 v with None => None | Some b32 => Some (b32 ++ B32_SUFFIX) end
  end.

End Keys.

(** ** The encoding *)

(** The digits of a number in base 32, the most significant first. *)
Fixpoint digits32 (k : nat) (v : Z) : list Z := match k with O => [] | S k => digits32 k (v / 32) ++ [v mod 32] end.

(** Bytes as a number, the first byte the most significant. *)
Definition number_of_bytes (s : list byte) : Z := foldl (fun v b => v * 256 + code b) 0 s.

(** The bits that are left, and the digits so far. *)
Record encoding (done : list byte) (st : b32_state) : Prop := {
  left_bits : Z.of_nat (bits_left st) + 5 * Z.of_nat (length (output st)) = 8 * Z.of_nat (length done);
  left_value : buffer st mod 2 ^ Z.of_nat (bits_left st) = number_of_bytes done mod 2 ^ Z.of_nat (bits_left st);
  digits_so_far : output st = b32_digit <$> digits32 (length (output st)) (number_of_bytes done / 2 ^ Z.of_nat (bits_left st));
  buffer_range : 0 <= buffer st < 2 ^ 64;
}.

Lemma number_of_bytes_snoc s b : number_of_bytes (s ++ [b]) = number_of_bytes s * 256 + code b.
Proof. unfold number_of_bytes. by rewrite foldl_app. Qed.

Lemma digits32_length k : forall v, length (digits32 k v) = k.
Proof. induction k as [|k IH]; intros v; cbn [digits32]; [done|]. rewrite length_app, IH. cbn. lia. Qed.

Lemma pow2_split (a b : nat) : 2 ^ Z.of_nat (a + b) = 2 ^ Z.of_nat a * 2 ^ Z.of_nat b.
Proof. by rewrite Nat2Z.inj_add, Z.pow_add_r by lia. Qed.

(** A digit of the buffer is the next digit of the number. *)
Lemma emit_digit v w (n : nat) : v mod 2 ^ Z.of_nat (n + 5) = w mod 2 ^ Z.of_nat (n + 5) -> Z.land (Z.shiftr v (Z.of_nat n)) 31 = (w / 2 ^ Z.of_nat n) mod 32.
Proof.
  intros E. change 31 with (Z.ones 5). rewrite Z.land_ones, Z.shiftr_div_pow2 by lia. change (2 ^ 5) with 32. assert (0 < 2 ^ Z.of_nat n) as Hp by (apply Z.pow_pos_nonneg; lia).
  rewrite pow2_split in E. change (2 ^ Z.of_nat 5) with 32 in E. rewrite !Z.rem_mul_r in E by lia. set (p := 2 ^ Z.of_nat n) in *.
  pose proof (Z.mod_pos_bound v p Hp). pose proof (Z.mod_pos_bound w p Hp). set (a := (v / p) mod 32) in *. set (b := (w / p) mod 32) in *.
  destruct (Z.lt_trichotomy a b) as [?|[?|?]]; [nia|done|nia].
Qed.

Lemma mod_smaller v w (n m : nat) : (n <= m)%nat -> v mod 2 ^ Z.of_nat m = w mod 2 ^ Z.of_nat m -> v mod 2 ^ Z.of_nat n = w mod 2 ^ Z.of_nat n.
Proof.
  intros Hle E. assert (forall x, (x mod 2 ^ Z.of_nat m) mod 2 ^ Z.of_nat n = x mod 2 ^ Z.of_nat n) as Hm.
  { intros x. replace m with (n + (m - n))%nat by lia. rewrite pow2_split. assert (0 < 2 ^ Z.of_nat n) by (apply Z.pow_pos_nonneg; lia). assert (0 < 2 ^ Z.of_nat (m - n)) by (apply Z.pow_pos_nonneg; lia).
    rewrite Z.rem_mul_r by lia. rewrite (Z.mul_comm (2 ^ Z.of_nat n)), Z_mod_plus_full. apply Z.mod_mod. lia. }
  by rewrite <- (Hm v), <- (Hm w), E.
Qed.

Lemma emit_encoding done fuel : forall st, (bits_left st <= fuel)%nat -> encoding done st -> encoding done (emit fuel st) /\ (bits_left (emit fuel st) < 5)%nat.
Proof.
  induction fuel as [|fuel IH]; intros st Hf Hst; [split; [done|cbn; lia]|]. cbn [emit]. destruct (Nat.leb_spec 5 (bits_left st)) as [Hge|Hlt]; [|by split].
  destruct Hst as [H1 H2 H3 H4]. apply IH; [cbn; lia|]. assert (bits_left st = (bits_left st - 5) + 5)%nat as Hb by lia. split; cbn [buffer bits_left output].
  - rewrite length_app. cbn [length]. lia.
  - eapply mod_smaller; [|exact H2]. lia.
  - rewrite length_app, Nat.add_1_r. cbn [length digits32]. rewrite fmap_app. f_equal.
    + rewrite H3 at 1. do 2 f_equal. rewrite Hb at 1. rewrite pow2_split. change (2 ^ Z.of_nat 5) with 32. by rewrite Z.div_div by (try apply Z.pow_nonzero; lia).
    + cbn [fmap list_fmap]. do 2 f_equal. apply emit_digit. by rewrite <- Hb.
  - done.
Qed.

Lemma lor_low y c : 0 <= c < 256 -> Z.lor (y * 256) c = y * 256 + c.
Proof.
  intros Hc. assert (Z.land (y * 256) c = 0) as E; [|by rewrite Z.add_nocarry_lxor, Z.lxor_lor].
  apply Z.bits_inj'. intros n Hn. rewrite Z.land_spec, Z.bits_0. change 256 with (2 ^ 8). destruct (Z.lt_ge_cases n 8); [by rewrite Z.mul_pow2_bits_low|].
  rewrite (Z.bits_above_log2 c n); [by rewrite andb_false_r|lia|]. destruct (Z.eq_dec c 0) as [->|]; [cbn; lia|]. apply Z.log2_lt_pow2; [lia|]. assert (2 ^ 8 <= 2 ^ n) by (apply Z.pow_le_mono_r; lia). lia.
Qed.

Lemma add_byte_encoding done st b : encoding done st -> (bits_left st < 5)%nat -> encoding (done ++ [b]) (add_byte st b) /\ (bits_left (add_byte st b) < 5)%nat.
Proof.
  intros [H1 H2 H3 H4] Hb. unfold add_byte. apply emit_encoding; [done|]. pose proof (code_range b) as Hr. assert (0 < 2 ^ Z.of_nat (bits_left st)) as Hp by (apply Z.pow_pos_nonneg; lia).
  assert (Z.lor (Z.shiftl (buffer st) 8 mod 2 ^ 64) (code b) = (buffer st mod 2 ^ 56) * 256 + code b) as ->.
  { rewrite Z.shiftl_mul_pow2 by lia. change (2 ^ 64) with (2 ^ 56 * 2 ^ 8). rewrite Z.mul_mod_distr_r by lia. by apply lor_low. }
  assert (2 ^ Z.of_nat (bits_left st + 8) = 2 ^ Z.of_nat (bits_left st) * 256) as E8 by by rewrite pow2_split.
  assert ((buffer st mod 2 ^ 56) mod 2 ^ Z.of_nat (bits_left st) = number_of_bytes done mod 2 ^ Z.of_nat (bits_left st)) as Hlow.
  { rewrite <- H2. apply (mod_smaller _ _ _ 56); [lia|]. apply Z.mod_mod. lia. }
  assert (forall x, (x * 256 + code b) mod (2 ^ Z.of_nat (bits_left st) * 256) = (x mod 2 ^ Z.of_nat (bits_left st)) * 256 + code b) as Hx.
  { intros x. rewrite (Z.mul_comm (2 ^ _) 256), Z.rem_mul_r by lia. rewrite Z.div_add_l, (Z.div_small (code b)), Z.add_0_r by lia. rewrite (Z.add_comm (x * 256)), Z_mod_plus_full, Z.mod_small by lia. lia. }
  split; cbn [buffer bits_left output].
  - rewrite length_app. cbn [length]. lia.
  - rewrite E8, number_of_bytes_snoc, !Hx. by rewrite Hlow.
  - rewrite E8, number_of_bytes_snoc, H3 at 1. do 2 f_equal. rewrite (Z.mul_comm (2 ^ _) 256), <- Z.div_div by lia. rewrite Z.div_add_l, (Z.div_small (code b)), Z.add_0_r by lia. done.
  - pose proof (Z.mod_pos_bound (buffer st) (2 ^ 56)). lia.
Qed.

(** The encoding is the number in base 32, shifted to whole digits. *)
Definition b32_length (n : nat) : nat := ((8 * n + 4) / 5)%nat.

Lemma b32_length_is n k : (8 * n <= 5 * k < 8 * n + 5)%nat -> b32_length n = k.
Proof. intros Hk. unfold b32_length. symmetry. apply (Nat.div_unique _ _ _ (8 * n + 4 - 5 * k)); lia. Qed.

Lemma encode_loop s : encoding s (foldl add_byte {| buffer := 0; bits_left := 0; output := [] |} s) /\ (bits_left (foldl add_byte {| buffer := 0; bits_left := 0; output := [] |} s) < 5)%nat.
Proof.
  induction s as [|b s IH] using rev_ind; [by split; [split|cbn; lia]|]. rewrite foldl_app. cbn [foldl]. destruct IH as [H1 H2]. by apply add_byte_encoding.
Qed.

Lemma encode_b32_digits s : encode_b32 s false = b32_digit <$> digits32 (b32_length (length s)) (number_of_bytes s * 2 ^ (5 * Z.of_nat (b32_length (length s)) - 8 * Z.of_nat (length s))).
Proof.
  unfold encode_b32. destruct s as [|b s]; [done|]. set (s' := b :: s). destruct (encode_loop s') as [[H1 H2 H3 H4] H5]. set (st := foldl _ _ s') in *.
  destruct (Nat.ltb_spec 0 (bits_left st)) as [Hl|Hl].
  - assert (b32_length (length s') = S (length (output st))) as -> by (apply b32_length_is; lia). replace (5 * Z.of_nat (S (length (output st))) - 8 * Z.of_nat (length s')) with (5 - Z.of_nat (bits_left st)) by lia.
    cbn [digits32]. rewrite fmap_app. assert (2 ^ 5 = 2 ^ (5 - Z.of_nat (bits_left st)) * 2 ^ Z.of_nat (bits_left st)) as E5 by (rewrite <- Z.pow_add_r by lia; f_equal; lia).
    assert (0 < 2 ^ (5 - Z.of_nat (bits_left st))) by (apply Z.pow_pos_nonneg; lia). assert (0 < 2 ^ Z.of_nat (bits_left st)) by (apply Z.pow_pos_nonneg; lia). f_equal.
    + rewrite H3 at 1. do 2 f_equal. change 32 with (2 ^ 5). rewrite E5. rewrite (Z.mul_comm (number_of_bytes s')). by rewrite Z.div_mul_cancel_l by lia.
    + cbn [fmap list_fmap]. do 2 f_equal. change 31 with (Z.ones 5). rewrite Z.land_ones, Z.shiftl_mul_pow2 by lia.
      assert (forall x, (x mod 2 ^ 64) mod 2 ^ 5 = x mod 2 ^ 5) as Hm by (intros x; apply (mod_smaller _ _ 5 64); [lia|]; apply Z.mod_mod; lia). rewrite Hm. change 32 with (2 ^ 5). rewrite E5.
      rewrite !(Z.mul_comm _ (2 ^ (5 - _))). rewrite !Z.mul_mod_distr_l by lia. by rewrite H2.
  - assert (bits_left st = O) as E0 by lia. rewrite E0 in *. assert (b32_length (length s') = length (output st)) as -> by (apply b32_length_is; lia). rewrite H3 at 1.
    replace (5 * Z.of_nat (length (output st)) - 8 * Z.of_nat (length s')) with 0 by lia. change (2 ^ Z.of_nat 0) with 1. by rewrite Z.div_1_r, Z.mul_1_r.
Qed.

Lemma digits32_range k : forall v d, d ∈ digits32 k v -> 0 <= d < 32.
Proof.
  induction k as [|k IH]; intros v d; cbn [digits32]; [by intros ?%elem_of_nil|]. rewrite elem_of_app, list_elem_of_singleton. intros [Hd| ->]; [by eapply IH|]. apply Z.mod_pos_bound. lia.
Qed.

Lemma digits32_inj k : forall v w, 0 <= v < 32 ^ Z.of_nat k -> 0 <= w < 32 ^ Z.of_nat k -> digits32 k v = digits32 k w -> v = w.
Proof.
  induction k as [|k IH]; intros v w Hv Hw E; [cbn in *; lia|]. cbn [digits32] in E. apply app_inj_tail in E as [E1 E2]. rewrite Nat2Z.inj_succ, Z.pow_succ_r in Hv, Hw by lia.
  assert (v / 32 = w / 32) as Eq by (apply IH; [split; [apply Z.div_pos; lia|apply Z.div_lt_upper_bound; lia]|split; [apply Z.div_pos; lia|apply Z.div_lt_upper_bound; lia]|done]).
  rewrite (Z.div_mod v 32), (Z.div_mod w 32), Eq, E2 by lia. done.
Qed.

Lemma b32_digit_checked : forallb (fun d => is_b32_char (b32_digit (Z.of_nat d)) && bool_decide (list_find (fun c => c = b32_digit (Z.of_nat d)) base32_alphabet = Some (d, b32_digit (Z.of_nat d)))) (seq 0 32) = true.
Proof. vm_compute. reflexivity. Qed.

Lemma b32_digit_spec d : 0 <= d < 32 -> is_b32_char (b32_digit d) = true /\ list_find (fun c => c = b32_digit d) base32_alphabet = Some (Z.to_nat d, b32_digit d).
Proof.
  intros Hd. pose proof b32_digit_checked as Hc. rewrite forallb_forall in Hc. specialize (Hc (Z.to_nat d)). rewrite Z2Nat.id in Hc by lia.
  assert (In (Z.to_nat d) (seq 0 32)) as Hin by (apply in_seq; lia). apply Hc, andb_true_iff in Hin as [H1 H2]. by apply bool_decide_eq_true in H2.
Qed.

Lemma b32_digits_inj l1 : forall l2, Forall (fun d => 0 <= d < 32) l1 -> Forall (fun d => 0 <= d < 32) l2 -> b32_digit <$> l1 = b32_digit <$> l2 -> l1 = l2.
Proof.
  induction l1 as [|d1 l1 IH]; intros [|d2 l2] H1 H2 E; try done. apply Forall_cons in H1 as [D1 H1], H2 as [D2 H2]. cbn [fmap list_fmap] in E. injection E as Ed El.
  f_equal; [|by apply IH]. destruct (b32_digit_spec d1 D1) as [_ F1], (b32_digit_spec d2 D2) as [_ F2]. rewrite Ed, F2 in F1. injection F1 as F1. lia.
Qed.

Lemma number_of_bytes_range s : 0 <= number_of_bytes s < 256 ^ Z.of_nat (length s).
Proof.
  induction s as [|b s IH] using rev_ind; [cbn; lia|]. rewrite number_of_bytes_snoc, length_app, Nat2Z.inj_add, Z.pow_add_r by lia. cbn [length]. change (256 ^ Z.of_nat 1) with 256. pose proof (code_range b). lia.
Qed.

Lemma number_of_bytes_inj s1 : forall s2, length s1 = length s2 -> number_of_bytes s1 = number_of_bytes s2 -> s1 = s2.
Proof.
  induction s1 as [|b1 s1 IH] using rev_ind; intros s2 Hl E; [by destruct s2|]. destruct s2 as [|b2 s2 _] using rev_ind; [rewrite length_app in Hl; cbn in Hl; lia|].
  rewrite !length_app in Hl. cbn in Hl. rewrite !number_of_bytes_snoc in E. pose proof (code_range b1). pose proof (code_range b2). assert (code b1 = code b2) as Ec by lia. f_equal; [apply IH; lia|]. f_equal. by apply code_inj.
Qed.

Lemma encode_b32_length s : length (encode_b32 s false) = b32_length (length s).
Proof. by rewrite encode_b32_digits, length_fmap, digits32_length. Qed.

Lemma encode_b32_chars s : forallb is_b32_char (encode_b32 s false) = true.
Proof.
  rewrite encode_b32_digits. apply forallb_forall. intros c Hc. apply list_elem_of_In, list_elem_of_fmap in Hc as (d & -> & Hd). apply digits32_range in Hd. by destruct (b32_digit_spec d Hd).
Qed.

Lemma encode_b32_inj s1 s2 : length s1 = length s2 -> encode_b32 s1 false = encode_b32 s2 false -> s1 = s2.
Proof.
  intros Hl E. rewrite !encode_b32_digits, <- Hl in E. set (k := b32_length (length s1)) in *. set (e := 5 * Z.of_nat k - 8 * Z.of_nat (length s1)) in *.
  assert (8 * length s1 <= 5 * k)%nat as Hk. { unfold k, b32_length. pose proof (Nat.div_mod (8 * length s1 + 4) 5 ltac:(lia)). pose proof (Nat.mod_upper_bound (8 * length s1 + 4) 5 ltac:(lia)). lia. }
  assert (forall s, length s = length s1 -> 0 <= number_of_bytes s * 2 ^ e < 32 ^ Z.of_nat k) as Hr.
  { intros s Hs. pose proof (number_of_bytes_range s) as Hn. rewrite Hs in Hn. change 32 with (2 ^ 5). rewrite <- Z.pow_mul_r by lia. replace (5 * Z.of_nat k) with (8 * Z.of_nat (length s1) + e) by lia.
    rewrite Z.pow_add_r, Z.pow_mul_r by lia. change (2 ^ 8) with 256. assert (0 < 2 ^ e) by (apply Z.pow_pos_nonneg; lia). nia. }
  apply b32_digits_inj in E; [|apply Forall_forall; intros d; apply digits32_range..]. apply digits32_inj in E; [|by apply Hr..].
  apply number_of_bytes_inj; [done|]. assert (0 < 2 ^ e) by (apply Z.pow_pos_nonneg; lia). nia.
Qed.

Lemma ends_with_app s suffix : ends_with (s ++ suffix) suffix = true.
Proof.
  unfold ends_with. rewrite length_app, andb_true_iff. split; [apply Nat.leb_le; lia|]. apply bool_decide_eq_true. replace (length s + length suffix - length suffix)%nat with (length s) by lia. by rewrite drop_app_length.
Qed.

Lemma valid_b32_label label : length label = 52%nat -> forallb is_b32_char label = true -> is_valid_b32 (label ++ B32_SUFFIX) = true.
Proof.
  intros Hl Hc. unfold is_valid_b32. rewrite ends_with_app, length_app. cbn [negb]. replace (length label + length B32_SUFFIX - length B32_SUFFIX)%nat with (length label) by lia. by rewrite take_app_length, Hl.
Qed.

(** The name of a key is the digest in Base32 and nothing is lost on the way: for every digest of 32 bytes there is an address, of 52 characters and the suffix, that the parser accepts as the same address; the
    64-bit buffer of the encoder, which shifts out its upper bits, never drops a bit that is still needed, so that different digests have different addresses. *)
Theorem i2p_name_of_key digest :
  length digest = B32_BYTE_SIZE ->
  exists a, B32_from_binary digest = Some a /\ I2pAddress_parse (as_str a) = Some a /\ length (as_str a) = 60%nat /\
    forall digest', B32_from_binary digest' = Some a -> digest' = digest.
Proof.
  intros Hl. exists (B32 (encode_b32 digest false ++ B32_SUFFIX)). assert (length (encode_b32 digest false) = 52%nat) as Hlen by (rewrite encode_b32_length, Hl; reflexivity).
  split_and!.
  - unfold B32_from_binary. by rewrite Hl.
  - unfold I2pAddress_parse, B32_parse. cbn [as_str]. by rewrite valid_b32_label by (done || apply encode_b32_chars).
  - cbn [as_str]. by rewrite length_app, Hlen.
  - intros digest'. unfold B32_from_binary. destruct (Nat.eqb_spec (length digest') B32_BYTE_SIZE) as [Hl'|]; [|done]. intros [= E]. apply app_inv_tail in E. apply encode_b32_inj; [by rewrite Hl, Hl'|done].
Qed.

Lemma i2p_name_of_key_witness : exists a, B32_from_binary (replicate 32 Byte.xff) = Some a /\ I2pAddress_parse (as_str a) = Some a /\ length (as_str a) = 60%nat.
Proof. destruct (i2p_name_of_key (replicate 32 Byte.xff) eq_refl) as (a & H1 & H2 & H3 & _). exists a. split; [exact H1|]. split; [exact H2|exact H3]. Defined.

(** ** Keys with a suffix *)

Section Suffix.
Variables (decode : list byte -> list byte * nat) (sha256 : list byte -> list byte).
(** The decoder stops at a character that is not of its alphabet. *)
Definition standard_alphabet : list byte := str "ABCDEFGHIJKLMNOPQRSTUVWXYZabcdefghijklmnopqrstuvwxyz0123456789+/".
Hypothesis decode_stops : forall a c s, c ∉ standard_alphabet -> (snd (decode (a ++ c :: s)) <= length a)%nat.

Lemma remove_padding_suffix s : remove_padding (s ++ B64_SUFFIX) = s ++ B64_SUFFIX.
Proof. unfold remove_padding. rewrite rev_app_distr. change (rev B64_SUFFIX) with ("p"%byte :: rev (str ".b64.i2")). cbn [app drop_while]. rewrite bool_decide_eq_false_2 by done. change ("p"%byte :: rev (str ".b64.i2") ++ rev s) with (rev B64_SUFFIX ++ rev s). by rewrite <- rev_app_distr, rev_involutive. Qed.

(** An address that is written with the suffix is accepted with it, and then has no name. *)
Lemma suffixed_key_has_no_name s : is_valid_b32 (s ++ B64_SUFFIX) = false -> is_valid_b64 (s ++ B64_SUFFIX) = true ->
  I2pAddress_parse (s ++ B64_SUFFIX) = Some (B64 (s ++ B64_SUFFIX)) /\ to_b32 decode sha256 (B64 (s ++ B64_SUFFIX)) = None.
Proof.
  intros H1 H2. split; [unfold I2pAddress_parse, B32_parse, B64_parse; by rewrite H1, H2|]. unfold to_b32, b64_to_b32, decode_b64.
  assert (b64_i2p_to_standard (s ++ B64_SUFFIX) = b64_i2p_to_standard s ++ B64_SUFFIX) as -> by (unfold b64_i2p_to_standard; by rewrite fmap_app).
  rewrite remove_padding_suffix. change B64_SUFFIX with ("."%byte :: str "b64.i2p"). pose proof (decode_stops (b64_i2p_to_standard s) "."%byte (str "b64.i2p") ltac:(by apply (bool_decide_unpack _))) as Hd.
  destruct (decode _) as [out used]. cbn [snd] in Hd. case (Nat.eqb_spec used); [|done]. rewrite length_app. cbn. lia.
Qed.

End Suffix.
