(* ===== verification/ClientOptions.v ===== *)
(** * The configuration of the client: src/client_config.cpp, with src/endpoint.cpp and the printing of src/bittorrent/bootstrap.cpp

    The constructor reads the command line, the file of saved options and the configuration file, checks the options and saves the persistent ones.  Boost.Program_options is an interface: what [store] does with a value that is
    there already, or is only a default, is one of its laws.  The file system, the environment and the libraries that read keys and certificates are the fields of [environment]. *)
From S2P Require Import Prelude Number SplitString Url Http NodeId Contact Bytes CacheControl Request Bep5Client LocalDiscovery FrontEnd I2pAddress.

(** ** Options *)

Variant value_kind := KText | KSwitch | KNumber (lo hi : Z).

(** An option: its default, as text, whether it can be repeated, and whether the values of several sources are put together. *)
Record description := { o_name : list byte; o_kind : value_kind; o_default : option (list (list byte)); o_many : bool; o_composing : bool }.

Variant entry := Absent | Defaulted (values : list (list byte)) | Given (values : list (list byte)).

Definition occurrences := list (list byte * list byte).

Definition values_of (n : list byte) (occs : list (list byte * list byte)) : list (list byte) := snd <$> filter (fun o => fst o = n) occs.

Definition find_description (n : list byte) (ds : list description) : option description := List.find (fun d => bool_decide (o_name d = n)) ds.

(** What [store] makes of an entry: a value that is there stays, unless the option is composing; a default gives way. *)
Definition stored (d : option description) (vs : list (list byte)) (e : entry) : entry :=
  match d, e, vs with
  | None, _, _ => e
  | Some d, Given old, _ => if o_composing d then Given (old ++ vs) else Given old
  | Some _, _, _ :: _ => Given vs
  | Some _, Defaulted v, [] => Defaulted v
  | Some d, Absent, [] => match o_default d with Some v => Defaulted v | None => Absent end
  end.

Class ProgramOptions := {
  variables_map : Type;
  empty_map : variables_map;
  vm_entry : variables_map -> list byte -> entry;
  store : list description -> occurrences -> variables_map -> option variables_map;
  parse_command_line : list (list byte) -> list description -> option occurrences;
  parse_config_file : list byte -> list description -> option occurrences;
  bool_value : list byte -> option bool;
  number_value : list byte -> option Z;
}.

(** A value that [store] does not refuse. *)
Definition acceptable `{ProgramOptions} (ds : list description) (o : list byte * list byte) : Prop :=
  match find_description (fst o) ds with
  | None => False
  | Some d => match o_kind d with KText => True | KSwitch => is_Some (bool_value (snd o)) | KNumber lo hi => exists z, number_value (snd o) = Some z /\ lo <= z <= hi end
  end.

Definition once (ds : list description) (occs : occurrences) : Prop := forall d, d ∈ ds -> o_many d = false -> (length (values_of (o_name d) occs) <= 1)%nat.

Definition plain_char (c : byte) : bool := (33 <=? code c) && (code c <=? 126) && negb (bool_decide (c = "#"%byte)).

(** Text that is read back from a line as it is. *)
Definition plain_text (s : list byte) : Prop := s <> [] /\ forallb plain_char s = true.

(** The name of an option in a file. *)
Definition plain_name (n : list byte) : Prop := plain_text n /\ ("="%byte ∉ n).

Definition newline : byte := Byte.x0a.
Definition option_line (o : list byte * list byte) : list byte := fst o ++ str " = " ++ snd o ++ [newline].

Class ProgramOptionsLaws (P : ProgramOptions) : Prop := {
  empty_entry n : vm_entry empty_map n = Absent;
  store_entry ds occs m m' n : store ds occs m = Some m' -> vm_entry m' n = stored (find_description n ds) (values_of n occs) (vm_entry m n);
  store_accepts ds occs m : Forall (acceptable ds) occs -> once ds occs -> is_Some (store ds occs m);
  store_local ds occs m m' : (forall o, o ∈ occs -> vm_entry m' (fst o) = vm_entry m (fst o)) -> is_Some (store ds occs m) -> is_Some (store ds occs m');
  config_lines ds occs : Forall (fun o => is_Some (find_description (fst o) ds) /\ plain_name (fst o) /\ plain_text (snd o)) occs -> parse_config_file (concat (option_line <$> occs)) ds = Some occs;
  bool_0 : bool_value (str "0") = Some false;
  bool_1 : bool_value (str "1") = Some true;
}.

(** ** The options of the client: [description_full] and [description_saved] *)

Definition text_option (n : string) : description := {| o_name := str n; o_kind := KText; o_default := None; o_many := false; o_composing := false |}.
Definition text_default (n : string) (v : list byte) : description := {| o_name := str n; o_kind := KText; o_default := Some [v]; o_many := false; o_composing := false |}.
Definition switch (n : string) : description := {| o_name := str n; o_kind := KSwitch; o_default := Some [str "0"]; o_many := false; o_composing := false |}.
Definition texts (n : string) (composing : bool) : description := {| o_name := str n; o_kind := KText; o_default := None; o_many := true; o_composing := composing |}.
Definition number_option (n : string) (lo hi : Z) (v : option Z) : description := {| o_name := str n; o_kind := KNumber lo hi; o_default := (fun z => [to_string z]) <$> v; o_many := false; o_composing := false |}.

Definition u16_max : Z := 65535.
Definition u32_max : Z := 4294967295.
Definition u64_max : Z := 18446744073709551615.

Definition general_options (default_log_level : log_level_t) : list description :=
  [{| o_name := str "help"; o_kind := KText; o_default := None; o_many := false; o_composing := false |}; text_option "repo"; switch "drop-saved-opts"; text_default "log-level" (log_level_str default_log_level);
   switch "enable-log-file"; texts "bt-bootstrap-extra" true; switch "bt-bootstrap-no-default"; switch "bt-allow-martians"; number_option "open-file-limit" 0 u32_max None].

Definition service_options : list description :=
  [text_default "listen-on-tcp" (str "127.0.0.1:8077"); switch "https-proxy"; number_option "udp-mux-port" 0 u16_max None; number_option "udp-mux-rx-limit" 0 u32_max None; text_option "client-credentials";
   text_option "frontend-credentials"; text_option "tls-ca-cert-store-dir"; texts "tls-ca-cert-store-file" false; text_default "front-end-ep" (str "127.0.0.1:8078"); switch "https-frontend"; switch "require-post";
   text_option "front-end-unix-socket-ep"; text_option "front-end-access-token"; text_option "proxy-access-token"; switch "disable-bridge-announcement"; number_option "request-body-limit" 0 u64_max (Some 102400);
   texts "add-request-field" true].

Definition injector_options : list description :=
  [text_option "injector-ep"; text_option "injector-credentials"; text_option "injector-tls-cert-file"; number_option "i2p-hops-per-tunnel" 0 u64_max None; text_option "i2p-bep3-tracker"].

Definition cache_options : list description :=
  [texts "cache-type" false; text_option "cache-http-public-key"; number_option "max-cached-age" (- 2 ^ 63) (2 ^ 63 - 1) (Some 604800); number_option "max-simultaneous-announcements" 0 u64_max (Some 16);
   switch "cache-private"; text_option "cache-static-repo"; text_option "cache-static-root"; text_option "ouisync-page-index"].

Definition request_options : list description :=
  [switch "disable-origin-access"; switch "disable-injector-access"; switch "disable-proxy-access"; text_default "local-domain" (str "local"); switch "allow-private-targets"].

Definition dns_options : list description := [{| o_name := str "dns-protocol"; o_kind := KText; o_default := Some [str "https"]; o_many := true; o_composing := true |}].

Definition metrics_options : list description :=
  [switch "metrics-enable-on-start"; texts "metrics-server-url" true; texts "metrics-server-token" true; texts "metrics-server-cacert" true; text_option "metrics-encryption-key";
   number_option "metrics-delete-after" 0 u64_max (Some 604800)].

Definition description_full (default_log_level : log_level_t) : list description :=
  general_options default_log_level ++ service_options ++ injector_options ++ cache_options ++ request_options ++ dns_options ++ metrics_options.

Definition description_saved : list description :=
  [text_option "log-level"; switch "enable-log-file"; texts "bt-bootstrap-extra" true; switch "bt-bootstrap-no-default"; switch "disable-origin-access"; switch "disable-injector-access"; switch "disable-proxy-access"].

(** ** Endpoints of injectors: src/endpoint.cpp *)

Section Endpoints.
Context `{A : AddressText}.

Variant Endpoint := Tcp (ep : endpoint) | Utp (ep : endpoint) | Bep5 (swarm : list byte) | I2p (a : I2pAddress).

Definition parse_ip_endpoint (s : list byte) : option endpoint :=
  match find_char ":"%byte s with
  | None => None
  | Some pos =>
      let? addr := make_address (take pos s) in
      let? p := fst (number_unsigned W2 Byte.x00 (drop (S pos) s)) in
      Some {| address := addr; Contact.port := p |}
  end.

Definition Endpoint_parse (s : list byte) : option Endpoint :=
  match find_char ":"%byte s with
  | None => None
  | Some pos =>
      let type := take pos s in
      let ep_s := drop (S pos) s in
      if bool_decide (type = str "tcp") then Tcp <$> parse_ip_endpoint ep_s
      else if bool_decide (type = str "utp") then Utp <$> parse_ip_endpoint ep_s
      else if bool_decide (type = str "i2p") then I2p <$> I2pAddress_parse ep_s
      else if bool_decide (type = str "bep5") then Some (Bep5 ep_s)
      else None
  end.

(** [print_ip_address] and the printing of bootstrap servers *)
Definition print_ip_address (a : ip_address) : list byte := match a with IPv6 _ => str "[" ++ print_address a ++ str "]" | IPv4 _ => print_address a end.

Definition print_server (a : Address) : list byte :=
  match a with
  | AEndpoint ep => print_ip_address (address ep) ++ str ":" ++ to_string (Contact.port ep)
  | AIp a => print_ip_address a
  | AHost s => s
  end.

End Endpoints.

(** ** The constructor *)

(** What it throws. *)
Variant option_error :=
  ProgramOptionsError | NoSuchDirectory | NotADirectory | MissingRepo | InvalidLogLevel | InvalidBootstrapServer | BadListenEndpoint | BadInjectorEndpoint | Bep5Implicit | BadFrontEndEndpoint | EmptyUnixSocket
  | EmptyFrontEndToken | EmptyProxyToken | ClientCredentialsNoColon | FrontendCredentialsNoColon | BadPublicKey | UnknownCacheType | CacheWithoutKey | OuisyncWithoutIndex | InjectorCredentialsNoColon
  | InjectorCredentialsNoEndpoint | BadHops | HopsWithoutI2p | TrackerWithoutCache | BadTracker | CacheWithoutTracker | StaticRootMissing | InvalidLocalDomain | InvalidDnsProtocol | NoSuchCaPath | CaNotLoaded | BadCertificate | WrongTokenCount
  | WrongCacertCount | TokenWithoutUrl | CacertWithoutUrl | InvalidMetricsUrl | EnableWithoutUrl | InvalidMetricsKey | MetricsKeyMissing.

Definition result A : Type := A + option_error.

Notation "'try!' p := c 'in' k" := (match c with inl p => k | inr e => inr e end) (at level 10, p pattern, k at level 200) : ou_scope.

Definition from_opt {A} (e : option_error) (o : option A) : result A := match o with Some a => inl a | None => inr e end.
Definition guard_ (b : bool) (e : option_error) : result unit := if b then inl tt else inr e.

(** The file system, the environment variables and the libraries. *)
Record environment := {
  path_exists : list byte -> bool;
  is_directory : list byte -> bool;
  is_absolute : list byte -> bool;
  join_path : list byte -> list byte -> list byte;
  log_opens : bool;
  CLIENT_CREDENTIALS : option (list byte);
  FRONTEND_CREDENTIALS : option (list byte);
  base32_decode : list byte -> list byte;
  base32up_encode : list byte -> list byte;
  str_to_proto : list byte -> option (list byte);
  default_verify_paths : bool;
  add_verify_path : list byte -> bool;
  add_certificate_authority : list byte -> bool;
  load_verify_file : list byte -> bool;
  certificate_from_string : list byte -> bool;
  certificate_from_file : list byte -> bool;
  validate_key : list byte -> bool;
}.

Definition upper (c : byte) : byte := if (97 <=? code c) && (code c <=? 122) then byte_of (code c - 32) else c.
Definition upper_str (s : list byte) : list byte := map upper s.

Record EnabledCaches := { c_bep5_http : bool; c_bep3_over_i2p : bool; c_ouisync : bool }.

Definition caches_get (t : CacheType) (c : EnabledCaches) : bool := match t with Bep5Http => c_bep5_http c | Bep3HTTPOverI2P => c_bep3_over_i2p c | Ouisync => c_ouisync c end.

Definition caches_set (t : CacheType) (v : bool) (c : EnabledCaches) : EnabledCaches :=
  match t with
  | Bep5Http => {| c_bep5_http := v; c_bep3_over_i2p := c_bep3_over_i2p c; c_ouisync := c_ouisync c |}
  | Bep3HTTPOverI2P => {| c_bep5_http := c_bep5_http c; c_bep3_over_i2p := v; c_ouisync := c_ouisync c |}
  | Ouisync => {| c_bep5_http := c_bep5_http c; c_bep3_over_i2p := c_bep3_over_i2p c; c_ouisync := v |}
  end.

Variant certificate := CertText (pem : list byte) | CertFile (path : list byte).
Record MetricsServerConfig := { m_url : Url; m_token : option (list byte); m_cacert : option certificate }.
Record MetricsConfig := { enable_on_start : bool; servers : list MetricsServerConfig; encryption_key : list byte; delete_after_seconds : Z }.

(** The endpoints of injectors, the caches and the token of the page index. *)
Record injection := { i_bep5 : option Endpoint; i_i2p : option I2pAddress; i_caches : EnabledCaches; i_ouisync : option (list byte) }.

(** What is not persistent. *)
Record Options := {
  repo_root : list byte;
  allow_martians : bool;
  max_cached_age : option Z;
  max_simultaneous_announcements : option Z;
  local_endpoint : endpoint;
  https_proxy : bool;
  udp_mux_port : option Z;
  udp_mux_rx_limit : Z;
  front_end_endpoint : endpoint;
  https_frontend : bool;
  frontend_post : bool;
  unix_socket : list byte;
  front_end_token : option (list byte);
  proxy_token : option (list byte);
  disable_bridge_announcement : bool;
  max_req_body_size : Z;
  add_request_fields : gmap (list byte) (list byte);
  client_credentials : list byte;
  frontend_credentials_ : list byte;
  cache_http_pubkey : option (list byte);
  injection_ : injection;
  injector_credentials : list byte;
  i2p_hops_per_tunnel : Z;
  i2p_bep3_tracker : option I2pAddress;
  cache_static_content_path : list byte;
  cache_static_path : list byte;
  local_domain : list byte;
  dns_protocols : list (list byte);
  allow_private_targets : bool;
  cache_private : bool;
  tls_ca_cert_store_dir : list byte;
  tls_ca_cert_store_files : list (list byte);
  metrics : option MetricsConfig;
}.

Section Constructor.
Context `{A : AddressText} `{P : ProgramOptions}.
Variables (env : environment) (default_log_level : log_level_t).

(** The values of an option, [[]] if it is absent. *)
Section Values.
Variable vals : list byte -> list (list byte).

Definition as_optional (n : string) : option (list byte) := hd_error (vals (str n)).
Definition as_vector (n : string) : list (list byte) := vals (str n).
Definition as_bool (n : string) : bool := match as_optional n with Some v => default false (bool_value v) | None => false end.
Definition as_number (n : string) : option Z := match as_optional n with Some v => number_value v | None => None end.
Definition count (n : string) : bool := negb (bool_decide (vals (str n) = [])).

Definition read_repo : result (list byte) :=
  match as_optional "repo" with
  | Some p => if negb (path_exists env p) then inr NoSuchDirectory else if negb (is_directory env p) then inr NotADirectory else inl p
  | None => inr MissingRepo
  end.

(** *** The persistent options *)

Definition read_log_level : result log_level_t :=
  match as_optional "log-level" with
  | None => inl default_log_level
  | Some v => from_opt InvalidLogLevel (log_level_from_string (upper_str v))
  end.

Fixpoint read_servers (texts : list (list byte)) (bsx : gset Address) : result (gset Address) :=
  match texts with
  | [] => inl bsx
  | t :: texts => match parse_address make_address t with None => inr InvalidBootstrapServer | Some a => read_servers texts ({[a]} ∪ bsx) end
  end.

(** The access options are bound to the fields when the values are stored. *)
Definition read_persistent : result saved_options :=
  try! level := read_log_level in
  try! extras := read_servers (as_vector "bt-bootstrap-extra") ∅ in
  inl {| s_log_level := level; s_log_file := as_bool "enable-log-file" && log_opens env; s_bootstraps := extras; s_no_default := as_bool "bt-bootstrap-no-default";
         s_origin := negb (as_bool "disable-origin-access"); s_injector := negb (as_bool "disable-injector-access"); s_proxy := negb (as_bool "disable-proxy-access") |}.

(** *** The others *)

Definition read_endpoint (n : string) (e : option_error) : result endpoint :=
  match as_optional n with
  | Some s => match parse_endpoint Byte.x00 s with Some (ep, _) => inl ep | None => inr e end
  | None => inr e
  end.

Definition read_injector_ep : result (option Endpoint * option I2pAddress) :=
  match as_optional "injector-ep" with
  | None | Some [] => inl (None, None)
  | Some s =>
      match Endpoint_parse s with
      | None => inr BadInjectorEndpoint
      | Some (Bep5 _) => inr Bep5Implicit
      | Some (I2p a) => inl (None, Some a)
      | Some ep => inl (Some ep, None)
      end
  end.

Definition read_unix_socket (repo : list byte) : result (list byte) :=
  match as_optional "front-end-unix-socket-ep" with
  | None => inl []
  | Some [] => inr EmptyUnixSocket
  | Some p => inl (if is_absolute env p then p else join_path env repo p)
  end.

Definition read_token (n : string) (e : option_error) : result (option (list byte)) :=
  match as_optional n with
  | None => inl None
  | Some [] => inr e
  | Some t => inl (Some t)
  end.

Definition add_field (m : gmap (list byte) (list byte)) (field : list byte) : gmap (list byte) (list byte) :=
  match find_char ":"%byte field with
  | Some pos => <[take pos field := drop (S pos) field]> m
  | None => <[field := []]> m
  end.

Definition read_credentials (variable : option (list byte)) (n : string) (e : option_error) : result (list byte) :=
  let c := match variable with Some (x :: v) => x :: v | _ => default [] (as_optional n) end in
  if negb (bool_decide (c = [])) && bool_decide (find_char ":"%byte c = None) then inr e else inl c.

Definition PublicKey_from_hex (hex : list byte) : option (list byte) := if (length hex =? 64)%nat then from_hex hex else None.

Definition read_public_key : result (option (list byte)) :=
  match as_optional "cache-http-public-key" with
  | None => inl None
  | Some v =>
      match PublicKey_from_hex v with
      | Some pk => inl (Some pk)
      | None => let pk := base32_decode env v in if (length pk =? 32)%nat then inl (Some pk) else inr BadPublicKey
      end
  end.

(** A cache of the list; the branch for I2P sets the same endpoint as that for BEP5. *)
Definition with_swarm (pubkey : list byte) (i : injection) : injection :=
  {| i_bep5 := match i_bep5 i with Some ep => Some ep | None => Some (Bep5 (compute_injector_swarm_name (base32up_encode env) pubkey protocol_version_current)) end;
     i_i2p := i_i2p i; i_caches := i_caches i; i_ouisync := i_ouisync i |}.

Definition enable_cache (page_index pubkey : option (list byte)) (t : CacheType) (i : injection) : result injection :=
  let i := {| i_bep5 := i_bep5 i; i_i2p := i_i2p i; i_caches := caches_set t true (i_caches i); i_ouisync := i_ouisync i |} in
  match t with
  | Bep5Http => match pubkey with None => inr CacheWithoutKey | Some pk => inl (with_swarm pk i) end
  | Bep3HTTPOverI2P => match pubkey with None => inr CacheWithoutKey | Some pk => inl (with_swarm pk i) end
  | Ouisync => match page_index with None => inr OuisyncWithoutIndex | Some t => inl {| i_bep5 := i_bep5 i; i_i2p := i_i2p i; i_caches := i_caches i; i_ouisync := Some t |} end
  end.

Fixpoint read_caches (page_index pubkey : option (list byte)) (types : list (list byte)) (i : injection) : result injection :=
  match types with
  | [] => inl i
  | s :: types =>
      match CacheType_from_cmd_arg s with
      | None => inr UnknownCacheType
      | Some t => try! i := enable_cache page_index pubkey t i in read_caches page_index pubkey types i
      end
  end.

Definition read_injector_credentials (i : injection) : result (list byte) :=
  match as_optional "injector-credentials" with
  | None => inl []
  | Some cred =>
      if negb (bool_decide (cred = [])) && bool_decide (find_char ":"%byte cred = None) then inr InjectorCredentialsNoColon
      else match i_bep5 i, i_i2p i with None, None => inr InjectorCredentialsNoEndpoint | _, _ => inl cred end
  end.

Definition read_hops (i : injection) : result Z :=
  match as_number "i2p-hops-per-tunnel" with
  | None => inl 3
  | Some n =>
      if (n =? 0) || (8 <? n) then inr BadHops
      else match i_i2p i with None => if caches_get Bep3HTTPOverI2P (i_caches i) then inl n else inr HopsWithoutI2p | Some _ => inl n end
  end.

Definition read_tracker (i : injection) : result (option I2pAddress) :=
  try! tracker :=
    match as_optional "i2p-bep3-tracker" with
    | None => inl None
    | Some s => if negb (caches_get Bep3HTTPOverI2P (i_caches i)) then inr TrackerWithoutCache else match I2pAddress_parse s with None => inr BadTracker | Some a => inl (Some a) end
    end in
  match tracker with
  | None => if caches_get Bep3HTTPOverI2P (i_caches i) then inr CacheWithoutTracker else inl None
  | Some a => inl (Some a)
  end.

(** The content and the repository of the static cache. *)
Definition read_static : result (list byte * list byte) :=
  try! (content, repo) :=
    match as_optional "cache-static-root" with
    | None => inl ([], [])
    | Some p => if negb (is_directory env p) then inr NoSuchDirectory else inl (p, if count "cache-static-repo" then [] else join_path env p (str ".ouinet"))
    end in
  try! repo :=
    match as_optional "cache-static-repo" with
    | None => inl repo
    | Some p => if count "cache-static-root" then inl p else inr StaticRootMissing
    end in
  if negb (bool_decide (repo = [])) && negb (is_directory env repo) then inr NoSuchDirectory else inl (content, repo).

Definition is_domain_char (c : byte) : bool := bool_decide (c = "-"%byte) || is_digit c || ((65 <=? code c) && (code c <=? 90)) || ((97 <=? code c) && (code c <=? 122)).

Definition read_local_domain : result (list byte) :=
  match as_optional "local-domain" with
  | None => inl []
  | Some d => if negb (bool_decide (d = [])) && forallb is_domain_char d then inl (lower_str d) else inr InvalidLocalDomain
  end.

Fixpoint read_dns (names : list (list byte)) (protos : list (list byte)) : result (list (list byte)) :=
  match names with
  | [] => inl protos
  | n :: names =>
      match str_to_proto env n with
      | None => inr InvalidDnsProtocol
      | Some p => read_dns names (if bool_decide (p ∈ protos) then protos else protos ++ [p])
      end
  end.

(** [load_tls_ca_certificates] of src/ssl/util.cpp: it throws where the path does not exist, and where the TLS library does not take what it names. *)
Definition load_tls_ca_certificates (path : list byte) : result unit :=
  match path with
  | [] => guard_ (default_verify_paths env) CaNotLoaded
  | _ =>
      if negb (path_exists env path) then inr NoSuchCaPath
      else if is_directory env path then guard_ (add_verify_path env path) CaNotLoaded
      else guard_ (add_certificate_authority env path) CaNotLoaded
  end.

(** The certificates that origins are verified with. *)
Definition read_origin_ssl : result (list byte * list (list byte)) :=
  let dir := default [] (as_optional "tls-ca-cert-store-dir") in
  let files := as_vector "tls-ca-cert-store-file" in
  try! _ := load_tls_ca_certificates dir in
  try! _ := guard_ (forallb (load_verify_file env) files) BadCertificate in
  inl (dir, files).

(** *** The metrics: [MetricsConfig::parse] *)

Definition read_cacert (raw : list byte) : result (option certificate) :=
  if bool_decide (raw = []) || bool_decide (raw = str ".") then inl None
  else
    match raw with
    | "@"%byte :: pem => if certificate_from_string env pem then inl (Some (CertText pem)) else inr BadCertificate
    | path => if certificate_from_file env path then inl (Some (CertFile path)) else inr BadCertificate
    end.

Fixpoint read_metrics_servers (urls tokens cacerts : list (list byte)) : result (list MetricsServerConfig) :=
  match urls with
  | [] => inl []
  | raw_url :: urls =>
      let raw_token := default [] (hd_error tokens) in
      let raw_cacert := default [] (hd_error cacerts) in
      match Url_from raw_url with
      | None => inr InvalidMetricsUrl
      | Some url =>
          let token := if bool_decide (raw_token = []) || bool_decide (raw_token = str ".") then None else Some raw_token in
          try! cacert := read_cacert raw_cacert in
          try! rest := read_metrics_servers urls (tail tokens) (tail cacerts) in
          inl ({| m_url := url; m_token := token; m_cacert := cacert |} :: rest)
      end
  end.

Definition metrics_counts (urls tokens cacerts : list (list byte)) : result unit :=
  match urls with
  | _ :: _ =>
      if negb (bool_decide (tokens = [])) && negb (length tokens =? length urls)%nat then inr WrongTokenCount
      else if negb (bool_decide (cacerts = [])) && negb (length cacerts =? length urls)%nat then inr WrongCacertCount
      else inl tt
  | [] => if negb (bool_decide (tokens = [])) then inr TokenWithoutUrl else if negb (bool_decide (cacerts = [])) then inr CacertWithoutUrl else inl tt
  end.

Definition metrics_key (key : list byte) : list byte :=
  if starts_with key (str "-----BEGIN") then key else str "-----BEGIN PUBLIC KEY-----" ++ [newline] ++ key ++ [newline] ++ str "-----END PUBLIC KEY-----" ++ [newline].

Definition read_metrics : result (option MetricsConfig) :=
  let urls := as_vector "metrics-server-url" in
  let tokens := as_vector "metrics-server-token" in
  let cacerts := as_vector "metrics-server-cacert" in
  try! _ := metrics_counts urls tokens cacerts in
  try! servers := read_metrics_servers urls tokens cacerts in
  try! on_start := (if as_bool "metrics-enable-on-start" then (if bool_decide (length servers = O) then inr EnableWithoutUrl else inl true) else inl false) in
  match servers with
  | [] => inl None
  | _ =>
      match as_optional "metrics-encryption-key" with
      | None => inr MetricsKeyMissing
      | Some key =>
          if validate_key env (metrics_key key)
          then inl (Some {| enable_on_start := on_start; servers := servers; encryption_key := metrics_key key; delete_after_seconds := default 0 (as_number "metrics-delete-after") |})
          else inr InvalidMetricsKey
      end
  end.

(** The constructor after the values are there, the persistent options apart. *)
Definition read_options (repo : list byte) : result Options :=
  try! local_ep := read_endpoint "listen-on-tcp" BadListenEndpoint in
  try! (ep_bep5, ep_i2p) := read_injector_ep in
  try! fe_ep := read_endpoint "front-end-ep" BadFrontEndEndpoint in
  try! socket := read_unix_socket repo in
  try! fe_token := read_token "front-end-access-token" EmptyFrontEndToken in
  try! px_token := read_token "proxy-access-token" EmptyProxyToken in
  try! client_cred := read_credentials (CLIENT_CREDENTIALS env) "client-credentials" ClientCredentialsNoColon in
  try! frontend_cred := read_credentials (FRONTEND_CREDENTIALS env) "frontend-credentials" FrontendCredentialsNoColon in
  try! pubkey := read_public_key in
  try! inj := read_caches (as_optional "ouisync-page-index") pubkey (as_vector "cache-type")
    {| i_bep5 := ep_bep5; i_i2p := ep_i2p; i_caches := {| c_bep5_http := false; c_bep3_over_i2p := false; c_ouisync := false |}; i_ouisync := None |} in
  try! injector_cred := read_injector_credentials inj in
  try! hops := read_hops inj in
  try! tracker := read_tracker inj in
  try! _ := guard_ (negb (caches_get Bep5Http (i_caches inj)) || bool_decide (is_Some pubkey)) CacheWithoutKey in
  try! (content, static_repo) := read_static in
  try! domain := read_local_domain in
  try! protos := read_dns (as_vector "dns-protocol") [] in
  try! (ca_dir, ca_files) := read_origin_ssl in
  try! metrics := read_metrics in
  inl {| repo_root := repo; allow_martians := as_bool "bt-allow-martians"; max_cached_age := as_number "max-cached-age"; max_simultaneous_announcements := as_number "max-simultaneous-announcements";
         local_endpoint := local_ep; https_proxy := as_bool "https-proxy"; udp_mux_port := as_number "udp-mux-port"; udp_mux_rx_limit := default 0 (as_number "udp-mux-rx-limit"); front_end_endpoint := fe_ep;
         https_frontend := as_bool "https-frontend"; frontend_post := as_bool "require-post"; unix_socket := socket; front_end_token := fe_token; proxy_token := px_token;
         disable_bridge_announcement := as_bool "disable-bridge-announcement"; max_req_body_size := default 102400 (as_number "request-body-limit"); add_request_fields := foldl add_field ∅ (as_vector "add-request-field");
         client_credentials := client_cred; frontend_credentials_ := frontend_cred; cache_http_pubkey := pubkey; injection_ := inj; injector_credentials := injector_cred; i2p_hops_per_tunnel := hops;
         i2p_bep3_tracker := tracker; cache_static_content_path := content; cache_static_path := static_repo; local_domain := domain; dns_protocols := protos;
         allow_private_targets := as_bool "allow-private-targets"; cache_private := as_bool "cache-private"; tls_ca_cert_store_dir := ca_dir;
         tls_ca_cert_store_files := ca_files; metrics := metrics |}.

End Values.

(** *** The sources *)

Definition values (m : variables_map) (n : list byte) : list (list byte) := match vm_entry m n with Absent => [] | Defaulted v => v | Given v => v end.

(** A file of options, if it is there. *)
Definition store_file (ds : list description) (file : option (list byte)) (m : variables_map) : option variables_map :=
  match file with
  | None => Some m
  | Some text => let? occs := parse_config_file text ds in store ds occs m
  end.

Definition switch_text (b : bool) : list byte := if b then str "1" else str "0".

(** [save_persistent]; [order] is the order of the set of servers. *)
Definition saved_lines (servers : list Address) (p : saved_options) : occurrences :=
  [(str "log-level", log_level_str (s_log_level p)); (str "enable-log-file", switch_text (s_log_file p))] ++ ((fun a => (str "bt-bootstrap-extra", print_server a)) <$> servers) ++
  [(str "bt-bootstrap-no-default", switch_text (s_no_default p)); (str "disable-origin-access", switch_text (negb (s_origin p))); (str "disable-injector-access", switch_text (negb (s_injector p)));
   (str "disable-proxy-access", switch_text (negb (s_proxy p)))].

Definition saved_text (servers : list Address) (p : saved_options) : list byte := concat (option_line <$> saved_lines servers p).

Variant started := Help | Failed (e : option_error) | Started (o : Options) (p : saved_options).

(** [ClientConfig::ClientConfig]: the file of saved options afterwards, and what was made; [conf] is the configuration file. *)
Definition construct (args : list (list byte)) (conf saved : option (list byte)) : option (list byte) * started :=
  let full := description_full default_log_level in
  match (let? occs := parse_command_line args full in store full occs empty_map) with
  | None => (saved, Failed ProgramOptionsError)
  | Some m1 =>
      if count (values m1) "help" then (saved, Help)
      else
        match read_repo (values m1) with
        | inr e => (saved, Failed e)
        | inl repo =>
            let saved := if as_bool (values m1) "drop-saved-opts" then None else saved in
            match (let? m2 := store_file description_saved saved m1 in store_file full conf m2) with
            | None => (saved, Failed ProgramOptionsError)
            | Some m =>
                match (try! p := read_persistent (values m) in try! o := read_options (values m) repo in inl (o, p)) with
                | inr e => (saved, Failed e)
                | inl (o, p) => (Some (saved_text (elements (s_bootstraps p)) p), Started o p)
                end
            end
        end
  end.

End Constructor.

(** ** Bootstrap servers are read as they are printed *)

Class ServerTextLaws (A : AddressText) : Prop := {
  make_print s a : make_address s = Some a -> make_address (print_address a) = Some a;
  print_plain a : plain_text (print_address a);
  print_no_bracket a : ("["%byte ∉ print_address a) /\ ("]"%byte ∉ print_address a);
  print_v4_no_colon b : ":"%byte ∉ print_address (IPv4 b);
  lower_refused s : make_address s = None -> make_address (lower_str s) = None;
}.

Lemma find_last_none c s : c ∉ s -> find_last c s = None.
Proof. induction s as [|x s IH]; intros Hc; [done|]. apply not_elem_of_cons in Hc as [Hx Hs]. cbn. by rewrite IH, bool_decide_eq_false_2. Qed.

Lemma find_last_app c a b : c ∉ b -> find_last c (a ++ c :: b) = Some (length a).
Proof. intros Hb. induction a as [|x a IH]; cbn; [by rewrite find_last_none, bool_decide_eq_true_2|by rewrite IH]. Qed.

(** A text that does not begin with a bracket. *)
Definition unbracketed (s : list byte) : Prop := s <> [] /\ hd_error s <> Some "["%byte.

Lemma split_ep_host s : unbracketed s -> ":"%byte ∉ s -> split_ep s = (s, []).
Proof. intros [Hne Hb] Hc. unfold split_ep. rewrite find_last_none by done. destruct s as [|x s]; [done|]. destruct x; try done. Qed.

Lemma hd_rev_app (a b : list byte) : b <> [] -> hd_error (rev (a ++ b)) = hd_error (rev b).
Proof. intros Hb. rewrite rev_app_distr. destruct (rev b) as [|x l] eqn:E; [|done]. apply (f_equal (@rev byte)) in E. by rewrite rev_involutive in E. Qed.

Lemma split_ep_port h p : unbracketed h -> p <> [] -> ":"%byte ∉ p -> "]"%byte ∉ p -> split_ep (h ++ ":"%byte :: p) = (h, p).
Proof.
  intros [Hne Hb] Hp Hc Hr. unfold split_ep. rewrite find_last_app by done. assert (hd_error (rev (h ++ ":"%byte :: p)) <> Some "]"%byte) as Hl.
  { rewrite cons_middle, app_assoc, hd_rev_app by done. intros E. destruct (rev p) as [|x l] eqn:Er; [done|]. injection E as ->. apply Hr. apply list_elem_of_In. rewrite in_rev, Er. by left. }
  rewrite bool_decide_eq_false_2 by done. rewrite take_app_length, drop_app_ge by lia. replace (S (length h) - length h)%nat with 1%nat by lia. cbn [drop].
  destruct h as [|x h]; [done|]. cbn [app]. destruct x; try done.
Qed.

Lemma take_brackets (a : list byte) : take (length ("["%byte :: a ++ ["]"%byte]) - 2) (a ++ ["]"%byte]) = a.
Proof. cbn [length]. rewrite length_app. cbn [length]. replace (S (length a + 1) - 2)%nat with (length a) by lia. by rewrite take_app_length. Qed.

Lemma split_ep_brackets a : split_ep ("["%byte :: a ++ ["]"%byte]) = (a, []).
Proof.
  unfold split_ep. assert (hd_error (rev ("["%byte :: a ++ ["]"%byte])) = Some "]"%byte) as Hl by (by rewrite (app_comm_cons a), hd_rev_app). rewrite Hl, (bool_decide_eq_true_2 (Some _ = Some _)) by done.
  destruct (find_last _ _); by rewrite take_brackets.
Qed.

Lemma split_ep_brackets_port a p : p <> [] -> ":"%byte ∉ p -> "]"%byte ∉ p -> split_ep ("["%byte :: a ++ "]"%byte :: ":"%byte :: p) = (a, p).
Proof.
  intros Hp Hc Hr. replace ("["%byte :: a ++ "]"%byte :: ":"%byte :: p) with (("["%byte :: a ++ ["]"%byte]) ++ ":"%byte :: p) by (cbn [app]; by rewrite <- app_assoc).
  unfold split_ep. rewrite find_last_app by done. assert (hd_error (rev (("["%byte :: a ++ ["]"%byte]) ++ ":"%byte :: p)) <> Some "]"%byte) as Hl.
  { rewrite cons_middle, app_assoc, hd_rev_app by done. intros E. destruct (rev p) as [|x l] eqn:Er; [done|]. injection E as ->. apply Hr. apply list_elem_of_In. rewrite in_rev, Er. by left. }
  rewrite bool_decide_eq_false_2 by done. rewrite take_app_length, drop_app_ge by lia. replace (S _ - _)%nat with 1%nat by lia. cbn [drop]. cbn [app]. by rewrite take_brackets.
Qed.

Lemma number_max z : 0 <= z <= unsigned_max W2 -> fst (number_unsigned W2 Byte.x00 (to_string z)) = Some z.
Proof.
  intros Hz. destruct (Z.eq_dec z (unsigned_max W2)) as [->|]; [vm_compute; reflexivity|]. pose proof (number_unsigned_to_string W2 Byte.x00 z [] ltac:(lia) ltac:(done)) as E. rewrite app_nil_r in E. by rewrite E.
Qed.

Lemma number_in_range s z : fst (number_unsigned W2 Byte.x00 s) = Some z -> 0 <= z <= unsigned_max W2.
Proof.
  rewrite number_unsigned_spec_eq. unfold number_unsigned_spec. case_bool_decide; [done|]. destruct (Z.ltb_spec (unsigned_max W2) (dec_value (digits s))); [done|]. destruct (_ && _); [done|]. cbn. intros [= <-].
  split; [|lia]. by apply dec_value_range, digits_all.
Qed.

Lemma to_string_digits_only z : 0 <= z -> Forall (fun c => is_digit c = true) (to_string z) /\ to_string z <> [].
Proof. intros Hz. split; [apply Forall_forall; intros c; by apply to_string_chars|]. rewrite to_string_abs. destruct (Z.ltb_spec z 0); [lia|]. by destruct (abs_digits_spec z) as (_ & _ & ?). Qed.

Lemma to_string_without z c : 0 <= z -> is_digit c = false -> c ∉ to_string z.
Proof. intros Hz Hc Hin. apply to_string_chars in Hin; [congruence|done]. Qed.

(** The characters of a host name. *)
Definition is_name_char (c : byte) : bool := is_label_char c || bool_decide (c = "."%byte).

Lemma host_name_chars s : is_host_name s = true -> Forall (fun c => is_name_char c = true) s /\ s <> [].
Proof.
  unfold is_host_name. intros H. split.
  - rewrite <- (join_split_on "."%byte s). revert H. generalize (split_on "."%byte s). intros ls. unfold is_name_char.
    induction ls as [|l ls IH]; intros H; [done|]. cbn [forallb] in H. apply andb_true_iff in H as [H1 H2]. apply andb_true_iff in H1 as [_ H1].
    assert (Forall (fun c => is_label_char c || bool_decide (c = "."%byte) = true) l) as Hl by (apply Forall_forall; intros c Hc; rewrite forallb_forall in H1; rewrite (H1 c) by (by apply list_elem_of_In); done).
    destruct ls as [|l' ls]; [done|]. cbn [join]. apply Forall_app. split; [done|]. constructor; [done|]. by apply IH.
  - intros ->. done.
Qed.

Lemma name_char_spec c : is_name_char c = true -> plain_char c = true /\ lower c = c /\ c <> ":"%byte /\ c <> "["%byte.
Proof. by destruct c. Qed.

Lemma digit_plain c : is_digit c = true -> plain_char c = true.
Proof. by destruct c. Qed.

Lemma host_name_spec s : is_host_name s = true -> unbracketed s /\ (":"%byte ∉ s) /\ lower_str s = s /\ plain_text s.
Proof.
  intros H. destruct (host_name_chars s H) as [Hc Hne]. rewrite Forall_forall in Hc. split_and!.
  - split; [done|]. destruct s as [|x s]; [done|]. cbn. intros [= ->]. by destruct (name_char_spec "["%byte (Hc "["%byte ltac:(left))) as (_ & _ & _ & ?).
  - intros Hin. by destruct (name_char_spec ":"%byte (Hc _ Hin)) as (_ & _ & ? & _).
  - clear H Hne. unfold lower_str. induction s as [|x s IH]; [done|]. cbn [map]. f_equal; [|apply IH; intros; apply Hc; by right]. by destruct (name_char_spec x (Hc x ltac:(left))) as (_ & ? & _).
  - split; [done|]. apply forallb_forall. intros x Hx. apply list_elem_of_In in Hx. by destruct (name_char_spec x (Hc x Hx)) as (? & _).
Qed.

Section Servers.
Context `{A : AddressText} {L : ServerTextLaws A}.

(** What [parse_address] makes of a host and a port. *)
Definition server_of (host : list byte) (port_n : Z) : option Address :=
  match make_address host with
  | Some a => Some (if port_n =? 0 then AIp a else AEndpoint {| address := a; Contact.port := port_n |})
  | None => if is_host_name (lower_str host) then Some (AHost (if port_n =? 0 then lower_str host else lower_str host ++ str ":" ++ to_string port_n)) else None
  end.

Lemma parse_address_split s host port : split_ep s = (host, port) -> host <> [] ->
  parse_address make_address s = match (match port with [] => Some 0 | _ => fst (number_unsigned W2 Byte.x00 port) end) with None => None | Some n => server_of host n end.
Proof. intros E Hne. unfold parse_address. rewrite E. by rewrite bool_decide_eq_false_2. Qed.

Lemma print_address_ne a : print_address a <> [].
Proof. apply print_plain. Qed.

Lemma print_address_unbracketed a : unbracketed (print_address a).
Proof. split; [apply print_address_ne|]. destruct (print_no_bracket a) as [H _]. destruct (print_address a) as [|x l]; [done|]. cbn. intros [= ->]. apply H. left. Qed.

Lemma server_printed host n a : 0 <= n <= unsigned_max W2 -> server_of host n = Some a -> parse_address make_address (print_server a) = Some a.
Proof.
  intros Hn. unfold server_of. destruct (to_string_digits_only n ltac:(lia)) as [_ Hts]. pose proof (to_string_without n ":"%byte ltac:(lia) eq_refl) as Hc. pose proof (to_string_without n "]"%byte ltac:(lia) eq_refl) as Hb.
  pose proof (number_max n Hn) as En. destruct (make_address host) as [ip|] eqn:Em.
  - pose proof (make_print host ip Em) as Ep. intros [= <-]. destruct (Z.eqb_spec n 0) as [->|Hn0]; cbn [print_server]; unfold print_ip_address.
    + destruct ip as [b|b].
      * rewrite (parse_address_split _ (print_address (IPv4 b)) []); [|apply split_ep_host; [apply print_address_unbracketed|apply print_v4_no_colon]|apply print_address_ne]. unfold server_of. by rewrite Ep.
      * rewrite (parse_address_split _ (print_address (IPv6 b)) []); [|apply split_ep_brackets|apply print_address_ne]. unfold server_of. by rewrite Ep.
    + cbn [address Contact.port]. destruct ip as [b|b].
      * rewrite (parse_address_split _ (print_address (IPv4 b)) (to_string n)); [|apply split_ep_port; [apply print_address_unbracketed|done..]|apply print_address_ne]. destruct (to_string n) eqn:Et; [done|]. rewrite En. unfold server_of. rewrite Ep.
        destruct (Z.eqb_spec n 0); [lia|done].
      * rewrite (parse_address_split _ (print_address (IPv6 b)) (to_string n)); [|rewrite <- !app_assoc; by apply split_ep_brackets_port|apply print_address_ne]. destruct (to_string n) eqn:Et; [done|]. rewrite En. unfold server_of. rewrite Ep.
        destruct (Z.eqb_spec n 0); [lia|done].
  - destruct (is_host_name (lower_str host)) eqn:Eh; [|done]. destruct (host_name_spec _ Eh) as (H1 & H2 & H3 & _). pose proof (lower_refused host Em) as El. intros [= <-]. cbn [print_server]. destruct (Z.eqb_spec n 0) as [->|Hn0].
    + rewrite (parse_address_split _ (lower_str host) []); [|by apply split_ep_host|apply H1]. unfold server_of. by rewrite El, H3, Eh.
    + rewrite (parse_address_split _ (lower_str host) (to_string n)); [|by apply split_ep_port|apply H1]. destruct (to_string n) eqn:Et; [done|]. rewrite En. unfold server_of. rewrite El, H3, Eh. destruct (Z.eqb_spec n 0); [lia|]. by rewrite Et.
Qed.

(** A server that was read is read again from its text. *)
Lemma server_roundtrip s a : parse_address make_address s = Some a -> parse_address make_address (print_server a) = Some a.
Proof.
  intros E. destruct (split_ep s) as [host port] eqn:Es. destruct host as [|x h]; [unfold parse_address in E; by rewrite Es in E|]. rewrite (parse_address_split s (x :: h) port) in E by done.
  destruct port as [|y p]; [by apply server_printed in E; [|done]|]. destruct (fst (number_unsigned W2 Byte.x00 (y :: p))) as [n|] eqn:En; [|done]. apply number_in_range in En. by apply server_printed in E.
Qed.

Lemma server_plain s a : parse_address make_address s = Some a -> plain_text (print_server a).
Proof.
  intros E. assert (exists host n, 0 <= n <= unsigned_max W2 /\ server_of host n = Some a) as (host & n & Hn & Es).
  { destruct (split_ep s) as [host port] eqn:Es. destruct host as [|x h]; [unfold parse_address in E; by rewrite Es in E|]. rewrite (parse_address_split s (x :: h) port) in E by done.
    destruct port as [|y p]; [by exists (x :: h), 0|]. destruct (fst (number_unsigned W2 Byte.x00 (y :: p))) as [n|] eqn:En; [|done]. apply number_in_range in En. by exists (x :: h), n. }
  assert (forallb plain_char (to_string n) = true) as Ht.
  { apply forallb_forall. intros c Hc. apply list_elem_of_In, to_string_chars in Hc; [|lia]. by apply digit_plain. }
  assert (forall ip, plain_text (print_ip_address ip)) as Hip.
  { intros ip. destruct (print_plain ip) as [Hne Hp]. unfold print_ip_address. destruct ip; [done|]. split; [done|]. rewrite !forallb_app, Hp. done. }
  assert (forall h, plain_text h -> plain_text (h ++ str ":" ++ to_string n)) as Hh.
  { intros h [Hne Hp]. split; [by destruct h|]. by rewrite !forallb_app, Hp, Ht. }
  unfold server_of in Es. destruct (make_address host) as [ip|].
  - injection Es as <-. destruct (n =? 0); cbn [print_server address Contact.port]; [apply Hip|apply Hh, Hip].
  - destruct (is_host_name (lower_str host)) eqn:Eh; [|done]. destruct (host_name_spec _ Eh) as (_ & _ & _ & Hp). injection Es as <-. destruct (n =? 0); cbn [print_server]; [done|by apply Hh].
Qed.

Lemma read_servers_printed l : forall acc, (forall a, a ∈ l -> parse_address make_address (print_server a) = Some a) -> read_servers (print_server <$> l) acc = inl (list_to_set l ∪ acc).
Proof.
  induction l as [|a l IH]; intros acc Hl; cbn [fmap list_fmap read_servers list_to_set]; [f_equal; set_solver|]. rewrite (Hl a) by left. rewrite IH by (intros b Hb; apply Hl; by right). f_equal. set_solver.
Qed.

End Servers.

(** ** The saved options *)

Section Restart.
Context `{A : AddressText} {LA : ServerTextLaws A} `{P : ProgramOptions} {LP : ProgramOptionsLaws P}.
Variables (env : environment) (default_log_level : log_level_t).

Definition persistent_names : list (list byte) := o_name <$> description_saved.

(** The settings of a running client: its servers were read, and the log file is enabled only if it can be opened. *)
Record settings_live (p : saved_options) : Prop := {
  live_servers : forall a, a ∈ s_bootstraps p -> exists s, parse_address make_address s = Some a;
  live_log_file : s_log_file p = true -> log_opens env = true;
}.

Lemma values_of_app n a b : values_of n (a ++ b) = values_of n a ++ values_of n b.
Proof. unfold values_of. by rewrite list.filter_app, fmap_app. Qed.

Lemma values_of_servers n servers : values_of n ((fun a => (str "bt-bootstrap-extra", print_server a)) <$> servers) = if bool_decide (n = str "bt-bootstrap-extra") then print_server <$> servers else [].
Proof.
  unfold values_of. induction servers as [|a l IH]; cbn [fmap list_fmap]; [by case_bool_decide|]. rewrite list.filter_cons. cbn [fst]. case_bool_decide as Hn.
  - rewrite decide_True by done. cbn [fmap list_fmap snd]. by rewrite <- IH.
  - rewrite decide_False by done. exact IH.
Qed.

(** What the file of saved options gives for each option. *)
Lemma saved_values servers p :
  values_of (str "log-level") (saved_lines servers p) = [log_level_str (s_log_level p)] /\ values_of (str "enable-log-file") (saved_lines servers p) = [switch_text (s_log_file p)] /\
  values_of (str "bt-bootstrap-extra") (saved_lines servers p) = print_server <$> servers /\ values_of (str "bt-bootstrap-no-default") (saved_lines servers p) = [switch_text (s_no_default p)] /\
  values_of (str "disable-origin-access") (saved_lines servers p) = [switch_text (negb (s_origin p))] /\ values_of (str "disable-injector-access") (saved_lines servers p) = [switch_text (negb (s_injector p))] /\
  values_of (str "disable-proxy-access") (saved_lines servers p) = [switch_text (negb (s_proxy p))].
Proof. unfold saved_lines. split_and!; rewrite !values_of_app, values_of_servers; [reflexivity|reflexivity| |reflexivity..]. rewrite bool_decide_eq_true_2 by done. apply app_nil_r. Qed.

Lemma switch_text_value b : bool_value (switch_text b) = Some b.
Proof. destruct b; [apply bool_1|apply bool_0]. Qed.

Lemma switch_text_plain b : plain_text (switch_text b).
Proof. by destruct b. Qed.

Lemma log_level_plain l : plain_text (log_level_str l).
Proof. by destruct l. Qed.

Lemma saved_lines_ok servers p : (forall a, a ∈ servers -> plain_text (print_server a)) ->
  Forall (fun o => is_Some (find_description (fst o) description_saved) /\ plain_name (fst o) /\ plain_text (snd o)) (saved_lines servers p) /\ Forall (acceptable description_saved) (saved_lines servers p).
Proof.
  intros Hs. pose proof switch_text_plain as Hp. pose proof log_level_plain as Hl. assert (forall b, is_Some (bool_value (switch_text b))) as Hb by (intros b; rewrite switch_text_value; eauto).
  assert (forall n, n ∈ persistent_names -> is_Some (find_description n description_saved) /\ plain_name n) as Hn.
  { intros n Hn. unfold persistent_names, description_saved in Hn. cbn [fmap list_fmap o_name text_option switch texts] in Hn. rewrite !elem_of_cons in Hn.
    destruct_or! Hn; try (by apply elem_of_nil in Hn); subst n; (split; [vm_compute; eauto|split; [done|by apply (bool_decide_unpack _)]]). }
  unfold saved_lines. split; rewrite !Forall_app; split_and!.
  - constructor; [|constructor; [|constructor]]; (split; [apply Hn; by apply (bool_decide_unpack _)|]; split; [apply Hn; by apply (bool_decide_unpack _)|]); [apply Hl|apply Hp].
  - apply Forall_fmap, Forall_forall. intros a Ha. cbn [compose fst snd]. split; [apply Hn; by apply (bool_decide_unpack _)|]. split; [apply Hn; by apply (bool_decide_unpack _)|by apply Hs].
  - repeat (constructor; [split; [apply Hn; by apply (bool_decide_unpack _)|]; split; [apply Hn; by apply (bool_decide_unpack _)|apply Hp]|]). constructor.
  - constructor; [exact I|]. constructor; [apply Hb|constructor].
  - apply Forall_fmap, Forall_forall. intros a Ha. exact I.
  - constructor; [apply Hb|]. constructor; [apply Hb|]. constructor; [apply Hb|]. constructor; [apply Hb|constructor].
Qed.

Lemma saved_lines_once servers p : once description_saved (saved_lines servers p).
Proof.
  intros d Hd Hm. destruct (saved_values servers p) as (H1 & H2 & H3 & H4 & H5 & H6 & H7).
  unfold description_saved in Hd. rewrite !elem_of_cons in Hd. destruct_or! Hd; try (by apply elem_of_nil in Hd); subst d; try discriminate Hm; cbn [o_name text_option switch]; rewrite ?H1, ?H2, ?H4, ?H5, ?H6, ?H7; cbn; lia.
Qed.

(** The file of saved options can be read. *)
Lemma saved_file_read servers p m : (forall a, a ∈ servers -> plain_text (print_server a)) ->
  exists m', store_file description_saved (Some (saved_text servers p)) m = Some m' /\ forall n, vm_entry m' n = stored (find_description n description_saved) (values_of n (saved_lines servers p)) (vm_entry m n).
Proof.
  intros Hs. destruct (saved_lines_ok servers p Hs) as [H1 H2]. destruct (store_accepts description_saved (saved_lines servers p) m H2 (saved_lines_once servers p)) as [m' E]. exists m'. cbn [store_file]. unfold saved_text.
  rewrite config_lines by done. split; [done|]. intros n. by apply store_entry.
Qed.

(** Sources that say nothing about the persistent options. *)
Definition silent (occs : occurrences) : Prop := forall n, n ∈ persistent_names -> values_of n occs = [].

Lemma silent_names occs o : silent occs -> o ∈ occs -> fst o ∉ persistent_names.
Proof.
  intros Hs Ho Hn. apply Hs in Hn. assert (snd o ∈ values_of (fst o) occs) as Hin by (unfold values_of; apply list_elem_of_fmap; exists o; split; [done|]; by apply list_elem_of_filter).
  rewrite Hn in Hin. by apply elem_of_nil in Hin.
Qed.

Lemma saved_unknown n : n ∉ persistent_names -> find_description n description_saved = None.
Proof.
  intros Hn. unfold find_description. destruct (List.find _ description_saved) as [d|] eqn:E; [|done]. apply find_some in E as [Hd E]. apply bool_decide_eq_true in E. subst n. exfalso. apply Hn. unfold persistent_names. apply list_elem_of_fmap. exists d. split; [done|]. by apply list_elem_of_In.
Qed.

(** *** The options that are not persistent do not depend on the file *)

Section Frame.
Variables vals vals' : list byte -> list (list byte).
Hypothesis same_others : forall n, n ∉ persistent_names -> vals n = vals' n.

Ltac same := repeat match goal with |- context [vals (str ?n)] => rewrite (same_others (str n)) by (by apply (bool_decide_unpack _)) end.

Lemma read_metrics_same : read_metrics env vals = read_metrics env vals'.
Proof. unfold read_metrics, as_vector, as_bool, as_number, as_optional. by same. Qed.

Lemma read_static_same : read_static env vals = read_static env vals'.
Proof. unfold read_static, count, as_optional. by same. Qed.

Lemma read_options_same repo : read_options env vals repo = read_options env vals' repo.
Proof.
  unfold read_options. rewrite read_metrics_same, read_static_same.
  unfold read_endpoint, read_injector_ep, read_unix_socket, read_token, read_credentials, read_public_key, read_injector_credentials, read_hops, read_tracker, read_local_domain, read_origin_ssl, as_vector, as_bool, as_number, as_optional. by same.
Qed.

End Frame.

Lemma persistent_read vals servers p :
  settings_live p -> list_to_set servers = s_bootstraps p -> (forall n, n ∈ persistent_names -> vals n = values_of n (saved_lines servers p)) -> read_persistent env default_log_level vals = inl p.
Proof.
  intros [Hs Hl] Hset Hv. destruct (saved_values servers p) as (H1 & H2 & H3 & H4 & H5 & H6 & H7).
  rewrite <- Hv in H1, H2, H3, H4, H5, H6, H7 by (by apply (bool_decide_unpack _)).
  unfold read_persistent, read_log_level, as_bool, as_vector, as_optional. rewrite H1, H2, H3, H4, H5, H6, H7. cbn [hd_error]. rewrite !switch_text_value. assert (forall b, default false (Some b) = b) as Hd by done. rewrite !Hd.
  assert (log_level_from_string (upper_str (log_level_str (s_log_level p))) = Some (s_log_level p)) as -> by (by destruct (s_log_level p)). cbn [from_opt].
  rewrite read_servers_printed. 2:{ intros a Ha. destruct (Hs a) as [s E]; [rewrite <- Hset; by apply elem_of_list_to_set|]. by apply (server_roundtrip s). }
  rewrite Hset, !negb_involutive. assert (s_log_file p && log_opens env = s_log_file p) as -> by (destruct (s_log_file p); [by rewrite Hl|done]). rewrite (right_id_L ∅ (∪)). by destruct p.
Qed.

(** The configuration file, if there is one, says nothing about the persistent options. *)
Definition silent_file (conf : option (list byte)) : Prop := forall text occs, conf = Some text -> parse_config_file text (description_full default_log_level) = Some occs -> silent occs.

(** With and without the saved options, the configuration file gives the same for all other options. *)
Lemma conf_file_local conf m m' mf :
  silent_file conf -> (forall n, n ∉ persistent_names -> vm_entry m' n = vm_entry m n) -> store_file (description_full default_log_level) conf m = Some mf ->
  exists mf', store_file (description_full default_log_level) conf m' = Some mf' /\ (forall n, n ∉ persistent_names -> vm_entry mf' n = vm_entry mf n) /\
    forall n, n ∈ persistent_names -> vm_entry mf' n = match conf with None => vm_entry m' n | Some _ => stored (find_description n (description_full default_log_level)) [] (vm_entry m' n) end.
Proof.
  intros Hsil Hm E. destruct conf as [text|]; cbn [store_file] in *; [|injection E as <-; by exists m'].
  destruct (parse_config_file text _) as [occs|] eqn:Ep; [|done]. pose proof (Hsil text occs eq_refl Ep) as Hs.
  destruct (store_local (description_full default_log_level) occs m m') as [mf' E']; [intros o Ho; apply Hm; by eapply silent_names|by eexists|].
  exists mf'. split; [done|]. split; intros n Hn; rewrite (store_entry _ _ _ _ n E'); [by rewrite (store_entry _ _ _ _ n E), Hm|by rewrite (Hs n Hn)].
Qed.

(** What is saved is there after the three sources. *)
Lemma saved_entry n vs : n ∈ persistent_names -> vs <> [] \/ n = str "bt-bootstrap-extra" ->
  let e1 := stored (find_description n (description_full default_log_level)) [] Absent in
  let e2 := stored (find_description n description_saved) vs e1 in
  forall e3, e3 = e2 \/ e3 = stored (find_description n (description_full default_log_level)) [] e2 -> match e3 with Absent => [] | Defaulted v => v | Given v => v end = vs.
Proof.
  intros Hn Hvs e1 e2 e3 He. unfold persistent_names, description_saved in Hn. cbn [fmap list_fmap o_name text_option switch texts] in Hn. rewrite !elem_of_cons in Hn.
  destruct vs as [|v vs]; [destruct Hvs as [?| ->]; [done|]|].
  - destruct He as [-> | ->]; reflexivity.
  - destruct_or! Hn; try (by apply elem_of_nil in Hn); subst n; destruct He as [-> | ->]; first [reflexivity|exact (app_nil_r (v :: vs))].
Qed.

(** C13: the options that are saved come back.  A client that can be started with some command line and configuration file, both of which say nothing about the persistent options, and whose settings were changed while it ran,
    starts again with exactly these settings: the log level and file, the bootstrap servers, each read from its text, and the accesses that are allowed; all its other options are those of the first start. *)
Theorem saved_options_come_back args conf occs file o p0 p servers :
  parse_command_line args (description_full default_log_level) = Some occs -> silent occs -> values_of (str "drop-saved-opts") occs = [] -> silent_file conf ->
  construct env default_log_level args conf None = (file, Started o p0) ->
  settings_live p -> servers ≡ₚ elements (s_bootstraps p) ->
  construct env default_log_level args conf (Some (saved_text servers p)) = (Some (saved_text (elements (s_bootstraps p)) p), Started o p).
Proof.
  intros Hocc Hsil Hdrop Hconf Hstart Hlive Hserv. assert (list_to_set servers = s_bootstraps p) as Hset by (rewrite Hserv; apply list_to_set_elements_L).
  unfold construct in *. rewrite Hocc in *. destruct (store _ occs empty_map) as [m1|] eqn:E1; [|done]. destruct (count (values m1) "help"); [done|]. destruct (read_repo env (values m1)) as [repo|e]; [|done].
  assert (as_bool (values m1) "drop-saved-opts" = false) as Hnd.
  { unfold as_bool, as_optional, values. rewrite (store_entry _ _ _ _ _ E1), Hdrop, empty_entry. change (stored _ [] Absent) with (Defaulted [str "0"]). cbn [hd_error]. by rewrite bool_0. }
  rewrite Hnd in *. cbn [store_file] in Hstart.
  destruct (saved_file_read servers p m1) as (m2 & E2 & H2).
  { intros a Ha. destruct (live_servers p Hlive a) as [s Es]; [rewrite <- Hset; by apply elem_of_list_to_set|]. by eapply server_plain. }
  rewrite E2. destruct (store_file _ conf m1) as [mf|] eqn:Ef; [|done].
  destruct (conf_file_local conf m1 m2 mf Hconf) as (mf' & Ef' & Hother & Hpers); [intros n Hn; rewrite H2; by rewrite saved_unknown|done|]. rewrite Ef'.
  assert (read_persistent env default_log_level (values mf') = inl p) as ->.
  { apply (persistent_read _ servers); [done|done|]. intros n Hn. unfold values. apply (saved_entry n); [done| |].
    - destruct (saved_values servers p) as (K1 & K2 & K3 & K4 & K5 & K6 & K7). unfold persistent_names, description_saved in Hn. cbn [fmap list_fmap o_name text_option switch texts] in Hn. rewrite !elem_of_cons in Hn.
      destruct_or! Hn; try (by apply elem_of_nil in Hn); subst n; rewrite ?K1, ?K2, ?K4, ?K5, ?K6, ?K7; first [by right|by left].
    - rewrite (Hpers n Hn), H2, (store_entry _ _ _ _ n E1), (Hsil n Hn), empty_entry. destruct conf; [by right|by left]. }
  destruct (read_persistent env default_log_level (values mf)) as [q|e]; [|done].
  assert (read_options env (values mf') repo = read_options env (values mf) repo) as -> by (apply read_options_same; intros n Hn; unfold values; by rewrite Hother).
  destruct (read_options env (values mf) repo) as [o'|e]; [|done]. by injection Hstart as _ -> _.
Qed.

End Restart.

(** ** What is accepted is consistent *)

Section Consistent.
Context `{A : AddressText} `{P : ProgramOptions}.
Variables (env : environment) (default_log_level : log_level_t).

Definition has_colon (c : list byte) : Prop := c = [] \/ ":"%byte ∈ c.

Record options_consistent (o : Options) : Prop := {
  oc_repo : is_directory env (repo_root o) = true;
  oc_key : caches_get Bep5Http (i_caches (injection_ o)) = true \/ caches_get Bep3HTTPOverI2P (i_caches (injection_ o)) = true -> exists pk, cache_http_pubkey o = Some pk /\ length pk = 32%nat;
  oc_injector : caches_get Bep5Http (i_caches (injection_ o)) = true -> is_Some (i_bep5 (injection_ o));
  (** What the branch for the I2P cache sets, which is not an endpoint in I2P. *)
  oc_i2p_swarm : caches_get Bep3HTTPOverI2P (i_caches (injection_ o)) = true -> is_Some (i_bep5 (injection_ o));
  oc_tracker : is_Some (i2p_bep3_tracker o) <-> caches_get Bep3HTTPOverI2P (i_caches (injection_ o)) = true;
  oc_ouisync : is_Some (i_ouisync (injection_ o)) <-> caches_get Ouisync (i_caches (injection_ o)) = true;
  oc_credentials : has_colon (client_credentials o) /\ has_colon (frontend_credentials_ o) /\ has_colon (injector_credentials o);
  oc_reachable : injector_credentials o <> [] -> is_Some (i_bep5 (injection_ o)) \/ is_Some (i_i2p (injection_ o));
  oc_tokens : front_end_token o <> Some [] /\ proxy_token o <> Some [];
  oc_hops : i2p_hops_per_tunnel o <> 0 /\ i2p_hops_per_tunnel o <= 8;
  oc_static : cache_static_path o <> [] -> is_directory env (cache_static_path o) = true /\ is_directory env (cache_static_content_path o) = true;
  oc_ca : (tls_ca_cert_store_dir o = [] /\ default_verify_paths env = true) \/
    (path_exists env (tls_ca_cert_store_dir o) = true /\
     (if is_directory env (tls_ca_cert_store_dir o) then add_verify_path env (tls_ca_cert_store_dir o) else add_certificate_authority env (tls_ca_cert_store_dir o)) = true);
  oc_ca_files : Forall (fun f => load_verify_file env f = true) (tls_ca_cert_store_files o);
  oc_domain : lower_str (local_domain o) = local_domain o;
  oc_metrics : forall mc, metrics o = Some mc -> servers mc <> [] /\ validate_key env (encryption_key mc) = true;
}.

Lemma from_hex_half s : forall t, from_hex s = Some t -> Nat.Even (length s) -> length s = (2 * length t)%nat.
Proof.
  assert (forall k s t, (length s <= k)%nat -> from_hex s = Some t -> Nat.Even (length s) -> length s = (2 * length t)%nat) as Hk; [|intros; by eapply (Hk (length s))].
  clear s. induction k as [|k IH]; intros [|a [|b s]] t Hl E He; cbn [length] in Hl; try lia; try (cbn in E; by injection E as <-).
  - destruct He as [x He]. cbn in He. lia.
  - cbn [from_hex] in E. destruct (from_hex2 a b) as [oc|]; [|done]. destruct (from_hex s) as [out|] eqn:Es; [|done]. injection E as <-. cbn [length]. rewrite (IH s out); [lia|lia|done|]. destruct He as [x He]. exists (x - 1)%nat. cbn in He. lia.
Qed.

Lemma public_key_length vals pk : read_public_key env vals = inl (Some pk) -> length pk = 32%nat.
Proof.
  unfold read_public_key. destruct (as_optional _ _) as [v|]; [|done]. unfold PublicKey_from_hex. destruct (Nat.eqb_spec (length v) 64) as [Hl|].
  - destruct (from_hex v) as [k|] eqn:E.
    + intros [= <-]. apply from_hex_half in E; [lia|]. exists 32%nat. lia.
    + destruct (Nat.eqb_spec (length (base32_decode env v)) 32); [by intros [= <-]|done].
  - destruct (Nat.eqb_spec (length (base32_decode env v)) 32); [by intros [= <-]|done].
Qed.

Lemma find_char_in c s : find_char c s <> None -> c ∈ s.
Proof. induction s as [|x s IH]; cbn; [done|]. case_bool_decide; [subst; left|]. intros Hf. right. apply IH. intros E. by rewrite E in Hf. Qed.

Lemma colon_checked c : negb (bool_decide (c = [])) && bool_decide (find_char ":"%byte c = None) = false -> has_colon c.
Proof.
  intros H. apply andb_false_iff in H as [H|H].
  - apply negb_false_iff, bool_decide_eq_true in H. by left.
  - apply bool_decide_eq_false in H. right. by apply find_char_in.
Qed.

Lemma credentials_colon vals v n e c : read_credentials vals v n e = inl c -> has_colon c.
Proof.
  unfold read_credentials. generalize (match v with Some (x :: w) => x :: w | _ => default [] (as_optional vals n) end). intros x. destruct (_ && _) eqn:E; [done|]. intros [= ->]. by apply colon_checked.
Qed.

Lemma injector_credentials_ok vals i c : read_injector_credentials vals i = inl c -> has_colon c /\ (c <> [] -> is_Some (i_bep5 i) \/ is_Some (i_i2p i)).
Proof.
  unfold read_injector_credentials. destruct (as_optional _ _) as [cred|]; [|intros [= <-]; split; [by left|done]]. destruct (_ && _) eqn:E; [done|]. apply colon_checked in E.
  destruct (i_bep5 i) as [ep|], (i_i2p i) as [a|]; intros [= <-]; (split; [done|]); intros _; eauto.
Qed.

(** The caches that are enabled have what they need. *)
Definition caches_ok (pubkey : option (list byte)) (i : injection) : Prop :=
  (caches_get Bep5Http (i_caches i) = true \/ caches_get Bep3HTTPOverI2P (i_caches i) = true -> is_Some pubkey /\ is_Some (i_bep5 i)) /\ (is_Some (i_ouisync i) <-> caches_get Ouisync (i_caches i) = true).

Lemma enable_cache_ok index pubkey t i i' : caches_ok pubkey i -> enable_cache env index pubkey t i = inl i' -> caches_ok pubkey i'.
Proof.
  intros [H1 H2] E. unfold enable_cache in E. destruct t.
  - destruct pubkey as [pk|]; [|done]. injection E as <-. split; [intros _; split; [eauto|cbn; destruct (i_bep5 i); eauto]|done].
  - destruct pubkey as [pk|]; [|done]. injection E as <-. split; [intros _; split; [eauto|cbn; destruct (i_bep5 i); eauto]|done].
  - destruct index as [t|]; [|done]. injection E as <-. split; [done|]. cbn. split; eauto.
Qed.

Lemma read_caches_ok index pubkey types : forall i i', caches_ok pubkey i -> read_caches env index pubkey types i = inl i' -> caches_ok pubkey i'.
Proof.
  induction types as [|t types IH]; intros i i' Hi E; cbn [read_caches] in E; [by injection E as <-|]. destruct (CacheType_from_cmd_arg t) as [ty|]; [|done].
  destruct (enable_cache env index pubkey ty i) as [i1|] eqn:E1; [|done]. eapply IH; [|done]. by eapply enable_cache_ok.
Qed.

Lemma hops_ok vals i n : read_hops vals i = inl n -> n <> 0 /\ n <= 8.
Proof.
  unfold read_hops. destruct (as_number _ _) as [k|]; [|by intros [= <-]]. destruct (Z.eqb_spec k 0); [done|]. destruct (Z.ltb_spec 8 k); [done|]. cbn [orb].
  destruct (i_i2p i); [by intros [= <-]|]. destruct (caches_get _ _); [by intros [= <-]|done].
Qed.

Lemma tracker_ok vals i t : read_tracker vals i = inl t -> (is_Some t <-> caches_get Bep3HTTPOverI2P (i_caches i) = true).
Proof.
  unfold read_tracker. destruct (as_optional _ _) as [s|].
  - destruct (caches_get _ _); cbn [negb]; [|done]. destruct (I2pAddress_parse s); [|done]. intros [= <-]. split; eauto.
  - destruct (caches_get _ _); [done|]. intros [= <-]. split; [by intros []|done].
Qed.

Lemma static_ok vals content repo : read_static env vals = inl (content, repo) -> repo <> [] -> is_directory env repo = true /\ is_directory env content = true.
Proof.
  unfold read_static, count, as_optional. destruct (vals (str "cache-static-root")) as [|p l]; cbn [hd_error].
  - destruct (vals (str "cache-static-repo")); cbn [hd_error]; [|done]. by intros [= <- <-].
  - destruct (is_directory env p) eqn:Ep; cbn [negb]; [|done]. destruct (vals (str "cache-static-repo")) as [|r l']; cbn [hd_error].
    + rewrite (bool_decide_eq_true_2 (@nil (list byte) = [])) by done. cbn [negb]. destruct (_ && _) eqn:E; [done|]. intros [= <- <-] Hne. rewrite bool_decide_eq_false_2 in E by done. cbn in E. by apply negb_false_iff in E.
    + rewrite (bool_decide_eq_false_2 (p :: l = [])) by done. cbn [negb]. destruct (_ && _) eqn:E; [done|]. intros [= <- <-] Hne. rewrite bool_decide_eq_false_2 in E by done. cbn in E. by apply negb_false_iff in E.
Qed.

Lemma metrics_ok vals mc : read_metrics env vals = inl (Some mc) -> servers mc <> [] /\ validate_key env (encryption_key mc) = true.
Proof.
  unfold read_metrics. destruct (metrics_counts _ _ _); [|done]. destruct (read_metrics_servers _ _ _ _) as [ss|]; [|done]. destruct (if as_bool vals _ then _ else _) as [b|]; [|done]. destruct ss as [|x ss]; [done|].
  destruct (as_optional _ _) as [key|]; [|done]. destruct (validate_key env (metrics_key key)) eqn:E; [|done]. by intros [= <-].
Qed.

Lemma token_ok vals n e t : read_token vals n e = inl t -> t <> Some [].
Proof. unfold read_token. destruct (as_optional _ _) as [[|x s]|]; by intros [= <-]. Qed.

Lemma domain_ok vals d : read_local_domain vals = inl d -> lower_str d = d.
Proof. unfold read_local_domain. destruct (as_optional _ _) as [s|]; [|by intros [= <-]]. destruct (_ && _); [|done]. intros [= <-]. apply lower_str_idem. Qed.

Lemma origin_ssl_ok vals dir files : read_origin_ssl env vals = inl (dir, files) ->
  ((dir = [] /\ default_verify_paths env = true) \/
   (path_exists env dir = true /\ (if is_directory env dir then add_verify_path env dir else add_certificate_authority env dir) = true)) /\
  Forall (fun f => load_verify_file env f = true) files.
Proof.
  unfold read_origin_ssl, load_tls_ca_certificates, guard_. destruct (default [] _) as [|x d] eqn:Ed.
  - destruct (default_verify_paths env); [|done]. destruct (forallb _ _) eqn:Ef; [|done]. intros [= <- <-]. split; [by left|]. by apply Forall_forall; intros f Hf; rewrite forallb_forall in Ef; apply Ef, list_elem_of_In.
  - destruct (path_exists env (x :: d)) eqn:Ep; [|done]. cbn [negb]. destruct (is_directory env (x :: d)) eqn:Edir; [destruct (add_verify_path env (x :: d)) eqn:Ea|destruct (add_certificate_authority env (x :: d)) eqn:Ea]; try done;
      (destruct (forallb _ _) eqn:Ef; [|done]); intros [= <- <-]; (split; [right; by rewrite Edir|]); apply Forall_forall; intros f Hf; rewrite forallb_forall in Ef; by apply Ef, list_elem_of_In.
Qed.

(** C14: a configuration that is accepted is consistent: the repository is a directory; a cache over HTTP, BEP5 or I2P, has the key of the injectors, of 32 bytes, and the BEP5 one has the endpoint of an injector; the I2P one
    has that BEP5 endpoint too, which is what the code sets for it (nothing is said about an endpoint in I2P, which it may lack), and it has its tracker, as nothing else has; the same for the page index of Ouisync; credentials
    have a colon, and those for the injector an endpoint to be sent to; tokens are not empty; tunnels have one to eight hops; the directories of a static cache exist, and so does the path of the CA certificates, which were
    loaded from there (or from the defaults, if no path is given) and from all the files that are named; the local domain is in lower case; and metrics are sent somewhere, with a key that was validated. *)
Theorem started_options_consistent args conf saved file o p : construct env default_log_level args conf saved = (file, Started o p) -> options_consistent o.
Proof.
  unfold construct. destruct (match parse_command_line _ _ with Some _ => _ | None => _ end) as [m1|]; [|done]. destruct (count _ _); [done|]. destruct (read_repo env (values m1)) as [repo|e] eqn:Er; [|done].
  assert (is_directory env repo = true) as Hrepo. { revert Er. unfold read_repo. destruct (as_optional _ _) as [r|]; [|done]. destruct (path_exists env r); [|done]. cbn [negb]. destruct (is_directory env r) eqn:Ed; [|done]. by intros [= <-]. }
  destruct (match store_file _ _ _ with Some _ => _ | None => _ end) as [m|]; [|done]. destruct (read_persistent _ _ _) as [q|]; [|done]. destruct (read_options env (values m) repo) as [o'|] eqn:Eo; [|done]. intros [= _ <- _]. revert Eo. clear Er. generalize (values m). intros vals.
  unfold read_options. destruct (read_endpoint _ _ _) as [lep|]; [|done]. destruct (read_injector_ep _) as [[e1 e2]|]; [|done]. destruct (read_endpoint _ _ _) as [fep|]; [|done]. destruct (read_unix_socket _ _ _) as [sock|]; [|done].
  destruct (read_token _ _ _) as [t1|] eqn:T1; [|done]. destruct (read_token _ "proxy-access-token" _) as [t2|] eqn:T2; [|done]. destruct (read_credentials _ _ _ _) as [c1|] eqn:C1; [|done].
  destruct (read_credentials _ _ "frontend-credentials" _) as [c2|] eqn:C2; [|done]. destruct (read_public_key _ _) as [pk|] eqn:K; [|done]. destruct (read_caches _ _ _ _ _) as [inj|] eqn:I; [|done].
  destruct (read_injector_credentials _ _) as [ic|] eqn:IC; [|done]. destruct (read_hops _ _) as [hops|] eqn:H1; [|done]. destruct (read_tracker _ _) as [tr|] eqn:Tr; [|done]. destruct (guard_ _ _); [|done].
  destruct (read_static _ _) as [[ct sr]|] eqn:St; [|done]. destruct (read_local_domain _) as [dom|] eqn:D; [|done]. destruct (read_dns _ _ _); [|done]. destruct (read_origin_ssl _ _) as [[cad caf]|] eqn:Ca; [|done]. destruct (read_metrics _ _) as [mt|] eqn:M; [|done]. apply origin_ssl_ok in Ca as [Ca1 Ca2].
  apply read_caches_ok in I as [I1 I2]; [|split; cbn; [by intros []|split; [by intros []|done]]]. apply injector_credentials_ok in IC as [IC1 IC2].
  intros [= <-]. split; cbn.
  - done.
  - intros Hc. destruct (I1 Hc) as [[k ->] _]. exists k. split; [done|]. by eapply public_key_length.
  - intros Hc. apply I1. by left.
  - intros Hc. apply I1. by right.
  - by eapply tracker_ok.
  - done.
  - split_and!; [by eapply credentials_colon..|done].
  - done.
  - split; by eapply token_ok.
  - by eapply hops_ok.
  - by eapply static_ok.
  - done.
  - done.
  - by eapply domain_ok.
  - intros mc ->. by eapply metrics_ok.
Qed.

(** The branch for the I2P cache gives the client the swarm of the injectors in the BitTorrent DHT. *)
Lemma i2p_cache_gets_bep5_swarm index pk i : i_bep5 i = None ->
  exists i', enable_cache env index (Some pk) Bep3HTTPOverI2P i = inl i' /\ i_bep5 i' = Some (Bep5 (compute_injector_swarm_name (base32up_encode env) pk protocol_version_current)).
Proof. intros E. eexists. split; [reflexivity|]. cbn. by rewrite E. Qed.

(** Certificates with an at sign are taken as text, the others as paths. *)
Lemma cacert_at_is_text path : certificate_from_string env path = true -> read_cacert env ("@"%byte :: path) = inl (Some (CertText path)).
Proof. intros E. unfold read_cacert. rewrite !bool_decide_eq_false_2 by done. cbn [orb]. by rewrite E. Qed.

(** The bootstrap servers of all sources are put together. *)
Lemma servers_put_together {L : ProgramOptionsLaws P} occs1 occs2 occs3 m1 m2 m3 :
  store (description_full default_log_level) occs1 empty_map = Some m1 -> store description_saved occs2 m1 = Some m2 -> store (description_full default_log_level) occs3 m2 = Some m3 ->
  values m3 (str "bt-bootstrap-extra") = values_of (str "bt-bootstrap-extra") occs1 ++ values_of (str "bt-bootstrap-extra") occs2 ++ values_of (str "bt-bootstrap-extra") occs3.
Proof.
  intros E1 E2 E3. unfold values. rewrite (store_entry _ _ _ _ _ E3), (store_entry _ _ _ _ _ E2), (store_entry _ _ _ _ _ E1), empty_entry.
  generalize (values_of (str "bt-bootstrap-extra") occs1), (values_of (str "bt-bootstrap-extra") occs2), (values_of (str "bt-bootstrap-extra") occs3). intros a b c.
  change (find_description (str "bt-bootstrap-extra") (description_full default_log_level)) with (Some (texts "bt-bootstrap-extra" true)). change (find_description (str "bt-bootstrap-extra") description_saved) with (Some (texts "bt-bootstrap-extra" true)).
  destruct a, b, c; cbn; by rewrite ?app_nil_r, <- ?app_assoc.
Qed.

End Consistent.

(** ** Witnesses *)

Module OptionsExample.

(** The library as functions: a map of entries, and a parser of lines. *)
Definition parse_line (l : list byte) : option (list byte * list byte) := (fun pos => (take (pos - 1) l, drop (pos + 2) l)) <$> find_char "="%byte l.

Fixpoint parse_lines (ls : list (list byte)) : option occurrences :=
  match ls with
  | [] => Some []
  | [] :: ls => parse_lines ls
  | l :: ls => let? o := parse_line l in let? os := parse_lines ls in Some (o :: os)
  end.

Fixpoint parse_pairs (args : list (list byte)) : option occurrences :=
  match args with
  | [] => Some []
  | n :: v :: args => let? os := parse_pairs args in Some ((n, v) :: os)
  | _ => None
  end.

#[local] Instance plain_options : ProgramOptions := {|
  variables_map := list byte -> entry;
  empty_map := fun _ => Absent;
  vm_entry := fun m n => m n;
  store := fun ds occs m => Some (fun n => stored (find_description n ds) (values_of n occs) (m n));
  parse_command_line := fun args _ => parse_pairs args;
  parse_config_file := fun text _ => parse_lines (split_on newline text);
  bool_value := fun s => if bool_decide (s = str "1") then Some true else if bool_decide (s = str "0") then Some false else None;
  number_value := fun s => fst (number_signed W8 Byte.x00 s);
|}.

Lemma parse_option_line n v : plain_name n -> parse_line (n ++ str " = " ++ v) = Some (n, v).
Proof.
  intros [_ Hn]. unfold parse_line. replace (n ++ str " = " ++ v) with ((n ++ [" "%byte]) ++ "="%byte :: " "%byte :: v) by (by rewrite <- app_assoc).
  rewrite find_char_app by (rewrite elem_of_app, list_elem_of_singleton; by intros [?|?]). cbn [fmap option_fmap option_map]. rewrite length_app. cbn [length]. do 2 f_equal.
  - replace (length n + 1 - 1)%nat with (length n) by lia. rewrite <- app_assoc. by rewrite take_app_length.
  - rewrite drop_app_ge by (rewrite length_app; cbn; lia). rewrite length_app. cbn [length]. by replace (length n + 1 + 2 - (length n + 1))%nat with 2%nat by lia.
Qed.

Lemma plain_no_newline s : forallb plain_char s = true -> newline ∉ s.
Proof. intros H Hin. rewrite forallb_forall in H. apply list_elem_of_In, H in Hin. done. Qed.

Lemma parse_lines_text occs : Forall (fun o => plain_name (fst o) /\ plain_text (snd o)) occs -> parse_lines (split_on newline (concat (option_line <$> occs))) = Some occs.
Proof.
  induction 1 as [|[n v] occs [Hn Hv] _ IH]; [done|]. cbn [fmap list_fmap concat]. unfold option_line at 1. cbn [fst snd] in *. rewrite <- !app_assoc. cbn [app].
  replace (n ++ str " = " ++ v ++ newline :: concat (option_line <$> occs)) with ((n ++ str " = " ++ v) ++ newline :: concat (option_line <$> occs)) by (by rewrite <- !app_assoc).
  destruct Hn as [[Hne Hpn] Hq]. destruct Hv as [_ Hpv]. rewrite split_on_free_cons.
  2:{ rewrite !elem_of_app. intros [?|[?|?]]; [by apply (plain_no_newline n)|by apply (bool_decide_unpack (newline ∉ str " = "))|by apply (plain_no_newline v)]. }
  cbn [parse_lines]. destruct (n ++ str " = " ++ v) as [|c l] eqn:El; [by destruct n|]. rewrite <- El, parse_option_line by done. by rewrite IH.
Qed.

#[local] Instance plain_options_laws : ProgramOptionsLaws plain_options.
Proof.
  split; try done.
  - intros ds occs m m' n [= <-]. done.
  - intros ds occs Hf. apply parse_lines_text. eapply Forall_impl; [done|]. intros o (_ & H1 & H2). done.
Qed.

Definition loopback : list byte := [Byte.x7f; Byte.x00; Byte.x00; Byte.x01].

#[local] Instance two_addresses : AddressText := {|
  print_address := fun a => match a with IPv4 _ => str "127.0.0.1" | IPv6 _ => str "::1" end;
  make_address := fun s => if bool_decide (s = str "127.0.0.1") then Some (IPv4 loopback) else if bool_decide (s = str "::1") then Some (IPv6 []) else None;
  is_unspecified_address := fun _ => false;
|}.

Lemma lower_fixed s t : forallb (fun c => negb ((97 <=? code c) && (code c <=? 122))) t = true -> lower_str s = t -> s = t.
Proof.
  intros Ht <-. unfold lower_str in *. induction s as [|c s IH]; [done|]. cbn [map forallb] in *. apply andb_true_iff in Ht as [Hc Ht]. f_equal; [|by apply IH]. clear IH Ht. by destruct c.
Qed.

#[local] Instance two_addresses_laws : ServerTextLaws two_addresses.
Proof.
  split.
  - intros s a. cbn. case_bool_decide; [by intros [= <-]|]. case_bool_decide; [by intros [= <-]|done].
  - intros []; done.
  - intros []; split; by apply (bool_decide_unpack _).
  - intros b. by apply (bool_decide_unpack _).
  - intros s. cbn. case_bool_decide as H1; [done|]. case_bool_decide as H2; [done|]. intros _. case_bool_decide as H3; [exfalso; apply H1; by apply lower_fixed|]. case_bool_decide as H4; [exfalso; apply H2; by apply lower_fixed|done].
Qed.

Definition env0 : environment := {|
  path_exists := fun _ => true; is_directory := fun _ => true; is_absolute := fun _ => true; join_path := fun a b => a ++ str "/" ++ b; log_opens := true; CLIENT_CREDENTIALS := None; FRONTEND_CREDENTIALS := Some (str "u:p");
  base32_decode := fun _ => []; base32up_encode := fun s => s; str_to_proto := fun s => Some s; default_verify_paths := true; add_verify_path := fun _ => true; add_certificate_authority := fun _ => true;
  load_verify_file := fun _ => true; certificate_from_string := fun _ => true; certificate_from_file := fun _ => true; validate_key := fun _ => true;
|}.

Definition args0 : list (list byte) := [str "repo"; str "/r"; str "cache-type"; str "bep5-http"; str "cache-http-public-key"; concat (replicate 32 (str "a0"))].
Definition settings1 : saved_options :=
  {| s_log_level := ERROR_LEVEL; s_log_file := true; s_bootstraps := {[AHost (str "dht.example.org:6881")]} ∪ {[AEndpoint {| address := IPv4 loopback; Contact.port := 80 |}]}; s_no_default := true; s_origin := false;
     s_injector := true; s_proxy := false |}.
Definition started0 : started := snd (construct env0 INFO args0 None None).

End OptionsExample.
Import OptionsExample.

Lemma saved_options_come_back_witness :
  exists o p0, started0 = Started o p0 /\
    @construct two_addresses plain_options env0 INFO args0 None (Some (@saved_text two_addresses (elements (s_bootstraps settings1)) settings1)) =
    (Some (@saved_text two_addresses (elements (s_bootstraps settings1)) settings1), Started o settings1).
Proof.
  destruct started0 as [| e|o p0] eqn:E; [vm_compute in E; discriminate..|]. exists o, p0. split; [reflexivity|].
  refine (@saved_options_come_back two_addresses two_addresses_laws plain_options plain_options_laws env0 INFO args0 None _ (fst (@construct two_addresses plain_options env0 INFO args0 None None)) o p0 settings1 _ _ _ _ _ _ _ _).
  - vm_compute. reflexivity.
  - intros n Hn. unfold persistent_names in Hn. cbn in Hn. rewrite !elem_of_cons in Hn. destruct_or! Hn; try (by apply elem_of_nil in Hn); subst n; vm_compute; reflexivity.
  - vm_compute. reflexivity.
  - by intros ? ? [=].
  - rewrite <- E. unfold started0. apply surjective_pairing.
  - split; [|done]. cbn [s_bootstraps settings1]. intros a Ha. apply elem_of_union in Ha as [Ha|Ha]; apply elem_of_singleton in Ha as ->; [exists (str "DHT.example.org:6881")|exists (str "127.0.0.1:80")]; vm_compute; reflexivity.
  - done.
Defined.

Lemma started_options_consistent_witness : exists o p, started0 = Started o p /\ @options_consistent env0 o /\ exists pk, cache_http_pubkey o = Some pk /\ length pk = 32%nat.
Proof.
  destruct started0 as [| e|o p] eqn:E; [vm_compute in E; discriminate..|]. exists o, p. split; [reflexivity|].
  assert (@construct two_addresses plain_options env0 INFO args0 None None = (fst (@construct two_addresses plain_options env0 INFO args0 None None), Started o p)) as Ec by (rewrite <- E; unfold started0; apply surjective_pairing).
  pose proof (@started_options_consistent two_addresses plain_options env0 INFO args0 None None _ o p Ec) as Ho. split; [exact Ho|]. apply (oc_key _ _ Ho). left. vm_compute in E. injection E as <- _. reflexivity.
Defined.
