(* ===== verification/InjectorOptions.v ===== *)
(** * The configuration of the injector: src/injector_config.cpp and .h, with the keys of src/util/sign.cpp

    The constructor reads the command line and the configuration file, checks the options and sets up the signing key, which is kept in a file.  Options are read as in [ClientOptions]; keys are their 32 bytes, and the public
    key of a secret key and the expressions of Boost are parameters.  How the key files are written, which the code does not check, is an argument. *)
From S2P Require Import Prelude Number SplitString Url Http NodeId Contact Bytes CacheControl Request Bep5Client LocalDiscovery FrontEnd I2pAddress ClientOptions.

(** ** Secret keys: src/util/sign.cpp *)

Definition KEY_SIZE : nat := 32.

Definition SecretKey_from_hex (hex : list byte) : option (list byte) := if (length hex =? 2 * KEY_SIZE)%nat then from_hex hex else None.

Definition print_key (k : list byte) : list byte := to_hex k.

(** [operator>>]: a key, an exception, or a write behind the end of the array. *)
Variant key_read := KeyRead (k : list byte) | KeyNotHex | KeyShort | KeyOverrun.

Fixpoint read_key_loop (text : list byte) (bytes : list byte) : key_read :=
  match text with
  | h1 :: h2 :: text =>
      match from_hex2 h1 h2 with
      | None => KeyNotHex
      | Some c => if (length bytes <? KEY_SIZE)%nat then read_key_loop text (bytes ++ [c]) else KeyOverrun
      end
  | _ => if (length bytes =? KEY_SIZE)%nat then KeyRead bytes else KeyShort
  end.

Definition read_key (text : list byte) : key_read := read_key_loop text [].

(** ** Options *)

Definition injector_description (default_log_level : log_level_t) : list description :=
  [{| o_name := str "help"; o_kind := KText; o_default := None; o_many := false; o_composing := false |}; text_option "repo"; text_default "log-level" (log_level_str default_log_level); switch "enable-http-log-file";
   texts "bt-bootstrap-extra" true; switch "bt-bootstrap-no-default"; switch "bt-allow-martians"; number_option "udp-mux-rx-limit" 0 u32_max (Some 500); number_option "open-file-limit" 0 u32_max None;
   text_option "listen-on-tcp"; text_option "listen-on-tcp-tls"; text_option "listen-on-utp"; text_option "listen-on-utp-tls"; text_option "listen-on-i2p"; number_option "i2p-hops-per-tunnel" 0 u64_max None;
   text_option "credentials"; switch "disable-proxy"; text_option "restricted"; switch "allow-private-targets";
   {| o_name := str "dns-protocol"; o_kind := KText; o_default := Some [str "https"]; o_many := true; o_composing := true |};
   text_option "tls-ca-cert-store-dir"; texts "tls-ca-cert-store-file" false; text_option "ed25519-private-key"].

(** What the constructor throws besides the errors of the client; [BadKey] is the access to a missing key. *)
Variant injector_error := Common (e : option_error) | BadExpression | BadI2pValue | HopsWithoutListening | BadEndpoint | KeyError (r : key_read) | BadKey.

Definition iresult A : Type := A + injector_error.

Definition common {A} (r : result A) : iresult A := match r with inl a => inl a | inr e => inr (Common e) end.

Record InjectorConfig := {
  r_repo_root : list byte;
  r_log_level : log_level_t;
  r_http_log_file : bool;
  r_bootstraps : gset Address;
  r_no_default : bool;
  r_allow_martians : bool;
  r_udp_mux_rx_limit : Z;
  r_open_file_limit : option Z;
  r_credentials : list byte;
  r_disable_proxy : bool;
  r_target_rx : option (list byte);
  r_allow_private_targets : bool;
  r_dns_protocols : list (list byte);
  r_listen_on_i2p : bool;
  r_i2p_hops_per_tunnel : Z;
  r_tcp_endpoint : option endpoint;
  r_tcp_tls_endpoint : option endpoint;
  r_utp_endpoint : option endpoint;
  r_utp_tls_endpoint : option endpoint;
  r_key : list byte;
  r_swarm_name : list byte;
}.

(** [udp_mux_rx_limit_in_bytes], in 32 bits. *)
Definition udp_mux_rx_limit_in_bytes (limit : Z) : Z := (limit * 1000) mod 2 ^ 32 / 8.

Definition bittorrent_endpoint (c : InjectorConfig) : endpoint :=
  match r_utp_tls_endpoint c, r_utp_endpoint c with
  | Some ep, _ => ep
  | None, Some ep => ep
  | None, None => {| address := IPv4 (replicate 4 Byte.x00); Contact.port := 4567 |}
  end.

(** The files of the keys. *)
Record key_files := { priv_config : option (list byte); pub_config : option (list byte) }.

(** What becomes of a file that is written through a stream whose state is not looked at: it is written, it cannot be opened and stays as it is, or it is cut short. *)
Variant written := Written | NotOpened | Cut (n : nat).
Record key_writes := { w_priv : written; w_pub : written }.

Definition write_file (w : written) (text : list byte) (old : option (list byte)) : option (list byte) :=
  match w with Written => Some text | NotOpened => old | Cut n => Some (take n text) end.

Section Injector.
Context `{A : AddressText} `{P : ProgramOptions}.
Variables (env : environment) (default_log_level : log_level_t).
(** The public key of a secret key, whether an expression can be compiled, and the key that would be generated. *)
Variables (public_key : list byte -> list byte) (is_regex : list byte -> bool) (generated : list byte).
(** How the files of the keys are written. *)
Variable w : key_writes.

(** [setup_ed25519_private_key] *)
Definition write_keys (k : list byte) (files : key_files) : key_files :=
  {| priv_config := write_file (w_priv w) (print_key k) (priv_config files); pub_config := write_file (w_pub w) (to_hex (public_key k)) (pub_config files) |}.

Definition setup_ed25519_private_key (hex : list byte) (files : key_files) : key_files * iresult (list byte) :=
  match hex with
  | [] =>
      match priv_config files with
      | Some text =>
          match read_key text with
          | KeyRead k => ({| priv_config := Some text; pub_config := write_file (w_pub w) (to_hex (public_key k)) (pub_config files) |}, inl k)
          | e => (files, inr (KeyError e))
          end
      | None => (write_keys generated files, inl generated)
      end
  | _ =>
      match SecretKey_from_hex hex with
      | Some k => (write_keys k files, inl k)
      | None => (files, inr BadKey)
      end
  end.

Section Values.
Variable vals : list byte -> list (list byte).

Definition read_listen (n : string) : iresult (option endpoint) :=
  match as_optional vals n with
  | None => inl None
  | Some s => match parse_endpoint Byte.x00 s with Some (ep, _) => inl (Some ep) | None => inr BadEndpoint end
  end.

Definition read_i2p : iresult bool :=
  match as_optional vals "listen-on-i2p" with
  | None => inl false
  | Some v => if bool_decide (v ∈ [[]; str "true"; str "false"]) then inl (bool_decide (v = str "true")) else inr BadI2pValue
  end.

Definition read_injector_hops (listening : bool) : iresult Z :=
  match as_number vals "i2p-hops-per-tunnel" with
  | None => inl 3
  | Some n => if (n =? 0) || (8 <? n) then inr (Common BadHops) else if negb listening then inr HopsWithoutListening else inl n
  end.

Definition read_injector_own_credentials : iresult (list byte) :=
  let c := default [] (as_optional vals "credentials") in
  if negb (bool_decide (c = [])) && bool_decide (find_char ":"%byte c = None) then inr (Common ClientCredentialsNoColon) else inl c.

(** The expression of the targets, and whether the proxy is disabled. *)
Definition read_restricted : iresult (option (list byte) * bool) :=
  match as_optional vals "restricted" with
  | None => inl (None, as_bool vals "disable-proxy")
  | Some rx => if is_regex rx then inl (Some rx, true) else inr BadExpression
  end.

Definition read_injector (repo : list byte) (files : key_files) : key_files * iresult InjectorConfig :=
  match
    (try! level := common (read_log_level default_log_level vals) in
     try! extras := common (read_servers (as_vector vals "bt-bootstrap-extra") ∅) in
     try! credentials := read_injector_own_credentials in
     try! (rx, no_proxy) := read_restricted in
     try! protos := common (read_dns env (as_vector vals "dns-protocol") []) in
     try! i2p := read_i2p in
     try! hops := read_injector_hops i2p in
     try! tcp := read_listen "listen-on-tcp" in
     try! tcp_tls := read_listen "listen-on-tcp-tls" in
     try! utp := read_listen "listen-on-utp" in
     try! utp_tls := read_listen "listen-on-utp-tls" in
     inl (fun key => {|
       r_repo_root := repo; r_log_level := level; r_http_log_file := as_bool vals "enable-http-log-file" && log_opens env; r_bootstraps := extras; r_no_default := as_bool vals "bt-bootstrap-no-default";
       r_allow_martians := as_bool vals "bt-allow-martians"; r_udp_mux_rx_limit := default 500 (as_number vals "udp-mux-rx-limit"); r_open_file_limit := as_number vals "open-file-limit"; r_credentials := credentials;
       r_disable_proxy := no_proxy; r_target_rx := rx; r_allow_private_targets := as_bool vals "allow-private-targets"; r_dns_protocols := protos; r_listen_on_i2p := i2p; r_i2p_hops_per_tunnel := hops;
       r_tcp_endpoint := tcp; r_tcp_tls_endpoint := tcp_tls; r_utp_endpoint := utp; r_utp_tls_endpoint := utp_tls; r_key := key;
       r_swarm_name := compute_injector_swarm_name (base32up_encode env) (public_key key) protocol_version_current |}))
  with
  | inr e => (files, inr e)
  | inl config =>
      let '(files, key) := setup_ed25519_private_key (default [] (as_optional vals "ed25519-private-key")) files in
      (files, try! key := key in try! _ := common (read_origin_ssl env vals) in inl (config key))
  end.

End Values.

Variant injector_started := InjectorHelp | InjectorFailed (e : injector_error) | InjectorStarted (c : InjectorConfig).

(** [InjectorConfig::InjectorConfig] *)
Definition construct_injector (args : list (list byte)) (conf : option (list byte)) (files : key_files) : key_files * injector_started :=
  let desc := injector_description default_log_level in
  match (let? occs := parse_command_line args desc in store desc occs empty_map) with
  | None => (files, InjectorFailed (Common ProgramOptionsError))
  | Some m1 =>
      if count (values m1) "help" then (files, InjectorHelp)
      else
        match read_repo env (values m1) with
        | inr e => (files, InjectorFailed (Common e))
        | inl repo =>
            match store_file desc conf m1 with
            | None => (files, InjectorFailed (Common ProgramOptionsError))
            | Some m => let '(files, r) := read_injector (values m) repo files in (files, match r with inl c => InjectorStarted c | inr e => InjectorFailed e end)
            end
        end
  end.

End Injector.

(** ** Keys are read as they are printed *)

Lemma hex_pair_two c : exists a b, hex_pair c = [a; b] /\ from_hex2 a b = Some c.
Proof. pose proof (from_hex2_hex_pair c) as H. unfold hex_pair in *. by eexists _, _. Qed.

Lemma read_key_app k : forall acc rest, (length acc + length k <= KEY_SIZE)%nat -> read_key_loop (to_hex k ++ rest) acc = read_key_loop rest (acc ++ k).
Proof.
  induction k as [|c k IH]; intros acc rest Hl; [by rewrite app_nil_r|]. destruct (hex_pair_two c) as (a & b & Ep & Eh). unfold to_hex. cbn [map concat]. rewrite Ep. cbn [app read_key_loop]. rewrite Eh. cbn [length] in Hl.
  destruct (Nat.ltb_spec (length acc) KEY_SIZE); [|lia]. fold (to_hex k). rewrite IH by (rewrite length_app; cbn [length]; lia). by rewrite <- app_assoc.
Qed.

(** A newline, or any other character, may follow. *)
Lemma read_key_printed k rest : length k = KEY_SIZE -> (length rest <= 1)%nat -> read_key (print_key k ++ rest) = KeyRead k.
Proof.
  intros Hk Hr. unfold read_key, print_key. rewrite read_key_app by (cbn [length]; lia). destruct rest as [|a [|b rest]]; cbn [length app read_key_loop] in *; [by rewrite Hk, Nat.eqb_refl..|lia].
Qed.

Lemma read_key_length text k : read_key text = KeyRead k -> length k = KEY_SIZE.
Proof.
  unfold read_key. generalize (@nil byte). assert (forall n text acc, (length text <= n)%nat -> read_key_loop text acc = KeyRead k -> length k = KEY_SIZE) as H; [|intros acc; by apply (H (length text))].
  clear text. induction n as [|n IH]; intros [|a [|b text]] acc Hl; cbn [length] in Hl; try lia; cbn [read_key_loop]; try (destruct (Nat.eqb_spec (length acc) KEY_SIZE); [by intros [= <-]|done]).
  destruct (from_hex2 a b); [|done]. destruct (_ <? _)%nat; [|done]. apply IH. lia.
Qed.

Lemma secret_key_length hex k : SecretKey_from_hex hex = Some k -> length k = KEY_SIZE.
Proof.
  unfold SecretKey_from_hex. destruct (Nat.eqb_spec (length hex) (2 * KEY_SIZE)) as [Hl|]; [|done]. intros E. apply from_hex_half in E; [lia|]. exists KEY_SIZE. lia.
Qed.

(** A file with one byte too many makes the loop write behind the array. *)
Lemma long_key_overruns k c : length k = KEY_SIZE -> read_key (print_key (k ++ [c])) = KeyOverrun.
Proof.
  intros Hk. unfold read_key, print_key. destruct (hex_pair_two c) as (a & b & Ep & Eh). assert (to_hex (k ++ [c]) = to_hex k ++ [a; b]) as -> by (unfold to_hex; rewrite map_app, concat_app; cbn [map concat]; by rewrite Ep).
  rewrite read_key_app by (cbn [length]; lia). cbn [app read_key_loop]. rewrite Eh. destruct (Nat.ltb_spec (length k) KEY_SIZE); [lia|done].
Qed.

(** The limit wraps around above 4294967 kilobits. *)
Lemma rx_limit_wraps : udp_mux_rx_limit_in_bytes 4294968 = 88.
Proof. reflexivity. Qed.

Lemma rx_limit_small limit : 0 <= limit <= 4294967 -> udp_mux_rx_limit_in_bytes limit = limit * 125.
Proof. intros Hl. unfold udp_mux_rx_limit_in_bytes. rewrite Z.mod_small by lia. replace (limit * 1000) with (limit * 125 * 8) by lia. by rewrite Z.div_mul. Qed.

Section Restart.
Context `{A : AddressText} `{P : ProgramOptions}.
Variables (env : environment) (default_log_level : log_level_t) (public_key : list byte -> list byte) (is_regex : list byte -> bool).

(** All is written, and nothing is cut short. *)
Definition all_written : key_writes := {| w_priv := Written; w_pub := Written |}.
Definition uncut (w : written) : Prop := w = Written \/ w = NotOpened.
Definition intact (w : key_writes) : Prop := uncut (w_priv w) /\ uncut (w_pub w).

Lemma write_same w text : uncut w -> write_file w text (Some text) = Some text.
Proof. by intros [-> | ->]. Qed.

(** Once a key is set up and written, setting up again, with the same option or without one, changes nothing. *)
Lemma key_kept g g' w' hex files files' k : length g = KEY_SIZE -> intact w' -> setup_ed25519_private_key public_key g all_written hex files = (files', inl k) ->
  length k = KEY_SIZE /\ (exists text, priv_config files' = Some text /\ read_key text = KeyRead k) /\ setup_ed25519_private_key public_key g' w' hex files' = (files', inl k) /\
  setup_ed25519_private_key public_key g' w' [] files' = (files', inl k).
Proof.
  intros Hg [Hw1 Hw2]. assert (forall k, length k = KEY_SIZE -> read_key (print_key k) = KeyRead k) as Hp by (intros x Hx; rewrite <- (app_nil_r (print_key x)); by apply read_key_printed; [|cbn; lia]).
  unfold setup_ed25519_private_key at 1. destruct hex as [|h hex].
  - destruct (priv_config files) as [text|] eqn:Ef.
    + destruct (read_key text) as [k0| | |] eqn:Ek; [|done..]. intros [= <- ->]. split_and!; [by eapply read_key_length|by exists text| |]; unfold setup_ed25519_private_key; cbn; by rewrite Ek, write_same.
    + intros [= <- <-]. split_and!; [done|exists (print_key g); split; [done|by apply Hp]| |]; unfold setup_ed25519_private_key; cbn; by rewrite Hp, write_same.
  - destruct (SecretKey_from_hex (h :: hex)) as [k0|] eqn:Ek; [|done]. intros [= <- ->]. pose proof (secret_key_length _ _ Ek) as Hl. split_and!; [done|exists (print_key k); split; [done|by apply Hp]| |].
    + unfold setup_ed25519_private_key. rewrite Ek. unfold write_keys. cbn. by rewrite !write_same.
    + unfold setup_ed25519_private_key. cbn. by rewrite Hp, write_same.
Qed.

(** C15: an injector keeps its identity.  Once it has been started, with a key of the command line, of its file or a new one, and the files of the keys could be written, its file holds the key as text that is read back as the same
    32 bytes; starting it again in the same way gives the same configuration, and so the same swarm, whatever key would be generated then, and leaves the files as they are, also if they cannot be opened for writing any more (but
    are not cut short); and so does setting up the key without the option.  An expression for targets disables the proxy, and credentials have a colon. *)
Theorem injector_keeps_identity g g' w' args conf files files' c :
  length g = KEY_SIZE -> intact w' -> construct_injector env default_log_level public_key is_regex g all_written args conf files = (files', InjectorStarted c) ->
  construct_injector env default_log_level public_key is_regex g' w' args conf files' = (files', InjectorStarted c) /\
  setup_ed25519_private_key public_key g' w' [] files' = (files', inl (r_key c)) /\ length (r_key c) = KEY_SIZE /\
  r_swarm_name c = compute_injector_swarm_name (base32up_encode env) (public_key (r_key c)) protocol_version_current /\
  (is_Some (r_target_rx c) -> r_disable_proxy c = true) /\ has_colon (r_credentials c).
Proof.
  intros Hg Hw'. unfold construct_injector. destruct (match parse_command_line _ _ with Some _ => _ | None => _ end) as [m1|]; [|done]. destruct (count _ _); [done|]. destruct (read_repo env (values m1)) as [repo|]; [|done].
  destruct (store_file _ conf m1) as [m|]; [|done]. generalize (values m). intros vals. unfold read_injector.
  destruct (common (read_log_level _ _)) as [level|]; [|done]. destruct (common (read_servers _ _)) as [extras|]; [|done]. destruct (read_injector_own_credentials vals) as [cred|] eqn:Ec; [|done].
  destruct (read_restricted is_regex vals) as [[rx noproxy]|] eqn:Er; [|done]. destruct (common (read_dns _ _ _)) as [protos|]; [|done]. destruct (read_i2p vals) as [i2p|]; [|done]. destruct (read_injector_hops vals i2p) as [hops|]; [|done].
  destruct (read_listen vals "listen-on-tcp") as [tcp|]; [|done]. destruct (read_listen vals "listen-on-tcp-tls") as [tcp_tls|]; [|done]. destruct (read_listen vals "listen-on-utp") as [utp|]; [|done].
  destruct (read_listen vals "listen-on-utp-tls") as [utp_tls|]; [|done]. destruct (setup_ed25519_private_key public_key g _ _ files) as [f [k|e]] eqn:Ek; [|done].
  destruct (common (read_origin_ssl _ _)) as [ca|] eqn:El; [|done]. intros [= <- <-]. destruct (key_kept g g' w' _ _ _ _ Hg Hw' Ek) as (H1 & _ & H2 & H3). rewrite H2. cbn [r_key r_swarm_name r_target_rx r_disable_proxy r_credentials].
  split_and!; [done|done|done|done| |].
  - revert Er. unfold read_restricted. destruct (as_optional vals "restricted") as [r|]; [destruct (is_regex r); [|done]|]; intros E [rx' Ex]; simplify_eq; done.
  - revert Ec. unfold read_injector_own_credentials. destruct (_ && _) eqn:E; [done|]. intros [= <-]. by apply colon_checked.
Qed.

(** A key that could not be written is lost without notice: the next start makes another one. *)
Lemma unwritten_key_lost g g' : let no_files := {| priv_config := None; pub_config := None |} in
  setup_ed25519_private_key public_key g {| w_priv := NotOpened; w_pub := NotOpened |} [] no_files = (no_files, inl g) /\
  snd (setup_ed25519_private_key public_key g' all_written [] no_files) = inl g'.
Proof. done. Qed.

End Restart.

(** ** Witness *)

Import OptionsExample.

Lemma injector_keeps_identity_witness :
  let start g := @construct_injector two_addresses plain_options env0 INFO (fun k => k) (fun _ => true) g all_written in
  let args := [str "repo"; str "/r"; str "restricted"; str "https://example.org/.*"] in
  exists files c, start (replicate 32 Byte.xab) args None {| priv_config := None; pub_config := None |} = (files, InjectorStarted c) /\
    start (replicate 32 Byte.x00) args None files = (files, InjectorStarted c) /\ r_key c = replicate 32 Byte.xab /\ r_disable_proxy c = true.
Proof.
  intros start args. destruct (start (replicate 32 Byte.xab) args None {| priv_config := None; pub_config := None |}) as [files [|e|c]] eqn:E; [vm_compute in E; discriminate..|]. exists files, c. split; [reflexivity|].
  destruct (@injector_keeps_identity two_addresses plain_options env0 INFO (fun k => k) (fun _ => true) (replicate 32 Byte.xab) (replicate 32 Byte.x00) all_written args None _ files c eq_refl (conj (or_introl eq_refl) (or_introl eq_refl)) E) as (H1 & _ & _ & _ & H5 & _).
  split; [exact H1|]. vm_compute in E. injection E as <- <-. split; [reflexivity|]. apply H5. eexists. reflexivity.
Defined.
